(* ===== verification/_CoqProject ===== *)
-Q . S2P
Prelude.v
Committee.v
StakeScan.v
Context.v
Block.v
StakeAggregator.v
ThresholdClock.v
Commit.v
Error.v
CommitVoteMonitor.v
RoundTracker.v
Store.v
LeaderScoring.v
Ancestor.v
TransactionConsumer.v
DagState.v
BlockSync.v
VoteTracker.v
DagInv.v
Evolve.v
DagOps.v
DagLink.v
Linearizer.v
CommitObserver.v
CommitFinalizer.v
FinalizerVotes.v
FinalizerLinks.v
FinalizerAccept.v
FinalizerInv.v
FinalizerRun.v
LinearizerSpec.v
LinearizerOps.v
BlockManager.v
BlockManagerInv.v
LeaderSchedule.v
ScheduleRun.v
DagAccept.v
DagInclude.v
SampleDag.v
FinalizerTheorems.v
FinalizerSample.v
BlockManagerDag.v
BlockManagerOps.v
BlockManagerGc.v
BlockManagerTheorems.v
LinearizerTheorems.v
BlockVerifier.v
DagTheorems.v
BaseCommitter.v
UniversalCommitter.v
Core.v
CoreThread.v
ValidatorProposer.v
AuthorityService.v
Synchronizer.v
SynchronizerLocks.v
CommitSyncer.v
CommitSyncerSpec.v
CommitSyncerSchedule.v
ProposerAncestors.v
CommitRule.v
Agreement.v
FinalizerAgreement.v
FinalizerNetwork.v
TryDecide.v
ProposerBlock.v
CommitSequence.v
CommitBatch.v
CoreInv.v
CoreTurn.v
CoreTheorems.v
ValidatorInv.v
ValidatorRun.v
ValidatorSample.v
ValidatorTheorems.v
CommitSyncerTheorems.v
FinalizerCommits.v
