(* ===== verification/Prelude.v ===== *)
(** * Verification of the Mysticeti consensus of Sui

    The program is the consensus crate under src/crates/consensus/src, with
    the committee and protocol configuration of
    src/crates/config/consensus/src and the block references of
    src/crates/types/consensus/src.  A node of it receives signed blocks,
    builds a DAG of them, decides for each round whether the block of a leader
    is committed, and turns each committed leader into a sub-DAG: a numbered,
    ordered and timestamped list of blocks.  All honest nodes must produce the
    same list.

    ** The parts and how they interact

    A block from the network passes the block verifier
    (block_verifier.rs).  The core (core.rs) hands it to the block manager
    (block_manager.rs), which suspends it until its ancestors are there, and
    then to the DAG state (dag_state.rs), a cache over a store
    (storage/mod.rs, storage/mem_store.rs).  The core then runs its commit
    loop: the leader schedule (leader_schedule.rs) says who leads a round, the
    universal committer (universal_committer.rs) asks the base committer
    (base_committer.rs) for the decision on each leader, the commit observer
    (commit_observer.rs) has the linearizer (linearizer.rs) make the sub-DAGs
    and sends them to the commit finalizer, and the scores of the sub-DAGs
    (leader_scoring.rs) change the leader schedule every 300 commits.  The
    finalizer (commit_finalizer.rs) buffers the commits until the votes on
    each of their transactions, in the vote tracker
    (transaction_vote_tracker.rs) and in later commits, give a verdict, and
    outputs them with the rejected transactions.

    A validator also makes blocks.  Its core asks the proposer (proposer.rs)
    for one after each change: the proposer picks ancestors with the ancestor
    state manager (ancestor.rs) and the round tracker (round_tracker.rs),
    takes the transactions that clients submitted (transaction.rs) and its
    votes, signs the block, accepts it into the DAG state and hands it out.
    One thread (core_thread.rs) owns the core and runs the commands of the
    services: the authority service (authority_service.rs) for the blocks that
    peers send, and the synchronizer (synchronizer.rs) for those it fetched
    because they were missing.  Peers get blocks and commits from the block
    sync service (block_sync_service.rs).  A validator that fell behind
    fetches ranges of commits, with the votes that certify them, through the
    commit syncer (commit_syncer.rs), which hands them to the core in order.

    ** Files

    - Prelude (this file): machine integers with the wrap-around of release
      builds, the [outcome] monad in which indexing, [unwrap], [expect] and
      assertions may panic and loops may run out of fuel, BTree maps and sets
      as gmaps with sorted iteration, stable sorting, shared lemmas.
    - Committee: committee.rs; authorities as a list, stakes in N, the quorum
      and validity thresholds.  StakeScan: sums of stake over sorted votes,
      the loop shared by three source files.
    - Context: context.rs, consensus_protocol_config.rs.  Block: block.rs of
      both crates.  Commit: commit.rs.  Error: error.rs.
    - StakeAggregator, ThresholdClock, CommitVoteMonitor, RoundTracker,
      Ancestor, VoteTracker: the source files of these names
      (transaction_vote_tracker.rs for the last).
    - Store: the [Store] trait as a class with its laws, and the in-memory
      store as an instance.
    - LeaderScoring, LeaderSchedule: scores, swap table and election.
      ScheduleRun: the schedule in force as a function of the commits.
    - DagState: dag_state.rs.  DagInv, Evolve, DagOps, DagLink, DagAccept,
      DagTheorems: its invariant, and what each operation does to it.
      SampleDag: a small DAG for concrete runs.
    - Linearizer: linearizer.rs.  LinearizerSpec, LinearizerOps,
      LinearizerTheorems: the abstract commit sequence of a node and the
      proof that the linearizer implements it.  CommitObserver:
      commit_observer.rs.
    - CommitFinalizer: commit_finalizer.rs.  FinalizerVotes: the traversal
      that counts accept votes.  FinalizerLinks: streams of commits and the
      map of their blocks.  FinalizerAccept: acceptance of a transaction by
      a stream, declaratively.  FinalizerInv, FinalizerRun,
      FinalizerTheorems: the verdicts of a run.  FinalizerAgreement: two
      finalizers.  FinalizerCommits: what the core feeds its finalizer.
      FinalizerSample, FinalizerNetwork: concrete runs.
    - BlockManager: block_manager.rs.  BlockManagerInv, BlockManagerDag,
      BlockManagerOps, BlockManagerGc, BlockManagerTheorems: its proofs.
    - BlockVerifier: block_verifier.rs and the signatures of block.rs.
    - BaseCommitter, UniversalCommitter: the commit rule.  CommitRule,
      Agreement, TryDecide: its proofs.
    - TransactionConsumer: transaction.rs.  ValidatorProposer: proposer.rs, an
      instance of the class of proposers.  ProposerAncestors, ProposerBlock,
      DagInclude: the proofs about its ancestors and its blocks.
    - CoreThread: core_thread.rs.  AuthorityService: authority_service.rs.
      Synchronizer: synchronizer.rs.  SynchronizerLocks: its locks.
      BlockSync: block_sync_service.rs.
    - CommitSyncer: commit_syncer.rs.  CommitSyncerSpec: what certified
      commits are, and the parsing and matching of what a peer returns.
      CommitSyncerSchedule: the ranges of a run.  CommitSyncerTheorems: the
      theorems about it.
    - ValidatorRun: the start of a validator (authority_node.rs) and the steps
      of its services.  ValidatorInv, ValidatorTheorems: its invariant and
      the theorems about it.  ValidatorSample: a network of four validators
      that executes in the model.
    - Core: core.rs, with the proposer as a class.  CommitSequence: the
      abstract sequence of commits of a network.  CommitBatch, CoreInv,
      CoreTurn, CoreTheorems: the proof that a node follows it.

    Structs are records with the fields of the source, enums are inductive
    types, methods on [&mut self] return the new state, and [Result] is
    [ConsensusResult].  Locks are left out: an operation runs under one lock,
    or calls others one after the other, as modelled.  A handler that awaits
    the core in between ([handle_send_block], [fetch_once]) runs as a whole,
    the finalizer reads one state of the vote tracker while it processes a
    commit, and the reads of the clock in dag_state.rs, for metrics, are taken
    to succeed.

    ** What the theorems show

    - A validator as a whole (ValidatorTheorems): from its start on, through
      any sequence of messages, fetched blocks, timers, transactions, probes,
      flushes and garbage collections, it never panics; the blocks that it
      broadcasts are a chain of increasing rounds that every verifier
      accepts; and two validators send the same commits, up to one being
      behind.  The hypotheses are on the network: its valid blocks are of one
      universe as below, no authority is a quorum by itself, a valid block
      that a validator receives is one by another authority or its own one
      come back, no valid block of it is named before it has made it, rounds
      stay below the end of their type, clocks are monotone, and decoded
      blocks fit in memory.  Certified commits are not among the messages.
    - The commit syncer (CommitSyncerTheorems): it accepts exactly chains of
      commits whose last one a quorum votes for; two validators that accept
      different ones can name authorities with the validity threshold of
      stake that voted twice; a fetch yields the blocks that the commits
      name; and in every run each scheduled commit is pending, in flight,
      fetched or synced, and in one place only.
    - The consumer of transactions (TransactionConsumer): bundles are taken
      whole, in order and within the limits of a block, and submitters learn
      what became of their block.
    - The synchronizer (SynchronizerLocks): its locks are those of the fetches
      under way, in every interleaving.
    - A node as a whole (CoreTheorems): an observer that is given blocks of
      one universe in any batches and order never panics, its loops end, and
      the commits it sends are a run of the one sequence of commits of the
      network; so two nodes send the same commits, up to one being behind.
      The universe has well-formed blocks, the ones the verifier accepts, and
      only authorities below the validity threshold equivocate in it.
    - The commit rule (TryDecide): two nodes with different parts of the DAG
      never decide a slot differently; decisions come in order and without
      gaps; a leader with a quorum of certificates gets decided.
    - The linearizer (LinearizerTheorems): termination, the exact content of
      a sub-DAG, consecutive indices, chained digests, monotone timestamps
      that a dishonest minority cannot move out of the honest range, and
      agreement of two nodes.
    - The commit finalizer (FinalizerTheorems): for every interleaving of
      tracked blocks and commits it returns, outputs the commits in order,
      each at the latest when a leader three rounds above is committed, and
      has a reason in the votes for each verdict; its traversal equals the
      declarative definition of acceptance.  Two finalizers of a network
      (FinalizerAgreement) output the same commits and give the same verdicts
      on each anchored commit, whatever votes they know; a commit is anchored
      when the leader that settles it has a certificate of its leader below
      it.  What they rely on of the commits is proved of every observer
      (FinalizerCommits), that they are anchored while the leader schedule
      does not change in between and the GC depth is at least two.
    - The DAG state and the store (DagTheorems, Store): the invariant of the
      caches, reads that flushing does not change and buffers that it writes
      out, linking of each block once, the round trip of commits, finalized
      or not, through the store.
    - The block manager (BlockManagerTheorems): no block is lost, each
      suspended block waits for one that is to be fetched, and garbage
      collection ends with nothing waiting at or below its round.
    - The verifier (BlockVerifier): it accepts exactly the specified blocks,
      each rejection has its error, and accepted blocks have the
      well-formedness the other theorems assume.
    - Quorum arithmetic (Committee, StakeAggregator, ThresholdClock,
      CommitVoteMonitor, RoundTracker, Ancestor, VoteTracker, LeaderScoring,
      LeaderSchedule): exactness of the counts, and what a quorum implies
      against a faulty minority.
    - Some lemmas and examples exhibit behaviour that the source does not
      intend (a vote counted again by the threshold clock, a panic in the
      range query of the in-memory store, a swap table without good nodes, an
      error that reports a count as a size).

    ** Fuel

    Loops that are not structural take fuel, [OutOfFuel] is a value of its
    own, and the theorems prove that it is not returned.  The linearizer and
    the linking of histories have one unit for each block that can be pushed;
    the unsuspension loops one for each suspended block; the search of
    decisions one for each round; the commit loop one for each round of an
    accepted or suspended block and each certified commit, since a turn that
    goes on decides a slot or uses up a certified commit; the finalizer's
    traversal and walks one for each block of its map, and its loop over the
    buffered commits one for each of them; the loop that serves blocks one for
    each fetch in its heap and each block of the response; the loop that sends
    fetched commits one for each fetched range.

    ** Parameters

    The serialisation (bcs, whose decoding is a partial function), the hash,
    the signature scheme, the transaction verifier, the instants that the
    system clock returns, the seeded random choices of the leader schedule ([Rng], with
    the laws that a choice is from the list and depends only on the seed), the
    store ([Store], [StoreLaws]) and the proposer ([Proposer]) are parameters;
    [MemStore] and small instances of the others show that their laws can
    hold.

    ** Not modelled

    The commit rule and the leader schedule of version 3, which no production
    code calls yet (leader_slot_decider.rs, leader_schedule_v3.rs); the tasks
    around network requests and timers (leader_timeout.rs, round_prober.rs,
    peers_pool.rs, the requests of the synchronizer, timeouts and the choice
    of peers in the commit syncer, subscribers, the services of observers,
    network/); the RocksDB store,
    which is a database behind the [Store] interface; metrics, logging and
    test utilities.  The theorems about observers and validators are about
    nodes that decide by themselves; the handling of certified commits is
    modelled in Core, and the commit syncer up to their dispatch, but their
    effect on the commits of a node is not part of these theorems.  Validators
    start on an empty in-memory store.  The crates outside consensus (execution, storage, APIs) are other
    programs. *)

From stdpp Require Export base gmap sets list sorting numbers option strings.
From Stdlib.Strings Require Export Byte.

#[global] Open Scope N_scope.

(* ------------------------------------------------------------------ *)
(** ** Machine integers

    The crate is built with the release profile, in which [+], [-] and [*]
    on [u32] and [u64] wrap around.  A machine integer is an [N] and the
    wrap-around is written out. *)

Definition u16_MAX : N := 65535.
Definition u32_MAX : N := 4294967295.
Definition u64_MAX : N := 18446744073709551615.

Definition u16_wrap (n : N) : N := n `mod` (u16_MAX + 1).
Definition u32_wrap (n : N) : N := n `mod` (u32_MAX + 1).
Definition u64_wrap (n : N) : N := n `mod` (u64_MAX + 1).

Definition u32_add (a b : N) : N := u32_wrap (a + b).
Definition u64_add (a b : N) : N := u64_wrap (a + b).
Definition u32_mul (a b : N) : N := u32_wrap (a * b).
Definition u64_mul (a b : N) : N := u64_wrap (a * b).
(** [a - b] on an unsigned type wraps below zero. *)
Definition u32_sub (a b : N) : N := u32_wrap (a + (u32_MAX + 1) - b).
Definition u64_sub (a b : N) : N := u64_wrap (a + (u64_MAX + 1) - b).
(** [saturating_sub] is truncated subtraction, the subtraction of [N]. *)
Definition saturating_sub (a b : N) : N := a - b.
Definition u32_saturating_add (a b : N) : N := N.min (a + b) u32_MAX.

Lemma u16_wrap_small n : n <= u16_MAX -> u16_wrap n = n.
Proof. intros Hn. apply N.mod_small. lia. Qed.

Lemma u32_wrap_small n : n <= u32_MAX -> u32_wrap n = n.
Proof. intros H. unfold u32_wrap. apply N.mod_small. lia. Qed.

Lemma u64_wrap_small n : n <= u64_MAX -> u64_wrap n = n.
Proof. intros H. unfold u64_wrap. apply N.mod_small. lia. Qed.

Lemma u32_wrap_le n : u32_wrap n <= u32_MAX.
Proof. unfold u32_wrap. pose proof (N.mod_lt n (u32_MAX + 1)). unfold u32_MAX in *. lia. Qed.

Lemma u64_wrap_le n : u64_wrap n <= u64_MAX.
Proof. unfold u64_wrap. pose proof (N.mod_lt n (u64_MAX + 1)). unfold u64_MAX in *. lia. Qed.

Lemma u32_add_small a b : a + b <= u32_MAX -> u32_add a b = a + b.
Proof. apply u32_wrap_small. Qed.

Lemma u64_add_small a b : a + b <= u64_MAX -> u64_add a b = a + b.
Proof. apply u64_wrap_small. Qed.

Lemma u32_mul_small a b : a * b <= u32_MAX -> u32_mul a b = a * b.
Proof. apply u32_wrap_small. Qed.

Lemma u64_mul_small a b : a * b <= u64_MAX -> u64_mul a b = a * b.
Proof. apply u64_wrap_small. Qed.

Lemma u32_sub_small a b : b <= a -> a <= u32_MAX -> u32_sub a b = a - b.
Proof.
  intros Hle Ha. unfold u32_sub, u32_wrap.
  replace (a + (u32_MAX + 1) - b) with ((a - b) + 1 * (u32_MAX + 1)) by lia.
  rewrite N.Div0.mod_add. apply N.mod_small. lia.
Qed.

Lemma u64_sub_small a b : b <= a -> a <= u64_MAX -> u64_sub a b = a - b.
Proof.
  intros Hle Ha. unfold u64_sub, u64_wrap.
  replace (a + (u64_MAX + 1) - b) with ((a - b) + 1 * (u64_MAX + 1)) by lia.
  rewrite N.Div0.mod_add. apply N.mod_small. lia.
Qed.

Create Rewrite HintDb word.
#[export] Hint Rewrite u32_add_small u64_add_small u32_mul_small u64_mul_small
  u32_sub_small u64_sub_small u32_wrap_small u64_wrap_small
  using (unfold u32_MAX, u64_MAX in *; lia) : word.

(* ------------------------------------------------------------------ *)
(** ** Outcomes

    A computation of the crate returns, panics ([assert!], [panic!],
    [unwrap], [expect], an index out of range), or, in the models of its
    loops only, runs out of the fuel that bounds the recursion.  The
    theorems that a loop returns show that the last case never happens. *)

Inductive outcome (A : Type) : Type :=
| Ok (a : A)
| Panic
| OutOfFuel.
Arguments Ok {A} a.
Arguments Panic {A}.
Arguments OutOfFuel {A}.

#[global] Instance outcome_ret : MRet outcome := λ A a, Ok a.
#[global] Instance outcome_bind : MBind outcome := λ A B f m,
  match m with Ok a => f a | Panic => Panic | OutOfFuel => OutOfFuel end.
#[global] Instance outcome_fmap : FMap outcome := λ A B f m,
  match m with Ok a => Ok (f a) | Panic => Panic | OutOfFuel => OutOfFuel end.

(** [assert!(b)] *)
Definition assert_that (b : bool) : outcome unit := if b then Ok tt else Panic.
(** [opt.unwrap()], [opt.expect(..)] *)
Definition unwrap {A} (o : option A) : outcome A :=
  match o with Some a => Ok a | None => Panic end.
(** [vec[i]] *)
Definition vec_index {A} (l : list A) (i : N) : outcome A := unwrap (l !! N.to_nat i).
(** [Iterator::take]; the bound may be [usize::MAX]. *)
Definition iter_take {A} (n : N) (l : list A) : list A := take (N.to_nat (N.min n (N.of_nat (length l)))) l.

(** [vec[i] = x] *)
Definition vec_store {A} (l : list A) (i : N) (x : A) : outcome (list A) :=
  match l !! N.to_nat i with
  | Some _ => Ok (<[N.to_nat i := x]> l)
  | None => Panic
  end.

(** [for x in l { s = f(s, x) }] with a body that may panic. *)
Fixpoint foldM {A B} (f : B -> A -> outcome B) (l : list A) (b : B) : outcome B :=
  match l with
  | [] => Ok b
  | x :: l => f b x ≫= foldM f l
  end.

(** [iter.filter(p).collect()] with a predicate that may panic. *)
Fixpoint filterM {A} (p : A -> outcome bool) (l : list A) : outcome (list A) :=
  match l with
  | [] => Ok []
  | x :: l =>
      b ← p x;
      k ← filterM p l;
      Ok (if b : bool then x :: k else k)
  end.

(** [iter.any(p)]: stops at the first element that satisfies [p]. *)
Fixpoint anyM {A} (p : A -> outcome bool) (l : list A) : outcome bool :=
  match l with
  | [] => Ok false
  | x :: l => b ← p x; if b : bool then Ok true else anyM p l
  end.

(** [iter.all(p)]: stops at the first element that does not satisfy [p]. *)
Fixpoint allM {A} (p : A -> outcome bool) (l : list A) : outcome bool :=
  match l with
  | [] => Ok true
  | x :: l => b ← p x; if b : bool then allM p l else Ok false
  end.

Lemma bind_Ok {A B} (m : outcome A) (f : A -> outcome B) b :
  m ≫= f = Ok b <-> exists a, m = Ok a /\ f a = Ok b.
Proof.
  unfold mbind, outcome_bind. destruct m as [a| |]; split.
  - eauto.
  - by intros (? & [= <-] & ?).
  - done.
  - by intros (? & ? & ?).
  - done.
  - by intros (? & ? & ?).
Qed.

Lemma assert_Ok b u : assert_that b = Ok u <-> b = true.
Proof. by destruct b, u. Qed.

Section outcomes.
Context {A B : Type}.

Lemma unwrap_Ok (o : option A) a : unwrap o = Ok a <-> o = Some a.
Proof. by destruct o; simpl; split; intros [= ->]. Qed.

Lemma vec_index_Ok (l : list A) i a : vec_index l i = Ok a <-> l !! N.to_nat i = Some a.
Proof. apply unwrap_Ok. Qed.

Lemma iter_take_take n (l : list A) : iter_take n l = take (N.to_nat n) l.
Proof.
  unfold iter_take. destruct (N.le_ge_cases n (N.of_nat (length l))) as [?|?]; [by rewrite N.min_l|].
  rewrite N.min_r, !take_ge by lia. done.
Qed.

Lemma vec_store_Ok (l : list A) i x l' :
  vec_store l i x = Ok l' <-> (N.to_nat i < length l)%nat /\ l' = <[N.to_nat i := x]> l.
Proof.
  unfold vec_store. destruct (l !! N.to_nat i) eqn:E.
  - apply lookup_lt_Some in E. split; [by intros [= <-] | by intros [_ ->]].
  - apply lookup_ge_None in E. split; [done | intros [??]; lia].
Qed.

Lemma foldM_app (g : B -> A -> outcome B) l1 l2 b :
  foldM g (l1 ++ l2) b = foldM g l1 b ≫= foldM g l2.
Proof.
  revert b. induction l1 as [|x l1 IH]; intros b; [done|].
  simpl. destruct (g b x); simpl; auto.
Qed.

(** Rule of invariance for a [for] loop that returned. *)
Lemma foldM_fmap {C} (g : B -> C -> outcome B) (h : A -> C) l b :
  foldM g (h <$> l) b = foldM (fun b a => g b (h a)) l b.
Proof. revert b. induction l as [|a l IH]; intros b; [done|]. simpl. by destruct (g b (h a)); simpl. Qed.

Lemma foldM_inv (P : B -> Prop) (g : B -> A -> outcome B) l b b' :
  P b ->
  (forall x c c', x ∈ l -> P c -> g c x = Ok c' -> P c') ->
  foldM g l b = Ok b' -> P b'.
Proof.
  revert b. induction l as [|x l IH]; intros b Hb Hstep; simpl.
  - by intros [= <-].
  - intros (c & Hc & Hrest)%bind_Ok.
    eapply IH; [| |exact Hrest]; [|set_solver].
    eapply Hstep; [|exact Hb|exact Hc]. set_solver.
Qed.

(** A [for] loop whose body returns on every state of an invariant returns. *)
Lemma foldM_total (P : B -> Prop) (g : B -> A -> outcome B) l b :
  P b ->
  (forall x c, x ∈ l -> P c -> exists c', g c x = Ok c' /\ P c') ->
  exists b', foldM g l b = Ok b' /\ P b'.
Proof.
  revert b. induction l as [|x l IH]; intros b Hb Hstep; simpl; [eauto|].
  destruct (Hstep x b) as (c & -> & Hc); [set_solver|done|].
  simpl. apply IH; [done|]. intros; apply Hstep; set_solver.
Qed.

Lemma filterM_Ok (p : A -> outcome bool) (q : A -> bool) l :
  (forall x, x ∈ l -> p x = Ok (q x)) ->
  filterM p l = Ok (List.filter q l).
Proof.
  induction l as [|x l IH]; intros Hp; simpl; [done|].
  rewrite (Hp x) by set_solver. simpl.
  rewrite IH by set_solver. done.
Qed.

(** Filtering by a test whose result is only known up to a relation. *)
Lemma filterM_total (p : A -> outcome bool) (Q : A -> bool -> Prop) l :
  (forall x, x ∈ l -> exists b, p x = Ok b /\ Q x b) ->
  exists k, filterM p l = Ok k /\ k `sublist_of` l /\ (forall x, x ∈ k -> Q x true)
    /\ (forall x, x ∈ l -> x ∈ k \/ Q x false).
Proof.
  induction l as [|x l IH]; intros Hp; [exists []; split_and!; [done|done|set_solver|set_solver]|].
  destruct (Hp x) as (b & Hb & Hq); [by left|].
  destruct IH as (k & Hk & Hsub & HQ & Hc); [intros y Hy; apply Hp; by right|].
  simpl. rewrite Hb. simpl. rewrite Hk. simpl. destruct b.
  - exists (x :: k). split_and!; [done|by constructor| |].
    + intros y [->|Hy]%elem_of_cons; [done|by apply HQ].
    + intros y [->|Hy]%elem_of_cons; [by left; left|]. destruct (Hc y Hy); [left; by right|by right].
  - exists k. split_and!; [done|by constructor|done|].
    intros y [->|Hy]%elem_of_cons; [by right|by apply Hc].
Qed.

Lemma anyM_Ok (p : A -> outcome bool) (q : A -> bool) l :
  (forall x, x ∈ l -> p x = Ok (q x)) ->
  anyM p l = Ok (existsb q l).
Proof.
  induction l as [|x l IH]; intros Hp; simpl; [done|].
  rewrite (Hp x) by set_solver. simpl.
  destruct (q x); simpl; [done|]. apply IH. set_solver.
Qed.

Lemma mapM_Ok (p : A -> outcome B) (q : A -> B) l :
  (forall x, x ∈ l -> p x = Ok (q x)) -> mapM p l = Ok (q <$> l).
Proof.
  induction l as [|x l IH]; intros Hp; simpl; [done|].
  rewrite (Hp x) by set_solver. simpl.
  rewrite IH by set_solver. done.
Qed.

Lemma mapM_total (p : A -> outcome B) l :
  (forall x, x ∈ l -> exists y, p x = Ok y) -> exists k, mapM p l = Ok k.
Proof.
  induction l as [|x l IH]; intros Hp; [by exists []|].
  destruct (Hp x) as [y Ey]; [left|]. destruct IH as [k Ek]; [intros z Hz; apply Hp; by right|].
  exists (y :: k). simpl. by rewrite Ey; simpl; rewrite Ek.
Qed.

Lemma mapM_inv (p : A -> outcome B) l k :
  mapM p l = Ok k -> Forall2 (fun x y => p x = Ok y) l k.
Proof.
  revert k. induction l as [|x l IH]; intros k; simpl.
  - intros [= <-]. constructor.
  - intros (y & Hy & Hr)%bind_Ok.
    apply bind_Ok in Hr as (ys & Hys & [= <-]).
    constructor; auto.
Qed.
End outcomes.

(** Take a returned computation apart into its steps. *)
Ltac outcome_step H :=
  lazymatch type of H with
  | _ ≫= _ = Ok _ =>
      let x := fresh "v" in let E := fresh "E" in
      apply bind_Ok in H as (x & E & H)
  | assert_that _ = Ok _ => apply assert_Ok in H
  | unwrap _ = Ok _ => apply unwrap_Ok in H
  | vec_index _ _ = Ok _ => apply vec_index_Ok in H
  | Ok _ = Ok _ => injection H as H
  | Panic = Ok _ => discriminate H
  | OutOfFuel = Ok _ => discriminate H
  end.

(* ------------------------------------------------------------------ *)
(** ** Stable sorting

    [sort], [sort_by] and [sort_by_key] of Rust's slices are stable sorts.
    Insertion from the right is one. *)

Section sorting.
Context {A : Type} (leb : A -> A -> bool).

Fixpoint insert_sorted (x : A) (l : list A) : list A :=
  match l with
  | [] => [x]
  | y :: l' => if leb x y then x :: l else y :: insert_sorted x l'
  end.

Definition stable_sort (l : list A) : list A := foldr insert_sorted [] l.

Lemma insert_sorted_perm x l : insert_sorted x l ≡ₚ x :: l.
Proof.
  induction l as [|y l IH]; simpl; [done|].
  destruct (leb x y); [done|]. rewrite IH. apply Permutation_swap.
Qed.

Lemma stable_sort_perm l : stable_sort l ≡ₚ l.
Proof. induction l as [|x l IH]; simpl; [done|]. by rewrite insert_sorted_perm, IH. Qed.

Lemma elem_of_stable_sort x l : x ∈ stable_sort l <-> x ∈ l.
Proof. by rewrite stable_sort_perm. Qed.

Context (leb_total : forall x y, leb x y = true \/ leb y x = true).
Context (leb_trans : forall x y z, leb x y = true -> leb y z = true -> leb x z = true).

Lemma insert_sorted_sorted x l :
  StronglySorted (fun a b => leb a b = true) l ->
  StronglySorted (fun a b => leb a b = true) (insert_sorted x l).
Proof.
  induction 1 as [|y l Hl IH Hy]; simpl; [by repeat constructor|].
  destruct (leb x y) eqn:E.
  - repeat constructor; try done.
    eapply Forall_impl; [exact Hy|]. eauto.
  - constructor; [done|]. rewrite insert_sorted_perm. constructor; [|done].
    destruct (leb_total x y); congruence.
Qed.

Lemma stable_sort_sorted l : StronglySorted (fun a b => leb a b = true) (stable_sort l).
Proof. induction l; simpl; [constructor|]. by apply insert_sorted_sorted. Qed.

(** Elements that compare equal keep their order: for a class of such
    elements, the sorted list restricted to the class is the input
    restricted to it. *)
Lemma insert_sorted_stable (p : A -> bool) x l :
  (forall a b, p a = true -> p b = true -> leb a b = true) ->
  List.filter p (insert_sorted x l) = List.filter p (x :: l).
Proof.
  intros Hp. induction l as [|y l IH]; simpl; [done|].
  destruct (leb x y) eqn:E; [done|]. simpl. rewrite IH. simpl.
  destruct (p x) eqn:Ex, (p y) eqn:Ey; try done.
  rewrite (Hp x y Ex Ey) in E. done.
Qed.

Lemma stable_sort_stable (p : A -> bool) l :
  (forall a b, p a = true -> p b = true -> leb a b = true) ->
  List.filter p (stable_sort l) = List.filter p l.
Proof.
  intros Hp. induction l as [|x l IH]; simpl; [done|].
  rewrite insert_sorted_stable by done. simpl. by rewrite IH.
Qed.
End sorting.

(** Sorting a list with distinct, totally ordered keys depends on the set of
    its elements only. *)
Lemma stable_sort_unique {A} (leb : A -> A -> bool) l1 l2 :
  (forall x y, leb x y = true \/ leb y x = true) ->
  (forall x y z, leb x y = true -> leb y z = true -> leb x z = true) ->
  (forall x y, x ∈ l1 -> y ∈ l1 -> leb x y = true -> leb y x = true -> x = y) ->
  l1 ≡ₚ l2 -> stable_sort leb l1 = stable_sort leb l2.
Proof.
  intros Htot Htr Hanti Hp.
  eapply (StronglySorted_unique_strong (fun a b => leb a b = true)).
  - intros x y Hx Hy. apply Hanti.
    + by apply elem_of_stable_sort in Hx.
    + apply elem_of_stable_sort in Hy. by rewrite Hp.
  - by apply stable_sort_sorted.
  - by apply stable_sort_sorted.
  - by rewrite !stable_sort_perm.
Qed.

Lemma StronglySorted_weaken {A} (P Q : A -> A -> Prop) l :
  (forall x y, P x y -> Q x y) -> StronglySorted P l -> StronglySorted Q l.
Proof.
  intros HPQ. induction 1 as [|x l _ IH Hx]; constructor; [done|].
  eapply Forall_impl; [exact Hx|]. apply HPQ.
Qed.

Lemma StronglySorted_reverse {A} (R : A -> A -> Prop) l :
  StronglySorted R l -> StronglySorted (fun a b => R b a) (reverse l).
Proof.
  induction 1 as [|x l _ IH Hx]; [constructor|]. rewrite reverse_cons. apply StronglySorted_app_2; [|done|].
  - intros y z Hy ->%list_elem_of_singleton. rewrite reverse_Permutation in Hy.
    rewrite Forall_forall in Hx. by apply Hx.
  - repeat constructor.
Qed.

(* ------------------------------------------------------------------ *)
(** ** Ordered collections

    [BTreeSet] and [BTreeMap] are finite sets and maps that are iterated in
    the order of their keys. *)

Class KeyOrder (K : Type) := {
  key_leb : K -> K -> bool;
  key_leb_total : forall x y, key_leb x y = true \/ key_leb y x = true;
  key_leb_trans : forall x y z, key_leb x y = true -> key_leb y z = true -> key_leb x z = true;
  key_leb_antisym : forall x y, key_leb x y = true -> key_leb y x = true -> x = y;
}.

Lemma key_leb_refl `{KeyOrder K} (x : K) : key_leb x x = true.
Proof. by destruct (key_leb_total x x). Qed.

Lemma key_leb_false `{KeyOrder K} (x y : K) : key_leb x y = false -> key_leb y x = true.
Proof. intros E. destruct (key_leb_total x y); [congruence|done]. Qed.

Program Instance N_KeyOrder : KeyOrder N := {| key_leb := N.leb |}.
Next Obligation. intros x y. simpl. rewrite !N.leb_le. lia. Qed.
Next Obligation. intros x y z. simpl. rewrite !N.leb_le. lia. Qed.
Next Obligation. intros x y. simpl. rewrite !N.leb_le. lia. Qed.

Program Instance prod_KeyOrder `{EqDecision K1, KeyOrder K1, KeyOrder K2} :
    KeyOrder (K1 * K2) :=
  {| key_leb p q :=
       if decide (p.1 = q.1) then key_leb p.2 q.2 else key_leb p.1 q.1 |}.
Next Obligation.
  intros K1 ? ? K2 ? [a b] [c d]; simpl.
  destruct (decide (a = c)), (decide (c = a)); subst; try done; apply key_leb_total.
Qed.
Next Obligation.
  intros K1 ? ? K2 ? [a b] [c d] [e f]; simpl.
  destruct (decide (a = c)) as [->|N1].
  - destruct (decide (c = e)) as [->|]; [apply key_leb_trans|done].
  - destruct (decide (c = e)) as [->|N2]; [destruct (decide (a = e)); done|].
    intros H1 H2. destruct (decide (a = e)) as [->|]; [|by eapply key_leb_trans].
    destruct N1. by apply key_leb_antisym.
Qed.
Next Obligation.
  intros K1 ? ? K2 ? [a b] [c d]; simpl.
  destruct (decide (a = c)) as [E1|N1], (decide (c = a)) as [E2|N2]; try congruence.
  - intros; f_equal; [done|by apply key_leb_antisym].
  - intros H1 H2. destruct N1. by apply key_leb_antisym.
Qed.

Section ordered.
Context `{Countable K, !KeyOrder K}.

(** [set.iter()] *)
Definition btree_iter (s : gset K) : list K := stable_sort key_leb (elements s).
(** [set.first()] and [set.last()] *)
Definition btree_first (s : gset K) : option K := head (btree_iter s).
Definition btree_last (s : gset K) : option K := last (btree_iter s).
(** [map.iter()], [map.first_key_value()], [map.last_key_value()] *)
Definition btree_map_iter {V} (m : gmap K V) : list (K * V) :=
  stable_sort (fun a b => key_leb a.1 b.1) (map_to_list m).
Definition btree_map_first {V} (m : gmap K V) : option (K * V) := head (btree_map_iter m).
Definition btree_map_last {V} (m : gmap K V) : option (K * V) := last (btree_map_iter m).
(** [map.range(..)] over the keys that satisfy the bounds *)
Definition btree_map_range {V} (inside : K -> bool) (m : gmap K V) : list (K * V) :=
  List.filter (fun kv => inside kv.1) (btree_map_iter m).
Definition btree_range (inside : K -> bool) (s : gset K) : list K :=
  List.filter inside (btree_iter s).

Lemma elem_of_btree_iter x s : x ∈ btree_iter s <-> x ∈ s.
Proof. unfold btree_iter. rewrite elem_of_stable_sort. apply elem_of_elements. Qed.

Lemma btree_iter_NoDup s : NoDup (btree_iter s).
Proof. unfold btree_iter. rewrite stable_sort_perm. apply NoDup_elements. Qed.

Lemma btree_iter_sorted s : StronglySorted (fun a b => key_leb a b = true) (btree_iter s).
Proof. apply stable_sort_sorted; [apply key_leb_total | apply key_leb_trans]. Qed.

Lemma elem_of_btree_map_iter {V} k (v : V) m : (k, v) ∈ btree_map_iter m <-> m !! k = Some v.
Proof. unfold btree_map_iter. rewrite elem_of_stable_sort. apply elem_of_map_to_list. Qed.

Lemma btree_map_iter_sorted {V} (m : gmap K V) :
  StronglySorted (fun a b => key_leb a b = true) (btree_map_iter m).*1.
Proof.
  assert (StronglySorted (fun a b => key_leb a.1 b.1 = true) (btree_map_iter m)) as Hs.
  { apply (stable_sort_sorted (fun a b => key_leb a.1 b.1));
      [intros; apply key_leb_total|intros ???; apply key_leb_trans]. }
  induction Hs as [|x l _ IH Hx]; constructor; [done|].
  by apply Forall_fmap.
Qed.

Lemma btree_map_iter_NoDup {V} (m : gmap K V) : NoDup (btree_map_iter m).*1.
Proof. unfold btree_map_iter. rewrite stable_sort_perm. apply NoDup_fst_map_to_list. Qed.

Lemma list_filter_elem_of {A} (p : A -> bool) x l :
  x ∈ List.filter p l <-> p x = true /\ x ∈ l.
Proof. rewrite !list_elem_of_In, filter_In. tauto. Qed.

Lemma elem_of_btree_map_range {V} f k (v : V) m :
  (k, v) ∈ btree_map_range f m <-> f k = true /\ m !! k = Some v.
Proof. unfold btree_map_range. by rewrite list_filter_elem_of, elem_of_btree_map_iter. Qed.

Lemma elem_of_btree_range f k s : k ∈ btree_range f s <-> f k = true /\ k ∈ s.
Proof. unfold btree_range. by rewrite list_filter_elem_of, elem_of_btree_iter. Qed.
End ordered.

(** The longest prefix whose elements satisfy [p], and what follows it. *)
Fixpoint take_while {A} (p : A -> bool) (l : list A) : list A :=
  match l with
  | [] => []
  | x :: l => if p x then x :: take_while p l else []
  end.

Fixpoint drop_while {A} (p : A -> bool) (l : list A) : list A :=
  match l with
  | [] => []
  | x :: l' => if p x then drop_while p l' else l
  end.

(** On a sorted list a downward closed predicate holds on a prefix. *)
Lemma take_while_sorted {A} (R : A -> A -> Prop) (p : A -> bool) l :
  (forall x y, R x y -> p y = true -> p x = true) ->
  StronglySorted R l -> take_while p l = List.filter p l.
Proof.
  intros Hp. induction 1 as [|x l Hl IH Hx]; simpl; [done|].
  destruct (p x) eqn:E; [by rewrite IH|]. symmetry. clear IH Hl.
  induction Hx as [|y l Hxy _ IH]; simpl; [done|].
  destruct (p y) eqn:Ey; [|done]. specialize (Hp _ _ Hxy Ey). congruence.
Qed.

(** A key without duplicates identifies the elements. *)
Lemma NoDup_fmap_elem_inj {A B} (f : A -> B) l x y :
  NoDup (f <$> l) -> x ∈ l -> y ∈ l -> f x = f y -> x = y.
Proof.
  induction l as [|z l IH]; intros Hnd Hx Hy E; [inversion Hx|].
  rewrite fmap_cons in Hnd. inversion Hnd as [|?? Hz Hl]; subst.
  apply elem_of_cons in Hx as [->|Hx]; apply elem_of_cons in Hy as [->|Hy]; [done|..|by apply IH].
  - destruct Hz. rewrite E. by apply list_elem_of_fmap_2.
  - destruct Hz. rewrite <- E. by apply list_elem_of_fmap_2.
Qed.

Lemma list_filter_NoDup {A} (p : A -> bool) l : NoDup l -> NoDup (List.filter p l).
Proof.
  induction 1 as [|x l Hx Hl IH]; simpl; [constructor|].
  destruct (p x); [|done]. constructor; [|done]. rewrite list_filter_elem_of. tauto.
Qed.

Lemma list_filter_sorted {A} (R : A -> A -> Prop) (p : A -> bool) l :
  StronglySorted R l -> StronglySorted R (List.filter p l).
Proof.
  induction 1 as [|x l Hl IH Hx]; simpl; [constructor|].
  destruct (p x); [|done]. constructor; [done|]. rewrite Forall_forall in Hx |- *.
  intros y [_ Hy]%list_filter_elem_of. auto.
Qed.

Lemma head_sorted_min {A} (R : A -> A -> Prop) l x :
  (forall a, R a a) -> StronglySorted R l -> head l = Some x -> forall y, y ∈ l -> R x y.
Proof.
  intros Hr Hs Hh y Hy. destruct Hs as [|a l Hs Ha]; [done|].
  injection Hh as <-. apply elem_of_cons in Hy as [->|Hy]; [done|].
  rewrite Forall_forall in Ha. auto.
Qed.

Lemma last_sorted_max {A} (R : A -> A -> Prop) l x :
  (forall a, R a a) -> StronglySorted R l -> last l = Some x -> forall y, y ∈ l -> R y x.
Proof.
  intros Hr Hs. induction Hs as [|a l Hs IH Ha]; intros Hl y Hy; [done|].
  destruct l as [|b l].
  - injection Hl as ->. apply list_elem_of_singleton in Hy as ->. done.
  - change (last (b :: l) = Some x) in Hl. apply elem_of_cons in Hy as [->|Hy]; [|by apply IH].
    rewrite Forall_forall in Ha. apply Ha. by apply last_Some_elem_of.
Qed.

(** The order on triples of integers, component by component. *)
Lemma triple_leb (a1 b1 c1 a2 b2 c2 : N) :
  key_leb (a1, b1, c1) (a2, b2, c2) = true
  <-> a1 < a2 \/ (a1 = a2 /\ (b1 < b2 \/ (b1 = b2 /\ c1 <= c2))).
Proof.
  simpl. case_decide as H1.
  - injection H1 as -> ->. rewrite N.leb_le. lia.
  - case_decide as H2; rewrite N.leb_le; [subst|lia].
    assert (b1 <> b2) by congruence. lia.
Qed.

Section ordered_ends.
Context `{Countable K, !KeyOrder K}.

Lemma btree_last_spec (s : gset K) x :
  btree_last s = Some x -> x ∈ s /\ forall y, y ∈ s -> key_leb y x = true.
Proof.
  intros Hx. split.
  - apply elem_of_btree_iter. by apply last_Some_elem_of.
  - intros y Hy. apply elem_of_btree_iter in Hy.
    exact (last_sorted_max _ _ _ key_leb_refl (btree_iter_sorted s) Hx y Hy).
Qed.

Lemma btree_last_None (s : gset K) : btree_last s = None <-> s = ∅.
Proof.
  unfold btree_last. rewrite last_None. split.
  - intros E. apply set_eq. intros x. rewrite <- elem_of_btree_iter, E. set_solver.
  - intros ->. unfold btree_iter. by rewrite elements_empty.
Qed.

Lemma btree_first_spec (s : gset K) x :
  btree_first s = Some x -> x ∈ s /\ forall y, y ∈ s -> key_leb x y = true.
Proof.
  intros Hx. split.
  - apply elem_of_btree_iter. by apply head_Some_elem_of.
  - intros y Hy. apply elem_of_btree_iter in Hy.
    exact (head_sorted_min _ _ _ key_leb_refl (btree_iter_sorted s) Hx y Hy).
Qed.

Lemma btree_map_first_spec {V} (m : gmap K V) k v :
  btree_map_first m = Some (k, v) ->
  m !! k = Some v /\ forall k', is_Some (m !! k') -> key_leb k k' = true.
Proof.
  intros Hx. split.
  - apply elem_of_btree_map_iter. by apply head_Some_elem_of.
  - intros k' [v' Hk']. apply elem_of_btree_map_iter in Hk'.
    refine (head_sorted_min (fun a b => key_leb a.1 b.1 = true) _ _ _ _ Hx _ Hk').
    + intros; apply key_leb_refl.
    + apply (stable_sort_sorted (fun a b => key_leb a.1 b.1)).
      * intros; apply key_leb_total.
      * intros ???; apply key_leb_trans.
Qed.

Lemma btree_map_first_None {V} (m : gmap K V) : btree_map_first m = None -> m = ∅.
Proof.
  unfold btree_map_first. intros E. destruct (btree_map_iter m) as [|[k v] l] eqn:El; [|done].
  apply map_empty. intros k. destruct (m !! k) eqn:Ek; [|done].
  apply elem_of_btree_map_iter in Ek. rewrite El in Ek. set_solver.
Qed.
End ordered_ends.

Create HintDb btree discriminated.
#[export] Hint Resolve key_leb_refl key_leb_total key_leb_false
  btree_iter_NoDup btree_iter_sorted : btree.

(* ------------------------------------------------------------------ *)
(** ** Weights of sets of indices

    [weigh P i ws] adds the weights [ws], whose indices start at [i], of the
    indices that satisfy [P]: the stake of a set of authorities. *)

Definition sum_N (l : list N) : N := foldr N.add 0 l.

Fixpoint weigh (P : N -> bool) (i : N) (ws : list N) : N :=
  match ws with
  | [] => 0
  | w :: ws => (if P i then w else 0) + weigh P (N.succ i) ws
  end.

Section weights.
Implicit Types (P Q : N -> bool) (ws : list N).

Lemma weigh_ext P Q i ws :
  (forall j, i <= j -> j < i + N.of_nat (length ws) -> P j = Q j) -> weigh P i ws = weigh Q i ws.
Proof.
  revert i. induction ws as [|w ws IH]; intros i HPQ; simpl in *; [done|].
  rewrite (HPQ i) by lia. rewrite (IH (N.succ i)); [done|].
  intros j ??. apply HPQ; lia.
Qed.

Lemma weigh_mono P Q i ws :
  (forall j, P j = true -> Q j = true) -> weigh P i ws <= weigh Q i ws.
Proof.
  intros HPQ. revert i. induction ws as [|w ws IH]; intros i; simpl; [done|].
  specialize (IH (N.succ i)). specialize (HPQ i).
  destruct (P i), (Q i); try lia; by discriminate HPQ.
Qed.

Lemma weigh_inclusion_exclusion P Q i ws :
  weigh P i ws + weigh Q i ws
  = weigh (fun j => P j || Q j) i ws + weigh (fun j => P j && Q j) i ws.
Proof.
  revert i. induction ws as [|w ws IH]; intros i; simpl; [done|].
  specialize (IH (N.succ i)). destruct (P i), (Q i); simpl; lia.
Qed.

Lemma weigh_all i ws : weigh (fun _ => true) i ws = sum_N ws.
Proof. revert i. induction ws as [|w ws IH]; intros i; simpl; [done|]. by rewrite IH. Qed.

Lemma weigh_none i ws : weigh (fun _ => false) i ws = 0.
Proof. revert i. induction ws as [|w ws IH]; intros i; simpl; [done|]. by rewrite IH. Qed.

Lemma weigh_le P i ws : weigh P i ws <= sum_N ws.
Proof. rewrite <- (weigh_all i). by apply weigh_mono. Qed.

Lemma weigh_single v i ws w :
  i <= v -> ws !! N.to_nat (v - i) = Some w -> weigh (fun j => j =? v) i ws = w.
Proof.
  revert i. induction ws as [|w' ws IH]; intros i Hi Hw; simpl; [done|].
  destruct (N.eqb_spec i v) as [->|Hne].
  - rewrite N.sub_diag in Hw. injection Hw as ->.
    rewrite (weigh_ext _ (fun _ => false)), weigh_none; [lia|].
    intros j ??. apply N.eqb_neq. lia.
  - rewrite (IH (N.succ i)); [lia|lia|].
    replace (N.to_nat (v - i)) with (S (N.to_nat (v - N.succ i))) in Hw by lia. done.
Qed.

Lemma weigh_insert P v i ws w :
  i <= v -> ws !! N.to_nat (v - i) = Some w -> P v = false ->
  weigh (fun j => (j =? v) || P j) i ws = w + weigh P i ws.
Proof.
  intros Hi Hw HP.
  pose proof (weigh_inclusion_exclusion (fun j => j =? v) P i ws) as H.
  rewrite (weigh_single v i ws w) in H by done.
  rewrite (weigh_ext (fun j => (j =? v) && P j) (fun _ => false)), weigh_none in H; [lia|].
  intros j _ _. destruct (N.eqb_spec j v) as [->|]; [by rewrite HP|done].
Qed.

(** Two sets whose weights sum to more than the total and a third one meet
    outside the third. *)
Lemma weigh_intersect P Q B i ws :
  sum_N ws + weigh B i ws < weigh P i ws + weigh Q i ws ->
  exists j, i <= j < i + N.of_nat (length ws) /\ P j = true /\ Q j = true /\ B j = false.
Proof.
  intros Hlt.
  assert (Hw : weigh B i ws < weigh (fun j => P j && Q j) i ws).
  { pose proof (weigh_inclusion_exclusion P Q i ws).
    pose proof (weigh_le (fun j => P j || Q j) i ws). lia. }
  clear Hlt. revert i Hw. induction ws as [|w ws IH]; intros i Hw; simpl in *; [lia|].
  destruct (P i) eqn:EP, (Q i) eqn:EQ, (B i) eqn:EB; simpl in *;
    try (exists i; repeat split; try done; lia);
    destruct (IH (N.succ i)) as (j & ? & ?); try lia; exists j; split; try done; lia.
Qed.

Lemma sum_N_app l1 l2 : sum_N (l1 ++ l2) = sum_N l1 + sum_N l2.
Proof. induction l1 as [|x l1 IH]; simpl; [done|]. rewrite IH. lia. Qed.

Lemma sum_N_perm l1 l2 : l1 ≡ₚ l2 -> sum_N l1 = sum_N l2.
Proof. induction 1; simpl; lia. Qed.
End weights.

#[global] Instance sum_N_Proper : Proper ((≡ₚ) ==> (=)) sum_N.
Proof. intros l1 l2. apply sum_N_perm. Qed.

Lemma sum_N_filter_le {A} (P : A -> Prop) `{!forall x, Decision (P x)} (f : A -> N) l :
  sum_N (f <$> filter P l) <= sum_N (f <$> l).
Proof.
  induction l as [|x l IH]; [done|]. rewrite filter_cons.
  change (sum_N (f <$> x :: l)) with (f x + sum_N (f <$> l)).
  case_decide; [|lia]. change (sum_N (f <$> x :: filter P l)) with (f x + sum_N (f <$> filter P l)).
  lia.
Qed.

(** ** Weights of the elements of a list *)

Section weighted.
Context {A : Type} (w : A -> N).

(** The weight of the elements that satisfy [P]. *)
Definition stake_where (P : A -> bool) (l : list A) : N := sum_N (w <$> List.filter P l).

Lemma stake_where_cons P x l : stake_where P (x :: l) = (if P x then w x else 0) + stake_where P l.
Proof. unfold stake_where. simpl. destruct (P x); [done|]. by rewrite N.add_0_l. Qed.

Lemma stake_where_app P l1 l2 : stake_where P (l1 ++ l2) = stake_where P l1 + stake_where P l2.
Proof. unfold stake_where. by rewrite List.filter_app, fmap_app, sum_N_app. Qed.

Lemma stake_where_perm P l1 l2 : l1 ≡ₚ l2 -> stake_where P l1 = stake_where P l2.
Proof. induction 1; rewrite ?stake_where_cons; lia. Qed.

Lemma stake_where_split P Q l :
  stake_where P l <= stake_where Q l + stake_where (fun x => P x && negb (Q x)) l.
Proof.
  induction l as [|x l IH]; [done|]. rewrite !stake_where_cons.
  destruct (P x), (Q x); simpl; lia.
Qed.

Lemma stake_where_compl P l :
  stake_where P l + stake_where (fun x => negb (P x)) l = sum_N (w <$> l).
Proof.
  induction l as [|x l IH]; [done|]. rewrite !stake_where_cons.
  change (sum_N (w <$> x :: l)) with (w x + sum_N (w <$> l)). destruct (P x); simpl; lia.
Qed.

Lemma stake_where_le P l : stake_where P l <= sum_N (w <$> l).
Proof. rewrite <- (stake_where_compl P). lia. Qed.

Lemma stake_where_exists P l : 0 < stake_where P l -> exists x, x ∈ l /\ P x = true.
Proof.
  unfold stake_where. destruct (List.filter P l) as [|x k] eqn:E; [simpl; lia|]. intros _. exists x.
  assert (x ∈ List.filter P l) as [? ?]%list_filter_elem_of by (rewrite E; by left). done.
Qed.

Lemma stake_where_none P l : (forall x, x ∈ l -> P x = false) -> stake_where P l = 0.
Proof.
  intros Hl. induction l as [|x l IH]; [done|]. rewrite stake_where_cons, Hl by (by left). simpl.
  apply IH. intros y Hy. apply Hl. by right.
Qed.

Lemma stake_where_all P l : (forall x, x ∈ l -> P x = true) -> stake_where P l = sum_N (w <$> l).
Proof.
  intros Hl. rewrite <- (stake_where_compl P). rewrite (stake_where_none (fun x => negb (P x))); [lia|].
  intros x Hx. by rewrite Hl.
Qed.
End weighted.

Lemma stake_where_fmap {A B} (f : A -> B) (w : B -> N) P l :
  stake_where w P (f <$> l) = stake_where (fun x => w (f x)) (fun x => P (f x)) l.
Proof.
  induction l as [|x l IH]; [done|]. by rewrite fmap_cons, !stake_where_cons, IH.
Qed.

(** A list of values with weights, and the weights by index. *)
Lemma stake_where_zip (P : N -> bool) vs ws k :
  length vs = length ws ->
  stake_where snd (fun x => P x.1) (zip vs ws)
  = weigh (fun i => match vs !! N.to_nat (i - k) with Some v => P v | None => false end) k ws.
Proof.
  revert k ws. induction vs as [|v vs IH]; intros k [|w ws] Hlen; try done.
  cbn [zip zip_with weigh]. change (zip_with pair vs ws) with (zip vs ws).
  rewrite stake_where_cons, (IH (N.succ k)) by (simpl in Hlen; lia). rewrite N.sub_diag. simpl. f_equal.
  apply weigh_ext. intros j Hj _. replace (N.to_nat (j - k)) with (S (N.to_nat (j - N.succ k))) by lia. done.
Qed.

(** Deleting the keys of a list from a map. *)
Lemma lookup_foldr_delete {V} `{Countable K} (m : gmap K V) l k :
  foldr delete m l !! k = if decide (k ∈ l) then None else m !! k.
Proof.
  induction l as [|x l IH]; [rewrite decide_False; [done|apply not_elem_of_nil]|].
  cbn [foldr].
  destruct (decide (k = x)) as [->|Hne].
  - rewrite lookup_delete_eq, decide_True by (by left). done.
  - rewrite lookup_delete_ne by done. rewrite IH.
    destruct (decide (k ∈ l)) as [Hin|Hin].
    + by rewrite decide_True by (by right).
    + rewrite decide_False; [done|]. by intros [?|?]%elem_of_cons.
Qed.
