(* ===== verification/Committee.v ===== *)
(** * Committee

    Models [crates/config/consensus/src/committee.rs]: the authorities of an
    epoch, their stakes and the fault-tolerance thresholds derived from them
    by [Committee::new] and [Committee::new_v3].  The theorems give the
    thresholds in closed form, show that the assertions of both constructors
    hold whenever the stake arithmetic does not overflow, and derive the
    quorum-intersection property on which the rest of consensus rests. *)

From S2P Require Import Prelude.

(* ------------------------------------------------------------------ *)
(** ** Data *)

(** Keys, names and addresses are opaque to the logic of the crate. *)
Record Authority := mkAuthority {
  a_stake : N;
  a_address : string;
  a_hostname : string;
  a_authority_name : string;
  a_protocol_key : list byte;
  a_network_key : list byte;
}.

Record Committee := mkCommittee {
  c_epoch : N;
  c_authorities : list Authority;
  c_total_stake : N;
  c_quorum_threshold : N;
  c_certification_threshold : N;
  c_validity_threshold : N;
}.

(** [AuthorityIndex] is a [u32]. *)
Definition AUTHORITY_INDEX_ZERO : N := 0.
Definition AUTHORITY_INDEX_MAX : N := u32_MAX.

(** [authorities.iter().map(|a| a.stake).sum()] *)
Definition u64_sum (l : list N) : N := fold_left u64_add l 0.

Definition stakes (authorities : list Authority) : list N := a_stake <$> authorities.

Definition is_empty {A} (l : list A) : bool := match l with [] => true | _ => false end.

(* ------------------------------------------------------------------ *)
(** ** Constructors *)

Definition committee_new (epoch : N) (authorities : list Authority) : outcome Committee :=
  _ ← assert_that (negb (is_empty authorities));
  _ ← assert_that (N.of_nat (length authorities) <? u32_MAX);
  let total_stake := u64_sum (stakes authorities) in
  _ ← assert_that (negb (total_stake =? 0));
  let fault_tolerance := u64_sub total_stake 1 / 3 in
  let quorum_threshold := u64_sub total_stake fault_tolerance in
  let validity_threshold := u64_add fault_tolerance 1 in
  _ ← assert_that
        (total_stake <? u64_sub (u64_mul 2 quorum_threshold) fault_tolerance);
  Ok {| c_epoch := epoch;
        c_authorities := authorities;
        c_total_stake := total_stake;
        c_quorum_threshold := quorum_threshold;
        c_validity_threshold := validity_threshold;
        c_certification_threshold := quorum_threshold |}.

(** The closure [scale] of [new_v3]: [checked_mul] and [checked_div] panic. *)
Definition scale (actual_total_stake base_stake nominal : N) : outcome N :=
  let product := nominal * u64_sub actual_total_stake 1 in
  _ ← assert_that (product <=? u64_MAX);
  _ ← assert_that (negb (base_stake =? 0));
  Ok (product / base_stake).

Definition committee_new_v3 (epoch : N) (authorities : list Authority)
    (malicious_stake crash_stake : N) : outcome Committee :=
  _ ← assert_that (negb (is_empty authorities));
  _ ← assert_that (N.of_nat (length authorities) <? u32_MAX);
  let actual_total_stake := u64_sum (stakes authorities) in
  _ ← assert_that (negb (actual_total_stake =? 0));
  let base_stake := u64_add (u64_mul 5 malicious_stake) (u64_mul 3 crash_stake) in
  fc ← (if 0 <? base_stake then
          f ← scale actual_total_stake base_stake malicious_stake;
          c ← scale actual_total_stake base_stake crash_stake;
          Ok (f, c)
        else Ok (0, 0));
  let '(f, c) := fc in
  let validity_threshold := u64_add f 1 in
  let certification_threshold := u64_add (u64_add (u64_mul 2 f) c) 1 in
  let quorum_threshold := u64_sub (u64_sub actual_total_stake f) c in
  _ ← assert_that
        (u64_add (u64_add actual_total_stake f) 1
           <=? u64_add certification_threshold quorum_threshold);
  _ ← assert_that
        (u64_add (u64_add actual_total_stake f) certification_threshold
           <=? u64_mul quorum_threshold 2);
  Ok {| c_epoch := epoch;
        c_total_stake := actual_total_stake;
        c_quorum_threshold := quorum_threshold;
        c_certification_threshold := certification_threshold;
        c_validity_threshold := validity_threshold;
        c_authorities := authorities |}.

(* ------------------------------------------------------------------ *)
(** ** Accessors and helpers *)

Definition committee_stake (c : Committee) (authority_index : N) : outcome N :=
  a_stake <$> vec_index (c_authorities c) authority_index.

Definition committee_authority (c : Committee) (authority_index : N) : outcome Authority :=
  vec_index (c_authorities c) authority_index.

(** [authorities()]: every authority with its index, in order. *)
Definition committee_authorities (c : Committee) : list (N * Authority) :=
  imap (fun i a => (N.of_nat i, a)) (c_authorities c).

Definition reached_quorum (c : Committee) (stake : N) : bool :=
  c_quorum_threshold c <=? stake.

Definition reached_validity (c : Committee) (stake : N) : bool :=
  c_validity_threshold c <=? stake.

Definition committee_size (c : Committee) : N := N.of_nat (length (c_authorities c)).

Definition to_authority_index (c : Committee) (index : N) : option N :=
  if index <? N.of_nat (length (c_authorities c)) then Some index else None.

Definition is_valid_index (c : Committee) (index : N) : bool :=
  index <? committee_size c.

(* ------------------------------------------------------------------ *)
(** ** Specification: the stake of a set of authorities *)

Definition stake_at (c : Committee) (i : N) : N :=
  default 0 (stakes (c_authorities c) !! N.to_nat i).

Definition stake_of (c : Committee) (s : gset N) : N :=
  weigh (fun i => bool_decide (i ∈ s)) 0 (stakes (c_authorities c)).

(** What the rest of the crate relies on of a committee: the recorded total
    is the exact sum of the stakes, two quorums overlap in more stake than a
    set below the validity threshold can hold, and the authorities outside
    such a set are a quorum. *)
Record committee_wf (c : Committee) : Prop := {
  wf_total : c_total_stake c = sum_N (stakes (c_authorities c));
  wf_total_u64 : c_total_stake c <= u64_MAX;
  wf_size : committee_size c < u32_MAX;
  wf_quorum_le : c_quorum_threshold c <= c_total_stake c;
  wf_validity_pos : 1 <= c_validity_threshold c;
  wf_intersect :
    c_total_stake c + c_validity_threshold c <= 2 * c_quorum_threshold c;
  wf_available : c_quorum_threshold c + c_validity_threshold c <= c_total_stake c + 1;
}.

(* ------------------------------------------------------------------ *)
(** ** Lemmas *)

Lemma quorum_positive c : committee_wf c -> 0 < c_quorum_threshold c.
Proof. intros Hc. pose proof (wf_intersect _ Hc). pose proof (wf_validity_pos _ Hc). lia. Qed.

Lemma u64_sum_aux l acc :
  acc + sum_N l <= u64_MAX -> fold_left u64_add l acc = acc + sum_N l.
Proof.
  revert acc. induction l as [|x l IH]; intros acc H; simpl in *; [lia|].
  rewrite u64_add_small by lia. rewrite IH by lia. lia.
Qed.

(** The wrapping sum is the sum when the sum fits in 64 bits. *)
Lemma u64_sum_exact l : sum_N l <= u64_MAX -> u64_sum l = sum_N l.
Proof. intros H. unfold u64_sum. rewrite u64_sum_aux; simpl; lia. Qed.

Section stake.
Context (c : Committee).

Lemma committee_authority_Ok a : is_valid_index c a = true -> exists x, committee_authority c a = Ok x.
Proof.
  unfold is_valid_index, committee_size, committee_authority, vec_index. intros Hv%N.ltb_lt.
  destruct (lookup_lt_is_Some_2 (c_authorities c) (N.to_nat a)) as [x ->]; [lia|by exists x].
Qed.

Lemma stake_at_authority a au : committee_authority c a = Ok au -> a_stake au = stake_at c a.
Proof.
  unfold committee_authority, vec_index. intros E%unwrap_Ok. unfold stake_at, stakes.
  by rewrite list_lookup_fmap, E.
Qed.

Lemma committee_authorities_valid i a : (i, a) ∈ committee_authorities c -> is_valid_index c i = true.
Proof.
  unfold committee_authorities. intros [j Hj]%list_elem_of_lookup. rewrite list_lookup_imap in Hj.
  destruct (c_authorities c !! j) eqn:Ej; [|done]. simpl in Hj. injection Hj as <- _.
  apply lookup_lt_Some in Ej. unfold is_valid_index, committee_size. apply N.ltb_lt. lia.
Qed.

Lemma committee_stake_Ok i :
  is_valid_index c i = true -> committee_stake c i = Ok (stake_at c i).
Proof.
  unfold is_valid_index, committee_size, committee_stake, stake_at, stakes, vec_index.
  rewrite N.ltb_lt. intros Hi.
  destruct (lookup_lt_is_Some_2 (c_authorities c) (N.to_nat i)) as [a Ha]; [lia|].
  by rewrite Ha, list_lookup_fmap, Ha.
Qed.

Lemma stake_of_insert i s :
  is_valid_index c i = true -> i ∉ s -> stake_of c ({[i]} ∪ s) = stake_at c i + stake_of c s.
Proof.
  unfold is_valid_index, committee_size, stake_of. rewrite N.ltb_lt. intros Hi Hs.
  rewrite (weigh_ext _ (fun j => (j =? i) || bool_decide (j ∈ s))).
  - apply weigh_insert; [lia| |by apply bool_decide_eq_false].
    unfold stake_at. rewrite N.sub_0_r.
    destruct (lookup_lt_is_Some_2 (stakes (c_authorities c)) (N.to_nat i)) as [w Hw].
    { unfold stakes. rewrite length_fmap. lia. }
    by rewrite Hw.
  - intros j _ _. destruct (N.eqb_spec j i) as [->|Hne]; simpl.
    + apply bool_decide_eq_true. set_solver.
    + apply bool_decide_ext. set_solver.
Qed.

Lemma stake_of_mono s1 s2 : s1 ⊆ s2 -> stake_of c s1 <= stake_of c s2.
Proof. intros Hs. apply weigh_mono. intros j. rewrite !bool_decide_eq_true. set_solver. Qed.

Lemma stake_of_empty : stake_of c ∅ = 0.
Proof.
  unfold stake_of. rewrite (weigh_ext _ (fun _ => false)); [apply weigh_none|].
  intros j _ _. by apply bool_decide_eq_false.
Qed.

Lemma stake_of_single i : stake_of c {[i]} = stake_at c i.
Proof.
  destruct (is_valid_index c i) eqn:Hi.
  - rewrite <- (right_id_L ∅ (∪) {[i]}), stake_of_insert, stake_of_empty by set_solver. lia.
  - unfold is_valid_index, committee_size in Hi. apply N.ltb_ge in Hi.
    unfold stake_at, stakes. rewrite list_lookup_fmap, (lookup_ge_None_2 (c_authorities c)) by lia.
    unfold stake_of. rewrite (weigh_ext _ (fun _ => false)); [apply weigh_none|].
    intros j _ Hj. apply bool_decide_eq_false. unfold stakes in Hj. rewrite length_fmap in Hj.
    set_unfold. lia.
Qed.

Lemma stake_at_forall (P : N -> Prop) :
  P 0 -> Forall (fun a => P (a_stake a)) (c_authorities c) -> forall i, P (stake_at c i).
Proof.
  intros H0 Hall i. unfold stake_at, stakes. rewrite list_lookup_fmap.
  destruct (c_authorities c !! N.to_nat i) eqn:E; [|done].
  by apply (Forall_lookup_1 _ _ _ _ Hall E).
Qed.

Lemma stake_of_le_total s : committee_wf c -> stake_of c s <= c_total_stake c.
Proof. intros Hwf. rewrite (wf_total _ Hwf). apply weigh_le. Qed.

Lemma stake_of_NoDup (k : list N) :
  NoDup k -> (forall i, i ∈ k -> is_valid_index c i = true) ->
  stake_of c (list_to_set k) = sum_N (stake_at c <$> k).
Proof.
  induction 1 as [|i k Hi Hnd IH]; intros Hv; [apply stake_of_empty|].
  rewrite list_to_set_cons, stake_of_insert, IH.
  - done.
  - intros j Hj. apply Hv. by right.
  - apply Hv. by left.
  - by rewrite elem_of_list_to_set.
Qed.

(** Quorum intersection: two sets that hold a quorum of the stake share an
    authority outside any set below the validity threshold. *)
Lemma quorum_intersection q1 q2 byz :
  committee_wf c ->
  reached_quorum c (stake_of c q1) = true ->
  reached_quorum c (stake_of c q2) = true ->
  reached_validity c (stake_of c byz) = false ->
  exists a, a ∈ q1 /\ a ∈ q2 /\ a ∉ byz /\ is_valid_index c a = true.
Proof.
  unfold reached_quorum, reached_validity. intros Hwf H1 H2 Hb.
  apply N.leb_le in H1, H2. apply N.leb_gt in Hb.
  destruct (weigh_intersect (fun i => bool_decide (i ∈ q1)) (fun i => bool_decide (i ∈ q2))
              (fun i => bool_decide (i ∈ byz)) 0 (stakes (c_authorities c)))
    as (j & Hj & Hj1 & Hj2 & Hj3).
  { change (sum_N (stakes (c_authorities c)) + stake_of c byz < stake_of c q1 + stake_of c q2).
    pose proof (wf_intersect _ Hwf). pose proof (wf_total _ Hwf). lia. }
  exists j. rewrite bool_decide_eq_true in Hj1, Hj2. rewrite bool_decide_eq_false in Hj3.
  split_and!; try done. unfold is_valid_index, committee_size, stakes in *.
  rewrite length_fmap in Hj. apply N.ltb_lt. lia.
Qed.
End stake.

(* ------------------------------------------------------------------ *)
(** ** Properties of the constructors *)

Lemma third_bounds t : 0 < t -> 3 * ((t - 1) / 3) <= t - 1 < 3 * ((t - 1) / 3) + 3.
Proof.
  intros Ht. pose proof (N.Div0.mul_div_le (t - 1) 3).
  pose proof (N.mul_succ_div_gt (t - 1) 3). lia.
Qed.

Lemma is_empty_false {A} (l : list A) : (0 < length l)%nat -> is_empty l = false.
Proof. by destruct l; simpl; [lia|..]. Qed.

(** [Committee::new] on a non-empty list of authorities whose stakes sum to
    [t], with [0 < t] and [2 t] within 64 bits, never fails one of its
    assertions; it tolerates [(t-1)/3] stake of faults, sets the quorum and
    validity thresholds accordingly, and any two sets of authorities that
    reach its quorum share an authority outside any set that does not reach
    validity. *)
Theorem committee_new_correct epoch authorities :
  let t := sum_N (stakes authorities) in
  (0 < length authorities)%nat ->
  N.of_nat (length authorities) < u32_MAX ->
  0 < t -> 2 * t <= u64_MAX ->
  exists c, committee_new epoch authorities = Ok c
    /\ c_authorities c = authorities
    /\ c_total_stake c = t
    /\ c_validity_threshold c = (t - 1) / 3 + 1
    /\ c_quorum_threshold c = t - (t - 1) / 3
    /\ committee_wf c
    /\ forall q1 q2 byz,
         reached_quorum c (stake_of c q1) = true ->
         reached_quorum c (stake_of c q2) = true ->
         reached_validity c (stake_of c byz) = false ->
         exists a, a ∈ q1 /\ a ∈ q2 /\ a ∉ byz.
Proof.
  intros t Hlen Hlen' Ht Hmax. pose proof (third_bounds t Ht) as Hf.
  unfold committee_new. rewrite is_empty_false by done.
  rewrite (u64_sum_exact (stakes authorities)) by (fold t; lia). fold t.
  rewrite (u64_sub_small t 1) by lia.
  rewrite (u64_sub_small t) by lia.
  rewrite (u64_mul_small 2) by lia.
  rewrite (u64_sub_small (2 * (t - (t - 1) / 3))) by lia.
  rewrite (u64_add_small ((t - 1) / 3)) by lia.
  rewrite (proj2 (N.ltb_lt _ _) Hlen'), (proj2 (N.eqb_neq t 0)) by lia.
  rewrite (proj2 (N.ltb_lt t _)) by lia. simpl.
  eexists; split; [reflexivity|].
  match goal with |- context [committee_wf ?c] => assert (committee_wf c) as Hwf end.
  { constructor; unfold committee_size; simpl; lia. }
  split_and!; try done. intros q1 q2 byz H1 H2 Hb.
  destruct (quorum_intersection _ q1 q2 byz Hwf H1 H2 Hb) as (a & ? & ? & ? & _); eauto.
Qed.

(** A witness committee: the four equal authorities of the crate's tests. *)
Definition test_authority (stake : N) : Authority :=
  {| a_stake := stake; a_address := "/ip4/127.0.0.1"; a_hostname := "test_host";
     a_authority_name := "name"; a_protocol_key := []; a_network_key := [] |}.

Lemma committee_new_correct_witness :
  exists c, committee_new 0 [test_authority 1; test_authority 1; test_authority 1; test_authority 1] = Ok c
    /\ c_quorum_threshold c = 3 /\ c_validity_threshold c = 2.
Proof.
  destruct (committee_new_correct 0
    [test_authority 1; test_authority 1; test_authority 1; test_authority 1])
    as (c & Hc & _ & _ & Hv & Hq & _); [simpl; lia|reflexivity|reflexivity|vm_compute; congruence|].
  exists c. split; [exact Hc|]. split; [rewrite Hq; reflexivity|rewrite Hv; reflexivity].
Defined.

(** The scaled fault budgets of [new_v3] never exceed the actual total. *)
Lemma scaled_budget m k x base :
  base = 5 * m + 3 * k -> 0 < base -> 5 * (m * x / base) + 3 * (k * x / base) <= x.
Proof.
  intros -> Hb. set (B := 5 * m + 3 * k) in *.
  pose proof (N.Div0.mul_div_le (m * x) B). pose proof (N.Div0.mul_div_le (k * x) B).
  apply (N.mul_le_mono_pos_l _ _ B); [done|]. unfold B in *. nia.
Qed.

Lemma scale_Ok t base nominal :
  0 < t -> t <= u64_MAX -> 0 < base -> nominal * (t - 1) <= u64_MAX ->
  scale t base nominal = Ok (nominal * (t - 1) / base).
Proof.
  intros Ht Htm Hb Hn. unfold scale. rewrite u64_sub_small by lia.
  rewrite (proj2 (N.leb_le _ _) Hn), (proj2 (N.eqb_neq base 0)) by lia. done.
Qed.

(** [Committee::new_v3] scales the nominal budgets [m] of malicious and [k] of
    crash stake to the actual total stake [t]; as long as its products fit in
    64 bits its assertions hold, the scaled budgets satisfy [5f + 3c < t], the
    thresholds are [f + 1], [2f + c + 1] and [t - f - c], a certificate and a
    quorum overlap in more than [f] stake, and two quorums overlap in [f] more
    than a certificate. *)
Theorem committee_new_v3_correct epoch authorities m k :
  let t := sum_N (stakes authorities) in
  let f := m * (t - 1) / (5 * m + 3 * k) in
  let cr := k * (t - 1) / (5 * m + 3 * k) in
  (0 < length authorities)%nat ->
  N.of_nat (length authorities) < u32_MAX ->
  0 < t -> 2 * t <= u64_MAX ->
  0 < 5 * m + 3 * k <= u64_MAX ->
  m * (t - 1) <= u64_MAX -> k * (t - 1) <= u64_MAX ->
  exists c, committee_new_v3 epoch authorities m k = Ok c
    /\ committee_wf c
    /\ 5 * f + 3 * cr < t
    /\ c_validity_threshold c = f + 1
    /\ c_certification_threshold c = 2 * f + cr + 1
    /\ c_quorum_threshold c = t - f - cr
    /\ c_total_stake c + f < c_certification_threshold c + c_quorum_threshold c
    /\ c_total_stake c + f + c_certification_threshold c <= 2 * c_quorum_threshold c.
Proof.
  intros t f cr Hlen Hlen' Ht Hmax Hbase Hm Hk.
  pose proof (scaled_budget m k (t - 1) (5 * m + 3 * k) eq_refl (proj1 Hbase)) as Hb.
  fold f cr in Hb.
  unfold committee_new_v3. rewrite is_empty_false by done.
  rewrite (u64_sum_exact (stakes authorities)) by (fold t; lia). fold t.
  rewrite (u64_mul_small 5), (u64_mul_small 3), (u64_add_small (5 * m)) by lia.
  rewrite (proj2 (N.ltb_lt 0 (5 * m + 3 * k))) by lia.
  rewrite !scale_Ok by lia. fold f cr. simpl.
  rewrite (proj2 (N.ltb_lt _ _) Hlen'), (proj2 (N.eqb_neq t 0)) by lia. simpl.
  rewrite (u64_mul_small 2 f), (u64_add_small (2 * f) cr), (u64_add_small (2 * f + cr) 1),
    (u64_sub_small t f), (u64_sub_small (t - f) cr), (u64_add_small t f), (u64_add_small (t + f) 1),
    (u64_add_small (2 * f + cr + 1)), (u64_add_small (t + f) (2 * f + cr + 1)),
    (u64_mul_small (t - f - cr) 2), (u64_add_small f 1) by lia.
  rewrite (proj2 (N.leb_le (t + f + 1) _)), (proj2 (N.leb_le (t + f + (2 * f + cr + 1)) _)) by lia.
  simpl. eexists; split; [reflexivity|]. split.
  - constructor; unfold committee_size; simpl; lia.
  - simpl. split_and!; lia.
Qed.

Lemma committee_new_v3_correct_witness :
  exists c, committee_new_v3 0 [test_authority 3; test_authority 2; test_authority 2; test_authority 2] 1 1 = Ok c
    /\ c_quorum_threshold c = 7 /\ c_certification_threshold c = 4 /\ c_validity_threshold c = 2.
Proof.
  destruct (committee_new_v3_correct 0
    [test_authority 3; test_authority 2; test_authority 2; test_authority 2] 1 1)
    as (c & Hc & _ & _ & Hv & Hce & Hq & _);
    [simpl; lia|reflexivity|reflexivity|vm_compute; congruence
    |vm_compute; split; congruence|vm_compute; congruence|vm_compute; congruence|].
  exists c. split; [exact Hc|].
  split; [rewrite Hq; reflexivity|]. split; [rewrite Hce; reflexivity|rewrite Hv; reflexivity].
Defined.
