(* ===== verification/StakeScan.v ===== *)
(** * The scan for a quorum of stake

    Several components sort a value per authority and add up stakes until a
    quorum is reached.  The value found is characterised by the stakes on
    both sides of it. *)

From S2P Require Import Prelude Committee.

(** [for (value, stake) in list { total_stake += stake; if total_stake >= threshold { .. } }] *)
Fixpoint reach_stake (threshold total_stake : N) (l : list (N * N)) : option N :=
  match l with
  | [] => None
  | (value, stake) :: l =>
      let total_stake := u64_add total_stake stake in
      if threshold <=? total_stake then Some value else reach_stake threshold total_stake l
  end.

(** The order of pairs of integers. *)
Definition pair_leb (a b : N * N) : bool :=
  (a.1 <? b.1) || ((a.1 =? b.1) && (a.2 <=? b.2)).

(** The stake of the authorities whose index and value satisfy [Q]. *)
Definition stake_holding (c : Committee) (vs : list N) (Q : N -> N -> bool) : N :=
  weigh (fun i => match vs !! N.to_nat i with Some v => Q i v | None => false end) 0 (stakes (c_authorities c)).

Lemma reach_stake_split thr acc l :
  acc < thr -> acc + sum_N l.*2 <= u64_MAX ->
  match reach_stake thr acc l with
  | Some v => exists pre st post, l = pre ++ (v, st) :: post
      /\ acc + sum_N pre.*2 < thr <= acc + sum_N pre.*2 + st
  | None => acc + sum_N l.*2 < thr
  end.
Proof.
  revert acc. induction l as [|[v st] l IH]; intros acc Hacc Hmax; [simpl; lia|]. cbn [reach_stake].
  change (sum_N ((v, st) :: l).*2) with (st + sum_N l.*2) in *.
  rewrite u64_add_small by lia. destruct (N.leb_spec thr (acc + st)) as [Hle|Hlt].
  - exists [], st, l. simpl. split; [done|lia].
  - specialize (IH (acc + st)). destruct (reach_stake thr (acc + st) l) as [v'|].
    + destruct (IH Hlt ltac:(lia)) as (pre & st' & post & -> & ?). exists ((v, st) :: pre), st', post.
      change (sum_N ((v, st) :: pre).*2) with (st + sum_N pre.*2). split; [done|lia].
    + specialize (IH Hlt ltac:(lia)). lia.
Qed.

(** In a list sorted by [R], the value found is the first one whose
    predecessors and itself reach the threshold. *)
Lemma reach_stake_sorted (R : N -> N -> bool) thr l :
  (forall x, R x x = true) -> (forall x y z, R x y = true -> R y z = true -> R x z = true) ->
  0 < thr -> sum_N l.*2 <= u64_MAX -> StronglySorted (fun a b => R a.1 b.1 = true) l ->
  match reach_stake thr 0 l with
  | Some v => v ∈ l.*1 /\ thr <= stake_where snd (fun x => R x.1 v) l
      /\ forall v', R v v' = false -> stake_where snd (fun x => R x.1 v') l < thr
  | None => sum_N l.*2 < thr
  end.
Proof.
  intros Hrefl Htrans Hthr Hmax Hsort. pose proof (reach_stake_split thr 0 l Hthr) as Hs.
  destruct (reach_stake thr 0 l) as [v|]; [|apply Hs; lia].
  destruct Hs as (pre & st & post & -> & Hlo & Hhi); [lia|].
  assert (forall x, x ∈ pre -> R x.1 v = true) as Hpre.
  { intros x Hx. refine (StronglySorted_app_1_elem_of _ _ _ x (v, st) Hsort Hx _). left. }
  assert (forall x, x ∈ post -> R v x.1 = true) as Hpost.
  { apply StronglySorted_app_1_r, StronglySorted_inv in Hsort as [_ Hf]. by rewrite Forall_forall in Hf. }
  split_and!.
  - rewrite fmap_app. apply elem_of_app. right. simpl. left.
  - rewrite stake_where_app, stake_where_cons. simpl. rewrite Hrefl.
    rewrite stake_where_all by done. lia.
  - intros v' Hv'. rewrite stake_where_app, stake_where_cons. simpl. rewrite Hv'.
    rewrite (stake_where_none snd _ post).
    + rewrite !N.add_0_r. eapply N.le_lt_trans; [apply stake_where_le|]. exact Hlo.
    + intros x Hx. destruct (R x.1 v') eqn:E; [|done]. rewrite <- Hv'. symmetry. eapply Htrans; [by apply Hpost|done].
Qed.

(** The scan of the values of a committee, sorted by any order of pairs that
    refines [R] on the values. *)
Lemma reach_stake_holding (c : Committee) (R : N -> N -> bool) thr vs l :
  committee_wf c -> length vs = length (c_authorities c) ->
  (forall x, R x x = true) -> (forall x y z, R x y = true -> R y z = true -> R x z = true) ->
  0 < thr <= c_total_stake c -> l ≡ₚ zip vs (stakes (c_authorities c)) ->
  StronglySorted (fun a b => R a.1 b.1 = true) l ->
  exists v, reach_stake thr 0 l = Some v /\ v ∈ vs
    /\ thr <= stake_holding c vs (fun _ x => R x v)
    /\ forall v', R v v' = false -> stake_holding c vs (fun _ x => R x v') < thr.
Proof.
  intros Hc Hlen Hrefl Htrans [Hpos Hle] Hperm Hsort.
  assert (length vs = length (stakes (c_authorities c))) as Hlen' by (unfold stakes; by rewrite length_fmap).
  assert (sum_N l.*2 = c_total_stake c) as Hsum.
  { rewrite Hperm, snd_zip by lia. by rewrite (wf_total _ Hc). }
  pose proof (wf_total_u64 _ Hc) as Hmax.
  pose proof (reach_stake_sorted R thr l Hrefl Htrans Hpos ltac:(lia) Hsort) as Hs.
  assert (forall P, stake_where snd (fun x => P x.1) l = stake_holding c vs (fun _ x => P x)) as Hw.
  { intros P. rewrite (stake_where_perm snd _ _ _ Hperm), (stake_where_zip P vs _ 0) by done.
    apply weigh_ext. intros j _ _. by rewrite N.sub_0_r. }
  destruct (reach_stake thr 0 l) as [v|]; [|lia]. destruct Hs as (Hin & Hge & Hlt).
  exists v. split_and!; [done| | |].
  - rewrite Hperm, fst_zip in Hin by lia. done.
  - rewrite <- (Hw (fun x => R x v)). done.
  - intros v' Hv'. rewrite <- (Hw (fun x => R x v')). by apply Hlt.
Qed.

Lemma pair_leb_iff a b : pair_leb a b = true <-> a.1 < b.1 \/ a.1 = b.1 /\ a.2 <= b.2.
Proof. unfold pair_leb. by rewrite orb_true_iff, andb_true_iff, N.ltb_lt, N.eqb_eq, N.leb_le. Qed.

(** The values after sorting the pairs, upwards and downwards. *)
Lemma sorted_up l : StronglySorted (fun a b => (a.1 <=? b.1) = true) (stable_sort pair_leb l).
Proof.
  eapply StronglySorted_weaken; [|apply stable_sort_sorted]; intros *; rewrite ?pair_leb_iff, ?N.leb_le; lia.
Qed.

Lemma sorted_down l :
  StronglySorted (fun a b => (b.1 <=? a.1) = true) (stable_sort (fun a b => pair_leb b a) l).
Proof.
  eapply StronglySorted_weaken; [|apply stable_sort_sorted]; intros *; rewrite ?pair_leb_iff, ?N.leb_le; lia.
Qed.
