(* ===== verification/Context.v ===== *)
(** * Per-epoch context

    Models [ConsensusProtocolConfig], the fields of [Parameters] and [Context]
    that the consensus logic reads, and the clock, which is handed to the one
    component that reads it.  Metrics are left out: nothing in the modelled
    code branches on one, and the other times that the code records
    ([Instant]) are only reported. *)

From S2P Require Import Prelude Committee.

Inductive ChainType := Unknown | Testnet | Mainnet.

Record ConsensusProtocolConfig := mkProtocolConfig {
  protocol_version : N;
  chain : ChainType;
  max_transaction_size_bytes : N;
  max_transactions_in_block_bytes : N;
  max_num_transactions_in_block : N;
  gc_depth : N;
  transaction_voting_enabled : bool;
  num_leaders_per_round : option N;
  bad_nodes_stake_threshold : N;
  enable_v3 : bool;
  leader_schedule_window_size_ : N;
  leader_schedule_update_interval_ : N;
}.

(** The configuration of the crate's tests, outside the simulator. *)
Definition for_testing : ConsensusProtocolConfig := {|
  protocol_version := u64_MAX;
  chain := Unknown;
  max_transaction_size_bytes := 256 * 1024;
  max_transactions_in_block_bytes := 512 * 1024;
  max_num_transactions_in_block := 512;
  gc_depth := 60;
  transaction_voting_enabled := true;
  num_leaders_per_round := Some 1;
  bad_nodes_stake_threshold := 30;
  enable_v3 := false;
  leader_schedule_window_size_ := 600;
  leader_schedule_update_interval_ := 60;
|}.

(** The getters clamp the two sizes to at least one. *)
Definition leader_schedule_window_size (c : ConsensusProtocolConfig) : N :=
  N.max (leader_schedule_window_size_ c) 1.
Definition leader_schedule_update_interval (c : ConsensusProtocolConfig) : N :=
  N.max (leader_schedule_update_interval_ c) 1.

(** The parameters the modelled code reads; a duration is in nanoseconds. *)
Record Parameters := mkParameters {
  dag_state_cached_rounds : N;
  commit_sync_batch_size : N;
  skip_equivocation_validation : bool;
  min_round_delay : N;
  propagation_delay_stop_proposal_threshold : N;
  max_blocks_per_sync : N;
  max_blocks_per_fetch : N;
  commit_sync_parallel_fetches : N;
  commit_sync_batches_ahead : N;
}.

Record Context := mkContext {
  epoch_start_timestamp_ms : N;
  own_index : N;
  committee : Committee;
  parameters : Parameters;
  protocol_config : ConsensusProtocolConfig;
}.

(** An observer, a node outside the committee, has the maximal index. *)
Definition context_new (epoch_start_timestamp_ms : N) (own_index : option N)
    (committee : Committee) (parameters : Parameters)
    (protocol_config : ConsensusProtocolConfig) : Context :=
  {| epoch_start_timestamp_ms := epoch_start_timestamp_ms;
     own_index := match own_index with Some i => i | None => AUTHORITY_INDEX_MAX end;
     committee := committee;
     parameters := parameters;
     protocol_config := protocol_config |}.

Definition is_validator (c : Context) : bool := is_valid_index (committee c) (own_index c).
Definition is_observer (c : Context) : bool := negb (is_validator c).

(** A node built without an index is an observer, in every committee that
    [Committee::new] accepts. *)
Lemma context_new_observer ts c p pc :
  committee_wf c -> is_observer (context_new ts None c p pc) = true.
Proof.
  intros Hwf. unfold is_observer, is_validator, is_valid_index. simpl.
  unfold AUTHORITY_INDEX_MAX. pose proof (wf_size _ Hwf).
  rewrite (proj2 (N.ltb_ge _ _)); [done|lia].
Qed.

(* ------------------------------------------------------------------ *)
(** ** The clock *)

(** Instants and times are in nanoseconds, the system time relative to the
    epoch of UNIX.  [Instant::now()] is the environment's: [cl_instants] holds
    what its calls return and [cl_reads] counts them. *)
Record Clock := mkClock {
  cl_initial_instant : N;
  cl_initial_system_time : Z;
  clock_drift : N;
  cl_instants : nat -> N;
  cl_reads : nat;
}.

(** The last time that [SystemTime] represents: seconds in an [i64]. *)
Definition system_time_max : Z := 9223372036854775808 * 1000000000 - 1.

Definition timestamp_utc_ms (self : Clock) : outcome (N * Clock) :=
  _ ← assert_that (clock_drift self =? 0);
  let now := cl_instants self (cl_reads self) in
  _ ← assert_that (cl_initial_instant self <=? now);
  let monotonic_system_time := (cl_initial_system_time self + Z.of_N (now - cl_initial_instant self))%Z in
  _ ← assert_that (monotonic_system_time <=? system_time_max)%Z;
  _ ← assert_that (0 <=? monotonic_system_time)%Z;
  Ok (u64_add (u64_wrap (Z.to_N monotonic_system_time / 1000000)) (clock_drift self),
      mkClock (cl_initial_instant self) (cl_initial_system_time self) (clock_drift self) (cl_instants self)
        (S (cl_reads self))).

(** The instants do not go back, and stay within five hundred years of the
    epoch. *)
Record clock_ok (self : Clock) : Prop := {
  clk_drift : clock_drift self = 0;
  clk_start : (0 <= cl_initial_system_time self)%Z;
  clk_initial : forall n, cl_initial_instant self <= cl_instants self n;
  clk_monotone : forall n, cl_instants self n <= cl_instants self (S n);
  clk_range : forall n,
    (cl_initial_system_time self + Z.of_N (cl_instants self n) < 18446744073709551615)%Z;
}.

(** The time that read number [n] returns. *)
Definition clock_time (self : Clock) (n : nat) : N :=
  Z.to_N (cl_initial_system_time self + Z.of_N (cl_instants self n - cl_initial_instant self)) / 1000000.

Lemma timestamp_utc_ms_Ok self :
  clock_ok self ->
  exists self', timestamp_utc_ms self = Ok (clock_time self (cl_reads self), self') /\ clock_ok self'
    /\ (forall n, clock_time self' n = clock_time self n) /\ cl_reads self' = S (cl_reads self).
Proof.
  intros [Hd Hs Hi Hm Hr]. eexists. unfold timestamp_utc_ms. rewrite Hd.
  specialize (Hr (cl_reads self)) as Hr'. specialize (Hi (cl_reads self)) as Hi'.
  unfold system_time_max.
  rewrite (proj2 (N.leb_le _ _)) by done. cbn [assert_that mbind outcome_bind N.eqb].
  rewrite (proj2 (Z.leb_le _ _)) by lia. cbn [assert_that mbind outcome_bind].
  rewrite (proj2 (Z.leb_le _ _)) by lia. cbn [assert_that mbind outcome_bind].
  assert (clock_time self (cl_reads self) <= u64_MAX) as Hle.
  { unfold clock_time, u64_MAX. apply N.Div0.div_le_upper_bound. lia. }
  fold (clock_time self (cl_reads self)). rewrite u64_wrap_small by done.
  rewrite u64_add_small by lia. rewrite N.add_0_r. split; [done|]. split; [by constructor|done].
Qed.

(** Later reads return later times. *)
Lemma clock_time_mono self n m : clock_ok self -> (n <= m)%nat -> clock_time self n <= clock_time self m.
Proof.
  intros Hok Hle. induction Hle as [|m _ IH]; [done|]. etrans; [exact IH|].
  pose proof (clk_monotone _ Hok m). unfold clock_time. apply N.Div0.div_le_mono. lia.
Qed.
