(* ===== verification/Block.v ===== *)
(** * Blocks

    Models [crates/types/consensus/src/block.rs] ([BlockRef], [BlockDigest])
    and [crates/consensus/src/block.rs] ([Slot], the three block versions
    behind the [BlockAPI] trait, [SignedBlock], [VerifiedBlock], the genesis
    blocks).  A digest, 32 bytes compared lexicographically, is the number
    whose big-endian bytes it is. *)

From S2P Require Import Prelude Committee Context.

(* ------------------------------------------------------------------ *)
(** ** Block references and slots *)

Definition GENESIS_ROUND : N := 0.

Definition DIGEST_MIN : N := 0.
Definition DIGEST_MAX : N :=
  115792089237316195423570985008687907853269984665640564039457584007913129639935.

Record BlockRef := mkBlockRef { br_round : N; br_author : N; br_digest : N }.

Definition BLOCK_REF_MIN : BlockRef := mkBlockRef 0 AUTHORITY_INDEX_ZERO DIGEST_MIN.
Definition BLOCK_REF_MAX : BlockRef := mkBlockRef u32_MAX AUTHORITY_INDEX_MAX DIGEST_MAX.

#[global] Instance BlockRef_eq_dec : EqDecision BlockRef.
Proof. solve_decision. Defined.

#[global] Instance BlockRef_countable : Countable BlockRef.
Proof.
  refine (inj_countable' (fun r => (br_round r, br_author r, br_digest r))
            (fun '(a, b, c) => mkBlockRef a b c) _).
  by intros [].
Defined.

(** The derived [Ord]: by round, then author, then digest. *)
Definition block_ref_leb (a b : BlockRef) : bool :=
  (br_round a <? br_round b)
  || ((br_round a =? br_round b)
      && ((br_author a <? br_author b)
          || ((br_author a =? br_author b) && (br_digest a <=? br_digest b)))).

Lemma block_ref_leb_spec a b :
  block_ref_leb a b = true <->
  br_round a < br_round b
  \/ (br_round a = br_round b
      /\ (br_author a < br_author b
          \/ (br_author a = br_author b /\ br_digest a <= br_digest b))).
Proof.
  unfold block_ref_leb.
  rewrite !orb_true_iff, !andb_true_iff, !orb_true_iff, !andb_true_iff,
    !N.ltb_lt, !N.eqb_eq, !N.leb_le. tauto.
Qed.

Program Instance BlockRef_KeyOrder : KeyOrder BlockRef := {| key_leb := block_ref_leb |}.
Next Obligation. intros x y. simpl. rewrite !block_ref_leb_spec. lia. Qed.
Next Obligation. intros x y z. simpl. rewrite !block_ref_leb_spec. lia. Qed.
Next Obligation.
  intros [] []. simpl. rewrite !block_ref_leb_spec. simpl. intros. f_equal; lia.
Qed.

Lemma block_ref_leb_round a b : block_ref_leb a b = true -> br_round a <= br_round b.
Proof. rewrite block_ref_leb_spec. lia. Qed.

Record Slot := mkSlot { s_round : N; s_authority : N }.

#[global] Instance Slot_eq_dec : EqDecision Slot.
Proof. solve_decision. Defined.

(** [impl From<BlockRef> for Slot] *)
Definition slot_of_ref (r : BlockRef) : Slot := mkSlot (br_round r) (br_author r).

(** [Included(BlockRef::new(round, author, MIN)) ..= BlockRef::new(round, author, MAX)] *)
Definition in_slot (s : Slot) (r : BlockRef) : bool :=
  block_ref_leb (mkBlockRef (s_round s) (s_authority s) DIGEST_MIN) r
  && block_ref_leb r (mkBlockRef (s_round s) (s_authority s) DIGEST_MAX).

Lemma in_slot_spec s r :
  br_digest r <= DIGEST_MAX -> in_slot s r = true <-> slot_of_ref r = s.
Proof.
  intros Hd. unfold in_slot. rewrite andb_true_iff, !block_ref_leb_spec. simpl.
  unfold slot_of_ref, DIGEST_MIN. destruct s as [sr sa]; simpl. split.
  - intros [??]. f_equal; lia.
  - intros [= <- <-]. lia.
Qed.

(* ------------------------------------------------------------------ *)
(** ** Block contents *)

(** A transaction is its serialised bytes. *)
Record Transaction := mkTransaction { data : list byte }.

Record BlockTransactionVotes := mkBlockTransactionVotes {
  btv_block_ref : BlockRef;
  btv_rejects : list N;
}.

Record CommitRef := mkCommitRef { cr_index : N; cr_digest : N }.

#[global] Instance CommitRef_eq_dec : EqDecision CommitRef.
Proof. solve_decision. Defined.

#[global] Instance CommitRef_countable : Countable CommitRef.
Proof.
  refine (inj_countable' (fun r => (cr_index r, cr_digest r))
            (fun '(a, b) => mkCommitRef a b) _).
  by intros [].
Defined.

Inductive MisbehaviorProof := InvalidBlock (r : BlockRef).
Record MisbehaviorReport := mkMisbehaviorReport {
  mr_target : N;
  mr_proof : MisbehaviorProof;
}.

Record BlockV1 := mkBlockV1 {
  v1_epoch : N;
  v1_round : N;
  v1_author : N;
  v1_timestamp_ms : N;
  v1_ancestors : list BlockRef;
  v1_transactions : list Transaction;
  v1_commit_votes : list CommitRef;
  v1_misbehavior_reports : list MisbehaviorReport;
}.

Record BlockV2 := mkBlockV2 {
  v2_epoch : N;
  v2_round : N;
  v2_author : N;
  v2_timestamp_ms : N;
  v2_ancestors : list BlockRef;
  v2_transactions : list Transaction;
  v2_transaction_votes : list BlockTransactionVotes;
  v2_commit_votes : list CommitRef;
  v2_misbehavior_reports : list MisbehaviorReport;
}.

Record BlockV3 := mkBlockV3 {
  v3_epoch : N;
  v3_round : N;
  v3_author : N;
  v3_timestamp_ms : N;
  v3_ancestors : list BlockRef;
  v3_transactions : list Transaction;
  v3_transaction_votes : list BlockTransactionVotes;
  v3_transaction_votes_cutoff_round : N;
  v3_commit_votes : list CommitRef;
  v3_misbehavior_reports : list MisbehaviorReport;
}.

Inductive Block := V1 (b : BlockV1) | V2 (b : BlockV2) | V3 (b : BlockV3).

(** [trait BlockAPI] *)
Class BlockAPI (B : Type) := {
  epoch : B -> N;
  round : B -> N;
  author : B -> N;
  slot : B -> Slot;
  timestamp_ms : B -> N;
  ancestors : B -> list BlockRef;
  transactions : B -> list Transaction;
  transactions_data : B -> list (list byte);
  transaction_votes : B -> list BlockTransactionVotes;
  transaction_votes_cutoff_round : B -> outcome N;
  commit_votes : B -> list CommitRef;
  misbehavior_reports : B -> list MisbehaviorReport;
}.
#[global] Hint Mode BlockAPI ! : typeclass_instances.

(** The accessors stay folded in goals. *)
#[global] Arguments epoch {B _} _ : simpl never.
#[global] Arguments round {B _} _ : simpl never.
#[global] Arguments author {B _} _ : simpl never.
#[global] Arguments slot {B _} _ : simpl never.
#[global] Arguments timestamp_ms {B _} _ : simpl never.
#[global] Arguments ancestors {B _} _ : simpl never.

#[global] Instance BlockV1_API : BlockAPI BlockV1 := {
  epoch := v1_epoch;
  round := v1_round;
  author := v1_author;
  slot b := mkSlot (v1_round b) (v1_author b);
  timestamp_ms := v1_timestamp_ms;
  ancestors := v1_ancestors;
  transactions := v1_transactions;
  transactions_data b := data <$> v1_transactions b;
  transaction_votes _ := [];
  transaction_votes_cutoff_round _ := Panic;
  commit_votes := v1_commit_votes;
  misbehavior_reports := v1_misbehavior_reports;
}.

#[global] Instance BlockV2_API : BlockAPI BlockV2 := {
  epoch := v2_epoch;
  round := v2_round;
  author := v2_author;
  slot b := mkSlot (v2_round b) (v2_author b);
  timestamp_ms := v2_timestamp_ms;
  ancestors := v2_ancestors;
  transactions := v2_transactions;
  transactions_data b := data <$> v2_transactions b;
  transaction_votes := v2_transaction_votes;
  transaction_votes_cutoff_round _ := Panic;
  commit_votes := v2_commit_votes;
  misbehavior_reports := v2_misbehavior_reports;
}.

#[global] Instance BlockV3_API : BlockAPI BlockV3 := {
  epoch := v3_epoch;
  round := v3_round;
  author := v3_author;
  slot b := mkSlot (v3_round b) (v3_author b);
  timestamp_ms := v3_timestamp_ms;
  ancestors := v3_ancestors;
  transactions := v3_transactions;
  transactions_data b := data <$> v3_transactions b;
  transaction_votes := v3_transaction_votes;
  transaction_votes_cutoff_round b := Ok (v3_transaction_votes_cutoff_round b);
  commit_votes := v3_commit_votes;
  misbehavior_reports := v3_misbehavior_reports;
}.

(** [#[enum_dispatch(BlockAPI)]] *)
Definition dispatch {R} (f1 : BlockV1 -> R) (f2 : BlockV2 -> R) (f3 : BlockV3 -> R)
    (b : Block) : R :=
  match b with V1 b => f1 b | V2 b => f2 b | V3 b => f3 b end.

#[global] Instance Block_API : BlockAPI Block := {
  epoch := dispatch epoch epoch epoch;
  round := dispatch round round round;
  author := dispatch author author author;
  slot := dispatch slot slot slot;
  timestamp_ms := dispatch timestamp_ms timestamp_ms timestamp_ms;
  ancestors := dispatch ancestors ancestors ancestors;
  transactions := dispatch transactions transactions transactions;
  transactions_data := dispatch transactions_data transactions_data transactions_data;
  transaction_votes := dispatch transaction_votes transaction_votes transaction_votes;
  transaction_votes_cutoff_round :=
    dispatch transaction_votes_cutoff_round transaction_votes_cutoff_round
      transaction_votes_cutoff_round;
  commit_votes := dispatch commit_votes commit_votes commit_votes;
  misbehavior_reports := dispatch misbehavior_reports misbehavior_reports misbehavior_reports;
}.

Definition blockv1_genesis_block (context : Context) (author : N) : BlockV1 := {|
  v1_epoch := c_epoch (committee context);
  v1_round := GENESIS_ROUND;
  v1_author := author;
  v1_timestamp_ms := epoch_start_timestamp_ms context;
  v1_ancestors := [];
  v1_transactions := [];
  v1_commit_votes := [];
  v1_misbehavior_reports := [];
|}.

Definition blockv2_genesis_block (context : Context) (author : N) : BlockV2 := {|
  v2_epoch := c_epoch (committee context);
  v2_round := GENESIS_ROUND;
  v2_author := author;
  v2_timestamp_ms := epoch_start_timestamp_ms context;
  v2_ancestors := [];
  v2_transactions := [];
  v2_transaction_votes := [];
  v2_commit_votes := [];
  v2_misbehavior_reports := [];
|}.

Definition blockv3_genesis_block (context : Context) (author : N) : BlockV3 := {|
  v3_epoch := c_epoch (committee context);
  v3_round := GENESIS_ROUND;
  v3_author := author;
  v3_timestamp_ms := epoch_start_timestamp_ms context;
  v3_ancestors := [];
  v3_transactions := [];
  v3_transaction_votes := [];
  v3_transaction_votes_cutoff_round := GENESIS_ROUND;
  v3_commit_votes := [];
  v3_misbehavior_reports := [];
|}.

(* ------------------------------------------------------------------ *)
(** ** Signed and verified blocks *)

Record SignedBlock := mkSignedBlock { inner : Block; signature : list byte }.

Definition signed_block_new_genesis (block : Block) : SignedBlock :=
  {| inner := block; signature := [] |}.

Record VerifiedBlock := mkVerifiedBlock {
  vb_block : SignedBlock;
  vb_digest : N;
  vb_serialized : list byte;
}.

(** Both deref to the block inside. *)
#[global] Instance VerifiedBlock_API : BlockAPI VerifiedBlock := {
  epoch b := epoch (inner (vb_block b));
  round b := round (inner (vb_block b));
  author b := author (inner (vb_block b));
  slot b := slot (inner (vb_block b));
  timestamp_ms b := timestamp_ms (inner (vb_block b));
  ancestors b := ancestors (inner (vb_block b));
  transactions b := transactions (inner (vb_block b));
  transactions_data b := transactions_data (inner (vb_block b));
  transaction_votes b := transaction_votes (inner (vb_block b));
  transaction_votes_cutoff_round b := transaction_votes_cutoff_round (inner (vb_block b));
  commit_votes b := commit_votes (inner (vb_block b));
  misbehavior_reports b := misbehavior_reports (inner (vb_block b));
}.

Definition reference (b : VerifiedBlock) : BlockRef :=
  {| br_round := round b; br_author := author b; br_digest := vb_digest b |}.

(** [impl PartialEq for VerifiedBlock] *)
Definition verified_block_eqb (a b : VerifiedBlock) : bool := vb_digest a =? vb_digest b.

Record ExtendedBlock := mkExtendedBlock {
  eb_block : VerifiedBlock;
  excluded_ancestors : list BlockRef;
}.

(** The serialisation and hashing of signed blocks belong to the [bcs] and
    [fastcrypto] crates: they are parameters. *)
Section hashing.
Context (bcs_to_bytes : SignedBlock -> list byte) (default_hash : list byte -> N).

Definition verified_block_new_verified (signed_block : SignedBlock) (serialized : list byte)
    : VerifiedBlock :=
  {| vb_block := signed_block;
     vb_digest := default_hash serialized;
     vb_serialized := serialized |}.

Definition genesis_blocks (context : Context) : list VerifiedBlock :=
  (fun '(authority_index, _) =>
     let block :=
       if transaction_voting_enabled (protocol_config context)
       then V2 (blockv2_genesis_block context authority_index)
       else V1 (blockv1_genesis_block context authority_index) in
     let signed_block := signed_block_new_genesis block in
     verified_block_new_verified signed_block (bcs_to_bytes signed_block))
  <$> committee_authorities (committee context).
End hashing.

(** A block for concrete examples, with a digest of the caller's choice. *)
Definition test_block (round author timestamp digest : N) (ancestors : list BlockRef)
    : VerifiedBlock :=
  {| vb_block := {| inner := V2 {| v2_epoch := 0; v2_round := round; v2_author := author;
                                   v2_timestamp_ms := timestamp; v2_ancestors := ancestors;
                                   v2_transactions := []; v2_transaction_votes := [];
                                   v2_commit_votes := []; v2_misbehavior_reports := [] |};
                    signature := [] |};
     vb_digest := digest;
     vb_serialized := [] |}.
