(* ===== verification/StakeAggregator.v ===== *)
(** * Stake aggregation

    Models [crates/consensus/src/stake_aggregator.rs]: a set of voters and
    their accumulated stake, generic in the threshold that is to be reached.
    The thresholds are instances of the trait [CommitteeThreshold]. *)

From S2P Require Import Prelude Committee.

(* ------------------------------------------------------------------ *)
(** ** Thresholds *)

(** [trait CommitteeThreshold] *)
Class CommitteeThreshold (T : Type) := {
  is_threshold : Committee -> N -> bool;
  threshold : Committee -> N;
}.
Arguments is_threshold T {_} _ _.
Arguments threshold T {_} _.

Inductive QuorumThreshold : Set := quorum_threshold_marker.
Inductive CertificationThreshold : Set := certification_threshold_marker.
Inductive ValidityThreshold : Set := validity_threshold_marker.

#[global] Instance QuorumThreshold_impl : CommitteeThreshold QuorumThreshold := {
  is_threshold c amount := reached_quorum c amount;
  threshold c := c_quorum_threshold c;
}.

#[global] Instance CertificationThreshold_impl : CommitteeThreshold CertificationThreshold := {
  is_threshold c amount := c_certification_threshold c <=? amount;
  threshold c := c_certification_threshold c;
}.

#[global] Instance ValidityThreshold_impl : CommitteeThreshold ValidityThreshold := {
  is_threshold c amount := reached_validity c amount;
  threshold c := c_validity_threshold c;
}.

(** What the clients of the trait rely on: the test is the comparison with
    the threshold. *)
Class CommitteeThresholdLaws (T : Type) `{CommitteeThreshold T} : Prop :=
  is_threshold_spec : forall c amount, is_threshold T c amount = (threshold T c <=? amount).

#[global] Instance QuorumThreshold_laws : CommitteeThresholdLaws QuorumThreshold.
Proof. done. Qed.
#[global] Instance CertificationThreshold_laws : CommitteeThresholdLaws CertificationThreshold.
Proof. done. Qed.
#[global] Instance ValidityThreshold_laws : CommitteeThresholdLaws ValidityThreshold.
Proof. done. Qed.

(* ------------------------------------------------------------------ *)
(** ** The aggregator *)

(** [T] is the phantom parameter of the struct. *)
Record StakeAggregator (T : Type) := mkStakeAggregator {
  votes : gset N;
  agg_stake : N;
}.
Arguments mkStakeAggregator {T} _ _.
Arguments votes {T} _.
Arguments agg_stake {T} _.

Definition stake_aggregator_new {T} : StakeAggregator T :=
  {| votes := ∅; agg_stake := 0 |}.

(** [if self.votes.insert(vote) { self.stake += committee.stake(vote) }] *)
Definition count_vote {T} (s : StakeAggregator T) (vote : N) (c : Committee)
    : outcome (StakeAggregator T) :=
  stake ← committee_stake c vote;
  Ok {| votes := {[vote]} ∪ votes s; agg_stake := u64_add (agg_stake s) stake |}.

Definition stake_aggregator_add {T} `{CommitteeThreshold T} (s : StakeAggregator T)
    (vote : N) (c : Committee) : outcome (StakeAggregator T * bool) :=
  s' ← (if decide (vote ∈ votes s) then Ok s else count_vote s vote c);
  Ok (s', is_threshold T c (agg_stake s')).

Definition add_unique {T} (s : StakeAggregator T) (vote : N) (c : Committee)
    : outcome (StakeAggregator T * bool) :=
  if decide (vote ∈ votes s) then Ok (s, false)
  else s' ← count_vote s vote c; Ok (s', true).

Definition reached_threshold {T} `{CommitteeThreshold T} (s : StakeAggregator T)
    (c : Committee) : bool := is_threshold T c (agg_stake s).

Definition stake_aggregator_threshold {T} `{CommitteeThreshold T} (_ : StakeAggregator T)
    (c : Committee) : N := threshold T c.

Definition stake_aggregator_clear {T} (_ : StakeAggregator T) : StakeAggregator T :=
  {| votes := ∅; agg_stake := 0 |}.

(* ------------------------------------------------------------------ *)
(** ** Invariant: the recorded stake is the stake of the voters *)

Definition valid_authorities (c : Committee) (s : gset N) : Prop :=
  forall a, a ∈ s -> is_valid_index c a = true.

Record agg_wf {T} (c : Committee) (s : StakeAggregator T) : Prop := {
  agg_valid : valid_authorities c (votes s);
  agg_exact : agg_stake s = stake_of c (votes s);
}.

Section aggregator.
Context {T : Type} `{CommitteeThreshold T, !CommitteeThresholdLaws T}.
Context (c : Committee) (Hwf : committee_wf c).
Implicit Types (s : StakeAggregator T).

Lemma agg_new_wf : agg_wf c (stake_aggregator_new (T := T)).
Proof. constructor; simpl; [intros a; set_solver|]. by rewrite stake_of_empty. Qed.

Lemma agg_clear_wf s : agg_wf c (stake_aggregator_clear s).
Proof. apply agg_new_wf. Qed.

Lemma count_vote_Ok s v :
  agg_wf c s -> is_valid_index c v = true -> v ∉ votes s ->
  exists s', count_vote s v c = Ok s' /\ votes s' = {[v]} ∪ votes s /\ agg_wf c s'.
Proof.
  intros [Hv Hs] Hvalid Hn. unfold count_vote. rewrite committee_stake_Ok by done. simpl.
  eexists; split; [reflexivity|]; simpl. split; [done|].
  assert (agg_stake s + stake_at c v = stake_of c ({[v]} ∪ votes s)) as Hsum.
  { rewrite stake_of_insert by done. lia. }
  constructor; simpl.
  - intros a Ha. set_solver.
  - rewrite u64_add_small; [done|]. rewrite Hsum.
    pose proof (stake_of_le_total c ({[v]} ∪ votes s) Hwf). pose proof (wf_total_u64 _ Hwf). lia.
Qed.

Lemma add_Ok s v :
  agg_wf c s -> is_valid_index c v = true ->
  exists s', stake_aggregator_add s v c
             = Ok (s', threshold T c <=? stake_of c ({[v]} ∪ votes s))
    /\ votes s' = {[v]} ∪ votes s /\ agg_wf c s'.
Proof.
  intros Hs Hvalid. unfold stake_aggregator_add. case_decide as Hin.
  - assert ({[v]} ∪ votes s = votes s) as -> by set_solver. simpl.
    exists s. rewrite is_threshold_spec, <- (agg_exact _ _ Hs). done.
  - destruct (count_vote_Ok s v) as (s' & -> & Hv & Hwf'); [done..|]. simpl.
    exists s'. rewrite is_threshold_spec, (agg_exact _ _ Hwf'), Hv. done.
Qed.

Lemma add_unique_Ok s v :
  agg_wf c s -> is_valid_index c v = true ->
  exists s', add_unique s v c = Ok (s', bool_decide (v ∉ votes s))
    /\ votes s' = {[v]} ∪ votes s /\ agg_wf c s'.
Proof.
  intros Hs Hvalid. unfold add_unique. case_decide as Hin.
  - exists s. rewrite bool_decide_eq_false_2 by tauto. split; [done|]. split; [set_solver|done].
  - destruct (count_vote_Ok s v) as (s' & -> & Hv & Hwf'); [done..|]. simpl.
    exists s'. rewrite bool_decide_eq_true_2 by done. done.
Qed.
End aggregator.

(** Adding votes one by one and remembering the last answer. *)
Definition add_all {T} `{CommitteeThreshold T} (c : Committee) (vs : list N)
    : outcome (StakeAggregator T * bool) :=
  foldM (fun '(s, _) v => stake_aggregator_add s v c) vs (stake_aggregator_new, false).

(** The general case: from any aggregator, with the answer [b] it gave last. *)
Lemma add_all_from {T} `{CommitteeThreshold T, !CommitteeThresholdLaws T}
    (c : Committee) (vs : list N) (s : StakeAggregator T) (b : bool) :
  committee_wf c -> agg_wf c s ->
  (forall v, v ∈ vs -> is_valid_index c v = true) ->
  exists s', foldM (fun '(s, _) v => stake_aggregator_add (T := T) s v c) vs (s, b)
      = Ok (s', if is_empty vs then b
                else threshold T c <=? stake_of c (list_to_set vs ∪ votes s))
    /\ votes s' = list_to_set vs ∪ votes s /\ agg_wf c s'.
Proof.
  intros Hwf. revert s b. induction vs as [|v vs IH]; intros s b Hs Hvs; simpl.
  - exists s. split; [done|]. split; [set_solver|done].
  - destruct (add_Ok c Hwf s v Hs) as (s1 & E1 & Hv1 & Hwf1); [apply Hvs; set_solver|].
    rewrite E1. simpl.
    destruct (IH s1 (threshold T c <=? stake_of c ({[v]} ∪ votes s))) as (s' & E' & Hv' & Hwf');
      [done|intros; apply Hvs; set_solver|].
    exists s'. rewrite E', Hv', Hv1. split_and!; [|set_solver|done].
    destruct vs; simpl; do 4 f_equal; set_solver.
Qed.

(** The aggregator counts every authority once: after any sequence of votes
    of valid authorities, with repetitions and in any order, it returns
    without panic or overflow, holds exactly the set of voters and the stake
    of that set, and its last answer is whether that stake reached the
    threshold. *)
Theorem stake_aggregator_exact {T} `{CommitteeThreshold T, !CommitteeThresholdLaws T}
    (c : Committee) (vs : list N) :
  committee_wf c ->
  (forall v, v ∈ vs -> is_valid_index c v = true) ->
  vs <> [] ->
  exists s, add_all (T := T) c vs
            = Ok (s, threshold T c <=? stake_of c (list_to_set vs))
    /\ votes s = list_to_set vs
    /\ agg_stake s = stake_of c (list_to_set vs).
Proof.
  intros Hwf Hvs Hne.
  destruct (add_all_from c vs (stake_aggregator_new (T := T)) false)
    as (s & E & Hv & Hs); [done|by apply agg_new_wf|done|].
  exists s. simpl in *. rewrite right_id_L in E, Hv by apply _. unfold add_all. rewrite E.
  split_and!; [by destruct vs|done|]. by rewrite (agg_exact _ _ Hs), Hv.
Qed.

(** The committee of the crate's tests: [n] authorities of equal stake. *)
Definition test_committee (n : nat) : Committee :=
  match committee_new 0 (replicate n (test_authority 1)) with
  | Ok c => c
  | _ => mkCommittee 0 [] 0 0 0 0
  end.

Lemma test_committee_4_wf : committee_wf (test_committee 4).
Proof. by constructor; vm_compute. Qed.

Lemma stake_aggregator_exact_witness :
  exists s : StakeAggregator QuorumThreshold,
    add_all (test_committee 4) [0; 2; 0; 3] = Ok (s, true) /\ agg_stake s = 3.
Proof.
  destruct (stake_aggregator_exact (T := QuorumThreshold) (test_committee 4) [0; 2; 0; 3])
    as (s & E & _ & Hs).
  - exact test_committee_4_wf.
  - intros v Hv. repeat (apply elem_of_cons in Hv as [->|Hv]; [reflexivity|]). inversion Hv.
  - discriminate.
  - exists s. split; [exact E|]. rewrite Hs. reflexivity.
Defined.
