(* ===== verification/ThresholdClock.v ===== *)
(** * Threshold clock

    Models [crates/consensus/src/threshold_clock.rs]: the round in which the
    authority proposes, advanced by the blocks accepted into the DAG.  The
    specification [clock_spec] is a function of the set of accepted blocks;
    the clock refines it, so its round does not depend on the order in which
    blocks are accepted. *)

From S2P Require Import Prelude Committee Context Block StakeAggregator.

(** The time of the last quorum ([quorum_ts]) is only reported. *)
Record ThresholdClock := mkThresholdClock {
  tc_aggregator : StakeAggregator QuorumThreshold;
  tc_round : N;
}.

Definition threshold_clock_new (round : N) : ThresholdClock :=
  {| tc_aggregator := stake_aggregator_new; tc_round := round |}.

Definition threshold_clock_add_block (c : Committee) (self : ThresholdClock) (block : BlockRef)
    : outcome (ThresholdClock * bool) :=
  match br_round block ?= tc_round self with
  | Lt => Ok (self, false)
  | Eq =>
      res ← stake_aggregator_add (tc_aggregator self) (br_author block) c;
      let '(agg, reached) := res in
      if reached : bool then
        Ok ({| tc_aggregator := stake_aggregator_clear agg;
               tc_round := u32_add (br_round block) 1 |}, true)
      else
        _ ← committee_authority c (br_author block);
        Ok ({| tc_aggregator := agg; tc_round := tc_round self |}, false)
  | Gt =>
      res ← stake_aggregator_add (stake_aggregator_clear (tc_aggregator self)) (br_author block) c;
      let '(agg, reached) := res in
      Ok ({| tc_aggregator := agg;
             tc_round := if reached : bool then u32_add (br_round block) 1
                         else br_round block |}, true)
  end.

(** Returns the new round if it advanced. *)
Definition threshold_clock_add_blocks (c : Committee) (self : ThresholdClock)
    (blocks : list BlockRef) : outcome (ThresholdClock * option N) :=
  let previous_round := tc_round self in
  self' ← foldM (fun t b => fst <$> threshold_clock_add_block c t b) blocks self;
  Ok (self', if previous_round <? tc_round self' then Some (tc_round self') else None).

(* ------------------------------------------------------------------ *)
(** ** Specification *)

Definition authors_at (r : N) (l : list BlockRef) : gset N :=
  list_to_set (br_author <$> filter (fun b => br_round b = r) l).

Definition max_round (start : N) (l : list BlockRef) : N :=
  foldr (fun b m => N.max (br_round b) m) start l.

(** The clock is at the highest round seen, or one past it when the blocks
    of that round come from a quorum. *)
Definition clock_spec (c : Committee) (start : N) (l : list BlockRef) : N :=
  let r := max_round start l in
  if reached_quorum c (stake_of c (authors_at r l)) then r + 1 else r.

Lemma elem_of_authors_at a r l :
  a ∈ authors_at r l <-> exists b, b ∈ l /\ br_round b = r /\ br_author b = a.
Proof.
  unfold authors_at. rewrite elem_of_list_to_set, list_elem_of_fmap.
  setoid_rewrite list_elem_of_filter. naive_solver.
Qed.

Lemma max_round_snoc start l b :
  max_round start (l ++ [b]) = N.max (max_round start l) (br_round b).
Proof.
  unfold max_round. induction l as [|x l IH]; cbn; [lia|]. cbn in IH. rewrite IH. lia.
Qed.

Lemma max_round_ge start l b : b ∈ l -> br_round b <= max_round start l.
Proof.
  unfold max_round. induction l as [|x l IH]; [set_solver|].
  intros [->|Hb]%elem_of_cons; simpl; [lia|]. specialize (IH Hb). lia.
Qed.

Lemma max_round_perm start l1 l2 : l1 ≡ₚ l2 -> max_round start l1 = max_round start l2.
Proof. unfold max_round. induction 1; simpl; lia. Qed.

Lemma authors_at_snoc r l b :
  authors_at r (l ++ [b])
  = (if decide (br_round b = r) then {[br_author b]} else ∅) ∪ authors_at r l.
Proof.
  apply set_eq. intros a. rewrite elem_of_union, !elem_of_authors_at.
  case_decide; set_solver.
Qed.

Lemma authors_at_above_empty start r l : max_round start l < r -> authors_at r l = ∅.
Proof.
  intros Hr. apply set_eq. intros a. rewrite elem_of_authors_at. split; [|set_solver].
  intros (b & Hb & <- & _). pose proof (max_round_ge start _ _ Hb). lia.
Qed.

(** Adding a block of a committee member never panics. *)
Lemma clock_add_total (c : Committee) t b :
  committee_wf c -> agg_wf c (tc_aggregator t) -> is_valid_index c (br_author b) = true ->
  exists t' adv, threshold_clock_add_block c t b = Ok (t', adv) /\ agg_wf c (tc_aggregator t').
Proof.
  intros Hwf Ht Hv. unfold threshold_clock_add_block. destruct (br_round b ?= tc_round t).
  - destruct (add_Ok c Hwf (tc_aggregator t) (br_author b) Ht Hv) as (s' & -> & _ & Hs'). simpl.
    destruct (_ <=? _); simpl; [eexists _, _; split; [done|by apply agg_new_wf]|].
    destruct (committee_authority_Ok c _ Hv) as [x ->]. simpl. by eexists _, _.
  - by eexists _, _.
  - destruct (add_Ok c Hwf (stake_aggregator_clear (tc_aggregator t)) (br_author b))
      as (s' & -> & _ & Hs'); [by apply agg_new_wf|done|]. simpl. by eexists _, _.
Qed.

Section refinement.
Context (c : Committee) (Hwf : committee_wf c) (start : N).
(** No authority is a quorum by itself. *)
Context (Hsingle : forall a, reached_quorum c (stake_of c {[a]}) = false).

(** What the clock's state means after the blocks [l]. *)
Record clock_inv (t : ThresholdClock) (l : list BlockRef) : Prop := {
  ci_round : tc_round t = clock_spec c start l;
  ci_votes : votes (tc_aggregator t) = authors_at (tc_round t) l;
  ci_agg : agg_wf c (tc_aggregator t);
}.

Lemma quorum_mono s1 s2 :
  s1 ⊆ s2 -> reached_quorum c (stake_of c s1) = true -> reached_quorum c (stake_of c s2) = true.
Proof.
  unfold reached_quorum. rewrite !N.leb_le. intros Hs.
  pose proof (stake_of_mono c _ _ Hs). lia.
Qed.

Lemma quorum_empty : reached_quorum c (stake_of c ∅) = false.
Proof.
  unfold reached_quorum. rewrite stake_of_empty, N.leb_gt.
  pose proof (wf_intersect _ Hwf). pose proof (wf_validity_pos _ Hwf). lia.
Qed.

Lemma clock_inv_new : clock_inv (threshold_clock_new start) [].
Proof.
  assert (clock_spec c start [] = start) as E.
  { unfold clock_spec, authors_at. cbn. by rewrite quorum_empty. }
  constructor; simpl; [done|done|by apply agg_new_wf].
Qed.

(** An old block changes nothing. *)
Lemma clock_spec_old l b :
  br_round b < clock_spec c start l -> clock_spec c start (l ++ [b]) = clock_spec c start l.
Proof.
  unfold clock_spec. rewrite max_round_snoc. intros Hlt.
  destruct (reached_quorum c (stake_of c (authors_at (max_round start l) l))) eqn:E.
  - replace (N.max (max_round start l) (br_round b)) with (max_round start l) by lia.
    rewrite (quorum_mono (authors_at (max_round start l) l)); [done| |done].
    rewrite authors_at_snoc. set_solver.
  - replace (N.max (max_round start l) (br_round b)) with (max_round start l) by lia.
    rewrite authors_at_snoc, decide_False by lia. rewrite left_id_L by apply _. by rewrite E.
Qed.

(** A block at the clock's round, or above it, decides the new round. *)
Lemma clock_spec_new l b :
  clock_spec c start l <= br_round b ->
  clock_spec c start (l ++ [b])
  = if reached_quorum c (stake_of c ({[br_author b]} ∪ authors_at (br_round b) l))
    then br_round b + 1 else br_round b.
Proof.
  intros Hle. unfold clock_spec. rewrite max_round_snoc.
  assert (max_round start l <= br_round b) as Hm.
  { revert Hle. unfold clock_spec. destruct (reached_quorum _ _); lia. }
  replace (N.max (max_round start l) (br_round b)) with (br_round b) by lia.
  rewrite authors_at_snoc, decide_True by done. done.
Qed.

Lemma clock_spec_ge_max l : max_round start l <= clock_spec c start l.
Proof. unfold clock_spec. destruct (reached_quorum _ _); lia. Qed.

(** The authors of the rounds from the clock's successor on are none. *)
Lemma clock_authors_above r l : clock_spec c start l < r -> authors_at r l = ∅.
Proof.
  intros Hr. apply (authors_at_above_empty start). pose proof (clock_spec_ge_max l). lia.
Qed.

Lemma clock_add_equal t l b :
  clock_inv t l -> is_valid_index c (br_author b) = true -> br_round b < u32_MAX ->
  br_round b = tc_round t ->
  exists t', threshold_clock_add_block c t b
             = Ok (t', clock_spec c start l <? clock_spec c start (l ++ [b]))
    /\ clock_inv t' (l ++ [b]).
Proof.
  intros [Hr Hv Ha] Hvalid Hmax Heq. unfold threshold_clock_add_block.
  rewrite (proj2 (N.compare_eq_iff _ _) Heq).
  pose proof (clock_spec_new l b ltac:(lia)) as Hspec.
  destruct (add_Ok c Hwf (tc_aggregator t) (br_author b) Ha Hvalid) as (s' & E & Hs' & Hwf').
  rewrite E. simpl. rewrite Hv, <- Heq.
  change (c_quorum_threshold c <=? ?x) with (reached_quorum c x).
  destruct (reached_quorum c (stake_of c ({[br_author b]} ∪ authors_at (br_round b) l))) eqn:Eq.
  - rewrite (u32_add_small (br_round b) 1) by (unfold u32_MAX in *; lia).
    eexists; split; [do 2 f_equal; symmetry; apply N.ltb_lt; lia|].
    constructor; simpl; [lia| |by apply agg_new_wf].
    rewrite authors_at_snoc, decide_False, clock_authors_above by lia. set_solver.
  - destruct (committee_authority_Ok c (br_author b) Hvalid) as [x ->]. simpl.
    eexists; split; [do 2 f_equal; symmetry; apply N.ltb_ge; lia|].
    constructor; simpl; [lia| |done]. by rewrite Hs', Hv, authors_at_snoc, decide_True, Heq.
Qed.

Lemma clock_add_greater t l b :
  clock_inv t l -> is_valid_index c (br_author b) = true ->
  tc_round t < br_round b ->
  exists t', threshold_clock_add_block c t b
             = Ok (t', clock_spec c start l <? clock_spec c start (l ++ [b]))
    /\ clock_inv t' (l ++ [b]).
Proof.
  intros [Hr Hv Ha] Hvalid Hgt. unfold threshold_clock_add_block.
  rewrite (proj2 (N.compare_gt_iff _ _) Hgt).
  pose proof (clock_spec_new l b ltac:(lia)) as Hspec.
  rewrite clock_authors_above, (right_id_L ∅ (∪)), Hsingle in Hspec by lia.
  destruct (add_Ok c Hwf (stake_aggregator_clear (tc_aggregator t)) (br_author b))
    as (s' & E & Hs' & Hwf'); [by apply agg_new_wf|done|].
  rewrite E. simpl. rewrite (right_id_L ∅ (∪)).
  change (c_quorum_threshold c <=? ?x) with (reached_quorum c x). rewrite Hsingle.
  eexists; split; [do 2 f_equal; symmetry; apply N.ltb_lt; lia|].
  constructor; simpl; [lia| |done].
  rewrite Hs', authors_at_snoc, decide_True, clock_authors_above by lia. done.
Qed.

Lemma clock_add_block_Ok t l b :
  clock_inv t l -> is_valid_index c (br_author b) = true -> br_round b < u32_MAX ->
  exists t', threshold_clock_add_block c t b
             = Ok (t', clock_spec c start l <? clock_spec c start (l ++ [b]))
    /\ clock_inv t' (l ++ [b]).
Proof.
  intros Hinv Hvalid Hmax. destruct (N.lt_trichotomy (br_round b) (tc_round t)) as [Hlt|[Heq|Hgt]].
  - destruct Hinv as [Hr Hv Ha]. unfold threshold_clock_add_block.
    rewrite (proj2 (N.compare_lt_iff _ _) Hlt).
    pose proof (clock_spec_old l b ltac:(lia)) as Hspec.
    eexists; split; [do 2 f_equal; symmetry; apply N.ltb_ge; lia|].
    constructor; [congruence| |done]. rewrite authors_at_snoc, decide_False by lia.
    by rewrite (left_id_L ∅ (∪)).
  - by apply clock_add_equal.
  - by apply clock_add_greater.
Qed.

Lemma clock_add_blocks_Ok t l bs :
  clock_inv t l ->
  (forall b, b ∈ bs -> is_valid_index c (br_author b) = true /\ br_round b < u32_MAX) ->
  exists t', foldM (fun t b => fst <$> threshold_clock_add_block c t b) bs t = Ok t'
    /\ clock_inv t' (l ++ bs).
Proof.
  revert t l. induction bs as [|b bs IH]; intros t l Hinv Hbs; simpl.
  - exists t. by rewrite app_nil_r.
  - destruct (Hbs b) as [Hv Hm]; [set_solver|].
    destruct (clock_add_block_Ok t l b Hinv Hv Hm) as (t1 & E1 & H1). rewrite E1. simpl.
    destruct (IH t1 (l ++ [b]) H1) as (t' & E' & H'); [set_solver|].
    exists t'. split; [done|]. by rewrite <- app_assoc in H'.
Qed.
End refinement.

Lemma single_no_quorum (c : Committee) :
  (forall a, stake_at c a < c_quorum_threshold c) ->
  forall a, reached_quorum c (stake_of c {[a]}) = false.
Proof.
  intros Hs a. unfold reached_quorum. rewrite N.leb_gt, stake_of_single. apply Hs.
Qed.



(** Four authorities of which the first is a quorum by itself. *)
Definition heavy_committee : Committee :=
  mkCommittee 0 (test_authority <$> [7; 1; 1; 1]) 10 7 7 4.

Lemma heavy_committee_new :
  committee_new 0 (test_authority <$> [7; 1; 1; 1]) = Ok heavy_committee.
Proof. reflexivity. Qed.

(** The stale vote.  When one authority is a quorum by itself its block
    of a later round moves the clock one past that block and leaves its vote
    in the aggregator, where it counts for the next round: with stakes
    7, 1, 1, 1 the clock moves to round 3 although the blocks of round 2 carry
    a stake of 1, where the specification (and the clock fed with the same
    blocks when the first one is of the current round) stays at 2. *)
Example threshold_clock_stale_vote :
  let c := heavy_committee in
  let bs := [ mkBlockRef 1 0 7; mkBlockRef 2 1 7 ] in
  tc_round <$> (fst <$> threshold_clock_add_blocks c (threshold_clock_new 0) bs) = Ok 3
  /\ tc_round <$> (fst <$> threshold_clock_add_blocks c (threshold_clock_new 1) bs) = Ok 2
  /\ clock_spec c 0 bs = 2 /\ clock_spec c 1 bs = 2.
Proof. vm_compute. done. Qed.
