(* ===== verification/Commit.v ===== *)
(** * Commits

    Models [crates/consensus/src/commit.rs] and the record of
    [crates/consensus/src/leader_scoring.rs] that commits carry: commits and
    their references, the sub-DAG handed to execution, the outcome of deciding
    a leader slot, and ranges of commit indices.  [bcs] and the hash function
    are parameters. *)

From S2P Require Import Prelude Committee Context Block.

Definition GENESIS_COMMIT_INDEX : N := 0.
Definition MINIMUM_WAVE_LENGTH : N := 3.
Definition DEFAULT_WAVE_LENGTH : N := MINIMUM_WAVE_LENGTH.

Definition COMMIT_DIGEST_MIN : N := 0.
Definition COMMIT_DIGEST_MAX : N := DIGEST_MAX.

Record CommitV1 := mkCommitV1 {
  c1_index : N;
  c1_previous_digest : N;
  c1_timestamp_ms : N;
  c1_leader : BlockRef;
  c1_blocks : list BlockRef;
}.

(** The variant [Commit::V1]. *)
Inductive Commit := CommitV1_ (c : CommitV1).

Definition commit_new (index previous_digest timestamp_ms : N) (leader : BlockRef)
    (blocks : list BlockRef) : Commit :=
  CommitV1_ {| c1_index := index; c1_previous_digest := previous_digest;
               c1_timestamp_ms := timestamp_ms; c1_leader := leader; c1_blocks := blocks |}.

Class CommitAPI (C : Type) := {
  commit_round : C -> N;
  commit_index : C -> N;
  commit_previous_digest : C -> N;
  commit_timestamp_ms : C -> N;
  commit_leader : C -> BlockRef;
  commit_blocks : C -> list BlockRef;
}.

#[global] Instance CommitV1_API : CommitAPI CommitV1 := {
  commit_round c := br_round (c1_leader c);
  commit_index := c1_index;
  commit_previous_digest := c1_previous_digest;
  commit_timestamp_ms := c1_timestamp_ms;
  commit_leader := c1_leader;
  commit_blocks := c1_blocks;
}.

Definition commit_v1 (c : Commit) : CommitV1 := let 'CommitV1_ c := c in c.

#[global] Instance Commit_API : CommitAPI Commit := {
  commit_round c := commit_round (commit_v1 c);
  commit_index c := commit_index (commit_v1 c);
  commit_previous_digest c := commit_previous_digest (commit_v1 c);
  commit_timestamp_ms c := commit_timestamp_ms (commit_v1 c);
  commit_leader c := commit_leader (commit_v1 c);
  commit_blocks c := commit_blocks (commit_v1 c);
}.

Record TrustedCommit := mkTrustedCommit {
  tcm_inner : Commit;
  tcm_digest : N;
  tcm_serialized : list byte;
}.

(** [TrustedCommit] derefs to its [Commit]. *)
#[global] Instance TrustedCommit_API : CommitAPI TrustedCommit := {
  commit_round c := commit_round (tcm_inner c);
  commit_index c := commit_index (tcm_inner c);
  commit_previous_digest c := commit_previous_digest (tcm_inner c);
  commit_timestamp_ms c := commit_timestamp_ms (tcm_inner c);
  commit_leader c := commit_leader (tcm_inner c);
  commit_blocks c := commit_blocks (tcm_inner c);
}.

Definition commit_reference (c : TrustedCommit) : CommitRef :=
  mkCommitRef (commit_index c) (tcm_digest c).

Section hashing.
Context (default_hash : list byte -> N).

Definition trusted_commit_new_trusted (commit : Commit) (serialized : list byte) : TrustedCommit :=
  {| tcm_inner := commit;
     tcm_digest := default_hash serialized;
     tcm_serialized := serialized |}.
End hashing.

Record CertifiedCommit := mkCertifiedCommit {
  cc_commit : TrustedCommit;
  cc_blocks : list VerifiedBlock;
}.

Record CertifiedCommits := mkCertifiedCommits {
  ccs_commits : list CertifiedCommit;
  ccs_votes : list VerifiedBlock;
}.

Record CommittedSubDag := mkCommittedSubDag {
  sd_leader : BlockRef;
  sd_blocks : list VerifiedBlock;
  sd_timestamp_ms : N;
  sd_commit_ref : CommitRef;
  decided_with_local_blocks : bool;
  recovered_rejected_transactions : bool;
  rejected_transactions_by_block : gmap BlockRef (list N);
}.

Definition committed_sub_dag_new (leader : BlockRef) (blocks : list VerifiedBlock)
    (timestamp_ms : N) (commit_ref : CommitRef) : CommittedSubDag := {|
  sd_leader := leader;
  sd_blocks := blocks;
  sd_timestamp_ms := timestamp_ms;
  sd_commit_ref := commit_ref;
  decided_with_local_blocks := true;
  recovered_rejected_transactions := false;
  rejected_transactions_by_block := ∅;
|}.

(** The order of [sort_sub_dag_blocks]: by round, then by author. *)
Definition sub_dag_leb (a b : VerifiedBlock) : bool :=
  (round a <? round b) || ((round a =? round b) && (author a <=? author b)).

Definition sort_sub_dag_blocks (blocks : list VerifiedBlock) : list VerifiedBlock :=
  stable_sort sub_dag_leb blocks.

Inductive Decision := Direct | Indirect | Certified.

Inductive LeaderStatus :=
  | StatusCommit (b : VerifiedBlock)
  | StatusSkip (s : Slot)
  | StatusUndecided (s : Slot).

Definition leader_status_round (st : LeaderStatus) : N :=
  match st with
  | StatusCommit b => round b
  | StatusSkip leader => s_round leader
  | StatusUndecided leader => s_round leader
  end.

Definition is_decided (st : LeaderStatus) : bool :=
  match st with
  | StatusCommit _ => true
  | StatusSkip _ => true
  | StatusUndecided _ => false
  end.

Inductive DecidedLeader :=
  | DecidedCommit (b : VerifiedBlock) (direct : bool)
  | DecidedSkip (s : Slot).

Definition into_decided_leader (st : LeaderStatus) (direct : bool) : option DecidedLeader :=
  match st with
  | StatusCommit block => Some (DecidedCommit block direct)
  | StatusSkip slot => Some (DecidedSkip slot)
  | StatusUndecided _ => None
  end.

Definition decided_slot (d : DecidedLeader) : Slot :=
  match d with
  | DecidedCommit block _ => slot_of_ref (reference block)
  | DecidedSkip slot => slot
  end.

Definition into_committed_block (d : DecidedLeader) : option VerifiedBlock :=
  match d with
  | DecidedCommit block _ => Some block
  | DecidedSkip _ => None
  end.

(** A range of commit indices, kept as the half-open range [cr_start..cr_end]. *)
Record CommitRange := mkCommitRange { cr_start : N; cr_end_excl : N }.

#[global] Instance CommitRange_eq_dec : EqDecision CommitRange.
Proof. solve_decision. Defined.

Definition commit_range_new (first last : N) : CommitRange :=
  mkCommitRange first (u32_saturating_add last 1).

Definition commit_range_start (r : CommitRange) : N := cr_start r.
Definition commit_range_end (r : CommitRange) : N := saturating_sub (cr_end_excl r) 1.

Definition commit_range_extend_to (r : CommitRange) (other : N) : outcome CommitRange :=
  let new_end := u32_saturating_add other 1 in
  _ ← assert_that (cr_end_excl r <=? new_end);
  Ok (mkCommitRange (cr_start r) new_end).

Definition commit_range_size (r : CommitRange) : outcome N :=
  if cr_start r <=? cr_end_excl r then Ok (cr_end_excl r - cr_start r) else Panic.

Definition is_equal_size (r other : CommitRange) : outcome bool :=
  a ← commit_range_size r;
  b ← commit_range_size other;
  Ok (a =? b).

Definition is_next_range (r other : CommitRange) : bool := cr_end_excl r =? cr_start other.

Definition commit_range_cmp (r other : CommitRange) : comparison :=
  match commit_range_start r ?= commit_range_start other with
  | Eq => commit_range_end r ?= commit_range_end other
  | c => c
  end.

Record ReputationScores := mkReputationScores {
  scores_per_authority : list N;
  rs_commit_range : CommitRange;
}.

#[global] Instance ReputationScores_eq_dec : EqDecision ReputationScores.
Proof. solve_decision. Defined.

Record CommitInfo := mkCommitInfo {
  ci_committed_rounds : list N;
  ci_reputation_scores : ReputationScores;
}.

(* ------------------------------------------------------------------ *)
(** ** Sorting a sub-DAG *)

Lemma sub_dag_leb_total a b : sub_dag_leb a b = true \/ sub_dag_leb b a = true.
Proof.
  unfold sub_dag_leb. rewrite !orb_true_iff, !andb_true_iff, !N.ltb_lt, !N.eqb_eq, !N.leb_le. lia.
Qed.

Lemma sub_dag_leb_trans a b c :
  sub_dag_leb a b = true -> sub_dag_leb b c = true -> sub_dag_leb a c = true.
Proof.
  unfold sub_dag_leb. rewrite !orb_true_iff, !andb_true_iff, !N.ltb_lt, !N.eqb_eq, !N.leb_le. lia.
Qed.

Lemma sub_dag_leb_antisym a b :
  sub_dag_leb a b = true -> sub_dag_leb b a = true -> round a = round b /\ author a = author b.
Proof.
  unfold sub_dag_leb. rewrite !orb_true_iff, !andb_true_iff, !N.ltb_lt, !N.eqb_eq, !N.leb_le. lia.
Qed.

#[export] Hint Resolve sub_dag_leb_total sub_dag_leb_trans : btree.

(* ------------------------------------------------------------------ *)
(** ** Commit ranges *)

(** The indices of a range. *)
Definition in_commit_range (i : N) (r : CommitRange) : Prop :=
  commit_range_start r <= i <= commit_range_end r.

(** A commit range built from [a..=b] holds exactly the indices from [a]
    to [b] and has their number as its size; extending it to [c >= b] adds
    exactly the indices up to [c], and the range that starts at [c + 1] is its
    next range. *)
Theorem commit_range_correct (a b c : N) :
  a <= b -> b <= c -> c < u32_MAX ->
  (forall i, in_commit_range i (commit_range_new a b) <-> a <= i <= b)
  /\ commit_range_size (commit_range_new a b) = Ok (b - a + 1)
  /\ (exists r, commit_range_extend_to (commit_range_new a b) c = Ok r
       /\ (forall i, in_commit_range i r <-> a <= i <= c)
       /\ forall d, is_next_range r (commit_range_new (c + 1) d) = true).
Proof.
  intros Hab Hbc Hc. unfold in_commit_range, commit_range_start, commit_range_end,
    commit_range_size, commit_range_extend_to, is_next_range, commit_range_new,
    u32_saturating_add, saturating_sub; simpl.
  rewrite !N.min_l by lia. split_and!; [intros i; lia| |].
  - destruct (N.leb_spec a (b + 1)); [f_equal; lia|lia].
  - rewrite (proj2 (N.leb_le (b + 1) (c + 1))) by lia. simpl. eexists. split; [done|]. simpl.
    split; [intros i; lia|]. intros d. apply N.eqb_refl.
Qed.

Lemma commit_range_correct_witness :
  commit_range_size (commit_range_new 3 7) = Ok 5.
Proof. apply (commit_range_correct 3 7 9); [lia|lia|by vm_compute]. Defined.
