(* ===== verification/Error.v ===== *)
(** * Errors

    Models error.rs: the errors of the crate and its result type.  The errors
    that other crates report ([bcs::Error], [FastCryptoError] and
    [TypedStoreError]) are carried only to be printed and are left out. *)

From S2P Require Import Prelude Committee Context Block Commit.

(** Peers of the network; an observer is known by its public key. *)
Inductive PeerId :=
  | Validator (authority : N)
  | Observer (node_id : list byte).

Inductive ConsensusError :=
  | MalformedBlock
  | MalformedCommit
  | SerializationFailure
  | TransactionTooLarge (size limit : N)
  | TooManyTransactions (count limit : N)
  | TooManyTransactionBytes (size limit : N)
  | UnexpectedAuthority (authority peer : N)
  | WrongEpoch (expected actual : N)
  | UnexpectedGenesisBlock
  | UnexpectedGenesisBlockRequested
  | UnexpectedNumberOfBlocksFetched (peer : PeerId) (requested received : N)
  | UnexpectedFetchedBlock (index : N) (block_ref : BlockRef)
  | UnexpectedLastOwnBlock (index : N) (block_ref : BlockRef)
  | TooManyFetchedBlocksReturned (authority : N)
  | TooManyAuthoritiesProvided (authority : N)
  | InvalidSizeOfHighestAcceptedRounds (size committee_size : N)
  | InvalidFetchBlocksRequest (message : string)
  | InvalidAuthorityIndex (index max : N)
  | MalformedSignature
  | SignatureVerificationFailure
  | SynchronizerSaturated (peer : string)
  | PeerUnavailable (peer : string)
  | PeerNotFound (peer : string)
  | BlockRejected (block_ref : BlockRef) (reason : string)
  | InvalidAncestorPosition (block_authority ancestor_authority position : N)
  | InvalidAncestorRound (ancestor block : N)
  | InvalidGenesisAncestor (r : BlockRef)
  | TooManyAncestors (n max : N)
  | DuplicatedAncestorsAuthority (a : N)
  | InsufficientParentStakes (parent_stakes quorum : N)
  | InvalidTransaction (message : string)
  | NoCommitReceived (peer : PeerId)
  | UnexpectedStartCommit (peer : PeerId) (start : N) (commit : Commit)
  | UnexpectedCommitSequence (peer : PeerId) (prev_commit curr_commit : Commit)
  | NotEnoughCommitVotes (stake : N) (peer : PeerId) (commit : Commit)
  | UnexpectedBlockForCommit (peer : PeerId) (requested received : BlockRef)
  | UnexpectedCertifiedCommitIndex (expected_commit_index commit_index : N)
  | RocksDBFailure
  | UnknownNetworkPeer (peer : string)
  | PeerDisconnected (peer : string)
  | NetworkConfig (message : string)
  | NetworkClientConnection (message : string)
  | NetworkRequest (message : string)
  | NetworkRequestTimeout (message : string)
  | Shutdown.

(** [ConsensusResult<T>] *)
Inductive ConsensusResult (A : Type) :=
  | Success (a : A)
  | Err (e : ConsensusError).
Arguments Success {A} a.
Arguments Err {A} e.

(** The [?] operator. *)
Definition try_ {A B} (m : outcome (ConsensusResult A)) (f : A -> outcome (ConsensusResult B))
    : outcome (ConsensusResult B) :=
  r ← m; match r with Success a => f a | Err e => Ok (Err e) end.

Definition ok_or {A} (o : option A) (e : ConsensusError) : outcome (ConsensusResult A) :=
  Ok match o with Some a => Success a | None => Err e end.
