(* ===== verification/CommitVoteMonitor.v ===== *)
(** * Monitoring the commit votes

    Models commit_vote_monitor.rs: the highest commit index each authority
    voted for, and the highest index that a quorum voted for.  The commit
    syncer and the authority service decide with it whether the node lags. *)

From S2P Require Import Prelude Committee StakeScan Context Block StakeAggregator Commit.

Definition COMMIT_LAG_MULTIPLIER : N := 5.

Definition is_commit_lagging (context : Context) (local_commit_index quorum_commit_index : N) : bool :=
  u32_add local_commit_index (u32_mul (commit_sync_batch_size (parameters context)) COMMIT_LAG_MULTIPLIER)
  <? quorum_commit_index.

Record CommitVoteMonitor := mkCommitVoteMonitor {
  highest_voted_commits : list N;
}.

Definition commit_vote_monitor_new (context : Context) : CommitVoteMonitor :=
  mkCommitVoteMonitor (replicate (N.to_nat (committee_size (committee context))) 0).

Definition observe_block (self : CommitVoteMonitor) (block : VerifiedBlock) : outcome CommitVoteMonitor :=
  commits ← foldM (fun commits vote =>
                     highest ← vec_index commits (author block);
                     if highest <? cr_index vote then vec_store commits (author block) (cr_index vote)
                     else Ok commits)
              (commit_votes block) (highest_voted_commits self);
  Ok (mkCommitVoteMonitor commits).

Definition quorum_commit_index (context : Context) (self : CommitVoteMonitor) : N :=
  let c := committee context in
  let commits := zip (highest_voted_commits self) (stakes (c_authorities c)) in
  let commits := stable_sort (fun a b => pair_leb b a) commits in
  default GENESIS_COMMIT_INDEX (reach_stake (c_quorum_threshold c) 0 commits).

(* ------------------------------------------------------------------ *)
(** ** Specification *)

(** The highest index among the votes of the blocks of [a]. *)
Definition raise_by (m : N) (votes : list CommitRef) : N :=
  fold_left (fun m v => N.max m (cr_index v)) votes m.

Definition highest_vote (blocks : list VerifiedBlock) (a : N) : N :=
  fold_left (fun m b => if author b =? a then raise_by m (commit_votes b) else m) blocks 0.

Definition votes_for (index : N) (b : VerifiedBlock) : bool :=
  existsb (fun v => index <=? cr_index v) (commit_votes b).

(** The authorities that voted for commit [index] or a later one. *)
Definition voters (blocks : list VerifiedBlock) (index : N) : gset N :=
  list_to_set (author <$> List.filter (votes_for index) blocks).

Lemma raise_by_le votes : forall m index,
  (index <=? raise_by m votes) = (index <=? m) || existsb (fun v => index <=? cr_index v) votes.
Proof.
  unfold raise_by. induction votes as [|v votes IH]; intros m index; simpl; [by rewrite orb_false_r|].
  rewrite IH, orb_assoc. f_equal. apply eq_true_iff_eq. rewrite orb_true_iff, !N.leb_le. lia.
Qed.

Lemma voters_snoc blocks b index :
  voters (blocks ++ [b]) index = voters blocks index ∪ (if votes_for index b then {[author b]} else ∅).
Proof.
  unfold voters. rewrite List.filter_app, fmap_app, list_to_set_app_L. f_equal. simpl.
  destruct (votes_for index b); simpl; [by rewrite (right_id_L ∅ (∪))|done].
Qed.

Lemma highest_vote_snoc blocks b a :
  highest_vote (blocks ++ [b]) a
  = if author b =? a then raise_by (highest_vote blocks a) (commit_votes b) else highest_vote blocks a.
Proof. unfold highest_vote. by rewrite fold_left_app. Qed.

Lemma highest_vote_voters blocks a index :
  0 < index -> (index <=? highest_vote blocks a) = bool_decide (a ∈ voters blocks index).
Proof.
  intros Hpos. induction blocks as [|b blocks IH] using rev_ind.
  - symmetry. rewrite bool_decide_eq_false_2 by apply not_elem_of_empty.
    symmetry. apply N.leb_gt. unfold highest_vote. simpl. lia.
  - rewrite highest_vote_snoc, voters_snoc. destruct (N.eqb_spec (author b) a) as [E|E].
    + rewrite raise_by_le, IH. fold (votes_for index b). destruct (votes_for index b); simpl.
      * rewrite orb_true_r. symmetry. apply bool_decide_eq_true, elem_of_union_r, elem_of_singleton. done.
      * by rewrite orb_false_r, (right_id_L ∅ (∪)).
    + rewrite IH. apply bool_decide_ext. destruct (votes_for index b); [|by rewrite (right_id_L ∅ (∪))].
      rewrite elem_of_union, elem_of_singleton. naive_solver.
Qed.

(** The monitor after the blocks [seen]. *)
Definition monitors (c : Committee) (seen : list VerifiedBlock) (m : CommitVoteMonitor) : Prop :=
  length (highest_voted_commits m) = N.to_nat (committee_size c)
  /\ forall i, is_valid_index c i = true -> highest_voted_commits m !! N.to_nat i = Some (highest_vote seen i).

Lemma observe_votes_Ok votes : forall (m : list N) a h,
  m !! N.to_nat a = Some h ->
  foldM (fun m vote => highest ← vec_index m a;
           if highest <? cr_index vote then vec_store m a (cr_index vote) else Ok m) votes m
  = Ok (<[N.to_nat a := raise_by h votes]> m).
Proof.
  induction votes as [|v votes IH]; intros m a h Hm; cbn [foldM].
  - unfold raise_by. simpl. by rewrite list_insert_id.
  - rewrite (proj2 (vec_index_Ok m a h) Hm). cbn [mbind outcome_bind].
    destruct (N.ltb_spec h (cr_index v)) as [Hlt|Hge].
    + rewrite (proj2 (vec_store_Ok m a (cr_index v) _) (conj (lookup_lt_Some _ _ _ Hm) eq_refl)).
      cbn [mbind outcome_bind].
      rewrite (IH _ a (cr_index v)) by (apply list_lookup_insert_eq; by eapply lookup_lt_Some).
      rewrite list_insert_insert_eq. unfold raise_by. simpl. by rewrite N.max_r by lia.
    + cbn [mbind outcome_bind]. rewrite (IH _ a h Hm). unfold raise_by. simpl. by rewrite N.max_l by lia.
Qed.

Lemma observe_block_Ok c seen m b :
  monitors c seen m -> is_valid_index c (author b) = true ->
  exists m', observe_block m b = Ok m' /\ monitors c (seen ++ [b]) m'.
Proof.
  intros [Hlen Hm] Ha. unfold observe_block. rewrite (observe_votes_Ok _ _ _ _ (Hm _ Ha)).
  eexists. split; [done|]. split; [simpl; by rewrite length_insert|]. intros i Hi. simpl. rewrite highest_vote_snoc.
  destruct (N.eqb_spec (author b) i) as [<-|Hne].
  - apply list_lookup_insert_eq. rewrite Hlen. apply N.ltb_lt in Ha. lia.
  - rewrite list_lookup_insert_ne by (intros E; apply Hne; lia). by apply Hm.
Qed.

Lemma observe_all_Ok c blocks : forall seen m,
  monitors c seen m -> (forall b, b ∈ blocks -> is_valid_index c (author b) = true) ->
  exists m', foldM observe_block blocks m = Ok m' /\ monitors c (seen ++ blocks) m'.
Proof.
  induction blocks as [|b blocks IH]; intros seen m Hm Hv.
  - exists m. by rewrite app_nil_r.
  - destruct (observe_block_Ok c seen m b Hm) as (m1 & E1 & Hm1); [apply Hv; left|].
    destruct (IH (seen ++ [b]) m1 Hm1) as (m' & E' & Hm'); [intros x Hx; apply Hv; by right|].
    exists m'. cbn [foldM]. rewrite E1. cbn [mbind outcome_bind]. split; [done|].
    by rewrite <- (assoc_L (++)) in Hm'.
Qed.

Lemma monitors_new context : monitors (committee context) [] (commit_vote_monitor_new context).
Proof.
  unfold commit_vote_monitor_new. split; simpl; [by rewrite length_replicate|].
  intros i Hi. apply N.ltb_lt in Hi. by rewrite lookup_replicate_2 by lia.
Qed.

Lemma monitored_stake c seen m index :
  monitors c seen m -> 0 < index ->
  stake_holding c (highest_voted_commits m) (fun _ x => index <=? x) = stake_of c (voters seen index).
Proof.
  intros [Hlen Hm] Hpos. apply weigh_ext. intros j _ Hj.
  rewrite Hm by (apply N.ltb_lt; unfold committee_size, stakes in *; rewrite length_fmap in Hj; lia).
  by apply highest_vote_voters.
Qed.

Lemma quorum_commit_index_Ok context seen m :
  let c := committee context in
  committee_wf c -> monitors c seen m ->
  let index := quorum_commit_index context m in
  (0 < index -> c_quorum_threshold c <= stake_of c (voters seen index))
  /\ forall later, index < later -> stake_of c (voters seen later) < c_quorum_threshold c.
Proof.
  intros c Hc Hm index.
  assert (0 < c_quorum_threshold c) as Hq by (by apply quorum_positive).
  destruct (reach_stake_holding c (fun x v => v <=? x) (c_quorum_threshold c) (highest_voted_commits m)
              (stable_sort (fun a b => pair_leb b a) (zip (highest_voted_commits m) (stakes (c_authorities c)))) Hc)
    as (v & E & _ & Hge & Hlt).
  - destruct Hm as [-> _]. unfold committee_size. lia.
  - intros x. apply N.leb_refl.
  - intros x y z. rewrite !N.leb_le. lia.
  - pose proof (wf_quorum_le _ Hc). lia.
  - apply stable_sort_perm.
  - apply sorted_down.
  - assert (index = v) as -> by (unfold index, quorum_commit_index; fold c; by rewrite E).
    split; intros.
    + by rewrite <- (monitored_stake c seen m v).
    + rewrite <- (monitored_stake c seen m later) by (done || lia). apply Hlt. apply N.leb_gt. done.
Qed.

(** C31: The quorum commit index is exact and safe.  After observing any
    blocks of committee members, the index returned is the highest one that a
    quorum of stake voted for, a vote for a commit counting for the earlier
    ones: the voters for it have a quorum, and the voters for any later index
    do not.  And when the faulty authorities are below the validity threshold,
    an honest authority voted for it or a later commit. *)
Theorem quorum_commit_index_correct (context : Context) (blocks : list VerifiedBlock) :
  let c := committee context in
  committee_wf c -> (forall b, b ∈ blocks -> is_valid_index c (author b) = true) ->
  exists monitor, foldM observe_block blocks (commit_vote_monitor_new context) = Ok monitor
    /\ let index := quorum_commit_index context monitor in
       (0 < index -> c_quorum_threshold c <= stake_of c (voters blocks index))
       /\ (forall later, index < later -> stake_of c (voters blocks later) < c_quorum_threshold c)
       /\ (forall byz, 0 < index -> reached_validity c (stake_of c byz) = false ->
             exists b v, b ∈ blocks /\ author b ∉ byz /\ v ∈ commit_votes b /\ index <= cr_index v).
Proof.
  intros c Hc Hv. destruct (observe_all_Ok c blocks [] _ (monitors_new context) Hv) as (m & E & Hm).
  exists m. split; [done|]. intros index. destruct (quorum_commit_index_Ok context blocks m Hc Hm) as [Hq Hlt].
  fold index in Hq, Hlt. split_and!; [done|done|]. intros byz Hpos Hb. specialize (Hq Hpos).
  destruct (quorum_intersection c (voters blocks index) (voters blocks index) byz Hc) as (a & Ha & _ & Hn & _);
    [by apply N.leb_le..|done|].
  apply elem_of_list_to_set, list_elem_of_fmap in Ha as (b & -> & [Hvote Hb']%list_filter_elem_of).
  apply existsb_exists in Hvote as (v & Hv'%list_elem_of_In & Hle%N.leb_le). by exists b, v.
Qed.

(** The votes of the crate's test: indices 5, 6, 7 and 8 from the four
    authorities; a quorum is at 6 or later. *)
Definition vote_block (author index : N) : VerifiedBlock :=
  {| vb_block := {| inner := V2 {| v2_epoch := 0; v2_round := 10; v2_author := author;
                                   v2_timestamp_ms := 0; v2_ancestors := [];
                                   v2_transactions := []; v2_transaction_votes := [];
                                   v2_commit_votes := [mkCommitRef index 0]; v2_misbehavior_reports := [] |};
                    signature := [] |};
     vb_digest := author;
     vb_serialized := [] |}.

Lemma quorum_commit_index_correct_witness :
  let c := test_committee 4 in
  let context := mkContext 0 0 c (mkParameters 500 100 false 50000000 5 32 1000 8 32) for_testing in
  let blocks := [vote_block 0 5; vote_block 1 6; vote_block 2 7; vote_block 3 8] in
  exists monitor, foldM observe_block blocks (commit_vote_monitor_new context) = Ok monitor
    /\ quorum_commit_index context monitor = 6
    /\ let index := quorum_commit_index context monitor in
       (0 < index -> c_quorum_threshold c <= stake_of c (voters blocks index))
       /\ (forall later, index < later -> stake_of c (voters blocks later) < c_quorum_threshold c)
       /\ (forall byz, 0 < index -> reached_validity c (stake_of c byz) = false ->
             exists b v, b ∈ blocks /\ author b ∉ byz /\ v ∈ commit_votes b /\ index <= cr_index v).
Proof.
  intros c context blocks.
  destruct (quorum_commit_index_correct context blocks test_committee_4_wf) as (m & E & Hm).
  - intros b Hb. repeat (apply elem_of_cons in Hb as [->|Hb]; [reflexivity|]). by apply elem_of_nil in Hb.
  - exists m. split_and!; [done| |apply Hm..]. vm_compute in E. injection E as <-. vm_compute. reflexivity.
Defined.
