(* ===== verification/RoundTracker.v ===== *)
(** * The round tracker

    Models round_tracker.rs: the rounds of each authority that the others
    report to have received and accepted, and the quorum rounds computed from
    them.  The gaps and delays that are only reported as metrics are left
    out. *)

From S2P Require Import Prelude Committee StakeScan Context Block StakeAggregator Commit.

Notation QuorumRound := (N * N)%type.

Record RoundTracker := mkRoundTracker {
  rt_context : Context;
  block_accepted_rounds : list (list N);
  probed_accepted_rounds : list (list N);
  probed_received_rounds : list (list N);
  local_highest_received_rounds : list N;
}.

Definition round_tracker_new (context : Context) (initial_received_rounds : list N) : outcome RoundTracker :=
  let size := N.to_nat (committee_size (committee context)) in
  received ← if is_empty initial_received_rounds then Ok (replicate size 0)
             else _ ← assert_that (length initial_received_rounds =? size)%nat; Ok initial_received_rounds;
  Ok {| rt_context := context;
        block_accepted_rounds := replicate size (replicate size 0);
        probed_accepted_rounds := replicate size (replicate size 0);
        probed_received_rounds := replicate size (replicate size 0);
        local_highest_received_rounds := received |}.

(** [v[i] = v[i].max(round)] *)
Definition raise_round (v : list N) (i round : N) : outcome (list N) :=
  current ← vec_index v i; vec_store v i (N.max current round).

(** [m[i][j] = m[i][j].max(round)] *)
Definition raise_entry (m : list (list N)) (i j round : N) : outcome (list (list N)) :=
  row ← vec_index m i;
  row ← raise_round row j round;
  vec_store m i row.

Definition update_from_verified_block (self : RoundTracker) (extended_block : ExtendedBlock)
    : outcome RoundTracker :=
  let block := eb_block extended_block in
  received ← raise_round (local_highest_received_rounds self) (author block) (round block);
  accepted ← raise_entry (block_accepted_rounds self) (author block) (author block) (round block);
  accepted ← foldM (fun m ancestor => raise_entry m (author block) (br_author ancestor) (br_round ancestor))
               (ancestors block) accepted;
  accepted ← foldM (fun m ancestor => raise_entry m (author block) (br_author ancestor) (br_round ancestor))
               (excluded_ancestors extended_block) accepted;
  Ok {| rt_context := rt_context self;
        block_accepted_rounds := accepted;
        probed_accepted_rounds := probed_accepted_rounds self;
        probed_received_rounds := probed_received_rounds self;
        local_highest_received_rounds := received |}.

Definition update_from_probe (self : RoundTracker) (accepted_rounds received_rounds : list (list N))
    : RoundTracker :=
  {| rt_context := rt_context self;
     block_accepted_rounds := block_accepted_rounds self;
     probed_accepted_rounds := accepted_rounds;
     probed_received_rounds := received_rounds;
     local_highest_received_rounds := local_highest_received_rounds self |}.

Definition compute_quorum_round (c : Committee) (target_index : N) (highest_rounds : list (list N))
    : outcome QuorumRound :=
  rounds ← mapM (fun '(rounds, stake) => round ← vec_index rounds target_index; Ok (round, stake))
             (zip highest_rounds (stakes (c_authorities c)));
  let rounds_with_stake := stable_sort pair_leb rounds in
  let low := default 0 (reach_stake (c_quorum_threshold c) 0 (reverse rounds_with_stake)) in
  let high := default 0 (reach_stake (c_quorum_threshold c) 0 rounds_with_stake) in
  Ok (low, high).

Definition compute_accepted_quorum_rounds (self : RoundTracker) : outcome (list QuorumRound) :=
  let c := committee (rt_context self) in
  let highest_accepted_rounds :=
    zip_with (zip_with N.max) (probed_accepted_rounds self) (block_accepted_rounds self) in
  mapM (fun '(peer, _) => compute_quorum_round c peer highest_accepted_rounds) (committee_authorities c).

Definition compute_received_quorum_rounds (self : RoundTracker) : outcome (list QuorumRound) :=
  let c := committee (rt_context self) in
  mapM (fun '(peer, _) => compute_quorum_round c peer (probed_received_rounds self)) (committee_authorities c).

Definition calculate_propagation_delay (self : RoundTracker) (last_proposed_round : N) : outcome N :=
  let own_index := own_index (rt_context self) in
  received_quorum_rounds ← compute_received_quorum_rounds self;
  accepted_quorum_rounds ← compute_accepted_quorum_rounds self;
  received ← vec_index received_quorum_rounds own_index;
  accepted ← vec_index accepted_quorum_rounds own_index;
  Ok (N.min (saturating_sub last_proposed_round received.1) (saturating_sub last_proposed_round accepted.1)).

(* ------------------------------------------------------------------ *)
(** ** Quorum rounds *)

Section quorum_round.
Context (c : Committee) (Hc : committee_wf c).

(** More stake than the faulty one has an honest holder. *)
Lemma honest_holder vs Q byz :
  stake_of c byz < stake_holding c vs Q ->
  exists i v, vs !! N.to_nat i = Some v /\ Q i v = true /\ i ∉ byz.
Proof.
  intros Hlt. unfold stake_of, stake_holding in Hlt.
  set (P := fun i => match vs !! N.to_nat i with Some v => Q i v | None => false end) in *.
  destruct (weigh_intersect P (fun _ => true) (fun i => bool_decide (i ∈ byz)) 0 (stakes (c_authorities c)))
    as (i & _ & HP & _ & HB).
  { rewrite weigh_all. lia. }
  unfold P in HP. destruct (vs !! N.to_nat i) as [v|] eqn:E; [|done]. exists i, v.
  split_and!; [done..|]. by apply bool_decide_eq_false in HB.
Qed.

Lemma stake_holding_split vs Q :
  length vs = length (c_authorities c) ->
  stake_holding c vs Q + stake_holding c vs (fun i v => negb (Q i v)) = c_total_stake c.
Proof.
  intros Hlen. unfold stake_holding. rewrite weigh_inclusion_exclusion, (wf_total _ Hc).
  rewrite (weigh_ext (fun j => _ && _) (fun _ => false)), weigh_none, N.add_0_r.
  - rewrite (weigh_ext _ (fun _ => true)), weigh_all; [done|]. intros j _ Hj.
    unfold stakes in Hj. rewrite length_fmap in Hj.
    destruct (lookup_lt_is_Some_2 vs (N.to_nat j)) as [v ->]; [lia|]. apply orb_negb_r.
  - intros j _ _. destruct (vs !! N.to_nat j); [apply andb_negb_r|done].
Qed.

(** The two bounds of a quorum round. *)
Definition quorum_round_of (vs : list N) (low high : N) : Prop :=
  c_quorum_threshold c <= stake_holding c vs (fun _ v => low <=? v)
  /\ (forall r, low < r -> stake_holding c vs (fun _ v => r <=? v) < c_quorum_threshold c)
  /\ c_quorum_threshold c <= stake_holding c vs (fun _ v => v <=? high)
  /\ (forall r, r < high -> stake_holding c vs (fun _ v => v <=? r) < c_quorum_threshold c).

Lemma quorum_round_bounds vs low high :
  length vs = length (c_authorities c) -> quorum_round_of vs low high -> low <= high.
Proof.
  intros Hlen (Hlo & _ & Hhi & _). apply N.le_ngt. intros Hlt.
  pose proof (stake_holding_split vs (fun _ v => low <=? v) Hlen) as Hs.
  assert (stake_holding c vs (fun _ v => v <=? high) <= stake_holding c vs (fun _ v => negb (low <=? v))) as Hle.
  { apply weigh_mono. intros j. destruct (vs !! N.to_nat j); [|done].
    rewrite negb_true_iff, N.leb_gt, N.leb_le. lia. }
  pose proof (wf_intersect _ Hc). pose proof (wf_validity_pos _ Hc). lia.
Qed.

Lemma quorum_round_bft vs low high byz :
  length vs = length (c_authorities c) -> quorum_round_of vs low high ->
  reached_validity c (stake_of c byz) = false ->
  (exists i v, vs !! N.to_nat i = Some v /\ v <= low /\ i ∉ byz)
  /\ (exists i v, vs !! N.to_nat i = Some v /\ high <= v /\ i ∉ byz).
Proof.
  intros Hlen (Hlo & Hlo' & Hhi & Hhi') Hb%N.leb_gt. pose proof (wf_available _ Hc) as Hav. split.
  - destruct (honest_holder vs (fun _ v => negb (low + 1 <=? v)) byz) as (i & v & Hv & Hle & Hi).
    + pose proof (stake_holding_split vs (fun _ v => low + 1 <=? v) Hlen). specialize (Hlo' (low + 1)). lia.
    + apply negb_true_iff, N.leb_gt in Hle. exists i, v. split_and!; [done|lia|done].
  - destruct (N.eq_dec high 0) as [->|Hne].
    + destruct (honest_holder vs (fun _ v => v <=? 0) byz) as (i & v & Hv & _ & Hi).
      * pose proof (wf_intersect _ Hc). pose proof (wf_quorum_le _ Hc). lia.
      * exists i, v. split_and!; [done|lia|done].
    + destruct (honest_holder vs (fun _ v => negb (v <=? high - 1)) byz) as (i & v & Hv & Hle & Hi).
      * pose proof (stake_holding_split vs (fun _ v => v <=? high - 1) Hlen). specialize (Hhi' (high - 1)). lia.
      * apply negb_true_iff, N.leb_gt in Hle. exists i, v. split_and!; [done|lia|done].
Qed.

(** The rounds of [target] in each row. *)
Definition column (target : N) (m : list (list N)) : list N :=
  (fun row => default 0 (row !! N.to_nat target)) <$> m.

(** A row and a column per authority. *)
Definition square (m : list (list N)) : Prop :=
  length m = length (c_authorities c) /\ Forall (fun row => length row = length (c_authorities c)) m.

Lemma compute_quorum_round_Ok target m :
  square m -> is_valid_index c target = true ->
  exists low high, compute_quorum_round c target m = Ok (low, high)
    /\ quorum_round_of (column target m) low high.
Proof.
  intros [Hlen Hrow] Ht. unfold compute_quorum_round.
  assert (length (column target m) = length (c_authorities c)) as Hcol by (unfold column; by rewrite length_fmap).
  rewrite (mapM_Ok _ (fun '(rounds, stake) => (default 0 (rounds !! N.to_nat target), stake))).
  2:{ intros [rounds stake] Hin%elem_of_zip_l. rewrite Forall_forall in Hrow. specialize (Hrow _ Hin).
      apply N.ltb_lt in Ht. unfold committee_size in Ht.
      destruct (lookup_lt_is_Some_2 rounds (N.to_nat target)) as [v Hv]; [lia|].
      unfold vec_index. by rewrite Hv. }
  cbn [mbind outcome_bind].
  assert ((fun '(rounds, stake) => (default 0 (rounds !! N.to_nat target), stake))
            <$> zip m (stakes (c_authorities c)) = zip (column target m) (stakes (c_authorities c))) as ->.
  { unfold column. generalize (stakes (c_authorities c)) as l. clear. induction m as [|row m IH]; intros [|s l]; try done.
    cbn. f_equal. apply IH. }
  set (l := stable_sort _ _). eexists _, _. split; [done|].
  destruct (reach_stake_holding c (fun x v => v <=? x) (c_quorum_threshold c) (column target m) (reverse l) Hc)
    as (low & -> & _ & Hlo & Hlo'); [done|intros; apply N.leb_refl|intros *; rewrite !N.leb_le; lia| | | |].
  { pose proof (quorum_positive c Hc). pose proof (wf_quorum_le _ Hc). lia. }
  { rewrite reverse_Permutation. apply stable_sort_perm. }
  { apply StronglySorted_reverse, sorted_up. }
  destruct (reach_stake_holding c (fun x v => x <=? v) (c_quorum_threshold c) (column target m) l Hc)
    as (high & -> & _ & Hhi & Hhi'); [done|intros; apply N.leb_refl|intros *; rewrite !N.leb_le; lia| | | |].
  { pose proof (quorum_positive c Hc). pose proof (wf_quorum_le _ Hc). lia. }
  { apply stable_sort_perm. }
  { apply sorted_up. }
  cbn [default from_option id]. split_and!; [done| |done|]; intros r Hr; [apply Hlo'|apply Hhi']; by apply N.leb_gt.
Qed.
End quorum_round.

(** The stake of the authorities that satisfy [P]. *)
Definition stake_such (c : Committee) (P : N -> bool) : N := weigh P 0 (stakes (c_authorities c)).

(** The low end is the highest round that a quorum has reached, the high end
    the lowest one that a quorum has not passed. *)
Definition quorum_range (c : Committee) (known : N -> N) (low high : N) : Prop :=
  c_quorum_threshold c <= stake_such c (fun i => low <=? known i)
  /\ (forall r, low < r -> stake_such c (fun i => r <=? known i) < c_quorum_threshold c)
  /\ c_quorum_threshold c <= stake_such c (fun i => known i <=? high)
  /\ (forall r, r < high -> stake_such c (fun i => known i <=? r) < c_quorum_threshold c).

(* ------------------------------------------------------------------ *)
(** ** What the tracker has seen *)

Definition max_N (l : list N) : N := foldr N.max 0 l.

Lemma max_N_app l1 l2 : max_N (l1 ++ l2) = N.max (max_N l1) (max_N l2).
Proof. induction l1 as [|x l1 IH]; simpl; [lia|]. fold (max_N (l1 ++ l2)). rewrite IH. fold (max_N l1). lia. Qed.

(** The highest round of [target] among references. *)
Definition highest_of (target : N) (refs : list BlockRef) : N :=
  max_N (br_round <$> List.filter (fun r => br_author r =? target) refs).

Lemma highest_of_app target l1 l2 :
  highest_of target (l1 ++ l2) = N.max (highest_of target l1) (highest_of target l2).
Proof. unfold highest_of. by rewrite List.filter_app, fmap_app, max_N_app. Qed.

(** The blocks that the author of [eb] shows to have accepted. *)
Definition shown (eb : ExtendedBlock) : list BlockRef :=
  reference (eb_block eb) :: ancestors (eb_block eb) ++ excluded_ancestors eb.

(** The highest round of [target] that [peer] showed to have accepted. *)
Definition reported (blocks : list ExtendedBlock) (peer target : N) : N :=
  highest_of target (List.filter (fun eb => author (eb_block eb) =? peer) blocks ≫= shown).

Section tracking.
Context (c : Committee).

Definition tracks (m : list (list N)) (f : N -> N -> N) : Prop :=
  square c m /\ forall i j, is_valid_index c i = true -> is_valid_index c j = true ->
    exists row, m !! N.to_nat i = Some row /\ row !! N.to_nat j = Some (f i j).

Lemma raise_entry_Ok m f i j r :
  tracks m f -> is_valid_index c i = true -> is_valid_index c j = true ->
  exists m', raise_entry m i j r = Ok m'
    /\ tracks m' (fun x y => if (x =? i) && (y =? j) then N.max (f x y) r else f x y).
Proof.
  intros [[Hlen Hrow] Hf] Hi Hj. destruct (Hf i j Hi Hj) as (row & Hr & Hv).
  unfold raise_entry, raise_round, vec_index, vec_store. rewrite Hr. cbn [unwrap mbind outcome_bind].
  rewrite Hv. cbn [unwrap mbind outcome_bind]. eexists. split; [done|].
  assert (length row = length (c_authorities c)) as Hrl
    by (rewrite Forall_forall in Hrow; by eapply Hrow, list_elem_of_lookup_2).
  split; [split|].
  - by rewrite length_insert.
  - apply Forall_insert; [done|]. by rewrite length_insert.
  - intros x y Hx Hy. destruct (Hf x y Hx Hy) as (row' & Hr' & Hv').
    destruct (N.eqb_spec x i) as [->|Hne]; simpl.
    + rewrite list_lookup_insert_eq by (by eapply lookup_lt_Some). eexists. split; [done|].
      assert (row' = row) as -> by congruence.
      destruct (N.eqb_spec y j) as [->|Hne]; simpl.
      * rewrite list_lookup_insert_eq by (by eapply lookup_lt_Some). congruence.
      * rewrite list_lookup_insert_ne by lia. done.
    + rewrite list_lookup_insert_ne by lia. by exists row'.
Qed.

Lemma raise_entries_Ok i refs : forall m f,
  tracks m f -> is_valid_index c i = true -> (forall r, r ∈ refs -> is_valid_index c (br_author r) = true) ->
  exists m', foldM (fun m r => raise_entry m i (br_author r) (br_round r)) refs m = Ok m'
    /\ tracks m' (fun x y => if x =? i then N.max (f x y) (highest_of y refs) else f x y).
Proof.
  induction refs as [|r refs IH]; intros m f Hm Hi Hv.
  - exists m. split; [done|]. destruct Hm as [? Hf]. split; [done|]. intros x y Hx Hy.
    destruct (Hf x y Hx Hy) as (row & ? & E). exists row. split; [done|]. rewrite E. f_equal.
    destruct (x =? i); [|done]. unfold highest_of. simpl. lia.
  - destruct (raise_entry_Ok m f i (br_author r) (br_round r) Hm Hi) as (m1 & E1 & Hm1); [apply Hv; left|].
    destruct (IH m1 _ Hm1 Hi) as (m' & E' & [Hsq Hf]); [intros x Hx; apply Hv; by right|].
    exists m'. cbn [foldM]. rewrite E1. cbn [mbind outcome_bind]. split; [done|]. split; [done|].
    intros x y Hx Hy. destruct (Hf x y Hx Hy) as (row & ? & E). exists row. split; [done|]. rewrite E. f_equal.
    change (r :: refs) with ([r] ++ refs). rewrite highest_of_app. unfold highest_of at 2. simpl.
    rewrite (N.eqb_sym (br_author r) y). destruct (x =? i), (y =? br_author r); simpl; lia.
Qed.

(** The tracker after the blocks [seen]. *)
Record tracker_of (context : Context) (seen : list ExtendedBlock) (rt : RoundTracker) : Prop := {
  to_context : rt_context rt = context;
  to_accepted : tracks (block_accepted_rounds rt) (reported seen);
  to_received : length (local_highest_received_rounds rt) = length (c_authorities c);
}.

Lemma update_block_Ok context seen rt eb :
  tracker_of context seen rt -> is_valid_index c (author (eb_block eb)) = true ->
  (forall r, r ∈ shown eb -> is_valid_index c (br_author r) = true) ->
  exists rt', update_from_verified_block rt eb = Ok rt' /\ tracker_of context (seen ++ [eb]) rt'.
Proof.
  intros [Hctx Hacc Hrec] Ha Hv. unfold update_from_verified_block.
  assert (N.to_nat (author (eb_block eb)) < length (local_highest_received_rounds rt))%nat as Hlt.
  { apply N.ltb_lt in Ha. unfold committee_size in Ha. lia. }
  destruct (lookup_lt_is_Some_2 _ _ Hlt) as [v Ev]. unfold raise_round at 1, vec_index at 1, vec_store at 1.
  rewrite Ev. cbn [unwrap mbind outcome_bind].
  destruct (raise_entries_Ok (author (eb_block eb)) (shown eb) _ _ Hacc Ha Hv) as (m' & E & [Hsq Hf]).
  unfold shown in E. cbn [foldM] in E. apply bind_Ok in E as (m1 & E1 & E). simpl in E1. rewrite E1.
  cbn [mbind outcome_bind]. rewrite foldM_app in E. apply bind_Ok in E as (m2 & E2 & E).
  rewrite E2. cbn [mbind outcome_bind]. rewrite E. cbn [mbind outcome_bind]. eexists. split; [done|].
  constructor; simpl; [done| |by rewrite length_insert].
  split; [done|]. intros x y Hx Hy. destruct (Hf x y Hx Hy) as (row & Er & Ev').
  exists row. split; [done|]. rewrite Ev'. f_equal. unfold reported.
  rewrite List.filter_app. simpl. rewrite (N.eqb_sym (author (eb_block eb)) x).
  destruct (x =? author (eb_block eb)); [|by rewrite app_nil_r].
  rewrite bind_app. simpl. by rewrite app_nil_r, highest_of_app.
Qed.

Lemma update_blocks_Ok context blocks : forall seen rt,
  tracker_of context seen rt ->
  (forall eb, eb ∈ blocks -> is_valid_index c (author (eb_block eb)) = true
     /\ forall r, r ∈ ancestors (eb_block eb) ++ excluded_ancestors eb -> is_valid_index c (br_author r) = true) ->
  exists rt', foldM update_from_verified_block blocks rt = Ok rt' /\ tracker_of context (seen ++ blocks) rt'.
Proof.
  induction blocks as [|eb blocks IH]; intros seen rt Hrt Hv.
  - exists rt. by rewrite app_nil_r.
  - destruct (Hv eb) as [Ha Hanc]; [left|].
    destruct (update_block_Ok context seen rt eb Hrt Ha) as (rt1 & E1 & Hrt1).
    { intros r [->|Hr]%elem_of_cons; [done|by apply Hanc]. }
    destruct (IH (seen ++ [eb]) rt1 Hrt1) as (rt' & E' & Hrt'); [intros x Hx; apply Hv; by right|].
    exists rt'. cbn [foldM]. rewrite E1. cbn [mbind outcome_bind]. split; [done|].
    by rewrite <- (assoc_L (++)) in Hrt'.
Qed.

(** What [peer] is known to have accepted of [target], from its blocks or
    from a probe. *)
Definition entry (m : list (list N)) (peer target : N) : N :=
  default 0 (m !! N.to_nat peer ≫= fun row => row !! N.to_nat target).

Lemma square_tracks m : square c m -> tracks m (entry m).
Proof.
  intros [Hlen Hrow]. split; [done|]. intros i j Hi%N.ltb_lt Hj%N.ltb_lt. unfold committee_size in *.
  destruct (lookup_lt_is_Some_2 m (N.to_nat i)) as [row Hr]; [lia|]. exists row. split; [done|].
  rewrite Forall_forall in Hrow. specialize (Hrow _ (list_elem_of_lookup_2 _ _ _ Hr)).
  unfold entry. rewrite Hr. simpl. destruct (lookup_lt_is_Some_2 row (N.to_nat j)) as [v ->]; [lia|done].
Qed.

Lemma tracks_max m1 m2 f g :
  tracks m1 f -> tracks m2 g -> tracks (zip_with (zip_with N.max) m1 m2) (fun i j => N.max (f i j) (g i j)).
Proof.
  intros [[L1 R1] H1] [[L2 R2] H2]. rewrite Forall_forall in R1, R2. split; [split|].
  - rewrite length_zip_with. lia.
  - apply Forall_forall. intros row (r1 & r2 & -> & Hr1 & Hr2)%elem_of_zip_with.
    rewrite length_zip_with, (R1 r1), (R2 r2) by done. lia.
  - intros i j Hi Hj. destruct (H1 i j Hi Hj) as (r1 & E1 & V1). destruct (H2 i j Hi Hj) as (r2 & E2 & V2).
    exists (zip_with N.max r1 r2). rewrite !lookup_zip_with, E1, E2. simpl. by rewrite V1, V2.
Qed.

Lemma tracks_column m f target i v :
  tracks m f -> is_valid_index c target = true -> column target m !! N.to_nat i = Some v ->
  is_valid_index c i = true /\ v = f i target.
Proof.
  intros [[Hlen _] Hf] Ht. unfold column. rewrite list_lookup_fmap.
  intros (row & Hr & ->)%fmap_Some. assert (is_valid_index c i = true) as Hi.
  { apply N.ltb_lt. unfold committee_size. apply lookup_lt_Some in Hr. lia. }
  split; [done|]. destruct (Hf i target Hi Ht) as (row' & Hr' & Hv). assert (row' = row) as -> by congruence.
  by rewrite Hv.
Qed.

Lemma column_stake m f target (Q : N -> bool) :
  tracks m f -> is_valid_index c target = true ->
  stake_holding c (column target m) (fun _ v => Q v) = stake_such c (fun i => Q (f i target)).
Proof.
  intros Hm Ht. apply weigh_ext. intros j _ Hj. unfold stakes in Hj. rewrite length_fmap in Hj.
  destruct (lookup_lt_is_Some_2 (column target m) (N.to_nat j)) as [v Hv].
  { unfold column. rewrite length_fmap, (proj1 (proj1 Hm)). lia. }
  rewrite Hv. by destruct (tracks_column m f target j v Hm Ht Hv) as [_ ->].
Qed.

(** Quorum rounds of a matrix, per authority. *)
Lemma quorum_rounds_Ok m f :
  committee_wf c -> tracks m f ->
  exists rounds, mapM (fun '(peer, _) => compute_quorum_round c peer m) (committee_authorities c) = Ok rounds
    /\ length rounds = length (c_authorities c)
    /\ forall target low high, rounds !! N.to_nat target = Some (low, high) ->
         quorum_range c (fun i => f i target) low high
         /\ low <= high /\ forall byz, reached_validity c (stake_of c byz) = false ->
           (exists i, is_valid_index c i = true /\ i ∉ byz /\ f i target <= low)
           /\ (exists i, is_valid_index c i = true /\ i ∉ byz /\ high <= f i target).
Proof.
  intros Hc Hm. destruct (mapM_total (fun '(peer, _) => compute_quorum_round c peer m) (committee_authorities c))
    as [rounds E].
  { intros [peer au] Hin. destruct (compute_quorum_round_Ok c Hc peer m (proj1 Hm)) as (low & high & E & _);
      [by eapply committee_authorities_valid|by eexists]. }
  exists rounds. pose proof (mapM_inv _ _ _ E) as Hall. split_and!; [done| |].
  - rewrite <- (Forall2_length _ _ _ Hall). unfold committee_authorities. by rewrite length_imap.
  - intros target low high Ht.
    destruct (Forall2_lookup_r _ _ _ _ _ Hall Ht) as ([peer au] & Hin & Eq).
    assert (peer = target /\ is_valid_index c target = true) as [-> Hv].
    { pose proof (committee_authorities_valid c peer au (list_elem_of_lookup_2 _ _ _ Hin)).
      unfold committee_authorities in Hin. rewrite list_lookup_imap in Hin.
      destruct (c_authorities c !! N.to_nat target); [|done]. injection Hin as <- _. rewrite N2Nat.id in *. done. }
    destruct (compute_quorum_round_Ok c Hc target m (proj1 Hm) Hv) as (low' & high' & E' & Hq).
    assert (low' = low /\ high' = high) as [-> ->] by (rewrite E' in Eq; by injection Eq).
    assert (length (column target m) = length (c_authorities c)) as Hcol
      by (unfold column; rewrite length_fmap; apply Hm).
    split_and!; [|by apply (quorum_round_bounds c Hc (column target m))|].
    { destruct Hq as (Q1 & Q2 & Q3 & Q4). unfold quorum_range.
      rewrite <- (column_stake m f target (fun v => low <=? v)), <- (column_stake m f target (fun v => v <=? high)) by done.
      split_and!; [done| |done|]; intros r Hr.
      - rewrite <- (column_stake m f target (fun v => r <=? v)) by done. by apply Q2.
      - rewrite <- (column_stake m f target (fun v => v <=? r)) by done. by apply Q4. }
    intros byz Hb.
    destruct (quorum_round_bft c Hc _ low high byz Hcol Hq Hb) as [(i & v & Hi & Hle & Hn) (j & w & Hj & Hge & Hn')].
    destruct (tracks_column m f target i v Hm Hv Hi) as [? ->].
    destruct (tracks_column m f target j w Hm Hv Hj) as [? ->]. split; [by exists i|by exists j].
Qed.
End tracking.

Lemma replicate_square c : square c (replicate (N.to_nat (committee_size c)) (replicate (N.to_nat (committee_size c)) 0)).
Proof.
  unfold committee_size. rewrite Nat2N.id. split; [by rewrite length_replicate|].
  apply Forall_replicate. by rewrite length_replicate.
Qed.

Lemma round_tracker_new_Ok context received :
  received = [] \/ length received = N.to_nat (committee_size (committee context)) ->
  exists rt, round_tracker_new context received = Ok rt /\ tracker_of (committee context) context [] rt
    /\ square (committee context) (probed_accepted_rounds rt).
Proof.
  set (c := committee context). intros Hl. unfold round_tracker_new. fold c.
  assert (exists l, (if is_empty received then Ok (replicate (N.to_nat (committee_size c)) 0)
      else _ ← assert_that (length received =? N.to_nat (committee_size c))%nat; Ok received) = Ok l
    /\ length l = length (c_authorities c)) as (l & -> & Hlen).
  { destruct received as [|r received]; cbn [is_empty].
    - eexists. split; [done|]. rewrite length_replicate. unfold committee_size. by rewrite Nat2N.id.
    - destruct Hl as [?|Hl]; [done|]. rewrite (proj2 (Nat.eqb_eq _ _) Hl). eexists. split; [done|].
      rewrite Hl. unfold committee_size. by rewrite Nat2N.id. }
  cbn [mbind outcome_bind]. eexists. split; [done|]. split; [|apply replicate_square]. constructor; simpl; [done| |done].
  fold c. destruct (square_tracks c _ (replicate_square c)) as [Hsq Hf]. split; [done|].
  intros i j Hi Hj. destruct (Hf i j Hi Hj) as (row & Hr & Hv). exists row. split; [done|]. rewrite Hv. f_equal.
  unfold entry. rewrite Hr. simpl. apply lookup_replicate in Hr as [-> _].
  destruct (replicate _ _ !! N.to_nat j) as [x|] eqn:E; [|done]. by apply lookup_replicate in E as [-> _].
Qed.

(** C32: Quorum rounds are what their documentation promises.  After any
    verified blocks, and a probe that answered a row per authority, the
    accepted quorum rounds are computed without a panic, one per authority;
    the low end is the highest round a quorum has reached, the high end the
    lowest one a quorum has not passed, and the low end is not above the high
    end; and whatever set below the validity threshold is faulty, the range lies between the rounds
    that two honest authorities are known to have accepted, from their blocks
    or the probe. *)
Theorem accepted_quorum_rounds_correct (context : Context) (blocks : list ExtendedBlock)
    (accepted_rounds received_rounds : list (list N)) :
  let c := committee context in
  committee_wf c ->
  (forall eb, eb ∈ blocks -> is_valid_index c (author (eb_block eb)) = true
     /\ forall r, r ∈ ancestors (eb_block eb) ++ excluded_ancestors eb -> is_valid_index c (br_author r) = true) ->
  square c accepted_rounds ->
  let known peer target := N.max (entry accepted_rounds peer target) (reported blocks peer target) in
  exists rt0 rt rounds,
    round_tracker_new context [] = Ok rt0 /\ foldM update_from_verified_block blocks rt0 = Ok rt
    /\ compute_accepted_quorum_rounds (update_from_probe rt accepted_rounds received_rounds) = Ok rounds
    /\ N.of_nat (length rounds) = committee_size c
    /\ forall target low high, rounds !! N.to_nat target = Some (low, high) ->
         quorum_range c (fun i => known i target) low high
         /\ low <= high /\ forall byz, reached_validity c (stake_of c byz) = false ->
           (exists i, is_valid_index c i = true /\ i ∉ byz /\ known i target <= low)
           /\ (exists i, is_valid_index c i = true /\ i ∉ byz /\ high <= known i target).
Proof.
  intros c Hc Hv Hsq known. destruct (round_tracker_new_Ok context []) as (rt0 & E0 & Hrt0 & _); [by left|].
  destruct (update_blocks_Ok c context blocks [] rt0 Hrt0 Hv) as (rt & E & [Hctx Hacc _]).
  destruct (quorum_rounds_Ok c _ known Hc (tracks_max c _ _ _ _ (square_tracks c _ Hsq) Hacc)) as (rounds & Er & Hl & Hr).
  exists rt0, rt, rounds. split_and!; [done|done| | |done].
  - unfold compute_accepted_quorum_rounds. simpl. rewrite Hctx. exact Er.
  - unfold committee_size. by rewrite Hl.
Qed.

(** Four authorities: the first three have accepted the block of round 3 of
    authority 0, the last one, probed, only a block of round 1. *)
Lemma accepted_quorum_rounds_correct_witness :
  let c := test_committee 4 in
  let context := mkContext 0 0 c (mkParameters 500 100 false 50000000 5 32 1000 8 32) for_testing in
  let blocks := [mkExtendedBlock (test_block 3 0 0 9 []) [];
                 mkExtendedBlock (test_block 4 1 0 9 [mkBlockRef 3 0 9]) [];
                 mkExtendedBlock (test_block 4 2 0 9 []) [mkBlockRef 3 0 9]] in
  let probed := [[0; 0; 0; 0]; [0; 0; 0; 0]; [0; 0; 0; 0]; [1; 0; 0; 0]] in
  let known peer target := N.max (entry probed peer target) (reported blocks peer target) in
  exists rt0 rt rounds,
    round_tracker_new context [] = Ok rt0 /\ foldM update_from_verified_block blocks rt0 = Ok rt
    /\ compute_accepted_quorum_rounds (update_from_probe rt probed probed) = Ok rounds
    /\ head rounds = Some (3, 3)
    /\ N.of_nat (length rounds) = committee_size c
    /\ forall target low high, rounds !! N.to_nat target = Some (low, high) ->
         quorum_range c (fun i => known i target) low high
         /\ low <= high /\ forall byz, reached_validity c (stake_of c byz) = false ->
           (exists i, is_valid_index c i = true /\ i ∉ byz /\ known i target <= low)
           /\ (exists i, is_valid_index c i = true /\ i ∉ byz /\ high <= known i target).
Proof.
  intros c context blocks probed known.
  destruct (accepted_quorum_rounds_correct context blocks probed probed test_committee_4_wf)
    as (rt0 & rt & rounds & E0 & E & Er & Hl & Hr).
  - intros eb Heb. repeat (apply elem_of_cons in Heb as [->|Heb]; [split; [reflexivity|]|]).
    4: by apply elem_of_nil in Heb.
    all: intros r Hr; repeat (apply elem_of_cons in Hr as [->|Hr]; [reflexivity|]); by apply elem_of_nil in Hr.
  - split; [reflexivity|]. repeat constructor.
  - exists rt0, rt, rounds. split_and!; [done|done|done| |done|done].
    vm_compute in E0. injection E0 as <-. vm_compute in E. injection E as <-.
    vm_compute in Er. injection Er as <-. reflexivity.
Defined.
