(* ===== verification/Store.v ===== *)
(** * Storage

    Models [crates/consensus/src/storage/mod.rs] and [storage/mem_store.rs]:
    the [Store] interface, what the rest of the crate relies on of it
    ([StoreLaws]), and the in-memory store as its implementation; and
    [load_committed_subdag_from_store] of [commit.rs], which reads through the
    interface.  A storage error is a panic in its callers, except in the service
    that returns it to a peer, so the operations return an [outcome]. *)

From S2P Require Import Prelude Committee Context Block Commit.

Record WriteBatch := mkWriteBatch {
  wb_blocks : list VerifiedBlock;
  wb_commits : list TrustedCommit;
  wb_commit_info : list (CommitRef * CommitInfo);
  wb_finalized_commits : list (CommitRef * gmap BlockRef (list N));
}.

Definition write_batch_new := mkWriteBatch.

Class Store (S : Type) := {
  store_write : S -> WriteBatch -> S;
  store_read_blocks : S -> list BlockRef -> outcome (list (option VerifiedBlock));
  store_contains_blocks : S -> list BlockRef -> outcome (list bool);
  scan_blocks_by_author : S -> N -> N -> outcome (list VerifiedBlock);
  scan_blocks_by_author_in_range : S -> N -> N -> N -> N -> outcome (list VerifiedBlock);
  scan_last_blocks_by_author : S -> N -> N -> option N -> outcome (list VerifiedBlock);
  read_last_commit : S -> outcome (option TrustedCommit);
  scan_commits : S -> CommitRange -> outcome (list TrustedCommit);
  read_commit_votes : S -> N -> outcome (list BlockRef);
  read_last_commit_info : S -> outcome (option (CommitRef * CommitInfo));
  read_last_finalized_commit : S -> outcome (option CommitRef);
  read_rejected_transactions : S -> CommitRef -> outcome (option (gmap BlockRef (list N)));
}.

(* ------------------------------------------------------------------ *)
(** ** The in-memory store *)

Record MemStore := mkMemStore {
  ms_blocks : gmap (N * N * N) VerifiedBlock;          (* round, author, digest *)
  ms_digests_by_authorities : gset (N * N * N);        (* author, round, digest *)
  ms_commits : gmap (N * N) TrustedCommit;
  ms_commit_votes : gset (N * N * BlockRef);
  ms_commit_info : gmap (N * N) CommitInfo;
  ms_finalized_commits : gmap (N * N) (gmap BlockRef (list N));
}.

Definition mem_store_new : MemStore :=
  {| ms_blocks := ∅; ms_digests_by_authorities := ∅; ms_commits := ∅; ms_commit_votes := ∅;
     ms_commit_info := ∅; ms_finalized_commits := ∅ |}.

Definition ref_key (r : BlockRef) : N * N * N := (br_round r, br_author r, br_digest r).
Definition commit_key (r : CommitRef) : N * N := (cr_index r, cr_digest r).

(** The first loop of [write]. *)
Definition mem_write_block (inner : MemStore) (block : VerifiedBlock) : MemStore :=
  let block_ref := reference block in
  {| ms_blocks := <[ref_key block_ref := block]> (ms_blocks inner);
     ms_digests_by_authorities :=
       {[(br_author block_ref, br_round block_ref, br_digest block_ref)]}
       ∪ ms_digests_by_authorities inner;
     ms_commits := ms_commits inner;
     ms_commit_votes :=
       foldl (fun s vote => {[(cr_index vote, cr_digest vote, block_ref)]} ∪ s)
         (ms_commit_votes inner) (commit_votes block);
     ms_commit_info := ms_commit_info inner;
     ms_finalized_commits := ms_finalized_commits inner |}.

Definition mem_store_write (inner : MemStore) (write_batch : WriteBatch) : MemStore :=
  let inner := foldl mem_write_block inner (wb_blocks write_batch) in
  {| ms_blocks := ms_blocks inner;
     ms_digests_by_authorities := ms_digests_by_authorities inner;
     ms_commits :=
       foldl (fun m commit => <[(commit_index commit, tcm_digest commit) := commit]> m)
         (ms_commits inner) (wb_commits write_batch);
     ms_commit_votes := ms_commit_votes inner;
     ms_commit_info :=
       foldl (fun m '(commit_ref, info) => <[commit_key commit_ref := info]> m)
         (ms_commit_info inner) (wb_commit_info write_batch);
     ms_finalized_commits :=
       foldl (fun m '(commit_ref, rejected) => <[commit_key commit_ref := rejected]> m)
         (ms_finalized_commits inner) (wb_finalized_commits write_batch) |}.

Definition mem_store_read_blocks (inner : MemStore) (refs : list BlockRef)
    : list (option VerifiedBlock) :=
  (fun r => ms_blocks inner !! ref_key r) <$> refs.

Definition mem_store_contains_blocks (inner : MemStore) (refs : list BlockRef) : list bool :=
  (fun r => bool_decide (is_Some (ms_blocks inner !! ref_key r))) <$> refs.

Definition key_between {K} `{KeyOrder K} (lo hi k : K) : bool := key_leb lo k && key_leb k hi.

(** [BTreeSet::range] and [BTreeMap::range] panic when the bounds are the
    wrong way round, unless nothing was ever inserted. *)
Definition mem_store_scan_blocks_by_author_in_range (inner : MemStore)
    (author start_round end_round limit : N) : outcome (list VerifiedBlock) :=
  let lo := (author, start_round, DIGEST_MIN) in
  let hi := (author, end_round, DIGEST_MIN) in
  _ ← assert_that (key_leb lo hi || bool_decide (ms_digests_by_authorities inner = ∅));
  let keys := btree_range (fun k => key_leb lo k && negb (key_leb hi k))
                (ms_digests_by_authorities inner) in
  let refs := (fun '(a, r, d) => mkBlockRef r a d) <$> iter_take (N.max limit 1) keys in
  mapM unwrap (mem_store_read_blocks inner refs).

Definition usize_MAX : N := u64_MAX.

Definition mem_store_scan_blocks_by_author (inner : MemStore) (author start_round : N)
    : outcome (list VerifiedBlock) :=
  mem_store_scan_blocks_by_author_in_range inner author start_round u32_MAX usize_MAX.

(** The last [n] elements, in the order they had ([rev().take(n)] pushed to
    the front one by one). *)
Definition take_last {A} (n : nat) (l : list A) : list A := drop (length l - n) l.

Definition mem_store_scan_last_blocks_by_author (inner : MemStore)
    (author num_of_rounds : N) (before_round : option N) : outcome (list VerifiedBlock) :=
  let before_round := default u32_MAX before_round in
  let keys := btree_range
                (key_between (author, 0, DIGEST_MIN) (author, before_round, DIGEST_MAX))
                (ms_digests_by_authorities inner) in
  let refs := (fun '(a, r, d) => mkBlockRef r a d) <$> take_last (N.to_nat num_of_rounds) keys in
  mapM unwrap (mem_store_read_blocks inner refs).

Definition mem_store_read_last_commit (inner : MemStore) : option TrustedCommit :=
  snd <$> btree_map_last (ms_commits inner).

Definition mem_store_scan_commits (inner : MemStore) (range : CommitRange)
    : outcome (list TrustedCommit) :=
  let lo := (commit_range_start range, COMMIT_DIGEST_MIN) in
  let hi := (commit_range_end range, COMMIT_DIGEST_MAX) in
  _ ← assert_that (key_leb lo hi || bool_decide (ms_commits inner = ∅));
  Ok (snd <$> btree_map_range (key_between lo hi) (ms_commits inner)).

Definition mem_store_read_commit_votes (inner : MemStore) (commit_index : N) : list BlockRef :=
  snd <$> btree_range
    (key_between (commit_index, COMMIT_DIGEST_MIN, BLOCK_REF_MIN)
                 (commit_index, COMMIT_DIGEST_MAX, BLOCK_REF_MAX))
    (ms_commit_votes inner).

Definition mem_store_read_last_commit_info (inner : MemStore) : option (CommitRef * CommitInfo) :=
  (fun kv => (mkCommitRef kv.1.1 kv.1.2, kv.2)) <$> btree_map_last (ms_commit_info inner).

Definition mem_store_read_last_finalized_commit (inner : MemStore) : option CommitRef :=
  (fun kv => mkCommitRef kv.1.1 kv.1.2) <$> btree_map_last (ms_finalized_commits inner).

Definition mem_store_read_rejected_transactions (inner : MemStore) (commit_ref : CommitRef)
    : option (gmap BlockRef (list N)) :=
  ms_finalized_commits inner !! commit_key commit_ref.

#[global] Instance MemStore_Store : Store MemStore := {
  store_write := mem_store_write;
  store_read_blocks s refs := Ok (mem_store_read_blocks s refs);
  store_contains_blocks s refs := Ok (mem_store_contains_blocks s refs);
  scan_blocks_by_author := mem_store_scan_blocks_by_author;
  scan_blocks_by_author_in_range := mem_store_scan_blocks_by_author_in_range;
  scan_last_blocks_by_author := mem_store_scan_last_blocks_by_author;
  read_last_commit s := Ok (mem_store_read_last_commit s);
  scan_commits := mem_store_scan_commits;
  read_commit_votes s i := Ok (mem_store_read_commit_votes s i);
  read_last_commit_info s := Ok (mem_store_read_last_commit_info s);
  read_last_finalized_commit s := Ok (mem_store_read_last_finalized_commit s);
  read_rejected_transactions s r := Ok (mem_store_read_rejected_transactions s r);
}.

(* ------------------------------------------------------------------ *)
(** ** Recovering a sub-DAG *)

(** The index of the last block whose reference is the leader's. *)
Definition leader_block_idx (leader : BlockRef) (blocks : list VerifiedBlock) : option nat :=
  fst <$> last (filter (fun ib => reference ib.2 = leader) (zip (seq 0 (length blocks)) blocks)).

Definition load_committed_subdag_from_store {S} `{Store S} (store : S) (commit : TrustedCommit)
    : outcome CommittedSubDag :=
  commit_blocks ← store_read_blocks store (commit_blocks commit);
  blocks ← mapM unwrap commit_blocks;
  idx ← unwrap (leader_block_idx (commit_leader commit) blocks);
  leader_block ← unwrap (blocks !! idx);
  let subdag := committed_sub_dag_new (reference leader_block) blocks
                  (commit_timestamp_ms commit) (commit_reference commit) in
  reject_votes ← read_rejected_transactions store (commit_reference commit);
  Ok match reject_votes with
     | Some reject_votes =>
         {| sd_leader := sd_leader subdag; sd_blocks := sd_blocks subdag;
            sd_timestamp_ms := sd_timestamp_ms subdag; sd_commit_ref := sd_commit_ref subdag;
            decided_with_local_blocks := true;
            recovered_rejected_transactions := true;
            rejected_transactions_by_block := reject_votes |}
     | None =>
         {| sd_leader := sd_leader subdag; sd_blocks := sd_blocks subdag;
            sd_timestamp_ms := sd_timestamp_ms subdag; sd_commit_ref := sd_commit_ref subdag;
            decided_with_local_blocks := false;
            recovered_rejected_transactions := false;
            rejected_transactions_by_block := rejected_transactions_by_block subdag |}
     end.

(* ------------------------------------------------------------------ *)
(** ** What a store promises *)

(** The value a list of writes leaves at a key. *)
Definition last_write {A} (p : A -> bool) (l : list A) (old : option A) : option A :=
  match last (List.filter p l) with Some x => Some x | None => old end.

Definition has_ref (r : BlockRef) (b : VerifiedBlock) : bool := bool_decide (reference b = r).

(** A store is a map from references to blocks and from commits to their
    rejected transactions; a batch overwrites the keys it names. *)
Class StoreLaws (S : Type) `{Store S} := {
  store_block : S -> BlockRef -> option VerifiedBlock;
  store_read_blocks_spec : forall s refs,
    store_read_blocks s refs = Ok (store_block s <$> refs);
  store_contains_blocks_spec : forall s refs,
    store_contains_blocks s refs = Ok ((fun r => bool_decide (is_Some (store_block s r))) <$> refs);
  store_write_spec : forall s w r,
    store_block (store_write s w) r = last_write (has_ref r) (wb_blocks w) (store_block s r);
  store_rejected_spec : forall s w c,
    read_rejected_transactions (store_write s w) c
    = match last (List.filter (fun x => bool_decide (x.1 = c)) (wb_finalized_commits w)) with
      | Some x => Ok (Some x.2)
      | None => read_rejected_transactions s c
      end;
}.

Lemma last_write_snoc {A} (p : A -> bool) l x old :
  last_write p (l ++ [x]) old = if p x then Some x else last_write p l old.
Proof.
  unfold last_write. rewrite List.filter_app. simpl. destruct (p x).
  - by rewrite last_snoc.
  - by rewrite app_nil_r.
Qed.

(** Folding insertions into a map leaves at a key what was written last. *)
Lemma foldl_insert_lookup {A V} `{Countable K} (key : A -> K) (val : A -> V) l (m : gmap K V) k :
  foldl (fun m x => <[key x := val x]> m) m l !! k
  = match last (List.filter (fun x => bool_decide (key x = k)) l) with
    | Some x => Some (val x)
    | None => m !! k
    end.
Proof.
  induction l as [|x l IH] using rev_ind; [done|].
  rewrite foldl_snoc, List.filter_app. simpl. case_bool_decide as Hk.
  - rewrite last_snoc, <- Hk. apply lookup_insert_eq.
  - rewrite app_nil_r, lookup_insert_ne by done. apply IH.
Qed.

Lemma ref_key_inj r1 r2 : ref_key r1 = ref_key r2 <-> r1 = r2.
Proof. destruct r1, r2. unfold ref_key; simpl. split; [by intros [= -> -> ->]|by intros [= -> -> ->]]. Qed.

Lemma commit_key_inj r1 r2 : commit_key r1 = commit_key r2 <-> r1 = r2.
Proof. destruct r1, r2. unfold commit_key; simpl. split; [by intros [= -> ->]|by intros [= -> ->]]. Qed.

Lemma mem_write_blocks_lookup s bs :
  ms_blocks (foldl mem_write_block s bs)
  = foldl (fun m b => <[ref_key (reference b) := b]> m) (ms_blocks s) bs.
Proof. revert s. induction bs as [|b bs IH]; intros s; [done|]. simpl. by rewrite IH. Qed.

Lemma mem_write_blocks_finalized s bs :
  ms_finalized_commits (foldl mem_write_block s bs) = ms_finalized_commits s.
Proof. revert s. induction bs as [|b bs IH]; intros s; [done|]. simpl. by rewrite IH. Qed.

#[global] Program Instance MemStore_laws : StoreLaws MemStore := {|
  store_block s r := ms_blocks s !! ref_key r;
|}.
Next Obligation. done. Qed.
Next Obligation. done. Qed.
Next Obligation.
  intros s w r. cbn -[foldl]. rewrite mem_write_blocks_lookup.
  rewrite (foldl_insert_lookup (fun b => ref_key (reference b)) (fun b => b)).
  unfold last_write, has_ref. erewrite List.filter_ext; [done|].
  intros b. apply bool_decide_ext, ref_key_inj.
Qed.
Next Obligation.
  intros s w c. cbn -[foldl]. unfold mem_store_read_rejected_transactions. cbn -[foldl].
  rewrite mem_write_blocks_finalized.
  replace (foldl _ (ms_finalized_commits s) (wb_finalized_commits w))
    with (foldl (fun m (x : CommitRef * gmap BlockRef (list N)) => <[commit_key x.1 := x.2]> m)
            (ms_finalized_commits s) (wb_finalized_commits w)).
  2:{ generalize (ms_finalized_commits s). induction (wb_finalized_commits w) as [|[c' r] l IH];
      intros m; [done|]. simpl. apply IH. }
  rewrite (foldl_insert_lookup (fun x => commit_key x.1) (fun x => x.2)).
  erewrite (List.filter_ext _ (fun x => bool_decide (x.1 = c))).
  2:{ intros x. apply bool_decide_ext, commit_key_inj. }
  destruct (last _); done.
Qed.

(* ------------------------------------------------------------------ *)
(** ** Round trip of a commit *)

Lemma mapM_unwrap_Some {A} (l : list A) : mapM unwrap (Some <$> l) = Ok l.
Proof. induction l as [|x l IH]; [done|]. cbn in *. by rewrite IH. Qed.

Lemma leader_block_idx_spec leader blocks :
  leader ∈ reference <$> blocks ->
  exists i b, leader_block_idx leader blocks = Some i /\ blocks !! i = Some b
    /\ reference b = leader.
Proof.
  intros (b & Hb & Hin)%list_elem_of_fmap. unfold leader_block_idx.
  set (l := filter _ _). assert (exists ib, ib ∈ l) as [ib Hib].
  { apply list_elem_of_lookup in Hin as [i Hi]. exists (i, b). apply list_elem_of_filter.
    split; [done|]. apply list_elem_of_lookup. exists i. rewrite lookup_zip_with.
    rewrite lookup_seq_lt by (by eapply lookup_lt_Some). simpl. by rewrite Hi. }
  destruct (last l) as [[i b']|] eqn:E.
  2:{ apply last_None in E. rewrite E in Hib. inversion Hib. }
  apply last_Some_elem_of, list_elem_of_filter in E as [Hr E]. exists i, b'. split; [done|].
  apply list_elem_of_lookup in E as [j E]. rewrite lookup_zip_with in E.
  destruct (seq 0 (length blocks) !! j) as [i'|] eqn:Ei; [|done]. simpl in E.
  apply lookup_seq in Ei as [-> _]. destruct (blocks !! j) eqn:Ej; [|done].
  simpl in E. injection E as <- <-. done.
Qed.

Section roundtrip.
Context {S : Type} `{StoreLaws S}.

Lemma last_write_elem bs b old :
  b ∈ bs -> (forall b', b' ∈ bs -> reference b' = reference b -> b' = b) ->
  last_write (has_ref (reference b)) bs old = Some b.
Proof.
  intros Hin Huniq. unfold last_write. destruct (last _) as [b'|] eqn:E.
  - apply last_Some_elem_of, list_filter_elem_of in E as [Hr E]. f_equal. apply Huniq; [done|].
    by apply bool_decide_eq_true in Hr.
  - exfalso. apply last_None in E.
    assert (b ∈ List.filter (has_ref (reference b)) bs) as Hb.
    { apply list_filter_elem_of. split; [by apply bool_decide_eq_true|done]. }
    rewrite E in Hb. inversion Hb.
Qed.

Lemma last_write_app {A} (p : A -> bool) l1 l2 old :
  last_write p (l1 ++ l2) old = last_write p l2 (last_write p l1 old).
Proof. unfold last_write. rewrite List.filter_app, last_app. by destruct (last (List.filter p l2)). Qed.

(** The last verdict of a sequence of finalized commits on one of them. *)
Definition finalized_as (c : CommitRef) (old : option (gmap BlockRef (list N)))
    (fs : list (CommitRef * gmap BlockRef (list N))) : option (gmap BlockRef (list N)) :=
  match last (List.filter (fun x => bool_decide (x.1 = c)) fs) with
  | Some x => Some x.2
  | None => old
  end.

Lemma finalized_as_app c old l1 l2 :
  finalized_as c old (l1 ++ l2) = finalized_as c (finalized_as c old l1) l2.
Proof. unfold finalized_as. rewrite List.filter_app, last_app. by destruct (last (List.filter _ l2)). Qed.

Lemma store_writes_block ws s r :
  store_block (foldl store_write s ws) r
  = last_write (has_ref r) (ws ≫= wb_blocks) (store_block s r).
Proof.
  revert s. induction ws as [|w ws IH]; intros s; [done|].
  cbn [foldl]. by rewrite IH, store_write_spec, bind_cons, last_write_app.
Qed.

Lemma store_writes_rejected ws s c old :
  read_rejected_transactions s c = Ok old ->
  read_rejected_transactions (foldl store_write s ws) c
  = Ok (finalized_as c old (ws ≫= wb_finalized_commits)).
Proof.
  revert s old. induction ws as [|w ws IH]; intros s old E; [done|].
  cbn [foldl]. rewrite bind_cons, finalized_as_app. apply IH. rewrite store_rejected_spec.
  unfold finalized_as. by destruct (last _).
Qed.
End roundtrip.

(** C39: Recovering a committed sub-DAG returns what was written.  For any
    store that keeps the interface's promises and any sequence of batches that
    hold the blocks of a commit between them, in any order and together with
    anything else, a reference naming one block: reading the commit back
    succeeds and gives its leader, exactly its blocks in the commit's order,
    its timestamp and reference.  When a batch, or the store before them,
    finalized the commit, the sub-DAG counts as decided and carries the
    rejected transactions of the last finalization; when none did, it is not
    decided and carries none. *)
Theorem load_committed_subdag_roundtrip {S} `{StoreLaws S} (s : S) (ws : list WriteBatch)
    (commit : TrustedCommit) (blocks : list VerifiedBlock) (old : option (gmap BlockRef (list N))) :
  commit_blocks commit = reference <$> blocks ->
  blocks ⊆ ws ≫= wb_blocks ->
  (forall b b', b ∈ ws ≫= wb_blocks -> b' ∈ ws ≫= wb_blocks -> reference b' = reference b -> b' = b) ->
  commit_leader commit ∈ commit_blocks commit ->
  read_rejected_transactions s (commit_reference commit) = Ok old ->
  let verdict := finalized_as (commit_reference commit) old (ws ≫= wb_finalized_commits) in
  load_committed_subdag_from_store (foldl store_write s ws) commit
  = Ok {| sd_leader := commit_leader commit;
          sd_blocks := blocks;
          sd_timestamp_ms := commit_timestamp_ms commit;
          sd_commit_ref := commit_reference commit;
          decided_with_local_blocks := bool_decide (is_Some verdict);
          recovered_rejected_transactions := bool_decide (is_Some verdict);
          rejected_transactions_by_block := default ∅ verdict |}.
Proof.
  intros Hblocks Hsub Huniq Hleader Hold verdict. unfold load_committed_subdag_from_store.
  rewrite store_read_blocks_spec. cbn [mbind outcome_bind].
  assert (store_block (foldl store_write s ws) <$> commit_blocks commit = Some <$> blocks) as ->.
  { rewrite Hblocks, <- list_fmap_compose. apply list_fmap_ext. intros i b Hb. simpl.
    apply list_elem_of_lookup_2, Hsub in Hb.
    rewrite store_writes_block. apply last_write_elem; [done|]. intros b' Hb' Hr. by apply Huniq. }
  rewrite mapM_unwrap_Some. cbn [mbind outcome_bind]. rewrite Hblocks in Hleader.
  destruct (leader_block_idx_spec _ _ Hleader) as (i & b & Ei & Eb & Hb).
  rewrite Ei. cbn [unwrap mbind outcome_bind]. rewrite Eb. cbn [unwrap mbind outcome_bind].
  rewrite (store_writes_rejected ws s _ old Hold). fold verdict. cbn [mbind outcome_bind].
  destruct verdict as [rejected|]; cbn; by rewrite Hb.
Qed.

(** The blocks arrive in two batches, the verdict in a third one; a second
    commit of the same blocks is not finalized. *)
Lemma load_committed_subdag_roundtrip_witness :
  let b1 := test_block 1 0 5 11 [] in
  let b2 := test_block 2 1 6 12 [reference b1] in
  let commit := mkTrustedCommit (commit_new 1 0 9 (reference b2) [reference b1; reference b2]) 77 [] in
  let pending := mkTrustedCommit (commit_new 2 77 9 (reference b2) [reference b1; reference b2]) 78 [] in
  let store := foldl store_write mem_store_new
    [write_batch_new [b2] [] [] []; write_batch_new [b1] [commit; pending] [] [];
     write_batch_new [] [] [] [(mkCommitRef 1 77, {[reference b1 := [3]]})]] in
  load_committed_subdag_from_store store commit
  = Ok (mkCommittedSubDag (reference b2) [b1; b2] 9 (mkCommitRef 1 77) true true {[reference b1 := [3]]})
  /\ load_committed_subdag_from_store store pending
  = Ok (mkCommittedSubDag (reference b2) [b1; b2] 9 (mkCommitRef 2 78) false false ∅).
Proof.
  intros b1 b2 commit pending store.
  assert ([b1; b2] ⊆ [b2; b1]) as Hsub.
  { intros x. rewrite !elem_of_cons. tauto. }
  assert (forall b b', b ∈ [b2; b1] -> b' ∈ [b2; b1] -> reference b' = reference b -> b' = b) as Huniq.
  { intros b b'. rewrite !list_elem_of_In. intros [<-|[<-|[]]] [<-|[<-|[]]]; done. }
  split.
  - etransitivity; [apply (load_committed_subdag_roundtrip mem_store_new
      [write_batch_new [b2] [] [] []; write_batch_new [b1] [commit; pending] [] [];
       write_batch_new [] [] [] [(mkCommitRef 1 77, {[reference b1 := [3]]})]] commit [b1; b2] None)|
      vm_compute; reflexivity]; [reflexivity|exact Hsub|exact Huniq|by right; left|reflexivity].
  - etransitivity; [apply (load_committed_subdag_roundtrip mem_store_new
      [write_batch_new [b2] [] [] []; write_batch_new [b1] [commit; pending] [] [];
       write_batch_new [] [] [] [(mkCommitRef 1 77, {[reference b1 := [3]]})]] pending [b1; b2] None)|
      vm_compute; reflexivity]; [reflexivity|exact Hsub|exact Huniq|by right; left|reflexivity].
Defined.

(* ------------------------------------------------------------------ *)
(** ** Scans of the in-memory store *)

(** The index of digests by author follows the blocks, and every block is
    stored under its own reference. *)
Record mem_inv (s : MemStore) : Prop := {
  mi_key : forall k b, ms_blocks s !! k = Some b -> k = ref_key (reference b);
  mi_digests : forall a r d,
    (a, r, d) ∈ ms_digests_by_authorities s <-> is_Some (ms_blocks s !! (r, a, d));
}.

Lemma mem_inv_new : mem_inv mem_store_new.
Proof.
  constructor; simpl; [done|]. intros a r d.
  split; [set_solver|]. rewrite lookup_empty. by intros [??].
Qed.

Lemma mem_inv_write_block s b : mem_inv s -> mem_inv (mem_write_block s b).
Proof.
  intros [Hk Hd]. constructor; simpl.
  - intros k b'. rewrite lookup_insert_Some. intros [[<- <-]|[_ ?]]; auto.
  - intros a r d. rewrite elem_of_union, elem_of_singleton, Hd, lookup_insert_is_Some.
    unfold ref_key. simpl. split.
    + intros [[= -> -> ->]|?]; [by left|]. destruct (decide ((round b, author b, vb_digest b) = (r, a, d))); auto.
    + intros [[= -> -> ->]|[_ ?]]; auto.
Qed.

Lemma mem_inv_write s w : mem_inv s -> mem_inv (mem_store_write s w).
Proof.
  intros Hs. assert (mem_inv (foldl mem_write_block s (wb_blocks w))) as [Hk Hd].
  { revert s Hs. induction (wb_blocks w) as [|b bs IH]; intros s Hs; simpl; [done|].
    apply IH. by apply mem_inv_write_block. }
  by constructor.
Qed.

(** The blocks of [author] in the rounds from [lo] to before [hi]. *)
Definition author_blocks (s : MemStore) (a lo hi : N) (b : VerifiedBlock) : Prop :=
  ms_blocks s !! ref_key (reference b) = Some b /\ author b = a /\ lo <= round b < hi.

Lemma mapM_unwrap_take {A B} (f : A -> option B) l n bs :
  mapM unwrap (f <$> l) = Ok bs -> mapM unwrap (f <$> take n l) = Ok (take n bs).
Proof.
  revert n bs. induction l as [|x l IH]; intros n bs H; destruct n as [|n]; cbn in *;
    try by (injection H as <-).
  - done.
  - destruct (f x) as [b|]; cbn in *; [|done].
    destruct (mapM unwrap (f <$> l)) as [bs'| |] eqn:E; cbn in *; try done.
    injection H as <-. specialize (IH n bs' eq_refl).
    rewrite IH. done.
Qed.

Lemma stored_blocks_of_keys s keys :
  mem_inv s -> (forall a r d, (a, r, d) ∈ keys -> (a, r, d) ∈ ms_digests_by_authorities s) ->
  exists bs, mapM unwrap ((fun '(a, r, d) => ms_blocks s !! (r, a, d)) <$> keys) = Ok bs
    /\ keys = (fun b => (author b, round b, vb_digest b)) <$> bs
    /\ forall b, b ∈ bs <-> ms_blocks s !! ref_key (reference b) = Some b
                           /\ (author b, round b, vb_digest b) ∈ keys.
Proof.
  intros Hs. induction keys as [|[[a r] d] keys IH]; intros Hk.
  - exists []. split_and!; [done|done|]. set_solver.
  - destruct IH as (bs & E & Hkeys & Hbs); [set_solver|].
    destruct (proj1 (mi_digests s Hs a r d)) as [b Hb]; [apply Hk; set_solver|].
    pose proof (mi_key s Hs _ _ Hb) as Hkey. unfold ref_key in Hkey. simpl in Hkey.
    injection Hkey as Hr Ha Hd. exists (b :: bs). cbn. rewrite Hb. cbn. cbn in E.
    rewrite E. split_and!; [done|apply (f_equal2 cons); [congruence|done]|].
    intros b'. rewrite !elem_of_cons, Hbs. split.
    + intros [->|[? ?]]; [|tauto]. split; [|left; congruence].
      unfold ref_key. simpl. by rewrite <- Hr, <- Ha, <- Hd.
    + intros [Hb' [[= E1 E2 E3]|?]]; [|tauto]. left.
      unfold ref_key in Hb'. simpl in Hb'. rewrite E1, E2, E3 in Hb'. congruence.
Qed.

(** Scanning the in-memory store by author.  On a store built by writes
    and for rounds in order, the scan of [start_round, end_round) succeeds and
    returns the first [limit] (one when the limit is zero) of the stored
    blocks of that author in those rounds, each once, by round and digest. *)
Theorem mem_store_scan_correct (s : MemStore) (a lo hi limit : N) :
  mem_inv s -> lo <= hi ->
  exists bs,
    mem_store_scan_blocks_by_author_in_range s a lo hi limit
    = Ok (take (N.to_nat (N.max limit 1)) bs)
    /\ (forall b, b ∈ bs <-> author_blocks s a lo hi b)
    /\ NoDup (reference <$> bs)
    /\ StronglySorted (fun b1 b2 => round b1 <= round b2) bs.
Proof.
  intros Hs Hle. unfold mem_store_scan_blocks_by_author_in_range. rewrite iter_take_take.
  set (inside := fun k => _ && _). set (keys := btree_range inside _).
  destruct (stored_blocks_of_keys s keys Hs) as (bs & E & Hkeys & Hbs).
  { intros a' r d. by intros [_ ?]%elem_of_btree_range. }
  assert (forall a' r d, inside (a', r, d) = true <-> a' = a /\ lo <= r < hi) as Hin.
  { intros a' r d. unfold inside. rewrite andb_true_iff, negb_true_iff, <- not_true_iff_false,
      !triple_leb. unfold DIGEST_MIN. lia. }
  exists bs. rewrite (proj2 (triple_leb a lo DIGEST_MIN a hi DIGEST_MIN)) by lia. cbn [orb assert_that mbind outcome_bind].
  unfold mem_store_read_blocks. split_and!.
  - rewrite <- list_fmap_compose, <- (mapM_unwrap_take _ _ _ _ E). f_equal.
    apply list_fmap_ext. by intros i [[??]?] _.
  - intros b. rewrite Hbs. unfold author_blocks, keys. rewrite elem_of_btree_range, Hin, (mi_digests s Hs).
    unfold ref_key. simpl. split; [tauto|]. intros (Hb & Ha & Hr). rewrite Ha in Hb |- *. by rewrite Hb.
  - apply (NoDup_fmap_1 (fun r => (br_author r, br_round r, br_digest r))).
    rewrite <- list_fmap_compose. change (NoDup ((fun b => (author b, round b, vb_digest b)) <$> bs)).
    rewrite <- Hkeys. apply list_filter_NoDup, btree_iter_NoDup.
  - assert (StronglySorted (fun k1 k2 => key_leb k1 k2 = true) keys) as Hsort
      by apply list_filter_sorted, btree_iter_sorted.
    rewrite Hkeys in Hsort.
    assert (forall b, b ∈ bs -> author b = a) as Ha.
    { intros b Hb. apply Hbs in Hb as [_ Hb]. apply elem_of_btree_range in Hb as [Hb _].
      apply Hin in Hb. tauto. }
    clear - Hsort Ha. induction bs as [|b bs IH]; [constructor|].
    inversion Hsort as [|?? Hs Hall]; subst. constructor; [apply IH; set_solver|].
    apply Forall_forall. intros b' Hb'. rewrite Forall_forall in Hall.
    specialize (Hall _ (list_elem_of_fmap_2 _ _ _ Hb')).
    apply triple_leb in Hall. pose proof (Ha b ltac:(set_solver)).
    pose proof (Ha b' ltac:(set_solver)). lia.
Qed.

Lemma mem_store_scan_correct_witness :
  let s := mem_store_write mem_store_new
             (write_batch_new [test_block 3 1 0 5 []; test_block 1 1 0 6 []; test_block 2 0 0 7 [];
                               test_block 2 1 0 8 []] [] [] []) in
  exists bs, mem_store_scan_blocks_by_author_in_range s 1 1 3 9 = Ok (take 9 bs)
    /\ (forall b, b ∈ bs <-> author_blocks s 1 1 3 b)
    /\ NoDup (reference <$> bs) /\ StronglySorted (fun b1 b2 => round b1 <= round b2) bs.
Proof.
  intros s. apply (mem_store_scan_correct s 1 1 3 9); [|lia].
  apply mem_inv_write, mem_inv_new.
Defined.

(** The scan of the last blocks of an author counts blocks, not rounds:
    asked for the blocks of the last two rounds of an author that equivocated
    in round 2, the in-memory store returns the two blocks of round 2 and
    leaves out the block of round 1. *)
Example mem_store_scan_last_counts_blocks :
  let b1 := test_block 1 1 0 6 [] in
  let b2 := test_block 2 1 0 7 [] in
  let b2' := test_block 2 1 0 8 [] in
  let s := mem_store_write mem_store_new (write_batch_new [b1; b2; b2'] [] [] []) in
  mem_store_scan_last_blocks_by_author s 1 2 None = Ok [b2; b2'].
Proof. vm_compute. reflexivity. Qed.
