(* ===== verification/LeaderScoring.v ===== *)
(** * Leader scoring

    Models [crates/consensus/src/leader_scoring.rs]: the votes for committed
    leaders collected from committed sub-DAGs, and the reputation scores
    computed from the stake of the blocks that strongly link to the votes. *)

From S2P Require Import Prelude Committee Context Block StakeAggregator Commit.

(** [ReputationScores::highest_score] *)
Definition highest_score (s : ReputationScores) : N :=
  foldr N.max 0 (scores_per_authority s).

Definition authorities_by_score (context : Context) (s : ReputationScores)
    : outcome (list (N * N)) :=
  mapM (fun '(index, score) =>
          i ← unwrap (to_authority_index (committee context) index);
          Ok (i, score))
    (imap (fun i score => (N.of_nat i, score)) (scores_per_authority s)).

Record ScoringSubdag := mkScoringSubdag {
  ss_commit_range : option CommitRange;
  ss_leaders : gset BlockRef;
  ss_votes : gmap BlockRef (StakeAggregator QuorumThreshold);
}.

Definition scoring_subdag_new : ScoringSubdag :=
  {| ss_commit_range := None; ss_leaders := ∅; ss_votes := ∅ |}.

(** The body of the loop over the ancestors of a block. *)
Definition score_ancestor (c : Committee) (leaders : gset BlockRef) (block : VerifiedBlock)
    (votes : gmap BlockRef (StakeAggregator QuorumThreshold)) (ancestor : BlockRef)
    : outcome (gmap BlockRef (StakeAggregator QuorumThreshold)) :=
  if negb (br_round ancestor =? saturating_sub (round block) 1) then Ok votes
  else
    votes ←
      (if bool_decide (ancestor ∈ leaders) then
         _ ← assert_that (bool_decide (votes !! reference block = None));
         Ok (<[reference block := stake_aggregator_new]> votes)
       else Ok votes);
    match votes !! ancestor with
    | Some stake =>
        res ← stake_aggregator_add stake (author block) c;
        Ok (<[ancestor := res.1]> votes)
    | None => Ok votes
    end.

Definition score_block (c : Committee) (leaders : gset BlockRef)
    (votes : gmap BlockRef (StakeAggregator QuorumThreshold)) (block : VerifiedBlock)
    : outcome (gmap BlockRef (StakeAggregator QuorumThreshold)) :=
  foldM (score_ancestor c leaders block) (ancestors block) votes.

Definition add_subdag (c : Committee) (self : ScoringSubdag) (subdag : CommittedSubDag)
    : outcome ScoringSubdag :=
  let index := cr_index (sd_commit_ref subdag) in
  range ← match ss_commit_range self with
          | None => Ok (commit_range_new index index)
          | Some commit_range => commit_range_extend_to commit_range index
          end;
  let leaders := {[sd_leader subdag]} ∪ ss_leaders self in
  votes ← foldM (score_block c leaders) (sd_blocks subdag) (ss_votes self);
  Ok {| ss_commit_range := Some range; ss_leaders := leaders; ss_votes := votes |}.

Definition add_subdags (c : Committee) (self : ScoringSubdag)
    (committed_subdags : list CommittedSubDag) : outcome ScoringSubdag :=
  foldM (add_subdag c) committed_subdags self.

Definition distributed_votes_scores (c : Committee) (self : ScoringSubdag) : outcome (list N) :=
  foldM (fun scores '(vote, stake_agg) =>
           score ← vec_index scores (br_author vote);
           vec_store scores (br_author vote) (u64_add score (agg_stake stake_agg)))
    (btree_map_iter (ss_votes self))
    (replicate (N.to_nat (committee_size c)) 0).

Definition calculate_distributed_vote_scores (c : Committee) (self : ScoringSubdag)
    : outcome ReputationScores :=
  scores ← distributed_votes_scores c self;
  range ← unwrap (ss_commit_range self);
  Ok {| scores_per_authority := scores; rs_commit_range := range |}.

Definition scored_subdags_count (self : ScoringSubdag) : outcome N :=
  match ss_commit_range self with
  | Some commit_range => commit_range_size commit_range
  | None => Ok 0
  end.

Definition scoring_is_empty (self : ScoringSubdag) : bool :=
  bool_decide (ss_leaders self = ∅) && bool_decide (ss_votes self = ∅)
  && bool_decide (ss_commit_range self = None).

Definition scoring_clear (self : ScoringSubdag) : ScoringSubdag := scoring_subdag_new.

(* ------------------------------------------------------------------ *)
(** ** The scores are the stakes behind the votes *)

(** Votes of committee members, each with an exact aggregator. *)
Definition votes_wf (c : Committee) (m : gmap BlockRef (StakeAggregator QuorumThreshold)) : Prop :=
  map_Forall (fun r agg => is_valid_index c (br_author r) = true /\ agg_wf c agg) m.

Definition score_of (a : N) (l : list (BlockRef * StakeAggregator QuorumThreshold)) : N :=
  sum_N ((fun kv => agg_stake kv.2) <$> filter (fun kv => br_author kv.1 = a) l).

(** The score of authority [a]: the stake that strongly links to its votes. *)
Definition score_spec (self : ScoringSubdag) (a : N) : N :=
  score_of a (map_to_list (ss_votes self)).

Lemma score_of_perm a l1 l2 : l1 ≡ₚ l2 -> score_of a l1 = score_of a l2.
Proof. intros H. unfold score_of. apply sum_N_perm. by rewrite H. Qed.

Lemma score_of_snoc a l kv :
  score_of a (l ++ [kv])
  = score_of a l + (if decide (br_author kv.1 = a) then agg_stake kv.2 else 0).
Proof.
  unfold score_of. rewrite filter_app, fmap_app, sum_N_app, filter_cons, filter_nil.
  case_decide; cbn; lia.
Qed.

Lemma scores_fold (c : Committee) (l : list (BlockRef * StakeAggregator QuorumThreshold)) :
  (forall kv, kv ∈ l -> is_valid_index c (br_author kv.1) = true) ->
  (forall a, score_of a l <= u64_MAX) ->
  exists scores,
    foldM (fun scores '(vote, stake_agg) =>
             score ← vec_index scores (br_author vote);
             vec_store scores (br_author vote) (u64_add score (agg_stake stake_agg)))
      l (replicate (N.to_nat (committee_size c)) 0) = Ok scores
    /\ length scores = N.to_nat (committee_size c)
    /\ forall a, is_valid_index c a = true -> scores !! N.to_nat a = Some (score_of a l).
Proof.
  induction l as [|[v agg] l IH] using rev_ind; intros Hv Hmax.
  - exists (replicate (N.to_nat (committee_size c)) 0). simpl. rewrite length_replicate.
    split_and!; [done|done|]. intros a Ha. apply lookup_replicate_2.
    unfold is_valid_index in Ha. apply N.ltb_lt in Ha. lia.
  - destruct IH as (scores & E & Hlen & Hs).
    { intros kv Hkv. apply Hv. set_solver. }
    { intros a. specialize (Hmax a). rewrite score_of_snoc in Hmax. lia. }
    specialize (Hv (v, agg) ltac:(set_solver)). simpl in Hv.
    pose proof (Hmax (br_author v)) as Hm. rewrite score_of_snoc, decide_True in Hm by done.
    simpl in Hm. rewrite foldM_app, E. simpl. unfold vec_index, vec_store.
    rewrite (Hs _ Hv). simpl.
    assert (N.to_nat (br_author v) < length scores)%nat as Hlt.
    { rewrite Hlen. unfold is_valid_index in Hv. apply N.ltb_lt in Hv. lia. }
    rewrite u64_add_small by lia.
    exists (<[N.to_nat (br_author v) := score_of (br_author v) l + agg_stake agg]> scores).
    split_and!; [done|by rewrite length_insert|].
    intros a Ha. rewrite score_of_snoc. simpl. case_decide as Ea.
    + subst a. by rewrite list_lookup_insert_eq.
    + rewrite list_lookup_insert_ne by lia. rewrite (Hs _ Ha). f_equal. lia.
Qed.

Lemma score_ancestor_wf c leaders block m anc m' :
  committee_wf c -> is_valid_index c (author block) = true -> votes_wf c m ->
  score_ancestor c leaders block m anc = Ok m' -> votes_wf c m'.
Proof.
  intros Hc Hv Hm. unfold score_ancestor. destruct (negb _); [by intros [= <-]|].
  intros (m1 & E1 & E2)%bind_Ok.
  assert (votes_wf c m1) as H1.
  { case_bool_decide; [|by injection E1 as <-].
    apply bind_Ok in E1 as ([] & _ & E1). injection E1 as <-.
    apply map_Forall_insert_2; [|done]. split; [done|by apply agg_new_wf]. }
  destruct (m1 !! anc) as [agg|] eqn:Ea; [|by injection E2 as <-].
  apply bind_Ok in E2 as ([agg' r] & E2 & E3). injection E3 as <-.
  destruct (map_Forall_lookup_1 _ _ _ _ H1 Ea) as [Hanc Hagg].
  destruct (add_Ok c Hc agg (author block) Hagg Hv) as (s' & E & _ & Hs').
  rewrite E in E2. injection E2 as <- _. apply map_Forall_insert_2; [|done]. done.
Qed.

Definition subdags_valid (c : Committee) (l : list CommittedSubDag) : Prop :=
  forall sd b, sd ∈ l -> b ∈ sd_blocks sd -> is_valid_index c (author b) = true.

Lemma add_subdags_wf c l self self' :
  committee_wf c -> subdags_valid c l -> votes_wf c (ss_votes self) ->
  add_subdags c self l = Ok self' -> votes_wf c (ss_votes self').
Proof.
  intros Hc Hl Hw. unfold add_subdags.
  apply (foldM_inv (fun s => votes_wf c (ss_votes s))); [done|]. clear Hw self self'.
  intros sd self self' Hsd Hw. unfold add_subdag.
  intros (r & _ & (m & Em & [= <-])%bind_Ok)%bind_Ok. simpl. revert Em.
  apply (foldM_inv (votes_wf c)); [done|]. intros b m1 m2 Hb H1. unfold score_block.
  apply (foldM_inv (votes_wf c)); [done|]. intros anc m3 m4 _ H3.
  apply score_ancestor_wf; [done| |done]. by eapply Hl.
Qed.


(** Calculating the scores never panics, even when sums wrap around. *)
Lemma distributed_votes_scores_total c self :
  votes_wf c (ss_votes self) ->
  exists scores, distributed_votes_scores c self = Ok scores
    /\ length scores = N.to_nat (committee_size c).
Proof.
  intros Hw. unfold distributed_votes_scores.
  apply (foldM_total (fun scores => length scores = N.to_nat (committee_size c))).
  { by rewrite length_replicate. }
  intros [vote agg] scores Hin Hlen. apply elem_of_btree_map_iter in Hin.
  destruct (Hw _ _ Hin) as [Hv _]. unfold is_valid_index in Hv. apply N.ltb_lt in Hv.
  destruct (lookup_lt_is_Some_2 scores (N.to_nat (br_author vote))) as [x Hx]; [lia|].
  unfold vec_index, vec_store. rewrite Hx. simpl. eexists. split; [done|]. by rewrite length_insert.
Qed.

(** Reputation scores are exact.  After scoring any committed sub-DAGs
    whose blocks come from committee members, calculating the scores does not
    panic, gives one score per authority, and the score of an authority is the
    sum, over its votes, of the stake of the distinct authorities whose blocks
    strongly link to the vote (sums that fit in 64 bits). *)
Theorem distributed_votes_scores_exact (c : Committee) (l : list CommittedSubDag)
    (self : ScoringSubdag) :
  committee_wf c -> subdags_valid c l ->
  add_subdags c scoring_subdag_new l = Ok self ->
  (forall a, score_spec self a <= u64_MAX) ->
  exists scores, distributed_votes_scores c self = Ok scores
    /\ length scores = N.to_nat (committee_size c)
    /\ forall a, is_valid_index c a = true ->
         scores !! N.to_nat a = Some (score_spec self a)
         /\ score_spec self a
            = sum_N ((fun kv => stake_of c (votes kv.2))
                     <$> filter (fun kv => br_author kv.1 = a) (map_to_list (ss_votes self))).
Proof.
  intros Hc Hl Hadd Hmax.
  assert (votes_wf c (ss_votes self)) as Hw.
  { eapply add_subdags_wf; [done|done| |done]. apply map_Forall_empty. }
  assert (btree_map_iter (ss_votes self) ≡ₚ map_to_list (ss_votes self)) as Hp
    by apply stable_sort_perm.
  destruct (scores_fold c (btree_map_iter (ss_votes self))) as (scores & E & Hlen & Hs).
  - intros [k agg] Hkv. apply elem_of_btree_map_iter in Hkv. exact (proj1 (Hw _ _ Hkv)).
  - intros a. rewrite (score_of_perm _ _ _ Hp). apply Hmax.
  - exists scores. split_and!; [done|done|]. intros a Ha. split.
    + rewrite (Hs a Ha), (score_of_perm _ _ _ Hp). done.
    + unfold score_spec, score_of. f_equal. apply list_fmap_ext. intros i [k agg] Hi. simpl.
      apply list_elem_of_lookup_2, list_elem_of_filter in Hi as [_ Hi].
      apply elem_of_map_to_list in Hi. apply agg_exact, (proj2 (Hw _ _ Hi)).
Qed.

Lemma distributed_votes_scores_exact_witness :
  let b1 := test_block 1 0 0 10 [] in
  let v := test_block 2 1 0 11 [reference b1] in
  let w := test_block 3 2 0 12 [reference v] in
  let sd1 := committed_sub_dag_new (reference b1) [b1] 0 (mkCommitRef 1 0) in
  let sd2 := committed_sub_dag_new (reference w) [v; w] 0 (mkCommitRef 2 0) in
  exists self scores, add_subdags (test_committee 4) scoring_subdag_new [sd1; sd2] = Ok self
    /\ distributed_votes_scores (test_committee 4) self = Ok scores
    /\ length scores = 4%nat /\ score_spec self 1 = 1.
Proof.
  intros b1 v w sd1 sd2.
  destruct (add_subdags (test_committee 4) scoring_subdag_new [sd1; sd2]) as [self| |] eqn:E;
    [|vm_compute in E; discriminate E..].
  destruct (distributed_votes_scores_exact (test_committee 4) [sd1; sd2] self)
    as (scores & Es & Hlen & _).
  - exact test_committee_4_wf.
  - intros sd b Hsd Hb. repeat (apply elem_of_cons in Hsd as [->|Hsd];
      [repeat (apply elem_of_cons in Hb as [->|Hb]; [reflexivity|]); inversion Hb|]).
    inversion Hsd.
  - exact E.
  - vm_compute in E. injection E as <-. intros a. unfold score_spec, score_of.
    etrans; [apply (sum_N_filter_le _ (fun kv => agg_stake kv.2))|by vm_compute].
  - exists self, scores. split_and!; [done|done|exact Hlen|].
    vm_compute in E. injection E as <-. reflexivity.
Defined.

(** The authorities with their scores, in index order. *)
Definition scored (scores : list N) : list (N * N) :=
  imap (fun i score => (N.of_nat i, score)) scores.

Lemma elem_of_scored scores x :
  x ∈ scored scores <-> scores !! N.to_nat x.1 = Some x.2.
Proof.
  unfold scored. rewrite list_elem_of_lookup. setoid_rewrite list_lookup_imap. split.
  - intros [i Hi]. destruct (scores !! i) eqn:E; [|done]. simpl in Hi. injection Hi as <-. simpl.
    by rewrite Nat2N.id.
  - intros Hx. exists (N.to_nat x.1). rewrite Hx. simpl. rewrite N2Nat.id. by destruct x.
Qed.

Lemma scored_NoDup scores : NoDup (scored scores).*1.
Proof.
  unfold scored. rewrite fmap_imap. apply NoDup_alt. intros i j x Hi Hj.
  rewrite list_lookup_imap in Hi, Hj. destruct (scores !! i), (scores !! j); try done.
  simpl in *. injection Hi as <-. injection Hj as Hj. by apply Nat2N.inj in Hj.
Qed.
