(* ===== verification/Ancestor.v ===== *)
(** * Ancestor selection

    Models ancestor.rs: which authorities' blocks the node includes as
    ancestors of its own.  Authorities with low propagation scores are
    excluded, up to a bound on their stake, and each change locks the state
    of the authority for some rounds. *)

From S2P Require Import Prelude Committee StakeScan Context Block StakeAggregator Commit LeaderScoring RoundTracker.

Inductive AncestorState :=
  | Include
  | Exclude (score : N).

Record AncestorInfo := mkAncestorInfo {
  ai_state : AncestorState;
  lock_until_round : N;
}.

Definition ancestor_info_new : AncestorInfo := mkAncestorInfo Include 0.

Definition is_locked (self : AncestorInfo) (current_clock_round : N) : bool :=
  current_clock_round <=? lock_until_round self.

Record StateTransition := mkStateTransition {
  st_authority_id : N;
  st_score : N;
  st_stake : N;
  st_high_quorum_round : N;
}.

Record AncestorStateManager := mkAncestorStateManager {
  am_context : Context;
  state_map : list AncestorInfo;
  excluded_nodes_stake_threshold : N;
  total_excluded_stake : N;
  propagation_scores : ReputationScores;
}.

Definition STATE_LOCK_CLOCK_ROUNDS : N := 450.
Definition SCORE_EXCLUSION_THRESHOLD_PERCENTAGE : N := 20.

(** [ReputationScores::default()] *)
Definition reputation_scores_default : ReputationScores := mkReputationScores [] (mkCommitRange 0 0).

Definition ancestor_state_manager_new (context : Context) : AncestorStateManager :=
  let excluded_nodes_stake_threshold_percentage :=
    u64_mul 2 (bad_nodes_stake_threshold (protocol_config context)) / 3 in
  {| am_context := context;
     state_map := replicate (N.to_nat (committee_size (committee context))) ancestor_info_new;
     excluded_nodes_stake_threshold :=
       u64_mul excluded_nodes_stake_threshold_percentage (c_total_stake (committee context)) / 100;
     total_excluded_stake := 0;
     propagation_scores := reputation_scores_default |}.

Definition set_propagation_scores (self : AncestorStateManager) (scores : ReputationScores) : AncestorStateManager :=
  {| am_context := am_context self;
     state_map := state_map self;
     excluded_nodes_stake_threshold := excluded_nodes_stake_threshold self;
     total_excluded_stake := total_excluded_stake self;
     propagation_scores := scores |}.

Definition get_ancestor_states (self : AncestorStateManager) : list AncestorState := ai_state <$> state_map self.

Definition calculate_network_high_quorum_round (self : AncestorStateManager)
    (accepted_quorum_rounds : list QuorumRound) : N :=
  let c := committee (am_context self) in
  default 0 (reach_stake (c_quorum_threshold c) 0
               (stable_sort pair_leb (zip accepted_quorum_rounds.*2 (stakes (c_authorities c))))).

Definition apply_state_change (current_clock_round : N) (self : AncestorStateManager)
    (change : StateTransition * AncestorState) : outcome AncestorStateManager :=
  let '(transition, new_state) := change in
  _ ← committee_authority (committee (am_context self)) (st_authority_id transition);
  ancestor_info ← vec_index (state_map self) (st_authority_id transition);
  total ← match ai_state ancestor_info, new_state with
          | Exclude _, Include =>
              _ ← assert_that (st_stake transition <=? total_excluded_stake self);
              Ok (total_excluded_stake self - st_stake transition)
          | Include, Exclude _ => Ok (u64_add (total_excluded_stake self) (st_stake transition))
          | _, _ => Panic
          end;
  states ← vec_store (state_map self) (st_authority_id transition)
             (mkAncestorInfo new_state (u32_add current_clock_round STATE_LOCK_CLOCK_ROUNDS));
  Ok {| am_context := am_context self;
        state_map := states;
        excluded_nodes_stake_threshold := excluded_nodes_stake_threshold self;
        total_excluded_stake := total;
        propagation_scores := propagation_scores self |}.

(** One authority of the loop that collects the transitions: those to
    include and those to exclude. *)
Definition collect_transition (self : AncestorStateManager) (accepted_quorum_rounds : list QuorumRound)
    (current_clock_round network_high_quorum_round low_score_threshold : N)
    (acc : list StateTransition * list StateTransition) (idx_score : N * N)
    : outcome (list StateTransition * list StateTransition) :=
  let '(exclude_to_include, include_to_exclude) := acc in
  let '(idx, score) := idx_score in
  let c := committee (am_context self) in
  authority_id ← unwrap (to_authority_index c idx);
  ancestor_info ← vec_index (state_map self) idx;
  quorum_round ← vec_index accepted_quorum_rounds idx;
  authority ← committee_authority c authority_id;
  let transition := mkStateTransition authority_id score (a_stake authority) quorum_round.2 in
  if is_locked ancestor_info current_clock_round then Ok acc
  else
    Ok match ai_state ancestor_info with
       | Include => if score <=? low_score_threshold
                    then (exclude_to_include, include_to_exclude ++ [transition]) else acc
       | Exclude _ => if (low_score_threshold <? score) || (network_high_quorum_round <=? quorum_round.2)
                      then (exclude_to_include ++ [transition], include_to_exclude) else acc
       end.

(** An exclusion is applied only within the bound on the stake. *)
Definition try_exclude (current_clock_round : N) (self : AncestorStateManager) (transition : StateTransition)
    : outcome AncestorStateManager :=
  if u64_add (total_excluded_stake self) (st_stake transition) <=? excluded_nodes_stake_threshold self
  then apply_state_change current_clock_round self (transition, Exclude (st_score transition))
  else Ok self.

Definition update_all_ancestors_state (self : AncestorStateManager) (threshold_clock_round : N)
    (accepted_quorum_rounds : list QuorumRound) : outcome AncestorStateManager :=
  let network_high_quorum_round := calculate_network_high_quorum_round self accepted_quorum_rounds in
  let current_clock_round := threshold_clock_round in
  let low_score_threshold :=
    u64_mul (highest_score (propagation_scores self)) SCORE_EXCLUSION_THRESHOLD_PERCENTAGE / 100 in
  collected ← foldM (collect_transition self accepted_quorum_rounds current_clock_round
                       network_high_quorum_round low_score_threshold)
                (imap (fun i score => (N.of_nat i, score)) (scores_per_authority (propagation_scores self)))
                ([], []);
  let '(exclude_to_include, include_to_exclude) := collected in
  self ← foldM (fun self transition => apply_state_change current_clock_round self (transition, Include))
           exclude_to_include self;
  foldM (try_exclude current_clock_round)
    (stable_sort (fun a b => st_score a <=? st_score b) include_to_exclude) self.

(* ------------------------------------------------------------------ *)
(** ** Specification *)

Definition is_excluded (info : AncestorInfo) : bool :=
  match ai_state info with Include => false | Exclude _ => true end.

Definition info_at (m : AncestorStateManager) (a : N) : option AncestorInfo := state_map m !! N.to_nat a.

(** The stake of the excluded authorities. *)
Definition excluded_stake (m : AncestorStateManager) : N :=
  weigh (fun i => match info_at m i with Some info => is_excluded info | None => false end) 0
    (stakes (c_authorities (committee (am_context m)))).

(** The running total is the stake of the excluded authorities, within the bound. *)
Record ancestor_inv (m : AncestorStateManager) : Prop := {
  an_committee : committee_wf (committee (am_context m));
  an_length : length (state_map m) = length (c_authorities (committee (am_context m)));
  an_total : total_excluded_stake m = excluded_stake m;
  an_bound : total_excluded_stake m <= excluded_nodes_stake_threshold m;
}.

Section change.
Context (m : AncestorStateManager) (clock : N).
Notation c := (committee (am_context m)).

(** The manager with the state of [a] changed. *)
Definition changed (a : N) (new_state : AncestorState) (total : N) : AncestorStateManager :=
  {| am_context := am_context m;
     state_map := <[N.to_nat a := mkAncestorInfo new_state (u32_add clock STATE_LOCK_CLOCK_ROUNDS)]> (state_map m);
     excluded_nodes_stake_threshold := excluded_nodes_stake_threshold m;
     total_excluded_stake := total;
     propagation_scores := propagation_scores m |}.

Lemma changed_info a st total x info :
  info_at m a = Some info ->
  info_at (changed a st total) x
  = if decide (x = a) then Some (mkAncestorInfo st (u32_add clock STATE_LOCK_CLOCK_ROUNDS)) else info_at m x.
Proof.
  unfold info_at. intros Ha. simpl. destruct (decide (x = a)) as [->|Hne].
  - apply list_lookup_insert_eq. by eapply lookup_lt_Some.
  - apply list_lookup_insert_ne. lia.
Qed.

(** Excluding an included authority adds its stake. *)
Lemma excluded_stake_add a score total info :
  is_valid_index c a = true -> info_at m a = Some info -> is_excluded info = false ->
  excluded_stake (changed a (Exclude score) total) = stake_at c a + excluded_stake m.
Proof.
  intros Hv Ha Hi. unfold excluded_stake. simpl.
  apply N.ltb_lt in Hv. unfold committee_size in Hv.
  destruct (lookup_lt_is_Some_2 (stakes (c_authorities c)) (N.to_nat a)) as [w Hw].
  { unfold stakes. rewrite length_fmap. lia. }
  unfold stake_at. rewrite Hw. simpl. rewrite <- (weigh_insert _ a 0 _ w); [|lia|by rewrite N.sub_0_r|by rewrite Ha].
  apply weigh_ext. intros j _ _. rewrite (changed_info _ _ _ _ _ Ha).
  destruct (N.eqb_spec j a) as [->|Hne]; [by rewrite decide_True|by rewrite decide_False].
Qed.

(** Including an excluded one takes it away. *)
Lemma excluded_stake_sub a total info :
  is_valid_index c a = true -> info_at m a = Some info -> is_excluded info = true ->
  excluded_stake m = stake_at c a + excluded_stake (changed a Include total).
Proof.
  intros Hv Ha Hi. unfold excluded_stake. simpl.
  apply N.ltb_lt in Hv. unfold committee_size in Hv.
  destruct (lookup_lt_is_Some_2 (stakes (c_authorities c)) (N.to_nat a)) as [w Hw].
  { unfold stakes. rewrite length_fmap. lia. }
  unfold stake_at. rewrite Hw. simpl. rewrite <- (weigh_insert _ a 0 _ w); [|lia|by rewrite N.sub_0_r|].
  - apply weigh_ext. intros j _ _. rewrite (changed_info _ _ _ _ _ Ha).
    destruct (N.eqb_spec j a) as [->|Hne]; [by rewrite Ha|by rewrite decide_False].
  - rewrite (changed_info _ _ _ _ _ Ha). by rewrite decide_True.
Qed.

Lemma apply_include_Ok t info :
  ancestor_inv m -> is_valid_index c (st_authority_id t) = true -> st_stake t = stake_at c (st_authority_id t) ->
  info_at m (st_authority_id t) = Some info -> is_excluded info = true ->
  exists m', apply_state_change clock m (t, Include) = Ok m' /\ ancestor_inv m'
    /\ exists total, m' = changed (st_authority_id t) Include total.
Proof.
  intros [Hc Hl Ht Hb] Hv Hst Ha Hi. unfold apply_state_change.
  destruct (committee_authority_Ok c _ Hv) as [au ->]. cbn [mbind outcome_bind].
  pose proof (excluded_stake_sub (st_authority_id t) (total_excluded_stake m - st_stake t) info Hv Ha Hi) as Hs.
  unfold vec_index, vec_store. unfold info_at in Ha. rewrite Ha. cbn [unwrap mbind outcome_bind].
  unfold is_excluded in Hi. destruct (ai_state info); [done|].
  rewrite (proj2 (N.leb_le _ _)) by lia. cbn [assert_that mbind outcome_bind].
  eexists. split; [done|]. split; [|by eexists].
  constructor; simpl; [done|by rewrite length_insert| |lia].
  change (excluded_stake _) with (excluded_stake (changed (st_authority_id t) Include (total_excluded_stake m - st_stake t))).
  lia.
Qed.

Lemma apply_exclude_Ok t info :
  ancestor_inv m -> is_valid_index c (st_authority_id t) = true -> st_stake t = stake_at c (st_authority_id t) ->
  info_at m (st_authority_id t) = Some info -> is_excluded info = false ->
  total_excluded_stake m + st_stake t <= excluded_nodes_stake_threshold m ->
  exists m', apply_state_change clock m (t, Exclude (st_score t)) = Ok m' /\ ancestor_inv m'
    /\ m' = changed (st_authority_id t) (Exclude (st_score t)) (total_excluded_stake m + st_stake t).
Proof.
  intros [Hc Hl Ht Hb] Hv Hst Ha Hi Hle. unfold apply_state_change.
  destruct (committee_authority_Ok c _ Hv) as [au ->]. cbn [mbind outcome_bind].
  pose proof (excluded_stake_add (st_authority_id t) (st_score t) (total_excluded_stake m + st_stake t) info Hv Ha Hi) as Hs.
  assert (total_excluded_stake m + st_stake t <= u64_MAX) as Hmax.
  { pose proof (wf_total_u64 _ Hc). pose proof (wf_total _ Hc) as Htot.
    pose proof (weigh_le (fun i => match info_at (changed (st_authority_id t) (Exclude (st_score t))
       (total_excluded_stake m + st_stake t)) i with Some info => is_excluded info | None => false end) 0
       (stakes (c_authorities c))) as Hw.
    change (weigh _ _ _) with (excluded_stake (changed (st_authority_id t) (Exclude (st_score t))
       (total_excluded_stake m + st_stake t))) in Hw. lia. }
  unfold vec_index, vec_store. unfold info_at in Ha. rewrite Ha. cbn [unwrap mbind outcome_bind].
  unfold is_excluded in Hi. destruct (ai_state info); [|done]. cbn [mbind outcome_bind].
  rewrite u64_add_small by done. eexists. split; [done|]. split; [|done].
  constructor; simpl; [done|by rewrite length_insert| |done].
  change (excluded_stake _) with (excluded_stake (changed (st_authority_id t) (Exclude (st_score t))
    (total_excluded_stake m + st_stake t))). lia.
Qed.
End change.

Lemma total_fits m a info :
  ancestor_inv m -> is_valid_index (committee (am_context m)) a = true -> info_at m a = Some info ->
  is_excluded info = false ->
  total_excluded_stake m + stake_at (committee (am_context m)) a <= u64_MAX.
Proof.
  intros [Hc Hl Ht Hb] Hv Ha Hi. pose proof (wf_total_u64 _ Hc). pose proof (wf_total _ Hc).
  pose proof (excluded_stake_add m 0 a 0 0 info Hv Ha Hi) as Hs.
  pose proof (weigh_le (fun i => match info_at (changed m 0 a (Exclude 0) 0) i with
    Some info => is_excluded info | None => false end) 0 (stakes (c_authorities (committee (am_context m))))) as Hw.
  change (weigh _ _ _) with (excluded_stake (changed m 0 a (Exclude 0) 0)) in Hw. lia.
Qed.

(* ------------------------------------------------------------------ *)
(** ** The update *)

Definition low_score_threshold (m : AncestorStateManager) : N :=
  u64_mul (highest_score (propagation_scores m)) SCORE_EXCLUSION_THRESHOLD_PERCENTAGE / 100.

Section collect.
Context (m : AncestorStateManager) (rounds : list QuorumRound) (clock network low : N).
Notation c := (committee (am_context m)).

(** The transition of one authority, if it is unlocked and wants one. *)
Definition wants (include : bool) (x : N * N) : option StateTransition :=
  match info_at m x.1, rounds !! N.to_nat x.1 with
  | Some info, Some q =>
      let wanted := if include then is_excluded info && ((low <? x.2) || (network <=? q.2))
                    else negb (is_excluded info) && (x.2 <=? low) in
      if negb (is_locked info clock) && wanted
      then Some (mkStateTransition x.1 x.2 (stake_at c x.1) q.2) else None
  | _, _ => None
  end.

Lemma collect_one_Ok E I x :
  length (state_map m) = length (c_authorities c) -> length rounds = length (c_authorities c) ->
  is_valid_index c x.1 = true ->
  collect_transition m rounds clock network low (E, I) x
  = Ok (E ++ option_list (wants true x), I ++ option_list (wants false x)).
Proof.
  destruct x as [i score]. intros Hm Hr Hi. cbn [fst] in Hi.
  pose proof (proj1 (N.ltb_lt _ _) Hi) as Hlt. unfold committee_size in Hlt.
  destruct (lookup_lt_is_Some_2 (state_map m) (N.to_nat i)) as [info Hinfo]; [lia|].
  destruct (lookup_lt_is_Some_2 rounds (N.to_nat i)) as [q Hq]; [lia|].
  destruct (committee_authority_Ok c i Hi) as [au Eau].
  unfold collect_transition, to_authority_index, vec_index.
  rewrite (proj2 (N.ltb_lt _ _) Hlt). cbn [unwrap mbind outcome_bind]. rewrite Hinfo.
  cbn [unwrap mbind outcome_bind]. rewrite Hq. cbn [unwrap mbind outcome_bind]. rewrite Eau.
  cbn [unwrap mbind outcome_bind]. rewrite (stake_at_authority c i au Eau).
  unfold wants, info_at. cbn [fst snd]. rewrite Hinfo, Hq.
  destruct (is_locked info clock); cbn [negb andb option_list]; [by rewrite !app_nil_r|].
  unfold is_excluded. destruct (ai_state info); cbn [negb andb option_list].
  - destruct (score <=? low); cbn [option_list]; by rewrite !app_nil_r.
  - destruct (_ || _); cbn [option_list]; by rewrite !app_nil_r.
Qed.

Lemma collect_Ok l : forall E I,
  length (state_map m) = length (c_authorities c) -> length rounds = length (c_authorities c) ->
  (forall x, x ∈ l -> is_valid_index c x.1 = true) ->
  foldM (collect_transition m rounds clock network low) l (E, I)
  = Ok (E ++ omap (wants true) l, I ++ omap (wants false) l).
Proof.
  induction l as [|x l IH]; intros E I Hm Hr Hv; cbn [foldM].
  { simpl. by rewrite !app_nil_r. }
  rewrite collect_one_Ok by (done || apply Hv; left). cbn [mbind outcome_bind].
  rewrite IH by (done || (intros y Hy; apply Hv; by right)). cbn [omap list_omap].
  destruct (wants true x), (wants false x); cbn [option_list]; by rewrite <- ?(assoc_L (++)), ?app_nil_r.
Qed.

Lemma wants_Some include x t :
  wants include x = Some t ->
  st_authority_id t = x.1 /\ st_score t = x.2 /\ st_stake t = stake_at c x.1
  /\ exists info, info_at m x.1 = Some info /\ is_locked info clock = false /\ is_excluded info = include
       /\ (include = false -> x.2 <= low).
Proof.
  unfold wants. destruct (info_at m x.1) as [info|]; [|done]. destruct (rounds !! N.to_nat x.1) as [q|]; [|done].
  destruct (is_locked info clock) eqn:El; [done|]. cbn [negb andb]. destruct include.
  - destruct (is_excluded info) eqn:Ee; [|done]. cbn [andb]. destruct (_ || _); [|done]. intros [= <-]. simpl.
    split_and!; try done. exists info. by rewrite El, Ee.
  - destruct (is_excluded info) eqn:Ee; [done|]. cbn [negb andb].
    destruct (N.leb_spec x.2 low) as [Hle|]; [|done]. intros [= <-]. simpl.
    split_and!; try done. exists info. by rewrite El, Ee.
Qed.

Lemma wants_ids include l : (st_authority_id <$> omap (wants include) l) `sublist_of` l.*1.
Proof.
  induction l as [|x l IH]; [done|]. cbn. destruct (wants include x) as [t|] eqn:E; cbn.
  - destruct (wants_Some include x t E) as (-> & _). by apply sublist_skip.
  - by apply sublist_cons.
Qed.
End collect.

(** Changes of other authorities. *)
Definition rest_same (m m' : AncestorStateManager) : Prop :=
  am_context m' = am_context m /\ excluded_nodes_stake_threshold m' = excluded_nodes_stake_threshold m
  /\ propagation_scores m' = propagation_scores m.

(** Transitions to [Include]: all of them are applied. *)
Lemma include_all_Ok clock E : forall m,
  ancestor_inv m -> NoDup (st_authority_id <$> E) ->
  (forall t, t ∈ E -> is_valid_index (committee (am_context m)) (st_authority_id t) = true
     /\ st_stake t = stake_at (committee (am_context m)) (st_authority_id t)
     /\ exists info, info_at m (st_authority_id t) = Some info /\ is_excluded info = true) ->
  exists m', foldM (fun m t => apply_state_change clock m (t, Include)) E m = Ok m'
    /\ ancestor_inv m' /\ rest_same m m'
    /\ forall a, info_at m' a = if decide (a ∈ st_authority_id <$> E)
                               then Some (mkAncestorInfo Include (u32_add clock STATE_LOCK_CLOCK_ROUNDS))
                               else info_at m a.
Proof.
  induction E as [|t E IH]; intros m Hm Hnd HE.
  { exists m. by split_and!. }
  apply NoDup_cons in Hnd as [Hnt Hnd]. destruct (HE t) as (Hv & Hst & info & Hinfo & Hexc); [left|].
  destruct (apply_include_Ok m clock t info Hm Hv Hst Hinfo Hexc) as (m1 & E1 & Hm1 & total & Em1).
  destruct (IH m1 Hm1 Hnd) as (m' & E' & Hm' & (C' & T' & S') & Hinfo').
  { rewrite Em1. intros t' Ht'. destruct (HE t') as (? & ? & info' & Hi' & ?); [by right|]. split_and!; [done..|].
    exists info'. split; [|done]. rewrite (changed_info _ _ _ _ _ _ _ Hinfo), decide_False; [done|].
    intros Eid. apply Hnt. rewrite <- Eid. by apply list_elem_of_fmap_2. }
  exists m'. cbn [foldM]. rewrite E1. cbn [mbind outcome_bind]. subst m1. split_and!; [done..|].
  intros a. rewrite Hinfo', (changed_info _ _ _ _ _ _ _ Hinfo), fmap_cons.
  destruct (decide (a ∈ st_authority_id <$> E)); [by rewrite decide_True by (by right)|].
  destruct (decide (a = st_authority_id t)) as [->|Hne]; [by rewrite decide_True by left|].
  rewrite decide_False; [done|]. by intros [?|?]%elem_of_cons.
Qed.

(** Transitions to [Exclude]: as many as fit. *)
Lemma exclude_some_Ok clock I : forall m,
  ancestor_inv m -> NoDup (st_authority_id <$> I) ->
  (forall t, t ∈ I -> is_valid_index (committee (am_context m)) (st_authority_id t) = true
     /\ st_stake t = stake_at (committee (am_context m)) (st_authority_id t)
     /\ exists info, info_at m (st_authority_id t) = Some info /\ is_excluded info = false) ->
  exists m', foldM (try_exclude clock) I m = Ok m' /\ ancestor_inv m' /\ rest_same m m'
    /\ total_excluded_stake m <= total_excluded_stake m'
    /\ (forall a, info_at m' a = info_at m a
          \/ exists t, t ∈ I /\ st_authority_id t = a
               /\ info_at m' a = Some (mkAncestorInfo (Exclude (st_score t)) (u32_add clock STATE_LOCK_CLOCK_ROUNDS)))
    /\ forall t info, t ∈ I -> info_at m' (st_authority_id t) = Some info -> is_excluded info = false ->
         excluded_nodes_stake_threshold m < total_excluded_stake m' + st_stake t.
Proof.
  induction I as [|t I IH]; intros m Hm Hnd HI.
  { exists m. split_and!; try done; [by left|]. by intros t info ?%elem_of_nil. }
  apply NoDup_cons in Hnd as [Hnt Hnd]. destruct (HI t) as (Hv & Hst & info & Hinfo & Hinc); [left|].
  pose proof (total_fits m _ info Hm Hv Hinfo Hinc) as Hfit. rewrite <- Hst in Hfit.
  assert (forall t', t' ∈ I -> st_authority_id t' <> st_authority_id t) as Hother
    by (intros t' Ht' Eid; apply Hnt; rewrite <- Eid; by apply list_elem_of_fmap_2).
  assert (try_exclude clock m t
          = if total_excluded_stake m + st_stake t <=? excluded_nodes_stake_threshold m
            then apply_state_change clock m (t, Exclude (st_score t)) else Ok m) as Et
    by (unfold try_exclude; by rewrite u64_add_small).
  cbn [foldM]. rewrite Et. clear Et.
  destruct (N.leb_spec (total_excluded_stake m + st_stake t) (excluded_nodes_stake_threshold m)) as [Hle|Hgt].
  - destruct (apply_exclude_Ok m clock t info Hm Hv Hst Hinfo Hinc Hle) as (m1 & -> & Hm1 & Em1).
    cbn [mbind outcome_bind].
    destruct (IH m1 Hm1 Hnd) as (m' & E' & Hm' & (C' & T' & S') & Htot & Hinfo' & Hmax).
    { rewrite Em1. intros t' Ht'. destruct (HI t') as (? & ? & info' & Hi' & ?); [by right|]. split_and!; [done..|].
      exists info'. split; [|done]. by rewrite (changed_info _ _ _ _ _ _ _ Hinfo), decide_False by (by apply Hother). }
    subst m1. simpl in Htot. exists m'. split_and!; [done|done|done|lia| |].
    + intros a. destruct (Hinfo' a) as [Ea|(t' & ? & ? & ?)]; [|right; exists t'; split_and!; [by right|done|done]].
      rewrite (changed_info _ _ _ _ _ _ _ Hinfo) in Ea.
      destruct (decide (a = st_authority_id t)) as [->|]; [right; exists t; split_and!; [left|done|done]|by left].
    + intros t' info' [->|Ht']%elem_of_cons Ha Hi; [|by apply (Hmax t' info')]. exfalso.
      destruct (Hinfo' (st_authority_id t)) as [Ea|(t' & ? & Eid & _)]; [|by apply (Hother t')].
      rewrite (changed_info _ _ _ _ _ _ _ Hinfo), decide_True in Ea by done. rewrite Ea in Ha. injection Ha as <-. done.
  - cbn [mbind outcome_bind].
    destruct (IH m Hm Hnd) as (m' & E' & Hm' & Hrest & Htot & Hinfo' & Hmax); [intros t' Ht'; apply HI; by right|].
    exists m'. split_and!; [done|done|done|done| |].
    + intros a. destruct (Hinfo' a) as [?|(t' & ? & ? & ?)]; [by left|right; exists t'; split_and!; [by right|done|done]].
    + intros t' info' [->|Ht']%elem_of_cons Ha Hi; [lia|by apply (Hmax t' info')].
Qed.

(** What an update does to the states: the locked ones stay, exactly the
    unlocked excluded authorities that recovered are included, and only low
    scorers are excluded, as many as the bound allows. *)
Record updated (m : AncestorStateManager) (clock : N) (rounds : list QuorumRound) (m' : AncestorStateManager) : Prop := {
  up_inv : ancestor_inv m';
  up_rest : rest_same m m';
  up_locked : forall a info,
    info_at m a = Some info -> is_locked info clock = true -> info_at m' a = Some info;
  up_included : forall a info, info_at m a = Some info -> is_excluded info = true ->
    forall info', info_at m' a = Some info' ->
    (is_excluded info' = false <->
     is_locked info clock = false
     /\ exists score q, scores_per_authority (propagation_scores m) !! N.to_nat a = Some score
          /\ rounds !! N.to_nat a = Some q
          /\ (low_score_threshold m < score \/ calculate_network_high_quorum_round m rounds <= q.2));
  up_excluded : forall a info info', info_at m a = Some info -> info_at m' a = Some info' ->
    is_excluded info = false -> is_excluded info' = true ->
    exists score, scores_per_authority (propagation_scores m) !! N.to_nat a = Some score
      /\ score <= low_score_threshold m
      /\ info' = mkAncestorInfo (Exclude score) (u32_add clock STATE_LOCK_CLOCK_ROUNDS);
  up_maximal : forall a info score, info_at m a = Some info -> is_excluded info = false ->
    is_locked info clock = false ->
    scores_per_authority (propagation_scores m) !! N.to_nat a = Some score -> score <= low_score_threshold m ->
    info_at m' a = Some info ->
    excluded_nodes_stake_threshold m < total_excluded_stake m' + stake_at (committee (am_context m)) a;
}.

Lemma wants_elem m rounds clock network low include t :
  t ∈ omap (wants m rounds clock network low include) (scored (scores_per_authority (propagation_scores m))) <->
  exists score, scores_per_authority (propagation_scores m) !! N.to_nat (st_authority_id t) = Some score
    /\ wants m rounds clock network low include (st_authority_id t, score) = Some t.
Proof.
  rewrite list_elem_of_omap. split.
  - intros ([a score] & Hx & Hw). apply elem_of_scored in Hx. cbn [fst snd] in Hx.
    pose proof (wants_Some _ _ _ _ _ _ _ _ Hw) as (Ht & _). cbn [fst] in Ht. subst a. by exists score.
  - intros (score & Hs & Hw). exists (st_authority_id t, score). by rewrite elem_of_scored.
Qed.

Section update.
Context (m : AncestorStateManager) (clock : N) (rounds : list QuorumRound).
Hypothesis Hm : ancestor_inv m.
Hypothesis Hrounds : length rounds = length (c_authorities (committee (am_context m))).
Notation scores := (scores_per_authority (propagation_scores m)).
Hypothesis Hscores : (length scores <= length (c_authorities (committee (am_context m))))%nat.

(** The transitions the update collects. *)
Definition wanted (include : bool) : list StateTransition :=
  omap (wants m rounds clock (calculate_network_high_quorum_round m rounds) (low_score_threshold m) include)
    (scored scores).

Lemma wanted_valid include t :
  t ∈ wanted include ->
  is_valid_index (committee (am_context m)) (st_authority_id t) = true
  /\ st_stake t = stake_at (committee (am_context m)) (st_authority_id t)
  /\ scores !! N.to_nat (st_authority_id t) = Some (st_score t)
  /\ exists info, info_at m (st_authority_id t) = Some info /\ is_excluded info = include
       /\ is_locked info clock = false /\ (include = false -> st_score t <= low_score_threshold m).
Proof.
  unfold wanted. intros (score & Hs & Hw)%wants_elem.
  pose proof (wants_Some _ _ _ _ _ _ _ _ Hw) as (_ & Hsc & Hst & info & Hi & Hlk & Hex & Hlow).
  cbn [fst snd] in *. rewrite Hsc. split_and!; try done.
  - apply lookup_lt_Some in Hs. apply N.ltb_lt. unfold committee_size. lia.
  - by exists info.
Qed.

Lemma wanted_NoDup include : NoDup (st_authority_id <$> wanted include).
Proof. eapply sublist_NoDup; [apply scored_NoDup|apply wants_ids]. Qed.

(** The update succeeds; it includes all the authorities that want to be, and
    excludes as many of the low scorers as fit. *)
Lemma update_Ok :
  exists m', update_all_ancestors_state m clock rounds = Ok m' /\ ancestor_inv m' /\ rest_same m m'
    /\ (forall t, t ∈ wanted true ->
          info_at m' (st_authority_id t) = Some (mkAncestorInfo Include (u32_add clock STATE_LOCK_CLOCK_ROUNDS)))
    /\ (forall a, a ∉ st_authority_id <$> wanted true ->
          info_at m' a = info_at m a
          \/ exists t, t ∈ wanted false /\ st_authority_id t = a
               /\ info_at m' a = Some (mkAncestorInfo (Exclude (st_score t)) (u32_add clock STATE_LOCK_CLOCK_ROUNDS)))
    /\ forall t info, t ∈ wanted false -> info_at m' (st_authority_id t) = Some info -> is_excluded info = false ->
         excluded_nodes_stake_threshold m < total_excluded_stake m' + st_stake t.
Proof using Hm Hrounds Hscores.
  unfold update_all_ancestors_state. rewrite collect_Ok; [|apply (an_length _ Hm)|done|].
  2:{ intros x Hx%elem_of_scored%lookup_lt_Some. apply N.ltb_lt. unfold committee_size. lia. }
  cbn [mbind outcome_bind app]. fold (low_score_threshold m). fold (scored scores). fold (wanted true) (wanted false).
  destruct (include_all_Ok clock (wanted true) m Hm (wanted_NoDup true)) as (m1 & -> & Hm1 & (C1 & T1 & S1) & Hi1).
  { intros t Ht. destruct (wanted_valid true t Ht) as (? & ? & _ & info & ? & ? & _). split_and!; eauto. }
  cbn [mbind outcome_bind].
  assert (forall t, t ∈ wanted false -> st_authority_id t ∉ st_authority_id <$> wanted true) as Hdisj.
  { intros t Ht (t' & E & Ht')%list_elem_of_fmap.
    destruct (wanted_valid true t' Ht') as (_ & _ & _ & info' & Hi' & Hx' & _).
    destruct (wanted_valid false t Ht) as (_ & _ & _ & info & Hi & Hx & _). congruence. }
  destruct (exclude_some_Ok clock (stable_sort (fun a b => st_score a <=? st_score b) (wanted false)) m1 Hm1)
    as (m' & E' & Hm' & (C' & T' & S') & _ & Hi' & Hmax).
  { rewrite stable_sort_perm. apply wanted_NoDup. }
  { intros t Ht%elem_of_stable_sort. destruct (wanted_valid false t Ht) as (? & ? & _ & info & ? & ? & _).
    rewrite C1. split_and!; [done..|]. exists info. by rewrite Hi1, decide_False by (by apply Hdisj). }
  exists m'. split_and!; [done|done|by split_and!; congruence| | |].
  - intros t Ht. destruct (Hi' (st_authority_id t)) as [->|(t' & Ht'%elem_of_stable_sort & Eid & _)].
    + by rewrite Hi1, decide_True by (by apply list_elem_of_fmap_2).
    + exfalso. apply (Hdisj t' Ht'). rewrite Eid. by apply list_elem_of_fmap_2.
  - intros a Ha. destruct (Hi' a) as [->|(t & Ht%elem_of_stable_sort & ? & ?)]; [left|right; by exists t].
    by rewrite Hi1, decide_False.
  - intros t info Ht. rewrite <- T1. apply Hmax. by apply elem_of_stable_sort.
Qed.

Lemma wanted_include a info :
  info_at m a = Some info -> is_excluded info = true ->
  a ∈ st_authority_id <$> wanted true <->
  is_locked info clock = false
  /\ exists score q, scores !! N.to_nat a = Some score /\ rounds !! N.to_nat a = Some q
       /\ (low_score_threshold m < score \/ calculate_network_high_quorum_round m rounds <= q.2).
Proof.
  intros Ha Hx. rewrite list_elem_of_fmap. split.
  - intros (t & -> & (score & Hs & Hw)%wants_elem). revert Hw. unfold wants. cbn [fst snd]. rewrite Ha, Hx.
    destruct (rounds !! _) as [q|] eqn:Eq; [|done]. destruct (is_locked info clock) eqn:El; [done|]. cbn [negb andb].
    destruct (_ || _) eqn:Ec; [|done]. intros _. split; [done|]. exists score, q. split_and!; [done..|].
    apply orb_true_iff in Ec as [?%N.ltb_lt|?%N.leb_le]; [by left|by right].
  - intros (Hl & score & q & Hs & Hq & Hc). exists (mkStateTransition a score (stake_at (committee (am_context m)) a) q.2).
    split; [done|]. apply wants_elem. exists score. split; [done|]. unfold wants. cbn [fst snd st_authority_id].
    rewrite Ha, Hq, Hl, Hx. cbn [negb andb].
    assert ((low_score_threshold m <? score) || (calculate_network_high_quorum_round m rounds <=? q.2) = true) as ->; [|done].
    apply orb_true_iff. destruct Hc; [left; by apply N.ltb_lt|right; by apply N.leb_le].
Qed.

Lemma wanted_exclude a info score :
  info_at m a = Some info -> is_excluded info = false -> is_locked info clock = false ->
  scores !! N.to_nat a = Some score -> score <= low_score_threshold m ->
  exists t, t ∈ wanted false /\ st_authority_id t = a.
Proof using Hm Hrounds Hscores.
  intros Ha Hx Hl Hs Hle. destruct (lookup_lt_is_Some_2 rounds (N.to_nat a)) as [q Hq].
  { apply lookup_lt_Some in Hs. lia. }
  exists (mkStateTransition a score (stake_at (committee (am_context m)) a) q.2). split; [|done].
  apply wants_elem. exists score. split; [done|]. unfold wants. cbn [fst snd st_authority_id].
  rewrite Ha, Hq, Hl, Hx. cbn [negb andb]. by rewrite (proj2 (N.leb_le _ _) Hle).
Qed.

Lemma update_updated :
  exists m', update_all_ancestors_state m clock rounds = Ok m' /\ updated m clock rounds m'.
Proof using Hm Hrounds Hscores.
  destruct update_Ok as (m' & E & Hm' & Hrest & Hin & Hout & Hmax). exists m'. split; [done|].
  assert (forall t, t ∈ wanted true -> exists info, info_at m (st_authority_id t) = Some info
     /\ is_excluded info = true /\ is_locked info clock = false) as HE.
  { intros t Ht. destruct (wanted_valid true t Ht) as (_ & _ & _ & info & ? & ? & ? & _). by exists info. }
  assert (forall t, t ∈ wanted false -> exists info, info_at m (st_authority_id t) = Some info
     /\ is_excluded info = false /\ is_locked info clock = false) as HI.
  { intros t Ht. destruct (wanted_valid false t Ht) as (_ & _ & _ & info & ? & ? & ? & _). by exists info. }
  constructor; [done|done| | | |].
  - intros a info Ha Hl. destruct (Hout a) as [->|(t & Ht & <- & _)]; [|done|].
    + intros (t & -> & Ht)%list_elem_of_fmap. destruct (HE t Ht) as (? & ? & _ & ?). congruence.
    + destruct (HI t Ht) as (? & ? & _ & ?). congruence.
  - intros a info Ha Hx info' Ha'. rewrite <- (wanted_include a info Ha Hx).
    destruct (decide (a ∈ st_authority_id <$> wanted true)) as [Hw|Hw].
    + split; [done|]. intros _. apply list_elem_of_fmap in Hw as (t & -> & Ht).
      rewrite (Hin t Ht) in Ha'. by injection Ha' as <-.
    + split; [|done]. intros Hx'. exfalso. destruct (Hout a Hw) as [E'|(t & Ht & <- & _)].
      * rewrite Ha, Ha' in E'. congruence.
      * destruct (HI t Ht) as (? & ? & ? & _). congruence.
  - intros a info info' Ha Ha' Hx Hx'. destruct (Hout a) as [E'|(t & Ht & <- & E')].
    + intros (t & -> & Ht)%list_elem_of_fmap. destruct (HE t Ht) as (? & ? & ? & _). congruence.
    + congruence.
    + destruct (wanted_valid false t Ht) as (_ & _ & ? & _ & _ & _ & _ & Hlow). exists (st_score t).
      split_and!; [done|by apply Hlow|congruence].
  - intros a info score Ha Hx Hl Hs Hle Ha'.
    destruct (wanted_exclude a info score Ha Hx Hl Hs Hle) as (t & Ht & <-).
    destruct (wanted_valid false t Ht) as (_ & Hst & _). rewrite <- Hst. by apply (Hmax t info).
Qed.
End update.

(* ------------------------------------------------------------------ *)
(** ** Reachable managers *)

(** The bound on the excluded stake is at most the fault tolerance. *)
Lemma exclusion_bound t bad :
  bad <= 33 -> 22 * t <= u64_MAX -> u64_mul (u64_mul 2 bad / 3) t / 100 <= (t - 1) / 3.
Proof.
  intros Hbad Ht. rewrite (u64_mul_small 2) by (unfold u64_MAX; lia).
  assert (2 * bad / 3 <= 22) as H22 by (apply (N.Div0.div_le_mono _ 66 3); lia).
  assert (2 * bad / 3 * t <= 22 * t) as Hmul by (by apply N.mul_le_mono_r).
  rewrite u64_mul_small by (by etrans).
  transitivity (22 * t / 100); [by apply N.Div0.div_le_mono|].
  destruct (decide (t = 0)) as [->|]; [done|].
  pose proof (N.Div0.mul_div_le (22 * t) 100). pose proof (third_bounds t ltac:(lia)). lia.
Qed.

Section reachable.
Context (context : Context).
Notation c := (committee context).
Notation size := (length (c_authorities c)).

(** The managers the node can have: new, with scores set, updated. *)
Inductive ancestor_reachable : AncestorStateManager -> Prop :=
  | reach_new : ancestor_reachable (ancestor_state_manager_new context)
  | reach_scores m scores :
      ancestor_reachable m -> (length (scores_per_authority scores) <= size)%nat ->
      ancestor_reachable (set_propagation_scores m scores)
  | reach_update m clock rounds m' :
      ancestor_reachable m -> length rounds = size ->
      update_all_ancestors_state m clock rounds = Ok m' -> ancestor_reachable m'.

Definition included_stake (m : AncestorStateManager) : N :=
  weigh (fun i => match info_at m i with Some info => negb (is_excluded info) | None => false end) 0
    (stakes (c_authorities (committee (am_context m)))).

Lemma included_excluded m :
  ancestor_inv m -> included_stake m + total_excluded_stake m = c_total_stake (committee (am_context m)).
Proof.
  intros [Hc Hl Ht _]. rewrite Ht, (wf_total _ Hc). unfold included_stake, excluded_stake.
  rewrite weigh_inclusion_exclusion.
  rewrite (weigh_ext _ (fun _ => true)), weigh_all, (weigh_ext _ (fun _ => false)), weigh_none; [lia| |].
  - intros j _ _. destruct (info_at m j) as [info|]; [|done]. by destruct (is_excluded info).
  - intros j _ Hj. unfold info_at. unfold stakes in Hj. rewrite length_fmap in Hj.
    destruct (lookup_lt_is_Some_2 (state_map m) (N.to_nat j)) as [info ->]; [lia|]. by destruct (is_excluded info).
Qed.

Lemma new_inv : committee_wf c -> ancestor_inv (ancestor_state_manager_new context).
Proof.
  intros Hc. constructor; simpl; [done|by rewrite length_replicate; unfold committee_size; lia| |apply N.le_0_l].
  unfold excluded_stake. rewrite (weigh_ext _ (fun _ => false)), weigh_none; [done|].
  intros j _ _. unfold info_at. simpl. destruct (replicate _ _ !! _) as [info|] eqn:E; [|done].
  apply lookup_replicate in E as [-> _]. done.
Qed.

Lemma reachable_inv m :
  committee_wf c -> ancestor_reachable m ->
  ancestor_inv m /\ am_context m = context
  /\ excluded_nodes_stake_threshold m = excluded_nodes_stake_threshold (ancestor_state_manager_new context)
  /\ (length (scores_per_authority (propagation_scores m)) <= size)%nat.
Proof.
  intros Hc. induction 1 as [|m scores _ (Hm & Hctx & Hthr & _) Hs|m clock rounds m' _ (Hm & Hctx & Hthr & Hs) Hr E].
  - split_and!; [by apply new_inv|done|done|simpl; lia].
  - split_and!; [|done..]. by destruct Hm.
  - rewrite <- Hctx in Hr, Hs. destruct (update_updated m clock rounds Hm Hr Hs) as (m'' & E' & [Hm' (C' & T' & S') _ _ _ _]).
    rewrite E in E'. injection E' as <-. rewrite <- Hctx, C', S', T'. split_and!; [done|done|by rewrite <- Hctx in Hthr|done].
Qed.

(** C28: from any manager the node can reach, and whatever the scores and
    the quorum rounds, the update neither panics nor breaks the invariant
    that the running total is the stake of the excluded authorities and
    within its bound.  It leaves locked states alone, includes exactly the
    unlocked excluded authorities that recovered, excludes only authorities
    with low scores and locks them, and stops excluding one only when its
    stake does not fit.  The included authorities always hold a quorum. *)
Theorem ancestor_states_correct m clock rounds :
  committee_wf c ->
  c_quorum_threshold c = c_total_stake c - (c_total_stake c - 1) / 3 ->
  bad_nodes_stake_threshold (protocol_config context) <= 33 -> 22 * c_total_stake c <= u64_MAX ->
  ancestor_reachable m -> length rounds = size ->
  exists m', update_all_ancestors_state m clock rounds = Ok m' /\ ancestor_reachable m'
    /\ updated m clock rounds m'
    /\ c_quorum_threshold c <= included_stake m'.
Proof.
  intros Hc Hq Hbad Hmax Hreach Hr. destruct (reachable_inv m Hc Hreach) as (Hm & Hctx & Hthr & Hs).
  destruct (update_updated m clock rounds Hm) as (m' & E & Hup); [by rewrite Hctx..|].
  assert (ancestor_reachable m') as Hreach' by (by eapply reach_update).
  exists m'. split_and!; [done|done|done|].
  destruct (reachable_inv m' Hc Hreach') as (Hm' & Hctx' & Hthr' & _).
  pose proof (included_excluded m' Hm') as Hsum. pose proof (an_bound _ Hm') as Hb.
  rewrite Hctx' in Hsum. rewrite Hthr' in Hb.
  pose proof (exclusion_bound (c_total_stake c) (bad_nodes_stake_threshold (protocol_config context)) Hbad Hmax) as Hx.
  unfold ancestor_state_manager_new in Hb. cbn [excluded_nodes_stake_threshold] in Hb. lia.
Qed.
End reachable.

(** Ten authorities with scores 100 except authorities 2 and 5: two tenths of
    the stake fit in the bound, so both are excluded; the other eight hold
    a quorum. *)
Lemma ancestor_states_correct_witness :
  let context := mkContext 0 0 (test_committee 10) (mkParameters 500 100 false 50000000 5 32 1000 8 32) for_testing in
  let scores := mkReputationScores [100; 100; 5; 100; 100; 20; 100; 100; 100; 100] (mkCommitRange 1 300) in
  let m := set_propagation_scores (ancestor_state_manager_new context) scores in
  exists m', update_all_ancestors_state m 7 (replicate 10 (3, 4)) = Ok m'
    /\ get_ancestor_states m' = [Include; Include; Exclude 5; Include; Include; Exclude 20; Include; Include; Include; Include]
    /\ c_quorum_threshold (test_committee 10) <= included_stake m'.
Proof.
  intros context scores m.
  destruct (ancestor_states_correct context m 7 (replicate 10 (3, 4))) as (m' & E & _ & _ & Hq).
  - by constructor; vm_compute.
  - reflexivity.
  - vm_compute. discriminate.
  - vm_compute. discriminate.
  - apply reach_scores; [apply reach_new|]. vm_compute. lia.
  - reflexivity.
  - exists m'. split; [done|]. split; [|done]. vm_compute in E. injection E as <-. reflexivity.
Defined.
