(* ===== verification/TransactionConsumer.v ===== *)
(** * Submitted transactions

    Models transaction.rs: clients submit bundles of transactions through a
    bounded channel, the proposer takes as many whole bundles as fit into its
    next block, each submitter is told the block and the positions of its
    transactions, and later what became of the block.

    A one-shot channel is a number; [oc_acks] and [oc_statuses] record what was
    sent on such channels.  Dropping bundles that do not fit into an empty
    block follows release builds, in which [debug_fatal!] only logs; it is
    shown never to happen.  Waiting for the answer ([submit]) is left out. *)

From S2P Require Import Prelude Committee Context Block StakeAggregator.

Definition NUM_RESERVED_TRANSACTION_INDICES : N := 8.
Definition PING_TRANSACTION_INDEX : N := u16_MAX.
Definition MAX_PENDING_TRANSACTIONS : N := 2000.

(* ------------------------------------------------------------------ *)
(** ** Data *)

Record TransactionsGuard := mkTransactionsGuard {
  tg_transactions : list Transaction;
  included_in_block_ack : N;
}.

Inductive BlockStatus :=
  | Sequenced (block_ref : BlockRef)
  | GarbageCollected (block_ref : BlockRef).

Inductive LimitReached :=
  | MaxNumOfTransactions
  | MaxBytes
  | AllTransactionsIncluded.

(** The bounded channel between the clients and the consumer. *)
Record InputChannel := mkInputChannel {
  ic_queue : list TransactionsGuard;
  ic_capacity : N;
  ic_open : bool;
}.

(** What was sent on one-shot channels: an acknowledgement names the block,
    the positions in it and the channel for the status of the block. *)
Record OneshotChannels := mkOneshotChannels {
  oc_next : N;
  oc_acks : list (N * (BlockRef * list N * N));
  oc_statuses : list (N * BlockStatus);
}.

Record TransactionConsumer := mkTransactionConsumer {
  tx_receiver : InputChannel;
  cn_max_transactions_in_block_bytes : N;
  cn_max_num_transactions_in_block : N;
  pending_transactions : option TransactionsGuard;
  block_status_subscribers : gmap BlockRef (list N);
  cn_channels : OneshotChannels;
}.

(* ------------------------------------------------------------------ *)
(** ** The consumer *)

Definition transaction_consumer_new (tx_receiver : InputChannel) (channels : OneshotChannels) (context : Context)
    : outcome TransactionConsumer :=
  _ ← assert_that (saturating_sub (max_num_transactions_in_block (protocol_config context)) 1
                   <? saturating_sub u16_MAX NUM_RESERVED_TRANSACTION_INDICES);
  Ok {| tx_receiver := tx_receiver;
        cn_max_transactions_in_block_bytes := max_transactions_in_block_bytes (protocol_config context);
        cn_max_num_transactions_in_block := max_num_transactions_in_block (protocol_config context);
        pending_transactions := None;
        block_status_subscribers := ∅;
        cn_channels := channels |}.

(** The variables of [next] that its closure captures. *)
Record Pull := mkPull {
  pl_transactions : list Transaction;
  pl_acks : list (N * list N);
  pl_total_bytes : N;
  pl_limit_reached : LimitReached;
}.

Definition pull_new : Pull := mkPull [] [] 0 AllTransactionsIncluded.

(** [t.transactions.iter().map(|t| t.data().len()).sum()] *)
Definition transactions_bytes (ts : list Transaction) : N :=
  u64_wrap (sum_N ((fun t => N.of_nat (length (data t))) <$> ts)).

(** [(start..end).collect()] of transaction indices *)
Definition index_range (start end_ : N) : list N :=
  (fun i => start + N.of_nat i) <$> seq 0 (N.to_nat (end_ - start)).

(** The closure of [next]: a bundle is taken whole or handed back. *)
Definition handle_txs (self : TransactionConsumer) (p : Pull) (t : TransactionsGuard)
    : Pull * option TransactionsGuard :=
  let transactions_num := N.of_nat (length (tg_transactions t)) in
  if transactions_num =? 0 then
    (mkPull (pl_transactions p) (pl_acks p ++ [(included_in_block_ack t, [PING_TRANSACTION_INDEX])])
       (pl_total_bytes p) (pl_limit_reached p), None)
  else
    let bytes := transactions_bytes (tg_transactions t) in
    if cn_max_transactions_in_block_bytes self <? u64_add (pl_total_bytes p) bytes then
      (mkPull (pl_transactions p) (pl_acks p) (pl_total_bytes p) MaxBytes, Some t)
    else if cn_max_num_transactions_in_block self
            <? u64_add (N.of_nat (length (pl_transactions p))) transactions_num then
      (mkPull (pl_transactions p) (pl_acks p) (pl_total_bytes p) MaxNumOfTransactions, Some t)
    else
      let start_idx := u16_wrap (N.of_nat (length (pl_transactions p))) in
      let indices := index_range start_idx (u16_wrap (start_idx + u16_wrap transactions_num)) in
      (mkPull (pl_transactions p ++ tg_transactions t) (pl_acks p ++ [(included_in_block_ack t, indices)])
         (u64_add (pl_total_bytes p) bytes) (pl_limit_reached p), None).

(** The loop that receives bundles until one does not fit or none is left. *)
Fixpoint pull_loop (self : TransactionConsumer) (p : Pull) (queue : list TransactionsGuard)
    : Pull * option TransactionsGuard * list TransactionsGuard :=
  match queue with
  | [] => (p, None, [])
  | t :: queue =>
      match handle_txs self p t with
      | (p, None) => pull_loop self p queue
      | (p, Some pending) => (p, Some pending, queue)
      end
  end.

Definition set_pulled (self : TransactionConsumer) (pending : option TransactionsGuard)
    (queue : list TransactionsGuard) : TransactionConsumer :=
  {| tx_receiver := mkInputChannel queue (ic_capacity (tx_receiver self)) (ic_open (tx_receiver self));
     cn_max_transactions_in_block_bytes := cn_max_transactions_in_block_bytes self;
     cn_max_num_transactions_in_block := cn_max_num_transactions_in_block self;
     pending_transactions := pending;
     block_status_subscribers := block_status_subscribers self;
     cn_channels := cn_channels self |}.

(** The transactions for a block, what to acknowledge once it is made, and
    the limit that was reached. *)
Definition consumer_next (self : TransactionConsumer)
    : TransactionConsumer * list Transaction * list (N * list N) * LimitReached :=
  let p := match pending_transactions self with Some t => (handle_txs self pull_new t).1 | None => pull_new end in
  let '(p, pending, queue) := pull_loop self p (ic_queue (tx_receiver self)) in
  (set_pulled self pending queue, pl_transactions p, pl_acks p, pl_limit_reached p).

Definition set_subscribers (self : TransactionConsumer) (subscribers : gmap BlockRef (list N))
    (channels : OneshotChannels) : TransactionConsumer :=
  {| tx_receiver := tx_receiver self;
     cn_max_transactions_in_block_bytes := cn_max_transactions_in_block_bytes self;
     cn_max_num_transactions_in_block := cn_max_num_transactions_in_block self;
     pending_transactions := pending_transactions self;
     block_status_subscribers := subscribers;
     cn_channels := channels |}.

(** The callback that [next] returns: each taken bundle is acknowledged, with
    a new channel for the status of the block. *)
Definition ack_transaction (block_ref : BlockRef) (self : TransactionConsumer) (ack : N * list N)
    : TransactionConsumer :=
  let channels := cn_channels self in
  let status := oc_next channels in
  set_subscribers self
    (<[block_ref := default [] (block_status_subscribers self !! block_ref) ++ [status]]>
       (block_status_subscribers self))
    (mkOneshotChannels (status + 1) (oc_acks channels ++ [(ack.1, (block_ref, ack.2, status))]) (oc_statuses channels)).

Definition ack_transactions (self : TransactionConsumer) (acks : list (N * list N)) (block_ref : BlockRef)
    : TransactionConsumer :=
  foldl (ack_transaction block_ref) self acks.

Definition send_statuses (channels : OneshotChannels) (subscribers : list N) (status : BlockStatus) : OneshotChannels :=
  mkOneshotChannels (oc_next channels) (oc_acks channels)
    (oc_statuses channels ++ ((fun s => (s, status)) <$> subscribers)).

(** [remove] and notify the subscribers of one block. *)
Definition notify_block (status : BlockRef -> BlockStatus) (self : TransactionConsumer) (block_ref : BlockRef)
    : TransactionConsumer :=
  match block_status_subscribers self !! block_ref with
  | Some subscribers =>
      set_subscribers self (delete block_ref (block_status_subscribers self))
        (send_statuses (cn_channels self) subscribers (status block_ref))
  | None => self
  end.

(** Committed blocks first; then the first entries are popped while they are
    garbage collected. *)
Definition notify_own_blocks_status (self : TransactionConsumer) (committed_blocks : list BlockRef) (gc_round : N)
    : TransactionConsumer :=
  let self := foldl (notify_block Sequenced) self committed_blocks in
  foldl (notify_block GarbageCollected) self
    (take_while (fun r => br_round r <=? gc_round) (btree_map_iter (block_status_subscribers self)).*1).

(* ------------------------------------------------------------------ *)
(** ** The client *)

Record TransactionClient := mkTransactionClient {
  cl_context : Context;
  cl_max_transaction_size : N;
  cl_max_transactions_in_block_bytes : N;
  cl_max_transactions_in_block_count : N;
}.

Inductive ClientError :=
  | ConsensusShuttingDown (message : string)
  | OversizedTransaction (size limit : N)
  | OversizedTransactionBundleBytes (size limit : N)
  | OversizedTransactionBundleCount (count limit : N).

Definition transaction_client_new_with_max_pending (context : Context) (max_pending_transactions : N)
    : TransactionClient * InputChannel :=
  ({| cl_context := context;
      cl_max_transaction_size := max_transaction_size_bytes (protocol_config context);
      cl_max_transactions_in_block_bytes := max_transactions_in_block_bytes (protocol_config context);
      cl_max_transactions_in_block_count := max_num_transactions_in_block (protocol_config context) |},
   mkInputChannel [] max_pending_transactions true).

Definition transaction_client_new (context : Context) : TransactionClient * InputChannel :=
  transaction_client_new_with_max_pending context MAX_PENDING_TRANSACTIONS.

(** The loop over the transactions, with the size of the bundle so far. *)
Fixpoint check_bundle (self : TransactionClient) (bundle_size : N) (transactions : list (list byte))
    : option ClientError :=
  match transactions with
  | [] => None
  | transaction :: transactions =>
      let len := N.of_nat (length transaction) in
      if cl_max_transaction_size self <? len then Some (OversizedTransaction len (cl_max_transaction_size self))
      else
        let bundle_size := u64_add bundle_size len in
        if cl_max_transactions_in_block_bytes self <? bundle_size then
          Some (OversizedTransactionBundleBytes bundle_size (cl_max_transactions_in_block_bytes self))
        else check_bundle self bundle_size transactions
  end.

Definition validate_bundle (self : TransactionClient) (transactions : list (list byte)) : option ClientError :=
  let count := N.of_nat (length transactions) in
  if cl_max_transactions_in_block_count self <? count then
    Some (OversizedTransactionBundleCount count (cl_max_transactions_in_block_count self))
  else check_bundle self 0 transactions.

(** How a submission goes: refused, queued with the channel on which it will
    be acknowledged, or waiting for room in the channel. *)
Inductive Submission :=
  | Refused (e : ClientError)
  | Queued (ack : N)
  | Waiting.

(** The message of a failed send belongs to the channel's library. *)
Definition submit_no_wait (closed_message : string) (self : TransactionClient) (channel : InputChannel)
    (channels : OneshotChannels) (transactions : list (list byte)) : InputChannel * OneshotChannels * Submission :=
  match validate_bundle self transactions with
  | Some e => (channel, channels, Refused e)
  | None =>
      if negb (ic_open channel) then (channel, channels, Refused (ConsensusShuttingDown closed_message))
      else if ic_capacity channel <=? N.of_nat (length (ic_queue channel)) then (channel, channels, Waiting)
      else
        let ack := oc_next channels in
        (mkInputChannel (ic_queue channel ++ [mkTransactionsGuard (mkTransaction <$> transactions) ack])
           (ic_capacity channel) (ic_open channel),
         mkOneshotChannels (ack + 1) (oc_acks channels) (oc_statuses channels), Queued ack)
  end.

(* ------------------------------------------------------------------ *)
(** ** Taking bundles *)

Definition bundle_bytes (t : TransactionsGuard) : N :=
  sum_N ((fun t => N.of_nat (length (data t))) <$> tg_transactions t).

(** The limits of a configuration: indices leave room for the reserved ones,
    and sizes do not overflow. *)
Record limits_ok (context : Context) : Prop := {
  lo_num : max_num_transactions_in_block (protocol_config context) <= u16_MAX - NUM_RESERVED_TRANSACTION_INDICES;
  lo_bytes : max_transactions_in_block_bytes (protocol_config context)
    + max_transactions_in_block_bytes (protocol_config context) <= u64_MAX;
  lo_size : max_transactions_in_block_bytes (protocol_config context)
    + max_transaction_size_bytes (protocol_config context) <= u64_MAX;
}.

(** The acknowledgement of a bundle in a block with these transactions: the
    positions of its transactions in order, or the reserved index of a ping. *)
Definition acknowledges (block : list Transaction) (t : TransactionsGuard) (ack : N * list N) : Prop :=
  ack.1 = included_in_block_ack t
  /\ match tg_transactions t with
     | [] => ack.2 = [PING_TRANSACTION_INDEX]
     | ts => (fun i => block !! N.to_nat i) <$> ack.2 = Some <$> ts /\ PING_TRANSACTION_INDEX ∉ ack.2
     end.

Lemma acknowledges_app block more t ack : acknowledges block t ack -> acknowledges (block ++ more) t ack.
Proof.
  intros [Ha H]. split; [done|]. destruct (tg_transactions t) as [|x ts]; [done|]. destruct H as [H Hp].
  split; [|done]. clear Hp. revert H. generalize (x :: ts) as l. induction (ack.2) as [|i is_ IH]; intros [|y l] H; try done.
  simpl in H. injection H as Hi Hl. simpl. rewrite (lookup_app_l_Some _ _ _ _ Hi). f_equal. by apply IH.
Qed.

Lemma index_range_lookup (block ts : list Transaction) start :
  start = N.of_nat (length block) ->
  (fun i => (block ++ ts) !! N.to_nat i) <$> index_range start (start + N.of_nat (length ts)) = Some <$> ts.
Proof.
  intros ->. unfold index_range. replace (N.to_nat _) with (length ts) by lia.
  apply list_eq. intros i. rewrite !list_lookup_fmap.
  destruct (decide (i < length ts)%nat) as [Hlt|Hge].
  - rewrite lookup_seq_lt by done. simpl. replace (N.to_nat _) with (length block + i)%nat by lia.
    rewrite lookup_app_r by lia. replace (length block + i - length block)%nat with i by lia.
    destruct (lookup_lt_is_Some_2 ts i Hlt) as [x ->]. done.
  - rewrite lookup_seq_ge, lookup_ge_None_2 by lia. done.
Qed.

Lemma elem_of_index_range i start end_ : i ∈ index_range start end_ -> start <= i < end_.
Proof.
  unfold index_range. intros (j & -> & Hj%elem_of_seq)%list_elem_of_fmap. lia.
Qed.

Section taking.
Context (context : Context) (Hlim : limits_ok context) (self : TransactionConsumer).
Context (Hbytes : cn_max_transactions_in_block_bytes self = max_transactions_in_block_bytes (protocol_config context)).
Context (Hnum : cn_max_num_transactions_in_block self = max_num_transactions_in_block (protocol_config context)).

(** A bundle that fits into an empty block. *)
Definition fits (t : TransactionsGuard) : Prop :=
  N.of_nat (length (tg_transactions t)) <= max_num_transactions_in_block (protocol_config context)
  /\ bundle_bytes t <= max_transactions_in_block_bytes (protocol_config context).

(** The variables of [next] after the bundles [taken]. *)
Record pulled (taken : list TransactionsGuard) (p : Pull) : Prop := {
  pd_transactions : pl_transactions p = taken ≫= tg_transactions;
  pd_bytes : pl_total_bytes p = sum_N (bundle_bytes <$> taken);
  pd_max_bytes : pl_total_bytes p <= max_transactions_in_block_bytes (protocol_config context);
  pd_max_num : N.of_nat (length (pl_transactions p)) <= max_num_transactions_in_block (protocol_config context);
  pd_acks : Forall2 (acknowledges (pl_transactions p)) taken (pl_acks p);
}.

Lemma pulled_new : pulled [] pull_new.
Proof. constructor; simpl; try done; lia. Qed.

(** Why a bundle is handed back. *)
Definition over_limit (p : Pull) (t : TransactionsGuard) (limit : LimitReached) : Prop :=
  match limit with
  | MaxBytes => max_transactions_in_block_bytes (protocol_config context) < pl_total_bytes p + bundle_bytes t
  | MaxNumOfTransactions =>
      max_num_transactions_in_block (protocol_config context)
      < N.of_nat (length (pl_transactions p)) + N.of_nat (length (tg_transactions t))
  | AllTransactionsIncluded => False
  end.

Lemma handle_txs_Ok taken p t :
  pulled taken p -> fits t ->
  (exists p', handle_txs self p t = (p', None) /\ pulled (taken ++ [t]) p' /\ pl_limit_reached p' = pl_limit_reached p)
  \/ exists limit, handle_txs self p t = (mkPull (pl_transactions p) (pl_acks p) (pl_total_bytes p) limit, Some t)
       /\ over_limit p t limit.
Proof.
  intros [T B MB MN A] [Fn Fb]. unfold handle_txs.
  assert (Forall2 (acknowledges (pl_transactions p ++ tg_transactions t)) taken (pl_acks p)) as HA.
  { eapply Forall2_impl; [exact A|]. intros x y. apply acknowledges_app. }
  destruct (N.eqb_spec (N.of_nat (length (tg_transactions t))) 0) as [Hz|Hz].
  { left. eexists. split; [done|]. split; [|done].
    assert (tg_transactions t = []) as E by (destruct (tg_transactions t); [done|simpl in Hz; lia]).
    constructor; simpl; try done.
    - rewrite bind_app. simpl. by rewrite E, !app_nil_r.
    - rewrite fmap_app, sum_N_app. simpl. unfold bundle_bytes at 2. rewrite E. simpl. lia.
    - apply Forall2_app; [done|]. constructor; [|done]. split; [done|]. by rewrite E. }
  assert (transactions_bytes (tg_transactions t) = bundle_bytes t) as ->.
  { unfold transactions_bytes. fold (bundle_bytes t). apply u64_wrap_small. pose proof (lo_bytes _ Hlim). lia. }
  rewrite Hbytes, Hnum. pose proof (lo_bytes _ Hlim) as Lb. pose proof (lo_num _ Hlim) as Ln.
  unfold u16_MAX, NUM_RESERVED_TRANSACTION_INDICES in Ln.
  rewrite !u64_add_small by (unfold u64_MAX in *; lia).
  destruct (N.ltb_spec (max_transactions_in_block_bytes (protocol_config context)) (pl_total_bytes p + bundle_bytes t)).
  { right. by exists MaxBytes. }
  destruct (N.ltb_spec (max_num_transactions_in_block (protocol_config context))
              (N.of_nat (length (pl_transactions p)) + N.of_nat (length (tg_transactions t)))).
  { right. by exists MaxNumOfTransactions. }
  left. rewrite (u16_wrap_small (N.of_nat (length (pl_transactions p)))) by (unfold u16_MAX; lia).
  rewrite (u16_wrap_small (N.of_nat (length (tg_transactions t)))) by (unfold u16_MAX; lia).
  rewrite u16_wrap_small by (unfold u16_MAX; lia).
  eexists. split; [done|]. split; [|done]. constructor; simpl.
  - by rewrite T, bind_app, bind_singleton.
  - rewrite fmap_app, sum_N_app, B. simpl. lia.
  - lia.
  - rewrite length_app. lia.
  - apply Forall2_app; [done|]. constructor; [|done]. split; [done|].
    destruct (tg_transactions t) as [|x ts] eqn:E; [simpl in Hz; lia|]. rewrite <- E in *. split.
    + by apply index_range_lookup.
    + intros Hin%elem_of_index_range. unfold PING_TRANSACTION_INDEX, u16_MAX in Hin. lia.
Qed.

Lemma pull_loop_Ok queue : forall taken p,
  pulled taken p -> Forall fits queue -> pl_limit_reached p = AllTransactionsIncluded ->
  exists p' pending rest more, pull_loop self p queue = (p', pending, rest)
    /\ queue = more ++ option_list pending ++ rest /\ pulled (taken ++ more) p'
    /\ match pending with
       | Some t => over_limit p' t (pl_limit_reached p')
       | None => rest = [] /\ pl_limit_reached p' = AllTransactionsIncluded
       end.
Proof.
  induction queue as [|t queue IH]; intros taken p Hp Hq Hl.
  { exists p, None, [], []. rewrite (app_nil_r taken). split; [done|]. split; [done|]. split; [done|by split]. }
  apply Forall_cons in Hq as [Ht Hq]. cbn [pull_loop].
  destruct (handle_txs_Ok taken p t Hp Ht) as [(p' & -> & Hp' & Hl')|(limit & -> & Hover)].
  - destruct (IH (taken ++ [t]) p' Hp' Hq) as (p'' & pending & rest & more & E & -> & Hp'' & Hlast); [congruence|].
    exists p'', pending, rest, (t :: more). rewrite <- app_assoc in Hp''. split; [done|]. split; [done|]. by split.
  - eexists _, (Some t), queue, []. split; [done|]. rewrite (app_nil_r taken). split_and!; [done| |by destruct limit].
    by destruct Hp.
Qed.

(** The bundles that wait: the one that did not fit last time, then the queue. *)
Definition waiting_bundles (cn : TransactionConsumer) : list TransactionsGuard :=
  option_list (pending_transactions cn) ++ ic_queue (tx_receiver cn).

Lemma consumer_next_Ok :
  Forall fits (waiting_bundles self) ->
  exists self' txs acks limit taken,
    consumer_next self = (self', txs, acks, limit)
    /\ waiting_bundles self = taken ++ waiting_bundles self'
    /\ self' = set_pulled self (pending_transactions self') (ic_queue (tx_receiver self'))
    /\ txs = taken ≫= tg_transactions /\ Forall2 (acknowledges txs) taken acks
    /\ N.of_nat (length txs) <= max_num_transactions_in_block (protocol_config context)
    /\ sum_N (bundle_bytes <$> taken) <= max_transactions_in_block_bytes (protocol_config context)
    /\ (waiting_bundles self <> [] -> taken <> [])
    /\ match waiting_bundles self' with
       | [] => limit = AllTransactionsIncluded
       | t :: _ => over_limit (mkPull txs acks (sum_N (bundle_bytes <$> taken)) limit) t limit
       end.
Proof.
  intros Hf. unfold waiting_bundles in Hf. apply Forall_app in Hf as [Hfp Hfq]. unfold consumer_next.
  assert (exists p, (match pending_transactions self with Some t => (handle_txs self pull_new t).1 | None => pull_new end) = p
    /\ pulled (option_list (pending_transactions self)) p /\ pl_limit_reached p = AllTransactionsIncluded)
    as (p & -> & Hp & Hl).
  { destruct (pending_transactions self) as [t|]; [|exists pull_new; split_and!; [done|apply pulled_new|done]].
    apply Forall_cons in Hfp as [Ht _].
    destruct (handle_txs_Ok [] pull_new t pulled_new Ht) as [(p' & -> & ? & ?)|(limit & _ & Hover)]; [by exists p'|].
    exfalso. destruct Ht. destruct limit; simpl in Hover; [lia|lia|done]. }
  destruct (pull_loop_Ok (ic_queue (tx_receiver self)) _ p Hp Hfq Hl)
    as (p' & pending & rest & more & -> & Eq & [T B MB MN A] & Hlast).
  eexists _, _, _, _, (option_list (pending_transactions self) ++ more). split; [done|].
  unfold waiting_bundles. cbn [pending_transactions tx_receiver set_pulled ic_queue]. rewrite <- B. split_and!.
  - by rewrite Eq, app_assoc.
  - done.
  - done.
  - done.
  - done.
  - done.
  - intros Hne Hnil. apply app_eq_nil in Hnil as [Hnil ->]. rewrite Hnil in *. simpl in *.
    destruct pending as [t|].
    + rewrite Eq in Hfq. apply Forall_cons in Hfq as [[? ?] _]. simpl in T, B. rewrite T, B in *.
      destruct (pl_limit_reached p'); simpl in Hlast; rewrite ?T, ?B in Hlast; simpl in Hlast; [lia|lia|done].
    + destruct Hlast as [-> _]. by rewrite Eq in Hne.
  - destruct pending as [t|]; simpl.
    + destruct (pl_limit_reached p'); done.
    + by destruct Hlast as [-> ?].
Qed.
End taking.

(* ------------------------------------------------------------------ *)
(** ** What a client may submit *)

Definition client_of (context : Context) : TransactionClient := (transaction_client_new context).1.

Lemma check_bundle_None context transactions : forall bundle_size,
  limits_ok context -> bundle_size <= max_transactions_in_block_bytes (protocol_config context) ->
  check_bundle (client_of context) bundle_size transactions = None <->
  Forall (fun t => N.of_nat (length t) <= max_transaction_size_bytes (protocol_config context)) transactions
  /\ bundle_size + sum_N ((fun t => N.of_nat (length t)) <$> transactions)
     <= max_transactions_in_block_bytes (protocol_config context).
Proof.
  induction transactions as [|t transactions IH]; intros size Hlim Hsize; cbn [check_bundle].
  { simpl. rewrite N.add_0_r. split; [by split|done]. }
  cbn [client_of transaction_client_new transaction_client_new_with_max_pending fst cl_max_transaction_size
       cl_max_transactions_in_block_bytes] in *.
  rewrite Forall_cons. simpl. pose proof (lo_size _ Hlim).
  destruct (N.ltb_spec (max_transaction_size_bytes (protocol_config context)) (N.of_nat (length t))) as [Hlt|Hle].
  { split; [done|]. intros [[? _] _]. lia. }
  rewrite u64_add_small by lia.
  destruct (N.ltb_spec (max_transactions_in_block_bytes (protocol_config context)) (size + N.of_nat (length t))) as [Hlt|Hle'].
  { split; [done|]. intros [_ ?]. lia. }
  rewrite (IH (size + N.of_nat (length t)) Hlim Hle'). rewrite N.add_assoc. tauto.
Qed.

Lemma validate_bundle_None context transactions :
  limits_ok context ->
  validate_bundle (client_of context) transactions = None <->
  Forall (fun t => N.of_nat (length t) <= max_transaction_size_bytes (protocol_config context)) transactions
  /\ forall ack, fits context (mkTransactionsGuard (mkTransaction <$> transactions) ack).
Proof.
  intros Hlim. unfold validate_bundle, fits, bundle_bytes. cbn [tg_transactions]. rewrite length_fmap.
  rewrite <- list_fmap_compose. cbn [client_of transaction_client_new transaction_client_new_with_max_pending fst
    cl_max_transactions_in_block_count].
  destruct (N.ltb_spec (max_num_transactions_in_block (protocol_config context)) (N.of_nat (length transactions))).
  { split; [done|]. intros [_ H']. specialize (H' 0). lia. }
  rewrite (check_bundle_None context transactions 0 Hlim) by lia. rewrite N.add_0_l.
  split; [intros [??]; by split|]. intros [? H']. split; [done|]. by apply (H' 0).
Qed.

(* ------------------------------------------------------------------ *)
(** ** Who is told what *)

(** A submitter waits for the status of the block on a channel. *)
Definition subscribed (cn : TransactionConsumer) (r : BlockRef) (s : N) : Prop :=
  exists l, block_status_subscribers cn !! r = Some l /\ s ∈ l.

(** The status channels of the acknowledged bundles, with their blocks. *)
Definition status_channels (cn : TransactionConsumer) : list (BlockRef * N) :=
  (fun a => (a.2.1.1, a.2.2)) <$> oc_acks (cn_channels cn).

Definition told (cn : TransactionConsumer) (s : N) (status : BlockStatus) : Prop :=
  (s, status) ∈ oc_statuses (cn_channels cn).

(** Every transaction respects the limit on its size. *)
Definition sized (context : Context) (t : TransactionsGuard) : Prop :=
  Forall (fun x => N.of_nat (length (data x)) <= max_transaction_size_bytes (protocol_config context)) (tg_transactions t).

Record pool_inv (context : Context) (cn : TransactionConsumer) : Prop := {
  pv_bytes : cn_max_transactions_in_block_bytes cn = max_transactions_in_block_bytes (protocol_config context);
  pv_num : cn_max_num_transactions_in_block cn = max_num_transactions_in_block (protocol_config context);
  pv_fits : Forall (fits context) (waiting_bundles cn);
  pv_sizes : Forall (sized context) (waiting_bundles cn);
  pv_acks : NoDup ((included_in_block_ack <$> waiting_bundles cn) ++ (oc_acks (cn_channels cn)).*1);
  pv_acks_old : forall a, a ∈ (included_in_block_ack <$> waiting_bundles cn) ++ (oc_acks (cn_channels cn)).*1 ->
    a < oc_next (cn_channels cn);
  pv_channels : NoDup (status_channels cn).*2;
  pv_channels_old : forall s, s ∈ (status_channels cn).*2 -> s < oc_next (cn_channels cn);
  pv_told : forall r s, (r, s) ∈ status_channels cn <->
    subscribed cn r s \/ told cn s (Sequenced r) \/ told cn s (GarbageCollected r);
  pv_once : NoDup (oc_statuses (cn_channels cn)).*1;
  pv_still : forall r s, subscribed cn r s -> s ∉ (oc_statuses (cn_channels cn)).*1;
  pv_lists : forall r l, block_status_subscribers cn !! r = Some l -> NoDup l;
}.

Section informed.
Context (context : Context).
Implicit Types cn : TransactionConsumer.

(** The block of a status channel is determined. *)
Lemma status_channel_block cn r1 r2 s :
  pool_inv context cn -> (r1, s) ∈ status_channels cn -> (r2, s) ∈ status_channels cn -> r1 = r2.
Proof.
  intros Hi H1 H2.
  pose proof (NoDup_fmap_elem_inj snd (status_channels cn) (r1, s) (r2, s) (pv_channels _ _ Hi) H1 H2 eq_refl) as [= ->].
  done.
Qed.

Lemma subscribed_channel cn r s : pool_inv context cn -> subscribed cn r s -> (r, s) ∈ status_channels cn.
Proof. intros Hi Hs. apply (pv_told _ _ Hi). by left. Qed.

(** Telling the subscribers of one block. *)
Lemma notify_block_told f cn r s status :
  told (notify_block f cn r) s status <-> told cn s status \/ subscribed cn r s /\ status = f r.
Proof.
  unfold notify_block, subscribed, told. destruct (block_status_subscribers cn !! r) as [l|] eqn:E.
  - simpl. rewrite elem_of_app, list_elem_of_fmap. split.
    + intros [?|(x & [= <- <-] & Hx)]; [by left|]. right. split; [by exists l|done].
    + intros [?|[(l' & [= <-] & Hs) ->]]; [by left|]. right. by exists s.
  - split; [by left|]. intros [?|[(l & ? & _) _]]; done.
Qed.

Lemma notify_block_subscribed f cn r r' s :
  subscribed (notify_block f cn r) r' s <-> r' <> r /\ subscribed cn r' s.
Proof.
  unfold notify_block, subscribed. destruct (block_status_subscribers cn !! r) as [l|] eqn:E; simpl.
  - split.
    + intros (l' & Hl & Hs). apply lookup_delete_Some in Hl as [? Hl]. split; [done|by exists l'].
    + intros (Hne & l' & Hl & Hs). exists l'. by rewrite lookup_delete_ne.
  - split; [|tauto]. intros (l & Hl & Hs). split; [congruence|by exists l].
Qed.

Lemma notify_block_same f cn r :
  waiting_bundles (notify_block f cn r) = waiting_bundles cn
  /\ oc_acks (cn_channels (notify_block f cn r)) = oc_acks (cn_channels cn)
  /\ oc_next (cn_channels (notify_block f cn r)) = oc_next (cn_channels cn).
Proof. unfold notify_block. by destruct (block_status_subscribers cn !! r). Qed.

Lemma notify_block_inv f cn r :
  f = Sequenced \/ f = GarbageCollected -> pool_inv context cn -> pool_inv context (notify_block f cn r).
Proof.
  intros Hf Hi. destruct (notify_block_same f cn r) as (Ew & Ea & En).
  assert (status_channels (notify_block f cn r) = status_channels cn) as Ec by (unfold status_channels; by rewrite Ea).
  constructor; rewrite ?Ew, ?Ea, ?En, ?Ec; try apply Hi.
  - unfold notify_block. destruct (block_status_subscribers cn !! r); apply Hi.
  - unfold notify_block. destruct (block_status_subscribers cn !! r); apply Hi.
  - intros r' s. rewrite !notify_block_told, notify_block_subscribed, (pv_told _ _ Hi).
    destruct (decide (r' = r)) as [->|Hne]; [|destruct Hf as [-> | ->]; naive_solver].
    destruct Hf as [-> | ->]; naive_solver.
  - unfold notify_block. destruct (block_status_subscribers cn !! r) as [l|] eqn:E; [|apply Hi]. simpl.
    rewrite fmap_app, <- list_fmap_compose. simpl. rewrite list_fmap_id. apply NoDup_app. split_and!.
    + apply (pv_once _ _ Hi).
    + intros s Hs Hin. apply (pv_still _ _ Hi r s); [by exists l|done].
    + by apply (pv_lists _ _ Hi r).
  - intros r' s [Hne Hs]%notify_block_subscribed (x & -> & Hx)%list_elem_of_fmap. destruct x as [s status]. simpl in *.
    apply notify_block_told in Hx as [Hx|[Hx _]].
    + apply (pv_still _ _ Hi r' s Hs). apply list_elem_of_fmap. by exists (s, status).
    + apply Hne, (status_channel_block cn r' r s Hi); by apply subscribed_channel.
  - unfold notify_block. destruct (block_status_subscribers cn !! r) as [l|]; [|apply Hi]. simpl.
    intros r' l' [_ Hl]%lookup_delete_Some. by apply (pv_lists _ _ Hi r').
Qed.

Lemma notify_blocks_Ok f refs : forall cn,
  let cn' := foldl (notify_block f) cn refs in
  f = Sequenced \/ f = GarbageCollected -> pool_inv context cn ->
  pool_inv context cn'
  /\ (forall r s, subscribed cn' r s <-> r ∉ refs /\ subscribed cn r s)
  /\ (forall s status, told cn' s status <->
        told cn s status \/ exists r, r ∈ refs /\ subscribed cn r s /\ status = f r).
Proof.
  induction refs as [|r refs IH]; intros cn cn' Hf Hi.
  { unfold cn'. simpl. split_and!; [done| |].
    - intros r s. split; [|tauto]. intros ?. split; [|done]. by apply not_elem_of_nil.
    - intros s status. split; [by left|]. intros [?|(r & Hr & _)]; [done|]. by apply elem_of_nil in Hr. }
  destruct (IH (notify_block f cn r) Hf (notify_block_inv f cn r Hf Hi)) as (Hi' & Hsub & Htold).
  unfold cn'. cbn [foldl]. split_and!; [done| |].
  - intros r' s. rewrite Hsub, notify_block_subscribed, not_elem_of_cons. tauto.
  - intros s status. rewrite Htold, notify_block_told. split.
    + intros [[?|[? ->]]|(r' & ? & [_ ?]%notify_block_subscribed & ->)]; [by left|right; exists r|right; exists r'];
        (split_and!; [set_solver|done..]).
    + intros [?|(r' & Hr & Hs & ->)]; [by do 2 left|]. destruct (decide (r' = r)) as [->|Hne]; [left; by right|].
      right. exists r'. split_and!; [set_solver|by apply notify_block_subscribed|done].
Qed.

Lemma popped_blocks cn gc r :
  r ∈ take_while (fun r => br_round r <=? gc) (btree_map_iter (block_status_subscribers cn)).*1 <->
  is_Some (block_status_subscribers cn !! r) /\ br_round r <= gc.
Proof.
  rewrite (take_while_sorted (fun a b => key_leb a b = true)).
  - rewrite list_filter_elem_of, N.leb_le, list_elem_of_fmap. split.
    + intros [? ([r' l] & -> & Hr%elem_of_btree_map_iter)]. split; [by eexists|done].
    + intros [[l Hl] ?]. split; [done|]. exists (r, l). split; [done|]. by apply elem_of_btree_map_iter.
  - intros x y Hxy%block_ref_leb_round. rewrite !N.leb_le. lia.
  - apply btree_map_iter_sorted.
Qed.

Lemma notify_status_Ok cn committed gc :
  let cn' := notify_own_blocks_status cn committed gc in
  pool_inv context cn ->
  pool_inv context cn'
  /\ (forall r s, subscribed cn' r s <-> subscribed cn r s /\ r ∉ committed /\ gc < br_round r)
  /\ (forall s status, told cn' s status <->
        told cn s status
        \/ exists r, subscribed cn r s /\ (r ∈ committed /\ status = Sequenced r
             \/ r ∉ committed /\ br_round r <= gc /\ status = GarbageCollected r)).
Proof.
  intros cn' Hi. destruct (notify_blocks_Ok Sequenced committed cn (or_introl eq_refl) Hi) as (Hi1 & Hs1 & Ht1).
  set (cn1 := foldl (notify_block Sequenced) cn committed) in *.
  destruct (notify_blocks_Ok GarbageCollected
    (take_while (fun r => br_round r <=? gc) (btree_map_iter (block_status_subscribers cn1)).*1) cn1
    (or_intror eq_refl) Hi1) as (Hi2 & Hs2 & Ht2).
  split_and!; [done| |].
  - intros r s. unfold cn', notify_own_blocks_status. fold cn1. rewrite Hs2, popped_blocks, Hs1. split.
    + intros [Hn [Hc Hs]]. split_and!; [done..|]. apply N.lt_nge. intros Hle. apply Hn. split; [|done].
      destruct (proj2 (Hs1 r s) (conj Hc Hs)) as (l & ? & _). by exists l.
    + intros (Hs & Hc & Hgc). split; [|done]. intros [_ ?]. lia.
  - intros s status. unfold cn', notify_own_blocks_status. fold cn1. rewrite Ht2, Ht1.
    setoid_rewrite popped_blocks. setoid_rewrite Hs1. split.
    + intros [[?|(r & ? & ? & ->)]|(r & [_ ?] & [? ?] & ->)]; [by left|right; exists r; tauto..].
    + intros [?|(r & Hs & [[? ->]|(Hc & Hgc & ->)])]; [by do 2 left|left; right; by exists r|].
      right. exists r. split_and!; try done. destruct (proj2 (Hs1 r s) (conj Hc Hs)) as (l & ? & _). by exists l.
Qed.

(** Acknowledging a bundle subscribes its submitter on a new channel. *)
Lemma ack_subscribed cn r a r' s :
  subscribed (ack_transaction r cn a) r' s <-> subscribed cn r' s \/ r' = r /\ s = oc_next (cn_channels cn).
Proof.
  unfold subscribed. simpl. destruct (decide (r' = r)) as [->|Hne].
  - setoid_rewrite lookup_insert_eq. split.
    + intros (l & [= <-] & Hs). apply elem_of_app in Hs as [Hs| ->%list_elem_of_singleton]; [left|by right].
      destruct (block_status_subscribers cn !! r) as [l|]; [by exists l|]. by apply elem_of_nil in Hs.
    + intros [(l & Hl & Hs)|[_ ->]]; eexists; (split; [done|]); rewrite elem_of_app.
      * left. by rewrite Hl.
      * right. by apply list_elem_of_singleton.
  - setoid_rewrite lookup_insert_ne; [|done]. split; [by left|]. intros [?|[? _]]; done.
Qed.

Lemma ack_transaction_inv cn r a :
  pool_inv context cn ->
  a.1 ∉ (included_in_block_ack <$> waiting_bundles cn) ++ (oc_acks (cn_channels cn)).*1 ->
  a.1 < oc_next (cn_channels cn) -> pool_inv context (ack_transaction r cn a).
Proof.
  intros Hi Hnew Hold.
  assert (status_channels (ack_transaction r cn a) = status_channels cn ++ [(r, oc_next (cn_channels cn))]) as Ec.
  { unfold status_channels. simpl. by rewrite fmap_app. }
  assert (oc_next (cn_channels cn) ∉ (status_channels cn).*2) as Hfresh.
  { intros Hin%(pv_channels_old _ _ Hi). lia. }
  constructor; rewrite ?Ec; try apply Hi.
  - simpl. rewrite fmap_app, app_assoc. apply NoDup_app. split_and!; [apply Hi| |apply NoDup_singleton].
    intros x Hx ->%list_elem_of_singleton. by apply Hnew.
  - simpl. intros x. rewrite fmap_app, app_assoc, elem_of_app. intros [Hx%(pv_acks_old _ _ Hi)|Hx].
    + lia.
    + apply list_elem_of_singleton in Hx as ->. simpl. lia.
  - rewrite fmap_app. apply NoDup_app. split_and!; [apply Hi| |apply NoDup_singleton].
    intros x Hx ->%list_elem_of_singleton. by apply Hfresh.
  - simpl. intros s. rewrite fmap_app, elem_of_app. intros [Hs%(pv_channels_old _ _ Hi)|Hs].
    + lia.
    + apply list_elem_of_singleton in Hs as ->. simpl. lia.
  - intros r' s. rewrite elem_of_app, list_elem_of_singleton, (pv_told _ _ Hi), ack_subscribed.
    change (told (ack_transaction r cn a)) with (told cn). rewrite pair_eq. tauto.
  - intros r' s [Hs|[-> ->]]%ack_subscribed; [by apply (pv_still _ _ Hi r')|]. simpl.
    intros (x & Hx & Hin)%list_elem_of_fmap. destruct x as [s status]. simpl in Hx. subst s.
    apply Hfresh, list_elem_of_fmap. destruct status as [r'|r']; exists (r', oc_next (cn_channels cn)); (split; [done|]);
      apply (pv_told _ _ Hi); tauto.
  - simpl. intros r' l. destruct (decide (r' = r)) as [->|Hne].
    + rewrite lookup_insert_eq. intros [= <-]. destruct (block_status_subscribers cn !! r) as [l|] eqn:E; simpl.
      * apply NoDup_app. split_and!; [by apply (pv_lists _ _ Hi r)| |apply NoDup_singleton].
        intros s Hs ->%list_elem_of_singleton. apply Hfresh, list_elem_of_fmap.
        exists (r, oc_next (cn_channels cn)). split; [done|]. apply subscribed_channel; [done|by exists l].
      * apply NoDup_singleton.
    + rewrite lookup_insert_ne by done. apply (pv_lists _ _ Hi).
Qed.

Lemma ack_transactions_inv acks : forall cn r,
  pool_inv context cn ->
  NoDup ((included_in_block_ack <$> waiting_bundles cn) ++ (oc_acks (cn_channels cn)).*1 ++ acks.*1) ->
  (forall a, a ∈ acks.*1 -> a < oc_next (cn_channels cn)) -> pool_inv context (ack_transactions cn acks r).
Proof.
  induction acks as [|a acks IH]; intros cn r Hi Hnd Hold; [done|].
  unfold ack_transactions. cbn [foldl]. apply IH.
  - apply ack_transaction_inv; [done| |apply Hold; by left].
    rewrite app_assoc in Hnd. apply NoDup_app in Hnd as (_ & Hd & _). intros Hin. apply (Hd _ Hin). by left.
  - simpl. rewrite fmap_app, <- app_assoc. done.
  - simpl. intros x Hx. assert (x < oc_next (cn_channels cn)) by (apply Hold; by right). lia.
Qed.

(** Taking the next bundles and acknowledging them. *)
Lemma next_ack_inv cn cn' txs acks limit r :
  limits_ok context -> pool_inv context cn -> consumer_next cn = (cn', txs, acks, limit) ->
  pool_inv context (ack_transactions cn' acks r).
Proof.
  intros Hlim Hi E.
  destruct (consumer_next_Ok context Hlim cn (pv_bytes _ _ Hi) (pv_num _ _ Hi) (pv_fits _ _ Hi))
    as (self' & txs' & acks' & limit' & taken & E' & Ew & Es & _ & Hacks & _).
  rewrite E in E'. injection E' as <- <- <- <-.
  assert (acks.*1 = included_in_block_ack <$> taken) as Eids.
  { clear - Hacks. induction Hacks as [|t a taken acks [Ha _] _ IH]; [done|]. simpl. by f_equal. }
  pose proof (pv_acks _ _ Hi) as Hnd. pose proof (pv_acks_old _ _ Hi) as Hold. rewrite Ew, fmap_app in Hnd, Hold.
  assert (cn_channels cn' = cn_channels cn) as Ech by (by rewrite Es).
  apply ack_transactions_inv.
  - pose proof (pv_fits _ _ Hi) as Hf. rewrite Ew in Hf. apply Forall_app in Hf as [_ Hf].
    pose proof (pv_sizes _ _ Hi) as Hz. rewrite Ew in Hz. apply Forall_app in Hz as [_ Hz].
    rewrite <- app_assoc in Hnd. apply NoDup_app in Hnd as (_ & _ & Hnd).
    rewrite Es in *. constructor; simpl; try apply Hi; try done.
    intros a Ha. apply Hold. rewrite <- app_assoc. apply elem_of_app. by right.
  - rewrite Ech, Eids. rewrite <- app_assoc, (Permutation_app_comm (included_in_block_ack <$> taken)), <- app_assoc in Hnd.
    done.
  - intros a Ha. rewrite Ech. apply Hold. rewrite Eids in Ha. apply elem_of_app. left. apply elem_of_app. by left.
Qed.

(** What a client's call does to the consumer's end of the channel. *)
Definition with_input cn (channel : InputChannel) (channels : OneshotChannels) : TransactionConsumer :=
  {| tx_receiver := channel;
     cn_max_transactions_in_block_bytes := cn_max_transactions_in_block_bytes cn;
     cn_max_num_transactions_in_block := cn_max_num_transactions_in_block cn;
     pending_transactions := pending_transactions cn;
     block_status_subscribers := block_status_subscribers cn;
     cn_channels := channels |}.

Lemma submit_inv message cn transactions channel channels res :
  limits_ok context -> pool_inv context cn ->
  submit_no_wait message (client_of context) (tx_receiver cn) (cn_channels cn) transactions = (channel, channels, res) ->
  pool_inv context (with_input cn channel channels).
Proof.
  intros Hlim Hi. unfold submit_no_wait.
  assert (with_input cn (tx_receiver cn) (cn_channels cn) = cn) as Esame by (by destruct cn).
  destruct (validate_bundle (client_of context) transactions) eqn:Ev; [intros [= <- <- <-]; by rewrite Esame|].
  destruct (negb (ic_open (tx_receiver cn))); [intros [= <- <- <-]; by rewrite Esame|].
  destruct (_ <=? _); [intros [= <- <- <-]; by rewrite Esame|]. intros [= <- <- <-].
  apply (validate_bundle_None context transactions Hlim) in Ev as [Hsz Hfit].
  set (t := mkTransactionsGuard _ _). set (cn' := with_input _ _ _).
  assert (waiting_bundles cn' = waiting_bundles cn ++ [t]) as Ew by (unfold waiting_bundles; simpl; by rewrite app_assoc).
  pose proof (pv_acks_old _ _ Hi) as Hold. pose proof (pv_channels_old _ _ Hi) as Hch.
  constructor; rewrite ?Ew; try apply Hi; simpl.
  - apply Forall_app. split; [apply Hi|]. constructor; [|done]. apply Hfit.
  - apply Forall_app. split; [apply Hi|]. constructor; [|done]. unfold sized. by apply Forall_fmap.
  - rewrite fmap_app, <- app_assoc. simpl. rewrite <- Permutation_middle. constructor; [|apply Hi].
    intros Hin%Hold. lia.
  - intros a. rewrite fmap_app, <- app_assoc. simpl. rewrite <- Permutation_middle. intros [->|Ha]%elem_of_cons; [lia|].
    specialize (Hold a Ha). lia.
  - intros s Hs. specialize (Hch s Hs). lia.
Qed.
End informed.

(* ------------------------------------------------------------------ *)
(** ** Runs of clients and the consumer *)

(** The consumer after any calls: clients submit, the proposer takes
    transactions and acknowledges them for its block, and the core tells which
    own blocks were committed. *)
Inductive pool_reachable (context : Context) : TransactionConsumer -> Prop :=
  | pool_start cn :
      transaction_consumer_new (transaction_client_new context).2 (mkOneshotChannels 0 [] []) context = Ok cn ->
      pool_reachable context cn
  | pool_submit cn message transactions channel channels res :
      pool_reachable context cn ->
      submit_no_wait message (client_of context) (tx_receiver cn) (cn_channels cn) transactions
      = (channel, channels, res) ->
      pool_reachable context (with_input cn channel channels)
  | pool_next cn cn' txs acks limit block_ref :
      pool_reachable context cn -> consumer_next cn = (cn', txs, acks, limit) ->
      pool_reachable context (ack_transactions cn' acks block_ref)
  | pool_notify cn committed gc :
      pool_reachable context cn -> pool_reachable context (notify_own_blocks_status cn committed gc).

Lemma pool_reachable_inv context cn : limits_ok context -> pool_reachable context cn -> pool_inv context cn.
Proof.
  intros Hlim. induction 1 as [cn E|cn m ts ch chs res _ IH E|cn cn' txs acks lim r _ IH E|cn committed gc _ IH].
  - unfold transaction_consumer_new in E. outcome_step E. injection E as <-. constructor; simpl; try done; try constructor.
    + intros a Ha. by apply elem_of_nil in Ha.
    + intros s Hs. by apply elem_of_nil in Hs.
    + by intros ?%elem_of_nil.
    + intros [(l & Hl & _)|[Hs|Hs]]; [simpl in Hl; by rewrite lookup_empty in Hl|by apply elem_of_nil in Hs..].
    + intros r s (l & Hl & _). simpl in Hl. by rewrite lookup_empty in Hl.
  - by apply (submit_inv context m cn ts ch chs res).
  - by apply (next_ack_inv context cn cn' txs acks lim).
  - by apply notify_status_Ok.
Qed.

(** A client queues exactly the bundles whose transactions respect the limit
    on their size and which fit into an empty block, as long as the channel is
    open and has room. *)
Lemma submit_no_wait_queues context message channel channels transactions :
  limits_ok context ->
  (exists ack, (submit_no_wait message (client_of context) channel channels transactions).2 = Queued ack) <->
  Forall (fun t => N.of_nat (length t) <= max_transaction_size_bytes (protocol_config context)) transactions
  /\ (forall ack, fits context (mkTransactionsGuard (mkTransaction <$> transactions) ack))
  /\ ic_open channel = true /\ N.of_nat (length (ic_queue channel)) < ic_capacity channel.
Proof.
  intros Hlim. pose proof (validate_bundle_None context transactions Hlim) as Hv. unfold submit_no_wait.
  destruct (validate_bundle (client_of context) transactions) as [e|].
  { split; [by intros [??]|]. intros (H1 & H2 & _). by specialize (proj2 Hv (conj H1 H2)). }
  destruct (proj1 Hv eq_refl) as [H1 H2]. destruct (ic_open channel); simpl.
  - destruct (N.leb_spec (ic_capacity channel) (N.of_nat (length (ic_queue channel)))) as [Hle|Hlt]; simpl.
    + split; [by intros [??]|]. intros (_ & _ & _ & ?). lia.
    + split; [done|]. intros _. by eexists.
  - split; [by intros [??]|]. by intros (_ & _ & ? & _).
Qed.

(* ------------------------------------------------------------------ *)
(** ** Properties *)

(** C22: Taking transactions for a block.  At any point of a run of clients and
    consumer, [next] takes the longest prefix of the waiting bundles, in the
    order of submission, that respects both limits of a block, and at least
    one if any wait; a bundle goes in whole or waits, and none is dropped.  Each
    acknowledgement names the positions of the bundle's transactions in the
    block, none of which is a reserved index, or the ping index for an empty
    bundle.  The reported limit is the one that the next bundle exceeds. *)
Theorem next_takes_whole_bundles (context : Context) (cn : TransactionConsumer) :
  limits_ok context -> pool_reachable context cn ->
  exists cn' txs acks limit taken,
    consumer_next cn = (cn', txs, acks, limit)
    /\ waiting_bundles cn = taken ++ waiting_bundles cn'
    /\ txs = taken ≫= tg_transactions /\ Forall2 (acknowledges txs) taken acks
    /\ N.of_nat (length txs) <= max_num_transactions_in_block (protocol_config context)
    /\ sum_N (bundle_bytes <$> taken) <= max_transactions_in_block_bytes (protocol_config context)
    /\ (waiting_bundles cn <> [] -> taken <> [])
    /\ match waiting_bundles cn' with
       | [] => limit = AllTransactionsIncluded
       | t :: _ => over_limit context (mkPull txs acks (sum_N (bundle_bytes <$> taken)) limit) t limit
       end.
Proof.
  intros Hlim Hr. pose proof (pool_reachable_inv context cn Hlim Hr) as Hi.
  destruct (consumer_next_Ok context Hlim cn (pv_bytes _ _ Hi) (pv_num _ _ Hi) (pv_fits _ _ Hi))
    as (cn' & txs & acks & limit & taken & E & Ew & _ & Ht & Ha & Hn & Hb & Hp & Hl).
  by exists cn', txs, acks, limit, taken.
Qed.

(** C24: Submitters are informed.  At any point of a run, no bundle is
    acknowledged twice or while it waits, and the status channel of every
    acknowledged bundle is either still subscribed for the bundle's block or has
    been told that this block was sequenced or garbage collected, once.  When
    the core reports committed blocks and a garbage collection round, exactly
    the subscribers of committed blocks are told they are sequenced, exactly
    those of other blocks up to the round that they are garbage collected, and
    only the subscribers of later blocks stay. *)
Theorem submitters_informed (context : Context) (cn : TransactionConsumer) (committed : list BlockRef) (gc : N) :
  let cn' := notify_own_blocks_status cn committed gc in
  limits_ok context -> pool_reachable context cn ->
  NoDup ((included_in_block_ack <$> waiting_bundles cn) ++ (oc_acks (cn_channels cn)).*1)
  /\ NoDup (oc_statuses (cn_channels cn)).*1
  /\ (forall r s, (r, s) ∈ status_channels cn <->
        subscribed cn r s \/ told cn s (Sequenced r) \/ told cn s (GarbageCollected r))
  /\ (forall r s, subscribed cn r s -> s ∉ (oc_statuses (cn_channels cn)).*1)
  /\ (forall r s, subscribed cn' r s <-> subscribed cn r s /\ r ∉ committed /\ gc < br_round r)
  /\ (forall s status, told cn' s status <->
        told cn s status
        \/ exists r, subscribed cn r s /\ (r ∈ committed /\ status = Sequenced r
             \/ r ∉ committed /\ br_round r <= gc /\ status = GarbageCollected r)).
Proof.
  intros cn' Hlim Hr. pose proof (pool_reachable_inv context cn Hlim Hr) as Hi.
  destruct (notify_status_Ok context cn committed gc Hi) as (_ & Hs & Ht).
  split_and!; [apply Hi|apply Hi|apply Hi|apply Hi|done|done].
Qed.

(* ------------------------------------------------------------------ *)
(** ** Witnesses *)

(** A configuration with blocks of two transactions. *)
Definition pool_context : Context :=
  mkContext 0 0 (test_committee 4) (mkParameters 500 100 false 50000000 5 32 1000 8 32)
    {| protocol_version := 0; chain := Unknown; max_transaction_size_bytes := 4;
       max_transactions_in_block_bytes := 8; max_num_transactions_in_block := 2; gc_depth := 60;
       transaction_voting_enabled := true; num_leaders_per_round := Some 1; bad_nodes_stake_threshold := 30;
       enable_v3 := false; leader_schedule_window_size_ := 600; leader_schedule_update_interval_ := 60 |}.

Lemma pool_limits_ok : limits_ok pool_context.
Proof. by constructor. Qed.

(** The state after submitting bundles, each of which must be queued. *)
Definition submit_all (cn : TransactionConsumer) (bundles : list (list (list byte))) : TransactionConsumer :=
  foldl (fun cn ts =>
           let '(ch, chs, _) := submit_no_wait "closed" (client_of pool_context) (tx_receiver cn) (cn_channels cn) ts in
           with_input cn ch chs) cn bundles.

Lemma submit_all_reachable cn bundles :
  pool_reachable pool_context cn -> pool_reachable pool_context (submit_all cn bundles).
Proof.
  revert cn. induction bundles as [|ts bundles IH]; intros cn Hr; [done|]. cbn [submit_all foldl]. apply IH.
  destruct (submit_no_wait _ _ _ _ ts) as [[ch chs] res] eqn:E. by apply (pool_submit pool_context cn "closed" ts ch chs res).
Qed.

Definition empty_pool : TransactionConsumer :=
  mkTransactionConsumer (mkInputChannel [] 2000 true) 8 2 None ∅ (mkOneshotChannels 0 [] []).

(** A bundle of one transaction, a ping, and a bundle of two that must wait. *)
Definition sample_bundles : list (list (list byte)) := [[[x01]]; []; [[x02]; [x03; x04]]].

Definition sample_block_ref : BlockRef := mkBlockRef 5 0 7.

Definition full_pool : TransactionConsumer := submit_all empty_pool sample_bundles.

Lemma full_pool_reachable : pool_reachable pool_context full_pool.
Proof. apply submit_all_reachable, pool_start. reflexivity. Qed.

(** The first block holds the first bundle, and answers the ping. *)
Example sample_next :
  let '(cn, txs, acks, limit) := consumer_next full_pool in
  txs = [mkTransaction [x01]] /\ acks = [(0, [0]); (1, [PING_TRANSACTION_INDEX])] /\ limit = MaxNumOfTransactions
  /\ waiting_bundles cn = [mkTransactionsGuard [mkTransaction [x02]; mkTransaction [x03; x04]] 2].
Proof. vm_compute. done. Qed.

Lemma next_takes_whole_bundles_witness :
  exists cn' txs acks limit taken,
    consumer_next full_pool = (cn', txs, acks, limit)
    /\ waiting_bundles full_pool = taken ++ waiting_bundles cn'
    /\ txs = taken ≫= tg_transactions /\ Forall2 (acknowledges txs) taken acks
    /\ N.of_nat (length txs) <= 2 /\ sum_N (bundle_bytes <$> taken) <= 8
    /\ (waiting_bundles full_pool <> [] -> taken <> [])
    /\ match waiting_bundles cn' with
       | [] => limit = AllTransactionsIncluded
       | t :: _ => over_limit pool_context (mkPull txs acks (sum_N (bundle_bytes <$> taken)) limit) t limit
       end.
Proof. exact (next_takes_whole_bundles pool_context full_pool pool_limits_ok full_pool_reachable). Defined.

(** The consumer after the block of the first bundles is made. *)
Definition acked_pool : TransactionConsumer :=
  let '(cn, _, acks, _) := consumer_next full_pool in ack_transactions cn acks sample_block_ref.

Lemma acked_pool_reachable : pool_reachable pool_context acked_pool.
Proof.
  unfold acked_pool. destruct (consumer_next full_pool) as [[[cn txs] acks] limit] eqn:E.
  exact (pool_next pool_context full_pool cn txs acks limit sample_block_ref full_pool_reachable E).
Qed.

Lemma submitters_informed_witness :
  told (notify_own_blocks_status acked_pool [sample_block_ref] 2) 4 (Sequenced sample_block_ref).
Proof.
  destruct (submitters_informed pool_context acked_pool [sample_block_ref] 2 pool_limits_ok acked_pool_reachable)
    as (_ & _ & _ & _ & _ & Ht).
  apply Ht. right. exists sample_block_ref. split.
  - exists [3; 4]. split; [vm_compute; reflexivity|]. right. by left.
  - left. split; [by left|done].
Defined.
