(* ===== verification/DagState.v ===== *)
(** * The DAG state

    Models [crates/consensus/src/dag_state.rs]: the accepted blocks, cached in
    memory and persisted in a store, with the metadata derived from them
    (per-author references, per-round aggregates of the version 3 rules, the
    threshold clock), the last commit and what is buffered for the store.

    One record field per field of the struct; the wall-clock instant of the
    last commit, kept for a metric, is left out.  The traversals loop on fuel:
    [ancestors_at_round] on the number of cached blocks, which bounds the
    blocks above the garbage collection round, and [link_causal_history] on the
    number of references in cached blocks. *)

From S2P Require Import Prelude Committee Context Block StakeAggregator ThresholdClock Commit Store LeaderScoring.

Record BlockInfo := mkBlockInfo {
  bi_block : VerifiedBlock;
  bi_children : gset BlockRef;
  bi_children_stake : StakeAggregator QuorumThreshold;
  bi_committed : bool;
  bi_included : bool;
}.

Definition block_info_new (block : VerifiedBlock) : BlockInfo :=
  {| bi_block := block; bi_children := ∅; bi_children_stake := stake_aggregator_new;
     bi_committed := false; bi_included := false |}.

Record RoundInfo := mkRoundInfo {
  ri_round : N;
  ri_blocks : gset BlockRef;
  ri_total_stake : StakeAggregator QuorumThreshold;
}.

Definition round_info_new (round : N) : RoundInfo :=
  {| ri_round := round; ri_blocks := ∅; ri_total_stake := stake_aggregator_new |}.

Record DagState (S : Type) := mkDagState {
  ds_context : Context;
  ds_genesis : gmap BlockRef VerifiedBlock;
  ds_recent_blocks : gmap BlockRef BlockInfo;
  ds_recent_refs_by_authority : list (gset BlockRef);
  ds_round_info : list RoundInfo;
  ds_threshold_clock : ThresholdClock;
  ds_evicted_rounds : list N;
  ds_highest_accepted_round : N;
  ds_last_commit : option TrustedCommit;
  ds_last_committed_rounds : list N;
  ds_scoring_subdag : ScoringSubdag;
  ds_pending_commit_votes : list CommitRef;
  ds_blocks_to_write : list VerifiedBlock;
  ds_commits_to_write : list TrustedCommit;
  ds_commit_info_to_write : list (CommitRef * CommitInfo);
  ds_finalized_commits_to_write : list (CommitRef * gmap BlockRef (list N));
  ds_store : S;
  ds_cached_rounds : N;
}.
Arguments mkDagState {S}.
Arguments ds_context {S}.
Arguments ds_genesis {S}.
Arguments ds_recent_blocks {S}.
Arguments ds_recent_refs_by_authority {S}.
Arguments ds_round_info {S}.
Arguments ds_threshold_clock {S}.
Arguments ds_evicted_rounds {S}.
Arguments ds_highest_accepted_round {S}.
Arguments ds_last_commit {S}.
Arguments ds_last_committed_rounds {S}.
Arguments ds_scoring_subdag {S}.
Arguments ds_pending_commit_votes {S}.
Arguments ds_blocks_to_write {S}.
Arguments ds_commits_to_write {S}.
Arguments ds_commit_info_to_write {S}.
Arguments ds_finalized_commits_to_write {S}.
Arguments ds_store {S}.
Arguments ds_cached_rounds {S}.

(** The state with the cache fields replaced, *)
Definition with_cache {S} (s : DagState S) (recent : gmap BlockRef BlockInfo)
    (refs : list (gset BlockRef)) (infos : list RoundInfo) (clock : ThresholdClock)
    (evicted : list N) (highest : N) : DagState S := {|
  ds_context := ds_context s; ds_genesis := ds_genesis s;
  ds_recent_blocks := recent; ds_recent_refs_by_authority := refs; ds_round_info := infos;
  ds_threshold_clock := clock; ds_evicted_rounds := evicted;
  ds_highest_accepted_round := highest;
  ds_last_commit := ds_last_commit s; ds_last_committed_rounds := ds_last_committed_rounds s;
  ds_scoring_subdag := ds_scoring_subdag s; ds_pending_commit_votes := ds_pending_commit_votes s;
  ds_blocks_to_write := ds_blocks_to_write s; ds_commits_to_write := ds_commits_to_write s;
  ds_commit_info_to_write := ds_commit_info_to_write s;
  ds_finalized_commits_to_write := ds_finalized_commits_to_write s;
  ds_store := ds_store s; ds_cached_rounds := ds_cached_rounds s |}.

(** with the commit fields replaced, *)
Definition with_commit {S} (s : DagState S) (last : option TrustedCommit) (rounds : list N)
    (scoring : ScoringSubdag) (votes : list CommitRef) : DagState S := {|
  ds_context := ds_context s; ds_genesis := ds_genesis s;
  ds_recent_blocks := ds_recent_blocks s;
  ds_recent_refs_by_authority := ds_recent_refs_by_authority s;
  ds_round_info := ds_round_info s; ds_threshold_clock := ds_threshold_clock s;
  ds_evicted_rounds := ds_evicted_rounds s;
  ds_highest_accepted_round := ds_highest_accepted_round s;
  ds_last_commit := last; ds_last_committed_rounds := rounds;
  ds_scoring_subdag := scoring; ds_pending_commit_votes := votes;
  ds_blocks_to_write := ds_blocks_to_write s; ds_commits_to_write := ds_commits_to_write s;
  ds_commit_info_to_write := ds_commit_info_to_write s;
  ds_finalized_commits_to_write := ds_finalized_commits_to_write s;
  ds_store := ds_store s; ds_cached_rounds := ds_cached_rounds s |}.

(** and with the write buffers and the store replaced. *)
Definition with_buffers {S} (s : DagState S) (blocks : list VerifiedBlock)
    (commits : list TrustedCommit) (infos : list (CommitRef * CommitInfo))
    (finalized : list (CommitRef * gmap BlockRef (list N))) (store : S) : DagState S := {|
  ds_context := ds_context s; ds_genesis := ds_genesis s;
  ds_recent_blocks := ds_recent_blocks s;
  ds_recent_refs_by_authority := ds_recent_refs_by_authority s;
  ds_round_info := ds_round_info s; ds_threshold_clock := ds_threshold_clock s;
  ds_evicted_rounds := ds_evicted_rounds s;
  ds_highest_accepted_round := ds_highest_accepted_round s;
  ds_last_commit := ds_last_commit s; ds_last_committed_rounds := ds_last_committed_rounds s;
  ds_scoring_subdag := ds_scoring_subdag s; ds_pending_commit_votes := ds_pending_commit_votes s;
  ds_blocks_to_write := blocks; ds_commits_to_write := commits;
  ds_commit_info_to_write := infos;
  ds_finalized_commits_to_write := finalized;
  ds_store := store; ds_cached_rounds := ds_cached_rounds s |}.

Definition set_recent_blocks {S} (s : DagState S) (recent : gmap BlockRef BlockInfo) : DagState S :=
  with_cache s recent (ds_recent_refs_by_authority s) (ds_round_info s)
    (ds_threshold_clock s) (ds_evicted_rounds s) (ds_highest_accepted_round s).

Definition set_round_info {S} (s : DagState S) (infos : list RoundInfo) : DagState S :=
  with_cache s (ds_recent_blocks s) (ds_recent_refs_by_authority s) infos
    (ds_threshold_clock s) (ds_evicted_rounds s) (ds_highest_accepted_round s).

(** The state's committee. *)
Definition ds_committee {S} (s : DagState S) : Committee := committee (ds_context s).

(* ------------------------------------------------------------------ *)
(** ** The last commit and the garbage collection round *)

Section dag_state.
Context {S : Type} `{Store S}.
Implicit Types s : DagState S.

Definition last_commit_index s : N :=
  match ds_last_commit s with Some commit => commit_index commit | None => 0 end.

Definition last_commit_digest s : N :=
  match ds_last_commit s with Some commit => tcm_digest commit | None => COMMIT_DIGEST_MIN end.

Definition last_commit_timestamp_ms s : N :=
  match ds_last_commit s with Some commit => commit_timestamp_ms commit | None => 0 end.

Definition last_commit_leader s : outcome Slot :=
  match ds_last_commit s with
  | Some commit => Ok (slot_of_ref (commit_leader commit))
  | None =>
      genesis ← unwrap (btree_map_first (ds_genesis s));
      Ok (slot_of_ref genesis.1)
  end.

Definition last_commit_round s : N :=
  match ds_last_commit s with Some commit => br_round (commit_leader commit) | None => 0 end.

Definition calculate_gc_round s (commit_round : N) : N :=
  saturating_sub commit_round (gc_depth (protocol_config (ds_context s))).

Definition gc_round s : N := calculate_gc_round s (last_commit_round s).

(* ------------------------------------------------------------------ *)
(** ** Reading blocks *)

(** Genesis or cached, when that settles the read. *)
Definition cached_block s (block_ref : BlockRef) : option (option VerifiedBlock) :=
  if br_round block_ref =? GENESIS_ROUND then Some (ds_genesis s !! block_ref)
  else match ds_recent_blocks s !! block_ref with
       | Some block_info => Some (Some (bi_block block_info))
       | None => None
       end.

(** Writes the results of the store at the indices that were missing. *)
Fixpoint fill_missing {A} (d : A) (l : list (option A)) (store_results : list A) : list A :=
  match l with
  | [] => []
  | Some x :: l => x :: fill_missing d l store_results
  | None :: l =>
      match store_results with
      | y :: store_results => y :: fill_missing d l store_results
      | [] => d :: fill_missing d l []
      end
  end.

Definition get_blocks s (block_refs : list BlockRef) : outcome (list (option VerifiedBlock)) :=
  let blocks := cached_block s <$> block_refs in
  let missing := omap (fun r => match cached_block s r with None => Some r | Some _ => None end)
                   block_refs in
  if is_empty missing then Ok (fill_missing None blocks [])
  else
    store_results ← store_read_blocks (ds_store s) missing;
    Ok (fill_missing None blocks store_results).

Definition get_block s (reference : BlockRef) : outcome (option VerifiedBlock) :=
  blocks ← get_blocks s [reference];
  unwrap (last blocks).

(** Cached, genesis, or above everything cached of its author, when that
    settles the check. *)
Definition cached_contains s (block_ref : BlockRef) : outcome (option bool) :=
  recent_refs ← vec_index (ds_recent_refs_by_authority s) (br_author block_ref);
  Ok (if bool_decide (block_ref ∈ recent_refs)
         || bool_decide (is_Some (ds_genesis s !! block_ref)) then Some true
      else match btree_last recent_refs with
           | None => Some false
           | Some last => if br_round last <? br_round block_ref then Some false else None
           end).

Definition contains_blocks s (block_refs : list BlockRef) : outcome (list bool) :=
  exist ← mapM (cached_contains s) block_refs;
  let missing := omap (fun x => match x.2 with None => Some x.1 | Some _ => None end)
                   (zip block_refs exist) in
  if is_empty missing then Ok (fill_missing false exist [])
  else
    store_results ← store_contains_blocks (ds_store s) missing;
    Ok (fill_missing false exist store_results).

Definition contains_block s (block_ref : BlockRef) : outcome bool :=
  blocks ← contains_blocks s [block_ref];
  unwrap (head blocks).

Definition slot_min (slot : Slot) : BlockRef :=
  mkBlockRef (s_round slot) (s_authority slot) DIGEST_MIN.
Definition slot_max (slot : Slot) : BlockRef :=
  mkBlockRef (s_round slot) (s_authority slot) DIGEST_MAX.

Definition get_block_info_at_slot s (slot : Slot) : outcome (list BlockInfo) :=
  _ ← assert_that (gc_round s <? s_round slot);
  Ok (snd <$> btree_map_range (key_between (slot_min slot) (slot_max slot)) (ds_recent_blocks s)).

Definition get_uncommitted_blocks_at_slot s (slot : Slot) : list VerifiedBlock :=
  (fun kv => bi_block kv.2)
  <$> btree_map_range (key_between (slot_min slot) (slot_max slot)) (ds_recent_blocks s).

(** A range with an excluded upper bound. *)
Definition key_in (lo hi k : BlockRef) : bool := key_leb lo k && negb (key_leb hi k).

Definition get_uncommitted_blocks_at_round s (round : N) : outcome (list VerifiedBlock) :=
  if round <=? last_commit_round s then Panic
  else
    let lo := mkBlockRef round AUTHORITY_INDEX_ZERO DIGEST_MIN in
    let hi := mkBlockRef (u32_add round 1) AUTHORITY_INDEX_ZERO DIGEST_MIN in
    _ ← assert_that (key_leb lo hi);
    Ok ((fun kv => bi_block kv.2) <$> btree_map_range (key_in lo hi) (ds_recent_blocks s)).

(** The loop of [ancestors_at_round]. *)
Fixpoint traverse_above (fuel : nat) s (linked : gset BlockRef) (earlier_round : N)
    : outcome (gset BlockRef) :=
  match fuel with
  | O => OutOfFuel
  | Datatypes.S fuel =>
      match btree_last linked with
      | None => Ok linked
      | Some block_ref =>
          if br_round block_ref <=? earlier_round then Ok linked
          else
            block ← get_block s block_ref;
            block ← unwrap block;
            traverse_above fuel s
              (list_to_set (ancestors block) ∪ (linked ∖ {[block_ref]})) earlier_round
      end
  end.

Definition ancestors_at_round s (later_block : VerifiedBlock) (earlier_round : N)
    : outcome (list VerifiedBlock) :=
  linked ← traverse_above (Datatypes.S (size (ds_recent_blocks s))) s
             (list_to_set (ancestors later_block)) earlier_round;
  mapM (fun r => block ← get_block s r; unwrap block)
    (btree_range (key_leb (mkBlockRef earlier_round AUTHORITY_INDEX_ZERO DIGEST_MIN)) linked).

(* ------------------------------------------------------------------ *)
(** ** Blocks of an authority *)

Definition get_last_block_for_authority s (authority : N) : outcome VerifiedBlock :=
  recent_refs ← vec_index (ds_recent_refs_by_authority s) authority;
  match btree_last recent_refs with
  | Some last =>
      block_info ← unwrap (ds_recent_blocks s !! last);
      Ok (bi_block block_info)
  | None =>
      genesis ← unwrap (head (filter (fun kv => br_author kv.1 = authority)
                                (btree_map_iter (ds_genesis s))));
      Ok genesis.2
  end.

Definition get_last_proposed_block s : outcome (option VerifiedBlock) :=
  if is_validator (ds_context s) then
    b ← get_last_block_for_authority s (own_index (ds_context s));
    Ok (Some b)
  else Ok None.

Definition get_cached_blocks_in_range s (authority start_round end_round limit : N)
    : outcome (list VerifiedBlock) :=
  if (end_round <=? start_round) || (limit =? 0) then Ok []
  else
    recent_refs ← vec_index (ds_recent_refs_by_authority s) authority;
    let refs := btree_range
                  (key_in (mkBlockRef start_round authority DIGEST_MIN)
                          (mkBlockRef end_round AUTHORITY_INDEX_ZERO DIGEST_MIN)) recent_refs in
    mapM (fun block_ref => bi_block <$> unwrap (ds_recent_blocks s !! block_ref))
      (iter_take limit refs).

Definition get_cached_blocks s (authority start : N) : outcome (list VerifiedBlock) :=
  get_cached_blocks_in_range s authority start u32_MAX usize_MAX.

Definition get_last_cached_block_in_range s (authority start_round end_round : N)
    : outcome (option VerifiedBlock) :=
  if end_round <=? start_round then Ok None
  else
    recent_refs ← vec_index (ds_recent_refs_by_authority s) authority;
    Ok (block_ref ← last (btree_range
                  (key_in (mkBlockRef start_round authority DIGEST_MIN)
                          (mkBlockRef end_round AUTHORITY_INDEX_ZERO DIGEST_MIN)) recent_refs);
        bi_block <$> ds_recent_blocks s !! block_ref).

(** The loop over the references of one authority, latest first: the first is
    the last block, those of the same round equivocate with it. *)
Definition last_and_equivocating (refs : list BlockRef) : option (BlockRef * list BlockRef) :=
  match refs with
  | [] => None
  | r :: rest => Some (r, take_while (fun r' => br_round r <=? br_round r') rest)
  end.

Definition last_cached_of_authority s (end_round authority_index : N)
    (fallback : VerifiedBlock) (block_refs : gset BlockRef)
    : outcome (VerifiedBlock * list BlockRef) :=
  last_evicted_round ← vec_index (ds_evicted_rounds s) authority_index;
  if saturating_sub end_round 1 <=? last_evicted_round then Panic
  else
    let lo := mkBlockRef (u32_add last_evicted_round 1) authority_index DIGEST_MIN in
    let hi := mkBlockRef end_round authority_index DIGEST_MIN in
    _ ← assert_that (key_leb lo hi);
    match last_and_equivocating (reverse (btree_range (key_in lo hi) block_refs)) with
    | None => Ok (fallback, [])
    | Some (last, equivocating) =>
        block_info ← unwrap (ds_recent_blocks s !! last);
        Ok (bi_block block_info, equivocating)
    end.

Definition get_last_cached_block_per_authority s (end_round : N)
    : outcome (list (VerifiedBlock * list BlockRef)) :=
  let blocks := snd <$> btree_map_iter (ds_genesis s) in
  if end_round =? GENESIS_ROUND then Panic
  else if end_round =? GENESIS_ROUND + 1 then Ok ((fun b => (b, [])) <$> blocks)
  else
    mapM (fun '(i, (fallback, block_refs)) =>
            authority_index ← unwrap (to_authority_index (ds_committee s) (N.of_nat i));
            last_cached_of_authority s end_round authority_index fallback block_refs)
      (imap pair (zip blocks (ds_recent_refs_by_authority s))).

Definition contains_cached_block_at_slot s (slot : Slot) : outcome bool :=
  if s_round slot =? GENESIS_ROUND then Ok true
  else
    eviction_round ← vec_index (ds_evicted_rounds s) (s_authority slot);
    if s_round slot <=? eviction_round then Panic
    else
      recent_refs ← vec_index (ds_recent_refs_by_authority s) (s_authority slot);
      Ok (negb (is_empty (btree_range (key_between (slot_min slot) (slot_max slot)) recent_refs))).

(* ------------------------------------------------------------------ *)
(** ** Commit and inclusion marks *)

Definition mark_committed (block_info : BlockInfo) : BlockInfo :=
  {| bi_block := bi_block block_info; bi_children := bi_children block_info;
     bi_children_stake := bi_children_stake block_info;
     bi_committed := true; bi_included := bi_included block_info |}.

Definition mark_included (block_info : BlockInfo) : BlockInfo :=
  {| bi_block := bi_block block_info; bi_children := bi_children block_info;
     bi_children_stake := bi_children_stake block_info;
     bi_committed := bi_committed block_info; bi_included := true |}.

Definition set_committed s (block_ref : BlockRef) : outcome (DagState S * bool) :=
  block_info ← unwrap (ds_recent_blocks s !! block_ref);
  if bi_committed block_info then Ok (s, false)
  else Ok (set_recent_blocks s (<[block_ref := mark_committed block_info]> (ds_recent_blocks s)),
           true).

Definition is_committed s (block_ref : BlockRef) : outcome bool :=
  bi_committed <$> unwrap (ds_recent_blocks s !! block_ref).

Definition has_been_included s (block_ref : BlockRef) : outcome bool :=
  bi_included <$> unwrap (ds_recent_blocks s !! block_ref).

(** The loop of [link_causal_history] over its queue. *)
Fixpoint link_targets (fuel : nat) s (gc_round : N) (targets linked_blocks : list BlockRef)
    : outcome (DagState S * list BlockRef) :=
  match fuel with
  | O => OutOfFuel
  | Datatypes.S fuel =>
      match targets with
      | [] => Ok (s, linked_blocks)
      | block_ref :: targets =>
          if br_round block_ref <=? gc_round then link_targets fuel s gc_round targets linked_blocks
          else
            block_info ← unwrap (ds_recent_blocks s !! block_ref);
            if bi_included block_info then link_targets fuel s gc_round targets linked_blocks
            else
              link_targets fuel
                (set_recent_blocks s (<[block_ref := mark_included block_info]> (ds_recent_blocks s)))
                gc_round (targets ++ ancestors (bi_block block_info)) (linked_blocks ++ [block_ref])
      end
  end.

(** Every queue entry is the root or an ancestor listed in a cached block. *)
Definition link_fuel s : nat :=
  (2 + map_fold (fun _ block_info n => length (ancestors (bi_block block_info)) + n)
         0 (ds_recent_blocks s))%nat.

Definition link_causal_history s (root_block : BlockRef) : outcome (DagState S * list BlockRef) :=
  link_targets (link_fuel s) s (gc_round s) [root_block] [].

(* ------------------------------------------------------------------ *)
(** ** Round aggregates *)

Definition get_round_info s (round : N) : outcome (option RoundInfo) :=
  match head (ds_round_info s) with
  | None => Ok None
  | Some front =>
      if (round <? ri_round front) || (round <=? gc_round s) then Ok None
      else match ds_round_info s !! N.to_nat (round - ri_round front) with
           | None => Ok None
           | Some round_info =>
               _ ← assert_that (ri_round round_info =? round);
               Ok (Some round_info)
           end
  end.

Definition update_round_info s (block : VerifiedBlock) : outcome (DagState S) :=
  let block_ref := reference block in
  let gc_round := gc_round s in
  if round block <=? gc_round then Ok s
  else
    let next_round :=
      match last (ds_round_info s) with
      | Some info => u32_add (ri_round info) 1
      | None => u32_add gc_round 1
      end in
    _ ← assert_that (round block <=? next_round);
    let round_info :=
      if round block =? next_round then ds_round_info s ++ [round_info_new (round block)]
      else ds_round_info s in
    front ← unwrap (head round_info);
    let index := u32_sub (round block) (ri_round front) in
    info ← vec_index round_info index;
    stake ← add_unique (ri_total_stake info) (br_author block_ref) (ds_committee s);
    round_info ← vec_store round_info index
      {| ri_round := ri_round info;
         ri_blocks := {[block_ref]} ∪ ri_blocks info;
         ri_total_stake := stake.1 |};
    Ok (set_round_info s round_info).

(* ------------------------------------------------------------------ *)
(** ** Accepting blocks *)

(** The vote accounting of one ancestor, for the version 3 rules. *)
Definition add_child s (block_ref : BlockRef) (recent : gmap BlockRef BlockInfo)
    (ancestor : BlockRef) : outcome (gmap BlockRef BlockInfo) :=
  if negb (u32_add (br_round ancestor) 1 =? br_round block_ref)
     || (br_round ancestor <=? gc_round s) then Ok recent
  else
    block_info ← unwrap (recent !! ancestor);
    stake ← add_unique (bi_children_stake block_info) (br_author block_ref) (ds_committee s);
    Ok (<[ancestor := {| bi_block := bi_block block_info;
                         bi_children := {[block_ref]} ∪ bi_children block_info;
                         bi_children_stake := stake.1;
                         bi_committed := bi_committed block_info;
                         bi_included := bi_included block_info |}]> recent).

(** The clock is read here and in [accept_block] for metrics and a log line
    only; the model takes these reads to succeed (the clock panics when the
    instants of the host go backwards). *)
Definition update_block_metadata s (block : VerifiedBlock) : outcome (DagState S) :=
  let block_ref := reference block in
  let recent := <[block_ref := block_info_new block]> (ds_recent_blocks s) in
  refs ← vec_index (ds_recent_refs_by_authority s) (br_author block_ref);
  recent_refs ← vec_store (ds_recent_refs_by_authority s) (br_author block_ref)
                  ({[block_ref]} ∪ refs);
  let s := with_cache s recent recent_refs (ds_round_info s) (ds_threshold_clock s)
             (ds_evicted_rounds s) (ds_highest_accepted_round s) in
  s ← (if enable_v3 (protocol_config (ds_context s)) then
         recent ← foldM (add_child s block_ref) (ancestors block) (ds_recent_blocks s);
         update_round_info (set_recent_blocks s recent) block
       else Ok s);
  res ← threshold_clock_add_block (ds_committee s) (ds_threshold_clock s) block_ref;
  let '(clock, advanced) := res in
  let s := with_cache s (ds_recent_blocks s) (ds_recent_refs_by_authority s) (ds_round_info s)
             clock (ds_evicted_rounds s) (ds_highest_accepted_round s) in
  _ ← (if advanced : bool then _ ← get_last_proposed_block s; Ok tt else Ok tt);
  _ ← committee_authority (ds_committee s) (br_author block_ref);
  Ok (with_cache s (ds_recent_blocks s) (ds_recent_refs_by_authority s) (ds_round_info s)
        (ds_threshold_clock s) (ds_evicted_rounds s)
        (N.max (ds_highest_accepted_round s) (round block))).

Definition accept_block s (block : VerifiedBlock) : outcome (DagState S) :=
  _ ← assert_that (negb (round block =? 0));
  let block_ref := reference block in
  contained ← contains_block s block_ref;
  if contained : bool then Ok s
  else
    _ ← committee_authority (ds_committee s) (br_author block_ref);
    _ ← (if br_author block_ref =? own_index (ds_context s) then
           let existing_blocks := get_uncommitted_blocks_at_slot s (slot_of_ref block_ref) in
           if skip_equivocation_validation (parameters (ds_context s)) then Ok tt
           else assert_that (is_empty existing_blocks)
         else Ok tt);
    s ← update_block_metadata s block;
    Ok (with_buffers s (ds_blocks_to_write s ++ [block]) (ds_commits_to_write s)
          (ds_commit_info_to_write s) (ds_finalized_commits_to_write s) (ds_store s)).

Definition accept_blocks s (blocks : list VerifiedBlock) : outcome (DagState S) :=
  foldM accept_block blocks s.

(* ------------------------------------------------------------------ *)
(** ** Commits *)

(** [last_committed_rounds] raised to the rounds of the committed blocks. *)
Definition raise_committed_rounds (rounds : list N) (refs : list BlockRef) : outcome (list N) :=
  foldM (fun rounds block_ref =>
           r ← vec_index rounds (br_author block_ref);
           vec_store rounds (br_author block_ref) (N.max r (br_round block_ref))) refs rounds.

Definition add_commit s (commit : TrustedCommit) : outcome (DagState S) :=
  let accept :=
    last_committed_rounds ← raise_committed_rounds (ds_last_committed_rounds s)
                              (commit_blocks commit);
    _ ← mapM (fun i => idx ← unwrap (to_authority_index (ds_committee s) i);
                       committee_authority (ds_committee s) idx)
          (N.of_nat <$> seq 0 (length last_committed_rounds));
    let s := with_commit s (Some commit) last_committed_rounds (ds_scoring_subdag s)
               (ds_pending_commit_votes s ++ [commit_reference commit]) in
    Ok (with_buffers s (ds_blocks_to_write s) (ds_commits_to_write s ++ [commit])
          (ds_commit_info_to_write s) (ds_finalized_commits_to_write s) (ds_store s)) in
  match ds_last_commit s with
  | Some last_commit =>
      if commit_index commit <=? commit_index last_commit then Ok s
      else
        _ ← assert_that (commit_index commit =? u32_add (commit_index last_commit) 1);
        if commit_timestamp_ms commit <? commit_timestamp_ms last_commit then Panic
        else accept
  | None =>
      _ ← assert_that (commit_index commit =? 1);
      accept
  end.

Definition recover_commits_to_write s (commits : list TrustedCommit) : DagState S :=
  with_buffers s (ds_blocks_to_write s) (ds_commits_to_write s ++ commits)
    (ds_commit_info_to_write s) (ds_finalized_commits_to_write s) (ds_store s).

Definition ensure_commits_to_write_is_empty s : outcome unit :=
  assert_that (is_empty (ds_commits_to_write s)).

Definition add_commit_info s (reputation_scores : ReputationScores) : outcome (DagState S) :=
  _ ← assert_that (scoring_is_empty (ds_scoring_subdag s));
  let commit_info := {| ci_committed_rounds := ds_last_committed_rounds s;
                        ci_reputation_scores := reputation_scores |} in
  last_commit ← unwrap (ds_last_commit s);
  Ok (with_buffers s (ds_blocks_to_write s) (ds_commits_to_write s)
        (ds_commit_info_to_write s ++ [(commit_reference last_commit, commit_info)])
        (ds_finalized_commits_to_write s) (ds_store s)).

Definition add_finalized_commit s (commit_ref : CommitRef)
    (rejected_transactions : gmap BlockRef (list N)) : DagState S :=
  with_buffers s (ds_blocks_to_write s) (ds_commits_to_write s) (ds_commit_info_to_write s)
    (ds_finalized_commits_to_write s ++ [(commit_ref, rejected_transactions)]) (ds_store s).

Definition take_commit_votes s (limit : N) : DagState S * list CommitRef :=
  let n := N.to_nat limit in
  (with_commit s (ds_last_commit s) (ds_last_committed_rounds s) (ds_scoring_subdag s)
     (drop n (ds_pending_commit_votes s)),
   take n (ds_pending_commit_votes s)).

Definition add_scoring_subdags s (scoring_subdags : list CommittedSubDag) : outcome (DagState S) :=
  scoring ← add_subdags (ds_committee s) (ds_scoring_subdag s) scoring_subdags;
  Ok (with_commit s (ds_last_commit s) (ds_last_committed_rounds s) scoring
        (ds_pending_commit_votes s)).

Definition clear_scoring_subdag s : DagState S :=
  with_commit s (ds_last_commit s) (ds_last_committed_rounds s)
    (scoring_clear (ds_scoring_subdag s)) (ds_pending_commit_votes s).

Definition scoring_subdags_count s : outcome N := scored_subdags_count (ds_scoring_subdag s).

Definition calculate_scoring_subdag_scores s : outcome ReputationScores :=
  calculate_distributed_vote_scores (ds_committee s) (ds_scoring_subdag s).

Definition scoring_subdag_commit_range s : outcome N :=
  commit_range_end <$> unwrap (ss_commit_range (ds_scoring_subdag s)).

Definition recover_last_commit_info s : outcome (option (CommitRef * CommitInfo)) :=
  read_last_commit_info (ds_store s).

(* ------------------------------------------------------------------ *)
(** ** Flushing and eviction *)

Definition eviction_round (last_round gc_round cached_rounds : N) : N :=
  N.min gc_round (saturating_sub last_round cached_rounds).

Definition calculate_authority_eviction_round s (authority_index : N) : outcome N :=
  recent_refs ← vec_index (ds_recent_refs_by_authority s) authority_index;
  let last_round := match btree_last recent_refs with
                    | Some block_ref => br_round block_ref
                    | None => GENESIS_ROUND
                    end in
  Ok (eviction_round last_round (gc_round s) (ds_cached_rounds s)).

(** The references are popped in order while their round is evicted, and
    removed from the cached blocks. *)
Definition evict_authority s (authority_index : N) : outcome (DagState S) :=
  eviction_round ← calculate_authority_eviction_round s authority_index;
  recent_refs ← vec_index (ds_recent_refs_by_authority s) authority_index;
  let evicted := take_while (fun r => br_round r <=? eviction_round) (btree_iter recent_refs) in
  refs ← vec_store (ds_recent_refs_by_authority s) authority_index
           (recent_refs ∖ list_to_set evicted);
  evicted_rounds ← vec_store (ds_evicted_rounds s) authority_index eviction_round;
  Ok (with_cache s (foldr delete (ds_recent_blocks s) evicted) refs (ds_round_info s)
        (ds_threshold_clock s) evicted_rounds (ds_highest_accepted_round s)).

Definition flush s : outcome (DagState S) :=
  if is_empty (ds_blocks_to_write s) && is_empty (ds_commits_to_write s)
     && is_empty (ds_commit_info_to_write s) && is_empty (ds_finalized_commits_to_write s)
  then Ok s
  else
    let store := store_write (ds_store s)
                   (write_batch_new (ds_blocks_to_write s) (ds_commits_to_write s)
                      (ds_commit_info_to_write s) (ds_finalized_commits_to_write s)) in
    let s := with_buffers s [] [] [] [] store in
    s ← foldM evict_authority (committee_authorities (ds_committee s)).*1 s;
    Ok (set_round_info s (drop_while (fun info => ri_round info <=? gc_round s) (ds_round_info s))).
End dag_state.

(* ------------------------------------------------------------------ *)
(** ** Recovery from the store *)

Section recovery.
Context {S : Type} `{Store S}.
Context (bcs_to_bytes : SignedBlock -> list byte) (default_hash : list byte -> N).

Definition genesis_map (context : Context) : gmap BlockRef VerifiedBlock :=
  foldl (fun m block => <[reference block := block]> m) ∅
    (genesis_blocks bcs_to_bytes default_hash context).

(** Committed rounds and unscored sub-DAGs from the commits after the last
    stored commit info. *)
Definition recover_commits (store : S) (num_authorities : N) (last_commit : option TrustedCommit)
    : outcome (list N * list CommittedSubDag) :=
  commit_info ← read_last_commit_info store;
  let '(last_committed_rounds, commit_recovery_start_index) :=
    match commit_info with
    | Some (commit_ref, commit_info) =>
        (ci_committed_rounds commit_info, u32_add (cr_index commit_ref) 1)
    | None => (replicate (N.to_nat num_authorities) 0, GENESIS_COMMIT_INDEX + 1)
    end in
  match last_commit with
  | Some last_commit =>
      commits ← scan_commits store
                  (commit_range_new commit_recovery_start_index (commit_index last_commit));
      foldM (fun '(rounds, subdags) commit =>
               rounds ← raise_committed_rounds rounds (commit_blocks commit);
               committed_subdag ← load_committed_subdag_from_store store commit;
               Ok (rounds, subdags ++ [committed_subdag]))
        commits (last_committed_rounds, [])
  | None => Ok (last_committed_rounds, [])
  end.

(** The blocks of one authority above its eviction round. *)
Definition recover_authority (acc : DagState S * list VerifiedBlock) (authority_index : N)
    : outcome (DagState S * list VerifiedBlock) :=
  let '(state, recovered_blocks) := acc in
  last_block ← scan_last_blocks_by_author (ds_store state) authority_index 1 None;
  let last_block_round := match last last_block with
                          | Some b => round b
                          | None => GENESIS_ROUND
                          end in
  let eviction_round := eviction_round last_block_round (gc_round state) (ds_cached_rounds state) in
  blocks ← scan_blocks_by_author (ds_store state) authority_index (u32_add eviction_round 1);
  evicted_rounds ← vec_store (ds_evicted_rounds state) authority_index eviction_round;
  Ok (with_cache state (ds_recent_blocks state) (ds_recent_refs_by_authority state)
        (ds_round_info state) (ds_threshold_clock state) evicted_rounds
        (ds_highest_accepted_round state),
      recovered_blocks ++ blocks).

(** The loop that marks the blocks of the commits above the GC round, from the
    last commit backwards: at most one iteration per commit index. *)
Fixpoint recover_committed (fuel : nat) (state : DagState S) (gc_round index : N)
    : outcome (DagState S) :=
  match fuel with
  | O => OutOfFuel
  | Datatypes.S fuel =>
      commits ← scan_commits (ds_store state) (commit_range_new index index);
      match head commits with
      | None => Ok state
      | Some commit =>
          if (0 <? gc_round) && (br_round (commit_leader commit) <=? gc_round) then Ok state
          else
            state ← foldM (fun state block_ref =>
                             res ← set_committed state block_ref;
                             _ ← assert_that res.2;
                             Ok res.1)
                      (filter (fun b => gc_round < br_round b) (commit_blocks commit)) state;
            let index := saturating_sub index 1 in
            if index =? 0 then Ok state else recover_committed fuel state gc_round index
      end
  end.

Definition dag_state_new (context : Context) (store : S) : outcome (DagState S) :=
  let num_authorities := committee_size (committee context) in
  last_commit ← read_last_commit store;
  recovered ← recover_commits store num_authorities last_commit;
  let '(last_committed_rounds, unscored_committed_subdags) := recovered in
  scoring_subdag ← add_subdags (committee context) scoring_subdag_new unscored_committed_subdags;
  let state := {|
    ds_context := context;
    ds_genesis := genesis_map context;
    ds_recent_blocks := ∅;
    ds_recent_refs_by_authority := replicate (N.to_nat num_authorities) ∅;
    ds_round_info := [];
    ds_threshold_clock := threshold_clock_new 1;
    ds_evicted_rounds := replicate (N.to_nat num_authorities) 0;
    ds_highest_accepted_round := 0;
    ds_last_commit := last_commit;
    ds_last_committed_rounds := last_committed_rounds;
    ds_scoring_subdag := scoring_subdag;
    ds_pending_commit_votes := [];
    ds_blocks_to_write := [];
    ds_commits_to_write := [];
    ds_commit_info_to_write := [];
    ds_finalized_commits_to_write := [];
    ds_store := store;
    ds_cached_rounds := u32_wrap (dag_state_cached_rounds (parameters context));
  |} in
  recovered ← foldM recover_authority (committee_authorities (committee context)).*1 (state, []);
  let '(state, recovered_blocks) := recovered in
  state ← foldM update_block_metadata
            (stable_sort (fun a b => key_leb (reference a) (reference b)) recovered_blocks) state;
  state ← match last_commit with
          | Some last_commit =>
              let index := commit_index last_commit in
              recover_committed (Datatypes.S (N.to_nat index)) state (gc_round state) index
          | None => Ok state
          end;
  proposed_blocks ← scan_blocks_by_author store (own_index context) (u32_add (gc_round state) 1);
  foldM (fun state block => fst <$> link_causal_history state (reference block))
    proposed_blocks state.
End recovery.
