(* ===== verification/BlockSync.v ===== *)
(** * Serving blocks and commits

    Models block_sync_service.rs: the blocks, commits and latest blocks that a
    node hands out when the synchronizers of its peers ask for them.  The
    stores of the model do not fail, so the storage errors that the service
    would return do not occur. *)

From S2P Require Import Prelude Committee Context Block StakeAggregator Commit Error Store DagState.

Record BlockSyncService (S : Type) := mkBlockSyncService {
  bs_context : Context;
  bs_dag_state : DagState S;
  bs_store : S;
}.
Arguments mkBlockSyncService {S} _ _ _.
Arguments bs_context {S} _.
Arguments bs_dag_state {S} _.
Arguments bs_store {S} _.

Definition block_sync_service_new {S} (context : Context) (dag_state : DagState S) (store : S) : BlockSyncService S :=
  mkBlockSyncService context dag_state store.

Definition no_block_refs_message : string :=
  "When no block refs are provided, fetch_after_rounds must be provided and fetch_missing_ancestors must be false".

(** A min-heap of fetches: the first round to fetch, the authority, and the
    round to stop before.  It is kept sorted, so that popping takes its head. *)
Definition FetchHeap := list (N * N * N).

Definition heap_push (entry : N * N * N) (heap : FetchHeap) : FetchHeap := insert_sorted key_leb entry heap.

Section service.
Context {S : Type} `{Store S}.
(** [choose_multiple] of the [rand] crate. *)
Context (choose_multiple : list BlockRef -> N -> list BlockRef).
Implicit Types self : BlockSyncService S.

(* ------------------------------------------------------------------ *)
(** ** Blocks *)

Definition max_response_num_blocks self (block_refs : list BlockRef) (fetch_after_rounds : list N) : N :=
  if negb (is_empty fetch_after_rounds) && negb (is_empty block_refs)
  then max_blocks_per_sync (parameters (bs_context self))
  else max_blocks_per_fetch (parameters (bs_context self)).

Fixpoint validate_block_refs self (block_refs : list BlockRef) : ConsensusResult unit :=
  match block_refs with
  | [] => Success tt
  | block :: block_refs =>
      if negb (is_valid_index (committee (bs_context self)) (br_author block)) then
        Err (InvalidAuthorityIndex (br_author block) (committee_size (committee (bs_context self))))
      else if br_round block =? GENESIS_ROUND then Err UnexpectedGenesisBlockRequested
      else validate_block_refs self block_refs
  end.

Definition known_blocks self (block_refs : list BlockRef) : outcome (list VerifiedBlock) :=
  blocks ← get_blocks (bs_dag_state self) block_refs;
  Ok (omap id (blocks : list (option VerifiedBlock))).

(** Ancestors of the blocks that the requester has not accepted. *)
Definition add_missing_ancestors self (fetch_after_rounds : list N) (max_blocks : N) (blocks : list VerifiedBlock)
    : outcome (list VerifiedBlock) :=
  missing_ancestors ← filterM (fun block_ref =>
      after_round ← vec_index fetch_after_rounds (br_author block_ref);
      Ok (after_round <? br_round block_ref))
    (blocks ≫= (fun block => ancestors block));
  let missing_ancestors := btree_iter (list_to_set missing_ancestors : gset BlockRef) in
  let selected_num_blocks :=
    N.min (saturating_sub max_blocks (N.of_nat (length blocks))) (N.of_nat (length missing_ancestors)) in
  if 0 <? selected_num_blocks then
    ancestor_blocks ← known_blocks self (choose_multiple missing_ancestors selected_num_blocks);
    Ok (blocks ++ ancestor_blocks)
  else Ok blocks.

(** The round to stop before, for all authorities or the requested ones. *)
Definition get_limit_rounds self (block_refs : list BlockRef) : outcome (gmap N N) :=
  if is_empty block_refs then
    foldM (fun limit_rounds index =>
        last_block ← get_last_block_for_authority (bs_dag_state self) index;
        Ok (<[index := round last_block]> limit_rounds))
      (committee_authorities (committee (bs_context self))).*1 ∅
  else
    Ok (foldl (fun limit_rounds block_ref =>
                 let entry := default (br_round block_ref) (limit_rounds !! br_author block_ref) in
                 <[br_author block_ref := N.min entry (br_round block_ref)]> limit_rounds)
          ∅ block_refs).

Definition start_fetches (fetch_after_rounds : list N) (limit_rounds : gmap N N) : outcome FetchHeap :=
  foldM (fun heap '(authority, limit_round) =>
      after_round ← vec_index fetch_after_rounds authority;
      let fetch_start := u32_add after_round 1 in
      Ok (if fetch_start <? limit_round then heap_push (fetch_start, authority, limit_round) heap else heap))
    (btree_map_iter limit_rounds) [].

Fixpoint fetch_in_order (fuel : nat) (store : S) (max_blocks : N) (heap : FetchHeap) (blocks : list VerifiedBlock)
    : outcome (list VerifiedBlock) :=
  match fuel with
  | O => OutOfFuel
  | Datatypes.S fuel =>
      match heap with
      | [] => Ok blocks
      | (fetch_start, authority, limit_round) :: heap =>
          fetched ← scan_blocks_by_author_in_range store authority fetch_start limit_round 1;
          match fetched with
          | [] => fetch_in_order fuel store max_blocks heap blocks
          | block :: _ =>
              let next_start := u32_add (round block) 1 in
              let blocks := blocks ++ [block] in
              if max_blocks <=? N.of_nat (length blocks) then Ok (take (N.to_nat max_blocks) blocks)
              else fetch_in_order fuel store max_blocks
                     (if next_start <? limit_round then heap_push (next_start, authority, limit_round) heap else heap) blocks
          end
      end
  end.

(** Every turn that does not shrink the heap adds a block. *)
Definition fetch_fuel (max_blocks : N) (heap : FetchHeap) : nat := Datatypes.S (length heap + N.to_nat max_blocks).

Definition add_later_blocks self (block_refs : list BlockRef) (fetch_after_rounds : list N) (max_blocks : N)
    (blocks : list VerifiedBlock) : outcome (list VerifiedBlock) :=
  limit_rounds ← get_limit_rounds self block_refs;
  heap ← start_fetches fetch_after_rounds limit_rounds;
  fetch_in_order (fetch_fuel max_blocks heap) (bs_store self) max_blocks heap blocks.

Definition fetch_blocks self (block_refs : list BlockRef) (fetch_after_rounds : list N) (fetch_missing_ancestors : bool)
    : outcome (ConsensusResult (list (list byte))) :=
  let size := committee_size (committee (bs_context self)) in
  if is_empty block_refs && (fetch_missing_ancestors || is_empty fetch_after_rounds) then
    Ok (Err (InvalidFetchBlocksRequest no_block_refs_message))
  else if negb (is_empty fetch_after_rounds) && negb (N.of_nat (length fetch_after_rounds) =? size) then
    Ok (Err (InvalidSizeOfHighestAcceptedRounds (N.of_nat (length fetch_after_rounds)) size))
  else
    let max_blocks := max_response_num_blocks self block_refs fetch_after_rounds in
    let block_refs := take (N.to_nat max_blocks) block_refs in
    match validate_block_refs self block_refs with
    | Err e => Ok (Err e)
    | Success _ =>
        blocks ← known_blocks self block_refs;
        blocks ← (if (N.of_nat (length blocks) <? max_blocks) && negb (is_empty fetch_after_rounds) then
                    if fetch_missing_ancestors then add_missing_ancestors self fetch_after_rounds max_blocks blocks
                    else add_later_blocks self block_refs fetch_after_rounds max_blocks blocks
                  else Ok blocks);
        Ok (Success ((fun block => vb_serialized block) <$> (blocks : list VerifiedBlock)))
    end.

(* ------------------------------------------------------------------ *)
(** ** Commits *)

Definition count_commit_votes (c : Committee) (votes : list BlockRef) : outcome (StakeAggregator QuorumThreshold) :=
  foldM (fun stake_aggregator v => fst <$> stake_aggregator_add stake_aggregator (br_author v) c) votes stake_aggregator_new.

(** The commits from the last on, the newest at the head: those without a
    quorum of votes are dropped. *)
Fixpoint drop_uncertified self (newest_first : list TrustedCommit) : outcome (list TrustedCommit * list BlockRef) :=
  match newest_first with
  | [] => Ok ([], [])
  | c :: older =>
      votes ← read_commit_votes (bs_store self) (commit_index c);
      stake_aggregator ← count_commit_votes (committee (bs_context self)) votes;
      if reached_threshold stake_aggregator (committee (bs_context self)) then Ok (newest_first, votes)
      else drop_uncertified self older
  end.

Definition fetch_commits self (commit_range : CommitRange) : outcome (list TrustedCommit * list VerifiedBlock) :=
  let inclusive_end :=
    N.min (commit_range_end commit_range)
      (u32_sub (u32_add (commit_range_start commit_range) (commit_sync_batch_size (parameters (bs_context self)))) 1) in
  commits ← scan_commits (bs_store self) (commit_range_new (commit_range_start commit_range) inclusive_end);
  certified ← drop_uncertified self (reverse commits);
  let '(commits, certifier_block_refs) := certified in
  certifier_blocks ← store_read_blocks (bs_store self) certifier_block_refs;
  Ok (reverse commits, omap id (certifier_blocks : list (option VerifiedBlock))).

(* ------------------------------------------------------------------ *)
(** ** Latest blocks *)

Fixpoint validate_authorities (c : Committee) (authorities : list N) : ConsensusResult unit :=
  match authorities with
  | [] => Success tt
  | authority :: authorities =>
      if negb (is_valid_index c authority) then Err (InvalidAuthorityIndex authority (committee_size c))
      else validate_authorities c authorities
  end.

Definition fetch_latest_blocks self (peer : N) (authorities : list N) : outcome (ConsensusResult (list (list byte))) :=
  let c := committee (bs_context self) in
  if committee_size c <? N.of_nat (length authorities) then Ok (Err (TooManyAuthoritiesProvided peer))
  else
    match validate_authorities c authorities with
    | Err e => Ok (Err e)
    | Success _ =>
        blocks ← mapM (get_last_block_for_authority (bs_dag_state self)) authorities;
        Ok (Success ((fun block => vb_serialized block)
                     <$> List.filter (fun block => negb (round block =? GENESIS_ROUND)) (blocks : list VerifiedBlock)))
    end.
End service.
