(* ===== verification/VoteTracker.v ===== *)
(** * Votes on transactions

    Models transaction_vote_tracker.rs: the node's own votes on the
    transactions of the blocks it received, and the reject votes that blocks
    carry, summed by transaction.  The [vote] of the block verifier is a
    parameter. *)

From S2P Require Import Prelude Committee Context Block StakeAggregator ThresholdClock Commit Error Store LeaderScoring DagState.

(* ------------------------------------------------------------------ *)
(** ** The state *)

Record VoteInfo := mkVoteInfo {
  vi_block : option VerifiedBlock;
  own_reject_txn_votes : list N;
  reject_txn_votes : gmap N (StakeAggregator QuorumThreshold);
}.

Definition vote_info_default : VoteInfo := mkVoteInfo None [] ∅.

Record VoteTrackerState := mkVoteTrackerState {
  vt_context : Context;
  vt_votes : gmap BlockRef VoteInfo;
  vt_gc_round : N;
}.

Definition vote_tracker_state_new (context : Context) : VoteTrackerState :=
  mkVoteTrackerState context ∅ GENESIS_ROUND.

(** [entry(reject).or_default().add_unique(voter)] *)
Definition add_reject (c : Committee) (voter : N) (info : VoteInfo) (reject : N) : outcome VoteInfo :=
  added ← add_unique (default stake_aggregator_new (reject_txn_votes info !! reject)) voter c;
  Ok (mkVoteInfo (vi_block info) (own_reject_txn_votes info) (<[reject := added.1]> (reject_txn_votes info))).

(** The reject votes that a block casts on another one. *)
Definition count_block_votes (c : Committee) (gc_round voter : N) (m : gmap BlockRef VoteInfo)
    (block_votes : BlockTransactionVotes) : outcome (gmap BlockRef VoteInfo) :=
  let block_ref := btv_block_ref block_votes in
  if br_round block_ref <=? gc_round then Ok m
  else
    info ← foldM (add_reject c voter) (btv_rejects block_votes) (default vote_info_default (m !! block_ref));
    Ok (<[block_ref := info]> m).

Definition add_voted_block (self : VoteTrackerState) (voted : VerifiedBlock * list N) : outcome VoteTrackerState :=
  let '(voted_block, reject_txn_votes_) := voted in
  let c := committee (vt_context self) in
  if round voted_block <=? vt_gc_round self then Ok self
  else
    _ ← committee_authority c (author voted_block);
    let vote_info := default vote_info_default (vt_votes self !! reference voted_block) in
    match vi_block vote_info with
    | Some _ => Ok self
    | None =>
        let vote_info := mkVoteInfo (Some voted_block) reject_txn_votes_ (reject_txn_votes vote_info) in
        m ← foldM (count_block_votes c (vt_gc_round self) (author voted_block)) (transaction_votes voted_block)
              (<[reference voted_block := vote_info]> (vt_votes self));
        Ok (mkVoteTrackerState (vt_context self) m (vt_gc_round self))
    end.

Definition add_voted_blocks (self : VoteTrackerState) (voted_blocks : list (VerifiedBlock * list N))
    : outcome VoteTrackerState :=
  foldM add_voted_block voted_blocks self.

(** The loop pops the first entries, in the order of references. *)
Definition update_gc_round (self : VoteTrackerState) (gc_round : N) : VoteTrackerState :=
  let popped := take_while (fun r => br_round r <=? gc_round) (btree_map_iter (vt_votes self)).*1 in
  mkVoteTrackerState (vt_context self) (foldr delete (vt_votes self) popped) gc_round.

(* ------------------------------------------------------------------ *)
(** ** The tracker *)

(** Own votes on blocks: those above the GC round must be known. *)
Definition get_own_votes (self : VoteTrackerState) (block_refs : list BlockRef)
    : outcome (list BlockTransactionVotes) :=
  foldM (fun votes block_ref =>
           if br_round block_ref <=? vt_gc_round self then Ok votes
           else
             vote_info ← unwrap (vt_votes self !! block_ref);
             Ok (if is_empty (own_reject_txn_votes vote_info) then votes
                 else votes ++ [mkBlockTransactionVotes block_ref (own_reject_txn_votes vote_info)]))
    block_refs [].

Definition get_reject_votes (self : VoteTrackerState) (block_ref : BlockRef) : option (list (N * N)) :=
  (fun info => (fun '(idx, stake_agg) => (idx, agg_stake stake_agg)) <$> btree_map_iter (reject_txn_votes info))
    <$> vt_votes self !! block_ref.

Section tracker.
Context {S : Type} `{Store S}.
Context (vote : VerifiedBlock -> ConsensusResult (list N)).
Implicit Types s : DagState S.

Definition run_gc s (self : VoteTrackerState) (gc_round_ : N) : outcome VoteTrackerState :=
  _ ← assert_that (gc_round_ <=? gc_round s);
  Ok (update_gc_round self gc_round_).

(** A recovered block is voted on if it is above the GC round of the DAG
    state and not yet included in an own block. *)
Definition recover_and_vote_on_blocks s (self : VoteTrackerState) (blocks : list VerifiedBlock)
    : outcome VoteTrackerState :=
  should_vote_blocks ← mapM (fun b => if gc_round s <? round b
                                      then negb <$> has_been_included s (reference b) else Ok false) blocks;
  voted_blocks ← mapM (fun '(b, should_vote) =>
                         if should_vote : bool then
                           match vote b with Success rejects => Ok (b, rejects) | Err _ => Panic end
                         else Ok (b, []))
                   (zip blocks should_vote_blocks);
  add_voted_blocks self voted_blocks.

Definition recover_blocks_after_round s (self : VoteTrackerState) (after_round : N) : outcome VoteTrackerState :=
  let context := vt_context self in
  if negb (transaction_voting_enabled (protocol_config context)) then Ok self
  else
    let recovery_start_round := u32_add after_round 1 in
    foldM (fun self authority_index =>
             blocks ← scan_blocks_by_author (ds_store s) authority_index recovery_start_round;
             _ ← committee_authority (committee context) authority_index;
             recover_and_vote_on_blocks s self blocks)
      (committee_authorities (committee context)).*1 self.
End tracker.

(* ------------------------------------------------------------------ *)
(** ** Specification *)

(** A block rejects a transaction of another one. *)
Definition rejects_tx (b : VerifiedBlock) (r : BlockRef) (t : N) : bool :=
  existsb (fun v => bool_decide (btv_block_ref v = r) && bool_decide (t ∈ btv_rejects v)) (transaction_votes b).

Definition votes_on (b : VerifiedBlock) (r : BlockRef) : bool :=
  existsb (fun v => bool_decide (btv_block_ref v = r)) (transaction_votes b).

(** The authorities that reject a transaction in the blocks of a log. *)
Definition rejecters (log : list (VerifiedBlock * list N)) (r : BlockRef) (t : N) : gset N :=
  list_to_set (author <$> List.filter (fun b => rejects_tx b r t) log.*1).

Lemma elem_of_rejecters log r t a :
  a ∈ rejecters log r t <-> exists b, b ∈ log.*1 /\ author b = a /\ rejects_tx b r t = true.
Proof.
  unfold rejecters. rewrite elem_of_list_to_set, list_elem_of_fmap. setoid_rewrite list_elem_of_In.
  setoid_rewrite filter_In. split.
  - intros (b & -> & ? & ?). by exists b.
  - intros (b & ? & <- & ?). by exists b.
Qed.

Lemma rejecters_snoc log b v r t :
  rejecters (log ++ [(b, v)]) r t = (if rejects_tx b r t then {[author b]} else ∅) ∪ rejecters log r t.
Proof.
  apply set_eq. intros a. rewrite elem_of_union, !elem_of_rejecters, fmap_app. change ([(b, v)].*1) with [b].
  setoid_rewrite elem_of_app. setoid_rewrite list_elem_of_singleton. split.
  - intros (b' & [Hb| ->] & <- & Hr); [right; by exists b'|]. left. rewrite Hr. by apply elem_of_singleton.
  - intros [Ha|(b' & ? & ? & ?)]; [|exists b'; tauto]. destruct (rejects_tx b r t) eqn:E; [|by apply elem_of_empty in Ha].
    apply elem_of_singleton in Ha as ->. exists b. tauto.
Qed.

(** The reject votes recorded for a block, with [R t] the authorities that
    reject transaction [t]. *)
Definition rejects_are (c : Committee) (m : gmap N (StakeAggregator QuorumThreshold)) (R : N -> gset N) : Prop :=
  forall t, match m !! t with
            | Some agg => agg_wf c agg /\ votes agg = R t /\ R t <> ∅
            | None => R t = ∅
            end.

(** The state is that of a tracker which processed the blocks of [log] with
    these own votes, above its GC round. *)
Record tracks_votes (log : list (VerifiedBlock * list N)) (st : VoteTrackerState) : Prop := {
  tv_refs : NoDup (reference <$> log.*1);
  tv_above : forall r info, vt_votes st !! r = Some info -> vt_gc_round st < br_round r;
  tv_entry : forall r, vt_gc_round st < br_round r ->
    is_Some (vt_votes st !! r) <-> r ∈ reference <$> log.*1 \/ exists b, b ∈ log.*1 /\ votes_on b r = true;
  tv_block : forall r info, vt_votes st !! r = Some info ->
    match vi_block info with
    | Some b => (b, own_reject_txn_votes info) ∈ log /\ reference b = r
    | None => r ∉ reference <$> log.*1
    end;
  tv_rejects : forall r info, vt_votes st !! r = Some info ->
    rejects_are (committee (vt_context st)) (reject_txn_votes info) (rejecters log r);
}.

Lemma rejects_none c : rejects_are c ∅ (fun _ => ∅).
Proof. intros t. by rewrite lookup_empty. Qed.

Section counting.
Context (c : Committee) (Hc : committee_wf c).

Lemma add_reject_Ok voter info t R :
  is_valid_index c voter = true -> rejects_are c (reject_txn_votes info) R ->
  exists m, add_reject c voter info t = Ok (mkVoteInfo (vi_block info) (own_reject_txn_votes info) m)
    /\ rejects_are c m (fun t' => if decide (t' = t) then {[voter]} ∪ R t' else R t').
Proof using Hc.
  intros Hv HR. unfold add_reject. set (agg := default _ _).
  assert (agg_wf c agg /\ votes agg = R t) as [Hagg Hvotes].
  { specialize (HR t). unfold agg. destruct (reject_txn_votes info !! t) as [a|]; [tauto|].
    split; [by apply (agg_new_wf (T := QuorumThreshold))|]. by rewrite HR. }
  destruct (add_unique_Ok c Hc agg voter Hagg Hv) as (agg' & -> & Hvotes' & Hagg').
  cbn [mbind outcome_bind fst]. eexists. split; [done|]. intros t'. destruct (decide (t' = t)) as [->|Hne].
  - rewrite lookup_insert_eq. split_and!; [done|by rewrite Hvotes', Hvotes|].
    clear. set_solver.
  - rewrite lookup_insert_ne by done. apply HR.
Qed.

Lemma add_rejects_Ok voter ts : forall info R,
  is_valid_index c voter = true -> rejects_are c (reject_txn_votes info) R ->
  exists m, foldM (add_reject c voter) ts info = Ok (mkVoteInfo (vi_block info) (own_reject_txn_votes info) m)
    /\ rejects_are c m (fun t => if decide (t ∈ ts) then {[voter]} ∪ R t else R t).
Proof using Hc.
  induction ts as [|t ts IH]; intros info R Hv HR; cbn [foldM].
  { exists (reject_txn_votes info). split; [by destruct info|]. intros t. rewrite decide_False by apply not_elem_of_nil.
    apply HR. }
  destruct (add_reject_Ok voter info t R Hv HR) as (m1 & -> & H1). cbn [mbind outcome_bind].
  destruct (IH (mkVoteInfo (vi_block info) (own_reject_txn_votes info) m1) _ Hv H1) as (m & -> & Hm).
  exists m. split; [done|]. intros t'. specialize (Hm t').
  assert ((if decide (t' ∈ t :: ts) then {[voter]} ∪ R t' else R t')
          = (if decide (t' ∈ ts) then {[voter]} ∪ (if decide (t' = t) then {[voter]} ∪ R t' else R t')
             else if decide (t' = t) then {[voter]} ∪ R t' else R t')) as ->; [|done].
  repeat case_decide; rewrite elem_of_cons in *; try tauto; clear; set_solver.
Qed.

(** A map of votes above [gc] that has entries for [P] and the reject votes
    [R]. *)
Record entries (gc : N) (m : gmap BlockRef VoteInfo) (P : BlockRef -> Prop) (R : BlockRef -> N -> gset N) : Prop := {
  en_above : forall r info, m !! r = Some info -> gc < br_round r;
  en_dom : forall r, gc < br_round r -> is_Some (m !! r) <-> P r;
  en_rejects : forall r info, m !! r = Some info -> rejects_are c (reject_txn_votes info) (R r);
  en_none : forall r t, gc < br_round r -> ~ P r -> R r t = ∅;
}.

(** The block and own votes of an entry; a missing one has none. *)
Definition own_part (m : gmap BlockRef VoteInfo) (r : BlockRef) : option VerifiedBlock * list N :=
  let info := default vote_info_default (m !! r) in (vi_block info, own_reject_txn_votes info).

Definition casts (vs : list BlockTransactionVotes) (r : BlockRef) (t : N) : bool :=
  existsb (fun v => bool_decide (btv_block_ref v = r) && bool_decide (t ∈ btv_rejects v)) vs.

Definition names (vs : list BlockTransactionVotes) (r : BlockRef) : bool :=
  existsb (fun v => bool_decide (btv_block_ref v = r)) vs.

Lemma count_one_Ok gc voter m P R v :
  is_valid_index c voter = true -> entries gc m P R ->
  exists m', count_block_votes c gc voter m v = Ok m' /\ (forall r, own_part m' r = own_part m r)
    /\ entries gc m' (fun r => P r \/ names [v] r = true)
         (fun r t => if casts [v] r t then {[voter]} ∪ R r t else R r t).
Proof using Hc.
  intros Hv [Ha Hd Hr Hn]. unfold count_block_votes, casts, names. cbn [existsb].
  destruct (N.leb_spec (br_round (btv_block_ref v)) gc) as [Hle|Hgt].
  - exists m. split_and!; [done|done|].
    assert (forall r, gc < br_round r -> bool_decide (btv_block_ref v = r) = false) as Hne.
    { intros r Hg. apply bool_decide_eq_false_2. intros <-. lia. }
    constructor; [done| | |].
    + intros r Hg. rewrite Hd, (Hne r Hg) by done. cbn [orb]. split; [by left|by intros [?|]].
    + intros r info E. rewrite (Hne r (Ha r info E)). by apply Hr.
    + intros r t Hg Hp. rewrite (Hne r Hg). cbn [andb orb]. apply Hn; tauto.
  - set (ref := btv_block_ref v) in *. set (info := default vote_info_default (m !! ref)).
    assert (rejects_are c (reject_txn_votes info) (R ref)) as Hinfo.
    { unfold info. destruct (m !! ref) as [i|] eqn:E; [by apply (Hr ref)|]. intros t. cbn.
      rewrite lookup_empty. apply Hn; [done|]. rewrite <- (Hd ref Hgt), E. by intros [? ?]. }
    destruct (add_rejects_Ok voter (btv_rejects v) info (R ref) Hv Hinfo) as (mr & -> & Hmr).
    cbn [mbind outcome_bind]. eexists. split; [done|]. split.
    { intros r. unfold own_part. destruct (decide (r = ref)) as [->|Hne]; [by rewrite lookup_insert_eq|].
      by rewrite lookup_insert_ne. }
    constructor.
    + intros r info'. destruct (decide (r = ref)) as [->|Hne]; [done|]. rewrite lookup_insert_ne by done. apply Ha.
    + intros r Hg. rewrite orb_false_r, bool_decide_eq_true. destruct (decide (r = ref)) as [->|Hne].
      * rewrite lookup_insert_eq. split; [by right|by eexists].
      * rewrite lookup_insert_ne by done. rewrite (Hd r Hg). split; [by left|]. by intros [?|<-].
    + intros r info'. destruct (decide (r = ref)) as [->|Hne].
      * rewrite lookup_insert_eq. intros [= <-] t. specialize (Hmr t). cbn beta in Hmr. cbn [reject_txn_votes].
        rewrite (bool_decide_eq_true_2 (ref = ref)) by done. cbn [andb]. rewrite orb_false_r.
        case_bool_decide as Hb; [rewrite decide_True in Hmr by done|rewrite decide_False in Hmr by done]; exact Hmr.
      * rewrite lookup_insert_ne by done. intros E t. rewrite (bool_decide_eq_false_2 (ref = r)) by congruence.
        cbn [andb orb]. by apply (Hr r).
    + intros r t Hg Hp. rewrite orb_false_r in Hp. rewrite (bool_decide_eq_false_2 (ref = r)).
      * cbn [andb orb]. apply Hn; tauto.
      * intros E. apply Hp. right. by apply bool_decide_eq_true.
Qed.

Lemma count_all_Ok gc voter vs : forall m P R,
  is_valid_index c voter = true -> entries gc m P R ->
  exists m', foldM (count_block_votes c gc voter) vs m = Ok m' /\ (forall r, own_part m' r = own_part m r)
    /\ entries gc m' (fun r => P r \/ names vs r = true)
         (fun r t => if casts vs r t then {[voter]} ∪ R r t else R r t).
Proof using Hc.
  induction vs as [|v vs IH]; intros m P R Hv Hm; cbn [foldM].
  { exists m. split_and!; [done|done|]. destruct Hm as [Ha Hd Hr Hn]. constructor; try done.
    - intros r Hg. rewrite (Hd r Hg). split; [by left|by intros [?|]].
    - intros r t Hg Hp. apply Hn; tauto. }
  destruct (count_one_Ok gc voter m P R v Hv Hm) as (m1 & -> & O1 & H1). cbn [mbind outcome_bind].
  destruct (IH m1 _ _ Hv H1) as (m' & -> & O' & [Ha Hd Hr Hn]). exists m'. split_and!; [done|by intros r; rewrite O'|].
  assert (forall r, names (v :: vs) r = names [v] r || names vs r) as En
    by (intros r; unfold names; cbn [existsb]; by rewrite orb_false_r).
  assert (forall r t, casts (v :: vs) r t = casts [v] r t || casts vs r t) as Ec
    by (intros r t; unfold casts; cbn [existsb]; by rewrite orb_false_r).
  assert (forall r t, (if casts (v :: vs) r t then {[voter]} ∪ R r t else R r t)
     = if casts vs r t then {[voter]} ∪ (if casts [v] r t then {[voter]} ∪ R r t else R r t)
       else if casts [v] r t then {[voter]} ∪ R r t else R r t) as ER.
  { intros r t. rewrite Ec. destruct (casts [v] r t), (casts vs r t); cbn [orb]; clear; set_solver. }
  constructor; [done| | |].
  - intros r Hg. rewrite (Hd r Hg), En, orb_true_iff. tauto.
  - intros r info E t. rewrite ER. by apply (Hr r).
  - intros r t Hg Hp. rewrite ER. apply Hn; [done|]. rewrite En, orb_true_iff in Hp. tauto.
Qed.
End counting.

Lemma rejects_votes_on b r t : rejects_tx b r t = true -> votes_on b r = true.
Proof.
  unfold rejects_tx, votes_on. rewrite !existsb_exists. intros (v & Hv & [Hr _]%andb_true_iff). by exists v.
Qed.

Lemma tracks_entries log st :
  tracks_votes log st ->
  entries (committee (vt_context st)) (vt_gc_round st) (vt_votes st)
    (fun r => r ∈ reference <$> log.*1 \/ exists b, b ∈ log.*1 /\ votes_on b r = true) (rejecters log).
Proof.
  intros [_ Ha He _ Hr]. constructor; try done. intros r t Hg Hp. apply set_eq. intros a.
  rewrite elem_of_rejecters. split; [|by intros ?%elem_of_empty].
  intros (b & Hb & _ & Hrej%rejects_votes_on). exfalso. apply Hp. right. by exists b.
Qed.

(** The log after a block: ignored at or below the GC round, and when it is
    in the log already. *)
Definition log_voted (gc : N) (log : list (VerifiedBlock * list N)) (voted : VerifiedBlock * list N)
    : list (VerifiedBlock * list N) :=
  if (round voted.1 <=? gc) || bool_decide (reference voted.1 ∈ reference <$> log.*1) then log else log ++ [voted].

Lemma refs_snoc (log : list (VerifiedBlock * list N)) b v :
  reference <$> (log ++ [(b, v)]).*1 = (reference <$> log.*1) ++ [reference b].
Proof. by rewrite !fmap_app. Qed.

Lemma insert_entries c gc m P R r info :
  gc < br_round r -> entries c gc m P R -> rejects_are c (reject_txn_votes info) (R r) ->
  entries c gc (<[r := info]> m) (fun x => P x \/ x = r) R.
Proof.
  intros Hg [Ha Hd Hr Hn] Hinfo. constructor.
  - intros x i. destruct (decide (x = r)) as [->|]; [done|]. rewrite lookup_insert_ne by done. apply Ha.
  - intros x Hx. destruct (decide (x = r)) as [->|]; [rewrite lookup_insert_eq; split; [by right|by eexists]|].
    rewrite lookup_insert_ne by done. rewrite (Hd x Hx). tauto.
  - intros x i. destruct (decide (x = r)) as [->|]; [rewrite lookup_insert_eq; by intros [= <-]|].
    rewrite lookup_insert_ne by done. apply Hr.
  - intros x t Hx Hp. apply Hn; tauto.
Qed.

Lemma add_voted_block_Ok log st b v :
  let c := committee (vt_context st) in
  committee_wf c -> is_valid_index c (author b) = true -> tracks_votes log st ->
  exists st', add_voted_block st (b, v) = Ok st' /\ vt_context st' = vt_context st
    /\ vt_gc_round st' = vt_gc_round st /\ tracks_votes (log_voted (vt_gc_round st) log (b, v)) st'.
Proof.
  intros c Hc Hv Hst. unfold add_voted_block, log_voted. cbn [fst].
  destruct (N.leb_spec (round b) (vt_gc_round st)) as [Hle|Hgt]; cbn [orb]; [by exists st|].
  destruct (committee_authority_Ok c (author b) Hv) as [au Eau]. fold c. rewrite Eau. cbn [mbind outcome_bind].
  set (ref := reference b). set (info := default vote_info_default (vt_votes st !! ref)).
  assert (vt_gc_round st < br_round ref) as Hg by done.
  pose proof (tracks_entries log st Hst) as Hent. fold c in Hent. destruct Hst as [Hnd Ha He Hb Hr].
  assert (match vi_block info with Some _ => ref ∈ reference <$> log.*1 | None => ref ∉ reference <$> log.*1 end) as Hin.
  { unfold info. destruct (vt_votes st !! ref) as [i|] eqn:E; cbn.
    - specialize (Hb ref i E). destruct (vi_block i) as [b'|]; [|done]. destruct Hb as [Hb <-].
      by apply list_elem_of_fmap_2, (list_elem_of_fmap_2 fst _ _ Hb).
    - intros Hin. assert (is_Some (vt_votes st !! ref)) as [? ?] by (apply He; [done|by left]). congruence. }
  destruct (vi_block info) as [b'|].
  { rewrite bool_decide_eq_true_2 by done. by exists st. }
  rewrite bool_decide_eq_false_2 by done.
  assert (rejects_are c (reject_txn_votes info) (rejecters log ref)) as Hinfo.
  { unfold info. destruct (vt_votes st !! ref) as [i|] eqn:E; [by apply (Hr ref)|]. intros t. cbn. rewrite lookup_empty.
    apply (en_none _ _ _ _ _ Hent); [done|]. rewrite <- (He ref Hg), E. by intros [? ?]. }
  destruct (count_all_Ok c Hc (vt_gc_round st) (author b) (transaction_votes b) _ _ _ Hv
    (insert_entries c _ _ _ _ ref (mkVoteInfo (Some b) v (reject_txn_votes info)) Hg Hent Hinfo))
    as (m' & -> & Hown & [Ha' Hd' Hr' _]).
  cbn [mbind outcome_bind]. eexists. split; [done|]. split_and!; [done|done|].
  constructor; cbn [vt_votes vt_gc_round vt_context].
  - rewrite refs_snoc. apply NoDup_app. split_and!; [done| |apply NoDup_singleton].
    intros r Hr1 ->%list_elem_of_singleton. done.
  - done.
  - intros r Hgr. rewrite (Hd' r Hgr), refs_snoc, elem_of_app, list_elem_of_singleton, fmap_app.
    change ([(b, v)].*1) with [b]. setoid_rewrite elem_of_app. setoid_rewrite list_elem_of_singleton.
    fold (votes_on b r). split.
    + intros [[[?|(b' & ? & ?)]|?]|?]; eauto 6.
    + intros [[?|?]|(b' & [?| ->] & ?)]; eauto 6.
  - intros r info' E. specialize (Hown r). unfold own_part in Hown. rewrite E in Hown. cbn [default from_option id] in Hown.
    injection Hown as Hbl How. rewrite Hbl, How, refs_snoc. destruct (decide (r = ref)) as [->|Hne].
    + rewrite lookup_insert_eq. cbn. split; [|done]. apply elem_of_app. right. by apply list_elem_of_singleton.
    + rewrite lookup_insert_ne by done. destruct (vt_votes st !! r) as [i|] eqn:Ei; cbn.
      * specialize (Hb r i Ei). destruct (vi_block i) as [b'|]; [|by rewrite elem_of_app, list_elem_of_singleton; intros [?|?]].
        destruct Hb as [Hb ?]. split; [|done]. apply elem_of_app. by left.
      * rewrite elem_of_app, list_elem_of_singleton. intros [Hin'|?]; [|done].
        assert (is_Some (vt_votes st !! r)) as [? ?]; [|congruence]. apply He; [by eapply Ha'|by left].
  - intros r info' E t. specialize (Hr' r info' E t). cbn beta in Hr'. rewrite rejecters_snoc.
    change (casts (transaction_votes b) r t) with (rejects_tx b r t) in Hr'.
    destruct (rejects_tx b r t); [exact Hr'|]. by rewrite (left_id_L ∅ (∪)).
Qed.

(** ** Garbage collection *)

Lemma gc_votes_lookup (m : gmap BlockRef VoteInfo) gc r :
  foldr delete m (take_while (fun r => br_round r <=? gc) (btree_map_iter m).*1) !! r
  = if br_round r <=? gc then None else m !! r.
Proof.
  rewrite (take_while_sorted (fun a b => key_leb a b = true)).
  2:{ intros x y Hxy%block_ref_leb_round. rewrite !N.leb_le. lia. }
  2:{ apply btree_map_iter_sorted. }
  rewrite lookup_foldr_delete. destruct (N.leb_spec (br_round r) gc) as [Hle|Hgt].
  - case_decide as Hin; [done|]. apply eq_None_not_Some. intros [i Hi]. apply Hin, list_filter_elem_of.
    split; [by apply N.leb_le|]. apply elem_of_btree_map_iter in Hi. exact (list_elem_of_fmap_2 fst _ _ Hi).
  - rewrite decide_False; [done|]. intros [?%N.leb_le _]%list_filter_elem_of. lia.
Qed.

Lemma update_gc_round_tracks log st gc :
  vt_gc_round st <= gc -> tracks_votes log st -> tracks_votes log (update_gc_round st gc).
Proof.
  intros Hle [Hnd Ha He Hb Hr]. unfold update_gc_round.
  constructor; cbn [vt_votes vt_gc_round vt_context]; [done|..].
  - intros r info. rewrite gc_votes_lookup. destruct (N.leb_spec (br_round r) gc); [done|]. by intros.
  - intros r Hg. rewrite gc_votes_lookup, (proj2 (N.leb_gt _ _) Hg). apply He. lia.
  - intros r info. rewrite gc_votes_lookup. destruct (br_round r <=? gc); [done|]. apply Hb.
  - intros r info. rewrite gc_votes_lookup. destruct (br_round r <=? gc); [done|]. apply Hr.
Qed.

(* ------------------------------------------------------------------ *)
(** ** Runs of the tracker *)

Lemma get_own_votes_Ok log st refs : forall acc,
  tracks_votes log st ->
  (forall r, r ∈ refs -> vt_gc_round st < br_round r -> r ∈ reference <$> log.*1) ->
  exists own,
    foldM (fun votes block_ref =>
             if br_round block_ref <=? vt_gc_round st then Ok votes
             else vote_info ← unwrap (vt_votes st !! block_ref);
                  Ok (if is_empty (own_reject_txn_votes vote_info) then votes
                      else votes ++ [mkBlockTransactionVotes block_ref (own_reject_txn_votes vote_info)]))
      refs acc = Ok (acc ++ own)
    /\ forall v, v ∈ own <-> btv_block_ref v ∈ refs /\ vt_gc_round st < br_round (btv_block_ref v)
         /\ btv_rejects v <> [] /\ exists b, (b, btv_rejects v) ∈ log /\ reference b = btv_block_ref v.
Proof.
  intros acc Hst. revert acc. induction refs as [|r refs IH]; intros acc Hrefs; cbn [foldM].
  { exists []. rewrite app_nil_r. split; [done|]. intros v. split; [by intros ?%elem_of_nil|by intros [?%elem_of_nil _]]. }
  assert (forall v, btv_block_ref v ∈ r :: refs <-> btv_block_ref v = r \/ btv_block_ref v ∈ refs) as Hcons
    by (intros v; apply elem_of_cons).
  destruct (N.leb_spec (br_round r) (vt_gc_round st)) as [Hle|Hgt]; cbn [mbind outcome_bind].
  { destruct (IH acc) as (own & E & Hown); [intros; apply Hrefs; [by right|done]|]. exists own. split; [done|].
    intros v. rewrite Hown, Hcons. split; [tauto|]. intros ([<-|?] & ? & ?); [lia|tauto]. }
  assert (r ∈ reference <$> log.*1) as Hr by (apply Hrefs; [left|done]).
  destruct (proj2 (tv_entry _ _ Hst r Hgt) (or_introl Hr)) as [info Hinfo]. rewrite Hinfo. cbn [unwrap mbind outcome_bind].
  pose proof (tv_block _ _ Hst r info Hinfo) as Hb. destruct (vi_block info) as [b|]; [|done]. destruct Hb as [Hb <-].
  assert (forall b' rej, (b', rej) ∈ log -> reference b' = reference b -> rej = own_reject_txn_votes info) as Huniq.
  { intros b' rej Hin E.
    assert ((b', rej) = (b, own_reject_txn_votes info)) as [= _ ->]; [|done].
    apply (NoDup_fmap_elem_inj (fun x => reference x.1) log); try done.
    pose proof (tv_refs _ _ Hst) as Hnd. by rewrite <- list_fmap_compose in Hnd. }
  destruct (own_reject_txn_votes info) as [|x l] eqn:El; cbn [is_empty].
  - destruct (IH acc) as (own & E & Hown); [intros; apply Hrefs; [by right|done]|]. exists own. split; [done|].
    intros v. rewrite Hown, Hcons. split; [tauto|]. intros ([E'|?] & ? & Hne & (b' & Hin & Eb)); [|eauto 6].
    exfalso. apply Hne, (Huniq b'); congruence.
  - destruct (IH (acc ++ [mkBlockTransactionVotes (reference b) (x :: l)])) as (own & E & Hown);
      [intros; apply Hrefs; [by right|done]|].
    exists (mkBlockTransactionVotes (reference b) (x :: l) :: own). split; [by rewrite E, <- (assoc_L (++))|].
    intros v. rewrite elem_of_cons, Hown, Hcons. split.
    + intros [->|?]; [|tauto]. cbn. split_and!; [by left|done|done|]. by exists b.
    + intros ([E'|?] & ? & ? & (b' & Hin & Eb)); [left|right; eauto 6].
      rewrite E' in Eb. specialize (Huniq b' _ Hin Eb). destruct v; cbn in *. congruence.
Qed.

Section runs.
Context {S : Type} `{Store S}.

(** What happens to a tracker: blocks with own votes, and GC rounds from the
    finalizer, with the DAG state at that time. *)
Inductive tracker_event :=
  | Voted (voted : VerifiedBlock * list N)
  | Gc (s : DagState S) (gc : N).

Definition tracker_step (st : VoteTrackerState) (e : tracker_event) : outcome VoteTrackerState :=
  match e with
  | Voted voted => add_voted_block st voted
  | Gc s gc => run_gc s st gc
  end.

(** The GC round and the log after an event. *)
Definition log_event (acc : N * list (VerifiedBlock * list N)) (e : tracker_event)
    : N * list (VerifiedBlock * list N) :=
  match e with
  | Voted voted => (acc.1, log_voted acc.1 acc.2 voted)
  | Gc _ gc => (gc, acc.2)
  end.

(** Blocks of committee members; GC rounds that do not go back, nor beyond the
    DAG state. *)
Fixpoint events_ok (c : Committee) (gc : N) (es : list tracker_event) : Prop :=
  match es with
  | [] => True
  | Voted voted :: es => is_valid_index c (author voted.1) = true /\ events_ok c gc es
  | Gc s gc' :: es => gc <= gc' <= gc_round s /\ events_ok c gc' es
  end.

Lemma tracker_run_Ok c es : forall st log,
  committee_wf c -> committee (vt_context st) = c -> tracks_votes log st -> events_ok c (vt_gc_round st) es ->
  let '(gc, log') := foldl log_event (vt_gc_round st, log) es in
  exists st', foldM tracker_step es st = Ok st' /\ vt_context st' = vt_context st
    /\ vt_gc_round st' = gc /\ tracks_votes log' st'.
Proof.
  induction es as [|e es IH]; intros st log Hc Hctx Hst Hes; cbn [foldM foldl].
  { by exists st. }
  destruct e as [[b v]|s gc]; destruct Hes as [He Hes]; cbn [tracker_step log_event fst snd].
  - destruct (add_voted_block_Ok log st b v) as (st1 & E1 & C1 & G1 & T1); [by rewrite Hctx|by rewrite Hctx|done|].
    rewrite E1. cbn [mbind outcome_bind]. specialize (IH st1 _ Hc ltac:(congruence) T1). rewrite G1 in IH.
    specialize (IH Hes). destruct (foldl _ _ _) as [gc log']. destruct IH as (st' & ? & ? & ? & ?).
    exists st'. split_and!; [done|congruence|done|done].
  - unfold run_gc. rewrite (proj2 (N.leb_le _ _)) by lia. cbn [assert_that mbind outcome_bind].
    apply (IH (update_gc_round st gc)); [done|done| |done]. apply update_gc_round_tracks; [lia|done].
Qed.

Lemma tracks_votes_new context : tracks_votes [] (vote_tracker_state_new context).
Proof.
  constructor; cbn; try done; [constructor|]. intros r _. rewrite lookup_empty. split; [by intros [? ?]|].
  intros [?%elem_of_nil|(b & ?%elem_of_nil & _)]; done.
Qed.

(** C29: Votes on transactions are counted exactly.  From a new tracker, after
    any blocks of committee members in any order, with repetitions, and any
    GC rounds, every block above the GC round that was received or voted on
    has an answer; the answer lists each transaction that some received block
    rejects, once, with the stake of the distinct authorities that reject it;
    and the own votes returned for received blocks are those given when each
    block was first received. *)
Theorem vote_tracker_exact (context : Context) (es : list tracker_event) :
  let c := committee context in
  committee_wf c -> events_ok c 0 es ->
  let '(gc, log) := foldl log_event (0, []) es in
  exists st, foldM tracker_step es (vote_tracker_state_new context) = Ok st
    /\ (forall r, gc < br_round r ->
          (is_Some (get_reject_votes st r)
           <-> r ∈ reference <$> log.*1 \/ exists b, b ∈ log.*1 /\ votes_on b r = true)
          /\ forall l, get_reject_votes st r = Some l ->
               NoDup l.*1 /\ forall t stake, (t, stake) ∈ l
                 <-> rejecters log r t <> ∅ /\ stake = stake_of c (rejecters log r t))
    /\ (forall refs, (forall r, r ∈ refs -> gc < br_round r -> r ∈ reference <$> log.*1) ->
          exists own, get_own_votes st refs = Ok own
            /\ forall v, v ∈ own <-> btv_block_ref v ∈ refs /\ gc < br_round (btv_block_ref v)
                 /\ btv_rejects v <> []
                 /\ exists b, (b, btv_rejects v) ∈ log /\ reference b = btv_block_ref v).
Proof.
  intros c Hc Hes.
  pose proof (tracker_run_Ok c es (vote_tracker_state_new context) [] Hc eq_refl) as Hrun.
  cbn [vt_gc_round vote_tracker_state_new] in Hrun. change GENESIS_ROUND with 0 in Hrun.
  destruct (foldl _ _ es) as [gc log]. destruct Hrun as (st & E & Hctx & <- & Hst).
  { apply tracks_votes_new. }
  { done. }
  exists st. split_and!; [done| |intros refs; by apply get_own_votes_Ok].
  intros r Hg. unfold get_reject_votes. rewrite fmap_is_Some. split; [by apply (tv_entry _ _ Hst)|].
  intros l. rewrite fmap_Some. intros (info & Hinfo & ->).
  pose proof (tv_rejects _ _ Hst r info Hinfo) as Hr. rewrite Hctx in Hr. fold c in Hr.
  rewrite <- list_fmap_compose. split.
  - erewrite list_fmap_ext; [apply btree_map_iter_NoDup|]. by intros ? [??].
  - intros t stake. rewrite list_elem_of_fmap. split.
    + intros ([t' agg] & [= -> ->] & Hin%elem_of_btree_map_iter). specialize (Hr t'). rewrite Hin in Hr.
      destruct Hr as (Hwf & Hv & Hne). split; [done|]. by rewrite <- Hv, (agg_exact _ _ Hwf).
    + intros [Hne ->]. specialize (Hr t). destruct (reject_txn_votes info !! t) as [agg|] eqn:E'; [|done].
      destruct Hr as (Hwf & Hv & _). exists (t, agg). split; [by rewrite (agg_exact _ _ Hwf), Hv|].
      by apply elem_of_btree_map_iter.
Qed.
End runs.

(** A block of round 6 that rejects transactions of the first block. *)
Definition reject_block (author : N) (rejects : list N) : VerifiedBlock :=
  {| vb_block := {| inner := V2 {| v2_epoch := 0; v2_round := 6; v2_author := author;
                                   v2_timestamp_ms := 0; v2_ancestors := []; v2_transactions := [];
                                   v2_transaction_votes := [mkBlockTransactionVotes (mkBlockRef 5 0 9) rejects];
                                   v2_commit_votes := []; v2_misbehavior_reports := [] |};
                    signature := [] |};
     vb_digest := author;
     vb_serialized := [] |}.

(** Votes of two authorities, one of them before the block they are on, one
    received twice. *)
Lemma vote_tracker_exact_witness :
  let context := mkContext 0 0 (test_committee 4) (mkParameters 500 100 false 50000000 5 32 1000 8 32) for_testing in
  let target := test_block 5 0 0 9 [] in
  let es := [Voted (S := MemStore) (reject_block 1 [3; 7], []); Voted (target, [3]);
             Voted (reject_block 2 [3], []); Voted (reject_block 1 [3; 7], [])] in
  exists st, foldM tracker_step es (vote_tracker_state_new context) = Ok st
    /\ get_reject_votes st (reference target) = Some [(3, 2); (7, 1)]
    /\ get_own_votes st [reference target] = Ok [mkBlockTransactionVotes (reference target) [3]].
Proof.
  intros context target es.
  pose proof (vote_tracker_exact context es test_committee_4_wf) as Hx.
  assert (events_ok (committee context) 0 es) as Hok by (repeat split).
  specialize (Hx Hok). destruct (foldl _ _ es) as [gc log]. destruct Hx as (st & E & _).
  exists st. split; [done|]. vm_compute in E. injection E as <-. split; vm_compute; reflexivity.
Defined.
