(* ===== verification/DagInv.v ===== *)
(** * The DAG state: invariants and reads

    The invariant of [DagState] and that its operations preserve it; what the
    reads return.  [view s r] is the block cached at reference [r]; the
    invariant says that the cache is indexed by reference and by author, holds
    well-formed blocks, and is causally closed above the garbage collection
    round. *)

From S2P Require Import Prelude Committee Context Block StakeAggregator ThresholdClock Commit Store LeaderScoring DagState.

(** The authors of the ancestors in the round before the block's. *)
Definition parents (b : VerifiedBlock) : list BlockRef :=
  filter (fun r => br_round r + 1 = round b) (ancestors b).

Definition parent_authors (b : VerifiedBlock) : gset N := list_to_set (br_author <$> parents b).

(** What the block verifier establishes of a block. *)
Record wf_block (c : Committee) (b : VerifiedBlock) : Prop := {
  wb_round : 0 < round b < u32_MAX;
  wb_author : is_valid_index c (author b) = true;
  wb_digest : vb_digest b <= DIGEST_MAX;
  wb_anc : forall r, r ∈ ancestors b ->
    br_round r < round b /\ is_valid_index c (br_author r) = true /\ br_digest r <= DIGEST_MAX;
  wb_distinct : NoDup (br_author <$> ancestors b);
  wb_quorum : c_quorum_threshold c <= stake_of c (parent_authors b);
}.

Definition view {S} (s : DagState S) (r : BlockRef) : option VerifiedBlock :=
  bi_block <$> ds_recent_blocks s !! r.

Section inv.
Context {S : Type} `{Store S}.
Implicit Types s : DagState S.

Record dag_inv s : Prop := {
  di_committee : committee_wf (ds_committee s);
  di_wf : forall r b, view s r = Some b -> reference b = r /\ wf_block (ds_committee s) b;
  di_refs_len : length (ds_recent_refs_by_authority s) = N.to_nat (committee_size (ds_committee s));
  di_evicted_len : length (ds_evicted_rounds s) = N.to_nat (committee_size (ds_committee s));
  di_refs : forall i refs r, ds_recent_refs_by_authority s !! i = Some refs ->
    r ∈ refs <-> br_author r = N.of_nat i /\ is_Some (view s r);
  di_closed : forall r b a, view s r = Some b -> a ∈ ancestors b -> gc_round s < br_round a ->
    is_Some (view s a);
  di_genesis : forall a, is_valid_index (ds_committee s) a = true ->
    exists r b, ds_genesis s !! r = Some b /\ br_author r = a;
  di_genesis_ref : forall r b, ds_genesis s !! r = Some b -> reference b = r /\ br_round r = 0;
  di_clock : agg_wf (ds_committee s) (tc_aggregator (ds_threshold_clock s));
}.

Lemma view_round s r b : dag_inv s -> view s r = Some b -> 0 < br_round r.
Proof. intros Hs Hb. destruct (di_wf s Hs _ _ Hb) as [<- Hwf]. apply (wb_round _ _ Hwf). Qed.

(** ** Reading a block *)

Definition dag_block `{!StoreLaws S} s (r : BlockRef) : option VerifiedBlock :=
  match cached_block s r with Some b => b | None => store_block (ds_store s) r end.

Lemma get_block_cached s r b :
  0 < br_round r -> view s r = Some b -> get_block s r = Ok (Some b).
Proof.
  intros Hr Hv. unfold get_block, get_blocks, cached_block. simpl. unfold cached_block.
  rewrite (proj2 (N.eqb_neq _ _)) by (unfold GENESIS_ROUND; lia).
  unfold view in Hv. destruct (ds_recent_blocks s !! r); [|done]. simpl in Hv. by injection Hv as ->.
Qed.

Lemma get_block_view s r b : dag_inv s -> view s r = Some b -> get_block s r = Ok (Some b).
Proof. intros Hs Hv. apply get_block_cached; [by eapply view_round|done]. Qed.

Lemma fill_missing_spec {A B} (f : A -> option B) (g : A -> B) (d : B) l :
  fill_missing d (f <$> l)
    (g <$> omap (fun x => match f x with None => Some x | Some _ => None end) l)
  = (fun x => match f x with Some y => y | None => g x end) <$> l.
Proof. induction l as [|x l IH]; [done|]. cbn in *. destruct (f x); cbn in *; by rewrite IH. Qed.

Lemma get_blocks_spec `{!StoreLaws S} s refs : get_blocks s refs = Ok (dag_block s <$> refs).
Proof.
  unfold get_blocks. set (missing := omap _ refs).
  assert (fill_missing None (cached_block s <$> refs) (store_block (ds_store s) <$> missing)
          = dag_block s <$> refs) as E by apply fill_missing_spec.
  clearbody missing. destruct missing as [|r rest]; simpl.
  - by rewrite <- E.
  - rewrite store_read_blocks_spec. simpl. by rewrite <- E.
Qed.

Lemma get_block_spec `{!StoreLaws S} s r : get_block s r = Ok (dag_block s r).
Proof. unfold get_block. rewrite get_blocks_spec. done. Qed.

(** The store keeps blocks under their own references. *)
Definition store_ok `{!StoreLaws S} s : Prop :=
  forall r b, store_block (ds_store s) r = Some b -> reference b = r.

Lemma dag_block_reference `{!StoreLaws S} s r b :
  dag_inv s -> store_ok s -> dag_block s r = Some b -> reference b = r.
Proof.
  intros Hs Hst. unfold dag_block, cached_block. destruct (br_round r =? GENESIS_ROUND).
  - intros Hb. by apply (di_genesis_ref s Hs).
  - destruct (ds_recent_blocks s !! r) as [bi|] eqn:E; [|apply Hst].
    intros [= <-]. apply (di_wf s Hs r). unfold view. by rewrite E.
Qed.

(** ** Ancestry *)

(** [reach s b r]: [r] is in the causal history of [b], through cached blocks. *)
Inductive reach s (b : VerifiedBlock) : BlockRef -> Prop :=
  | reach_anc r : r ∈ ancestors b -> reach s b r
  | reach_step r' b' r : reach s b r' -> view s r' = Some b' -> r ∈ ancestors b' -> reach s b r.

Lemma reach_trans s b r1 b1 r2 :
  reach s b r1 -> view s r1 = Some b1 -> reach s b1 r2 -> reach s b r2.
Proof. intros H1 Hv. induction 1 as [r Hr|r' b' r _ IH Hb' Hr]; [by eapply reach_step|].
  by eapply reach_step. Qed.

(** Blocks whose history above the GC round is cached. *)
Definition rooted s (b : VerifiedBlock) : Prop :=
  wf_block (ds_committee s) b
  /\ forall a, a ∈ ancestors b -> gc_round s < br_round a -> is_Some (view s a).

Lemma rooted_view s r b : dag_inv s -> view s r = Some b -> rooted s b.
Proof.
  intros Hs Hv. split; [by apply (di_wf s Hs r b)|]. intros a. by apply (di_closed s Hs r).
Qed.

Lemma reach_round s b r : dag_inv s -> rooted s b -> reach s b r -> br_round r < round b.
Proof.
  intros Hs [Hwf _]. induction 1 as [r Hr|r' b' r _ IH Hv Hr].
  - by apply (wb_anc _ _ Hwf).
  - destruct (di_wf s Hs _ _ Hv) as [<- Hwf']. destruct (wb_anc _ _ Hwf' _ Hr) as [? _].
    simpl in IH. lia.
Qed.

Lemma reach_cached s b r :
  dag_inv s -> rooted s b -> reach s b r -> gc_round s < br_round r -> is_Some (view s r).
Proof.
  intros Hs [_ Hb]. induction 1 as [r Hr|r' b' r _ _ Hv Hr]; [by apply Hb|].
  by eapply di_closed.
Qed.

(** ** Ancestors at a round *)

(** The references of [L] and of the histories of its cached blocks. *)
Definition below s (L : gset BlockRef) (r : BlockRef) : Prop :=
  r ∈ L \/ exists x b, x ∈ L /\ view s x = Some b /\ reach s b r.

(** The cached references up to the largest of [L]: the loop's measure. *)
Definition cached_up_to s (L : gset BlockRef) : gset BlockRef :=
  filter (fun x => existsb (key_leb x) (elements L) = true) (dom (ds_recent_blocks s)).

Lemma elem_of_cached_up_to s L x :
  x ∈ cached_up_to s L <-> is_Some (view s x) /\ exists y, y ∈ L /\ key_leb x y = true.
Proof.
  unfold cached_up_to, view. rewrite elem_of_filter, elem_of_dom, fmap_is_Some, existsb_exists.
  setoid_rewrite <- list_elem_of_In. setoid_rewrite elem_of_elements. tauto.
Qed.

Lemma key_lt_of_round (a r : BlockRef) :
  br_round a < br_round r -> key_leb a r = true /\ a <> r.
Proof. intros Hr. split; [apply block_ref_leb_spec; lia|]. intros ->. lia. Qed.

(** One iteration of the loop pops the largest reference. *)
Lemma traverse_pop s L r b :
  dag_inv s -> view s r = Some b -> r ∈ L -> (forall y, y ∈ L -> key_leb y r = true) ->
  let L' := list_to_set (ancestors b) ∪ (L ∖ {[r]}) in
  (size (cached_up_to s L') < size (cached_up_to s L))%nat
  /\ (forall x, below s L' x -> below s L x)
  /\ (forall x, below s L x -> x = r \/ below s L' x).
Proof.
  intros Hs Hv Hr Hmax L'.
  destruct (di_wf s Hs _ _ Hv) as [Href Hwf].
  assert (forall y, y ∈ L' -> key_leb y r = true /\ y <> r) as Hlt.
  { intros y. unfold L'. rewrite elem_of_union, elem_of_list_to_set, elem_of_difference,
      elem_of_singleton. intros [Hy|[Hy Hne]]; [|auto]. apply key_lt_of_round.
    rewrite <- Href. by apply (wb_anc _ _ Hwf). }
  split_and!.
  - apply subset_size. split.
    + intros x. rewrite !elem_of_cached_up_to. intros [Hx (y & Hy & Hxy)]. split; [done|].
      exists r. split; [done|]. eapply key_leb_trans; [exact Hxy|]. by apply Hlt.
    + intros Hsub. assert (r ∈ cached_up_to s L') as Hin.
      { apply Hsub, elem_of_cached_up_to. split; [by rewrite Hv|]. exists r. split; [done|].
        apply key_leb_refl. }
      apply elem_of_cached_up_to in Hin as [_ (y & Hy & Hry)].
      destruct (Hlt y Hy) as [Hyr Hne]. destruct Hne. by apply key_leb_antisym.
  - intros x [Hx|(y & by_ & Hy & Hvy & Hreach)].
    + unfold L' in Hx. apply elem_of_union in Hx as [Hx|Hx]; [|left; set_solver].
      right. exists r, b. split_and!; [done..|]. apply reach_anc. by apply elem_of_list_to_set in Hx.
    + unfold L' in Hy. apply elem_of_union in Hy as [Hy|Hy].
      * right. exists r, b. split_and!; [done..|]. apply elem_of_list_to_set in Hy.
        eapply reach_trans; [by apply reach_anc|done..].
      * right. exists y, by_. split_and!; [set_solver|done..].
  - intros x [Hx|(y & by_ & Hy & Hvy & Hreach)].
    + destruct (decide (x = r)); [by left|]. right. left. unfold L'. set_solver.
    + destruct (decide (y = r)) as [->|Hne].
      2:{ right. right. exists y, by_. split_and!; [unfold L'; set_solver|done..]. }
      rewrite Hv in Hvy. injection Hvy as <-. right. clear Hy.
      induction Hreach as [r0 Hr0|r' b' r0 _ IH Hv' Hr0].
      * left. unfold L'. set_solver.
      * right. destruct IH as [IH|(z & bz & Hz & Hvz & IH)].
        -- exists r', b'. split_and!; [done..|]. by apply reach_anc.
        -- exists z, bz. split_and!; [done..|]. by eapply reach_step.
Qed.

Lemma traverse_above_spec fuel s L e :
  dag_inv s -> gc_round s <= e ->
  (forall x, x ∈ L -> gc_round s < br_round x -> is_Some (view s x)) ->
  (size (cached_up_to s L) < fuel)%nat ->
  exists L', traverse_above fuel s L e = Ok L'
    /\ (forall x, x ∈ L' -> br_round x <= e)
    /\ (forall r, br_round r = e -> r ∈ L' <-> below s L r).
Proof.
  intros Hs He. revert L. induction fuel as [|fuel IH]; intros L HL Hfuel; [lia|]. simpl.
  destruct (btree_last L) as [r|] eqn:El.
  2:{ apply btree_last_None in El as ->. exists ∅. split_and!; [done|set_solver|].
      intros r _. split; [set_solver|]. unfold below. set_solver. }
  destruct (btree_last_spec _ _ El) as [Hr Hmax].
  destruct (N.leb_spec (br_round r) e) as [Hle|Hgt].
  - assert (forall x, x ∈ L -> br_round x <= e) as Hle'.
    { intros x Hx. specialize (Hmax x Hx). apply block_ref_leb_round in Hmax. lia. }
    exists L. split_and!; [done|done|]. intros x Hx. split; [by left|].
    intros [?|(y & b & Hy & Hv & Hreach)]; [done|]. exfalso.
    pose proof (reach_round s b x Hs (rooted_view _ _ _ Hs Hv) Hreach).
    destruct (di_wf s Hs _ _ Hv) as [Href _]. specialize (Hle' y Hy). rewrite <- Href in Hle'.
    simpl in Hle'. lia.
  - destruct (HL r Hr ltac:(lia)) as [b Hv]. rewrite (get_block_view s r b Hs Hv). simpl.
    destruct (traverse_pop s L r b Hs Hv Hr Hmax) as (Hsize & Hb1 & Hb2).
    destruct (IH (list_to_set (ancestors b) ∪ (L ∖ {[r]}))) as (L' & E & H1 & H2).
    + intros x Hx Hgc. apply elem_of_union in Hx as [Hx|Hx]; [|apply HL; set_solver].
      apply elem_of_list_to_set in Hx. by eapply di_closed.
    + lia.
    + exists L'. split_and!; [done|done|]. intros x Hx. rewrite H2 by done. split; [apply Hb1|].
      intros Hx'. destruct (Hb2 x Hx') as [->|]; [lia|done].
Qed.

Lemma below_ancestors s b r : below s (list_to_set (ancestors b)) r <-> reach s b r.
Proof.
  split.
  - intros [Hr%elem_of_list_to_set|(x & bx & Hx%elem_of_list_to_set & Hvx & Hr)].
    + by apply reach_anc.
    + eapply reach_trans; [by apply reach_anc|done..].
  - induction 1 as [r Hr|r' b' r _ IH Hv Hr]; [left; by apply elem_of_list_to_set|].
    right. destruct IH as [IH|(z & bz & Hz & Hvz & IH)].
    + exists r', b'. split_and!; [done..|]. by apply reach_anc.
    + exists z, bz. split_and!; [done..|]. by eapply reach_step.
Qed.

(** The cached blocks at references that are all cached. *)
Lemma mapM_get_block s refs :
  dag_inv s -> (forall r, r ∈ refs -> is_Some (view s r)) ->
  mapM (fun r => block ← get_block s r; unwrap block) refs = Ok (omap (view s) refs)
  /\ refs = reference <$> omap (view s) refs.
Proof.
  intros Hs. induction refs as [|r refs IH]; intros Hview; [done|].
  destruct (Hview r) as [x Hx]; [set_solver|].
  destruct IH as [IH1 IH2]; [set_solver|]. cbn. cbn in IH1, IH2.
  rewrite (get_block_view s r x Hs Hx), Hx. cbn. rewrite IH1. cbn. split; [done|].
  f_equal; [|done]. by destruct (di_wf s Hs _ _ Hx) as [-> _].
Qed.

(** What [ancestors_at_round] computes: the cached blocks of the round in the
    history of the block, each once. *)
Lemma ancestors_at_round_spec s b e :
  dag_inv s -> rooted s b -> gc_round s < e ->
  exists l, ancestors_at_round s b e = Ok l
    /\ (forall x, x ∈ l <-> reach s b (reference x) /\ round x = e /\ view s (reference x) = Some x)
    /\ NoDup (reference <$> l).
Proof.
  intros Hs Hb He. unfold ancestors_at_round.
  destruct (traverse_above_spec (Datatypes.S (size (ds_recent_blocks s))) s
              (list_to_set (ancestors b)) e Hs) as (L & E & Hle & HL).
  - lia.
  - intros x Hx. apply elem_of_list_to_set in Hx. by apply Hb.
  - rewrite <- (size_dom (D := gset BlockRef)). apply Nat.lt_succ_r, subseteq_size.
    unfold cached_up_to. set_solver.
  - rewrite E. simpl. set (refs := btree_range _ L).
    assert (forall r, r ∈ refs <-> reach s b r /\ br_round r = e) as Hrefs.
    { intros r. unfold refs. rewrite elem_of_btree_range, <- below_ancestors. split.
      - intros [Hk%block_ref_leb_round Hr]. simpl in Hk. specialize (Hle r Hr).
        assert (br_round r = e) as Hre by lia. split; [by apply HL|done].
      - intros [Hr Hre]. split; [|by apply HL]. apply block_ref_leb_spec. simpl.
        unfold AUTHORITY_INDEX_ZERO, DIGEST_MIN. lia. }
    destruct (mapM_get_block s refs Hs) as [-> Hre].
    { intros r [Hr Hre]%Hrefs. eapply reach_cached; [done|done|done|lia]. }
    exists (omap (view s) refs). split_and!; [done| |].
    + intros x. rewrite list_elem_of_omap. split.
      * intros (r & Hr & Hv). destruct (di_wf s Hs _ _ Hv) as [<- _].
        apply Hrefs in Hr as [? <-]. done.
      * intros (Hr & <- & Hv). exists (reference x). split; [|done]. by apply Hrefs.
    + rewrite <- Hre. apply list_filter_NoDup, btree_iter_NoDup.
Qed.

(** ** Blocks of a slot and of a round *)

Lemma elem_of_range_blocks s inside x :
  dag_inv s ->
  x ∈ (fun kv => bi_block kv.2) <$> btree_map_range inside (ds_recent_blocks s)
  <-> inside (reference x) = true /\ view s (reference x) = Some x.
Proof.
  intros Hs. rewrite list_elem_of_fmap. split.
  - intros ([k bi] & -> & Hk). apply elem_of_btree_map_range in Hk as [Hk Hbi]. simpl.
    assert (view s k = Some (bi_block bi)) as Hv by (unfold view; by rewrite Hbi).
    destruct (di_wf s Hs _ _ Hv) as [-> _]. done.
  - unfold view. intros [Hk (bi & Hbi & Hx)%fmap_Some]. exists (reference x, bi).
    split; [done|]. by apply elem_of_btree_map_range.
Qed.

Lemma range_blocks_NoDup s inside :
  dag_inv s ->
  NoDup (reference <$> ((fun kv => bi_block kv.2)
                        <$> btree_map_range inside (ds_recent_blocks s))).
Proof.
  intros Hs. assert (reference <$> ((fun kv => bi_block kv.2)
      <$> btree_map_range inside (ds_recent_blocks s))
    = (btree_map_range inside (ds_recent_blocks s)).*1) as ->.
  { rewrite <- list_fmap_compose. apply list_fmap_ext. intros i [k bi] Hi. simpl.
    apply list_elem_of_lookup_2, elem_of_btree_map_range in Hi as [_ Hbi].
    apply (di_wf s Hs k). unfold view. by rewrite Hbi. }
  unfold btree_map_range. pose proof (btree_map_iter_NoDup (ds_recent_blocks s)) as Hnd.
  induction (btree_map_iter (ds_recent_blocks s)) as [|[k v] l IH]; simpl; [constructor|].
  inversion Hnd; subst. destruct (inside k); [|by apply IH]. cbn. constructor; [|by apply IH].
  intros Hin. apply list_elem_of_fmap in Hin as ([k' v'] & -> & Hin).
  apply list_filter_elem_of in Hin as [_ Hin]. simpl in *. by apply list_elem_of_fmap_2 with (f := fst) in Hin.
Qed.

Lemma key_between_slot (slot : Slot) r :
  br_digest r <= DIGEST_MAX ->
  key_between (slot_min slot) (slot_max slot) r = true <-> slot_of_ref r = slot.
Proof.
  intros Hd. unfold key_between. simpl. rewrite andb_true_iff, !block_ref_leb_spec.
  destruct slot as [sr sa], r as [rr ra rd]. unfold slot_of_ref. simpl in *. unfold DIGEST_MIN. split.
  - intros [??]. f_equal; lia.
  - intros [= -> ->]. lia.
Qed.

Lemma uncommitted_at_slot_spec s slot x :
  dag_inv s ->
  x ∈ get_uncommitted_blocks_at_slot s slot
  <-> view s (reference x) = Some x /\ slot_of_ref (reference x) = slot.
Proof.
  intros Hs. unfold get_uncommitted_blocks_at_slot. rewrite elem_of_range_blocks by done.
  split.
  - intros [Hk Hv]. split; [done|]. apply key_between_slot; [|done].
    apply (wb_digest _ _ (proj2 (di_wf s Hs _ _ Hv))).
  - intros [Hv Hslot]. split; [|done]. apply key_between_slot; [|done].
    apply (wb_digest _ _ (proj2 (di_wf s Hs _ _ Hv))).
Qed.

Lemma uncommitted_at_round_spec s r :
  dag_inv s -> last_commit_round s < r -> r < u32_MAX ->
  exists l, get_uncommitted_blocks_at_round s r = Ok l
    /\ (forall x, x ∈ l <-> view s (reference x) = Some x /\ round x = r)
    /\ NoDup (reference <$> l).
Proof.
  intros Hs Hr Hmax. unfold get_uncommitted_blocks_at_round.
  rewrite (proj2 (N.leb_gt _ _)) by lia. rewrite u32_add_small by lia.
  assert (key_leb (mkBlockRef r AUTHORITY_INDEX_ZERO DIGEST_MIN)
            (mkBlockRef (r + 1) AUTHORITY_INDEX_ZERO DIGEST_MIN) = true) as ->
    by (apply block_ref_leb_spec; simpl; lia).
  cbn [assert_that mbind outcome_bind]. eexists. split_and!; [done| |by apply range_blocks_NoDup].
  intros x. rewrite elem_of_range_blocks by done. unfold key_in. simpl.
  rewrite andb_true_iff, negb_true_iff, <- not_true_iff_false, !block_ref_leb_spec. simpl.
  unfold AUTHORITY_INDEX_ZERO, DIGEST_MIN. split; intros [H1 H2]; split; try done; lia.
Qed.
End inv.
