(* ===== verification/Evolve.v ===== *)
(** * How the DAG state changes between commits

    Accepting blocks and flushing leave the record of commits alone: the last
    commit, the scores and the commit marks above the GC round stay, no block
    above the GC round leaves the cache, nor does the latest block of an
    authority, the inclusion marks stay closed, and the threshold clock stays
    the one that the cached blocks justify. *)

From S2P Require Import Prelude Committee Context Block StakeAggregator ThresholdClock Commit Store LeaderScoring DagState DagInv.

Section evolve.
Context {S : Type}.
Implicit Types s : DagState S.

Definition committed s (r : BlockRef) : bool :=
  match ds_recent_blocks s !! r with Some bi => bi_committed bi | None => false end.

Lemma gc_round_ext s s' :
  ds_context s' = ds_context s -> ds_last_commit s' = ds_last_commit s -> gc_round s' = gc_round s.
Proof. intros E1 E2. unfold gc_round, calculate_gc_round, last_commit_round. by rewrite E1, E2. Qed.

(** ** The threshold clock and the cache *)

(** The authorities with a cached block at a round. *)
Definition cached_authors s (r : N) : gset N := authors_at r (elements (dom (ds_recent_blocks s))).

Lemma elem_of_cached_authors s r a :
  a ∈ cached_authors s r <-> exists x, is_Some (view s x) /\ br_round x = r /\ br_author x = a.
Proof.
  unfold cached_authors. rewrite elem_of_authors_at. unfold view. setoid_rewrite elem_of_elements.
  setoid_rewrite elem_of_dom. by setoid_rewrite fmap_is_Some.
Qed.

(** The clock is at the highest accepted round or one past it; the round below
    it has cached blocks of a quorum, and the authorities that it counts have
    cached blocks at its round.  No authority is a quorum by itself. *)
Record live_inv s : Prop := {
  lv_single : forall a, reached_quorum (ds_committee s) (stake_of (ds_committee s) {[a]}) = false;
  lv_evicted : forall i e, ds_evicted_rounds s !! i = Some e -> e <= gc_round s;
  lv_gc : gc_round s < tc_round (ds_threshold_clock s);
  lv_gc_below : 1 < tc_round (ds_threshold_clock s) -> gc_round s + 1 < tc_round (ds_threshold_clock s);
  lv_high : ds_highest_accepted_round s <= tc_round (ds_threshold_clock s) <= ds_highest_accepted_round s + 1;
  lv_top : forall r, is_Some (view s r) -> br_round r <= ds_highest_accepted_round s;
  lv_votes : votes (tc_aggregator (ds_threshold_clock s)) ⊆ cached_authors s (tc_round (ds_threshold_clock s));
  lv_quorum : 1 < tc_round (ds_threshold_clock s) ->
    reached_quorum (ds_committee s) (stake_of (ds_committee s)
      (cached_authors s (tc_round (ds_threshold_clock s) - 1))) = true;
}.

Lemma cached_authors_mono s s' r :
  (forall x, br_round x = r -> is_Some (view s x) -> is_Some (view s' x)) -> cached_authors s r ⊆ cached_authors s' r.
Proof.
  intros Hv a. rewrite !elem_of_cached_authors. intros (x & Hx & Hr & Ha). exists x. split_and!; [by apply Hv|done..].
Qed.

(** The clock stays justified when blocks at or below the GC round leave. *)
Lemma live_ext s s' :
  ds_context s' = ds_context s -> ds_threshold_clock s' = ds_threshold_clock s ->
  ds_highest_accepted_round s' = ds_highest_accepted_round s ->
  (forall i e, ds_evicted_rounds s' !! i = Some e -> e <= gc_round s') ->
  gc_round s' < tc_round (ds_threshold_clock s) ->
  (1 < tc_round (ds_threshold_clock s) -> gc_round s' + 1 < tc_round (ds_threshold_clock s)) ->
  (forall r, is_Some (view s' r) -> is_Some (view s r)) ->
  (forall r, gc_round s' < br_round r -> is_Some (view s r) -> is_Some (view s' r)) ->
  live_inv s -> live_inv s'.
Proof.
  intros Hc Ht Hh He Hg Hg2 Hsub Hkeep [S1 _ _ _ H1 T1 V1 Q1].
  assert (ds_committee s' = ds_committee s) as Ec by (unfold ds_committee; by rewrite Hc).
  constructor; rewrite ?Ec, ?Ht, ?Hh; try done.
  - intros r Hr. by apply T1, Hsub.
  - etrans; [exact V1|]. apply cached_authors_mono. intros x Hx. apply Hkeep. lia.
  - intros Hr. eapply quorum_mono; [|by apply Q1]. apply cached_authors_mono. intros x Hx. apply Hkeep.
    specialize (Hg2 Hr). lia.
Qed.

(** A new block whose history is cached. *)
Lemma live_insert s s' b adv :
  dag_inv s -> rooted s b -> ds_context s' = ds_context s -> gc_round s' = gc_round s ->
  threshold_clock_add_block (ds_committee s) (ds_threshold_clock s) (reference b) = Ok (ds_threshold_clock s', adv) ->
  ds_highest_accepted_round s' = N.max (ds_highest_accepted_round s) (round b) ->
  ds_evicted_rounds s' = ds_evicted_rounds s ->
  (forall r, view s' r = if decide (r = reference b) then Some b else view s r) ->
  live_inv s -> live_inv s'.
Proof.
  intros Hs [Hwf Hcl] Hc Hgc Et Hh He Hv [S1 E1 G1 G2 H1 T1 V1 Q1].
  assert (ds_committee s' = ds_committee s) as Ec by (unfold ds_committee; by rewrite Hc).
  pose proof (wb_round _ _ Hwf) as Hr. pose proof (wb_author _ _ Hwf) as Ha.
  assert (forall r, cached_authors s r ⊆ cached_authors s' r) as Hmono.
  { intros r. apply cached_authors_mono. intros x _ Hx. rewrite Hv. case_decide; [by eexists|done]. }
  assert (author b ∈ cached_authors s' (round b)) as Hnew.
  { apply elem_of_cached_authors. exists (reference b). rewrite Hv, decide_True by done. split_and!; [by eexists|done..]. }
  assert (forall r, is_Some (view s' r) -> br_round r <= N.max (ds_highest_accepted_round s) (round b)) as Htop.
  { intros r. rewrite Hv. case_decide as E; [subst r; intros _; simpl; lia|]. intros Hx%T1. lia. }
  unfold threshold_clock_add_block in Et. change (br_author (reference b)) with (author b) in Et.
  change (br_round (reference b)) with (round b) in Et.
  destruct (N.compare_spec (round b) (tc_round (ds_threshold_clock s))) as [Heq|Hlt|Hgt].
  - destruct (add_Ok (ds_committee s) (di_committee s Hs) (tc_aggregator (ds_threshold_clock s)) (author b) (di_clock s Hs) Ha)
      as (agg & Ea & Evo & _). rewrite Ea in Et. cbn [mbind outcome_bind] in Et.
    assert (votes agg ⊆ cached_authors s' (tc_round (ds_threshold_clock s))) as Hsub.
    { rewrite Evo. apply union_subseteq. split; [apply singleton_subseteq_l; by rewrite <- Heq|]. by etrans; [exact V1|]. }
    destruct (_ <=? _) eqn:Eq; [|destruct (committee_authority_Ok (ds_committee s) _ Ha) as [x Ex]; rewrite Ex in Et];
      injection Et as Etc _; constructor; rewrite ?Ec, ?Hgc, ?Hh, ?He, <- ?Etc; simpl; try done; try lia;
      rewrite ?u32_add_small by lia; try lia.
    + intros _. replace (round b + 1 - 1) with (round b) by lia. rewrite Heq.
      eapply quorum_mono; [exact Hsub|]. rewrite Evo. exact Eq.
    + intros Hr1. eapply quorum_mono; [apply Hmono|by apply Q1].
  - injection Et as Etc _. constructor; rewrite ?Ec, ?Hgc, ?Hh, ?He, <- ?Etc; try done; try lia.
    + by etrans; [exact V1|].
    + intros Hr1. eapply quorum_mono; [apply Hmono|by apply Q1].
  - destruct (add_Ok (ds_committee s) (di_committee s Hs) (stake_aggregator_clear (tc_aggregator (ds_threshold_clock s)))
      (author b)) as (agg & Ea & Evo & _); [by apply agg_new_wf, (di_committee s Hs)|done|]. rewrite Ea in Et. cbn [mbind outcome_bind] in Et.
    simpl in Evo. rewrite union_empty_r_L in Evo.
    destruct (_ <=? _) eqn:Eq in Et.
    { exfalso. simpl in Eq. rewrite union_empty_r_L in Eq. pose proof (S1 (author b)) as Hno. unfold reached_quorum in Hno.
      change (threshold QuorumThreshold (ds_committee s)) with (c_quorum_threshold (ds_committee s)) in Eq. congruence. }
    injection Et as Etc _. constructor; rewrite ?Ec, ?Hgc, ?Hh, ?He, <- ?Etc; simpl; try done; try lia.
    + rewrite Evo. by apply singleton_subseteq_l.
    + intros Hr1. eapply quorum_mono; [|apply N.leb_le, (wb_quorum _ _ Hwf)]. intros a Hin.
      unfold parent_authors, parents in Hin.
      apply elem_of_list_to_set, list_elem_of_fmap in Hin as (x & -> & Hx).
      apply list_elem_of_filter in Hx as [Hxr Hx]. apply elem_of_cached_authors. exists x.
      split_and!; [|lia|done]. rewrite Hv. case_decide; [by eexists|]. apply Hcl; [done|lia].
Qed.

(** ** Inclusion marks *)

Definition included s (r : BlockRef) : bool :=
  match ds_recent_blocks s !! r with Some bi => bi_included bi | None => false end.

(** The history of an included block, above the GC round, is included. *)
Definition included_closed s : Prop :=
  forall r b a, included s r = true -> view s r = Some b -> a ∈ ancestors b ->
    gc_round s < br_round a -> included s a = true.

(** ** Evolution *)

Record evolves s s' : Prop := {
  el_context : ds_context s' = ds_context s;
  el_genesis : ds_genesis s' = ds_genesis s;
  el_last : ds_last_commit s' = ds_last_commit s;
  el_rounds : ds_last_committed_rounds s' = ds_last_committed_rounds s;
  el_scoring : ds_scoring_subdag s' = ds_scoring_subdag s;
  el_marks : forall r, gc_round s < br_round r -> committed s' r = committed s r;
  el_view : forall r b, gc_round s < br_round r -> view s r = Some b -> view s' r = Some b;
  el_tip : forall r, is_Some (view s r) -> is_Some (view s' r)
    \/ exists r', is_Some (view s' r') /\ br_author r' = br_author r /\ br_round r < br_round r';
  el_included : forall r, gc_round s < br_round r -> included s r = true -> included s' r = true;
  el_closed : included_closed s -> included_closed s';
  el_live : live_inv s -> live_inv s';
}.

Lemma evolves_refl s : evolves s s.
Proof. constructor; try done. by left. Qed.

Lemma evolves_gc s s' : evolves s s' -> gc_round s' = gc_round s.
Proof. intros E. apply gc_round_ext; [apply (el_context _ _ E)|apply (el_last _ _ E)]. Qed.

Lemma evolves_trans s1 s2 s3 : evolves s1 s2 -> evolves s2 s3 -> evolves s1 s3.
Proof.
  intros H1 H2. pose proof (evolves_gc _ _ H1) as Hgc.
  destruct H1 as [C1 G1 L1 R1 S1 M1 V1 T1 I1 K1 X1], H2 as [C2 G2 L2 R2 S2 M2 V2 T2 I2 K2 X2].
  constructor; try congruence.
  - intros r Hr. rewrite M2, M1; [done|done|]. by rewrite Hgc.
  - intros r b Hr Hb. apply V2; [by rewrite Hgc|]. by apply V1.
  - intros r Hr. destruct (T1 r Hr) as [Hr1|(r1 & Hr1 & Ha1 & Hlt1)]; [by apply T2|]. right.
    destruct (T2 r1 Hr1) as [Hr2|(r2 & Hr2 & Ha2 & Hlt2)]; [by exists r1|].
    exists r2. split_and!; [done|congruence|lia].
  - intros r Hr Hi. apply I2; [by rewrite Hgc|]. by apply I1.
  - intros Hc. by apply K2, K1.
  - intros Hl. by apply X2, X1.
Qed.

(** The fields that record commits, *)
Definition commit_fields s :=
  (ds_context s, ds_genesis s, ds_last_commit s, ds_last_committed_rounds s, ds_scoring_subdag s).

(** and those that the clock depends on. *)
Definition clock_fields s := (ds_threshold_clock s, ds_evicted_rounds s, ds_highest_accepted_round s).

(** Blocks leave the cache at or below the GC round, but not the latest block
    of an authority. *)
Lemma evolves_shrink s s' :
  commit_fields s' = commit_fields s -> ds_threshold_clock s' = ds_threshold_clock s ->
  ds_highest_accepted_round s' = ds_highest_accepted_round s ->
  (forall r, ds_recent_blocks s' !! r = ds_recent_blocks s !! r
     \/ ds_recent_blocks s' !! r = None /\ br_round r <= gc_round s) ->
  (forall i e, ds_evicted_rounds s' !! i = Some e -> ds_evicted_rounds s !! i = Some e \/ e <= gc_round s) ->
  (forall r, is_Some (view s r) -> is_Some (view s' r)
     \/ exists r', is_Some (view s' r') /\ br_author r' = br_author r /\ br_round r < br_round r') ->
  evolves s s'.
Proof.
  intros Hf Ht Hh Hr He Htip. pose proof Hf as [= Hc _ Hl _ _]. pose proof (gc_round_ext s s' Hc Hl) as Hgc.
  assert (forall r, gc_round s < br_round r -> ds_recent_blocks s' !! r = ds_recent_blocks s !! r) as Habove.
  { intros r Hlt. destruct (Hr r) as [E|[_ ?]]; [done|lia]. }
  assert (forall r, is_Some (view s' r) -> is_Some (view s r)) as Hsub.
  { intros r. unfold view. destruct (Hr r) as [->|[-> _]]; [done|]. by intros [??]. }
  injection Hf as _ Hgen _ Hrnd Hsc. constructor; try done.
  - intros r Hlt. unfold committed. by rewrite Habove.
  - intros r b Hlt. unfold view. by rewrite Habove.
  - intros r Hlt. unfold included. by rewrite Habove.
  - intros Hcl r b a Hi Hv Ha Hlt. rewrite Hgc in Hlt. unfold included. rewrite Habove by done.
    fold (included s a). unfold included, view in Hi, Hv. destruct (Hr r) as [E|[E _]]; [|by rewrite E in Hi].
    rewrite E in Hi, Hv. by apply (Hcl r b a).
  - intros Hlive. apply (live_ext s s'); rewrite ?Hgc; try done; try apply Hlive.
    + intros i e Hi. destruct (He i e Hi) as [Hi'|?]; [|done]. by apply (lv_evicted s Hlive i).
    + intros r Hlt. unfold view. by rewrite Habove.
Qed.

(** States with the same cache. *)
Lemma evolves_same s s' :
  commit_fields s' = commit_fields s -> clock_fields s' = clock_fields s ->
  ds_recent_blocks s' = ds_recent_blocks s -> evolves s s'.
Proof.
  intros Hf [= Ht He Hh] Hr. apply evolves_shrink; try done.
  - intros r. left. by rewrite Hr.
  - intros i e. rewrite He. by left.
  - intros r Hv. left. unfold view. by rewrite Hr.
Qed.

(** A new block in the cache is not marked. *)
Lemma evolves_insert s s' r b :
  commit_fields s' = commit_fields s -> view s r = None ->
  ds_recent_blocks s' = <[r := block_info_new b]> (ds_recent_blocks s) ->
  (live_inv s -> live_inv s') -> evolves s s'.
Proof.
  unfold view. intros Hf Hn%fmap_None E Hlive. pose proof Hf as [= Hc _ Hl _ _].
  pose proof (gc_round_ext s s' Hc Hl) as Hgc.
  assert (forall x, ds_recent_blocks s' !! x = ds_recent_blocks s !! x \/ x = r) as Hx.
  { intros x. rewrite E. destruct (decide (x = r)) as [->|Hne]; [by right|]. left. by rewrite lookup_insert_ne. }
  assert (forall x, included s' x = included s x) as Hinc.
  { intros x. unfold included. destruct (Hx x) as [->| ->]; [done|]. by rewrite E, lookup_insert_eq, Hn. }
  injection Hf as _ Hgen _ Hrnd Hsc. constructor; try done.
  - intros x _. unfold committed. destruct (Hx x) as [->| ->]; [done|]. by rewrite E, lookup_insert_eq, Hn.
  - intros x b' _. unfold view. destruct (Hx x) as [->| ->]; [done|]. by rewrite Hn.
  - intros x Hv. left. unfold view in *. destruct (Hx x) as [->| ->]; [done|]. rewrite E, lookup_insert_eq. by eexists.
  - intros x _. by rewrite Hinc.
  - intros Hcl x b' a. rewrite !Hinc, Hgc. intros Hi Hv. apply (Hcl x b' a Hi). unfold view in *.
    destruct (Hx x) as [<-| ->]; [done|]. unfold included in Hi. by rewrite Hn in Hi.
Qed.

(** ** What stays for the proposer *)

(** No change takes back what the node's next block builds on: the latest block
    of an authority stays cached, and above the GC round so do all blocks and
    their inclusion marks. *)
Record keeps s s' : Prop := {
  kp_context : ds_context s' = ds_context s;
  kp_gc : gc_round s <= gc_round s';
  kp_view : forall r b, gc_round s' < br_round r -> view s r = Some b -> view s' r = Some b;
  kp_tip : forall r, is_Some (view s r) -> is_Some (view s' r)
    \/ exists r', is_Some (view s' r') /\ br_author r' = br_author r /\ br_round r < br_round r';
  kp_included : forall r, gc_round s' < br_round r -> included s r = true -> included s' r = true;
}.

Lemma keeps_refl s : keeps s s.
Proof. constructor; try done. by left. Qed.

Lemma keeps_trans s1 s2 s3 : keeps s1 s2 -> keeps s2 s3 -> keeps s1 s3.
Proof.
  intros [C1 G1 V1 T1 I1] [C2 G2 V2 T2 I2]. constructor; [congruence|lia| | |].
  - intros r b Hr Hb. apply V2; [done|]. apply V1; [lia|done].
  - intros r Hr. destruct (T1 r Hr) as [Hr1|(r1 & Hr1 & Ha1 & Hlt1)]; [by apply T2|]. right.
    destruct (T2 r1 Hr1) as [Hr2|(r2 & Hr2 & Ha2 & Hlt2)]; [by exists r1|].
    exists r2. split_and!; [done|congruence|lia].
  - intros r Hr Hi. apply I2; [done|]. apply I1; [lia|done].
Qed.

Lemma evolves_keeps s s' : evolves s s' -> keeps s s'.
Proof.
  intros E. pose proof (evolves_gc _ _ E) as Hgc. constructor; rewrite ?Hgc; try apply E. lia.
Qed.

(** The fields that a commit does not change. *)
Definition rest_fields s :=
  (ds_genesis s, ds_store s, ds_blocks_to_write s, ds_cached_rounds s, ds_highest_accepted_round s,
   (ds_scoring_subdag s, ds_threshold_clock s, ds_evicted_rounds s)).
End evolve.
