(* ===== verification/DagOps.v ===== *)
(** * The DAG state: operations preserve the invariant

    Accepting a verified block whose history is present, marking and linking
    blocks, adding a commit and flushing each return (no panic, enough fuel)
    and keep the invariant of [DagInv].  The statements are for the protocol
    version in which the version 3 vote accounting is off, unless they say
    otherwise. *)

From S2P Require Import Prelude Committee Context Block StakeAggregator ThresholdClock Commit Store LeaderScoring DagState DagInv Evolve.

Section ops.
Context {S : Type} `{Store S}.
Implicit Types s : DagState S.

(** The invariant reads only the view and the indices. *)
Lemma dag_inv_ext s s' :
  dag_inv s ->
  ds_context s' = ds_context s -> ds_genesis s' = ds_genesis s ->
  (forall r, view s' r = view s r) ->
  ds_recent_refs_by_authority s' = ds_recent_refs_by_authority s ->
  length (ds_evicted_rounds s') = length (ds_evicted_rounds s) ->
  gc_round s <= gc_round s' ->
  agg_wf (ds_committee s) (tc_aggregator (ds_threshold_clock s')) ->
  dag_inv s'.
Proof.
  intros Hs Hctx Hgen Hview Hrefs Hev Hgc Hclock.
  assert (ds_committee s' = ds_committee s) as Hcom by (unfold ds_committee; by rewrite Hctx).
  constructor; rewrite ?Hcom, ?Hrefs, ?Hgen, ?Hev; try apply Hs; try done.
  - intros r b. rewrite Hview. apply Hs.
  - intros i refs r Hi. rewrite Hview. by apply (di_refs s Hs).
  - intros r b a. rewrite !Hview. intros Hb Ha Hlt. eapply (di_closed s Hs); [done|done|lia].
Qed.

(** The state with a new block in the cache and in the index of its author. *)
Definition insert_block s (b : VerifiedBlock) (refs : gset BlockRef) : DagState S :=
  with_cache s (<[reference b := block_info_new b]> (ds_recent_blocks s))
    (<[N.to_nat (author b) := {[reference b]} ∪ refs]> (ds_recent_refs_by_authority s))
    (ds_round_info s) (ds_threshold_clock s) (ds_evicted_rounds s) (ds_highest_accepted_round s).

Lemma view_insert s b refs r :
  view (insert_block s b refs) r = if decide (r = reference b) then Some b else view s r.
Proof.
  unfold view, insert_block. simpl. case_decide as E.
  - subst r. by rewrite lookup_insert_eq.
  - by rewrite lookup_insert_ne.
Qed.

Lemma insert_block_inv s b refs :
  dag_inv s -> rooted s b ->
  ds_recent_refs_by_authority s !! N.to_nat (author b) = Some refs ->
  dag_inv (insert_block s b refs).
Proof.
  intros Hs [Hwf Hcl] Hrefs. pose proof (view_insert s b refs) as Hview.
  constructor; try apply Hs.
  - intros r x. rewrite Hview. case_decide as E; [|apply Hs]. intros [= <-]. by rewrite E.
  - unfold insert_block. simpl. rewrite length_insert. apply Hs.
  - intros i rs r Hi. rewrite Hview. unfold insert_block in Hi. simpl in Hi.
    destruct (decide (i = N.to_nat (author b))) as [->|Hne].
    + rewrite list_lookup_insert_eq in Hi by (by eapply lookup_lt_Some). injection Hi as <-.
      rewrite elem_of_union, elem_of_singleton, (di_refs s Hs _ _ _ Hrefs), N2Nat.id.
      case_decide as E; [subst r; simpl; naive_solver|]. naive_solver.
    + rewrite list_lookup_insert_ne in Hi by done. rewrite (di_refs s Hs _ _ _ Hi).
      case_decide as E; [|done]. subst r. simpl. split; intros [Ha _]; exfalso; lia.
  - intros r x a. rewrite !Hview.
    change (gc_round (insert_block s b refs)) with (gc_round s).
    case_decide as E; case_decide as E2; intros Hx Ha Hgc; try (by eexists).
    + injection Hx as <-. by apply Hcl.
    + by eapply (di_closed s Hs).
Qed.

Lemma authority_refs s a :
  dag_inv s -> is_valid_index (ds_committee s) a = true ->
  exists refs, ds_recent_refs_by_authority s !! N.to_nat a = Some refs
    /\ forall r, r ∈ refs <-> br_author r = a /\ is_Some (view s r).
Proof.
  intros Hs Ha. unfold is_valid_index in Ha. apply N.ltb_lt in Ha.
  destruct (lookup_lt_is_Some_2 (ds_recent_refs_by_authority s) (N.to_nat a)) as [refs Hrefs].
  { rewrite (di_refs_len s Hs). lia. }
  exists refs. split; [done|]. intros r. rewrite (di_refs s Hs _ _ _ Hrefs), N2Nat.id. done.
Qed.

Lemma get_last_block_Ok s a :
  dag_inv s -> is_valid_index (ds_committee s) a = true ->
  exists b, get_last_block_for_authority s a = Ok b.
Proof.
  intros Hs Ha. destruct (authority_refs s a Hs Ha) as (refs & Hrefs & Hin).
  unfold get_last_block_for_authority, vec_index. rewrite Hrefs. simpl.
  destruct (btree_last refs) as [r|] eqn:El.
  - apply btree_last_spec in El as [Hr _]. apply Hin in Hr as [_ Hr]. unfold view in Hr.
    destruct (ds_recent_blocks s !! r); [simpl; by eexists|]. by destruct Hr.
  - destruct (di_genesis s Hs a Ha) as (r & b & Hg & Hr).
    destruct (filter (fun kv => br_author kv.1 = a) (btree_map_iter (ds_genesis s))) as [|kv l] eqn:E;
      [|simpl; by eexists].
    exfalso. assert ((r, b) ∈ filter (fun kv => br_author kv.1 = a) (btree_map_iter (ds_genesis s)))
      as Hin'. { apply list_elem_of_filter. split; [done|]. by apply elem_of_btree_map_iter. }
    rewrite E in Hin'. inversion Hin'.
Qed.

Lemma get_last_proposed_Ok s : dag_inv s -> exists o, get_last_proposed_block s = Ok o.
Proof.
  intros Hs. unfold get_last_proposed_block. destruct (is_validator (ds_context s)) eqn:E; [|by eexists].
  destruct (get_last_block_Ok s (own_index (ds_context s)) Hs E) as [b ->]. simpl. by eexists.
Qed.

Lemma update_block_metadata_Ok s b :
  dag_inv s -> enable_v3 (protocol_config (ds_context s)) = false -> rooted s b ->
  exists s', update_block_metadata s b = Ok s' /\ dag_inv s'
    /\ (forall r, view s' r = if decide (r = reference b) then Some b else view s r)
    /\ ds_context s' = ds_context s /\ ds_last_commit s' = ds_last_commit s
    /\ ds_genesis s' = ds_genesis s /\ ds_cached_rounds s' = ds_cached_rounds s
    /\ ds_store s' = ds_store s /\ ds_blocks_to_write s' = ds_blocks_to_write s
    /\ ds_highest_accepted_round s' = N.max (ds_highest_accepted_round s) (round b)
    /\ commit_fields s' = commit_fields s
    /\ ds_recent_blocks s' = <[reference b := block_info_new b]> (ds_recent_blocks s)
    /\ (live_inv s -> live_inv s').
Proof.
  intros Hs Hv3 Hb. destruct Hb as [Hwf Hcl]. pose proof (wb_author _ _ Hwf) as Ha.
  destruct (authority_refs s (author b) Hs Ha) as (refs & Hrefs & _).
  unfold update_block_metadata, vec_index, vec_store.
  change (br_author (reference b)) with (author b). rewrite Hrefs. simpl.
  fold (insert_block s b refs). rewrite Hv3.
  pose proof (insert_block_inv s b refs Hs (conj Hwf Hcl) Hrefs) as Hi.
  cbn [mbind outcome_bind].
  destruct (clock_add_total (ds_committee s) (ds_threshold_clock s) (reference b)
    (di_committee s Hs) (di_clock s Hs) Ha) as (t' & adv & Et & Ht').
  change (ds_committee (insert_block s b refs)) with (ds_committee s).
  change (ds_threshold_clock (insert_block s b refs)) with (ds_threshold_clock s).
  rewrite Et. cbn [mbind outcome_bind].
  set (s2 := with_cache (insert_block s b refs) _ _ _ t' _ _).
  assert (dag_inv s2) as H2 by (by apply (dag_inv_ext (insert_block s b refs))).
  assert ((if adv then _ ← get_last_proposed_block s2; Ok () else Ok ()) = Ok ()) as ->.
  { destruct adv; [|done]. destruct (get_last_proposed_Ok s2 H2) as [o ->]. done. }
  cbn [mbind outcome_bind]. change (ds_committee s2) with (ds_committee s).
  destruct (committee_authority_Ok (ds_committee s) (author b) Ha) as [au ->].
  cbn [mbind outcome_bind]. eexists. split_and!; [done|by apply (dag_inv_ext s2)| |done..|].
  - intros r. apply (view_insert s b refs).
  - apply (live_insert s _ b adv Hs (conj Hwf Hcl)); try done. intros r. apply (view_insert s b refs).
Qed.

(** ** Existence checks *)

(** What is cached, buffered and stored: a cached block is buffered or stored,
    a stored block that is not cached is no later than a cached block of its
    author, and stored blocks above the GC round are cached. *)
Record persist_inv `{!StoreLaws S} s : Prop := {
  pi_buffer : forall b, b ∈ ds_blocks_to_write s -> view s (reference b) = Some b;
  pi_cached : forall r b, view s r = Some b ->
    b ∈ ds_blocks_to_write s \/ store_block (ds_store s) r = Some b;
  pi_store : forall r b, store_block (ds_store s) r = Some b ->
    reference b = r /\ 0 < br_round r
    /\ (view s r = Some b
        \/ exists r', br_author r' = br_author r /\ is_Some (view s r') /\ br_round r <= br_round r');
  pi_recent : forall r b, store_block (ds_store s) r = Some b -> gc_round s < br_round r ->
    view s r = Some b;
  pi_rounds : 0 < ds_cached_rounds s;
}.

Section reads.
Context `{!StoreLaws S}.

Lemma cached_contains_Ok s r :
  dag_inv s -> is_valid_index (ds_committee s) (br_author r) = true ->
  exists o, cached_contains s r = Ok o
    /\ match o with
       | Some true => is_Some (view s r) \/ is_Some (ds_genesis s !! r)
       | Some false => view s r = None /\ ds_genesis s !! r = None
           /\ forall r', br_author r' = br_author r -> is_Some (view s r') -> br_round r' < br_round r
       | None => view s r = None /\ ds_genesis s !! r = None
       end.
Proof.
  intros Hs Ha. destruct (authority_refs s (br_author r) Hs Ha) as (refs & Hrefs & Hin).
  unfold cached_contains, vec_index. rewrite Hrefs. simpl. eexists. split; [done|].
  destruct (bool_decide (r ∈ refs)) eqn:E1; simpl.
  { apply bool_decide_eq_true in E1. left. apply Hin in E1; tauto. }
  apply bool_decide_eq_false in E1. rewrite Hin in E1.
  assert (view s r = None) as Hnone by (apply eq_None_not_Some; tauto).
  destruct (bool_decide (is_Some (ds_genesis s !! r))) eqn:E2; simpl.
  { apply bool_decide_eq_true in E2. by right. }
  apply bool_decide_eq_false in E2. apply eq_None_not_Some in E2.
  destruct (btree_last refs) as [l|] eqn:El.
  - apply btree_last_spec in El as [_ Hmax]. destruct (N.ltb_spec (br_round l) (br_round r)); [|done].
    split_and!; [done..|]. intros r' Hr' Hv. specialize (Hmax r' (proj2 (Hin r') (conj Hr' Hv))).
    apply block_ref_leb_round in Hmax. lia.
  - apply btree_last_None in El as ->. split_and!; [done..|]. intros r' Hr' Hv.
    assert (r' ∈ (∅ : gset BlockRef)) by (by apply Hin). set_solver.
Qed.

(** The check and the read agree. *)
Lemma contains_block_spec s r :
  dag_inv s -> persist_inv s -> is_valid_index (ds_committee s) (br_author r) = true ->
  contains_block s r = Ok (bool_decide (is_Some (dag_block s r))).
Proof.
  intros Hs Hp Ha. unfold contains_block, contains_blocks. cbn.
  destruct (cached_contains_Ok s r Hs Ha) as (o & -> & Ho). cbn.
  assert (view s r = None -> ds_genesis s !! r = None ->
          dag_block s r = store_block (ds_store s) r) as Hdag.
  { intros Hn Hg. unfold dag_block, cached_block. unfold view in Hn.
    destruct (N.eqb_spec (br_round r) GENESIS_ROUND) as [Ez|Ez].
    - rewrite Hg. destruct (store_block (ds_store s) r) as [b|] eqn:Eb; [|done].
      destruct (pi_store s Hp r b Eb) as (_ & Hpos & _). unfold GENESIS_ROUND in Ez. lia.
    - by destruct (ds_recent_blocks s !! r). }
  destruct o as [[]|]; cbn.
  - f_equal. symmetry. apply bool_decide_eq_true. unfold dag_block, cached_block.
    destruct (N.eqb_spec (br_round r) GENESIS_ROUND) as [Ez|Ez].
    + destruct Ho as [[b Hb]|?]; [|done]. pose proof (view_round s r b Hs Hb).
      unfold GENESIS_ROUND in Ez. lia.
    + destruct Ho as [Ho|[b Hb]].
      * unfold view in Ho. destruct (ds_recent_blocks s !! r); [by eexists|by destruct Ho].
      * destruct (di_genesis_ref s Hs r b Hb) as [_ Hz]. unfold GENESIS_ROUND in Ez. lia.
  - destruct Ho as (Hn & Hg & Hlt). rewrite Hdag by done. f_equal. symmetry.
    apply bool_decide_eq_false. intros [b Hb].
    destruct (pi_store s Hp r b Hb) as (_ & _ & [Hv|(r' & Hr' & Hv & Hle)]); [congruence|].
    specialize (Hlt r' Hr' Hv). lia.
  - destruct Ho as (Hn & Hg). rewrite store_contains_blocks_spec. cbn. by rewrite Hdag.
Qed.

Lemma dag_block_view s r b : dag_inv s -> view s r = Some b -> dag_block s r = Some b.
Proof.
  intros Hs Hv. pose proof (get_block_view s r b Hs Hv) as E. rewrite get_block_spec in E.
  by injection E.
Qed.

(** ** Accepting a block *)

(** The authority does not produce a second block for a slot of its own. *)
Definition own_slot_free s (b : VerifiedBlock) : Prop :=
  author b = own_index (ds_context s) ->
  forall x, view s (reference x) = Some x ->
    slot_of_ref (reference x) = slot_of_ref (reference b) -> x = b.

Lemma own_slot_check s b :
  dag_inv s -> own_slot_free s b -> view s (reference b) = None ->
  (if br_author (reference b) =? own_index (ds_context s)
   then if skip_equivocation_validation (parameters (ds_context s)) then Ok ()
        else assert_that (is_empty (get_uncommitted_blocks_at_slot s (slot_of_ref (reference b))))
   else Ok ()) = Ok ().
Proof.
  intros Hs Hown Hnone. destruct (N.eqb_spec (br_author (reference b)) (own_index (ds_context s)))
    as [E|]; [|done].
  destruct (skip_equivocation_validation _); [done|].
  destruct (get_uncommitted_blocks_at_slot s (slot_of_ref (reference b))) as [|x l] eqn:El; [done|].
  exfalso. assert (x ∈ get_uncommitted_blocks_at_slot s (slot_of_ref (reference b))) as Hx
    by (rewrite El; left).
  apply uncommitted_at_slot_spec in Hx as [Hx Hslot]; [|done].
  rewrite (Hown E x Hx Hslot) in Hx. congruence.
Qed.

Lemma dag_block_insert s s' b :
  dag_inv s -> 0 < round b -> ds_genesis s' = ds_genesis s -> ds_store s' = ds_store s ->
  (forall r, view s' r = if decide (r = reference b) then Some b else view s r) ->
  forall r, dag_block s' r = if decide (r = reference b) then Some b else dag_block s r.
Proof.
  intros Hs Hb Hg Hst Hview r. unfold dag_block, cached_block. rewrite Hg, Hst.
  specialize (Hview r). unfold view in Hview.
  destruct (N.eqb_spec (br_round r) GENESIS_ROUND) as [Ez|Ez].
  - case_decide as E; [|done]. subst r. unfold GENESIS_ROUND in Ez. simpl in Ez. lia.
  - case_decide as E.
    + destruct (ds_recent_blocks s' !! r); [|done]. simpl in Hview. congruence.
    + destruct (ds_recent_blocks s' !! r), (ds_recent_blocks s !! r); simpl in Hview; congruence.
Qed.

Lemma persist_inv_ext s s' :
  persist_inv s -> (forall r, view s' r = view s r) -> ds_blocks_to_write s' = ds_blocks_to_write s ->
  ds_store s' = ds_store s -> ds_cached_rounds s' = ds_cached_rounds s -> gc_round s <= gc_round s' ->
  persist_inv s'.
Proof.
  intros [Pb Pc Ps Pr Pn] Hv Hb Hs Hc Hg. constructor; rewrite ?Hb, ?Hs, ?Hc; try done.
  - intros b. rewrite Hv. apply Pb.
  - intros r b. rewrite Hv. apply Pc.
  - intros r b Hr. rewrite Hv. setoid_rewrite Hv. by apply Ps.
  - intros r b Hr Hlt. rewrite Hv. apply Pr; [done|lia].
Qed.

Lemma persist_inv_insert s s' b :
  dag_inv s -> persist_inv s -> dag_block s (reference b) = None ->
  (forall r, view s' r = if decide (r = reference b) then Some b else view s r) ->
  ds_store s' = ds_store s -> ds_cached_rounds s' = ds_cached_rounds s ->
  ds_blocks_to_write s' = ds_blocks_to_write s ++ [b] -> gc_round s' = gc_round s ->
  persist_inv s'.
Proof.
  intros Hs Hp Hnone Hview Hst Hcr Hbuf Hgc.
  assert (view s (reference b) = None) as Hv.
  { destruct (view s (reference b)) as [x|] eqn:E; [|done].
    by rewrite (dag_block_view s _ x Hs E) in Hnone. }
  constructor; rewrite ?Hst, ?Hcr, ?Hbuf.
  - intros x. rewrite elem_of_app, list_elem_of_singleton, Hview. intros [Hx| ->].
    + pose proof (pi_buffer s Hp x Hx) as Hx'. case_decide as E; [|done]. congruence.
    + by rewrite decide_True.
  - intros r x. rewrite Hview, elem_of_app, list_elem_of_singleton. case_decide as E.
    + intros [= <-]. by left; right.
    + intros Hx. destruct (pi_cached s Hp r x Hx); tauto.
  - intros r x Hx. destruct (pi_store s Hp r x Hx) as (Hr & Hpos & Hor). split_and!; [done..|].
    assert (forall r', is_Some (view s r') -> is_Some (view s' r')) as Hmono.
    { intros r' Hr'. rewrite Hview. case_decide; [by eexists|done]. }
    destruct Hor as [Hor|(r' & ? & ? & ?)]; [|right; exists r'; auto].
    rewrite Hview. case_decide as E; [|by left]. congruence.
  - intros r x Hx Hr. rewrite Hgc in Hr. pose proof (pi_recent s Hp r x Hx Hr) as Hx'.
    rewrite Hview. case_decide; [congruence|done].
  - apply (pi_rounds s Hp).
Qed.

Lemma accept_block_Ok s b :
  dag_inv s -> persist_inv s -> enable_v3 (protocol_config (ds_context s)) = false ->
  rooted s b -> own_slot_free s b ->
  exists s', accept_block s b = Ok s' /\ dag_inv s' /\ persist_inv s'
    /\ ds_context s' = ds_context s /\ ds_last_commit s' = ds_last_commit s /\ evolves s s'
    /\ match dag_block s (reference b) with
       | Some _ => s' = s
       | None =>
           (forall r, view s' r = if decide (r = reference b) then Some b else view s r)
           /\ (forall r, dag_block s' r = if decide (r = reference b) then Some b else dag_block s r)
           /\ ds_highest_accepted_round s' = N.max (ds_highest_accepted_round s) (round b)
       end.
Proof.
  intros Hs Hp Hv3 Hb Hown. destruct Hb as [Hwf Hcl]. unfold accept_block.
  pose proof (wb_round _ _ Hwf) as Hr. pose proof (wb_author _ _ Hwf) as Ha.
  rewrite (proj2 (N.eqb_neq (round b) 0)) by lia. cbn [negb assert_that mbind outcome_bind].
  rewrite (contains_block_spec s (reference b) Hs Hp Ha). cbn [mbind outcome_bind].
  destruct (dag_block s (reference b)) as [x|] eqn:Ex.
  { rewrite bool_decide_true by (by eexists). exists s. split_and!; try done. apply evolves_refl. }
  rewrite bool_decide_false by (by intros [??]).
  change (br_author (reference b)) with (author b).
  destruct (committee_authority_Ok (ds_committee s) (author b) Ha) as [au ->].
  cbn [mbind outcome_bind]. change (author b) with (br_author (reference b)).
  assert (view s (reference b) = None) as Hnone.
  { destruct (view s (reference b)) as [x|] eqn:E; [|done]. by rewrite (dag_block_view s _ x Hs E) in Ex. }
  rewrite own_slot_check by done.
  destruct (update_block_metadata_Ok s b Hs Hv3 (conj Hwf Hcl))
    as (s1 & -> & H1 & Hview & Hctx & Hlast & Hgen & Hcr & Hst & Hbuf & Hhigh & Hf & Hrec & Hlive).
  cbn [mbind outcome_bind]. set (s2 := with_buffers s1 _ _ _ _ _).
  exists s2. split_and!; [done| | |done|done| |done| |done].
  - apply (dag_inv_ext s1); try done. apply (di_clock s1 H1).
  - apply (persist_inv_insert s s2 b); try done; [simpl; by rewrite Hbuf|by apply gc_round_ext].
  - apply (evolves_insert s s2 (reference b) b); try done. intros Hl. apply (live_ext s1); try done; apply (Hlive Hl).
  - apply dag_block_insert; try done. lia.
Qed.

(** ** Flushing *)

(** What eviction may change: cached blocks at or below the GC round go, the
    latest block of an authority stays. *)
Record evicts s s' : Prop := {
  ev_inv : dag_inv s';
  ev_context : ds_context s' = ds_context s;
  ev_genesis : ds_genesis s' = ds_genesis s;
  ev_commit : ds_last_commit s' = ds_last_commit s;
  ev_store : ds_store s' = ds_store s;
  ev_buffer : ds_blocks_to_write s' = ds_blocks_to_write s;
  ev_cached : ds_cached_rounds s' = ds_cached_rounds s;
  ev_view : forall r, view s' r = view s r \/ (view s' r = None /\ br_round r <= gc_round s);
  ev_latest : forall r, is_Some (view s r) ->
    exists r', br_author r' = br_author r /\ is_Some (view s' r') /\ br_round r <= br_round r';
  ev_evolves : evolves s s';
  ev_high : ds_highest_accepted_round s' = ds_highest_accepted_round s;
}.

Lemma evicts_refl s : dag_inv s -> evicts s s.
Proof.
  intros Hs. constructor; try done; [by left| |apply evolves_refl]. intros r Hr. exists r. split_and!; [done..|lia].
Qed.

Lemma evicts_trans s1 s2 s3 : evicts s1 s2 -> evicts s2 s3 -> evicts s1 s3.
Proof.
  intros H1 H2. destruct H1 as [I1 C1 G1 L1 S1 B1 K1 V1 E1 X1 Y1], H2 as [I2 C2 G2 L2 S2 B2 K2 V2 E2 X2 Y2].
  pose proof (gc_round_ext s1 s2 C1 L1) as Hgc.
  constructor; try done; try congruence.
  - intros r. destruct (V2 r) as [->|[-> Hr]]; [apply V1|]. right. split; [done|lia].
  - intros r Hr. destruct (E1 r Hr) as (r1 & A1 & H1 & R1), (E2 r1 H1) as (r2 & A2 & H2 & R2).
    exists r2. split_and!; [congruence|done|lia].
  - by eapply evolves_trans.
Qed.

(** The evicted references of an authority: its cached ones up to the round. *)
Lemma evicted_refs (refs : gset BlockRef) ev r :
  r ∈ take_while (fun r => br_round r <=? ev) (btree_iter refs) <-> r ∈ refs /\ br_round r <= ev.
Proof.
  rewrite (take_while_sorted (fun a b => key_leb a b = true)).
  - rewrite list_filter_elem_of, elem_of_btree_iter, N.leb_le. tauto.
  - intros x y Hxy%block_ref_leb_round. rewrite !N.leb_le. lia.
  - apply btree_iter_sorted.
Qed.

Lemma evict_authority_Ok s a :
  dag_inv s -> 0 < ds_cached_rounds s -> is_valid_index (ds_committee s) a = true ->
  exists s', evict_authority s a = Ok s' /\ evicts s s'.
Proof.
  intros Hs Hcr Ha. destruct (authority_refs s a Hs Ha) as (refs & Hrefs & Hin).
  unfold evict_authority, calculate_authority_eviction_round, vec_index, vec_store.
  rewrite Hrefs. cbn [unwrap mbind outcome_bind].
  destruct (lookup_lt_is_Some_2 (ds_evicted_rounds s) (N.to_nat a)) as [old Hold].
  { rewrite (di_evicted_len s Hs). unfold is_valid_index in Ha. apply N.ltb_lt in Ha. lia. }
  rewrite Hold. cbn [mbind outcome_bind].
  set (last_round := match btree_last refs with Some r => br_round r | None => GENESIS_ROUND end).
  set (ev := eviction_round last_round (gc_round s) (ds_cached_rounds s)).
  set (evicted := take_while _ (btree_iter refs)).
  pose proof (evicted_refs refs ev) as Hev. fold evicted in Hev.
  assert (ev <= gc_round s) as Hevgc by (unfold ev, eviction_round; lia).
  eexists. split; [done|]. set (s' := with_cache s _ _ _ _ _ _).
  assert (forall r, view s' r = if decide (r ∈ evicted) then None else view s r) as Hview.
  { intros r. unfold view, s'. simpl. rewrite lookup_foldr_delete. by case_decide. }
  assert (forall r, is_Some (view s r) -> is_Some (view s' r)
    \/ exists r', is_Some (view s' r') /\ br_author r' = br_author r /\ br_round r < br_round r') as Htip.
  { intros r [b Hb]. destruct (decide (r ∈ evicted)) as [E|E].
    2:{ left. rewrite Hview, decide_False by done. by eexists. }
    right. apply Hev in E as [Hr Hre]. destruct (btree_last refs) as [l|] eqn:El.
    2:{ apply btree_last_None in El. rewrite El in Hr. set_solver. }
    apply btree_last_spec in El as [Hl _]. pose proof (proj1 (Hin l) Hl) as [Hla [bl Hbl]].
    exists l. rewrite Hview. apply Hin in Hr as Hr'. destruct Hr' as [Hra _].
    pose proof (view_round s r b Hs Hb). unfold ev, eviction_round, last_round, saturating_sub in Hre.
    rewrite decide_False; [split_and!; [by eexists|congruence|lia]|]. intros [_ Hle]%Hev.
    unfold ev, eviction_round, last_round, saturating_sub in Hle. lia. }
  constructor; try done.
  - constructor; try apply Hs.
    + intros r b. rewrite Hview. case_decide; [done|]. apply Hs.
    + unfold s'. simpl. rewrite length_insert. apply Hs.
    + unfold s'. simpl. rewrite length_insert. apply Hs.
    + intros i rs r Hi. rewrite Hview. unfold s' in Hi. simpl in Hi.
      destruct (decide (i = N.to_nat a)) as [->|Hne].
      * rewrite list_lookup_insert_eq in Hi by (by eapply lookup_lt_Some). injection Hi as <-.
        rewrite elem_of_difference, elem_of_list_to_set, Hin, N2Nat.id. case_decide; [|tauto].
        split; [tauto|]. intros [_ [??]]. done.
      * rewrite list_lookup_insert_ne in Hi by done. rewrite (di_refs s Hs _ _ _ Hi).
        case_decide as E; [|done]. apply Hev in E as [[E _]%Hin _]. split; intros [E' _]; lia.
    + intros r b x. rewrite !Hview. change (gc_round s') with (gc_round s).
      case_decide; [done|]. intros Hb Hx Hgt. case_decide as E; [|by eapply (di_closed s Hs)].
      apply Hev in E. lia.
  - intros r. rewrite Hview. case_decide as E; [|by left]. right. apply Hev in E. split; [done|lia].
  - intros r Hr. destruct (Htip r Hr) as [?|(r' & ? & ? & ?)]; [exists r|exists r']; split_and!; try done; lia.
  - apply evolves_shrink; try done.
    + intros r. unfold s'. simpl. rewrite lookup_foldr_delete. case_decide as E; [right|by left]. apply Hev in E. split; [done|lia].
    + intros i e. unfold s'. simpl. intros [(_ & <- & _)|[_ ?]]%list_lookup_insert_Some; [by right|by left].
Qed.

Lemma evict_all_Ok s :
  dag_inv s -> 0 < ds_cached_rounds s ->
  exists s', foldM evict_authority (committee_authorities (ds_committee s)).*1 s = Ok s'
    /\ evicts s s'.
Proof.
  intros Hs Hcr. apply (foldM_total (evicts s)); [by apply evicts_refl|].
  intros a s1 Ha Hev. destruct (evict_authority_Ok s1 a) as (s2 & E & Hev2).
  - apply (ev_inv _ _ Hev).
  - by rewrite (ev_cached _ _ Hev).
  - unfold ds_committee. rewrite (ev_context _ _ Hev). fold (ds_committee s).
    apply list_elem_of_fmap in Ha as ([i au] & -> & Hi). by apply (committee_authorities_valid _ i au).
  - exists s2. split; [done|]. by eapply evicts_trans.
Qed.

(** The state after the buffered blocks are written. *)
Definition written s : DagState S :=
  with_buffers s [] [] [] []
    (store_write (ds_store s)
       (write_batch_new (ds_blocks_to_write s) (ds_commits_to_write s)
          (ds_commit_info_to_write s) (ds_finalized_commits_to_write s))).

Lemma written_block s r b :
  persist_inv s -> view s r = Some b -> reference b = r -> store_block (ds_store (written s)) r = Some b.
Proof.
  intros Hp Hv Href. simpl. rewrite store_write_spec. simpl.
  destruct (pi_cached s Hp r b Hv) as [Hb|Hb].
  - rewrite <- Href. apply last_write_elem; [done|]. intros b' Hb' Hr.
    pose proof (pi_buffer s Hp b' Hb'). congruence.
  - unfold last_write. destruct (last _) as [b'|] eqn:E; [|done].
    apply last_Some_elem_of, list_filter_elem_of in E as [Hr E]. apply bool_decide_eq_true in Hr.
    pose proof (pi_buffer s Hp b' E). congruence.
Qed.

Lemma written_absent s r :
  persist_inv s -> view s r = None ->
  store_block (ds_store (written s)) r = store_block (ds_store s) r.
Proof.
  intros Hp Hv. simpl. rewrite store_write_spec. simpl. unfold last_write.
  destruct (last _) as [b'|] eqn:E; [|done].
  apply last_Some_elem_of, list_filter_elem_of in E as [Hr E]. apply bool_decide_eq_true in Hr.
  pose proof (pi_buffer s Hp b' E). congruence.
Qed.

Lemma written_persist s : dag_inv s -> persist_inv s -> persist_inv (written s).
Proof.
  intros Hs Hp. constructor; simpl.
  - intros b Hb. inversion Hb.
  - intros r b Hv. right. apply written_block; [done|done|]. by apply (di_wf s Hs).
  - intros r b Hb. change (view (written s)) with (view s).
    destruct (view s r) as [b'|] eqn:Ev.
    + destruct (di_wf s Hs r b' Ev) as [Href _].
      pose proof (written_block s r b' Hp Ev Href) as E. simpl in E. rewrite E in Hb.
      injection Hb as <-. split_and!; [done|by eapply view_round|by left].
    + pose proof (written_absent s r Hp Ev) as E. simpl in E. rewrite E in Hb.
      destruct (pi_store s Hp r b Hb) as (? & ? & Hor). split_and!; [done..|].
      destruct Hor as [Hor|Hor]; [congruence|by right].
  - intros r b Hb Hgc. change (view (written s) r) with (view s r).
    destruct (view s r) as [b'|] eqn:Ev.
    + pose proof (written_block s r b' Hp Ev (proj1 (di_wf s Hs r b' Ev))) as E. simpl in E. congruence.
    + pose proof (written_absent s r Hp Ev) as E. simpl in E. rewrite E in Hb.
      pose proof (pi_recent s Hp r b Hb Hgc). congruence.
  - apply (pi_rounds s Hp).
Qed.

Lemma written_reads s r : dag_inv s -> persist_inv s -> dag_block (written s) r = dag_block s r.
Proof.
  intros Hs Hp. unfold dag_block, cached_block. simpl.
  destruct (br_round r =? GENESIS_ROUND); [done|].
  destruct (ds_recent_blocks s !! r) eqn:E; [done|]. apply written_absent; [done|].
  unfold view. by rewrite E.
Qed.

Lemma evicts_persist s s' :
  dag_inv s -> persist_inv s -> ds_blocks_to_write s = [] -> evicts s s' -> persist_inv s'.
Proof.
  intros Hs Hp Hbuf Hev. destruct Hev as [I C G L St B K V E _ _].
  assert (forall r b, view s' r = Some b -> view s r = Some b) as Hmono.
  { intros r b Hb. destruct (V r) as [Hr|[Hr _]]; congruence. }
  constructor; rewrite ?St, ?B, ?K, ?Hbuf.
  - intros b Hb. inversion Hb.
  - intros r b Hb. destruct (pi_cached s Hp r b (Hmono r b Hb)) as [Hin|]; [|by right].
    rewrite Hbuf in Hin. inversion Hin.
  - intros r b Hb. destruct (pi_store s Hp r b Hb) as (? & ? & Hor). split_and!; [done..|].
    destruct Hor as [Hv|(r' & A' & V' & R')].
    + right. apply (E r). by eexists.
    + right. destruct (E r' V') as (r2 & A2 & V2 & R2). exists r2. split_and!; [congruence|done|lia].
  - intros r b Hb Hgc. rewrite (gc_round_ext s s' C L) in Hgc. destruct (V r) as [->|[_ Hle]]; [|lia].
    by apply (pi_recent s Hp).
  - apply (pi_rounds s Hp).
Qed.

Lemma evicts_reads s s' r :
  dag_inv s -> persist_inv s -> ds_blocks_to_write s = [] -> evicts s s' ->
  dag_block s' r = dag_block s r.
Proof.
  intros Hs Hp Hbuf Hev. destruct Hev as [I C G L St B K V E _ _].
  unfold dag_block, cached_block. rewrite G, St.
  destruct (N.eqb_spec (br_round r) GENESIS_ROUND) as [|Hne]; [done|].
  specialize (V r). unfold view in V.
  destruct (ds_recent_blocks s' !! r) as [i'|] eqn:E', (ds_recent_blocks s !! r) as [i|] eqn:Ei;
    simpl in V; try done.
  - destruct V as [V|[V _]]; congruence.
  - destruct V as [V|[V _]]; congruence.
  - assert (view s r = Some (bi_block i)) as Hv by (unfold view; by rewrite Ei).
    destruct (pi_cached s Hp r _ Hv) as [Hin|Hst]; [|done]. rewrite Hbuf in Hin. inversion Hin.
Qed.

Lemma flush_Ok s :
  dag_inv s -> persist_inv s ->
  exists s', flush s = Ok s' /\ dag_inv s' /\ persist_inv s' /\ ds_blocks_to_write s' = []
    /\ ds_context s' = ds_context s /\ ds_last_commit s' = ds_last_commit s
    /\ (forall r, dag_block s' r = dag_block s r)
    /\ (forall r, gc_round s < br_round r -> view s' r = view s r) /\ evolves s s'
    /\ ds_highest_accepted_round s' = ds_highest_accepted_round s.
Proof.
  intros Hs Hp. unfold flush. destruct (_ && _) eqn:Eempty.
  { exists s. split_and!; try done; [|apply evolves_refl]. destruct (ds_blocks_to_write s); [done|]. discriminate. }
  fold (written s).
  assert (dag_inv (written s)) as Hw.
  { apply (dag_inv_ext s); try done. apply (di_clock s Hs). }
  pose proof (written_persist s Hs Hp) as Hwp.
  destruct (evict_all_Ok (written s) Hw (pi_rounds s Hp)) as (s1 & E1 & Hev).
  cbn [mbind outcome_bind]. rewrite E1. cbn [mbind outcome_bind].
  set (s2 := set_round_info s1 _). exists s2.
  pose proof (ev_inv _ _ Hev) as I1. split_and!; try done.
  - apply (dag_inv_ext s1); try done. apply (di_clock s1 I1).
  - destruct (evicts_persist _ _ Hw Hwp eq_refl Hev) as [P1 P2 P3 P4 P5]. by constructor.
  - apply (ev_buffer _ _ Hev).
  - apply (ev_context _ _ Hev).
  - apply (ev_commit _ _ Hev).
  - intros r. change (dag_block s2 r) with (dag_block s1 r).
    by rewrite (evicts_reads _ _ r Hw Hwp eq_refl Hev), written_reads.
  - intros r Hr. change (view s2 r) with (view s1 r).
    destruct (ev_view _ _ Hev r) as [->|[_ Hle]]; [done|].
    change (gc_round (written s)) with (gc_round s) in Hle. lia.
  - apply (evolves_trans s s1 s2); [|by apply evolves_same].
    apply (evolves_trans s (written s) s1); [by apply evolves_same|apply (ev_evolves _ _ Hev)].
  - apply (ev_high _ _ Hev).
Qed.

(** What a flush does to the buffers and to the store. *)
Record flushed s s' : Prop := {
  fl_blocks : ds_blocks_to_write s' = [];
  fl_commits : ds_commits_to_write s' = [];
  fl_commit_info : ds_commit_info_to_write s' = [];
  fl_finalized : ds_finalized_commits_to_write s' = [];
  fl_written :
    ~ (ds_blocks_to_write s = [] /\ ds_commits_to_write s = [] /\ ds_commit_info_to_write s = []
       /\ ds_finalized_commits_to_write s = []) ->
    ds_store s' = store_write (ds_store s)
      {| wb_blocks := ds_blocks_to_write s; wb_commits := ds_commits_to_write s;
         wb_commit_info := ds_commit_info_to_write s;
         wb_finalized_commits := ds_finalized_commits_to_write s |};
  fl_nothing :
    ds_blocks_to_write s = [] -> ds_commits_to_write s = [] -> ds_commit_info_to_write s = [] ->
    ds_finalized_commits_to_write s = [] -> s' = s;
  fl_rejected : forall c rejected,
    last (List.filter (fun x => bool_decide (x.1 = c)) (ds_finalized_commits_to_write s)) = Some (c, rejected) ->
    read_rejected_transactions (ds_store s') c = Ok (Some rejected);
}.

Definition buffers s :=
  (ds_blocks_to_write s, ds_commits_to_write s, ds_commit_info_to_write s,
   ds_finalized_commits_to_write s, ds_store s).

Lemma evict_authority_buffers s a s' : evict_authority s a = Ok s' -> buffers s' = buffers s.
Proof. unfold evict_authority. intros E. repeat outcome_step E. by subst s'. Qed.

Lemma is_empty_nil {A} (l : list A) : l = [] <-> is_empty l = true.
Proof. by destruct l. Qed.

Lemma flush_flushed s s' : flush s = Ok s' -> flushed s s'.
Proof.
  unfold flush. destruct (_ && _) eqn:E.
  - intros [= <-]. rewrite !andb_true_iff, <- !is_empty_nil in E. destruct E as [[[E1 E2] E3] E4].
    constructor; try done; [tauto|]. rewrite E4. done.
  - intros Hf. apply not_true_iff_false in E. rewrite !andb_true_iff, <- !is_empty_nil in E.
    cbv zeta in Hf. outcome_step Hf. injection Hf as <-.
    assert (buffers v = buffers (written s)) as Hb.
    { revert E0. apply (foldM_inv (fun t => buffers t = buffers (written s))); [done|].
      intros a t t' _ <-. apply evict_authority_buffers. }
    unfold buffers in Hb. injection Hb as B1 B2 B3 B4 B5.
    constructor; try done; [tauto|]. intros c rejected Hl. cbn [ds_store set_round_info] in *.
    change (ds_store (set_round_info v _)) with (ds_store v). rewrite B5, store_rejected_spec.
    cbn [wb_finalized_commits write_batch_new]. by rewrite Hl.
Qed.
End reads.
End ops.
