(* ===== verification/DagLink.v ===== *)
(** * The DAG state: commit and inclusion marks, commits

    [link_causal_history] marks exactly the blocks of a history that were not
    included before, and ends within its fuel; [set_committed] marks once;
    [add_commit] keeps the commits consecutive and their timestamps monotone. *)

From S2P Require Import Prelude Committee Context Block StakeAggregator ThresholdClock Commit Store LeaderScoring DagState DagInv Evolve DagOps.

Section link.
Context {S : Type} `{Store S}.
Implicit Types s : DagState S.

(** The references listed by blocks that are not included yet. *)
Definition pending_refs (m : gmap BlockRef BlockInfo) : nat :=
  map_fold (fun _ bi n =>
    ((if bi_included bi then 0 else length (ancestors (bi_block bi))) + n)%nat) 0%nat m.

Lemma pending_refs_insert m k bi :
  m !! k = None ->
  pending_refs (<[k := bi]> m)
  = ((if bi_included bi then 0 else length (ancestors (bi_block bi))) + pending_refs m)%nat.
Proof.
  intros Hk. unfold pending_refs. rewrite map_fold_insert_L; [done| |done].
  intros. lia.
Qed.

Lemma pending_refs_mark m k bi :
  m !! k = Some bi -> bi_included bi = false ->
  pending_refs m
  = (length (ancestors (bi_block bi)) + pending_refs (<[k := mark_included bi]> m))%nat.
Proof.
  intros Hk Hi. rewrite <- (insert_delete_id m k bi Hk) at 1. rewrite <- (insert_delete_eq m k).
  rewrite !pending_refs_insert by apply lookup_delete_eq. simpl. by rewrite Hi.
Qed.

Lemma pending_refs_fuel s : (pending_refs (ds_recent_blocks s) + 2 <= link_fuel s)%nat.
Proof.
  unfold pending_refs, link_fuel.
  set (f := fun (_ : BlockRef) (bi : BlockInfo) n => ((if bi_included bi then 0 else _) + n)%nat).
  set (g := fun (_ : BlockRef) (bi : BlockInfo) n => (length (ancestors (bi_block bi)) + n)%nat).
  enough (forall m, (map_fold f 0 m <= map_fold g 0 m)%nat) as Hle
    by (specialize (Hle (ds_recent_blocks s)); lia).
  intros m. induction m as [|k bi m Hk IH] using map_ind; [by rewrite !map_fold_empty|].
  rewrite !map_fold_insert_L; [|unfold g; lia|done|unfold f; lia|done].
  unfold f at 1, g at 1. destruct (bi_included bi); lia.
Qed.

Definition mark s (r : BlockRef) (bi : BlockInfo) : DagState S :=
  set_recent_blocks s (<[r := mark_included bi]> (ds_recent_blocks s)).

Lemma view_mark s r bi x : ds_recent_blocks s !! r = Some bi -> view (mark s r bi) x = view s x.
Proof.
  intros Hr. unfold view, mark. simpl. destruct (decide (x = r)) as [->|Hne].
  - by rewrite lookup_insert_eq, Hr.
  - by rewrite lookup_insert_ne.
Qed.

Lemma included_mark s r bi x :
  included (mark s r bi) x = if decide (x = r) then true else included s x.
Proof.
  unfold included, mark. simpl. case_decide as E.
  - subst. by rewrite lookup_insert_eq.
  - by rewrite lookup_insert_ne.
Qed.

Lemma mark_inv s r bi : dag_inv s -> ds_recent_blocks s !! r = Some bi -> dag_inv (mark s r bi).
Proof.
  intros Hs Hr. apply (dag_inv_ext s); try done; [by intros x; apply view_mark|apply (di_clock s Hs)].
Qed.

Lemma reach_mark s r bi b x :
  ds_recent_blocks s !! r = Some bi -> reach (mark s r bi) b x -> reach s b x.
Proof.
  intros Hr. induction 1 as [x Hx|x' b' x _ IH Hv Hx]; [by apply reach_anc|].
  rewrite view_mark in Hv by done. by eapply reach_step.
Qed.

Lemma below_mark s r bi L x :
  ds_recent_blocks s !! r = Some bi -> below (mark s r bi) L x -> below s L x.
Proof.
  intros Hr [Hx|(y & b & Hy & Hv & Hreach)]; [by left|]. right. exists y, b.
  rewrite view_mark in Hv by done. split_and!; [done..|]. by eapply reach_mark.
Qed.

(** What the loop has done: the blocks [new] are now included. *)
Record links s s' (targets new : list BlockRef) : Prop := {
  lk_inv : dag_inv s';
  lk_context : ds_context s' = ds_context s;
  lk_commit : ds_last_commit s' = ds_last_commit s;
  lk_view : forall r, view s' r = view s r;
  lk_included : forall r, included s' r = true <-> included s r = true \/ r ∈ new;
  lk_fresh : forall r, r ∈ new -> included s r = false /\ gc_round s < br_round r
    /\ below s (list_to_set targets) r;
  lk_NoDup : NoDup new;
  lk_targets : forall t, t ∈ targets -> gc_round s < br_round t -> included s' t = true;
  lk_closed : forall r b a, r ∈ new -> view s r = Some b -> a ∈ ancestors b ->
    gc_round s < br_round a -> included s' a = true;
}.

Lemma links_skip s s' t targets new :
  links s s' targets new -> (gc_round s < br_round t -> included s t = true) ->
  links s s' (t :: targets) new.
Proof.
  intros Hl Ht. destruct Hl as [I C L V Inc F N T Cl]. constructor; try done.
  - intros r Hr. destruct (F r Hr) as (F1 & F2 & F3). split_and!; [done..|].
    destruct F3 as [F3|(x & b & Hx & F3)]; [left; set_solver|right]. exists x, b. split; [set_solver|done].
  - intros t' [->|Ht']%elem_of_cons Hgc; [|by apply T]. apply Inc. left. by apply Ht.
Qed.

Lemma links_mark s s' r bi targets new :
  ds_recent_blocks s !! r = Some bi -> bi_included bi = false -> gc_round s < br_round r ->
  links (mark s r bi) s' (targets ++ ancestors (bi_block bi)) new ->
  links s s' (r :: targets) (r :: new).
Proof.
  intros Hr Hi Hgc Hl. destruct Hl as [I C L V Inc F N T Cl].
  assert (included s r = false) as Hni by (unfold included; by rewrite Hr).
  assert (view s r = Some (bi_block bi)) as Hv by (unfold view; by rewrite Hr).
  assert (included s' r = true) as Hir.
  { apply Inc. left. by rewrite included_mark, decide_True. }
  constructor; try done.
  - intros x. by rewrite V, view_mark.
  - intros x. rewrite Inc, included_mark, elem_of_cons. case_decide; [subst; tauto|]. tauto.
  - intros x [->|Hx]%elem_of_cons.
    + split_and!; [done..|]. left. set_solver.
    + destruct (F x Hx) as (F1 & F2 & F3). rewrite included_mark in F1. case_decide; [done|].
      split_and!; [done..|]. apply (below_mark s r bi) in F3; [|done].
      destruct F3 as [F3|(y & b & Hy & Hvy & Hreach)].
      * rewrite elem_of_list_to_set, elem_of_app in F3. destruct F3 as [F3|F3]; [left; set_solver|].
        right. exists r, (bi_block bi). split_and!; [set_solver|done|by apply reach_anc].
      * rewrite elem_of_list_to_set, elem_of_app in Hy. right. destruct Hy as [Hy|Hy].
        -- exists y, b. split_and!; [set_solver|done..].
        -- exists r, (bi_block bi). split_and!; [set_solver|done|].
           eapply reach_trans; [by apply reach_anc|done..].
  - constructor; [|done]. intros Hx. destruct (F r Hx) as (F1 & _).
    by rewrite included_mark, decide_True in F1.
  - intros t [->|Ht]%elem_of_cons Hgt; [done|]. apply T; [set_solver|done].
  - intros x b a [->|Hx]%elem_of_cons Hb Ha Hgt.
    + rewrite Hv in Hb. injection Hb as <-. apply T; [set_solver|done].
    + eapply Cl; [done| |done..]. by rewrite view_mark.
Qed.

Lemma link_targets_spec fuel s targets linked :
  dag_inv s -> (forall t, t ∈ targets -> gc_round s < br_round t -> is_Some (view s t)) ->
  (length targets + pending_refs (ds_recent_blocks s) < fuel)%nat ->
  exists s' new, link_targets fuel s (gc_round s) targets linked = Ok (s', linked ++ new)
    /\ links s s' targets new.
Proof.
  revert s targets linked. induction fuel as [|fuel IH]; intros s targets linked Hs Ht Hf; [lia|].
  destruct targets as [|t targets]; cbn [link_targets].
  - exists s, []. rewrite app_nil_r. split; [done|]. constructor; try done; try set_solver. constructor.
  - cbn [length] in Hf. destruct (N.leb_spec (br_round t) (gc_round s)) as [Hle|Hgt].
    { destruct (IH s targets linked Hs) as (s' & new & E & Hl); [set_solver|lia|].
      exists s', new. split; [done|]. apply links_skip; [done|lia]. }
    destruct (Ht t) as [b Hb]; [by left|done|]. unfold view in Hb.
    destruct (ds_recent_blocks s !! t) as [bi|] eqn:Et; [|done]. cbn [unwrap mbind outcome_bind].
    destruct (bi_included bi) eqn:Ei.
    { destruct (IH s targets linked Hs) as (s' & new & E & Hl); [set_solver|lia|].
      exists s', new. split; [done|]. apply links_skip; [done|]. intros _. unfold included. by rewrite Et. }
    rewrite (pending_refs_mark _ t bi Et Ei) in Hf. fold (mark s t bi).
    assert (view s t = Some (bi_block bi)) as Hv by (unfold view; by rewrite Et).
    destruct (IH (mark s t bi) (targets ++ ancestors (bi_block bi)) (linked ++ [t])
                (mark_inv s t bi Hs Et)) as (s' & new & E & Hl).
    + intros x Hx Hgc. rewrite view_mark by done. apply elem_of_app in Hx as [Hx|Hx].
      * apply Ht; [by right|done].
      * by eapply (di_closed s Hs).
    + rewrite length_app. simpl. lia.
    + exists s', (t :: new). rewrite <- app_assoc in E. split; [done|]. by eapply links_mark.
Qed.

Lemma included_history s b r :
  dag_inv s -> rooted s b -> included_closed s ->
  (forall a, a ∈ ancestors b -> gc_round s < br_round a -> included s a = true) ->
  reach s b r -> gc_round s < br_round r -> included s r = true.
Proof.
  intros Hs Hb Hcl Hanc. induction 1 as [r Hr|r' b' r Hreach IH Hv Hr]; intros Hgc; [by apply Hanc|].
  destruct (di_wf s Hs _ _ Hv) as [<- Hwf]. destruct (wb_anc _ _ Hwf r Hr) as [Hlt _].
  apply (Hcl (reference b') b'); [apply IH; simpl; lia|done..].
Qed.

Lemma links_included_closed s s' targets new :
  dag_inv s -> included_closed s -> links s s' targets new -> included_closed s'.
Proof.
  intros Hs Hcl Hl r b a Hr Hv Ha Hgc. destruct Hl as [I C L V Inc F N T Cl].
  rewrite (gc_round_ext s s' C L) in Hgc. rewrite V in Hv. apply Inc in Hr as [Hr|Hr].
  - apply Inc. left. by eapply Hcl.
  - by eapply Cl.
Qed.

Lemma link_history_Ok s root :
  dag_inv s -> included_closed s ->
  (gc_round s < br_round root -> is_Some (view s root)) ->
  exists s' l, link_causal_history s root = Ok (s', l)
    /\ links s s' [root] l /\ included_closed s'
    /\ forall r, r ∈ l <-> gc_round s < br_round r /\ included s r = false
                          /\ below s {[root]} r.
Proof.
  intros Hs Hcl Hroot. unfold link_causal_history.
  destruct (link_targets_spec (link_fuel s) s [root] [] Hs) as (s' & l & E & Hl).
  - intros t ->%list_elem_of_singleton. done.
  - pose proof (pending_refs_fuel s). simpl. lia.
  - exists s', l. pose proof (links_included_closed s s' _ _ Hs Hcl Hl) as Hcl'.
    split_and!; [done..|]. intros r. split.
    + intros Hr. destruct (lk_fresh _ _ _ _ Hl r Hr) as (? & ? & Hb). split_and!; [done..|].
      by replace ({[root]} : gset BlockRef) with (list_to_set (C := gset BlockRef) [root]) by set_solver.
    + intros (Hgc & Hni & Hb). assert (included s' r = true) as Hir.
      { pose proof (gc_round_ext s s' (lk_context _ _ _ _ Hl) (lk_commit _ _ _ _ Hl)) as Egc.
        destruct Hb as [->%elem_of_singleton|(x & b & ->%elem_of_singleton & Hv & Hreach)].
        { apply (lk_targets _ _ _ _ Hl); [by left|done]. }
        pose proof (lk_inv _ _ _ _ Hl) as I'.
        assert (view s' root = Some b) as Hv' by (by rewrite (lk_view _ _ _ _ Hl)).
        apply (included_history s' b r I' (rooted_view _ _ _ I' Hv') Hcl'); [| |by rewrite Egc].
        - intros a Ha Ha'. rewrite Egc in Ha'. apply (Hcl' root b); try done; [|by rewrite Egc].
          apply (lk_targets _ _ _ _ Hl); [by left|].
          destruct (di_wf s Hs _ _ Hv) as [<- Hwf]. destruct (wb_anc _ _ Hwf a Ha) as [Hlt _].
          simpl. lia.
        - clear - Hreach Hl. induction Hreach as [r Hr|r' b' r _ IH Hv Hr]; [by apply reach_anc|].
          eapply reach_step; [done|by rewrite (lk_view _ _ _ _ Hl)|done]. }
      apply (lk_included _ _ _ _ Hl) in Hir as [Hir|Hir]; [congruence|done].
Qed.

(** ** Commits *)

(** The highest round of an authority among references, at least [r0]. *)
Definition highest_round (refs : list BlockRef) (i : nat) (r0 : N) : N :=
  foldl (fun m r => if decide (N.to_nat (br_author r) = i) then N.max m (br_round r) else m) r0 refs.

Lemma raise_committed_rounds_Ok rounds refs :
  (forall r, r ∈ refs -> (N.to_nat (br_author r) < length rounds)%nat) ->
  exists rounds', raise_committed_rounds rounds refs = Ok rounds'
    /\ length rounds' = length rounds
    /\ forall i, rounds' !! i = highest_round refs i <$> rounds !! i.
Proof.
  unfold raise_committed_rounds. intros Hrefs.
  induction refs as [|r refs IH] using rev_ind.
  - exists rounds. split_and!; [done..|]. intros i. simpl. by destruct (rounds !! i).
  - destruct (IH ltac:(intros x Hx; apply Hrefs; set_solver)) as (rs & E & Hl & Hi).
    rewrite foldM_app, E. cbn [foldM mbind outcome_bind]. unfold vec_index, vec_store.
    destruct (lookup_lt_is_Some_2 rs (N.to_nat (br_author r))) as [x Hx].
    { rewrite Hl. apply Hrefs. set_solver. }
    rewrite Hx. cbn [unwrap mbind outcome_bind]. eexists. split_and!; [done|by rewrite length_insert|].
    intros i. assert (forall r0, highest_round (refs ++ [r]) i r0
      = if decide (N.to_nat (br_author r) = i) then N.max (highest_round refs i r0) (br_round r)
        else highest_round refs i r0) as Hsnoc by (intros r0; unfold highest_round; by rewrite foldl_snoc).
    destruct (decide (N.to_nat (br_author r) = i)) as [Ei|Ei].
    + subst i. rewrite list_lookup_insert_eq by (by eapply lookup_lt_Some).
      rewrite Hi in Hx. destruct (rounds !! N.to_nat (br_author r)); [|done]. simpl in *.
      rewrite Hsnoc. congruence.
    + rewrite list_lookup_insert_ne by done. rewrite Hi. destruct (rounds !! i); [|done]. simpl.
      by rewrite Hsnoc.
Qed.

(** A commit that may follow the last one. *)
Definition next_commit s (commit : TrustedCommit) : Prop :=
  commit_index commit = last_commit_index s + 1
  /\ last_commit_timestamp_ms s <= commit_timestamp_ms commit.

Lemma add_commit_Ok s commit :
  dag_inv s -> next_commit s commit -> commit_index commit <= u32_MAX ->
  length (ds_last_committed_rounds s) = N.to_nat (committee_size (ds_committee s)) ->
  (forall r, r ∈ commit_blocks commit -> is_valid_index (ds_committee s) (br_author r) = true) ->
  last_commit_round s <= br_round (commit_leader commit) ->
  exists s', add_commit s commit = Ok s' /\ dag_inv s'
    /\ ds_last_commit s' = Some commit
    /\ ds_pending_commit_votes s' = ds_pending_commit_votes s ++ [commit_reference commit]
    /\ ds_commits_to_write s' = ds_commits_to_write s ++ [commit]
    /\ ds_context s' = ds_context s /\ ds_recent_blocks s' = ds_recent_blocks s
    /\ ds_genesis s' = ds_genesis s /\ ds_store s' = ds_store s
    /\ forall i, ds_last_committed_rounds s' !! i
                 = highest_round (commit_blocks commit) i <$> ds_last_committed_rounds s !! i.
Proof.
  intros Hs [Hidx Hts] Hmax Hlen Hblocks Hround. unfold add_commit.
  destruct (raise_committed_rounds_Ok (ds_last_committed_rounds s) (commit_blocks commit))
    as (rounds & -> & Hl & Hi).
  { intros r Hr. specialize (Hblocks r Hr). unfold is_valid_index in Hblocks.
    apply N.ltb_lt in Hblocks. lia. }
  cbn [mbind outcome_bind].
  rewrite (mapM_Ok _ (fun i => default (mkAuthority 0 "" "" "" [] [])
                       (c_authorities (ds_committee s) !! N.to_nat i))).
  2:{ intros i (j & -> & Hj)%list_elem_of_fmap. apply elem_of_seq in Hj.
      unfold to_authority_index, committee_authority, vec_index.
      rewrite Hl, Hlen in Hj. unfold committee_size in Hj.
      rewrite (proj2 (N.ltb_lt _ _)) by lia. simpl.
      destruct (lookup_lt_is_Some_2 (c_authorities (ds_committee s)) (N.to_nat (N.of_nat j))) as [x ->];
        [lia|done]. }
  cbn [mbind outcome_bind]. set (s' := with_buffers _ _ _ _ _ _).
  assert (dag_inv s' /\ ds_last_commit s' = Some commit) as [Hs' Hlc].
  { split; [|done]. apply (dag_inv_ext s); try done; [|apply (di_clock s Hs)].
    unfold gc_round, calculate_gc_round, saturating_sub. unfold s'. simpl.
    change (last_commit_round _) with (br_round (commit_leader commit)) at 2. lia. }
  unfold last_commit_index, last_commit_timestamp_ms in *.
  destruct (ds_last_commit s) as [lc|] eqn:Elc.
  - rewrite (proj2 (N.leb_gt _ _)) by lia. rewrite u32_add_small, Hidx, N.eqb_refl by lia.
    cbn [assert_that mbind outcome_bind]. rewrite (proj2 (N.ltb_ge _ _)) by lia. by exists s'.
  - rewrite Hidx. cbn [assert_that mbind outcome_bind]. by exists s'.
Qed.

Lemma add_commit_rest s commit s' : add_commit s commit = Ok s' -> rest_fields s' = rest_fields s.
Proof.
  unfold add_commit. intros E. destruct (ds_last_commit s) as [lc|].
  - destruct (_ <=? _); [by injection E as <-|]. outcome_step E. destruct (_ <? _); [done|].
    repeat outcome_step E. by subst s'.
  - repeat outcome_step E. by subst s'.
Qed.

Lemma add_commit_buffered s commit s' :
  last_commit_index s < commit_index commit -> add_commit s commit = Ok s' ->
  ds_commits_to_write s' = ds_commits_to_write s ++ [commit].
Proof.
  unfold last_commit_index, add_commit. intros Hlt E. destruct (ds_last_commit s) as [lc|].
  - rewrite (proj2 (N.leb_gt _ _)) in E by lia. outcome_step E. destruct (_ <? _); [done|].
    repeat outcome_step E. by subst s'.
  - repeat outcome_step E. by subst s'.
Qed.
End link.
