(* ===== verification/Linearizer.v ===== *)
(** * The linearizer

    Models linearizer.rs: the traversal that collects the sub-DAG of a
    committed leader, the commit timestamp as the stake-weighted median of
    the leader's parents, and the commits made of them.  The trait
    [BlockStoreAPI] that the traversal is written against is a type class,
    with the DAG state as its instance. *)

From S2P Require Import Prelude Committee Context Block StakeAggregator ThresholdClock Commit Store LeaderScoring DagState DagInv Evolve DagOps DagLink.

Class BlockStoreAPI (D : Type) := {
  api_get_blocks : D -> list BlockRef -> outcome (list (option VerifiedBlock));
  api_gc_round : D -> N;
  api_set_committed : D -> BlockRef -> outcome (D * bool);
  api_is_committed : D -> BlockRef -> outcome bool;
  api_cached : D -> nat;
}.

(** [api_cached] bounds the blocks that can be marked, for the fuel. *)
#[global] Instance DagState_BlockStoreAPI {S} `{Store S} : BlockStoreAPI (DagState S) := {
  api_get_blocks := get_blocks;
  api_gc_round := gc_round;
  api_set_committed := set_committed;
  api_is_committed := is_committed;
  api_cached s := size (ds_recent_blocks s);
}.

(* ------------------------------------------------------------------ *)
(** ** The sub-DAG of a leader *)

Section linearize.
Context {D : Type} `{BlockStoreAPI D}.

(** The references of [x] that are still to be committed. *)
Definition uncommitted_ancestors (dag_state : D) (gc_round : N) (x : VerifiedBlock)
    : outcome (list BlockRef) :=
  filterM (fun ancestor =>
             if gc_round <? br_round ancestor
             then negb <$> api_is_committed dag_state ancestor
             else Ok false) (ancestors x).

(** Marks the ancestors and pushes them on the buffer, a stack whose top is
    the head of the list. *)
Definition push_ancestors (dag_state : D) (buffer : list VerifiedBlock)
    (ancestors : list VerifiedBlock) : outcome (D * list VerifiedBlock) :=
  foldM (fun '(dag_state, buffer) ancestor =>
           res ← api_set_committed dag_state (reference ancestor);
           _ ← assert_that res.2;
           Ok (res.1, ancestor :: buffer)) ancestors (dag_state, buffer).

Fixpoint collect (fuel : nat) (dag_state : D) (gc_round : N)
    (buffer to_commit : list VerifiedBlock) : outcome (D * list VerifiedBlock) :=
  match fuel with
  | O => OutOfFuel
  | S fuel =>
      match buffer with
      | [] => Ok (dag_state, to_commit)
      | x :: buffer =>
          refs ← uncommitted_ancestors dag_state gc_round x;
          ancestors_opt ← api_get_blocks dag_state refs;
          ancestors ← mapM unwrap ancestors_opt;
          pushed ← push_ancestors dag_state buffer ancestors;
          collect fuel pushed.1 gc_round pushed.2 (to_commit ++ [x])
      end
  end.

Definition linearize_sub_dag (leader_block : VerifiedBlock) (dag_state : D)
    : outcome (D * list VerifiedBlock) :=
  let gc_round := api_gc_round dag_state in
  res ← api_set_committed dag_state (reference leader_block);
  _ ← assert_that res.2;
  collected ← collect (S (S (api_cached dag_state))) res.1 gc_round [leader_block] [];
  let '(dag_state, to_commit) := collected in
  _ ← assert_that (forallb (fun block => gc_round <? round block) to_commit);
  Ok (dag_state, sort_sub_dag_blocks to_commit).
End linearize.

(* ------------------------------------------------------------------ *)
(** ** The commit timestamp *)

Fixpoint median_loop (half cumulative_stake : N) (timestamps : list (N * N)) : option N :=
  match timestamps with
  | [] => None
  | (ts, stake) :: timestamps =>
      let cumulative_stake := u64_add cumulative_stake stake in
      if half <? cumulative_stake then Some ts
      else median_loop half cumulative_stake timestamps
  end.

Definition ts_leb (a b : N * N) : bool := a.1 <=? b.1.

Definition median_timestamps_by_stake_inner (timestamps : list (N * N)) (total_stake : N) : outcome N :=
  let timestamps := stable_sort ts_leb timestamps in
  match median_loop (total_stake / 2) 0 timestamps with
  | Some ts => Ok ts
  | None => fst <$> unwrap (last timestamps)
  end.

(** [None] stands for the two errors, which carry only a message. *)
Definition median_timestamp_by_stake (context : Context) (blocks : list VerifiedBlock)
    : outcome (option N) :=
  timestamps ← mapM (fun block => authority ← committee_authority (committee context) (author block);
                                  Ok (timestamp_ms block, a_stake authority)) blocks;
  let total_stake := u64_sum timestamps.*2 in
  if is_empty timestamps then Ok None
  else if total_stake <? c_quorum_threshold (committee context) then Ok None
  else Some <$> median_timestamps_by_stake_inner timestamps total_stake.

Definition calculate_commit_timestamp {D} `{BlockStoreAPI D} (context : Context) (dag_state : D)
    (leader_block : VerifiedBlock) (last_commit_timestamp_ms : N) : outcome N :=
  let block_refs := List.filter (fun block_ref => br_round block_ref =? u32_sub (round leader_block) 1)
                      (ancestors leader_block) in
  blocks_opt ← api_get_blocks dag_state block_refs;
  blocks ← mapM unwrap blocks_opt;
  median ← median_timestamp_by_stake context blocks;
  timestamp_ms ← unwrap median;
  Ok (N.max timestamp_ms last_commit_timestamp_ms).

(* ------------------------------------------------------------------ *)
(** ** Commits *)

Section commits.
Context {S : Type} `{Store S}.
Context (bcs_commit : Commit -> list byte) (default_hash : list byte -> N).
Implicit Types s : DagState S.

Definition collect_sub_dag_and_commit (context : Context) s (leader_block : VerifiedBlock)
    : outcome (DagState S * (CommittedSubDag * TrustedCommit)) :=
  let last_commit_index := last_commit_index s in
  let last_commit_digest := last_commit_digest s in
  let last_commit_timestamp_ms := last_commit_timestamp_ms s in
  linearized ← linearize_sub_dag leader_block s;
  let '(s, to_commit) := linearized in
  timestamp_ms ← calculate_commit_timestamp context s leader_block last_commit_timestamp_ms;
  let commit := commit_new (u32_add last_commit_index 1) last_commit_digest timestamp_ms
                  (reference leader_block) (reference <$> to_commit) in
  let commit := trusted_commit_new_trusted default_hash commit (bcs_commit commit) in
  let sub_dag := committed_sub_dag_new (reference leader_block) to_commit timestamp_ms
                   (commit_reference commit) in
  Ok (s, (sub_dag, commit)).

(** The metric of pruned blocks looks up the committed rounds and the
    hostnames of the ancestors of the sub-DAG below the GC round. *)
Definition update_blocks_pruned_metric (context : Context) s (sub_dag : CommittedSubDag) : outcome unit :=
  pruned ← filterM (fun ancestor_ref =>
             if br_round ancestor_ref <=? gc_round s then
               last_round ← vec_index (ds_last_committed_rounds s) (br_author ancestor_ref);
               Ok (negb (last_round =? br_round ancestor_ref))
             else Ok false)
           (sd_blocks sub_dag ≫= ancestors);
  _ ← mapM (fun block_ref => committee_authority (committee context) (br_author block_ref)) pruned;
  Ok tt.

(** The body of the loop of [handle_commit]. *)
Definition commit_one (context : Context) (acc : DagState S * list CommittedSubDag)
    (leader_block : VerifiedBlock) : outcome (DagState S * list CommittedSubDag) :=
  let '(s, committed_sub_dags) := acc in
  collected ← collect_sub_dag_and_commit context s leader_block;
  let '(s, (sub_dag, commit)) := collected in
  _ ← update_blocks_pruned_metric context s sub_dag;
  s ← add_commit s commit;
  Ok (s, committed_sub_dags ++ [sub_dag]).

Definition handle_commit (context : Context) s (committed_leaders : list VerifiedBlock)
    : outcome (DagState S * list CommittedSubDag) :=
  foldM (commit_one context) committed_leaders (s, []).
End commits.
