(* ===== verification/CommitObserver.v ===== *)
(** * The commit observer

    Models commit_observer.rs: committed leaders become sub-DAGs, which are
    sent to the commit finalizer over a channel and added to the scores; after
    a restart the commits that the application has not processed are sent
    again.  The channel is the list of what was sent and whether its receiver
    is still there. *)

From S2P Require Import Prelude Committee Context Block StakeAggregator ThresholdClock Commit Error Store LeaderScoring DagState VoteTracker Linearizer.

(** [CommitFinalizerHandle] and the channel behind it. *)
Record CommitFinalizerHandle := mkCommitFinalizerHandle {
  fh_open : bool;
  fh_sent : list CommittedSubDag;
}.

Definition finalizer_send (self : CommitFinalizerHandle) (commit : CommittedSubDag)
    : ConsensusResult CommitFinalizerHandle :=
  if fh_open self then Success (mkCommitFinalizerHandle true (fh_sent self ++ [commit])) else Err Shutdown.

(** Sends until the first failure. *)
Fixpoint send_all (self : CommitFinalizerHandle) (commits : list CommittedSubDag)
    : CommitFinalizerHandle * ConsensusResult unit :=
  match commits with
  | [] => (self, Success tt)
  | commit :: commits =>
      match finalizer_send self commit with
      | Success self => send_all self commits
      | Err e => (self, Err e)
      end
  end.

Definition set_decided_locally (local : bool) (sd : CommittedSubDag) : CommittedSubDag :=
  {| sd_leader := sd_leader sd; sd_blocks := sd_blocks sd; sd_timestamp_ms := sd_timestamp_ms sd;
     sd_commit_ref := sd_commit_ref sd; decided_with_local_blocks := local;
     recovered_rejected_transactions := recovered_rejected_transactions sd;
     rejected_transactions_by_block := rejected_transactions_by_block sd |}.

Section observer.
Context {S : Type} `{Store S}.
Context (bcs_commit : Commit -> list byte) (default_hash : list byte -> N).
Context (vote : VerifiedBlock -> ConsensusResult (list N)).
Implicit Types s : DagState S.

Definition observer_handle_commit (context : Context) s (handle : CommitFinalizerHandle)
    (committed_leaders : list VerifiedBlock) (local : bool)
    : outcome (DagState S * CommitFinalizerHandle * ConsensusResult (list CommittedSubDag)) :=
  handled ← handle_commit bcs_commit default_hash context s committed_leaders;
  let '(s, committed_sub_dags) := handled in
  let committed_sub_dags := set_decided_locally local <$> committed_sub_dags in
  let '(handle, sent) := send_all handle committed_sub_dags in
  match sent with
  | Err e => Ok (s, handle, Err e)
  | Success _ =>
      s ← add_scoring_subdags s committed_sub_dags;
      Ok (s, handle, Success committed_sub_dags)
  end.

(* ------------------------------------------------------------------ *)
(** ** Recovery *)

Definition COMMIT_RECOVERY_BATCH_SIZE : N := 250.

Record Recovery := mkRecovery {
  rc_state : DagState S;
  rc_votes : VoteTrackerState;
  rc_handle : CommitFinalizerHandle;
  rc_last_sent : N;
  rc_seen_unfinalized : bool;
}.

(** One recovered commit. *)
Definition recover_commit (store : S) (r : Recovery) (commit : TrustedCommit) : outcome Recovery :=
  let last_sent_commit_index := u32_add (rc_last_sent r) 1 in
  _ ← assert_that (commit_index commit =? last_sent_commit_index);
  committed_sub_dag ← load_committed_subdag_from_store store commit;
  let seen_unfinalized_commit :=
    rc_seen_unfinalized r || negb (recovered_rejected_transactions committed_sub_dag) in
  votes ← (if seen_unfinalized_commit then
             _ ← assert_that (negb (recovered_rejected_transactions committed_sub_dag));
             _ ← assert_that (negb (decided_with_local_blocks committed_sub_dag));
             recover_and_vote_on_blocks vote (rc_state r) (rc_votes r) (sd_blocks committed_sub_dag)
           else Ok (rc_votes r));
  match finalizer_send (rc_handle r) committed_sub_dag with
  | Success handle => Ok (mkRecovery (rc_state r) votes handle last_sent_commit_index seen_unfinalized_commit)
  | Err _ => Panic
  end.

(** One batch of commits. *)
Definition recover_batch (store : S) (last_commit_index_ : N) (r : Recovery) (start_index : N) : outcome Recovery :=
  let end_index := N.min (u32_saturating_add start_index (COMMIT_RECOVERY_BATCH_SIZE - 1)) last_commit_index_ in
  unsent_commits ← scan_commits store (commit_range_new start_index end_index);
  _ ← assert_that (start_index <=? end_index);
  _ ← assert_that (N.of_nat (length unsent_commits) =? end_index - start_index + 1);
  foldM (recover_commit store) unsent_commits
    (mkRecovery (recover_commits_to_write (rc_state r) unsent_commits) (rc_votes r) (rc_handle r)
       (rc_last_sent r) (rc_seen_unfinalized r)).

(** [(replay_after_commit_index + 1..=last_commit_index).step_by(batch size)] *)
Definition batch_starts (replay_after last : N) : list N :=
  (fun i => replay_after + 1 + N.of_nat i * COMMIT_RECOVERY_BATCH_SIZE)
    <$> seq 0 (N.to_nat ((last - replay_after + COMMIT_RECOVERY_BATCH_SIZE - 1) / COMMIT_RECOVERY_BATCH_SIZE)).

Definition recover_and_send_commits s (votes : VoteTrackerState) (handle : CommitFinalizerHandle)
    (replay_after_commit_index : N) : outcome (DagState S * VoteTrackerState * CommitFinalizerHandle) :=
  let store := ds_store s in
  last_commit ← read_last_commit store;
  match last_commit with
  | None => _ ← assert_that (replay_after_commit_index =? 0); Ok (s, votes, handle)
  | Some last_commit =>
      let last_commit_index_ := commit_index last_commit in
      if last_commit_index_ =? replay_after_commit_index then Ok (s, votes, handle)
      else
        _ ← assert_that (replay_after_commit_index <? last_commit_index_);
        _ ← ensure_commits_to_write_is_empty s;
        r ← foldM (recover_batch store last_commit_index_) (batch_starts replay_after_commit_index last_commit_index_)
              (mkRecovery s votes handle replay_after_commit_index false);
        _ ← assert_that (rc_last_sent r =? last_commit_index_);
        Ok (rc_state r, rc_votes r, rc_handle r)
  end.

(** [CommitObserver::new]: the recovery, then the votes on the blocks above
    the GC round. *)
Definition commit_observer_new s (votes : VoteTrackerState) (handle : CommitFinalizerHandle)
    (replay_after_commit_index : N) : outcome (DagState S * VoteTrackerState * CommitFinalizerHandle) :=
  recovered ← recover_and_send_commits s votes handle replay_after_commit_index;
  let '(s, votes, handle) := recovered in
  votes ← recover_blocks_after_round vote s votes (gc_round s);
  Ok (s, votes, handle).
End observer.

(** The sub-DAGs are sent while the receiver is there. *)
Lemma send_all_Ok log sds :
  send_all (mkCommitFinalizerHandle true log) sds = (mkCommitFinalizerHandle true (log ++ sds), Success tt).
Proof.
  revert log. induction sds as [|sd sds IH]; intros log; simpl; [by rewrite app_nil_r|].
  rewrite IH. by rewrite <- app_assoc.
Qed.
