(* ===== verification/CommitFinalizer.v ===== *)
(** * The commit finalizer

    Models commit_finalizer.rs: commits are buffered until each of their
    transactions is finalized or rejected.  A transaction without reject votes
    is finalized with its commit; another one is rejected by a quorum of reject
    votes, finalized by a quorum of accept votes in later committed blocks, or
    rejected when a leader three rounds above has been committed.  The map of
    blocks is read by parallel tasks over chunks of the pending blocks, whose
    results are taken in the order of the chunks; here the blocks are processed
    in that order. *)

From S2P Require Import Prelude Committee Context Block StakeAggregator ThresholdClock Commit Error Store LeaderScoring DagState VoteTracker CommitObserver.

Definition INDIRECT_REJECT_DEPTH : N := 3.

(* ------------------------------------------------------------------ *)
(** ** The state *)

Record CommitState := mkCommitState {
  cs_commit : CommittedSubDag;
  cs_pending_blocks : gmap BlockRef N;
  cs_pending_transactions : gmap BlockRef (gset N);
  cs_rejected_transactions : gmap BlockRef (gset N);
}.

Definition commit_state_new (commit : CommittedSubDag) : outcome CommitState :=
  let pending_blocks : gmap BlockRef N :=
    foldl (fun m b => <[reference b := N.of_nat (length (transactions b))]> m) ∅ (sd_blocks commit) in
  _ ← assert_that (negb (bool_decide (pending_blocks = ∅)));
  Ok (mkCommitState commit pending_blocks ∅ ∅).

(** [entry(r).or_default().extend(ts)] *)
Definition extend_entry (m : gmap BlockRef (gset N)) (r : BlockRef) (ts : gset N) : gmap BlockRef (gset N) :=
  <[r := ts ∪ default ∅ (m !! r)]> m.

Definition with_transactions (self : CommitState) (pending rejected : gmap BlockRef (gset N)) : CommitState :=
  mkCommitState (cs_commit self) (cs_pending_blocks self) pending rejected.

Definition remove_pending_transactions (self : CommitState) (block_ref : BlockRef) (transactions : gset N)
    : CommitState :=
  match cs_pending_transactions self !! block_ref with
  | None => self
  | Some block_pending_txns =>
      let left := block_pending_txns ∖ transactions in
      with_transactions self
        (if bool_decide (left = ∅) then delete block_ref (cs_pending_transactions self)
         else <[block_ref := left]> (cs_pending_transactions self))
        (cs_rejected_transactions self)
  end.

Record BlockState := mkBlockState {
  bs_block : VerifiedBlock;
  bs_children : gset BlockRef;
  bs_reject_votes : gmap BlockRef (gset N);
  bs_origin_descendants : list BlockRef;
  bs_commit_index : N;
}.

Definition block_state_new (block : VerifiedBlock) (commit_index : N) : BlockState :=
  mkBlockState block ∅
    (foldl (fun m v => <[btv_block_ref v := list_to_set (btv_rejects v)]> m) ∅ (transaction_votes block))
    [] commit_index.

Definition add_child (child : BlockRef) (st : BlockState) : BlockState :=
  mkBlockState (bs_block st) ({[child]} ∪ bs_children st) (bs_reject_votes st) (bs_origin_descendants st)
    (bs_commit_index st).

Definition push_descendant (descendant : BlockRef) (st : BlockState) : BlockState :=
  mkBlockState (bs_block st) (bs_children st) (bs_reject_votes st) (bs_origin_descendants st ++ [descendant])
    (bs_commit_index st).

Record CommitFinalizer := mkCommitFinalizer {
  fz_context : Context;
  fz_last_processed_commit : option N;
  fz_pending_commits : list CommitState;
  fz_blocks : gmap BlockRef BlockState;
}.

Definition commit_finalizer_new (context : Context) : CommitFinalizer :=
  mkCommitFinalizer context None [] ∅.

Definition set_pending (self : CommitFinalizer) (pending : list CommitState) : CommitFinalizer :=
  mkCommitFinalizer (fz_context self) (fz_last_processed_commit self) pending (fz_blocks self).

Definition set_linked (self : CommitFinalizer) (blocks : gmap BlockRef BlockState) : CommitFinalizer :=
  mkCommitFinalizer (fz_context self) (fz_last_processed_commit self) (fz_pending_commits self) blocks.

(** [DagState::calculate_gc_round], which reads the configuration only. *)
Definition context_gc_round (context : Context) (commit_round : N) : N :=
  saturating_sub commit_round (gc_depth (protocol_config context)).

Definition commit_leader_round (self : CommitState) : N := br_round (sd_leader (cs_commit self)).

(* ------------------------------------------------------------------ *)
(** ** Direct finalization *)

(** [0..(n as TransactionIndex)] *)
Definition transaction_indices (n : N) : gset N := list_to_set (N.of_nat <$> seq 0 (N.to_nat (u16_wrap n))).

Definition direct_finalize_block (context : Context) (votes : VoteTrackerState) (vote_gc_round : N)
    (self : CommitState) (block : BlockRef * N) : outcome CommitState :=
  let '(block_ref, num_transactions) := block in
  if (br_round block_ref <=? vote_gc_round) && (0 <? num_transactions) then
    _ ← committee_authority (committee context) (br_author block_ref);
    Ok (with_transactions self
          (extend_entry (cs_pending_transactions self) block_ref (transaction_indices num_transactions))
          (cs_rejected_transactions self))
  else
    reject_votes ← unwrap (get_reject_votes votes block_ref);
    _ ← committee_authority (committee context) (br_author block_ref);
    Ok (foldl (fun self '(transaction_index, stake) =>
                 if stake <? c_quorum_threshold (committee context) then
                   with_transactions self
                     (extend_entry (cs_pending_transactions self) block_ref {[transaction_index]})
                     (cs_rejected_transactions self)
                 else
                   with_transactions self (cs_pending_transactions self)
                     (extend_entry (cs_rejected_transactions self) block_ref {[transaction_index]}))
          self reject_votes).

Definition try_direct_finalize_commit (context : Context) (votes : VoteTrackerState) (self : CommitState)
    : outcome CommitState :=
  let vote_gc_round := context_gc_round context (u32_add (commit_leader_round self) INDIRECT_REJECT_DEPTH) in
  _ ← assert_that (negb (bool_decide (cs_pending_blocks self = ∅)));
  foldM (direct_finalize_block context votes vote_gc_round) (btree_map_iter (cs_pending_blocks self))
    (mkCommitState (cs_commit self) ∅ (cs_pending_transactions self) (cs_rejected_transactions self)).

(** The loop over the buffered commits: a commit already processed is passed
    over, and the first one that is remote and too recent stops it. *)
Fixpoint direct_finalize_commits (context : Context) (votes : VoteTrackerState) (last_round : N)
    (pending : list CommitState) : outcome (list CommitState) :=
  match pending with
  | [] => Ok []
  | self :: pending =>
      if bool_decide (cs_pending_blocks self = ∅) then
        rest ← direct_finalize_commits context votes last_round pending; Ok (self :: rest)
      else if negb (decided_with_local_blocks (cs_commit self))
              && (last_round <? u32_add (commit_leader_round self) DEFAULT_WAVE_LENGTH) then Ok (self :: pending)
      else
        self ← try_direct_finalize_commit context votes self;
        rest ← direct_finalize_commits context votes last_round pending; Ok (self :: rest)
  end.

(* ------------------------------------------------------------------ *)
(** ** Finalized commits *)

Definition finalized_commit (self : CommitState) : CommittedSubDag :=
  let commit := cs_commit self in
  {| sd_leader := sd_leader commit; sd_blocks := sd_blocks commit; sd_timestamp_ms := sd_timestamp_ms commit;
     sd_commit_ref := sd_commit_ref commit; decided_with_local_blocks := decided_with_local_blocks commit;
     recovered_rejected_transactions := recovered_rejected_transactions commit;
     rejected_transactions_by_block :=
       foldl (fun m '(block_ref, rejected) => <[block_ref := btree_iter rejected]> m)
         (rejected_transactions_by_block commit) (btree_map_iter (cs_rejected_transactions self)) |}.

Fixpoint pop_finalized (pending : list CommitState) (blocks : gmap BlockRef BlockState)
    : list CommittedSubDag * list CommitState * gmap BlockRef BlockState :=
  match pending with
  | [] => ([], [], blocks)
  | self :: rest =>
      if bool_decide (cs_pending_blocks self = ∅) && bool_decide (cs_pending_transactions self = ∅) then
        let blocks := foldl (fun m b => delete (reference b) m) blocks (sd_blocks (cs_commit self)) in
        let '(finalized, rest, blocks) := pop_finalized rest blocks in
        (finalized_commit self :: finalized, rest, blocks)
      else ([], pending, blocks)
  end.

Definition pop_finalized_commits (self : CommitFinalizer) : CommitFinalizer * list CommittedSubDag :=
  let '(finalized, pending, blocks) := pop_finalized (fz_pending_commits self) (fz_blocks self) in
  (mkCommitFinalizer (fz_context self) (fz_last_processed_commit self) pending blocks, finalized).

(* ------------------------------------------------------------------ *)
(** ** Links between the blocks of buffered commits *)

Definition by_round (blocks : list VerifiedBlock) : list VerifiedBlock :=
  stable_sort (fun a b => round a <=? round b) blocks.

Definition link_block (commit_index : N) (m : gmap BlockRef BlockState) (block : VerifiedBlock)
    : gmap BlockRef BlockState :=
  let block_ref := reference block in
  let m := foldl (fun m ancestor => alter (add_child block_ref) ancestor m) m (ancestors block) in
  match m !! block_ref with
  | Some _ => m
  | None => <[block_ref := block_state_new block commit_index]> m
  end.

Definition link_blocks_in_last_commit (self : CommitFinalizer) : outcome CommitFinalizer :=
  commit_state ← unwrap (last (fz_pending_commits self));
  let commit := cs_commit commit_state in
  Ok (set_linked self
        (foldl (link_block (cr_index (sd_commit_ref commit))) (fz_blocks self) (by_round (sd_blocks commit)))).

(** Walks from a block to the blocks of the same authority below it. *)
Fixpoint append_to_origin (fuel : nat) (committed_block_ref origin_ancestor_ref : BlockRef)
    (m : gmap BlockRef BlockState) : outcome (gmap BlockRef BlockState) :=
  match fuel with
  | O => OutOfFuel
  | S fuel =>
      if br_author origin_ancestor_ref =? br_author committed_block_ref then
        match m !! origin_ancestor_ref with
        | None => Ok m
        | Some origin_ancestor_block =>
            let m := <[origin_ancestor_ref := push_descendant committed_block_ref origin_ancestor_block]> m in
            next ← unwrap (head (ancestors (bs_block origin_ancestor_block)));
            append_to_origin fuel committed_block_ref next m
        end
      else Ok m
  end.

(** Each turn of a walk is at another block of the map. *)
Definition append_origin_descendant (m : gmap BlockRef BlockState) (committed_block : VerifiedBlock)
    : outcome (gmap BlockRef BlockState) :=
  let committed_block_ref := reference committed_block in
  st ← unwrap (m !! committed_block_ref);
  origin_ancestor_ref ← unwrap (head (ancestors (bs_block st)));
  append_to_origin (S (size m)) committed_block_ref origin_ancestor_ref m.

Definition append_origin_descendants_from_last_commit (self : CommitFinalizer) : outcome CommitFinalizer :=
  commit_state ← unwrap (last (fz_pending_commits self));
  m ← foldM append_origin_descendant (by_round (sd_blocks (cs_commit commit_state))) (fz_blocks self);
  Ok (set_linked self m).

(* ------------------------------------------------------------------ *)
(** ** Accept votes in committed blocks *)

Definition gced_transaction_votes_for_pending_block (gc_rounds : list (N * N))
    (pending_block_round pending_commit_index current_commit_index : N) : outcome bool :=
  _ ← assert_that (pending_commit_index <=? current_commit_index);
  if pending_commit_index =? current_commit_index then Ok false
  else
    previous ← vec_index gc_rounds (u32_sub (u32_sub current_commit_index 1) pending_commit_index);
    let '(commit_index, gc_round) := previous in
    _ ← assert_that (commit_index =? u32_sub current_commit_index 1);
    Ok (pending_block_round <=? gc_round).

(** One transaction that still lacks votes. *)
Definition count_accept (c : Committee) (voter : N) (rejects : gset N)
    (st : gmap N (StakeAggregator QuorumThreshold) * list N)
    (entry : N * StakeAggregator QuorumThreshold)
    : outcome (gmap N (StakeAggregator QuorumThreshold) * list N) :=
  let '(accept_votes, newly_finalized) := st in
  let '(index, stake) := entry in
  if bool_decide (index ∈ rejects) then Ok st
  else
    added ← stake_aggregator_add stake voter c;
    let '(stake, reached) := added in
    Ok (<[index := stake]> accept_votes, if reached : bool then newly_finalized ++ [index] else newly_finalized).

Definition count_accepts (c : Committee) (voter : N) (rejects : gset N)
    (accept_votes : gmap N (StakeAggregator QuorumThreshold))
    : outcome (gmap N (StakeAggregator QuorumThreshold) * list N) :=
  counted ← foldM (count_accept c voter rejects) (btree_map_iter accept_votes) (accept_votes, []);
  let '(accept_votes, newly_finalized) := counted in
  Ok (foldl (fun m index => delete index m) accept_votes newly_finalized, newly_finalized).

(** The variables of the traversal. *)
Record Traversal := mkTraversal {
  tr_to_visit : gset BlockRef;
  tr_visited : gset BlockRef;
  tr_ignored : gset BlockRef;
  tr_accept_votes : gmap N (StakeAggregator QuorumThreshold);
  tr_finalized : list N;
}.

Section traversal.
Context (context : Context) (blocks_map : gmap BlockRef BlockState) (gc_rounds : list (N * N)).
Context (pending_block_ref : BlockRef) (pending_commit_index : N).

(** The votes of a block that is not to be ignored: the new accept votes, or
    nothing when the votes may not have been proposed. *)
Definition visit_votes (st : BlockState) (curr_block_ref : BlockRef) (votes_gced : bool) (tr : Traversal)
    : outcome Traversal :=
  if bool_decide (curr_block_ref ∈ tr_ignored tr) then Ok tr
  else
    let ignored := list_to_set (bs_origin_descendants st) ∪ ({[curr_block_ref]} ∪ tr_ignored tr) in
    if votes_gced then
      _ ← committee_authority (committee context) (br_author pending_block_ref);
      Ok (mkTraversal (tr_to_visit tr) (tr_visited tr) ignored (tr_accept_votes tr) (tr_finalized tr))
    else
      let curr_block_reject_votes := default ∅ (bs_reject_votes st !! pending_block_ref) in
      counted ← count_accepts (committee context) (br_author curr_block_ref) curr_block_reject_votes (tr_accept_votes tr);
      let '(accept_votes, newly_finalized) := counted in
      Ok (mkTraversal (tr_to_visit tr) (tr_visited tr) ignored accept_votes (tr_finalized tr ++ newly_finalized)).

(** Visits the earliest block first.  A block whose votes were dropped because
    of garbage collection is left by [continue]: its children are not added. *)
Fixpoint traverse (fuel : nat) (tr : Traversal) : outcome (list N) :=
  match fuel with
  | O => OutOfFuel
  | S fuel =>
      match btree_first (tr_to_visit tr) with
      | None => Ok (tr_finalized tr)
      | Some curr_block_ref =>
          let to_visit := tr_to_visit tr ∖ {[curr_block_ref]} in
          if bool_decide (curr_block_ref ∈ tr_visited tr) then
            traverse fuel (mkTraversal to_visit (tr_visited tr) (tr_ignored tr) (tr_accept_votes tr) (tr_finalized tr))
          else
            let visited := {[curr_block_ref]} ∪ tr_visited tr in
            st ← unwrap (blocks_map !! curr_block_ref);
            votes_gced ← gced_transaction_votes_for_pending_block gc_rounds (br_round pending_block_ref)
                           pending_commit_index (bs_commit_index st);
            let counts := negb (bool_decide (curr_block_ref ∈ tr_ignored tr)) in
            tr ← visit_votes st curr_block_ref votes_gced
                   (mkTraversal to_visit visited (tr_ignored tr) (tr_accept_votes tr) (tr_finalized tr));
            if counts && votes_gced then traverse fuel tr
            else if counts && bool_decide (tr_accept_votes tr = ∅) then Ok (tr_finalized tr)
            else traverse fuel (mkTraversal (tr_to_visit tr ∪ (bs_children st ∖ tr_visited tr)) (tr_visited tr)
                                  (tr_ignored tr) (tr_accept_votes tr) (tr_finalized tr))
      end
  end.
End traversal.

(** Each turn visits another block of the map. *)
Definition try_indirect_finalize_pending_transactions_in_block (context : Context)
    (blocks_map : gmap BlockRef BlockState) (gc_rounds : list (N * N)) (pending_block_ref : BlockRef)
    (pending_transactions : gset N) : outcome (list N) :=
  if bool_decide (pending_transactions = ∅) then Ok []
  else
    let accept_votes := gset_to_gmap stake_aggregator_new pending_transactions in
    block_state ← unwrap (blocks_map !! pending_block_ref);
    traverse context blocks_map gc_rounds pending_block_ref (bs_commit_index block_state) (S (size blocks_map))
      (mkTraversal (bs_children block_state) ∅ ∅ accept_votes []).

(* ------------------------------------------------------------------ *)
(** ** Indirect finalization of the first commit *)

(** The pending transactions of a block that a quorum rejects by now. *)
Definition late_rejects (context : Context) (votes : VoteTrackerState) (pending : BlockRef * gset N)
    : outcome (BlockRef * gset N) :=
  let '(block_ref, pending_transactions) := pending in
  reject_votes ← unwrap (get_reject_votes votes block_ref);
  let reject_votes : gmap N N := foldl (fun m '(t, stake) => <[t := stake]> m) ∅ reject_votes in
  Ok (block_ref, list_to_set (List.filter (fun t => negb (default 0 (reject_votes !! t) <? c_quorum_threshold (committee context)))
                                (btree_iter pending_transactions))).

Definition reject_transactions (self : CommitState) (rejects : BlockRef * gset N) : CommitState :=
  let '(block_ref, rejected) := rejects in
  let self := remove_pending_transactions self block_ref rejected in
  with_transactions self (cs_pending_transactions self) (extend_entry (cs_rejected_transactions self) block_ref rejected).

Definition check_pending_transactions_in_first_commit (context : Context) (votes : VoteTrackerState)
    (self : CommitState) : outcome CommitState :=
  all_rejected_transactions ← mapM (late_rejects context votes) (btree_map_iter (cs_pending_transactions self));
  Ok (foldl reject_transactions self
        (List.filter (fun rejects => negb (bool_decide (rejects.2 = ∅))) all_rejected_transactions)).

Definition pending_gc_rounds (context : Context) (pending : list CommitState) : list (N * N) :=
  (fun c => (cr_index (sd_commit_ref (cs_commit c)), context_gc_round context (commit_leader_round c))) <$> pending.

Definition try_indirect_finalize_pending_transactions_in_first_commit (context : Context)
    (blocks_map : gmap BlockRef BlockState) (gc_rounds : list (N * N)) (self : CommitState) : outcome CommitState :=
  all_finalized_transactions ←
    mapM (fun '(block_ref, pending_transactions) =>
            finalized ← try_indirect_finalize_pending_transactions_in_block context blocks_map gc_rounds block_ref
                          pending_transactions;
            Ok (block_ref, finalized))
      (btree_map_iter (cs_pending_transactions self));
  Ok (foldl (fun self '(block_ref, finalized) => remove_pending_transactions self block_ref (list_to_set finalized))
        self (List.filter (fun finalized => negb (is_empty finalized.2)) all_finalized_transactions)).

Definition try_indirect_reject_pending_transactions_in_first_commit (last_commit_leader_round : N)
    (self : CommitState) : outcome CommitState :=
  if u32_add (commit_leader_round self) INDIRECT_REJECT_DEPTH <=? last_commit_leader_round then
    _ ← assert_that (bool_decide (cs_pending_blocks self = ∅));
    Ok (with_transactions self ∅
          (foldl (fun m '(block_ref, pending_transactions) => extend_entry m block_ref pending_transactions)
             (cs_rejected_transactions self) (btree_map_iter (cs_pending_transactions self))))
  else Ok self.

Definition try_indirect_finalize_first_commit (votes : VoteTrackerState) (self : CommitFinalizer)
    : outcome CommitFinalizer :=
  let context := fz_context self in
  match fz_pending_commits self with
  | [] => Panic
  | first :: rest =>
      _ ← assert_that (bool_decide (cs_pending_blocks first = ∅));
      first ← check_pending_transactions_in_first_commit context votes first;
      first ← try_indirect_finalize_pending_transactions_in_first_commit context (fz_blocks self)
                (pending_gc_rounds context (first :: rest)) first;
      last_commit_state ← unwrap (last (first :: rest));
      first ← try_indirect_reject_pending_transactions_in_first_commit (commit_leader_round last_commit_state) first;
      Ok (set_pending self (first :: rest))
  end.

(** Tries to finalize a prefix of the buffered commits; each turn that goes on
    pops one. *)
Fixpoint indirect_finalize_commits (fuel : nat) (votes : VoteTrackerState) (self : CommitFinalizer)
    (finalized_commits : list CommittedSubDag) : outcome (CommitFinalizer * list CommittedSubDag) :=
  match fuel with
  | O => OutOfFuel
  | S fuel =>
      match fz_pending_commits self with
      | first :: _ :: _ =>
          if negb (bool_decide (cs_pending_blocks first = ∅)) then Ok (self, finalized_commits)
          else
            self ← try_indirect_finalize_first_commit votes self;
            let '(self, popped) := pop_finalized_commits self in
            if is_empty popped then Ok (self, finalized_commits)
            else indirect_finalize_commits fuel votes self (finalized_commits ++ popped)
      | _ => Ok (self, finalized_commits)
      end
  end.

(* ------------------------------------------------------------------ *)
(** ** Processing a commit *)

(** The finalizer reads the vote tracker under its lock several times while it
    processes a commit; [votes] is the one state that all these reads see. *)
Definition process_commit (votes : VoteTrackerState) (self : CommitFinalizer) (committed_sub_dag : CommittedSubDag)
    : outcome (CommitFinalizer * list CommittedSubDag) :=
  let index := cr_index (sd_commit_ref committed_sub_dag) in
  _ ← match fz_last_processed_commit self with
      | Some last_processed_commit => assert_that (u32_add last_processed_commit 1 =? index)
      | None => Ok tt
      end;
  new ← commit_state_new committed_sub_dag;
  let pending := fz_pending_commits self ++ [new] in
  pending ← direct_finalize_commits (fz_context self) votes (commit_leader_round new) pending;
  let '(self, direct_finalized_commits) :=
    pop_finalized_commits (mkCommitFinalizer (fz_context self) (Some index) pending (fz_blocks self)) in
  if is_empty (fz_pending_commits self) then Ok (self, direct_finalized_commits)
  else
    self ← link_blocks_in_last_commit self;
    self ← append_origin_descendants_from_last_commit self;
    indirect_finalize_commits (S (length (fz_pending_commits self))) votes self direct_finalized_commits.

Section running.
Context {S : Type} `{Store S}.
Implicit Types dag : DagState S.

Definition try_update_gc_round (votes : VoteTrackerState) dag (last_finalized_commit_round : N)
    : outcome VoteTrackerState :=
  run_gc dag votes (calculate_gc_round dag last_finalized_commit_round).

(** A turn of the loop of [run]: the commits that became final are recorded
    with their rejected transactions and flushed before they are sent. *)
Definition finalizer_receive (self : CommitFinalizer) (votes : VoteTrackerState) dag
    (commit_sender : CommitFinalizerHandle) (committed_sub_dag : CommittedSubDag)
    : outcome (CommitFinalizer * VoteTrackerState * DagState S * CommitFinalizerHandle * ConsensusResult unit) :=
  let already_finalized := negb (transaction_voting_enabled (protocol_config (fz_context self)))
                           || recovered_rejected_transactions committed_sub_dag in
  processed ← (if already_finalized then Ok (self, [committed_sub_dag]) else process_commit votes self committed_sub_dag);
  let '(self, finalized_commits) := processed in
  updated ← match last finalized_commits with
            | None => Ok (votes, dag)
            | Some last_finalized =>
                votes ← try_update_gc_round votes dag (br_round (sd_leader last_finalized));
                let dag := if already_finalized then dag
                           else foldl (fun dag commit => add_finalized_commit dag (sd_commit_ref commit)
                                                           (rejected_transactions_by_block commit))
                                  dag finalized_commits in
                dag ← flush dag;
                Ok (votes, dag)
            end;
  let '(votes, dag) := updated in
  let '(commit_sender, sent) := send_all commit_sender finalized_commits in
  Ok (self, votes, dag, commit_sender, sent).
End running.
