(* ===== verification/FinalizerVotes.v ===== *)
(** * Accept votes in committed blocks

    What the traversal of commit_finalizer.rs counts: a transaction is
    finalized when a quorum of authorities accepts it, each with the first of
    its blocks that descends from the block of the transaction. *)

From S2P Require Import Prelude Committee Context Block StakeAggregator ThresholdClock Commit Error Store LeaderScoring DagState VoteTracker CommitObserver CommitFinalizer.

(* ------------------------------------------------------------------ *)
(** ** The votes of one block *)

Notation accept_map := (gmap N (StakeAggregator QuorumThreshold)).

Lemma foldl_delete_lookup {A} (m : gmap N A) (l : list N) i :
  foldl (fun m index => delete index m) m l !! i = if decide (i ∈ l) then None else m !! i.
Proof.
  revert m. induction l as [|x l IH]; intros m; cbn [foldl].
  - rewrite decide_False by apply not_elem_of_nil. done.
  - rewrite IH. destruct (decide (i ∈ l)) as [Hi|Hi].
    + rewrite decide_True; [done|by right].
    + destruct (decide (i = x)) as [->|Hne].
      * rewrite lookup_delete_eq, decide_True; [done|by left].
      * rewrite lookup_delete_ne by done. rewrite decide_False; [done|]. by intros [?|?]%elem_of_cons.
Qed.

Section block_votes.
Context (c : Committee) (Hc : committee_wf c).

(** What the vote of an authority does to the count of one transaction. *)
Definition vote_counted (voter : N) (agg agg' : StakeAggregator QuorumThreshold) : Prop :=
  agg_wf c agg' /\ votes agg' = {[voter]} ∪ votes agg.

Lemma count_accept_fold voter rejects l : forall (m : accept_map) newly,
  is_valid_index c voter = true -> NoDup l.*1 ->
  (forall t agg, (t, agg) ∈ l -> agg_wf c agg /\ m !! t = Some agg) ->
  exists m' new, foldM (count_accept c voter rejects) l (m, newly) = Ok (m', newly ++ new)
    /\ (forall t, t ∉ l.*1 -> m' !! t = m !! t /\ t ∉ new)
    /\ (forall t agg, (t, agg) ∈ l ->
          (t ∈ rejects /\ m' !! t = Some agg /\ t ∉ new)
          \/ (t ∉ rejects /\ exists agg', m' !! t = Some agg' /\ vote_counted voter agg agg'
                /\ (t ∈ new <-> c_quorum_threshold c <= stake_of c (votes agg')))).
Proof using Hc.
  induction l as [|[t0 agg0] l IH]; intros m newly Hv Hnd Hl.
  { exists m, []. rewrite app_nil_r. split_and!; [done| |].
    - intros t _. split; [done|apply not_elem_of_nil].
    - intros t agg Hin. by apply not_elem_of_nil in Hin. }
  apply NoDup_cons in Hnd as [Hn Hnd]. destruct (Hl t0 agg0) as [Hwf Hm0]; [by left|].
  cbn [foldM count_accept]. case_bool_decide as Hrej.
  - destruct (IH m newly Hv Hnd) as (m' & new & E & Hout & Hin); [intros t agg Hi; apply Hl; by right|].
    exists m', new. split; [done|]. destruct (Hout t0 Hn) as [Hm' Hnew]. split.
    + intros t Ht. apply Hout. intros Hi. apply Ht. by right.
    + intros t agg [[= -> ->]|Hi]%elem_of_cons; [left; by rewrite Hm'|by apply Hin].
  - destruct (add_Ok c Hc agg0 voter Hwf Hv) as (agg' & -> & Hvotes & Hwf'). cbn [mbind outcome_bind].
    set (newly0 := if _ <=? _ then _ else _).
    destruct (IH (<[t0 := agg']> m) newly0 Hv Hnd) as (m' & new & E & Hout & Hin).
    { intros t agg Hi. destruct (Hl t agg) as [? Ht]; [by right|]. split; [done|].
      rewrite lookup_insert_ne; [done|]. intros <-. apply Hn. by apply (list_elem_of_fmap_2 fst) in Hi. }
    destruct (Hout t0 Hn) as [Hm' Hnew]. rewrite lookup_insert_eq in Hm'.
    assert (forall t, t <> t0 -> t ∉ l.*1 -> m' !! t = m !! t) as Hother.
    { intros t Hne Ht. rewrite (proj1 (Hout t Ht)). by rewrite lookup_insert_ne. }
    assert (exists new0, newly0 = newly ++ new0 /\ (forall t, t ∈ new0 <-> t = t0
              /\ c_quorum_threshold c <= stake_of c (votes agg'))) as (new0 & E0 & Hnew0).
    { unfold newly0. rewrite Hvotes. change (threshold QuorumThreshold c) with (c_quorum_threshold c).
      destruct (N.leb_spec (c_quorum_threshold c) (stake_of c ({[voter]} ∪ votes agg0))).
      - exists [t0]. split; [done|]. intros t. rewrite list_elem_of_singleton. tauto.
      - exists []. rewrite app_nil_r. split; [done|]. intros t. rewrite elem_of_nil. lia. }
    exists m', (new0 ++ new). rewrite E, E0, app_assoc. split; [done|]. split.
    + intros t Ht. rewrite elem_of_app, Hnew0. rewrite fmap_cons, not_elem_of_cons in Ht. destruct Ht as [Hne Ht].
      split; [by apply Hother|]. intros [[? _]|?]; [done|]. by apply (Hout t).
    + intros t agg [[= -> ->]|Hi]%elem_of_cons.
      * right. split; [done|]. exists agg'. split; [done|]. split; [done|]. rewrite elem_of_app, Hnew0. tauto.
      * assert (t <> t0) as Hne by (intros ->; apply Hn; by apply (list_elem_of_fmap_2 fst) in Hi).
        destruct (Hin t agg Hi) as [(? & ? & ?)|(? & a' & ? & ? & ?)]; [left|right].
        -- split_and!; [done..|]. rewrite elem_of_app, Hnew0. tauto.
        -- split; [done|]. exists a'. split_and!; [done..|]. rewrite elem_of_app, Hnew0. tauto.
Qed.

(** The counts after a block: a transaction it rejects is unchanged, another
    one gets its vote and leaves when a quorum is reached. *)
Lemma count_accepts_Ok voter rejects (m : accept_map) :
  is_valid_index c voter = true -> (forall t agg, m !! t = Some agg -> agg_wf c agg) ->
  exists m' new, count_accepts c voter rejects m = Ok (m', new)
    /\ (forall t, m !! t = None -> m' !! t = None /\ t ∉ new)
    /\ (forall t agg, m !! t = Some agg ->
          (t ∈ rejects /\ m' !! t = Some agg /\ t ∉ new)
          \/ (t ∉ rejects /\ exists agg', vote_counted voter agg agg'
              /\ if c_quorum_threshold c <=? stake_of c (votes agg') then m' !! t = None /\ t ∈ new
                 else m' !! t = Some agg' /\ t ∉ new)).
Proof using Hc.
  intros Hv Hwf. unfold count_accepts.
  destruct (count_accept_fold voter rejects (btree_map_iter m) m [] Hv) as (m' & new & E & Hout & Hin).
  - apply btree_map_iter_NoDup.
  - intros t agg Hi%elem_of_btree_map_iter. split; [by apply (Hwf t)|done].
  - rewrite E. cbn [mbind outcome_bind app]. eexists _, new. split; [done|]. split.
    + intros t Ht. destruct (Hout t) as [E' Hn].
      { intros ([? agg] & -> & Hi)%list_elem_of_fmap. apply elem_of_btree_map_iter in Hi. simpl in Ht. congruence. }
      rewrite foldl_delete_lookup, decide_False by done. by rewrite E'.
    + intros t agg Ht. destruct (Hin t agg) as [(? & ? & ?)|(? & agg' & Hm' & Hvc & Hnew)];
        [by apply elem_of_btree_map_iter| |]; rewrite foldl_delete_lookup.
      * left. by rewrite decide_False.
      * right. split; [done|]. exists agg'. split; [done|].
        destruct (N.leb_spec (c_quorum_threshold c) (stake_of c (votes agg'))) as [Hq|Hq].
        -- rewrite decide_True by tauto. tauto.
        -- rewrite decide_False; [|rewrite Hnew; lia]. split; [done|]. rewrite Hnew. lia.
Qed.
End block_votes.

(* ------------------------------------------------------------------ *)
(** ** The traversal *)

Section visits.
Context (context : Context) (m : gmap BlockRef BlockState) (gc_rounds : list (N * N)).
Context (pending_block_ref : BlockRef) (pending_commit_index : N) (root : gset BlockRef).
Notation c := (committee context).

Definition child (x y : BlockRef) : Prop := exists st, m !! x = Some st /\ y ∈ bs_children st.

(** [y] descends from [x] through blocks of its own authority. *)
Definition origin (y x : BlockRef) : Prop := exists st, m !! x = Some st /\ y ∈ bs_origin_descendants st.

Definition rejecting (x : BlockRef) (t : N) : Prop :=
  exists st, m !! x = Some st /\ t ∈ default ∅ (bs_reject_votes st !! pending_block_ref).

Inductive reached : BlockRef -> Prop :=
| reached_root x : x ∈ root -> reached x
| reached_child x y : reached x -> child x y -> reached y.

Context (gced : BlockRef -> bool).

(** An authority accepts a transaction: its first block that descends from the
    pending block has all its votes and does not reject the transaction. *)
Definition accepts (t a : N) : Prop :=
  exists x, reached x /\ br_author x = a /\ gced x = false /\ ~ rejecting x t
    /\ ~ (exists v, reached v /\ origin x v).

Definition accepted_by_quorum (t : N) : Prop :=
  exists A, c_quorum_threshold c <= stake_of c A /\ (forall a, a ∈ A -> accepts t a).

(** The links are those of blocks: rounds go up, and the blocks below a block
    whose votes may be lost are not above it. *)
Record linked : Prop := {
  lk_root : forall x, x ∈ root -> is_Some (m !! x);
  lk_valid : forall x st, m !! x = Some st -> is_valid_index c (br_author x) = true;
  lk_pending : is_valid_index c (br_author pending_block_ref) = true;
  lk_child : forall x y, child x y -> is_Some (m !! y) /\ br_round x < br_round y;
  lk_child_gced : forall x y, child x y -> gced x = true -> gced y = true;
  lk_gced : forall x st, reached x -> m !! x = Some st ->
    gced_transaction_votes_for_pending_block gc_rounds (br_round pending_block_ref) pending_commit_index
      (bs_commit_index st) = Ok (gced x);
  lk_origin : forall y x, origin y x -> br_round x < br_round y;
  lk_origin_gced : forall y x, origin y x -> gced x = true -> gced y = true;
  lk_origin_trans : forall x y z, origin z y -> origin y x -> origin z x;
}.

Context (Hc : committee_wf c) (L : linked).

Lemma reached_known x : reached x -> is_Some (m !! x).
Proof. intros [? ?|? ? _ Hxy]; [by apply (lk_root L)|by apply (lk_child L) in Hxy as [? _]]. Qed.

(** The votes counted after the blocks of [V]. *)
Definition casts (V : gset BlockRef) (x : BlockRef) (t a : N) : Prop :=
  x ∈ V /\ br_author x = a /\ gced x = false /\ ~ rejecting x t /\ ~ (exists v, v ∈ V /\ origin x v).

Context (pending : gset N).

Record visiting (tr : Traversal) : Prop := {
  vi_reached : forall x, x ∈ tr_to_visit tr ∪ tr_visited tr -> reached x;
  vi_fresh : tr_to_visit tr ## tr_visited tr;
  vi_root : root ⊆ tr_to_visit tr ∪ tr_visited tr;
  vi_closed : forall x y, x ∈ tr_visited tr -> gced x = false -> child x y -> y ∈ tr_to_visit tr ∪ tr_visited tr;
  vi_order : forall v w, v ∈ tr_visited tr -> w ∈ tr_to_visit tr -> br_round v <= br_round w;
  vi_ignored : forall x, x ∈ tr_ignored tr <-> x ∈ tr_visited tr \/ exists v, v ∈ tr_visited tr /\ origin x v;
  vi_pending : forall t agg, tr_accept_votes tr !! t = Some agg ->
    t ∈ pending /\ agg_wf c agg /\ stake_of c (votes agg) < c_quorum_threshold c
    /\ (forall a, a ∈ votes agg <-> exists x, casts (tr_visited tr) x t a);
  vi_done : forall t, t ∈ pending -> tr_accept_votes tr !! t = None -> t ∈ tr_finalized tr;
  vi_final : forall t, t ∈ tr_finalized tr -> t ∈ pending
    /\ exists A, c_quorum_threshold c <= stake_of c A /\ forall a, a ∈ A -> exists x, casts (tr_visited tr) x t a;
}.

(** A block with all its votes has been visited, or one no higher is next. *)
Lemma frontier tr x :
  visiting tr -> reached x -> gced x = false ->
  x ∈ tr_visited tr \/ exists w, w ∈ tr_to_visit tr /\ br_round w <= br_round x.
Proof.
  intros I. induction 1 as [x Hx|x y Hx IH Hxy]; intros Hg.
  - pose proof (vi_root _ I x Hx) as [?|?]%elem_of_union; [right; by exists x|by left].
  - destruct (lk_child L x y Hxy) as [_ Hr].
    assert (gced x = false) as Hgx by (destruct (gced x) eqn:E; [|done]; by rewrite (lk_child_gced L x y Hxy E) in Hg).
    destruct (IH Hgx) as [Hv|(w & Hw & Hle)].
    + pose proof (vi_closed _ I x y Hv Hgx Hxy) as [?|?]%elem_of_union; [right; by exists y|by left].
    + right. exists w. split; [done|lia].
Qed.

Lemma casts_accepts tr x t a : visiting tr -> casts (tr_visited tr) x t a -> accepts t a.
Proof.
  intros I (Hx & Ha & Hg & Hr & Hb). exists x. split_and!; try done.
  - apply (vi_reached _ I). set_solver.
  - intros (v & Hv & Ho). assert (gced v = false) as Hgv
      by (destruct (gced v) eqn:E; [|done]; by rewrite (lk_origin_gced L x v Ho E) in Hg).
    destruct (frontier tr v I Hv Hgv) as [Hvis|(w & Hw & Hle)]; [apply Hb; by exists v|].
    pose proof (vi_order _ I x w Hx Hw). pose proof (lk_origin L _ _ Ho). lia.
Qed.

Lemma accepts_casts tr t a :
  visiting tr -> tr_to_visit tr = ∅ -> accepts t a -> exists x, casts (tr_visited tr) x t a.
Proof.
  intros I HW (x & Hx & Ha & Hg & Hr & Hb). exists x.
  split_and!; try done.
  - destruct (frontier tr x I Hx Hg) as [?|(w & Hw & _)]; [done|]. rewrite HW in Hw. set_solver.
  - intros (v & Hv & Ho). apply Hb. exists v. split; [|done]. apply (vi_reached _ I). set_solver.
Qed.

(** The answer when nothing is left to visit, or nothing is pending. *)
Lemma visits_end tr :
  visiting tr -> tr_to_visit tr = ∅ \/ tr_accept_votes tr = ∅ ->
  forall t, t ∈ tr_finalized tr <-> t ∈ pending /\ accepted_by_quorum t.
Proof.
  intros I Hend t. split.
  - intros Ht. destruct (vi_final _ I t Ht) as (Hp & A & Hq & HA). split; [done|]. exists A. split; [done|].
    intros a Ha. destruct (HA a Ha) as [x Hx]. by apply (casts_accepts tr x).
  - intros (Hp & A & Hq & HA). destruct (tr_accept_votes tr !! t) as [agg|] eqn:E; [|by apply (vi_done _ I)].
    destruct Hend as [HW|Hempty]; [|by rewrite Hempty, lookup_empty in E].
    destruct (vi_pending _ I t agg E) as (_ & _ & Hlt & Hvotes).
    assert (A ⊆ votes agg) as Hsub.
    { intros a Ha. apply Hvotes, accepts_casts; auto. }
    pose proof (stake_of_mono c _ _ Hsub). lia.
Qed.

Lemma casts_visit tr x y t a :
  visiting tr -> x ∈ tr_to_visit tr -> (forall w, w ∈ tr_to_visit tr -> br_round x <= br_round w) ->
  casts ({[x]} ∪ tr_visited tr) y t a
  <-> casts (tr_visited tr) y t a
      \/ (y = x /\ br_author x = a /\ gced x = false /\ ~ rejecting x t /\ x ∉ tr_ignored tr).
Proof.
  intros I Hx Hmin. assert (x ∉ tr_visited tr) as Hn by (pose proof (vi_fresh _ I); set_solver).
  assert (forall v, v ∈ {[x]} ∪ tr_visited tr -> ~ origin v x) as Hno.
  { intros v Hv Ho. apply (lk_origin L) in Ho. apply elem_of_union in Hv as [->%elem_of_singleton|Hv]; [lia|].
    pose proof (vi_order _ I v x Hv Hx). lia. }
  assert (forall z, z ∈ {[x]} ∪ tr_visited tr ->
    (exists v, v ∈ {[x]} ∪ tr_visited tr /\ origin z v) <-> (exists v, v ∈ tr_visited tr /\ origin z v)) as Hb.
  { intros z Hz. split; intros (v & Hv & Ho); exists v; [|set_solver].
    apply elem_of_union in Hv as [->%elem_of_singleton|Hv]; [by apply Hno in Ho|done]. }
  unfold casts. rewrite (vi_ignored _ I). split.
  - intros (Hy & Ha & Hg & Hr & Hnb). rewrite (Hb y Hy) in Hnb.
    apply elem_of_union in Hy as [->%elem_of_singleton|Hy]; [right|by left]. split_and!; try done. by intros [?|?].
  - intros [(Hy & Ha & Hg & Hr & Hnb)|(-> & Ha & Hg & Hr & Hnb)].
    + assert (y ∈ {[x]} ∪ tr_visited tr) as Hy' by set_solver. rewrite (Hb y Hy'). done.
    + assert (x ∈ {[x]} ∪ tr_visited tr) as Hx' by set_solver. rewrite (Hb x Hx'). split_and!; try done.
      intros ?. apply Hnb. by right.
Qed.

Lemma popped_visit tr x :
  visiting tr -> btree_first (tr_to_visit tr) = Some x ->
  x ∈ tr_to_visit tr /\ x ∉ tr_visited tr /\ reached x
  /\ (forall w, w ∈ tr_to_visit tr -> br_round x <= br_round w).
Proof.
  intros I Hx. apply btree_first_spec in Hx as [Hx Hmin]. split_and!; [done| | |].
  - pose proof (vi_fresh _ I). set_solver.
  - apply (vi_reached _ I). set_solver.
  - intros w Hw. by apply block_ref_leb_round, Hmin.
Qed.

(** What a visit does to the variables other than the counts; the children are
    added unless the votes were dropped. *)
Definition visited_next (tr : Traversal) (x : BlockRef) (st : BlockState) (accept_votes : accept_map)
    (finalized : list N) (stop : bool) : Traversal :=
  let visited := {[x]} ∪ tr_visited tr in
  let left := tr_to_visit tr ∖ {[x]} in
  mkTraversal (if stop then left else left ∪ (bs_children st ∖ visited)) visited
    (if bool_decide (x ∈ tr_ignored tr) then tr_ignored tr
     else list_to_set (bs_origin_descendants st) ∪ ({[x]} ∪ tr_ignored tr))
    accept_votes finalized.

Lemma visit_keeps tr x st acc fin stop :
  visiting tr -> btree_first (tr_to_visit tr) = Some x -> m !! x = Some st ->
  (stop = true -> gced x = true) ->
  (forall t agg, acc !! t = Some agg ->
    t ∈ pending /\ agg_wf c agg /\ stake_of c (votes agg) < c_quorum_threshold c
    /\ (forall a, a ∈ votes agg <-> exists y, casts ({[x]} ∪ tr_visited tr) y t a)) ->
  (forall t, t ∈ pending -> acc !! t = None -> t ∈ fin) ->
  (forall t, t ∈ fin -> t ∈ pending
    /\ exists A, c_quorum_threshold c <= stake_of c A
       /\ forall a, a ∈ A -> exists y, casts ({[x]} ∪ tr_visited tr) y t a) ->
  visiting (visited_next tr x st acc fin stop).
Proof.
  intros I Hpop Hst Hstop Hacc Hdone Hfin. destruct (popped_visit tr x I Hpop) as (Hx & Hn & Hr & Hmin).
  assert (forall y, y ∈ bs_children st -> child x y) as Hch by (intros y Hy; by exists st).
  constructor; cbn [visited_next tr_to_visit tr_visited tr_ignored tr_accept_votes tr_finalized]; try done.
  - intros y Hy. destruct (decide (y ∈ bs_children st)) as [Hc'|Hc'].
    + apply (reached_child x); auto.
    + destruct (decide (y = x)) as [->|Hne]; [done|]. apply (vi_reached _ I). destruct stop; set_solver.
  - pose proof (vi_fresh _ I). destruct stop; set_solver.
  - pose proof (vi_root _ I). intros y Hy. destruct (decide (y = x)); destruct stop; set_solver.
  - intros v y Hv Hg Hvy. destruct (decide (y ∈ {[x]} ∪ tr_visited tr)) as [|Hny]; [set_solver|].
    apply elem_of_union in Hv as [->%elem_of_singleton|Hv].
    + destruct stop; [rewrite Hstop in Hg; done|]. destruct Hvy as (st' & Hst' & Hy). set_solver.
    + pose proof (vi_closed _ I v y Hv Hg Hvy). destruct stop; set_solver.
  - intros v w Hv Hw. assert (br_round x <= br_round w) as Hxw.
    { destruct (decide (w ∈ tr_to_visit tr)) as [Hw'|Hw']; [by apply Hmin|].
      assert (w ∈ bs_children st) as Hcw by (destruct stop; set_solver).
      destruct (lk_child L x w (Hch w Hcw)). lia. }
    apply elem_of_union in Hv as [->%elem_of_singleton|Hv]; [done|]. pose proof (vi_order _ I v x Hv Hx). lia.
  - intros y. case_bool_decide as Hig.
    + rewrite (vi_ignored _ I). split.
      * intros [?|(v & ? & ?)]; [left; set_solver|right; exists v; set_solver].
      * apply (vi_ignored _ I) in Hig as [?|(v0 & Hv0 & Ho0)]; [done|].
        intros [[->%elem_of_singleton|?]%elem_of_union|(v & [->%elem_of_singleton|?]%elem_of_union & Ho)].
        -- right. by exists v0.
        -- by left.
        -- right. exists v0. split; [done|]. by apply (lk_origin_trans L v0 x y).
        -- right. by exists v.
    + rewrite !elem_of_union, elem_of_list_to_set, elem_of_singleton, (vi_ignored _ I). split.
      * intros [Ho|[->|[?|(v & ? & ?)]]]; [|by left; left|by left; right|right; exists v; set_solver].
        right. exists x. split; [set_solver|]. by exists st.
      * intros [[->|?]|(v & [->%elem_of_singleton|?]%elem_of_union & Ho)]; [tauto|tauto| |].
        -- destruct Ho as (st' & ? & ?). simplify_eq. by left.
        -- do 3 right. by exists v.
Qed.

(** The counts stay right at a block that casts no vote. *)
Lemma no_vote tr x :
  visiting tr -> btree_first (tr_to_visit tr) = Some x -> x ∈ tr_ignored tr \/ gced x = true ->
  (forall t agg, tr_accept_votes tr !! t = Some agg ->
    t ∈ pending /\ agg_wf c agg /\ stake_of c (votes agg) < c_quorum_threshold c
    /\ (forall a, a ∈ votes agg <-> exists y, casts ({[x]} ∪ tr_visited tr) y t a))
  /\ (forall t, t ∈ tr_finalized tr -> t ∈ pending
    /\ exists A, c_quorum_threshold c <= stake_of c A
       /\ forall a, a ∈ A -> exists y, casts ({[x]} ∪ tr_visited tr) y t a).
Proof.
  intros I Hpop Hno. destruct (popped_visit tr x I Hpop) as (Hx & _ & _ & Hmin).
  assert (forall y t a, casts ({[x]} ∪ tr_visited tr) y t a <-> casts (tr_visited tr) y t a) as Hsame.
  { intros y t a. rewrite (casts_visit tr x y t a I Hx Hmin). split; [|by left]. intros [?|(_ & _ & Hg & _ & Hi)]; [done|].
    destruct Hno as [?|Hg']; [done|]. congruence. }
  split.
  - intros t agg Ht. setoid_rewrite Hsame. by apply (vi_pending _ I).
  - intros t Ht. setoid_rewrite Hsame. by apply (vi_final _ I).
Qed.

Lemma vote_visit tr x st :
  visiting tr -> btree_first (tr_to_visit tr) = Some x -> m !! x = Some st ->
  x ∉ tr_ignored tr -> gced x = false ->
  exists acc new, count_accepts c (br_author x) (default ∅ (bs_reject_votes st !! pending_block_ref))
                    (tr_accept_votes tr) = Ok (acc, new)
    /\ visiting (visited_next tr x st acc (tr_finalized tr ++ new) false).
Proof.
  intros I Hpop Hst Hi Hg. destruct (popped_visit tr x I Hpop) as (Hx & _ & _ & Hmin).
  set (rej := default ∅ _). assert (forall t, rejecting x t <-> t ∈ rej) as Hrej.
  { intros t. unfold rejecting. rewrite Hst. split; [by intros (? & [= <-] & ?)|]. intros ?. by exists st. }
  assert (forall t a, (exists y, casts ({[x]} ∪ tr_visited tr) y t a)
            <-> (exists y, casts (tr_visited tr) y t a) \/ (br_author x = a /\ t ∉ rej)) as Hcasts.
  { intros t a. setoid_rewrite (casts_visit tr x _ t a I Hx Hmin). rewrite <- Hrej. split.
    - intros (y & [?|(-> & ? & _ & ? & _)]); [left; by exists y|by right].
    - intros [(y & ?)|(? & ?)]; [exists y; by left|]. exists x. right. done. }
  destruct (count_accepts_Ok c Hc (br_author x) rej (tr_accept_votes tr)) as (acc & new & E & Hnone & Hsome).
  { by apply (lk_valid L x st). }
  { intros t agg Ht. by apply (vi_pending _ I t agg). }
  exists acc, new. split; [done|]. apply visit_keeps; try done.
  - intros t agg' Ht. destruct (tr_accept_votes tr !! t) as [agg|] eqn:E0; [|destruct (Hnone t E0); congruence].
    destruct (vi_pending _ I t agg E0) as (Hp & Hwf & Hlt & Hv). setoid_rewrite Hcasts. setoid_rewrite <- Hv.
    destruct (Hsome t agg E0) as [(? & ? & ?)|(Hnr & agg1 & [Hwf1 Hv1] & Hif)].
    + simplify_eq. split_and!; try done. intros a. tauto.
    + destruct (N.leb_spec (c_quorum_threshold c) (stake_of c (votes agg1))); destruct Hif as [Hif _]; [congruence|].
      simplify_eq. split_and!; try done. intros a. rewrite Hv1, elem_of_union, elem_of_singleton. naive_solver.
  - intros t Hp Ht. apply elem_of_app. destruct (tr_accept_votes tr !! t) as [agg|] eqn:E0; [|left; by apply (vi_done _ I)].
    right. destruct (Hsome t agg E0) as [(? & ? & ?)|(Hnr & agg1 & _ & Hif)]; [congruence|].
    destruct (_ <=? _); destruct Hif; [done|congruence].
  - intros t [Ht|Ht]%elem_of_app.
    + destruct (vi_final _ I t Ht) as (Hp & A & Hq & HA). split; [done|]. exists A. split; [done|].
      intros a Ha. apply Hcasts. left. by apply HA.
    + destruct (tr_accept_votes tr !! t) as [agg|] eqn:E0; [|by destruct (Hnone t E0)].
      destruct (vi_pending _ I t agg E0) as (Hp & Hwf & Hlt & Hv).
      destruct (Hsome t agg E0) as [(? & ? & ?)|(Hnr & agg1 & [Hwf1 Hv1] & Hif)]; [done|].
      destruct (N.leb_spec (c_quorum_threshold c) (stake_of c (votes agg1))); [|by destruct Hif].
      split; [done|]. exists (votes agg1). split; [done|]. intros a. rewrite Hv1, elem_of_union, elem_of_singleton, Hcasts, Hv.
      naive_solver.
Qed.

(** A turn of the loop visits the next block, and goes on or is done. *)
Lemma traverse_step fuel tr x :
  visiting tr -> btree_first (tr_to_visit tr) = Some x ->
  exists tr', visiting tr' /\ tr_visited tr' = {[x]} ∪ tr_visited tr
    /\ (traverse context m gc_rounds pending_block_ref pending_commit_index (S fuel) tr
          = traverse context m gc_rounds pending_block_ref pending_commit_index fuel tr'
        \/ tr_accept_votes tr' = ∅
           /\ traverse context m gc_rounds pending_block_ref pending_commit_index (S fuel) tr = Ok (tr_finalized tr')).
Proof.
  intros I Hpop. destruct (popped_visit tr x I Hpop) as (Hx & Hn & Hr & Hmin).
  destruct (reached_known x Hr) as [st Hst]. cbn [traverse]. rewrite Hpop, bool_decide_eq_false_2 by done.
  rewrite Hst. cbn [unwrap mbind outcome_bind]. rewrite (lk_gced L x st Hr Hst). cbn [mbind outcome_bind].
  unfold visit_votes. cbn [tr_ignored tr_to_visit tr_visited tr_accept_votes tr_finalized].
  pose proof (visit_keeps tr x st) as Hkeep. unfold visited_next in Hkeep.
  destruct (decide (x ∈ tr_ignored tr)) as [Hi|Hi].
  - rewrite bool_decide_eq_true_2 in * by done. cbn [mbind outcome_bind negb andb tr_to_visit tr_visited tr_ignored tr_accept_votes tr_finalized].
    destruct (no_vote tr x I Hpop (or_introl Hi)) as [Ha Hfin].
    eexists. split; [|split; [|left; reflexivity]]; [|done].
    apply (Hkeep _ _ false); try done. apply (vi_done _ I).
  - rewrite !(bool_decide_eq_false_2 (x ∈ tr_ignored tr)) in * by done. cbn [negb andb]. destruct (gced x) eqn:Hg.
    + destruct (committee_authority_Ok c _ (lk_pending L)) as [au ->]. cbn [mbind outcome_bind].
      destruct (no_vote tr x I Hpop (or_intror Hg)) as [Ha Hfin].
      eexists. split; [|split; [|left; reflexivity]]; [|done].
      apply (Hkeep _ _ true); try done. apply (vi_done _ I).
    + destruct (vote_visit tr x st I Hpop Hst Hi Hg) as (acc & new & -> & Hv).
      cbn [mbind outcome_bind andb tr_to_visit tr_visited tr_ignored tr_accept_votes tr_finalized].
      unfold visited_next in Hv. rewrite bool_decide_eq_false_2 in Hv by done.
      eexists. split; [exact Hv|]. split; [done|]. case_bool_decide; [right|left]; done.
Qed.

Lemma traverse_Ok fuel tr :
  visiting tr -> (size (dom m) < fuel + size (tr_visited tr))%nat ->
  exists finalized, traverse context m gc_rounds pending_block_ref pending_commit_index fuel tr = Ok finalized
    /\ forall t, t ∈ finalized <-> t ∈ pending /\ accepted_by_quorum t.
Proof.
  revert tr. induction fuel as [|fuel IH]; intros tr I Hf.
  { assert (tr_visited tr ⊆ dom m) as Hsub%subseteq_size; [|lia]. intros x Hx. apply elem_of_dom, reached_known.
    apply (vi_reached _ I). set_solver. }
  destruct (btree_first (tr_to_visit tr)) as [x|] eqn:Hpop.
  - destruct (popped_visit tr x I Hpop) as (Hx & Hn & _).
    destruct (traverse_step fuel tr x I Hpop) as (tr' & I' & Hv & [->|[He ->]]).
    + apply IH; [done|]. rewrite Hv, size_union, size_singleton by set_solver. lia.
    + exists (tr_finalized tr'). split; [done|]. apply visits_end; [done|by right].
  - cbn [traverse]. rewrite Hpop. exists (tr_finalized tr). split; [done|]. apply visits_end; [done|left].
    unfold btree_first in Hpop. apply head_None in Hpop. apply set_eq. intros x. rewrite <- elem_of_btree_iter, Hpop. set_solver.
Qed.

Lemma visiting_start :
  visiting (mkTraversal root ∅ ∅ (gset_to_gmap stake_aggregator_new pending) []).
Proof.
  constructor; cbn [tr_to_visit tr_visited tr_ignored tr_accept_votes tr_finalized].
  - intros x Hx. apply reached_root. set_solver.
  - set_solver.
  - set_solver.
  - set_solver.
  - set_solver.
  - intros x. split; [set_solver|]. intros [?|(v & ? & _)]; set_solver.
  - intros t agg [Ht <-]%lookup_gset_to_gmap_Some. split_and!; [done|by apply agg_new_wf| |].
    + simpl. rewrite stake_of_empty. by apply quorum_positive.
    + intros a. simpl. split; [set_solver|]. intros (x & Hx & _). set_solver.
  - intros t Ht. rewrite lookup_gset_to_gmap_None. done.
  - intros t Ht. inversion Ht.
Qed.
End visits.

(** The transactions of a block that the traversal finalizes are those that a
    quorum accepts. *)
Lemma indirect_finalize_block_Ok context m gc_rounds r st gced pending :
  committee_wf (committee context) -> m !! r = Some st ->
  linked context m gc_rounds r (bs_commit_index st) (bs_children st) gced ->
  exists finalized,
    try_indirect_finalize_pending_transactions_in_block context m gc_rounds r pending = Ok finalized
    /\ forall t, t ∈ finalized <-> t ∈ pending /\ accepted_by_quorum context m r (bs_children st) gced t.
Proof.
  intros Hc Hst L. unfold try_indirect_finalize_pending_transactions_in_block. case_bool_decide as He.
  { exists []. split; [done|]. intros t. subst. split; [by intros ?%elem_of_nil|set_solver]. }
  rewrite Hst. cbn [unwrap mbind outcome_bind].
  apply (traverse_Ok context m gc_rounds r (bs_commit_index st) (bs_children st) gced Hc L pending).
  - eapply visiting_start; done.
  - cbn [tr_visited]. rewrite size_dom, size_empty. lia.
Qed.
