(* ===== verification/FinalizerLinks.v ===== *)
(** * Streams of commits and the links between their blocks

    What the commit finalizer relies on of the commits it receives, and its
    map of blocks as a function of the buffered ones. *)

From S2P Require Import Prelude Committee Context Block StakeAggregator ThresholdClock Commit Error Store LeaderScoring DagState VoteTracker DagInv CommitObserver CommitFinalizer FinalizerVotes.

(* ------------------------------------------------------------------ *)
(** ** Streams *)

Definition sub_index (sd : CommittedSubDag) : N := cr_index (sd_commit_ref sd).
Definition sub_round (sd : CommittedSubDag) : N := br_round (sd_leader sd).
Definition pool (sds : list CommittedSubDag) : list VerifiedBlock := sds ≫= sd_blocks.

(** Commits with consecutive indices and increasing leader rounds, each with
    blocks of its own, none of which is an ancestor of a block of an earlier
    commit. *)
Record stream_ok (c : Committee) (sds : list CommittedSubDag) : Prop := {
  so_blocks : forall sd, sd ∈ sds -> sd_blocks sd <> [];
  so_wf : forall b, b ∈ pool sds -> wf_block c b;
  so_fits : forall b, b ∈ pool sds -> N.of_nat (length (transactions b)) <= u16_MAX;
  so_refs : NoDup (reference <$> pool sds);
  so_index : forall i j sd sd', sds !! i = Some sd -> sds !! (i + j)%nat = Some sd' -> sub_index sd' = sub_index sd + N.of_nat j;
  so_rounds : StronglySorted (fun sd sd' => sub_round sd < sub_round sd') sds;
  so_bounds : forall sd, sd ∈ sds -> 0 < sub_index sd <= u32_MAX /\ sub_round sd + 3 <= u32_MAX;
  so_causal : forall l1 l2 x y, sds = l1 ++ l2 -> x ∈ pool l2 -> y ∈ pool l1 -> reference x ∉ ancestors y;
}.

Lemma pool_app l1 l2 : pool (l1 ++ l2) = pool l1 ++ pool l2.
Proof. apply bind_app. Qed.

Lemma elem_of_pool b sds : b ∈ pool sds <-> exists sd, sd ∈ sds /\ b ∈ sd_blocks sd.
Proof. unfold pool. rewrite list_elem_of_bind. naive_solver. Qed.

Lemma stream_suffix c l1 l2 : stream_ok c (l1 ++ l2) -> stream_ok c l2.
Proof.
  intros W. constructor.
  - intros sd Hsd. apply (so_blocks _ _ W). set_solver.
  - intros b Hb. apply (so_wf _ _ W). rewrite pool_app. set_solver.
  - intros b Hb. apply (so_fits _ _ W). rewrite pool_app. set_solver.
  - pose proof (so_refs _ _ W) as H. rewrite pool_app, fmap_app in H. by apply NoDup_app in H as (_ & _ & ?).
  - intros i j sd sd' Hi Hj. apply (so_index _ _ W (length l1 + i)).
    + rewrite lookup_app_r by lia. by replace (length l1 + i - length l1)%nat with i by lia.
    + rewrite lookup_app_r by lia. by replace (length l1 + i + j - length l1)%nat with (i + j)%nat by lia.
  - pose proof (so_rounds _ _ W) as H. by apply StronglySorted_app_1_r in H.
  - intros sd Hsd. apply (so_bounds _ _ W). set_solver.
  - intros k1 k2 x y -> Hx Hy. apply (so_causal _ _ W (l1 ++ k1) k2); [by rewrite app_assoc|done|].
    rewrite pool_app. set_solver.
Qed.

Lemma stream_prefix c l1 l2 : stream_ok c (l1 ++ l2) -> stream_ok c l1.
Proof.
  intros W. constructor.
  - intros sd Hsd. apply (so_blocks _ _ W). set_solver.
  - intros b Hb. apply (so_wf _ _ W). rewrite pool_app. set_solver.
  - intros b Hb. apply (so_fits _ _ W). rewrite pool_app. set_solver.
  - pose proof (so_refs _ _ W) as H. rewrite pool_app, fmap_app in H. by apply NoDup_app in H as (? & _ & _).
  - intros i j sd sd' Hi Hj. apply (so_index _ _ W i); by apply lookup_app_l_Some.
  - pose proof (so_rounds _ _ W) as H. by apply StronglySorted_app_1_l in H.
  - intros sd Hsd. apply (so_bounds _ _ W). set_solver.
  - intros k1 k2 x y -> Hx Hy. apply (so_causal _ _ W k1 (k2 ++ l2)); [by rewrite app_assoc| |done].
    rewrite pool_app. set_solver.
Qed.

Lemma pool_inj c sds x y : stream_ok c sds -> x ∈ pool sds -> y ∈ pool sds -> reference x = reference y -> x = y.
Proof. intros W. apply (NoDup_fmap_elem_inj reference _ x y (so_refs _ _ W)). Qed.

Lemma pool_anc_round c sds b r : stream_ok c sds -> b ∈ pool sds -> r ∈ ancestors b -> br_round r < round b.
Proof. intros W Hb Hr. by destruct (wb_anc _ _ (so_wf _ _ W b Hb) r Hr). Qed.

(** Every block has ancestors. *)
Lemma pool_head c sds b :
  committee_wf c -> stream_ok c sds -> b ∈ pool sds -> exists r, head (ancestors b) = Some r /\ r ∈ ancestors b.
Proof.
  intros Hc W Hb. pose proof (wb_quorum _ _ (so_wf _ _ W b Hb)) as Hq. pose proof (quorum_positive c Hc) as Hp.
  unfold parent_authors, parents in Hq. destruct (ancestors b) as [|r l]; [|exists r; split; [done|by left]].
  simpl in Hq. rewrite stake_of_empty in Hq. lia.
Qed.

(* ------------------------------------------------------------------ *)
(** ** Descent *)

(** [y] is above [x] in a chain of blocks of one authority, each the first
    ancestor of the next. *)
Inductive origin_desc (P : list VerifiedBlock) : VerifiedBlock -> VerifiedBlock -> Prop :=
| od_one y x : x ∈ P -> head (ancestors y) = Some (reference x) -> author x = author y -> origin_desc P y x
| od_more y z x : z ∈ P -> head (ancestors y) = Some (reference z) -> author z = author y ->
    origin_desc P z x -> origin_desc P y x.

(** [y] has the block [r] in its history, through blocks of [P]. *)
Inductive descends (P : list VerifiedBlock) (r : BlockRef) : VerifiedBlock -> Prop :=
| de_child y : y ∈ P -> r ∈ ancestors y -> descends P r y
| de_step x y : descends P r x -> y ∈ P -> reference x ∈ ancestors y -> descends P r y.

Lemma descends_pool P r y : descends P r y -> y ∈ P.
Proof. by destruct 1. Qed.

Lemma origin_desc_in P y x : origin_desc P y x -> x ∈ P.
Proof. by induction 1. Qed.

Lemma origin_desc_trans P z y x : origin_desc P z y -> origin_desc P y x -> origin_desc P z x.
Proof. induction 1; intros Hx; [by eapply od_more|eapply od_more; eauto]. Qed.

Section streams.
Context (c : Committee) (Hc : committee_wf c).

Lemma origin_desc_round sds y x :
  stream_ok c sds -> y ∈ pool sds -> origin_desc (pool sds) y x -> round x < round y.
Proof.
  intros W Hy. induction 1 as [y x Hx Hh _|y z x Hz Hh _ _ IH].
  - apply head_Some_elem_of in Hh. apply (pool_anc_round c sds y _ W Hy) in Hh. done.
  - apply head_Some_elem_of in Hh. apply (pool_anc_round c sds y _ W Hy) in Hh. specialize (IH Hz). simpl in Hh. lia.
Qed.

(** A chain does not leave the commits from that of its lower end on. *)
Lemma origin_desc_suffix l1 l2 y x :
  stream_ok c (l1 ++ l2) -> y ∈ pool (l1 ++ l2) -> x ∈ pool l2 -> origin_desc (pool (l1 ++ l2)) y x ->
  y ∈ pool l2 /\ origin_desc (pool l2) y x.
Proof.
  intros W Hy Hx Ho.
  assert (forall b, b ∈ pool l2 -> forall z, z ∈ pool (l1 ++ l2) -> reference b ∈ ancestors z -> z ∈ pool l2) as Hup.
  { intros b Hb z Hz Hin. rewrite pool_app, elem_of_app in Hz. destruct Hz as [Hz|Hz]; [|done].
    by apply (so_causal _ _ W l1 l2 b z) in Hin. }
  induction Ho as [y x _ Hh Ha|y z x Hz Hh Ha _ IH].
  - split; [|by apply od_one]. apply (Hup x); [done..|]. by apply head_Some_elem_of.
  - destruct (IH Hz Hx) as [Hz2 Ho2]. split; [|by apply (od_more _ y z)].
    apply (Hup z); [done..|]. by apply head_Some_elem_of.
Qed.

Lemma origin_desc_prefix l1 l2 y x :
  stream_ok c (l1 ++ l2) -> y ∈ pool l1 -> origin_desc (pool (l1 ++ l2)) y x -> origin_desc (pool l1) y x.
Proof.
  intros W Hy Ho.
  assert (forall z b, z ∈ pool l1 -> b ∈ pool (l1 ++ l2) -> reference b ∈ ancestors z -> b ∈ pool l1) as Hdown.
  { intros z b Hz Hb Hin. rewrite pool_app, elem_of_app in Hb. destruct Hb as [Hb|Hb]; [done|].
    by apply (so_causal _ _ W l1 l2 b z) in Hin. }
  induction Ho as [y x Hx Hh Ha|y z x Hz Hh Ha _ IH].
  - apply od_one; [|done..]. apply (Hdown y); [done..|]. by apply head_Some_elem_of.
  - assert (z ∈ pool l1) as Hz1 by (apply (Hdown y); [done..|]; by apply head_Some_elem_of).
    apply (od_more _ y z); auto.
Qed.

Lemma origin_desc_mono P P' y x : P ⊆ P' -> origin_desc P y x -> origin_desc P' y x.
Proof. intros Hs. induction 1; [apply od_one; auto|eapply od_more; eauto]. Qed.

Lemma descends_mono P P' r y : P ⊆ P' -> descends P r y -> descends P' r y.
Proof. intros Hs. induction 1; [apply de_child; auto|eapply de_step; eauto]. Qed.
End streams.

(* ------------------------------------------------------------------ *)
(** ** The map of blocks *)

(** The reject votes of a block as the finalizer keeps them. *)
Definition reject_map (b : VerifiedBlock) : gmap BlockRef (gset N) := bs_reject_votes (block_state_new b 0).

Definition entry_of (sds : list CommittedSubDag) (r : BlockRef) (st : BlockState) : Prop :=
  reference (bs_block st) = r /\ bs_reject_votes st = reject_map (bs_block st)
  /\ exists sd, sd ∈ sds /\ bs_block st ∈ sd_blocks sd /\ bs_commit_index st = sub_index sd.

(** The map while the last commit of [sds] is linked: the blocks of [P] are in
    it and linked to their ancestors, those of [O] to their origins. *)
Record links (sds : list CommittedSubDag) (P O : list VerifiedBlock) (m : gmap BlockRef BlockState) : Prop := {
  li_entry : forall r st, m !! r = Some st -> entry_of sds r st /\ bs_block st ∈ P;
  li_dom : forall b, b ∈ P -> is_Some (m !! reference b);
  li_children : forall r st x, m !! r = Some st ->
    x ∈ bs_children st <-> exists y, y ∈ P /\ reference y = x /\ r ∈ ancestors y;
  li_origin : forall r st x, m !! r = Some st ->
    x ∈ bs_origin_descendants st <-> exists y, y ∈ O /\ reference y = x /\ origin_desc (pool sds) y (bs_block st);
}.

Definition links_ok (sds : list CommittedSubDag) (m : gmap BlockRef BlockState) : Prop :=
  links sds (pool sds) (pool sds) m.

Lemma links_equiv sds P O P' O' m :
  (forall b, b ∈ P <-> b ∈ P') -> (forall b, b ∈ O <-> b ∈ O') -> links sds P O m -> links sds P' O' m.
Proof.
  intros HP HO W. constructor.
  - intros r st Hr. rewrite <- HP. by apply (li_entry _ _ _ _ W).
  - intros b. rewrite <- HP. apply (li_dom _ _ _ _ W).
  - intros r st x Hr. setoid_rewrite <- HP. exact (li_children _ _ _ _ W r st x Hr).
  - intros r st x Hr. setoid_rewrite <- HO. exact (li_origin _ _ _ _ W r st x Hr).
Qed.

Lemma links_nil : links_ok [] ∅.
Proof.
  constructor.
  - intros r st. by rewrite lookup_empty.
  - intros b Hb. inversion Hb.
  - intros r st x. by rewrite lookup_empty.
  - intros r st x. by rewrite lookup_empty.
Qed.

Lemma elem_of_by_round b l : b ∈ by_round l <-> b ∈ l.
Proof. apply elem_of_stable_sort. Qed.

Lemma by_round_sorted l : StronglySorted (fun a b => round a <= round b) (by_round l).
Proof.
  pose proof (stable_sort_sorted (fun a b : VerifiedBlock => round a <=? round b)) as H.
  specialize (H ltac:(intros x y; rewrite !N.leb_le; lia) ltac:(intros x y z; rewrite !N.leb_le; lia) l).
  eapply StronglySorted_weaken; [|exact H]. intros x y. apply N.leb_le.
Qed.

Lemma links_unchanged sds P O m b :
  links sds P O m -> b ∉ P -> (forall y, y ∈ P -> reference y <> reference b) -> m !! reference b = None.
Proof.
  intros W Hb Hne. destruct (m !! reference b) as [st|] eqn:E; [|done].
  destruct (li_entry _ _ _ _ W _ _ E) as [(Hr & _) Hin]. by apply Hne in Hin.
Qed.

Lemma add_children_lookup (m : gmap BlockRef BlockState) (child : BlockRef) (l : list BlockRef) r :
  foldl (fun m ancestor => alter (add_child child) ancestor m) m l !! r
  = (fun st => mkBlockState (bs_block st) ((if decide (r ∈ l) then {[child]} else ∅) ∪ bs_children st) (bs_reject_votes st)
                 (bs_origin_descendants st) (bs_commit_index st)) <$> m !! r.
Proof.
  revert m. induction l as [|a l IH]; intros m; cbn [foldl].
  - rewrite decide_False by apply not_elem_of_nil. destruct (m !! r) as [[]|]; simpl; [|done]. by rewrite (left_id_L ∅ (∪)).
  - rewrite IH. destruct (decide (a = r)) as [->|Hne].
    + rewrite lookup_alter_eq, (decide_True (P := r ∈ r :: l)) by by left. destruct (m !! r) as [st|]; [|done].
      cbn [fmap option_fmap option_map add_child bs_block bs_children bs_reject_votes bs_origin_descendants bs_commit_index].
      do 2 f_equal. case_decide; set_solver.
    + rewrite lookup_alter_ne by done.
      rewrite (decide_ext (r ∈ a :: l) (r ∈ l)); [done|]. rewrite elem_of_cons. naive_solver.
Qed.

Section linking.
Context (c : Committee) (Hc : committee_wf c).

(** A block of the last commit is added. *)
Lemma link_block_Ok sds sd P O m b :
  links sds P O m -> sd ∈ sds -> b ∈ sd_blocks sd ->
  (forall y, y ∈ P -> reference y <> reference b) ->
  (forall y, y ∈ P -> reference b ∉ ancestors y) -> reference b ∉ ancestors b ->
  (forall y, y ∈ O -> ~ origin_desc (pool sds) y b) ->
  links sds (P ++ [b]) O (link_block (sub_index sd) m b).
Proof.
  intros W Hsd Hb Hne Hnc Hself Hno. unfold link_block. set (m1 := foldl _ _ _).
  assert (m !! reference b = None) as Hm.
  { apply (links_unchanged _ _ _ _ _ W); [|done]. intros Hin. by apply (Hne b). }
  assert (m1 !! reference b = None) as -> by (unfold m1; by rewrite add_children_lookup, Hm).
  assert (forall r st', m1 !! r = Some st' -> exists st, m !! r = Some st /\ bs_block st' = bs_block st
    /\ bs_reject_votes st' = bs_reject_votes st /\ bs_origin_descendants st' = bs_origin_descendants st
    /\ bs_commit_index st' = bs_commit_index st
    /\ forall x, x ∈ bs_children st' <-> x ∈ bs_children st \/ (x = reference b /\ r ∈ ancestors b)) as Hm1.
  { intros r st'. unfold m1. rewrite add_children_lookup. destruct (m !! r) as [st|]; [|done]. intros [= <-].
    exists st. split_and!; try done. intros x. simpl. case_decide; set_solver. }
  constructor.
  - intros r st. destruct (decide (r = reference b)) as [->|Hr].
    + rewrite lookup_insert_eq. intros [= <-]. split; [|set_solver]. split_and!; [done|done|]. by exists sd.
    + rewrite lookup_insert_ne by done. intros (st0 & E & Eb & Er & Eo & Ei & _)%Hm1.
      destruct (li_entry _ _ _ _ W r st0 E) as [(H1 & H2 & H3) H4]. unfold entry_of. rewrite Eb, Er, Ei.
      split; [done|]. set_solver.
  - intros y [Hy| ->%list_elem_of_singleton]%elem_of_app; [|by rewrite lookup_insert_eq].
    rewrite lookup_insert_ne; [|intros E; by apply (Hne y)].
    destruct (li_dom _ _ _ _ W y Hy) as [st Hst]. unfold m1. rewrite add_children_lookup, Hst. by eexists.
  - intros r st x. setoid_rewrite elem_of_app. setoid_rewrite list_elem_of_singleton.
    destruct (decide (r = reference b)) as [->|Hr].
    + rewrite lookup_insert_eq. intros [= <-]. simpl. split; [set_solver|].
      intros (y & [Hy| ->] & <- & Hin); [by apply Hnc in Hin|done].
    + rewrite lookup_insert_ne by done. intros (st0 & E & _ & _ & _ & _ & Hx)%Hm1.
      rewrite Hx, (li_children _ _ _ _ W r st0 x E). naive_solver.
  - intros r st x. destruct (decide (r = reference b)) as [->|Hr].
    + rewrite lookup_insert_eq. intros [= <-]. simpl. split; [intros Hx; inversion Hx|].
      intros (y & Hy & _ & Ho). by apply Hno in Ho.
    + rewrite lookup_insert_ne by done. intros (st0 & E & Eb & _ & Eo & _ & _)%Hm1.
      rewrite Eo, Eb. exact (li_origin _ _ _ _ W r st0 x E).
Qed.

(** The blocks of a commit are linked in the order of rounds. *)
Lemma link_blocks_Ok sds sd O m P todo :
  stream_ok c sds -> sd ∈ sds -> links sds P O m ->
  P ⊆ pool sds -> todo ⊆ sd_blocks sd ->
  StronglySorted (fun a b => round a <= round b) todo ->
  NoDup (reference <$> P ++ todo) ->
  (forall x y, x ∈ todo -> y ∈ P -> reference x ∉ ancestors y) ->
  (forall x y, x ∈ todo -> y ∈ O -> ~ origin_desc (pool sds) y x) ->
  links sds (P ++ todo) O (foldl (link_block (sub_index sd)) m todo).
Proof.
  intros W Hsd. revert P m. induction todo as [|b todo IH]; intros P m Lk HP Ht Hs Hnd Hnc Hno.
  { by rewrite app_nil_r. }
  apply StronglySorted_inv in Hs as [Hs Hhead]. rewrite Forall_forall in Hhead.
  assert (b ∈ sd_blocks sd) as Hb by (apply Ht; by left).
  assert (forall x, x ∈ sd_blocks sd -> x ∈ pool sds) as Hin by (intros x Hx; apply elem_of_pool; by exists sd).
  assert (forall y, y ∈ pool sds -> reference b ∈ ancestors y -> round b < round y) as Hlt.
  { intros y Hy Hr. by apply (pool_anc_round c sds y) in Hr. }
  cbn [foldl]. replace (P ++ b :: todo) with ((P ++ [b]) ++ todo) in * by by rewrite <- app_assoc.
  apply IH; try done.
  - apply link_block_Ok; try done.
    + intros y Hy E. rewrite <- app_assoc, fmap_app in Hnd. apply NoDup_app in Hnd as (_ & Hnd & _).
      apply (Hnd (reference y)); [by apply list_elem_of_fmap_2|]. rewrite E. by left.
    + intros y Hy. apply Hnc; [by left|done].
    + intros Hr%Hlt; [lia|by apply Hin].
    + intros y Hy. apply Hno; [by left|done].
  - intros x [Hx| ->%list_elem_of_singleton]%elem_of_app; [by apply HP|by apply Hin].
  - intros x Hx. apply Ht. by right.
  - intros x y Hx [Hy| ->%list_elem_of_singleton]%elem_of_app; [apply Hnc; [by right|done]|].
    intros Hr. apply (pool_anc_round c sds b) in Hr; [|done|by apply Hin]. specialize (Hhead x Hx). simpl in Hr. lia.
  - intros x y Hx Hy. apply Hno; [by right|done].
Qed.

(** What a walk over the origins of a block relies on of the map. *)
Definition covers (sds : list CommittedSubDag) (m : gmap BlockRef BlockState) : Prop :=
  (forall r st, m !! r = Some st -> reference (bs_block st) = r /\ bs_block st ∈ pool sds)
  /\ (forall b, b ∈ pool sds -> is_Some (m !! reference b)).

Definition up_to (n : N) (m : gmap BlockRef BlockState) : gset BlockRef := filter (fun r => br_round r <= n) (dom m).

Lemma origin_desc_head sds y x z r :
  stream_ok c sds -> head (ancestors y) = Some r -> reference z = r -> z ∈ pool sds ->
  origin_desc (pool sds) y x -> author z = author y /\ (x = z \/ origin_desc (pool sds) z x).
Proof.
  intros W Hh Hz Hzp Ho. destruct Ho as [y x Hx Hh' Ha|y z' x Hz' Hh' Ha Ho]; rewrite Hh in Hh'.
  - assert (x = z) as -> by (apply (pool_inj c sds); congruence). tauto.
  - assert (z' = z) as -> by (apply (pool_inj c sds); congruence). tauto.
Qed.

Lemma append_to_origin_Ok sds fuel : forall m y z r,
  stream_ok c sds -> covers sds m -> z ∈ pool sds -> author z = br_author y -> head (ancestors z) = Some r ->
  (size (up_to (br_round r) m) < fuel)%nat ->
  exists m', append_to_origin fuel y r m = Ok m' /\ dom m' = dom m
    /\ forall x st, m !! x = Some st ->
       (origin_desc (pool sds) z (bs_block st) /\ m' !! x = Some (push_descendant y st))
       \/ (~ origin_desc (pool sds) z (bs_block st) /\ m' !! x = Some st).
Proof.
  induction fuel as [|fuel IH]; intros m y z r W [Hm Hdom] Hz Ha Hh Hf; [lia|]. cbn [append_to_origin].
  destruct (N.eqb_spec (br_author r) (br_author y)) as [Hr|Hr].
  2:{ exists m. split_and!; [done|done|]. intros x st Hx. right. split; [|done].
      intros Ho. apply Hr. destruct Ho as [? w ? Hh' Ha'|? w ? ? Hh' Ha' _]; rewrite Hh in Hh'; assert (r = reference w) as -> by congruence;
        simpl; by rewrite Ha', Ha. }
  destruct (m !! r) as [st0|] eqn:E0.
  2:{ exists m. split_and!; [done|done|]. intros x st Hx. right. split; [|done].
      intros Ho. destruct Ho as [? w Hw Hh' _|? w ? Hw Hh' _ _]; rewrite Hh in Hh'; assert (r = reference w) as -> by congruence;
        destruct (Hdom w Hw) as [? E]; congruence. }
  destruct (Hm r st0 E0) as [Hr0 Hin0]. destruct (pool_head c sds _ Hc W Hin0) as (r1 & Hh1 & Hr1).
  pose proof (pool_anc_round c sds _ _ W Hin0 Hr1) as Hlt.
  rewrite Hh1. cbn [unwrap mbind outcome_bind]. set (m1 := <[r := _]> m).
  assert (dom m1 = dom m) as Hd1.
  { unfold m1. rewrite dom_insert_L. apply elem_of_dom_2 in E0. set_solver. }
  destruct (IH m1 y (bs_block st0) r1 W) as (m' & -> & Hd' & Hm'); [ |done| |done| |].
  - split.
    + intros x st. unfold m1. destruct (decide (x = r)) as [->|Hx].
      * rewrite lookup_insert_eq. by intros [= <-].
      * rewrite lookup_insert_ne by done. apply Hm.
    + intros b Hb. rewrite <- elem_of_dom, Hd1, elem_of_dom. by apply Hdom.
  - rewrite <- Hr. by rewrite <- Hr0.
  - assert (size (up_to (br_round r1) m1) < size (up_to (br_round r) m))%nat; [|lia].
    apply subset_size. unfold up_to. rewrite Hd1. rewrite <- Hr0 in *. simpl in *. split; [intros x; rewrite !elem_of_filter; simpl; intros [? ?]; split; [lia|done]|].
    intros Hsub. specialize (Hsub (reference (bs_block st0))). rewrite !elem_of_filter in Hsub.
    destruct Hsub as [Hle _]; [split; [simpl; lia|by eapply elem_of_dom_2]|]. simpl in Hle. lia.
  - exists m'. split_and!; [done|by rewrite Hd'|]. intros x st Hx. destruct (decide (x = r)) as [->|Hne].
    + rewrite E0 in Hx. injection Hx as <-. left. split; [by apply od_one; [|by rewrite Hr0|rewrite Ha, <- Hr, <- Hr0]|].
      destruct (Hm' r (push_descendant y st0)) as [[Ho _]|[_ E]]; [by unfold m1; rewrite lookup_insert_eq| |done].
      apply (origin_desc_round c sds) in Ho; [|done..]. simpl in Ho. lia.
    + destruct (Hm' x st) as [[Ho E]|[Ho E]]; [by unfold m1; rewrite lookup_insert_ne|left|right]; split; try done.
      * apply (od_more _ z (bs_block st0)); [done|by rewrite Hr0|by rewrite Ha, <- Hr, <- Hr0|done].
      * intros Ho'. apply (origin_desc_head sds z _ (bs_block st0) r W Hh Hr0 Hin0) in Ho' as [_ [E'|?]]; [|done].
        apply Hne. destruct (Hm x st Hx) as [<- _]. by rewrite E'.
Qed.

Lemma append_origin_descendant_Ok sds O m y :
  stream_ok c sds -> links sds (pool sds) O m -> y ∈ pool sds ->
  exists m', append_origin_descendant m y = Ok m' /\ links sds (pool sds) (O ++ [y]) m'.
Proof.
  intros W Lk Hy. unfold append_origin_descendant.
  destruct (li_dom _ _ _ _ Lk y Hy) as [st Hst]. rewrite Hst. cbn [unwrap mbind outcome_bind].
  destruct (li_entry _ _ _ _ Lk _ _ Hst) as [(Hr & _) Hin].
  assert (bs_block st = y) as -> by (by apply (pool_inj c sds)).
  destruct (pool_head c sds y Hc W Hy) as (r & Hh & _). rewrite Hh. cbn [unwrap mbind outcome_bind].
  destruct (append_to_origin_Ok sds (S (size m)) m (reference y) y r W) as (m' & -> & Hd & Hm'); [ |done|done|done| |].
  - split; [|apply Lk]. intros x sx Hx. destruct (li_entry _ _ _ _ Lk _ _ Hx) as [(? & _) ?]. done.
  - assert (up_to (br_round r) m ⊆ dom m) as Hs%subseteq_size by (unfold up_to; set_solver). rewrite size_dom in Hs. lia.
  - exists m'. split; [done|].
    assert (forall x st', m' !! x = Some st' -> exists st, m !! x = Some st
      /\ ((origin_desc (pool sds) y (bs_block st) /\ st' = push_descendant (reference y) st)
          \/ (~ origin_desc (pool sds) y (bs_block st) /\ st' = st))) as Hback.
    { intros x st' Hx. assert (is_Some (m !! x)) as [sx Hsx] by (rewrite <- elem_of_dom, <- Hd, elem_of_dom; by eexists).
      exists sx. split; [done|]. destruct (Hm' x sx Hsx) as [[? E]|[? E]]; rewrite Hx in E; simplify_eq; tauto. }
    constructor.
    + intros x st' (sx & Hx & [[_ ->]|[_ ->]])%Hback; exact (li_entry _ _ _ _ Lk _ _ Hx).
    + intros b Hb. rewrite <- elem_of_dom, Hd, elem_of_dom. by apply (li_dom _ _ _ _ Lk).
    + intros x st' w (sx & Hx & [[_ ->]|[_ ->]])%Hback; exact (li_children _ _ _ _ Lk _ _ w Hx).
    + intros x st' w (sx & Hx & Hst')%Hback. setoid_rewrite elem_of_app. setoid_rewrite list_elem_of_singleton.
      pose proof (li_origin _ _ _ _ Lk x sx w Hx) as Ho. destruct Hst' as [[Ho' ->]|[Ho' ->]]; simpl.
      * rewrite elem_of_app, list_elem_of_singleton, Ho. naive_solver.
      * rewrite Ho. naive_solver.
Qed.

Lemma append_origins_Ok sds todo : forall O m,
  stream_ok c sds -> links sds (pool sds) O m -> todo ⊆ pool sds ->
  exists m', foldM append_origin_descendant todo m = Ok m' /\ links sds (pool sds) (O ++ todo) m'.
Proof.
  induction todo as [|y todo IH]; intros O m W Lk Ht; cbn [foldM].
  { exists m. by rewrite app_nil_r. }
  destruct (append_origin_descendant_Ok sds O m y W Lk) as (m1 & -> & Lk1); [apply Ht; by left|].
  destruct (IH (O ++ [y]) m1 W Lk1) as (m' & E & Lk'); [intros x Hx; apply Ht; by right|].
  exists m'. split; [done|]. by rewrite <- app_assoc in Lk'.
Qed.

(** The last commit is linked to those before it. *)
Lemma link_last_Ok sds sd m :
  stream_ok c (sds ++ [sd]) -> links_ok sds m ->
  exists m', foldM append_origin_descendant (by_round (sd_blocks sd))
               (foldl (link_block (sub_index sd)) m (by_round (sd_blocks sd))) = Ok m'
    /\ links_ok (sds ++ [sd]) m'.
Proof.
  intros W Lk. set (todo := by_round (sd_blocks sd)).
  assert (pool (sds ++ [sd]) = pool sds ++ sd_blocks sd) as Hpool by (rewrite pool_app; unfold pool; simpl; by rewrite app_nil_r).
  assert (forall x, x ∈ todo <-> x ∈ pool [sd]) as Htodo.
  { intros x. unfold todo, pool. simpl. by rewrite app_nil_r, elem_of_by_round. }
  assert (links (sds ++ [sd]) (pool sds) (pool sds) m) as Lk0.
  { constructor.
    - intros r st Hr. destruct (li_entry _ _ _ _ Lk r st Hr) as [(? & ? & s' & ? & ? & ?) ?].
      split; [|done]. split_and!; [done..|]. exists s'. split_and!; [set_solver|done..].
    - apply (li_dom _ _ _ _ Lk).
    - apply (li_children _ _ _ _ Lk).
    - intros r st x Hr. rewrite (li_origin _ _ _ _ Lk r st x Hr). split; intros (y & Hy & ? & Ho); exists y; split_and!; try done.
      + eapply origin_desc_mono; [|exact Ho]. rewrite pool_app. set_solver.
      + by apply (origin_desc_prefix c sds [sd]). }
  assert (links (sds ++ [sd]) (pool sds ++ todo) (pool sds) (foldl (link_block (sub_index sd)) m todo)) as Lk1.
  { apply (link_blocks_Ok (sds ++ [sd])); try done.
    - set_solver.
    - rewrite Hpool. set_solver.
    - intros x Hx. unfold todo in Hx. by rewrite elem_of_by_round in Hx.
    - apply by_round_sorted.
    - rewrite fmap_app. unfold todo, by_round. rewrite (stable_sort_perm _ (sd_blocks sd)), <- fmap_app, <- Hpool. apply (so_refs _ _ W).
    - intros x y Hx%Htodo Hy. by apply (so_causal _ _ W sds [sd]).
    - intros x y Hx%Htodo Hy Ho. apply (origin_desc_prefix c sds [sd]) in Ho; [|done..]. apply origin_desc_in in Ho.
      pose proof (so_refs _ _ W) as Hnd. rewrite pool_app, fmap_app in Hnd. apply NoDup_app in Hnd as (_ & Hnd & _).
      by apply (Hnd (reference x)); apply list_elem_of_fmap_2. }
  apply (links_equiv _ _ _ (pool (sds ++ [sd])) (pool sds)) in Lk1; [|intros b; rewrite pool_app, !elem_of_app, Htodo; done|done].
  destruct (append_origins_Ok (sds ++ [sd]) todo (pool sds) _ W Lk1) as (m' & E & Lk').
  { intros x Hx%Htodo. rewrite pool_app. set_solver. }
  exists m'. split; [done|]. eapply links_equiv; [| |exact Lk']; [done|].
  intros b. by rewrite pool_app, !elem_of_app, Htodo.
Qed.

(** The first commit leaves with its blocks. *)
Lemma links_pop sd sds m :
  stream_ok c (sd :: sds) -> links_ok (sd :: sds) m ->
  links_ok sds (foldl (fun m b => delete (reference b) m) m (sd_blocks sd)).
Proof.
  intros W Lk. set (m' := foldl _ _ _).
  assert (forall r, m' !! r = if decide (r ∈ reference <$> sd_blocks sd) then None else m !! r) as Hm'.
  { intros r. unfold m'. generalize (sd_blocks sd) as l, m. induction l as [|b l IH]; intros m0; cbn [foldl fmap list_fmap].
    - rewrite decide_False by apply not_elem_of_nil. done.
    - rewrite IH. destruct (decide (r = reference b)) as [->|Hne].
      + rewrite lookup_delete_eq, (decide_True (P := reference b ∈ reference b :: _)) by by left. by case_decide.
      + rewrite lookup_delete_ne by done. apply decide_ext. rewrite elem_of_cons. naive_solver. }
  assert (pool (sd :: sds) = sd_blocks sd ++ pool sds) as Hp by done.
  assert (forall r st, m' !! r = Some st -> m !! r = Some st /\ bs_block st ∈ pool sds) as Hback.
  { intros r st. rewrite Hm'. case_decide as Hr; [done|]. intros E. split; [done|].
    destruct (li_entry _ _ _ _ Lk r st E) as [(Hr' & _) Hin]. rewrite Hp, elem_of_app in Hin. destruct Hin as [Hin|?]; [|done].
    exfalso. apply Hr. rewrite <- Hr'. by apply list_elem_of_fmap_2. }
  assert (forall y, y ∈ pool (sd :: sds) -> forall b, b ∈ pool sds -> reference b ∈ ancestors y -> y ∈ pool sds) as Hup.
  { intros y Hy b Hb Hin. rewrite Hp, elem_of_app in Hy. destruct Hy as [Hy|?]; [|done].
    apply (so_causal _ _ W [sd] sds b y) in Hin; [done|done|done|]. unfold pool. simpl. by rewrite app_nil_r. }
  constructor.
  - intros r st [E Hin]%Hback. split; [|done]. destruct (li_entry _ _ _ _ Lk r st E) as [(H1 & H2 & s' & Hs' & Hb & Hi) _].
    split_and!; [done..|]. apply elem_of_cons in Hs' as [->|Hs']; [|by exists s'].
    exfalso. pose proof (so_refs _ _ W) as Hnd. rewrite Hp, fmap_app in Hnd. apply NoDup_app in Hnd as (_ & Hnd & _).
    by apply (Hnd (reference (bs_block st))); apply list_elem_of_fmap_2.
  - intros b Hb. rewrite Hm'. case_decide as Hr.
    + pose proof (so_refs _ _ W) as Hnd. rewrite Hp, fmap_app in Hnd. apply NoDup_app in Hnd as (_ & Hnd & _).
      exfalso. apply (Hnd (reference b)); [done|]. by apply list_elem_of_fmap_2.
    + apply (li_dom _ _ _ _ Lk). rewrite Hp. set_solver.
  - intros r st x [E Hin]%Hback. rewrite (li_children _ _ _ _ Lk r st x E).
    destruct (li_entry _ _ _ _ Lk r st E) as [(Hr & _) _]. split; intros (y & Hy & ? & Ha); exists y; split_and!; try done.
    + apply (Hup y Hy (bs_block st)); [done|]. by rewrite Hr.
    + rewrite Hp. set_solver.
  - intros r st x [E Hin]%Hback. rewrite (li_origin _ _ _ _ Lk r st x E). split; intros (y & Hy & Hyx & Ho).
    + destruct (origin_desc_suffix c [sd] sds y (bs_block st) W Hy Hin Ho) as [? ?]. by exists y.
    + exists y. split_and!; [rewrite Hp; set_solver|done|]. eapply origin_desc_mono; [|exact Ho]. rewrite Hp. set_solver.
Qed.
End linking.
