(* ===== verification/FinalizerAccept.v ===== *)
(** * Acceptance of a transaction by a stream of commits

    What the traversal of the commit finalizer computes, in terms of the
    buffered commits only. *)

From S2P Require Import Prelude Committee Context Block StakeAggregator ThresholdClock Commit Error Store LeaderScoring DagState VoteTracker DagInv CommitObserver CommitFinalizer FinalizerVotes FinalizerLinks.

Section accept.
Context (ctx : Context).
Notation c := (committee ctx).

(** Votes on [r] by blocks of the [i]th commit may have been dropped: the
    commit before it moved the GC round to that of [r]. *)
Definition lost_at (sds : list CommittedSubDag) (r : BlockRef) (i : nat) : bool :=
  match i with
  | O => false
  | S i => match sds !! i with
           | Some prev => br_round r <=? context_gc_round ctx (sub_round prev)
           | None => false
           end
  end.

(** An authority accepts a transaction of the block [r]: the first of its
    blocks above [r] carries its votes on [r], and does not reject. *)
Definition accept_in (sds : list CommittedSubDag) (r : BlockRef) (t a : N) : Prop :=
  exists i sd y, sds !! i = Some sd /\ y ∈ sd_blocks sd /\ descends (pool sds) r y /\ author y = a
    /\ lost_at sds r i = false /\ t ∉ default ∅ (reject_map y !! r)
    /\ ~ (exists z, descends (pool sds) r z /\ origin_desc (pool sds) y z).

Definition accepted_in (sds : list CommittedSubDag) (r : BlockRef) (t : N) : Prop :=
  exists A, c_quorum_threshold c <= stake_of c A /\ forall a, a ∈ A -> accept_in sds r t a.

Lemma pool_position b sds : b ∈ pool sds <-> exists i sd, sds !! i = Some sd /\ b ∈ sd_blocks sd.
Proof. rewrite elem_of_pool. setoid_rewrite list_elem_of_lookup. naive_solver. Qed.

Lemma position_unique sds i j sd sd' b :
  stream_ok c sds -> sds !! i = Some sd -> sds !! j = Some sd' -> b ∈ sd_blocks sd -> b ∈ sd_blocks sd' -> i = j.
Proof.
  intros W Hi Hj Hb Hb'.
  assert (forall i j sd sd', (i < j)%nat -> sds !! i = Some sd -> sds !! j = Some sd' ->
            b ∈ sd_blocks sd -> b ∈ sd_blocks sd' -> False) as Hlt.
  { clear i j sd sd' Hi Hj Hb Hb'. intros i j sd sd' Hij Hi Hj Hb Hb'.
    pose proof (so_refs _ _ W) as Hnd. rewrite <- (take_drop j sds), pool_app, fmap_app in Hnd.
    apply NoDup_app in Hnd as (_ & Hnd & _). apply (Hnd (reference b)); apply list_elem_of_fmap_2, pool_position.
    - exists i, sd. split; [|done]. by rewrite lookup_take_lt.
    - exists O, sd'. split; [|done]. rewrite lookup_drop. by rewrite Nat.add_0_r. }
  destruct (lt_eq_lt_dec i j) as [[?|?]|?]; [exfalso; eauto|done|exfalso; eauto].
Qed.

(** A block is not in an earlier commit than its ancestors. *)
Lemma position_le sds i j sd sd' x y :
  stream_ok c sds -> sds !! i = Some sd -> sds !! j = Some sd' -> x ∈ sd_blocks sd -> y ∈ sd_blocks sd' ->
  reference x ∈ ancestors y -> (i <= j)%nat.
Proof.
  intros W Hi Hj Hx Hy Ha. destruct (le_lt_dec i j) as [?|Hlt]; [done|]. exfalso. revert Ha.
  apply (so_causal _ _ W (take i sds) (drop i sds)); [by rewrite take_drop| |]; apply pool_position.
  - exists O, sd. split; [|done]. rewrite lookup_drop. by rewrite Nat.add_0_r.
  - exists j, sd'. split; [|done]. by rewrite lookup_take_lt.
Qed.

Lemma origin_position sds i j sd sd' x y :
  stream_ok c sds -> sds !! i = Some sd -> sds !! j = Some sd' -> x ∈ sd_blocks sd -> y ∈ sd_blocks sd' ->
  origin_desc (pool sds) y x -> (i <= j)%nat.
Proof.
  intros W Hi Hj Hx Hy Ho. revert j sd' Hj Hy. induction Ho as [y x _ Hh _|y z x Hz Hh _ _ IH]; intros j sd' Hj Hy.
  - apply (position_le sds i j sd sd' x y); try done. by apply head_Some_elem_of.
  - apply pool_position in Hz as (k & sz & Hk & Hz). specialize (IH Hx k sz Hk Hz).
    enough (k <= j)%nat by lia. apply (position_le sds k j sz sd' z y); try done. by apply head_Some_elem_of.
Qed.

Lemma gc_round_mono x y : x <= y -> context_gc_round ctx x <= context_gc_round ctx y.
Proof. unfold context_gc_round, saturating_sub. lia. Qed.

Lemma rounds_increase sds i j sd sd' :
  stream_ok c sds -> sds !! i = Some sd -> sds !! j = Some sd' -> (i < j)%nat -> sub_round sd < sub_round sd'.
Proof.
  intros W Hi Hj Hij. pose proof (so_rounds _ _ W) as Hs. rewrite <- (take_drop j sds) in Hs.
  apply (StronglySorted_app_1_elem_of _ _ _ sd sd' Hs); apply list_elem_of_lookup.
  - exists i. by rewrite lookup_take_lt.
  - exists O. rewrite lookup_drop. by rewrite Nat.add_0_r.
Qed.

Lemma lost_mono sds r i j :
  stream_ok c sds -> (i <= j < length sds)%nat -> lost_at sds r i = true -> lost_at sds r j = true.
Proof.
  intros W Hij. destruct i as [|i]; [done|]. destruct j as [|j]; [lia|]. simpl.
  destruct (sds !! i) as [p|] eqn:Ei; [|done]. intros Hle%N.leb_le.
  destruct (lookup_lt_is_Some_2 sds j) as [q Ej]; [lia|]. rewrite Ej. apply N.leb_le.
  destruct (decide (i = j)) as [->|Hne]; [by simplify_eq|].
  pose proof (rounds_increase sds i j p q W Ei Ej ltac:(lia)).
  pose proof (gc_round_mono (sub_round p) (sub_round q) ltac:(lia)). lia.
Qed.

(** The test of the finalizer is [lost_at] of the commit of the voting block. *)
Lemma gced_votes_Ok sds first r i sd :
  stream_ok c sds -> sds !! O = Some first -> sds !! i = Some sd ->
  gced_transaction_votes_for_pending_block
    ((fun sd => (sub_index sd, context_gc_round ctx (sub_round sd))) <$> sds)
    (br_round r) (sub_index first) (sub_index sd) = Ok (lost_at sds r i).
Proof.
  intros W H0 Hi. pose proof (so_index _ _ W 0 i first sd H0 Hi) as Hidx.
  destruct (so_bounds _ _ W sd) as [Hb _]; [by eapply list_elem_of_lookup_2|].
  unfold gced_transaction_votes_for_pending_block. rewrite (proj2 (N.leb_le _ _)) by lia. cbn [assert_that mbind outcome_bind].
  destruct i as [|i].
  { rewrite (proj2 (N.eqb_eq _ _)) by lia. done. }
  rewrite (proj2 (N.eqb_neq _ _)) by lia.
  destruct (lookup_lt_is_Some_2 sds i) as [prev Hprev]; [apply lookup_lt_Some in Hi; lia|].
  rewrite (u32_sub_small (sub_index sd) 1) by lia. rewrite u32_sub_small by lia.
  unfold vec_index. replace (N.to_nat (sub_index sd - 1 - sub_index first)) with i by lia.
  rewrite list_lookup_fmap, Hprev. cbn [fmap option_fmap option_map unwrap mbind outcome_bind].
  rewrite (proj2 (N.eqb_eq _ _)).
  2:{ pose proof (so_index _ _ W 0 i first prev H0 Hprev). lia. }
  cbn [assert_that mbind outcome_bind]. simpl. by rewrite Hprev.
Qed.

(* ------------------------------------------------------------------ *)
(** ** The traversal over linked commits *)

Section over_links.
Context (Hc : committee_wf c) (first : CommittedSubDag) (rest : list CommittedSubDag).
Notation sds := (first :: rest).
Context (m : gmap BlockRef BlockState) (W : stream_ok c sds) (Lk : links_ok sds m).
Context (b : VerifiedBlock) (Hb : b ∈ sd_blocks first).
Notation r := (reference b).

Definition lost_votes (x : BlockRef) : bool :=
  match m !! x with
  | Some st => lost_at sds r (N.to_nat (bs_commit_index st - sub_index first))
  | None => false
  end.

Lemma entry_position x st :
  m !! x = Some st -> exists i sd, sds !! i = Some sd /\ bs_block st ∈ sd_blocks sd /\ bs_block st ∈ pool sds
    /\ reference (bs_block st) = x /\ bs_commit_index st = sub_index sd /\ lost_votes x = lost_at sds r i
    /\ bs_reject_votes st = reject_map (bs_block st).
Proof.
  intros Hx. destruct (li_entry _ _ _ _ Lk x st Hx) as [(Hr & Hv & sd & Hsd & Hin & Hi) Hp].
  apply list_elem_of_lookup in Hsd as [i Hsd]. exists i, sd. split_and!; try done.
  unfold lost_votes. rewrite Hx, Hi, (so_index _ _ W 0 i first sd eq_refl Hsd). f_equal. lia.
Qed.

Lemma entry_of_block y : y ∈ pool sds -> exists st, m !! reference y = Some st /\ bs_block st = y.
Proof.
  intros Hy. destruct (li_dom _ _ _ _ Lk y Hy) as [st Hst]. exists st. split; [done|].
  destruct (li_entry _ _ _ _ Lk _ _ Hst) as [(Hr & _) Hp]. by apply (pool_inj c sds).
Qed.

Lemma child_iff x st y :
  m !! x = Some st -> child m x y <-> exists z, z ∈ pool sds /\ reference z = y /\ x ∈ ancestors z.
Proof.
  intros Hx. rewrite <- (li_children _ _ _ _ Lk x st y Hx). unfold child. rewrite Hx. naive_solver.
Qed.

Lemma origin_iff y x :
  origin m y x <-> exists z w, z ∈ pool sds /\ w ∈ pool sds /\ reference z = y /\ reference w = x /\ origin_desc (pool sds) z w.
Proof.
  split.
  - intros (st & Hx & Hin). apply (li_origin _ _ _ _ Lk x st y Hx) in Hin as (z & Hz & Hr & Ho).
    destruct (entry_position x st Hx) as (_ & _ & _ & _ & Hp & Hrx & _). by exists z, (bs_block st).
  - intros (z & w & Hz & Hw & <- & <- & Ho). destruct (entry_of_block w Hw) as (st & Hst & <-). exists st. split; [done|].
    apply (li_origin _ _ _ _ Lk _ _ _ Hst). by exists z.
Qed.

Lemma linked_links st :
  m !! r = Some st ->
  linked ctx m ((fun sd => (sub_index sd, context_gc_round ctx (sub_round sd))) <$> sds) r (bs_commit_index st)
    (bs_children st) lost_votes.
Proof.
  intros Hst. assert (bs_commit_index st = sub_index first) as Hidx.
  { destruct (entry_position r st Hst) as (i & sd & Hi & Hin & Hp & Hr & Hci & _).
    assert (bs_block st = b) as E by (apply (pool_inj c sds); [done|done| |done]; apply elem_of_pool; exists first; split; [by left|done]).
    rewrite E in Hin. assert (i = O) as -> by (eapply (position_unique sds i O sd first b); done). simpl in Hi. congruence. }
  assert (forall x y, child m x y -> exists sx sy, m !! x = Some sx /\ m !! y = Some sy /\ x ∈ ancestors (bs_block sy)) as Hch.
  { intros x y Hxy. pose proof Hxy as (sx & Hsx & _). apply (child_iff x sx y Hsx) in Hxy as (z & Hz & <- & Ha).
    destruct (entry_of_block z Hz) as (sy & Hsy & <-). by exists sx, sy. }
  assert (forall x y i j, sds !! i = Some x -> (i <= j)%nat -> sds !! j = Some y -> lost_at sds r i = true -> lost_at sds r j = true) as Hlost.
  { intros x y i j Hi Hij Hj. apply lost_mono; [done|]. apply lookup_lt_Some in Hj. lia. }
  constructor.
  - intros x Hx. apply (li_children _ _ _ _ Lk r st x Hst) in Hx as (y & Hy & <- & _). by apply (li_dom _ _ _ _ Lk).
  - intros x sx Hx. destruct (entry_position x sx Hx) as (_ & _ & _ & _ & Hp & <- & _). apply (wb_author _ _ (so_wf _ _ W _ Hp)).
  - apply (wb_author c b), (so_wf _ _ W). apply elem_of_pool. exists first. split; [by left|done].
  - intros x y (sx & sy & Hsx & Hsy & Ha)%Hch. split; [by eexists|].
    destruct (entry_position y sy Hsy) as (_ & _ & _ & _ & Hp & <- & _). by apply (pool_anc_round c sds) in Ha.
  - intros x y (sx & sy & Hsx & Hsy & Ha)%Hch. destruct (entry_position x sx Hsx) as (i & sd & Hi & Hin & _ & Hrx & _ & -> & _).
    destruct (entry_position y sy Hsy) as (j & sd' & Hj & Hin' & _ & _ & _ & -> & _).
    apply (Hlost sd sd'); try done. apply (position_le sds i j sd sd' (bs_block sx) (bs_block sy)); try done. by rewrite Hrx.
  - intros x sx _ Hsx. destruct (entry_position x sx Hsx) as (i & sd & Hi & _ & _ & _ & -> & -> & _). rewrite Hidx.
    by apply gced_votes_Ok.
  - intros y x (z & w & Hz & Hw & <- & <- & Ho)%origin_iff. by apply (origin_desc_round c sds).
  - intros y x (z & w & Hz & Hw & <- & <- & Ho)%origin_iff.
    destruct (entry_of_block z Hz) as (sz & Hsz & Ez). destruct (entry_of_block w Hw) as (sw & Hsw & Ew).
    destruct (entry_position _ sw Hsw) as (i & sd & Hi & Hin & _ & _ & _ & -> & _).
    destruct (entry_position _ sz Hsz) as (j & sd' & Hj & Hin' & _ & _ & _ & -> & _).
    apply (Hlost sd sd'); try done. rewrite Ez in *. rewrite Ew in *. by apply (origin_position sds i j sd sd' w z).
  - intros x y z (w1 & w2 & H1 & H2 & <- & <- & Ho)%origin_iff (w3 & w4 & H3 & H4 & E & <- & Ho')%origin_iff.
    assert (w3 = w2) as -> by (by apply (pool_inj c sds)). apply origin_iff. exists w1, w4. split_and!; try done.
    by apply (origin_desc_trans _ w1 w2).
Qed.

Lemma reached_iff st x :
  m !! r = Some st -> reached m (bs_children st) x <-> exists y, reference y = x /\ descends (pool sds) r y.
Proof.
  intros Hst. split.
  - induction 1 as [x Hx|x y _ IH Hxy].
    + apply (li_children _ _ _ _ Lk r st x Hst) in Hx as (y & Hy & <- & Ha). exists y. split; [done|]. by apply de_child.
    + destruct IH as (z & <- & Hz). pose proof Hxy as (sz & Hsz & _).
      apply (child_iff _ sz y Hsz) in Hxy as (w & Hw & <- & Ha). exists w. split; [done|]. by apply (de_step _ _ z).
  - intros (y & <- & Hy). induction Hy as [y Hy Ha|z y Hz IH Hy Ha].
    + apply reached_root, (li_children _ _ _ _ Lk r st _ Hst). by exists y.
    + apply (reached_child m _ (reference z)); [done|]. destruct (entry_of_block z) as (sz & Hsz & _); [by apply descends_pool in Hz|].
      apply (child_iff _ sz); [done|]. by exists y.
Qed.

Lemma accepts_iff st t a :
  m !! r = Some st -> accepts m r (bs_children st) lost_votes t a <-> accept_in sds r t a.
Proof.
  intros Hst. unfold accepts, accept_in. split.
  - intros (x & Hx & <- & Hg & Hr & Ho). apply (reached_iff st x Hst) in Hx as (y & <- & Hy).
    destruct (entry_of_block y) as (sy & Hsy & Ey); [by apply descends_pool in Hy|].
    destruct (entry_position _ sy Hsy) as (i & sd & Hi & Hin & Hp & _ & _ & El & Ev). rewrite Ey in *. rewrite El in Hg.
    exists i, sd, y. split_and!; try done.
    + intros Ht. apply Hr. exists sy. by rewrite Ev.
    + intros (z & Hz & Hoz). apply Ho. exists (reference z). split; [apply (reached_iff st _ Hst); by exists z|].
      apply origin_iff. exists y, z. split_and!; try done. by apply descends_pool in Hz.
  - intros (i & sd & y & Hi & Hin & Hy & <- & Hg & Hr & Ho). exists (reference y).
    destruct (entry_of_block y) as (sy & Hsy & Ey); [by apply descends_pool in Hy|].
    destruct (entry_position _ sy Hsy) as (j & sd' & Hj & Hin' & Hp & _ & _ & El & Ev). rewrite Ey in *.
    assert (j = i) as -> by (by apply (position_unique sds j i sd' sd y)).
    split_and!; try done.
    + apply (reached_iff st _ Hst). by exists y.
    + by rewrite El.
    + intros (s' & Hs' & Ht). apply Hr. rewrite Hsy in Hs'. injection Hs' as <-. by rewrite Ev in Ht.
    + intros (x & Hx & (z & w & Hz & Hw & Ez & <- & Hoz)%origin_iff). apply (reached_iff st _ Hst) in Hx as (w' & Ew & Hw').
      assert (z = y) as -> by (by apply (pool_inj c sds)).
      assert (w' = w) as -> by (apply (pool_inj c sds); try done; by apply descends_pool in Hw').
      apply Ho. by exists w.
Qed.

(** The traversal finalizes the pending transactions that the buffered commits
    accept. *)
Lemma indirect_finalize_Ok pending :
  exists finalized,
    try_indirect_finalize_pending_transactions_in_block ctx m
      ((fun sd => (sub_index sd, context_gc_round ctx (sub_round sd))) <$> sds) r pending = Ok finalized
    /\ forall t, t ∈ finalized <-> t ∈ pending /\ accepted_in sds r t.
Proof using Hc W Lk Hb.
  destruct (li_dom _ _ _ _ Lk b) as [st Hst]; [apply elem_of_pool; exists first; split; [by left|done]|].
  destruct (indirect_finalize_block_Ok ctx m _ r st lost_votes pending Hc Hst (linked_links st Hst)) as (l & E & Hl).
  exists l. split; [done|]. intros t. rewrite Hl. apply and_iff_compat_l. unfold accepted_by_quorum, accepted_in.
  split; intros (A & Hq & HA); exists A; (split; [done|]); intros a Ha; by apply (accepts_iff st t a Hst), HA.
Qed.
End over_links.
End accept.
