(* ===== verification/FinalizerInv.v ===== *)
(** * Verdicts of the commit finalizer

    The invariant of the buffered commits: which verdict on a transaction was
    reached from which votes, and how each operation keeps it. *)

From S2P Require Import Prelude Committee Context Block StakeAggregator ThresholdClock Commit Error Store LeaderScoring DagState VoteTracker DagInv CommitObserver CommitFinalizer FinalizerVotes FinalizerLinks FinalizerAccept.

(** What was processed: each commit, with the votes known at that time. *)
Notation history := (list (VoteTrackerState * CommittedSubDag)).

Definition segment (H : history) (i k : nat) : list CommittedSubDag := take (S k - i) (drop i H.*2).

(** The votes on a transaction that a tracker knows. *)
Definition no_rejects (votes : VoteTrackerState) (r : BlockRef) (t : N) : Prop :=
  exists info, vt_votes votes !! r = Some info /\ reject_txn_votes info !! t = None.

Definition quorum_rejects (c : Committee) (votes : VoteTrackerState) (r : BlockRef) (t : N) : Prop :=
  exists info agg, vt_votes votes !! r = Some info /\ reject_txn_votes info !! t = Some agg
    /\ c_quorum_threshold c <= agg_stake agg.

Definition pending_of (cs : CommitState) (r : BlockRef) : gset N := default ∅ (cs_pending_transactions cs !! r).
Definition rejected_of (cs : CommitState) (r : BlockRef) : gset N := default ∅ (cs_rejected_transactions cs !! r).

Definition num_transactions (b : VerifiedBlock) : N := N.of_nat (length (transactions b)).

Section verdicts.
Context (ctx : Context).
Notation c := (committee ctx).

(** A verdict on a transaction of the [i]th commit, reached when the [k]th one
    was processed; until then no leader three rounds above was committed. *)
Definition decided_at (H : history) (i : nat)
    (J : VoteTrackerState -> CommittedSubDag -> CommittedSubDag -> list CommittedSubDag -> Prop) : Prop :=
  exists k votes sdi sdk, H.*2 !! i = Some sdi /\ H !! k = Some (votes, sdk) /\ (i <= k)%nat
    /\ (forall j sdj, (i <= j < k)%nat -> H.*2 !! j = Some sdj -> sub_round sdj < sub_round sdi + 3)
    /\ J votes sdi sdk (segment H i k).

(** Rejected by a quorum, or not accepted by one in time. *)
Definition reject_justified (H : history) (i : nat) (r : BlockRef) (t : N) : Prop :=
  decided_at H i (fun votes sdi sdk seg =>
    quorum_rejects c votes r t \/ (sub_round sdi + 3 <= sub_round sdk /\ ~ accepted_in ctx seg r t)).

(** Without reject votes when the leader was certified, or accepted by a
    quorum of committed blocks. *)
Definition final_justified (H : history) (i : nat) (b : VerifiedBlock) (t : N) : Prop :=
  decided_at H i (fun votes sdi sdk seg =>
    (no_rejects votes (reference b) t /\ context_gc_round ctx (sub_round sdi + 3) < round b
     /\ (decided_with_local_blocks sdi = true \/ sub_round sdi + 3 <= sub_round sdk))
    \/ accepted_in ctx seg (reference b) t).

Definition pending_map (sd : CommittedSubDag) : gmap BlockRef N :=
  foldl (fun m b => <[reference b := num_transactions b]> m) ∅ (sd_blocks sd).

Record state_ok (H : history) (i : nat) (cs : CommitState) : Prop := {
  st_commit : H.*2 !! i = Some (cs_commit cs);
  st_phase : (cs_pending_blocks cs = pending_map (cs_commit cs) /\ cs_pending_transactions cs = ∅
              /\ cs_rejected_transactions cs = ∅) \/ cs_pending_blocks cs = ∅;
  st_keys : forall r, is_Some (cs_pending_transactions cs !! r) \/ is_Some (cs_rejected_transactions cs !! r) ->
    r ∈ reference <$> sd_blocks (cs_commit cs);
  st_rejected : forall r t, t ∈ rejected_of cs r -> reject_justified H i r t;
  st_final : forall b t, cs_pending_blocks cs = ∅ -> b ∈ sd_blocks (cs_commit cs) -> t < num_transactions b ->
    t ∉ pending_of cs (reference b) -> t ∉ rejected_of cs (reference b) -> final_justified H i b t;
}.

Definition is_final (cs : CommitState) : Prop := cs_pending_blocks cs = ∅ /\ cs_pending_transactions cs = ∅.

(* ------------------------------------------------------------------ *)
(** ** Time passes *)

Lemma segment_snoc H x i k : (k < length H)%nat -> segment (H ++ [x]) i k = segment H i k.
Proof.
  intros Hk. unfold segment. rewrite fmap_app. destruct (le_lt_dec i (length H)) as [Hi|Hi].
  - rewrite drop_app_le by by rewrite length_fmap. rewrite take_app_le; [done|]. rewrite length_drop, length_fmap. lia.
  - rewrite !drop_ge; [done|rewrite length_fmap; lia|]. rewrite length_app, !length_fmap. simpl. lia.
Qed.

Lemma segment_last H votes sd i : segment (H ++ [(votes, sd)]) i (length H) = drop i ((H ++ [(votes, sd)]).*2).
Proof. unfold segment. apply take_ge. rewrite length_drop, length_fmap, length_app. simpl. lia. Qed.

Lemma history_lookup_l (H : history) x i sd : H.*2 !! i = Some sd -> (H ++ [x]).*2 !! i = Some sd.
Proof. intros Hi. rewrite fmap_app. by apply lookup_app_l_Some. Qed.

Lemma history_last (H : history) votes sd : (H ++ [(votes, sd)]).*2 !! length H = Some sd.
Proof. rewrite fmap_app, lookup_app_r, length_fmap, Nat.sub_diag; [done|by rewrite length_fmap]. Qed.

Lemma decided_snoc H x i J : decided_at H i J -> decided_at (H ++ [x]) i J.
Proof.
  intros (k & votes & sdi & sdk & Hi & Hk & Hik & Hw & HJ). pose proof (lookup_lt_Some _ _ _ Hk) as Hlt.
  exists k, votes, sdi, sdk. split_and!; [by apply history_lookup_l|by apply lookup_app_l_Some|done| |by rewrite segment_snoc].
  intros j sdj Hj. rewrite fmap_app, lookup_app_l; [by apply Hw|]. rewrite length_fmap. lia.
Qed.

Lemma state_ok_snoc H x i cs : state_ok H i cs -> state_ok (H ++ [x]) i cs.
Proof.
  intros W. constructor.
  - by apply history_lookup_l, (st_commit _ _ _ W).
  - apply (st_phase _ _ _ W).
  - apply (st_keys _ _ _ W).
  - intros r t Ht. by apply decided_snoc, (st_rejected _ _ _ W).
  - intros b t ? ? ? ? ?. by apply decided_snoc, (st_final _ _ _ W).
Qed.

Lemma pending_map_fold l (m : gmap BlockRef N) b :
  b ∈ l -> is_Some (foldl (fun m b => <[reference b := num_transactions b]> m) m l !! reference b).
Proof.
  assert (forall l m r, is_Some (m !! r) -> is_Some (foldl (fun (m : gmap BlockRef N) b => <[reference b := num_transactions b]> m) m l !! r)) as Hkeep.
  { clear. induction l as [|x l IH]; intros m r Hr; cbn [foldl]; [done|]. apply IH.
    destruct (decide (r = reference x)) as [->|?]; [by rewrite lookup_insert_eq|by rewrite lookup_insert_ne]. }
  revert m. induction l as [|x l IH]; intros m Hb; [inversion Hb|]. cbn [foldl].
  apply elem_of_cons in Hb as [->|Hb]; [|by apply IH]. apply Hkeep. by rewrite lookup_insert_eq.
Qed.

Lemma pending_map_nonempty sd : sd_blocks sd <> [] -> pending_map sd <> ∅.
Proof.
  intros Hne E. destruct (sd_blocks sd) as [|b l] eqn:El; [done|].
  destruct (pending_map_fold (sd_blocks sd) ∅ b) as [x Hx]; [rewrite El; by left|].
  unfold pending_map in E. by rewrite E, lookup_empty in Hx.
Qed.

(** With distinct references the map is that of the blocks. *)
Lemma pending_map_lookup sd r n :
  NoDup (reference <$> sd_blocks sd) ->
  pending_map sd !! r = Some n <-> exists b, b ∈ sd_blocks sd /\ reference b = r /\ n = num_transactions b.
Proof.
  unfold pending_map. intros Hnd.
  assert (forall l (m : gmap BlockRef N), NoDup (reference <$> l) -> (forall b, b ∈ l -> m !! reference b = None) ->
    foldl (fun m b => <[reference b := num_transactions b]> m) m l !! r = Some n
    <-> m !! r = Some n \/ exists b, b ∈ l /\ reference b = r /\ n = num_transactions b) as Hgen.
  { clear. induction l as [|x l IH]; intros m Hnd Hm; cbn [foldl]; [set_solver|].
    apply NoDup_cons in Hnd as [Hx Hnd]. rewrite IH; [|done|].
    - destruct (decide (r = reference x)) as [->|Hne].
      + rewrite lookup_insert_eq, (Hm x) by by left. split; [intros [[= <-]|(b & Hb & Hr & _)]|intros [?|(b & Hb & Hr & ->)]].
        * right. exists x. split_and!; [by left|done..].
        * exfalso. apply Hx. rewrite <- Hr. by apply list_elem_of_fmap_2.
        * done.
        * apply elem_of_cons in Hb as [->|Hb]; [by left|]. exfalso. apply Hx. rewrite <- Hr. by apply list_elem_of_fmap_2.
      + rewrite lookup_insert_ne by done. setoid_rewrite elem_of_cons. naive_solver.
    - intros b Hb. rewrite lookup_insert_ne; [apply Hm; by right|]. intros E. apply Hx. rewrite E. by apply list_elem_of_fmap_2. }
  rewrite Hgen by (done || intros b _; by rewrite lookup_empty). rewrite lookup_empty. naive_solver.
Qed.

(* ------------------------------------------------------------------ *)
(** ** Direct finalization *)

(** Only the entries of [r] change. *)
Definition only_at (r : BlockRef) (cs cs' : CommitState) : Prop :=
  cs_commit cs' = cs_commit cs /\ cs_pending_blocks cs' = cs_pending_blocks cs
  /\ forall r', r' <> r -> cs_pending_transactions cs' !! r' = cs_pending_transactions cs !! r'
                        /\ cs_rejected_transactions cs' !! r' = cs_rejected_transactions cs !! r'.

Lemma only_at_refl r cs : only_at r cs cs.
Proof. done. Qed.

Lemma only_at_trans r cs1 cs2 cs3 : only_at r cs1 cs2 -> only_at r cs2 cs3 -> only_at r cs1 cs3.
Proof.
  intros (E1 & E2 & H1) (E3 & E4 & H2). split_and!; [congruence|congruence|]. intros r' Hr.
  destruct (H1 r' Hr), (H2 r' Hr). split; congruence.
Qed.

Lemma extend_entry_of (m : gmap BlockRef (gset N)) r ts r' :
  default ∅ (extend_entry m r ts !! r') = if decide (r' = r) then ts ∪ default ∅ (m !! r) else default ∅ (m !! r').
Proof.
  unfold extend_entry. case_decide as E; [subst; by rewrite lookup_insert_eq|by rewrite lookup_insert_ne].
Qed.

Lemma extend_entry_ne (m : gmap BlockRef (gset N)) r ts r' : r' <> r -> extend_entry m r ts !! r' = m !! r'.
Proof. intros Hr. unfold extend_entry. by rewrite lookup_insert_ne. Qed.

(** The reject votes on a block are sorted into pending and rejected. *)
Lemma direct_votes_fold r (l : list (N * N)) : forall cs,
  let cs' := foldl (fun self '(transaction_index, stake) =>
                 if stake <? c_quorum_threshold c then
                   with_transactions self
                     (extend_entry (cs_pending_transactions self) r {[transaction_index]})
                     (cs_rejected_transactions self)
                 else
                   with_transactions self (cs_pending_transactions self)
                     (extend_entry (cs_rejected_transactions self) r {[transaction_index]})) cs l in
  only_at r cs cs'
  /\ (forall t, t ∈ pending_of cs' r <-> t ∈ pending_of cs r \/ exists s, (t, s) ∈ l /\ s < c_quorum_threshold c)
  /\ (forall t, t ∈ rejected_of cs' r <-> t ∈ rejected_of cs r \/ exists s, (t, s) ∈ l /\ c_quorum_threshold c <= s).
Proof.
  induction l as [|[t0 s0] l IH]; intros cs cs'.
  { split_and!; [done|set_solver..]. }
  unfold cs'. cbn [foldl]. set (cs1 := if s0 <? _ then _ else _). destruct (IH cs1) as (Ho & Hp & Hr).
  assert (only_at r cs cs1) as Ho1.
  { unfold cs1. destruct (s0 <? _); split_and!; try done; intros r' Hr'; simpl; by rewrite extend_entry_ne. }
  split; [by eapply only_at_trans|]. clear cs'.
  assert (forall t, (t ∈ pending_of cs1 r <-> t ∈ pending_of cs r \/ (t = t0 /\ s0 < c_quorum_threshold c))
    /\ (t ∈ rejected_of cs1 r <-> t ∈ rejected_of cs r \/ (t = t0 /\ c_quorum_threshold c <= s0))) as H1.
  { intros t. unfold cs1, pending_of, rejected_of. destruct (N.ltb_spec s0 (c_quorum_threshold c)); simpl;
      rewrite extend_entry_of, decide_True by done; rewrite elem_of_union, elem_of_singleton; split; split; intros; (tauto || lia || naive_solver lia). }
  split; intros t; [rewrite Hp|rewrite Hr]; destruct (H1 t) as [E1 E2]; [rewrite E1|rewrite E2]; setoid_rewrite elem_of_cons; naive_solver.
Qed.

Lemma get_reject_votes_elem votes r info :
  vt_votes votes !! r = Some info ->
  exists l, get_reject_votes votes r = Some l
    /\ forall t s, (t, s) ∈ l <-> exists agg, reject_txn_votes info !! t = Some agg /\ s = agg_stake agg.
Proof.
  intros E. unfold get_reject_votes. rewrite E. eexists. split; [done|]. intros t s. rewrite list_elem_of_fmap. split.
  - intros ([t' agg] & [= -> ->] & Hin%elem_of_btree_map_iter). by exists agg.
  - intros (agg & Hin & ->). exists (t, agg). split; [done|]. by apply elem_of_btree_map_iter.
Qed.

Lemma transaction_indices_spec n t : n <= u16_MAX -> t ∈ transaction_indices n <-> t < n.
Proof.
  intros Hn. unfold transaction_indices, u16_wrap. rewrite N.mod_small by (unfold u16_MAX in *; lia).
  rewrite elem_of_list_to_set, list_elem_of_fmap. split.
  - intros (i & -> & Hi%elem_of_seq). lia.
  - intros Ht. exists (N.to_nat t). rewrite elem_of_seq. lia.
Qed.

Lemma direct_finalize_block_Ok votes gc cs r n :
  is_Some (vt_votes votes !! r) -> is_valid_index c (br_author r) = true -> n <= u16_MAX ->
  exists cs', direct_finalize_block ctx votes gc cs (r, n) = Ok cs' /\ only_at r cs cs'
    /\ (forall t, t ∈ rejected_of cs' r -> t ∈ rejected_of cs r \/ quorum_rejects c votes r t)
    /\ (forall t, t < n -> t ∉ pending_of cs' r -> t ∉ rejected_of cs' r -> no_rejects votes r t /\ gc < br_round r).
Proof.
  intros [info Hinfo] Hv Hn. unfold direct_finalize_block.
  destruct (committee_authority_Ok c _ Hv) as [au Hau].
  destruct ((br_round r <=? gc) && (0 <? n)) eqn:Eg.
  - rewrite Hau. cbn [mbind outcome_bind]. eexists. split; [done|]. split_and!.
    + split_and!; try done. intros r' Hr'. simpl. by rewrite extend_entry_ne.
    + intros t Ht. by left.
    + intros t Ht Hp _. exfalso. apply Hp. unfold pending_of. simpl. rewrite extend_entry_of, decide_True by done.
      apply elem_of_union_l. by apply transaction_indices_spec.
  - destruct (get_reject_votes_elem votes r info Hinfo) as (l & -> & Hl). cbn [unwrap mbind outcome_bind]. rewrite Hau.
    cbn [mbind outcome_bind]. eexists. split; [done|]. destruct (direct_votes_fold r l cs) as (Ho & Hp & Hr).
    split; [exact Ho|]. split.
    + intros t [?|(s & Hin & Hq)]%Hr; [by left|right]. apply Hl in Hin as (agg & Hagg & ->). by exists info, agg.
    + intros t Ht Hnp Hnr. split.
      * exists info. split; [done|]. destruct (reject_txn_votes info !! t) as [agg|] eqn:Ea; [|done]. exfalso.
        destruct (N.lt_ge_cases (agg_stake agg) (c_quorum_threshold c)) as [Hlt|Hge].
        -- apply Hnp, Hp. right. exists (agg_stake agg). split; [|done]. apply Hl. by exists agg.
        -- apply Hnr, Hr. right. exists (agg_stake agg). split; [|done]. apply Hl. by exists agg.
      * apply andb_false_iff in Eg as [Eg|Eg]; [by apply N.leb_gt|apply N.ltb_ge in Eg; lia].
Qed.

Lemma direct_blocks_Ok votes gc l : forall cs,
  NoDup l.*1 ->
  (forall r n, (r, n) ∈ l -> is_Some (vt_votes votes !! r) /\ is_valid_index c (br_author r) = true /\ n <= u16_MAX) ->
  exists cs', foldM (direct_finalize_block ctx votes gc) l cs = Ok cs'
    /\ cs_commit cs' = cs_commit cs /\ cs_pending_blocks cs' = cs_pending_blocks cs
    /\ (forall r, r ∉ l.*1 -> cs_pending_transactions cs' !! r = cs_pending_transactions cs !! r
                           /\ cs_rejected_transactions cs' !! r = cs_rejected_transactions cs !! r)
    /\ (forall r n, (r, n) ∈ l ->
          (forall t, t ∈ rejected_of cs' r -> t ∈ rejected_of cs r \/ quorum_rejects c votes r t)
          /\ (forall t, t < n -> t ∉ pending_of cs' r -> t ∉ rejected_of cs' r -> no_rejects votes r t /\ gc < br_round r)).
Proof.
  induction l as [|[r0 n0] l IH]; intros cs Hnd Hl; cbn [foldM].
  { exists cs. split_and!; try done. intros r n Hin. inversion Hin. }
  apply NoDup_cons in Hnd as [Hn0 Hnd]. destruct (Hl r0 n0) as (Ht0 & Hv0 & Hu0); [by left|].
  destruct (direct_finalize_block_Ok votes gc cs r0 n0 Ht0 Hv0 Hu0) as (cs1 & -> & (Ec1 & Eb1 & Ho1) & Hr1 & Hf1).
  cbn [mbind outcome_bind]. destruct (IH cs1 Hnd) as (cs' & -> & Ec & Eb & Ho & Hin); [intros r n Hi; apply Hl; by right|].
  exists cs'. split; [done|]. rewrite Ec, Eb. split_and!; [done|done| |].
  - intros r Hr. rewrite fmap_cons, not_elem_of_cons in Hr. destruct Hr as [Hne Hr]. destruct (Ho r Hr) as [-> ->]. by apply Ho1.
  - intros r n [[= -> ->]|Hi]%elem_of_cons.
    + destruct (Ho r0 Hn0) as [E1 E2]. unfold pending_of, rejected_of. rewrite E1, E2. done.
    + assert (r <> r0) as Hne by (intros ->; apply Hn0; by apply (list_elem_of_fmap_2 fst) in Hi).
      destruct (Hin r n Hi) as [Ha Hb]. split; [|done]. intros t Ht. destruct (Ha t Ht) as [Hi'|?]; [left|by right].
      unfold rejected_of in *. by destruct (Ho1 r Hne) as [_ <-].
Qed.

Section now.
Context (H : history) (votes : VoteTrackerState) (sd : CommittedSubDag).
Notation H' := (H ++ [(votes, sd)]).
Context (Hc : committee_wf c) (W : stream_ok c H'.*2).

(** No leader three rounds above the [i]th commit was known before. *)
Definition timely (i : nat) (sdi : CommittedSubDag) : Prop :=
  forall j sdj, (i <= j < length H)%nat -> H.*2 !! j = Some sdj -> sub_round sdj < sub_round sdi + 3.

Lemma decide_now i sdi J :
  H'.*2 !! i = Some sdi -> timely i sdi -> J votes sdi sd (drop i H'.*2) -> decided_at H' i J.
Proof.
  intros Hi Ht HJ. exists (length H), votes, sdi, sd. split_and!; [done| | | |by rewrite segment_last].
  - by rewrite lookup_app_r, Nat.sub_diag.
  - apply lookup_lt_Some in Hi. rewrite length_fmap, length_app in Hi. simpl in Hi. lia.
  - intros j sdj Hj. rewrite fmap_app, lookup_app_l; [by apply Ht|]. rewrite length_fmap. lia.
Qed.

Lemma commit_in i sdi b :
  H'.*2 !! i = Some sdi -> b ∈ sd_blocks sdi -> b ∈ pool H'.*2.
Proof. intros Hi Hb. apply pool_position. by exists i, sdi. Qed.

Lemma commit_refs i sdi : H'.*2 !! i = Some sdi -> NoDup (reference <$> sd_blocks sdi).
Proof.
  intros Hi. pose proof (so_refs _ _ W) as Hnd. apply take_drop_middle in Hi. rewrite <- Hi, pool_app, fmap_app in Hnd.
  apply NoDup_app in Hnd as (_ & _ & Hnd). change (pool (sdi :: ?l)) with (sd_blocks sdi ++ pool l) in Hnd.
  rewrite fmap_app in Hnd. by apply NoDup_app in Hnd as (? & _ & _).
Qed.

Definition tracked (sdi : CommittedSubDag) : Prop :=
  forall b, b ∈ sd_blocks sdi -> is_Some (vt_votes votes !! reference b).

Lemma leader_depth cs i : state_ok H' i cs -> u32_add (commit_leader_round cs) 3 = sub_round (cs_commit cs) + 3.
Proof.
  intros S. apply u32_add_small. apply (so_bounds _ _ W). eapply list_elem_of_lookup_2, (st_commit _ _ _ S).
Qed.

Lemma try_direct_finalize_commit_Ok i cs :
  state_ok H' i cs -> timely i (cs_commit cs) -> tracked (cs_commit cs) -> cs_pending_blocks cs <> ∅ ->
  decided_with_local_blocks (cs_commit cs) = true \/ sub_round (cs_commit cs) + 3 <= sub_round sd ->
  exists cs', try_direct_finalize_commit ctx votes cs = Ok cs' /\ state_ok H' i cs'
    /\ cs_commit cs' = cs_commit cs /\ cs_pending_blocks cs' = ∅.
Proof.
  intros S Ht Htr Hne Hwhen. pose proof (st_commit _ _ _ S) as Hi. pose proof (commit_refs i _ Hi) as Hnd.
  destruct (st_phase _ _ _ S) as [(Epb & Ep & Er)|?]; [|done].
  unfold try_direct_finalize_commit. rewrite bool_decide_eq_false_2 by done. cbn [negb assert_that mbind outcome_bind].
  change INDIRECT_REJECT_DEPTH with 3. rewrite (leader_depth cs i S). set (gc := context_gc_round ctx _). rewrite Epb, Ep, Er.
  assert (forall r n, (r, n) ∈ btree_map_iter (pending_map (cs_commit cs)) <->
    exists b, b ∈ sd_blocks (cs_commit cs) /\ reference b = r /\ n = num_transactions b) as Hmap.
  { intros r n. by rewrite elem_of_btree_map_iter, pending_map_lookup. }
  destruct (direct_blocks_Ok votes gc (btree_map_iter (pending_map (cs_commit cs))) (mkCommitState (cs_commit cs) ∅ ∅ ∅))
    as (cs' & -> & Ec & Eb & Ho & Hin).
  - apply btree_map_iter_NoDup.
  - intros r n (b & Hb & <- & ->)%Hmap. split_and!; [by apply Htr| |].
    + apply (wb_author c b), (so_wf _ _ W). by apply (commit_in i _ b Hi).
    + apply (so_fits _ _ W). by apply (commit_in i _ b Hi).
  - simpl in Ec, Eb. exists cs'. split; [done|]. split; [|done].
    assert (forall r, r ∈ reference <$> sd_blocks (cs_commit cs) \/ (cs_pending_transactions cs' !! r = None
              /\ cs_rejected_transactions cs' !! r = None)) as Hcases.
    { intros r. destruct (decide (r ∈ (btree_map_iter (pending_map (cs_commit cs))).*1)) as [Hr|Hr]; [left|right].
      - apply list_elem_of_fmap in Hr as ([r' n] & -> & Hr). apply Hmap in Hr as (x & Hx & <- & _). by apply (list_elem_of_fmap_2 reference).
      - destruct (Ho r Hr) as [-> ->]. simpl. by rewrite !lookup_empty. }
    constructor.
    + by rewrite Ec.
    + by right.
    + intros r Hk. rewrite Ec. destruct (Hcases r) as [?|[E1 E2]]; [done|]. rewrite E1, E2 in Hk. by destruct Hk as [[]|[]].
    + intros r t Hrt. destruct (Hcases r) as [Hr|[_ E2]]; [|unfold rejected_of in Hrt; rewrite E2 in Hrt; simpl in Hrt; set_solver].
      apply list_elem_of_fmap in Hr as (b & -> & Hb).
      destruct (Hin (reference b) (num_transactions b)) as [Hq _]; [apply Hmap; by exists b|].
      destruct (Hq t Hrt) as [Hx|Hx]; [unfold rejected_of in Hx; simpl in Hx; rewrite lookup_empty in Hx; simpl in Hx; set_solver|].
      apply (decide_now i (cs_commit cs)); [done|done|]. by left.
    + intros b t _ Hb Hlt Hnp Hnr. rewrite Ec in Hb.
      destruct (Hin (reference b) (num_transactions b)) as [_ Hf]; [apply Hmap; by exists b|].
      destruct (Hf t Hlt Hnp Hnr) as [Hno Hgc].
      apply (decide_now i (cs_commit cs)); [done|done|]. by left.
Qed.

Lemma direct_finalize_commits_Ok ps : forall o,
  (forall j cs, ps !! j = Some cs ->
     state_ok H' (o + j) cs /\ timely (o + j) (cs_commit cs) /\ tracked (cs_commit cs)) ->
  exists ps', direct_finalize_commits ctx votes (sub_round sd) ps = Ok ps'
    /\ cs_commit <$> ps' = cs_commit <$> ps
    /\ (forall j cs, ps' !! j = Some cs -> state_ok H' (o + j) cs)
    /\ (forall cs, cs ∈ ps' -> sub_round (cs_commit cs) + 3 <= sub_round sd -> cs_pending_blocks cs = ∅).
Proof.
  induction ps as [|cs ps IH]; intros o Hps.
  { exists []. split_and!; try done. intros cs Hcs. inversion Hcs. }
  destruct (Hps O cs eq_refl) as (S0 & T0 & K0). rewrite Nat.add_0_r in S0, T0.
  assert (forall j cs, ps !! j = Some cs ->
     state_ok H' (Datatypes.S o + j) cs /\ timely (Datatypes.S o + j) (cs_commit cs) /\ tracked (cs_commit cs)) as Hrest.
  { intros j cs' Hj. rewrite Nat.add_succ_comm. by apply Hps. }
  destruct (IH (Datatypes.S o) Hrest) as (ps' & E & Ec & Hst & Hold).
  assert (forall cs', cs_commit cs' = cs_commit cs -> state_ok H' o cs' -> cs_pending_blocks cs' = ∅ ->
    exists ps'', Ok (cs' :: ps') = Ok ps'' /\ cs_commit <$> ps'' = cs_commit <$> cs :: ps
      /\ (forall j cs, ps'' !! j = Some cs -> state_ok H' (o + j) cs)
      /\ (forall cs, cs ∈ ps'' -> sub_round (cs_commit cs) + 3 <= sub_round sd -> cs_pending_blocks cs = ∅)) as Hcons.
  { intros cs' Ecs Scs Hpb. exists (cs' :: ps'). split; [done|]. split_and!.
    - rewrite !fmap_cons, Ecs. by f_equal.
    - intros [|j] x Hj; [injection Hj as <-; by rewrite Nat.add_0_r|]. rewrite <- Nat.add_succ_comm. by apply Hst.
    - intros x [->|Hx]%elem_of_cons; [done|by apply Hold]. }
  cbn [direct_finalize_commits]. case_bool_decide as Hpb.
  { rewrite E. cbn [mbind outcome_bind]. by apply Hcons. }
  change DEFAULT_WAVE_LENGTH with 3. rewrite (leader_depth cs o S0).
  destruct (negb (decided_with_local_blocks (cs_commit cs)) && (sub_round sd <? sub_round (cs_commit cs) + 3)) eqn:Eb.
  - apply andb_prop in Eb as [_ Hlt%N.ltb_lt]. exists (cs :: ps). split_and!; [done|done| |].
    + intros j x Hj. by apply Hps.
    + intros x [j Hj]%list_elem_of_lookup Hle. destruct (Hps j x Hj) as (Sx & _).
      exfalso. destruct j as [|j]; [injection Hj as <-; lia|].
      pose proof (rounds_increase ctx _ _ _ _ _ W (st_commit _ _ _ S0) (st_commit _ _ _ Sx) ltac:(lia)). lia.
  - destruct (try_direct_finalize_commit_Ok o cs S0 T0 K0 Hpb) as (cs' & -> & Scs & Ecs & Hpb').
    { apply andb_false_iff in Eb as [Hl%negb_false_iff|Hl%N.ltb_ge]; [by left|by right]. }
    cbn [mbind outcome_bind]. rewrite E. cbn [mbind outcome_bind]. by apply Hcons.
Qed.

(* ------------------------------------------------------------------ *)
(** ** Indirect finalization *)

Lemma remove_pending_spec cs r ts :
  let cs' := remove_pending_transactions cs r ts in
  cs_commit cs' = cs_commit cs /\ cs_pending_blocks cs' = cs_pending_blocks cs
  /\ cs_rejected_transactions cs' = cs_rejected_transactions cs
  /\ (forall r', pending_of cs' r' = if decide (r' = r) then pending_of cs r ∖ ts else pending_of cs r')
  /\ (forall r', is_Some (cs_pending_transactions cs' !! r') -> is_Some (cs_pending_transactions cs !! r')).
Proof.
  unfold remove_pending_transactions, pending_of. destruct (cs_pending_transactions cs !! r) as [s|] eqn:E; cbn zeta.
  2:{ split_and!; try done. intros r'. case_decide as Hr; [subst; rewrite E; simpl; set_solver|done]. }
  split_and!; try done; cbn [with_transactions cs_pending_transactions].
  - intros r'. case_bool_decide as He; case_decide as Hr; subst; rewrite ?lookup_delete_eq, ?lookup_insert_eq,
      ?lookup_delete_ne, ?lookup_insert_ne by done; simpl; try done.
  - intros r'. case_bool_decide as He; destruct (decide (r' = r)) as [->|Hr]; rewrite ?lookup_delete_eq, ?lookup_insert_eq,
      ?lookup_delete_ne, ?lookup_insert_ne by done; try done; intros [? [=]]; by rewrite E.
Qed.

Lemma reject_transactions_Ok i cs r ts :
  state_ok H' i cs -> cs_pending_blocks cs = ∅ -> r ∈ reference <$> sd_blocks (cs_commit cs) ->
  (forall t, t ∈ ts -> reject_justified H' i r t) ->
  let cs' := reject_transactions cs (r, ts) in
  state_ok H' i cs' /\ cs_commit cs' = cs_commit cs /\ cs_pending_blocks cs' = ∅.
Proof.
  intros S Hpb Hr Hts cs'. destruct (remove_pending_spec cs r ts) as (E1 & E2 & E3 & Hp & Hk).
  set (cs1 := remove_pending_transactions cs r ts) in *. cbn zeta in *.
  assert (cs_commit cs' = cs_commit cs) as Ec by done.
  assert (cs_pending_blocks cs' = ∅) as Epb by (change (cs_pending_blocks cs1 = ∅); by rewrite E2).
  assert (forall r', pending_of cs' r' = pending_of cs1 r') as Hp' by done.
  assert (forall r', rejected_of cs' r' = if decide (r' = r) then ts ∪ rejected_of cs r else rejected_of cs r') as Hrej.
  { intros r'. change (default ∅ (extend_entry (cs_rejected_transactions cs1) r ts !! r') = if decide (r' = r) then ts ∪ rejected_of cs r else rejected_of cs r').
    rewrite E3. apply extend_entry_of. }
  split; [|done]. constructor.
  - rewrite Ec. apply (st_commit _ _ _ S).
  - by right.
  - intros r' Hk'. rewrite Ec. destruct (decide (r' = r)) as [->|Hne]; [done|]. apply (st_keys _ _ _ S).
    destruct Hk' as [Hk'|Hk']; [left; by apply Hk|right].
    change (is_Some (extend_entry (cs_rejected_transactions cs1) r ts !! r')) in Hk'. by rewrite extend_entry_ne, E3 in Hk' by done.
  - intros r' t. rewrite Hrej. case_decide as E; [subst|apply (st_rejected _ _ _ S)].
    intros [Ht|Ht]%elem_of_union; [by apply Hts|by apply (st_rejected _ _ _ S)].
  - intros b t _ Hb Hlt. rewrite Ec in Hb. rewrite Hp', Hrej, Hp. case_decide as E; intros Hnp Hnr;
      apply (st_final _ _ _ S); try done; rewrite E in *; set_solver.
Qed.

Lemma reject_all_Ok i cs l :
  state_ok H' i cs -> cs_pending_blocks cs = ∅ ->
  (forall r ts, (r, ts) ∈ l -> r ∈ reference <$> sd_blocks (cs_commit cs) /\ forall t, t ∈ ts -> reject_justified H' i r t) ->
  let cs' := foldl reject_transactions cs l in
  state_ok H' i cs' /\ cs_commit cs' = cs_commit cs /\ cs_pending_blocks cs' = ∅.
Proof.
  revert cs. induction l as [|[r ts] l IH]; intros cs S Hpb Hl; [done|]. cbn [foldl].
  destruct (Hl r ts) as [Hr Hts]; [by left|].
  destruct (reject_transactions_Ok i cs r ts S Hpb Hr Hts) as (S1 & E1 & P1).
  destruct (IH (reject_transactions cs (r, ts)) S1 P1) as (S2 & E2 & P2).
  - intros r' ts' Hin. rewrite E1. apply Hl. by right.
  - split_and!; [done|by rewrite E2|done].
Qed.

Lemma reject_map_lookup (l : list (N * N)) : forall (m : gmap N N) t,
  (exists s, (t, s) ∈ l /\ foldl (fun m '(t, stake) => <[t := stake]> m) m l !! t = Some s)
  \/ foldl (fun m '(t, stake) => <[t := stake]> m) m l !! t = m !! t.
Proof.
  induction l as [|[t0 s0] l IH]; intros m t; cbn [foldl]; [by right|].
  destruct (IH (<[t0 := s0]> m) t) as [(s & Hs & E)|E].
  - left. exists s. split; [by right|done].
  - rewrite E. destruct (decide (t = t0)) as [->|Hne]; [left; exists s0; split; [by left|by rewrite lookup_insert_eq]|].
    right. by rewrite lookup_insert_ne.
Qed.

Lemma late_rejects_Ok r ts :
  is_Some (vt_votes votes !! r) ->
  exists late, late_rejects ctx votes (r, ts) = Ok (r, late) /\ forall t, t ∈ late -> quorum_rejects c votes r t.
Proof.
  intros [info Hinfo]. unfold late_rejects. destruct (get_reject_votes_elem votes r info Hinfo) as (l & -> & Hl).
  cbn [unwrap mbind outcome_bind]. eexists. split; [done|]. intros t. rewrite elem_of_list_to_set, list_elem_of_In, filter_In.
  intros [_ Hq%negb_true_iff%N.ltb_ge]. destruct (reject_map_lookup l ∅ t) as [(s & Hin & E)|E]; rewrite E in Hq.
  - apply Hl in Hin as (agg & Hagg & ->). by exists info, agg.
  - rewrite lookup_empty in Hq. simpl in Hq. pose proof (quorum_positive c Hc). lia.
Qed.

Lemma pending_key i cs r ts :
  state_ok H' i cs -> (r, ts) ∈ btree_map_iter (cs_pending_transactions cs) ->
  r ∈ reference <$> sd_blocks (cs_commit cs) /\ cs_pending_transactions cs !! r = Some ts.
Proof.
  intros S Hin%elem_of_btree_map_iter. split; [|done]. apply (st_keys _ _ _ S). left. by eexists.
Qed.

Lemma check_pending_Ok i cs :
  state_ok H' i cs -> timely i (cs_commit cs) -> tracked (cs_commit cs) -> cs_pending_blocks cs = ∅ ->
  exists cs', check_pending_transactions_in_first_commit ctx votes cs = Ok cs'
    /\ state_ok H' i cs' /\ cs_commit cs' = cs_commit cs /\ cs_pending_blocks cs' = ∅.
Proof.
  intros S Ht Htr Hpb. unfold check_pending_transactions_in_first_commit.
  assert (forall x, x ∈ btree_map_iter (cs_pending_transactions cs) -> exists late,
    late_rejects ctx votes x = Ok (x.1, late) /\ forall t, t ∈ late -> quorum_rejects c votes x.1 t) as Hlate.
  { intros [r ts] Hin. destruct (pending_key i cs r ts S Hin) as [(b & -> & Hb)%list_elem_of_fmap _].
    apply late_rejects_Ok. by apply Htr. }
  destruct (mapM_total (late_rejects ctx votes) (btree_map_iter (cs_pending_transactions cs))) as [k Ek].
  { intros x Hx. destruct (Hlate x Hx) as (late & -> & _). by eexists. }
  rewrite Ek. cbn [mbind outcome_bind]. eexists. split; [done|].
  apply reject_all_Ok; [done..|]. intros r ts Hin%list_elem_of_In. apply filter_In in Hin as [Hin%list_elem_of_In _].
  apply mapM_inv in Ek. apply list_elem_of_lookup in Hin as [n Hn].
  destruct (Forall2_lookup_r _ _ _ _ _ Ek Hn) as ([r0 ts0] & Hx & Ex).
  apply list_elem_of_lookup_2 in Hx. destruct (Hlate _ Hx) as (late & El & Hq). rewrite Ex in El. injection El as -> ->.
  split; [by apply (pending_key i cs r0 ts0 S)|]. intros t Htt. apply (decide_now i (cs_commit cs)); [apply (st_commit _ _ _ S)|done|].
  left. by apply Hq.
Qed.

Lemma remove_all_spec (l : list (BlockRef * list N)) : forall cs,
  let cs' := foldl (fun self '(r, fin) => remove_pending_transactions self r (list_to_set fin)) cs l in
  cs_commit cs' = cs_commit cs /\ cs_pending_blocks cs' = cs_pending_blocks cs
  /\ cs_rejected_transactions cs' = cs_rejected_transactions cs
  /\ (forall r t, t ∈ pending_of cs' r <-> t ∈ pending_of cs r /\ ~ exists fin, (r, fin) ∈ l /\ t ∈ fin)
  /\ (forall r, is_Some (cs_pending_transactions cs' !! r) -> is_Some (cs_pending_transactions cs !! r)).
Proof.
  induction l as [|[r0 fin0] l IH]; intros cs; cbn [foldl].
  { split_and!; try done. intros r t. split; [|tauto]. intros ?. split; [done|]. intros (? & Hin & _). inversion Hin. }
  destruct (remove_pending_spec cs r0 (list_to_set fin0)) as (E1 & E2 & E3 & Hp & Hk). cbn zeta in *.
  destruct (IH (remove_pending_transactions cs r0 (list_to_set fin0))) as (F1 & F2 & F3 & Hp' & Hk').
  split_and!; [congruence|congruence|congruence| |auto].
  intros r t. rewrite Hp', Hp. setoid_rewrite elem_of_cons. case_decide as E; [subst|].
  - rewrite elem_of_difference, elem_of_list_to_set. naive_solver.
  - naive_solver.
Qed.

Lemma indirect_finalize_first_Ok i cs ps m :
  state_ok H' i cs -> timely i (cs_commit cs) -> cs_pending_blocks cs = ∅ ->
  cs_commit <$> ps = drop (Datatypes.S i) H'.*2 -> links_ok (drop i H'.*2) m ->
  exists cs', try_indirect_finalize_pending_transactions_in_first_commit ctx m (pending_gc_rounds ctx (cs :: ps)) cs = Ok cs'
    /\ state_ok H' i cs' /\ cs_commit cs' = cs_commit cs /\ cs_pending_blocks cs' = ∅
    /\ (forall r t, t ∈ pending_of cs' r -> ~ accepted_in ctx (drop i H'.*2) r t).
Proof.
  intros S Ht Hpb Hps Lk. pose proof (st_commit _ _ _ S) as Hi. pose proof (drop_S _ _ _ Hi) as Hd. rewrite <- Hps in Hd.
  assert (stream_ok c (drop i H'.*2)) as Wd by (apply (stream_suffix c (take i H'.*2)); by rewrite take_drop).
  assert (pending_gc_rounds ctx (cs :: ps) = (fun sd => (sub_index sd, context_gc_round ctx (sub_round sd))) <$> drop i H'.*2) as Hgc.
  { rewrite Hd. unfold pending_gc_rounds. rewrite !fmap_cons, <- list_fmap_compose. done. }
  unfold try_indirect_finalize_pending_transactions_in_first_commit. rewrite Hgc.
  set (run := fun x : BlockRef * gset N => _). set (seg := drop i H'.*2) in *.
  assert (forall x, x ∈ btree_map_iter (cs_pending_transactions cs) -> exists fin,
    run x = Ok (x.1, fin) /\ forall t, t ∈ fin <-> t ∈ x.2 /\ accepted_in ctx seg x.1 t) as Hrun.
  { intros [r ts] Hin. destruct (pending_key i cs r ts S Hin) as [(b & -> & Hb)%list_elem_of_fmap _].
    pose proof (indirect_finalize_Ok ctx Hc (cs_commit cs) (cs_commit <$> ps) m) as Hfin. rewrite <- Hd in Hfin.
    destruct (Hfin Wd Lk b Hb ts) as (fin & E & Hf). exists fin. unfold run. rewrite E. by split. }
  destruct (mapM_total run (btree_map_iter (cs_pending_transactions cs))) as [k Ek].
  { intros x Hx. destruct (Hrun x Hx) as (fin & -> & _). by eexists. }
  rewrite Ek. cbn [mbind outcome_bind]. apply mapM_inv in Ek.
  assert (forall r fin, (r, fin) ∈ List.filter (fun finalized => negb (is_empty finalized.2)) k ->
    r ∈ reference <$> sd_blocks (cs_commit cs) /\ forall t, t ∈ fin -> accepted_in ctx seg r t) as Hk.
  { intros r fin Hin%list_elem_of_In. apply filter_In in Hin as [Hin%list_elem_of_In _].
    apply list_elem_of_lookup in Hin as [n Hn]. destruct (Forall2_lookup_r _ _ _ _ _ Ek Hn) as ([r0 ts0] & Hx & Ex).
    apply list_elem_of_lookup_2 in Hx. destruct (Hrun _ Hx) as (fin' & El & Hf). rewrite Ex in El. injection El as -> ->.
    split; [by apply (pending_key i cs r0 ts0 S)|]. intros t Hin. by apply Hf. }
  destruct (remove_all_spec (List.filter (fun finalized => negb (is_empty finalized.2)) k) cs) as (E1 & E2 & E3 & Hp & Hkeys).
  eexists. split; [done|]. set (cs' := foldl _ _ _) in *. cbn zeta in *.
  assert (forall r, rejected_of cs' r = rejected_of cs r) as Hrej by (intros r; unfold rejected_of; by rewrite E3).
  split_and!; [constructor|done|congruence|].
  - by rewrite E1.
  - right. congruence.
  - intros r Hr. rewrite E1. apply (st_keys _ _ _ S). rewrite E3 in Hr. destruct Hr; [left; by apply Hkeys|by right].
  - intros r t. rewrite Hrej. apply (st_rejected _ _ _ S).
  - intros b t _ Hb Hlt Hnp. rewrite Hrej. intros Hnr. rewrite E1 in Hb.
    destruct (decide (t ∈ pending_of cs (reference b))) as [Hin|Hout]; [|by apply (st_final _ _ _ S)].
    apply (decide_now i (cs_commit cs)); [done|done|right]. pose proof Hin as Hin'. unfold pending_of in Hin'.
    destruct (cs_pending_transactions cs !! reference b) as [ts|] eqn:Ets; [|simpl in Hin'; set_solver]. simpl in Hin'.
    destruct (Hrun (reference b, ts)) as (fin & _ & Hf); [by apply elem_of_btree_map_iter|].
    destruct (decide (t ∈ fin)) as [Htf|Htf]; [by apply Hf|]. exfalso. apply Hnp, Hp. split; [done|].
    intros (fin' & Hfin & Hinf). apply Htf, Hf. split; [done|]. by apply (Hk _ _ Hfin).
  - intros r t [Hin Hno]%Hp Hacc. apply Hno. unfold pending_of in Hin.
    destruct (cs_pending_transactions cs !! r) as [ts|] eqn:Ets; [|simpl in Hin; set_solver]. simpl in Hin.
    assert ((r, ts) ∈ btree_map_iter (cs_pending_transactions cs)) as Hx by by apply elem_of_btree_map_iter.
    destruct (Hrun _ Hx) as (fin & Ef & Hf). exists fin.
    assert (t ∈ fin) as Htf by (apply Hf; done). split; [|done].
    apply list_elem_of_In, filter_In. split; [|by destruct fin; [inversion Htf|]].
    apply list_elem_of_In. apply list_elem_of_lookup in Hx as [n Hn].
    destruct (Forall2_lookup_l _ _ _ _ _ Ek Hn) as (y & Hy & Ey). rewrite Ef in Ey. injection Ey as <-.
    by eapply list_elem_of_lookup_2.
Qed.

Lemma extend_all_spec (l : list (BlockRef * gset N)) : forall m r,
  let m' := foldl (fun m '(r, ts) => extend_entry m r ts) m l in
  (forall t, t ∈ (default ∅ (m' !! r) : gset N) -> t ∈ (default ∅ (m !! r) : gset N) \/ exists ts, (r, ts) ∈ l /\ t ∈ ts)
  /\ (forall t, t ∈ (default ∅ (m !! r) : gset N) -> t ∈ (default ∅ (m' !! r) : gset N))
  /\ (forall ts t, (r, ts) ∈ l -> t ∈ ts -> t ∈ (default ∅ (m' !! r) : gset N))
  /\ (is_Some (m' !! r) -> is_Some (m !! r) \/ exists ts, (r, ts) ∈ l).
Proof.
  induction l as [|[r0 ts0] l IH]; intros m r; cbn [foldl].
  { split_and!; [tauto|done| |tauto]. intros ts t Hin. inversion Hin. }
  destruct (IH (extend_entry m r0 ts0) r) as (H1 & H2 & H3 & H4). cbn zeta in *.
  setoid_rewrite extend_entry_of in H1. setoid_rewrite extend_entry_of in H2. split_and!.
  - intros t Ht. setoid_rewrite elem_of_cons. destruct (H1 t Ht) as [Hin|(ts & ? & ?)]; [|right; exists ts; tauto].
    case_decide as E; [subst|tauto]. apply elem_of_union in Hin as [?|?]; [right; exists ts0; tauto|tauto].
  - intros t Ht. apply H2. case_decide as E; [subst; by apply elem_of_union_r|done].
  - intros ts t [[= -> ->]|Hin]%elem_of_cons Ht; [|by apply (H3 ts)]. apply H2. rewrite decide_True by done. by apply elem_of_union_l.
  - intros Hs. setoid_rewrite elem_of_cons. destruct (H4 Hs) as [Hm|(ts & ?)]; [|right; exists ts; tauto].
    destruct (decide (r = r0)) as [->|Hne]; [right; exists ts0; tauto|]. rewrite extend_entry_ne in Hm by done. tauto.
Qed.

Lemma indirect_reject_first_Ok i cs :
  state_ok H' i cs -> timely i (cs_commit cs) -> cs_pending_blocks cs = ∅ ->
  (forall r t, t ∈ pending_of cs r -> ~ accepted_in ctx (drop i H'.*2) r t) ->
  exists cs', try_indirect_reject_pending_transactions_in_first_commit (sub_round sd) cs = Ok cs'
    /\ state_ok H' i cs' /\ cs_commit cs' = cs_commit cs /\ cs_pending_blocks cs' = ∅
    /\ (sub_round (cs_commit cs) + 3 <= sub_round sd -> is_final cs').
Proof.
  intros S Ht Hpb Hna. unfold try_indirect_reject_pending_transactions_in_first_commit.
  change INDIRECT_REJECT_DEPTH with 3. rewrite (leader_depth cs i S).
  destruct (N.leb_spec (sub_round (cs_commit cs) + 3) (sub_round sd)) as [Hold|Hrecent].
  2:{ exists cs. split_and!; try done. lia. }
  rewrite bool_decide_eq_true_2 by done. cbn [assert_that mbind outcome_bind]. eexists. split; [done|].
  split_and!; [|done|done|done]. pose proof (extend_all_spec (btree_map_iter (cs_pending_transactions cs)) (cs_rejected_transactions cs)) as Hext.
  constructor; unfold with_transactions, rejected_of, pending_of; cbn [cs_commit cs_pending_blocks cs_pending_transactions cs_rejected_transactions].
  - apply (st_commit _ _ _ S).
  - by right.
  - intros r [[? Hr]|Hr]; [by rewrite lookup_empty in Hr|]. apply (st_keys _ _ _ S).
    destruct (Hext r) as (_ & _ & _ & Hk). destruct (Hk Hr) as [?|(ts & Hts)]; [by right|left].
    apply elem_of_btree_map_iter in Hts. by eexists.
  - intros r t Hrt. destruct (Hext r) as (Hd & _). destruct (Hd t Hrt) as [?|(ts & Hts%elem_of_btree_map_iter & Hin)]; [by apply (st_rejected _ _ _ S)|].
    apply (decide_now i (cs_commit cs)); [apply (st_commit _ _ _ S)|done|right]. split; [done|]. apply Hna.
    unfold pending_of. by rewrite Hts.
  - intros b t _ Hb Hlt _ Hnr. destruct (Hext (reference b)) as (_ & Hkeep & Hadd & _). apply (st_final _ _ _ S); [done..| |].
    + unfold pending_of. destruct (cs_pending_transactions cs !! reference b) as [ts|] eqn:E; [|simpl; set_solver]. simpl.
      intros Hin. apply Hnr. apply (Hadd ts); [by apply elem_of_btree_map_iter|done].
    + intros Hin. by apply Hnr, Hkeep.
Qed.
End now.
End verdicts.
