(* ===== verification/FinalizerRun.v ===== *)
(** * Runs of the commit finalizer

    Processing a commit returns, keeps the invariant, and outputs commits in
    order once each of their transactions has a verdict. *)

From S2P Require Import Prelude Committee Context Block StakeAggregator ThresholdClock Commit Error Store LeaderScoring DagState VoteTracker DagInv CommitObserver CommitFinalizer FinalizerVotes FinalizerLinks FinalizerAccept FinalizerInv.

Section run.
Context (ctx : Context) (Hc : committee_wf (committee ctx)).
Notation c := (committee ctx).

(** The finalizer after the commits of [H], of which [o] were output. *)
Record fin_inv (H : history) (o : nat) (self : CommitFinalizer) : Prop := {
  fi_context : fz_context self = ctx;
  fi_last : fz_last_processed_commit self = sub_index <$> last H.*2;
  fi_pending : cs_commit <$> fz_pending_commits self = drop o H.*2;
  fi_count : (o <= length H)%nat;
  fi_states : forall j cs, fz_pending_commits self !! j = Some cs -> state_ok ctx H (o + j) cs;
  fi_links : links_ok (drop o H.*2) (fz_blocks self);
  fi_recent : forall cs sd, cs ∈ fz_pending_commits self -> last H.*2 = Some sd ->
    sub_round sd < sub_round (cs_commit cs) + 3;
}.

(** Output from the [o]th commit on. *)
Definition outputs_ok (H : history) (o : nat) (outs : list CommittedSubDag) : Prop :=
  forall j x, outs !! j = Some x -> exists cs, x = finalized_commit cs /\ state_ok ctx H (o + j) cs /\ is_final cs.

Lemma outputs_app H o l1 l2 : outputs_ok H o l1 -> outputs_ok H (o + length l1) l2 -> outputs_ok H o (l1 ++ l2).
Proof.
  intros H1 H2 j x. rewrite lookup_app_Some. intros [Hj|[Hle Hj]]; [by apply H1|].
  destruct (H2 _ _ Hj) as (cs & ? & Hs & ?). exists cs. split_and!; try done. by replace (o + j)%nat with (o + length l1 + (j - length l1))%nat by lia.
Qed.

Lemma outputs_nil H o : outputs_ok H o [].
Proof. by intros j x. Qed.

Lemma outputs_snoc H x o outs : outputs_ok H o outs -> outputs_ok (H ++ [x]) o outs.
Proof.
  intros Hout j y Hj. destruct (Hout j y Hj) as (cs & ? & ? & ?). exists cs. split_and!; try done. by apply state_ok_snoc.
Qed.

Lemma fin_inv_start : fin_inv [] 0 (commit_finalizer_new ctx).
Proof.
  constructor; try done. apply links_nil.
Qed.

(** The blocks of a commit that leaves. *)
Definition pop_blocks (m : gmap BlockRef BlockState) (cs : CommitState) : gmap BlockRef BlockState :=
  foldl (fun m b => delete (reference b) m) m (sd_blocks (cs_commit cs)).

Lemma links_pops popped sds : forall m,
  stream_ok c ((cs_commit <$> popped) ++ sds) -> links_ok ((cs_commit <$> popped) ++ sds) m ->
  links_ok sds (foldl pop_blocks m popped).
Proof.
  induction popped as [|cs popped IH]; intros m W Lk; [done|]. cbn [foldl]. apply IH.
  - by apply (stream_suffix c [cs_commit cs]).
  - by apply (links_pop c Hc (cs_commit cs)).
Qed.

Lemma links_none m : links_ok [] m -> m = ∅.
Proof.
  intros Lk. apply map_empty. intros r. destruct (m !! r) as [st|] eqn:E; [|done].
  destruct (li_entry _ _ _ _ Lk r st E) as [_ Hin]. inversion Hin.
Qed.

Lemma pops_empty popped : foldl pop_blocks ∅ popped = ∅.
Proof.
  induction popped as [|cs popped IH]; [done|]. cbn [foldl]. assert (pop_blocks ∅ cs = ∅) as ->; [|done].
  unfold pop_blocks. induction (sd_blocks (cs_commit cs)) as [|b l IHl]; [done|]. cbn [foldl]. by rewrite delete_empty.
Qed.

Section process.
Context (H : history) (votes : VoteTrackerState) (sd : CommittedSubDag).
Notation H' := (H ++ [(votes, sd)]).
Context (W : stream_ok c H'.*2).

(** The invariant while the last commit is processed. *)
Record busy (o : nat) (self : CommitFinalizer) : Prop := {
  bz_context : fz_context self = ctx;
  bz_last : fz_last_processed_commit self = Some (sub_index sd);
  bz_pending : cs_commit <$> fz_pending_commits self = drop o H'.*2;
  bz_count : (o <= length H')%nat;
  bz_states : forall j cs, fz_pending_commits self !! j = Some cs -> state_ok ctx H' (o + j) cs;
  bz_known : forall j sdi, (o <= j)%nat -> H'.*2 !! j = Some sdi -> timely H j sdi /\ tracked votes sdi;
  bz_direct : forall cs, cs ∈ fz_pending_commits self -> sub_round (cs_commit cs) + 3 <= sub_round sd -> cs_pending_blocks cs = ∅;
}.

Lemma pop_finalized_Ok ps : forall m,
  exists popped rest, pop_finalized ps m = (finalized_commit <$> popped, rest, foldl pop_blocks m popped) /\ ps = popped ++ rest
    /\ (forall cs, cs ∈ popped -> is_final cs) /\ (forall cs, head rest = Some cs -> ~ is_final cs).
Proof.
  induction ps as [|cs ps IH]; intros m.
  { exists [], []. split_and!; try done. intros cs Hcs. inversion Hcs. }
  cbn [pop_finalized]. destruct (bool_decide (cs_pending_blocks cs = ∅) && bool_decide (cs_pending_transactions cs = ∅)) eqn:E.
  2:{ exists [], (cs :: ps). split_and!; try done; [intros x Hx; inversion Hx|].
      intros x [= <-] [H1 H2]. by rewrite !bool_decide_eq_true_2 in E. }
  apply andb_prop in E as [E1%bool_decide_eq_true E2%bool_decide_eq_true].
  destruct (IH (pop_blocks m cs)) as (popped & rest & E & -> & Hf & Hn). unfold pop_blocks at 1 in E. rewrite E.
  exists (cs :: popped), rest. split_and!; try done. intros x [->|Hx]%elem_of_cons; [done|by apply Hf].
Qed.

Lemma pop_commits_Ok o self :
  busy o self ->
  exists self' popped, pop_finalized_commits self = (self', finalized_commit <$> popped)
    /\ busy (o + length popped) self' /\ outputs_ok H' o (finalized_commit <$> popped)
    /\ fz_pending_commits self = popped ++ fz_pending_commits self'
    /\ (forall cs, head (fz_pending_commits self') = Some cs -> ~ is_final cs)
    /\ fz_blocks self' = foldl pop_blocks (fz_blocks self) popped.
Proof.
  intros B. unfold pop_finalized_commits.
  destruct (pop_finalized_Ok (fz_pending_commits self) (fz_blocks self)) as (popped & rest & -> & Hps & Hf & Hn).
  eexists _, popped. split; [done|]. cbn [fz_pending_commits fz_blocks].
  assert (forall j cs, rest !! j = Some cs -> fz_pending_commits self !! (length popped + j)%nat = Some cs) as Hrest.
  { intros j cs Hj. rewrite Hps, lookup_app_r by lia. by replace (length popped + j - length popped)%nat with j by lia. }
  split_and!; try done; [constructor; cbn [fz_context fz_last_processed_commit fz_pending_commits]|].
  - apply (bz_context _ _ B).
  - apply (bz_last _ _ B).
  - rewrite <- drop_drop, <- (bz_pending _ _ B), Hps, fmap_app, drop_app_length'; [done|]. by rewrite length_fmap.
  - assert (length (fz_pending_commits self) = length H' - o)%nat as Hl
      by (by rewrite <- (length_fmap cs_commit), (bz_pending _ _ B), length_drop, length_fmap).
    rewrite Hps, length_app in Hl. pose proof (bz_count _ _ B). lia.
  - intros j cs Hj. rewrite <- Nat.add_assoc. by apply (bz_states _ _ B), Hrest.
  - intros j sdi Hj. apply (bz_known _ _ B). lia.
  - intros cs [j Hj]%list_elem_of_lookup. apply (bz_direct _ _ B). apply Hrest in Hj. by eapply list_elem_of_lookup_2.
  - intros j x. rewrite list_lookup_fmap. intros (cs & Hj & ->)%fmap_Some. exists cs. split; [done|]. split.
    + apply (bz_states _ _ B). rewrite Hps. by apply lookup_app_l_Some.
    + apply Hf. by eapply list_elem_of_lookup_2.
Qed.

Lemma busy_links o self self' popped :
  busy o self -> fz_pending_commits self = popped ++ fz_pending_commits self' -> busy (o + length popped) self' ->
  links_ok (drop o H'.*2) (fz_blocks self) -> links_ok (drop (o + length popped) H'.*2) (foldl pop_blocks (fz_blocks self) popped).
Proof.
  intros B Ep B' Lk. assert (drop o H'.*2 = (cs_commit <$> popped) ++ drop (o + length popped) H'.*2) as Hd.
  { by rewrite <- (bz_pending _ _ B), <- (bz_pending _ _ B'), Ep, fmap_app. }
  rewrite Hd in Lk. apply links_pops; [|done]. rewrite <- Hd. apply (stream_suffix c (take o H'.*2)). by rewrite take_drop.
Qed.

Lemma last_pending o self :
  busy o self -> fz_pending_commits self <> [] ->
  exists cs, last (fz_pending_commits self) = Some cs /\ cs_commit cs = sd.
Proof.
  intros B Hne. destruct (last (fz_pending_commits self)) as [cs|] eqn:E; [|by apply last_None in E].
  exists cs. split; [done|]. assert (last (cs_commit <$> fz_pending_commits self) = Some (cs_commit cs)) as El by by rewrite fmap_last, E.
  rewrite (bz_pending _ _ B), fmap_app in El. change ([(votes, sd)].*2) with [sd] in El.
  assert (o <= length H)%nat as Ho.
  { destruct (le_lt_dec o (length H)) as [?|Hlt]; [done|]. rewrite drop_ge in El; [done|]. rewrite length_app, length_fmap. simpl. lia. }
  rewrite drop_app_le, last_snoc in El by by rewrite length_fmap. congruence.
Qed.

Lemma first_commit_Ok o self first rest :
  busy o self -> links_ok (drop o H'.*2) (fz_blocks self) ->
  fz_pending_commits self = first :: rest -> cs_pending_blocks first = ∅ ->
  exists self', try_indirect_finalize_first_commit votes self = Ok self'
    /\ busy o self' /\ fz_blocks self' = fz_blocks self
    /\ length (fz_pending_commits self') = length (fz_pending_commits self)
    /\ (forall cs, head (fz_pending_commits self') = Some cs -> cs_commit cs = cs_commit first
          /\ (sub_round (cs_commit first) + 3 <= sub_round sd -> is_final cs)).
Proof.
  intros B Lk Hps Hpb. pose proof (bz_states _ _ B O first ltac:(by rewrite Hps)) as S0. rewrite Nat.add_0_r in S0.
  pose proof (st_commit _ _ _ _ S0) as Ho. destruct (bz_known _ _ B o _ ltac:(done) Ho) as [T0 K0].
  pose proof (bz_pending _ _ B) as Hp. rewrite Hps, (drop_S _ _ _ Ho) in Hp. injection Hp as Hp.
  destruct (last_pending o self B ltac:(by rewrite Hps)) as (cl & Hlast & Hcl). rewrite Hps in Hlast.
  unfold try_indirect_finalize_first_commit. rewrite Hps, (bz_context _ _ B), bool_decide_eq_true_2 by done.
  cbn [assert_that mbind outcome_bind].
  destruct (check_pending_Ok ctx H votes sd Hc W o first S0 T0 K0 Hpb) as (cs1 & -> & S1 & C1 & P1).
  cbn [mbind outcome_bind].
  destruct (indirect_finalize_first_Ok ctx H votes sd Hc W o cs1 rest (fz_blocks self) S1 ltac:(by rewrite C1) P1 Hp Lk)
    as (cs2 & -> & S2 & C2 & P2 & N2). cbn [mbind outcome_bind].
  assert (exists cl', last (cs2 :: rest) = Some cl' /\ commit_leader_round cl' = sub_round sd) as (cl' & -> & Hlr).
  { destruct rest as [|y rest]; [exists cs2|exists cl; by rewrite <- Hcl]. simpl in Hlast. injection Hlast as <-.
    split; [done|]. unfold commit_leader_round. by rewrite C2, C1, Hcl. }
  cbn [unwrap mbind outcome_bind]. rewrite Hlr.
  destruct (indirect_reject_first_Ok ctx H votes sd Hc W o cs2 S2 ltac:(by rewrite C2, C1) P2 N2) as (cs3 & -> & S3 & C3 & P3 & F3).
  cbn [mbind outcome_bind]. eexists. split; [done|]. rewrite C2, C1 in C3. rewrite C2, C1 in F3.
  split_and!; [constructor| done | done | ]; cbn [set_pending fz_context fz_last_processed_commit fz_pending_commits].
  - apply (bz_context _ _ B).
  - apply (bz_last _ _ B).
  - rewrite fmap_cons, C3, <- fmap_cons, <- Hps. apply (bz_pending _ _ B).
  - apply (bz_count _ _ B).
  - intros [|j] cs Hj; [injection Hj as <-; by rewrite Nat.add_0_r|]. apply (bz_states _ _ B). by rewrite Hps.
  - apply (bz_known _ _ B).
  - intros cs [->|Hin]%elem_of_cons; [done|]. apply (bz_direct _ _ B). rewrite Hps. by right.
  - intros cs [= <-]. done.
Qed.

Definition recent (self : CommitFinalizer) : Prop :=
  forall cs, cs ∈ fz_pending_commits self -> sub_round sd < sub_round (cs_commit cs) + 3.

(** When the first pending commit is recent, all are. *)
Lemma first_recent o self :
  busy o self ->
  (forall cs, head (fz_pending_commits self) = Some cs -> sub_round sd < sub_round (cs_commit cs) + 3) -> recent self.
Proof.
  intros B Hf cs [j Hj]%list_elem_of_lookup. destruct (fz_pending_commits self) as [|first rest] eqn:E; [done|].
  specialize (Hf first eq_refl). destruct j as [|j]; [injection Hj as <-; done|].
  pose proof (bz_states _ _ B O first ltac:(by rewrite E)) as S0. pose proof (bz_states _ _ B (S j) cs ltac:(by rewrite E)) as S1.
  pose proof (rounds_increase ctx _ _ _ _ _ W (st_commit _ _ _ _ S0) (st_commit _ _ _ _ S1) ltac:(lia)). lia.
Qed.

Lemma indirect_finalize_commits_Ok fuel : forall o self acc,
  busy o self -> links_ok (drop o H'.*2) (fz_blocks self) -> (length (fz_pending_commits self) < fuel)%nat ->
  exists self' outs, indirect_finalize_commits fuel votes self acc = Ok (self', acc ++ outs)
    /\ busy (o + length outs) self' /\ outputs_ok H' o outs
    /\ links_ok (drop (o + length outs) H'.*2) (fz_blocks self') /\ recent self'.
Proof.
  induction fuel as [|fuel IH]; intros o self acc B Lk Hf; [lia|]. cbn [indirect_finalize_commits].
  assert (forall self', busy o self' -> links_ok (drop o H'.*2) (fz_blocks self') -> recent self' ->
    exists self'' outs, Ok (self', acc) = Ok (self'', acc ++ outs) /\ busy (o + length outs) self''
      /\ outputs_ok H' o outs /\ links_ok (drop (o + length outs) H'.*2) (fz_blocks self'') /\ recent self'') as Hstop.
  { intros self' B' Lk' R'. exists self', []. rewrite app_nil_r, Nat.add_0_r. split_and!; try done. }
  destruct (fz_pending_commits self) as [|first [|second rest]] eqn:E.
  - apply Hstop; [done..|]. intros cs. rewrite E. intros Hcs. inversion Hcs.
  - apply Hstop; [done..|]. apply (first_recent o self B). rewrite E. intros cs [= <-].
    destruct (last_pending o self B ltac:(by rewrite E)) as (cl & Hl & <-). rewrite E in Hl. injection Hl as <-. lia.
  - case_bool_decide as Hpb; cbn [negb].
    2:{ apply Hstop; [done..|]. apply (first_recent o self B). rewrite E. intros cs [= <-].
        destruct (N.lt_ge_cases (sub_round sd) (sub_round (cs_commit first) + 3)) as [?|Hle]; [done|].
        exfalso. apply Hpb, (bz_direct _ _ B); [rewrite E; by left|done]. }
    destruct (first_commit_Ok o self first (second :: rest) B Lk E Hpb) as (self1 & -> & B1 & Eb1 & El1 & Hh1).
    cbn [mbind outcome_bind]. destruct (pop_commits_Ok o self1 B1) as (self2 & popped & -> & B2 & O2 & Ep & N2 & K2).
    rewrite <- Eb1 in Lk. pose proof (busy_links o self1 self2 popped B1 Ep B2 Lk) as Lk2. rewrite <- K2 in Lk2.
    destruct popped as [|x popped]; [cbn [is_empty fmap list_fmap]|rewrite fmap_cons in *; cbn [is_empty]].
    + simpl in B2, Lk2. rewrite Nat.add_0_r in B2, Lk2.
      apply Hstop; [done..|]. apply (first_recent o self2 B2). intros cs Hcs.
      destruct (Hh1 cs) as [-> Hfin]; [by rewrite Ep|].
      destruct (N.lt_ge_cases (sub_round sd) (sub_round (cs_commit first) + 3)) as [?|Hle]; [done|].
      exfalso. apply (N2 cs Hcs). by apply Hfin.
    + destruct (IH _ self2 (acc ++ finalized_commit x :: (finalized_commit <$> popped)) B2 Lk2) as (self' & outs' & -> & B' & O' & K' & R').
      { rewrite E in El1. rewrite Ep, length_app in El1. simpl in *. lia. }
      exists self', ((finalized_commit x :: (finalized_commit <$> popped)) ++ outs').
      assert (length (finalized_commit x :: (finalized_commit <$> popped)) = length (x :: popped)) as El by (simpl; by rewrite length_fmap).
      rewrite <- app_assoc, length_app, El, Nat.add_assoc. split_and!; try done.
      apply outputs_app; [done|]. by rewrite El.
Qed.

Lemma new_state_ok : state_ok ctx H' (length H) (mkCommitState sd (pending_map sd) ∅ ∅).
Proof.
  pose proof (history_last H votes sd) as Hl.
  constructor; cbn [cs_commit cs_pending_blocks cs_pending_transactions cs_rejected_transactions].
  - done.
  - by left.
  - intros r [[? Hr]|[? Hr]]; by rewrite lookup_empty in Hr.
  - intros r t. unfold rejected_of. simpl. rewrite lookup_empty. simpl. set_solver.
  - intros b t Hpb. exfalso. revert Hpb. apply pending_map_nonempty, (so_blocks _ _ W). by eapply list_elem_of_lookup_2.
Qed.

Lemma timely_pending o self j sdi :
  fin_inv H o self -> (o <= j)%nat -> H'.*2 !! j = Some sdi -> timely H j sdi.
Proof.
  intros I Hoj Hj k sdk Hk Ek. destruct (last H.*2) as [sdl|] eqn:El.
  2:{ apply last_None in El. by rewrite El in Ek. }
  assert (j < length H)%nat as Hlt by lia.
  assert (fz_pending_commits self !! (j - o)%nat <> None) as Hcs.
  { intros E. apply lookup_ge_None in E. assert (length (fz_pending_commits self) = length H - o)%nat as El'
      by (by rewrite <- (length_fmap cs_commit), (fi_pending _ _ _ I), length_drop, length_fmap). lia. }
  destruct (fz_pending_commits self !! (j - o)%nat) as [cs|] eqn:Ecs; [|done].
  pose proof (st_commit _ _ _ _ (fi_states _ _ _ I _ _ Ecs)) as Ec. replace (o + (j - o))%nat with j in Ec by lia.
  rewrite fmap_app, lookup_app_l in Hj by by rewrite length_fmap. rewrite Hj in Ec. injection Ec as ->.
  pose proof (fi_recent _ _ _ I cs sdl ltac:(by eapply list_elem_of_lookup_2) El) as Hr.
  rewrite last_lookup in El. destruct (decide (k = pred (length H.*2))) as [->|Hne]; [rewrite Ek in El; by injection El as ->|].
  assert (stream_ok c H.*2) as W0 by (apply (stream_prefix c _ [sd]); by rewrite fmap_app in W).
  apply lookup_lt_Some in Ek as Hk'.
  pose proof (rounds_increase ctx _ _ _ _ _ W0 Ek El ltac:(lia)). lia.
Qed.

Lemma next_index :
  match last H.*2 with Some sdl => (u32_add (sub_index sdl) 1 =? sub_index sd) = true | None => True end.
Proof.
  destruct (last H.*2) as [sdl|] eqn:El; [|done]. rewrite last_lookup in El.
  apply lookup_lt_Some in El as Hlt. rewrite length_fmap in *.
  pose proof (history_last H votes sd) as Hl.
  pose proof (so_index _ _ W (pred (length H)) 1 sdl sd) as Hi. rewrite fmap_app in Hi at 1.
  rewrite lookup_app_l in Hi by (rewrite length_fmap; lia). specialize (Hi El).
  replace (pred (length H) + 1)%nat with (length H) in Hi by lia. specialize (Hi Hl).
  destruct (so_bounds _ _ W sd) as [Hb _]; [by eapply list_elem_of_lookup_2|].
  rewrite u32_add_small by lia. apply N.eqb_eq. lia.
Qed.

(** The links before the last commit is linked, after the first pop. *)
Lemma popped_links o m ps popped rest :
  stream_ok c H.*2 -> (o <= length H)%nat -> links_ok (drop o H.*2) m ->
  cs_commit <$> ps = drop o H'.*2 -> ps = popped ++ rest ->
  (rest = [] /\ foldl pop_blocks m popped = ∅)
  \/ (rest <> [] /\ (o + length popped <= length H)%nat /\ links_ok (drop (o + length popped) H.*2) (foldl pop_blocks m popped)).
Proof.
  intros W0 Ho Lk Hps ->. rewrite (fmap_app snd H), drop_app_le in Hps by by rewrite length_fmap. change ([(votes, sd)].*2) with [sd] in Hps.
  assert (stream_ok c (drop o H.*2)) as Wd by (apply (stream_suffix c (take o H.*2)); by rewrite take_drop).
  destruct rest as [|x rest _] using rev_ind; [left|right].
  - split; [done|]. rewrite app_nil_r in Hps. destruct popped as [|y popped _] using rev_ind; [by destruct (drop o H.*2)|].
    rewrite fmap_app in Hps. apply app_inj_tail in Hps as [Hps _]. rewrite foldl_app.
    rewrite <- Hps, <- (app_nil_r (_ <$> _)) in Lk. rewrite <- Hps, <- (app_nil_r (_ <$> _)) in Wd.
    rewrite (links_none _ (links_pops popped [] m Wd Lk)). apply (pops_empty [y]).
  - split; [by destruct rest|]. rewrite app_assoc, fmap_app in Hps. apply app_inj_tail in Hps as [Hps _].
    assert (drop (o + length popped) H.*2 = cs_commit <$> rest) as Hd.
    { rewrite <- drop_drop, <- Hps, fmap_app, drop_app_length'; [done|]. by rewrite length_fmap. }
    split.
    + assert (length (popped ++ rest) = length H - o)%nat as Hl.
      { by rewrite <- (length_fmap cs_commit), Hps, length_drop, length_fmap. }
      rewrite length_app in Hl. lia.
    + rewrite Hd. rewrite <- Hps, fmap_app in Lk, Wd. by apply links_pops.
Qed.

Lemma process_commit_Ok o self :
  fin_inv H o self -> (forall j sdi, (o <= j)%nat -> H'.*2 !! j = Some sdi -> tracked votes sdi) ->
  exists self' outs, process_commit votes self sd = Ok (self', outs)
    /\ fin_inv H' (o + length outs) self' /\ outputs_ok H' o outs.
Proof.
  intros I Htr. pose proof (fi_count _ _ _ I) as Ho. unfold process_commit.
  assert (match fz_last_processed_commit self with
          | Some last_processed_commit => assert_that (u32_add last_processed_commit 1 =? cr_index (sd_commit_ref sd))
          | None => Ok tt end = Ok tt) as ->.
  { rewrite (fi_last _ _ _ I). pose proof next_index as Hn. unfold sub_index in *.
    destruct (last H.*2) as [sdl|]; [|done]. simpl. by rewrite Hn. }
  cbn [mbind outcome_bind]. unfold commit_state_new. change (foldl _ ∅ (sd_blocks sd)) with (pending_map sd).
  pose proof new_state_ok as Snew.
  assert (pending_map sd <> ∅) as Hne.
  { apply pending_map_nonempty, (so_blocks _ _ W). eapply list_elem_of_lookup_2, (st_commit _ _ _ _ Snew). }
  rewrite bool_decide_eq_false_2 by done. cbn [negb assert_that mbind outcome_bind].
  set (new := mkCommitState sd (pending_map sd) ∅ ∅) in *. rewrite (fi_context _ _ _ I).
  assert (length (fz_pending_commits self) = length H - o)%nat as Hlen.
  { rewrite <- (length_fmap cs_commit), (fi_pending _ _ _ I), length_drop, length_fmap. lia. }
  destruct (direct_finalize_commits_Ok ctx H votes sd W (fz_pending_commits self ++ [new]) o)
    as (ps & E & Ec & Hst & Hold).
  { intros j cs Hj. assert (state_ok ctx H' (o + j) cs) as S.
    { apply lookup_app_Some in Hj as [Hj|[Hle Hj]]; [by apply state_ok_snoc, (fi_states _ _ _ I)|].
      apply list_lookup_singleton_Some in Hj as [Hz <-]. by replace (o + j)%nat with (length H) by lia. }
    pose proof (st_commit _ _ _ _ S) as Hc'. split_and!; [done|by apply (timely_pending o self); [|lia|]|]. by apply (Htr (o + j)%nat); [lia|]. }
  change (commit_leader_round new) with (sub_round sd). rewrite E. cbn [mbind outcome_bind].
  assert (busy o (mkCommitFinalizer ctx (Some (cr_index (sd_commit_ref sd))) ps (fz_blocks self))) as B.
  { constructor; try done; cbn [fz_pending_commits].
    - rewrite Ec, fmap_app, (fi_pending _ _ _ I), fmap_app, drop_app_le by by rewrite length_fmap. done.
    - rewrite length_app. simpl. lia.
    - intros j sdi Hj Ej. split; [by apply (timely_pending o self)|by apply (Htr j)]. }
  destruct (pop_commits_Ok o _ B) as (self1 & popped & -> & B1 & O1 & Ep & N1 & K1). cbn [fz_pending_commits fz_blocks] in Ep, K1.
  assert (stream_ok c H.*2) as W0 by (apply (stream_prefix c _ [sd]); by rewrite fmap_app in W).
  assert (cs_commit <$> ps = drop o H'.*2) as Hps by apply (bz_pending _ _ B).
  assert (last H'.*2 = Some sd) as Hlast by (rewrite fmap_app; change ([(votes, sd)].*2) with [sd]; by rewrite last_snoc).
  destruct (popped_links o (fz_blocks self) ps popped (fz_pending_commits self1) W0 Ho (fi_links _ _ _ I) Hps Ep)
    as [[Hr Hm]|(Hr & Hle & Lk1)].
  - rewrite Hr. cbn [is_empty]. eexists _, _. split; [done|]. rewrite length_fmap. split; [|done]. constructor; try done.
    + apply (bz_context _ _ B1).
    + by rewrite (bz_last _ _ B1), Hlast.
    + apply (bz_pending _ _ B1).
    + apply (bz_count _ _ B1).
    + apply (bz_states _ _ B1).
    + rewrite <- (bz_pending _ _ B1), Hr, K1, Hm. apply links_nil.
    + rewrite Hr. intros cs sdl Hcs. inversion Hcs.
  - destruct (last_pending _ self1 B1 Hr) as (cl & Hcl & Ecl).
    destruct (fz_pending_commits self1) as [|x rest] eqn:Erest; [done|]. cbn [is_empty]. rewrite <- Erest in *.
    unfold link_blocks_in_last_commit. rewrite Hcl. cbn [unwrap mbind outcome_bind]. rewrite Ecl.
    unfold append_origin_descendants_from_last_commit. cbn [set_linked fz_pending_commits fz_blocks]. rewrite Hcl.
    cbn [unwrap mbind outcome_bind]. rewrite Ecl, <- K1 in *.
    assert (drop (o + length popped) H'.*2 = drop (o + length popped) H.*2 ++ [sd]) as Hd.
    { by rewrite fmap_app, drop_app_le by by rewrite length_fmap. }
    destruct (link_last_Ok c Hc (drop (o + length popped) H.*2) sd (fz_blocks self1)) as (m & Em & Lk2); [|done|].
    { rewrite <- Hd. apply (stream_suffix c (take (o + length popped) H'.*2)). by rewrite take_drop. }
    unfold sub_index in Em. rewrite Em. cbn [mbind outcome_bind set_linked fz_pending_commits].
    rewrite <- Hd in Lk2.
    destruct (indirect_finalize_commits_Ok (S (length (fz_pending_commits self1))) (o + length popped)
      (set_linked (set_linked self1 (foldl (link_block (cr_index (sd_commit_ref sd))) (fz_blocks self1) (by_round (sd_blocks sd)))) m)
      (finalized_commit <$> popped)) as (self2 & outs & -> & B2 & O2 & Lk3 & R2).
    + constructor; cbn [set_linked fz_context fz_last_processed_commit fz_pending_commits]; apply B1.
    + done.
    + cbn [set_linked fz_pending_commits]. lia.
    + exists self2, ((finalized_commit <$> popped) ++ outs). split; [done|]. rewrite length_app, length_fmap, Nat.add_assoc.
      split; [constructor|].
      * apply (bz_context _ _ B2).
      * by rewrite (bz_last _ _ B2), Hlast.
      * apply (bz_pending _ _ B2).
      * apply (bz_count _ _ B2).
      * apply (bz_states _ _ B2).
      * done.
      * intros cs sdl Hcs. rewrite Hlast. intros [= <-]. by apply R2.
      * apply outputs_app; [done|]. by rewrite length_fmap.
Qed.
End process.
End run.
