(* ===== verification/LinearizerSpec.v ===== *)
(** * What the linearizer commits

    The traversal of [Linearizer] terminates and collects exactly the
    uncommitted history of the leader above the GC round. *)

From S2P Require Import Prelude Committee Context Block StakeAggregator ThresholdClock Commit Store LeaderScoring DagState DagInv Evolve DagOps DagLink Linearizer.

Section spec.
Context {S : Type} `{StoreLaws S}.
Implicit Types s : DagState S.

(** The history of a committed block, above the GC round, is committed. *)
Definition committed_closed s : Prop :=
  forall r b a, committed s r = true -> view s r = Some b -> a ∈ ancestors b ->
    gc_round s < br_round a -> committed s a = true.

Definition uncommitted_count s : nat :=
  size (filter (fun kv => bi_committed kv.2 = false) (ds_recent_blocks s)).

(** [s'] is [s] with the blocks [refs], all new, marked as committed. *)
Record marks s s' (refs : list BlockRef) : Prop := {
  mk_state : exists m, s' = set_recent_blocks s m;
  mk_inv : dag_inv s';
  mk_view : forall r, view s' r = view s r;
  mk_committed : forall r, committed s' r = committed s r || bool_decide (r ∈ refs);
  mk_included : forall r, included s' r = included s r;
  mk_count : (uncommitted_count s' + length refs = uncommitted_count s)%nat;
}.

Lemma marks_gc s s' refs : marks s s' refs -> gc_round s' = gc_round s.
Proof. intros Hm. destruct (mk_state _ _ _ Hm) as [m ->]. done. Qed.

Lemma marks_refl s : dag_inv s -> marks s s [].
Proof.
  intros Hs. constructor; try done.
  - exists (ds_recent_blocks s). by destruct s.
  - intros r. by rewrite bool_decide_false, orb_false_r by set_solver.
Qed.

Lemma marks_trans s1 s2 s3 l1 l2 : marks s1 s2 l1 -> marks s2 s3 l2 -> marks s1 s3 (l1 ++ l2).
Proof.
  intros H1 H2. constructor.
  - destruct (mk_state _ _ _ H1) as [m1 ->], (mk_state _ _ _ H2) as [m2 ->]. by exists m2.
  - apply (mk_inv _ _ _ H2).
  - intros r. by rewrite (mk_view _ _ _ H2), (mk_view _ _ _ H1).
  - intros r. rewrite (mk_committed _ _ _ H2), (mk_committed _ _ _ H1), <- orb_assoc. f_equal.
    rewrite <- bool_decide_or. apply bool_decide_ext. by rewrite elem_of_app.
  - intros r. by rewrite (mk_included _ _ _ H2), (mk_included _ _ _ H1).
  - pose proof (mk_count _ _ _ H1). pose proof (mk_count _ _ _ H2). rewrite length_app. lia.
Qed.

Lemma set_committed_Ok s r b :
  dag_inv s -> view s r = Some b -> committed s r = false ->
  exists s', set_committed s r = Ok (s', true) /\ marks s s' [r].
Proof.
  unfold view, committed, set_committed. intros Hs Hv Hc.
  destruct (ds_recent_blocks s !! r) as [bi|] eqn:Er; [|done]. cbn [unwrap mbind outcome_bind].
  rewrite Hc. eexists. split; [done|]. set (m := <[r := mark_committed bi]> (ds_recent_blocks s)).
  assert (forall x, view (set_recent_blocks s m) x = view s x) as Hview.
  { intros x. unfold view, m. simpl. destruct (decide (x = r)) as [->|]; [|by rewrite lookup_insert_ne].
    by rewrite lookup_insert_eq, Er. }
  constructor.
  - by exists m.
  - apply (dag_inv_ext s); try done. apply (di_clock s Hs).
  - done.
  - intros x. unfold committed, m. simpl. destruct (decide (x = r)) as [->|Hne].
    + rewrite lookup_insert_eq, Er. simpl. rewrite bool_decide_true by set_solver. by rewrite orb_true_r.
    + rewrite lookup_insert_ne by done. rewrite (bool_decide_false (x ∈ [r])) by set_solver.
      by rewrite orb_false_r.
  - intros x. unfold included, m. simpl. destruct (decide (x = r)) as [->|Hne]; [|by rewrite lookup_insert_ne].
    by rewrite lookup_insert_eq, Er.
  - unfold uncommitted_count, m. simpl. rewrite map_filter_insert_False by done.
    rewrite map_filter_delete, map_size_delete_Some; [|by exists bi; apply map_lookup_filter_Some].
    assert (size (filter (fun kv => bi_committed kv.2 = false) (ds_recent_blocks s)) <> 0%nat); [|lia].
    intros E%map_size_empty_inv. assert (Hin : filter (fun kv => bi_committed kv.2 = false) (ds_recent_blocks s) !! r = Some bi)
      by (by apply map_lookup_filter_Some). by rewrite E, lookup_empty in Hin.
Qed.

Lemma push_ancestors_Ok bs s buffer :
  dag_inv s -> NoDup (reference <$> bs) ->
  (forall b, b ∈ bs -> view s (reference b) = Some b /\ committed s (reference b) = false) ->
  exists s', push_ancestors s buffer bs = Ok (s', reverse bs ++ buffer)
    /\ marks s s' (reference <$> bs).
Proof.
  revert s buffer. induction bs as [|b bs IH]; intros s buffer Hs Hnd Hbs.
  { exists s. split; [done|by apply marks_refl]. }
  inversion Hnd as [|? ? Hb Hnd']; subst. destruct (Hbs b) as [Hv Hc]; [by left|].
  destruct (set_committed_Ok s (reference b) b Hs Hv Hc) as (s1 & E1 & M1).
  destruct (IH s1 (b :: buffer) (mk_inv _ _ _ M1) Hnd') as (s' & E' & M').
  - intros x Hx. rewrite (mk_view _ _ _ M1), (mk_committed _ _ _ M1).
    destruct (Hbs x) as [Hvx Hcx]; [by right|]. split; [done|]. rewrite Hcx, bool_decide_false; [done|].
    rewrite list_elem_of_singleton. intros E. apply Hb. rewrite <- E. by apply list_elem_of_fmap_2.
  - exists s'. split; [|by apply (marks_trans s s1 s' [_])].
    unfold push_ancestors in *. cbn [foldM].
    change (api_set_committed s (reference b)) with (set_committed s (reference b)). rewrite E1.
    cbn [mbind outcome_bind fst snd assert_that]. rewrite E'. by rewrite reverse_cons, <- app_assoc.
Qed.

Lemma uncommitted_ancestors_Ok s x :
  dag_inv s -> rooted s x ->
  uncommitted_ancestors s (gc_round s) x
  = Ok (List.filter (fun a => (gc_round s <? br_round a) && negb (committed s a)) (ancestors x)).
Proof.
  intros Hs [_ Hx]. unfold uncommitted_ancestors.
  rewrite (filterM_Ok _ (fun a => (gc_round s <? br_round a) && negb (committed s a))); [done|].
  intros a Ha. destruct (N.ltb_spec (gc_round s) (br_round a)) as [Hgt|]; [|done].
  destruct (Hx a Ha Hgt) as [b Hb]. unfold view in Hb. unfold committed.
  change (api_is_committed s a) with (is_committed s a). unfold is_committed.
  destruct (ds_recent_blocks s !! a); [|done]. done.
Qed.

(** The cached blocks at references above the GC round. *)
Lemma get_cached_all s refs :
  dag_inv s -> (forall a, a ∈ refs -> is_Some (view s a)) ->
  exists bs, get_blocks s refs = Ok (Some <$> bs) /\ reference <$> bs = refs
    /\ forall b, b ∈ bs -> view s (reference b) = Some b.
Proof.
  intros Hs Hrefs. rewrite get_blocks_spec. induction refs as [|a refs IH].
  { exists []. split_and!; [done..|]. intros b Hb. inversion Hb. }
  destruct IH as (bs & E & Er & Hbs); [intros x Hx; apply Hrefs; by right|]. injection E as E.
  destruct (Hrefs a) as [b Hb]; [by left|]. exists (b :: bs).
  destruct (di_wf s Hs a b Hb) as [<- _]. split_and!.
  - cbn [fmap list_fmap]. rewrite (dag_block_view s _ b Hs Hb). cbn in E |- *. by rewrite E.
  - cbn. cbn in Er. by rewrite Er.
  - intros y [->|Hy]%elem_of_cons; [done|by apply Hbs].
Qed.

(** What the loop has done from [s] with the blocks of [buffer] marked: it
    adds [new] to the blocks to commit and marks the blocks of [refs]. *)
Record collected s s' (buffer new : list VerifiedBlock) (refs : list BlockRef) : Prop := {
  co_marks : marks s s' refs;
  co_new : reference <$> new ≡ₚ (reference <$> buffer) ++ refs;
  co_NoDup : NoDup refs;
  co_view : forall x, x ∈ new -> view s (reference x) = Some x;
  co_below : forall r, r ∈ refs -> gc_round s < br_round r /\ committed s r = false
    /\ exists y, y ∈ buffer /\ reach s y r;
  co_closed : forall x a, x ∈ new -> a ∈ ancestors x -> gc_round s < br_round a -> committed s' a = true;
}.

Lemma reach_ext s s' b r : (forall x, view s' x = view s x) -> reach s' b r -> reach s b r.
Proof.
  intros Hv. induction 1 as [r Hr|r' b' r _ IH Hb Hr]; [by apply reach_anc|].
  rewrite Hv in Hb. by eapply reach_step.
Qed.

Lemma marks_committed s s' refs r :
  marks s s' refs -> committed s' r = true <-> committed s r = true \/ r ∈ refs.
Proof. intros Hm. by rewrite (mk_committed _ _ _ Hm), orb_true_iff, bool_decide_eq_true. Qed.

Lemma collected_step s s1 s' x bs rest new refs1 :
  view s (reference x) = Some x ->
  (forall b, b ∈ bs -> view s (reference b) = Some b) ->
  (forall b, b ∈ bs -> reference b ∈ ancestors x /\ gc_round s < round b /\ committed s (reference b) = false) ->
  (forall a, a ∈ ancestors x -> gc_round s < br_round a -> committed s1 a = true) ->
  NoDup (reference <$> bs) ->
  marks s s1 (reference <$> bs) -> collected s1 s' (reverse bs ++ rest) new refs1 ->
  collected s s' (x :: rest) (x :: new) ((reference <$> bs) ++ refs1).
Proof.
  intros Hx Hbs Hanc Hall Hnd M [M' Hnew Hnd' Hview Hbelow Hcl].
  pose proof (marks_gc _ _ _ M) as Hgc. constructor.
  - by eapply marks_trans.
  - cbn [fmap list_fmap app]. apply Permutation_skip. change (list_fmap ?f ?l) with (fmap f l).
    rewrite Hnew, fmap_app, reverse_Permutation, !app_assoc. f_equiv. apply Permutation_app_comm.
  - apply NoDup_app. split_and!; [done| |done]. intros r Hr Hr'.
    destruct (Hbelow r Hr') as (_ & Hc & _). rewrite (mk_committed _ _ _ M), bool_decide_true in Hc by done.
    by rewrite orb_true_r in Hc.
  - intros y [->|Hy]%elem_of_cons; [done|]. rewrite <- (mk_view _ _ _ M). by apply Hview.
  - intros r [Hr|Hr]%elem_of_app.
    + apply list_elem_of_fmap in Hr as (b & -> & Hb). destruct (Hanc b Hb) as (? & ? & ?).
      split_and!; [done..|]. exists x. split; [by left|by apply reach_anc].
    + destruct (Hbelow r Hr) as (Hg & Hc & y & Hy & Hreach). rewrite Hgc in Hg.
      rewrite (mk_committed _ _ _ M) in Hc. apply orb_false_iff in Hc as [Hc _].
      apply (reach_ext s s1) in Hreach; [|apply (mk_view _ _ _ M)]. split_and!; [done..|].
      apply elem_of_app in Hy as [Hy|Hy]; [|exists y; split; [by right|done]].
      rewrite reverse_Permutation in Hy.
      exists x. split; [by left|]. apply (reach_trans s x (reference y) y); [apply reach_anc, (Hanc y Hy)|by apply Hbs|done].
  - intros y a [->|Hy]%elem_of_cons Ha Hg.
    + apply (marks_committed _ _ _ _ M'). left. by apply Hall.
    + apply (Hcl y a Hy Ha). by rewrite Hgc.
Qed.

Lemma collect_spec fuel s buffer to_commit :
  dag_inv s -> (forall x, x ∈ buffer -> view s (reference x) = Some x) ->
  (length buffer + uncommitted_count s < fuel)%nat ->
  exists s' new refs, collect fuel s (gc_round s) buffer to_commit = Ok (s', to_commit ++ new)
    /\ collected s s' buffer new refs.
Proof.
  revert s buffer to_commit. induction fuel as [|fuel IH]; intros s buffer to_commit Hs Hb Hf; [lia|].
  destruct buffer as [|x buffer]; cbn [collect].
  { exists s, [], []. rewrite app_nil_r. split; [done|].
    constructor; [by apply marks_refl|done|constructor|set_solver..]. }
  assert (view s (reference x) = Some x) as Hx by (apply Hb; by left).
  pose proof (rooted_view s _ x Hs Hx) as Hroot.
  rewrite uncommitted_ancestors_Ok by done. cbn [mbind outcome_bind].
  set (refs := List.filter _ _).
  assert (forall a, a ∈ refs <-> a ∈ ancestors x /\ gc_round s < br_round a /\ committed s a = false) as Hrefs.
  { intros a. unfold refs. rewrite list_filter_elem_of, andb_true_iff, N.ltb_lt, negb_true_iff. tauto. }
  destruct (get_cached_all s refs Hs) as (bs & E & Er & Hbs).
  { intros a (Ha & Hg & _)%Hrefs. by apply Hroot. }
  change (api_get_blocks s refs) with (get_blocks s refs). rewrite E. cbn [mbind outcome_bind].
  rewrite mapM_unwrap_Some. cbn [mbind outcome_bind].
  assert (NoDup (reference <$> bs)) as Hnd.
  { rewrite Er. apply list_filter_NoDup. destruct Hroot as [Hwf _].
    by eapply NoDup_fmap_1, (wb_distinct _ _ Hwf). }
  assert (forall b, b ∈ bs -> reference b ∈ refs) as Hin.
  { intros b Hb'. rewrite <- Er. by apply list_elem_of_fmap_2. }
  destruct (push_ancestors_Ok bs s buffer Hs Hnd) as (s1 & -> & M).
  { intros b Hb'. split; [by apply Hbs|]. by apply Hrefs, Hin. }
  cbn [mbind outcome_bind fst snd]. rewrite <- (marks_gc _ _ _ M).
  destruct (IH s1 (reverse bs ++ buffer) (to_commit ++ [x]) (mk_inv _ _ _ M)) as (s' & new & refs1 & E' & C').
  - intros y. rewrite reverse_Permutation. intros [Hy|Hy]%elem_of_app; rewrite (mk_view _ _ _ M); [by apply Hbs|].
    apply Hb. by right.
  - pose proof (mk_count _ _ _ M) as Hcount. rewrite length_fmap in Hcount.
    rewrite length_app, length_reverse. simpl in Hf. lia.
  - exists s', (x :: new), ((reference <$> bs) ++ refs1). rewrite <- app_assoc in E'. split; [done|].
    apply (collected_step s s1); try done.
    + intros b Hb'. apply Hrefs, Hin, Hb'.
    + intros a Ha Hg. apply (marks_committed _ _ _ _ M). rewrite Er, Hrefs.
      destruct (committed s a); [by left|by right].
Qed.

Lemma uncommitted_count_le s : (uncommitted_count s <= size (ds_recent_blocks s))%nat.
Proof.
  unfold uncommitted_count. rewrite <- !(size_dom (D := gset BlockRef)). apply subseteq_size.
  apply subseteq_dom, map_filter_subseteq.
Qed.

(** The result of [linearize_sub_dag]. *)
Record linearized s s' (leader : VerifiedBlock) (l : list VerifiedBlock) : Prop := {
  li_marks : marks s s' (reference <$> l);
  li_NoDup : NoDup (reference <$> l);
  li_sorted : StronglySorted (fun a b => sub_dag_leb a b = true) l;
  li_elem : forall x, x ∈ l <-> view s (reference x) = Some x /\ gc_round s < round x
    /\ committed s (reference x) = false /\ (x = leader \/ reach s leader (reference x));
  li_closed : committed_closed s';
}.

Lemma marks_perm s s' l1 l2 : l1 ≡ₚ l2 -> marks s s' l1 -> marks s s' l2.
Proof.
  intros Hp [? ? ? Hc Hn]. constructor; try done.
  - intros r. rewrite Hc. f_equal. apply bool_decide_ext. by rewrite Hp.
  - by rewrite <- Hp.
Qed.

(** The history of a block is committed when its ancestors are and the
    committed blocks are closed. *)
Lemma committed_history s b r :
  dag_inv s -> committed_closed s ->
  (forall a, a ∈ ancestors b -> gc_round s < br_round a -> committed s a = true) ->
  reach s b r -> gc_round s < br_round r -> committed s r = true.
Proof.
  intros Hs Hcl Hanc. induction 1 as [r Hr|r' b' r Hreach IH Hv Hr]; intros Hgc; [by apply Hanc|].
  destruct (di_wf s Hs _ _ Hv) as [<- Hwf]. destruct (wb_anc _ _ Hwf r Hr) as [Hlt _].
  apply (Hcl (reference b') b'); [apply IH; simpl; lia|done..].
Qed.

Lemma collected_closed s s1 s' leader new refs :
  dag_inv s -> committed_closed s -> view s (reference leader) = Some leader ->
  marks s s1 [reference leader] -> collected s1 s' [leader] new refs -> committed_closed s'.
Proof.
  intros Hs Hcl Hl M1 [M2 Hnew _ Hview _ Hclosed] r b a Hr Hv Ha Hgc.
  pose proof (marks_gc _ _ _ M1) as G1. pose proof (marks_gc _ _ _ M2) as G2. rewrite G2 in Hgc.
  rewrite (mk_view _ _ _ M2) in Hv.
  assert (r ∈ reference <$> new \/ committed s r = true) as [Hr'|Hr'].
  { apply (marks_committed _ _ _ _ M2) in Hr. rewrite (marks_committed _ _ _ _ M1) in Hr.
    rewrite Hnew, elem_of_app. simpl. tauto. }
  - apply list_elem_of_fmap in Hr' as (x & -> & Hx).
    rewrite (Hview x Hx) in Hv. injection Hv as ->. by apply (Hclosed b a).
  - rewrite (mk_view _ _ _ M1) in Hv. apply (marks_committed _ _ _ _ M2). left.
    apply (marks_committed _ _ _ _ M1). left. apply (Hcl r b); try done. by rewrite <- G1.
Qed.

Lemma collected_elem s s1 s' leader new refs :
  dag_inv s -> committed_closed s -> view s (reference leader) = Some leader ->
  committed s (reference leader) = false -> gc_round s < round leader ->
  marks s s1 [reference leader] -> collected s1 s' [leader] new refs ->
  forall x, x ∈ new <-> view s (reference x) = Some x /\ gc_round s < round x
    /\ committed s (reference x) = false /\ (x = leader \/ reach s leader (reference x)).
Proof.
  intros Hs Hcl Hl Hc Hgt M1 C.
  pose proof (collected_closed _ _ _ _ _ _ Hs Hcl Hl M1 C) as Hcl'.
  destruct C as [M2 Hnew Hnd Hview Hbelow Hclosed]. simpl in Hnew.
  pose proof (marks_gc _ _ _ M1) as G1. pose proof (marks_gc _ _ _ M2) as G2.
  assert (forall x, view s (reference x) = Some x -> reference x ∈ reference <$> new -> x ∈ new) as Hby.
  { intros x Hv (x' & E & Hx')%list_elem_of_fmap. pose proof (Hview x' Hx') as Hv'.
    rewrite (mk_view _ _ _ M1), <- E, Hv in Hv'. by injection Hv' as ->. }
  intros x. split.
  - intros Hx. pose proof (Hview x Hx) as Hv. rewrite (mk_view _ _ _ M1) in Hv. split; [done|].
    apply (list_elem_of_fmap_2 reference) in Hx. rewrite Hnew in Hx.
    apply elem_of_cons in Hx as [E|Hx]; [rewrite E, Hl in Hv; injection Hv as ->; auto|].
    destruct (Hbelow _ Hx) as (Hg & Hcx & y & ->%list_elem_of_singleton & Hreach).
    rewrite G1 in Hg. rewrite (mk_committed _ _ _ M1) in Hcx. apply orb_false_iff in Hcx as [Hcx _].
    split_and!; [done..|]. right. by apply (reach_ext s s1); [apply (mk_view _ _ _ M1)|].
  - intros (Hv & Hg & Hcx & Hor). apply Hby; [done|].
    destruct Hor as [->|Hreach]; [rewrite Hnew; by left|].
    assert (committed s' (reference x) = true) as E.
    { apply (committed_history s' leader); try done.
      - apply (mk_inv _ _ _ M2).
      - rewrite G2. intros a. apply (Hclosed leader a), Hby; [done|]. rewrite Hnew. by left.
      - apply (reach_ext s' s); [|done]. intros y. by rewrite (mk_view _ _ _ M2), (mk_view _ _ _ M1).
      - rewrite G2, G1. done. }
    apply (marks_committed _ _ _ _ M2) in E. rewrite (marks_committed _ _ _ _ M1), Hcx in E.
    rewrite Hnew. destruct E as [[?|E%list_elem_of_singleton]|E]; [done|rewrite E; by left|by right].
Qed.

Lemma linearize_Ok s leader :
  dag_inv s -> committed_closed s -> view s (reference leader) = Some leader ->
  committed s (reference leader) = false -> gc_round s < round leader ->
  exists s' l, linearize_sub_dag leader s = Ok (s', l) /\ linearized s s' leader l.
Proof.
  intros Hs Hcl Hl Hc Hgt. unfold linearize_sub_dag.
  change (api_gc_round s) with (gc_round s). change (api_cached s) with (size (ds_recent_blocks s)).
  change (api_set_committed s (reference leader)) with (set_committed s (reference leader)).
  destruct (set_committed_Ok s _ leader Hs Hl Hc) as (s1 & -> & M1). cbn [mbind outcome_bind fst snd assert_that].
  pose proof (mk_count _ _ _ M1) as Hcount. pose proof (uncommitted_count_le s) as Hle.
  pose proof (marks_gc _ _ _ M1) as G1. simpl in Hcount. rewrite <- G1.
  destruct (collect_spec (Datatypes.S (Datatypes.S (size (ds_recent_blocks s)))) s1 [leader] [])
    as (s' & new & refs & -> & C).
  { apply (mk_inv _ _ _ M1). }
  { intros x ->%list_elem_of_singleton. by rewrite (mk_view _ _ _ M1). }
  { simpl. lia. }
  cbn [mbind outcome_bind app].
  pose proof (collected_closed _ _ _ _ _ _ Hs Hcl Hl M1 C) as Hcl'.
  pose proof (collected_elem _ _ _ _ _ _ Hs Hcl Hl Hc Hgt M1 C) as Hin.
  destruct C as [M2 Hnew Hnd _ Hbelow _]. simpl in Hnew.
  assert (reference <$> sort_sub_dag_blocks new ≡ₚ reference leader :: refs) as Hperm.
  { unfold sort_sub_dag_blocks. by rewrite stable_sort_perm. }
  rewrite (proj2 (forallb_forall _ _)); cbn [assert_that mbind outcome_bind].
  2:{ intros x Hx%list_elem_of_In. rewrite G1. by apply N.ltb_lt, Hin. }
  exists s', (sort_sub_dag_blocks new). split; [done|]. constructor.
  - eapply marks_perm; [symmetry; exact Hperm|]. by apply (marks_trans _ _ _ [_] _ M1).
  - rewrite Hperm. constructor; [|done]. intros Hx. destruct (Hbelow _ Hx) as (_ & E & _).
    rewrite (mk_committed _ _ _ M1), bool_decide_true, orb_true_r in E by (by left). done.
  - apply stable_sort_sorted; [apply sub_dag_leb_total|apply sub_dag_leb_trans].
  - intros x. unfold sort_sub_dag_blocks. by rewrite elem_of_stable_sort, Hin.
  - done.
Qed.
End spec.

(* ------------------------------------------------------------------ *)
(** ** The median timestamp *)

Lemma median_loop_spec half cum l :
  cum + sum_N l.*2 <= u64_MAX -> half < cum + sum_N l.*2 -> cum <= half ->
  exists pre x post, l = pre ++ x :: post /\ median_loop half cum l = Some x.1
    /\ cum + sum_N pre.*2 <= half /\ half < cum + sum_N pre.*2 + x.2.
Proof.
  revert cum. induction l as [|[ts st] l IH]; intros cum Hmax Hhalf Hcum; [simpl in Hhalf; lia|].
  change (sum_N ((ts, st) :: l).*2) with (st + sum_N l.*2) in *.
  cbn [median_loop]. rewrite u64_add_small by lia.
  destruct (N.ltb_spec half (cum + st)) as [Hlt|Hge].
  - exists [], (ts, st), l. simpl. split_and!; try done; lia.
  - destruct (IH (cum + st)) as (pre & x & post & -> & E & H1 & H2); [lia..|].
    exists ((ts, st) :: pre), x, post. change (sum_N ((ts, st) :: pre).*2) with (st + sum_N pre.*2).
    split_and!; [done..|lia|lia].
Qed.

(** The median: at most half of the stake is strictly before it, more than
    half is not after it. *)
Lemma median_inner_Ok l total :
  total = sum_N l.*2 -> total <= u64_MAX -> 0 < total ->
  exists m, median_timestamps_by_stake_inner l total = Ok m /\ m ∈ l.*1
    /\ 2 * stake_where snd (fun x => x.1 <? m) l <= total
    /\ total < 2 * stake_where snd (fun x => x.1 <=? m) l.
Proof.
  intros -> Hmax Hpos. unfold median_timestamps_by_stake_inner.
  set (k := stable_sort ts_leb l). set (total := sum_N l.*2) in *.
  assert (k ≡ₚ l) as Hp by apply stable_sort_perm.
  assert (sum_N k.*2 = total) as Hsum by (unfold total; by rewrite Hp).
  assert (StronglySorted (fun a b => ts_leb a b = true) k) as Hk.
  { apply stable_sort_sorted; unfold ts_leb.
    - intros x y. rewrite !N.leb_le. lia.
    - intros x y z. rewrite !N.leb_le. lia. }
  clearbody k. destruct (median_loop_spec (total / 2) 0 k) as (pre & x & post & E & -> & H1 & H2).
  { by rewrite Hsum. }
  { rewrite Hsum. by apply N.div_lt. }
  { apply N.le_0_l. }
  exists x.1. split; [done|]. split.
  { apply list_elem_of_fmap_2. rewrite <- Hp, E. set_solver. }
  rewrite <- !(stake_where_perm snd _ _ _ Hp). rewrite E, !stake_where_app, !stake_where_cons.
  rewrite E in Hk. apply StronglySorted_app in Hk as (Hbefore & _ & Hx).
  inversion Hx as [|? ? _ Hpost]; subst. rewrite Forall_forall in Hpost.
  rewrite (stake_where_none snd (fun y => y.1 <? x.1) post)
    by (intros y Hy; apply N.ltb_ge; specialize (Hpost y Hy); by apply N.leb_le in Hpost).
  rewrite (stake_where_all snd (fun y => y.1 <=? x.1) pre).
  2:{ intros y Hy. apply (Hbefore y x Hy). by left. }
  rewrite N.ltb_irrefl, N.leb_refl.
  clearbody total. pose proof (N.div_mod' total 2) as Hd. pose proof (N.mod_lt total 2 ltac:(done)) as Hm.
  revert Hm Hd H1 H2. generalize (total `mod` 2), (total / 2).
  pose proof (stake_where_compl snd (fun y => y.1 <? x.1) pre) as Hc. revert Hc.
  generalize (stake_where snd (fun y => y.1 <? x.1) pre) (sum_N pre.*2) (stake_where snd (fun y => y.1 <=? x.1) post)
    (stake_where snd (fun y => negb (y.1 <? x.1)) pre). clear. intros. lia.
Qed.

(** The stake of the authors of blocks. *)
Definition blocks_stake (c : Committee) (blocks : list VerifiedBlock) : N :=
  sum_N ((fun b => stake_at c (author b)) <$> blocks).

Definition stake_if (c : Committee) (P : VerifiedBlock -> bool) (blocks : list VerifiedBlock) : N :=
  stake_where (fun b => stake_at c (author b)) P blocks.

Lemma distinct_blocks_stake (c : Committee) (blocks : list VerifiedBlock) :
  committee_wf c -> NoDup (author <$> blocks) ->
  (forall b, b ∈ blocks -> is_valid_index c (author b) = true) ->
  blocks_stake c blocks = stake_of c (list_to_set (author <$> blocks))
  /\ blocks_stake c blocks <= u64_MAX.
Proof.
  intros Hc Hnd Hv.
  assert (blocks_stake c blocks = stake_of c (list_to_set (author <$> blocks))) as E.
  { unfold blocks_stake. rewrite (stake_of_NoDup c (author <$> blocks)); [|done|].
    - by rewrite <- list_fmap_compose.
    - intros i (b & -> & Hb)%list_elem_of_fmap. by apply Hv. }
  split; [done|]. rewrite E. pose proof (wf_total_u64 _ Hc).
  pose proof (stake_of_le_total c (list_to_set (author <$> blocks)) Hc). lia.
Qed.

Lemma median_by_stake_Ok context blocks :
  let c := committee context in
  committee_wf c -> NoDup (author <$> blocks) ->
  (forall b, b ∈ blocks -> is_valid_index c (author b) = true) ->
  c_quorum_threshold c <= blocks_stake c blocks ->
  exists m, median_timestamp_by_stake context blocks = Ok (Some m)
    /\ 2 * stake_if c (fun b => timestamp_ms b <? m) blocks <= blocks_stake c blocks
    /\ blocks_stake c blocks < 2 * stake_if c (fun b => timestamp_ms b <=? m) blocks.
Proof.
  intros c Hc Hnd Hv Hq. destruct (distinct_blocks_stake c blocks Hc Hnd Hv) as [_ Hmax].
  unfold median_timestamp_by_stake. fold c.
  rewrite (mapM_Ok _ (fun b => (timestamp_ms b, stake_at c (author b)))).
  2:{ intros b Hb. destruct (committee_authority_Ok c (author b) (Hv b Hb)) as [au E]. rewrite E. simpl.
      do 2 f_equal. unfold committee_authority, vec_index in E. apply unwrap_Ok in E.
      unfold stake_at, stakes. by rewrite list_lookup_fmap, E. }
  cbn [mbind outcome_bind]. set (l := (fun b => (timestamp_ms b, stake_at c (author b))) <$> blocks).
  assert (sum_N l.*2 = blocks_stake c blocks) as Hsum
    by (unfold l, blocks_stake; by rewrite <- list_fmap_compose).
  rewrite u64_sum_exact by (by rewrite Hsum). rewrite Hsum.
  pose proof (wf_intersect _ Hc). pose proof (wf_validity_pos _ Hc). pose proof (wf_quorum_le _ Hc).
  assert (is_empty l = false) as ->.
  { unfold l. destruct blocks; [|done]. unfold blocks_stake in Hq. simpl in Hq. lia. }
  rewrite (proj2 (N.ltb_ge _ _)) by done.
  destruct (median_inner_Ok l (blocks_stake c blocks)) as (m & -> & _ & M1 & M2);
    [done|done|lia|].
  exists m. split; [done|]. unfold l in M1, M2. rewrite !stake_where_fmap in M1, M2. done.
Qed.
