(* ===== verification/LinearizerOps.v ===== *)
(** * Handling committed leaders, and doing it alike

    One committed leader: the sub-DAG, its timestamp and the commit added to
    the DAG state; and the comparison of two validators that handle the same
    leader after the same commits. *)

From S2P Require Import Prelude Committee Context Block StakeAggregator ThresholdClock Commit Store LeaderScoring DagState DagInv Evolve DagOps DagLink Linearizer LinearizerSpec.

Lemma lookup_fmap_length {A B} (f : nat -> A -> B) (l : list A) (l' : list B) :
  (forall i, l' !! i = f i <$> l !! i) -> length l' = length l.
Proof.
  intros Hl. apply Nat.le_antisymm; apply Nat.nlt_ge; intros Hlt.
  - apply lookup_lt_is_Some in Hlt as [x Hx]. rewrite Hl in Hx.
    apply fmap_Some in Hx as (y & Hy & _). apply lookup_lt_Some in Hy. lia.
  - apply lookup_lt_is_Some in Hlt as [x Hx]. specialize (Hl (length l')).
    rewrite Hx, lookup_ge_None_2 in Hl by lia. done.
Qed.

Section ops.
Context {S : Type} `{StoreLaws S}.
Implicit Types s : DagState S.

(* ------------------------------------------------------------------ *)
(** ** Two views *)

(** A reference names one block, and the blocks above the GC round that both
    hold are committed in both or in none. *)
Record alike s1 s2 : Prop := {
  al_gc : gc_round s1 = gc_round s2;
  al_block : forall r b1 b2, dag_block s1 r = Some b1 -> dag_block s2 r = Some b2 -> b1 = b2;
  al_committed : forall r b1 b2, gc_round s1 < br_round r ->
    view s1 r = Some b1 -> view s2 r = Some b2 -> committed s1 r = committed s2 r;
}.

Lemma marks_dag_block s s' refs r : marks s s' refs -> dag_block s' r = dag_block s r.
Proof.
  intros M. unfold dag_block, cached_block. pose proof (mk_view _ _ _ M r) as Hv. unfold view in Hv.
  destruct (mk_state _ _ _ M) as [m ->]. simpl in *. destruct (br_round r =? GENESIS_ROUND); [done|].
  destruct (m !! r), (ds_recent_blocks s !! r); simpl in Hv; try done; by injection Hv as ->.
Qed.

Lemma alike_marks s1 s2 s1' s2' refs :
  alike s1 s2 -> marks s1 s1' refs -> marks s2 s2' refs -> alike s1' s2'.
Proof.
  intros [Hg Hb Hc] M1 M2. constructor.
  - by rewrite (marks_gc _ _ _ M1), (marks_gc _ _ _ M2).
  - intros r b1 b2. rewrite (marks_dag_block _ _ _ _ M1), (marks_dag_block _ _ _ _ M2). apply Hb.
  - intros r b1 b2. rewrite (marks_gc _ _ _ M1), (mk_view _ _ _ M1), (mk_view _ _ _ M2).
    intros Hgc V1 V2. rewrite (mk_committed _ _ _ M1), (mk_committed _ _ _ M2). by erewrite Hc.
Qed.

Lemma alike_view s1 s2 r b1 b2 :
  dag_inv s1 -> dag_inv s2 -> alike s1 s2 -> view s1 r = Some b1 -> view s2 r = Some b2 -> b1 = b2.
Proof. intros H1 H2 Ha V1 V2. by apply (al_block _ _ Ha r); apply dag_block_view. Qed.

Lemma same_blocks s1 s2 (bs1 bs2 : list VerifiedBlock) :
  (forall r b1 b2, view s1 r = Some b1 -> view s2 r = Some b2 -> b1 = b2) ->
  (forall b, b ∈ bs1 -> view s1 (reference b) = Some b) ->
  (forall b, b ∈ bs2 -> view s2 (reference b) = Some b) ->
  reference <$> bs1 = reference <$> bs2 -> bs1 = bs2.
Proof.
  intros Hv. revert bs2. induction bs1 as [|b1 bs1 IH]; intros [|b2 bs2] B1 B2 E; try done.
  pose proof (f_equal (List.hd (reference b1)) E : reference b1 = reference b2) as Eb.
  assert (reference <$> bs1 = reference <$> bs2) as El by exact (f_equal (@tail _) E). f_equal.
  - apply (Hv (reference b1)); [apply B1; by left|]. rewrite Eb. apply B2. by left.
  - apply IH; [intros b Hb; apply B1; by right|intros b Hb; apply B2; by right|done].
Qed.

(** One step of the traversal, as [collect_spec] takes it. *)
Lemma collect_step s x buffer to_commit fuel :
  dag_inv s -> view s (reference x) = Some x ->
  let refs := List.filter (fun a => (gc_round s <? br_round a) && negb (committed s a)) (ancestors x) in
  exists s1 bs, collect (Datatypes.S fuel) s (gc_round s) (x :: buffer) to_commit
                = collect fuel s1 (gc_round s1) (reverse bs ++ buffer) (to_commit ++ [x])
    /\ marks s s1 refs /\ reference <$> bs = refs
    /\ (forall b, b ∈ bs -> view s (reference b) = Some b).
Proof.
  intros Hs Hx refs. pose proof (rooted_view s _ x Hs Hx) as Hroot.
  assert (forall a, a ∈ refs <-> a ∈ ancestors x /\ gc_round s < br_round a /\ committed s a = false) as Hrefs.
  { intros a. unfold refs. rewrite list_filter_elem_of, andb_true_iff, N.ltb_lt, negb_true_iff. tauto. }
  destruct (get_cached_all s refs Hs) as (bs & E & Er & Hbs).
  { intros a (Ha & Hg & _)%Hrefs. by apply Hroot. }
  destruct (push_ancestors_Ok bs s buffer Hs) as (s1 & Ep & M).
  { rewrite Er. apply list_filter_NoDup. destruct Hroot as [Hwf _].
    by eapply NoDup_fmap_1, (wb_distinct _ _ Hwf). }
  { intros b Hb. split; [by apply Hbs|]. apply Hrefs. rewrite <- Er. by apply list_elem_of_fmap_2. }
  rewrite Er in M. exists s1, bs. split_and!; [|done..].
  cbn [collect]. rewrite uncommitted_ancestors_Ok by done. fold refs. cbn [mbind outcome_bind].
  change (api_get_blocks s refs) with (get_blocks s refs). rewrite E. cbn [mbind outcome_bind].
  rewrite mapM_unwrap_Some. cbn [mbind outcome_bind]. rewrite Ep. cbn [mbind outcome_bind fst snd].
  by rewrite (marks_gc _ _ _ M).
Qed.

Lemma collect_alike fuel1 fuel2 s1 s2 buffer to_commit :
  dag_inv s1 -> dag_inv s2 -> alike s1 s2 ->
  (forall x, x ∈ buffer -> view s1 (reference x) = Some x /\ view s2 (reference x) = Some x) ->
  (length buffer + uncommitted_count s1 < fuel1)%nat ->
  (length buffer + uncommitted_count s2 < fuel2)%nat ->
  exists s1' s2' l refs, collect fuel1 s1 (gc_round s1) buffer to_commit = Ok (s1', l)
    /\ collect fuel2 s2 (gc_round s2) buffer to_commit = Ok (s2', l)
    /\ marks s1 s1' refs /\ marks s2 s2' refs.
Proof.
  revert fuel2 s1 s2 buffer to_commit.
  induction fuel1 as [|fuel1 IH]; intros fuel2 s1 s2 buffer to_commit H1 H2 Ha Hb F1 F2; [lia|].
  destruct fuel2 as [|fuel2]; [lia|].
  destruct buffer as [|x buffer]; [exists s1, s2, to_commit, []; split_and!; [done..| |]; by apply marks_refl|].
  destruct (Hb x) as [V1 V2]; [by left|].
  destruct (collect_step s1 x buffer to_commit fuel1 H1 V1) as (t1 & bs1 & -> & M1 & R1 & B1).
  destruct (collect_step s2 x buffer to_commit fuel2 H2 V2) as (t2 & bs2 & -> & M2 & R2 & B2).
  assert (List.filter (fun a => (gc_round s2 <? br_round a) && negb (committed s2 a)) (ancestors x)
    = List.filter (fun a => (gc_round s1 <? br_round a) && negb (committed s1 a)) (ancestors x)) as Er.
  { apply List.filter_ext_in. intros a Hin%list_elem_of_In. rewrite (al_gc _ _ Ha).
    destruct (N.ltb_spec (gc_round s2) (br_round a)) as [Hg|]; [|done].
    destruct (rooted_view s1 _ x H1 V1) as [_ C1], (rooted_view s2 _ x H2 V2) as [_ C2].
    destruct (C1 a Hin) as [b1 W1]; [by rewrite (al_gc _ _ Ha)|]. destruct (C2 a Hin Hg) as [b2 W2].
    by rewrite (al_committed _ _ Ha a b1 b2) by (by rewrite ?(al_gc _ _ Ha)). }
  rewrite Er in M2, R2. set (refs := List.filter _ (ancestors x)) in *.
  assert (bs2 = bs1) as ->.
  { apply (same_blocks s2 s1); try done; [|congruence]. intros r b1 b2 W1 W2. symmetry. by apply (alike_view s1 s2 r). }
  pose proof (mk_count _ _ _ M1) as N1. pose proof (mk_count _ _ _ M2) as N2.
  assert (length bs1 = length refs) as Hlen by (rewrite <- R1; by rewrite length_fmap).
  destruct (IH fuel2 t1 t2 (reverse bs1 ++ buffer) (to_commit ++ [x])) as (s1' & s2' & l & refs' & E1 & E2 & M1' & M2').
  - apply (mk_inv _ _ _ M1).
  - apply (mk_inv _ _ _ M2).
  - by apply (alike_marks s1 s2 t1 t2 refs).
  - intros y. rewrite reverse_Permutation, (mk_view _ _ _ M1), (mk_view _ _ _ M2).
    intros [Hy|Hy]%elem_of_app; [split; [by apply B1|by apply B2]|]. apply Hb. by right.
  - rewrite length_app, length_reverse. simpl in F1. lia.
  - rewrite length_app, length_reverse. simpl in F2. lia.
  - exists s1', s2', l, (refs ++ refs'). split_and!; [done..| |]; by eapply marks_trans.
Qed.

Lemma linearize_alike s1 s2 leader s1' s2' l1 l2 :
  dag_inv s1 -> dag_inv s2 -> alike s1 s2 ->
  view s1 (reference leader) = Some leader -> view s2 (reference leader) = Some leader ->
  committed s1 (reference leader) = false -> committed s2 (reference leader) = false ->
  linearize_sub_dag leader s1 = Ok (s1', l1) -> linearize_sub_dag leader s2 = Ok (s2', l2) ->
  l1 = l2 /\ alike s1' s2'.
Proof.
  intros H1 H2 Ha V1 V2 C1 C2.
  destruct (set_committed_Ok s1 _ leader H1 V1 C1) as (t1 & E1 & M1).
  destruct (set_committed_Ok s2 _ leader H2 V2 C2) as (t2 & E2 & M2).
  pose proof (mk_count _ _ _ M1) as N1. pose proof (uncommitted_count_le s1) as L1.
  pose proof (mk_count _ _ _ M2) as N2. pose proof (uncommitted_count_le s2) as L2. simpl in N1, N2.
  destruct (collect_alike (Datatypes.S (Datatypes.S (size (ds_recent_blocks s1))))
    (Datatypes.S (Datatypes.S (size (ds_recent_blocks s2)))) t1 t2 [leader] [])
    as (u1 & u2 & l & refs & F1 & F2 & R1 & R2).
  { apply (mk_inv _ _ _ M1). }
  { apply (mk_inv _ _ _ M2). }
  { by apply (alike_marks s1 s2 _ _ _ Ha M1 M2). }
  { intros x ->%list_elem_of_singleton. by rewrite (mk_view _ _ _ M1), (mk_view _ _ _ M2). }
  { simpl. lia. }
  { simpl. lia. }
  rewrite (marks_gc _ _ _ M1) in F1. rewrite (marks_gc _ _ _ M2) in F2.
  unfold linearize_sub_dag. cbn [api_gc_round api_cached api_set_committed DagState_BlockStoreAPI].
  rewrite E1, E2. cbn [mbind outcome_bind fst snd assert_that]. rewrite F1, F2. cbn [mbind outcome_bind].
  intros R1' R2'. repeat outcome_step R1'. repeat outcome_step R2'. simplify_eq. split; [done|].
  eapply alike_marks; [|exact R1|exact R2]. by apply (alike_marks s1 s2 _ _ _ Ha M1 M2).
Qed.

(* ------------------------------------------------------------------ *)
(** ** The timestamp of a commit *)

Lemma parents_test (b : VerifiedBlock) :
  0 < round b -> round b <= u32_MAX ->
  List.filter (fun r => br_round r =? u32_sub (round b) 1) (ancestors b) = parents b.
Proof.
  intros Hr Hmax. unfold parents. rewrite u32_sub_small by lia.
  induction (ancestors b) as [|r l IH]; [done|]. rewrite filter_cons. simpl.
  destruct (N.eqb_spec (br_round r) (round b - 1)); [rewrite decide_True by lia; by rewrite IH|].
  by rewrite decide_False by lia.
Qed.

(** The blocks at the parents of a leader, as the state reads them. *)
Definition parent_blocks s (leader : VerifiedBlock) (pb : list VerifiedBlock) : Prop :=
  dag_block s <$> parents leader = Some <$> pb /\ reference <$> pb = parents leader.

Definition parents_known s (leader : VerifiedBlock) : Prop :=
  forall a, a ∈ parents leader -> exists b, dag_block s a = Some b /\ reference b = a.

Lemma parents_known_blocks s leader : parents_known s leader -> exists pb, parent_blocks s leader pb.
Proof.
  unfold parents_known, parent_blocks. induction (parents leader) as [|a l IH]; intros Hk; [by exists []|].
  destruct IH as (pb & E1 & E2); [intros x Hx; apply Hk; by right|].
  destruct (Hk a) as (b & Hb & Hr); [by left|]. exists (b :: pb).
  rewrite !fmap_cons, E1, E2, Hb, Hr. done.
Qed.

Lemma parent_blocks_wf s leader pb :
  dag_inv s -> view s (reference leader) = Some leader -> parent_blocks s leader pb ->
  let c := ds_committee s in
  NoDup (author <$> pb) /\ (forall b, b ∈ pb -> is_valid_index c (author b) = true)
  /\ c_quorum_threshold c <= blocks_stake c pb.
Proof.
  intros Hs Hl [_ Hpb] c. destruct (di_wf s Hs _ _ Hl) as [_ Hwf].
  assert (author <$> pb = br_author <$> parents leader) as Ea
    by (rewrite <- Hpb, <- list_fmap_compose; done).
  assert (NoDup (author <$> pb)) as Hnd.
  { rewrite Ea. eapply sublist_NoDup; [apply (wb_distinct _ _ Hwf)|].
    apply fmap_sublist, sublist_filter. }
  assert (forall b, b ∈ pb -> is_valid_index c (author b) = true) as Hv.
  { intros b Hb. apply (list_elem_of_fmap_2 reference) in Hb. rewrite Hpb in Hb.
    apply list_elem_of_filter in Hb as [_ Hb]. by destruct (wb_anc _ _ Hwf _ Hb) as (_ & ? & _). }
  split_and!; [done..|]. destruct (distinct_blocks_stake c pb (di_committee s Hs) Hnd Hv) as [-> _].
  rewrite Ea. apply (wb_quorum _ _ Hwf).
Qed.

Lemma commit_timestamp_Ok context s leader last pb :
  dag_inv s -> ds_committee s = committee context -> view s (reference leader) = Some leader ->
  parent_blocks s leader pb ->
  exists m, median_timestamp_by_stake context pb = Ok (Some m)
    /\ calculate_commit_timestamp context s leader last = Ok (N.max m last)
    /\ 2 * stake_if (committee context) (fun b => timestamp_ms b <? m) pb <= blocks_stake (committee context) pb
    /\ blocks_stake (committee context) pb
       < 2 * stake_if (committee context) (fun b => timestamp_ms b <=? m) pb.
Proof.
  intros Hs Hc Hl Hpb. destruct (parent_blocks_wf s leader pb Hs Hl Hpb) as (Hnd & Hv & Hq).
  rewrite Hc in Hv, Hq. pose proof (di_committee s Hs) as Hcw. rewrite Hc in Hcw.
  destruct (median_by_stake_Ok context pb Hcw Hnd Hv Hq) as (m & E & Hm). exists m. split_and!; try apply Hm; [done|].
  destruct (di_wf s Hs _ _ Hl) as [_ Hwf]. pose proof (wb_round _ _ Hwf) as Hr. destruct Hpb as [Hb _].
  unfold calculate_commit_timestamp. rewrite parents_test by lia.
  change (api_get_blocks s (parents leader)) with (get_blocks s (parents leader)).
  rewrite get_blocks_spec, Hb. cbn [mbind outcome_bind]. rewrite mapM_unwrap_Some. cbn [mbind outcome_bind].
  by rewrite E.
Qed.

(* ------------------------------------------------------------------ *)
(** ** One committed leader *)

Section commit.
Context (bcs_commit : Commit -> list byte) (default_hash : list byte -> N) (context : Context).

Record commit_inv s : Prop := {
  hc_inv : dag_inv s;
  hc_closed : committed_closed s;
  hc_committee : ds_committee s = committee context;
  hc_rounds : length (ds_last_committed_rounds s) = N.to_nat (committee_size (ds_committee s));
}.

(** A leader that can be committed: cached, new, with known parents. *)
Record ready s (leader : VerifiedBlock) : Prop := {
  rd_view : view s (reference leader) = Some leader;
  rd_committed : committed s (reference leader) = false;
  rd_round : last_commit_round s < round leader;
  rd_parents : parents_known s leader;
}.

(** What handling a leader does. *)
Record commits s s' (leader : VerifiedBlock) (sd : CommittedSubDag) : Prop := {
  cm_inv : commit_inv s';
  cm_leader : sd_leader sd = reference leader;
  cm_index : cr_index (sd_commit_ref sd) = last_commit_index s + 1;
  cm_timestamp : last_commit_timestamp_ms s <= sd_timestamp_ms sd;
  cm_NoDup : NoDup (reference <$> sd_blocks sd);
  cm_sorted : StronglySorted (fun a b => sub_dag_leb a b = true) (sd_blocks sd);
  cm_elem : forall x, x ∈ sd_blocks sd <-> view s (reference x) = Some x /\ gc_round s < round x
    /\ committed s (reference x) = false /\ (x = leader \/ reach s leader (reference x));
  cm_committed : forall r, committed s' r = true <-> committed s r = true \/ r ∈ reference <$> sd_blocks sd;
  cm_view : forall r, view s' r = view s r;
  cm_included : forall r, included s' r = included s r;
  cm_block : forall r, dag_block s' r = dag_block s r;
  cm_last_index : last_commit_index s' = last_commit_index s + 1;
  cm_last_timestamp : last_commit_timestamp_ms s' = sd_timestamp_ms sd;
  cm_last_round : last_commit_round s' = round leader;
  cm_context : ds_context s' = ds_context s;
  cm_rest : rest_fields s' = rest_fields s;
}.

Lemma last_round_gc s : gc_round s <= last_commit_round s.
Proof. unfold gc_round, calculate_gc_round, saturating_sub. lia. Qed.

Lemma pruned_metric_Ok s sd :
  commit_inv s -> (forall x, x ∈ sd_blocks sd -> view s (reference x) = Some x) ->
  update_blocks_pruned_metric context s sd = Ok tt.
Proof.
  intros [Hs _ Hc Hr] Hsd. unfold update_blocks_pruned_metric.
  assert (forall a, a ∈ sd_blocks sd ≫= ancestors -> is_valid_index (committee context) (br_author a) = true) as Hv.
  { intros a (x & Ha & Hx)%list_elem_of_bind. destruct (di_wf s Hs _ _ (Hsd x Hx)) as [_ Hwf].
    rewrite <- Hc. by destruct (wb_anc _ _ Hwf _ Ha) as (_ & ? & _). }
  destruct (filterM_total (fun a => if br_round a <=? gc_round s then
      last_round ← vec_index (ds_last_committed_rounds s) (br_author a);
      Ok (negb (last_round =? br_round a)) else Ok false) (fun _ _ => True) (sd_blocks sd ≫= ancestors))
    as (k & -> & Hsub & _).
  - intros a Ha. specialize (Hv a Ha). destruct (br_round a <=? gc_round s); [|by eexists].
    unfold vec_index. unfold is_valid_index in Hv. apply N.ltb_lt in Hv.
    destruct (lookup_lt_is_Some_2 (ds_last_committed_rounds s) (N.to_nat (br_author a))) as [x ->];
      [rewrite Hr, Hc; lia|]. by eexists.
  - cbn [mbind outcome_bind].
    rewrite (mapM_Ok _ (fun a => default (mkAuthority 0 "" "" "" [] [])
                         (c_authorities (committee context) !! N.to_nat (br_author a)))); [done|].
    intros a Ha. destruct (committee_authority_Ok (committee context) (br_author a)) as [au E].
    { apply Hv. by eapply sublist_subseteq. }
    rewrite E. unfold committee_authority, vec_index in E. apply unwrap_Ok in E. by rewrite E.
Qed.

(** The commit made of a linearized leader. *)
Definition commit_of s (leader : VerifiedBlock) (l : list VerifiedBlock) (ts : N) : TrustedCommit :=
  let commit := commit_new (u32_add (last_commit_index s) 1) (last_commit_digest s) ts
                  (reference leader) (reference <$> l) in
  trusted_commit_new_trusted default_hash commit (bcs_commit commit).

Definition sub_dag_of s (leader : VerifiedBlock) (l : list VerifiedBlock) (ts : N) : CommittedSubDag :=
  committed_sub_dag_new (reference leader) l ts (commit_reference (commit_of s leader l ts)).

(** The steps of [commit_one], all of which return. *)
Lemma commit_one_steps s leader acc :
  commit_inv s -> ready s leader -> last_commit_index s < u32_MAX ->
  exists s1 l pb m s', linearize_sub_dag leader s = Ok (s1, l) /\ linearized s s1 leader l
    /\ parent_blocks s leader pb /\ median_timestamp_by_stake context pb = Ok (Some m)
    /\ add_commit s1 (commit_of s leader l (N.max m (last_commit_timestamp_ms s))) = Ok s'
    /\ dag_inv s' /\ ds_last_commit s' = Some (commit_of s leader l (N.max m (last_commit_timestamp_ms s)))
    /\ ds_context s' = ds_context s1 /\ ds_recent_blocks s' = ds_recent_blocks s1
    /\ ds_genesis s' = ds_genesis s1 /\ ds_store s' = ds_store s1
    /\ (forall i, ds_last_committed_rounds s' !! i
          = highest_round (reference <$> l) i <$> ds_last_committed_rounds s1 !! i)
    /\ commit_one bcs_commit default_hash context (s, acc) leader
       = Ok (s', acc ++ [sub_dag_of s leader l (N.max m (last_commit_timestamp_ms s))]).
Proof.
  intros [Hs Hcl Hc Hlen] [Hv Hnc Hr Hp] Hidx. pose proof (last_round_gc s) as Hgc.
  destruct (linearize_Ok s leader Hs Hcl Hv Hnc ltac:(lia)) as (s1 & l & E1 & L).
  pose proof (li_marks _ _ _ _ L) as M.
  assert (commit_inv s1) as Hc1.
  { destruct (mk_state _ _ _ M) as [k Ek]. constructor; [apply (mk_inv _ _ _ M)|apply (li_closed _ _ _ _ L)|..];
      rewrite Ek; done. }
  destruct (parents_known_blocks s leader Hp) as [pb Hpb].
  assert (parent_blocks s1 leader pb) as Hpb1.
  { destruct Hpb as [Hd ?]. split; [|done]. rewrite <- Hd. apply list_fmap_ext. intros. by apply (marks_dag_block s s1 _ _ M). }
  destruct (commit_timestamp_Ok context s1 leader (last_commit_timestamp_ms s) pb (hc_inv _ Hc1)
    (hc_committee _ Hc1)) as (m & Em & Et & _); [by rewrite (mk_view _ _ _ M)|done|].
  set (ts := N.max m (last_commit_timestamp_ms s)) in *. set (commit := commit_of s leader l ts).
  assert (forall x, x ∈ l -> view s1 (reference x) = Some x) as Hl1.
  { intros x Hx. rewrite (mk_view _ _ _ M). by apply (li_elem _ _ _ _ L). }
  assert (last_commit_index s1 = last_commit_index s /\ last_commit_round s1 = last_commit_round s
    /\ last_commit_timestamp_ms s1 = last_commit_timestamp_ms s) as (Ei & Er & Es)
    by (destruct (mk_state _ _ _ M) as [k ->]; done).
  destruct (add_commit_Ok s1 commit) as (s' & Ea & I' & Lc & _ & _ & Cx & Rb & Ge & St & Lr).
  - apply (hc_inv _ Hc1).
  - unfold next_commit. rewrite Ei, Es. split; [by apply u32_add_small; lia|]. apply N.le_max_r.
  - unfold commit, commit_of. cbn. rewrite u32_add_small by lia. lia.
  - apply (hc_rounds _ Hc1).
  - intros r (x & -> & Hx)%list_elem_of_fmap.
    apply (wb_author _ _ (proj2 (di_wf s1 (hc_inv _ Hc1) _ _ (Hl1 x Hx)))).
  - rewrite Er. cbn. lia.
  - exists s1, l, pb, m, s'. split_and!; try done. unfold commit_one, collect_sub_dag_and_commit.
    rewrite E1. cbn [mbind outcome_bind]. rewrite Et. cbn [mbind outcome_bind].
    rewrite (pruned_metric_Ok s1 _ Hc1) by done. cbn [mbind outcome_bind].
    change (trusted_commit_new_trusted _ _ _) with commit. rewrite Ea. done.
Qed.

Lemma commit_one_Ok s leader acc :
  commit_inv s -> ready s leader -> last_commit_index s < u32_MAX ->
  exists s' sd, commit_one bcs_commit default_hash context (s, acc) leader = Ok (s', acc ++ [sd])
    /\ commits s s' leader sd.
Proof.
  intros Hci Hrd Hidx.
  destruct (commit_one_steps s leader acc Hci Hrd Hidx)
    as (s1 & l & pb & m & s' & _ & L & _ & _ & Ea & I' & Lc & Cx & Rb & Ge & St & Lr & E).
  set (ts := N.max m (last_commit_timestamp_ms s)) in *.
  exists s', (sub_dag_of s leader l ts). split; [done|]. pose proof (li_marks _ _ _ _ L) as M.
  assert (forall r, view s' r = view s r) as Hview.
  { intros r. rewrite <- (mk_view _ _ _ M). unfold view. by rewrite Rb. }
  assert (forall r, committed s' r = committed s1 r) as Hcom by (intros r; unfold committed; by rewrite Rb).
  assert (last_commit_round s' = round leader) as Hlr by (unfold last_commit_round; by rewrite Lc).
  assert (ds_context s' = ds_context s) as Hctx by (rewrite Cx; by destruct (mk_state _ _ _ M) as [k ->]).
  assert (gc_round s <= gc_round s') as Hgc.
  { pose proof (rd_round _ _ Hrd). unfold gc_round, calculate_gc_round, saturating_sub. rewrite Hctx, Hlr. lia. }
  constructor; try done.
  - constructor; [done| | |].
    + intros r b a. rewrite !Hcom, Hview, <- (mk_view _ _ _ M). intros Hr Hv Ha Hg.
      apply (li_closed _ _ _ _ L r b a); try done. rewrite (marks_gc _ _ _ M). lia.
    + unfold ds_committee. rewrite Hctx. apply (hc_committee _ Hci).
    + unfold ds_committee. rewrite Hctx. fold (ds_committee s). rewrite <- (hc_rounds _ Hci).
      rewrite (lookup_fmap_length _ _ _ Lr). by destruct (mk_state _ _ _ M) as [k ->].
  - cbn. by rewrite u32_add_small by lia.
  - apply N.le_max_r.
  - apply (li_NoDup _ _ _ _ L).
  - apply (li_sorted _ _ _ _ L).
  - apply (li_elem _ _ _ _ L).
  - intros r. rewrite Hcom. apply (marks_committed _ _ _ _ M).
  - intros r. rewrite <- (mk_included _ _ _ M). unfold included. by rewrite Rb.
  - intros r. rewrite <- (marks_dag_block _ _ _ _ M). unfold dag_block, cached_block. by rewrite Ge, Rb, St.
  - unfold last_commit_index at 1. rewrite Lc. cbn. by rewrite u32_add_small by lia.
  - unfold last_commit_timestamp_ms at 1. by rewrite Lc.
  - rewrite (add_commit_rest _ _ _ Ea). by destruct (mk_state _ _ _ M) as [k ->].
Qed.

(** The commits that a sequence of sub-DAGs stands for, the first of them
    after the commit with digest [previous_digest]: each names the digest of
    the one before it, the leader, the timestamp and the blocks of its
    sub-DAG. *)
Fixpoint commit_chain (previous_digest : N) (sds : list CommittedSubDag) : list TrustedCommit :=
  match sds with
  | [] => []
  | sd :: sds =>
      let commit := commit_new (cr_index (sd_commit_ref sd)) previous_digest (sd_timestamp_ms sd)
                      (sd_leader sd) (reference <$> sd_blocks sd) in
      let commit := trusted_commit_new_trusted default_hash commit (bcs_commit commit) in
      commit :: commit_chain (cr_digest (commit_reference commit)) sds
  end.

(** The sub-DAGs carry the references of their chained commits, which are the
    commits added to the state. *)
Record chained s s' (sds : list CommittedSubDag) : Prop := {
  cn_refs : sd_commit_ref <$> sds = commit_reference <$> commit_chain (last_commit_digest s) sds;
  cn_buffered : ds_commits_to_write s' = ds_commits_to_write s ++ commit_chain (last_commit_digest s) sds;
  cn_last : ds_last_commit s' = last (option_list (ds_last_commit s) ++ commit_chain (last_commit_digest s) sds);
}.

Lemma commit_one_chained s leader acc s' sd :
  commit_inv s -> ready s leader -> last_commit_index s < u32_MAX ->
  commit_one bcs_commit default_hash context (s, acc) leader = Ok (s', acc ++ [sd]) -> chained s s' [sd].
Proof.
  intros Hci Hrd Hidx E.
  destruct (commit_one_steps s leader acc Hci Hrd Hidx)
    as (s1 & l & pb & m & s2 & _ & L & _ & _ & Ea & _ & Lc & _ & _ & _ & _ & _ & E2).
  rewrite E2 in E. injection E as <- Esd. apply app_inv_head_iff in Esd. injection Esd as <-.
  destruct (mk_state _ _ _ (li_marks _ _ _ _ L)) as [k Ek].
  assert (last_commit_index s1 = last_commit_index s /\ ds_commits_to_write s1 = ds_commits_to_write s) as [Hi Hw]
    by (rewrite Ek; done).
  constructor.
  - done.
  - rewrite <- Hw. apply (add_commit_buffered s1 _ s2); [|done]. rewrite Hi.
    cbn. rewrite u32_add_small by lia. lia.
  - rewrite Lc. cbn [commit_chain]. by rewrite last_snoc.
Qed.

Lemma chained_nil s : chained s s [].
Proof. constructor; [done|by rewrite app_nil_r|]. rewrite app_nil_r. by destruct (ds_last_commit s). Qed.

Lemma chained_cons s s1 s' sd sds : chained s s1 [sd] -> chained s1 s' sds -> chained s s' (sd :: sds).
Proof.
  intros [R1 B1 L1] [R2 B2 L2]. cbn [commit_chain] in *. set (c := trusted_commit_new_trusted _ _ _) in *.
  rewrite last_snoc in L1.
  assert (last_commit_digest s1 = cr_digest (commit_reference c)) as Hd
    by (unfold last_commit_digest; rewrite L1; done).
  rewrite Hd in R2, B2, L2. constructor; cbn [commit_chain]; fold c.
  - rewrite !fmap_cons, <- R2. f_equal. by injection R1.
  - by rewrite B2, B1, <- app_assoc.
  - rewrite L2, L1. cbn [option_list app]. by rewrite last_app_cons.
Qed.
End commit.

(* ------------------------------------------------------------------ *)
(** ** The same leader at two validators *)

(** After the same commits: the last commit, the GC depth and the marks on
    the common blocks agree. *)
Record in_step s1 s2 : Prop := {
  is_alike : alike s1 s2;
  is_last : ds_last_commit s1 = ds_last_commit s2;
  is_depth : gc_depth (protocol_config (ds_context s1)) = gc_depth (protocol_config (ds_context s2));
}.

Lemma parent_blocks_alike s1 s2 leader pb1 pb2 :
  alike s1 s2 -> parent_blocks s1 leader pb1 -> parent_blocks s2 leader pb2 -> pb1 = pb2.
Proof.
  intros Ha [E1 _] [E2 _]. revert pb1 pb2 E1 E2.
  induction (parents leader) as [|a l IH]; intros [|b1 pb1] [|b2 pb2] E1 E2; try done.
  cbn in E1, E2. injection E1 as D1 E1. injection E2 as D2 E2. f_equal; [|by apply IH].
  by apply (al_block _ _ Ha a).
Qed.

Lemma commit_one_alike bcs_commit default_hash context1 context2 s1 s2 leader acc :
  committee context1 = committee context2 ->
  commit_inv context1 s1 -> commit_inv context2 s2 -> ready s1 leader -> ready s2 leader ->
  last_commit_index s1 < u32_MAX -> in_step s1 s2 ->
  exists s1' s2' sd, commit_one bcs_commit default_hash context1 (s1, acc) leader = Ok (s1', acc ++ [sd])
    /\ commit_one bcs_commit default_hash context2 (s2, acc) leader = Ok (s2', acc ++ [sd])
    /\ in_step s1' s2'.
Proof.
  intros Hc C1 C2 R1 R2 Hidx [Ha Hlast Hd].
  assert (last_commit_index s2 < u32_MAX) as Hidx2 by (unfold last_commit_index in *; by rewrite <- Hlast).
  destruct (commit_one_steps bcs_commit default_hash context1 s1 leader acc C1 R1 Hidx)
    as (t1 & l1 & pb1 & m1 & s1' & E1 & L1 & P1 & M1 & _ & _ & Lc1 & Cx1 & Rb1 & Ge1 & St1 & _ & F1).
  destruct (commit_one_steps bcs_commit default_hash context2 s2 leader acc C2 R2 Hidx2)
    as (t2 & l2 & pb2 & m2 & s2' & E2 & L2 & P2 & M2 & _ & _ & Lc2 & Cx2 & Rb2 & Ge2 & St2 & _ & F2).
  destruct (linearize_alike s1 s2 leader t1 t2 l1 l2 (hc_inv _ _ C1) (hc_inv _ _ C2) Ha
    (rd_view _ _ R1) (rd_view _ _ R2) (rd_committed _ _ R1) (rd_committed _ _ R2) E1 E2) as [<- Ht].
  rewrite <- (parent_blocks_alike s1 s2 leader pb1 pb2 Ha P1 P2) in M2.
  assert (m2 = m1) as ->.
  { unfold median_timestamp_by_stake in M1, M2. rewrite <- Hc, M1 in M2. by injection M2 as ->. }
  assert (forall ts, commit_of bcs_commit default_hash s2 leader l1 ts
                     = commit_of bcs_commit default_hash s1 leader l1 ts) as Eof
    by (intros ts; unfold commit_of, last_commit_index, last_commit_digest; by rewrite Hlast).
  assert (last_commit_timestamp_ms s2 = last_commit_timestamp_ms s1) as Ets
    by (unfold last_commit_timestamp_ms; by rewrite Hlast).
  rewrite Ets, Eof in Lc2. unfold sub_dag_of in F2. rewrite Ets, Eof in F2.
  pose proof (li_marks _ _ _ _ L1) as K1. pose proof (li_marks _ _ _ _ L2) as K2.
  assert (ds_context s1' = ds_context s1) as X1 by (rewrite Cx1; by destruct (mk_state _ _ _ K1) as [k ->]).
  assert (ds_context s2' = ds_context s2) as X2 by (rewrite Cx2; by destruct (mk_state _ _ _ K2) as [k ->]).
  exists s1', s2', (sub_dag_of bcs_commit default_hash s1 leader l1 (N.max m1 (last_commit_timestamp_ms s1))).
  split_and!; [done..|]. constructor; [|by rewrite Lc1, Lc2|by rewrite X1, X2]. constructor.
  - unfold gc_round, calculate_gc_round, last_commit_round. by rewrite X1, X2, Hd, Lc1, Lc2.
  - intros r b1 b2 B1 B2. apply (al_block _ _ Ht r).
    + revert B1. unfold dag_block, cached_block. by rewrite Ge1, Rb1, St1.
    + revert B2. unfold dag_block, cached_block. by rewrite Ge2, Rb2, St2.
  - intros r b1 b2 Hg. unfold view, committed. rewrite Rb1, Rb2. apply (al_committed _ _ Ht r).
    rewrite (marks_gc _ _ _ K1). eapply N.le_lt_trans; [|exact Hg].
    assert (last_commit_round s1' = round leader) as Hlr by (unfold last_commit_round; by rewrite Lc1).
    pose proof (rd_round _ _ R1). unfold gc_round, calculate_gc_round, saturating_sub.
    rewrite X1, Hlr. lia.
Qed.
End ops.
