(* ===== verification/BlockManager.v ===== *)
(** * The block manager

    Models block_manager.rs: blocks whose ancestors are not all accepted are
    suspended, the missing ancestors are remembered and reported, and blocks
    are accepted into the DAG state once their ancestors are, or once the
    missing ones are garbage collected.  The DAG state it owns is passed
    along. *)

From S2P Require Import Prelude Committee Context Block StakeAggregator ThresholdClock Commit Store LeaderScoring DagState.

(** The time of the suspension is only reported. *)
Record SuspendedBlock := mkSuspendedBlock {
  sb_block : VerifiedBlock;
  sb_missing_ancestors : gset BlockRef;
}.

Record BlockManager := mkBlockManager {
  bm_suspended_blocks : gmap BlockRef SuspendedBlock;
  bm_missing_ancestors : gmap BlockRef (gset BlockRef);
  bm_missing_blocks : gset BlockRef;
  bm_received_block_rounds : list (option (N * N));
}.

Inductive TryAcceptResult :=
  | Accepted (block : VerifiedBlock)
  | Suspended (ancestors_to_fetch : gset BlockRef)
  | Processed
  | Skipped.

Definition set_suspended (bm : BlockManager) (m : gmap BlockRef SuspendedBlock) : BlockManager :=
  {| bm_suspended_blocks := m;
     bm_missing_ancestors := bm_missing_ancestors bm;
     bm_missing_blocks := bm_missing_blocks bm;
     bm_received_block_rounds := bm_received_block_rounds bm |}.

Definition set_missing_ancestors (bm : BlockManager) (m : gmap BlockRef (gset BlockRef)) : BlockManager :=
  {| bm_suspended_blocks := bm_suspended_blocks bm;
     bm_missing_ancestors := m;
     bm_missing_blocks := bm_missing_blocks bm;
     bm_received_block_rounds := bm_received_block_rounds bm |}.

Definition set_missing_blocks (bm : BlockManager) (m : gset BlockRef) : BlockManager :=
  {| bm_suspended_blocks := bm_suspended_blocks bm;
     bm_missing_ancestors := bm_missing_ancestors bm;
     bm_missing_blocks := m;
     bm_received_block_rounds := bm_received_block_rounds bm |}.

Definition set_received_rounds (bm : BlockManager) (l : list (option (N * N))) : BlockManager :=
  {| bm_suspended_blocks := bm_suspended_blocks bm;
     bm_missing_ancestors := bm_missing_ancestors bm;
     bm_missing_blocks := bm_missing_blocks bm;
     bm_received_block_rounds := l |}.

Definition block_manager_new (context : Context) : BlockManager :=
  {| bm_suspended_blocks := ∅;
     bm_missing_ancestors := ∅;
     bm_missing_blocks := ∅;
     bm_received_block_rounds := replicate (N.to_nat (committee_size (committee context))) None |}.

(** [map.entry(k).or_default()] *)
Definition entry_or_default (m : gmap BlockRef (gset BlockRef)) (k : BlockRef) : gset BlockRef :=
  default ∅ (m !! k).

Definition is_suspended (bm : BlockManager) (r : BlockRef) : bool :=
  bool_decide (is_Some (bm_suspended_blocks bm !! r)).

Section manager.
Context {S : Type} `{Store S}.
Implicit Types dag : DagState S.

(* ------------------------------------------------------------------ *)
(** ** Unsuspending *)

Definition try_unsuspend_block (bm : BlockManager) (block_ref accepted_dependency : BlockRef)
    : outcome (BlockManager * option SuspendedBlock) :=
  block ← unwrap (bm_suspended_blocks bm !! block_ref);
  _ ← assert_that (bool_decide (accepted_dependency ∈ sb_missing_ancestors block));
  let block := {| sb_block := sb_block block;
                  sb_missing_ancestors := sb_missing_ancestors block ∖ {[accepted_dependency]} |} in
  if bool_decide (sb_missing_ancestors block = ∅) then
    Ok (set_suspended bm (delete block_ref (bm_suspended_blocks bm)), Some block)
  else Ok (set_suspended bm (<[block_ref := block]> (bm_suspended_blocks bm)), None).

(** The children of one block: what is unsuspended goes on the stack, whose
    top is the head of the list, and on the output. *)
Definition unsuspend_dependents (bm : BlockManager) (block_ref : BlockRef) (dependents : list BlockRef)
    (to_process_blocks : list BlockRef) (unsuspended_blocks : list VerifiedBlock)
    : outcome (BlockManager * list BlockRef * list VerifiedBlock) :=
  foldM (fun '(bm, to_process_blocks, unsuspended_blocks) r =>
           res ← try_unsuspend_block bm r block_ref;
           Ok match res.2 with
              | Some block => (res.1, reference (sb_block block) :: to_process_blocks,
                               unsuspended_blocks ++ [sb_block block])
              | None => (res.1, to_process_blocks, unsuspended_blocks)
              end)
    dependents (bm, to_process_blocks, unsuspended_blocks).

Fixpoint unsuspend_loop (fuel : nat) (bm : BlockManager) (to_process_blocks : list BlockRef)
    (unsuspended_blocks : list VerifiedBlock) : outcome (BlockManager * list VerifiedBlock) :=
  match fuel with
  | O => OutOfFuel
  | Datatypes.S fuel =>
      match to_process_blocks with
      | [] => Ok (bm, unsuspended_blocks)
      | block_ref :: to_process_blocks =>
          match bm_missing_ancestors bm !! block_ref with
          | Some block_refs_with_missing_deps =>
              let bm := set_missing_ancestors bm (delete block_ref (bm_missing_ancestors bm)) in
              res ← unsuspend_dependents bm block_ref (btree_iter block_refs_with_missing_deps)
                      to_process_blocks unsuspended_blocks;
              let '(bm, to_process_blocks, unsuspended_blocks) := res in
              unsuspend_loop fuel bm to_process_blocks unsuspended_blocks
          | None => unsuspend_loop fuel bm to_process_blocks unsuspended_blocks
          end
      end
  end.

(** Every block of the stack but the first was suspended. *)
Definition try_unsuspend_children_blocks (context : Context) (bm : BlockManager) (accepted_block : BlockRef)
    : outcome (BlockManager * list VerifiedBlock) :=
  res ← unsuspend_loop (Datatypes.S (Datatypes.S (size (bm_suspended_blocks bm)))) bm [accepted_block] [];
  _ ← mapM (fun block => committee_authority (committee context) (author block)) res.2;
  Ok res.

(* ------------------------------------------------------------------ *)
(** ** Accepting *)

Definition update_block_received_metrics (context : Context) (bm : BlockManager) (block : VerifiedBlock)
    : outcome BlockManager :=
  current ← vec_index (bm_received_block_rounds bm) (author block);
  let rounds := match current with
                | Some (curr_min, curr_max) => (N.min curr_min (round block), N.max curr_max (round block))
                | None => (round block, round block)
                end in
  received ← vec_store (bm_received_block_rounds bm) (author block) (Some rounds);
  _ ← committee_authority (committee context) (author block);
  Ok (set_received_rounds bm received).

(** One ancestor that the DAG state does not contain. *)
Definition note_missing_ancestor (context : Context) (block_ref : BlockRef)
    (acc : BlockManager * gset BlockRef * gset BlockRef) (ancestor : BlockRef)
    : outcome (BlockManager * gset BlockRef * gset BlockRef) :=
  let '(bm, missing_ancestors, ancestors_to_fetch) := acc in
  let missing_ancestors := {[ancestor]} ∪ missing_ancestors in
  let m := bm_missing_ancestors bm in
  let bm := set_missing_ancestors bm (<[ancestor := {[block_ref]} ∪ entry_or_default m ancestor]> m) in
  _ ← committee_authority (committee context) (br_author ancestor);
  if is_suspended bm ancestor then Ok (bm, missing_ancestors, ancestors_to_fetch)
  else Ok (set_missing_blocks bm ({[ancestor]} ∪ bm_missing_blocks bm), missing_ancestors,
           {[ancestor]} ∪ ancestors_to_fetch).

Definition try_accept_one_block (context : Context) (bm : BlockManager) dag (block : VerifiedBlock)
    : outcome (BlockManager * TryAcceptResult) :=
  let block_ref := reference block in
  let gc_round := gc_round dag in
  processed ← if is_suspended bm block_ref then Ok true else contains_block dag block_ref;
  if processed : bool then Ok (bm, Processed)
  else if round block <=? gc_round then
    _ ← committee_authority (committee context) (author block);
    Ok (bm, Skipped)
  else
    let ancestors := List.filter (fun ancestor => (br_round ancestor =? GENESIS_ROUND)
                                                  || (gc_round <? br_round ancestor)) (ancestors block) in
    found ← contains_blocks dag ancestors;
    noted ← foldM (fun acc '(found, ancestor) =>
                     if found : bool then Ok acc
                     else note_missing_ancestor context block_ref acc ancestor)
              (zip found ancestors) (bm, ∅, ∅);
    let '(bm, missing_ancestors, ancestors_to_fetch) := noted in
    let bm := set_missing_blocks bm (bm_missing_blocks bm ∖ {[block_ref]}) in
    if bool_decide (missing_ancestors = ∅) then Ok (bm, Accepted block)
    else
      _ ← committee_authority (committee context) (author block);
      Ok (set_suspended bm (<[block_ref := mkSuspendedBlock block missing_ancestors]>
                              (bm_suspended_blocks bm)),
          Suspended ancestors_to_fetch).

Definition try_accept_one_committed_block (bm : BlockManager) dag (block : VerifiedBlock)
    : outcome (BlockManager * DagState S * TryAcceptResult) :=
  contained ← contains_block dag (reference block);
  if contained : bool then Ok (bm, dag, Processed)
  else
    let bm := set_missing_blocks bm (bm_missing_blocks bm ∖ {[reference block]}) in
    let bm :=
      match bm_suspended_blocks bm !! reference block with
      | Some suspended_block =>
          let bm := set_suspended bm (delete (reference block) (bm_suspended_blocks bm)) in
          set_missing_ancestors bm
            (foldl (fun m ancestor => alter (fun references => references ∖ {[reference block]}) ancestor m)
               (bm_missing_ancestors bm) (btree_iter (sb_missing_ancestors suspended_block)))
      | None => bm
      end in
    dag ← accept_blocks dag [block];
    Ok (bm, dag, Accepted block).

(** One block of the batch.  The accumulator holds the manager, the DAG
    state, the accepted blocks and the missing blocks. *)
Definition accept_received (context : Context) (committed : bool)
    (acc : BlockManager * DagState S * list VerifiedBlock * gset BlockRef) (block : VerifiedBlock)
    : outcome (BlockManager * DagState S * list VerifiedBlock * gset BlockRef) :=
  let '(bm, dag, accepted_blocks, missing_blocks) := acc in
  bm ← update_block_received_metrics context bm block;
  let block_ref := reference block in
  let finish bm dag accepted_blocks blocks_to_accept :=
    unsuspended ← try_unsuspend_children_blocks context bm block_ref;
    let blocks_to_accept := blocks_to_accept ++ unsuspended.2 in
    dag ← accept_blocks dag blocks_to_accept;
    Ok (unsuspended.1, dag, accepted_blocks ++ blocks_to_accept, missing_blocks) in
  if committed then
    res ← try_accept_one_committed_block bm dag block;
    let '(bm, dag, result) := res in
    match result with
    | Accepted block => finish bm dag (accepted_blocks ++ [block]) []
    | Processed => Ok (bm, dag, accepted_blocks, missing_blocks)
    | Suspended _ | Skipped => Panic
    end
  else
    res ← try_accept_one_block context bm dag block;
    let '(bm, result) := res in
    match result with
    | Accepted block => finish bm dag accepted_blocks [block]
    | Suspended ancestors_to_fetch =>
        Ok (bm, dag, accepted_blocks, missing_blocks ∪ ancestors_to_fetch)
    | Processed | Skipped => Ok (bm, dag, accepted_blocks, missing_blocks)
    end.

Definition try_accept_blocks_internal (context : Context) (bm : BlockManager) dag
    (blocks : list VerifiedBlock) (committed : bool)
    : outcome (BlockManager * DagState S * list VerifiedBlock * gset BlockRef) :=
  foldM (accept_received context committed)
    (stable_sort (fun a b => round a <=? round b) blocks) (bm, dag, [], ∅).

Definition try_accept_blocks (context : Context) (bm : BlockManager) dag (blocks : list VerifiedBlock)
    : outcome (BlockManager * DagState S * list VerifiedBlock * gset BlockRef) :=
  try_accept_blocks_internal context bm dag blocks false.

Definition try_accept_committed_blocks (context : Context) (bm : BlockManager) dag
    (blocks : list VerifiedBlock) : outcome (BlockManager * DagState S * list VerifiedBlock) :=
  res ← try_accept_blocks_internal context bm dag blocks true;
  let '(bm, dag, accepted_blocks, missing_blocks) := res in
  _ ← assert_that (bool_decide (missing_blocks = ∅));
  Ok (bm, dag, accepted_blocks).

(* ------------------------------------------------------------------ *)
(** ** Looking for blocks, and garbage collection *)

Definition note_missing_block (context : Context) (acc : BlockManager * gset BlockRef)
    (found_ref : bool * BlockRef) : outcome (BlockManager * gset BlockRef) :=
  let '(bm, missing_blocks) := acc in
  let '(found, block_ref) := found_ref in
  if found || is_suspended bm block_ref then Ok acc
  else
    let missing_blocks := {[block_ref]} ∪ missing_blocks in
    if bool_decide (block_ref ∈ bm_missing_blocks bm) then Ok (bm, missing_blocks)
    else
      let m := bm_missing_ancestors bm in
      let bm := set_missing_blocks bm ({[block_ref]} ∪ bm_missing_blocks bm) in
      let bm := set_missing_ancestors bm (<[block_ref := entry_or_default m block_ref]> m) in
      _ ← committee_authority (committee context) (br_author block_ref);
      Ok (bm, missing_blocks).

Definition try_find_blocks (context : Context) (bm : BlockManager) dag (block_refs : list BlockRef)
    : outcome (BlockManager * gset BlockRef) :=
  let block_refs := List.filter (fun block_ref => gc_round dag <? br_round block_ref) block_refs in
  if is_empty block_refs then Ok (bm, ∅)
  else
    let block_refs := stable_sort (fun a b => br_round a <=? br_round b) block_refs in
    found ← contains_blocks dag block_refs;
    foldM (note_missing_block context) (zip found block_refs) (bm, ∅).

Fixpoint gc_loop (fuel : nat) (context : Context) (bm : BlockManager) dag (gc_round : N)
    : outcome (BlockManager * DagState S) :=
  match fuel with
  | O => OutOfFuel
  | Datatypes.S fuel =>
      match btree_map_first (bm_missing_ancestors bm) with
      | None => Ok (bm, dag)
      | Some (block_ref, _) =>
          if gc_round <? br_round block_ref then Ok (bm, dag)
          else
            _ ← committee_authority (committee context) (br_author block_ref);
            _ ← assert_that (negb (is_suspended bm block_ref));
            let bm := set_missing_blocks bm (bm_missing_blocks bm ∖ {[block_ref]}) in
            unsuspended ← try_unsuspend_children_blocks context bm block_ref;
            dag ← accept_blocks dag unsuspended.2;
            _ ← mapM (fun block => committee_authority (committee context) (author block)) unsuspended.2;
            gc_loop fuel context unsuspended.1 dag gc_round
      end
  end.

Definition try_unsuspend_blocks_for_latest_gc_round (context : Context) (bm : BlockManager) dag
    : outcome (BlockManager * DagState S) :=
  gc_loop (Datatypes.S (size (bm_missing_ancestors bm))) context bm dag (gc_round dag).
End manager.
