(* ===== verification/BlockManagerInv.v ===== *)
(** * The block manager: unsuspending blocks

    The records of the block manager are consistent, and when a missing
    ancestor is resolved exactly the blocks that waited for nothing else are
    unsuspended, in causal order. *)

From S2P Require Import Prelude Committee Context Block StakeAggregator ThresholdClock Commit Store LeaderScoring DagState BlockManager.

Notation refs_of bs := (list_to_set (C := gset BlockRef) (reference <$> bs)).

(** The two maps describe one relation: which suspended block waits for
    which ancestor. *)
Record bm_wf (bm : BlockManager) : Prop := {
  bw_block : forall r sb, bm_suspended_blocks bm !! r = Some sb ->
    reference (sb_block sb) = r /\ sb_missing_ancestors sb <> ∅
    /\ (forall a, a ∈ sb_missing_ancestors sb -> a ∈ ancestors (sb_block sb)
          /\ is_Some (bm_missing_ancestors bm !! a));
  bw_waits : forall a X r, bm_missing_ancestors bm !! a = Some X ->
    r ∈ X <-> exists sb, bm_suspended_blocks bm !! r = Some sb /\ a ∈ sb_missing_ancestors sb;
}.

Section unsuspend.
Context (bm0 : BlockManager) (root : BlockRef).
Context (Hwf : bm_wf bm0) (Hroot : bm_suspended_blocks bm0 !! root = None).

Definition waits (r : BlockRef) : gset BlockRef :=
  match bm_suspended_blocks bm0 !! r with Some sb => sb_missing_ancestors sb | None => ∅ end.

(** A suspended block without the ancestors of [P]. *)
Definition without (P : gset BlockRef) (sb : SuspendedBlock) : SuspendedBlock :=
  mkSuspendedBlock (sb_block sb) (sb_missing_ancestors sb ∖ P).

(** What is left for [r] to wait for when the dependents of [done] are up to date. *)
Definition resolved_for (P : gset BlockRef) (k : BlockRef) (done : gset BlockRef) (r : BlockRef)
    : gset BlockRef := if decide (r ∈ done) then {[k]} ∪ P else P.

Lemma resolved_for_other P k done r r' :
  r' <> r -> resolved_for P k ({[r]} ∪ done) r' = resolved_for P k done r'.
Proof.
  intros Hne. unfold resolved_for. destruct (decide (r' ∈ done)) as [Hd|Hd].
  - by rewrite decide_True by (by apply elem_of_union_r).
  - rewrite decide_False; [done|]. rewrite elem_of_union, elem_of_singleton. tauto.
Qed.

Lemma resolved_for_before P k done r : r ∉ done -> resolved_for P k done r = P.
Proof. intros Hr. unfold resolved_for. by rewrite decide_False. Qed.

Lemma resolved_for_new P k done r : resolved_for P k ({[r]} ∪ done) r = {[k]} ∪ P.
Proof. unfold resolved_for. by rewrite decide_True by (by apply elem_of_union_l, elem_of_singleton). Qed.

(** The state in the loop: the ancestors in [P] are resolved, the blocks of
    [out] unsuspended.  While the dependents of [k] are handled, those of
    [done] are up to date. *)
Record resolving (P : gset BlockRef) (k : BlockRef) (done : gset BlockRef) (out : list VerifiedBlock)
    (bm : BlockManager) : Prop := {
  rs_missing : forall a, bm_missing_ancestors bm !! a
    = if decide (a ∈ P \/ a = k) then None else bm_missing_ancestors bm0 !! a;
  rs_suspended : forall r, bm_suspended_blocks bm !! r
    = if decide (r ∈ refs_of out) then None
      else without (resolved_for P k done r) <$> bm_suspended_blocks bm0 !! r;
  rs_missing_blocks : bm_missing_blocks bm = bm_missing_blocks bm0;
  rs_received : bm_received_block_rounds bm = bm_received_block_rounds bm0;
}.

(** The blocks put out: suspended before, each waiting only for [root] and
    the ones before it. *)
Record put_out (out : list VerifiedBlock) : Prop := {
  po_NoDup : NoDup (reference <$> out);
  po_order : forall i b, out !! i = Some b ->
    (exists sb, bm_suspended_blocks bm0 !! reference b = Some sb /\ sb_block sb = b)
    /\ waits (reference b) ⊆ {[root]} ∪ refs_of (take i out);
}.

Lemma put_out_snoc out b sb :
  put_out out -> bm_suspended_blocks bm0 !! reference b = Some sb -> sb_block sb = b ->
  reference b ∉ refs_of out -> waits (reference b) ⊆ {[root]} ∪ refs_of out -> put_out (out ++ [b]).
Proof.
  intros [Hnd Ho] Hsb Eb Hnew Hw. constructor.
  - rewrite fmap_app. apply NoDup_app. split_and!; [done| |apply NoDup_singleton].
    intros x Hx ->%list_elem_of_singleton. apply Hnew. by apply elem_of_list_to_set.
  - intros i b' Hi. apply lookup_app_Some in Hi as [Hi|[Hlen Hi]].
    + rewrite take_app_le by (apply lookup_lt_Some in Hi; lia). by apply Ho.
    + apply list_lookup_singleton_Some in Hi as [Ei <-].
      assert (i = length out) as -> by lia. rewrite take_app_length. split; [by exists sb|done].
Qed.

Lemma difference_subset (X Y : gset BlockRef) : X ∖ Y = ∅ -> X ⊆ Y.
Proof. clear. set_solver. Qed.

(** One dependent of [k]. *)
Lemma unsuspend_one P k done out bm r sb :
  resolving P k done out bm -> put_out out -> k ∉ P ->
  (forall b, b ∈ out -> reference b ∈ done \/ waits (reference b) ⊆ P) ->
  ({[k]} ∪ P ⊆ {[root]} ∪ refs_of out) ->
  bm_suspended_blocks bm0 !! r = Some sb -> k ∈ sb_missing_ancestors sb -> r ∉ done ->
  exists bm' o, try_unsuspend_block bm r k = Ok (bm', o)
    /\ match o with
       | Some u => sb_block u = sb_block sb /\ waits r ⊆ {[k]} ∪ P
           /\ resolving P k ({[r]} ∪ done) (out ++ [sb_block sb]) bm' /\ put_out (out ++ [sb_block sb])
       | None => ~ (waits r ⊆ {[k]} ∪ P) /\ resolving P k ({[r]} ∪ done) out bm'
       end.
Proof.
  intros [Rm Rs Rb Rr] Hpo Hk Hout Hsub Hsb Hkr Hnd.
  destruct (bw_block _ Hwf r sb Hsb) as (Eref & _ & _).
  assert (waits r = sb_missing_ancestors sb) as Hw by (unfold waits; by rewrite Hsb).
  assert (r ∉ refs_of out) as Hro.
  { rewrite elem_of_list_to_set. intros (b & -> & Hb)%list_elem_of_fmap.
    destruct (Hout b Hb) as [?|Hwb]; [done|]. apply Hk, Hwb. by rewrite Hw. }
  unfold try_unsuspend_block. rewrite Rs, decide_False, Hsb by done.
  cbn [fmap option_fmap option_map unwrap mbind outcome_bind without sb_missing_ancestors sb_block].
  rewrite (resolved_for_before P k done r) by done.
  rewrite (bool_decide_true (k ∈ _)) by (by apply elem_of_difference). cbn [assert_that mbind outcome_bind].
  assert (sb_missing_ancestors sb ∖ P ∖ {[k]} = sb_missing_ancestors sb ∖ ({[k]} ∪ P)) as ->
    by (by rewrite difference_difference_l_L, (union_comm_L P)).
  case_bool_decide as Hempty; eexists _, _; (split; [done|]); cbn [sb_block].
  - assert (waits r ⊆ {[k]} ∪ P) as Hwr by (rewrite Hw; by apply difference_subset).
    split_and!; [done|done| |].
    + constructor; [done| |done|done]. intros r'. simpl.
      rewrite fmap_app, list_to_set_app_L. simpl. rewrite (right_id_L ∅ (∪)), Eref.
      destruct (decide (r' = r)) as [->|Hne].
      * rewrite lookup_delete_eq, decide_True by (by apply elem_of_union_r, elem_of_singleton). done.
      * rewrite lookup_delete_ne by done. rewrite Rs, resolved_for_other by done.
        destruct (decide (r' ∈ refs_of out)); [by rewrite decide_True by (by apply elem_of_union_l)|].
        rewrite decide_False; [done|]. rewrite elem_of_union, elem_of_singleton. tauto.
    + apply (put_out_snoc out _ sb); rewrite ?Eref; try done. rewrite Hwr. done.
  - split; [rewrite Hw; intros Hs; apply Hempty; clear -Hs; set_solver|].
    constructor; [done| |done|done]. intros r'. simpl. destruct (decide (r' = r)) as [->|Hne].
    + by rewrite lookup_insert_eq, decide_False, Hsb, resolved_for_new by done.
    + rewrite lookup_insert_ne by done. by rewrite Rs, resolved_for_other by done.
Qed.
Lemma unsuspend_dependents_Ok P k D : forall done out bm,
  resolving P k done out bm -> put_out out -> k ∉ P ->
  (forall b, b ∈ out -> reference b ∈ done \/ waits (reference b) ⊆ P) ->
  ({[k]} ∪ P ⊆ {[root]} ∪ refs_of out) ->
  NoDup D -> (forall r, r ∈ D -> r ∉ done /\ k ∈ waits r) ->
  exists bm' new, forall T,
    unsuspend_dependents bm k D T out = Ok (bm', reverse (reference <$> new) ++ T, out ++ new)
    /\ resolving P k (list_to_set D ∪ done) (out ++ new) bm' /\ put_out (out ++ new)
    /\ (forall b, b ∈ new -> waits (reference b) ⊆ {[k]} ∪ P)
    /\ (forall r, r ∈ D -> waits r ⊆ {[k]} ∪ P -> r ∈ refs_of new).
Proof.
  induction D as [|r D IH]; intros done out bm Hr Hpo Hk Hout Hsub Hnd HD.
  { exists bm, []. intros T'. rewrite app_nil_r. simpl. rewrite (left_id_L ∅ (∪)).
    split_and!; try done; intros ? ?%elem_of_nil; done. }
  apply NoDup_cons in Hnd as [HrD Hnd].
  destruct (HD r) as [Hrd Hkr]; [left|].
  destruct (bm_suspended_blocks bm0 !! r) as [sb|] eqn:Hsb;
    [|by unfold waits in Hkr; rewrite Hsb in Hkr].
  assert (k ∈ sb_missing_ancestors sb) as Hk' by (unfold waits in Hkr; by rewrite Hsb in Hkr).
  destruct (bw_block _ Hwf r sb Hsb) as (Eref & _ & _).
  destruct (unsuspend_one P k done out bm r sb) as (bm1 & o & E & Ho); try done.
  assert (forall r', r' ∈ D -> r' ∉ {[r]} ∪ done /\ k ∈ waits r') as HD'.
  { intros r' Hr'. destruct (HD r') as [? ?]; [by right|]. split; [|done].
    rewrite elem_of_union, elem_of_singleton. intros [->|?]; done. }
  destruct o as [u|].
  - destruct Ho as (Eu & Hwr & Hr1 & Hpo1).
    destruct (IH ({[r]} ∪ done) (out ++ [sb_block sb]) bm1) as (bm2 & new & Hnew); try done.
    { intros b [Hb|Hb]%elem_of_app.
      - destruct (Hout b Hb); [left; by apply elem_of_union_r|by right].
      - apply list_elem_of_singleton in Hb as ->. left. rewrite Eref. by apply elem_of_union_l, elem_of_singleton. }
    { rewrite fmap_app, list_to_set_app_L. clear -Hsub. set_solver. }
    exists bm2, (sb_block sb :: new). intros T'. destruct (Hnew (r :: T')) as (E2 & Hr2 & Hpo2 & Hw2 & Hc2).
    split_and!.
    + unfold unsuspend_dependents in *. cbn [foldM]. rewrite E. cbn [mbind outcome_bind fst snd].
      rewrite Eu, Eref, E2. rewrite fmap_cons, reverse_cons, Eref, <- !(assoc_L (++)). done.
    + rewrite <- (assoc_L (++)) in Hr2. simpl in Hr2. simpl.
      replace ({[r]} ∪ list_to_set D ∪ done) with (list_to_set D ∪ ({[r]} ∪ done)) by (clear; set_solver). done.
    + by rewrite <- (assoc_L (++)) in Hpo2.
    + intros b [->|Hb]%elem_of_cons; [by rewrite Eref|by apply Hw2].
    + intros r' [->|Hr']%elem_of_cons Hs; simpl; rewrite elem_of_union, elem_of_singleton;
        [left; by rewrite Eref|right; by apply Hc2].
  - destruct Ho as (Hnw & Hr1).
    destruct (IH ({[r]} ∪ done) out bm1) as (bm2 & new & Hnew); try done.
    { intros b Hb. destruct (Hout b Hb); [left; by apply elem_of_union_r|by right]. }
    exists bm2, new. intros T'. destruct (Hnew T') as (E2 & Hr2 & Hpo2 & Hw2 & Hc2). split_and!; try done.
    + unfold unsuspend_dependents in *. cbn [foldM]. rewrite E. cbn [mbind outcome_bind fst snd]. by rewrite E2.
    + simpl. replace ({[r]} ∪ list_to_set D ∪ done) with (list_to_set D ∪ ({[r]} ∪ done)) by (clear; set_solver). done.
    + intros r' [->|Hr']%elem_of_cons Hs; [done|by apply Hc2].
Qed.
(** Between two keys: the ancestors of [P] are resolved for all. *)
Record resolved (P : gset BlockRef) (out : list VerifiedBlock) (bm : BlockManager) : Prop := {
  rd_missing : forall a, bm_missing_ancestors bm !! a
    = if decide (a ∈ P) then None else bm_missing_ancestors bm0 !! a;
  rd_suspended : forall r, bm_suspended_blocks bm !! r
    = if decide (r ∈ refs_of out) then None else without P <$> bm_suspended_blocks bm0 !! r;
  rd_missing_blocks : bm_missing_blocks bm = bm_missing_blocks bm0;
  rd_received : bm_received_block_rounds bm = bm_received_block_rounds bm0;
}.

(** Nothing that waits for [P] only is left. *)
Definition complete (P : gset BlockRef) (out : list VerifiedBlock) : Prop :=
  forall r sb, bm_suspended_blocks bm0 !! r = Some sb -> waits r ⊆ P -> r ∈ refs_of out.

Lemma resolved_resolving P k out bm :
  resolved P out bm ->
  resolving P k ∅ out (set_missing_ancestors bm (delete k (bm_missing_ancestors bm))).
Proof.
  intros [Rm Rs Rb Rr]. constructor; [| |done|done].
  - intros a. simpl. destruct (decide (a = k)) as [->|Hne].
    + rewrite lookup_delete_eq. by rewrite decide_True by (by right).
    + rewrite lookup_delete_ne, Rm by done. destruct (decide (a ∈ P)); [by rewrite decide_True by (by left)|].
      by rewrite decide_False by tauto.
  - intros r. simpl. rewrite Rs. by rewrite resolved_for_before.
Qed.

Lemma waits_key r k : k ∈ waits r -> exists sb X,
  bm_suspended_blocks bm0 !! r = Some sb /\ bm_missing_ancestors bm0 !! k = Some X /\ r ∈ X.
Proof.
  unfold waits. destruct (bm_suspended_blocks bm0 !! r) as [sb|] eqn:E; [|done]. intros Hk.
  destruct (bw_block _ Hwf r sb E) as (_ & _ & Ha). destruct (Ha k Hk) as [_ [X EX]].
  exists sb, X. split_and!; [done..|]. apply (bw_waits _ Hwf k X r EX). by exists sb.
Qed.

Lemma without_key P k r sb :
  bm_suspended_blocks bm0 !! r = Some sb -> k ∉ waits r -> without ({[k]} ∪ P) sb = without P sb.
Proof.
  intros E Hk. unfold waits in Hk. rewrite E in Hk. unfold without. f_equal. clear -Hk. set_solver.
Qed.

Lemma resolving_resolved P k D out bm :
  resolving P k D out bm -> (forall r, k ∈ waits r -> r ∈ D) -> resolved ({[k]} ∪ P) out bm.
Proof.
  intros [Rm Rs Rb Rr] HD. constructor; [| |done|done].
  - intros a. rewrite Rm. apply decide_ext. rewrite elem_of_union, elem_of_singleton. tauto.
  - intros r. rewrite Rs. destruct (decide (r ∈ refs_of out)); [done|].
    destruct (bm_suspended_blocks bm0 !! r) as [sb|] eqn:E; [|done]. simpl. f_equal.
    unfold resolved_for. destruct (decide (r ∈ D)) as [?|Hr]; [done|].
    symmetry. apply (without_key P k r sb E). intros Hk. by apply Hr, HD.
Qed.

Lemma resolved_unknown P k out bm :
  resolved P out bm -> bm_missing_ancestors bm0 !! k = None -> resolved ({[k]} ∪ P) out bm.
Proof.
  intros [Rm Rs Rb Rr] Hk. constructor; [| |done|done].
  - intros a. rewrite Rm. destruct (decide (a ∈ P)); [by rewrite decide_True by (by apply elem_of_union_r)|].
    destruct (decide (a ∈ {[k]} ∪ P)) as [Ha|Ha]; [|done].
    apply elem_of_union in Ha as [->%elem_of_singleton|?]; done.
  - intros r. rewrite Rs. destruct (decide (r ∈ refs_of out)); [done|].
    destruct (bm_suspended_blocks bm0 !! r) as [sb|] eqn:E; [|done]. simpl. f_equal.
    symmetry. apply (without_key P k r sb E). intros (? & X & _ & ? & _)%waits_key. congruence.
Qed.

(** The invariant of the loop over the stack [T]. *)
Record loop_inv (P : gset BlockRef) (T : list BlockRef) (out : list VerifiedBlock) (bm : BlockManager)
    : Prop := {
  li_resolved : resolved P out bm;
  li_out : put_out out;
  li_NoDup : NoDup T;
  li_fresh : forall k, k ∈ T -> k ∉ P;
  li_seen : {[root]} ∪ refs_of out = P ∪ list_to_set T;
  li_waits : forall b, b ∈ out -> waits (reference b) ⊆ P;
  li_complete : complete P out;
}.

Lemma put_out_length out : put_out out -> (length out <= size (bm_suspended_blocks bm0))%nat.
Proof.
  intros [Hnd Ho]. rewrite <- size_dom. rewrite <- (length_fmap reference out).
  rewrite <- (size_list_to_set (C := gset BlockRef)) by done. apply subseteq_size.
  intros r (b & -> & (i & Hi)%list_elem_of_lookup)%elem_of_list_to_set%list_elem_of_fmap.
  destruct (Ho i b Hi) as [(sb & E & _) _]. by apply elem_of_dom_2 in E.
Qed.

(** One turn of the loop for a key with dependents. *)
Lemma loop_step P k T out bm X :
  loop_inv P (k :: T) out bm -> bm_missing_ancestors bm !! k = Some X ->
  exists bm' new,
    unsuspend_dependents (set_missing_ancestors bm (delete k (bm_missing_ancestors bm))) k
      (btree_iter X) T out = Ok (bm', reverse (reference <$> new) ++ T, out ++ new)
    /\ loop_inv ({[k]} ∪ P) (reverse (reference <$> new) ++ T) (out ++ new) bm'.
Proof.
  intros [Hr Hpo Hnd Hfr Hseen Hw Hc] HX.
  assert (k ∉ P) as HkP by (apply Hfr; left).
  rewrite (rd_missing _ _ _ Hr), decide_False in HX by done.
  assert (forall r, r ∈ btree_iter X <-> k ∈ waits r) as HD.
  { intros r. rewrite elem_of_btree_iter. rewrite (bw_waits _ Hwf k X r HX). unfold waits.
    split; [by intros (sb & -> & ?)|]. destruct (bm_suspended_blocks bm0 !! r) as [sb|]; [by exists sb|done]. }
  destruct (unsuspend_dependents_Ok P k (btree_iter X) ∅ out
              (set_missing_ancestors bm (delete k (bm_missing_ancestors bm)))) as (bm' & new & Hnew).
  - by apply resolved_resolving.
  - done.
  - done.
  - intros b Hb. right. by apply Hw.
  - rewrite Hseen. simpl. clear. set_solver.
  - apply btree_iter_NoDup.
  - intros r Hr'. split; [done|by apply HD].
  - destruct (Hnew T) as (E & Hr1 & Hpo1 & Hw1 & Hc1). exists bm', new. split; [done|].
    rewrite (right_id_L ∅ (∪)) in Hr1. pose proof (po_NoDup _ Hpo1) as Hnd1.
    rewrite fmap_app in Hnd1. apply NoDup_app in Hnd1 as (_ & Hdis & Hnd1).
    assert (forall r, r ∈ reference <$> new -> r ∉ {[root]} ∪ refs_of out) as Hnn.
    { intros r Hrn [->%elem_of_singleton|?%elem_of_list_to_set]%elem_of_union; [|by eapply Hdis].
      apply list_elem_of_fmap in Hrn as (b & -> & (i & Hi)%list_elem_of_lookup).
      destruct (po_order _ Hpo1 (length out + i)%nat b) as [(sb & Esb & _) _]; [|congruence].
      by rewrite lookup_app_r, Nat.add_comm, Nat.add_sub by lia. }
    rewrite Hseen in Hnn. apply NoDup_cons in Hnd as [HkT HndT]. constructor.
    + apply (resolving_resolved P k (list_to_set (btree_iter X))); [done|].
      intros r Hkr. by apply elem_of_list_to_set, HD.
    + done.
    + rewrite NoDup_app. split_and!; [by rewrite (reverse_Permutation (reference <$> new))| |done].
      intros r Hrn HrT. rewrite reverse_Permutation in Hrn. apply (Hnn r Hrn).
      apply elem_of_union_r. simpl. apply elem_of_union_r. by apply elem_of_list_to_set.
    + intros r [Hrn|HrT]%elem_of_app.
      * rewrite reverse_Permutation in Hrn. pose proof (Hnn r Hrn) as Hx. simpl in Hx.
        clear -Hx. set_solver.
      * rewrite elem_of_union, elem_of_singleton. intros [->|HrP]; [done|]. by apply (Hfr r); [right|].
    + rewrite fmap_app, list_to_set_app_L, (assoc_L (∪)), Hseen. rewrite list_to_set_app_L. simpl.
      rewrite (list_to_set_perm_L _ _ (reverse_Permutation (reference <$> new))). clear. set_solver.
    + intros b [Hb|Hb]%elem_of_app; [|by apply Hw1]. specialize (Hw b Hb). clear -Hw. set_solver.
    + intros r sb Esb Hwr. rewrite fmap_app, list_to_set_app_L, elem_of_union.
      destruct (decide (k ∈ waits r)) as [Hk|Hk]; [right; apply Hc1; [by apply HD|done]|].
      left. apply (Hc r sb Esb). clear -Hwr Hk. set_solver.
Qed.
Lemma loop_skip P k T out bm :
  loop_inv P (k :: T) out bm -> bm_missing_ancestors bm !! k = None -> loop_inv ({[k]} ∪ P) T out bm.
Proof.
  intros [Hr Hpo Hnd Hfr Hseen Hw Hc] HX. assert (k ∉ P) as HkP by (apply Hfr; left).
  rewrite (rd_missing _ _ _ Hr), decide_False in HX by done.
  apply NoDup_cons in Hnd as [HkT Hnd]. constructor; [by apply resolved_unknown|done|done| | | |].
  - intros r HrT. rewrite elem_of_union, elem_of_singleton. intros [->|HrP]; [done|]. by apply (Hfr r); [right|].
  - rewrite Hseen. simpl. clear. set_solver.
  - intros b Hb. specialize (Hw b Hb). clear -Hw. set_solver.
  - intros r sb Esb Hwr. apply (Hc r sb Esb). assert (k ∉ waits r) as Hk.
    { intros (? & X & _ & ? & _)%waits_key. congruence. }
    clear -Hwr Hk. set_solver.
Qed.

Lemma unsuspend_loop_Ok fuel : forall P T out bm,
  loop_inv P T out bm ->
  (length T + (size (bm_suspended_blocks bm0) - length out) < fuel)%nat ->
  exists bm' out', unsuspend_loop fuel bm T out = Ok (bm', out')
    /\ loop_inv ({[root]} ∪ refs_of out') [] out' bm'.
Proof.
  induction fuel as [|fuel IH]; intros P T out bm Hl Hf; [lia|].
  destruct T as [|k T]; cbn [unsuspend_loop].
  - exists bm, out. split; [done|]. rewrite (li_seen _ _ _ _ Hl). simpl. by rewrite (right_id_L ∅ (∪)).
  - destruct (bm_missing_ancestors bm !! k) as [X|] eqn:HX.
    + destruct (loop_step P k T out bm X Hl HX) as (bm1 & new & E & Hl1). rewrite E. simpl.
      apply (IH _ _ _ _ Hl1). pose proof (put_out_length _ (li_out _ _ _ _ Hl1)) as Hlen.
      rewrite !length_app, length_reverse, length_fmap in *. simpl in Hf. lia.
    + apply (IH _ _ _ _ (loop_skip _ _ _ _ _ Hl HX)). simpl in Hf. lia.
Qed.

Lemma loop_inv_start : loop_inv ∅ [root] [] bm0.
Proof.
  constructor.
  - constructor; [done| |done|done]. intros r. simpl. destruct (bm_suspended_blocks bm0 !! r) as [sb|]; [|done].
    simpl. unfold without. rewrite difference_empty_L. by destruct sb.
  - constructor; [apply NoDup_nil_2|]. intros i b. by rewrite lookup_nil.
  - apply NoDup_singleton.
  - done.
  - simpl. by rewrite (left_id_L ∅ (∪)).
  - intros b. by intros ?%elem_of_nil.
  - intros r sb Esb Hw. exfalso. destruct (bw_block _ Hwf r sb Esb) as (_ & Hne & _).
    apply Hne. unfold waits in Hw. rewrite Esb in Hw. clear -Hw. set_solver.
Qed.

(** What resolving [root] does: [out] is unsuspended, in an order in which
    every block waits only for [root] and the blocks before it; nothing that
    could be unsuspended is left; the records keep exactly the rest. *)
Lemma unsuspend_children_Ok context :
  (forall r sb, bm_suspended_blocks bm0 !! r = Some sb ->
     exists a, committee_authority (committee context) (author (sb_block sb)) = Ok a) ->
  exists bm' out, try_unsuspend_children_blocks context bm0 root = Ok (bm', out)
    /\ resolved ({[root]} ∪ refs_of out) out bm' /\ put_out out /\ complete ({[root]} ∪ refs_of out) out.
Proof.
  intros Hau. unfold try_unsuspend_children_blocks.
  destruct (unsuspend_loop_Ok (Datatypes.S (Datatypes.S (size (bm_suspended_blocks bm0)))) _ _ _ _ loop_inv_start)
    as (bm' & out & E & Hl); [simpl; lia|].
  rewrite E. simpl. exists bm', out. destruct Hl as [Hr Hpo _ _ _ _ Hc].
  destruct (mapM_total (fun block => committee_authority (committee context) (author block)) out) as [ys Hys].
  - intros b (i & Hi)%list_elem_of_lookup. destruct (po_order _ Hpo i b Hi) as [(sb & Esb & <-) _].
    by apply (Hau (reference (sb_block sb))).
  - rewrite Hys. done.
Qed.

(** The records stay consistent. *)
Lemma resolved_wf out bm :
  resolved ({[root]} ∪ refs_of out) out bm -> put_out out -> complete ({[root]} ∪ refs_of out) out -> bm_wf bm.
Proof.
  intros [Rm Rs _ _] Hpo Hc. set (P := {[root]} ∪ refs_of out) in *.
  assert (forall r sb', bm_suspended_blocks bm !! r = Some sb' -> exists sb,
            bm_suspended_blocks bm0 !! r = Some sb /\ sb' = without P sb /\ r ∉ refs_of out) as Hinv.
  { intros r sb' E. rewrite Rs in E. destruct (decide (r ∈ refs_of out)); [done|].
    apply fmap_Some in E as (sb & Esb & ->). by exists sb. }
  constructor.
  - intros r sb' (sb & Esb & -> & Hr)%Hinv. destruct (bw_block _ Hwf r sb Esb) as (Eref & _ & Ha).
    split_and!; [done| |].
    + intros Hemp. apply Hr, (Hc r sb Esb). unfold waits. rewrite Esb. by apply difference_subset.
    + intros a [Hin Hout]%elem_of_difference. destruct (Ha a Hin) as [? ?]. split; [done|].
      by rewrite Rm, decide_False.
  - intros a X r EX. rewrite Rm in EX. destruct (decide (a ∈ P)) as [|HaP]; [done|].
    rewrite (bw_waits _ Hwf a X r EX). split.
    + intros (sb & Esb & Ha). exists (without P sb). simpl. rewrite elem_of_difference.
      split_and!; [|done|done]. rewrite Rs, decide_False, Esb; [done|].
      intros (b & -> & (i & Hi)%list_elem_of_lookup)%elem_of_list_to_set%list_elem_of_fmap.
      destruct (po_order _ Hpo i b Hi) as [_ Hwb]. unfold waits in Hwb. rewrite Esb in Hwb.
      apply HaP. specialize (Hwb a Ha). apply elem_of_union in Hwb as [?|Hwb]; [by apply elem_of_union_l|].
      apply elem_of_union_r. rewrite elem_of_list_to_set in Hwb |- *.
      rewrite fmap_take in Hwb. by apply elem_of_take in Hwb as (? & ? & _); eapply list_elem_of_lookup_2.
    + intros (sb' & (sb & Esb & -> & Hr)%Hinv & [Ha _]%elem_of_difference). by exists sb.
Qed.
End unsuspend.
