(* ===== verification/LeaderSchedule.v ===== *)
(** * The leader schedule

    Models [crates/consensus/src/leader_schedule.rs]: the leader of a round,
    drawn by stake and swapped away from authorities with low reputation.  The
    pseudo-random choices belong to the [rand] crate: they are the operations
    of the class [Rng], with what their documentation promises in [RngLaws]. *)

From S2P Require Import Prelude Committee Context Block StakeAggregator Commit Store LeaderScoring DagState.

(** A 32-byte seed, byte by byte. *)
Definition to_le_bytes (n : N) : list N :=
  [n `mod` 256; (n / 256) `mod` 256; (n / 65536) `mod` 256; (n / 16777216) `mod` 256].

(** A good node: index, hostname and stake. *)
Notation Node := (N * string * N)%type.

(** [StdRng::from_seed(seed)] followed by one of the slice operations. *)
Class Rng := {
  choose_multiple_weighted : list N -> list (N * N) -> N -> list (N * N);
  shuffle : list N -> list (N * N) -> list (N * N);
  choose : list N -> list Node -> option Node;
}.

(** A shuffle permutes, a choice picks an element of a non-empty slice, and
    choosing as many items as there are, with positive weights, returns them
    all. *)
Class RngLaws `{Rng} := {
  shuffle_perm : forall seed l, shuffle seed l ≡ₚ l;
  choose_elem : forall seed l x, choose seed l = Some x -> x ∈ l;
  choose_total : forall seed l, l <> [] -> is_Some (choose seed l);
  choose_weighted_perm : forall seed l n, N.of_nat (length l) <= n ->
    (forall x, x ∈ l -> 0 < x.2) -> choose_multiple_weighted seed l n ≡ₚ l;
}.

Record LeaderSwapTable := mkLeaderSwapTable {
  good_nodes : list Node;
  bad_nodes : gmap N (string * N);
  reputation_scores : ReputationScores;
}.

Definition commit_range_default : CommitRange := mkCommitRange 0 0.

Definition leader_swap_table_default : LeaderSwapTable :=
  {| good_nodes := []; bad_nodes := ∅;
     reputation_scores := mkReputationScores [] commit_range_default |}.

Record LeaderSchedule := mkLeaderSchedule {
  leader_swap_table : LeaderSwapTable;
  ls_context : Context;
  num_commits_per_schedule : N;
}.

Definition CONSENSUS_COMMITS_PER_SCHEDULE : N := 300.

Definition leader_schedule_new (context : Context) (table : LeaderSwapTable) : LeaderSchedule :=
  {| leader_swap_table := table; ls_context := context;
     num_commits_per_schedule := CONSENSUS_COMMITS_PER_SCHEDULE |}.

(** The loop of [retrieve_first_nodes], which stops at the first authority
    that takes the stake over the limit. *)
Fixpoint retrieve_loop (c : Committee) (limit : N) (authorities : list (N * N)) (stake : N)
    : outcome (list Node) :=
  match authorities with
  | [] => Ok []
  | (authority_idx, _) :: authorities =>
      w ← committee_stake c authority_idx;
      let stake := u64_add stake w in
      if limit <? stake then Ok []
      else
        authority ← committee_authority c authority_idx;
        rest ← retrieve_loop c limit authorities stake;
        Ok ((authority_idx, a_hostname authority, a_stake authority) :: rest)
  end.

Definition retrieve_first_nodes (context : Context) (authorities : list (N * N))
    (stake_threshold : N) : outcome (list Node) :=
  let c := committee context in
  retrieve_loop c (u64_mul stake_threshold (c_total_stake c) / 100) authorities 0.

(** Descending by score. *)
Definition score_geb (a1 a2 : N * N) : bool := a2.2 <=? a1.2.

Section schedule.
Context `{Rng}.

Definition leader_swap_table_new_inner (context : Context)
    (swap_stake_threshold commit_index : N) (scores : ReputationScores)
    : outcome LeaderSwapTable :=
  _ ← assert_that (swap_stake_threshold <=? 33);
  if is_empty (scores_per_authority scores) then Ok leader_swap_table_default
  else
    let seed_bytes := replicate 28 0 ++ to_le_bytes commit_index in
    by_score ← authorities_by_score context scores;
    _ ← assert_that (N.of_nat (length by_score) =? committee_size (committee context));
    let sorted := stable_sort score_geb (shuffle seed_bytes by_score) in
    good ← retrieve_first_nodes context sorted swap_stake_threshold;
    bad ← retrieve_first_nodes context (reverse sorted) swap_stake_threshold;
    Ok {| good_nodes := good;
          bad_nodes := foldl (fun m '(idx, hostname, stake) => <[idx := (hostname, stake)]> m) ∅ bad;
          reputation_scores := scores |}.

Definition leader_swap_table_new (context : Context) (commit_index : N)
    (scores : ReputationScores) : outcome LeaderSwapTable :=
  leader_swap_table_new_inner context (bad_nodes_stake_threshold (protocol_config context))
    commit_index scores.

Definition swap (self : LeaderSwapTable) (leader leader_round leader_offset : N)
    : outcome (option N) :=
  match bad_nodes self !! leader with
  | Some _ =>
      _ ← assert_that (leader_offset =? 0);
      let seed_bytes := replicate 24 0 ++ to_le_bytes leader_round ++ to_le_bytes leader_offset in
      node ← unwrap (choose seed_bytes (good_nodes self));
      Ok (Some node.1.1)
  | None => Ok None
  end.

(** The weights are the stakes; their conversion to [f32] is part of what
    [choose_multiple_weighted] stands for. *)
Definition elect_leader_stake_based (self : LeaderSchedule) (round offset : N) : outcome N :=
  let c := committee (ls_context self) in
  _ ← assert_that (offset <? committee_size c);
  let seed_bytes := replicate 28 0 ++ to_le_bytes round in
  let choices := (fun '(index, authority) => (index, a_stake authority))
                 <$> committee_authorities c in
  item ← unwrap (choose_multiple_weighted seed_bytes choices (committee_size c)
                   !! N.to_nat offset);
  Ok item.1.

Definition schedule_elect_leader (self : LeaderSchedule) (round leader_offset : N) : outcome N :=
  leader ← elect_leader_stake_based self round leader_offset;
  swapped ← swap (leader_swap_table self) leader round leader_offset;
  Ok (default leader swapped).

Definition update_leader_swap_table (self : LeaderSchedule) (table : LeaderSwapTable)
    : outcome LeaderSchedule :=
  let old_commit_range := rs_commit_range (reputation_scores (leader_swap_table self)) in
  let new_commit_range := rs_commit_range (reputation_scores table) in
  _ ← (if bool_decide (old_commit_range = commit_range_default) then Ok tt
       else
         if is_next_range old_commit_range new_commit_range then
           same ← is_equal_size old_commit_range new_commit_range;
           assert_that same
         else Panic);
  Ok {| leader_swap_table := table; ls_context := ls_context self;
        num_commits_per_schedule := num_commits_per_schedule self |}.

Section with_dag.
Context {S : Type} `{Store S}.

Definition leader_schedule_from_store (context : Context) (dag_state : DagState S)
    : outcome LeaderSchedule :=
  info ← recover_last_commit_info dag_state;
  table ← match info with
          | None => Ok leader_swap_table_default
          | Some (last_commit_ref, last_commit_info) =>
              leader_swap_table_new context (cr_index last_commit_ref)
                (ci_reputation_scores last_commit_info)
          end;
  Ok (leader_schedule_new context table).

Definition commits_until_leader_schedule_update (self : LeaderSchedule) (dag_state : DagState S)
    : outcome N :=
  subdag_count ← scoring_subdags_count dag_state;
  _ ← assert_that (subdag_count <=? num_commits_per_schedule self);
  Ok (num_commits_per_schedule self - subdag_count).

Definition update_leader_schedule_v2 (self : LeaderSchedule) (dag_state : DagState S)
    : outcome (LeaderSchedule * DagState S) :=
  scores ← calculate_scoring_subdag_scores dag_state;
  last_commit_index ← scoring_subdag_commit_range dag_state;
  let dag_state := clear_scoring_subdag dag_state in
  dag_state ← add_commit_info dag_state scores;
  table ← leader_swap_table_new (ls_context self) last_commit_index scores;
  self ← update_leader_swap_table self table;
  Ok (self, dag_state).
End with_dag.
End schedule.

(* ------------------------------------------------------------------ *)
(** ** The swap table *)

(** The table [bad_nodes] holds the indices collected, with their stakes. *)
Lemma bad_nodes_lookup (nodes : list Node) i :
  is_Some (foldl (fun m '(idx, hostname, stake) => <[idx := (hostname, stake)]> m)
             (∅ : gmap N (string * N)) nodes !! i) <-> i ∈ nodes.*1.*1.
Proof.
  induction nodes as [|[[i' h] w] nodes IH] using rev_ind.
  - simpl. rewrite lookup_empty. split; [by intros [??]|set_solver].
  - rewrite foldl_snoc, !fmap_app. simpl. rewrite lookup_insert_is_Some, elem_of_app.
    rewrite list_elem_of_singleton. destruct (decide (i' = i)) as [->|Hne]; [tauto|].
    rewrite IH. naive_solver.
Qed.

Lemma take_reverse {A} (l : list A) m :
  (m <= length l)%nat -> take m (reverse l) = reverse (drop (length l - m) l).
Proof.
  intros Hm. rewrite <- (take_drop (length l - m) l) at 1. rewrite reverse_app.
  rewrite take_app_le by (rewrite length_reverse, length_drop; lia).
  rewrite take_ge; [done|]. rewrite length_reverse, length_drop. lia.
Qed.
Section table.
Context (c : Committee).

(** The stake of a list of scored authorities. *)
Definition stake_sum (l : list (N * N)) : N := sum_N ((fun x => stake_at c x.1) <$> l).

Definition all_valid (l : list (N * N)) : Prop := forall x, x ∈ l -> is_valid_index c x.1 = true.

Definition is_node (x : N * N) (n : Node) : Prop := n.1.1 = x.1 /\ n.2 = stake_at c x.1.

Lemma stake_sum_cons x l : stake_sum (x :: l) = stake_at c x.1 + stake_sum l.
Proof. done. Qed.

Lemma committee_lookup_Ok i :
  is_valid_index c i = true ->
  exists a, committee_authority c i = Ok a /\ committee_stake c i = Ok (a_stake a)
    /\ a_stake a = stake_at c i.
Proof.
  unfold is_valid_index, committee_size, committee_authority, committee_stake, vec_index, stake_at.
  intros Hv%N.ltb_lt.
  destruct (lookup_lt_is_Some_2 (c_authorities c) (N.to_nat i)) as [a Ha]; [lia|].
  exists a. unfold stakes. rewrite list_lookup_fmap, Ha. done.
Qed.

(** The nodes are those of the longest prefix within the limit. *)
Lemma retrieve_loop_spec limit l stake :
  all_valid l -> stake + stake_sum l <= u64_MAX -> stake <= limit ->
  exists n nodes, retrieve_loop c limit l stake = Ok nodes
    /\ Forall2 is_node (take n l) nodes /\ (n <= length l)%nat
    /\ stake + stake_sum (take n l) <= limit
    /\ ((n < length l)%nat -> limit < stake + stake_sum (take (Datatypes.S n) l)).
Proof.
  revert stake. induction l as [|[i sc] l IH]; intros stake Hv Hmax Hle.
  - exists 0%nat, []. simpl. split_and!; [done|constructor|lia| |lia]. unfold stake_sum. simpl. lia.
  - destruct (committee_lookup_Ok i) as (a & Ea & Es & Hs); [apply (Hv (i, sc)); set_solver|].
    rewrite stake_sum_cons in Hmax. simpl in Hmax |- *. rewrite Es. simpl. rewrite Hs.
    rewrite u64_add_small by lia. destruct (N.ltb_spec limit (stake + stake_at c i)) as [Hlt|Hge].
    + exists 0%nat, []. split_and!; [done|constructor|simpl; lia|unfold stake_sum; simpl; lia|].
      intros _. unfold stake_sum. simpl. lia.
    + destruct (IH (stake + stake_at c i)) as (n & nodes & E & Hn & Hlen & H1 & H2).
      { intros x Hx. apply Hv. set_solver. }
      { lia. } { lia. }
      rewrite Ea. simpl. rewrite E. simpl.
      exists (Datatypes.S n), ((i, a_hostname a, a_stake a) :: nodes). simpl.
      split_and!; [by rewrite Hs|constructor; [done|exact Hn]|lia| |].
      * rewrite stake_sum_cons. simpl. lia.
      * intros Hlt. rewrite stake_sum_cons. simpl. specialize (H2 ltac:(lia)). simpl in H2. lia.
Qed.

Definition score_at (scores : list N) (i : N) : N := default 0 (scores !! N.to_nat i).

Lemma scored_sum scores :
  committee_wf c -> length scores = length (c_authorities c) ->
  stake_sum (scored scores) = c_total_stake c.
Proof.
  intros Hwf Hlen. rewrite (wf_total _ Hwf). unfold stake_sum, scored. f_equal.
  apply list_eq. intros i. rewrite list_lookup_fmap, list_lookup_imap. unfold stakes.
  rewrite list_lookup_fmap. destruct (scores !! i) eqn:E.
  - apply lookup_lt_Some in E.
    destruct (lookup_lt_is_Some_2 (c_authorities c) i) as [a Ha]; [lia|].
    simpl. unfold stake_at, stakes. rewrite list_lookup_fmap, Nat2N.id, Ha. done.
  - apply lookup_ge_None in E. rewrite lookup_ge_None_2 by lia. done.
Qed.

Lemma stake_sum_app l1 l2 : stake_sum (l1 ++ l2) = stake_sum l1 + stake_sum l2.
Proof. unfold stake_sum. by rewrite fmap_app, sum_N_app. Qed.

Lemma stake_sum_perm l1 l2 : l1 ≡ₚ l2 -> stake_sum l1 = stake_sum l2.
Proof. intros E. unfold stake_sum. apply sum_N_perm. by rewrite E. Qed.

Lemma is_node_stake l nodes : Forall2 is_node l nodes -> sum_N nodes.*2 = stake_sum l.
Proof.
  induction 1 as [|x n l nodes [_ Hn] _ IH]; [done|]. rewrite stake_sum_cons, <- IH. cbn.
  by rewrite Hn.
Qed.

Lemma is_node_index l nodes : Forall2 is_node l nodes -> nodes.*1.*1 = l.*1.
Proof. induction 1 as [|x n l nodes [Hn _] _ IH]; [done|]. cbn in *. by rewrite Hn, IH. Qed.

End table.

(** What the swap table promises for a swap threshold of [thr] percent. *)
Record swap_table_ok (c : Committee) (thr : N) (scores : list N) (t : LeaderSwapTable) : Prop := {
  sto_good_stake : 100 * sum_N (good_nodes t).*2 <= thr * c_total_stake c;
  sto_bad_stake : 100 * stake_of c (dom (bad_nodes t)) <= thr * c_total_stake c;
  sto_disjoint : forall n, n ∈ good_nodes t -> bad_nodes t !! n.1.1 = None;
  sto_good_best : forall n j, n ∈ good_nodes t -> is_valid_index c j = true ->
    j ∉ (good_nodes t).*1.*1 -> score_at scores j <= score_at scores n.1.1;
  sto_bad_worst : forall i j, is_Some (bad_nodes t !! i) -> is_valid_index c j = true ->
    bad_nodes t !! j = None -> score_at scores i <= score_at scores j;
}.

Section table_sound.
Context (c : Committee) (Hwf : committee_wf c) (thr : N) (scores : list N).
Context (Hthr : thr <= 33) (Hlen : length scores = length (c_authorities c)).
Context (l : list (N * N)) (Hperm : l ≡ₚ scored scores).
Context (Hsorted : StronglySorted (fun a b => score_geb a b = true) l).

Lemma sorted_NoDup : NoDup l.*1.
Proof. rewrite Hperm. apply scored_NoDup. Qed.

Lemma sorted_elem x : x ∈ l -> score_at scores x.1 = x.2.
Proof. rewrite Hperm, elem_of_scored. unfold score_at. by intros ->. Qed.

Lemma sorted_valid : all_valid c l.
Proof.
  intros x. rewrite Hperm, elem_of_scored. intros Hx%lookup_lt_Some.
  unfold is_valid_index, committee_size. apply N.ltb_lt. lia.
Qed.

Lemma sorted_index j : is_valid_index c j = true -> exists x, x ∈ l /\ x.1 = j.
Proof.
  unfold is_valid_index, committee_size. intros Hj%N.ltb_lt.
  destruct (lookup_lt_is_Some_2 scores (N.to_nat j)) as [sc Hsc]; [lia|].
  exists (j, sc). split; [|done]. by rewrite Hperm, elem_of_scored.
Qed.

Lemma stake_of_list k : NoDup k.*1 -> all_valid c k -> stake_of c (list_to_set k.*1) = stake_sum c k.
Proof.
  induction k as [|x k IH]; intros Hnd Hv; [apply stake_of_empty|].
  inversion Hnd; subst. rewrite fmap_cons, list_to_set_cons, stake_of_insert.
  - rewrite stake_sum_cons, IH; [done|done|]. intros y Hy. apply Hv. set_solver.
  - apply Hv. set_solver.
  - by rewrite elem_of_list_to_set.
Qed.

(** Earlier in the sorted list is at least as good. *)
Lemma sorted_split k x y :
  x ∈ take k l -> y ∈ drop k l -> score_at scores y.1 <= score_at scores x.1.
Proof.
  intros Hx Hy. rewrite (sorted_elem x), (sorted_elem y).
  - rewrite <- (take_drop k l) in Hsorted.
    pose proof (StronglySorted_app_1_elem_of _ _ _ _ _ Hsorted Hx Hy) as Hle.
    by apply N.leb_le in Hle.
  - by apply (subseteq_drop k).
  - by apply (subseteq_take k).
Qed.

(** Prefixes and suffixes within the limit do not meet. *)
Lemma prefix_suffix_short n m :
  (n <= length l)%nat -> (m <= length l)%nat ->
  100 * stake_sum c (take n l) <= thr * c_total_stake c ->
  100 * stake_sum c (take m (reverse l)) <= thr * c_total_stake c ->
  (n + m <= length l)%nat.
Proof.
  intros Hn Hm H1 H2. destruct (le_lt_dec (n + m) (length l)) as [|Hlt]; [done|]. exfalso.
  rewrite take_reverse in H2 by done.
  rewrite (stake_sum_perm c _ _ (reverse_Permutation _)) in H2.
  assert (c_total_stake c <= stake_sum c (take n l) + stake_sum c (drop (length l - m) l)) as Ht.
  { rewrite <- (scored_sum c scores Hwf Hlen), <- (stake_sum_perm c _ _ Hperm).
    rewrite <- (take_drop n l) at 1. rewrite stake_sum_app.
    replace (drop n l) with (drop (n - (length l - m)) (drop (length l - m) l))
      by (rewrite drop_drop; f_equal; lia).
    rewrite <- (take_drop (n - (length l - m)) (drop (length l - m) l)) at 2.
    rewrite stake_sum_app. lia. }
  pose proof (wf_intersect _ Hwf). pose proof (wf_quorum_le _ Hwf).
  pose proof (wf_validity_pos _ Hwf). nia.
Qed.

Lemma table_sound n m good bad rep :
  Forall2 (is_node c) (take n l) good -> Forall2 (is_node c) (take m (reverse l)) bad ->
  (n <= length l)%nat -> (m <= length l)%nat ->
  100 * stake_sum c (take n l) <= thr * c_total_stake c ->
  100 * stake_sum c (take m (reverse l)) <= thr * c_total_stake c ->
  swap_table_ok c thr scores
    {| good_nodes := good;
       bad_nodes := foldl (fun m '(idx, hostname, stake) => <[idx := (hostname, stake)]> m) ∅ bad;
       reputation_scores := rep |}.
Proof.
  intros Hg Hb Hn Hm H1 H2.
  pose proof (prefix_suffix_short n m Hn Hm H1 H2) as Hnm.
  pose proof (is_node_index _ _ _ Hg) as Ig. pose proof (is_node_index _ _ _ Hb) as Ib.
  rewrite take_reverse in Ib, H2 by done. set (k := (length l - m)%nat) in *.
  set (t := foldl _ _ bad).
  assert (forall i, is_Some (t !! i) <-> i ∈ (drop k l).*1) as Ht.
  { intros i. unfold t. rewrite bad_nodes_lookup, Ib. by rewrite reverse_Permutation. }
  assert (forall i, i ∈ (take n l).*1 -> i ∈ (drop k l).*1 -> False) as Hdis.
  { intros i Hi1 Hi2. pose proof sorted_NoDup as Hnd. rewrite <- (take_drop k l), fmap_app in Hnd.
    apply NoDup_app in Hnd as (_ & Hnd & _). apply (Hnd i); [|done].
    apply list_elem_of_fmap in Hi1 as (x & -> & Hx). apply list_elem_of_fmap_2.
    replace (take n l) with (take n (take k l)) in Hx by (rewrite take_take; f_equal; lia).
    by apply (subseteq_take n). }
  assert (forall j, t !! j = None <-> j ∉ (drop k l).*1) as Ht'.
  { intros j. rewrite <- Ht, eq_None_not_Some. done. }
  constructor; simpl.
  - by rewrite (is_node_stake _ _ _ Hg).
  - replace (dom t) with (list_to_set (C := gset N) (drop k l).*1).
    + rewrite stake_of_list.
      * by rewrite (stake_sum_perm c _ _ (reverse_Permutation _)) in H2.
      * eapply sublist_NoDup; [apply sorted_NoDup|]. rewrite fmap_drop. apply sublist_drop.
      * intros x Hx. apply sorted_valid. by apply (subseteq_drop k).
    + apply set_eq. intros i. by rewrite elem_of_list_to_set, elem_of_dom, Ht.
  - intros [[i h] w] Hi. apply Ht'. intros Hi'. apply (Hdis i); [|done].
    rewrite <- Ig. by apply (list_elem_of_fmap_2 (fun x => x.1) _ _ (list_elem_of_fmap_2 fst _ _ Hi)).
  - intros [[i h] w] j Hi Hj Hnj. simpl. rewrite Ig in Hnj.
    assert (i ∈ (take n l).*1) as Hi'.
    { rewrite <- Ig. by apply (list_elem_of_fmap_2 (fun x => x.1) _ _ (list_elem_of_fmap_2 fst _ _ Hi)). }
    apply list_elem_of_fmap in Hi' as (x & -> & Hx).
    destruct (sorted_index j Hj) as (y & Hy & <-).
    apply (sorted_split n); [done|]. rewrite <- (take_drop n l) in Hy.
    apply elem_of_app in Hy as [Hy|Hy]; [|done]. by destruct Hnj; apply list_elem_of_fmap_2.
  - intros i j Hi Hj Hnj. apply Ht in Hi. apply Ht' in Hnj.
    apply list_elem_of_fmap in Hi as (x & -> & Hx).
    destruct (sorted_index j Hj) as (y & Hy & <-).
    apply (sorted_split k); [|done]. rewrite <- (take_drop k l) in Hy.
    apply elem_of_app in Hy as [Hy|Hy]; [done|]. by destruct Hnj; apply list_elem_of_fmap_2.
Qed.
End table_sound.

Lemma score_geb_total a b : score_geb a b = true \/ score_geb b a = true.
Proof. unfold score_geb. rewrite !N.leb_le. lia. Qed.

Lemma score_geb_trans a b c :
  score_geb a b = true -> score_geb b c = true -> score_geb a c = true.
Proof. unfold score_geb. rewrite !N.leb_le. lia. Qed.

Lemma authorities_by_score_Ok context scores range :
  length scores = length (c_authorities (committee context)) ->
  authorities_by_score context (mkReputationScores scores range) = Ok (scored scores).
Proof.
  intros Hlen. unfold authorities_by_score. simpl. unfold scored.
  set (l := imap _ scores). assert (forall x, x ∈ l -> x.1 < N.of_nat (length scores)) as Hl.
  { intros x Hx. change l with (scored scores) in Hx. apply elem_of_scored, lookup_lt_Some in Hx. lia. }
  clearbody l. induction l as [|[i sc] l IH]; [done|].
  assert (i < N.of_nat (length scores)) as Hi by (apply (Hl (i, sc)); set_solver).
  cbn. unfold to_authority_index. rewrite <- Hlen, (proj2 (N.ltb_lt _ _)) by lia. cbn.
  cbn in IH. unfold to_authority_index in IH. rewrite <- Hlen in IH. rewrite IH; [done|]. set_solver.
Qed.

Lemma retrieve_first_nodes_Ok context l thr :
  committee_wf (committee context) -> all_valid (committee context) l ->
  stake_sum (committee context) l <= u64_MAX -> thr * c_total_stake (committee context) <= u64_MAX ->
  exists n nodes, retrieve_first_nodes context l thr = Ok nodes
    /\ Forall2 (is_node (committee context)) (take n l) nodes /\ (n <= length l)%nat
    /\ 100 * stake_sum (committee context) (take n l) <= thr * c_total_stake (committee context)
    /\ ((n < length l)%nat ->
        thr * c_total_stake (committee context) / 100 < stake_sum (committee context) (take (Datatypes.S n) l)).
Proof.
  intros Hwf Hv Hmax Hthr. unfold retrieve_first_nodes. rewrite u64_mul_small by done.
  destruct (retrieve_loop_spec (committee context) (thr * c_total_stake (committee context) / 100)
              l 0 Hv) as (n & nodes & E & Hn & Hle & Hs & Hnext); [by rewrite N.add_0_l|apply N.le_0_l|].
  exists n, nodes. split_and!; [done|done|done| |done].
  pose proof (N.Div0.mul_div_le (thr * c_total_stake (committee context)) 100). lia.
Qed.

(** Every authority fits in the swap threshold. *)
Definition stakes_fit (c : Committee) (thr : N) : Prop :=
  forall i, is_valid_index c i = true -> stake_at c i <= thr * c_total_stake c / 100.

(** A leader can be elected with the table: the good nodes are members, and
    there is one if there are bad nodes. *)
Definition table_usable (c : Committee) (t : LeaderSwapTable) : Prop :=
  (forall n, n ∈ good_nodes t -> is_valid_index c n.1.1 = true)
  /\ (good_nodes t <> [] \/ bad_nodes t = ∅).

Lemma nonempty_committee c : committee_wf c -> length (c_authorities c) <> 0%nat.
Proof.
  intros Hwf E. pose proof (wf_total _ Hwf) as Ht. unfold stakes in Ht.
  destruct (c_authorities c); [|done]. cbn in Ht. pose proof (wf_intersect _ Hwf).
  pose proof (wf_quorum_le _ Hwf). pose proof (wf_validity_pos _ Hwf). lia.
Qed.

Lemma table_fits context thr l n good bad rep :
  let c := committee context in
  committee_wf c -> all_valid c l -> l <> [] -> stakes_fit c thr ->
  Forall2 (is_node c) (take n l) good ->
  ((n < length l)%nat -> thr * c_total_stake c / 100 < stake_sum c (take (Datatypes.S n) l)) ->
  table_usable c {| good_nodes := good; bad_nodes := bad; reputation_scores := rep |}.
Proof.
  intros c Hwf Hv Hne Hfit Hg Hnext. split; simpl.
  - intros [[i h] w] Hi. apply (list_elem_of_fmap_2 fst) in Hi.
    apply (list_elem_of_fmap_2 fst) in Hi. simpl in Hi. rewrite (is_node_index _ _ _ Hg) in Hi.
    apply list_elem_of_fmap in Hi as (x & -> & Hx). by apply Hv, (subseteq_take n).
  - left. intros ->. apply Forall2_nil_inv_r in Hg. destruct l as [|x l]; [done|].
    destruct n as [|n]; [|done]. specialize (Hnext ltac:(simpl; lia)). simpl in Hnext.
    rewrite stake_sum_cons in Hnext. specialize (Hfit x.1 (Hv x ltac:(by left))).
    change (stake_sum c []) with 0 in Hnext. rewrite N.add_0_r in Hnext. by apply N.lt_nge in Hnext.
Qed.

Lemma leader_swap_table_Ok `{RngLaws} (context : Context) (thr commit_index : N)
    (scores : list N) (range : CommitRange) :
  let c := committee context in
  committee_wf c -> thr <= 33 -> thr * c_total_stake c <= u64_MAX ->
  length scores = length (c_authorities c) ->
  exists t, leader_swap_table_new_inner context thr commit_index (mkReputationScores scores range) = Ok t
    /\ swap_table_ok c thr scores t /\ reputation_scores t = mkReputationScores scores range
    /\ (stakes_fit c thr -> table_usable c t).
Proof.
  intros c Hwf Hthr Hmax Hlen. subst c. unfold leader_swap_table_new_inner.
  rewrite (proj2 (N.leb_le thr 33) Hthr). cbn [assert_that mbind outcome_bind scores_per_authority].
  destruct (is_empty scores) eqn:Es.
  { by destruct scores; [destruct (nonempty_committee _ Hwf); rewrite <- Hlen|]. }
  rewrite authorities_by_score_Ok by done. cbn [mbind outcome_bind].
  unfold committee_size. rewrite (proj2 (N.eqb_eq _ _)).
  2:{ unfold scored. by rewrite length_imap, Hlen. }
  cbn [assert_that mbind outcome_bind].
  set (l := stable_sort score_geb _).
  assert (l ≡ₚ scored scores) as Hperm.
  { unfold l. rewrite stable_sort_perm. apply shuffle_perm. }
  assert (StronglySorted (fun a b => score_geb a b = true) l) as Hsorted
    by (apply stable_sort_sorted; [apply score_geb_total|apply score_geb_trans]).
  assert (stake_sum (committee context) l <= u64_MAX) as Hsum.
  { rewrite (stake_sum_perm _ _ _ Hperm), scored_sum by done. apply (wf_total_u64 _ Hwf). }
  assert (all_valid (committee context) l) as Hv by (by eapply sorted_valid).
  destruct (retrieve_first_nodes_Ok context l thr Hwf Hv Hsum Hmax) as (n & good & -> & Hg & Hn & H1 & Hnext).
  destruct (retrieve_first_nodes_Ok context (reverse l) thr Hwf) as (m & bad & -> & Hb & Hm & H2 & _).
  - intros x Hx. apply Hv. by rewrite reverse_Permutation in Hx.
  - by rewrite (stake_sum_perm _ _ _ (reverse_Permutation _)).
  - done.
  - cbn [mbind outcome_bind]. eexists. split; [done|]. split_and!; [|done|].
    { rewrite length_reverse in Hm. by eapply table_sound. }
    intros Hfit. apply (table_fits context thr l n good); try done.
    intros E. apply (nonempty_committee _ Hwf). rewrite <- Hlen. apply Permutation_length in Hperm.
    unfold scored in Hperm. by rewrite length_imap, E in Hperm.
Qed.

(** C37: The leader swap table is sound.  For a swap threshold of at most 33
    percent and one score per authority, building the table succeeds; the
    good nodes and the bad nodes each hold at most that percentage of the
    stake, no authority is both, every good node scores at least as much as
    every authority left out, and every bad node at most as much as every
    authority that is not bad. *)
Theorem leader_swap_table_sound `{RngLaws} (context : Context) (thr commit_index : N)
    (scores : list N) (range : CommitRange) :
  committee_wf (committee context) -> thr <= 33 ->
  thr * c_total_stake (committee context) <= u64_MAX ->
  length scores = length (c_authorities (committee context)) ->
  exists t, leader_swap_table_new_inner context thr commit_index (mkReputationScores scores range)
            = Ok t
    /\ swap_table_ok (committee context) thr scores t.
Proof.
  intros Hwf Hthr Hmax Hlen.
  destruct (leader_swap_table_Ok context thr commit_index scores range Hwf Hthr Hmax Hlen) as (t & E & Ht & _).
  by exists t.
Qed.

(* ------------------------------------------------------------------ *)
(** ** Electing a leader *)

Lemma elect_leader_stake_based_Ok `{RngLaws} sched round offset :
  let c := committee (ls_context sched) in
  (forall i, is_valid_index c i = true -> 0 < stake_at c i) ->
  offset < committee_size c ->
  exists a, elect_leader_stake_based sched round offset = Ok a /\ is_valid_index c a = true.
Proof.
  intros c Hpos Hoff. unfold elect_leader_stake_based. fold c.
  rewrite (proj2 (N.ltb_lt _ _) Hoff). cbn [assert_that mbind outcome_bind].
  set (choices := _ <$> committee_authorities c).
  assert (length choices = length (c_authorities c)) as Hlen.
  { unfold choices, committee_authorities. by rewrite length_fmap, length_imap. }
  assert (forall x, x ∈ choices -> is_valid_index c x.1 = true /\ x.2 = stake_at c x.1) as Hx.
  { intros x Hx. unfold choices in Hx. apply list_elem_of_fmap in Hx as ([i a] & -> & Hi). simpl.
    unfold committee_authorities in Hi. apply list_elem_of_lookup in Hi as [j Hj].
    rewrite list_lookup_imap in Hj. destruct (c_authorities c !! j) eqn:Ej; [|done].
    simpl in Hj. injection Hj as <- <-. pose proof (lookup_lt_Some _ _ _ Ej). split.
    - unfold is_valid_index, committee_size. apply N.ltb_lt. lia.
    - unfold stake_at, stakes. by rewrite list_lookup_fmap, Nat2N.id, Ej. }
  set (seed := replicate 28 0 ++ to_le_bytes round).
  assert (choose_multiple_weighted seed choices (committee_size c) ≡ₚ choices) as Hp.
  { apply choose_weighted_perm; [unfold committee_size; lia|].
    intros x Hin. destruct (Hx x Hin) as [Hv ->]. by apply Hpos. }
  destruct (lookup_lt_is_Some_2 (choose_multiple_weighted seed choices (committee_size c))
              (N.to_nat offset)) as [x Ex].
  { rewrite Hp, Hlen. unfold committee_size in Hoff. lia. }
  rewrite Ex. simpl. exists x.1. split; [done|].
  apply Hx. rewrite <- Hp. by eapply list_elem_of_lookup_2.
Qed.

Lemma schedule_elect_Ok `{RngLaws} (sched : LeaderSchedule) (round : N) :
  let c := committee (ls_context sched) in
  let t := leader_swap_table sched in
  committee_wf c -> (forall i, is_valid_index c i = true -> 0 < stake_at c i) -> table_usable c t ->
  exists a, schedule_elect_leader sched round 0 = Ok a /\ is_valid_index c a = true
    /\ (bad_nodes t !! a = None \/ exists n, n ∈ good_nodes t /\ n.1.1 = a).
Proof.
  intros c t Hwf Hpos [Hgood Hne]. unfold schedule_elect_leader.
  destruct (elect_leader_stake_based_Ok sched round 0 Hpos) as (a & -> & Ha).
  { unfold committee_size. pose proof (nonempty_committee c Hwf). fold c. lia. }
  cbn [mbind outcome_bind]. unfold swap. fold t. destruct (bad_nodes t !! a) as [b|] eqn:Eb.
  - cbn [assert_that mbind outcome_bind N.eqb].
    destruct Hne as [Hne|Hne]; [|by rewrite Hne, lookup_empty in Eb].
    destruct (choose_total (replicate 24 0 ++ to_le_bytes round ++ to_le_bytes 0)
                (good_nodes t) Hne) as [n En].
    rewrite En. simpl. exists n.1.1. pose proof (choose_elem _ _ _ En) as Hn.
    split_and!; [done|by apply Hgood|right; by exists n].
  - exists a. split_and!; [done..|by left].
Qed.

(** A low-scoring authority is never the leader.  With a sound swap
    table that has a good node (or no bad one), electing the leader of any
    round succeeds with a committee member that is not a bad node. *)
Theorem elect_leader_avoids_bad_nodes `{RngLaws} (sched : LeaderSchedule) (thr round : N)
    (scores : list N) :
  let c := committee (ls_context sched) in
  let t := leader_swap_table sched in
  committee_wf c ->
  (forall i, is_valid_index c i = true -> 0 < stake_at c i) ->
  swap_table_ok c thr scores t ->
  (forall n, n ∈ good_nodes t -> is_valid_index c n.1.1 = true) ->
  good_nodes t <> [] \/ bad_nodes t = ∅ ->
  exists a, schedule_elect_leader sched round 0 = Ok a
    /\ is_valid_index c a = true /\ bad_nodes t !! a = None.
Proof.
  intros c t Hwf Hpos Ht Hgood Hne.
  destruct (schedule_elect_Ok sched round Hwf Hpos (conj Hgood Hne)) as (a & E & Hv & Ha).
  exists a. split_and!; [done..|]. destruct Ha as [?|(n & Hn & <-)]; [done|].
  by apply (sto_disjoint _ _ _ _ Ht).
Qed.

(** A deterministic source that satisfies the laws, for concrete runs. *)
#[local] Instance first_rng : Rng := {
  choose_multiple_weighted _ l n := take (N.to_nat n) l;
  shuffle _ l := l;
  choose _ l := head l;
}.

#[local] Instance first_rng_laws : RngLaws.
Proof.
  constructor; simpl; [done| | |].
  - intros _ [|y l] x; [done|]. intros [= ->]. by left.
  - intros _ [|y l]; [done|]. by exists y.
  - intros _ l n Hn _. rewrite take_ge by lia. done.
Qed.

Definition context_of (c : Committee) : Context :=
  mkContext 0 0 c (mkParameters 500 100 false 50000000 5 32 1000 8 32) for_testing.

Lemma leader_swap_table_sound_witness :
  exists t, leader_swap_table_new_inner (context_of (test_committee 4)) 33 1
              (mkReputationScores [5; 9; 2; 7] (commit_range_new 1 3)) = Ok t
    /\ swap_table_ok (test_committee 4) 33 [5; 9; 2; 7] t.
Proof.
  apply (leader_swap_table_sound (context_of (test_committee 4)) 33 1 [5; 9; 2; 7]
           (commit_range_new 1 3)); [exact test_committee_4_wf|lia|by vm_compute|reflexivity].
Defined.

Lemma elect_leader_avoids_bad_nodes_witness :
  let table := mkLeaderSwapTable [(1, "host"%string, 1)] {[0 := ("host"%string, 1)]}
                 (mkReputationScores [2; 9; 5; 7] (commit_range_new 1 3)) in
  let sched := leader_schedule_new (context_of (test_committee 4)) table in
  exists a, schedule_elect_leader sched 6 0 = Ok a
    /\ is_valid_index (test_committee 4) a = true /\ bad_nodes table !! a = None.
Proof.
  intros table sched.
  apply (elect_leader_avoids_bad_nodes sched 33 6 [2; 9; 5; 7]).
  - exact test_committee_4_wf.
  - intros i Hi. unfold is_valid_index in Hi. apply N.ltb_lt in Hi. change (i < 4) in Hi.
    assert (i = 0 \/ i = 1 \/ i = 2 \/ i = 3) as [->|[->|[->| ->]]] by lia; reflexivity.
  - constructor; simpl.
    + by vm_compute.
    + rewrite dom_singleton_L. by vm_compute.
    + intros n Hn. apply list_elem_of_singleton in Hn as ->. reflexivity.
    + intros n j Hn Hj Hnj. apply list_elem_of_singleton in Hn as ->. simpl.
      unfold score_at at 2. simpl. unfold score_at.
      destruct (N.to_nat j) as [|[|[|[|k]]]]; by vm_compute.
    + intros i j Hi Hj Hnj. apply lookup_singleton_is_Some in Hi as <-. unfold score_at at 1. simpl.
      apply N.ltb_lt in Hj. change (j < 4) in Hj.
      unfold score_at. assert (j <> 0) as Hj0 by (intros ->; by rewrite lookup_singleton_eq in Hnj).
      assert (j = 1 \/ j = 2 \/ j = 3) as [->|[->| ->]] by lia; by vm_compute.
  - intros n Hn. apply list_elem_of_singleton in Hn as ->. reflexivity.
  - left. discriminate.
Defined.

(** Without good nodes, swapping a bad leader panics, whatever the seed. *)
Lemma swap_panics_without_good_nodes `{Rng} t leader round :
  (forall seed, choose seed [] = None) -> good_nodes t = [] -> is_Some (bad_nodes t !! leader) ->
  swap t leader round 0 = Panic.
Proof. intros Hchoose Hgood [bad Hbad]. unfold swap. rewrite Hbad, Hgood. simpl. by rewrite Hchoose. Qed.

(** Such a table is made when the best scorer alone exceeds the threshold: with
    stakes 40, 20, 20, 20, a threshold of 33 percent and a shuffle that keeps
    the order, the authority with the lowest score is a bad node and there is
    no good one. *)
Example swap_table_without_good_nodes `{Rng} :
  (forall seed l, shuffle seed l = l) ->
  let context := context_of (mkCommittee 0 (test_authority <$> [40; 20; 20; 20]) 100 67 67 34) in
  let scores := mkReputationScores [9; 4; 5; 6] (commit_range_new 1 3) in
  exists t, leader_swap_table_new_inner context 33 1 scores = Ok t
    /\ good_nodes t = [] /\ is_Some (bad_nodes t !! 1).
Proof.
  intros Hshuffle context scores. unfold leader_swap_table_new_inner.
  cbn [assert_that mbind outcome_bind N.leb].
  change (is_empty (scores_per_authority scores)) with false. cbv iota.
  change (authorities_by_score context scores) with (Ok [(0, 9); (1, 4); (2, 5); (3, 6)]).
  cbn [mbind outcome_bind]. rewrite Hshuffle.
  eexists. split; [vm_compute; reflexivity|]. split; [done|by eexists].
Qed.
