(* ===== verification/ScheduleRun.v ===== *)
(** * The leader schedule follows the commits

    The scores and the swap table that a node has after a sequence of commits,
    as a function of this sequence: every 300 commits the scores are turned
    into a new table.  On well-formed sequences nothing panics and a leader can
    be elected at every point. *)

From S2P Require Import Prelude Committee Context Block StakeAggregator ThresholdClock Commit Store LeaderScoring DagState DagInv LeaderSchedule.

(** The references of the blocks of a sequence of commits. *)
Definition log_refs (log : list CommittedSubDag) : list BlockRef := reference <$> (log ≫= sd_blocks).

Lemma log_refs_app l1 l2 : log_refs (l1 ++ l2) = log_refs l1 ++ log_refs l2.
Proof. unfold log_refs. by rewrite bind_app, fmap_app. Qed.

Lemma StronglySorted_lookup {A} (R : A -> A -> Prop) l i j x y :
  StronglySorted R l -> l !! i = Some x -> l !! j = Some y -> (i < j)%nat -> R x y.
Proof.
  intros Hs. revert i j. induction Hs as [|z l Hs IH Hz]; intros [|i] [|j] Hi Hj Hlt; try done; try lia.
  - injection Hi as ->. rewrite Forall_forall in Hz. apply Hz. by eapply list_elem_of_lookup_2.
  - apply (IH i j); [done|done|lia].
Qed.

(** A sequence of commits from the first one on: consecutive indices, no block
    twice, leaders of increasing rounds. *)
Record log_wf (c : Committee) (log : list CommittedSubDag) : Prop := {
  lw_index : forall i sd, log !! i = Some sd -> cr_index (sd_commit_ref sd) = N.of_nat i + 1;
  lw_once : NoDup (log_refs log);
  lw_leaders : StronglySorted (fun a b => br_round (sd_leader a) < br_round (sd_leader b)) log;
  lw_blocks : forall sd b, sd ∈ log -> b ∈ sd_blocks sd -> wf_block c b;
}.

Lemma log_wf_app c l1 l2 : log_wf c (l1 ++ l2) -> log_wf c l1.
Proof.
  intros [Hi Ho Hl Hb]. constructor.
  - intros i sd Hsd. apply Hi. by apply lookup_app_l_Some.
  - rewrite log_refs_app in Ho. by apply NoDup_app in Ho as [? _].
  - by apply StronglySorted_app in Hl as (_ & ? & _).
  - intros sd b Hsd. apply Hb. apply elem_of_app. by left.
Qed.

(* ------------------------------------------------------------------ *)
(** ** Scoring a sub-DAG *)

Section scoring.
Context (c : Committee) (Hc : committee_wf c).

(** The ancestors for which a vote is recorded. *)
Definition votes_for (leaders : gset BlockRef) (b : VerifiedBlock) (a : BlockRef) : Prop :=
  br_round a = saturating_sub (round b) 1 /\ a ∈ leaders.

Lemma score_ancestor_Ok leaders b m a :
  votes_wf c m -> is_valid_index c (author b) = true ->
  (votes_for leaders b a -> m !! reference b = None) ->
  exists m', score_ancestor c leaders b m a = Ok m' /\ votes_wf c m' /\ dom m' ⊆ {[reference b]} ∪ dom m
    /\ (~ votes_for leaders b a -> dom m' = dom m).
Proof.
  intros Hm Hb Hfree.
  assert (forall m', score_ancestor c leaders b m a = Ok m' -> votes_wf c m') as Hwf
    by (intros m'; by apply score_ancestor_wf).
  unfold score_ancestor in *. destruct (N.eqb_spec (br_round a) (saturating_sub (round b) 1)) as [Er|Er]; simpl in *.
  2:{ exists m. split_and!; [done|done|set_solver|done]. }
  set (m1 := if bool_decide (a ∈ leaders) then <[reference b := stake_aggregator_new]> m else m).
  assert ((if bool_decide (a ∈ leaders)
           then assert_that (bool_decide (m !! reference b = None)) ≫= (fun _ => Ok (<[reference b := stake_aggregator_new]> m))
           else Ok m) = Ok m1) as E1.
  { unfold m1. case_bool_decide as Hl; [|done]. rewrite bool_decide_true; [done|]. by apply Hfree. }
  rewrite E1 in *. cbn [mbind outcome_bind] in *.
  assert (dom m1 ⊆ {[reference b]} ∪ dom m /\ (~ votes_for leaders b a -> dom m1 = dom m)) as [D1 D2].
  { unfold m1. case_bool_decide as Hl; [|set_solver]. rewrite dom_insert_L. split; [done|].
    intros Hn. destruct Hn. by split. }
  destruct (m1 !! a) as [agg|] eqn:Ea.
  2:{ exists m1. split_and!; [done|by apply Hwf|done|done]. }
  assert (votes_wf c m1) as H1.
  { unfold m1. case_bool_decide; [|done]. apply map_Forall_insert_2; [|done].
    split; [done|by apply (agg_new_wf (T := QuorumThreshold))]. }
  destruct (add_Ok c Hc agg (author b) (proj2 (H1 _ _ Ea)) Hb) as (s' & Es & _). rewrite Es in *.
  cbn [mbind outcome_bind fst] in *. eexists. split; [done|].
  assert (dom (<[a := s']> m1) = dom m1) as ->.
  { rewrite dom_insert_L. apply elem_of_dom_2 in Ea. set_solver. }
  split_and!; [by apply Hwf|done|done].
Qed.

Lemma score_block_Ok leaders b m :
  votes_wf c m -> wf_block c b -> m !! reference b = None ->
  (forall a a', a ∈ leaders -> a' ∈ leaders -> br_round a = br_round a' -> a = a') ->
  exists m', score_block c leaders m b = Ok m' /\ votes_wf c m' /\ dom m' ⊆ {[reference b]} ∪ dom m.
Proof.
  intros Hm Hb Hnone Huniq. unfold score_block.
  assert (NoDup (ancestors b)) as Hnd by (eapply NoDup_fmap_1, (wb_distinct _ _ Hb)).
  cut (forall l m1, NoDup l -> votes_wf c m1 -> dom m1 ⊆ {[reference b]} ∪ dom m ->
    (m1 !! reference b = None \/ forall a, a ∈ l -> ~ votes_for leaders b a) ->
    exists m', foldM (score_ancestor c leaders b) l m1 = Ok m' /\ votes_wf c m' /\ dom m' ⊆ {[reference b]} ∪ dom m).
  { intros Hgo. apply Hgo; [done|done|set_solver|by left]. }
  clear Hnd Hm Hnone. induction l as [|a l IH]; intros m1 Hnd Hm1 Hdom Hfree; [by exists m1|].
  inversion Hnd as [|? ? Ha Hnd']; subst.
  destruct (score_ancestor_Ok leaders b m1 a Hm1 (wb_author _ _ Hb)) as (m2 & E2 & H2 & D2 & D2').
  { intros Hv. destruct Hfree as [?|Hf]; [done|]. by destruct (Hf a ltac:(by left)). }
  cbn [foldM]. rewrite E2. cbn [mbind outcome_bind]. apply IH; [done|done|set_solver|].
  destruct Hfree as [Hf|Hf]; [|right; intros x Hx; apply Hf; by right].
  destruct (decide (votes_for leaders b a)) as [Hv|Hv].
  - right. intros x Hx [Hrx Hlx]. destruct Hv as [Hra Hla].
    assert (x = a) as -> by (apply Huniq; congruence). done.
  - left. apply not_elem_of_dom. rewrite D2' by done. by apply not_elem_of_dom.
Qed.

Lemma score_blocks_Ok leaders bs m :
  votes_wf c m -> (forall b, b ∈ bs -> wf_block c b) -> NoDup (reference <$> bs) ->
  (forall b, b ∈ bs -> reference b ∉ dom m) ->
  (forall a a', a ∈ leaders -> a' ∈ leaders -> br_round a = br_round a' -> a = a') ->
  exists m', foldM (score_block c leaders) bs m = Ok m' /\ votes_wf c m'
    /\ dom m' ⊆ list_to_set (reference <$> bs) ∪ dom m.
Proof.
  intros Hm Hbs Hnd Hnew Huniq. revert m Hm Hnew. induction bs as [|b bs IH]; intros m Hm Hnew.
  { exists m. split_and!; [done|done|set_solver]. }
  inversion Hnd as [|? ? Hb Hnd']; subst.
  destruct (score_block_Ok leaders b m Hm) as (m1 & E1 & H1 & D1); [apply Hbs; by left| |done|].
  { apply not_elem_of_dom, Hnew. by left. }
  destruct (IH) with (m := m1) as (m' & E' & H' & D'); [|done|done| |].
  { intros x Hx. apply Hbs. by right. }
  { intros x Hx Hin. apply D1, elem_of_union in Hin as [Hin%elem_of_singleton|Hin].
    - apply Hb. rewrite <- Hin. by apply list_elem_of_fmap_2.
    - by apply (Hnew x); [right|]. }
  exists m'. cbn [foldM]. rewrite E1. cbn [mbind outcome_bind]. split_and!; [done|done|].
  rewrite fmap_cons, list_to_set_cons. set_solver.
Qed.

(** The state of the scores and the table after [log], with the commits of the
    current schedule being those after the first [k]. *)
Record sched_wf (k : nat) (log : list CommittedSubDag) (st : ScoringSubdag * LeaderSwapTable) : Prop := {
  sw_start : (k <= length log)%nat;
  sw_count : N.of_nat (length log - k) <= CONSENSUS_COMMITS_PER_SCHEDULE;
  sw_range : ss_commit_range st.1
    = if decide (k = length log) then None
      else Some (mkCommitRange (N.of_nat k + 1) (N.of_nat (length log) + 1));
  sw_leaders : ss_leaders st.1 = list_to_set (sd_leader <$> drop k log);
  sw_votes : votes_wf c (ss_votes st.1);
  sw_dom : dom (ss_votes st.1) ⊆ list_to_set (log_refs (drop k log));
  sw_empty : k = length log -> st.1 = scoring_subdag_new;
  sw_usable : table_usable c st.2;
  sw_last : let range := rs_commit_range (reputation_scores st.2) in
    k = 0%nat /\ range = commit_range_default
    \/ CONSENSUS_COMMITS_PER_SCHEDULE <= N.of_nat k
       /\ range = mkCommitRange (N.of_nat k - 299) (N.of_nat k + 1);
  sw_scores : (length (scores_per_authority (reputation_scores st.2)) <= length (c_authorities c))%nat;
}.

Lemma sched_count k log st :
  sched_wf k log st -> scored_subdags_count st.1 = Ok (N.of_nat (length log - k)).
Proof.
  intros [Hk _ Hr _ _ _ _ _ _]. unfold scored_subdags_count. rewrite Hr. case_decide as E.
  - by rewrite E, Nat.sub_diag.
  - unfold commit_range_size. simpl. rewrite (proj2 (N.leb_le _ _)) by lia. f_equal. lia.
Qed.

Lemma sched_wf_nil : sched_wf 0 [] (scoring_subdag_new, leader_swap_table_default).
Proof.
  constructor; simpl; try done.
  - by split; [intros n Hn; inversion Hn|right].
  - by left.
  - lia.
Qed.

Lemma leaders_unique log sd k :
  log_wf c (log ++ [sd]) -> forall a a' : BlockRef,
  a ∈ ({[sd_leader sd]} ∪ list_to_set (sd_leader <$> drop k log) : gset BlockRef) ->
  a' ∈ ({[sd_leader sd]} ∪ list_to_set (sd_leader <$> drop k log) : gset BlockRef) ->
  br_round a = br_round a' -> a = a'.
Proof.
  intros Hwf.
  assert (forall a : BlockRef, a ∈ ({[sd_leader sd]} ∪ list_to_set (sd_leader <$> drop k log) : gset BlockRef) ->
    exists i x, (log ++ [sd]) !! i = Some x /\ a = sd_leader x) as Hin.
  { intros a [->%elem_of_singleton|Ha%elem_of_list_to_set]%elem_of_union.
    - exists (length log), sd. by rewrite list_lookup_middle.
    - apply list_elem_of_fmap in Ha as (x & -> & Hx%(subseteq_drop k)).
      apply list_elem_of_lookup in Hx as [i Hi]. exists i, x. split; [|done]. by apply lookup_app_l_Some. }
  intros a a' (i & x & Hi & ->)%Hin (j & y & Hj & ->)%Hin Hr.
  destruct (Nat.lt_trichotomy i j) as [Hlt|[->|Hlt]]; [|congruence|].
  - pose proof (StronglySorted_lookup _ _ _ _ _ _ (lw_leaders _ _ Hwf) Hi Hj Hlt) as Hs. simpl in Hs. lia.
  - pose proof (StronglySorted_lookup _ _ _ _ _ _ (lw_leaders _ _ Hwf) Hj Hi Hlt) as Hs. simpl in Hs. lia.
Qed.

Lemma drop_snoc {A} (l : list A) x k : (k <= length l)%nat -> drop k (l ++ [x]) = drop k l ++ [x].
Proof. intros Hk. by rewrite drop_app_le. Qed.

(** Scoring the next commit. *)
Lemma add_subdag_Ok k log st sd :
  sched_wf k log st -> N.of_nat (length log - k) < CONSENSUS_COMMITS_PER_SCHEDULE ->
  log_wf c (log ++ [sd]) -> N.of_nat (length log) + 1 < u32_MAX ->
  exists sc, add_subdag c st.1 sd = Ok sc /\ sched_wf k (log ++ [sd]) (sc, st.2).
Proof.
  intros W Hlt Hwf Hmax. pose proof W as [Hk _ Hrange Hlead Hvotes Hdom Hempty Huse Hlast Hsc].
  assert (cr_index (sd_commit_ref sd) = N.of_nat (length log) + 1) as Hidx.
  { apply (lw_index _ _ Hwf). by rewrite list_lookup_middle. }
  unfold add_subdag. rewrite Hidx, Hlead.
  assert (match ss_commit_range st.1 with
          | None => Ok (commit_range_new (N.of_nat (length log) + 1) (N.of_nat (length log) + 1))
          | Some commit_range => commit_range_extend_to commit_range (N.of_nat (length log) + 1)
          end = Ok (mkCommitRange (N.of_nat k + 1) (N.of_nat (length log) + 2))) as ->.
  { rewrite Hrange. case_decide as E.
    - unfold commit_range_new, u32_saturating_add. rewrite E. do 2 f_equal. lia.
    - unfold commit_range_extend_to, u32_saturating_add. simpl.
      rewrite (proj2 (N.leb_le _ _)) by lia. simpl. do 2 f_equal. lia. }
  cbn [mbind outcome_bind].
  pose proof (lw_once _ _ Hwf) as Honce. rewrite log_refs_app in Honce. apply NoDup_app in Honce as (_ & Hnew & Hnd).
  assert (log_refs [sd] = reference <$> sd_blocks sd) as Esd by (unfold log_refs; cbn; by rewrite app_nil_r).
  rewrite Esd in Hnew, Hnd.
  destruct (score_blocks_Ok ({[sd_leader sd]} ∪ list_to_set (sd_leader <$> drop k log)) (sd_blocks sd) (ss_votes st.1))
    as (m & -> & Hm & Dm).
  - done.
  - intros b Hb. apply (lw_blocks _ _ Hwf sd); [|done]. apply elem_of_app. right. by left.
  - done.
  - intros b Hb Hin%Hdom%elem_of_list_to_set. apply (Hnew (reference b)); [|by apply list_elem_of_fmap_2].
    rewrite <- (take_drop k log), log_refs_app. apply elem_of_app. by right.
  - by apply leaders_unique.
  - cbn [mbind outcome_bind]. eexists. split; [done|].
    constructor; simpl; rewrite ?length_app, ?drop_snoc by done; simpl; try done.
    + lia.
    + lia.
    + rewrite decide_False by lia. do 2 f_equal. lia.
    + rewrite fmap_app, list_to_set_app_L. simpl. set_solver.
    + rewrite log_refs_app, Esd, list_to_set_app_L. set_solver.
    + lia.
Qed.
End scoring.

(* ------------------------------------------------------------------ *)
(** ** The table in force *)

(** What the configuration of the network must satisfy: every authority has
    stake, and fits in the threshold of the swap table, so that the table has
    a good node whenever it has a bad one. *)
Record config_ok (ctx : Context) : Prop := {
  cf_committee : committee_wf (committee ctx);
  cf_pos : forall i, is_valid_index (committee ctx) i = true -> 0 < stake_at (committee ctx) i;
  cf_thr : bad_nodes_stake_threshold (protocol_config ctx) <= 33;
  cf_thr_max : bad_nodes_stake_threshold (protocol_config ctx) * c_total_stake (committee ctx) <= u64_MAX;
  cf_fit : stakes_fit (committee ctx) (bad_nodes_stake_threshold (protocol_config ctx));
  cf_leaders : num_leaders_per_round (protocol_config ctx) = Some 1;
  cf_gc : 0 < gc_depth (protocol_config ctx);
  cf_v3 : enable_v3 (protocol_config ctx) = false;
}.

(** Nodes with the same committee and protocol configuration. *)
Definition same_config (ctx context : Context) : Prop :=
  committee context = committee ctx /\ protocol_config context = protocol_config ctx.

Section table.
Context `{RngLaws} (ctx : Context) (Hctx : config_ok ctx).

(** A full schedule is turned into a table. *)
Definition refresh (st : ScoringSubdag * LeaderSwapTable) : outcome (ScoringSubdag * LeaderSwapTable) :=
  count ← scored_subdags_count st.1;
  if count =? CONSENSUS_COMMITS_PER_SCHEDULE then
    scores ← calculate_distributed_vote_scores (committee ctx) st.1;
    range ← unwrap (ss_commit_range st.1);
    table ← leader_swap_table_new ctx (commit_range_end range) scores;
    Ok (scoring_subdag_new, table)
  else Ok st.

Definition schedule_step (st : ScoringSubdag * LeaderSwapTable) (sd : CommittedSubDag)
    : outcome (ScoringSubdag * LeaderSwapTable) :=
  st ← refresh st;
  sc ← add_subdag (committee ctx) st.1 sd;
  Ok (sc, st.2).

Definition schedule_after (log : list CommittedSubDag) : outcome (ScoringSubdag * LeaderSwapTable) :=
  foldM schedule_step log (scoring_subdag_new, leader_swap_table_default).

(** The scores and the table with which the slot after [log] is decided. *)
Definition in_force (log : list CommittedSubDag) : outcome (ScoringSubdag * LeaderSwapTable) :=
  st ← schedule_after log; refresh st.

Definition leader_of (table : LeaderSwapTable) (r : N) : N :=
  match schedule_elect_leader (leader_schedule_new ctx table) r 0 with Ok a => a | _ => 0 end.

Lemma leader_of_Ok table r :
  table_usable (committee ctx) table ->
  schedule_elect_leader (leader_schedule_new ctx table) r 0 = Ok (leader_of table r)
  /\ is_valid_index (committee ctx) (leader_of table r) = true.
Proof.
  intros Ht. unfold leader_of.
  destruct (schedule_elect_Ok (leader_schedule_new ctx table) r (cf_committee _ Hctx) (cf_pos _ Hctx) Ht)
    as (a & E & Hv & _).
  rewrite E. by split.
Qed.

(** The update when the schedule is full. *)
Lemma refresh_full k log st :
  sched_wf (committee ctx) k log st -> N.of_nat (length log - k) = CONSENSUS_COMMITS_PER_SCHEDULE ->
  exists scores table, calculate_distributed_vote_scores (committee ctx) st.1 = Ok scores
    /\ ss_commit_range st.1 = Some (mkCommitRange (N.of_nat k + 1) (N.of_nat (length log) + 1))
    /\ leader_swap_table_new ctx (N.of_nat (length log)) scores = Ok table
    /\ refresh st = Ok (scoring_subdag_new, table)
    /\ reputation_scores table = scores
    /\ rs_commit_range scores = mkCommitRange (N.of_nat k + 1) (N.of_nat (length log) + 1)
    /\ sched_wf (committee ctx) (length log) log (scoring_subdag_new, table).
Proof.
  intros W Hfull. pose proof W as [Hk _ Hrange _ Hvotes _ _ _ _ _].
  destruct (distributed_votes_scores_total (committee ctx) st.1 Hvotes) as (scores & Es & Hlen).
  rewrite decide_False in Hrange by (unfold CONSENSUS_COMMITS_PER_SCHEDULE in Hfull; lia).
  destruct (leader_swap_table_Ok ctx (bad_nodes_stake_threshold (protocol_config ctx)) (N.of_nat (length log))
    scores (mkCommitRange (N.of_nat k + 1) (N.of_nat (length log) + 1)) (cf_committee _ Hctx) (cf_thr _ Hctx)
    (cf_thr_max _ Hctx)) as (table & Et & _ & Hrep & Huse).
  { rewrite Hlen. unfold committee_size. lia. }
  assert (calculate_distributed_vote_scores (committee ctx) st.1
          = Ok (mkReputationScores scores (mkCommitRange (N.of_nat k + 1) (N.of_nat (length log) + 1)))) as Ec.
  { unfold calculate_distributed_vote_scores. rewrite Es. simpl. by rewrite Hrange. }
  eexists _, table. split_and!; [done|done|done| |done|done|].
  - unfold refresh. rewrite (sched_count _ _ _ _ W). cbn [mbind outcome_bind].
    rewrite Hfull, N.eqb_refl, Ec, Hrange. cbn [mbind outcome_bind unwrap].
    unfold commit_range_end, saturating_sub. simpl cr_end_excl. rewrite N.add_sub.
    unfold leader_swap_table_new. by rewrite Et.
  - constructor; simpl; rewrite ?Nat.sub_diag, ?drop_all; try done.
    + by rewrite decide_True.
    + apply Huse, (cf_fit _ Hctx).
    + right. rewrite Hrep. simpl. unfold CONSENSUS_COMMITS_PER_SCHEDULE in *. split; [lia|]. f_equal. lia.
    + rewrite Hrep. simpl. rewrite Hlen. unfold committee_size. lia.
Qed.

Lemma refresh_not_full k log st :
  sched_wf (committee ctx) k log st -> N.of_nat (length log - k) < CONSENSUS_COMMITS_PER_SCHEDULE ->
  refresh st = Ok st.
Proof.
  intros W Hlt. unfold refresh. rewrite (sched_count _ _ _ _ W). cbn [mbind outcome_bind].
  by rewrite (proj2 (N.eqb_neq _ _)) by lia.
Qed.

(** After a refresh there is room for a commit. *)
Lemma refresh_Ok k log st :
  sched_wf (committee ctx) k log st ->
  exists k' st', refresh st = Ok st' /\ sched_wf (committee ctx) k' log st'
    /\ N.of_nat (length log - k') < CONSENSUS_COMMITS_PER_SCHEDULE.
Proof.
  intros W. pose proof (sw_count _ _ _ _ W) as Hle.
  destruct (N.eq_dec (N.of_nat (length log - k)) CONSENSUS_COMMITS_PER_SCHEDULE) as [E|E].
  - destruct (refresh_full k log st W E) as (_ & table & _ & _ & _ & Er & _ & _ & W').
    exists (length log), (scoring_subdag_new, table). split_and!; [done..|]. by rewrite Nat.sub_diag.
  - exists k, st. rewrite (refresh_not_full k log st W) by lia. split_and!; [done..|lia].
Qed.

Lemma schedule_after_Ok log :
  log_wf (committee ctx) log -> N.of_nat (length log) < u32_MAX ->
  exists k st, schedule_after log = Ok st /\ sched_wf (committee ctx) k log st.
Proof.
  induction log as [|sd log IH] using rev_ind; intros Hwf Hmax.
  { exists 0%nat, (scoring_subdag_new, leader_swap_table_default). split; [done|]. apply sched_wf_nil. }
  rewrite length_app in Hmax. simpl in Hmax.
  destruct IH as (k & st & E & W); [by eapply log_wf_app|lia|].
  destruct (refresh_Ok k log st W) as (k' & st' & Er & W' & Hroom).
  destruct (add_subdag_Ok (committee ctx) (cf_committee _ Hctx) k' log st' sd W' Hroom Hwf) as (sc & Ea & Wa); [lia|].
  exists k', (sc, st'.2). split; [|done]. unfold schedule_after in *. rewrite foldM_app, E. simpl.
  unfold schedule_step. rewrite Er. cbn [mbind outcome_bind]. by rewrite Ea.
Qed.

Lemma refresh_idem st st' : refresh st = Ok st' -> refresh st' = refresh st.
Proof.
  intros E. rewrite E. unfold refresh in E. apply bind_Ok in E as (count & Ec & E).
  destruct (count =? CONSENSUS_COMMITS_PER_SCHEDULE) eqn:Eq.
  - repeat outcome_step E. by subst st'.
  - injection E as <-. unfold refresh. rewrite Ec. cbn [mbind outcome_bind]. by rewrite Eq.
Qed.

(** While there is room, the table stays. *)
Lemma schedule_extend k log st sds :
  refresh st = Ok st -> sched_wf (committee ctx) k log st ->
  N.of_nat (length log - k + length sds) <= CONSENSUS_COMMITS_PER_SCHEDULE ->
  log_wf (committee ctx) (log ++ sds) -> N.of_nat (length log + length sds) < u32_MAX ->
  exists sc, add_subdags (committee ctx) st.1 sds = Ok sc
    /\ foldM schedule_step sds st = Ok (sc, st.2) /\ sched_wf (committee ctx) k (log ++ sds) (sc, st.2).
Proof.
  intros Hr W. induction sds as [|sd sds IH] using rev_ind; intros Hroom Hwf Hmax.
  { exists st.1. rewrite app_nil_r. by destruct st. }
  rewrite length_app in Hroom, Hmax. simpl in Hroom, Hmax. rewrite app_assoc in Hwf.
  destruct IH as (sc & Ea & Ef & W1); [lia|by eapply log_wf_app|lia|].
  pose proof (sw_start _ _ _ _ W) as Hk.
  destruct (add_subdag_Ok (committee ctx) (cf_committee _ Hctx) k (log ++ sds) (sc, st.2) sd W1)
    as (sc' & Es & W2); [rewrite length_app; lia|done|rewrite length_app; lia|].
  exists sc'. unfold add_subdags in *. rewrite !foldM_app, Ea, Ef, <- app_assoc in *. simpl.
  simpl in Es. rewrite Es. split_and!; [done| |done].
  unfold schedule_step. rewrite (refresh_not_full k (log ++ sds) (sc, st.2) W1) by (rewrite length_app; lia).
  simpl. by rewrite Es.
Qed.

(** The scores and the table of a node after [log]: before or after the update
    that a full schedule asks for. *)
Definition on_schedule (log : list CommittedSubDag) (st : ScoringSubdag * LeaderSwapTable) : Prop :=
  schedule_after log = Ok st \/ in_force log = Ok st.

Lemma on_schedule_room k log st :
  on_schedule log st -> sched_wf (committee ctx) k log st ->
  N.of_nat (length log - k) < CONSENSUS_COMMITS_PER_SCHEDULE -> in_force log = Ok st.
Proof.
  intros [E|E] W Hroom; [|done]. unfold in_force. rewrite E. cbn [mbind outcome_bind]. by eapply refresh_not_full.
Qed.

Lemma schedule_after_app log sds st :
  in_force log = Ok st -> sds <> [] -> schedule_after (log ++ sds) = foldM schedule_step sds st.
Proof.
  unfold in_force, schedule_after. intros (st0 & E & Er)%bind_Ok Hne. rewrite foldM_app, E.
  destruct sds as [|sd sds]; [done|]. cbn [mbind outcome_bind foldM]. f_equal. unfold schedule_step.
  by rewrite (refresh_idem st0 st Er).
Qed.

(** The table [t] is in force after [log] and for [n] more commits. *)
Definition room (t : LeaderSwapTable) (n : nat) (log : list CommittedSubDag) : Prop :=
  exists k sc, on_schedule log (sc, t) /\ sched_wf (committee ctx) k log (sc, t)
    /\ N.of_nat (length log - k + n) <= CONSENSUS_COMMITS_PER_SCHEDULE.

Lemma room_in_force t n log : room t (Datatypes.S n) log -> exists sc, in_force log = Ok (sc, t).
Proof.
  intros (k & sc & Hon & W & Hn). exists sc. apply (on_schedule_room k); [done|done|lia].
Qed.

Lemma room_skip t n log : room t (Datatypes.S n) log -> room t n log.
Proof. intros (k & sc & Hon & W & Hn). exists k, sc. split_and!; [done|done|lia]. Qed.

Lemma room_commit t n log sd :
  room t (Datatypes.S n) log -> log_wf (committee ctx) (log ++ [sd]) ->
  N.of_nat (length log) + 1 < u32_MAX -> room t n (log ++ [sd]).
Proof.
  intros (k & sc & Hon & W & Hn) Hwf Hmax. pose proof (sw_start _ _ _ _ W) as Hk.
  pose proof (on_schedule_room k log _ Hon W ltac:(lia)) as Hin.
  destruct (add_subdag_Ok (committee ctx) (cf_committee _ Hctx) k log (sc, t) sd W) as (sc' & Ea & W'); [lia|done|done|].
  exists k, sc'. split_and!; [|done|rewrite length_app; simpl; lia].
  left. rewrite (schedule_after_app log [sd] (sc, t) Hin) by done. simpl. unfold schedule_step.
  rewrite (refresh_not_full k log _ W) by lia. simpl in *. by rewrite Ea.
Qed.
End table.
