(* ===== verification/DagAccept.v ===== *)
(** * The DAG state: a new state, and blocks accepted in causal order

    The state created on an empty store, the batches of blocks that may be
    accepted, and the effect of accepting them. *)

From S2P Require Import Prelude Committee Context Block StakeAggregator ThresholdClock Commit Store LeaderScoring LeaderSchedule DagState DagInv Evolve DagOps DagLink.

Section fresh.
Context (bcs_to_bytes : SignedBlock -> list byte) (default_hash : list byte -> N).
Context (context : Context) (Hwf : committee_wf (committee context)).
Notation c := (committee context).

Lemma genesis_block_ref b :
  b ∈ genesis_blocks bcs_to_bytes default_hash context ->
  round b = 0 /\ is_valid_index c (author b) = true.
Proof.
  unfold genesis_blocks. intros ([i au] & -> & Hi)%list_elem_of_fmap.
  pose proof (committee_authorities_valid c i au Hi) as Hv.
  by destruct (transaction_voting_enabled (protocol_config context)).
Qed.

Lemma genesis_block_of a :
  is_valid_index c a = true ->
  exists b, b ∈ genesis_blocks bcs_to_bytes default_hash context /\ author b = a.
Proof.
  unfold is_valid_index, committee_size. intros Ha%N.ltb_lt.
  destruct (lookup_lt_is_Some_2 (c_authorities c) (N.to_nat a)) as [au Hau]; [lia|].
  assert ((a, au) ∈ committee_authorities c) as Hin.
  { unfold committee_authorities. apply list_elem_of_lookup. exists (N.to_nat a).
    rewrite list_lookup_imap, Hau. simpl. by rewrite N2Nat.id. }
  unfold genesis_blocks. match goal with |- exists b, b ∈ ?f <$> _ /\ _ => exists (f (a, au)) end.
  split; [apply list_elem_of_fmap; by exists (a, au)|]. simpl.
  by destruct (transaction_voting_enabled (protocol_config context)).
Qed.

Lemma genesis_map_lookup r :
  genesis_map bcs_to_bytes default_hash context !! r
  = last (List.filter (has_ref r) (genesis_blocks bcs_to_bytes default_hash context)).
Proof.
  unfold genesis_map. rewrite (foldl_insert_lookup reference (fun b => b)). unfold has_ref.
  destruct (last _); [done|]. by rewrite lookup_empty.
Qed.

Lemma genesis_map_ref r b :
  genesis_map bcs_to_bytes default_hash context !! r = Some b -> reference b = r /\ br_round r = 0.
Proof.
  rewrite genesis_map_lookup. intros [Hr Hb]%last_Some_elem_of%list_filter_elem_of.
  apply bool_decide_eq_true in Hr. split; [done|]. rewrite <- Hr. by apply genesis_block_ref.
Qed.

Lemma genesis_map_author a :
  is_valid_index c a = true ->
  exists r b, genesis_map bcs_to_bytes default_hash context !! r = Some b /\ br_author r = a.
Proof.
  intros Ha. destruct (genesis_block_of a Ha) as (b & Hb & <-). exists (reference b).
  rewrite genesis_map_lookup. destruct (last _) as [b'|] eqn:E; [by exists b'|].
  apply last_None in E. exfalso.
  assert (b ∈ List.filter (has_ref (reference b)) (genesis_blocks bcs_to_bytes default_hash context))
    as Hin by (apply list_filter_elem_of; split; [by apply bool_decide_eq_true|done]).
  rewrite E in Hin. inversion Hin.
Qed.

(** The state on an empty store. *)
Definition fresh_state : DagState MemStore := {|
  ds_context := context;
  ds_genesis := genesis_map bcs_to_bytes default_hash context;
  ds_recent_blocks := ∅;
  ds_recent_refs_by_authority := replicate (N.to_nat (committee_size c)) ∅;
  ds_round_info := [];
  ds_threshold_clock := threshold_clock_new 1;
  ds_evicted_rounds := replicate (N.to_nat (committee_size c)) 0;
  ds_highest_accepted_round := 0;
  ds_last_commit := None;
  ds_last_committed_rounds := replicate (N.to_nat (committee_size c)) 0;
  ds_scoring_subdag := scoring_subdag_new;
  ds_pending_commit_votes := [];
  ds_blocks_to_write := [];
  ds_commits_to_write := [];
  ds_commit_info_to_write := [];
  ds_finalized_commits_to_write := [];
  ds_store := mem_store_new;
  ds_cached_rounds := u32_wrap (dag_state_cached_rounds (parameters context));
|}.

Lemma empty_scan a r : r <= u32_MAX -> mem_store_scan_blocks_by_author mem_store_new a r = Ok [].
Proof.
  intros Hr. unfold mem_store_scan_blocks_by_author, mem_store_scan_blocks_by_author_in_range.
  rewrite (proj2 (triple_leb a r DIGEST_MIN a u32_MAX DIGEST_MIN)).
  2:{ destruct (N.eq_dec r u32_MAX); [right; split; [done|right; split; [done|]]|]; lia. }
  cbn [orb assert_that mbind outcome_bind].
  change (btree_range _ (ms_digests_by_authorities mem_store_new)) with ([] : list (N * N * N)).
  by rewrite iter_take_take, take_nil.
Qed.

Lemma recover_authorities_fresh (as_ : list N) :
  (forall a, a ∈ as_ -> is_valid_index c a = true) ->
  foldM recover_authority as_ (fresh_state, []) = Ok (fresh_state, []).
Proof.
  induction as_ as [|a as_ IH]; intros Ha; [done|]. cbn [foldM].
  assert (recover_authority (fresh_state, []) a = Ok (fresh_state, [])) as ->.
  2:{ cbn [mbind outcome_bind]. apply IH. intros x Hx. apply Ha. by right. }
  unfold recover_authority. change (scan_last_blocks_by_author (ds_store fresh_state) a 1 None)
    with (mem_store_scan_last_blocks_by_author mem_store_new a 1 None).
  change (mem_store_scan_last_blocks_by_author mem_store_new a 1 None) with (Ok ([] : list VerifiedBlock)).
  cbn [mbind outcome_bind last].
  assert (eviction_round GENESIS_ROUND (gc_round fresh_state) (ds_cached_rounds fresh_state) = 0) as ->.
  { unfold eviction_round, saturating_sub, GENESIS_ROUND. lia. }
  change (scan_blocks_by_author (ds_store fresh_state) a (u32_add 0 1))
    with (mem_store_scan_blocks_by_author mem_store_new a 1).
  rewrite empty_scan by done. cbn [mbind outcome_bind]. unfold vec_store.
  cbn [fresh_state ds_evicted_rounds].
  assert (N.to_nat a < N.to_nat (committee_size c))%nat as Hlt.
  { specialize (Ha a ltac:(by left)). unfold is_valid_index in Ha. apply N.ltb_lt in Ha. lia. }
  rewrite lookup_replicate_2 by done. cbn [mbind outcome_bind].
  rewrite insert_replicate. done.
Qed.

Lemma dag_state_new_fresh :
  dag_state_new bcs_to_bytes default_hash context mem_store_new = Ok fresh_state.
Proof.
  unfold dag_state_new.
  change (read_last_commit mem_store_new) with (Ok (None : option TrustedCommit)).
  cbn [mbind outcome_bind].
  change (recover_commits mem_store_new (committee_size c) None)
    with (Ok (replicate (N.to_nat (committee_size c)) 0, [] : list CommittedSubDag)).
  cbn [mbind outcome_bind add_subdags foldM]. fold fresh_state.
  rewrite recover_authorities_fresh.
  - cbn [mbind outcome_bind stable_sort foldr foldM].
    change (u32_add (gc_round fresh_state) 1) with 1.
    change (scan_blocks_by_author mem_store_new (own_index context) 1)
      with (mem_store_scan_blocks_by_author mem_store_new (own_index context) 1).
    by rewrite empty_scan.
  - intros a ([i au] & -> & Hi)%list_elem_of_fmap. by apply (committee_authorities_valid c i au).
Qed.

Lemma fresh_state_inv : dag_inv fresh_state.
Proof.
  assert (forall r, view fresh_state r = None) as Hv by (intros r; unfold view; simpl; by rewrite lookup_empty).
  constructor.
  - exact Hwf.
  - intros r b. by rewrite Hv.
  - simpl. by rewrite length_replicate.
  - simpl. by rewrite length_replicate.
  - intros i refs r Hi. simpl in Hi. apply lookup_replicate in Hi as [-> _]. rewrite Hv.
    split; [set_solver|]. intros [_ [??]]. done.
  - intros r b a. by rewrite Hv.
  - intros a Ha. by apply genesis_map_author.
  - intros r b. apply genesis_map_ref.
  - by apply agg_new_wf.
Qed.

Lemma fresh_state_live :
  (forall a, reached_quorum c (stake_of c {[a]}) = false) -> live_inv fresh_state.
Proof.
  intros Hs. constructor; simpl; try done.
  - intros i e [-> _]%lookup_replicate. done.
  - intros r Hr. unfold view in Hr. simpl in Hr. rewrite lookup_empty in Hr. by destruct Hr.
Qed.

Lemma fresh_state_persist :
  0 < u32_wrap (dag_state_cached_rounds (parameters context)) -> persist_inv fresh_state.
Proof.
  intros Hcr. constructor; simpl; try done.
  intros b Hb. inversion Hb.
Qed.
End fresh.

(* ------------------------------------------------------------------ *)
(** ** Accepting blocks in causal order *)

Definition wf_block_b (c : Committee) (b : VerifiedBlock) : bool :=
  (0 <? round b) && (round b <? u32_MAX) && is_valid_index c (author b)
  && (vb_digest b <=? DIGEST_MAX)
  && forallb (fun r => (br_round r <? round b) && is_valid_index c (br_author r)
                       && (br_digest r <=? DIGEST_MAX)) (ancestors b)
  && bool_decide (NoDup (br_author <$> ancestors b))
  && (c_quorum_threshold c <=? stake_of c (parent_authors b)).

Lemma wf_block_b_spec c b : wf_block_b c b = true <-> wf_block c b.
Proof.
  unfold wf_block_b. rewrite !andb_true_iff, !N.ltb_lt, !N.leb_le, bool_decide_eq_true, forallb_forall.
  split.
  - intros ((((((? & ?) & ?) & ?) & Ha) & ?) & ?). constructor; try done.
    intros r Hr%list_elem_of_In. specialize (Ha r Hr).
    rewrite !andb_true_iff, N.ltb_lt, N.leb_le in Ha. tauto.
  - intros [? ? ? Ha ? ?]. split_and!; try done; try lia.
    intros r Hr%list_elem_of_In. rewrite !andb_true_iff, N.ltb_lt, N.leb_le.
    destruct (Ha r Hr) as (? & ? & ?). done.
Qed.

#[global] Instance wf_block_dec c b : base.Decision (wf_block c b).
Proof.
  refine (cast_if (decide (wf_block_b c b = true))); by rewrite <- wf_block_b_spec.
Defined.

(** Well-formed blocks, each after its ancestors above the GC round; the
    node's own blocks are for slots it has no block for. *)
Fixpoint causal (c : Committee) (own gc : N) (known : gset BlockRef) (bs : list VerifiedBlock)
    : Prop :=
  match bs with
  | [] => True
  | b :: bs =>
      wf_block c b
      /\ (author b = own -> set_Forall (fun r => slot_of_ref r <> slot_of_ref (reference b)) known)
      /\ Forall (fun a => gc < br_round a -> a ∈ known) (ancestors b)
      /\ causal c own gc ({[reference b]} ∪ known) bs
  end.

#[global] Instance causal_dec c own gc known bs : base.Decision (causal c own gc known bs).
Proof. revert known. induction bs as [|b bs IH]; intros known; simpl; apply _. Defined.

Lemma causal_wf c own gc known bs b : causal c own gc known bs -> b ∈ bs -> wf_block c b.
Proof.
  revert known. induction bs as [|x bs IH]; intros known Hc Hb; [inversion Hb|].
  destruct Hc as (Hwf & _ & _ & Hc). apply elem_of_cons in Hb as [->|Hb]; [done|by eapply IH].
Qed.

Section accept.
Context {S : Type} `{StoreLaws S}.
Implicit Types s : DagState S.

Lemma dag_block_recent s r x :
  dag_inv s -> persist_inv s -> gc_round s < br_round r ->
  dag_block s r = Some x -> view s r = Some x.
Proof.
  intros Hs Hp Hgc. unfold dag_block, cached_block.
  rewrite (proj2 (N.eqb_neq _ _)) by (unfold GENESIS_ROUND; lia).
  destruct (ds_recent_blocks s !! r) as [bi|] eqn:E.
  - intros [= <-]. unfold view. by rewrite E.
  - intros Hx. by apply (pi_recent s Hp).
Qed.

(** What the batched existence check answers for one reference. *)
Definition contains_answer s (r : BlockRef) : bool :=
  match cached_contains s r with
  | Ok (Some y) => y
  | _ => bool_decide (is_Some (store_block (ds_store s) r))
  end.

Lemma contains_answers s refs :
  dag_inv s -> (forall r, r ∈ refs -> is_valid_index (ds_committee s) (br_author r) = true) ->
  contains_blocks s refs = Ok (contains_answer s <$> refs).
Proof.
  intros Hs Ha. set (cc := fun r => match cached_contains s r with Ok o => o | _ => None end).
  assert (forall r, r ∈ refs -> cached_contains s r = Ok (cc r)) as Hcc.
  { intros r Hr. unfold cc. by destruct (cached_contains_Ok s r Hs (Ha r Hr)) as (o & -> & _). }
  unfold contains_blocks. rewrite (mapM_Ok _ cc) by done. cbn [mbind outcome_bind].
  set (g := fun r => bool_decide (is_Some (store_block (ds_store s) r))).
  assert (forall l, omap (fun x => match x.2 with None => Some x.1 | Some _ => None end) (zip l (cc <$> l))
                    = omap (fun x => match cc x with None => Some x | Some _ => None end) l) as ->.
  { induction l as [|x l IH]; [done|]. cbn in *. by destruct (cc x); rewrite IH. }
  assert (fill_missing false (cc <$> refs)
            (g <$> omap (fun x => match cc x with None => Some x | Some _ => None end) refs)
          = contains_answer s <$> refs) as E.
  { rewrite fill_missing_spec. apply list_fmap_ext. intros i r Hi. unfold contains_answer.
    rewrite (Hcc r) by (by eapply list_elem_of_lookup_2). by destruct (cc r). }
  destruct (omap _ refs) as [|r0 rest] eqn:Em; cbn [is_empty]; [by rewrite <- E|].
  rewrite store_contains_blocks_spec. cbn [mbind outcome_bind]. fold g. by rewrite <- E.
Qed.

Lemma contains_blocks_spec s refs :
  dag_inv s -> persist_inv s ->
  (forall r, r ∈ refs -> is_valid_index (ds_committee s) (br_author r) = true) ->
  contains_blocks s refs = Ok ((fun r => bool_decide (is_Some (dag_block s r))) <$> refs).
Proof.
  intros Hs Hp Ha. rewrite contains_answers by done. f_equal. apply list_fmap_ext. intros i r Hi.
  assert (is_valid_index (ds_committee s) (br_author r) = true) as Hr
    by (by eapply Ha, list_elem_of_lookup_2).
  pose proof (contains_block_spec s r Hs Hp Hr) as E. unfold contains_block in E.
  rewrite contains_answers in E; [by injection E|done|]. by intros ? ->%list_elem_of_singleton.
Qed.

(** [s'] is [s] with some blocks of [P] added, and no commit. *)
Record grown s (P : VerifiedBlock -> Prop) s' : Prop := {
  gw_evolves : evolves s s';
  gw_blocks : forall r x, dag_block s' r = Some x -> dag_block s r = Some x \/ P x;
  gw_high : forall R, ds_highest_accepted_round s <= R -> (forall x, P x -> round x <= R) ->
    ds_highest_accepted_round s' <= R;
  gw_low : ds_highest_accepted_round s <= ds_highest_accepted_round s';
}.

Lemma grown_refl s P : grown s P s.
Proof. constructor; [apply evolves_refl|by left|done|done]. Qed.

Lemma grown_trans s P s1 Q s2 (R : VerifiedBlock -> Prop) :
  grown s P s1 -> grown s1 Q s2 -> (forall x, P x -> R x) -> (forall x, Q x -> R x) -> grown s R s2.
Proof.
  intros [E1 B1 H1 L1] [E2 B2 H2 L2] HP HQ. constructor.
  - by eapply evolves_trans.
  - intros r x [[?|?]%B1|?]%B2; auto.
  - intros n Hn Hx. apply H2; [apply H1; [done|]|]; intros x ?; apply Hx; auto.
  - by etrans.
Qed.

Lemma grown_mono s (P Q : VerifiedBlock -> Prop) s' :
  grown s P s' -> (forall x, P x -> Q x) -> grown s Q s'.
Proof. intros G HP. exact (grown_trans s P s' Q s' Q G (grown_refl s' Q) HP (fun _ h => h)). Qed.

(** What one accepted block changes, in a form that composes. *)
Lemma accept_step s b :
  dag_inv s -> persist_inv s -> enable_v3 (protocol_config (ds_context s)) = false ->
  rooted s b -> own_slot_free s b ->
  exists s', accept_block s b = Ok s' /\ dag_inv s' /\ persist_inv s'
    /\ ds_context s' = ds_context s /\ ds_last_commit s' = ds_last_commit s
    /\ is_Some (dag_block s' (reference b))
    /\ (forall r x, dag_block s r = Some x -> dag_block s' r = Some x)
    /\ (forall r x, view s' r = Some x -> view s r = Some x \/ x = b)
    /\ (forall r, is_Some (dag_block s' r) -> is_Some (dag_block s r) \/ r = reference b)
    /\ ds_highest_accepted_round s' <= N.max (ds_highest_accepted_round s) (round b)
    /\ grown s (eq b) s'.
Proof.
  intros Hs Hp Hv3 Hroot Hown.
  destruct (accept_block_Ok s b Hs Hp Hv3 Hroot Hown) as (s1 & E1 & H1 & P1 & C1 & L1 & Hev & Hm).
  exists s1. split_and!; try done; destruct (dag_block s (reference b)) as [x|] eqn:Ex;
    try (subst s1; by eauto); try (destruct Hm as (Hview & Hm & Hh)).
  - rewrite Hm, decide_True by done. by eexists.
  - intros r x Hr. rewrite Hm. case_decide as E; [congruence|done].
  - intros r x. rewrite Hview. case_decide; [|by left]. intros [= ->]. by right.
  - intros r. rewrite Hm. case_decide; [by right|by left].
  - subst s1. lia.
  - lia.
  - subst s1. apply grown_refl.
  - constructor; [done| | |].
    + intros r x. rewrite Hm. case_decide; [intros [= ->]; by right|by left].
    + intros n Hn Hx. rewrite Hh. specialize (Hx b eq_refl). lia.
    + rewrite Hh. lia.
Qed.

Lemma accept_blocks_Ok bs s known :
  dag_inv s -> persist_inv s -> enable_v3 (protocol_config (ds_context s)) = false ->
  (forall r, is_Some (view s r) -> r ∈ known) ->
  (forall r, r ∈ known -> gc_round s < br_round r -> is_Some (view s r)) ->
  causal (ds_committee s) (own_index (ds_context s)) (gc_round s) known bs ->
  exists s', accept_blocks s bs = Ok s' /\ dag_inv s' /\ persist_inv s'
    /\ ds_context s' = ds_context s /\ ds_last_commit s' = ds_last_commit s
    /\ (forall b, b ∈ bs -> is_Some (dag_block s' (reference b)))
    /\ (forall r x, dag_block s r = Some x -> dag_block s' r = Some x)
    /\ (forall r x, view s' r = Some x -> view s r = Some x \/ x ∈ bs)
    /\ (forall r, is_Some (dag_block s' r) -> is_Some (dag_block s r) \/ r ∈ reference <$> bs)
    /\ ds_highest_accepted_round s' <= foldr (fun b m => N.max (round b) m) (ds_highest_accepted_round s) bs
    /\ grown s (fun x => x ∈ bs) s'.
Proof.
  revert s known. induction bs as [|b bs IH]; intros s known Hs Hp Hv3 Hk1 Hk2 Hc.
  { exists s. split_and!; try done; [intros b Hb; inversion Hb|by left..|apply grown_refl]. }
  destruct Hc as (Hwf & Hown & Hanc & Hc). rewrite Forall_forall in Hanc.
  destruct (accept_step s b Hs Hp Hv3) as (s1 & E1 & H1 & P1 & C1 & L1 & Hb & Hmono & Hnew & Hnew2 & Hh & Hev).
  { split; [done|]. intros a Ha Hgc. apply Hk2; [by apply Hanc|done]. }
  { intros Ho x Hx Hslot. by destruct (Hown Ho (reference x)); [apply Hk1|]. }
  pose proof (gc_round_ext s s1 C1 L1) as Hgc.
  destruct (IH s1 ({[reference b]} ∪ known) H1 P1)
    as (s' & E' & H' & P' & C' & L' & Hbs & Hmono' & Hnew' & Hnew2' & Hh' & Hev').
  - by rewrite C1.
  - intros r [x Hx]. destruct (Hnew r x Hx) as [Hx'| ->].
    + apply elem_of_union_r, Hk1. by eexists.
    + destruct (di_wf s1 H1 _ _ Hx) as [<- _]. set_solver.
  - intros r [->%elem_of_singleton|Hr]%elem_of_union Hgt.
    + destruct Hb as [x Hx]. exists x. by apply dag_block_recent.
    + rewrite Hgc in Hgt. destruct (Hk2 r Hr Hgt) as [x Hx]. exists x.
      apply dag_block_recent; [done..|by rewrite Hgc|]. by apply Hmono, dag_block_view.
  - unfold ds_committee. by rewrite C1, Hgc.
  - exists s'. unfold accept_blocks. cbn [foldM]. rewrite E1. cbn [mbind outcome_bind].
    split_and!; [done..|congruence|congruence| | | | | |].
    + intros b2 [->|Hb2]%elem_of_cons; [|by apply Hbs]. destruct Hb as [x Hx]. exists x. by apply Hmono'.
    + intros r x Hr. by apply Hmono', Hmono.
    + intros r x Hx. destruct (Hnew' r x Hx) as [Hx'|]; [|by right; right].
      destruct (Hnew r x Hx') as [ | -> ]; [by left|by right; left].
    + intros r Hr. destruct (Hnew2' r Hr) as [Hr'|]; [|by right; right].
      destruct (Hnew2 r Hr') as [ | -> ]; [by left|by right; left].
    + etrans; [exact Hh'|]. simpl. clear -Hh. induction bs as [|y bs IHbs]; simpl in *; lia.
    + eapply grown_trans; [exact Hev|exact Hev'| |]; [by intros x <-; left|by right].
Qed.

Lemma known_view s r : is_Some (view s r) <-> r ∈ dom (ds_recent_blocks s).
Proof. unfold view. by rewrite fmap_is_Some, elem_of_dom. Qed.
End accept.
