(* ===== verification/DagInclude.v ===== *)
(** * Including histories in own blocks

    Linking the histories of blocks, one after the other, changes the inclusion
    marks only, and returns each block that was not included before once. *)

From S2P Require Import Prelude Committee Context Block StakeAggregator ThresholdClock Commit Store LeaderScoring DagState DagInv Evolve DagOps DagLink DagAccept.

Section include.
Context {S : Type} {ST : Store S} {SL : StoreLaws S}.
Implicit Types s : DagState S.

(** Only inclusion marks differ. *)
Definition remarked s s' : Prop :=
  exists m, s' = set_recent_blocks s m
    /\ forall r, m !! r = ds_recent_blocks s !! r \/ m !! r = mark_included <$> ds_recent_blocks s !! r.

Lemma remarked_refl s : remarked s s.
Proof. exists (ds_recent_blocks s). split; [by destruct s|by left]. Qed.

Lemma remarked_trans s1 s2 s3 : remarked s1 s2 -> remarked s2 s3 -> remarked s1 s3.
Proof.
  intros (m1 & -> & H1) (m2 & -> & H2). exists m2. split; [done|]. intros r. specialize (H1 r). specialize (H2 r).
  simpl in H2. destruct H2 as [->| ->], H1 as [->| ->]; auto. right. by destruct (ds_recent_blocks s1 !! r).
Qed.

Lemma link_targets_remarked fuel : forall s gc targets linked s' l,
  link_targets fuel s gc targets linked = Ok (s', l) -> remarked s s'.
Proof.
  induction fuel as [|fuel IH]; intros s gc targets linked s' l E; [done|]. cbn [link_targets] in E.
  destruct targets as [|t targets]; [injection E as <- _; apply remarked_refl|].
  destruct (_ <=? _); [by eapply IH|]. destruct (ds_recent_blocks s !! t) as [bi|] eqn:Et; [|done]. cbn in E.
  destruct (bi_included bi); [by eapply IH|]. apply IH in E. eapply remarked_trans; [|exact E].
  eexists. split; [done|]. intros r. destruct (decide (r = t)) as [->|Hne]; [right|left].
  - by rewrite lookup_insert_eq, Et.
  - by rewrite lookup_insert_ne.
Qed.

Lemma remarked_view s s' r : remarked s s' -> view s' r = view s r.
Proof. intros (m & -> & Hm). unfold view. simpl. destruct (Hm r) as [->| ->]; [done|]. by destruct (ds_recent_blocks s !! r). Qed.

Lemma remarked_committed s s' r : remarked s s' -> committed s' r = committed s r.
Proof.
  intros (m & -> & Hm). unfold committed. simpl. destruct (Hm r) as [->| ->]; [done|]. by destruct (ds_recent_blocks s !! r).
Qed.

Lemma remarked_included s s' r : remarked s s' -> included s r = true -> included s' r = true.
Proof.
  intros (m & -> & Hm). unfold included. simpl. destruct (Hm r) as [->| ->]; [done|]. by destruct (ds_recent_blocks s !! r).
Qed.

Lemma remarked_grown s s' P :
  remarked s s' -> (included_closed s -> included_closed s') -> grown s P s'.
Proof.
  intros Hr Hcl. assert (forall r, dag_block s' r = dag_block s r) as Hb.
  { intros r. pose proof (remarked_view s s' r Hr) as Hv. destruct Hr as (m & -> & _).
    unfold dag_block, cached_block. unfold view in Hv. simpl in *.
    destruct (_ =? _); [done|]. destruct (m !! r), (ds_recent_blocks s !! r); simpl in *; congruence. }
  pose proof Hr as (m & E & _). constructor; [|intros r x; rewrite Hb; by left|by rewrite E|by rewrite E].
  constructor; try (by rewrite E); try done.
  - intros r _. by apply remarked_committed.
  - intros r b _. by rewrite (remarked_view s s' r Hr).
  - intros r. rewrite (remarked_view s s' r Hr). by left.
  - intros r _. by apply remarked_included.
  - intros Hl. apply (live_ext s s'); try (by rewrite E); try (subst s'; apply Hl); try done.
    + intros r. by rewrite (remarked_view s s' r Hr).
    + intros r _. by rewrite (remarked_view s s' r Hr).
Qed.

Lemma remarked_inv s s' : remarked s s' -> dag_inv s -> dag_inv s'.
Proof.
  intros Hr Hs. pose proof Hr as (m & E & _). apply (dag_inv_ext s); try (by rewrite E); [done| |].
  - intros r. by apply remarked_view.
  - rewrite E. apply (di_clock s Hs).
Qed.

Lemma remarked_persist s s' : remarked s s' -> persist_inv s -> persist_inv s'.
Proof.
  intros Hr Hp. pose proof Hr as (m & E & _). apply (persist_inv_ext s); try (by rewrite E); [done|].
  intros r. by apply remarked_view.
Qed.

Lemma remarked_gc s s' : remarked s s' -> gc_round s' = gc_round s.
Proof. by intros (m & -> & _). Qed.

Lemma link_remarked s root s' l : link_causal_history s root = Ok (s', l) -> remarked s s'.
Proof. apply link_targets_remarked. Qed.

Lemma reach_same_view s s' b r : (forall x, view s' x = view s x) -> reach s b r -> reach s' b r.
Proof.
  intros Hv. induction 1 as [r Hr|r' b' r _ IH Hb Hr]; [by apply reach_anc|]. eapply reach_step; [done|by rewrite Hv|done].
Qed.

Lemma below_ext s s' L r : (forall x, view s' x = view s x) -> below s L r -> below s' L r.
Proof.
  intros Hv [?|(x & b & ? & ? & ?)]; [by left|]. right. exists x, b. split_and!; [done|by rewrite Hv|by eapply reach_same_view].
Qed.

(** Linking several blocks. *)
Lemma link_all_Ok (roots : list BlockRef) : forall s acc,
  dag_inv s -> included_closed s ->
  (forall r, r ∈ roots -> gc_round s < br_round r -> is_Some (view s r)) ->
  exists s' l, foldM (fun acc root => linked ← link_causal_history acc.1 root; Ok (linked.1, acc.2 ++ linked.2)) roots (s, acc)
      = Ok (s', acc ++ l)
    /\ remarked s s' /\ dag_inv s' /\ included_closed s' /\ NoDup l
    /\ (forall r, r ∈ l <-> gc_round s < br_round r /\ included s r = false /\ below s (list_to_set roots) r)
    /\ (forall r, included s' r = true <-> included s r = true \/ r ∈ l)
    /\ (forall r, r ∈ roots -> gc_round s < br_round r -> included s' r = true).
Proof.
  induction roots as [|root roots IH]; intros s acc Hs Hcl Hroots; cbn [foldM].
  { exists s, []. rewrite app_nil_r. split_and!; [done|apply remarked_refl|done|done|constructor| | |].
    - intros r. split; [by intros ?%elem_of_nil|]. intros (_ & _ & [?|(x & b & ? & _)]); set_solver.
    - intros r. split; [by left|]. intros [?|?%elem_of_nil]; done.
    - by intros r ?%elem_of_nil. }
  destruct (link_history_Ok s root Hs Hcl) as (s1 & l1 & E1 & Hl1 & Hcl1 & Hin1); [intros; apply Hroots; [left|done]|].
  cbn [fst snd]. rewrite E1. cbn [mbind outcome_bind fst snd]. pose proof (link_remarked _ _ _ _ E1) as Hr1.
  pose proof (remarked_gc _ _ Hr1) as Hgc. assert (forall x, view s1 x = view s x) as Hv1 by (intros; by apply remarked_view).
  destruct (IH s1 (acc ++ l1)) as (s' & l & E & Hr & Hi & Hcl' & Hnd & Hin & Hinc & Hrt); [apply Hl1|done| |].
  { intros r Hr. rewrite Hgc, Hv1. apply Hroots. by right. }
  exists s', (l1 ++ l). rewrite E, <- (assoc_L (++)).
  split_and!; [done|by eapply remarked_trans|done|done| | | |].
  - apply NoDup_app. split_and!; [apply Hl1| |done]. intros r H1 (_ & Hn & _)%Hin.
    assert (included s1 r = true) as E2 by (apply (lk_included _ _ _ _ Hl1); by right). congruence.
  - intros r. rewrite elem_of_app, Hin1, Hin, Hgc. split.
    + intros [(? & ? & Hb)|(? & Hn & Hb)].
      * split_and!; [done|done|]. destruct Hb as [->%elem_of_singleton|(x & b & ->%elem_of_singleton & ? & ?)]; [left; set_solver|].
        right. exists root, b. split_and!; [set_solver|done|done].
      * split_and!; [done| |].
        -- destruct (included s r) eqn:E2; [|done]. by rewrite (remarked_included s s1 r Hr1 E2) in Hn.
        -- apply (below_ext s1 s) in Hb; [|done]. destruct Hb as [?|(x & b & ? & ? & ?)]; [left; set_solver|].
           right. exists x, b. split_and!; [set_solver|done|done].
    + intros (Hg & Hn & Hb).
      assert (below s {[root]} r \/ below s1 (list_to_set roots) r) as [Hb'|Hb'].
      { destruct Hb as [Hr'|(x & b & Hx & ? & ?)].
        - rewrite list_to_set_cons in Hr'. apply elem_of_union in Hr' as [?|?]; [left; by left|right; by left].
        - rewrite list_to_set_cons in Hx. apply elem_of_union in Hx as [Hx|Hx].
          + left. right. by exists x, b.
          + right. apply (below_ext s); [done|]. right. by exists x, b. }
      { left. done. }
      destruct (included s1 r) eqn:E2; [|right; done]. left. apply Hin1.
      apply (lk_included _ _ _ _ Hl1) in E2 as [?|?]; [congruence|done].
  - intros r. rewrite Hinc, (lk_included _ _ _ _ Hl1), elem_of_app. tauto.
  - intros r [->|Hr']%elem_of_cons Hg; [|by apply Hrt; [|rewrite Hgc]].
    apply Hinc. left. apply (lk_targets _ _ _ _ Hl1); [left|done].
Qed.
End include.
