(* ===== verification/SampleDag.v ===== *)
(** * A small DAG

    Four authorities build full rounds, except that the first one misses
    round 2; validators hold prefixes of it.  It shows that the hypotheses of
    the theorems about the DAG state can be met, and lets them be evaluated. *)

From S2P Require Import Prelude Committee Context Block StakeAggregator ThresholdClock Commit Store LeaderScoring LeaderSchedule DagState DagInv Evolve DagOps DagLink DagAccept.

Definition no_bytes (_ : SignedBlock) : list byte := [].
Definition hash_7 (_ : list byte) : N := 7.

(** The context of validator [own]. *)
Definition sample_context (own : N) : Context :=
  mkContext 0 own (test_committee 4) (mkParameters 500 100 false 50000000 5 32 1000 8 32) for_testing.

(** The authors of a round. *)
Definition sample_authors (r : N) : list N := if r =? 2 then [1; 2; 3] else [0; 1; 2; 3].

Definition sample_ref (r a : N) : BlockRef :=
  mkBlockRef r a (if r =? 0 then 7 else 10 * r + a).

(** The own ancestor comes first, from the last round the author was in. *)
Definition sample_ancestors (r a : N) : list BlockRef :=
  sample_ref (if (r =? 3) && (a =? 0) then 1 else r - 1) a
  :: (sample_ref (r - 1) <$> List.filter (fun x => negb (x =? a)) (sample_authors (r - 1))).

Definition sample_block (r a : N) : VerifiedBlock :=
  test_block r a (1000 * r + a) (br_digest (sample_ref r a)) (sample_ancestors r a).

(** The blocks of rounds 1 to [n]. *)
Definition sample_blocks (n : nat) : list VerifiedBlock :=
  r ← N.of_nat <$> seq 1 n; sample_block r <$> sample_authors r.

Definition sample_fresh (own : N) : DagState MemStore :=
  fresh_state no_bytes hash_7 (sample_context own).

(** Validator [own] after accepting rounds 1 to [n]. *)
Definition sample (own : N) (n : nat) : DagState MemStore :=
  match accept_blocks (sample_fresh own) (sample_blocks n) with
  | Ok s => s
  | _ => sample_fresh own
  end.

Lemma sample_fresh_inv own : dag_inv (sample_fresh own).
Proof. apply fresh_state_inv, test_committee_4_wf. Qed.

Lemma sample_fresh_persist own : persist_inv (sample_fresh own).
Proof. by apply fresh_state_persist. Qed.

Lemma sample_fresh_known own r : is_Some (view (sample_fresh own) r) -> r ∈ (∅ : gset BlockRef).
Proof. rewrite known_view. set_solver. Qed.

Lemma sample_fresh_known' own r :
  r ∈ (∅ : gset BlockRef) -> gc_round (sample_fresh own) < br_round r ->
  is_Some (view (sample_fresh own) r).
Proof. set_solver. Qed.

Lemma sample_ok own n :
  causal (test_committee 4) own 0 ∅ (sample_blocks n) ->
  accept_blocks (sample_fresh own) (sample_blocks n) = Ok (sample own n)
  /\ dag_inv (sample own n) /\ persist_inv (sample own n)
  /\ ds_context (sample own n) = sample_context own
  /\ ds_last_commit (sample own n) = None
  /\ (forall r x, view (sample own n) r = Some x -> x ∈ sample_blocks n).
Proof.
  intros Hc. unfold sample.
  destruct (accept_blocks_Ok (sample_blocks n) (sample_fresh own) ∅ (sample_fresh_inv own)
    (sample_fresh_persist own) eq_refl (sample_fresh_known own) (sample_fresh_known' own) Hc)
    as (s' & -> & ? & ? & ? & ? & _ & _ & Hv & _).
  split_and!; try done. intros r x Hx. by destruct (Hv r x Hx) as [[bi [[=] _]]%fmap_Some|].
Qed.

(** Tells whether no cached block was included or committed. *)
Definition unmarked (s : DagState MemStore) : bool :=
  forallb (fun '(_, bi) => negb (bi_included bi) && negb (bi_committed bi))
    (map_to_list (ds_recent_blocks s)).

Lemma unmarked_included s r : unmarked s = true -> included s r = false.
Proof.
  unfold unmarked, included. rewrite forallb_forall. intros Hall.
  destruct (ds_recent_blocks s !! r) as [bi|] eqn:E; [|done].
  specialize (Hall (r, bi)). rewrite <- list_elem_of_In, elem_of_map_to_list in Hall.
  specialize (Hall E). simpl in Hall. by destruct (bi_included bi).
Qed.

Lemma unmarked_closed s : unmarked s = true -> included_closed s.
Proof. intros Hu r b a Hi. by rewrite unmarked_included in Hi. Qed.

Lemma sample_causal : causal (test_committee 4) 0 0 ∅ (sample_blocks 6).
Proof. apply (bool_decide_eq_true_1 _). vm_compute. reflexivity. Qed.

Lemma sample_causal_1 : causal (test_committee 4) 1 0 ∅ (sample_blocks 8).
Proof. apply (bool_decide_eq_true_1 _). vm_compute. reflexivity. Qed.

Definition sample_inv : dag_inv (sample 0 6) := proj1 (proj2 (sample_ok 0 6 sample_causal)).
Definition sample_persist : persist_inv (sample 0 6) :=
  proj1 (proj2 (proj2 (sample_ok 0 6 sample_causal))).

(** A first commit of the leader of round 1. *)
Definition sample_commit (index timestamp : N) (leader : BlockRef) (blocks : list BlockRef)
    : TrustedCommit :=
  mkTrustedCommit (commit_new index 0 timestamp leader blocks) index [].

Lemma sample_blocks_mono m n : (m <= n)%nat -> sample_blocks m ⊆ sample_blocks n.
Proof.
  intros Hle x. unfold sample_blocks. rewrite !list_elem_of_bind.
  intros (r & Hx & (i & -> & Hi)%list_elem_of_fmap). exists (N.of_nat i). split; [done|].
  apply list_elem_of_fmap. exists i. split; [done|]. rewrite elem_of_seq in *. lia.
Qed.
