(* ===== verification/FinalizerTheorems.v ===== *)
(** * The commit finalizer is correct

    A finalizer that is fed the commits of a stream, while the vote tracker
    follows the blocks of the DAG, returns from every call and outputs the
    commits in order, each as soon as a leader three rounds above is committed
    or earlier, with a justified verdict on each transaction. *)

From S2P Require Import Prelude Committee Context Block StakeAggregator ThresholdClock Commit Error Store LeaderScoring DagState VoteTracker DagInv Evolve DagOps CommitObserver CommitFinalizer FinalizerVotes FinalizerLinks FinalizerAccept FinalizerInv FinalizerRun.

(* ------------------------------------------------------------------ *)
(** ** The finalizer and the tracker of a node *)

Section node.
Context {S : Type} `{Store S}.

(** What the tasks of a node do: blocks are tracked with the own votes on
    them, and commits arrive, with the DAG state at that time. *)
Inductive finalizer_event :=
  | Tracked (voted : VerifiedBlock * list N)
  | Committed (dag : DagState S) (sd : CommittedSubDag).

Definition FinalizerNode : Type := CommitFinalizer * VoteTrackerState * CommitFinalizerHandle.

Definition finalizer_start (ctx : Context) : FinalizerNode :=
  (commit_finalizer_new ctx, vote_tracker_state_new ctx, mkCommitFinalizerHandle true []).

Definition finalizer_step (st : FinalizerNode) (e : finalizer_event) : outcome FinalizerNode :=
  let '(self, votes, sender) := st in
  match e with
  | Tracked voted => votes ← add_voted_block votes voted; Ok (self, votes, sender)
  | Committed dag sd =>
      received ← finalizer_receive self votes dag sender sd;
      let '(self, votes, _, sender, _) := received in
      Ok (self, votes, sender)
  end.

Definition tracked_blocks (events : list finalizer_event) : list (VerifiedBlock * list N) :=
  omap (fun e => match e with Tracked voted => Some voted | _ => None end) events.

Definition commits_of (events : list finalizer_event) : list CommittedSubDag :=
  omap (fun e => match e with Committed _ sd => Some sd | _ => None end) events.
End node.
Arguments finalizer_event S : clear implicits.

Lemma tracked_app {S} (l1 l2 : list (finalizer_event S)) : tracked_blocks (l1 ++ l2) = tracked_blocks l1 ++ tracked_blocks l2.
Proof. apply omap_app. Qed.

Lemma commits_app {S} (l1 l2 : list (finalizer_event S)) : commits_of (l1 ++ l2) = commits_of l1 ++ commits_of l2.
Proof. apply omap_app. Qed.

(** Commits as the linearizer makes them: without verdicts, and above the GC
    round of the commit before. *)
Record fresh_stream (ctx : Context) (sds : list CommittedSubDag) : Prop := {
  fs_stream : stream_ok (committee ctx) sds;
  fs_fresh : forall sd, sd ∈ sds -> rejected_transactions_by_block sd = ∅ /\ recovered_rejected_transactions sd = false;
  fs_above : forall j sd sd' b, sds !! j = Some sd -> sds !! Datatypes.S j = Some sd' -> b ∈ sd_blocks sd' ->
    context_gc_round ctx (sub_round sd) < round b;
}.

(** The events of a node: voted blocks are of members, and a commit comes with
    a DAG state that has it, after its blocks were tracked. *)
Record node_events {S} `{StoreLaws S} (ctx : Context) (events : list (finalizer_event S)) : Prop := {
  ne_stream : fresh_stream ctx (commits_of events);
  ne_voted : forall b v, (b, v) ∈ tracked_blocks events -> is_valid_index (committee ctx) (author b) = true;
  ne_dag : forall l1 dag sd l2, events = l1 ++ Committed dag sd :: l2 ->
    dag_inv dag /\ persist_inv dag /\ protocol_config (ds_context dag) = protocol_config ctx
    /\ sub_round sd <= last_commit_round dag
    /\ (forall b, b ∈ sd_blocks sd -> reference b ∈ reference <$> (tracked_blocks l1).*1);
}.

(** The output without its verdicts. *)
Definition without_verdicts (sd : CommittedSubDag) : CommittedSubDag :=
  mkCommittedSubDag (sd_leader sd) (sd_blocks sd) (sd_timestamp_ms sd) (sd_commit_ref sd) (decided_with_local_blocks sd)
    (recovered_rejected_transactions sd) ∅.

Definition rejected_in (sd : CommittedSubDag) (r : BlockRef) (t : N) : Prop :=
  t ∈ default [] (rejected_transactions_by_block sd !! r).

Lemma finalized_rejected cs r :
  rejected_transactions_by_block (cs_commit cs) = ∅ ->
  rejected_transactions_by_block (finalized_commit cs) !! r = btree_iter <$> cs_rejected_transactions cs !! r.
Proof.
  intros E. cbn [finalized_commit rejected_transactions_by_block]. rewrite E.
  assert (forall l (m : gmap BlockRef (list N)), NoDup l.*1 ->
    foldl (fun m '(r, rejected) => <[r := btree_iter rejected]> m) m l !! r
    = match (list_to_map l : gmap BlockRef (gset N)) !! r with Some s => Some (btree_iter s) | None => m !! r end) as Hgen.
  { clear. induction l as [|[r0 s0] l IH]; intros m Hnd; cbn [foldl list_to_map foldr]; [by rewrite lookup_empty|].
    apply NoDup_cons in Hnd as [Hn Hnd]. rewrite IH by done. simpl. destruct (decide (r = r0)) as [->|Hne].
    - rewrite !lookup_insert_eq. apply not_elem_of_list_to_map in Hn. simpl in Hn. by rewrite Hn.
    - by rewrite !lookup_insert_ne. }
  rewrite Hgen by apply btree_map_iter_NoDup. rewrite lookup_empty.
  assert (list_to_map (btree_map_iter (cs_rejected_transactions cs)) = cs_rejected_transactions cs) as ->; [|by destruct (_ !! r)].
  apply map_eq. intros x. apply option_eq. intros s. rewrite <- elem_of_list_to_map by apply btree_map_iter_NoDup.
  apply elem_of_btree_map_iter.
Qed.

Lemma finalized_same cs :
  rejected_transactions_by_block (cs_commit cs) = ∅ -> without_verdicts (finalized_commit cs) = cs_commit cs.
Proof. intros E. destruct cs as [[] ? ? ?]. simpl in *. by rewrite E. Qed.

(* ------------------------------------------------------------------ *)
(** ** The invariant of the node *)

(** The tracker that a commit was processed with knows the blocks tracked by
    then, above its GC round. *)
Definition knows (voted : list (VerifiedBlock * list N)) (votes : VoteTrackerState) : Prop :=
  exists log, tracks_votes log votes /\ log ⊆ voted
    /\ forall b v, (b, v) ∈ voted -> vt_gc_round votes < round b -> reference b ∈ reference <$> log.*1.

(** What the finalizer processed, with the trackers it read. *)
Definition history_of {S} (ctx : Context) (events : list (finalizer_event S)) (H : history) : Prop :=
  H.*2 = commits_of events
  /\ forall k votes sd, H !! k = Some (votes, sd) ->
       committee (vt_context votes) = committee ctx
       /\ exists l1 dag l2, events = l1 ++ Committed dag sd :: l2 /\ length (commits_of l1) = k
            /\ knows (tracked_blocks l1) votes.

Section invariant.
Context {S : Type} {ST : Store S} {SL : StoreLaws S}.
Context (ctx : Context) (Hc : committee_wf (committee ctx)).
Context (Hvoting : transaction_voting_enabled (protocol_config ctx) = true).
Notation c := (committee ctx).

(** The GC round of the tracker is that of the last commit that was output. *)
Definition tracker_gc (sds : list CommittedSubDag) (o : nat) : N :=
  match o with
  | O => 0
  | Datatypes.S o => match sds !! o with Some sd => context_gc_round ctx (sub_round sd) | None => 0 end
  end.

Record node_inv (all : list CommittedSubDag) (events : list (finalizer_event S)) (st : FinalizerNode) (H : history) : Prop := {
  ni_history : history_of ctx events H;
  ni_fin : fin_inv ctx H (length (fh_sent st.2)) st.1.1;
  ni_sender : fh_open st.2 = true;
  ni_outputs : outputs_ok ctx H 0 (fh_sent st.2);
  ni_context : committee (vt_context st.1.2) = c;
  ni_gc : vt_gc_round st.1.2 = tracker_gc all (length (fh_sent st.2));
  ni_log : knows (tracked_blocks events) st.1.2;
}.

Lemma above_tracker_gc all j sd b o :
  fresh_stream ctx all -> all !! j = Some sd -> b ∈ sd_blocks sd -> (o <= j)%nat -> tracker_gc all o < round b.
Proof.
  intros F Hj Hb Ho. assert (0 < round b) as Hpos.
  { apply (wb_round c b), (so_wf _ _ (fs_stream _ _ F)). apply pool_position. by exists j, sd. }
  destruct o as [|o]; [done|]. simpl. destruct (all !! o) as [sdo|] eqn:Eo; [|done].
  destruct j as [|j]; [lia|]. destruct (lookup_lt_is_Some_2 all j) as [prev Hprev]; [apply lookup_lt_Some in Hj; lia|].
  pose proof (fs_above _ _ F j prev sd b Hprev Hj Hb) as Habove.
  destruct (decide (o = j)) as [->|Hne]; [by simplify_eq|].
  pose proof (rounds_increase ctx all o j sdo prev (fs_stream _ _ F) Eo Hprev ltac:(lia)).
  pose proof (gc_round_mono ctx (sub_round sdo) (sub_round prev) ltac:(lia)). lia.
Qed.

Lemma node_inv_start all : node_inv all [] (finalizer_start ctx) [].
Proof.
  constructor; cbn [finalizer_start fst snd fh_sent fh_open].
  - split; [done|]. by intros k votes sd.
  - apply fin_inv_start.
  - done.
  - apply outputs_nil.
  - done.
  - done.
  - exists []. split_and!; [|set_solver|intros b v Hin; inversion Hin].
    constructor; cbn; [constructor| | | |].
    + intros r info. by rewrite lookup_empty.
    + intros r _. rewrite lookup_empty. split; [by intros []|]. intros [Hr|(b & Hb & _)]; [inversion Hr|inversion Hb].
    + intros r info. by rewrite lookup_empty.
    + intros r info. by rewrite lookup_empty.
Qed.

Lemma history_snoc (events : list (finalizer_event S)) e H :
  history_of ctx events H -> commits_of [e] = [] -> history_of ctx (events ++ [e]) H.
Proof.
  intros [Hs Hh] He. split; [by rewrite commits_app, He, app_nil_r|]. intros k votes sd Hk.
  destruct (Hh k votes sd Hk) as (Hctx & l1 & dag & l2 & -> & Hl & Hkn). split; [done|].
  exists l1, dag, (l2 ++ [e]). split_and!; try done. by rewrite <- app_assoc.
Qed.

Lemma knows_voted voted votes b v :
  committee_wf (committee (vt_context votes)) -> is_valid_index (committee (vt_context votes)) (author b) = true ->
  knows voted votes ->
  exists votes', add_voted_block votes (b, v) = Ok votes' /\ vt_context votes' = vt_context votes
    /\ vt_gc_round votes' = vt_gc_round votes /\ knows (voted ++ [(b, v)]) votes'.
Proof.
  intros Hcv Hv (log & Hl & Hsub & Hlog).
  destruct (add_voted_block_Ok log votes b v Hcv Hv Hl) as (votes' & E & Ectx & Egc & Hl').
  exists votes'. split_and!; try done. eexists. split; [exact Hl'|]. unfold log_voted. cbn [fst]. rewrite Egc. split.
  - destruct (_ || _); set_solver.
  - intros b' v' Hin Hr. assert (forall r, r ∈ reference <$> log.*1 -> r ∈ reference <$> (log ++ [(b, v)]).*1) as Hkeep.
    { intros r Hin'. rewrite refs_snoc. apply elem_of_app. by left. }
    apply elem_of_app in Hin as [Hin|[= -> ->]%list_elem_of_singleton].
    + specialize (Hlog b' v' Hin Hr). destruct (_ || _); auto.
    + rewrite (proj2 (N.leb_gt _ _) Hr). cbn [orb]. case_bool_decide as Hin; [done|]. rewrite refs_snoc. apply elem_of_app. right. by left.
Qed.

Lemma node_tracked all events st H b v :
  is_valid_index c (author b) = true -> node_inv all events st H ->
  exists st', finalizer_step st (Tracked (b, v)) = Ok st' /\ node_inv all (events ++ [Tracked (b, v)]) st' H.
Proof.
  intros Hv I. destruct st as [[self votes] sender]. cbn [finalizer_step].
  pose proof (ni_context _ _ _ _ I) as Ec. pose proof (ni_gc _ _ _ _ I) as Eg. cbn [fst snd] in *.
  destruct (knows_voted (tracked_blocks events) votes b v) as (votes' & -> & Ectx & Egc & Hk);
    [by rewrite Ec..|apply (ni_log _ _ _ _ I)|].
  cbn [mbind outcome_bind]. eexists. split; [done|].
  constructor; cbn [fst snd]; try apply I.
  - apply history_snoc; [apply (ni_history _ _ _ _ I)|done].
  - by rewrite Ectx.
  - by rewrite Egc.
  - by rewrite tracked_app.
Qed.

Lemma add_finalized_keeps outs : forall (dag : DagState S),
  dag_inv dag -> persist_inv dag ->
  let dag' := foldl (fun dag commit => add_finalized_commit dag (sd_commit_ref commit) (rejected_transactions_by_block commit)) dag outs in
  dag_inv dag' /\ persist_inv dag'.
Proof.
  induction outs as [|x outs IH]; intros dag D P; [done|]. cbn [foldl]. apply IH.
  - apply (dag_inv_ext dag); try done. apply (di_clock dag D).
  - by apply (persist_inv_ext dag).
Qed.

(** The tracker forgets what the commits that were output decided. *)
Lemma gc_after_output dag votes sds sd outs last_out :
  protocol_config (ds_context dag) = protocol_config ctx -> sub_round sd <= last_commit_round dag ->
  last outs = Some last_out -> sub_round last_out <= sub_round sd ->
  dag_inv dag -> persist_inv dag ->
  exists dag', (votes ← try_update_gc_round votes dag (br_round (sd_leader last_out));
    dag ← flush (foldl (fun dag commit => add_finalized_commit dag (sd_commit_ref commit) (rejected_transactions_by_block commit)) dag sds);
    Ok (votes, dag)) = Ok (update_gc_round votes (context_gc_round ctx (sub_round last_out)), dag' : DagState S).
Proof.
  intros Hcfg Hle Hlast Hr D P. unfold try_update_gc_round, run_gc, gc_round, calculate_gc_round.
  rewrite Hcfg. change (br_round (sd_leader last_out)) with (sub_round last_out).
  change (saturating_sub ?x (gc_depth (protocol_config ctx))) with (context_gc_round ctx x).
  rewrite (proj2 (N.leb_le _ _)) by (apply gc_round_mono; lia). cbn [assert_that mbind outcome_bind].
  destruct (add_finalized_keeps sds dag D P) as [D' P'].
  destruct (flush_Ok _ D' P') as (dag' & -> & _). by exists dag'.
Qed.

Lemma outputs_commit H o outs j x :
  outputs_ok ctx H o outs -> outs !! j = Some x -> exists cs, x = finalized_commit cs /\ H.*2 !! (o + j)%nat = Some (cs_commit cs).
Proof. intros Ho Hj. destruct (Ho j x Hj) as (cs & -> & Hs & _). exists cs. split; [done|]. apply (st_commit _ _ _ _ Hs). Qed.

Lemma tracker_gc_mono all o o' :
  fresh_stream ctx all -> (o <= o' <= length all)%nat -> tracker_gc all o <= tracker_gc all o'.
Proof.
  intros F Ho. destruct o as [|o]; [simpl; lia|]. destruct o' as [|o']; [lia|]. simpl.
  destruct (lookup_lt_is_Some_2 all o) as [x Ex]; [lia|]. destruct (lookup_lt_is_Some_2 all o') as [y Ey]; [lia|].
  rewrite Ex, Ey. destruct (decide (o = o')) as [->|Hne]; [simplify_eq; lia|].
  pose proof (rounds_increase ctx all o o' x y (fs_stream _ _ F) Ex Ey ltac:(lia)). apply gc_round_mono. lia.
Qed.

Lemma pending_tracked all events st H sd j sdi :
  fresh_stream ctx all -> (exists l, all = H.*2 ++ sd :: l) -> node_inv all events st H ->
  (forall l1 dag sd' l2 b, events = l1 ++ Committed dag sd' :: l2 -> b ∈ sd_blocks sd' ->
     reference b ∈ reference <$> (tracked_blocks l1).*1) ->
  (forall b, b ∈ sd_blocks sd -> reference b ∈ reference <$> (tracked_blocks events).*1) ->
  (length (fh_sent st.2) <= j)%nat -> (H ++ [(st.1.2, sd)]).*2 !! j = Some sdi -> tracked st.1.2 sdi.
Proof.
  intros F [l Hall] I Hev Hsd Hj Ej. assert (all !! j = Some sdi) as Ea.
  { rewrite Hall, cons_middle, app_assoc. apply lookup_app_l_Some. by rewrite fmap_app in Ej. }
  destruct (ni_log _ _ _ _ I) as (log & Hl & Hsub & Hlog). destruct (ni_history _ _ _ _ I) as [Hs Hh].
  intros b Hb. assert (reference b ∈ reference <$> (tracked_blocks events).*1) as Hin.
  { rewrite fmap_app in Ej. apply lookup_app_Some in Ej as [Ej|[Hle Ej]].
    - rewrite list_lookup_fmap in Ej. apply fmap_Some in Ej as ([votes sdk] & Ek & ->).
      destruct (Hh j votes sdk Ek) as (_ & l1 & dag & l2 & E & _). specialize (Hev l1 dag sdk l2 b E Hb).
      rewrite E, tracked_app, !fmap_app. apply elem_of_app. by left.
    - apply list_lookup_singleton_Some in Ej as [_ Ej]. simpl in Ej. subst sdi. by apply Hsd. }
  apply list_elem_of_fmap in Hin as (y & Ey & ([y' v] & -> & Hy)%list_elem_of_fmap). simpl in Ey.
  pose proof (above_tracker_gc all j sdi b _ F Ea Hb Hj) as Hgc. rewrite <- (ni_gc _ _ _ _ I) in Hgc.
  apply (tv_entry _ _ Hl); [done|left]. rewrite Ey. apply (Hlog y' v Hy).
  change (round y') with (br_round (reference y')). by rewrite <- Ey.
Qed.

(** The GC round of the tracker after the outputs of a commit. *)
Definition votes_after (votes : VoteTrackerState) (outs : list CommittedSubDag) : VoteTrackerState :=
  match last outs with
  | Some x => update_gc_round votes (context_gc_round ctx (sub_round x))
  | None => votes
  end.

Lemma votes_after_gc all H votes sent outs :
  (forall i sdi, H.*2 !! i = Some sdi -> all !! i = Some sdi) -> outputs_ok ctx H (length sent) outs ->
  vt_gc_round votes = tracker_gc all (length (sent : list CommittedSubDag)) ->
  vt_gc_round (votes_after votes outs) = tracker_gc all (length (sent ++ outs)).
Proof.
  intros Hall Hout Hg. rewrite length_app. unfold votes_after. destruct (last outs) as [x|] eqn:El.
  - rewrite last_lookup in El. destruct (outputs_commit H (length sent) outs _ _ Hout El) as (cs & -> & Hcs).
    destruct outs as [|y outs]; [done|]. cbn [update_gc_round vt_gc_round].
    replace (length sent + length (y :: outs))%nat with (Datatypes.S (length sent + pred (length (y :: outs)))) by (simpl; lia).
    simpl. simpl in Hcs. by rewrite (Hall _ _ Hcs).
  - apply last_None in El as ->. by rewrite Nat.add_0_r.
Qed.

Lemma votes_after_knows voted votes outs :
  vt_gc_round votes <= vt_gc_round (votes_after votes outs) -> knows voted votes -> knows voted (votes_after votes outs).
Proof.
  unfold votes_after. destruct (last outs) as [x|]; [|done]. cbn [update_gc_round vt_gc_round].
  intros Hle (log & Hl & Hsub & Hlog). exists log. split_and!; [by apply update_gc_round_tracks|done|].
  intros b v Hin Hr. apply (Hlog b v Hin). cbn [update_gc_round vt_gc_round] in Hr. lia.
Qed.

(** What follows the processing of a commit. *)
Lemma after_outputs H dag votes sd outs o :
  stream_ok c (H ++ [(votes, sd)]).*2 -> outputs_ok ctx (H ++ [(votes, sd)]) o outs ->
  protocol_config (ds_context dag) = protocol_config ctx -> sub_round sd <= last_commit_round dag ->
  dag_inv dag -> persist_inv dag ->
  exists dag', match last outs with
    | None => Ok (votes, dag)
    | Some last_finalized =>
        votes ← try_update_gc_round votes dag (br_round (sd_leader last_finalized));
        dag ← flush (foldl (fun dag commit => add_finalized_commit dag (sd_commit_ref commit) (rejected_transactions_by_block commit)) dag outs);
        Ok (votes, dag)
    end = Ok (votes_after votes outs, dag' : DagState S).
Proof.
  intros W Hout Hcfg Hle D P. unfold votes_after. destruct (last outs) as [x|] eqn:El; [|by exists dag].
  pose proof El as El'. rewrite last_lookup in El'. destruct (outputs_commit _ o outs _ _ Hout El') as (cs & -> & Hcs).
  apply (gc_after_output dag votes outs sd outs _); try done.
  change (sub_round (finalized_commit cs)) with (sub_round (cs_commit cs)). pose proof (history_last H votes sd) as Hend.
  destruct (decide (o + pred (length outs) = length H)%nat) as [E|E]; [rewrite E, Hend in Hcs; injection Hcs as <-; lia|].
  apply lookup_lt_Some in Hcs as Hlt. rewrite length_fmap, length_app in Hlt. simpl in Hlt.
  pose proof (rounds_increase ctx _ _ _ _ _ W Hcs Hend ltac:(lia)). lia.
Qed.

Lemma node_committed all events st H dag sd :
  fresh_stream ctx all -> (exists l, all = H.*2 ++ sd :: l) -> node_inv all events st H ->
  dag_inv dag -> persist_inv dag -> protocol_config (ds_context dag) = protocol_config ctx -> sub_round sd <= last_commit_round dag ->
  (forall l1 dag sd' l2 b, events = l1 ++ Committed dag sd' :: l2 -> b ∈ sd_blocks sd' ->
     reference b ∈ reference <$> (tracked_blocks l1).*1) ->
  (forall b, b ∈ sd_blocks sd -> reference b ∈ reference <$> (tracked_blocks events).*1) ->
  exists st', finalizer_step st (Committed dag sd) = Ok st'
    /\ node_inv all (events ++ [Committed dag sd]) st' (H ++ [(st.1.2, sd)]).
Proof.
  intros F Hall I D P Hcfg Hle Hev Hsd. destruct st as [[self votes] [open sent]]. cbn [finalizer_step].
  pose proof (ni_sender _ _ _ _ I) as Hopen. cbn [fst snd fh_open] in Hopen. subst open.
  assert (stream_ok c (H ++ [(votes, sd)]).*2) as W.
  { destruct Hall as [l Hl]. apply (stream_prefix c _ l). rewrite fmap_app, <- app_assoc. simpl. rewrite <- Hl. apply (fs_stream _ _ F). }
  pose proof (fs_fresh _ _ F sd) as [Hrej Hrec]; [destruct Hall as [l ->]; set_solver|].
  unfold finalizer_receive. pose proof (ni_fin _ _ _ _ I) as If. cbn [fst snd fh_sent] in If.
  rewrite (fi_context _ _ _ _ If), Hvoting, Hrec. cbn [negb orb].
  destruct (process_commit_Ok ctx Hc H votes sd W (length sent) self If) as (self' & outs & -> & If' & Hout).
  { intros j sdi Hj Ej. exact (pending_tracked all events _ H sd j sdi F Hall I Hev Hsd Hj Ej). }
  cbn [mbind outcome_bind]. destruct (after_outputs H dag votes sd outs _ W Hout Hcfg Hle D P) as [dag' ->].
  cbn [mbind outcome_bind]. rewrite send_all_Ok. eexists. split; [done|].
  assert (forall i sdi, (H ++ [(votes, sd)]).*2 !! i = Some sdi -> all !! i = Some sdi) as Hin_all.
  { destruct Hall as [l ->]. intros i sdi Hi. rewrite cons_middle, app_assoc. apply lookup_app_l_Some. by rewrite fmap_app in Hi. }
  pose proof (votes_after_gc all _ votes sent outs Hin_all Hout (ni_gc _ _ _ _ I)) as Egc.
  assert (tracked_blocks (events ++ [Committed dag sd]) = tracked_blocks events) as Etr by (rewrite tracked_app; apply app_nil_r).
  destruct (ni_history _ _ _ _ I) as [Hs Hh]. pose proof (ni_context _ _ _ _ I) as Ectx. cbn [fst snd fh_sent] in *.
  constructor; cbn [fst snd fh_sent fh_open].
  - split; [rewrite fmap_app, commits_app, Hs; done|]. intros k vk sdk Hk. apply lookup_app_Some in Hk as [Hk|[Hge Hk]].
    + destruct (Hh k vk sdk Hk) as (? & l1 & d & l2 & -> & ? & ?). split; [done|]. exists l1, d, (l2 ++ [Committed dag sd]).
      split_and!; try done. by rewrite <- app_assoc.
    + apply list_lookup_singleton_Some in Hk as [Hz [= <- <-]]. split; [done|]. exists events, dag, []. split_and!; [done| |apply (ni_log _ _ _ _ I)].
      rewrite <- Hs, length_fmap. lia.
  - by rewrite length_app.
  - done.
  - apply outputs_app; [by apply outputs_snoc, (ni_outputs _ _ _ _ I)|done].
  - unfold votes_after. by destruct (last outs).
  - done.
  - rewrite Etr. apply votes_after_knows; [|apply (ni_log _ _ _ _ I)]. rewrite Egc. pose proof (ni_gc _ _ _ _ I) as Eg. cbn [fst snd fh_sent] in Eg. rewrite Eg.
    apply tracker_gc_mono; [done|]. rewrite length_app. pose proof (fi_count _ _ _ _ If') as Hcnt.
    destruct Hall as [l ->]. rewrite !length_app, length_fmap in *. simpl in *. lia.
Qed.

Lemma finalizer_run_Ok events l1 l2 :
  node_events ctx events -> events = l1 ++ l2 ->
  exists st H, foldM finalizer_step l1 (finalizer_start ctx) = Ok st /\ node_inv (commits_of events) l1 st H.
Proof.
  intros N. revert l2. induction l1 as [|e l1 IH] using rev_ind; intros l2 E.
  { exists (finalizer_start ctx), []. split; [done|apply node_inv_start]. }
  rewrite <- app_assoc in E. destruct (IH _ E) as (st & H & Ef & I). rewrite foldM_app, Ef. cbn [mbind outcome_bind app foldM] in *.
  pose proof (ne_stream _ _ N) as F. destruct e as [[b v]|dag sd].
  - destruct (node_tracked (commits_of events) l1 st H b v) as (st' & -> & I'); [|done|].
    + apply (ne_voted _ _ N b v). rewrite E, tracked_app. apply elem_of_app. right. by left.
    + by exists st', H.
  - destruct (ne_dag _ _ N l1 dag sd l2 E) as (D & P & Hcfg & Hle & Hsd).
    destruct (node_committed (commits_of events) l1 st H dag sd F) as (st' & -> & I'); try done; [| |by eexists _, _].
    2:{ intros k1 d sd' k2 b E' Hb. destruct (ne_dag _ _ N k1 d sd' (k2 ++ Committed dag sd :: l2)) as (_ & _ & _ & _ & Ht); [|by apply Ht].
        by rewrite E, E', <- app_assoc. }
    exists (commits_of l2). destruct (ni_history _ _ _ _ I) as [-> _]. by rewrite E, commits_app.
Qed.
End invariant.

Lemma output_verdict ctx H i cs b t :
  state_ok ctx H i cs -> is_final cs -> rejected_transactions_by_block (cs_commit cs) = ∅ ->
  b ∈ sd_blocks (cs_commit cs) -> t < num_transactions b ->
  (rejected_in (finalized_commit cs) (reference b) t /\ reject_justified ctx H i (reference b) t)
  \/ (~ rejected_in (finalized_commit cs) (reference b) t /\ final_justified ctx H i b t).
Proof.
  intros St [Fb Fp] Hrej Hb Ht.
  assert (rejected_in (finalized_commit cs) (reference b) t <-> t ∈ rejected_of cs (reference b)) as Hiff.
  { unfold rejected_in, rejected_of. rewrite finalized_rejected by done.
    destruct (cs_rejected_transactions cs !! reference b) as [s|]; simpl; [apply elem_of_btree_iter|].
    rewrite elem_of_nil. set_solver. }
  rewrite Hiff. destruct (decide (t ∈ rejected_of cs (reference b))) as [Hr|Hr]; [left|right]; (split; [done|]).
  - by apply (st_rejected _ _ _ _ St).
  - apply (st_final _ _ _ _ St); try done. unfold pending_of. rewrite Fp, lookup_empty. simpl. set_solver.
Qed.

(* ------------------------------------------------------------------ *)
(** ** Properties *)

(** C9: The finalizer decides every transaction for a reason.  Whatever the
    interleaving of tracked blocks and commits, it returns from every call.
    Its output is the commits it received, in order and unchanged but for the
    verdicts.  A transaction of the output is rejected only if a quorum
    rejected it, or if the committed blocks up to the first leader three rounds
    above hold no quorum of accept votes; it is finalized only if it had no
    reject vote when its leader was certified, or if the committed blocks hold
    a quorum of accept votes. *)
Theorem finalizer_verdicts {S} `{StoreLaws S} (ctx : Context) (events : list (finalizer_event S)) :
  committee_wf (committee ctx) -> transaction_voting_enabled (protocol_config ctx) = true -> node_events ctx events ->
  exists self votes sender H,
    foldM finalizer_step events (finalizer_start ctx) = Ok (self, votes, sender)
    /\ history_of ctx events H
    /\ without_verdicts <$> fh_sent sender = take (length (fh_sent sender)) (commits_of events)
    /\ forall i o b t, fh_sent sender !! i = Some o -> b ∈ sd_blocks o -> t < num_transactions b ->
       (rejected_in o (reference b) t /\ reject_justified ctx H i (reference b) t)
       \/ (~ rejected_in o (reference b) t /\ final_justified ctx H i b t).
Proof.
  intros Hc Hv N. destruct (finalizer_run_Ok ctx Hc Hv events events [] N) as ([[self votes] sender] & H1 & E & I); [by rewrite app_nil_r|].
  exists self, votes, sender, H1. pose proof (ni_history _ _ _ _ _ I) as Hh. split_and!; [done|done| |].
  - apply list_eq. intros i. rewrite list_lookup_fmap. destruct (fh_sent sender !! i) as [o|] eqn:Ei.
    + destruct (ni_outputs _ _ _ _ _ I i o Ei) as (cs & -> & St & _). pose proof (st_commit _ _ _ _ St) as Hi.
      rewrite lookup_take_lt by by apply lookup_lt_Some in Ei. rewrite (proj1 Hh) in Hi. simpl in Hi. rewrite Hi. simpl. f_equal.
      apply finalized_same, (fs_fresh _ _ (ne_stream _ _ N)). by eapply list_elem_of_lookup_2.
    + symmetry. apply lookup_take_ge. by apply lookup_ge_None.
  - intros i o b t Ei Hb Ht. destruct (ni_outputs _ _ _ _ _ I i o Ei) as (cs & -> & St & Hf).
    apply output_verdict; try done. apply (fs_fresh _ _ (ne_stream _ _ N)). pose proof (st_commit _ _ _ _ St) as Hi.
    rewrite (proj1 Hh) in Hi. by eapply list_elem_of_lookup_2.
Qed.

(** C15: The finalizer is not late.  In the same runs, a commit has been output
    by the time a commit whose leader is three or more rounds above it has been
    processed: no transaction waits longer than that for its verdict, however
    the votes on it are split. *)
Theorem finalizer_bounded_delay {S} `{StoreLaws S} (ctx : Context) (events : list (finalizer_event S)) :
  committee_wf (committee ctx) -> transaction_voting_enabled (protocol_config ctx) = true -> node_events ctx events ->
  exists self votes sender,
    foldM finalizer_step events (finalizer_start ctx) = Ok (self, votes, sender)
    /\ forall i sd sdl, commits_of events !! i = Some sd -> last (commits_of events) = Some sdl ->
         sub_round sd + 3 <= sub_round sdl -> (i < length (fh_sent sender))%nat.
Proof.
  intros Hc Hv N. destruct (finalizer_run_Ok ctx Hc Hv events events [] N) as ([[self votes] sender] & H1 & E & I); [by rewrite app_nil_r|].
  exists self, votes, sender. split; [done|]. intros i sd sdl Hi Hl Hle. rewrite <- (proj1 (ni_history _ _ _ _ _ I)) in Hi, Hl.
  destruct (le_lt_dec (length (fh_sent sender)) i) as [Hge|?]; [|done]. exfalso. pose proof (ni_fin _ _ _ _ _ I) as F. cbn [fst snd] in F.
  assert (sd ∈ cs_commit <$> fz_pending_commits self) as (cs & -> & Hcs)%list_elem_of_fmap.
  { rewrite (fi_pending _ _ _ _ F). apply list_elem_of_lookup. exists (i - length (fh_sent sender))%nat. rewrite lookup_drop.
    by replace (length (fh_sent sender) + (i - length (fh_sent sender)))%nat with i by lia. }
  pose proof (fi_recent _ _ _ _ F cs sdl Hcs Hl). lia.
Qed.

(** The links of a stream, made commit by commit as the finalizer does. *)
Definition link_commits (sds : list CommittedSubDag) : outcome (gmap BlockRef BlockState) :=
  foldM (fun m sd => foldM append_origin_descendant (by_round (sd_blocks sd))
                       (foldl (link_block (sub_index sd)) m (by_round (sd_blocks sd)))) sds ∅.

Lemma link_commits_Ok c sds :
  committee_wf c -> stream_ok c sds -> exists m, link_commits sds = Ok m /\ links_ok sds m.
Proof.
  intros Hc. induction sds as [|sd sds IH] using rev_ind; intros W; [exists ∅; split; [done|apply links_nil]|].
  destruct (IH (stream_prefix c sds [sd] W)) as (m & E & Lk). destruct (link_last_Ok c Hc sds sd m W Lk) as (m' & E' & Lk').
  exists m'. split; [|done]. unfold link_commits in *. rewrite foldM_app, E. cbn [mbind outcome_bind foldM]. by rewrite E'.
Qed.

(** C16: The search for accept votes is equivalent to its declarative
    definition.  Over the links of a stream of commits, the traversal for a
    block of the first commit returns, and finalizes exactly the pending
    transactions that a quorum of authorities accepts: each with its first
    block above the block in question, when that block does not reject the
    transaction and its votes cannot have been dropped by garbage
    collection. *)
Theorem indirect_finalization_equiv (ctx : Context) (first : CommittedSubDag) (rest : list CommittedSubDag)
    (b : VerifiedBlock) (pending : gset N) :
  committee_wf (committee ctx) -> stream_ok (committee ctx) (first :: rest) -> b ∈ sd_blocks first ->
  exists m finalized,
    link_commits (first :: rest) = Ok m
    /\ try_indirect_finalize_pending_transactions_in_block ctx m
         ((fun sd => (sub_index sd, context_gc_round ctx (sub_round sd))) <$> first :: rest) (reference b) pending
       = Ok finalized
    /\ forall t, t ∈ finalized <-> t ∈ pending /\ accepted_in ctx (first :: rest) (reference b) t.
Proof.
  intros Hc W Hb. destruct (link_commits_Ok _ _ Hc W) as (m & E & Lk).
  destruct (indirect_finalize_Ok ctx Hc first rest m W Lk b Hb pending) as (fin & Ef & Hf). by exists m, fin.
Qed.
