(* ===== verification/FinalizerSample.v ===== *)
(** * A run of the commit finalizer

    Blocks with transactions and votes on them, the commits of their leaders,
    and a node that tracks the blocks and finalizes the commits: one
    transaction is rejected by a quorum, one is finalized by the accept votes
    of committed blocks, one without a reject vote, and one is rejected because
    the votes on it stay split. *)

From S2P Require Import Prelude Committee Context Block StakeAggregator ThresholdClock Commit Error Store LeaderScoring DagState VoteTracker DagInv Evolve DagOps DagLink DagAccept SampleDag CommitObserver CommitFinalizer FinalizerVotes FinalizerLinks FinalizerAccept FinalizerInv FinalizerRun FinalizerTheorems.

(* ------------------------------------------------------------------ *)
(** ** Streams can be checked *)

Definition stream_check (c : Committee) (base : N) (sds : list CommittedSubDag) : Prop :=
  Forall (fun sd => sd_blocks sd <> [] /\ 0 < sub_index sd <= u32_MAX /\ sub_round sd + 3 <= u32_MAX) sds
  /\ Forall (fun b => wf_block c b /\ N.of_nat (length (transactions b)) <= u16_MAX) (pool sds)
  /\ NoDup (reference <$> pool sds)
  /\ sub_index <$> sds = (fun i => base + N.of_nat i) <$> seq 0 (length sds)
  /\ StronglySorted N.lt (sub_round <$> sds)
  /\ Forall (fun i => Forall (fun x => Forall (fun y => reference x ∉ ancestors y) (pool (take i sds))) (pool (drop i sds)))
       (seq 0 (S (length sds))).

#[global] Instance stream_check_dec c base sds : base.Decision (stream_check c base sds).
Proof. unfold stream_check. apply _. Defined.

Lemma strongly_sorted_fmap {A B} (R : B -> B -> Prop) (f : A -> B) l :
  StronglySorted R (f <$> l) -> StronglySorted (fun x y => R (f x) (f y)) l.
Proof.
  induction l as [|x l IH]; intros Hs; [by constructor|]. cbn [fmap list_fmap] in Hs. apply StronglySorted_inv in Hs as [Hs Hx].
  constructor; [by apply IH|]. by rewrite Forall_fmap in Hx.
Qed.

Lemma stream_check_ok c base sds : stream_check c base sds -> stream_ok c sds.
Proof.
  intros (Hb & Hw & Hnd & Hi & Hs & Hca). rewrite !Forall_forall in *. constructor.
  - intros sd Hsd. by apply (Hb sd Hsd).
  - intros b Hin. by apply (Hw b Hin).
  - intros b Hin. by apply (Hw b Hin).
  - done.
  - assert (forall i sd, sds !! i = Some sd -> sub_index sd = base + N.of_nat i) as Hall.
    { intros i sd E. assert ((sub_index <$> sds) !! i = Some (sub_index sd)) as E1 by by rewrite list_lookup_fmap, E.
      pose proof (lookup_lt_Some _ _ _ E). rewrite Hi, list_lookup_fmap, lookup_seq_lt in E1 by done. simpl in E1. congruence. }
    intros i j sd sd' E E'. rewrite (Hall _ _ E), (Hall _ _ E'). lia.
  - by apply (strongly_sorted_fmap N.lt).
  - intros sd Hsd. by apply (Hb sd Hsd).
  - intros l1 l2 x y -> Hx Hy. specialize (Hca (length l1)). rewrite Forall_forall in Hca.
    rewrite take_app_length, drop_app_length in Hca. specialize (Hca ltac:(apply elem_of_seq; rewrite length_app; lia) x Hx).
    rewrite Forall_forall in Hca. by apply Hca.
Qed.

(** A commit carries no verdict yet, and is above the GC round of the one
    before it. *)
Fixpoint fresh_check (ctx : Context) (gc : option N) (sds : list CommittedSubDag) : Prop :=
  match sds with
  | [] => True
  | sd :: sds =>
      map_to_list (rejected_transactions_by_block sd) = [] /\ recovered_rejected_transactions sd = false
      /\ Forall (fun b => match gc with Some g => g < round b | None => True end) (sd_blocks sd)
      /\ fresh_check ctx (Some (context_gc_round ctx (sub_round sd))) sds
  end.

Lemma fresh_check_ok ctx base sds : stream_check (committee ctx) base sds -> fresh_check ctx None sds -> fresh_stream ctx sds.
Proof.
  intros Hs Hf. constructor; [by eapply stream_check_ok| |].
  - intros sd Hsd. revert Hf. generalize (@None N). clear Hs. induction sds as [|x sds IH]; intros gc Hf; [inversion Hsd|].
    destruct Hf as (Hr & Hrec & _ & Hf). apply elem_of_cons in Hsd as [->|Hsd]; [|by eapply IH].
    by rewrite map_to_list_empty_iff in Hr.
  - intros j sd sd' b Ej Ej' Hb. revert Hf. generalize (@None N). clear Hs. revert j Ej Ej'.
    induction sds as [|x sds IH]; intros j Ej Ej' gc Hf; [done|]. destruct Hf as (_ & _ & _ & Hf). destruct j as [|j].
    + injection Ej as ->. destruct sds as [|y sds]; [done|]. injection Ej' as ->. destruct Hf as (_ & _ & Hf & _).
      rewrite Forall_forall in Hf. by apply Hf.
    + by eapply IH.
Qed.

(** Commits come after their blocks were tracked. *)
Fixpoint tracked_first {S} (seen : list BlockRef) (events : list (finalizer_event S)) : Prop :=
  match events with
  | [] => True
  | Tracked (b, _) :: events => tracked_first (reference b :: seen) events
  | Committed _ sd :: events => Forall (fun b => reference b ∈ seen) (sd_blocks sd) /\ tracked_first seen events
  end.

#[global] Instance tracked_first_dec {S} seen (events : list (finalizer_event S)) : base.Decision (tracked_first seen events).
Proof. revert seen. induction events as [|[[b v]|dag sd] events IH]; intros seen; simpl; apply _. Defined.

Lemma tracked_first_ok {S} events : forall (seen : list BlockRef) l1 dag sd l2 b,
  tracked_first (S := S) seen events -> events = l1 ++ Committed dag sd :: l2 -> b ∈ sd_blocks sd ->
  reference b ∈ seen \/ reference b ∈ reference <$> (tracked_blocks l1).*1.
Proof.
  induction events as [|e events IH]; intros seen l1 dag sd l2 b Hf E Hb; [by destruct l1|].
  destruct l1 as [|e' l1]; injection E as -> ->.
  - destruct Hf as [Hf _]. rewrite Forall_forall in Hf. left. by apply Hf.
  - destruct e' as [[x v]|dag' sd']; simpl in Hf.
    + destruct (IH _ l1 dag sd l2 b Hf eq_refl Hb) as [[->|?]%elem_of_cons|?]; [right; by left|by left|right; by right].
    + destruct (IH _ l1 dag sd l2 b (proj2 Hf) eq_refl Hb) as [?|?]; [by left|by right].
Qed.

(** A node whose commits come with the same DAG state. *)
Lemma node_events_check {S} `{StoreLaws S} ctx base (dag : DagState S) (events : list (finalizer_event S)) :
  stream_check (committee ctx) base (commits_of events) -> fresh_check ctx None (commits_of events) ->
  Forall (fun b => is_valid_index (committee ctx) (author b) = true) (tracked_blocks events).*1 ->
  tracked_first [] events -> dag_inv dag -> persist_inv dag -> protocol_config (ds_context dag) = protocol_config ctx ->
  Forall (fun sd => sub_round sd <= last_commit_round dag) (commits_of events) ->
  (forall l1 dag' sd l2, events = l1 ++ Committed dag' sd :: l2 -> dag' = dag) -> node_events ctx events.
Proof.
  intros Hs Hf Hv Ht D P Hcfg Hr Hd. rewrite !Forall_forall in *. constructor.
  - by eapply fresh_check_ok.
  - intros b v Hin. apply Hv. by apply (list_elem_of_fmap_2 fst) in Hin.
  - intros l1 dag' sd l2 E. rewrite (Hd _ _ _ _ E). split_and!; try done.
    + apply Hr. rewrite E, commits_app. apply elem_of_app. right. by left.
    + intros b Hb. by destruct (tracked_first_ok events [] l1 dag' sd l2 b Ht E Hb) as [?%not_elem_of_nil|?].
Qed.

(* ------------------------------------------------------------------ *)
(** ** The sample *)

(** The block of authority 2 in round 3 has four transactions. *)
Definition poll_ref : BlockRef := sample_ref 3 2.

Definition poll_transactions (r a : N) : list Transaction :=
  if (r =? 3) && (a =? 2) then repeat (mkTransaction []) 4 else [].

(** Round 4 votes: transaction 0 is rejected by three authorities, 1 by one,
    2 by none, and 3 by two. *)
Definition poll_votes (r a : N) : list BlockTransactionVotes :=
  if negb (r =? 4) then [] else
  if a =? 0 then [mkBlockTransactionVotes poll_ref [0; 1; 3]] else
  if a =? 1 then [mkBlockTransactionVotes poll_ref [0; 3]] else
  if a =? 3 then [mkBlockTransactionVotes poll_ref [0]] else [].

Definition poll_block (r a : N) : VerifiedBlock :=
  {| vb_block := {| inner := V2 {| v2_epoch := 0; v2_round := r; v2_author := a; v2_timestamp_ms := 1000 * r + a;
                                   v2_ancestors := sample_ancestors r a; v2_transactions := poll_transactions r a;
                                   v2_transaction_votes := poll_votes r a;
                                   v2_commit_votes := []; v2_misbehavior_reports := [] |};
                    signature := [] |};
     vb_digest := br_digest (sample_ref r a);
     vb_serialized := [] |}.

Definition poll_round (r : N) : list VerifiedBlock := poll_block r <$> sample_authors r.

(** The commit of the leader of round [r >= 3]: the rest of the round before
    and the leader; the first one has the rounds before as well. *)
Definition poll_leader (r : N) : N := (r + 3) mod 4.

Definition poll_commit (local : bool) (r : N) : CommittedSubDag :=
  let rest := List.filter (fun b => negb (author b =? poll_leader (r - 1))) (poll_round (r - 1)) in
  mkCommittedSubDag (sample_ref r (poll_leader r))
    ((if r =? 3 then poll_round 1 ++ poll_round 2 else rest) ++ [poll_block r (poll_leader r)])
    (1000 * r) (mkCommitRef (r - 2) (r - 2)) local false ∅.

(** A DAG state with a later commit. *)
Definition poll_dag : DagState MemStore :=
  match add_commit (sample 0 6) (sample_commit 1 5 (sample_ref 6 1) [sample_ref 6 1]) with
  | Ok s => s
  | _ => sample 0 6
  end.

(** A node that decides by itself tracks the certificates of a leader before it
    commits it, in the round two above; one that fetches the commits tracks
    their blocks only. *)
Definition poll_tracked (rs : list N) : list (finalizer_event MemStore) :=
  r ← rs; (fun b => Tracked (b, [])) <$> poll_round r.

Definition poll_events (local : bool) : list (finalizer_event MemStore) :=
  let ahead (r : N) := if local then r + 2 else r in
  poll_tracked (if local then [1; 2; 3; 4; 5] else [1; 2; 3])
  ++ Committed poll_dag (poll_commit local 3) :: poll_tracked [ahead 4]
  ++ Committed poll_dag (poll_commit local 4) :: poll_tracked [ahead 5]
  ++ Committed poll_dag (poll_commit local 5) :: poll_tracked [ahead 6]
  ++ [Committed poll_dag (poll_commit local 6)].

Lemma poll_dag_ok :
  dag_inv poll_dag /\ persist_inv poll_dag /\ ds_context poll_dag = sample_context 0 /\ last_commit_round poll_dag = 6.
Proof.
  unfold poll_dag. destruct (add_commit_Ok (sample 0 6) (sample_commit 1 5 (sample_ref 6 1) [sample_ref 6 1]) sample_inv)
    as (s' & E & D & Hl & _ & _ & Hctx & Hrb & _ & Hst & _);
    [by vm_compute..|intros r ->%list_elem_of_singleton; by vm_compute|by vm_compute|].
  pose proof (add_commit_rest _ _ _ E) as Hrest. rewrite E. clear E. unfold rest_fields in Hrest.
  apply pair_eq in Hrest as [[[[[_ Hs]%pair_eq Hb]%pair_eq Hcr]%pair_eq _]%pair_eq _].
  destruct (sample_ok 0 6 sample_causal) as (_ & _ & P & Hsc & _). split; [exact D|]. split; [|split].
  - apply (persist_inv_ext (sample 0 6) s' P); [|exact Hb|exact Hs|exact Hcr|].
    + intros r. unfold view. rewrite Hrb. reflexivity.
    + replace (gc_round (sample 0 6)) with 0 by by vm_compute. apply N.le_0_l.
  - rewrite Hctx. exact Hsc.
  - unfold last_commit_round. rewrite Hl. reflexivity.
Qed.

Lemma poll_commits local : commits_of (poll_events local) = poll_commit local <$> [3; 4; 5; 6].
Proof. by destruct local. Qed.

Lemma poll_node_events own local : node_events (sample_context own) (poll_events local).
Proof.
  destruct poll_dag_ok as (D & P & Hctx & Hr).
  apply (node_events_check _ 1 poll_dag); [| | | |exact D|exact P|by rewrite Hctx| |].
  - rewrite poll_commits. apply (bool_decide_eq_true_1 _). destruct local; vm_compute; reflexivity.
  - rewrite poll_commits. destruct local; vm_compute; repeat constructor.
  - apply (bool_decide_eq_true_1 _). destruct local; vm_compute; reflexivity.
  - apply (bool_decide_eq_true_1 _). destruct local; vm_compute; reflexivity.
  - rewrite Hr, poll_commits. apply (bool_decide_eq_true_1 _). destruct local; vm_compute; reflexivity.
  - intros l1 dag sd l2 E.
    assert (Forall (fun e => match e with Committed dag _ => dag = poll_dag | _ => True end) (poll_events local)) as Hall
      by (destruct local; repeat constructor).
    rewrite E in Hall. by apply Forall_app in Hall as [_ [Hall _]%Forall_cons].
Qed.

(** What the node outputs, as the rounds of the leaders with the rejected
    transactions. *)
Definition verdicts (run : outcome (FinalizerNode)) : list (N * list (BlockRef * list N)) :=
  match run with
  | Ok (_, _, sender) => (fun sd => (sub_round sd, map_to_list (rejected_transactions_by_block sd))) <$> fh_sent sender
  | _ => []
  end.

(** Transactions 0 and 3 of the block are rejected; a node that fetched the
    commits has output only the first one yet. *)
Lemma finalizer_verdicts_witness :
  verdicts (foldM finalizer_step (poll_events true) (finalizer_start (sample_context 0)))
    = [(3, [(poll_ref, [0; 3])]); (4, []); (5, []); (6, [])]
  /\ exists self votes sender H,
    foldM finalizer_step (poll_events true) (finalizer_start (sample_context 0)) = Ok (self, votes, sender)
    /\ history_of (sample_context 0) (poll_events true) H
    /\ without_verdicts <$> fh_sent sender = take (length (fh_sent sender)) (commits_of (poll_events true))
    /\ forall i o b t, fh_sent sender !! i = Some o -> b ∈ sd_blocks o -> t < num_transactions b ->
       (rejected_in o (reference b) t /\ reject_justified (sample_context 0) H i (reference b) t)
       \/ (~ rejected_in o (reference b) t /\ final_justified (sample_context 0) H i b t).
Proof.
  split; [vm_compute; reflexivity|].
  exact (finalizer_verdicts (sample_context 0) (poll_events true) test_committee_4_wf eq_refl (poll_node_events 0 true)).
Defined.

Lemma finalizer_bounded_delay_witness :
  verdicts (foldM finalizer_step (poll_events false) (finalizer_start (sample_context 0))) = [(3, [(poll_ref, [0; 3])])]
  /\ exists self votes sender,
    foldM finalizer_step (poll_events false) (finalizer_start (sample_context 0)) = Ok (self, votes, sender)
    /\ forall i sd sdl, commits_of (poll_events false) !! i = Some sd -> last (commits_of (poll_events false)) = Some sdl ->
         sub_round sd + 3 <= sub_round sdl -> (i < length (fh_sent sender))%nat.
Proof.
  split; [vm_compute; reflexivity|].
  exact (finalizer_bounded_delay (sample_context 0) (poll_events false) test_committee_4_wf eq_refl (poll_node_events 0 false)).
Defined.

(** Of the transactions 0, 1 and 3, the committed blocks accept 1. *)
Lemma indirect_finalization_equiv_witness :
  let first := poll_commit true 3 in
  let rest := poll_commit true <$> [4; 5; 6] in
  let gc_rounds := (fun sd => (sub_index sd, context_gc_round (sample_context 0) (sub_round sd))) <$> first :: rest in
  (m ← link_commits (first :: rest);
   try_indirect_finalize_pending_transactions_in_block (sample_context 0) m gc_rounds poll_ref {[0; 1; 3]}) = Ok [1]
  /\ exists m finalized,
    link_commits (first :: rest) = Ok m
    /\ try_indirect_finalize_pending_transactions_in_block (sample_context 0) m gc_rounds (reference (poll_block 3 2)) {[0; 1; 3]}
       = Ok finalized
    /\ forall t, t ∈ finalized <-> t ∈ ({[0; 1; 3]} : gset N)
         /\ accepted_in (sample_context 0) (first :: rest) (reference (poll_block 3 2)) t.
Proof.
  intros first rest gc_rounds. split; [vm_compute; reflexivity|].
  refine (indirect_finalization_equiv (sample_context 0) first rest (poll_block 3 2) {[0; 1; 3]} test_committee_4_wf _ _).
  - exact (fs_stream _ _ (ne_stream _ _ (poll_node_events 0 true))).
  - right; right; right; right; right; right; right; left.
Defined.
