(* ===== verification/BlockManagerDag.v ===== *)
(** * The block manager and the DAG state

    The invariant that ties the records of the block manager to the DAG state
    it feeds, and that resolving a reference keeps it: the unsuspended blocks
    are accepted in causal order. *)

From S2P Require Import Prelude Committee Context Block StakeAggregator ThresholdClock Commit Store LeaderScoring DagState DagInv Evolve DagOps DagAccept BlockManager BlockManagerInv.

Lemma causal_app c own gc l1 l2 : forall known,
  causal c own gc known (l1 ++ l2)
  <-> causal c own gc known l1 /\ causal c own gc (refs_of l1 ∪ known) l2.
Proof.
  induction l1 as [|b l1 IH]; intros known; simpl.
  - rewrite (left_id_L ∅ (∪)). tauto.
  - rewrite IH. replace (refs_of l1 ∪ ({[reference b]} ∪ known)) with ({[reference b]} ∪ refs_of l1 ∪ known)
      by (clear; set_solver). tauto.
Qed.

(** A list of other nodes' blocks in which each ancestor is known or comes
    earlier. *)
Lemma causal_of_order c own gc out : forall known,
  (forall i b, out !! i = Some b -> wf_block c b /\ author b <> own
     /\ forall a, a ∈ ancestors b -> gc < br_round a -> a ∈ refs_of (take i out) ∪ known) ->
  causal c own gc known out.
Proof.
  induction out as [|b out IH]; intros known Ho; simpl; [done|].
  destruct (Ho 0%nat b eq_refl) as (Hwf & Hown & Ha). split_and!; [done|done| |].
  - apply Forall_forall. intros a Hin Hgc. specialize (Ha a Hin Hgc). simpl in Ha. clear -Ha. set_solver.
  - apply IH. intros i b' Hi. destruct (Ho (Datatypes.S i) b' Hi) as (? & ? & Ha').
    split_and!; [done|done|]. intros a Hin Hgc. specialize (Ha' a Hin Hgc). simpl in Ha'.
    clear -Ha'. set_solver.
Qed.

Section coupling.
Context {S : Type} `{StoreLaws S}.
Implicit Types s : DagState S.

(** Suspended blocks are well-formed blocks of other nodes that the DAG state
    does not have; each of their ancestors above the GC round is cached or
    recorded as missing; what is recorded as missing is not in the DAG state;
    the blocks to fetch are the missing ancestors that were not received. *)
Record bm_inv s (bm : BlockManager) : Prop := {
  mi_wf : bm_wf bm;
  mi_block : forall r sb, bm_suspended_blocks bm !! r = Some sb ->
    wf_block (ds_committee s) (sb_block sb) /\ author (sb_block sb) <> own_index (ds_context s)
    /\ dag_block s r = None;
  mi_anc : forall r sb a, bm_suspended_blocks bm !! r = Some sb -> a ∈ ancestors (sb_block sb) ->
    gc_round s < br_round a -> a ∈ sb_missing_ancestors sb \/ is_Some (view s a);
  mi_missing : forall a, is_Some (bm_missing_ancestors bm !! a) ->
    is_valid_index (ds_committee s) (br_author a) = true /\ dag_block s a = None;
  mi_blocks : forall a, a ∈ bm_missing_blocks bm
    <-> is_Some (bm_missing_ancestors bm !! a) /\ bm_suspended_blocks bm !! a = None;
  mi_received : length (bm_received_block_rounds bm) = N.to_nat (committee_size (ds_committee s));
}.

(** What a step of the block manager does to the DAG state: it accepts blocks
    of [from], loses none and commits nothing. *)
Record dag_grows s (from : BlockRef -> Prop) s' : Prop := {
  dg_inv : dag_inv s';
  dg_persist : persist_inv s';
  dg_context : ds_context s' = ds_context s;
  dg_commit : ds_last_commit s' = ds_last_commit s;
  dg_mono : forall r x, dag_block s r = Some x -> dag_block s' r = Some x;
  dg_new : forall r, is_Some (dag_block s' r) -> is_Some (dag_block s r) \/ from r;
}.

Lemma dag_grows_refl s : dag_inv s -> persist_inv s -> dag_grows s (fun _ => False) s.
Proof. intros Hs Hp. constructor; try done. by left. Qed.

Lemma dag_grows_trans s P s1 Q s2 R :
  dag_grows s P s1 -> dag_grows s1 Q s2 -> (forall r, P r -> R r) -> (forall r, Q r -> R r) ->
  dag_grows s R s2.
Proof.
  intros [? ? C1 L1 M1 N1] [? ? C2 L2 M2 N2] HP HQ. constructor; [done|done|congruence|congruence|by eauto|].
  intros r [[?|?]%N1|?]%N2; eauto.
Qed.

Lemma dag_grows_gc s P s' : dag_grows s P s' -> gc_round s' = gc_round s.
Proof. intros [? ? C L _ _]. by apply gc_round_ext. Qed.

Lemma dag_grows_view s P s' a :
  dag_inv s -> dag_grows s P s' -> gc_round s < br_round a -> is_Some (view s a) -> is_Some (view s' a).
Proof.
  intros Hs G Hgc [x Hx]. exists x. apply dag_block_recent; [apply G|apply G| |].
  - by rewrite (dag_grows_gc _ _ _ G).
  - by apply (dg_mono _ _ _ G), dag_block_view.
Qed.

(** The blocks unsuspended by [root] can be accepted after it. *)
Lemma put_out_causal s bm root out known :
  bm_inv s bm -> put_out bm root out ->
  (gc_round s < br_round root -> root ∈ known) -> (forall r, is_Some (view s r) -> r ∈ known) ->
  causal (ds_committee s) (own_index (ds_context s)) (gc_round s) known out.
Proof.
  intros Hm Hpo Hroot Hk. apply causal_of_order. intros i b Hi.
  destruct (po_order _ _ _ Hpo i b Hi) as [(sb & Esb & <-) Hw].
  destruct (mi_block _ _ Hm _ _ Esb) as (Hwf & Hown & _). split_and!; [done|done|].
  intros a Ha Hgc. unfold waits in Hw. rewrite Esb in Hw.
  destruct (mi_anc _ _ Hm _ _ a Esb Ha Hgc) as [Hmiss|Hv]; [|by apply elem_of_union_r, Hk].
  apply Hw, elem_of_union in Hmiss as [->%elem_of_singleton|?]; [|by apply elem_of_union_l].
  by apply elem_of_union_r, Hroot.
Qed.
(** Accepting [bs] and the blocks unsuspended by [root], as one step of the
    DAG state. *)
Lemma accept_out s bm root bs out :
  dag_inv s -> persist_inv s -> enable_v3 (protocol_config (ds_context s)) = false ->
  bm_inv s bm -> put_out bm root out ->
  causal (ds_committee s) (own_index (ds_context s)) (gc_round s) (dom (ds_recent_blocks s)) bs ->
  (gc_round s < br_round root -> root ∈ refs_of bs) ->
  exists s', accept_blocks s (bs ++ out) = Ok s'
    /\ dag_grows s (fun r => r ∈ refs_of bs \/ r ∈ refs_of out) s'
    /\ (forall r, r ∈ refs_of bs \/ r ∈ refs_of out -> is_Some (dag_block s' r))
    /\ grown s (fun x => x ∈ bs ++ out) s'.
Proof.
  intros Hs Hp Hv3 Hm Hpo Hc Hroot.
  destruct (accept_blocks_Ok (bs ++ out) s (dom (ds_recent_blocks s)) Hs Hp Hv3)
    as (s' & E & H' & P' & C' & L' & Hbs & Hmono & _ & Hnew & _ & Hgr).
  - by intros r ?%known_view.
  - by intros r ?%known_view.
  - apply causal_app. split; [done|]. apply (put_out_causal s bm root); try done.
    + intros Hgc. by apply elem_of_union_l, Hroot.
    + intros r Hr. by apply elem_of_union_r, known_view.
  - exists s'. split_and!; [done| | |done].
    + constructor; try done. intros r Hr. destruct (Hnew r Hr) as [|Hin]; [by left|right].
      rewrite fmap_app in Hin. rewrite !elem_of_list_to_set. by apply elem_of_app in Hin.
    + intros r Hr. rewrite !elem_of_list_to_set, <- elem_of_app, <- fmap_app in Hr.
      apply list_elem_of_fmap in Hr as (b & -> & Hb). by apply Hbs.
Qed.

(** Resolving [root] keeps the invariant: the records after it describe the
    DAG state after the unsuspended blocks were accepted. *)
Lemma resolved_inv s bm root bs out bm' s' :
  dag_inv s -> bm_inv s bm -> bm_suspended_blocks bm !! root = None ->
  (forall b, b ∈ bs -> reference b = root) -> (gc_round s < br_round root -> root ∈ refs_of bs) ->
  let bm1 := set_missing_blocks bm (bm_missing_blocks bm ∖ {[root]}) in
  resolved bm1 ({[root]} ∪ refs_of out) out bm' -> put_out bm1 root out ->
  complete bm1 ({[root]} ∪ refs_of out) out ->
  dag_grows s (fun r => r ∈ refs_of bs \/ r ∈ refs_of out) s' ->
  (forall r, r ∈ refs_of bs \/ r ∈ refs_of out -> is_Some (dag_block s' r)) ->
  bm_inv s' bm'.
Proof.
  intros Hs Hm Hroot Hbs Hgcr bm1 Hr Hpo Hc G Hacc. pose proof (dag_grows_gc _ _ _ G) as Egc.
  assert (bm_wf bm1) as Hwf1 by (destruct Hm as [[? ?] _ _ _ _ _]; by constructor).
  pose proof (resolved_wf bm1 root Hwf1 out bm' Hr Hpo Hc) as Hwf'.
  assert (ds_committee s' = ds_committee s) as Ec by (unfold ds_committee; by rewrite (dg_context _ _ _ G)).
  assert (forall r, r ∉ {[root]} ∪ refs_of out -> dag_block s r = None -> dag_block s' r = None) as Hnone.
  { intros r Hr' Hn. apply eq_None_not_Some. intros [[x Hx]|[Hin|Hin]]%(dg_new _ _ _ G); [congruence| |].
    - apply Hr', elem_of_union_l, elem_of_singleton.
      by apply elem_of_list_to_set, list_elem_of_fmap in Hin as (b & -> & Hb%Hbs).
    - by apply Hr', elem_of_union_r. }
  assert (forall r sb', bm_suspended_blocks bm' !! r = Some sb' -> r ∉ {[root]} ∪ refs_of out
            /\ exists sb, bm_suspended_blocks bm !! r = Some sb
                         /\ sb' = without ({[root]} ∪ refs_of out) sb) as Hsusp.
  { intros r sb' E. rewrite (rd_suspended _ _ _ _ Hr) in E. destruct (decide _) as [|Hn]; [done|].
    apply fmap_Some in E as (sb & Esb & ->). split; [|by exists sb].
    rewrite elem_of_union, elem_of_singleton. intros [->|?]; [|done]. simpl in Esb. congruence. }
  constructor; rewrite ?Ec, ?Egc, ?(dg_context _ _ _ G); [done| | | | |].
  - intros r sb' (Hr' & sb & Esb & ->)%Hsusp. destruct (mi_block _ _ Hm r sb Esb) as (? & ? & ?).
    split_and!; [done|done|by apply Hnone].
  - intros r sb' a (Hr' & sb & Esb & ->)%Hsusp Ha Hgc. simpl in *.
    destruct (mi_anc _ _ Hm r sb a Esb Ha Hgc) as [Hin|Hv]; [|right; by eapply dag_grows_view].
    destruct (decide (a ∈ {[root]} ∪ refs_of out)) as [HaP|HaP]; [right|left; by apply elem_of_difference].
    destruct (Hacc a) as [x Hx].
    { apply elem_of_union in HaP as [->%elem_of_singleton|?]; [left; by apply Hgcr|by right]. }
    exists x. apply dag_block_recent; [apply G|apply G|by rewrite Egc|done].
  - intros a Ha. rewrite (rd_missing _ _ _ _ Hr) in Ha. destruct (decide _) as [|HaP]; [by destruct Ha|].
    destruct (mi_missing _ _ Hm a Ha). split; [done|by apply Hnone].
  - intros a. rewrite (rd_missing_blocks _ _ _ _ Hr), (rd_missing _ _ _ _ Hr), (rd_suspended _ _ _ _ Hr).
    simpl. rewrite elem_of_difference, elem_of_singleton, (mi_blocks _ _ Hm).
    destruct (decide (a ∈ {[root]} ∪ refs_of out)) as [HaP|HaP].
    + split; [|by intros [[? ?] _]]. intros [[_ Hn] Hne]. exfalso.
      apply elem_of_union in HaP as [->%elem_of_singleton|HaP]; [done|].
      apply elem_of_list_to_set, list_elem_of_fmap in HaP as (b & -> & (i & Hi)%list_elem_of_lookup).
      destruct (po_order _ _ _ Hpo i b Hi) as [(sb & Esb & _) _]. simpl in Esb. congruence.
    + rewrite elem_of_union, elem_of_singleton in HaP. rewrite decide_False by tauto.
      rewrite fmap_None. tauto.
  - rewrite (rd_received _ _ _ _ Hr). apply (mi_received _ _ Hm).
Qed.
(** The blocks that are suspended. *)
Definition is_waiting (bm : BlockManager) (x : VerifiedBlock) : Prop :=
  exists r sb, bm_suspended_blocks bm !! r = Some sb /\ sb_block sb = x.

(** One step of the block manager, in which the references of [from] are
    received, or given up, and the blocks of [got] received. *)
Record bm_step s (bm : BlockManager) (from : BlockRef -> Prop) (got : list VerifiedBlock)
    s' (bm' : BlockManager) : Prop := {
  st_inv : bm_inv s' bm';
  st_dag : dag_grows s (fun r => from r \/ is_Some (bm_suspended_blocks bm !! r)) s';
  st_kept : forall r, is_Some (bm_suspended_blocks bm !! r) ->
    is_Some (bm_suspended_blocks bm' !! r) \/ is_Some (dag_block s' r);
  st_suspended : forall r sb', bm_suspended_blocks bm' !! r = Some sb' ->
    (exists sb, bm_suspended_blocks bm !! r = Some sb /\ sb_block sb = sb_block sb')
    \/ from r /\ sb_block sb' ∈ got;
  st_fetch : forall r, r ∈ bm_missing_blocks bm -> ~ from r -> r ∈ bm_missing_blocks bm';
  st_grown : grown s (fun x => x ∈ got \/ is_waiting bm x) s';
  st_missing : forall a, is_Some (bm_missing_ancestors bm' !! a) ->
    is_Some (bm_missing_ancestors bm !! a) \/ exists x, x ∈ got /\ a ∈ ancestors x;
}.

Lemma bm_step_refl s bm from got :
  dag_inv s -> persist_inv s -> bm_inv s bm -> bm_step s bm from got s bm.
Proof.
  intros Hs Hp Hm. constructor; try done; [|by left|by left; eexists|apply grown_refl|by left].
  constructor; try done. by left.
Qed.

Lemma bm_step_trans s bm P g1 s1 bm1 Q g2 s2 bm2 R g :
  bm_step s bm P g1 s1 bm1 -> bm_step s1 bm1 Q g2 s2 bm2 ->
  (forall r, P r -> R r) -> (forall r, Q r -> R r) -> g1 ⊆ g -> g2 ⊆ g -> bm_step s bm R g s2 bm2.
Proof.
  intros [_ D1 K1 U1 F1 W1 M1] [I2 D2 K2 U2 F2 W2 M2] HP HQ Hg1 Hg2. constructor.
  - done.
  - apply (dag_grows_trans _ _ _ _ _ _ D1 D2); [by intros r [?|?]; auto|].
    intros r [?|[sb [(? & -> & _)|[? _]]%U1]]; auto.
  - intros r [Hr|[x Hx]]%K1; [by apply K2|]. right. exists x. by apply (dg_mono _ _ _ D2).
  - intros r sb2 [(sb1 & E1 & Hsb)|[? ?]]%U2; [|right; auto].
    destruct (U1 r sb1 E1) as [(sb & ? & ?)|[? ?]]; [left; exists sb; split; congruence|right].
    rewrite <- Hsb. auto.
  - intros r Hr Hn. apply F2; [apply F1; [done|]|]; intros ?; apply Hn; auto.
  - eapply grown_trans; [exact W1|exact W2|by intros x [?|?]; auto|].
    intros x [?|(r & sb1 & E1 & <-)]; [by auto|].
    destruct (U1 r sb1 E1) as [(sb & ? & <-)|[_ ?]]; [right; by exists r, sb|auto].
  - intros a [[?|(x & ? & ?)]%M1|(x & ? & ?)]%M2; [by left|right; exists x; auto..].
Qed.

(** The received rounds are only reported. *)
Lemma set_received_inv s bm l :
  bm_inv s bm -> length l = length (bm_received_block_rounds bm) -> bm_inv s (set_received_rounds bm l).
Proof.
  intros [[? ?] ? ? ? ? Hl] E. constructor; try done. simpl. congruence.
Qed.

Lemma received_metrics_Ok s bm b :
  bm_inv s bm -> is_valid_index (ds_committee s) (author b) = true ->
  exists l, update_block_received_metrics (ds_context s) bm b = Ok (set_received_rounds bm l)
    /\ bm_inv s (set_received_rounds bm l).
Proof.
  intros Hm Ha. pose proof (mi_received _ _ Hm) as Hl. unfold update_block_received_metrics.
  assert (N.to_nat (author b) < length (bm_received_block_rounds bm))%nat as Hlt.
  { apply N.ltb_lt in Ha. lia. }
  destruct (lookup_lt_is_Some_2 _ _ Hlt) as [cur Hcur]. unfold vec_index, vec_store. rewrite Hcur. simpl.
  destruct (committee_authority_Ok (ds_committee s) (author b) Ha) as [au Eau].
  unfold ds_committee in Eau. rewrite Eau. simpl. eexists. split; [done|].
  apply set_received_inv; [done|]. by rewrite length_insert.
Qed.

(** Resolving a reference that is not suspended. *)
Lemma resolve_Ok s bm root bs :
  dag_inv s -> persist_inv s -> enable_v3 (protocol_config (ds_context s)) = false ->
  bm_inv s bm -> bm_suspended_blocks bm !! root = None ->
  causal (ds_committee s) (own_index (ds_context s)) (gc_round s) (dom (ds_recent_blocks s)) bs ->
  (forall b, b ∈ bs -> reference b = root) -> (gc_round s < br_round root -> root ∈ refs_of bs) ->
  exists bm' out s',
    try_unsuspend_children_blocks (ds_context s) (set_missing_blocks bm (bm_missing_blocks bm ∖ {[root]})) root
      = Ok (bm', out)
    /\ accept_blocks s (bs ++ out) = Ok s'
    /\ bm_step s bm (eq root) bs s' bm'
    /\ (forall b, b ∈ bs ++ out -> is_Some (dag_block s' (reference b)))
    /\ (forall b, b ∈ out -> exists sb, bm_suspended_blocks bm !! reference b = Some sb /\ sb_block sb = b)
    /\ (forall a, is_Some (bm_missing_ancestors bm' !! a) -> is_Some (bm_missing_ancestors bm !! a) /\ a <> root).
Proof.
  intros Hs Hp Hv3 Hm Hroot Hc Hbs Hgcr. set (bm1 := set_missing_blocks _ _).
  assert (bm_wf bm1) as Hwf1 by (destruct Hm as [[? ?] _ _ _ _ _]; by constructor).
  destruct (unsuspend_children_Ok bm1 root Hwf1 Hroot (ds_context s)) as (bm' & out & E & Hr & Hpo & Hcp).
  { intros r sb Esb. apply committee_authority_Ok. apply (mi_block _ _ Hm r sb Esb). }
  assert (put_out bm root out) as Hpo' by (by destruct Hpo; constructor).
  destruct (accept_out s bm root bs out Hs Hp Hv3 Hm Hpo' Hc Hgcr) as (s' & E' & G & Hacc & Hgr).
  pose proof (resolved_inv s bm root bs out bm' s' Hs Hm Hroot Hbs Hgcr Hr Hpo Hcp G Hacc) as Hm'.
  assert (forall b, b ∈ out -> exists sb, bm_suspended_blocks bm !! reference b = Some sb /\ sb_block sb = b)
    as Hout by (intros b (i & Hi)%list_elem_of_lookup; apply (po_order _ _ _ Hpo' i b Hi)).
  exists bm', out, s'. split_and!; [done|done| | |done|].
  - constructor; [done| | | | | |].
    + destruct G as [? ? ? ? ? Hnew]. constructor; try done. intros r [?|[Hin|Hin]]%Hnew; [by left|right; left|right; right].
      * by apply elem_of_list_to_set, list_elem_of_fmap in Hin as (b & -> & ->%Hbs).
      * apply elem_of_list_to_set, list_elem_of_fmap in Hin as (b & -> & (sb & -> & _)%Hout). done.
    + intros r [sb Esb]. rewrite (rd_suspended _ _ _ _ Hr). destruct (decide _) as [Hin|Hin]; [right; apply Hacc; by right|].
      left. simpl. by rewrite Esb.
    + intros r sb' Hr'. rewrite (rd_suspended _ _ _ _ Hr) in Hr'. destruct (decide _); [done|].
      apply fmap_Some in Hr' as (sb & ? & ->). left. by exists sb.
    + intros r Hin Hne. rewrite (rd_missing_blocks _ _ _ _ Hr). simpl. apply elem_of_difference.
      split; [done|]. intros ->%elem_of_singleton. by apply Hne.
    + apply (grown_mono _ _ _ _ Hgr). intros x [?|(sb & ? & ?)%Hout]%elem_of_app; [by left|right; by eexists _, sb].
    + intros a Ha. left. rewrite (rd_missing _ _ _ _ Hr) in Ha. destruct (decide _); [by destruct Ha|done].
  - intros b Hb. apply Hacc. rewrite !elem_of_list_to_set, <- elem_of_app, <- fmap_app.
    by apply list_elem_of_fmap_2.
  - intros a Ha. rewrite (rd_missing _ _ _ _ Hr) in Ha. destruct (decide _) as [|Hn]; [by destruct Ha|].
    split; [done|]. intros ->. apply Hn. by apply elem_of_union_l, elem_of_singleton.
Qed.
End coupling.
