(* ===== verification/BlockManagerOps.v ===== *)
(** * The block manager: its operations

    Receiving a block, receiving a committed block, looking for blocks and
    the garbage collection of missing ancestors: each is total and is a step
    of the invariant. *)

From S2P Require Import Prelude Committee Context Block StakeAggregator ThresholdClock Commit Store LeaderScoring DagState DagInv Evolve DagOps DagAccept BlockManager BlockManagerInv BlockManagerDag.

Section ops.
Context {S : Type} `{StoreLaws S}.
Implicit Types s : DagState S.

(* ------------------------------------------------------------------ *)
(** ** Recording missing ancestors *)

(** The manager after [block_ref] was recorded as waiting for the ancestors [l]. *)
Record noted (bm : BlockManager) (block_ref : BlockRef) (l : list BlockRef) (bm1 : BlockManager) : Prop := {
  nt_missing : forall a, bm_missing_ancestors bm1 !! a
    = if decide (a ∈ l) then Some ({[block_ref]} ∪ entry_or_default (bm_missing_ancestors bm) a)
      else bm_missing_ancestors bm !! a;
  nt_blocks : forall a, a ∈ bm_missing_blocks bm1
    <-> a ∈ bm_missing_blocks bm \/ a ∈ l /\ bm_suspended_blocks bm !! a = None;
  nt_suspended : bm_suspended_blocks bm1 = bm_suspended_blocks bm;
  nt_received : bm_received_block_rounds bm1 = bm_received_block_rounds bm;
}.

Lemma note_one context bm block_ref M F a :
  is_valid_index (committee context) (br_author a) = true ->
  exists bm1 F1, note_missing_ancestor context block_ref (bm, M, F) a = Ok (bm1, {[a]} ∪ M, F1)
    /\ noted bm block_ref [a] bm1
    /\ (forall x, x ∈ F1 <-> x ∈ F \/ x ∈ [a] /\ bm_suspended_blocks bm !! x = None).
Proof.
  intros Ha. unfold note_missing_ancestor.
  destruct (committee_authority_Ok (committee context) (br_author a) Ha) as [au ->]. simpl.
  assert (forall x, <[a:={[block_ref]} ∪ entry_or_default (bm_missing_ancestors bm) a]>
                      (bm_missing_ancestors bm) !! x
            = if decide (x ∈ [a]) then Some ({[block_ref]} ∪ entry_or_default (bm_missing_ancestors bm) x)
              else bm_missing_ancestors bm !! x) as Hlook.
  { intros x. destruct (decide (x ∈ [a])) as [->%list_elem_of_singleton|Hn]; [by rewrite lookup_insert_eq|].
    rewrite list_elem_of_singleton in Hn. by rewrite lookup_insert_ne. }
  unfold is_suspended. simpl. case_bool_decide as Hsus; eexists _, _; (split; [done|]).
  - assert (forall x, x ∈ [a] -> bm_suspended_blocks bm !! x <> None) as Hno.
    { intros x ->%list_elem_of_singleton Hx. rewrite Hx in Hsus. by destruct Hsus. }
    split; [constructor; try done|]; intros x; simpl; specialize (Hno x); tauto.
  - apply eq_None_not_Some in Hsus.
    assert (forall x, x = a <-> x ∈ [a] /\ bm_suspended_blocks bm !! x = None) as Hyes.
    { intros x. rewrite list_elem_of_singleton. split; [by intros ->|tauto]. }
    split; [constructor; try done|]; intros x; simpl;
      rewrite elem_of_union, elem_of_singleton, (Hyes x); tauto.
Qed.

Lemma noted_cons bm block_ref a l bm1 bm2 :
  noted bm block_ref [a] bm1 -> noted bm1 block_ref l bm2 -> noted bm block_ref (a :: l) bm2.
Proof.
  intros [M1 B1 S1 R1] [M2 B2 S2 R2]. constructor; [| |congruence|congruence].
  - intros x. rewrite M2. unfold entry_or_default. rewrite M1.
    destruct (decide (x ∈ [a])) as [Ex|Hx].
    + rewrite (decide_True (P := x ∈ a :: l)) by (apply elem_of_cons; left; by apply list_elem_of_singleton).
      destruct (decide (x ∈ l)); simpl; [|done]. f_equal. unfold entry_or_default. clear. set_solver.
    + rewrite list_elem_of_singleton in Hx. destruct (decide (x ∈ l)); [by rewrite decide_True by (by right)|].
      rewrite decide_False; [done|]. rewrite elem_of_cons. tauto.
  - intros x. rewrite B2, B1, S1, !elem_of_cons, elem_of_nil. tauto.
Qed.

Lemma note_fold context block_ref l : forall bm M F,
  (forall a, a ∈ l -> is_valid_index (committee context) (br_author a) = true) ->
  exists bm1 F1, foldM (note_missing_ancestor context block_ref) l (bm, M, F) = Ok (bm1, list_to_set l ∪ M, F1)
    /\ noted bm block_ref l bm1
    /\ (forall x, x ∈ F1 <-> x ∈ F \/ x ∈ l /\ bm_suspended_blocks bm !! x = None).
Proof.
  induction l as [|a l IH]; intros bm M F Hl; cbn [foldM list_to_set].
  - exists bm, F. split_and!; [by rewrite (left_id_L ∅ (∪))| |].
    + constructor; try done; intros x; rewrite elem_of_nil; tauto.
    + intros x. rewrite elem_of_nil. tauto.
  - destruct (note_one context bm block_ref M F a) as (bm1 & F1 & E1 & N1 & HF1); [apply Hl; left|].
    destruct (IH bm1 ({[a]} ∪ M) F1) as (bm2 & F2 & E2 & N2 & HF2); [intros x Hx; apply Hl; by right|].
    exists bm2, F2. rewrite E1. cbn [mbind outcome_bind]. rewrite E2. split_and!.
    + do 3 f_equal. clear. set_solver.
    + by apply (noted_cons bm block_ref a l bm1).
    + intros x. rewrite HF2, HF1, (nt_suspended _ _ _ _ N1), !elem_of_cons, elem_of_nil. tauto.
Qed.

(** The loop over the answers of the existence check. *)
Lemma fold_zip_found {A B} (p : B -> bool) (g : A -> B -> outcome A) l : forall acc,
  foldM (fun acc '(found, x) => if found : bool then Ok acc else g acc x) (zip (p <$> l) l) acc
  = foldM g (List.filter (fun x => negb (p x)) l) acc.
Proof.
  induction l as [|x l IH]; intros acc; [done|]. cbn. destruct (p x); cbn; [apply IH|].
  destruct (g acc x); cbn; [apply IH|done..].
Qed.

(** A block recorded as suspended. *)
Lemma suspend_inv s bm b l bm1 :
  bm_inv s bm -> bm_suspended_blocks bm !! reference b = None -> dag_block s (reference b) = None ->
  wf_block (ds_committee s) b -> author b <> own_index (ds_context s) ->
  l <> [] -> (forall a, a ∈ l -> a ∈ ancestors b /\ dag_block s a = None) ->
  (forall a, a ∈ ancestors b -> gc_round s < br_round a -> a ∈ l \/ is_Some (view s a)) ->
  noted bm (reference b) l bm1 ->
  bm_inv s (set_suspended (set_missing_blocks bm1 (bm_missing_blocks bm1 ∖ {[reference b]}))
              (<[reference b := mkSuspendedBlock b (list_to_set l)]> (bm_suspended_blocks bm1))).
Proof.
  intros Hm Hsus Hdag Hwf Hown Hne Hl Hanc [M1 B1 S1 R1]. pose proof (mi_wf _ _ Hm) as Hw. rewrite S1.
  set (sus := <[reference b := _]> _).
  assert (forall r sb, sus !! r = Some sb -> r = reference b /\ sb = mkSuspendedBlock b (list_to_set l)
            \/ r <> reference b /\ bm_suspended_blocks bm !! r = Some sb) as Hsb.
  { intros r sb. unfold sus. rewrite lookup_insert_Some. intros [[<- <-]|[? ?]]; [by left|by right]. }
  assert (forall a, is_Some (bm_missing_ancestors bm1 !! a)
            <-> a ∈ l \/ is_Some (bm_missing_ancestors bm !! a)) as Hkey.
  { intros a. rewrite M1. destruct (decide (a ∈ l)); [|tauto]. split; [by left|by eexists]. }
  constructor; simpl; [constructor; simpl| | | | |].
  - intros r sb [[-> ->]|[Hr Esb]]%Hsb; simpl.
    + split_and!; [done| |].
      * destruct l as [|x l]; [done|]. simpl. clear. set_solver.
      * intros a Ha%elem_of_list_to_set. split; [by apply Hl|]. apply Hkey. by left.
    + destruct (bw_block _ Hw r sb Esb) as (? & ? & Ha). split_and!; [done|done|].
      intros a [? ?]%Ha. split; [done|]. apply Hkey. by right.
  - intros a X r EX. unfold sus. destruct (decide (r = reference b)) as [->|Hr].
    + rewrite lookup_insert_eq. rewrite M1 in EX. destruct (decide (a ∈ l)) as [Ha|Ha].
      * injection EX as <-. split; [|set_solver]. intros _. eexists. split; [done|]. by apply elem_of_list_to_set.
      * rewrite (bw_waits _ Hw a X _ EX), Hsus. split; [by intros (? & ? & _)|].
        intros (sb & [= <-] & Hin%elem_of_list_to_set). done.
    + rewrite lookup_insert_ne by done. rewrite M1 in EX. destruct (decide (a ∈ l)) as [Ha|Ha].
      * injection EX as <-. rewrite elem_of_union, elem_of_singleton. unfold entry_or_default.
        destruct (bm_missing_ancestors bm !! a) as [Y|] eqn:EY; simpl.
        -- rewrite (bw_waits _ Hw a Y r EY). tauto.
        -- split; [by intros [?|?%elem_of_empty]|]. intros (sb & Esb & Hin). exfalso.
           destruct (bw_block _ Hw r sb Esb) as (_ & _ & Hk). destruct (Hk a Hin) as [_ [? ?]]. congruence.
      * apply (bw_waits _ Hw a X r EX).
  - intros r sb [[-> ->]|[Hr Esb]]%Hsb; [done|]. apply (mi_block _ _ Hm r sb Esb).
  - intros r sb a [[-> ->]|[Hr Esb]]%Hsb Ha Hgc; simpl in *.
    + rewrite elem_of_list_to_set. by apply Hanc.
    + by apply (mi_anc _ _ Hm r sb).
  - intros a [Ha|Ha]%Hkey; [|by apply (mi_missing _ _ Hm)]. destruct (Hl a Ha) as [Hin ?].
    split; [by apply (wb_anc _ _ Hwf)|done].
  - intros a. rewrite elem_of_difference, elem_of_singleton, B1, Hkey, (mi_blocks _ _ Hm). unfold sus.
    destruct (decide (a = reference b)) as [->|Hne']; [rewrite lookup_insert_eq|rewrite lookup_insert_ne by done].
    + split; [tauto|]. by intros [_ ?].
    + tauto.
  - rewrite R1. apply (mi_received _ _ Hm).
Qed.
Lemma suspended_step s bm b l bm1 :
  dag_inv s -> persist_inv s ->
  bm_inv s bm -> bm_suspended_blocks bm !! reference b = None -> dag_block s (reference b) = None ->
  wf_block (ds_committee s) b -> author b <> own_index (ds_context s) ->
  l <> [] -> (forall a, a ∈ l -> a ∈ ancestors b /\ dag_block s a = None) ->
  (forall a, a ∈ ancestors b -> gc_round s < br_round a -> a ∈ l \/ is_Some (view s a)) ->
  noted bm (reference b) l bm1 ->
  bm_step s bm (eq (reference b)) [b] s
    (set_suspended (set_missing_blocks bm1 (bm_missing_blocks bm1 ∖ {[reference b]}))
       (<[reference b := mkSuspendedBlock b (list_to_set l)]> (bm_suspended_blocks bm1))).
Proof.
  intros Hs Hp Hm Hsus Hdag Hwf Hown Hne Hl Hanc Hn.
  constructor; [by apply (suspend_inv s bm b l)| |cbn; rewrite (nt_suspended _ _ _ _ Hn)..| |apply grown_refl|].
  - by constructor; try done; left.
  - intros r Hr. left. destruct (decide (r = reference b)) as [->|]; [by rewrite lookup_insert_eq|].
    by rewrite lookup_insert_ne.
  - intros r sb' [[<- <-]|[? ?]]%lookup_insert_Some; [right|left; by exists sb'].
    split; [done|]. by apply list_elem_of_singleton.
  - intros r Hr Hnr. cbn. rewrite elem_of_difference, elem_of_singleton, (nt_blocks _ _ _ _ Hn).
    split; [by left|]. intros ->. by apply Hnr.
  - intros a Ha. cbn in Ha. rewrite (nt_missing _ _ _ _ Hn) in Ha. destruct (decide (a ∈ l)) as [Hin|]; [right|by left].
    exists b. split; [by apply list_elem_of_singleton|]. by apply Hl.
Qed.

(* ------------------------------------------------------------------ *)
(** ** Receiving a block *)

(** The ancestors the block has to wait for. *)
Definition unmet s (b : VerifiedBlock) : list BlockRef :=
  List.filter (fun a => negb (bool_decide (is_Some (dag_block s a))))
    (List.filter (fun ancestor => (br_round ancestor =? GENESIS_ROUND) || (gc_round s <? br_round ancestor))
       (ancestors b)).

Lemma elem_of_unmet s b a :
  a ∈ unmet s b <-> a ∈ ancestors b /\ dag_block s a = None /\ (br_round a = 0 \/ gc_round s < br_round a).
Proof.
  unfold unmet. rewrite !list_filter_elem_of, negb_true_iff, bool_decide_eq_false, <- eq_None_not_Some,
    orb_true_iff, N.eqb_eq, N.ltb_lt. unfold GENESIS_ROUND. tauto.
Qed.

Lemma unmet_or_cached s b a :
  dag_inv s -> persist_inv s -> a ∈ ancestors b -> gc_round s < br_round a ->
  a ∈ unmet s b \/ is_Some (view s a).
Proof.
  intros Hs Hp Ha Hgc. destruct (dag_block s a) as [x|] eqn:E.
  - right. exists x. by apply dag_block_recent.
  - left. apply elem_of_unmet. split_and!; [done|done|by right].
Qed.

(** Own blocks are received only once they are there, or too old to matter. *)
Definition known_if_own s (b : VerifiedBlock) : Prop :=
  author b <> own_index (ds_context s) \/ is_Some (dag_block s (reference b)) \/ round b <= gc_round s.

(** What receiving one block answers. *)
Definition received_one s (bm : BlockManager) (b : VerifiedBlock) (bm' : BlockManager)
    (result : TryAcceptResult) : Prop :=
  match result with
  | Processed => bm' = bm /\ (is_Some (bm_suspended_blocks bm !! reference b) \/ is_Some (dag_block s (reference b)))
  | Skipped => bm' = bm /\ round b <= gc_round s
  | Accepted b' => b' = b /\ bm' = set_missing_blocks bm (bm_missing_blocks bm ∖ {[reference b]})
      /\ bm_suspended_blocks bm !! reference b = None /\ rooted s b /\ author b <> own_index (ds_context s)
  | Suspended ancestors_to_fetch => bm_step s bm (eq (reference b)) [b] s bm'
      /\ is_Some (bm_suspended_blocks bm' !! reference b)
      /\ (forall a, a ∈ ancestors_to_fetch <-> a ∈ unmet s b /\ bm_suspended_blocks bm !! a = None)
      /\ ancestors_to_fetch ⊆ bm_missing_blocks bm'
  end.

Lemma try_accept_one_Ok s bm b :
  dag_inv s -> persist_inv s -> bm_inv s bm ->
  wf_block (ds_committee s) b -> known_if_own s b ->
  exists bm' result, try_accept_one_block (ds_context s) bm s b = Ok (bm', result)
    /\ received_one s bm b bm' result.
Proof.
  intros Hs Hp Hm Hwf Hown. pose proof (wb_author _ _ Hwf) as Ha. unfold try_accept_one_block, is_suspended.
  destruct (committee_authority_Ok (ds_committee s) (author b) Ha) as [au Eau]. unfold ds_committee in Eau.
  rewrite Eau. case_bool_decide as Hsus; cbn [mbind outcome_bind].
  { eexists _, _. split; [done|]. split; [done|by left]. }
  rewrite contains_block_spec by done. cbn [mbind outcome_bind]. case_bool_decide as Hdag.
  { eexists _, _. split; [done|]. split; [done|by right]. }
  destruct (N.leb_spec (round b) (gc_round s)) as [Hle|Hgt].
  { eexists _, _. split; [done|]. by split. }
  destruct Hown as [Hown|[?|?]]; [|done|lia].
  apply eq_None_not_Some in Hsus. apply eq_None_not_Some in Hdag.
  rewrite contains_blocks_spec; [|done|done|].
  2:{ intros r [_ Hr]%list_filter_elem_of. by apply (wb_anc _ _ Hwf). }
  cbn [mbind outcome_bind]. rewrite fold_zip_found. fold (unmet s b).
  destruct (decide (unmet s b = [])) as [Enil|Hne].
  { rewrite Enil. eexists _, _. split; [done|]. split_and!; [done..| |done]. split; [done|]. intros a Hin Hgc.
    destruct (unmet_or_cached s b a Hs Hp Hin Hgc) as [Hu|]; [|done]. by rewrite Enil, elem_of_nil in Hu. }
  destruct (note_fold (ds_context s) (reference b) (unmet s b) bm ∅ ∅) as (bm1 & F & -> & Hn & HF).
  { intros a (Hin & _)%elem_of_unmet. by apply (wb_anc _ _ Hwf). }
  cbn [mbind outcome_bind]. rewrite (right_id_L ∅ (∪)), bool_decide_false.
  2:{ intros Hemp. destruct (unmet s b); [done|]. simpl in Hemp. clear -Hemp. set_solver. }
  cbn [mbind outcome_bind]. eexists _, _. split; [done|]. split_and!.
  - apply (suspended_step s bm b (unmet s b) bm1); try done.
    + intros a (? & ? & _)%elem_of_unmet. done.
    + intros a. by apply unmet_or_cached.
  - cbn. by rewrite lookup_insert_eq.
  - intros a. rewrite HF, elem_of_empty. tauto.
  - intros a Ha'. apply HF in Ha' as [?%elem_of_empty|[Hu Hns]]; [done|]. cbn.
    rewrite elem_of_difference, elem_of_singleton, (nt_blocks _ _ _ _ Hn). split; [by right|].
    intros ->. apply elem_of_unmet in Hu as (Hin & _). destruct (wb_anc _ _ Hwf _ Hin) as [Hlt _].
    simpl in Hlt. lia.
Qed.
(** Where a received block ends: in the DAG state, suspended, or too old. *)
Definition handled s (bm : BlockManager) (b : VerifiedBlock) : Prop :=
  is_Some (dag_block s (reference b)) \/ is_Some (bm_suspended_blocks bm !! reference b)
  \/ round b <= gc_round s.

(** Blocks that came in with the batch or were suspended before it. *)
Definition from_batch (bm : BlockManager) (got : list VerifiedBlock) (x : VerifiedBlock) : Prop :=
  x ∈ got \/ exists sb, bm_suspended_blocks bm !! reference x = Some sb /\ sb_block sb = x.

Lemma handled_step s bm from got s' bm' b :
  bm_step s bm from got s' bm' -> handled s bm b -> handled s' bm' b.
Proof.
  intros Hst [[x Hx]|[Hsus|Hgc]].
  - left. exists x. by apply (dg_mono _ _ _ (st_dag _ _ _ _ _ _ Hst)).
  - destruct (st_kept _ _ _ _ _ _ Hst _ Hsus); [by right; left|by left].
  - right; right. by rewrite (dag_grows_gc _ _ _ (st_dag _ _ _ _ _ _ Hst)).
Qed.

Lemma bm_step_received s bm l from got s' bm' :
  bm_step s (set_received_rounds bm l) from got s' bm' -> bm_step s bm from got s' bm'.
Proof. intros [? ? ? ? ? ?]. by constructor. Qed.

Lemma rooted_causal s b :
  rooted s b -> author b <> own_index (ds_context s) ->
  causal (ds_committee s) (own_index (ds_context s)) (gc_round s) (dom (ds_recent_blocks s)) [b].
Proof.
  intros [Hwf Ha] Hown. split_and!; [done|done| |done].
  apply Forall_forall. intros a Hin Hgc. by apply known_view, Ha.
Qed.

Lemma accept_received_Ok s bm acc miss b :
  dag_inv s -> persist_inv s -> enable_v3 (protocol_config (ds_context s)) = false -> bm_inv s bm ->
  wf_block (ds_committee s) b -> known_if_own s b ->
  exists bm' s' new fetch,
    accept_received (ds_context s) false (bm, s, acc, miss) b = Ok (bm', s', acc ++ new, miss ∪ fetch)
    /\ bm_step s bm (eq (reference b)) [b] s' bm' /\ handled s' bm' b
    /\ (forall x, x ∈ new -> is_Some (dag_block s' (reference x)) /\ from_batch bm [b] x)
    /\ (forall a, a ∈ fetch -> a ∈ bm_missing_blocks bm' /\ br_round a < round b).
Proof.
  intros Hs Hp Hv3 Hm Hwf Hown. unfold accept_received.
  destruct (received_metrics_Ok s bm b Hm (wb_author _ _ Hwf)) as (l & -> & Hm1). cbn [mbind outcome_bind].
  set (bm1 := set_received_rounds bm l) in *.
  assert (forall x, x ∈ ([] : list VerifiedBlock) -> is_Some (dag_block s (reference x)) /\ from_batch bm [b] x)
    as Hnil by (intros x ?%elem_of_nil; done).
  assert (bm_step s bm (eq (reference b)) [b] s bm1) as Hstay
    by (apply (bm_step_received s bm l); by apply bm_step_refl).
  destruct (try_accept_one_Ok s bm1 b Hs Hp Hm1 Hwf Hown) as (bm2 & result & -> & Hres).
  cbn [mbind outcome_bind]. destruct result as [b'|fetch| |].
  - destruct Hres as (-> & -> & Hsus & Hroot & Hother).
    destruct (resolve_Ok s bm1 (reference b) [b] Hs Hp Hv3 Hm1 Hsus) as (bm3 & out & s' & -> & Eacc & Hst & Hin & Hout & _).
    + by apply rooted_causal.
    + by intros ? ->%list_elem_of_singleton.
    + intros _. by apply elem_of_list_to_set, list_elem_of_singleton.
    + cbn [mbind outcome_bind fst snd]. rewrite Eacc. cbn [mbind outcome_bind].
      exists bm3, s', ([b] ++ out), ∅. rewrite (right_id_L ∅ (∪)). split_and!; [done| | | |done].
      * by apply (bm_step_received s bm l).
      * left. apply Hin. left.
      * intros x Hx. split; [by apply Hin|]. apply elem_of_app in Hx as [?|Hx%Hout]; [by left|by right].
  - destruct Hres as (Hst & Hsus & HF & Hsub). exists bm2, s, [], fetch. rewrite app_nil_r.
    split_and!; [done|by apply (bm_step_received s bm l)|by right; left|done|].
    intros a Ha. split; [by apply Hsub|]. apply HF in Ha as [(Ha & _)%elem_of_unmet _].
    by apply (wb_anc _ _ Hwf a Ha).
  - destruct Hres as (-> & Hd). exists bm1, s, [], ∅. rewrite app_nil_r, (right_id_L ∅ (∪)).
    split_and!; try done. destruct Hd; [by right; left|by left].
  - destruct Hres as (-> & Hd). exists bm1, s, [], ∅. rewrite app_nil_r, (right_id_L ∅ (∪)).
    split_and!; try done. by right; right.
Qed.

(** The steps and sources of a batch. *)
Lemma batch_step_cons s bm b l s1 bm1 s2 bm2 :
  bm_step s bm (eq (reference b)) [b] s1 bm1 -> bm_step s1 bm1 (fun r => r ∈ refs_of l) l s2 bm2 ->
  bm_step s bm (fun r => r ∈ refs_of (b :: l)) (b :: l) s2 bm2.
Proof.
  intros St1 St2. apply (bm_step_trans _ _ _ _ _ _ _ _ _ _ _ _ St1 St2); simpl.
  - intros r <-. by apply elem_of_union_l, elem_of_singleton.
  - intros r Hr. by apply elem_of_union_r.
  - intros x ->%list_elem_of_singleton. left.
  - intros x Hx. by right.
Qed.

Lemma from_batch_head bm b l x : from_batch bm [b] x -> from_batch bm (b :: l) x.
Proof. intros [->%list_elem_of_singleton|]; [by left; left|by right]. Qed.

Lemma from_batch_tail s bm b l s1 bm1 x :
  bm_step s bm (eq (reference b)) [b] s1 bm1 -> from_batch bm1 l x -> from_batch bm (b :: l) x.
Proof.
  intros St [?|(sb1 & Esb1 & <-)]; [by left; right|].
  destruct (st_suspended _ _ _ _ _ _ St _ _ Esb1) as [(sb & Esb & Eb)|[_ ->%list_elem_of_singleton]];
    [right; by exists sb|by left; left].
Qed.

(** A batch in order of rounds. *)
Lemma accept_batch_Ok l : forall s bm acc miss,
  dag_inv s -> persist_inv s -> enable_v3 (protocol_config (ds_context s)) = false -> bm_inv s bm ->
  StronglySorted (fun a b => (round a <=? round b) = true) l ->
  (forall b, b ∈ l -> wf_block (ds_committee s) b /\ known_if_own s b) ->
  exists bm' s' new fetch,
    foldM (accept_received (ds_context s) false) l (bm, s, acc, miss) = Ok (bm', s', acc ++ new, miss ∪ fetch)
    /\ bm_step s bm (fun r => r ∈ refs_of l) l s' bm' /\ (forall b, b ∈ l -> handled s' bm' b)
    /\ (forall x, x ∈ new -> is_Some (dag_block s' (reference x)) /\ from_batch bm l x)
    /\ fetch ⊆ bm_missing_blocks bm'.
Proof.
  induction l as [|b l IH]; intros s bm acc miss Hs Hp Hv3 Hm Hsort Hl.
  { exists bm, s, [], ∅. rewrite app_nil_r, (right_id_L ∅ (∪)).
    split_and!; [done|by apply bm_step_refl|by intros b ?%elem_of_nil..|apply empty_subseteq]. }
  apply StronglySorted_inv in Hsort as [Hsort Hle]. rewrite Forall_forall in Hle.
  destruct (Hl b) as [Hwf Hown]; [left|].
  destruct (accept_received_Ok s bm acc miss b Hs Hp Hv3 Hm Hwf Hown)
    as (bm1 & s1 & new1 & fetch1 & E1 & St1 & Hb & Hn1 & Hf1).
  pose proof (st_dag _ _ _ _ _ _ St1) as G1. pose proof (dg_context _ _ _ G1) as C1.
  destruct (IH s1 bm1 (acc ++ new1) (miss ∪ fetch1)) as (bm2 & s2 & new2 & fetch2 & E2 & St2 & Hl2 & Hn2 & Hf2).
  { apply G1. } { apply G1. } { by rewrite C1. } { apply St1. } { done. }
  { intros b' Hb'. destruct (Hl b') as [Hwf' Hk]; [by right|]. unfold ds_committee. rewrite C1. split; [done|].
    unfold known_if_own. rewrite C1, (dag_grows_gc _ _ _ G1). destruct Hk as [?|[[x Hx]|?]]; [by left| |by right; right].
    right; left. exists x. by apply (dg_mono _ _ _ G1). }
  exists bm2, s2, (new1 ++ new2), (fetch1 ∪ fetch2). split_and!.
  - cbn [foldM]. rewrite E1. cbn [mbind outcome_bind]. rewrite C1 in E2. rewrite E2.
    by rewrite (assoc_L (++)), (assoc_L (∪)).
  - by apply (batch_step_cons s bm b l s1 bm1).
  - intros b' [->|Hb']%elem_of_cons; [by eapply handled_step|by apply Hl2].
  - intros x [Hx|Hx]%elem_of_app.
    + destruct (Hn1 x Hx) as [[y Hy] Hfrom]. split; [exists y; by apply (dg_mono _ _ _ (st_dag _ _ _ _ _ _ St2))|].
      by apply from_batch_head.
    + destruct (Hn2 x Hx) as [? Hfrom]. split; [done|by eapply from_batch_tail].
  - intros a [Ha|Ha]%elem_of_union; [|by apply Hf2]. destruct (Hf1 a Ha) as [Hmb Hlt].
    apply (st_fetch _ _ _ _ _ _ St2); [done|]. intros (b' & -> & Hb')%elem_of_list_to_set%list_elem_of_fmap.
    specialize (Hle b' Hb'). apply N.leb_le in Hle. simpl in Hlt. lia.
Qed.
End ops.
