(* ===== verification/BlockManagerGc.v ===== *)
(** * The block manager: committed blocks, lookups and garbage collection

    The remaining operations of the block manager: blocks of certified
    commits are accepted without waiting, unknown references are recorded for
    fetching, and missing ancestors at or below the GC round are given up. *)

From S2P Require Import Prelude Committee Context Block StakeAggregator ThresholdClock Commit Store LeaderScoring DagState DagInv Evolve DagOps DagAccept BlockManager BlockManagerInv BlockManagerDag BlockManagerOps.

Lemma foldl_alter_lookup (f : gset BlockRef -> gset BlockRef) (l : list BlockRef) :
  forall (m : gmap BlockRef (gset BlockRef)) a,
  NoDup l ->
  foldl (fun m k => alter f k m) m l !! a = if decide (a ∈ l) then f <$> m !! a else m !! a.
Proof.
  induction l as [|k l IH]; intros m a Hnd; [done|]. apply NoDup_cons in Hnd as [Hk Hnd]. simpl.
  rewrite IH by done. destruct (decide (a = k)) as [->|Hne].
  - rewrite decide_False by done. rewrite lookup_alter_eq. by rewrite decide_True by left.
  - rewrite lookup_alter_ne by done. destruct (decide (a ∈ l)); [by rewrite decide_True by (by right)|].
    rewrite decide_False; [done|]. rewrite elem_of_cons. tauto.
Qed.

Section more.
Context {S : Type} `{StoreLaws S}.
Implicit Types s : DagState S.

(* ------------------------------------------------------------------ *)
(** ** Garbage collection *)

(** The first missing ancestor was not received: it would wait for an older one. *)
Lemma first_missing_not_suspended s bm k X :
  bm_inv s bm -> btree_map_first (bm_missing_ancestors bm) = Some (k, X) ->
  bm_suspended_blocks bm !! k = None.
Proof.
  intros Hm [_ Hmin]%btree_map_first_spec. destruct (bm_suspended_blocks bm !! k) as [sb|] eqn:E; [|done].
  exfalso. destruct (bw_block _ (mi_wf _ _ Hm) k sb E) as (Eref & Hne & Ha).
  apply set_choose_L in Hne as [a Hin]. destruct (Ha a Hin) as [Hanc Hkey].
  destruct (mi_block _ _ Hm k sb E) as [Hwf _]. destruct (wb_anc _ _ Hwf a Hanc) as [Hlt _].
  specialize (Hmin a Hkey). apply block_ref_leb_round in Hmin. rewrite <- Eref in Hmin. simpl in Hmin. lia.
Qed.

Lemma gc_loop_Ok fuel : forall s bm,
  dag_inv s -> persist_inv s -> enable_v3 (protocol_config (ds_context s)) = false -> bm_inv s bm ->
  (size (bm_missing_ancestors bm) < fuel)%nat ->
  exists bm' s', gc_loop fuel (ds_context s) bm s (gc_round s) = Ok (bm', s')
    /\ bm_step s bm (fun r => br_round r <= gc_round s) [] s' bm'
    /\ forall a, is_Some (bm_missing_ancestors bm' !! a) -> gc_round s < br_round a.
Proof.
  induction fuel as [|fuel IH]; intros s bm Hs Hp Hv3 Hm Hf; [lia|]. cbn [gc_loop].
  destruct (btree_map_first (bm_missing_ancestors bm)) as [[k X]|] eqn:Ek.
  2:{ apply btree_map_first_None in Ek. exists bm, s. split_and!; [done|by apply bm_step_refl|].
      intros a. rewrite Ek, lookup_empty. by intros [? ?]. }
  pose proof (first_missing_not_suspended s bm k X Hm Ek) as Hsus.
  apply btree_map_first_spec in Ek as [Ek Hmin]. destruct (N.ltb_spec (gc_round s) (br_round k)) as [Hlt|Hle].
  { exists bm, s. split_and!; [done|by apply bm_step_refl|]. intros a Ha.
    specialize (Hmin a Ha). apply block_ref_leb_round in Hmin. lia. }
  destruct (mi_missing _ _ Hm k) as [Hv _]; [by rewrite Ek|].
  destruct (committee_authority_Ok (ds_committee s) (br_author k) Hv) as [au Eau]. unfold ds_committee in Eau.
  rewrite Eau. unfold is_suspended. rewrite Hsus, bool_decide_false by (by intros [? ?]).
  cbn [negb assert_that mbind outcome_bind].
  destruct (resolve_Ok s bm k [] Hs Hp Hv3 Hm Hsus) as (bm1 & out & s1 & -> & Eacc & St & _ & Hout & Hkeys).
  { done. } { by intros b ?%elem_of_nil. } { lia. }
  cbn [mbind outcome_bind fst snd]. rewrite app_nil_l in Eacc. rewrite Eacc. cbn [mbind outcome_bind].
  destruct (mapM_total (fun block => committee_authority (committee (ds_context s)) (author block)) out) as [ys ->].
  { intros b (sb & Esb & <-)%Hout. apply committee_authority_Ok. apply (mi_block _ _ Hm _ _ Esb). }
  cbn [mbind outcome_bind]. pose proof (st_dag _ _ _ _ _ _ St) as G.
  pose proof (dg_context _ _ _ G) as C1. pose proof (dag_grows_gc _ _ _ G) as Egc.
  destruct (IH s1 bm1) as (bm2 & s2 & E2 & St2 & Hgc2).
  { apply G. } { apply G. } { by rewrite C1. } { apply St. }
  { enough (size (bm_missing_ancestors bm1) < size (bm_missing_ancestors bm))%nat by lia.
    rewrite <- !size_dom. apply subset_size. split.
    - intros a Ha. rewrite elem_of_dom in Ha |- *. by apply Hkeys.
    - intros Hsub. assert (k ∈ dom (bm_missing_ancestors bm1)) as Hin%elem_of_dom
        by (apply Hsub; by eapply elem_of_dom_2).
      by destruct (Hkeys k Hin). }
  rewrite C1, Egc in *. exists bm2, s2. split_and!; [done| |done].
  apply (bm_step_trans _ _ _ _ _ _ _ _ _ _ _ _ St St2); [by intros r <-|done..].
Qed.

(* ------------------------------------------------------------------ *)
(** ** Looking for blocks *)

Lemma note_missing_block_Ok s bm M r :
  bm_inv s bm -> dag_block s r = None -> is_valid_index (ds_committee s) (br_author r) = true ->
  bm_suspended_blocks bm !! r = None ->
  exists bm', note_missing_block (ds_context s) (bm, M) (false, r) = Ok (bm', {[r]} ∪ M)
    /\ bm_inv s bm' /\ bm_suspended_blocks bm' = bm_suspended_blocks bm
    /\ bm_missing_blocks bm' = {[r]} ∪ bm_missing_blocks bm.
Proof.
  intros Hm Hdag Hv Hsus. unfold note_missing_block, is_suspended.
  rewrite (bool_decide_false (is_Some _)) by (rewrite Hsus; by intros [? ?]). cbn [orb].
  case_bool_decide as Hin.
  { exists bm. split_and!; try done. clear -Hin. set_solver. }
  destruct (committee_authority_Ok (ds_committee s) (br_author r) Hv) as [au Eau]. unfold ds_committee in Eau.
  cbn [set_missing_blocks set_missing_ancestors bm_missing_ancestors]. rewrite Eau. cbn [mbind outcome_bind].
  eexists. split; [done|]. split_and!; [|done|done].
  assert (bm_missing_ancestors bm !! r = None) as Hnone.
  { apply eq_None_not_Some. intros Hk. apply Hin. by apply (mi_blocks _ _ Hm). }
  unfold entry_or_default. rewrite Hnone. simpl. pose proof (mi_wf _ _ Hm) as Hw.
  constructor; simpl; [constructor; simpl| | | | |].
  - intros r' sb Esb. destruct (bw_block _ Hw r' sb Esb) as (? & ? & Ha). split_and!; [done|done|].
    intros a [? ?]%Ha. split; [done|]. rewrite lookup_insert_is_Some'. by right.
  - intros a X r' [[<- <-]|[? EX]]%lookup_insert_Some; [|by apply (bw_waits _ Hw)].
    split; [by intros ?%elem_of_empty|]. intros (sb & Esb & Ha). exfalso.
    destruct (bw_block _ Hw r' sb Esb) as (_ & _ & Hk). destruct (Hk r Ha) as [_ [? ?]]. congruence.
  - apply (mi_block _ _ Hm).
  - apply (mi_anc _ _ Hm).
  - intros a. rewrite lookup_insert_is_Some'. intros [<-|?]; [done|by apply (mi_missing _ _ Hm)].
  - intros a. rewrite elem_of_union, elem_of_singleton, lookup_insert_is_Some', (mi_blocks _ _ Hm).
    split; [by intros [->|?]; tauto|]. intros [[<-|?] ?]; tauto.
  - apply (mi_received _ _ Hm).
Qed.
(** A reference the node has neither accepted nor received. *)
Definition unknown s (bm : BlockManager) (r : BlockRef) : Prop :=
  dag_block s r = None /\ bm_suspended_blocks bm !! r = None.

Lemma note_known_block s bm M r :
  ~ unknown s bm r ->
  note_missing_block (ds_context s) (bm, M) (bool_decide (is_Some (dag_block s r)), r) = Ok (bm, M).
Proof.
  intros Hu. unfold note_missing_block, is_suspended. case_bool_decide as Hd; [done|].
  rewrite bool_decide_true; [done|]. apply not_eq_None_Some. intros Hs. apply Hu.
  split; [by apply eq_None_not_Some|done].
Qed.

Lemma find_fold_Ok s l : forall bm M,
  bm_inv s bm -> (forall r, r ∈ l -> is_valid_index (ds_committee s) (br_author r) = true) ->
  exists bm' M', foldM (note_missing_block (ds_context s))
      (zip ((fun r => bool_decide (is_Some (dag_block s r))) <$> l) l) (bm, M) = Ok (bm', M')
    /\ bm_inv s bm' /\ bm_suspended_blocks bm' = bm_suspended_blocks bm
    /\ (forall r, r ∈ M' <-> r ∈ M \/ r ∈ l /\ unknown s bm r)
    /\ (forall r, r ∈ bm_missing_blocks bm' <-> r ∈ bm_missing_blocks bm \/ r ∈ l /\ unknown s bm r).
Proof.
  induction l as [|r l IH]; intros bm M Hm Hl; cbn [fmap list_fmap zip zip_with foldM].
  { exists bm, M. split_and!; try done; intros r; rewrite elem_of_nil; tauto. }
  assert (forall r', r' ∈ l -> is_valid_index (ds_committee s) (br_author r') = true) as Hl'
    by (intros r' Hr'; apply Hl; by right).
  destruct (decide (dag_block s r = None /\ bm_suspended_blocks bm !! r = None)) as [[Hd Hsus]|Hk].
  - rewrite Hd, bool_decide_false by (by intros [? ?]).
    destruct (note_missing_block_Ok s bm M r Hm Hd) as (bm1 & E1 & Hm1 & Es1 & Eb1); [apply Hl; left|done|].
    rewrite E1. cbn [mbind outcome_bind].
    destruct (IH bm1 ({[r]} ∪ M) Hm1 Hl') as (bm' & M' & E & Hm' & Hs' & HM & HB).
    unfold unknown in *. rewrite Es1 in *. exists bm', M'.
    split_and!; try done; intros r'; rewrite ?HM, ?HB, ?Eb1, elem_of_cons, elem_of_union, elem_of_singleton;
      (split; [intros [[->|?]|?]; tauto|intros [?|[[->|?] ?]]; tauto]).
  - rewrite note_known_block by done. cbn [mbind outcome_bind].
    destruct (IH bm M Hm Hl') as (bm' & M' & E & Hm' & Hs' & HM & HB). exists bm', M'.
    split_and!; try done; intros r'; rewrite ?HM, ?HB, elem_of_cons;
      (split; [tauto|intros [?|[[->|?] ?]]; tauto]).
Qed.
(* ------------------------------------------------------------------ *)
(** ** Committed blocks *)

(** The records as if [r] had never been received. *)
Definition forget (bm : BlockManager) (r : BlockRef) : BlockManager :=
  match bm_suspended_blocks bm !! r with
  | Some sb =>
      {| bm_suspended_blocks := delete r (bm_suspended_blocks bm);
         bm_missing_ancestors :=
           foldl (fun m ancestor => alter (fun references => references ∖ {[r]}) ancestor m)
             (bm_missing_ancestors bm) (btree_iter (sb_missing_ancestors sb));
         bm_missing_blocks := if decide (is_Some (bm_missing_ancestors bm !! r))
                              then {[r]} ∪ bm_missing_blocks bm else bm_missing_blocks bm;
         bm_received_block_rounds := bm_received_block_rounds bm |}
  | None => bm
  end.

Lemma forget_suspended bm r : bm_suspended_blocks (forget bm r) = delete r (bm_suspended_blocks bm).
Proof.
  unfold forget. destruct (bm_suspended_blocks bm !! r) eqn:E; [done|]. symmetry. by apply delete_id.
Qed.

Lemma forget_missing bm r a :
  bm_wf bm -> bm_missing_ancestors (forget bm r) !! a
              = (fun X => X ∖ {[r]}) <$> bm_missing_ancestors bm !! a.
Proof.
  intros Hw. unfold forget. destruct (bm_suspended_blocks bm !! r) as [sb|] eqn:E; simpl.
  - rewrite foldl_alter_lookup by apply btree_iter_NoDup.
    destruct (decide (a ∈ btree_iter (sb_missing_ancestors sb))) as [|Hn]; [done|].
    destruct (bm_missing_ancestors bm !! a) as [X|] eqn:EX; [|done]. simpl. f_equal.
    assert (r ∉ X) as Hr; [|clear -Hr; set_solver].
    rewrite (bw_waits _ Hw a X r EX). intros (sb' & Esb' & Ha). rewrite E in Esb'. injection Esb' as <-.
    apply Hn. by apply elem_of_btree_iter.
  - destruct (bm_missing_ancestors bm !! a) as [X|] eqn:EX; [|done]. simpl. f_equal.
    assert (r ∉ X) as Hr; [|clear -Hr; set_solver].
    rewrite (bw_waits _ Hw a X r EX). intros (sb' & Esb' & _). congruence.
Qed.

Lemma forget_inv s bm r : bm_inv s bm -> bm_inv s (forget bm r).
Proof.
  intros Hm. pose proof (mi_wf _ _ Hm) as Hw.
  assert (forall a, is_Some (bm_missing_ancestors (forget bm r) !! a) <-> is_Some (bm_missing_ancestors bm !! a))
    as Hkey by (intros a; by rewrite forget_missing, fmap_is_Some).
  assert (forall r' sb, bm_suspended_blocks (forget bm r) !! r' = Some sb ->
            r' <> r /\ bm_suspended_blocks bm !! r' = Some sb) as Hsus.
  { intros r' sb. rewrite forget_suspended. intros [? ?]%lookup_delete_Some. done. }
  constructor; [constructor| | | | |].
  - intros r' sb [Hne E]%Hsus. destruct (bw_block _ Hw r' sb E) as (? & ? & Ha). split_and!; [done|done|].
    intros a [? ?]%Ha. by rewrite Hkey.
  - intros a X r' EX. rewrite forget_missing in EX by done. apply fmap_Some in EX as (Y & EY & ->).
    rewrite elem_of_difference, elem_of_singleton, (bw_waits _ Hw a Y r' EY), forget_suspended.
    destruct (decide (r' = r)) as [->|Hne]; [rewrite lookup_delete_eq|rewrite lookup_delete_ne by done].
    + split; [tauto|]. by intros (? & ? & _).
    + tauto.
  - intros r' sb [Hne E]%Hsus. by apply (mi_block _ _ Hm).
  - intros r' sb a [Hne E]%Hsus. by eapply (mi_anc _ _ Hm).
  - intros a Ha%Hkey. by apply (mi_missing _ _ Hm).
  - intros a. rewrite Hkey, forget_suspended. unfold forget.
    destruct (bm_suspended_blocks bm !! r) as [sb|] eqn:E; simpl; [|by rewrite delete_id, (mi_blocks _ _ Hm)].
    destruct (decide (a = r)) as [->|Hne]; [rewrite lookup_delete_eq|rewrite lookup_delete_ne by done].
    + destruct (decide (is_Some (bm_missing_ancestors bm !! r))) as [Hk|Hk]; rewrite ?elem_of_union, ?elem_of_singleton.
      * tauto.
      * rewrite (mi_blocks _ _ Hm). tauto.
    + destruct (decide (is_Some (bm_missing_ancestors bm !! r))) as [Hk|Hk];
        rewrite ?elem_of_union, ?elem_of_singleton, (mi_blocks _ _ Hm); tauto.
  - unfold forget. destruct (bm_suspended_blocks bm !! r); apply (mi_received _ _ Hm).
Qed.

(** Receiving a committed block first forgets that it was suspended. *)
Lemma committed_forgets bm (r : BlockRef) :
  (let bm := set_missing_blocks bm (bm_missing_blocks bm ∖ {[r]}) in
   match bm_suspended_blocks bm !! r with
   | Some suspended_block =>
       let bm := set_suspended bm (delete r (bm_suspended_blocks bm)) in
       set_missing_ancestors bm
         (foldl (fun m ancestor => alter (fun references => references ∖ {[r]}) ancestor m)
            (bm_missing_ancestors bm) (btree_iter (sb_missing_ancestors suspended_block)))
   | None => bm
   end) = set_missing_blocks (forget bm r) (bm_missing_blocks (forget bm r) ∖ {[r]}).
Proof.
  unfold forget. simpl. destruct (bm_suspended_blocks bm !! r) as [sb|]; [|done]. simpl.
  unfold set_missing_blocks, set_missing_ancestors, set_suspended. simpl. f_equal.
  destruct (decide _); [|done]. clear. set_solver.
Qed.
Lemma forget_step s bm b s' bm' :
  bm_wf bm -> bm_step s (forget bm (reference b)) (eq (reference b)) [b] s' bm' ->
  is_Some (dag_block s' (reference b)) -> bm_step s bm (eq (reference b)) [b] s' bm'.
Proof.
  intros Hwf [? [? ? ? ? ? Hnew] Hkept Hsus Hfetch Hgr Hmis] Hb. unfold is_waiting in Hgr.
  rewrite forget_suspended in *.
  constructor; [done|constructor; try done| | | | |].
  - intros r [?|[?|Hr]]%Hnew; [by left|by right; left|right; right].
    apply lookup_delete_is_Some in Hr. tauto.
  - intros r Hr. destruct (decide (r = reference b)) as [->|Hne]; [by right|].
    apply Hkept. by rewrite lookup_delete_ne.
  - intros r sb' [(sb & [_ ?]%lookup_delete_Some & ?)|?]%Hsus; [left; by exists sb|by right].
  - intros r Hr Hne. apply Hfetch; [|done]. unfold forget.
    destruct (bm_suspended_blocks bm !! reference b); [simpl|done].
    destruct (decide _); [by apply elem_of_union_r|done].
  - apply (grown_mono _ _ _ _ Hgr). intros x [?|(r & sb & [_ ?]%lookup_delete_Some & ?)]; [by left|right; by exists r, sb].
  - intros a [Ha|?]%Hmis; [left|by right]. rewrite forget_missing in Ha by done. by rewrite fmap_is_Some in Ha.
Qed.

Lemma accept_committed_one s bm acc miss b :
  dag_inv s -> persist_inv s -> enable_v3 (protocol_config (ds_context s)) = false -> bm_inv s bm ->
  wf_block (ds_committee s) b ->
  (dag_block s (reference b) = None -> rooted s b /\ author b <> own_index (ds_context s)) ->
  exists bm' s' new,
    accept_received (ds_context s) true (bm, s, acc, miss) b = Ok (bm', s', acc ++ new, miss)
    /\ bm_step s bm (eq (reference b)) [b] s' bm' /\ is_Some (dag_block s' (reference b))
    /\ (forall x, x ∈ new -> is_Some (dag_block s' (reference x)) /\ from_batch bm [b] x).
Proof.
  intros Hs Hp Hv3 Hm Hwf Hb. unfold accept_received.
  destruct (received_metrics_Ok s bm b Hm (wb_author _ _ Hwf)) as (l & -> & Hm1). cbn [mbind outcome_bind].
  set (bm1 := set_received_rounds bm l) in *. unfold try_accept_one_committed_block.
  rewrite contains_block_spec by (done || apply (wb_author _ _ Hwf)). cbn [mbind outcome_bind].
  case_bool_decide as Hd.
  { exists bm1, s, []. rewrite app_nil_r. split_and!; [done| |done|by intros x ?%elem_of_nil].
    apply (bm_step_received s bm l). by apply bm_step_refl. }
  apply eq_None_not_Some in Hd. destruct (Hb Hd) as [Hroot Hown].
  rewrite committed_forgets. pose proof (forget_inv s bm1 (reference b) Hm1) as Hm2.
  destruct (resolve_Ok s (forget bm1 (reference b)) (reference b) [b] Hs Hp Hv3 Hm2)
    as (bm3 & out & s' & E & Eacc & St & Hin & Hout & _).
  { by rewrite forget_suspended, lookup_delete_eq. }
  { by apply rooted_causal. } { by intros ? ->%list_elem_of_singleton. }
  { intros _. by apply elem_of_list_to_set, list_elem_of_singleton. }
  unfold accept_blocks in Eacc. rewrite foldM_app in Eacc. apply bind_Ok in Eacc as (s1 & E1 & E2).
  unfold accept_blocks. rewrite E1. cbn [mbind outcome_bind]. rewrite E. cbn [mbind outcome_bind fst snd].
  rewrite app_nil_l, E2. cbn [mbind outcome_bind]. exists bm3, s', ([b] ++ out). split_and!.
  - by rewrite (assoc_L (++)).
  - apply (bm_step_received s bm l). apply forget_step; [apply Hm1|done|]. apply Hin. left.
  - apply Hin. left.
  - intros x Hx. split; [by apply Hin|]. apply elem_of_app in Hx as [?|(sb & Esb & ?)%Hout]; [by left|right].
    rewrite forget_suspended in Esb. apply lookup_delete_Some in Esb as [_ ?]. by exists sb.
Qed.

(** A batch of committed blocks: each ancestor above the GC round is in the
    DAG state or in the batch. *)
Lemma committed_batch_Ok l : forall s bm acc miss,
  dag_inv s -> persist_inv s -> enable_v3 (protocol_config (ds_context s)) = false -> bm_inv s bm ->
  StronglySorted (fun a b => (round a <=? round b) = true) l ->
  (forall b, b ∈ l -> wf_block (ds_committee s) b
     /\ (author b = own_index (ds_context s) -> is_Some (dag_block s (reference b)))
     /\ forall a, a ∈ ancestors b -> gc_round s < br_round a -> is_Some (dag_block s a) \/ a ∈ refs_of l) ->
  exists bm' s' new,
    foldM (accept_received (ds_context s) true) l (bm, s, acc, miss) = Ok (bm', s', acc ++ new, miss)
    /\ bm_step s bm (fun r => r ∈ refs_of l) l s' bm'
    /\ (forall b, b ∈ l -> is_Some (dag_block s' (reference b)))
    /\ (forall x, x ∈ new -> is_Some (dag_block s' (reference x)) /\ from_batch bm l x).
Proof.
  induction l as [|b l IH]; intros s bm acc miss Hs Hp Hv3 Hm Hsort Hl.
  { exists bm, s, []. rewrite app_nil_r.
    split_and!; [done|by apply bm_step_refl|by intros b ?%elem_of_nil..]. }
  apply StronglySorted_inv in Hsort as [Hsort Hle]. rewrite Forall_forall in Hle.
  destruct (Hl b) as (Hwf & Hown & Hanc); [left|].
  destruct (accept_committed_one s bm acc miss b Hs Hp Hv3 Hm Hwf) as (bm1 & s1 & new1 & E1 & St1 & Hb & Hn1).
  { intros Hd. split; [|intros [? ?]%Hown; congruence]. split; [done|]. intros a Ha Hgc.
    destruct (Hanc a Ha Hgc) as [[x Hx]|Hin]; [exists x; by apply dag_block_recent|]. exfalso.
    destruct (wb_anc _ _ Hwf a Ha) as [Hlt _].
    apply elem_of_list_to_set, list_elem_of_fmap in Hin as (b' & -> & [->|Hb']%elem_of_cons); simpl in Hlt; [lia|].
    specialize (Hle b' Hb'). apply N.leb_le in Hle. lia. }
  pose proof (st_dag _ _ _ _ _ _ St1) as G1. pose proof (dg_context _ _ _ G1) as C1.
  assert (forall r, is_Some (dag_block s r) -> is_Some (dag_block s1 r)) as Hmono
    by (intros r [x Hx]; exists x; by apply (dg_mono _ _ _ G1)).
  destruct (IH s1 bm1 (acc ++ new1) miss) as (bm2 & s2 & new2 & E2 & St2 & Hl2 & Hn2).
  { apply G1. } { apply G1. } { by rewrite C1. } { apply St1. } { done. }
  { unfold ds_committee. rewrite C1, (dag_grows_gc _ _ _ G1). intros b' Hb'.
    destruct (Hl b') as (? & Hown' & Hanc'); [by right|]. split_and!; [done|by intros ?%Hown'; apply Hmono|].
    intros a Ha Hgc. destruct (Hanc' a Ha Hgc) as [?|Hin]; [left; by apply Hmono|]. simpl in Hin.
    apply elem_of_union in Hin as [->%elem_of_singleton|?]; [by left|by right]. }
  exists bm2, s2, (new1 ++ new2). pose proof (st_dag _ _ _ _ _ _ St2) as G2.
  assert (forall r, is_Some (dag_block s1 r) -> is_Some (dag_block s2 r)) as Hmono2
    by (intros r [x Hx]; exists x; by apply (dg_mono _ _ _ G2)).
  split_and!.
  - cbn [foldM]. rewrite E1. cbn [mbind outcome_bind]. rewrite C1 in E2. rewrite E2. by rewrite (assoc_L (++)).
  - by apply (batch_step_cons s bm b l s1 bm1).
  - intros b' [->|Hb']%elem_of_cons; [by apply Hmono2|by apply Hl2].
  - intros x [Hx|Hx]%elem_of_app.
    + destruct (Hn1 x Hx) as [Hy Hfrom]. split; [by apply Hmono2|by apply from_batch_head].
    + destruct (Hn2 x Hx) as [? Hfrom]. split; [done|by eapply from_batch_tail].
Qed.
End more.
