(* ===== verification/BlockManagerTheorems.v ===== *)
(** * The block manager: what it promises

    Whatever order blocks arrive in, they reach the DAG state in causal order
    or are kept with a record of what they wait for, and what has to be
    fetched is known. *)

From S2P Require Import Prelude Committee Context Block StakeAggregator ThresholdClock Commit Store LeaderScoring DagState DagInv Evolve DagOps DagAccept SampleDag BlockManager BlockManagerInv BlockManagerDag BlockManagerOps BlockManagerGc.

(** [awaits bm r a]: [r] waits for [a] through suspended blocks. *)
Inductive awaits (bm : BlockManager) : BlockRef -> BlockRef -> Prop :=
  | awaits_one r sb a : bm_suspended_blocks bm !! r = Some sb -> a ∈ sb_missing_ancestors sb -> awaits bm r a
  | awaits_more r sb x a : bm_suspended_blocks bm !! r = Some sb -> x ∈ sb_missing_ancestors sb ->
      awaits bm x a -> awaits bm r a.

Section promises.
Context {S : Type} `{StoreLaws S}.
Implicit Types s : DagState S.

Lemma block_manager_new_inv s : bm_inv s (block_manager_new (ds_context s)).
Proof.
  constructor; simpl.
  - constructor; [intros r sb E|intros a X r E]; simpl in E; by rewrite lookup_empty in E.
  - intros r sb E. by rewrite lookup_empty in E.
  - intros r sb a E. by rewrite lookup_empty in E.
  - intros a Ha. rewrite lookup_empty in Ha. by destruct Ha.
  - intros a. rewrite elem_of_empty, lookup_empty. split; [done|]. by intros [[? ?] _].
  - by rewrite length_replicate.
Qed.

(** Every suspended block waits, in the end, for a block that is to be fetched. *)
Lemma suspended_awaits s bm r :
  bm_inv s bm -> is_Some (bm_suspended_blocks bm !! r) ->
  exists a, a ∈ bm_missing_blocks bm /\ awaits bm r a.
Proof.
  intros Hm. remember (N.to_nat (br_round r)) as n eqn:Hn. revert r Hn.
  induction n as [n IH] using lt_wf_ind. intros r -> [sb E].
  destruct (bw_block _ (mi_wf _ _ Hm) r sb E) as (Eref & Hne & Ha).
  apply set_choose_L in Hne as [a Hin]. destruct (Ha a Hin) as [Hanc Hkey].
  destruct (bm_suspended_blocks bm !! a) as [sb'|] eqn:E'.
  - destruct (mi_block _ _ Hm r sb E) as [Hwf _]. destruct (wb_anc _ _ Hwf a Hanc) as [Hlt _].
    destruct (IH (N.to_nat (br_round a))) with (r := a) as (x & Hx & Haw); [rewrite <- Eref; simpl; lia|done|by eexists|].
    exists x. split; [done|by eapply awaits_more].
  - exists a. split; [by apply (mi_blocks _ _ Hm)|by eapply awaits_one].
Qed.

Lemma sorted_by_round (l : list VerifiedBlock) :
  StronglySorted (fun a b => (round a <=? round b) = true) (stable_sort (fun a b => round a <=? round b) l).
Proof. apply stable_sort_sorted; intros *; rewrite ?N.leb_le; lia. Qed.

Lemma others_known s (blocks : list VerifiedBlock) :
  (forall b, b ∈ blocks -> wf_block (ds_committee s) b /\ author b <> own_index (ds_context s)) ->
  forall b, b ∈ blocks -> wf_block (ds_committee s) b /\ known_if_own s b.
Proof. intros Hb b Hin. destruct (Hb b Hin). split; [done|by left]. Qed.

Lemma try_accept_blocks_Ok s bm blocks :
  dag_inv s -> persist_inv s -> enable_v3 (protocol_config (ds_context s)) = false -> bm_inv s bm ->
  (forall b, b ∈ blocks -> wf_block (ds_committee s) b /\ known_if_own s b) ->
  exists bm' s' accepted missing,
    try_accept_blocks (ds_context s) bm s blocks = Ok (bm', s', accepted, missing)
    /\ bm_step s bm (fun r => r ∈ refs_of blocks) blocks s' bm'
    /\ (forall b, b ∈ blocks -> handled s' bm' b)
    /\ (forall x, x ∈ accepted -> is_Some (dag_block s' (reference x)) /\ from_batch bm blocks x)
    /\ missing ⊆ bm_missing_blocks bm'.
Proof.
  intros Hs Hp Hv3 Hm Hb. unfold try_accept_blocks, try_accept_blocks_internal.
  pose proof (stable_sort_perm (fun a b => round a <=? round b) blocks) as Hperm.
  destruct (accept_batch_Ok (stable_sort (fun a b => round a <=? round b) blocks) s bm [] ∅ Hs Hp Hv3 Hm)
    as (bm' & s' & new & fetch & E & St & Hh & Hn & Hf).
  { apply sorted_by_round. }
  { intros b Hin. apply Hb. by rewrite elem_of_stable_sort in Hin. }
  exists bm', s', new, fetch. rewrite E, (left_id_L ∅ (∪)). split_and!; [done| | | |done].
  - destruct St as [? [? ? ? ? ? Hnew] ? Hsus Hft Hgr Hmis].
    assert (forall r, r ∈ refs_of (stable_sort (fun a b => round a <=? round b) blocks) <-> r ∈ refs_of blocks) as Hr
      by (intros r; by rewrite !elem_of_list_to_set, Hperm).
    constructor; [done|constructor; try done|done| | | |].
    + intros r [?|[?%Hr|?]]%Hnew; auto.
    + intros r sb' [?|[?%Hr ?]]%Hsus; [by left|right]. by rewrite Hperm in *.
    + intros r Hin Hn'. apply Hft; [done|]. by rewrite Hr.
    + apply (grown_mono _ _ _ _ Hgr). intros x [Hx|?]; [left; by rewrite elem_of_stable_sort in Hx|by right].
    + intros a [?|(x & Hx & ?)]%Hmis; [by left|right]. exists x. by rewrite elem_of_stable_sort in Hx.
  - intros b Hin. apply Hh. by rewrite elem_of_stable_sort.
  - intros x Hx. destruct (Hn x Hx) as [? Hfrom]. split; [done|].
    destruct Hfrom as [Hin|]; [left; by rewrite elem_of_stable_sort in Hin|by right].
Qed.
End promises.

(* ------------------------------------------------------------------ *)
(** ** Properties *)

(** C17: Receiving blocks is total and keeps the DAG.  From consistent states
    of the manager and the DAG, accepting any batch of verified blocks of
    other authorities, in any order and with any ancestors missing, returns
    without a panic; the invariants of the DAG state and of the manager hold
    again; every block of the batch is then in the DAG state, or suspended,
    or at or below the GC round; the blocks reported as accepted are in the
    DAG state and were in the batch or suspended; no block is lost, neither
    from the DAG state nor from suspension; and every block reported as
    missing is still recorded for fetching. *)
Theorem try_accept_blocks_correct {S} `{StoreLaws S} (s : DagState S) (bm : BlockManager)
    (blocks : list VerifiedBlock) :
  dag_inv s -> persist_inv s -> enable_v3 (protocol_config (ds_context s)) = false -> bm_inv s bm ->
  (forall b, b ∈ blocks -> wf_block (ds_committee s) b /\ author b <> own_index (ds_context s)) ->
  exists bm' s' accepted missing,
    try_accept_blocks (ds_context s) bm s blocks = Ok (bm', s', accepted, missing)
    /\ dag_inv s' /\ persist_inv s' /\ bm_inv s' bm'
    /\ (forall b, b ∈ blocks -> handled s' bm' b)
    /\ (forall x, x ∈ accepted -> is_Some (dag_block s' (reference x)) /\ from_batch bm blocks x)
    /\ (forall r x, dag_block s r = Some x -> dag_block s' r = Some x)
    /\ (forall r, is_Some (bm_suspended_blocks bm !! r) ->
          is_Some (bm_suspended_blocks bm' !! r) \/ is_Some (dag_block s' r))
    /\ missing ⊆ bm_missing_blocks bm'.
Proof.
  intros Hs Hp Hv3 Hm Hb.
  destruct (try_accept_blocks_Ok s bm blocks Hs Hp Hv3 Hm (others_known s blocks Hb)) as (bm' & s' & acc & miss & E & St & ?).
  exists bm', s', acc, miss. destruct St as [? [? ? ? ? ? ?] ? ? ? ?]. by intuition.
Qed.

(** C25: Nothing waits in vain: after a batch, each suspended block waits,
    through suspended blocks, for a block that is recorded for fetching.  In
    particular, when nothing is left to fetch, nothing is suspended. *)
Theorem suspended_blocks_await_fetch {S} `{StoreLaws S} (s : DagState S) (bm : BlockManager)
    (blocks : list VerifiedBlock) :
  dag_inv s -> persist_inv s -> enable_v3 (protocol_config (ds_context s)) = false -> bm_inv s bm ->
  (forall b, b ∈ blocks -> wf_block (ds_committee s) b /\ author b <> own_index (ds_context s)) ->
  exists bm' s' accepted missing,
    try_accept_blocks (ds_context s) bm s blocks = Ok (bm', s', accepted, missing)
    /\ (forall r, is_Some (bm_suspended_blocks bm' !! r) ->
          exists a, a ∈ bm_missing_blocks bm' /\ awaits bm' r a /\ contains_block s' a = Ok false)
    /\ (bm_missing_blocks bm' = ∅ ->
        forall b, b ∈ blocks -> gc_round s < round b -> contains_block s' (reference b) = Ok true).
Proof.
  intros Hs Hp Hv3 Hm Hb.
  destruct (try_accept_blocks_Ok s bm blocks Hs Hp Hv3 Hm (others_known s blocks Hb)) as (bm' & s' & acc & miss & E & St & Hh & _).
  exists bm', s', acc, miss. pose proof (st_dag _ _ _ _ _ _ St) as G. pose proof (st_inv _ _ _ _ _ _ St) as Hm'.
  split_and!; [done| |].
  - intros r Hr. destruct (suspended_awaits s' bm' r Hm' Hr) as (a & Ha & Haw). exists a. split_and!; [done..|].
    apply (mi_blocks _ _ Hm') in Ha as [Hk _]. destruct (mi_missing _ _ Hm' a Hk) as [Hv Hnone].
    rewrite contains_block_spec by (done || apply G). by rewrite Hnone.
  - intros Hemp b Hin Hgc. rewrite contains_block_spec.
    + f_equal. apply bool_decide_eq_true. destruct (Hh b Hin) as [?|[Hsus|Hle]]; [done| |].
      * destruct (suspended_awaits s' bm' _ Hm' Hsus) as (a & Ha & _). rewrite Hemp in Ha. set_solver.
      * rewrite (dag_grows_gc _ _ _ G) in Hle. lia.
    + apply G.
    + apply G.
    + unfold ds_committee. rewrite (dg_context _ _ _ G). by apply (wb_author _ b), Hb.
Qed.

(** C33: Committed blocks are accepted at once: for a batch of verified
    blocks in which each ancestor above the GC round is in the DAG state or
    in the batch, and each own block is in the DAG state, accepting is total,
    its assertion that nothing is missing holds, every block of the batch is
    in the DAG state afterwards, and the invariants hold again. *)
Theorem try_accept_committed_blocks_correct {S} `{StoreLaws S} (s : DagState S) (bm : BlockManager)
    (blocks : list VerifiedBlock) :
  dag_inv s -> persist_inv s -> enable_v3 (protocol_config (ds_context s)) = false -> bm_inv s bm ->
  (forall b, b ∈ blocks -> wf_block (ds_committee s) b
     /\ (author b = own_index (ds_context s) -> is_Some (dag_block s (reference b)))
     /\ forall a, a ∈ ancestors b -> gc_round s < br_round a ->
          is_Some (dag_block s a) \/ a ∈ refs_of blocks) ->
  exists bm' s' accepted,
    try_accept_committed_blocks (ds_context s) bm s blocks = Ok (bm', s', accepted)
    /\ dag_inv s' /\ persist_inv s' /\ bm_inv s' bm'
    /\ (forall b, b ∈ blocks -> is_Some (dag_block s' (reference b)))
    /\ (forall x, x ∈ accepted -> is_Some (dag_block s' (reference x)) /\ from_batch bm blocks x)
    /\ (forall r x, dag_block s r = Some x -> dag_block s' r = Some x).
Proof.
  intros Hs Hp Hv3 Hm Hb. unfold try_accept_committed_blocks, try_accept_blocks_internal.
  set (sorted := stable_sort _ blocks).
  assert (forall b, b ∈ sorted <-> b ∈ blocks) as Hin by (intros b; apply elem_of_stable_sort).
  destruct (committed_batch_Ok sorted s bm [] ∅ Hs Hp Hv3 Hm) as (bm' & s' & new & -> & St & Hh & Hn).
  { apply sorted_by_round. }
  { intros b Hb'%Hin. destruct (Hb b Hb') as (? & ? & Ha). split_and!; [done|done|].
    intros a Hanc Hgc. destruct (Ha a Hanc Hgc) as [?|Hr]; [by left|right].
    rewrite elem_of_list_to_set in *. unfold sorted. by rewrite stable_sort_perm. }
  cbn [mbind outcome_bind]. rewrite bool_decide_true by done. exists bm', s', new.
  destruct St as [? [? ? ? ? ? ?] ? ? ? ?]. split_and!; try done.
  - intros b Hb'. by apply Hh, Hin.
  - intros x Hx. destruct (Hn x Hx) as [? [Hf%Hin|?]]; split; try done; [by left|by right].
Qed.

(** The garbage collection of missing ancestors terminates and gives up
    exactly the old ones: its assertion that the first missing ancestor was
    not received holds at every turn, the blocks it unsuspends are accepted,
    the invariants hold again, no ancestor at or below the GC round is
    recorded as missing any more, and the missing blocks above it stay
    recorded for fetching. *)
Theorem gc_of_missing_ancestors_correct {S} `{StoreLaws S} (s : DagState S) (bm : BlockManager) :
  dag_inv s -> persist_inv s -> enable_v3 (protocol_config (ds_context s)) = false -> bm_inv s bm ->
  exists bm' s',
    try_unsuspend_blocks_for_latest_gc_round (ds_context s) bm s = Ok (bm', s')
    /\ dag_inv s' /\ persist_inv s' /\ bm_inv s' bm'
    /\ (forall a, is_Some (bm_missing_ancestors bm' !! a) -> gc_round s < br_round a)
    /\ (forall r sb, bm_suspended_blocks bm' !! r = Some sb ->
          set_Forall (fun a => gc_round s < br_round a) (sb_missing_ancestors sb))
    /\ (forall r, is_Some (bm_suspended_blocks bm !! r) ->
          is_Some (bm_suspended_blocks bm' !! r) \/ is_Some (dag_block s' r))
    /\ (forall r, r ∈ bm_missing_blocks bm -> gc_round s < br_round r -> r ∈ bm_missing_blocks bm').
Proof.
  intros Hs Hp Hv3 Hm. unfold try_unsuspend_blocks_for_latest_gc_round.
  destruct (gc_loop_Ok (Datatypes.S (size (bm_missing_ancestors bm))) s bm Hs Hp Hv3 Hm) as (bm' & s' & E & St & Hgc);
    [lia|].
  exists bm', s'. destruct St as [Hm' [? ? ? ? ? ?] ? ? Hf _]. split_and!; try done.
  - intros r sb Esb a Ha. apply Hgc. by apply (bw_block _ (mi_wf _ _ Hm') r sb Esb).
  - intros r Hr Hlt. apply Hf; [done|]. lia.
Qed.

(** Looking for references answers exactly the unknown ones: those above
    the GC round that are neither in the DAG state nor suspended; they are
    recorded for fetching with the ones recorded before, and the invariant
    holds again. *)
Theorem try_find_blocks_correct {S} `{StoreLaws S} (s : DagState S) (bm : BlockManager)
    (block_refs : list BlockRef) :
  dag_inv s -> persist_inv s -> bm_inv s bm ->
  (forall r, r ∈ block_refs -> is_valid_index (ds_committee s) (br_author r) = true) ->
  let new r := r ∈ block_refs /\ gc_round s < br_round r /\ dag_block s r = None
               /\ bm_suspended_blocks bm !! r = None in
  exists bm' missing, try_find_blocks (ds_context s) bm s block_refs = Ok (bm', missing)
    /\ bm_inv s bm' /\ bm_suspended_blocks bm' = bm_suspended_blocks bm
    /\ (forall r, r ∈ missing <-> new r)
    /\ (forall r, r ∈ bm_missing_blocks bm' <-> r ∈ bm_missing_blocks bm \/ new r).
Proof.
  intros Hs Hp Hm Hv new. unfold try_find_blocks. set (l := List.filter _ block_refs).
  assert (forall r, r ∈ l <-> r ∈ block_refs /\ gc_round s < br_round r) as Hl
    by (intros r; unfold l; rewrite list_filter_elem_of, N.ltb_lt; tauto).
  assert (forall r, r ∈ l /\ unknown s bm r <-> new r) as Hnew by (intros r; rewrite Hl; unfold unknown, new; tauto).
  clearbody l. destruct l as [|r0 l0]; cbn [is_empty].
  { exists bm, ∅. split_and!; try done; intros r; rewrite <- Hnew, elem_of_nil, ?elem_of_empty; tauto. }
  set (sorted := stable_sort _ _).
  assert (forall r, r ∈ sorted <-> r ∈ r0 :: l0) as Hin by (intros r; apply elem_of_stable_sort).
  rewrite contains_blocks_spec; [|done|done|intros r [? _]%Hin%Hl; by apply Hv]. cbn [mbind outcome_bind].
  destruct (find_fold_Ok s sorted bm ∅ Hm) as (bm' & M & -> & Hm' & Hs' & HM & HB);
    [intros r [? _]%Hin%Hl; by apply Hv|].
  exists bm', M. split_and!; try done; intros r; rewrite ?HM, ?HB, Hin, Hnew, ?elem_of_empty; tauto.
Qed.

(* ------------------------------------------------------------------ *)
(** ** Witnesses *)

(** A block of round 8 reaches validator 0, which has rounds 1 to 6. *)
Definition early_block : VerifiedBlock := sample_block 8 1.

Definition sample_received : outcome (BlockManager * DagState MemStore * list VerifiedBlock * gset BlockRef) :=
  try_accept_blocks (ds_context (sample 0 6)) (block_manager_new (ds_context (sample 0 6))) (sample 0 6)
    [early_block].

Definition sample_manager : BlockManager :=
  match sample_received with Ok (bm, _, _, _) => bm | _ => block_manager_new (sample_context 0) end.

Definition sample_after : DagState MemStore :=
  match sample_received with Ok (_, s, _, _) => s | _ => sample 0 6 end.

Lemma sample_own_context : ds_context (sample 0 6) = sample_context 0.
Proof. apply (sample_ok 0 6 sample_causal). Qed.

Lemma sample_v3 : enable_v3 (protocol_config (ds_context (sample 0 6))) = false.
Proof. by rewrite sample_own_context. Qed.

Lemma early_block_ok b :
  b ∈ [early_block] -> wf_block (ds_committee (sample 0 6)) b /\ author b <> own_index (ds_context (sample 0 6)).
Proof.
  unfold ds_committee. rewrite sample_own_context.
  intros ->%list_elem_of_singleton. split; [|vm_compute; discriminate].
  apply wf_block_b_spec. vm_compute. reflexivity.
Qed.

Lemma sample_manager_inv :
  dag_inv sample_after /\ persist_inv sample_after /\ bm_inv sample_after sample_manager
  /\ ds_context sample_after = sample_context 0.
Proof.
  destruct (try_accept_blocks_Ok (sample 0 6) (block_manager_new (ds_context (sample 0 6))) [early_block] sample_inv
              sample_persist sample_v3 (block_manager_new_inv (sample 0 6)) (others_known _ _ early_block_ok))
    as (bm' & s' & acc & miss & E & [Hm [? ? C ? ? ?] _ _ _ _] & _).
  unfold sample_after, sample_manager, sample_received.
  rewrite E. split_and!; [done..|]. by rewrite C, sample_own_context.
Qed.

(** The early block is suspended, and the blocks of round 7 are to be fetched. *)
Lemma early_block_waits :
  is_suspended sample_manager (reference early_block) = true
  /\ btree_iter (bm_missing_blocks sample_manager) = sample_ref 7 <$> [0; 1; 2; 3].
Proof. split; vm_compute; reflexivity. Qed.

(** Round 7 arrives. *)
Definition late_blocks : list VerifiedBlock := [sample_block 7 3; sample_block 7 1].

Lemma late_blocks_ok b :
  b ∈ late_blocks -> wf_block (ds_committee sample_after) b /\ author b <> own_index (ds_context sample_after).
Proof.
  destruct sample_manager_inv as (_ & _ & _ & C). unfold ds_committee. rewrite C.
  intros [->|[->|[]%elem_of_nil]%elem_of_cons]%elem_of_cons; (split; [|vm_compute; discriminate]);
    apply wf_block_b_spec; vm_compute; reflexivity.
Qed.

Lemma sample_after_v3 : enable_v3 (protocol_config (ds_context sample_after)) = false.
Proof. destruct sample_manager_inv as (_ & _ & _ & C). by rewrite C. Qed.

Lemma try_accept_blocks_correct_witness :
  exists bm' s' accepted missing,
    try_accept_blocks (ds_context sample_after) sample_manager sample_after late_blocks
      = Ok (bm', s', accepted, missing)
    /\ dag_inv s' /\ persist_inv s' /\ bm_inv s' bm'
    /\ (forall b, b ∈ late_blocks -> handled s' bm' b)
    /\ (forall x, x ∈ accepted -> is_Some (dag_block s' (reference x)) /\ from_batch sample_manager late_blocks x)
    /\ (forall r x, dag_block sample_after r = Some x -> dag_block s' r = Some x)
    /\ (forall r, is_Some (bm_suspended_blocks sample_manager !! r) ->
          is_Some (bm_suspended_blocks bm' !! r) \/ is_Some (dag_block s' r))
    /\ missing ⊆ bm_missing_blocks bm'.
Proof.
  destruct sample_manager_inv as (Hs & Hp & Hm & _).
  exact (try_accept_blocks_correct sample_after sample_manager late_blocks Hs Hp sample_after_v3 Hm late_blocks_ok).
Defined.

Lemma suspended_blocks_await_fetch_witness :
  exists bm' s' accepted missing,
    try_accept_blocks (ds_context sample_after) sample_manager sample_after late_blocks
      = Ok (bm', s', accepted, missing)
    /\ (forall r, is_Some (bm_suspended_blocks bm' !! r) ->
          exists a, a ∈ bm_missing_blocks bm' /\ awaits bm' r a /\ contains_block s' a = Ok false)
    /\ (bm_missing_blocks bm' = ∅ ->
        forall b, b ∈ late_blocks -> gc_round sample_after < round b -> contains_block s' (reference b) = Ok true).
Proof.
  destruct sample_manager_inv as (Hs & Hp & Hm & _).
  exact (suspended_blocks_await_fetch sample_after sample_manager late_blocks Hs Hp sample_after_v3 Hm late_blocks_ok).
Defined.

Lemma try_accept_committed_blocks_correct_witness :
  exists bm' s' accepted,
    try_accept_committed_blocks (ds_context (sample 0 6)) (block_manager_new (ds_context (sample 0 6)))
      (sample 0 6) late_blocks = Ok (bm', s', accepted)
    /\ dag_inv s' /\ persist_inv s' /\ bm_inv s' bm'
    /\ (forall b, b ∈ late_blocks -> is_Some (dag_block s' (reference b)))
    /\ (forall x, x ∈ accepted -> is_Some (dag_block s' (reference x))
          /\ from_batch (block_manager_new (ds_context (sample 0 6))) late_blocks x)
    /\ (forall r x, dag_block (sample 0 6) r = Some x -> dag_block s' r = Some x).
Proof.
  apply (try_accept_committed_blocks_correct (sample 0 6) (block_manager_new (ds_context (sample 0 6)))
    late_blocks sample_inv sample_persist sample_v3 (block_manager_new_inv (sample 0 6))).
  unfold ds_committee. rewrite sample_own_context. intros b Hb. split_and!.
  - apply elem_of_cons in Hb as [->|[->|[]%elem_of_nil]%elem_of_cons]; apply wf_block_b_spec; vm_compute; reflexivity.
  - apply elem_of_cons in Hb as [->|[->|[]%elem_of_nil]%elem_of_cons]; vm_compute; discriminate.
  - intros a Ha _. left. assert (a ∈ sample_ref 6 <$> [0; 1; 2; 3]) as Ha'.
    { assert (forall l : list BlockRef, bool_decide (l ⊆ sample_ref 6 <$> [0; 1; 2; 3]) = true -> a ∈ l ->
                a ∈ sample_ref 6 <$> [0; 1; 2; 3]) as Hsub by (intros l Hl%bool_decide_eq_true; apply Hl).
      apply elem_of_cons in Hb as [->|[->|[]%elem_of_nil]%elem_of_cons];
        (eapply Hsub; [|exact Ha]); vm_compute; reflexivity. }
    clear -Ha'. apply list_elem_of_fmap in Ha' as (x & -> & Hx).
    repeat (apply elem_of_cons in Hx as [->|Hx]; [vm_compute; by eexists|]). by apply elem_of_nil in Hx.
Defined.

Lemma gc_of_missing_ancestors_correct_witness :
  exists bm' s',
    try_unsuspend_blocks_for_latest_gc_round (ds_context sample_after) sample_manager sample_after = Ok (bm', s')
    /\ dag_inv s' /\ persist_inv s' /\ bm_inv s' bm'
    /\ (forall a, is_Some (bm_missing_ancestors bm' !! a) -> gc_round sample_after < br_round a)
    /\ (forall r sb, bm_suspended_blocks bm' !! r = Some sb ->
          set_Forall (fun a => gc_round sample_after < br_round a) (sb_missing_ancestors sb))
    /\ (forall r, is_Some (bm_suspended_blocks sample_manager !! r) ->
          is_Some (bm_suspended_blocks bm' !! r) \/ is_Some (dag_block s' r))
    /\ (forall r, r ∈ bm_missing_blocks sample_manager -> gc_round sample_after < br_round r ->
          r ∈ bm_missing_blocks bm').
Proof.
  destruct sample_manager_inv as (Hs & Hp & Hm & _).
  exact (gc_of_missing_ancestors_correct sample_after sample_manager Hs Hp sample_after_v3 Hm).
Defined.

Lemma try_find_blocks_correct_witness :
  let refs := [sample_ref 6 1; sample_ref 8 1; sample_ref 9 2] in
  let new r := r ∈ refs /\ gc_round sample_after < br_round r /\ dag_block sample_after r = None
               /\ bm_suspended_blocks sample_manager !! r = None in
  exists bm' missing, try_find_blocks (ds_context sample_after) sample_manager sample_after refs = Ok (bm', missing)
    /\ bm_inv sample_after bm' /\ bm_suspended_blocks bm' = bm_suspended_blocks sample_manager
    /\ (forall r, r ∈ missing <-> new r)
    /\ (forall r, r ∈ bm_missing_blocks bm' <-> r ∈ bm_missing_blocks sample_manager \/ new r).
Proof.
  destruct sample_manager_inv as (Hs & Hp & Hm & C). intros refs.
  apply (try_find_blocks_correct sample_after sample_manager refs Hs Hp Hm).
  unfold ds_committee. rewrite C. clear C. intros r Hr.
  repeat (apply elem_of_cons in Hr as [->|Hr]; [vm_compute; reflexivity|]). by apply elem_of_nil in Hr.
Defined.
