(* ===== verification/LinearizerTheorems.v ===== *)
(** * The linearizer: what it promises

    The sub-DAG of a committed leader, its timestamp, the sequence of commits
    and the agreement of two validators on them. *)

From S2P Require Import Prelude Committee Context Block StakeAggregator ThresholdClock Commit Store LeaderScoring LeaderSchedule DagState DagInv Evolve DagOps DagLink Linearizer LinearizerSpec LinearizerOps DagAccept SampleDag.

Section sequences.
Context {S : Type} `{StoreLaws S}.
Implicit Types s : DagState S.

(** Leaders that can be committed one after the other. *)
Record committable s (leaders : list VerifiedBlock) : Prop := {
  cb_ready : forall l, l ∈ leaders -> ready s l;
  cb_rounds : StronglySorted (fun a b => round a < round b) leaders;
  cb_indices : last_commit_index s + N.of_nat (length leaders) <= u32_MAX;
}.

Lemma committable_next context s s' leader leaders sd :
  dag_inv s -> commits context s s' leader sd -> committable s (leader :: leaders) -> committable s' leaders.
Proof.
  intros Hs C [Hr Hrounds Hidx]. inversion Hrounds as [|? ? Hsort Hlt]; subst.
  rewrite Forall_forall in Hlt. constructor; [|done|].
  - intros l Hl. destruct (Hr l) as [V Cm R P]; [by right|]. constructor.
    + by rewrite (cm_view _ _ _ _ _ C).
    + apply not_true_is_false. rewrite (cm_committed _ _ _ _ _ C).
      intros [E|(x & E & Hx)%list_elem_of_fmap]; [congruence|].
      apply (cm_elem _ _ _ _ _ C) in Hx as (Hv & _ & _ & Hx).
      assert (round x = round l) as Ex by (exact (f_equal br_round (eq_sym E))).
      specialize (Hlt l Hl). destruct Hx as [->|Hx]; [lia|].
      apply reach_round in Hx; [simpl in Hx; lia|done|].
      apply (rooted_view s (reference leader)); [done|]. apply (rd_view _ _ (Hr leader ltac:(by left))).
    + rewrite (cm_last_round _ _ _ _ _ C). by apply Hlt.
    + intros a Ha. destruct (P a Ha) as (b & Hb & Eb). exists b. by rewrite (cm_block _ _ _ _ _ C).
  - rewrite (cm_last_index _ _ _ _ _ C). simpl in Hidx. lia.
Qed.

(** What a run over the leaders produces. *)
Record committed_all context s s' (leaders : list VerifiedBlock) (sds : list CommittedSubDag) : Prop := {
  ca_inv : commit_inv context s';
  ca_leaders : sd_leader <$> sds = reference <$> leaders;
  ca_index : forall i sd, sds !! i = Some sd ->
    cr_index (sd_commit_ref sd) = last_commit_index s + 1 + N.of_nat i;
  ca_timestamps : StronglySorted N.le (last_commit_timestamp_ms s :: (sd_timestamp_ms <$> sds));
  ca_once : NoDup (reference <$> (sds ≫= sd_blocks));
  ca_fresh : forall r, r ∈ reference <$> (sds ≫= sd_blocks) -> committed s r = false;
  ca_committed : forall r, committed s' r = true
    <-> committed s r = true \/ r ∈ reference <$> (sds ≫= sd_blocks);
}.

Lemma committed_all_cons context s s1 s' leader leaders sd sds :
  commits context s s1 leader sd -> committed_all context s1 s' leaders sds ->
  committed_all context s s' (leader :: leaders) (sd :: sds).
Proof.
  intros C [Inv Led Idx Ts Once Fresh Com].
  assert (forall r, r ∈ reference <$> sd_blocks sd -> committed s r = false) as Hsd.
  { intros r (x & -> & Hx)%list_elem_of_fmap. by apply (cm_elem _ _ _ _ _ C). }
  constructor; try done.
  - cbn. by rewrite (cm_leader _ _ _ _ _ C), <- Led.
  - intros [|i] sd' Hi.
    + injection Hi as <-. rewrite (cm_index _ _ _ _ _ C). lia.
    + rewrite (Idx i sd' Hi), (cm_last_index _ _ _ _ _ C). lia.
  - rewrite (cm_last_timestamp _ _ _ _ _ C) in Ts. pose proof (cm_timestamp _ _ _ _ _ C) as Hle.
    constructor; [done|]. inversion Ts as [|? ? _ Hall]; subst. constructor; [done|].
    eapply Forall_impl; [exact Hall|]. intros t Ht. simpl in Ht. lia.
  - rewrite bind_cons, fmap_app. apply NoDup_app. split_and!; [apply (cm_NoDup _ _ _ _ _ C)| |done].
    intros r Hr Hr'%Fresh. rewrite (proj2 (cm_committed _ _ _ _ _ C r)) in Hr'; [done|by right].
  - intros r. rewrite bind_cons, fmap_app, elem_of_app. intros [Hr|Hr%Fresh]; [by apply Hsd|].
    apply not_true_is_false. intros E. rewrite (proj2 (cm_committed _ _ _ _ _ C r)) in Hr; [done|by left].
  - intros r. rewrite Com, (cm_committed _ _ _ _ _ C), bind_cons, fmap_app, elem_of_app. tauto.
Qed.

Section run.
Context (bcs_commit : Commit -> list byte) (default_hash : list byte -> N).

Lemma handle_commit_Ok context leaders s acc :
  commit_inv context s -> committable s leaders ->
  exists s' sds, foldM (commit_one bcs_commit default_hash context) leaders (s, acc) = Ok (s', acc ++ sds)
    /\ committed_all context s s' leaders sds /\ chained bcs_commit default_hash s s' sds.
Proof.
  revert s acc. induction leaders as [|leader leaders IH]; intros s acc Hi Hc.
  { exists s, []. rewrite app_nil_r. split_and!; [done| |apply chained_nil].
    constructor; try done; [repeat constructor|constructor|set_solver|set_solver]. }
  pose proof (cb_indices _ _ Hc) as Hidx. simpl in Hidx.
  destruct (commit_one_Ok bcs_commit default_hash context s leader acc Hi) as (s1 & sd & E1 & C).
  { apply (cb_ready _ _ Hc). by left. }
  { lia. }
  destruct (IH s1 (acc ++ [sd]) (cm_inv _ _ _ _ _ C)) as (s' & sds & E & A & Ch).
  { by apply (committable_next context s s1 leader leaders sd); [apply (hc_inv _ _ Hi)|..]. }
  exists s', (sd :: sds). split_and!; [|by eapply committed_all_cons|].
  2: { apply (chained_cons _ _ s s1 s'); [|done].
       apply (commit_one_chained _ _ context s leader acc); [done| |lia|done]. apply (cb_ready _ _ Hc). by left. }
  cbn [foldM]. rewrite E1. cbn [mbind outcome_bind]. by rewrite E, <- app_assoc.
Qed.

Lemma handle_commit_alike context1 context2 leaders s1 s2 acc :
  committee context1 = committee context2 ->
  commit_inv context1 s1 -> commit_inv context2 s2 ->
  committable s1 leaders -> committable s2 leaders -> in_step s1 s2 ->
  exists s1' s2' sds, foldM (commit_one bcs_commit default_hash context1) leaders (s1, acc) = Ok (s1', acc ++ sds)
    /\ foldM (commit_one bcs_commit default_hash context2) leaders (s2, acc) = Ok (s2', acc ++ sds)
    /\ in_step s1' s2'.
Proof.
  intros Hcc. revert s1 s2 acc. induction leaders as [|leader leaders IH]; intros s1 s2 acc I1 I2 C1 C2 Hst.
  { exists s1, s2, []. by rewrite app_nil_r. }
  pose proof (cb_indices _ _ C1) as X1. pose proof (cb_indices _ _ C2) as X2. simpl in X1, X2.
  assert (ready s1 leader) as R1 by (apply (cb_ready _ _ C1); by left).
  assert (ready s2 leader) as R2 by (apply (cb_ready _ _ C2); by left).
  destruct (commit_one_alike bcs_commit default_hash context1 context2 s1 s2 leader acc)
    as (t1 & t2 & sd & E1 & E2 & Hst'); [done..|lia|done|].
  destruct (commit_one_Ok bcs_commit default_hash context1 s1 leader acc I1 R1) as (t1' & sd1 & E1' & K1); [lia|].
  destruct (commit_one_Ok bcs_commit default_hash context2 s2 leader acc I2 R2) as (t2' & sd2 & E2' & K2); [lia|].
  assert (t1' = t1) as -> by congruence. assert (t2' = t2) as -> by congruence.
  destruct (IH t1 t2 (acc ++ [sd])) as (s1' & s2' & sds & F1 & F2 & Hst'').
  - apply (cm_inv _ _ _ _ _ K1).
  - apply (cm_inv _ _ _ _ _ K2).
  - by apply (committable_next context1 s1 t1 leader leaders sd1); [apply (hc_inv _ _ I1)|..].
  - by apply (committable_next context2 s2 t2 leader leaders sd2); [apply (hc_inv _ _ I2)|..].
  - done.
  - exists s1', s2', (sd :: sds). cbn [foldM]. rewrite E1, E2. cbn [mbind outcome_bind].
    by rewrite F1, F2, <- app_assoc.
Qed.
End run.
End sequences.

(* ------------------------------------------------------------------ *)
(** ** Properties *)

(** C30: The sub-DAG of a leader.  When the committed blocks are closed under
    ancestry above the GC round, [linearize_sub_dag] of a cached, uncommitted
    leader above it terminates within its fuel without a panic; it returns
    exactly the leader and the uncommitted blocks of its history above the GC
    round, each once, ordered by round and author, marks exactly these as
    committed, and the committed blocks are closed again. *)
Theorem linearize_sub_dag_correct {S} `{StoreLaws S} (s : DagState S) (leader : VerifiedBlock) :
  dag_inv s -> committed_closed s -> view s (reference leader) = Some leader ->
  committed s (reference leader) = false -> gc_round s < round leader ->
  exists s' l, linearize_sub_dag leader s = Ok (s', l)
    /\ (forall x, x ∈ l <-> view s (reference x) = Some x /\ gc_round s < round x
          /\ committed s (reference x) = false /\ (x = leader \/ reach s leader (reference x)))
    /\ NoDup (reference <$> l)
    /\ StronglySorted (fun a b => sub_dag_leb a b = true) l
    /\ (forall r, committed s' r = true <-> committed s r = true \/ r ∈ reference <$> l)
    /\ dag_inv s' /\ committed_closed s'.
Proof.
  intros Hs Hcl Hv Hc Hg. destruct (linearize_Ok s leader Hs Hcl Hv Hc Hg) as (s' & l & E & [M Hnd Hso Hin Hcl']).
  exists s', l. split_and!; [done..| | |done].
  - intros r. apply (marks_committed _ _ _ _ M).
  - apply (mk_inv _ _ _ M).
Qed.

(** C36: The commit timestamp is monotonic and bounded by correct authorities.
    For a cached leader whose parents can be read, the timestamp is not below
    the last one; and whatever set of authorities is faulty, if they hold
    less than half of the stake of the parents, some parent of a correct
    authority is not later than the timestamp, and the timestamp is not later
    than some parent of a correct authority, or is the last timestamp. *)
Theorem commit_timestamp_honest {S} `{StoreLaws S} (context : Context) (s : DagState S)
    (leader : VerifiedBlock) (last : N) (pb : list VerifiedBlock) :
  dag_inv s -> ds_committee s = committee context -> view s (reference leader) = Some leader ->
  parent_blocks s leader pb ->
  exists t, calculate_commit_timestamp context s leader last = Ok t /\ last <= t
    /\ forall byz : gset N,
         2 * stake_if (committee context) (fun b => bool_decide (author b ∈ byz)) pb
         < blocks_stake (committee context) pb ->
         exists lo hi, lo ∈ pb /\ author lo ∉ byz /\ hi ∈ pb /\ author hi ∉ byz
           /\ timestamp_ms lo <= t /\ (t <= timestamp_ms hi \/ t = last).
Proof.
  intros Hs Hc Hv Hpb. destruct (commit_timestamp_Ok context s leader last pb Hs Hc Hv Hpb)
    as (m & _ & E & Hlt & Hle).
  exists (N.max m last). split_and!; [done|lia|]. intros byz Hbyz.
  set (c := committee context) in *. set (bad := fun b : VerifiedBlock => bool_decide (author b ∈ byz)) in *.
  pose proof (stake_where_split (fun b => stake_at c (author b)) (fun b => timestamp_ms b <=? m) bad pb) as S1.
  pose proof (stake_where_compl (fun b => stake_at c (author b)) (fun b => timestamp_ms b <? m) pb) as S2.
  pose proof (stake_where_split (fun b => stake_at c (author b)) (fun b => negb (timestamp_ms b <? m)) bad pb) as S3.
  unfold stake_if, blocks_stake in *.
  destruct (stake_where_exists (fun b => stake_at c (author b)) (fun b => (timestamp_ms b <=? m) && negb (bad b)) pb)
    as (lo & Hlo & Plo); [lia|].
  destruct (stake_where_exists (fun b => stake_at c (author b)) (fun b => negb (timestamp_ms b <? m) && negb (bad b)) pb)
    as (hi & Hhi & Phi); [lia|].
  unfold bad in Plo, Phi.
  rewrite andb_true_iff, N.leb_le, negb_true_iff, bool_decide_eq_false in Plo.
  rewrite andb_true_iff, !negb_true_iff, N.ltb_ge, bool_decide_eq_false in Phi.
  exists lo, hi. destruct Plo, Phi. split_and!; [done..|lia|lia].
Qed.

(** C14: The sequence of commits.  Handling cached, uncommitted leaders of
    increasing rounds above the last commit succeeds; there is one sub-DAG per
    leader, with consecutive commit indices after the last one and timestamps
    that never decrease; no block is in two of them or was committed before;
    the blocks committed afterwards are exactly these and the earlier ones,
    and the invariants hold again.  The commits form a chain: the commit of
    each sub-DAG, made of its index, leader, timestamp and blocks, names the
    digest of the commit before it, the first one that of the last commit of
    the state; the sub-DAGs carry the references of these commits, which are
    what is buffered for the store, in order, and the last of which is the new
    last commit. *)
Theorem handle_commit_sequence {S} `{StoreLaws S} (bcs_commit : Commit -> list byte)
    (default_hash : list byte -> N) (context : Context) (s : DagState S) (leaders : list VerifiedBlock) :
  commit_inv context s -> committable s leaders ->
  exists s' sds, handle_commit bcs_commit default_hash context s leaders = Ok (s', sds)
    /\ committed_all context s s' leaders sds /\ chained bcs_commit default_hash s s' sds.
Proof. intros Hi Hc. exact (handle_commit_Ok bcs_commit default_hash context leaders s [] Hi Hc). Qed.

(** C8: Agreement on the commits.  Two validators with a common committee, in
    step after the same commits (the same last commit and GC depth, and the
    same commit marks on the blocks that both hold, a reference naming one
    block), that handle the same leaders, produce the same sub-DAGs, blocks,
    order, timestamps and commit references included, and are in step again,
    even though each holds blocks that the other does not. *)
Theorem handle_commit_agreement {S} `{StoreLaws S} (bcs_commit : Commit -> list byte)
    (default_hash : list byte -> N) (context1 context2 : Context) (s1 s2 : DagState S)
    (leaders : list VerifiedBlock) :
  committee context1 = committee context2 ->
  commit_inv context1 s1 -> commit_inv context2 s2 ->
  committable s1 leaders -> committable s2 leaders -> in_step s1 s2 ->
  exists s1' s2' sds,
    handle_commit bcs_commit default_hash context1 s1 leaders = Ok (s1', sds)
    /\ handle_commit bcs_commit default_hash context2 s2 leaders = Ok (s2', sds)
    /\ in_step s1' s2'.
Proof.
  intros Hc I1 I2 C1 C2 Hst.
  exact (handle_commit_alike bcs_commit default_hash context1 context2 leaders s1 s2 [] Hc I1 I2 C1 C2 Hst).
Qed.

(* ------------------------------------------------------------------ *)
(** ** Witnesses *)

Lemma unmarked_committed (s : DagState MemStore) r : unmarked s = true -> committed s r = false.
Proof.
  unfold unmarked, committed. rewrite forallb_forall. intros Hall.
  destruct (ds_recent_blocks s !! r) as [bi|] eqn:E; [|done].
  specialize (Hall (r, bi)). rewrite <- list_elem_of_In, elem_of_map_to_list in Hall.
  specialize (Hall E). simpl in Hall. by destruct (bi_committed bi); [rewrite andb_false_r in Hall|].
Qed.

Lemma sample_commit_inv own n :
  causal (test_committee 4) own 0 ∅ (sample_blocks n) -> unmarked (sample own n) = true ->
  length (ds_last_committed_rounds (sample own n)) = 4%nat ->
  commit_inv (sample_context own) (sample own n).
Proof.
  intros Hc Hu Hl. destruct (sample_ok own n Hc) as (_ & Hi & _ & Hx & _).
  assert (ds_committee (sample own n) = test_committee 4) as Hcom by (unfold ds_committee; by rewrite Hx).
  constructor; [done| |done|by rewrite Hcom].
  intros r b a Hr. by rewrite unmarked_committed in Hr.
Qed.

Definition sample_leaders : list VerifiedBlock := [sample_block 1 0; sample_block 3 0; sample_block 4 0].

(** Tells whether the parents of a block can be read. *)
Definition parents_known_b (s : DagState MemStore) (leader : VerifiedBlock) : bool :=
  forallb (fun a => match dag_block s a with Some b => bool_decide (reference b = a) | None => false end)
    (parents leader).

Lemma parents_known_spec s leader : parents_known_b s leader = true -> parents_known s leader.
Proof.
  unfold parents_known_b. rewrite forallb_forall. intros Hall a Ha%list_elem_of_In.
  specialize (Hall a Ha). destruct (dag_block s a) as [b|]; [|done]. exists b.
  by apply bool_decide_eq_true in Hall.
Qed.

Ltac sample_ready := constructor; [vm_compute; reflexivity|vm_compute; reflexivity|vm_compute; reflexivity|
  apply parents_known_spec; vm_compute; reflexivity].

Lemma sample_committable_0 : committable (sample 0 6) sample_leaders.
Proof.
  constructor.
  - intros l. unfold sample_leaders. rewrite !elem_of_cons.
    intros [->|[->|[->|Hl]]]; [sample_ready..|inversion Hl].
  - repeat constructor.
  - vm_compute. discriminate.
Qed.

Lemma sample_committable_1 : committable (sample 1 8) sample_leaders.
Proof.
  constructor.
  - intros l. unfold sample_leaders. rewrite !elem_of_cons.
    intros [->|[->|[->|Hl]]]; [sample_ready..|inversion Hl].
  - repeat constructor.
  - vm_compute. discriminate.
Qed.

Lemma sample_commit_inv_0 : commit_inv (sample_context 0) (sample 0 6).
Proof. apply (sample_commit_inv 0 6 sample_causal); vm_compute; reflexivity. Qed.

Lemma sample_commit_inv_1 : commit_inv (sample_context 1) (sample 1 8).
Proof. apply (sample_commit_inv 1 8 sample_causal_1); vm_compute; reflexivity. Qed.

(** The blocks a sample validator reads. *)
Lemma sample_dag_block own n r b :
  causal (test_committee 4) own 0 ∅ (sample_blocks n) -> (n <= 8)%nat ->
  ds_store (sample own n) = mem_store_new ->
  ds_genesis (sample own n) = genesis_map no_bytes hash_7 (sample_context 0) ->
  dag_block (sample own n) r = Some b ->
  if br_round r =? 0 then genesis_map no_bytes hash_7 (sample_context 0) !! r = Some b
  else b ∈ sample_blocks 8 /\ reference b = r.
Proof.
  intros Hc Hn Hst Hg. destruct (sample_ok own n Hc) as (_ & Hi & _ & _ & _ & Hv).
  unfold dag_block, cached_block, GENESIS_ROUND. rewrite Hg, Hst. destruct (br_round r =? 0); [done|].
  destruct (ds_recent_blocks (sample own n) !! r) as [bi|] eqn:E; [|done]. intros [= <-].
  assert (view (sample own n) r = Some (bi_block bi)) as Hb by (unfold view; by rewrite E).
  split; [by apply (sample_blocks_mono n 8 Hn), (Hv r)|by apply (di_wf _ Hi)].
Qed.

Lemma sample_in_step : in_step (sample 0 6) (sample 1 8).
Proof.
  constructor; [|vm_compute; reflexivity|vm_compute; reflexivity]. constructor.
  - vm_compute. reflexivity.
  - intros r b1 b2 B1 B2.
    apply sample_dag_block in B1; [|exact sample_causal|lia|vm_compute; reflexivity..].
    apply sample_dag_block in B2; [|exact sample_causal_1|lia|vm_compute; reflexivity..].
    destruct (br_round r =? 0); [congruence|]. destruct B1 as [B1 E1], B2 as [B2 E2].
    apply (NoDup_fmap_elem_inj reference (sample_blocks 8)); [|done|done|congruence].
    apply (bool_decide_eq_true_1 _). vm_compute. reflexivity.
  - intros r b1 b2 _ _ _. rewrite !unmarked_committed by (vm_compute; reflexivity). done.
Qed.

Lemma linearize_sub_dag_correct_witness :
  let s := sample 0 6 in let leader := sample_block 3 0 in
  exists s' l, linearize_sub_dag leader s = Ok (s', l)
    /\ (forall x, x ∈ l <-> view s (reference x) = Some x /\ gc_round s < round x
          /\ committed s (reference x) = false /\ (x = leader \/ reach s leader (reference x)))
    /\ NoDup (reference <$> l)
    /\ StronglySorted (fun a b => sub_dag_leb a b = true) l
    /\ (forall r, committed s' r = true <-> committed s r = true \/ r ∈ reference <$> l)
    /\ dag_inv s' /\ committed_closed s'.
Proof.
  intros s leader. apply (linearize_sub_dag_correct s leader); [exact sample_inv| |vm_compute; reflexivity..].
  apply (hc_closed _ _ sample_commit_inv_0).
Defined.

Lemma commit_timestamp_honest_witness :
  let pb := [sample_block 2 1; sample_block 2 2; sample_block 2 3] in
  exists t, calculate_commit_timestamp (sample_context 0) (sample 0 6) (sample_block 3 0) 5 = Ok t /\ 5 <= t
    /\ forall byz : gset N,
         2 * stake_if (test_committee 4) (fun b => bool_decide (author b ∈ byz)) pb
         < blocks_stake (test_committee 4) pb ->
         exists lo hi, lo ∈ pb /\ author lo ∉ byz /\ hi ∈ pb /\ author hi ∉ byz
           /\ timestamp_ms lo <= t /\ (t <= timestamp_ms hi \/ t = 5).
Proof.
  intros pb. apply (commit_timestamp_honest (sample_context 0) (sample 0 6) (sample_block 3 0) 5 pb);
    [exact sample_inv|vm_compute; reflexivity|vm_compute; reflexivity|].
  split; vm_compute; reflexivity.
Defined.

Lemma handle_commit_sequence_witness :
  exists s' sds, handle_commit (fun _ => []) hash_7 (sample_context 0) (sample 0 6) sample_leaders = Ok (s', sds)
    /\ committed_all (sample_context 0) (sample 0 6) s' sample_leaders sds
    /\ chained (fun _ => []) hash_7 (sample 0 6) s' sds.
Proof.
  exact (handle_commit_sequence (fun _ => []) hash_7 (sample_context 0) (sample 0 6) sample_leaders
    sample_commit_inv_0 sample_committable_0).
Defined.

Lemma handle_commit_agreement_witness :
  exists s1' s2' sds,
    handle_commit (fun _ => []) hash_7 (sample_context 0) (sample 0 6) sample_leaders = Ok (s1', sds)
    /\ handle_commit (fun _ => []) hash_7 (sample_context 1) (sample 1 8) sample_leaders = Ok (s2', sds)
    /\ in_step s1' s2'.
Proof.
  exact (handle_commit_agreement (fun _ => []) hash_7 (sample_context 0) (sample_context 1)
    (sample 0 6) (sample 1 8) sample_leaders eq_refl sample_commit_inv_0 sample_commit_inv_1
    sample_committable_0 sample_committable_1 sample_in_step).
Defined.
