(* ===== verification/BlockVerifier.v ===== *)
(** * Block signatures and block verification

    Models [SignedBlock::new] and [verify_signature] of block.rs and the
    [SignedBlockVerifier] of block_verifier.rs.  The serialiser, the hash and the signature scheme
    belong to other crates and are parameters, and so is the application's
    [TransactionVerifier]. *)

From S2P Require Import Prelude Committee Context Block StakeAggregator ThresholdClock Commit Error Store LeaderScoring DagState DagInv LeaderSchedule Evolve DagOps DagLink DagAccept SampleDag.

(* ------------------------------------------------------------------ *)
(** ** Signatures *)

(** What the code uses of bcs, the hash function and the signature scheme. *)
Class Crypto := {
  key_pair : Type;
  key_signature : Type;
  bcs_block : Block -> option (list byte);
  inner_hash : list byte -> N;
  bcs_intent : N -> option (list byte);
  sign : key_pair -> list byte -> key_signature;
  signature_to_bytes : key_signature -> list byte;
  signature_from_bytes : list byte -> option key_signature;
  public_key : key_pair -> list byte;
  key_verify : list byte -> list byte -> key_signature -> bool;
}.

(** A signature read back is the signature written, and a signature by a key
    pair verifies with its public key. *)
Class CryptoLaws `{Crypto} := {
  signature_roundtrip : forall sig, signature_from_bytes (signature_to_bytes sig) = Some sig;
  sign_verifies : forall kp msg, key_verify (public_key kp) msg (sign kp msg) = true;
}.

Section signing.
Context `{Crypto}.

Definition compute_inner_block_digest (block : Block) : outcome (ConsensusResult N) :=
  try_ (ok_or (bcs_block block) SerializationFailure) (fun bytes => Ok (Success (inner_hash bytes))).

Definition compute_block_signature (block : Block) (protocol_keypair : key_pair)
    : outcome (ConsensusResult key_signature) :=
  try_ (compute_inner_block_digest block) (fun digest =>
  try_ (ok_or (bcs_intent digest) SerializationFailure) (fun message =>
  Ok (Success (sign protocol_keypair message)))).

Definition verify_block_signature (block : Block) (signature : list byte)
    (protocol_pubkey : list byte) : outcome (ConsensusResult unit) :=
  try_ (compute_inner_block_digest block) (fun digest =>
  try_ (ok_or (bcs_intent digest) SerializationFailure) (fun message =>
  try_ (ok_or (signature_from_bytes signature) MalformedSignature) (fun sig =>
  Ok (if key_verify protocol_pubkey message sig then Success tt
      else Err SignatureVerificationFailure)))).

Definition signed_block_new (block : Block) (protocol_keypair : key_pair)
    : outcome (ConsensusResult SignedBlock) :=
  try_ (compute_block_signature block protocol_keypair) (fun sig =>
  Ok (Success {| inner := block; signature := signature_to_bytes sig |})).

Definition verify_signature (self : SignedBlock) (context : Context)
    : outcome (ConsensusResult unit) :=
  let block := inner self in
  let committee := committee context in
  if negb (is_valid_index committee (author block)) then
    Ok (Err (InvalidAuthorityIndex (author block) (u64_sub (committee_size committee) 1)))
  else
    authority ← committee_authority committee (author block);
    verify_block_signature block (signature self) (a_protocol_key authority).
End signing.

(* ------------------------------------------------------------------ *)
(** ** The verifier *)

(** [trait TransactionVerifier], implemented by the application. *)
Class TransactionVerifier := {
  verify_batch : list (list byte) -> option string;
  verify_and_vote_batch : BlockRef -> list (list byte) -> list N + string;
}.

Record SignedBlockVerifier := mkSignedBlockVerifier {
  sv_context : Context;
  sv_genesis : gset BlockRef;
}.

Section verifier.
Context (bcs_to_bytes : SignedBlock -> list byte) (default_hash : list byte -> N).
Context `{Crypto} `{TransactionVerifier}.

Definition signed_block_verifier_new (context : Context) : SignedBlockVerifier :=
  {| sv_context := context;
     sv_genesis := list_to_set (reference <$> genesis_blocks bcs_to_bytes default_hash context) |}.

Definition byte_len (t : list byte) : N := N.of_nat (length t).

Definition check_transactions (self : SignedBlockVerifier) (batch : list (list byte))
    : ConsensusResult unit :=
  let config := protocol_config (sv_context self) in
  let max_transaction_size_limit := max_transaction_size_bytes config in
  match List.find (fun t => (max_transaction_size_limit <? byte_len t)
                            && (0 <? max_transaction_size_limit)) batch with
  | Some t => Err (TransactionTooLarge (byte_len t) max_transaction_size_limit)
  | None =>
      let max_num_transactions_limit := max_num_transactions_in_block config in
      let count := N.of_nat (length batch) in
      if (max_num_transactions_limit <? count) && (0 <? max_num_transactions_limit) then
        Err (TooManyTransactions count max_num_transactions_limit)
      else
        let total_transactions_size_limit := max_transactions_in_block_bytes config in
        if (total_transactions_size_limit <? u64_sum (byte_len <$> batch))
           && (0 <? total_transactions_size_limit) then
          Err (TooManyTransactionBytes count total_transactions_size_limit)
        else Success tt
  end.

(** The loop over the ancestors, with the position of the next one. *)
Fixpoint verify_ancestors (self : SignedBlockVerifier) (block : Block) (i : nat)
    (refs : list BlockRef) (seen_ancestors : list bool) (parent_stakes : N)
    : outcome (ConsensusResult N) :=
  let committee := committee (sv_context self) in
  match refs with
  | [] => Ok (Success parent_stakes)
  | ancestor :: refs =>
      if negb (is_valid_index committee (br_author ancestor)) then
        Ok (Err (InvalidAuthorityIndex (br_author ancestor) (u64_sub (committee_size committee) 1)))
      else if ((i =? 0)%nat && negb (br_author ancestor =? author block))
              || ((0 <? i)%nat && (br_author ancestor =? author block)) then
        Ok (Err (InvalidAncestorPosition (author block) (br_author ancestor) (N.of_nat i)))
      else if round block <=? br_round ancestor then
        Ok (Err (InvalidAncestorRound (br_round ancestor) (round block)))
      else if (br_round ancestor =? GENESIS_ROUND) && negb (bool_decide (ancestor ∈ sv_genesis self)) then
        Ok (Err (InvalidGenesisAncestor ancestor))
      else
        seen ← vec_index seen_ancestors (br_author ancestor);
        if seen : bool then Ok (Err (DuplicatedAncestorsAuthority (br_author ancestor)))
        else
          seen_ancestors ← vec_store seen_ancestors (br_author ancestor) true;
          _ ← assert_that (1 <=? round block);
          if br_round ancestor =? round block - 1 then
            stake ← committee_stake committee (br_author ancestor);
            verify_ancestors self block (S i) refs seen_ancestors (u64_add parent_stakes stake)
          else verify_ancestors self block (S i) refs seen_ancestors parent_stakes
  end.

Definition verify_block (self : SignedBlockVerifier) (signed_block : SignedBlock)
    : outcome (ConsensusResult unit) :=
  let committee := committee (sv_context self) in
  let block := inner signed_block in
  let n := N.of_nat (length (ancestors block)) in
  if negb (epoch block =? c_epoch committee) then
    Ok (Err (WrongEpoch (c_epoch committee) (epoch block)))
  else if round block =? 0 then Ok (Err UnexpectedGenesisBlock)
  else if negb (is_valid_index committee (author block)) then
    Ok (Err (InvalidAuthorityIndex (author block) (u64_sub (committee_size committee) 1)))
  else
    try_ (verify_signature signed_block (sv_context self)) (fun _ =>
    if committee_size committee <? n then Ok (Err (TooManyAncestors n (committee_size committee)))
    else if n =? 0 then Ok (Err (InsufficientParentStakes 0 (c_quorum_threshold committee)))
    else
      try_ (verify_ancestors self block 0 (ancestors block)
              (replicate (N.to_nat (committee_size committee)) false) 0) (fun parent_stakes =>
      if negb (reached_quorum committee parent_stakes) then
        Ok (Err (InsufficientParentStakes parent_stakes (c_quorum_threshold committee)))
      else Ok (check_transactions self (transactions_data block)))).

Definition verifier_vote (block : VerifiedBlock) : ConsensusResult (list N) :=
  match verify_and_vote_batch (reference block) (transactions_data block) with
  | inl rejected => Success rejected
  | inr e => Err (InvalidTransaction e)
  end.

Definition verify_and_vote (self : SignedBlockVerifier) (block : SignedBlock)
    (serialized_block : list byte) : outcome (ConsensusResult (VerifiedBlock * list N)) :=
  try_ (verify_block self block) (fun _ =>
  let verified_block := verified_block_new_verified default_hash block serialized_block in
  Ok (if transaction_voting_enabled (protocol_config (sv_context self)) then
        match verifier_vote verified_block with
        | Success rejected => Success (verified_block, rejected)
        | Err e => Err e
        end
      else
        match verify_batch (transactions_data verified_block) with
        | None => Success (verified_block, [])
        | Some e => Err (InvalidTransaction e)
        end)).
End verifier.

(* ------------------------------------------------------------------ *)
(** ** What the verifier accepts *)

Definition parents_at (rd : N) (refs : list BlockRef) : list BlockRef :=
  filter (fun r => br_round r + 1 = rd) refs.

Definition parent_stake (c : Committee) (rd : N) (refs : list BlockRef) : N :=
  stake_of c (list_to_set (br_author <$> parents_at rd refs)).

(** The ancestor at position [i]: a known authority, the block's own one in
    the first position only, an earlier round, and a genesis block at round 0. *)
Definition ancestor_ok (v : SignedBlockVerifier) (block : Block) (i : nat) (a : BlockRef) : Prop :=
  is_valid_index (committee (sv_context v)) (br_author a) = true
  /\ (i = 0%nat <-> br_author a = author block)
  /\ br_round a < round block
  /\ (br_round a = GENESIS_ROUND -> a ∈ sv_genesis v).

(** A limit of zero is no limit. *)
Definition within (n limit : N) : Prop := limit = 0 \/ n <= limit.

Definition transactions_ok (v : SignedBlockVerifier) (batch : list (list byte)) : Prop :=
  let config := protocol_config (sv_context v) in
  Forall (fun t => within (byte_len t) (max_transaction_size_bytes config)) batch
  /\ within (N.of_nat (length batch)) (max_num_transactions_in_block config)
  /\ within (sum_N (byte_len <$> batch)) (max_transactions_in_block_bytes config).

Record valid_block `{Crypto} (v : SignedBlockVerifier) (sb : SignedBlock) : Prop := {
  vv_epoch : epoch (inner sb) = c_epoch (committee (sv_context v));
  vv_round : 0 < round (inner sb);
  vv_author : is_valid_index (committee (sv_context v)) (author (inner sb)) = true;
  vv_signature : verify_signature sb (sv_context v) = Ok (Success tt);
  vv_ancestors : forall i a, ancestors (inner sb) !! i = Some a -> ancestor_ok v (inner sb) i a;
  vv_distinct : NoDup (br_author <$> ancestors (inner sb));
  vv_quorum : reached_quorum (committee (sv_context v))
    (parent_stake (committee (sv_context v)) (round (inner sb)) (ancestors (inner sb))) = true;
  vv_transactions : transactions_ok v (transactions_data (inner sb));
}.

Lemma within_test n limit : (limit <? n) && (0 <? limit) = false <-> within n limit.
Proof.
  unfold within. destruct (N.ltb_spec limit n), (N.ltb_spec 0 limit); simpl; split; try done; lia.
Qed.

Lemma check_transactions_spec v batch :
  sum_N (byte_len <$> batch) <= u64_MAX ->
  check_transactions v batch = Success tt <-> transactions_ok v batch.
Proof.
  intros Hsum. unfold check_transactions, transactions_ok. rewrite u64_sum_exact by done.
  rewrite <- !within_test.
  assert (Forall (fun t => within (byte_len t) (max_transaction_size_bytes (protocol_config (sv_context v)))) batch
    <-> List.find (fun t => (max_transaction_size_bytes (protocol_config (sv_context v)) <? byte_len t)
          && (0 <? max_transaction_size_bytes (protocol_config (sv_context v)))) batch = None) as ->.
  { induction batch as [|t batch IH]; [done|]. rewrite Forall_cons, <- within_test. simpl.
    change (sum_N (byte_len <$> t :: batch)) with (byte_len t + sum_N (byte_len <$> batch)) in Hsum.
    destruct (_ && _); [naive_solver|]. rewrite IH by lia. tauto. }
  destruct (List.find _ _); [naive_solver|].
  destruct (_ && _); [naive_solver|]. destruct (_ && _); naive_solver.
Qed.

Section ancestors.
Context (v : SignedBlockVerifier) (block : Block).
Notation c := (committee (sv_context v)).
Context (Hc : committee_wf c) (Hround : 0 < round block).

(** The loop after the ancestors [pre]. *)
Record scanned (pre : list BlockRef) (seen : list bool) (stake : N) : Prop := {
  sc_len : length seen = N.to_nat (committee_size c);
  sc_seen : forall a, is_valid_index c a = true ->
    seen !! N.to_nat a = Some (bool_decide (a ∈ br_author <$> pre));
  sc_distinct : NoDup (br_author <$> pre);
  sc_stake : stake = parent_stake c (round block) pre;
}.

Lemma scanned_nil : scanned [] (replicate (N.to_nat (committee_size c)) false) 0.
Proof.
  clear Hround. constructor.
  - by rewrite length_replicate.
  - intros a Ha. unfold is_valid_index in Ha. apply N.ltb_lt in Ha.
    rewrite lookup_replicate_2 by lia. done.
  - constructor.
  - symmetry. apply stake_of_empty.
Qed.

Lemma parent_stake_snoc pre a :
  is_valid_index c (br_author a) = true -> br_author a ∉ br_author <$> pre ->
  parent_stake c (round block) (pre ++ [a])
  = (if br_round a =? round block - 1 then stake_at c (br_author a) else 0)
    + parent_stake c (round block) pre.
Proof.
  intros Ha Hnew. unfold parent_stake, parents_at. rewrite filter_app, fmap_app, list_to_set_app_L.
  destruct (N.eqb_spec (br_round a) (round block - 1)) as [E|E].
  - rewrite filter_cons_True by lia. simpl. rewrite (right_id_L ∅ (∪)), (comm_L (∪)).
    apply stake_of_insert; [done|]. rewrite elem_of_list_to_set. intros Hin. apply Hnew.
    apply list_elem_of_fmap in Hin as (r & -> & [_ Hr]%list_elem_of_filter).
    by apply list_elem_of_fmap_2.
  - rewrite filter_cons_False by lia. simpl. by rewrite (right_id_L ∅ (∪)).
Qed.

Lemma scanned_snoc pre seen stake a :
  scanned pre seen stake -> is_valid_index c (br_author a) = true ->
  br_author a ∉ br_author <$> pre ->
  exists seen', vec_store seen (br_author a) true = Ok seen'
    /\ scanned (pre ++ [a]) seen'
         (if br_round a =? round block - 1 then u64_add stake (stake_at c (br_author a)) else stake).
Proof.
  intros [Hl Hs Hd Hst] Ha Hnew. unfold vec_store. rewrite Hs by done.
  eexists. split; [done|]. constructor.
  - by rewrite length_insert.
  - intros x Hx. rewrite fmap_app. simpl.
    destruct (decide (x = br_author a)) as [->|Hne].
    + rewrite list_lookup_insert_eq by (apply lookup_lt_is_Some; rewrite Hs by done; by eexists).
      symmetry. f_equal. apply bool_decide_eq_true. set_solver.
    + rewrite list_lookup_insert_ne by lia. rewrite Hs by done. f_equal.
      apply bool_decide_ext. set_solver.
  - rewrite fmap_app. apply NoDup_app. split_and!; [done| |apply NoDup_singleton].
    intros x Hx ->%list_elem_of_singleton. done.
  - rewrite parent_stake_snoc by done.
    pose proof (stake_of_le_total c (list_to_set (br_author <$> parents_at (round block) (pre ++ [a]))) Hc)
      as Hle. fold (parent_stake c (round block) (pre ++ [a])) in Hle.
    rewrite parent_stake_snoc in Hle by done. pose proof (wf_total_u64 _ Hc).
    destruct (br_round a =? round block - 1); subst stake; [|lia].
    rewrite u64_add_small by lia. lia.
Qed.

Lemma verify_ancestors_Ok refs pre seen stake :
  scanned pre seen stake ->
  exists r, verify_ancestors v block (length pre) refs seen stake = Ok r
    /\ match r with
       | Success p =>
           (forall i a, refs !! i = Some a -> ancestor_ok v block (length pre + i) a)
           /\ NoDup (br_author <$> pre ++ refs)
           /\ p = parent_stake c (round block) (pre ++ refs)
       | Err _ =>
           ~ ((forall i a, refs !! i = Some a -> ancestor_ok v block (length pre + i) a)
              /\ NoDup (br_author <$> pre ++ refs))
       end.
Proof.
  revert pre seen stake. induction refs as [|a refs IH]; intros pre seen stake Hsc.
  { exists (Success stake). rewrite app_nil_r. split_and!; [done..|apply Hsc|apply Hsc]. }
  assert (~ ancestor_ok v block (length pre) a \/ br_author a ∈ br_author <$> pre ->
    ~ ((forall i x, (a :: refs) !! i = Some x -> ancestor_ok v block (length pre + i) x)
       /\ NoDup (br_author <$> pre ++ a :: refs))) as Hbad.
  { intros Hor [Hall Hnd]. destruct Hor as [Hno|Hin].
    - apply Hno. specialize (Hall 0%nat a eq_refl). by rewrite Nat.add_0_r in Hall.
    - rewrite fmap_app in Hnd. apply NoDup_app in Hnd as (_ & Hd & _). by eapply Hd; [|left]. }
  unfold ancestor_ok in Hbad at 1. cbn [verify_ancestors].
  destruct (is_valid_index c (br_author a)) eqn:Ev; cbn [negb].
  2:{ eexists. split; [done|]. apply Hbad. left. naive_solver. }
  destruct (_ || _) eqn:Epos.
  { eexists. split; [done|]. apply Hbad. left. intros (_ & Hpos & _).
    destruct (Nat.eqb_spec (length pre) 0), (N.eqb_spec (br_author a) (author block)),
      (Nat.ltb_spec 0 (length pre)); simpl in Epos; naive_solver lia. }
  assert (length pre = 0%nat <-> br_author a = author block) as Hpos.
  { destruct (Nat.eqb_spec (length pre) 0), (N.eqb_spec (br_author a) (author block)),
      (Nat.ltb_spec 0 (length pre)); simpl in Epos; naive_solver lia. }
  destruct (N.leb_spec (round block) (br_round a)) as [Hr|Hr].
  { eexists. split; [done|]. apply Hbad. left. naive_solver lia. }
  destruct ((br_round a =? GENESIS_ROUND) && _) eqn:Eg.
  { eexists. split; [done|]. apply andb_true_iff in Eg as [Eg%N.eqb_eq Eg'%negb_true_iff].
    apply bool_decide_eq_false in Eg'. apply Hbad. left. naive_solver. }
  assert (br_round a = GENESIS_ROUND -> a ∈ sv_genesis v) as Hgen.
  { intros E. rewrite E in Eg. simpl in Eg. apply negb_false_iff in Eg. by apply bool_decide_eq_true in Eg. }
  clear Eg Epos. unfold vec_index. rewrite (sc_seen _ _ _ Hsc) by done. cbn [unwrap mbind outcome_bind].
  case_bool_decide as Hin; [eexists; split; [done|]; apply Hbad; by right|].
  destruct (scanned_snoc pre seen stake a Hsc Ev Hin) as (seen' & -> & Hsc').
  cbn [mbind outcome_bind]. rewrite (proj2 (N.leb_le _ _)) by lia. cbn [assert_that mbind outcome_bind].
  assert (ancestor_ok v block (length pre) a) as Hok by done.
  destruct (IH (pre ++ [a]) seen' _ Hsc') as (r & Er & Hr').
  exists r. split.
  - rewrite length_app, Nat.add_1_r in Er.
    destruct (br_round a =? round block - 1); [by rewrite committee_stake_Ok|exact Er].
  - rewrite length_app, <- app_assoc in Hr'. cbn [app length] in Hr'.
    assert ((forall i x, (a :: refs) !! i = Some x -> ancestor_ok v block (length pre + i) x)
            <-> (forall i x, refs !! i = Some x -> ancestor_ok v block (length pre + 1 + i) x)) as Hiff.
    { split; intros Hall i x Hi.
      - replace (length pre + 1 + i)%nat with (length pre + S i)%nat by lia. by apply Hall.
      - destruct i as [|i]; [injection Hi as <-; by rewrite Nat.add_0_r|].
        replace (length pre + S i)%nat with (length pre + 1 + i)%nat by lia. by apply Hall. }
    destruct r as [p|e].
    + destruct Hr' as (Hall & ? & ?). split_and!; [by apply Hiff|done..].
    + intros [Hall Hnd]. apply Hr'. split; [by apply Hiff|done].
Qed.
End ancestors.

Lemma distinct_authors_le (c : Committee) (refs : list BlockRef) :
  (forall a, a ∈ refs -> is_valid_index c (br_author a) = true) -> NoDup (br_author <$> refs) ->
  N.of_nat (length refs) <= committee_size c.
Proof.
  intros Hv Hnd. pose proof (submseteq_length (br_author <$> refs)
    (N.of_nat <$> seq 0 (N.to_nat (committee_size c)))) as Hle.
  rewrite !length_fmap, length_seq in Hle.
  cut (length refs <= N.to_nat (committee_size c))%nat; [lia|].
  apply Hle, NoDup_submseteq; [done|]. intros x (a & -> & Ha)%list_elem_of_fmap.
  specialize (Hv a Ha). unfold is_valid_index in Hv. apply N.ltb_lt in Hv.
  apply list_elem_of_fmap. exists (N.to_nat (br_author a)). rewrite elem_of_seq. lia.
Qed.

(** The branches that return an error: show that no valid block takes them. *)
Ltac rejected := eexists; split; [done|]; split; [done|]; intros V; exfalso.

Section exact.
Context `{Crypto}.

Lemma verify_signature_Ok sb context :
  is_valid_index (committee context) (author (inner sb)) = true ->
  exists r, verify_signature sb context = Ok r.
Proof.
  intros Ha. unfold verify_signature. rewrite Ha. cbn [negb].
  destruct (committee_authority_Ok (committee context) (author (inner sb)) Ha) as [au ->].
  cbn [mbind outcome_bind]. unfold verify_block_signature, compute_inner_block_digest, try_, ok_or.
  destruct (bcs_block _); cbn; [|by eexists]. destruct (bcs_intent _); cbn; [|by eexists].
  destruct (signature_from_bytes _); cbn; by eexists.
Qed.

Lemma valid_ancestors_le v sb :
  valid_block v sb ->
  N.of_nat (length (ancestors (inner sb))) <= committee_size (committee (sv_context v)).
Proof.
  intros V. apply distinct_authors_le; [|apply (vv_distinct _ _ V)].
  intros a [i Hi]%list_elem_of_lookup. by apply (vv_ancestors _ _ V i a Hi).
Qed.

Lemma valid_ancestors_nonempty v sb :
  committee_wf (committee (sv_context v)) -> valid_block v sb ->
  N.of_nat (length (ancestors (inner sb))) <> 0.
Proof.
  intros Hc V Hz. pose proof (vv_quorum _ _ V) as Hq.
  destruct (ancestors (inner sb)); [|simpl in Hz; lia]. unfold parent_stake in Hq. simpl in Hq.
  by rewrite (quorum_empty _ Hc) in Hq.
Qed.

Lemma verify_block_Ok (v : SignedBlockVerifier) (sb : SignedBlock) :
  committee_wf (committee (sv_context v)) ->
  sum_N (byte_len <$> transactions_data (inner sb)) <= u64_MAX ->
  exists r, verify_block v sb = Ok r /\ (r = Success tt <-> valid_block v sb).
Proof.
  intros Hc Hsum. unfold verify_block. set (c := committee (sv_context v)) in *.
  destruct (N.eqb_spec (epoch (inner sb)) (c_epoch c)) as [He|He]; cbn [negb];
    [|rejected; by apply He, vv_epoch].
  destruct (N.eqb_spec (round (inner sb)) 0) as [Hr|Hr];
    [rejected; pose proof (vv_round _ _ V); lia|].
  destruct (is_valid_index c (author (inner sb))) eqn:Ha; cbn [negb];
    [|rejected; pose proof (vv_author _ _ V); unfold c in *; congruence].
  destruct (verify_signature_Ok sb (sv_context v) Ha) as [[[]|e] Es]; unfold try_ at 1; rewrite Es;
    cbn [mbind outcome_bind]; [|rejected; pose proof (vv_signature _ _ V); congruence].
  destruct (N.ltb_spec (committee_size c) (N.of_nat (length (ancestors (inner sb))))) as [Hn|Hn];
    [rejected; by apply N.lt_nge in Hn; apply Hn, valid_ancestors_le|].
  destruct (N.eqb_spec (N.of_nat (length (ancestors (inner sb)))) 0) as [Hz|Hz];
    [rejected; by apply (valid_ancestors_nonempty v sb Hc V)|].
  destruct (verify_ancestors_Ok v (inner sb) Hc ltac:(lia) (ancestors (inner sb)) [] _ _
    (scanned_nil v (inner sb))) as (r & Er & Hres).
  cbn [length app] in Er, Hres. fold c in Er, Hres. unfold try_. rewrite Er. cbn [mbind outcome_bind].
  destruct r as [p|e]; [|rejected; destruct Hres; split; [apply (vv_ancestors _ _ V)|apply (vv_distinct _ _ V)]].
  destruct Hres as (Hall & Hnd & ->).
  destruct (reached_quorum c (parent_stake c (round (inner sb)) (ancestors (inner sb)))) eqn:Eq; cbn [negb];
    [|rejected; pose proof (vv_quorum _ _ V); unfold c in *; congruence].
  eexists. split; [done|]. rewrite check_transactions_spec by done. split.
  - intros Ht. constructor; try done. lia.
  - apply vv_transactions.
Qed.

(** What [verify_and_vote] returns, for every block. *)
Lemma verify_and_vote_Ok `{TransactionVerifier} (default_hash : list byte -> N) (v : SignedBlockVerifier)
    (sb : SignedBlock) (serialized : list byte) :
  committee_wf (committee (sv_context v)) ->
  sum_N (byte_len <$> transactions_data (inner sb)) <= u64_MAX ->
  exists r, verify_and_vote default_hash v sb serialized = Ok r
    /\ forall vb rejected, r = Success (vb, rejected) ->
         vb = verified_block_new_verified default_hash sb serialized /\ valid_block v sb.
Proof.
  intros Hc Hsum. unfold verify_and_vote, try_.
  destruct (verify_block_Ok v sb Hc Hsum) as ([[]|e] & -> & HV); cbn [mbind outcome_bind]; [|by eexists].
  eexists. split; [done|]. intros vb rejected E. split; [|by apply HV].
  destruct (transaction_voting_enabled _); [destruct (verifier_vote _)|destruct (verify_batch _)]; by simplify_eq.
Qed.

(** A valid block is well-formed, given digests of 32 bytes. *)
Lemma valid_wf (v : SignedBlockVerifier) (b : VerifiedBlock) :
  valid_block v (vb_block b) -> vb_digest b <= DIGEST_MAX ->
  Forall (fun a => br_digest a <= DIGEST_MAX) (ancestors b) -> round b < u32_MAX ->
  wf_block (committee (sv_context v)) b.
Proof.
  intros V Hd Hda Hr. rewrite Forall_forall in Hda. constructor; try done.
  - split; [apply (vv_round _ _ V)|done].
  - apply (vv_author _ _ V).
  - intros a Hin. destruct (proj1 (list_elem_of_lookup _ _) Hin) as [i Hi].
    destruct (vv_ancestors v _ V i a Hi) as (? & _ & ? & _). split_and!; [done..|by apply Hda].
  - apply (vv_distinct _ _ V).
  - apply N.leb_le, (vv_quorum _ _ V).
Qed.

(** C19: The block verifier is exact.  In a well-formed committee
    [verify_block] returns for every block, never panics, and returns [Ok]
    exactly for the valid blocks: right epoch, a round after genesis, a
    committee member as author with a valid signature, ancestors of distinct
    authorities with the author's own first, all of earlier rounds and known
    at genesis, parents of the previous round that hold a quorum of the
    stake, and transactions within the limits. *)
Theorem verify_block_exact (v : SignedBlockVerifier) (sb : SignedBlock) :
  committee_wf (committee (sv_context v)) ->
  sum_N (byte_len <$> transactions_data (inner sb)) <= u64_MAX ->
  exists r, verify_block v sb = Ok r /\ (r = Success tt <-> valid_block v sb).
Proof. apply verify_block_Ok. Qed.
End exact.

(** C34: Verified blocks are well-formed.  A block that [verify_and_vote]
    returns is the signed block it was given, under the hash of its bytes, and
    has what the DAG state relies on: in particular parents of a quorum in the
    previous round and one ancestor per authority.  The digests are those of
    32-byte hashes. *)
Theorem verify_and_vote_sound `{Crypto} `{TransactionVerifier} (default_hash : list byte -> N)
    (v : SignedBlockVerifier) (sb : SignedBlock) (serialized : list byte)
    (vb : VerifiedBlock) (rejected : list N) :
  committee_wf (committee (sv_context v)) ->
  sum_N (byte_len <$> transactions_data (inner sb)) <= u64_MAX ->
  default_hash serialized <= DIGEST_MAX ->
  Forall (fun a => br_digest a <= DIGEST_MAX) (ancestors (inner sb)) ->
  round (inner sb) < u32_MAX ->
  verify_and_vote default_hash v sb serialized = Ok (Success (vb, rejected)) ->
  vb = verified_block_new_verified default_hash sb serialized
  /\ wf_block (committee (sv_context v)) vb
  /\ (exists own others, ancestors vb = own :: others /\ br_author own = author vb).
Proof.
  intros Hc Hsum Hd Hda Hr E.
  destruct (verify_and_vote_Ok default_hash v sb serialized Hc Hsum) as (r & E' & Hr'). rewrite E in E'. injection E' as <-.
  destruct (Hr' vb rejected eq_refl) as [-> V]. split; [done|]. split; [by apply (valid_wf v)|].
  pose proof (valid_ancestors_nonempty v sb Hc V) as Hne.
  change (ancestors (verified_block_new_verified default_hash sb serialized)) with (ancestors (inner sb)).
  pose proof (vv_ancestors v sb V) as Ha.
  destruct (ancestors (inner sb)) as [|own others]; [done|]. exists own, others. split; [done|].
  by apply (Ha 0%nat own eq_refl).
Qed.

(** Signing and verifying round trip.  Signing returns, and a block
    signed with the key pair of its author, when the committee lists the
    public key of that pair for the author, passes [verify_signature]. *)
Theorem signed_block_verifies `{CryptoLaws} (block : Block) (kp : key_pair) (context : Context)
    (authority : Authority) (sb : SignedBlock) :
  is_valid_index (committee context) (author block) = true ->
  committee_authority (committee context) (author block) = Ok authority ->
  a_protocol_key authority = public_key kp ->
  signed_block_new block kp = Ok (Success sb) ->
  inner sb = block /\ verify_signature sb context = Ok (Success tt).
Proof.
  intros Ha Hau Hkey Hsb.
  unfold signed_block_new, compute_block_signature, compute_inner_block_digest, try_, ok_or in Hsb.
  destruct (bcs_block block) as [bytes|] eqn:E1; [|done]. cbn in Hsb.
  destruct (bcs_intent (inner_hash bytes)) as [message|] eqn:E2; [|done]. cbn in Hsb.
  injection Hsb as <-. split; [done|]. unfold verify_signature. cbn [inner signature].
  rewrite Ha, Hau. cbn. unfold verify_block_signature, compute_inner_block_digest, try_, ok_or.
  rewrite E1. cbn. rewrite E2. cbn. rewrite signature_roundtrip. cbn.
  by rewrite Hkey, sign_verifies.
Qed.

(** The size in [TooManyTransactionBytes] is not a size: the error carries the
    number of transactions. *)
Lemma too_many_bytes_reports_count (v : SignedBlockVerifier) (batch : list (list byte)) (size limit : N) :
  check_transactions v batch = Err (TooManyTransactionBytes size limit) ->
  size = N.of_nat (length batch) /\ limit < u64_sum (byte_len <$> batch).
Proof.
  unfold check_transactions. destruct (List.find _ _); [done|]. destruct (_ && _); [done|].
  destruct (_ && _) eqn:E; [|done]. intros [= <- <-].
  apply andb_true_iff in E as [E%N.ltb_lt _]. done.
Qed.

(* ------------------------------------------------------------------ *)
(** ** Witnesses *)

(** A scheme in which the signature is the key, and only its length is checked. *)
#[local] Instance toy_crypto : Crypto := {
  key_pair := list byte;
  key_signature := list byte;
  bcs_block _ := Some [];
  inner_hash _ := 0;
  bcs_intent _ := Some [];
  sign kp _ := kp;
  signature_to_bytes sig := sig;
  signature_from_bytes bytes := Some bytes;
  public_key kp := kp;
  key_verify key _ sig := (length sig =? length key)%nat;
}.

#[local] Instance toy_crypto_laws : CryptoLaws.
Proof. constructor; [done|]. intros kp msg. apply Nat.eqb_refl. Qed.

#[local] Instance accept_all : TransactionVerifier := {
  verify_batch _ := None;
  verify_and_vote_batch _ _ := inl [];
}.

Definition sample_verifier : SignedBlockVerifier :=
  signed_block_verifier_new no_bytes hash_7 (sample_context 0).

Lemma verify_block_exact_witness :
  exists r, verify_block sample_verifier (vb_block (sample_block 3 1)) = Ok r
    /\ (r = Success tt <-> valid_block sample_verifier (vb_block (sample_block 3 1))).
Proof.
  apply (verify_block_exact sample_verifier (vb_block (sample_block 3 1))).
  - exact test_committee_4_wf.
  - vm_compute. discriminate.
Defined.

Lemma verify_and_vote_sound_witness :
  let vb := verified_block_new_verified hash_7 (vb_block (sample_block 3 1)) [] in
  wf_block (test_committee 4) vb
  /\ (exists own others, ancestors vb = own :: others /\ br_author own = author vb).
Proof.
  intros vb. apply (verify_and_vote_sound hash_7 sample_verifier (vb_block (sample_block 3 1)) [] vb []).
  - exact test_committee_4_wf.
  - vm_compute. discriminate.
  - vm_compute. discriminate.
  - apply (bool_decide_eq_true_1 _). vm_compute. reflexivity.
  - vm_compute. reflexivity.
  - vm_compute. reflexivity.
Defined.

Lemma signed_block_verifies_witness :
  let block := inner (vb_block (sample_block 3 1)) in
  let sb := mkSignedBlock block [] in
  inner sb = block /\ verify_signature sb (sample_context 0) = Ok (Success tt).
Proof.
  intros block sb.
  apply (@signed_block_verifies toy_crypto toy_crypto_laws block [] (sample_context 0) (test_authority 1) sb);
    vm_compute; reflexivity.
Defined.
