(* ===== verification/DagTheorems.v ===== *)
(** * The DAG state: what it promises

    The state created on an empty store satisfies the invariants, accepting
    blocks in causal order keeps them, and the reads, the flush, the marks and
    the commits behave as the rest of the crate relies on. *)

From S2P Require Import Prelude Committee Context Block StakeAggregator ThresholdClock Commit Store LeaderScoring LeaderSchedule DagState DagInv Evolve DagOps DagLink DagAccept SampleDag.

(* ------------------------------------------------------------------ *)
(** ** Properties *)

(** C18: Accepting blocks is total and keeps the DAG.  From a state that
    satisfies the invariants (with the version 3 accounting off), accepting
    any list of well-formed blocks in which every ancestor above the GC round
    is cached or comes earlier, and in which the node's own blocks are for
    slots of which it has no block, succeeds; the invariants still hold, every
    accepted block is found by [contains_block], and every block that could
    be read before still reads the same. *)
Theorem accept_blocks_correct {S} `{StoreLaws S} (s : DagState S) (bs : list VerifiedBlock) :
  dag_inv s -> persist_inv s -> enable_v3 (protocol_config (ds_context s)) = false ->
  causal (ds_committee s) (own_index (ds_context s)) (gc_round s) (dom (ds_recent_blocks s)) bs ->
  exists s', accept_blocks s bs = Ok s' /\ dag_inv s' /\ persist_inv s'
    /\ (forall b, b ∈ bs -> contains_block s' (reference b) = Ok true)
    /\ (forall r x, get_block s r = Ok (Some x) -> get_block s' r = Ok (Some x)).
Proof.
  intros Hs Hp Hv3 Hc.
  destruct (accept_blocks_Ok bs s (dom (ds_recent_blocks s)) Hs Hp Hv3)
    as (s' & E & H' & P' & C' & _ & Hbs & Hmono & _); try done; [by intros r ?%known_view..|].
  exists s'. split_and!; [done..| |].
  - intros b Hb. rewrite contains_block_spec; [|done|done|].
    + f_equal. by apply bool_decide_eq_true, Hbs.
    + apply (wb_author _ b). unfold ds_committee. rewrite C'. by eapply causal_wf.
  - intros r x. rewrite !get_block_spec. intros [= Hx]. by rewrite (Hmono r x Hx).
Qed.

Lemma accept_blocks_correct_witness :
  exists s', accept_blocks (sample_fresh 0) (sample_blocks 3) = Ok s' /\ dag_inv s' /\ persist_inv s'
    /\ (forall b, b ∈ sample_blocks 3 -> contains_block s' (reference b) = Ok true)
    /\ (forall r x, get_block (sample_fresh 0) r = Ok (Some x) -> get_block s' r = Ok (Some x)).
Proof.
  apply (accept_blocks_correct (sample_fresh 0) (sample_blocks 3)
    (sample_fresh_inv 0) (sample_fresh_persist 0)); [reflexivity|].
  apply (bool_decide_eq_true_1 _). vm_compute. reflexivity.
Defined.

(** C26: Flushing loses nothing.  A flush succeeds and keeps the invariants;
    every reference reads exactly as before, whether the block is cached, was
    evicted or is absent; no block above the GC round leaves the cache.  The
    four buffers are empty afterwards, and everything that was in them, the
    blocks, the commits, the commit infos and the finalized commits, was
    written to the store in one batch, in the order it was buffered (nothing
    changes when all were empty); the rejected transactions of a finalized
    commit that was buffered are read back from the store. *)
Theorem flush_preserves_reads {S} `{StoreLaws S} (s : DagState S) :
  dag_inv s -> persist_inv s ->
  exists s', flush s = Ok s' /\ dag_inv s' /\ persist_inv s' /\ flushed s s'
    /\ (forall r, get_block s' r = get_block s r)
    /\ (forall r, gc_round s < br_round r -> view s' r = view s r).
Proof.
  intros Hs Hp. destruct (flush_Ok s Hs Hp) as (s' & E & H' & P' & _ & _ & _ & Hr & Hv & _).
  exists s'. split_and!; try done; [by apply flush_flushed|]. intros r. by rewrite !get_block_spec, Hr.
Qed.

(** Existence checks agree with reads: for a reference to a committee
    member, [contains_block] returns, and says true exactly when [get_block]
    returns a block, although it answers from the cache where it can. *)
Theorem contains_block_agrees {S} `{StoreLaws S} (s : DagState S) (r : BlockRef) :
  dag_inv s -> persist_inv s -> is_valid_index (ds_committee s) (br_author r) = true ->
  exists o, get_block s r = Ok o /\ contains_block s r = Ok (bool_decide (is_Some o)).
Proof.
  intros Hs Hp Ha. exists (dag_block s r).
  split; [apply get_block_spec|by apply contains_block_spec].
Qed.

(** [ancestors_at_round] is exact and terminates: above the GC round it
    returns, within its fuel and without a panic, each block of the earlier
    round in the causal history of the later block, once, and no other. *)
Theorem ancestors_at_round_correct {S} `{Store S} (s : DagState S) (later : VerifiedBlock)
    (earlier_round : N) :
  dag_inv s -> view s (reference later) = Some later -> gc_round s < earlier_round ->
  exists l, ancestors_at_round s later earlier_round = Ok l
    /\ (forall x, x ∈ l <-> view s (reference x) = Some x /\ round x = earlier_round
                            /\ reach s later (reference x))
    /\ NoDup (reference <$> l).
Proof.
  intros Hs Hl He.
  destruct (ancestors_at_round_spec s later earlier_round Hs (rooted_view _ _ _ Hs Hl) He)
    as (l & E & Hin & Hnd).
  exists l. split_and!; [done| |done]. intros x. rewrite Hin. tauto.
Qed.

(** C35: [link_causal_history] terminates within its fuel and returns exactly
    the root and the blocks of its causal history that are above the GC round
    and were not included before, each once; afterwards exactly these and the
    ones included before are included. *)
Theorem link_causal_history_correct {S} `{Store S} (s : DagState S) (root : BlockRef)
    (b : VerifiedBlock) :
  dag_inv s -> included_closed s -> view s root = Some b ->
  exists s' l, link_causal_history s root = Ok (s', l)
    /\ dag_inv s' /\ included_closed s' /\ NoDup l
    /\ (forall r, r ∈ l <-> gc_round s < br_round r /\ included s r = false
                            /\ (r = root \/ reach s b r))
    /\ (forall r, included s' r = true <-> included s r = true \/ r ∈ l).
Proof.
  intros Hs Hcl Hv.
  destruct (link_history_Ok s root Hs Hcl) as (s' & l & E & Hl & Hcl' & Hin); [by rewrite Hv|].
  exists s', l. split_and!; [done|apply (lk_inv _ _ _ _ Hl)|done|apply (lk_NoDup _ _ _ _ Hl)|
    |apply (lk_included _ _ _ _ Hl)].
  intros r. rewrite Hin. unfold below. rewrite elem_of_singleton. split.
  - intros (? & ? & [?|(x & b' & ->%elem_of_singleton & Hb' & ?)]); split_and!; try done; [by left|].
    right. congruence.
  - intros (? & ? & [?|?]); split_and!; try done; [by left|]. right. exists root, b.
    split_and!; [by apply elem_of_singleton|done..].
Qed.

(** [add_commit] on every branch.  An index that is not new is ignored;
    a gap in the indices or a timestamp that goes back is a panic; the next
    index is accepted: it becomes the last commit, is queued for the votes and
    for the store, raises the committed round of each author to the highest
    committed block, and keeps the cached blocks and the invariant. *)
Theorem add_commit_correct {S} `{Store S} (s : DagState S) (commit : TrustedCommit) :
  dag_inv s -> last_commit_index s < u32_MAX -> 0 < commit_index commit ->
  length (ds_last_committed_rounds s) = N.to_nat (committee_size (ds_committee s)) ->
  (forall r, r ∈ commit_blocks commit -> is_valid_index (ds_committee s) (br_author r) = true) ->
  last_commit_round s <= br_round (commit_leader commit) ->
  (commit_index commit <= last_commit_index s -> add_commit s commit = Ok s)
  /\ (last_commit_index s + 1 < commit_index commit -> add_commit s commit = Panic)
  /\ (commit_index commit = last_commit_index s + 1 ->
      commit_timestamp_ms commit < last_commit_timestamp_ms s -> add_commit s commit = Panic)
  /\ (commit_index commit = last_commit_index s + 1 ->
      last_commit_timestamp_ms s <= commit_timestamp_ms commit ->
      exists s', add_commit s commit = Ok s' /\ dag_inv s' /\ ds_last_commit s' = Some commit
        /\ ds_pending_commit_votes s' = ds_pending_commit_votes s ++ [commit_reference commit]
        /\ ds_commits_to_write s' = ds_commits_to_write s ++ [commit]
        /\ (forall r, view s' r = view s r)
        /\ forall i, ds_last_committed_rounds s' !! i
                     = highest_round (commit_blocks commit) i <$> ds_last_committed_rounds s !! i).
Proof.
  intros Hs Hmax Hpos Hlen Hbl Hr. split_and!.
  4:{ intros Hi Ht.
      destruct (add_commit_Ok s commit) as (s' & E & H' & ? & ? & ? & _ & Hb & _ & _ & ?);
        [done|by split|lia|done..|].
      exists s'. split_and!; try done. intros r. unfold view. by rewrite Hb. }
  all: unfold add_commit, last_commit_index, last_commit_timestamp_ms in *;
    destruct (ds_last_commit s) as [lc|]; intros Hi; try lia.
  - by rewrite (proj2 (N.leb_le _ _)).
  - rewrite (proj2 (N.leb_gt _ _)) by lia. rewrite u32_add_small by lia.
    by rewrite (proj2 (N.eqb_neq _ _)) by lia.
  - rewrite (proj2 (N.eqb_neq _ _)); [done|]. unfold GENESIS_COMMIT_INDEX in Hi. lia.
  - intros Ht. rewrite (proj2 (N.leb_gt _ _)) by lia. rewrite u32_add_small, Hi, N.eqb_refl by lia.
    cbn [assert_that mbind outcome_bind]. by rewrite (proj2 (N.ltb_lt _ _)).
Qed.

(** C40: A node that runs on the in-memory store cannot restart right after a
    commit info was written for its last commit: the recovery scans the empty
    range that starts after the last commit, and [BTreeMap::range] panics on a
    range whose start is after its end. *)
Theorem restart_panics_on_mem_store (bcs_to_bytes : SignedBlock -> list byte)
    (default_hash : list byte -> N) (context : Context) (store : MemStore)
    (commit : TrustedCommit) (info_ref : CommitRef) (info : CommitInfo) :
  mem_store_read_last_commit store = Some commit ->
  mem_store_read_last_commit_info store = Some (info_ref, info) ->
  cr_index info_ref = commit_index commit -> commit_index commit < u32_MAX ->
  dag_state_new bcs_to_bytes default_hash context store = Panic.
Proof.
  intros Hc Hi Hidx Hmax. unfold dag_state_new.
  change (read_last_commit store) with (Ok (mem_store_read_last_commit store)). rewrite Hc.
  cbn [mbind outcome_bind]. unfold recover_commits.
  change (read_last_commit_info store) with (Ok (mem_store_read_last_commit_info store)). rewrite Hi.
  cbn [mbind outcome_bind].
  change (scan_commits store) with (mem_store_scan_commits store). unfold mem_store_scan_commits.
  set (k := commit_index commit) in *. rewrite Hidx, u32_add_small by lia.
  assert (commit_range_end (commit_range_new (k + 1) k) = k) as ->.
  { unfold commit_range_end, commit_range_new, u32_saturating_add, saturating_sub. simpl. lia. }
  cbn [commit_range_new commit_range_start cr_start].
  assert (key_leb (k + 1, COMMIT_DIGEST_MIN) (k, COMMIT_DIGEST_MAX) = false) as ->.
  { unfold key_leb. simpl. rewrite decide_False by lia. apply N.leb_gt. lia. }
  unfold mem_store_read_last_commit in Hc. rewrite bool_decide_false; [done|].
  intros He. by rewrite He in Hc.
Qed.

(* ------------------------------------------------------------------ *)
(** ** Witnesses *)

Lemma flush_preserves_reads_witness :
  exists s', flush (sample 0 6) = Ok s' /\ dag_inv s' /\ persist_inv s' /\ flushed (sample 0 6) s'
    /\ (forall r, get_block s' r = get_block (sample 0 6) r)
    /\ (forall r, gc_round (sample 0 6) < br_round r -> view s' r = view (sample 0 6) r).
Proof. exact (flush_preserves_reads (sample 0 6) sample_inv sample_persist). Defined.

Lemma contains_block_agrees_witness :
  exists o, get_block (sample 0 6) (sample_ref 2 0) = Ok o
    /\ contains_block (sample 0 6) (sample_ref 2 0) = Ok (bool_decide (is_Some o)).
Proof.
  apply (contains_block_agrees (sample 0 6) (sample_ref 2 0) sample_inv sample_persist).
  vm_compute. reflexivity.
Defined.

Lemma ancestors_at_round_correct_witness :
  exists l, ancestors_at_round (sample 0 6) (sample_block 5 1) 2 = Ok l
    /\ (forall x, x ∈ l <-> view (sample 0 6) (reference x) = Some x /\ round x = 2
                            /\ reach (sample 0 6) (sample_block 5 1) (reference x))
    /\ NoDup (reference <$> l).
Proof.
  apply (ancestors_at_round_correct (sample 0 6) (sample_block 5 1) 2 sample_inv);
    vm_compute; reflexivity.
Defined.

Lemma link_causal_history_correct_witness :
  exists s' l, link_causal_history (sample 0 6) (sample_ref 4 2) = Ok (s', l)
    /\ dag_inv s' /\ included_closed s' /\ NoDup l
    /\ (forall r, r ∈ l <-> gc_round (sample 0 6) < br_round r /\ included (sample 0 6) r = false
                            /\ (r = sample_ref 4 2 \/ reach (sample 0 6) (sample_block 4 2) r))
    /\ (forall r, included s' r = true <-> included (sample 0 6) r = true \/ r ∈ l).
Proof.
  apply (link_causal_history_correct (sample 0 6) (sample_ref 4 2) (sample_block 4 2) sample_inv).
  - apply unmarked_closed. vm_compute. reflexivity.
  - vm_compute. reflexivity.
Defined.

Lemma add_commit_correct_witness :
  let s := sample 0 6 in
  let commit := sample_commit 1 5 (sample_ref 3 0) [sample_ref 3 0] in
  exists s', add_commit s commit = Ok s' /\ dag_inv s' /\ ds_last_commit s' = Some commit
    /\ ds_pending_commit_votes s' = ds_pending_commit_votes s ++ [commit_reference commit]
    /\ ds_commits_to_write s' = ds_commits_to_write s ++ [commit]
    /\ (forall r, view s' r = view s r)
    /\ forall i, ds_last_committed_rounds s' !! i
                 = highest_round (commit_blocks commit) i <$> ds_last_committed_rounds s !! i.
Proof.
  intros s commit. apply (add_commit_correct s commit sample_inv); try (vm_compute; done).
  intros r Hr. apply list_elem_of_singleton in Hr as ->. vm_compute. reflexivity.
Defined.

Lemma restart_panics_on_mem_store_witness :
  let commit := sample_commit 1 5 (sample_ref 3 0) [sample_ref 3 0] in
  let info := mkCommitInfo [3; 0; 0; 0] (mkReputationScores [1; 1; 1; 1] (commit_range_new 1 1)) in
  let store := mem_store_write mem_store_new
                 (mkWriteBatch [] [commit] [(commit_reference commit, info)] []) in
  dag_state_new no_bytes hash_7 (sample_context 0) store = Panic.
Proof.
  intros commit info store.
  apply (restart_panics_on_mem_store no_bytes hash_7 (sample_context 0) store commit
    (commit_reference commit) info); vm_compute; reflexivity.
Defined.
