(* ===== verification/BaseCommitter.v ===== *)
(** * The base committer

    Models [crates/consensus/src/base_committer.rs]: the direct and the
    indirect decision rule for one leader slot.  The state shared behind a
    lock (the DAG) is an argument.  [find_supported_block] recurses into
    ancestors, whose rounds decrease: its fuel is the round of the block it
    starts from. *)

From S2P Require Import Prelude Committee Context Block StakeAggregator Commit Store LeaderScoring DagState LeaderSchedule.

Record BaseCommitterOptions := mkBaseCommitterOptions {
  wave_length : N;
  leader_offset : N;
  round_offset : N;
}.

Definition base_committer_options_default : BaseCommitterOptions :=
  {| wave_length := DEFAULT_WAVE_LENGTH; leader_offset := 0; round_offset := 0 |}.

Record BaseCommitter := mkBaseCommitter {
  bc_context : Context;
  bc_leader_schedule : LeaderSchedule;
  bc_options : BaseCommitterOptions;
}.

Definition leader_round (self : BaseCommitter) (wave : N) : N :=
  u32_add (u32_mul wave (wave_length (bc_options self))) (round_offset (bc_options self)).

Definition decision_round (self : BaseCommitter) (wave : N) : N :=
  let wave_length := wave_length (bc_options self) in
  u32_add (u32_sub (u32_add (u32_mul wave wave_length) wave_length) 1)
    (round_offset (bc_options self)).

(** Every committer is built with a wave length of at least 3, so the division,
    which panics on a wave length of 0 (and is 0 here), is defined. *)
Definition wave_number (self : BaseCommitter) (round : N) : N :=
  saturating_sub round (round_offset (bc_options self)) / wave_length (bc_options self).

Section committer.
Context `{Rng} {S : Type} `{Store S}.
Implicit Types s : DagState S.

Definition elect_leader (self : BaseCommitter) (round : N) : outcome (option Slot) :=
  let wave := wave_number self round in
  if negb (leader_round self wave =? round) then Ok None
  else
    leader ← schedule_elect_leader (bc_leader_schedule self) round (leader_offset (bc_options self));
    Ok (Some (mkSlot round leader)).

(** The loop over the ancestors; [rec] is the recursive call. *)
Fixpoint find_in_ancestors (rec : VerifiedBlock -> outcome (option BlockRef)) s
    (leader_slot : Slot) (refs : list BlockRef) : outcome (option BlockRef) :=
  match refs with
  | [] => Ok None
  | ancestor :: refs =>
      if bool_decide (slot_of_ref ancestor = leader_slot) then Ok (Some ancestor)
      else if br_round ancestor <=? s_round leader_slot then find_in_ancestors rec s leader_slot refs
      else
        block ← get_block s ancestor;
        block ← unwrap block;
        support ← rec block;
        match support with
        | Some support => Ok (Some support)
        | None => find_in_ancestors rec s leader_slot refs
        end
  end.

Fixpoint find_supported_block (fuel : nat) s (leader_slot : Slot) (from : VerifiedBlock)
    : outcome (option BlockRef) :=
  match fuel with
  | O => OutOfFuel
  | Datatypes.S fuel =>
      if round from <? s_round leader_slot then Ok None
      else find_in_ancestors (find_supported_block fuel s leader_slot) s leader_slot (ancestors from)
  end.

Definition is_vote s (potential_vote leader_block : VerifiedBlock) : outcome bool :=
  let reference := reference leader_block in
  let leader_slot := slot_of_ref reference in
  support ← find_supported_block (Datatypes.S (N.to_nat (round potential_vote))) s leader_slot
              potential_vote;
  Ok (bool_decide (support = Some reference)).

(** Whether a reference is a vote, through the cache [all_votes]. *)
Definition check_vote s (leader_block : VerifiedBlock) (all_votes : gmap BlockRef bool)
    (reference : BlockRef) : outcome (bool * gmap BlockRef bool) :=
  match all_votes !! reference with
  | Some is_vote => Ok (is_vote, all_votes)
  | None =>
      potential_vote ← get_block s reference;
      is_vote ← match potential_vote with
                | Some potential_vote => is_vote s potential_vote leader_block
                | None => _ ← assert_that (br_round reference <=? gc_round s); Ok false
                end;
      Ok (is_vote, <[reference := is_vote]> all_votes)
  end.

Fixpoint certificate_loop (c : Committee) s (leader_block : VerifiedBlock) (refs : list BlockRef)
    (votes_stake_aggregator : StakeAggregator QuorumThreshold) (all_votes : gmap BlockRef bool)
    : outcome (bool * gmap BlockRef bool) :=
  match refs with
  | [] => Ok (false, all_votes)
  | reference :: refs =>
      checked ← check_vote s leader_block all_votes reference;
      let '(is_vote, all_votes) := checked in
      if is_vote : bool then
        added ← stake_aggregator_add votes_stake_aggregator (br_author reference) c;
        let '(votes_stake_aggregator, reached) := added in
        if reached : bool then Ok (true, all_votes)
        else certificate_loop c s leader_block refs votes_stake_aggregator all_votes
      else certificate_loop c s leader_block refs votes_stake_aggregator all_votes
  end.

Definition is_certificate (self : BaseCommitter) s (potential_certificate leader_block : VerifiedBlock)
    (all_votes : gmap BlockRef bool) : outcome (bool * gmap BlockRef bool) :=
  certificate_loop (committee (bc_context self)) s leader_block (ancestors potential_certificate)
    stake_aggregator_new all_votes.

(** [potential_certificates.iter().any(..)] with the cache of one leader block. *)
Fixpoint any_certificate (self : BaseCommitter) s (leader_block : VerifiedBlock)
    (certs : list VerifiedBlock) (all_votes : gmap BlockRef bool) : outcome bool :=
  match certs with
  | [] => Ok false
  | cert :: certs =>
      res ← is_certificate self s cert leader_block all_votes;
      let '(found, all_votes) := res in
      if found : bool then Ok true else any_certificate self s leader_block certs all_votes
  end.

Definition decide_leader_from_anchor (self : BaseCommitter) s (anchor : VerifiedBlock)
    (leader_slot : Slot) : outcome LeaderStatus :=
  let leader_blocks := get_uncommitted_blocks_at_slot s leader_slot in
  let wave := wave_number self (s_round leader_slot) in
  let decision_round := decision_round self wave in
  potential_certificates ← ancestors_at_round s anchor decision_round;
  certified_leader_blocks ←
    filterM (fun leader_block => any_certificate self s leader_block potential_certificates ∅)
      leader_blocks;
  if (1 <? length certified_leader_blocks)%nat then Panic
  else Ok match last certified_leader_blocks with
          | Some certified_leader_block => StatusCommit certified_leader_block
          | None => StatusSkip leader_slot
          end.

Fixpoint blame_loop (c : Committee) (leader : N) (voting_blocks : list VerifiedBlock)
    (blame_stake_aggregator : StakeAggregator QuorumThreshold) : outcome bool :=
  match voting_blocks with
  | [] => Ok false
  | voting_block :: voting_blocks =>
      let voter := br_author (reference voting_block) in
      if forallb (fun ancestor => negb (br_author ancestor =? leader)) (ancestors voting_block) then
        added ← stake_aggregator_add blame_stake_aggregator voter c;
        let '(blame_stake_aggregator, reached) := added in
        if reached : bool then Ok true
        else blame_loop c leader voting_blocks blame_stake_aggregator
      else blame_loop c leader voting_blocks blame_stake_aggregator
  end.

Definition enough_leader_blame (self : BaseCommitter) s (voting_round leader : N) : outcome bool :=
  voting_blocks ← get_uncommitted_blocks_at_round s voting_round;
  blame_loop (committee (bc_context self)) leader voting_blocks stake_aggregator_new.

Fixpoint support_loop (self : BaseCommitter) s (leader_block : VerifiedBlock)
    (decision_blocks : list VerifiedBlock)
    (certificate_stake_aggregator : StakeAggregator QuorumThreshold)
    (all_votes : gmap BlockRef bool) : outcome bool :=
  match decision_blocks with
  | [] => Ok false
  | decision_block :: decision_blocks =>
      let authority := br_author (reference decision_block) in
      res ← is_certificate self s decision_block leader_block all_votes;
      let '(found, all_votes) := res in
      if found : bool then
        added ← stake_aggregator_add certificate_stake_aggregator authority
                  (committee (bc_context self));
        let '(certificate_stake_aggregator, reached) := added in
        if reached : bool then Ok true
        else support_loop self s leader_block decision_blocks certificate_stake_aggregator all_votes
      else support_loop self s leader_block decision_blocks certificate_stake_aggregator all_votes
  end.

Definition enough_leader_support (self : BaseCommitter) s (decision_round : N)
    (leader_block : VerifiedBlock) : outcome bool :=
  let c := committee (bc_context self) in
  decision_blocks ← get_uncommitted_blocks_at_round s decision_round;
  stakes ← mapM (fun b => committee_stake c (author b)) decision_blocks;
  let total_stake := u64_sum stakes in
  if negb (reached_quorum c total_stake) then Ok false
  else support_loop self s leader_block decision_blocks stake_aggregator_new ∅.

Definition try_direct_decide (self : BaseCommitter) s (leader : Slot) : outcome LeaderStatus :=
  let voting_round := u32_add (s_round leader) 1 in
  blame ← enough_leader_blame self s voting_round (s_authority leader);
  if blame : bool then Ok (StatusSkip leader)
  else
    let wave := wave_number self (s_round leader) in
    let decision_round := decision_round self wave in
    let leader_blocks := get_uncommitted_blocks_at_slot s leader in
    leaders_with_enough_support ←
      filterM (fun l => enough_leader_support self s decision_round l) leader_blocks;
    if (1 <? length leaders_with_enough_support)%nat then Panic
    else Ok match last leaders_with_enough_support with
            | Some block => StatusCommit block
            | None => StatusUndecided leader
            end.

(** The loop over the anchors, past the decision round of the leader. *)
Fixpoint indirect_loop (self : BaseCommitter) s (leader_slot : Slot) (anchors : list LeaderStatus)
    : outcome LeaderStatus :=
  match anchors with
  | [] => Ok (StatusUndecided leader_slot)
  | StatusCommit anchor :: _ => decide_leader_from_anchor self s anchor leader_slot
  | StatusSkip _ :: anchors => indirect_loop self s leader_slot anchors
  | StatusUndecided _ :: _ => Ok (StatusUndecided leader_slot)
  end.

Definition try_indirect_decide (self : BaseCommitter) s (leader_slot : Slot)
    (leaders : list LeaderStatus) : outcome LeaderStatus :=
  let first_round := u32_add (s_round leader_slot) (wave_length (bc_options self)) in
  indirect_loop self s leader_slot
    (List.filter (fun x => first_round <=? leader_status_round x) leaders).
End committer.
