(* ===== verification/UniversalCommitter.v ===== *)
(** * The universal committer

    Models [crates/consensus/src/universal_committer.rs]: deciding the leader
    slots above the last decided one, from the highest round down, with one
    base committer per pipeline stage and leader. *)

From S2P Require Import Prelude Committee Context Block StakeAggregator Commit Store LeaderScoring DagState LeaderSchedule BaseCommitter.

Record UniversalCommitter := mkUniversalCommitter {
  uc_context : Context;
  uc_committers : list BaseCommitter;
}.

(** The range [first..=last]. *)
Definition range_inclusive (first last : N) : list N :=
  (fun i => first + N.of_nat i) <$> seq 0 (N.to_nat (last + 1 - first)).

Section universal.
Context `{Rng} {S : Type} `{Store S}.
Implicit Types s : DagState S.

(** The rounds in descending order, with the committers of each round in
    reverse order. *)
Definition decide_order (committers : list BaseCommitter) (first last : N)
    : list (N * BaseCommitter) :=
  r ← reverse (range_inclusive first last);
  (fun committer => (r, committer)) <$> reverse committers.

Fixpoint decide_loop s (last_decided : Slot) (order : list (N * BaseCommitter))
    (leaders : list (LeaderStatus * Decision)) : outcome (list (LeaderStatus * Decision)) :=
  match order with
  | [] => Ok leaders
  | (round, committer) :: order =>
      slot ← elect_leader committer round;
      match slot with
      | None => decide_loop s last_decided order leaders
      | Some slot =>
          if bool_decide (slot = last_decided) then Ok leaders
          else
            status ← try_direct_decide committer s slot;
            if is_decided status then
              decide_loop s last_decided order ((status, Direct) :: leaders)
            else
              status ← try_indirect_decide committer s slot leaders.*1;
              decide_loop s last_decided order ((status, Indirect) :: leaders)
      end
  end.

Definition is_direct (d : Decision) : bool := match d with Direct => true | _ => false end.

(** The longest prefix of decided leaders.  [update_metrics] looks up the
    leader's hostname. *)
Fixpoint decided_prefix (c : Committee) (leaders : list (LeaderStatus * Decision))
    : outcome (list DecidedLeader) :=
  match leaders with
  | [] => Ok []
  | (leader, decision) :: leaders =>
      if leader_status_round leader =? GENESIS_ROUND then decided_prefix c leaders
      else match into_decided_leader leader (is_direct decision) with
           | None => Ok []
           | Some decided_leader =>
               _ ← committee_authority c (s_authority (decided_slot decided_leader));
               rest ← decided_prefix c leaders;
               Ok (decided_leader :: rest)
           end
  end.

Definition try_decide (self : UniversalCommitter) s (last_decided : Slot)
    : outcome (list DecidedLeader) :=
  let highest_accepted_round := ds_highest_accepted_round s in
  let last_round :=
    match num_leaders_per_round (protocol_config (uc_context self)) with
    | Some 1 => u32_add (s_round last_decided) 1
    | _ => s_round last_decided
    end in
  leaders ← decide_loop s last_decided
              (decide_order (uc_committers self) last_round (saturating_sub highest_accepted_round 2))
              [];
  decided_prefix (committee (uc_context self)) leaders.

Definition get_leaders (self : UniversalCommitter) (round : N) : outcome (list N) :=
  slots ← mapM (fun committer => elect_leader committer round) (uc_committers self);
  Ok (s_authority <$> omap id slots).
End universal.

(** [UniversalCommitterBuilder::build] *)
Definition universal_committer_build (context : Context) (leader_schedule : LeaderSchedule)
    (wave_length number_of_leaders : N) (pipeline : bool) : UniversalCommitter :=
  let pipeline_stages := if pipeline then wave_length else 1 in
  {| uc_context := context;
     uc_committers :=
       round_offset ← N.of_nat <$> seq 0 (N.to_nat pipeline_stages);
       (fun leader_offset =>
          mkBaseCommitter context leader_schedule
            (mkBaseCommitterOptions wave_length leader_offset round_offset))
       <$> (N.of_nat <$> seq 0 (N.to_nat number_of_leaders)) |}.
