(* ===== verification/Core.v ===== *)
(** * The core of a node

    Models core.rs: the parts of a node put together.  Blocks go through the
    block manager into the DAG state, the committer decides leaders, the
    commit observer turns them into commits, and the proposer, which only
    validators have, makes new blocks.  The proposer is a trait of the code and
    a class here.  The leader schedule that the code shares between the core,
    its committer and the proposer is a field that they are given; the leader
    schedule of version 3 is left out. *)

From S2P Require Import Prelude Committee Context Block StakeAggregator ThresholdClock Commit Error Store LeaderScoring DagState VoteTracker Linearizer CommitObserver BlockManager LeaderSchedule BaseCommitter UniversalCommitter.

(** [trait Proposer].  The methods are given the state that implementations
    share with the core behind locks: the DAG state, the votes on
    transactions and the leader schedule. *)
Class Proposer (P S : Type) := {
  try_new_block : P -> DagState S -> VoteTrackerState -> LeaderSchedule -> bool ->
    outcome (P * DagState S * VoteTrackerState * option ExtendedBlock);
  should_propose : P -> DagState S -> bool;
  set_propagation_delay : P -> N -> P;
  set_last_known_proposed_round : P -> N -> P;
  get_last_known_proposed_round : P -> option N;
  last_proposed_round : P -> DagState S -> outcome N;
  last_proposed_block : P -> DagState S -> outcome VerifiedBlock;
  proposer_set_scores : P -> ReputationScores -> P;
  notify_own_blocks_committed : P -> list BlockRef -> N -> P;
}.

(* ------------------------------------------------------------------ *)
(** ** Signals *)

(** What was sent to the subscribers, and whether someone receives own blocks. *)
Record CoreSignals := mkCoreSignals {
  sg_subscribed : bool;
  sg_blocks : list ExtendedBlock;
  sg_accepted_blocks : list VerifiedBlock;
  sg_round : N;
}.

Definition core_signals_new (subscribed : bool) : CoreSignals := mkCoreSignals subscribed [] [] 0.

Definition signal_new_block (context : Context) (self : CoreSignals) (extended_block : ExtendedBlock)
    : ConsensusResult CoreSignals :=
  if 1 <? committee_size (committee context) then
    if round (eb_block extended_block) =? GENESIS_ROUND then Success self
    else if sg_subscribed self then
      Success (mkCoreSignals true (sg_blocks self ++ [extended_block]) (sg_accepted_blocks self) (sg_round self))
    else Err Shutdown
  else Success self.

Definition signal_new_accepted_block (self : CoreSignals) (block : VerifiedBlock) : CoreSignals :=
  mkCoreSignals (sg_subscribed self) (sg_blocks self) (sg_accepted_blocks self ++ [block]) (sg_round self).

Definition signal_new_round (self : CoreSignals) (round_number : N) : CoreSignals :=
  mkCoreSignals (sg_subscribed self) (sg_blocks self) (sg_accepted_blocks self) round_number.

(* ------------------------------------------------------------------ *)
(** ** The state of the core *)

Record Core (P S : Type) := mkCore {
  co_context : Context;
  co_block_manager : BlockManager;
  co_last_signaled_round : N;
  co_last_decided_leader : Slot;
  co_leader_schedule : LeaderSchedule;
  co_handle : CommitFinalizerHandle;
  co_signals : CoreSignals;
  co_dag : DagState S;
  co_proposer : option P;
  co_votes : VoteTrackerState;
}.
Arguments mkCore {P S} _ _ _ _ _ _ _ _ _ _.
Arguments co_context {P S} _.
Arguments co_block_manager {P S} _.
Arguments co_last_signaled_round {P S} _.
Arguments co_last_decided_leader {P S} _.
Arguments co_leader_schedule {P S} _.
Arguments co_handle {P S} _.
Arguments co_signals {P S} _.
Arguments co_dag {P S} _.
Arguments co_proposer {P S} _.
Arguments co_votes {P S} _.

Section core.
Context `{Rng} {P S : Type} `{Store S} `{!Proposer P S}.
Context (bcs_commit : Commit -> list byte) (default_hash : list byte -> N).
Implicit Types self : Core P S.

Definition set_blocks self (bm : BlockManager) (dag : DagState S) : Core P S :=
  mkCore (co_context self) bm (co_last_signaled_round self) (co_last_decided_leader self)
    (co_leader_schedule self) (co_handle self) (co_signals self) dag (co_proposer self) (co_votes self).

Definition set_signals self (signals : CoreSignals) : Core P S :=
  mkCore (co_context self) (co_block_manager self) (co_last_signaled_round self) (co_last_decided_leader self)
    (co_leader_schedule self) (co_handle self) signals (co_dag self) (co_proposer self) (co_votes self).

Definition set_proposer self (proposer : option P) : Core P S :=
  mkCore (co_context self) (co_block_manager self) (co_last_signaled_round self) (co_last_decided_leader self)
    (co_leader_schedule self) (co_handle self) (co_signals self) (co_dag self) proposer (co_votes self).

Definition set_schedule self (schedule : LeaderSchedule) (dag : DagState S) : Core P S :=
  mkCore (co_context self) (co_block_manager self) (co_last_signaled_round self) (co_last_decided_leader self)
    schedule (co_handle self) (co_signals self) dag (co_proposer self) (co_votes self).

Definition set_committed self (dag : DagState S) (handle : CommitFinalizerHandle) : Core P S :=
  mkCore (co_context self) (co_block_manager self) (co_last_signaled_round self) (co_last_decided_leader self)
    (co_leader_schedule self) handle (co_signals self) dag (co_proposer self) (co_votes self).

Definition set_last_decided self (slot : Slot) : Core P S :=
  mkCore (co_context self) (co_block_manager self) (co_last_signaled_round self) slot
    (co_leader_schedule self) (co_handle self) (co_signals self) (co_dag self) (co_proposer self) (co_votes self).

Definition set_signaled_round self (round : N) : Core P S :=
  mkCore (co_context self) (co_block_manager self) round (co_last_decided_leader self)
    (co_leader_schedule self) (co_handle self) (co_signals self) (co_dag self) (co_proposer self) (co_votes self).

Definition set_proposed self (proposer : P) (dag : DagState S) (votes : VoteTrackerState) : Core P S :=
  mkCore (co_context self) (co_block_manager self) (co_last_signaled_round self) (co_last_decided_leader self)
    (co_leader_schedule self) (co_handle self) (co_signals self) dag (Some proposer) votes.

Definition set_votes self (votes : VoteTrackerState) : Core P S :=
  mkCore (co_context self) (co_block_manager self) (co_last_signaled_round self) (co_last_decided_leader self)
    (co_leader_schedule self) (co_handle self) (co_signals self) (co_dag self) (co_proposer self) votes.

(** The committer that the core builds, with the current leader schedule. *)
Definition core_committer self : UniversalCommitter :=
  universal_committer_build (co_context self) (co_leader_schedule self) DEFAULT_WAVE_LENGTH
    (default 1 (num_leaders_per_round (protocol_config (co_context self)))) true.

Definition current_reputation_scores self : ReputationScores :=
  reputation_scores (leader_swap_table (co_leader_schedule self)).

(** The [?] operator on a result that comes with the state. *)
Definition core_try {A B} (m : outcome (Core P S * ConsensusResult A))
    (f : Core P S -> A -> outcome (Core P S * ConsensusResult B)) : outcome (Core P S * ConsensusResult B) :=
  r ← m; let '(self, res) := r in match res with Success a => f self a | Err e => Ok (self, Err e) end.

(* ------------------------------------------------------------------ *)
(** ** Accepting blocks *)

Definition core_accept_blocks self (blocks : list VerifiedBlock)
    : outcome (Core P S * list VerifiedBlock * gset BlockRef) :=
  res ← try_accept_blocks (co_context self) (co_block_manager self) (co_dag self) blocks;
  let '(bm, dag, accepted_blocks, missing_block_refs) := res in
  let self := set_signals (set_blocks self bm dag)
                (foldl signal_new_accepted_block (co_signals self) accepted_blocks) in
  Ok (self, accepted_blocks, missing_block_refs).

Definition core_accept_committed_blocks self (blocks : list VerifiedBlock) : outcome (Core P S * list VerifiedBlock) :=
  res ← try_accept_committed_blocks (co_context self) (co_block_manager self) (co_dag self) blocks;
  let '(bm, dag, accepted_blocks) := res in
  let self := set_signals (set_blocks self bm dag)
                (foldl signal_new_accepted_block (co_signals self) accepted_blocks) in
  Ok (self, accepted_blocks).

Definition check_block_refs self (block_refs : list BlockRef) : outcome (Core P S * gset BlockRef) :=
  res ← try_find_blocks (co_context self) (co_block_manager self) (co_dag self) block_refs;
  let '(bm, missing_block_refs) := res in
  Ok (set_blocks self bm (co_dag self), missing_block_refs).

Definition get_missing_blocks self : gset BlockRef := bm_missing_blocks (co_block_manager self).

(* ------------------------------------------------------------------ *)
(** ** Commits *)

(** Certified commits become decided leaders, at most [limit] of them; the
    rest stays. *)
Definition try_select_certified_leaders self (certified_commits : list CertifiedCommit) (limit : N)
    : outcome (list CertifiedCommit * list (DecidedLeader * CertifiedCommit)) :=
  _ ← assert_that (0 <? limit);
  if is_empty certified_commits then Ok (certified_commits, [])
  else
    let '(to_commit, certified_commits) :=
      if limit <=? N.of_nat (length certified_commits)
      then (take (N.to_nat limit) certified_commits, drop (N.to_nat limit) certified_commits)
      else (certified_commits, []) in
    selected ← mapM (fun commit =>
                       leader ← unwrap (last (cc_blocks commit));
                       _ ← assert_that (bool_decide (reference leader = commit_leader (cc_commit commit)));
                       _ ← committee_authority (committee (co_context self)) (author leader);
                       Ok (DecidedCommit leader false, commit)) to_commit;
    Ok (certified_commits, selected).

(** The leader schedule changes when all the commits of the current one are
    made. *)
Definition maybe_update_schedule self : outcome (Core P S * N) :=
  commits_until_update ← commits_until_leader_schedule_update (co_leader_schedule self) (co_dag self);
  if commits_until_update =? 0 then
    updated ← update_leader_schedule_v2 (co_leader_schedule self) (co_dag self);
    let '(schedule, dag) := updated in
    let self := set_schedule self schedule dag in
    let self := set_proposer self
                  ((fun p => proposer_set_scores p (current_reputation_scores self)) <$> co_proposer self) in
    commits_until_update ← commits_until_leader_schedule_update (co_leader_schedule self) (co_dag self);
    Ok (self, commits_until_update)
  else Ok (self, commits_until_update).

(** The first half of a turn of the loop: the schedule, the certified commits
    to process next, and the decided leaders, from these commits or from the
    decision rule. *)
Definition decide_turn self (certified_commits : list CertifiedCommit)
    : outcome (Core P S * list CertifiedCommit * list DecidedLeader * bool) :=
  updated ← maybe_update_schedule self;
  let '(self, commits_until_update) := updated in
  _ ← assert_that (0 <? commits_until_update);
  selected ← try_select_certified_leaders self certified_commits commits_until_update;
  let '(certified_commits, selected) := selected in
  let certified_leaders := selected.*1 in
  accepted ← core_accept_committed_blocks self (selected.*2 ≫= cc_blocks);
  let self := accepted.1 in
  if is_empty certified_leaders then
    decided_leaders ← try_decide (core_committer self) (co_dag self) (co_last_decided_leader self);
    Ok (self, certified_commits,
        if commits_until_update <=? N.of_nat (length decided_leaders)
        then take (N.to_nat commits_until_update) decided_leaders else decided_leaders, true)
  else Ok (self, certified_commits, certified_leaders, false).

(** The second half: the sub-DAGs of the decided leaders, or [None] when there
    is nothing to commit. *)
Definition commit_decided self (decided_leaders : list DecidedLeader) (local : bool)
    : outcome (Core P S * ConsensusResult (option (list CommittedSubDag))) :=
  match last decided_leaders with
  | None => Ok (self, Success None)
  | Some last_decided =>
      let self := set_last_decided self (decided_slot last_decided) in
      let sequenced_leaders := omap into_committed_block decided_leaders in
      if is_empty sequenced_leaders then Ok (self, Success None)
      else
        handled ← observer_handle_commit bcs_commit default_hash (co_context self) (co_dag self) (co_handle self)
                    sequenced_leaders local;
        let '(dag, handle, res) := handled in
        let self := set_committed self dag handle in
        match res with
        | Err e => Ok (self, Err e)
        | Success subdags =>
            unsuspended ← try_unsuspend_blocks_for_latest_gc_round (co_context self) (co_block_manager self) (co_dag self);
            Ok (set_blocks self unsuspended.1 unsuspended.2, Success (Some subdags))
        end
  end.

Fixpoint commit_loop (fuel : nat) self (certified_commits : list CertifiedCommit)
    (committed_sub_dags : list CommittedSubDag) : outcome (Core P S * ConsensusResult (list CommittedSubDag)) :=
  match fuel with
  | O => OutOfFuel
  | Datatypes.S fuel =>
      decided ← decide_turn self certified_commits;
      let '(self, certified_commits, decided_leaders, local) := decided in
      core_try (commit_decided self decided_leaders local) (fun self subdags =>
        match subdags with
        | None => Ok (self, Success committed_sub_dags)
        | Some subdags => commit_loop fuel self certified_commits (committed_sub_dags ++ subdags)
        end)
  end.

(** Each turn uses up certified commits or raises the last decided round, which
    stays below the rounds of the blocks that are, or may get, accepted. *)
Definition commit_fuel self (certified_commits : list CertifiedCommit) : nat :=
  let rounds := foldr N.max (ds_highest_accepted_round (co_dag self))
                  (round <$> ((certified_commits ≫= cc_blocks)
                              ++ ((fun kv => sb_block kv.2) <$> map_to_list (bm_suspended_blocks (co_block_manager self))))) in
  Datatypes.S (length certified_commits + N.to_nat rounds).

(** A commit made from a certified one must be that commit. *)
Definition check_certified (certified : gmap N CommitRef) (committed_sub_dags : list CommittedSubDag)
    : outcome (gmap N CommitRef) :=
  foldM (fun certified sub_dag =>
           let index := cr_index (sd_commit_ref sub_dag) in
           match certified !! index with
           | Some commit_ref => _ ← assert_that (bool_decide (commit_ref = sd_commit_ref sub_dag));
                                Ok (delete index certified)
           | None => Ok certified
           end) committed_sub_dags certified.

Definition try_commit self (certified_commits : list CertifiedCommit)
    : outcome (Core P S * ConsensusResult (list CommittedSubDag)) :=
  let certified_commits_map : gmap N CommitRef :=
    foldl (fun m c => <[commit_index (cc_commit c) := commit_reference (cc_commit c)]> m) ∅ certified_commits in
  core_try (commit_loop (commit_fuel self certified_commits) self certified_commits [])
    (fun self committed_sub_dags =>
       _ ← check_certified certified_commits_map committed_sub_dags;
       let committed_block_refs :=
         reference <$> List.filter (fun block => author block =? own_index (co_context self))
                         (committed_sub_dags ≫= sd_blocks) in
       let self := set_proposer self
                     ((fun p => notify_own_blocks_committed p committed_block_refs (gc_round (co_dag self)))
                        <$> co_proposer self) in
       Ok (self, Success committed_sub_dags)).

(* ------------------------------------------------------------------ *)
(** ** Proposals and signals *)

Definition try_propose self (force : bool) : outcome (Core P S * ConsensusResult (option VerifiedBlock)) :=
  match co_proposer self with
  | None => Ok (self, Success None)
  | Some proposer =>
      proposed ← try_new_block proposer (co_dag self) (co_votes self) (co_leader_schedule self) force;
      let '(proposer, dag, votes, new_block) := proposed in
      let self := set_proposed self proposer dag votes in
      match new_block with
      | None => Ok (self, Success None)
      | Some extended_block =>
          match signal_new_block (co_context self) (co_signals self) extended_block with
          | Err e => Ok (self, Err e)
          | Success signals =>
              let self := set_signals self (signal_new_accepted_block signals (eb_block extended_block)) in
              core_try (try_commit self []) (fun self _ => Ok (self, Success (Some (eb_block extended_block))))
          end
      end
  end.

Definition try_signal_new_round self : Core P S :=
  let new_clock_round := tc_round (ds_threshold_clock (co_dag self)) in
  if new_clock_round <=? co_last_signaled_round self then self
  else set_signaled_round (set_signals self (signal_new_round (co_signals self) new_clock_round)) new_clock_round.

Definition new_block self (round : N) (force : bool) : outcome (Core P S * ConsensusResult (option VerifiedBlock)) :=
  match co_proposer self with
  | None => Ok (self, Success None)
  | Some proposer =>
      last_round ← last_proposed_round proposer (co_dag self);
      if last_round <? round then
        res ← try_propose self force;
        Ok (try_signal_new_round res.1, res.2)
      else Ok (self, Success None)
  end.

(** What follows new blocks: commit, propose, signal. *)
Definition after_blocks {A} self (certified_commits : list CertifiedCommit) (a : A)
    : outcome (Core P S * ConsensusResult A) :=
  core_try (try_commit self certified_commits) (fun self _ =>
  core_try (try_propose self false) (fun self _ =>
  Ok (try_signal_new_round self, Success a))).

Definition add_blocks self (blocks : list VerifiedBlock) : outcome (Core P S * ConsensusResult (gset BlockRef)) :=
  accepted ← core_accept_blocks self blocks;
  let '(self, accepted_blocks, missing_block_refs) := accepted in
  if is_empty accepted_blocks then Ok (self, Success missing_block_refs)
  else after_blocks self [] missing_block_refs.

Definition filter_new_commits self (commits : list CertifiedCommit) : ConsensusResult (list CertifiedCommit) :=
  let last_commit_index := last_commit_index (co_dag self) in
  let commits := List.filter (fun commit => last_commit_index <? commit_index (cc_commit commit)) commits in
  match commits with
  | commit :: _ =>
      if commit_index (cc_commit commit) =? u32_add last_commit_index 1 then Success commits
      else Err (UnexpectedCertifiedCommitIndex (u32_add last_commit_index 1) (commit_index (cc_commit commit)))
  | [] => Success commits
  end.

Definition add_certified_commits self (certified_commits : CertifiedCommits)
    : outcome (Core P S * ConsensusResult (gset BlockRef)) :=
  match filter_new_commits self (ccs_commits certified_commits) with
  | Err _ => Panic
  | Success commits =>
      accepted ← core_accept_blocks self (ccs_votes certified_commits);
      let '(self, _, missing_block_refs) := accepted in
      after_blocks self commits missing_block_refs
  end.

Definition core_set_propagation_delay self (delay : N) : Core P S :=
  set_proposer self ((fun p => set_propagation_delay p delay) <$> co_proposer self).

Definition core_set_last_known_proposed_round self (round : N) : outcome (Core P S) :=
  match co_proposer self with
  | Some proposer =>
      match get_last_known_proposed_round proposer with
      | Some _ => Panic
      | None => Ok (set_proposer self (Some (set_last_known_proposed_round proposer round)))
      end
  | None => Ok self
  end.

Definition core_should_propose self : bool :=
  match co_proposer self with Some p => should_propose p (co_dag self) | None => false end.

Definition core_last_proposed_round self : outcome (option N) :=
  match co_proposer self with Some p => Some <$> last_proposed_round p (co_dag self) | None => Ok None end.

(* ------------------------------------------------------------------ *)
(** ** Construction and recovery *)

(** [unwrap] of a result. *)
Definition unwrap_result {A} (m : outcome (Core P S * ConsensusResult A)) : outcome (Core P S * A) :=
  r ← m; match r.2 with Success a => Ok (r.1, a) | Err _ => Panic end.

Definition recover_observer self : outcome (Core P S) :=
  res ← unwrap_result (try_commit self []);
  Ok (try_signal_new_round res.1).

Definition recover_validator self : outcome (Core P S) :=
  res ← unwrap_result (try_commit self []);
  res ← unwrap_result (try_propose res.1 true);
  let '(self, proposed) := res in
  self ← match proposed with
         | Some _ => Ok self
         | None =>
             proposer ← unwrap (co_proposer self);
             last_block ← last_proposed_block proposer (co_dag self);
             _ ← (if should_propose proposer (co_dag self)
                  then assert_that (GENESIS_ROUND <? round last_block) else Ok tt);
             match signal_new_block (co_context self) (co_signals self) (mkExtendedBlock last_block []) with
             | Success signals => Ok (set_signals self signals)
             | Err _ => Panic
             end
         end;
  Ok (try_signal_new_round self).

Definition new_observer (context : Context) (schedule : LeaderSchedule) (bm : BlockManager)
    (handle : CommitFinalizerHandle) (signals : CoreSignals) (dag : DagState S) (votes : VoteTrackerState)
    : outcome (Core P S) :=
  last_decided_leader ← last_commit_leader dag;
  recover_observer
    (mkCore context bm (tc_round (ds_threshold_clock dag)) last_decided_leader schedule handle signals dag None votes).

(** The ancestors of the last own block are collected, with an index into a
    vector for each authority, but the proposer is built without them. *)
Definition new_validator (context : Context) (schedule : LeaderSchedule) (bm : BlockManager)
    (handle : CommitFinalizerHandle) (signals : CoreSignals) (dag : DagState S) (votes : VoteTrackerState)
    (proposer : P) : outcome (Core P S) :=
  last_decided_leader ← last_commit_leader dag;
  last_proposed ← get_last_proposed_block dag;
  last_proposed_block ← unwrap last_proposed;
  _ ← foldM (fun included ancestor => vec_store included (br_author ancestor) (Some ancestor))
        (ancestors last_proposed_block) (replicate (N.to_nat (committee_size (committee context))) None);
  let self := mkCore context bm (round last_proposed_block) last_decided_leader schedule handle signals dag
                (Some proposer) votes in
  recover_validator (set_proposer self (Some (proposer_set_scores proposer (current_reputation_scores self)))).
End core.
