(* ===== verification/CoreThread.v ===== *)
(** * The core thread

    Models core_thread.rs: the thread that owns the core takes commands from a
    channel, and the two values that others publish, one at a time; the
    dispatcher hands in a command and waits for the answer.  An error of the
    core ends the thread, and one that is not a shutdown ends the process. *)

From S2P Require Import Prelude Committee Context Block StakeAggregator ThresholdClock Commit Error Store LeaderScoring DagState VoteTracker Linearizer CommitObserver BlockManager LeaderSchedule BaseCommitter UniversalCommitter Core.

Definition CORE_THREAD_COMMANDS_CHANNEL_SIZE : N := 2000.

Inductive CoreThreadCommand :=
  | CommandAddBlocks (blocks : list VerifiedBlock)
  | CommandCheckBlockRefs (block_refs : list BlockRef)
  | CommandAddCertifiedCommits (commits : CertifiedCommits)
  | CommandNewBlock (round : N) (force : bool)
  | CommandGetMissing.

(** What wakes the thread up: a command, or a new value on one of the two
    watch channels, which keep the last value only. *)
Inductive CoreThreadInput :=
  | Command (command : CoreThreadCommand)
  | LastKnownProposedRoundChanged (round : N)
  | PropagationDelayChanged (propagation_delay : N).

(** The answer on the channel of the command; nothing for a new block. *)
Definition CoreThreadReply : Type := gset BlockRef.

Record CoreThread (P S : Type) := mkCoreThread {
  ct_core : Core P S;
  ct_running : bool;
}.
Arguments mkCoreThread {P S} _ _.
Arguments ct_core {P S} _.
Arguments ct_running {P S} _.

Section core_thread.
Context `{Rng} {P S : Type} `{Store S} `{!Proposer P S}.
Context (bcs_commit : Commit -> list byte) (default_hash : list byte -> N).

(** One turn of the loop of [run]. *)
Definition core_thread_turn (core : Core P S) (input : CoreThreadInput)
    : outcome (Core P S * ConsensusResult CoreThreadReply) :=
  match input with
  | Command (CommandAddBlocks blocks) => add_blocks bcs_commit default_hash core blocks
  | Command (CommandCheckBlockRefs block_refs) =>
      checked ← check_block_refs core block_refs; Ok (checked.1, Success checked.2)
  | Command (CommandAddCertifiedCommits commits) => add_certified_commits bcs_commit default_hash core commits
  | Command (CommandNewBlock round force) =>
      core_try (new_block bcs_commit default_hash core round force) (fun core _ => Ok (core, Success ∅))
  | Command CommandGetMissing => Ok (core, Success (get_missing_blocks core))
  | LastKnownProposedRoundChanged round =>
      core ← core_set_last_known_proposed_round core round;
      core_try (new_block bcs_commit default_hash core u32_MAX true) (fun core _ => Ok (core, Success ∅))
  | PropagationDelayChanged propagation_delay =>
      let should_propose_before := core_should_propose core in
      let core := core_set_propagation_delay core propagation_delay in
      if negb should_propose_before && core_should_propose core
      then core_try (new_block bcs_commit default_hash core u32_MAX true) (fun core _ => Ok (core, Success ∅))
      else Ok (core, Success ∅)
  end.

(** The thread ends with the first error. *)
Definition core_thread_step (self : CoreThread P S) (input : CoreThreadInput)
    : outcome (CoreThread P S * ConsensusResult CoreThreadReply) :=
  if ct_running self then
    turn ← core_thread_turn (ct_core self) input;
    match turn.2 with
    | Success reply => Ok (mkCoreThread turn.1 true, Success reply)
    | Err Shutdown => Ok (mkCoreThread turn.1 false, Err Shutdown)
    | Err _ => Panic
    end
  else Ok (self, Err Shutdown).

(** The dispatcher: an answer that never comes is a shutdown. *)
Definition dispatch (self : CoreThread P S) (command : CoreThreadCommand)
    : outcome (CoreThread P S * ConsensusResult CoreThreadReply) :=
  core_thread_step self (Command command).
End core_thread.
