(* ===== verification/ValidatorProposer.v ===== *)
(** * The proposer of a validator

    Models proposer.rs: when a validator makes a block, which blocks it takes
    as ancestors, and what the block carries: transactions of clients, votes on
    commits and votes on transactions.  What the code shares behind locks is
    handed in: the DAG state, the votes on transactions and the leader
    schedule.  The round tracker and the transaction consumer, which other
    components also reach, are fields.  Serialisation and signing belong to
    other crates; metrics are left out, but not the reads that may panic. *)

From S2P Require Import Prelude Committee Context Block StakeAggregator ThresholdClock Commit Error RoundTracker Store LeaderScoring Ancestor TransactionConsumer DagState VoteTracker LeaderSchedule BlockVerifier BaseCommitter UniversalCommitter Core.

Definition MAX_COMMIT_VOTES_PER_BLOCK : N := 100.

(* ------------------------------------------------------------------ *)
(** ** The leaders to wait for *)

(** What the leader schedule of version 3 tells about the next commit. *)
Record NextCommitLeaderSchedule := mkNextCommitLeaderSchedule {
  next_commit_index : N;
  min_next_leader_round : N;
  allowed_leaders : list N;
}.

(** The committer reads the leader schedule that it shares with the core. *)
Inductive ProposalLeaderWaiter :=
  | WaiterV2 (committer : LeaderSchedule -> UniversalCommitter)
  | WaiterV3 (schedule : NextCommitLeaderSchedule).

Definition leader_slots_to_wait_for `{Rng} (self : ProposalLeaderWaiter) (leader_schedule : LeaderSchedule) (round : N)
    : outcome (list Slot) :=
  match self with
  | WaiterV2 committer =>
      leaders ← get_leaders (committer leader_schedule) round;
      Ok (mkSlot round <$> (leaders : list N))
  | WaiterV3 schedule =>
      if round <? min_next_leader_round schedule then Ok []
      else Ok (mkSlot round <$> allowed_leaders schedule)
  end.

Definition update_v3_schedule (self : ProposalLeaderWaiter) (schedule : NextCommitLeaderSchedule)
    : ProposalLeaderWaiter :=
  match self with
  | WaiterV3 _ => WaiterV3 schedule
  | WaiterV2 _ => self
  end.

(* ------------------------------------------------------------------ *)
(** ** The state *)

Section proposer.
Context `{Rng} {CR : Crypto} {S : Type} `{Store S}.
Context (bcs_to_bytes : SignedBlock -> list byte) (default_hash : list byte -> N).

Record ValidatorProposer := mkValidatorProposer {
  vp_context : Context;
  vp_clock : Clock;
  vp_transaction_consumer : TransactionConsumer;
  vp_propagation_delay : N;
  vp_last_included_ancestors : list (option BlockRef);
  vp_block_signer : key_pair;
  vp_last_known_proposed_round : option N;
  vp_ancestor_state_manager : AncestorStateManager;
  vp_round_tracker : RoundTracker;
  vp_leader_waiter : ProposalLeaderWaiter;
}.
Implicit Types (self : ValidatorProposer) (s : DagState S).

Definition validator_proposer_new (context : Context) (clock : Clock) (consumer : TransactionConsumer)
    (block_signer : key_pair) (last_known_proposed_round : option N) (manager : AncestorStateManager)
    (round_tracker : RoundTracker) (leader_waiter : ProposalLeaderWaiter) : ValidatorProposer :=
  {| vp_context := context;
     vp_clock := clock;
     vp_transaction_consumer := consumer;
     vp_propagation_delay := 0;
     vp_last_included_ancestors := replicate (N.to_nat (committee_size (committee context))) None;
     vp_block_signer := block_signer;
     vp_last_known_proposed_round := last_known_proposed_round;
     vp_ancestor_state_manager := manager;
     vp_round_tracker := round_tracker;
     vp_leader_waiter := leader_waiter |}.

Definition set_clock self (clock : Clock) : ValidatorProposer :=
  mkValidatorProposer (vp_context self) clock (vp_transaction_consumer self) (vp_propagation_delay self)
    (vp_last_included_ancestors self) (vp_block_signer self) (vp_last_known_proposed_round self)
    (vp_ancestor_state_manager self) (vp_round_tracker self) (vp_leader_waiter self).

Definition set_consumer self (consumer : TransactionConsumer) : ValidatorProposer :=
  mkValidatorProposer (vp_context self) (vp_clock self) consumer (vp_propagation_delay self)
    (vp_last_included_ancestors self) (vp_block_signer self) (vp_last_known_proposed_round self)
    (vp_ancestor_state_manager self) (vp_round_tracker self) (vp_leader_waiter self).

Definition set_delay self (delay : N) : ValidatorProposer :=
  mkValidatorProposer (vp_context self) (vp_clock self) (vp_transaction_consumer self) delay
    (vp_last_included_ancestors self) (vp_block_signer self) (vp_last_known_proposed_round self)
    (vp_ancestor_state_manager self) (vp_round_tracker self) (vp_leader_waiter self).

Definition set_last_included self (refs : list (option BlockRef)) : ValidatorProposer :=
  mkValidatorProposer (vp_context self) (vp_clock self) (vp_transaction_consumer self) (vp_propagation_delay self)
    refs (vp_block_signer self) (vp_last_known_proposed_round self)
    (vp_ancestor_state_manager self) (vp_round_tracker self) (vp_leader_waiter self).

Definition set_last_known self (round : option N) : ValidatorProposer :=
  mkValidatorProposer (vp_context self) (vp_clock self) (vp_transaction_consumer self) (vp_propagation_delay self)
    (vp_last_included_ancestors self) (vp_block_signer self) round
    (vp_ancestor_state_manager self) (vp_round_tracker self) (vp_leader_waiter self).

Definition set_manager self (manager : AncestorStateManager) : ValidatorProposer :=
  mkValidatorProposer (vp_context self) (vp_clock self) (vp_transaction_consumer self) (vp_propagation_delay self)
    (vp_last_included_ancestors self) (vp_block_signer self) (vp_last_known_proposed_round self)
    manager (vp_round_tracker self) (vp_leader_waiter self).

Definition set_round_tracker self (tracker : RoundTracker) : ValidatorProposer :=
  mkValidatorProposer (vp_context self) (vp_clock self) (vp_transaction_consumer self) (vp_propagation_delay self)
    (vp_last_included_ancestors self) (vp_block_signer self) (vp_last_known_proposed_round self)
    (vp_ancestor_state_manager self) tracker (vp_leader_waiter self).

Definition set_waiter self (waiter : ProposalLeaderWaiter) : ValidatorProposer :=
  mkValidatorProposer (vp_context self) (vp_clock self) (vp_transaction_consumer self) (vp_propagation_delay self)
    (vp_last_included_ancestors self) (vp_block_signer self) (vp_last_known_proposed_round self)
    (vp_ancestor_state_manager self) (vp_round_tracker self) waiter.

(** [get_last_proposed_block().expect(..)] *)
Definition validator_last_proposed_block s : outcome VerifiedBlock :=
  block ← get_last_proposed_block s;
  unwrap block.

Definition last_proposed_timestamp_ms s : outcome N := timestamp_ms <$> validator_last_proposed_block s.

(* ------------------------------------------------------------------ *)
(** ** The choice of ancestors *)

(** The variables of [smart_ancestors_to_propose]: the ancestors to propose,
    the ones kept out, with scores, and the references that go along with the
    block without being its ancestors. *)
Record Selection := mkSelection {
  sl_ancestors : list VerifiedBlock;
  sl_pending : list (N * VerifiedBlock);
  sl_excluded : gset BlockRef;
}.

(** The closure over the last blocks of all authorities. *)
Definition select_ancestor self (states : list AncestorState) (acc : Selection)
    (candidate : VerifiedBlock * list BlockRef) : outcome Selection :=
  let '(ancestor, equivocating_ancestors) := candidate in
  if author ancestor =? own_index (vp_context self) then Ok acc
  else
    last_included ← vec_index (vp_last_included_ancestors self) (author ancestor);
    if (match last_included with Some last_block_ref => round ancestor <=? br_round last_block_ref | None => false end)
    then Ok acc
    else
      let excluded := sl_excluded acc ∪ list_to_set equivocating_ancestors in
      ancestor_state ← vec_index states (author ancestor);
      Ok match ancestor_state with
         | Include => mkSelection (sl_ancestors acc ++ [ancestor]) (sl_pending acc) excluded
         | Exclude score => mkSelection (sl_ancestors acc) (sl_pending acc ++ [(score, ancestor)]) excluded
         end.

(** The stake of the parents among the chosen ancestors. *)
Definition count_parents (c : Committee) (quorum_round : N) (ancestors : list VerifiedBlock)
    : outcome (StakeAggregator QuorumThreshold) :=
  foldM (fun agg ancestor => fst <$> stake_aggregator_add agg (author ancestor) c)
    (List.filter (fun a => round a =? quorum_round) ancestors) stake_aggregator_new.

(** First pass over the pending ancestors: parents, until there is a quorum. *)
Definition include_parent (c : Committee) (quorum_round : N)
    (acc : StakeAggregator QuorumThreshold * list VerifiedBlock * list (N * VerifiedBlock))
    (pending : N * VerifiedBlock)
    : outcome (StakeAggregator QuorumThreshold * list VerifiedBlock * list (N * VerifiedBlock)) :=
  let '(parent_round_quorum, ancestors_to_propose, excluded_ancestors) := acc in
  let '(score, ancestor) := pending in
  _ ← committee_authority c (author ancestor);
  if negb (reached_threshold parent_round_quorum c) && (round ancestor =? quorum_round) then
    added ← stake_aggregator_add parent_round_quorum (author ancestor) c;
    Ok (added.1, ancestors_to_propose ++ [ancestor], excluded_ancestors)
  else Ok (parent_round_quorum, ancestors_to_propose, excluded_ancestors ++ [(score, ancestor)]).

(** Second pass: the block, or an earlier one of its author, that a quorum has
    accepted. *)
Definition include_accepted s (c : Committee) (quorum_round : N) (accepted_quorum_rounds : list QuorumRound)
    (acc : list (option BlockRef) * list VerifiedBlock * gset BlockRef) (pending : N * VerifiedBlock)
    : outcome (list (option BlockRef) * list VerifiedBlock * gset BlockRef) :=
  let '(last_included_ancestors, ancestors_to_propose, excluded) := acc in
  let ancestor := pending.2 in
  let excluded_author := author ancestor in
  _ ← committee_authority c excluded_author;
  accepted ← vec_index accepted_quorum_rounds excluded_author;
  let accepted_low_quorum_round := N.min accepted.1 quorum_round in
  last_included ← vec_index last_included_ancestors excluded_author;
  let last_included_round := match last_included with Some block_ref => br_round block_ref | None => GENESIS_ROUND end in
  if round ancestor <=? last_included_round then Ok acc
  else if accepted_low_quorum_round <=? last_included_round then
    Ok (last_included_ancestors, ancestors_to_propose, {[reference ancestor]} ∪ excluded)
  else
    chosen ← (if round ancestor <=? accepted_low_quorum_round then Ok (Some ancestor, excluded)
              else
                earlier ← get_last_cached_block_in_range s excluded_author (u32_add last_included_round 1)
                            (u32_add accepted_low_quorum_round 1);
                Ok (earlier, {[reference ancestor]} ∪ excluded));
    let '(chosen, excluded) := chosen in
    match chosen with
    | None => Ok (last_included_ancestors, ancestors_to_propose, excluded)
    | Some ancestor =>
        last_included_ancestors ← vec_store last_included_ancestors excluded_author (Some (reference ancestor));
        Ok (last_included_ancestors, ancestors_to_propose ++ [ancestor], excluded)
    end.

Definition smart_ancestors_to_propose self s (clock_round : N) (smart_select : bool)
    : outcome (ValidatorProposer * list VerifiedBlock * gset BlockRef) :=
  let c := committee (vp_context self) in
  all_ancestors ← get_last_cached_block_per_authority s clock_round;
  _ ← assert_that (N.of_nat (length all_ancestors) =? committee_size c);
  accepted_quorum_rounds ← compute_accepted_quorum_rounds (vp_round_tracker self);
  manager ← update_all_ancestors_state (vp_ancestor_state_manager self) (tc_round (ds_threshold_clock s))
              accepted_quorum_rounds;
  let self := set_manager self manager in
  let quorum_round := saturating_sub clock_round 1 in
  own_last ← validator_last_proposed_block s;
  selected ← foldM (select_ancestor self (get_ancestor_states manager)) all_ancestors (mkSelection [own_last] [] ∅);
  parent_round_quorum ← count_parents c quorum_round (sl_ancestors selected);
  if smart_select && negb (reached_threshold parent_round_quorum c) then Ok (self, [], ∅)
  else
    passed ← foldM (include_parent c quorum_round)
               (stable_sort (fun a b => b.1 <=? a.1) (sl_pending selected))
               (parent_round_quorum, sl_ancestors selected, []);
    let '(parent_round_quorum, ancestors_to_propose, excluded_ancestors) := passed in
    passed ← foldM (include_accepted s c quorum_round accepted_quorum_rounds) excluded_ancestors
               (vp_last_included_ancestors self, ancestors_to_propose, sl_excluded selected);
    let '(last_included_ancestors, ancestors_to_propose, excluded) := passed in
    _ ← assert_that (reached_threshold parent_round_quorum c);
    Ok (set_last_included self last_included_ancestors, ancestors_to_propose, excluded).

(* ------------------------------------------------------------------ *)
(** ** Making a block *)

Definition validator_should_propose self s : bool :=
  let clock_round := tc_round (ds_threshold_clock s) in
  if propagation_delay_stop_proposal_threshold (parameters (vp_context self)) <? vp_propagation_delay self then false
  else
    match vp_last_known_proposed_round self with
    | None => false
    | Some last_known_proposed_round => negb (clock_round <=? last_known_proposed_round)
    end.

(** Without force: the leaders are there, and the last block is old enough. *)
Definition ready_to_propose self s (leader_slots : list Slot) : outcome (ValidatorProposer * bool) :=
  leaders_exist ← allM (contains_cached_block_at_slot s) leader_slots;
  if negb leaders_exist then Ok (self, false)
  else
    now ← timestamp_utc_ms (vp_clock self);
    last ← last_proposed_timestamp_ms s;
    Ok (set_clock self now.2,
        negb (saturating_sub now.1 last * 1000000 <? min_round_delay (parameters (vp_context self)))).

(** The blocks that the ancestors bring into the history of own blocks. *)
Definition link_ancestors s (ancestors : list VerifiedBlock) : outcome (DagState S * list BlockRef) :=
  foldM (fun acc ancestor =>
           linked ← link_causal_history acc.1 (reference ancestor);
           Ok (linked.1, acc.2 ++ linked.2)) ancestors (s, []).

Definition proposal_block (context : Context) (clock_round now : N) (ancestors : list VerifiedBlock)
    (transactions : list Transaction) (transaction_votes : list BlockTransactionVotes) (commit_votes : list CommitRef)
    : Block :=
  if transaction_voting_enabled (protocol_config context) then
    V2 (mkBlockV2 (c_epoch (committee context)) clock_round (own_index context) now (reference <$> ancestors)
          transactions transaction_votes commit_votes [])
  else
    V1 (mkBlockV1 (c_epoch (committee context)) clock_round (own_index context) now (reference <$> ancestors)
          transactions commit_votes []).

(** From the chosen ancestors to the block, accepted and persisted. *)
Definition make_block self s (votes : VoteTrackerState) (clock_round : N) (leader_slots : list Slot)
    (ancestors : list VerifiedBlock) (excluded : gset BlockRef)
    : outcome (ValidatorProposer * DagState S * VoteTrackerState * option ExtendedBlock) :=
  let context := vp_context self in
  let voting := transaction_voting_enabled (protocol_config context) in
  let excluded_ancestors := take (N.to_nat (committee_size (committee context) * 2)) (btree_iter excluded) in
  last_included ← foldM (fun refs ancestor => vec_store refs (author ancestor) (Some (reference ancestor))) ancestors
                    (vp_last_included_ancestors self);
  _ ← (if enable_v3 (protocol_config context) then Ok tt
       else leader_slot ← unwrap (head leader_slots);
            _ ← committee_authority (committee context) (s_authority leader_slot); Ok tt);
  _ ← mapM (fun ancestor => committee_authority (committee context) (author ancestor)) ancestors;
  now ← timestamp_utc_ms (vp_clock self);
  let '(consumer, transactions, acks, _) := consumer_next (vp_transaction_consumer self) in
  let '(s, commit_votes) := take_commit_votes s MAX_COMMIT_VOTES_PER_BLOCK in
  voted ← (if voting : bool then
             linked ← link_ancestors s ancestors;
             own_votes ← get_own_votes votes linked.2;
             Ok (linked.1, own_votes)
           else Ok (s, []));
  let '(s, transaction_votes) := voted in
  let block := proposal_block context clock_round now.1 ancestors transactions transaction_votes commit_votes in
  signed ← signed_block_new block (vp_block_signer self);
  signed_block ← match signed with Success signed_block => Ok signed_block | Err _ => Panic end;
  let verified_block := verified_block_new_verified default_hash signed_block (bcs_to_bytes signed_block) in
  _ ← validator_last_proposed_block s;
  s ← accept_block s verified_block;
  proposed ← (if voting : bool then
                votes ← add_voted_blocks votes [(verified_block, [])];
                linked ← link_causal_history s (reference verified_block);
                Ok (votes, linked.1)
              else Ok (votes, s));
  let '(votes, s) := proposed in
  s ← flush s;
  let consumer := ack_transactions consumer acks (reference verified_block) in
  let extended_block := mkExtendedBlock verified_block excluded_ancestors in
  tracker ← update_from_verified_block (vp_round_tracker self) extended_block;
  let self := set_round_tracker (set_consumer (set_clock (set_last_included self last_included) now.2) consumer) tracker in
  Ok (self, s, votes, Some extended_block).

Definition validator_try_new_block self s (votes : VoteTrackerState) (leader_schedule : LeaderSchedule) (force : bool)
    : outcome (ValidatorProposer * DagState S * VoteTrackerState * option ExtendedBlock) :=
  if negb (validator_should_propose self s) then Ok (self, s, votes, None)
  else
    let clock_round := tc_round (ds_threshold_clock s) in
    own_last ← validator_last_proposed_block s;
    if clock_round <=? round own_last then Ok (self, s, votes, None)
    else
      leader_slots ← leader_slots_to_wait_for (vp_leader_waiter self) leader_schedule (saturating_sub clock_round 1);
      ready ← (if force then Ok (self, true) else ready_to_propose self s leader_slots);
      let '(self, ready) := ready in
      if negb ready then Ok (self, s, votes, None)
      else
        selected ← smart_ancestors_to_propose self s clock_round (negb force);
        let '(self, ancestors, excluded) := selected in
        if is_empty ancestors then
          _ ← assert_that (negb force); Ok (self, s, votes, None)
        else make_block self s votes clock_round leader_slots ancestors excluded.

(* ------------------------------------------------------------------ *)
(** ** The trait *)

Definition validator_set_scores self (scores : ReputationScores) : ValidatorProposer :=
  set_manager self (set_propagation_scores (vp_ancestor_state_manager self) scores).

Definition validator_set_next_commit_leader_schedule self (schedule : NextCommitLeaderSchedule) : ValidatorProposer :=
  set_waiter self (update_v3_schedule (vp_leader_waiter self) schedule).

Definition validator_notify self (block_refs : list BlockRef) (gc_round : N) : ValidatorProposer :=
  set_consumer self (notify_own_blocks_status (vp_transaction_consumer self) block_refs gc_round).

(** [impl Proposer for ValidatorProposer] *)
Definition validator_proposer_impl : Proposer ValidatorProposer S := {|
  try_new_block := validator_try_new_block;
  should_propose := validator_should_propose;
  set_propagation_delay := set_delay;
  set_last_known_proposed_round self round := set_last_known self (Some round);
  get_last_known_proposed_round := vp_last_known_proposed_round;
  last_proposed_round self s := round <$> validator_last_proposed_block s;
  last_proposed_block self s := validator_last_proposed_block s;
  proposer_set_scores := validator_set_scores;
  notify_own_blocks_committed := validator_notify;
|}.
End proposer.
