(* ===== verification/AuthorityService.v ===== *)
(** * The network service of a validator

    Models authority_service.rs: the state that the services of a validator
    share, and the handlers of requests from peers.  A handler runs as a whole
    here; the requests that it leaves to the synchronizer are recorded.  The
    requests that it delegates are in BlockSync.v, and the streams to
    subscribers are left out but for the past blocks they start with. *)

From stdpp Require Import pretty.
From S2P Require Import Prelude Committee Context Block StakeAggregator ThresholdClock Commit CommitVoteMonitor Error RoundTracker Store LeaderScoring Ancestor TransactionConsumer DagState VoteTracker Linearizer CommitObserver BlockManager LeaderSchedule BlockVerifier BaseCommitter UniversalCommitter Core CoreThread ValidatorProposer.

Record ExtendedSerializedBlock := mkExtendedSerializedBlock {
  es_block : list byte;
  es_excluded_ancestors : list (list byte);
}.

(** The state behind the locks that the services of a validator share.  Its
    proposer holds the round tracker and the clock that it shares with them. *)
Record ValidatorNode `{Crypto} (S : Type) := mkValidatorNode {
  vn_thread : CoreThread ValidatorProposer S;
  vn_monitor : CommitVoteMonitor;
  vn_verifier : SignedBlockVerifier;
  vn_fetches : list (gset BlockRef * PeerId);
}.
Arguments mkValidatorNode {_ S} _ _ _ _.
Arguments vn_thread {_ S} _.
Arguments vn_monitor {_ S} _.
Arguments vn_verifier {_ S} _.
Arguments vn_fetches {_ S} _.

Section service.
Context `{Rng} `{Crypto} `{TransactionVerifier} {S : Type} `{Store S}.
Context (bcs_to_bytes : SignedBlock -> list byte) (bcs_commit : Commit -> list byte) (default_hash : list byte -> N).
(** [bcs::from_bytes], and [bcs::to_bytes] of a reference. *)
Context (block_from_bytes : list byte -> option SignedBlock) (ref_from_bytes : list byte -> option BlockRef).
Context (ref_to_bytes : BlockRef -> option (list byte)).
#[local] Instance service_proposer : Proposer ValidatorProposer S := validator_proposer_impl bcs_to_bytes default_hash.
Implicit Types self : ValidatorNode S.

(** [From<ExtendedBlock>] *)
Definition extended_serialized_block (extended_block : ExtendedBlock) : ExtendedSerializedBlock :=
  mkExtendedSerializedBlock (vb_serialized (eb_block extended_block)) (omap ref_to_bytes (excluded_ancestors extended_block)).

(* ------------------------------------------------------------------ *)
(** ** The shared state *)

Definition vn_core self : Core ValidatorProposer S := ct_core (vn_thread self).

Definition set_thread self (thread : CoreThread ValidatorProposer S) : ValidatorNode S :=
  mkValidatorNode thread (vn_monitor self) (vn_verifier self) (vn_fetches self).

Definition set_core self (core : Core ValidatorProposer S) : ValidatorNode S :=
  set_thread self (mkCoreThread core (ct_running (vn_thread self))).

Definition set_monitor self (monitor : CommitVoteMonitor) : ValidatorNode S :=
  mkValidatorNode (vn_thread self) monitor (vn_verifier self) (vn_fetches self).

Definition node_add_voted_blocks self (voted_blocks : list (VerifiedBlock * list N)) : outcome (ValidatorNode S) :=
  votes ← add_voted_blocks (co_votes (vn_core self)) voted_blocks;
  Ok (set_core self (set_votes (vn_core self) votes)).

Definition update_proposer self (f : ValidatorProposer -> outcome ValidatorProposer) : outcome (ValidatorNode S) :=
  proposer ← unwrap (co_proposer (vn_core self));
  proposer ← f proposer;
  Ok (set_core self (set_proposer (vn_core self) (Some proposer))).

(** [context.clock.timestamp_utc_ms()] *)
Definition node_timestamp_utc_ms self : outcome (ValidatorNode S * N) :=
  proposer ← unwrap (co_proposer (vn_core self));
  now ← timestamp_utc_ms (vp_clock proposer);
  Ok (set_core self (set_proposer (vn_core self) (Some (set_clock proposer now.2))), now.1).

Definition node_track_block self (block : ExtendedBlock) : outcome (ValidatorNode S) :=
  update_proposer self (fun p => tracker ← update_from_verified_block (vp_round_tracker p) block;
                                 Ok (set_round_tracker p tracker)).

Definition node_dispatch self (command : CoreThreadCommand) : outcome (ValidatorNode S * ConsensusResult CoreThreadReply) :=
  dispatched ← dispatch bcs_commit default_hash (vn_thread self) command;
  Ok (set_thread self dispatched.1, dispatched.2).

(** The task that hands the missing blocks to the synchronizer. *)
Definition spawn_fetch self (missing : gset BlockRef) (peer : PeerId) : ValidatorNode S :=
  if bool_decide (missing = ∅) then self
  else mkValidatorNode (vn_thread self) (vn_monitor self) (vn_verifier self) (vn_fetches self ++ [(missing, peer)]).

(** The [?] operator on a result that comes with the state. *)
Definition node_try {A B} (m : outcome (ValidatorNode S * ConsensusResult A))
    (f : ValidatorNode S -> A -> outcome (ValidatorNode S * ConsensusResult B)) : outcome (ValidatorNode S * ConsensusResult B) :=
  r ← m; let '(self, res) := r in match res with Success a => f self a | Err e => Ok (self, Err e) end.

(* ------------------------------------------------------------------ *)
(** ** Blocks from peers *)

Definition parse_excluded_ancestor (context : Context) (block : VerifiedBlock) (serialized : list byte)
    : ConsensusResult BlockRef :=
  match ref_from_bytes serialized with
  | None => Err MalformedBlock
  | Some block_ref =>
      if negb (is_valid_index (committee context) (br_author block_ref)) then
        Err (InvalidAuthorityIndex (br_author block_ref) (committee_size (committee context)))
      else if round block <=? br_round block_ref then
        Err (InvalidAncestorRound (br_round block_ref) (round block))
      else Success block_ref
  end.

(** [collect] into a result stops at the first error. *)
Fixpoint collect_results {A B} (f : A -> ConsensusResult B) (l : list A) : ConsensusResult (list B) :=
  match l with
  | [] => Success []
  | x :: l =>
      match f x with
      | Err e => Err e
      | Success y => match collect_results f l with Success ys => Success (y :: ys) | Err e => Err e end
      end
  end.

Definition parse_excluded_ancestors (context : Context) (peer : N) (block : VerifiedBlock)
    (excluded_ancestors : list (list byte)) : outcome (ConsensusResult (list BlockRef)) :=
  _ ← committee_authority (committee context) peer;
  let excluded_ancestors_limit := u64_mul (committee_size (committee context)) 2 in
  let excluded_ancestors := take (N.to_nat excluded_ancestors_limit) excluded_ancestors in
  match collect_results (parse_excluded_ancestor context block) excluded_ancestors with
  | Err e => Ok (Err e)
  | Success excluded_ancestors =>
      _ ← mapM (fun excluded_ancestor => committee_authority (committee context) (br_author excluded_ancestor))
            excluded_ancestors;
      Ok (Success excluded_ancestors)
  end.

Definition lagging_reason (last_commit_index quorum_commit_index : N) : string :=
  "Last commit index is lagging quorum commit index too much (" +:+ pretty last_commit_index +:+ " < "
  +:+ pretty quorum_commit_index +:+ ")".

(** From the verified block on; the time is read for a metric. *)
Definition process_sent_block self (peer : N) (verified_block : VerifiedBlock) (reject_txn_votes : list N)
    (excluded_ancestors : list BlockRef) : outcome (ValidatorNode S * ConsensusResult unit) :=
  let context := co_context (vn_core self) in
  timed ← node_timestamp_utc_ms self;
  let self := timed.1 in
  monitor ← observe_block (vn_monitor self) verified_block;
  let self := set_monitor self monitor in
  self ← node_track_block self (mkExtendedBlock verified_block excluded_ancestors);
  let last_commit_index := last_commit_index (co_dag (vn_core self)) in
  let quorum_commit_index := quorum_commit_index context (vn_monitor self) in
  if is_commit_lagging context last_commit_index quorum_commit_index then
    Ok (self, Err (BlockRejected (reference verified_block) (lagging_reason last_commit_index quorum_commit_index)))
  else
    self ← (if transaction_voting_enabled (protocol_config context)
            then node_add_voted_blocks self [(verified_block, reject_txn_votes)] else Ok self);
    node_try (node_dispatch self (CommandAddBlocks [verified_block])) (fun self missing_ancestors =>
    let self := spawn_fetch self missing_ancestors (Validator peer) in
    node_try (node_dispatch self (CommandCheckBlockRefs excluded_ancestors)) (fun self missing_excluded_ancestors =>
    Ok (spawn_fetch self missing_excluded_ancestors (Validator peer), Success tt))).

(** The handler awaits the core thread twice; here it runs as a whole, no other
    handler in between. *)
Definition handle_send_block self (peer : N) (serialized_block : ExtendedSerializedBlock)
    : outcome (ValidatorNode S * ConsensusResult unit) :=
  let context := co_context (vn_core self) in
  _ ← committee_authority (committee context) peer;
  match block_from_bytes (es_block serialized_block) with
  | None => Ok (self, Err MalformedBlock)
  | Some signed_block =>
      if negb (peer =? author (inner signed_block)) then
        Ok (self, Err (UnexpectedAuthority (author (inner signed_block)) peer))
      else
        verified ← verify_and_vote default_hash (vn_verifier self) signed_block (es_block serialized_block);
        match verified with
        | Err e => Ok (self, Err e)
        | Success (verified_block, reject_txn_votes) =>
            parsed ← parse_excluded_ancestors context peer verified_block (es_excluded_ancestors serialized_block);
            match parsed with
            | Err e => Ok (self, Err e)
            | Success excluded_ancestors =>
                process_sent_block self peer verified_block reject_txn_votes excluded_ancestors
            end
        end
  end.

(* ------------------------------------------------------------------ *)
(** ** Other requests *)

(** The blocks that a subscription starts with: the cached own blocks after
    the last one received, or the last own block. *)
Definition or_last_proposed (dag : DagState S) (proposed_blocks : list VerifiedBlock) : outcome (list VerifiedBlock) :=
  if is_empty proposed_blocks then
    (fun last_proposed_block : VerifiedBlock =>
       if GENESIS_ROUND <? round last_proposed_block then [last_proposed_block] else [])
      <$> validator_last_proposed_block dag
  else Ok proposed_blocks.

Definition past_proposed_blocks self (last_received : N) : outcome (list ExtendedSerializedBlock) :=
  let dag := co_dag (vn_core self) in
  proposed_blocks ← get_cached_blocks dag (own_index (co_context (vn_core self))) (u32_add last_received 1);
  proposed_blocks ← or_last_proposed dag proposed_blocks;
  Ok ((fun block => mkExtendedSerializedBlock (vb_serialized block) []) <$> (proposed_blocks : list VerifiedBlock)).

Definition handle_get_latest_rounds self : outcome (list N * list N) :=
  proposer ← unwrap (co_proposer (vn_core self));
  let highest_received_rounds := local_highest_received_rounds (vp_round_tracker proposer) in
  blocks ← get_last_cached_block_per_authority (co_dag (vn_core self)) u32_MAX;
  Ok (highest_received_rounds, (fun block : VerifiedBlock * list BlockRef => round block.1) <$> (blocks : list _)).
End service.
