(* ===== verification/Synchronizer.v ===== *)
(** * The synchronizer

    Models synchronizer.rs: which missing blocks are being fetched from which
    peers, what is asked from whom, and what happens to the blocks that come
    back.  Sending requests and waiting for responses are left out; a response
    is an argument.  So are metrics, with the names of peers they look up. *)

From S2P Require Import Prelude Committee Context Block StakeAggregator ThresholdClock Commit CommitVoteMonitor Error RoundTracker Store LeaderScoring Ancestor TransactionConsumer DagState VoteTracker Linearizer CommitObserver BlockManager LeaderSchedule BlockVerifier BaseCommitter UniversalCommitter Core CoreThread ValidatorProposer AuthorityService.

Definition MAX_AUTHORITIES_TO_FETCH_PER_BLOCK : nat := 2.
Definition MAX_PERIODIC_SYNC_PEERS : N := 3.

(** Ten seconds, in nanoseconds. *)
Definition COMMIT_PROGRESS_TIMEOUT : N := 10000000000.

#[global] Instance byte_eq_dec : EqDecision byte.
Proof. intros x y. destruct (Byte.byte_eq_dec x y); [by left|by right]. Defined.
#[global] Instance byte_countable : Countable byte := inj_countable Byte.to_N Byte.of_N Byte.of_to_N.
#[global] Instance PeerId_eq_dec : EqDecision PeerId.
Proof. solve_decision. Defined.
#[global] Instance PeerId_countable : Countable PeerId.
Proof.
  refine (inj_countable' (fun p => match p with Validator a => inl a | Observer k => inr k end)
            (fun s => match s with inl a => Validator a | inr k => Observer k end) _).
  by intros [].
Defined.

(* ------------------------------------------------------------------ *)
(** ** Blocks in flight *)

(** The peers that a block is being fetched from. *)
Definition InflightBlocksMap : Type := gmap BlockRef (gset PeerId).

Definition inflight_blocks_map_new : InflightBlocksMap := ∅.

Record BlocksGuard := mkBlocksGuard {
  bg_block_refs : gset BlockRef;
  bg_peer : PeerId;
}.

Definition lock_block (peer : PeerId) (acc : InflightBlocksMap * gset BlockRef) (block_ref : BlockRef)
    : outcome (InflightBlocksMap * gset BlockRef) :=
  let '(inner, blocks) := acc in
  let peers := default ∅ (inner !! block_ref) in
  if (size peers <? MAX_AUTHORITIES_TO_FETCH_PER_BLOCK)%nat && negb (bool_decide (peer ∈ peers)) then
    _ ← assert_that (negb (bool_decide (peer ∈ peers)));
    Ok (<[block_ref := {[peer]} ∪ peers]> inner, {[block_ref]} ∪ blocks)
  else Ok (<[block_ref := peers]> inner, blocks).

Definition lock_blocks (self : InflightBlocksMap) (missing_block_refs : gset BlockRef) (peer : PeerId)
    : outcome (InflightBlocksMap * option BlocksGuard) :=
  locked ← foldM (lock_block peer) (btree_iter missing_block_refs) (self, ∅);
  let '(inner, blocks) := locked in
  Ok (inner, if bool_decide (blocks = ∅) then None else Some (mkBlocksGuard blocks peer)).

Definition unlock_block (peer : PeerId) (inner : InflightBlocksMap) (block_ref : BlockRef) : outcome InflightBlocksMap :=
  match inner !! block_ref with
  | None => Panic
  | Some peers =>
      _ ← assert_that (bool_decide (peer ∈ peers));
      let peers := peers ∖ {[peer]} in
      Ok (if bool_decide (peers = ∅) then delete block_ref inner else <[block_ref := peers]> inner)
  end.

(** Dropping a guard. *)
Definition unlock_blocks (self : InflightBlocksMap) (guard : BlocksGuard) : outcome InflightBlocksMap :=
  foldM (unlock_block (bg_peer guard)) (btree_iter (bg_block_refs guard)) self.

Definition swap_locks (self : InflightBlocksMap) (blocks_guard : BlocksGuard) (peer : PeerId)
    : outcome (InflightBlocksMap * option BlocksGuard) :=
  self ← unlock_blocks self blocks_guard;
  lock_blocks self (bg_block_refs blocks_guard) peer.

(* ------------------------------------------------------------------ *)
(** ** The synchronizer *)

Inductive SynchronizerCommand :=
  | FetchBlocks (missing_block_refs : gset BlockRef) (peer : PeerId)
  | FetchOwnLastBlock
  | KickOffScheduler.

(** The queues to the tasks that fetch from one peer each, and the queue of
    commands, as the guards and commands that wait there. *)
Record Synchronizer := mkSynchronizer {
  sy_commands : list SynchronizerCommand;
  sy_fetch_blocks : gmap PeerId (list BlocksGuard);
  sy_inflight_blocks_map : InflightBlocksMap;
  sy_last_changed_commit_index : N;
  sy_last_commit_change_time : N;
  sy_commit_sync_failover : bool;
}.

Definition SYNCHRONIZER_COMMANDS : nat := 1000.
Definition FETCH_BLOCKS_CONCURRENCY : nat := 5.

Definition synchronizer_start (known_peers : list PeerId) (sync_last_known_own_block : bool) (now : N) : Synchronizer :=
  mkSynchronizer (if sync_last_known_own_block then [FetchOwnLastBlock] else [])
    (list_to_map ((fun peer => (peer, [])) <$> known_peers)) inflight_blocks_map_new 0 now false.

Definition set_inflight (self : Synchronizer) (inner : InflightBlocksMap) : Synchronizer :=
  mkSynchronizer (sy_commands self) (sy_fetch_blocks self) inner (sy_last_changed_commit_index self)
    (sy_last_commit_change_time self) (sy_commit_sync_failover self).

(** [commands_sender.try_send(..)], whose failure is logged. *)
Definition try_send_command (self : Synchronizer) (command : SynchronizerCommand) : Synchronizer :=
  if (length (sy_commands self) <? SYNCHRONIZER_COMMANDS)%nat then
    mkSynchronizer (sy_commands self ++ [command]) (sy_fetch_blocks self) (sy_inflight_blocks_map self)
      (sy_last_changed_commit_index self) (sy_last_commit_change_time self) (sy_commit_sync_failover self)
  else self.

(** The command [FetchBlocks]; [debug_peer] and [display_peer] are the formats
    [{:?}] and [{}] of a peer, [closed] tells whether the task of the peer has
    dropped its end of the queue. *)
Definition fetch_blocks_command (context : Context) (known : PeerId -> bool) (debug_peer display_peer : PeerId -> string)
    (self : Synchronizer) (missing_block_refs : gset BlockRef) (peer : PeerId) (closed : bool)
    : outcome (Synchronizer * ConsensusResult unit) :=
  if negb (known peer) then Ok (self, Err (PeerUnavailable (debug_peer peer)))
  else
    let missing_block_refs : gset BlockRef :=
      list_to_set (take (N.to_nat (max_blocks_per_sync (parameters context))) (btree_iter missing_block_refs)) in
    locked ← lock_blocks (sy_inflight_blocks_map self) missing_block_refs peer;
    let '(inner, blocks_guard) := locked in
    let self := set_inflight self inner in
    match blocks_guard with
    | None => Ok (self, Success tt)
    | Some blocks_guard =>
        match sy_fetch_blocks self !! peer with
        | None =>
            inner ← unlock_blocks (sy_inflight_blocks_map self) blocks_guard;
            Ok (set_inflight self inner, Err (PeerNotFound ("Peer " +:+ display_peer peer +:+ " not found in fetch_block_senders")))
        | Some waiting =>
            if closed then
              inner ← unlock_blocks (sy_inflight_blocks_map self) blocks_guard;
              Ok (set_inflight self inner, Err Shutdown)
            else if (length waiting <? FETCH_BLOCKS_CONCURRENCY)%nat then
              Ok (mkSynchronizer (sy_commands self) (<[peer := waiting ++ [blocks_guard]]> (sy_fetch_blocks self))
                    (sy_inflight_blocks_map self) (sy_last_changed_commit_index self)
                    (sy_last_commit_change_time self) (sy_commit_sync_failover self), Success tt)
            else
              inner ← unlock_blocks (sy_inflight_blocks_map self) blocks_guard;
              Ok (set_inflight self inner, Err (SynchronizerSaturated (debug_peer peer)))
        end
    end.

(** Whether the periodic fetch runs now; [now] is an instant in nanoseconds. *)
Definition should_run_periodic_sync (context : Context) (self : Synchronizer)
    (current_commit_index quorum_commit_index now : N) : Synchronizer * bool :=
  let with_state index time failover :=
    mkSynchronizer (sy_commands self) (sy_fetch_blocks self) (sy_inflight_blocks_map self) index time failover in
  if negb (is_commit_lagging context current_commit_index quorum_commit_index) then
    (with_state current_commit_index now false, true)
  else if sy_commit_sync_failover self then
    if current_commit_index <? u32_add (sy_last_changed_commit_index self) (commit_sync_batch_size (parameters context))
    then (self, true)
    else (with_state current_commit_index now false, false)
  else if current_commit_index =? sy_last_changed_commit_index self then
    if COMMIT_PROGRESS_TIMEOUT <=? saturating_sub now (sy_last_commit_change_time self)
    then (with_state (sy_last_changed_commit_index self) (sy_last_commit_change_time self) true, true)
    else (self, false)
  else (with_state current_commit_index now (sy_commit_sync_failover self), false).

(* ------------------------------------------------------------------ *)
(** ** Fetched blocks *)

Section fetched.
Context `{Rng} `{Crypto} `{TransactionVerifier} {S : Type} `{Store S}.
Context (bcs_to_bytes : SignedBlock -> list byte) (bcs_commit : Commit -> list byte) (default_hash : list byte -> N).
Context (block_from_bytes : list byte -> option SignedBlock).
Implicit Types self : ValidatorNode S.

Fixpoint verify_serialized self (serialized_blocks : list (list byte)) (voted_blocks : list (VerifiedBlock * list N))
    : outcome (ValidatorNode S * ConsensusResult (list (VerifiedBlock * list N))) :=
  match serialized_blocks with
  | [] => Ok (self, Success voted_blocks)
  | serialized_block :: serialized_blocks =>
      match block_from_bytes serialized_block with
      | None => Ok (self, Err MalformedBlock)
      | Some signed_block =>
          verified ← verify_and_vote default_hash (vn_verifier self) signed_block serialized_block;
          match verified with
          | Err e => Ok (self, Err e)
          | Success voted =>
              timed ← node_timestamp_utc_ms self;
              let '(self, now) := timed in
              _ ← (if 0 <? saturating_sub (timestamp_ms voted.1) now
                   then _ ← committee_authority (committee (co_context (vn_core self))) (author voted.1); Ok tt
                   else Ok tt);
              verify_serialized self serialized_blocks (voted_blocks ++ [voted])
          end
      end
  end.

Definition verify_blocks self (serialized_blocks : list (list byte))
    : outcome (ValidatorNode S * ConsensusResult (list VerifiedBlock)) :=
  node_try (verify_serialized self serialized_blocks []) (fun self voted_blocks =>
  self ← (if transaction_voting_enabled (protocol_config (co_context (vn_core self)))
          then node_add_voted_blocks self voted_blocks else Ok self);
  Ok (self, Success voted_blocks.*1)).

(** Up to the answer of the core. *)
Definition process_verified_blocks self (blocks : list VerifiedBlock)
    : outcome (ValidatorNode S * ConsensusResult (gset BlockRef)) :=
  monitor ← foldM observe_block blocks (vn_monitor self);
  let self := set_monitor self monitor in
  self ← foldM (fun self block => node_track_block self (mkExtendedBlock block [])) blocks self;
  _ ← mapM (fun block => committee_authority (committee (co_context (vn_core self))) (author block)) blocks;
  node_dispatch bcs_to_bytes bcs_commit default_hash self (CommandAddBlocks blocks).

Definition process_serialized_blocks self (serialized_blocks : list (list byte))
    : outcome (ValidatorNode S * ConsensusResult (gset BlockRef)) :=
  if is_empty serialized_blocks then Ok (self, Success ∅)
  else
    let serialized_blocks :=
      take (N.to_nat (max_blocks_per_sync (parameters (co_context (vn_core self))))) serialized_blocks in
    node_try (verify_blocks self serialized_blocks) process_verified_blocks.

(** The guard is dropped on every path. *)
Definition process_fetched_blocks self (sync : Synchronizer) (serialized_blocks : list (list byte))
    (requested_blocks_guard : BlocksGuard) : outcome (ValidatorNode S * Synchronizer * ConsensusResult unit) :=
  processed ← process_serialized_blocks self serialized_blocks;
  let '(self, missing_blocks) := processed in
  inner ← unlock_blocks (sy_inflight_blocks_map sync) requested_blocks_guard;
  let sync := set_inflight sync inner in
  match missing_blocks with
  | Err e => Ok (self, sync, Err e)
  | Success missing_blocks =>
      Ok (self, if bool_decide (missing_blocks = ∅) then sync else try_send_command sync KickOffScheduler, Success tt)
  end.

Definition get_fetch_after_rounds (context : Context) (dag : DagState S) : outcome (list N) :=
  blocks ← get_last_cached_block_per_authority dag u32_MAX;
  let gc_round := gc_round dag in
  _ ← assert_that (N.of_nat (length blocks) =? committee_size (committee context));
  Ok ((fun block : VerifiedBlock * list BlockRef => N.max (round block.1) gc_round) <$> (blocks : list _)).
End fetched.
