(* ===== verification/SynchronizerLocks.v ===== *)
(** * Fetches in flight

    The locks of the synchronizer on the blocks that it fetches: every run of
    requests, fetches and retries keeps them exact, whatever the interleaving. *)

From S2P Require Import Prelude Committee Context Block StakeAggregator ThresholdClock Commit CommitVoteMonitor Error RoundTracker Store LeaderScoring Ancestor TransactionConsumer DagState VoteTracker Linearizer CommitObserver BlockManager LeaderSchedule BlockVerifier BaseCommitter UniversalCommitter Core CoreThread ValidatorProposer AuthorityService SampleDag Synchronizer.

(** The peers that a block is being fetched from. *)
Definition holders (m : gmap BlockRef (gset PeerId)) (r : BlockRef) : gset PeerId := default ∅ (m !! r).

(** How many fetches of a peer a block is part of. *)
Definition claims (guards : list BlocksGuard) (r : BlockRef) (p : PeerId) : nat :=
  length (List.filter (fun g => bool_decide (bg_peer g = p) && bool_decide (r ∈ bg_block_refs g)) guards).

(** The map holds the claims of the live guards, each of them once. *)
Record locks_ok (guards : list BlocksGuard) (m : gmap BlockRef (gset PeerId)) : Prop := {
  lk_exact : forall r p, claims guards r p = if bool_decide (p ∈ holders m r) then 1%nat else O;
  lk_clean : forall r, m !! r <> Some ∅;
  lk_bound : forall r, (size (holders m r) <= MAX_AUTHORITIES_TO_FETCH_PER_BLOCK)%nat;
}.

Definition can_lock (m : gmap BlockRef (gset PeerId)) (p : PeerId) (r : BlockRef) : Prop :=
  (size (holders m r) < MAX_AUTHORITIES_TO_FETCH_PER_BLOCK)%nat /\ p ∉ holders m r.
#[global] Instance can_lock_dec m p r : base.Decision (can_lock m p r).
Proof. unfold can_lock. apply _. Defined.

Lemma holders_insert (m : gmap BlockRef (gset PeerId)) r s r' : holders (<[r := s]> m) r' = if decide (r' = r) then s else holders m r'.
Proof.
  unfold holders. destruct (decide (r' = r)) as [->|]; [by rewrite lookup_insert_eq|by rewrite lookup_insert_ne].
Qed.

Lemma holders_delete (m : gmap BlockRef (gset PeerId)) r r' : holders (delete r m) r' = if decide (r' = r) then ∅ else holders m r'.
Proof.
  unfold holders. destruct (decide (r' = r)) as [->|]; [by rewrite lookup_delete_eq|by rewrite lookup_delete_ne].
Qed.

Lemma locks_ok_new : locks_ok [] inflight_blocks_map_new.
Proof.
  constructor; [done| |]; intros r; unfold holders, inflight_blocks_map_new, InflightBlocksMap; rewrite lookup_empty; [done|].
  by vm_compute; lia.
Qed.

(* ------------------------------------------------------------------ *)
(** ** Locking *)

Lemma lock_block_Ok p (m : gmap BlockRef (gset PeerId)) blocks r :
  (forall r, m !! r <> Some ∅) ->
  exists m', lock_block p (m, blocks) r = Ok (m', if decide (can_lock m p r) then {[r]} ∪ blocks else blocks)
    /\ (forall r', holders m' r' = if decide (r' = r /\ can_lock m p r) then {[p]} ∪ holders m r' else holders m r')
    /\ forall r', m' !! r' <> Some ∅.
Proof.
  intros Hclean. unfold lock_block, InflightBlocksMap. fold (holders m r). destruct (decide (can_lock m p r)) as [[Hs Hp]|Hno].
  - rewrite (proj2 (Nat.ltb_lt _ _) Hs), (bool_decide_eq_false_2 _ Hp). simpl. eexists. split; [done|].
    split; intros r'.
    + rewrite holders_insert. destruct (decide (r' = r)) as [->|]; [by rewrite decide_True by (by repeat split)|].
      by rewrite decide_False by naive_solver.
    + destruct (decide (r' = r)) as [->|]; [rewrite lookup_insert_eq; intros [= E]; set_solver|].
      rewrite lookup_insert_ne by done. apply Hclean.
  - assert (E : (size (holders m r) <? MAX_AUTHORITIES_TO_FETCH_PER_BLOCK)%nat && negb (bool_decide (p ∈ holders m r)) = false).
    { apply not_true_is_false. intros [Hs%Nat.ltb_lt Hp%negb_true_iff%bool_decide_eq_false]%andb_true_iff. by apply Hno. }
    rewrite E. eexists. split; [done|]. split; intros r'.
    + rewrite holders_insert, (decide_False (P := r' = r /\ _)) by naive_solver. by destruct (decide (r' = r)) as [->|].
    + destruct (decide (r' = r)) as [->|]; [|rewrite lookup_insert_ne by done; apply Hclean].
      rewrite lookup_insert_eq. intros [= E']. apply Hno. unfold can_lock. rewrite E', size_empty. split; [by vm_compute; lia|set_solver].
Qed.

Lemma lock_fold_Ok p refs (m : gmap BlockRef (gset PeerId)) blocks :
  NoDup refs -> (forall r, m !! r <> Some ∅) ->
  exists m' locked, foldM (lock_block p) refs (m, blocks) = Ok (m', blocks ∪ locked)
    /\ (forall r, r ∈ locked <-> r ∈ refs /\ can_lock m p r)
    /\ (forall r, holders m' r = if decide (r ∈ locked) then {[p]} ∪ holders m r else holders m r)
    /\ forall r, m' !! r <> Some ∅.
Proof.
  revert m blocks. induction refs as [|x refs IH]; intros m blocks Hnd Hclean.
  { exists m, ∅. simpl. split; [by rewrite (right_id_L ∅ (∪))|]. split; [set_solver|]. split; [|done].
    intros r. by rewrite decide_False by set_solver. }
  apply NoDup_cons in Hnd as [Hx Hnd]. destruct (lock_block_Ok p m blocks x Hclean) as (m1 & E1 & H1 & C1).
  cbn [foldM]. rewrite E1. cbn [mbind outcome_bind].
  destruct (IH m1 (if decide (can_lock m p x) then {[x]} ∪ blocks else blocks) Hnd C1) as (m2 & locked & E2 & L2 & H2 & C2).
  assert (Hsame : forall r, r ∈ refs -> holders m1 r = holders m r).
  { intros r Hr. rewrite H1, decide_False; [done|]. by intros [-> _]. }
  assert (Hxl : x ∉ locked) by (rewrite L2; tauto).
  exists m2, (if decide (can_lock m p x) then {[x]} ∪ locked else locked).
  split; [etransitivity; [exact E2|]; f_equal; f_equal; destruct (decide (can_lock m p x)); set_solver|]. split; [|split; [|done]].
  - intros r. rewrite elem_of_cons. destruct (decide (r = x)) as [->|Hrx].
    + destruct (decide (can_lock m p x)); rewrite ?elem_of_union, ?elem_of_singleton; tauto.
    + assert (Hr : r ∈ locked <-> r ∈ refs /\ can_lock m p r).
      { rewrite L2. split; intros [Hin Hc]; (split; [done|]); unfold can_lock in *; by rewrite ?Hsame in * by done. }
      destruct (decide (can_lock m p x)); rewrite ?elem_of_union, ?elem_of_singleton, Hr; tauto.
  - intros r. rewrite H2, H1. destruct (decide (r = x)) as [->|Hrx].
    + rewrite (decide_False (P := x ∈ locked)) by done.
      destruct (decide (can_lock m p x)); [rewrite decide_True by done; by rewrite decide_True by (apply elem_of_union; left; by apply elem_of_singleton)|].
      rewrite decide_False by tauto. by rewrite decide_False by done.
    + rewrite (decide_False (P := r = x /\ _)) by tauto.
      destruct (decide (can_lock m p x)); [|done].
      apply decide_ext. rewrite elem_of_union, elem_of_singleton. tauto.
Qed.

(** The claims of a guard, added to or dropped from those of the others. *)
Lemma claims_app gs gs' r p : claims (gs ++ gs') r p = (claims gs r p + claims gs' r p)%nat.
Proof. unfold claims. by rewrite List.filter_app, length_app. Qed.

Lemma claims_one g r p : claims [g] r p = if decide (bg_peer g = p /\ r ∈ bg_block_refs g) then 1%nat else O.
Proof. unfold claims. simpl. by repeat case_bool_decide; case_decide; naive_solver. Qed.

Lemma locks_ok_perm gs gs' m : gs ≡ₚ gs' -> locks_ok gs m -> locks_ok gs' m.
Proof.
  intros E [Hx Hc Hb]. constructor; [|done..]. intros r p. rewrite <-Hx. clear Hx. unfold claims.
  induction E; simpl; repeat case_match; simpl; congruence.
Qed.

Lemma lock_blocks_Ok gs m refs p :
  locks_ok gs m ->
  exists m' guard, lock_blocks m refs p = Ok (m', guard) /\ locks_ok (option_list guard ++ gs) m'
    /\ (forall g, guard = Some g -> bg_peer g = p)
    /\ forall r, r ∈ refs /\ can_lock m p r <-> exists g, guard = Some g /\ r ∈ bg_block_refs g.
Proof.
  intros [Hx Hc Hb]. unfold lock_blocks.
  destruct (lock_fold_Ok p (btree_iter refs) m ∅ (btree_iter_NoDup _) Hc) as (m' & locked & E & L & Hm & Hc').
  exists m', (if bool_decide (∅ ∪ locked = ∅) then None else Some (mkBlocksGuard (∅ ∪ locked) p)).
  rewrite (left_id_L ∅ (∪)). setoid_rewrite elem_of_btree_iter in L.
  split; [unfold InflightBlocksMap in *; rewrite E; simpl; by rewrite (left_id_L ∅ (∪))|].
  assert (Hg : forall r, r ∈ locked <-> exists g, (if bool_decide (locked = ∅) then None else Some (mkBlocksGuard locked p)) = Some g
    /\ r ∈ bg_block_refs g).
  { intros r. case_bool_decide as El; [subst; split; [set_solver|by intros (? & ? & _)]|].
    split; [by eexists|by intros (? & [= <-] & ?)]. }
  split; [|split; [by case_bool_decide; intros ? [= <-]|intros r; by rewrite <-Hg, L]].
  constructor; [|done|].
  - intros r q. rewrite claims_app, Hx, Hm.
    assert (Ec : claims (option_list (if bool_decide (locked = ∅) then None else Some (mkBlocksGuard locked p))) r q
      = if decide (p = q /\ r ∈ locked) then 1%nat else O).
    { case_bool_decide as El; [subst; by rewrite decide_False by set_solver|apply claims_one]. }
    rewrite Ec. destruct (decide (r ∈ locked)) as [Hin|Hnin]; [|by rewrite decide_False by tauto].
    apply L in Hin as Hcan. destruct Hcan as [_ [_ Hnp]]. destruct (decide (p = q)) as [->|Hne].
    + rewrite decide_True by done. rewrite (bool_decide_eq_false_2 _ Hnp). by rewrite bool_decide_eq_true_2 by set_solver.
    + rewrite decide_False by tauto. simpl.
      rewrite (bool_decide_ext (q ∈ {[p]} ∪ holders m r) (q ∈ holders m r)); [done|clear -Hne; set_solver].
  - intros r. rewrite Hm. destruct (decide (r ∈ locked)) as [Hin|]; [|apply Hb].
    apply L in Hin as [_ [Hsize Hnp]]. rewrite size_union, size_singleton by set_solver. lia.
Qed.

(* ------------------------------------------------------------------ *)
(** ** Unlocking *)

Lemma unlock_block_Ok p (m : gmap BlockRef (gset PeerId)) r :
  (forall r, m !! r <> Some ∅) -> p ∈ holders m r ->
  exists m', unlock_block p m r = Ok m'
    /\ (forall r', holders m' r' = if decide (r' = r) then holders m r' ∖ {[p]} else holders m r')
    /\ forall r', m' !! r' <> Some ∅.
Proof.
  intros Hclean Hp. unfold unlock_block, InflightBlocksMap. destruct (m !! r) as [peers|] eqn:E; [|unfold holders in Hp; rewrite E in Hp; set_solver].
  assert (Eh : holders m r = peers) by (unfold holders; by rewrite E). rewrite Eh in Hp.
  rewrite (bool_decide_eq_true_2 _ Hp). simpl. eexists. split; [done|]. case_bool_decide as Ee; split; intros r'.
  - rewrite holders_delete. destruct (decide (r' = r)) as [->|]; [by rewrite Eh|done].
  - destruct (decide (r' = r)) as [->|]; [by rewrite lookup_delete_eq|by rewrite lookup_delete_ne].
  - rewrite holders_insert. destruct (decide (r' = r)) as [->|]; [by rewrite Eh|done].
  - destruct (decide (r' = r)) as [->|]; [rewrite lookup_insert_eq; by intros [=]|by rewrite lookup_insert_ne].
Qed.

Lemma unlock_fold_Ok p refs (m : gmap BlockRef (gset PeerId)) :
  NoDup refs -> (forall r, m !! r <> Some ∅) -> (forall r, r ∈ refs -> p ∈ holders m r) ->
  exists m', foldM (unlock_block p) refs m = Ok m'
    /\ (forall r, holders m' r = if decide (r ∈ refs) then holders m r ∖ {[p]} else holders m r)
    /\ forall r, m' !! r <> Some ∅.
Proof.
  revert m. induction refs as [|x refs IH]; intros m Hnd Hclean Hp.
  { exists m. split; [done|]. split; [|done]. intros r. by rewrite decide_False by apply not_elem_of_nil. }
  apply NoDup_cons in Hnd as [Hx Hnd]. destruct (unlock_block_Ok p m x Hclean) as (m1 & E1 & H1 & C1); [apply Hp, list_elem_of_here|].
  destruct (IH m1 Hnd C1) as (m2 & E2 & H2 & C2).
  { intros r Hr. rewrite H1, decide_False by (by intros ->). by apply Hp, list_elem_of_further. }
  exists m2. split; [cbn [foldM]; rewrite E1; exact E2|]. split; [|done]. intros r. rewrite H2, H1.
  destruct (decide (r = x)) as [->|Hne].
  - rewrite decide_False by done. by rewrite decide_True by apply list_elem_of_here.
  - apply decide_ext. rewrite elem_of_cons. tauto.
Qed.

(** Dropping a live guard. *)
Lemma unlock_blocks_Ok gs g m :
  locks_ok (g :: gs) m -> exists m', unlock_blocks m g = Ok m' /\ locks_ok gs m'.
Proof.
  intros [Hx Hc Hb]. unfold unlock_blocks.
  assert (Hsplit : forall r q, claims (g :: gs) r q = ((if decide (bg_peer g = q /\ r ∈ bg_block_refs g) then 1 else 0) + claims gs r q)%nat).
  { intros r q. by rewrite <-claims_one, <-claims_app. }
  destruct (unlock_fold_Ok (bg_peer g) (btree_iter (bg_block_refs g)) m (btree_iter_NoDup _) Hc) as (m' & E & Hm & Hc').
  { intros r Hr%elem_of_btree_iter. specialize (Hx r (bg_peer g)). rewrite Hsplit, decide_True in Hx by done.
    destruct (bool_decide_reflect (bg_peer g ∈ holders m r)); [done|lia]. }
  exists m'. split; [exact E|]. setoid_rewrite (decide_ext _ _ _ _ (elem_of_btree_iter _ _)) in Hm. constructor; [|done|].
  - intros r q. specialize (Hx r q). rewrite Hsplit in Hx. rewrite Hm.
    destruct (decide (r ∈ bg_block_refs g)) as [Hin|]; [|by rewrite decide_False in Hx by tauto].
    destruct (decide (bg_peer g = q)) as [<-|Hne].
    + rewrite decide_True in Hx by done. rewrite (bool_decide_eq_false_2 (_ ∈ _ ∖ _)) by set_solver.
      destruct (bool_decide (bg_peer g ∈ holders m r)); lia.
    + rewrite decide_False in Hx by tauto. simpl in Hx. rewrite Hx.
      rewrite (bool_decide_ext (q ∈ holders m r ∖ {[bg_peer g]}) (q ∈ holders m r)); [done|clear -Hne; set_solver].
  - intros r. rewrite Hm. specialize (Hb r). destruct (decide (r ∈ bg_block_refs g)); [|done].
    etransitivity; [apply subseteq_size|exact Hb]. set_solver.
Qed.

(* ------------------------------------------------------------------ *)
(** ** Runs *)

(** The synchronizer, and the guards of the fetches that are running. *)
Record SyncRun := mkSyncRun {
  sr_sync : Synchronizer;
  sr_active : list BlocksGuard;
}.

(** What happens to the locks: the command of a service; the task of a peer
    takes its next fetch; the periodic task asks a peer, or another one after a
    failure; a fetch is over, with or without blocks. *)
Inductive sync_event :=
  | AskBlocks (missing_block_refs : gset BlockRef) (peer : PeerId) (closed : bool)
  | StartFetch (peer : PeerId)
  | LockPeriodic (missing_block_refs : gset BlockRef) (peer : PeerId)
  | SwapFetch (i : nat) (peer : PeerId)
  | EndFetch (i : nat).

Definition take_guard (sync : Synchronizer) (peer : PeerId) : option (BlocksGuard * Synchronizer) :=
  match sy_fetch_blocks sync !! peer with
  | Some (g :: waiting) =>
      Some (g, mkSynchronizer (sy_commands sync) (<[peer := waiting]> (sy_fetch_blocks sync)) (sy_inflight_blocks_map sync)
                 (sy_last_changed_commit_index sync) (sy_last_commit_change_time sync) (sy_commit_sync_failover sync))
  | _ => None
  end.

Definition sync_step (context : Context) (known : PeerId -> bool) (debug_peer display_peer : PeerId -> string)
    (st : SyncRun) (e : sync_event) : outcome SyncRun :=
  let '(mkSyncRun sync active) := st in
  match e with
  | AskBlocks missing_block_refs peer closed =>
      asked ← fetch_blocks_command context known debug_peer display_peer sync missing_block_refs peer closed;
      Ok (mkSyncRun asked.1 active)
  | StartFetch peer =>
      Ok match take_guard sync peer with Some (g, sync) => mkSyncRun sync (g :: active) | None => st end
  | LockPeriodic missing_block_refs peer =>
      locked ← lock_blocks (sy_inflight_blocks_map sync) missing_block_refs peer;
      Ok (mkSyncRun (set_inflight sync locked.1) (option_list locked.2 ++ active))
  | SwapFetch i peer =>
      match active !! i with
      | Some g =>
          locked ← swap_locks (sy_inflight_blocks_map sync) g peer;
          Ok (mkSyncRun (set_inflight sync locked.1) (option_list locked.2 ++ delete i active))
      | None => Ok st
      end
  | EndFetch i =>
      match active !! i with
      | Some g =>
          inner ← unlock_blocks (sy_inflight_blocks_map sync) g;
          Ok (mkSyncRun (set_inflight sync inner) (delete i active))
      | None => Ok st
      end
  end.

Definition waiting_guards (sync : Synchronizer) : list BlocksGuard := (map_to_list (sy_fetch_blocks sync)).*2 ≫= id.

(** All the guards that are not dropped. *)
Definition live_guards (st : SyncRun) : list BlocksGuard := sr_active st ++ waiting_guards (sr_sync st).

Record sync_ok (st : SyncRun) : Prop := {
  so_locks : locks_ok (live_guards st) (sy_inflight_blocks_map (sr_sync st));
  so_queues : forall peer waiting, sy_fetch_blocks (sr_sync st) !! peer = Some waiting ->
    (length waiting <= FETCH_BLOCKS_CONCURRENCY)%nat /\ Forall (fun g => bg_peer g = peer) waiting;
}.

Lemma waiting_insert (queues : gmap PeerId (list BlocksGuard)) peer waiting waiting' :
  queues !! peer = Some waiting ->
  exists rest, (map_to_list queues).*2 ≫= id ≡ₚ waiting ++ rest
    /\ (map_to_list (<[peer := waiting']> queues)).*2 ≫= id ≡ₚ waiting' ++ rest.
Proof.
  intros E. exists ((map_to_list (delete peer queues)).*2 ≫= id). split.
  - by rewrite <-(map_to_list_delete queues peer waiting E).
  - rewrite <-insert_delete_eq. by rewrite map_to_list_insert by apply lookup_delete_eq.
Qed.

Lemma queues_insert (queues : gmap PeerId (list BlocksGuard)) peer waiting :
  (forall peer waiting, queues !! peer = Some waiting ->
    (length waiting <= FETCH_BLOCKS_CONCURRENCY)%nat /\ Forall (fun g => bg_peer g = peer) waiting) ->
  (length waiting <= FETCH_BLOCKS_CONCURRENCY)%nat -> Forall (fun g => bg_peer g = peer) waiting ->
  forall peer' waiting', <[peer := waiting]> queues !! peer' = Some waiting' ->
    (length waiting' <= FETCH_BLOCKS_CONCURRENCY)%nat /\ Forall (fun g => bg_peer g = peer') waiting'.
Proof.
  intros Hq Hlen Hall peer' waiting'. destruct (decide (peer' = peer)) as [->|].
  - rewrite lookup_insert_eq. by intros [= <-].
  - rewrite lookup_insert_ne by done. apply Hq.
Qed.

Lemma ask_Ok context known debug_peer display_peer sync active missing peer closed :
  sync_ok (mkSyncRun sync active) ->
  exists sync' r, fetch_blocks_command context known debug_peer display_peer sync missing peer closed = Ok (sync', r)
    /\ sync_ok (mkSyncRun sync' active).
Proof.
  intros [Hl Hq]. simpl in Hl, Hq. unfold fetch_blocks_command. destruct (known peer); simpl; [|by eexists _, _].
  set (refs := list_to_set _ : gset BlockRef).
  destruct (lock_blocks_Ok _ _ refs peer Hl) as (m & guard & -> & Hm & Hpeer & _). simpl.
  destruct guard as [g|]; [|by eexists _, _]. specialize (Hpeer g eq_refl).
  destruct (unlock_blocks_Ok _ g m Hm) as (m' & E & Hm').
  destruct (sy_fetch_blocks sync !! peer) as [waiting|] eqn:Ew; [|rewrite E; by eexists _, _].
  destruct closed; [rewrite E; by eexists _, _|].
  destruct (Nat.ltb_spec (length waiting) FETCH_BLOCKS_CONCURRENCY) as [Hlt|_]; [|rewrite E; by eexists _, _].
  eexists _, _. split; [done|]. destruct (Hq peer waiting Ew) as [_ Hall]. constructor; simpl.
  - refine (locks_ok_perm _ _ _ _ Hm). unfold live_guards, waiting_guards. simpl.
    destruct (waiting_insert (sy_fetch_blocks sync) peer waiting (waiting ++ [g]) Ew) as (rest & -> & ->). solve_Permutation.
  - apply queues_insert; [done|rewrite length_app; simpl; lia|]. apply Forall_app. by repeat constructor.
Qed.

Lemma sync_step_Ok context known debug_peer display_peer st e :
  sync_ok st -> exists st', sync_step context known debug_peer display_peer st e = Ok st' /\ sync_ok st'.
Proof.
  destruct st as [sync active]. intros Hok. pose proof Hok as [Hl Hq]. simpl in Hl, Hq.
  destruct e as [refs peer closed|peer|refs peer|i peer|i]; simpl.
  - destruct (ask_Ok context known debug_peer display_peer sync active refs peer closed Hok) as (sync' & r & -> & Hok').
    by exists (mkSyncRun sync' active).
  - unfold take_guard. destruct (sy_fetch_blocks sync !! peer) as [[|g waiting]|] eqn:Ew; [by eexists..| |by eexists].
    eexists. split; [done|]. destruct (Hq peer _ Ew) as [Hlen Hall]. apply Forall_cons in Hall as [_ Hall]. constructor; simpl.
    + refine (locks_ok_perm _ _ _ _ Hl). unfold live_guards, waiting_guards. simpl.
      destruct (waiting_insert (sy_fetch_blocks sync) peer _ waiting Ew) as (rest & -> & ->). solve_Permutation.
    + apply queues_insert; [done| |done]. simpl in Hlen. lia.
  - destruct (lock_blocks_Ok _ _ refs peer Hl) as (m & guard & -> & Hm & _). simpl. eexists. split; [done|].
    constructor; [|done]. refine (locks_ok_perm _ _ _ _ Hm). unfold live_guards. simpl. by rewrite (assoc (++)).
  - destruct (active !! i) as [g|] eqn:Eg; [|by eexists]. unfold swap_locks.
    destruct (unlock_blocks_Ok (delete i active ++ waiting_guards sync) g (sy_inflight_blocks_map sync)) as (m & -> & Hm).
    { refine (locks_ok_perm _ _ _ _ Hl). unfold live_guards. simpl. by rewrite (delete_Permutation _ _ _ Eg) at 1. }
    simpl. destruct (lock_blocks_Ok _ _ (bg_block_refs g) peer Hm) as (m' & guard & -> & Hm' & _). simpl.
    eexists. split; [done|]. constructor; [|done]. refine (locks_ok_perm _ _ _ _ Hm'). unfold live_guards. simpl. by rewrite (assoc (++)).
  - destruct (active !! i) as [g|] eqn:Eg; [|by eexists].
    destruct (unlock_blocks_Ok (delete i active ++ waiting_guards sync) g (sy_inflight_blocks_map sync)) as (m & -> & Hm).
    { refine (locks_ok_perm _ _ _ _ Hl). unfold live_guards. simpl. by rewrite (delete_Permutation _ _ _ Eg) at 1. }
    by eexists.
Qed.

Lemma sync_start_ok known_peers sync_last_known_own_block now :
  sync_ok (mkSyncRun (synchronizer_start known_peers sync_last_known_own_block now) []).
Proof.
  assert (Hempty : forall peer waiting,
    (list_to_map ((fun peer => (peer, [])) <$> known_peers) : gmap PeerId (list BlocksGuard)) !! peer = Some waiting -> waiting = []).
  { intros peer waiting (? & [= _ <-] & _)%elem_of_list_to_map_2%list_elem_of_fmap. done. }
  constructor; simpl.
  - replace (live_guards _) with (@nil BlocksGuard); [apply locks_ok_new|]. unfold live_guards, waiting_guards. simpl. symmetry.
    apply elem_of_nil_inv. intros g (waiting & Hg & [[peer w] [-> Hin]]%list_elem_of_fmap)%list_elem_of_bind.
    apply elem_of_map_to_list, Hempty in Hin. simpl in *. subst. by apply not_elem_of_nil in Hg.
  - intros peer waiting ->%Hempty. simpl. split; [unfold FETCH_BLOCKS_CONCURRENCY; lia|done].
Qed.

(** C23: Fetches stay exclusive.  Whatever requests, fetches, retries and failures
    happen in whatever order, from the start of the synchronizer on, none of
    them panics (so a guard that is dropped finds its locks), and at any time
    the locks are exactly those of the fetches that wait or run: a block is
    locked for a peer if and only if one fetch of this peer, and only one,
    includes it; no block is fetched from more than two peers; no more than five
    fetches wait for a peer; and when no fetch is left, no lock is. *)
Theorem inflight_blocks_exact (context : Context) (known : PeerId -> bool) (debug_peer display_peer : PeerId -> string)
    (known_peers : list PeerId) (sync_last_known_own_block : bool) (now : N) (events : list sync_event) :
  exists st, foldM (sync_step context known debug_peer display_peer) events
               (mkSyncRun (synchronizer_start known_peers sync_last_known_own_block now) []) = Ok st
    /\ let locks := sy_inflight_blocks_map (sr_sync st) in
       (forall r p, p ∈ holders locks r <-> claims (live_guards st) r p = 1%nat)
       /\ (forall r p, (claims (live_guards st) r p <= 1)%nat)
       /\ (forall r, (size (holders locks r) <= MAX_AUTHORITIES_TO_FETCH_PER_BLOCK)%nat)
       /\ (forall peer waiting, sy_fetch_blocks (sr_sync st) !! peer = Some waiting ->
            (length waiting <= FETCH_BLOCKS_CONCURRENCY)%nat)
       /\ (live_guards st = [] -> locks = ∅).
Proof.
  pose proof (sync_start_ok known_peers sync_last_known_own_block now) as Hok.
  revert Hok. generalize (mkSyncRun (synchronizer_start known_peers sync_last_known_own_block now) []).
  induction events as [|e events IH]; intros st Hok.
  - exists st. split; [done|]. destruct Hok as [[Hx Hc Hb] Hq]. split_and!; [| |done|intros; by eapply Hq|].
    + intros r p. rewrite Hx. by case_bool_decide.
    + intros r p. rewrite Hx. case_bool_decide; lia.
    + intros E. apply map_empty. intros r. specialize (Hx r). unfold holders in Hx. rewrite E in Hx.
      destruct (_ !! r) as [ps|] eqn:Er; [|done]. exfalso. apply (Hc r). rewrite Er. f_equal. apply set_eq. intros p.
      specialize (Hx p). simpl in Hx. case_bool_decide; set_solver.
  - destruct (sync_step_Ok context known debug_peer display_peer st e Hok) as (st' & E & Hok').
    cbn [foldM]. rewrite E. exact (IH st' Hok').
Qed.
