(* ===== verification/CommitSyncer.v ===== *)
(** * The commit syncer

    Models commit_syncer.rs: how a validator that fell behind fetches ranges of
    commits from peers, verifies that they are certified, and sends them to its
    core in order.  What a peer answers is an argument, and an attempt to
    fetch a range is one step; timeouts, retries and the choice of peers are
    left out, as are metrics. *)

From S2P Require Import Prelude Committee Context Block StakeAggregator ThresholdClock Commit CommitVoteMonitor Error RoundTracker Store LeaderScoring Ancestor TransactionConsumer DagState VoteTracker Linearizer CommitObserver BlockManager LeaderSchedule BlockVerifier BaseCommitter UniversalCommitter Core CoreThread ValidatorProposer AuthorityService.

(** A range as the key of the ordered maps: the order of [CommitRange]. *)
Definition range_key (r : CommitRange) : N * N := (commit_range_start r, commit_range_end r).

Definition key_range (k : N * N) : CommitRange := commit_range_new k.1 k.2.

(** The state of the scheduler; a fetch in flight is known by its range. *)
Record CommitSyncer := mkCommitSyncer {
  cy_inflight_fetches : list (N * N);
  cy_pending_fetches : gset (N * N);
  cy_fetched_ranges : gmap (N * N) CertifiedCommits;
  cy_highest_scheduled_index : option N;
  cy_highest_fetched_commit_index : N;
  cy_synced_commit_index : N;
}.

Definition commit_syncer_new {S} (dag_state : DagState S) : CommitSyncer :=
  mkCommitSyncer [] ∅ ∅ None 0 (last_commit_index dag_state).

Definition set_synced (self : CommitSyncer) (index : N) : CommitSyncer :=
  mkCommitSyncer (cy_inflight_fetches self) (cy_pending_fetches self) (cy_fetched_ranges self)
    (cy_highest_scheduled_index self) (cy_highest_fetched_commit_index self) index.

Definition set_pending_fetches (self : CommitSyncer) (pending : gset (N * N)) : CommitSyncer :=
  mkCommitSyncer (cy_inflight_fetches self) pending (cy_fetched_ranges self)
    (cy_highest_scheduled_index self) (cy_highest_fetched_commit_index self) (cy_synced_commit_index self).

Definition set_fetched_ranges (self : CommitSyncer) (fetched : gmap (N * N) CertifiedCommits) : CommitSyncer :=
  mkCommitSyncer (cy_inflight_fetches self) (cy_pending_fetches self) fetched
    (cy_highest_scheduled_index self) (cy_highest_fetched_commit_index self) (cy_synced_commit_index self).

(* ------------------------------------------------------------------ *)
(** ** Scheduling *)

Definition unhandled_commits_threshold (context : Context) : N :=
  u32_mul (commit_sync_batch_size (parameters context)) (u32_wrap (commit_sync_batches_ahead (parameters context))).

(** [(first..=last).step_by(step)] *)
Definition step_by (first last step : N) : outcome (list N) :=
  _ ← assert_that (negb (step =? 0));
  Ok (if last <? first then []
      else (fun i => first + N.of_nat i * step) <$> seq 0 (Datatypes.S (N.to_nat ((last - first) / step)))).

Fixpoint schedule_ranges (batch quorum_commit_index handled_limit : N) (prev_ends : list N) (self : CommitSyncer) : CommitSyncer :=
  match prev_ends with
  | [] => self
  | prev_end :: prev_ends =>
      let range_start := u32_add prev_end 1 in
      let range_end := u32_add prev_end batch in
      if quorum_commit_index <? range_end then self
      else if handled_limit <? range_end then self
      else schedule_ranges batch quorum_commit_index handled_limit prev_ends
             (mkCommitSyncer (cy_inflight_fetches self)
                ({[range_key (commit_range_new range_start range_end)]} ∪ cy_pending_fetches self)
                (cy_fetched_ranges self) (Some range_end) (cy_highest_fetched_commit_index self) (cy_synced_commit_index self))
  end.

(** [local_commit_index] is the last commit of the DAG state, and
    [highest_handled_index] what the consumer of commits reported. *)
Definition try_schedule_once (context : Context) (self : CommitSyncer)
    (quorum_commit_index local_commit_index highest_handled_index : N) : outcome CommitSyncer :=
  let self := set_synced self (N.max (cy_synced_commit_index self) local_commit_index) in
  let fetch_after_index := N.max (cy_synced_commit_index self) (default 0 (cy_highest_scheduled_index self)) in
  let batch := commit_sync_batch_size (parameters context) in
  prev_ends ← step_by fetch_after_index quorum_commit_index batch;
  Ok (schedule_ranges batch quorum_commit_index
        (u32_add highest_handled_index (unhandled_commits_threshold context)) prev_ends self).

Definition target_parallel_fetches (context : Context) (self : CommitSyncer) (known_peers_count : N) : N :=
  let parallel := commit_sync_parallel_fetches (parameters context) in
  let ahead := saturating_sub (commit_sync_batches_ahead (parameters context)) (N.of_nat (size (cy_fetched_ranges self))) in
  if is_validator context
  then N.max (N.min (N.min parallel (u64_mul known_peers_count 2 / 3)) ahead) 1
  else N.max (N.min parallel ahead) 1.

(** Fetches start from the lowest pending range on, while there are slots. *)
Definition try_start_fetches (context : Context) (self : CommitSyncer) (known_peers_count : N) : CommitSyncer :=
  let slots := N.to_nat (saturating_sub (target_parallel_fetches context self known_peers_count)
                           (N.of_nat (length (cy_inflight_fetches self)))) in
  let started := take slots (btree_iter (cy_pending_fetches self)) in
  mkCommitSyncer (cy_inflight_fetches self ++ started) (cy_pending_fetches self ∖ list_to_set started)
    (cy_fetched_ranges self) (cy_highest_scheduled_index self) (cy_highest_fetched_commit_index self)
    (cy_synced_commit_index self).

(* ------------------------------------------------------------------ *)
(** ** Verifying commits *)

(** What a peer answers to the requests of one attempt. *)
Record PeerAnswers := mkPeerAnswers {
  pa_probe_connectivity : ConsensusResult unit;
  pa_fetch_commits : ConsensusResult (list (list byte) * list (list byte));
  pa_fetch_blocks : list BlockRef -> ConsensusResult (list (list byte));
}.

Section syncer.
Context `{Rng} `{Crypto} `{TransactionVerifier} {S : Type} `{Store S}.
Context (bcs_to_bytes : SignedBlock -> list byte) (bcs_commit : Commit -> list byte) (default_hash : list byte -> N).
(** [bcs::from_bytes] *)
Context (block_from_bytes : list byte -> option SignedBlock) (commit_from_bytes : list byte -> option Commit).
Implicit Types self : ValidatorNode S.

(** Whether a commit may follow those that were parsed. *)
Definition check_next_commit (peer : PeerId) (commit_range : CommitRange) (commits : list (N * Commit)) (commit : Commit)
    : ConsensusResult unit :=
  match last commits with
  | None =>
      if commit_index commit =? commit_range_start commit_range then Success tt
      else Err (UnexpectedStartCommit peer (commit_range_start commit_range) commit)
  | Some (last_commit_digest, last_commit) =>
      if negb (commit_index commit =? u32_add (commit_index last_commit) 1)
         || negb (commit_previous_digest commit =? last_commit_digest)
      then Err (UnexpectedCommitSequence peer last_commit commit)
      else Success tt
  end.

Fixpoint parse_commits (peer : PeerId) (commit_range : CommitRange) (serialized_commits : list (list byte))
    (commits : list (N * Commit)) : ConsensusResult (list (N * Commit)) :=
  match serialized_commits with
  | [] => Success commits
  | serialized :: serialized_commits =>
      match commit_from_bytes serialized with
      | None => Err MalformedCommit
      | Some commit =>
          match check_next_commit peer commit_range commits commit with
          | Err e => Err e
          | Success _ =>
              if commit_range_end commit_range <? commit_index commit then Success commits
              else parse_commits peer commit_range serialized_commits (commits ++ [(default_hash serialized, commit)])
          end
      end
  end.

(** The votes of a block on the last commit. *)
Definition count_end_votes (c : Committee) (end_commit_ref : CommitRef) (stake_aggregator : StakeAggregator QuorumThreshold)
    (block : VerifiedBlock) : outcome (StakeAggregator QuorumThreshold) :=
  foldM (fun agg vote => if bool_decide (vote = end_commit_ref) then fst <$> stake_aggregator_add agg (author block) c else Ok agg)
    (commit_votes block) stake_aggregator.

Fixpoint verify_vote_blocks self (end_commit_ref : CommitRef) (serialized_vote_blocks : list (list byte))
    (stake_aggregator : StakeAggregator QuorumThreshold) (vote_blocks : list VerifiedBlock)
    : outcome (ValidatorNode S * ConsensusResult (StakeAggregator QuorumThreshold * list VerifiedBlock)) :=
  match serialized_vote_blocks with
  | [] => Ok (self, Success (stake_aggregator, vote_blocks))
  | serialized :: serialized_vote_blocks =>
      match block_from_bytes serialized with
      | None => Ok (self, Err MalformedBlock)
      | Some block =>
          verified ← verify_and_vote default_hash (vn_verifier self) block serialized;
          match verified with
          | Err e => Ok (self, Err e)
          | Success (block, reject_transaction_votes) =>
              let context := co_context (vn_core self) in
              self ← (if transaction_voting_enabled (protocol_config context)
                      then node_add_voted_blocks self [(block, reject_transaction_votes)] else Ok self);
              stake_aggregator ← count_end_votes (committee context) end_commit_ref stake_aggregator block;
              verify_vote_blocks self end_commit_ref serialized_vote_blocks stake_aggregator (vote_blocks ++ [block])
          end
      end
  end.

(** A response may continue past the end of the range; the zip then ends with
    the commits that were parsed, as in a release build. *)
Definition verify_commits self (peer : PeerId) (commit_range : CommitRange)
    (serialized_commits serialized_vote_blocks : list (list byte))
    : outcome (ValidatorNode S * ConsensusResult (list TrustedCommit * list VerifiedBlock)) :=
  match parse_commits peer commit_range serialized_commits [] with
  | Err e => Ok (self, Err e)
  | Success commits =>
      match last commits with
      | None => Ok (self, Err (NoCommitReceived peer))
      | Some (end_commit_digest, end_commit) =>
          let end_commit_ref := mkCommitRef (commit_index end_commit) end_commit_digest in
          node_try (verify_vote_blocks self end_commit_ref serialized_vote_blocks stake_aggregator_new [])
            (fun self '(stake_aggregator, vote_blocks) =>
               if negb (reached_threshold stake_aggregator (committee (co_context (vn_core self)))) then
                 Ok (self, Err (NotEnoughCommitVotes (agg_stake stake_aggregator) peer end_commit))
               else
                 Ok (self, Success (zip_with (fun dc s => trusted_commit_new_trusted default_hash dc.2 s) commits serialized_commits,
                                    vote_blocks)))
      end
  end.

(* ------------------------------------------------------------------ *)
(** ** Fetching *)

(** The blocks of one response, which must be the requested ones. *)
Fixpoint match_blocks (peer : PeerId) (request_block_refs : list BlockRef) (signed_blocks : list (SignedBlock * list byte))
    : ConsensusResult (list VerifiedBlock) :=
  match request_block_refs, signed_blocks with
  | requested :: request_block_refs, (signed_block, serialized) :: signed_blocks =>
      let received := mkBlockRef (round (inner signed_block)) (author (inner signed_block)) (default_hash serialized) in
      if negb (bool_decide (requested = received)) then Err (UnexpectedBlockForCommit peer requested received)
      else match match_blocks peer request_block_refs signed_blocks with
           | Success blocks => Success (verified_block_new_verified default_hash signed_block serialized :: blocks)
           | Err e => Err e
           end
  | _, _ => Success []
  end.

Definition fetch_chunk (peer : PeerId) (answers : PeerAnswers) (request_block_refs : list BlockRef)
    : ConsensusResult (list VerifiedBlock) :=
  match pa_fetch_blocks answers request_block_refs with
  | Err e => Err e
  | Success serialized_blocks =>
      if negb (length request_block_refs =? length serialized_blocks)%nat then
        Err (UnexpectedNumberOfBlocksFetched peer (N.of_nat (length request_block_refs)) (N.of_nat (length serialized_blocks)))
      else
        match collect_results (fun serialized =>
                match block_from_bytes serialized with Some block => Success block | None => Err MalformedBlock end)
                serialized_blocks with
        | Err e => Err e
        | Success signed_blocks => match_blocks peer request_block_refs (zip signed_blocks serialized_blocks)
        end
  end.

(** [slice.chunks(size)] *)
Fixpoint chunks_from {A} (fuel size : nat) (l : list A) : list (list A) :=
  match fuel, l with
  | Datatypes.S fuel, _ :: _ => take size l :: chunks_from fuel size (drop size l)
  | _, _ => []
  end.

Definition chunks {A} (size : N) (l : list A) : outcome (list (list A)) :=
  _ ← assert_that (negb (size =? 0));
  Ok (chunks_from (length l) (N.to_nat size) l).

(** Step 8: the time is read for each block, for a metric. *)
Definition check_drift self (peer : PeerId) (block : VerifiedBlock) : outcome (ValidatorNode S) :=
  timed ← node_timestamp_utc_ms self;
  let '(self, now_ms) := timed in
  if saturating_sub (timestamp_ms block) now_ms =? 0 then Ok self
  else match peer with
       | Validator index => _ ← committee_authority (committee (co_context (vn_core self))) index; Ok self
       | Observer _ => Ok self
       end.

(** Step 9: the blocks of each commit. *)
Definition assign_blocks (acc : gmap BlockRef VerifiedBlock * list CertifiedCommit) (commit : TrustedCommit)
    : outcome (gmap BlockRef VerifiedBlock * list CertifiedCommit) :=
  assigned ← foldM (fun acc block_ref =>
                      block ← unwrap (acc.1 !! block_ref);
                      Ok (delete block_ref acc.1, acc.2 ++ [block]))
               (commit_blocks commit) (acc.1, []);
  Ok (assigned.1, acc.2 ++ [mkCertifiedCommit commit assigned.2]).

(** Steps 10 to 12: votes and rounds of the fetched blocks. *)
Definition record_fetched self (certified_commits : list CertifiedCommit) (vote_blocks : list VerifiedBlock)
    : outcome (ValidatorNode S) :=
  let blocks := certified_commits ≫= cc_blocks in
  self ← (if transaction_voting_enabled (protocol_config (co_context (vn_core self)))
          then foldM (fun self block => node_add_voted_blocks self [(block, [])]) blocks self else Ok self);
  monitor ← foldM observe_block (blocks ++ vote_blocks) (vn_monitor self);
  foldM (fun self block => node_track_block self (mkExtendedBlock block [])) (blocks ++ vote_blocks) (set_monitor self monitor).

Definition fetch_once self (target_peer : PeerId) (commit_range : CommitRange) (answers : PeerAnswers)
    : outcome (ValidatorNode S * ConsensusResult CertifiedCommits) :=
  match pa_probe_connectivity answers with
  | Err e => Ok (self, Err e)
  | Success _ =>
      match pa_fetch_commits answers with
      | Err e => Ok (self, Err e)
      | Success (serialized_commits, serialized_blocks) =>
          node_try (verify_commits self target_peer commit_range serialized_commits serialized_blocks)
            (fun self '(commits, vote_blocks) =>
               let block_refs := stable_sort block_ref_leb (commits ≫= (fun c => commit_blocks c)) in
               requests ← chunks (max_blocks_per_fetch (parameters (co_context (vn_core self)))) block_refs;
               match collect_results (fetch_chunk target_peer answers) requests with
               | Err e => Ok (self, Err e)
               | Success fetched =>
                   let fetched_blocks : gmap BlockRef VerifiedBlock :=
                     foldl (fun m block => <[reference block := block]> m) ∅ (mjoin fetched) in
                   self ← foldM (fun self block => check_drift self target_peer block)
                            ((btree_map_iter fetched_blocks).*2 ++ vote_blocks) self;
                   assigned ← foldM assign_blocks commits (fetched_blocks, []);
                   self ← record_fetched self assigned.2 vote_blocks;
                   Ok (self, Success (mkCertifiedCommits assigned.2 vote_blocks))
               end)
      end
  end.

(* ------------------------------------------------------------------ *)
(** ** Sending commits to the core *)

(** Fetched ranges that leave no gap, in order; it ends when the core is gone. *)
Fixpoint send_fetched (fuel : nat) self (syncer : CommitSyncer) : outcome (ValidatorNode S * CommitSyncer) :=
  match fuel with
  | O => OutOfFuel
  | Datatypes.S fuel =>
      match btree_map_first (cy_fetched_ranges syncer) with
      | None => Ok (self, syncer)
      | Some (range, commits) =>
          let synced := cy_synced_commit_index syncer in
          if negb (range.1 <=? u32_add synced 1) then Ok (self, syncer)
          else
            let syncer := set_fetched_ranges syncer (delete range (cy_fetched_ranges syncer)) in
            if range.2 <=? synced then send_fetched fuel self syncer
            else
              sent ← node_dispatch bcs_to_bytes bcs_commit default_hash self (CommandAddCertifiedCommits commits);
              match sent.2 with
              | Err _ => Ok (sent.1, syncer)
              | Success missing =>
                  _ ← mapM (fun r => committee_authority (committee (co_context (vn_core sent.1))) (br_author r))
                        (btree_iter missing);
                  send_fetched fuel sent.1 (set_synced syncer (N.max synced range.2))
              end
      end
  end.

Definition handle_fetch_result self (syncer : CommitSyncer) (target_end : N) (certified_commits : CertifiedCommits)
    : outcome (ValidatorNode S * CommitSyncer) :=
  first ← unwrap (head (ccs_commits certified_commits));
  final ← unwrap (last (ccs_commits certified_commits));
  let commit_start := commit_index (cc_commit first) in
  let commit_end := commit_index (cc_commit final) in
  let synced := N.max (cy_synced_commit_index syncer) (last_commit_index (co_dag (vn_core self))) in
  let syncer :=
    mkCommitSyncer (cy_inflight_fetches syncer)
      (if commit_end <? target_end
       then {[range_key (commit_range_new (u32_add commit_end 1) target_end)]} ∪ cy_pending_fetches syncer
       else cy_pending_fetches syncer)
      (if synced <? commit_end
       then <[range_key (commit_range_new commit_start commit_end) := certified_commits]> (cy_fetched_ranges syncer)
       else cy_fetched_ranges syncer)
      (cy_highest_scheduled_index syncer) (N.max (cy_highest_fetched_commit_index syncer) commit_end) synced in
  send_fetched (Datatypes.S (size (cy_fetched_ranges syncer))) self syncer.

(* ------------------------------------------------------------------ *)
(** ** The loop *)

Inductive commit_syncer_event :=
  | ScheduleTick (highest_handled_index : N)
  | FetchAttempt (i : nat) (peer : PeerId) (answers : PeerAnswers).

(** One turn of [schedule_loop]; an attempt that fails leaves its fetch in
    flight, to be tried again. *)
Definition commit_syncer_step (context : Context) (known_peers_count : N) (state : ValidatorNode S * CommitSyncer) (e : commit_syncer_event)
    : outcome (ValidatorNode S * CommitSyncer) :=
  let '(self, syncer) := state in
  match e with
  | ScheduleTick highest_handled_index =>
      syncer ← try_schedule_once context syncer (quorum_commit_index context (vn_monitor self))
                 (last_commit_index (co_dag (vn_core self))) highest_handled_index;
      Ok (self, try_start_fetches context syncer known_peers_count)
  | FetchAttempt i peer answers =>
      match cy_inflight_fetches syncer !! i with
      | None => Ok (self, syncer)
      | Some range =>
          fetched ← fetch_once self peer (key_range range) answers;
          match fetched.2 with
          | Err _ => Ok (fetched.1, syncer)
          | Success certified_commits =>
              handled ← handle_fetch_result fetched.1
                          (mkCommitSyncer (delete i (cy_inflight_fetches syncer)) (cy_pending_fetches syncer)
                             (cy_fetched_ranges syncer) (cy_highest_scheduled_index syncer)
                             (cy_highest_fetched_commit_index syncer) (cy_synced_commit_index syncer))
                          range.2 certified_commits;
              Ok (handled.1, try_start_fetches context handled.2 known_peers_count)
          end
      end
  end.
End syncer.
