(* ===== verification/CommitSyncerSpec.v ===== *)
(** * What the commit syncer checks

    Lemmas on the parts of an attempt to fetch commits that do not touch the
    node: parsed commits form a chain, fetched blocks are the requested ones,
    and each commit gets its blocks. *)

From S2P Require Import Prelude Committee Context Block StakeAggregator ThresholdClock Commit CommitVoteMonitor Error RoundTracker Store LeaderScoring Ancestor TransactionConsumer DagState VoteTracker Linearizer CommitObserver BlockManager LeaderSchedule BlockVerifier BaseCommitter UniversalCommitter Core CoreThread ValidatorProposer AuthorityService CommitSyncer.

Section parsing.
Context (default_hash : list byte -> N) (commit_from_bytes : list byte -> option Commit).

(** Commits with their digests, decoded from bytes: consecutive from the start
    of the range on, up to its end, each with the digest of the one before. *)
Record parsed (range : CommitRange) (sers : list (list byte)) (commits : list (N * Commit)) : Prop := {
  ps_bytes : Forall2 (fun s dc => commit_from_bytes s = Some dc.2 /\ dc.1 = default_hash s) sers commits;
  ps_index : forall i dc, commits !! i = Some dc ->
    commit_index dc.2 = commit_range_start range + N.of_nat i /\ commit_index dc.2 <= commit_range_end range;
  ps_chain : forall i dc dc', commits !! i = Some dc -> commits !! Datatypes.S i = Some dc' ->
    commit_previous_digest dc'.2 = dc.1;
}.

Lemma parsed_nil range : parsed range [] [].
Proof. by constructor. Qed.

(** What is checked of the next commit is that it continues the chain. *)
Lemma check_next_iff peer range sers commits commit :
  parsed range sers commits -> commit_range_end range < u32_MAX ->
  check_next_commit peer range commits commit = Success tt
  <-> commit_index commit = commit_range_start range + N.of_nat (length commits)
      /\ forall dc, last commits = Some dc -> commit_previous_digest commit = dc.1.
Proof.
  intros P Hend. unfold check_next_commit. destruct (last commits) as [[d cm]|] eqn:El.
  - apply last_Some in El as [l ->]. destruct (ps_index _ _ _ P (length l) (d, cm)) as [Ei Hle].
    { by apply list_lookup_middle. }
    cbn [snd] in Ei, Hle. rewrite length_app, u32_add_small by lia. cbn [length].
    destruct (N.eqb_spec (commit_index commit) (commit_index cm + 1)) as [E1|E1],
      (N.eqb_spec (commit_previous_digest commit) d) as [E2|E2]; cbn [negb orb]; split.
    + intros _. split; [lia|]. by intros ? [= <-].
    + done.
    + done.
    + intros [_ Hd]. by specialize (Hd _ eq_refl).
    + done.
    + intros [? _]. lia.
    + done.
    + intros [? _]. lia.
  - apply last_None in El as ->. cbn [length]. destruct (N.eqb_spec (commit_index commit) (commit_range_start range)); split; try done.
    + intros _. split; [lia|done].
    + intros [? _]. lia.
Qed.

Lemma parsed_snoc range sers commits s commit :
  parsed range sers commits -> commit_from_bytes s = Some commit ->
  commit_index commit = commit_range_start range + N.of_nat (length commits) -> commit_index commit <= commit_range_end range ->
  (forall dc, last commits = Some dc -> commit_previous_digest commit = dc.1) ->
  parsed range (sers ++ [s]) (commits ++ [(default_hash s, commit)]).
Proof.
  intros [B I C] Es Ei Hle Hp. constructor.
  - apply Forall2_app; [done|]. by repeat constructor.
  - intros i dc [?|[Hi Hx]]%lookup_app_Some; [by apply I|]. apply list_lookup_singleton_Some in Hx as [Hz <-]. cbn [snd]. split; [|done].
    rewrite Ei. lia.
  - intros i dc dc' H1 [H2|[Hi Hx]]%lookup_app_Some.
    + rewrite lookup_app_l in H1 by (apply lookup_lt_Some in H2; lia). by apply (C i).
    + apply list_lookup_singleton_Some in Hx as [Hz <-]. simpl. apply Hp.
      rewrite lookup_app_l in H1 by lia. rewrite last_lookup. by replace (pred (length commits)) with i by lia.
Qed.

(** What comes after the commits within the range, if anything: it continues
    the chain past the end of the range. *)
Definition overruns (range : CommitRange) (commits : list (N * Commit)) (rest : list (list byte)) : Prop :=
  match rest with
  | [] => True
  | s :: _ =>
      exists commit, commit_from_bytes s = Some commit /\ commit_range_end range < commit_index commit
        /\ commit_index commit = commit_range_start range + N.of_nat (length commits)
        /\ forall dc, last commits = Some dc -> commit_previous_digest commit = dc.1
  end.

(** Parsing accepts only chains. *)
Lemma parse_commits_sound peer range sers' sers commits commits' :
  parsed range sers commits -> commit_range_end range < u32_MAX ->
  parse_commits default_hash commit_from_bytes peer range sers' commits = Success commits' ->
  exists k, parsed range (sers ++ take k sers') commits' /\ overruns range commits' (drop k sers').
Proof.
  revert sers commits. induction sers' as [|s sers' IH]; intros sers commits P Hend; cbn [parse_commits].
  { intros [= <-]. exists O. by rewrite app_nil_r. }
  destruct (commit_from_bytes s) as [commit|] eqn:Es; [|done].
  destruct (check_next_commit peer range commits commit) as [[]|] eqn:Ec; [|done].
  apply (check_next_iff peer range sers commits commit P Hend) in Ec as [Ei Hp].
  destruct (N.ltb_spec (commit_range_end range) (commit_index commit)) as [Hover|Hle].
  { intros [= <-]. exists O. rewrite app_nil_r. split; [done|]. by exists commit. }
  intros E. destruct (IH (sers ++ [s]) (commits ++ [(default_hash s, commit)])) as (k & Pk & Ho); [by apply parsed_snoc|done|done|].
  exists (Datatypes.S k). rewrite <-(assoc (++)) in Pk. by split.
Qed.

Lemma parsed_prefix range s1 s2 c1 c2 : length s1 = length c1 -> parsed range (s1 ++ s2) (c1 ++ c2) -> parsed range s1 c1.
Proof.
  intros Hl [B I C]. constructor.
  - apply Forall2_app_inv in B; [tauto|done].
  - intros i dc Hi. apply I. by apply lookup_app_l_Some.
  - intros i dc dc' H1 H2. apply (C i); by apply lookup_app_l_Some.
Qed.

(** And it accepts the chains, up to the end of the range. *)
Lemma parse_commits_complete peer range sers' rest sers commits commits' :
  length sers = length commits -> commit_range_end range < u32_MAX -> parsed range (sers ++ sers') (commits ++ commits') ->
  overruns range (commits ++ commits') rest ->
  parse_commits default_hash commit_from_bytes peer range (sers' ++ rest) commits = Success (commits ++ commits').
Proof.
  revert sers commits commits'. induction sers' as [|s sers' IH]; intros sers commits commits' Hlen Hend P Ho.
  { pose proof (Forall2_length _ _ _ (ps_bytes _ _ _ P)) as Hl. rewrite !length_app in Hl. simpl in *.
    destruct commits'; [|simpl in *; lia]. rewrite !app_nil_r in *. destruct rest as [|s rest]; [done|].
    destruct Ho as (commit & Es & Hover & Ei & Hp). cbn [app parse_commits]. rewrite Es.
    by rewrite (proj2 (check_next_iff peer range sers commits commit P Hend) (conj Ei Hp)), (proj2 (N.ltb_lt _ _) Hover). }
  pose proof (Forall2_length _ _ _ (ps_bytes _ _ _ P)) as Hl. rewrite !length_app in Hl.
  destruct commits' as [|[d commit] commits']; [simpl in *; lia|].
  assert (P0 : parsed range sers commits) by (by apply (parsed_prefix range sers (s :: sers') commits ((d, commit) :: commits'))).
  destruct (ps_index _ _ _ P (length commits) (d, commit)) as [Ei Hle]; [by apply list_lookup_middle|].
  pose proof (ps_bytes _ _ _ P) as Hb. apply Forall2_app_inv in Hb as [_ Hb]; [|done].
  apply Forall2_cons in Hb as [[Es Ed] _]. cbn [fst snd] in *. cbn [app parse_commits]. rewrite Es.
  rewrite (proj2 (check_next_iff peer range sers commits commit P0 Hend)).
  - rewrite (proj2 (N.ltb_ge _ _)) by done. rewrite (cons_middle (d, commit)), Ed, (assoc (++)).
    apply (IH (sers ++ [s])); [rewrite !length_app; simpl; lia|done|by rewrite <-!(assoc (++)), <-Ed|by rewrite <-(assoc (++)), <-Ed].
  - split; [done|]. intros dc El. apply last_Some in El as [l ->]. apply (ps_chain _ _ _ P (length l) dc (d, commit)).
    + rewrite <-(assoc (++)). by apply list_lookup_middle.
    + apply list_lookup_middle. rewrite length_app. simpl. lia.
Qed.

(** So it returns the longest chain that the bytes begin with. *)
Lemma parse_commits_iff peer range sers chain :
  commit_range_end range < u32_MAX ->
  parse_commits default_hash commit_from_bytes peer range sers [] = Success chain
  <-> exists k, parsed range (take k sers) chain /\ overruns range chain (drop k sers).
Proof.
  intros Hend. split.
  - intros E. by apply parse_commits_sound with (sers := []) in E; [|apply parsed_nil|].
  - intros (k & P & Ho). rewrite <-(take_drop k sers). by apply (parse_commits_complete peer range _ _ [] [] chain).
Qed.

(** Chains that end in commits of one digest are the same, from there back. *)
Lemma parsed_agree range1 range2 sers1 sers2 chain1 chain2 d cm1 cm2 :
  parsed range1 sers1 chain1 -> parsed range2 sers2 chain2 ->
  (forall s1 s2, s1 ∈ sers1 -> s2 ∈ sers2 -> default_hash s1 = default_hash s2 -> s1 = s2) ->
  last chain1 = Some (d, cm1) -> last chain2 = Some (d, cm2) ->
  forall n i j, (i + n + 1 = length chain1)%nat -> (j + n + 1 = length chain2)%nat -> sers1 !! i = sers2 !! j /\ chain1 !! i = chain2 !! j.
Proof.
  intros P1 P2 Hinj L1 L2.
  assert (Hget : forall i j, (i < length chain1)%nat -> (j < length chain2)%nat -> fst <$> chain1 !! i = fst <$> chain2 !! j ->
    sers1 !! i = sers2 !! j /\ chain1 !! i = chain2 !! j).
  { intros i j [[d1 c1] Ei]%lookup_lt_is_Some_2 [[d2 c2] Ej]%lookup_lt_is_Some_2 E. rewrite Ei, Ej in *. injection E as ->.
    destruct (Forall2_lookup_r _ _ _ _ _ (ps_bytes _ _ _ P1) Ei) as (s1 & E1 & B1 & D1).
    destruct (Forall2_lookup_r _ _ _ _ _ (ps_bytes _ _ _ P2) Ej) as (s2 & E2 & B2 & D2). cbn [fst snd] in *.
    assert (s1 = s2) as -> by (apply Hinj; [by eapply list_elem_of_lookup_2..|congruence]).
    split; congruence. }
  induction n as [|n IH]; intros i j Hi Hj.
  - apply Hget; [lia..|]. rewrite last_lookup in L1, L2.
    replace i with (pred (length chain1)) by lia. replace j with (pred (length chain2)) by lia. by rewrite L1, L2.
  - destruct (IH (Datatypes.S i) (Datatypes.S j)) as [_ E]; [lia..|]. apply Hget; [lia..|].
    destruct (lookup_lt_is_Some_2 chain1 i) as [x1 E1]; [lia|]. destruct (lookup_lt_is_Some_2 chain2 j) as [x2 E2]; [lia|].
    destruct (lookup_lt_is_Some_2 chain1 (Datatypes.S i)) as [y1 F1]; [lia|]. rewrite F1 in E. symmetry in E.
    rewrite E1, E2. simpl. f_equal. rewrite <-(ps_chain _ _ _ P1 i x1 y1 E1 F1). by rewrite <-(ps_chain _ _ _ P2 j x2 y1 E2 E).
Qed.
End parsing.

Section fetching.
Context (default_hash : list byte -> N) (block_from_bytes : list byte -> option SignedBlock).

(** The blocks that come back are the requested ones, decoded from the bytes. *)
Lemma match_blocks_sound peer refs signed blocks :
  length refs = length signed ->
  match_blocks default_hash peer refs signed = Success blocks ->
  reference <$> blocks = refs /\ blocks = (fun x => verified_block_new_verified default_hash x.1 x.2) <$> signed.
Proof.
  revert signed blocks. induction refs as [|r refs IH]; intros [|[sb bytes] signed] blocks Hl; simpl; try done; [by intros [= <-]|].
  case_bool_decide as E; simpl; [|done]. destruct (match_blocks _ _ _ _) as [rest|] eqn:Em; [|done]. intros [= <-].
  destruct (IH signed rest) as [IH1 IH2]; [simpl in Hl; lia|done|].
  split; [rewrite fmap_cons, IH1; by rewrite E|f_equal; exact IH2].
Qed.

Lemma match_blocks_complete peer blocks :
  Forall (fun b => b = verified_block_new_verified default_hash (vb_block b) (vb_serialized b)) blocks ->
  match_blocks default_hash peer (reference <$> blocks) ((fun b => (vb_block b, vb_serialized b)) <$> blocks) = Success blocks.
Proof.
  induction 1 as [|b blocks Hb _ IH]; [done|]. rewrite !fmap_cons. cbn [match_blocks]. rewrite IH.
  rewrite bool_decide_eq_true_2; [by rewrite <-Hb|]. rewrite Hb at 1. done.
Qed.

Lemma collect_results_Success {A B} (f : A -> ConsensusResult B) l l' :
  collect_results f l = Success l' <-> Forall2 (fun x y => f x = Success y) l l'.
Proof.
  revert l'. induction l as [|x l IH]; intros l'; simpl.
  { split; [by intros [= <-]|by inversion 1]. }
  destruct (f x) as [y|] eqn:Ex; [|split; [done|inversion 1; congruence]].
  destruct (collect_results f l) as [ys|] eqn:El; split.
  - intros [= <-]. constructor; [done|by apply IH].
  - inversion 1 as [|? y' ? ys' Hy Hys]; subst. apply IH in Hys. congruence.
  - done.
  - inversion 1 as [|? y' ? ys' Hy Hys]; subst. apply IH in Hys. congruence.
Qed.

(** A block that the hash of its bytes identifies. *)
Definition decoded (b : VerifiedBlock) : Prop :=
  exists bytes sb, block_from_bytes bytes = Some sb /\ b = verified_block_new_verified default_hash sb bytes.

Lemma fetch_chunk_sound peer answers refs blocks :
  fetch_chunk default_hash block_from_bytes peer answers refs = Success blocks -> reference <$> blocks = refs /\ Forall decoded blocks.
Proof.
  unfold fetch_chunk. destruct (pa_fetch_blocks answers refs) as [sers|]; [|done].
  destruct (Nat.eqb_spec (length refs) (length sers)) as [El|]; [|done]. simpl.
  destruct (collect_results _ sers) as [signed|] eqn:Es; [|done].
  apply collect_results_Success in Es. pose proof (Forall2_length _ _ _ Es).
  intros Hm. apply match_blocks_sound in Hm as [Hrefs ->]; [|rewrite length_zip; lia]. split; [done|].
  clear -Es. induction Es as [|s sb sers signed E _ IH]; constructor; [|done].
  exists s, sb. simpl in *. by destruct (block_from_bytes s); simplify_eq.
Qed.

Lemma fetch_chunk_complete peer answers blocks :
  pa_fetch_blocks answers (reference <$> blocks) = Success ((fun b => vb_serialized b) <$> blocks) ->
  Forall (fun b => b = verified_block_new_verified default_hash (vb_block b) (vb_serialized b)
                   /\ block_from_bytes (vb_serialized b) = Some (vb_block b)) blocks ->
  fetch_chunk default_hash block_from_bytes peer answers (reference <$> blocks) = Success blocks.
Proof.
  intros Ea Hb. unfold fetch_chunk. rewrite Ea, !length_fmap, Nat.eqb_refl. simpl.
  assert (Ec : collect_results (fun serialized =>
      match block_from_bytes serialized with Some block => Success block | None => Err MalformedBlock end)
      ((fun b => vb_serialized b) <$> blocks) = Success ((fun b => vb_block b) <$> blocks)).
  { apply collect_results_Success. clear Ea. induction Hb as [|b blocks [_ Hb] _ IH]; constructor; [|done]. by rewrite Hb. }
  rewrite Ec. replace (zip _ _) with ((fun b => (vb_block b, vb_serialized b)) <$> blocks)
    by (clear; induction blocks as [|b blocks IH]; [done|]; rewrite !fmap_cons; simpl; by rewrite <-IH).
  apply match_blocks_complete. eapply Forall_impl; [exact Hb|]. by intros b [? _].
Qed.

Lemma chunks_join {A} size (l : list A) : size <> 0 -> exists cs, chunks size l = Ok cs /\ mjoin cs = l
    /\ Forall (fun c => (length c <= N.to_nat size)%nat) cs.
Proof.
  intros Hs. unfold chunks. rewrite (proj2 (N.eqb_neq _ _) Hs). simpl. eexists. split; [done|].
  assert (Hn : (0 < N.to_nat size)%nat) by lia. revert Hn. generalize (N.to_nat size) as n. intros n Hn.
  assert (H : forall fuel (l : list A), (length l <= fuel)%nat ->
    mjoin (chunks_from fuel n l) = l /\ Forall (fun c => (length c <= n)%nat) (chunks_from fuel n l)).
  { induction fuel as [|fuel IH]; intros [|x k] Hk; simpl in *; try done; [lia|].
    destruct (IH (drop n (x :: k))) as [E F]; [rewrite length_drop; simpl; lia|]. split.
    - change (take n (x :: k) ++ mjoin (chunks_from fuel n (drop n (x :: k))) = x :: k). rewrite E. apply take_drop.
    - constructor; [rewrite length_take; lia|done]. }
  by apply H.
Qed.
End fetching.

(* ------------------------------------------------------------------ *)
(** ** The blocks of each commit *)

Definition by_reference (blocks : list VerifiedBlock) : gmap BlockRef VerifiedBlock :=
  foldl (fun m block => <[reference block := block]> m) ∅ blocks.

Lemma by_reference_lookup blocks r :
  match by_reference blocks !! r with
  | Some b => b ∈ blocks /\ reference b = r
  | None => r ∉ reference <$> blocks
  end.
Proof.
  unfold by_reference. rewrite (foldl_insert_lookup reference (fun b => b)).
  destruct (last _) as [b|] eqn:El.
  - apply last_Some in El as [l El]. assert (Hb : In b (List.filter (fun x => bool_decide (reference x = r)) blocks)).
    { rewrite El. apply in_app_iff. right. by left. }
    apply filter_In in Hb as [Hb Hr%bool_decide_eq_true]. split; [by apply list_elem_of_In|done].
  - apply last_None in El. rewrite lookup_empty. intros (b & -> & Hb)%list_elem_of_fmap.
    assert (Hf : In b (List.filter (fun x => bool_decide (reference x = reference b)) blocks)).
    { apply filter_In. split; [by apply list_elem_of_In|by apply bool_decide_eq_true]. }
    by rewrite El in Hf.
Qed.

Lemma assign_refs_Ok refs (m : gmap BlockRef VerifiedBlock) acc :
  NoDup refs -> (forall r, r ∈ refs -> exists b, m !! r = Some b /\ reference b = r) ->
  exists m' bs, foldM (fun acc block_ref => block ← unwrap (acc.1 !! block_ref); Ok (delete block_ref acc.1, acc.2 ++ [block]))
                  refs (m, acc) = Ok (m', acc ++ bs)
    /\ reference <$> bs = refs /\ (forall r, r ∉ refs -> m' !! r = m !! r) /\ forall b, b ∈ bs -> m !! reference b = Some b.
Proof.
  revert m acc. induction refs as [|r refs IH]; intros m acc Hnd Hm; simpl.
  { exists m, []. rewrite app_nil_r. split_and!; try done. intros b Hb. by apply not_elem_of_nil in Hb. }
  apply NoDup_cons in Hnd as [Hr Hnd]. destruct (Hm r (list_elem_of_here _ _)) as (b & Eb & Hb). rewrite Eb. simpl.
  destruct (IH (delete r m) (acc ++ [b]) Hnd) as (m' & bs & E & Hrefs & Hrest & Hbs).
  { intros r' Hr'. rewrite lookup_delete_ne by (by intros ->). by apply Hm, list_elem_of_further. }
  exists m', (b :: bs). split_and!.
  - rewrite E. by rewrite <-(assoc (++)).
  - rewrite fmap_cons. by rewrite Hrefs, Hb.
  - intros r' [Hne Hr']%not_elem_of_cons. rewrite Hrest by done. by rewrite lookup_delete_ne by done.
  - intros b' [->|Hb']%elem_of_cons; [by rewrite Hb|]. specialize (Hbs b' Hb').
    destruct (decide (reference b' = r)) as [E'|]; [by rewrite E', lookup_delete_eq in Hbs|by rewrite lookup_delete_ne in Hbs].
Qed.

Lemma assign_blocks_Ok (commits : list TrustedCommit) (m : gmap BlockRef VerifiedBlock) acc :
  NoDup (commits ≫= (fun c => commit_blocks c)) ->
  (forall r, r ∈ commits ≫= (fun c => commit_blocks c) -> exists b, m !! r = Some b /\ reference b = r) ->
  exists m' ccs, foldM assign_blocks commits (m, acc) = Ok (m', acc ++ ccs)
    /\ Forall2 (fun commit cc => cc_commit cc = commit /\ reference <$> cc_blocks cc = commit_blocks commit) commits ccs
    /\ forall b, b ∈ ccs ≫= cc_blocks -> m !! reference b = Some b.
Proof.
  revert m acc. induction commits as [|commit commits IH]; intros m acc Hnd Hm.
  { exists m, []. simpl. rewrite app_nil_r. split_and!; [done|done|]. intros b Hb. by apply not_elem_of_nil in Hb. }
  rewrite bind_cons in Hnd, Hm. apply NoDup_app in Hnd as (Hnd1 & Hdis & Hnd2).
  destruct (assign_refs_Ok (commit_blocks commit) m [] Hnd1) as (m1 & bs & E1 & Hrefs & Hrest & Hbs).
  { intros r Hr. apply Hm, elem_of_app. by left. }
  assert (Hm1 : forall r, r ∈ commits ≫= (fun c => commit_blocks c) -> m1 !! r = m !! r).
  { intros r Hr. apply Hrest. intros Hr'. by apply (Hdis r). }
  destruct (IH m1 (acc ++ [mkCertifiedCommit commit bs]) Hnd2) as (m2 & ccs & E2 & Hccs & Hin).
  { intros r Hr. rewrite Hm1 by done. apply Hm, elem_of_app. by right. }
  assert (E : assign_blocks (m, acc) commit = Ok (m1, acc ++ [mkCertifiedCommit commit bs])).
  { unfold assign_blocks. cbn [fst snd]. by rewrite E1. }
  exists m2, (mkCertifiedCommit commit bs :: ccs). split_and!.
  - cbn [foldM]. rewrite E. cbn [mbind outcome_bind]. rewrite E2. by rewrite <-(assoc (++)).
  - by constructor.
  - intros b. rewrite bind_cons. intros [Hb|Hb]%elem_of_app; [by apply Hbs|].
    rewrite <-Hm1; [by apply Hin|]. apply list_elem_of_bind in Hb as (cc & Hb & [i Hi]%list_elem_of_lookup_1).
    destruct (Forall2_lookup_r _ _ _ _ _ Hccs Hi) as (c & Hc & _ & Hr). apply list_elem_of_bind. exists c.
    split; [rewrite <-Hr; by apply list_elem_of_fmap_2|by eapply list_elem_of_lookup_2].
Qed.
