(* ===== verification/CommitSyncerSchedule.v ===== *)
(** * The schedule of the commit syncer

    The ranges that are pending, in flight or fetched: each scheduled commit is
    in exactly one of them until it is synced, so none is lost and none is
    fetched twice. *)

From S2P Require Import Prelude Committee Context Block StakeAggregator ThresholdClock Commit CommitVoteMonitor Error RoundTracker Store LeaderScoring Ancestor TransactionConsumer DagState VoteTracker Linearizer CommitObserver BlockManager LeaderSchedule BlockVerifier BaseCommitter UniversalCommitter Core CoreThread ValidatorProposer AuthorityService CommitSyncer CommitSyncerSpec.

(* ------------------------------------------------------------------ *)
(** ** Ranges *)

Definition in_range (i : N) (k : N * N) : bool := (k.1 <=? i) && (i <=? k.2).

(** How many of the ranges hold a commit. *)
Definition cover (i : N) (ranges : list (N * N)) : nat := length (List.filter (in_range i) ranges).

Definition syncer_ranges (self : CommitSyncer) : list (N * N) :=
  cy_inflight_fetches self ++ elements (cy_pending_fetches self) ++ (map_to_list (cy_fetched_ranges self)).*1.

Definition scheduled (self : CommitSyncer) : N := default 0 (cy_highest_scheduled_index self).

Definition commit_indices (commits : CertifiedCommits) : list N :=
  (fun cc => commit_index (cc_commit cc)) <$> ccs_commits commits.

(** The commits of a range, in order. *)
Definition indices_of (k : N * N) : list N := (fun i => k.1 + N.of_nat i) <$> seq 0 (N.to_nat (k.2 + 1 - k.1)).

Record sched_ok (context : Context) (limit : N) (self : CommitSyncer) : Prop := {
  sc_range : forall k, k ∈ syncer_ranges self -> 1 <= k.1 /\ k.1 <= k.2 /\ k.2 <= scheduled self;
  sc_once : forall i, (cover i (syncer_ranges self) <= 1)%nat;
  sc_all : forall i, 1 <= i <= scheduled self -> cy_synced_commit_index self < i -> cover i (syncer_ranges self) = 1%nat;
  sc_limit : scheduled self <= limit;
  sc_commits : forall k commits, cy_fetched_ranges self !! k = Some commits -> commit_indices commits = indices_of k;
  sc_parallel : N.of_nat (length (cy_inflight_fetches self)) <= N.max 1 (commit_sync_parallel_fetches (parameters context));
}.

Lemma cover_app i l1 l2 : cover i (l1 ++ l2) = (cover i l1 + cover i l2)%nat.
Proof. unfold cover. by rewrite List.filter_app, length_app. Qed.

Lemma cover_cons i k l : cover i (k :: l) = ((if in_range i k then 1 else 0) + cover i l)%nat.
Proof. unfold cover. simpl. by destruct (in_range i k). Qed.

Lemma cover_perm i l1 l2 : l1 ≡ₚ l2 -> cover i l1 = cover i l2.
Proof. unfold cover. induction 1; simpl; repeat case_match; simpl; congruence. Qed.

Lemma in_range_iff i k : in_range i k = true <-> k.1 <= i <= k.2.
Proof. unfold in_range. rewrite andb_true_iff, !N.leb_le. done. Qed.

Lemma in_range_spec i k : reflect (k.1 <= i <= k.2) (in_range i k).
Proof. apply iff_reflect. by rewrite in_range_iff. Qed.

Lemma cover_none i l : (forall k, k ∈ l -> ~ k.1 <= i <= k.2) -> cover i l = O.
Proof.
  induction l as [|k l IH]; intros Hl; [done|]. rewrite cover_cons, IH by (intros; apply Hl; by right).
  destruct (in_range i k) eqn:E; [|done]. apply in_range_iff in E. by destruct (Hl k (list_elem_of_here _ _)).
Qed.

Lemma cover_elem i k l : k ∈ l -> k.1 <= i <= k.2 -> (1 <= cover i l)%nat.
Proof.
  intros Hk Hi%in_range_iff. apply list_elem_of_split in Hk as (l1 & l2 & ->). rewrite cover_app, cover_cons, Hi. lia.
Qed.

(** Ranges matter up to their order. *)
Lemma sched_ok_perm context limit self self' :
  sched_ok context limit self -> syncer_ranges self' ≡ₚ syncer_ranges self ->
  cy_highest_scheduled_index self' = cy_highest_scheduled_index self ->
  cy_synced_commit_index self <= cy_synced_commit_index self' ->
  cy_fetched_ranges self' = cy_fetched_ranges self ->
  N.of_nat (length (cy_inflight_fetches self')) <= N.max 1 (commit_sync_parallel_fetches (parameters context)) ->
  sched_ok context limit self'.
Proof.
  intros [R Once A L C P] Hp Hh Hs Hf Hl. assert (Es : scheduled self' = scheduled self) by (unfold scheduled; by rewrite Hh).
  constructor; rewrite ?Es, ?Hf; try done.
  - intros k. rewrite Hp. apply R.
  - intros i. rewrite (cover_perm _ _ _ Hp). apply Once.
  - intros i Hi Hlt. rewrite (cover_perm _ _ _ Hp). apply A; [done|lia].
Qed.

Lemma sched_ok_new {S} context limit (dag : DagState S) : sched_ok context limit (commit_syncer_new dag).
Proof.
  assert (E : syncer_ranges (commit_syncer_new dag) = []) by (unfold syncer_ranges; simpl; by rewrite elements_empty, map_to_list_empty).
  constructor; rewrite ?E; unfold scheduled; simpl; try lia.
  - intros k Hk. by apply not_elem_of_nil in Hk.
  - intros i. unfold cover. simpl. lia.
  - intros k commits. by rewrite lookup_empty.
Qed.

(* ------------------------------------------------------------------ *)
(** ** Scheduling *)

Lemma set_synced_ok context limit self index :
  sched_ok context limit self -> cy_synced_commit_index self <= index -> sched_ok context limit (set_synced self index).
Proof. intros Hok Hle. by apply (sched_ok_perm context limit self); [..|apply Hok]. Qed.

(** A range after all those scheduled. *)
Lemma add_range_ok context limit self lo hi :
  sched_ok context limit self -> N.max (cy_synced_commit_index self) (scheduled self) + 1 = lo -> lo <= hi -> hi <= limit ->
  sched_ok context limit
    (mkCommitSyncer (cy_inflight_fetches self) ({[(lo, hi)]} ∪ cy_pending_fetches self) (cy_fetched_ranges self) (Some hi)
       (cy_highest_fetched_commit_index self) (cy_synced_commit_index self)).
Proof.
  intros [R Once A L C P] Hlo Hhi Hlim. set (self' := mkCommitSyncer _ _ _ _ _ _).
  assert (Hp : syncer_ranges self' ≡ₚ (lo, hi) :: syncer_ranges self).
  { unfold syncer_ranges, self'. simpl. rewrite elements_union_singleton; [solve_Permutation|].
    intros Hin. destruct (R (lo, hi)) as (_ & _ & Hle); [|simpl in *; lia].
    apply elem_of_app. right. apply elem_of_app. left. by apply elem_of_elements. }
  assert (Hnone : forall i, lo <= i -> cover i (syncer_ranges self) = O).
  { intros i Hi. apply cover_none. intros k (_ & _ & Hk)%R. lia. }
  constructor; try done.
  - intros k. rewrite Hp. intros [->|Hk]%elem_of_cons; unfold scheduled; simpl; [lia|]. apply R in Hk. lia.
  - intros i. rewrite (cover_perm _ _ _ Hp), cover_cons. destruct (in_range i (lo, hi)) eqn:E; [|apply Once].
    apply in_range_iff in E. simpl in E. rewrite Hnone by lia. lia.
  - intros i Hi Hlt. unfold scheduled in Hi. simpl in Hi, Hlt. rewrite (cover_perm _ _ _ Hp), cover_cons.
    destruct (in_range i (lo, hi)) eqn:E.
    + apply in_range_iff in E. simpl in E. rewrite Hnone by lia. lia.
    + assert (~ lo <= i) by (intros ?; assert (in_range i (lo, hi) = true) by (apply in_range_iff; simpl; lia); congruence).
      rewrite A; [done|lia|done].
Qed.

Lemma step_by_Ok first last step :
  step <> 0 -> exists l, step_by first last step = Ok l /\ forall i x, l !! i = Some x <-> x = first + N.of_nat i * step /\ x <= last.
Proof.
  intros Hs. unfold step_by. rewrite (proj2 (N.eqb_neq _ _) Hs). cbn [negb assert_that mbind outcome_bind]. eexists. split; [done|].
  intros i x. destruct (N.ltb_spec last first) as [|Hle]; [split; [done|intros [-> ?]; lia]|].
  rewrite list_lookup_fmap. pose proof (N.Div0.mul_div_le (last - first) step). split.
  - intros Hi. destruct (seq _ _ !! i) as [j|] eqn:Ej; [|done]. injection Hi as <-.
    apply lookup_seq in Ej as [-> Hj]. simpl. split; [done|].
    assert (N.of_nat i * step <= (last - first) / step * step) by (apply N.mul_le_mono_r; lia). lia.
  - intros [-> Hx]. assert (N.of_nat i <= (last - first) / step) by (apply N.div_le_lower_bound; lia).
    rewrite lookup_seq_lt by lia. done.
Qed.

(** The ranges are added one after the other, from the first commit that is
    neither synced nor scheduled. *)
Lemma schedule_ranges_ok context limit batch quorum handled prev_ends self start :
  sched_ok context limit self -> 0 < batch -> quorum <= limit -> limit + batch < u32_MAX ->
  N.max (cy_synced_commit_index self) (scheduled self) = start ->
  (forall i x, prev_ends !! i = Some x <-> x = start + N.of_nat i * batch /\ x <= quorum) ->
  sched_ok context limit (schedule_ranges batch quorum handled prev_ends self)
  /\ cy_synced_commit_index (schedule_ranges batch quorum handled prev_ends self) = cy_synced_commit_index self
  /\ N.min quorum handled < N.max (cy_synced_commit_index self) (scheduled (schedule_ranges batch quorum handled prev_ends self)) + batch.
Proof.
  intros Hok Hb Hq Hlim. revert self start Hok. induction prev_ends as [|x rest IH]; intros self start Hok Hstart Hx.
  { cbn [schedule_ranges]. split_and!; [done|done|]. enough (~ start <= quorum) by lia. intros Hle.
    by assert (Hz : [] !! 0%nat = Some start) by (apply Hx; split; [simpl; lia|done]). }
  destruct (proj1 (Hx O x) eq_refl) as [Ex Hxq]. rewrite N.mul_0_l, N.add_0_r in Ex. subst x.
  cbn [schedule_ranges]. rewrite !u32_add_small by lia.
  destruct (N.ltb_spec quorum (start + batch)) as [|Hle]; [split_and!; [done|done|lia]|].
  destruct (N.ltb_spec handled (start + batch)); [split_and!; [done|done|lia]|].
  assert (Ek : range_key (commit_range_new (start + 1) (start + batch)) = (start + 1, start + batch)).
  { unfold range_key, commit_range_new, commit_range_start, commit_range_end, u32_saturating_add, saturating_sub. simpl.
    f_equal. lia. }
  rewrite Ek. destruct (IH _ (start + batch) (add_range_ok context limit self (start + 1) (start + batch) Hok ltac:(lia) ltac:(lia) ltac:(lia)))
    as (H1 & H2 & H3); [unfold scheduled in *; simpl; lia| |by split_and!].
  intros i y. rewrite (Hx (Datatypes.S i) y : rest !! i = Some y <-> _). split; intros [-> ?]; (split; [lia|done]).
Qed.

Lemma try_schedule_ok context limit self quorum local handled :
  sched_ok context limit self -> commit_sync_batch_size (parameters context) <> 0 -> quorum <= limit ->
  limit + commit_sync_batch_size (parameters context) < u32_MAX ->
  exists self', try_schedule_once context self quorum local handled = Ok self' /\ sched_ok context limit self'
    /\ cy_synced_commit_index self' = N.max (cy_synced_commit_index self) local
    /\ N.min quorum (u32_add handled (unhandled_commits_threshold context))
       < N.max (cy_synced_commit_index self') (scheduled self') + commit_sync_batch_size (parameters context).
Proof.
  intros Hok Hb Hq Hlim. unfold try_schedule_once. set (self1 := set_synced self _).
  assert (Hok1 : sched_ok context limit self1) by (apply set_synced_ok; [done|lia]).
  destruct (step_by_Ok (N.max (cy_synced_commit_index self1) (default 0 (cy_highest_scheduled_index self1))) quorum
    (commit_sync_batch_size (parameters context)) Hb) as (l & E & Hl).
  rewrite E. cbn [mbind outcome_bind]. eexists. split; [done|].
  destruct (schedule_ranges_ok context limit (commit_sync_batch_size (parameters context)) quorum
    (u32_add handled (unhandled_commits_threshold context)) l self1 _ Hok1 ltac:(lia) Hq Hlim eq_refl Hl) as (H1 & H2 & H3).
  rewrite H2. by split_and!.
Qed.

Lemma try_start_ok context limit self peers :
  sched_ok context limit self ->
  sched_ok context limit (try_start_fetches context self peers)
  /\ cy_synced_commit_index (try_start_fetches context self peers) = cy_synced_commit_index self
  /\ cy_highest_scheduled_index (try_start_fetches context self peers) = cy_highest_scheduled_index self.
Proof.
  intros Hok. split; [|done]. unfold try_start_fetches. set (target := target_parallel_fetches context self peers).
  set (slots := N.to_nat _). set (started := take slots _).
  assert (Hsub : elements (cy_pending_fetches self) ≡ₚ started ++ elements (cy_pending_fetches self ∖ list_to_set started)).
  { assert (Hall : btree_iter (cy_pending_fetches self) ≡ₚ elements (cy_pending_fetches self)) by apply stable_sort_perm.
    assert (Hnd : NoDup started).
    { eapply sublist_NoDup; [apply btree_iter_NoDup|apply sublist_take]. }
    assert (Hin : forall x, x ∈ started -> x ∈ cy_pending_fetches self).
    { intros x Hx. apply elem_of_btree_iter. by apply (subseteq_take slots). }
    apply NoDup_Permutation; [apply NoDup_elements| |].
    - apply NoDup_app. split_and!; [done| |apply NoDup_elements]. intros x Hx Hx'.
      apply elem_of_elements, elem_of_difference in Hx' as [_ Hx']. by apply Hx', elem_of_list_to_set.
    - intros x. rewrite elem_of_app, !elem_of_elements, elem_of_difference, elem_of_list_to_set.
      destruct (decide (x ∈ started)) as [Hx|Hx]; [|tauto]. split; [by left|intros _; by apply Hin]. }
  apply (sched_ok_perm context limit self); simpl; try done.
  - unfold syncer_ranges. simpl. rewrite Hsub. solve_Permutation.
  - rewrite length_app. unfold started. rewrite length_take. pose proof (sc_parallel _ _ _ Hok) as Hp.
    assert (Ht : target <= N.max 1 (commit_sync_parallel_fetches (parameters context))).
    { unfold target, target_parallel_fetches. destruct (is_validator context); lia. }
    unfold slots, saturating_sub. lia.
Qed.

(* ------------------------------------------------------------------ *)
(** ** Results *)

(** Dropping a range that is synced. *)
Lemma drop_fetched_ok context limit self k commits index :
  sched_ok context limit self -> cy_fetched_ranges self !! k = Some commits ->
  cy_synced_commit_index self <= index -> k.2 <= index ->
  sched_ok context limit (set_synced (set_fetched_ranges self (delete k (cy_fetched_ranges self))) index).
Proof.
  intros [R Once A L C P] Hk Hle Hend. set (self' := set_synced _ _).
  assert (Hp : syncer_ranges self ≡ₚ k :: syncer_ranges self').
  { unfold syncer_ranges, self'. simpl. rewrite <-(map_to_list_delete _ _ _ Hk) at 1. simpl. solve_Permutation. }
  constructor; try done.
  - intros k' Hk'. apply R. rewrite Hp. by apply list_elem_of_further.
  - intros i. specialize (Once i). rewrite (cover_perm _ _ _ Hp), cover_cons in Once. lia.
  - intros i Hi Hlt. simpl in Hlt. specialize (A i Hi ltac:(lia)). rewrite (cover_perm _ _ _ Hp), cover_cons in A.
    destruct (in_range i k) eqn:E; [|lia]. apply in_range_iff in E. lia.
  - intros k' commits' Hk'. simpl in Hk'. apply lookup_delete_Some in Hk' as [_ Hk']. by apply (C k').
Qed.

(** The range of a fetch that is over becomes a fetched one and a pending one. *)
Lemma split_range_ok context limit self i k commits e index :
  sched_ok context limit self -> cy_inflight_fetches self !! i = Some k -> k.1 <= e -> e <= k.2 ->
  commit_indices commits = indices_of (k.1, e) -> cy_synced_commit_index self <= index ->
  sched_ok context limit
    (mkCommitSyncer (delete i (cy_inflight_fetches self))
       (if e <? k.2 then {[(e + 1, k.2)]} ∪ cy_pending_fetches self else cy_pending_fetches self)
       (if index <? e then <[(k.1, e) := commits]> (cy_fetched_ranges self) else cy_fetched_ranges self)
       (cy_highest_scheduled_index self) (N.max (cy_highest_fetched_commit_index self) e) index).
Proof.
  intros [R Once A L C P] Hi Hlo Hhi Hcommits Hindex. set (self' := mkCommitSyncer _ _ _ _ _ _).
  destruct k as [lo hi]. simpl in *.
  set (rest := delete i (cy_inflight_fetches self) ++ elements (cy_pending_fetches self) ++ (map_to_list (cy_fetched_ranges self)).*1).
  assert (Hp : syncer_ranges self ≡ₚ (lo, hi) :: rest).
  { unfold syncer_ranges, rest. by rewrite (delete_Permutation _ _ _ Hi) at 1. }
  assert (Hrange : 1 <= lo /\ lo <= hi /\ hi <= scheduled self) by (apply (R (lo, hi)); rewrite Hp; apply list_elem_of_here).
  assert (Hfresh : forall j k', lo <= j <= hi -> k' ∈ rest -> ~ k'.1 <= j <= k'.2).
  { intros j k' Hj Hk' Hjk. specialize (Once j). rewrite (cover_perm _ _ _ Hp), cover_cons in Once.
    rewrite (proj2 (in_range_iff j (lo, hi))) in Once by done. pose proof (cover_elem j k' rest Hk' Hjk). lia. }
  assert (Hrest : forall k', k' ∈ rest -> 1 <= k'.1 /\ k'.1 <= k'.2 /\ k'.2 <= scheduled self).
  { intros k' Hk'. apply R. rewrite Hp. by apply list_elem_of_further. }
  set (new := (if e <? hi then [(e + 1, hi)] else []) ++ (if index <? e then [(lo, e)] else [])).
  assert (Hp' : syncer_ranges self' ≡ₚ new ++ rest).
  { assert (E1 : elements (cy_pending_fetches self') ≡ₚ (if e <? hi then [(e + 1, hi)] else []) ++ elements (cy_pending_fetches self)).
    { simpl. destruct (N.ltb_spec e hi) as [Hlt|]; [|done]. apply elements_union_singleton. intros Hin.
      apply (Hfresh hi (e + 1, hi)); [lia| |simpl; lia]. unfold rest. rewrite !elem_of_app. right. left. by apply elem_of_elements. }
    assert (E2 : (map_to_list (cy_fetched_ranges self')).*1 ≡ₚ (if index <? e then [(lo, e)] else []) ++ (map_to_list (cy_fetched_ranges self)).*1).
    { simpl. destruct (index <? e); [|done]. rewrite map_to_list_insert; [done|].
      destruct (cy_fetched_ranges self !! (lo, e)) as [x|] eqn:E; [|done]. exfalso.
      apply (Hfresh lo (lo, e)); [lia| |simpl; lia]. unfold rest. rewrite !elem_of_app. do 2 right.
      apply list_elem_of_fmap. exists ((lo, e), x). split; [done|by apply elem_of_map_to_list]. }
    unfold syncer_ranges at 1. rewrite E1, E2. unfold new, rest. simpl. solve_Permutation. }
  assert (Hnew : forall j, (cover j new <= if in_range j (lo, hi) then 1 else 0)%nat
    /\ (lo <= j <= hi -> index < j -> cover j new = 1%nat)).
  { intros j. unfold new. destruct (N.ltb_spec e hi), (N.ltb_spec index e); cbn [app]; rewrite ?cover_cons; unfold cover; simpl;
      destruct (in_range_spec j (lo, hi)), (in_range_spec j (e + 1, hi)), (in_range_spec j (lo, e)); simpl in *; lia. }
  constructor; try done.
  - intros k'. rewrite Hp'. intros [Hk'|?]%elem_of_app; [|by apply Hrest]. change (scheduled self') with (scheduled self).
    unfold new in Hk'. apply elem_of_app in Hk'.
    destruct (N.ltb_spec e hi), (N.ltb_spec index e), Hk' as [Hk'|Hk']; try (by apply not_elem_of_nil in Hk');
      apply list_elem_of_singleton in Hk' as ->; simpl; lia.
  - intros j. rewrite (cover_perm _ _ _ Hp'), cover_app. specialize (Once j). rewrite (cover_perm _ _ _ Hp), cover_cons in Once.
    destruct (Hnew j) as [Hle _]. lia.
  - intros j Hj Hlt. simpl in Hlt. specialize (A j Hj ltac:(lia)). rewrite (cover_perm _ _ _ Hp), cover_cons in A.
    rewrite (cover_perm _ _ _ Hp'), cover_app. destruct (Hnew j) as [Hle Hone].
    destruct (in_range_spec j (lo, hi)) as [Hin|]; [rewrite (Hone Hin Hlt)|]; lia.
  - intros k' commits' Hk'. simpl in Hk'. destruct (index <? e); [|by apply (C k')].
    destruct (decide (k' = (lo, e))) as [->|Hne]; [|rewrite lookup_insert_ne in Hk' by done; by apply (C k')].
    rewrite lookup_insert_eq in Hk'. by injection Hk' as <-.
  - simpl. rewrite length_delete by (by eexists). lia.
Qed.

(** ** Steps *)

Section steps.
Context `{Rng} `{Crypto} `{TransactionVerifier} {S : Type} `{Store S}.
Context (bcs_to_bytes : SignedBlock -> list byte) (bcs_commit : Commit -> list byte) (default_hash : list byte -> N).
Context (block_from_bytes : list byte -> option SignedBlock) (commit_from_bytes : list byte -> option Commit).
Implicit Types self : ValidatorNode S.

Lemma node_try_Success {A B} (m : outcome (ValidatorNode S * ConsensusResult A)) (f : ValidatorNode S -> A -> outcome (ValidatorNode S * ConsensusResult B)) self b :
  node_try m f = Ok (self, Success b) -> exists self0 a, m = Ok (self0, Success a) /\ f self0 a = Ok (self, Success b).
Proof.
  unfold node_try. destruct m as [[self0 [a|e]]| |]; simpl; try done. by exists self0, a.
Qed.

(** Commits that were verified are consecutive from the start of the range. *)
Lemma verified_indices self self' peer range sers vsers commits votes :
  verify_commits default_hash block_from_bytes commit_from_bytes self peer range sers vsers = Ok (self', Success (commits, votes)) ->
  commit_range_end range < u32_MAX ->
  exists e, commit_range_start range <= e /\ e <= commit_range_end range
    /\ (fun c => commit_index c) <$> commits = indices_of (commit_range_start range, e).
Proof.
  unfold verify_commits. destruct (parse_commits _ _ _ _ _ _) as [parsed_commits|] eqn:Ep; [|done]. intros E Hend.
  apply parse_commits_sound with (sers := []) in Ep as (k & P & _); [|apply parsed_nil|done]. simpl in P.
  destruct (last parsed_commits) as [[d cm]|] eqn:El; [|done].
  apply node_try_Success in E as (self0 & [agg vote_blocks] & _ & E). destruct (negb _); [done|]. injection E as _ <- _.
  apply last_Some in El as [l Hl].
  destruct (ps_index _ _ _ _ _ P (length l) (d, cm)) as [Ei Hle]; [rewrite Hl; by apply list_lookup_middle|]. cbn [snd] in Ei, Hle.
  exists (commit_index cm). split_and!; [lia|done|].
  pose proof (Forall2_length _ _ _ (ps_bytes _ _ _ _ _ P)) as Hlen. rewrite length_take in Hlen.
  apply list_eq. intros i. unfold indices_of. cbn [fst snd].
  assert (Hll : length parsed_commits = Datatypes.S (length l)) by (rewrite Hl, length_app; simpl; lia).
  replace (N.to_nat (commit_index cm + 1 - commit_range_start range)) with (length parsed_commits) by lia.
  rewrite !list_lookup_fmap, lookup_zip_with.
  destruct (parsed_commits !! i) as [dc|] eqn:Edc.
  - pose proof (lookup_lt_Some _ _ _ Edc) as Hi. destruct (lookup_lt_is_Some_2 sers i) as [s Es]; [lia|]. rewrite Es. simpl.
    rewrite lookup_seq_lt by done. simpl. f_equal. by apply (ps_index _ _ _ _ _ P i).
  - apply lookup_ge_None in Edc. simpl. by rewrite lookup_seq_ge by done.
Qed.

Lemma assign_commits commits (acc : gmap BlockRef VerifiedBlock * list CertifiedCommit) r :
  foldM assign_blocks commits acc = Ok r -> cc_commit <$> r.2 = (cc_commit <$> acc.2) ++ commits.
Proof.
  revert acc. induction commits as [|commit commits IH]; intros acc; cbn [foldM].
  { intros [= <-]. by rewrite app_nil_r. }
  intros (acc' & E1 & E2)%bind_Ok. rewrite (IH acc' E2). unfold assign_blocks in E1.
  apply bind_Ok in E1 as ([m bs] & _ & [= <-]). simpl. by rewrite fmap_app, <-(assoc (++)).
Qed.

Lemma fetched_indices self self' peer range answers commits :
  fetch_once default_hash block_from_bytes commit_from_bytes self peer range answers = Ok (self', Success commits) ->
  commit_range_end range < u32_MAX ->
  exists e, commit_range_start range <= e /\ e <= commit_range_end range /\ commit_indices commits = indices_of (commit_range_start range, e).
Proof.
  unfold fetch_once. destruct (pa_probe_connectivity answers); [|done]. destruct (pa_fetch_commits answers) as [[sers vsers]|]; [|done].
  intros (self0 & [cs votes] & E & Ef)%node_try_Success Hend.
  destruct (verified_indices self self0 peer range sers vsers cs votes E Hend) as (e & Hlo & Hhi & Hcs). exists e. split_and!; [done..|].
  revert Ef. destruct (chunks _ _) as [requests| |]; simpl; try done. destruct (collect_results _ requests); [|done].
  destruct (foldM _ _ self0) as [self1| |]; simpl; try done.
  destruct (foldM assign_blocks cs _) as [assigned| |] eqn:Ea; simpl; try done. destruct (record_fetched _ _ _); simpl; try done.
  intros [= _ <-]. apply assign_commits in Ea. simpl in Ea. unfold commit_indices. simpl. rewrite <-Hcs, <-Ea.
  by rewrite <-list_fmap_compose.
Qed.

Lemma dispatch_Err_stops self self' command e :
  node_dispatch bcs_to_bytes bcs_commit default_hash self command = Ok (self', Err e) -> ct_running (vn_thread self') = false.
Proof.
  unfold node_dispatch. intros ([thread res] & E & [= <- Hres])%bind_Ok. simpl in Hres. subst res. revert E.
  unfold dispatch, core_thread_step. destruct (ct_running (vn_thread self)) eqn:Er; [|by intros [= <- _]].
  intros ([core res] & _ & E)%bind_Ok. simpl in E. destruct res as [reply|err]; [done|]. destruct err; try done. by injection E as <-.
Qed.

Lemma send_fetched_ok context limit fuel self syncer self' syncer' :
  sched_ok context limit syncer ->
  send_fetched bcs_to_bytes bcs_commit default_hash fuel self syncer = Ok (self', syncer') ->
  ct_running (vn_thread self') = true ->
  sched_ok context limit syncer'.
Proof.
  revert self syncer. induction fuel as [|fuel IH]; intros self syncer Hok; cbn [send_fetched]; [done|].
  destruct (btree_map_first (cy_fetched_ranges syncer)) as [[k commits]|] eqn:Ef; [|by intros [= _ <-]].
  destruct (k.1 <=? u32_add (cy_synced_commit_index syncer) 1); cbn [negb]; [|by intros [= _ <-]].
  assert (Hk : cy_fetched_ranges syncer !! k = Some commits).
  { apply elem_of_btree_map_iter. unfold btree_map_first in Ef. by apply head_Some_elem_of in Ef. }
  destruct (N.leb_spec k.2 (cy_synced_commit_index syncer)) as [Hle|Hlt].
  { apply IH. apply (drop_fetched_ok context limit syncer k commits (cy_synced_commit_index syncer)); [done..|lia|done]. }
  destruct (node_dispatch _ _ _ _ _) as [[self1 [missing|e]]| |] eqn:Ed; cbn [mbind outcome_bind fst snd]; try done.
  - destruct (mapM _ _); cbn [mbind outcome_bind]; try done. apply IH.
    apply (drop_fetched_ok context limit syncer k commits); [done..|lia|lia].
  - intros [= <- _] Hrun. apply dispatch_Err_stops in Ed. congruence.
Qed.

(** Each turn of the loop takes a range, so as many turns as there are ranges,
    and one more, are enough. *)
Lemma send_fetched_enough fuel more self syncer :
  (size (cy_fetched_ranges syncer) < fuel)%nat ->
  send_fetched bcs_to_bytes bcs_commit default_hash (fuel + more) self syncer
  = send_fetched bcs_to_bytes bcs_commit default_hash fuel self syncer.
Proof.
  revert self syncer. induction fuel as [|fuel IH]; intros self syncer Hf; [lia|]. cbn [Nat.add send_fetched].
  destruct (btree_map_first (cy_fetched_ranges syncer)) as [[k commits]|] eqn:Ef; [|done].
  assert (Hd : (size (delete k (cy_fetched_ranges syncer)) < fuel)%nat).
  { assert (Hk : cy_fetched_ranges syncer !! k = Some commits).
    { apply elem_of_btree_map_iter. unfold btree_map_first in Ef. by apply head_Some_elem_of in Ef. }
    pose proof (map_size_delete_Some k (cy_fetched_ranges syncer) (ex_intro _ commits Hk)).
    assert (size (cy_fetched_ranges syncer) <> O) by (apply map_size_non_empty_iff; intros E; by rewrite E, lookup_empty in Hk). lia. }
  destruct (negb _); [done|]. destruct (_ <=? _); [by apply IH|].
  destruct (node_dispatch _ _ _ _ _) as [[self1 [missing|e]]| |]; cbn [mbind outcome_bind fst snd]; try done.
  destruct (mapM _ _); cbn [mbind outcome_bind]; [by apply IH|done..].
Qed.

(** The states of a syncer while its core runs and the commits voted on stay
    within [limit]; the services change the node in between. *)
Inductive syncer_reachable (context : Context) (known_peers_count limit : N) : ValidatorNode S * CommitSyncer -> Prop :=
  | syncer_started self : syncer_reachable context known_peers_count limit (self, commit_syncer_new (co_dag (vn_core self)))
  | syncer_waited self self' syncer :
      syncer_reachable context known_peers_count limit (self, syncer) ->
      syncer_reachable context known_peers_count limit (self', syncer)
  | syncer_stepped st e st' :
      syncer_reachable context known_peers_count limit st -> quorum_commit_index context (vn_monitor st.1) <= limit ->
      commit_syncer_step bcs_to_bytes bcs_commit default_hash block_from_bytes commit_from_bytes context known_peers_count st e = Ok st' ->
      ct_running (vn_thread st'.1) = true ->
      syncer_reachable context known_peers_count limit st'.

Lemma indices_ends k commits first final :
  k.1 <= k.2 -> commit_indices commits = indices_of k ->
  unwrap (head (ccs_commits commits)) = Ok first -> unwrap (last (ccs_commits commits)) = Ok final ->
  commit_index (cc_commit first) = k.1 /\ commit_index (cc_commit final) = k.2.
Proof.
  intros Hle Hc Ef El. destruct k as [lo hi]. cbn [fst snd] in *.
  assert (Hget : forall i cc, ccs_commits commits !! i = Some cc -> commit_index (cc_commit cc) = lo + N.of_nat i).
  { intros i cc Hi. assert (Hx : commit_indices commits !! i = Some (commit_index (cc_commit cc))).
    { unfold commit_indices. by rewrite list_lookup_fmap, Hi. }
    rewrite Hc in Hx. unfold indices_of in Hx. cbn [fst snd] in Hx. rewrite list_lookup_fmap in Hx.
    destruct (seq _ _ !! i) as [j|] eqn:Ej; [|done]. apply lookup_seq in Ej as [-> _].
    change (Some (lo + N.of_nat i) = Some (commit_index (cc_commit cc))) in Hx. by apply (inj Some) in Hx. }
  assert (Hlen : length (ccs_commits commits) = N.to_nat (hi + 1 - lo)).
  { rewrite <-(length_fmap (fun cc => commit_index (cc_commit cc))). fold (commit_indices commits). rewrite Hc.
    unfold indices_of. by rewrite length_fmap, length_seq. }
  split.
  - rewrite (Hget O); [lia|]. destruct (ccs_commits commits); [done|]. by injection Ef as ->.
  - rewrite (Hget (pred (length (ccs_commits commits)))); [lia|]. rewrite <-last_lookup.
    destruct (last _); [by injection El as ->|done].
Qed.

Lemma handle_fetch_ok context limit self syncer i k commits e self' syncer' :
  sched_ok context limit syncer -> limit < u32_MAX -> cy_inflight_fetches syncer !! i = Some k -> k.1 <= e -> e <= k.2 ->
  commit_indices commits = indices_of (k.1, e) ->
  handle_fetch_result bcs_to_bytes bcs_commit default_hash self
    (mkCommitSyncer (delete i (cy_inflight_fetches syncer)) (cy_pending_fetches syncer) (cy_fetched_ranges syncer)
       (cy_highest_scheduled_index syncer) (cy_highest_fetched_commit_index syncer) (cy_synced_commit_index syncer))
    k.2 commits = Ok (self', syncer') ->
  ct_running (vn_thread self') = true -> sched_ok context limit syncer'.
Proof.
  intros Hok Hlim Hi Hlo Hhi Hc. unfold handle_fetch_result. intros (first & Ef & E)%bind_Ok. apply bind_Ok in E as (final & El & E).
  assert (Hk : k.2 <= limit).
  { etransitivity; [|apply (sc_limit _ _ _ Hok)]. apply (sc_range _ _ _ Hok). unfold syncer_ranges.
    apply elem_of_app. left. by eapply list_elem_of_lookup_2. }
  assert (Ek : forall a b, b < u32_MAX -> range_key (commit_range_new a b) = (a, b)).
  { intros a b Hb. unfold range_key, commit_range_new, commit_range_start, commit_range_end, u32_saturating_add, saturating_sub. simpl.
    f_equal. lia. }
  destruct (indices_ends (k.1, e) commits first final Hlo Hc Ef El) as [Efirst Efinal]. cbn [fst snd] in Efirst, Efinal.
  revert E. rewrite Efirst, Efinal, u32_add_small, !Ek by lia.
  cbn [cy_inflight_fetches cy_pending_fetches cy_fetched_ranges cy_highest_scheduled_index cy_highest_fetched_commit_index cy_synced_commit_index].
  intros E.
  apply (send_fetched_ok context limit _ _ _ _ _ (split_range_ok context limit syncer i k commits e _ Hok Hi Hlo Hhi Hc (N.le_max_l _ _)) E).
Qed.

Lemma syncer_reachable_ok context known_peers_count limit st :
  commit_sync_batch_size (parameters context) <> 0 -> limit + commit_sync_batch_size (parameters context) < u32_MAX ->
  syncer_reachable context known_peers_count limit st -> sched_ok context limit st.2.
Proof.
  intros Hb Hlim. induction 1 as [self|self self' syncer _ IH|[self syncer] e [self' syncer'] _ IH Hq E Hrun].
  - apply sched_ok_new.
  - exact IH.
  - simpl in *. destruct e as [handled|i peer answers]; simpl in E.
    + destruct (try_schedule_ok context limit syncer _ (last_commit_index (co_dag (vn_core self))) handled IH Hb Hq Hlim) as (s' & Es & Hs & _).
      rewrite Es in E. simpl in E. injection E as <- <-. by apply try_start_ok.
    + destruct (cy_inflight_fetches syncer !! i) as [k|] eqn:Ei; [|by injection E as <- <-].
      apply bind_Ok in E as ([self1 [commits|err]] & Ef & E); [|by injection E as <- <-]. simpl in E.
      apply bind_Ok in E as ([self2 syncer2] & Eh & [= <- <-]). simpl in *. apply try_start_ok.
      assert (Hk : 1 <= k.1 /\ k.1 <= k.2 /\ k.2 <= limit).
      { destruct (sc_range _ _ _ IH k) as (? & ? & ?); [|pose proof (sc_limit _ _ _ IH); lia].
        unfold syncer_ranges. apply elem_of_app. left. by eapply list_elem_of_lookup_2. }
      assert (Ee : commit_range_end (key_range k) = k.2).
      { unfold key_range, commit_range_new, commit_range_end, u32_saturating_add, saturating_sub. simpl. lia. }
      destruct (fetched_indices self self1 peer (key_range k) answers commits Ef) as (e & Hlo & Hhi & Hc); [rewrite Ee; lia|].
      rewrite Ee in Hhi. by apply (handle_fetch_ok context limit self1 syncer i k commits e self2 syncer2 IH ltac:(lia) Ei Hlo Hhi Hc Eh).
Qed.
End steps.
