(* ===== verification/ProposerAncestors.v ===== *)
(** * The ancestors of an own block

    What [smart_ancestors_to_propose] returns when the DAG state is live: it
    never panics, and what it returns, if anything, starts with the node's own
    last block, has one cached block, or genesis block, per author, all below
    the clock round, and a quorum of them in the round before. *)

From S2P Require Import Prelude Committee Context Block StakeAggregator ThresholdClock Commit Error RoundTracker Store LeaderScoring Ancestor TransactionConsumer DagState VoteTracker DagInv Evolve DagOps DagAccept LeaderSchedule BlockVerifier BaseCommitter UniversalCommitter Core ValidatorProposer.

(** The genesis blocks are kept in the order of their authors. *)
Definition genesis_ordered {S} (s : DagState S) : Prop :=
  author <$> (btree_map_iter (ds_genesis s)).*2 = N.of_nat <$> seq 0 (N.to_nat (committee_size (ds_committee s))).

(** A block that can be an ancestor of a block at [r]. *)
Definition usable {S} (s : DagState S) (r : N) (b : VerifiedBlock) : Prop :=
  round b < r /\ is_valid_index (ds_committee s) (author b) = true
  /\ (view s (reference b) = Some b \/ ds_genesis s !! reference b = Some b).

(** The latest included block of an author is below the own block that
    included it. *)
Definition included_below (c : Committee) (inc : list (option BlockRef)) (r : N) : Prop :=
  length inc = N.to_nat (committee_size c) /\ forall i x, inc !! i = Some (Some x) -> br_round x < r.

(** The manager of ancestor states and the round tracker of a node. *)
Definition manager_ok (context : Context) (m : AncestorStateManager) : Prop :=
  ancestor_inv m /\ am_context m = context
  /\ (length (scores_per_authority (propagation_scores m)) <= length (c_authorities (committee context)))%nat.

Definition tracker_ok (context : Context) (rt : RoundTracker) : Prop :=
  (exists seen, tracker_of (committee context) context seen rt)
  /\ square (committee context) (probed_accepted_rounds rt).

Lemma tracker_step_Ok (context : Context) rt b exc :
  tracker_ok context rt -> wf_block (committee context) b -> (forall x, x ∈ exc -> is_valid_index (committee context) (br_author x) = true) ->
  exists rt', update_from_verified_block rt (mkExtendedBlock b exc) = Ok rt' /\ tracker_ok context rt'.
Proof.
  intros [(seen & Htr) Hsq] Hwf Hexc.
  destruct (update_block_Ok (committee context) context seen rt (mkExtendedBlock b exc) Htr) as (rt' & E & Htr').
  { apply (wb_author _ _ Hwf). }
  { intros r [->|[Hr|Hr]%elem_of_app]%elem_of_cons; [apply (wb_author _ _ Hwf)|by apply (wb_anc _ _ Hwf)|by apply Hexc]. }
  exists rt'. split; [done|]. split; [by eexists|]. unfold update_from_verified_block in E.
  repeat outcome_step E. by subst rt'.
Qed.

Section last_cached.
Context {S : Type} `{Store S}.
Context (s : DagState S) (Hs : dag_inv s) (Hlive : live_inv s) (Hgen : genesis_ordered s).
Notation c := (ds_committee s).

(** The end of the range of rounds: above what may have been evicted. *)
Context (R : N) (HR0 : 0 < R) (HRgc : 1 < R -> gc_round s + 1 < R) (HR : R <= u32_MAX).

(* ------------------------------------------------------------------ *)
(** ** The last block of each authority *)

(** No cached block of [a] above the GC round and below [R] is later than
    [r]. *)
Definition latest_below (a r : N) : Prop :=
  forall x, is_Some (view s x) -> br_author x = a -> gc_round s < br_round x < R -> br_round x <= r.

Lemma genesis_lookup i b :
  (btree_map_iter (ds_genesis s)).*2 !! i = Some b ->
  author b = N.of_nat i /\ ds_genesis s !! reference b = Some b /\ round b = 0 /\ is_valid_index c (author b) = true.
Proof using Hs Hgen.
  clear HR HR0 HRgc. intros Hi. assert (author b = N.of_nat i /\ (i < N.to_nat (committee_size c))%nat) as [Ha Hlt].
  { assert ((author <$> (btree_map_iter (ds_genesis s)).*2) !! i = Some (author b)) as E
      by (by rewrite list_lookup_fmap, Hi).
    rewrite Hgen, list_lookup_fmap in E. apply fmap_Some in E as (j & Ej & ->).
    apply lookup_seq in Ej as [-> ?]. done. }
  apply list_elem_of_lookup_2, list_elem_of_fmap in Hi as ([r b'] & -> & Hin%elem_of_btree_map_iter).
  simpl in *. destruct (di_genesis_ref s Hs r b' Hin) as [<- Hr]. split_and!; [done..|].
  rewrite Ha. unfold is_valid_index. apply N.ltb_lt. lia.
Qed.

Lemma range_refs_spec a e refs :
  ds_recent_refs_by_authority s !! N.to_nat a = Some refs ->
  forall x, x ∈ reverse (btree_range (key_in (mkBlockRef (e + 1) a DIGEST_MIN) (mkBlockRef R a DIGEST_MIN)) refs)
    <-> is_Some (view s x) /\ br_author x = a /\ e < br_round x < R.
Proof using Hs.
  clear HR HR0 HRgc. intros Hrefs x. rewrite elem_of_reverse, elem_of_btree_range, (di_refs s Hs _ _ _ Hrefs), N2Nat.id. unfold key_in. simpl.
  rewrite andb_true_iff, negb_true_iff, <- not_true_iff_false, !block_ref_leb_spec. simpl. unfold DIGEST_MIN.
  split; [intros ([??] & ? & ?)|intros (? & ? & ?)]; split_and!; try done; lia.
Qed.

Lemma last_cached_Ok a fallback refs :
  is_valid_index c a = true -> ds_recent_refs_by_authority s !! N.to_nat a = Some refs -> 1 < R ->
  exists b eqs, last_cached_of_authority s R a fallback refs = Ok (b, eqs)
    /\ (forall x, x ∈ eqs -> br_author x = a) /\ latest_below a (round b)
    /\ (b = fallback \/ author b = a /\ usable s R b).
Proof using Hs Hlive HR HR0 HRgc.
  intros Ha Hrefs HR1. unfold last_cached_of_authority.
  assert (N.to_nat a < length (ds_evicted_rounds s))%nat as Hlt.
  { rewrite (di_evicted_len s Hs). apply N.ltb_lt in Ha. lia. }
  apply lookup_lt_is_Some in Hlt as [e He]. unfold vec_index. rewrite He. cbn [unwrap mbind outcome_bind].
  pose proof (lv_evicted s Hlive _ _ He) as Hle. pose proof (HRgc HR1) as Hgc.
  unfold saturating_sub. rewrite (proj2 (N.leb_gt _ _)) by lia. rewrite u32_add_small by lia.
  set (range := btree_range _ refs). pose proof (range_refs_spec a e refs Hrefs) as Hrange. fold range in Hrange.
  assert (key_leb (mkBlockRef (e + 1) a DIGEST_MIN) (mkBlockRef R a DIGEST_MIN) = true) as ->.
  { apply block_ref_leb_spec. simpl. lia. }
  cbn [assert_that mbind outcome_bind]. unfold last_and_equivocating.
  assert (StronglySorted (fun x y => key_leb y x = true) (reverse range)) as Hsort.
  { apply StronglySorted_reverse, list_filter_sorted, btree_iter_sorted. }
  destruct (reverse range) as [|x rest] eqn:Er.
  - exists fallback, []. split_and!; [done|by intros x ?%elem_of_nil| |by left].
    intros x Hx Hxa Hxr. exfalso. apply (not_elem_of_nil x), Hrange. split_and!; [done|done|lia|lia].
  - destruct (proj1 (Hrange x)) as ([b Hb] & Hxa & Hxr); [left|]. destruct (di_wf s Hs _ _ Hb) as [Href Hwf].
    pose proof Hb as Hb'. unfold view in Hb'. apply fmap_Some in Hb' as (bi & Ebi & ->). rewrite Ebi. cbn [unwrap mbind outcome_bind].
    exists (bi_block bi), (take_while (fun r' => br_round x <=? br_round r') rest). split_and!; [done| | |right].
    + intros y Hy. apply (proj1 (Hrange y)). right. clear -Hy. induction rest as [|z rest IH]; [done|]. simpl in Hy.
      destruct (_ <=? _); [|by apply elem_of_nil in Hy]. apply elem_of_cons in Hy as [->|Hy]; [left|right; by apply IH].
    + intros y Hy Hya Hyr. assert (y ∈ x :: rest) as Hin by (apply Hrange; split_and!; [done|done|lia|lia]).
      change (round (bi_block bi)) with (br_round (reference (bi_block bi))). rewrite Href.
      apply elem_of_cons in Hin as [->|Hin]; [done|]. apply block_ref_leb_round.
      inversion Hsort as [|? ? _ Hall]; subst. rewrite Forall_forall in Hall. by apply Hall.
    + assert (author (bi_block bi) = a) as Hba by (rewrite <- Hxa, <- Href; done). split; [done|].
      split_and!; [|by rewrite Hba|left; by rewrite Href].
      change (round (bi_block bi)) with (br_round (reference (bi_block bi))). rewrite Href. lia.
Qed.

(** One usable block per authority, the latest. *)
Lemma last_cached_per_authority_Ok :
  exists all, get_last_cached_block_per_authority s R = Ok all
    /\ length all = N.to_nat (committee_size c)
    /\ forall i b eqs, all !! i = Some (b, eqs) ->
         author b = N.of_nat i /\ usable s R b /\ latest_below (author b) (round b)
         /\ forall x, x ∈ eqs -> br_author x = author b.
Proof using Hs Hlive Hgen HR HR0 HRgc.
  unfold get_last_cached_block_per_authority, GENESIS_ROUND.
  rewrite (proj2 (N.eqb_neq R 0)) by lia.
  assert (length (btree_map_iter (ds_genesis s)).*2 = N.to_nat (committee_size c)) as Hlen.
  { rewrite <- (length_fmap author), Hgen, length_fmap, length_seq. done. }
  destruct (N.eqb_spec R (0 + 1)) as [HR1|HR1].
  { eexists. split; [done|]. split; [by rewrite length_fmap|]. intros i b eqs. rewrite list_lookup_fmap.
    intros (x & Hx & [= -> ->])%fmap_Some. destruct (genesis_lookup i x Hx) as (Ha & Hgx & Hrx & Hv).
    split_and!; [done|split_and!; [lia|done|by right]| |by intros y ?%elem_of_nil].
    intros y [by_ Hy] _ Hyr. pose proof (view_round s y by_ Hs Hy). lia. }
  match goal with |- exists all, mapM ?f ?l = _ /\ _ => set (g := f); set (L := l) end.
  assert (forall i fb refs, L !! i = Some (i, (fb, refs)) ->
    exists b eqs, g (i, (fb, refs)) = Ok (b, eqs) /\ author b = N.of_nat i /\ usable s R b
      /\ latest_below (author b) (round b) /\ forall x, x ∈ eqs -> br_author x = author b) as Hone.
  { intros i fb refs. unfold L. rewrite list_lookup_imap. intros (y & Hy & [= <-])%fmap_Some.
    apply lookup_zip_Some in Hy as [Hfb Hrefs]. destruct (genesis_lookup i fb Hfb) as (Ha & Hgx & Hrx & Hv).
    unfold g, to_authority_index. rewrite <- Ha. change (_ <? _) with (is_valid_index c (author fb)). rewrite Hv. cbn [unwrap mbind outcome_bind].
    destruct (last_cached_Ok (author fb) fb refs Hv) as (b & eqs & E & Heqs & Hl & Hb); [by rewrite Ha, Nat2N.id|lia|].
    exists b, eqs. destruct Hb as [->|[Hba Hu]].
    - split_and!; [done|done|split_and!; [lia|done|by right]|done|done].
    - rewrite Hba. split_and!; done. }
  assert (length L = N.to_nat (committee_size c)) as HL.
  { unfold L. rewrite length_imap, length_zip, Hlen, (di_refs_len s Hs). lia. }
  assert (forall i y, L !! i = Some y -> y.1 = i) as Hidx.
  { intros i y. unfold L. rewrite list_lookup_imap. by intros (z & _ & ->)%fmap_Some. }
  destruct (mapM_total g L) as [all E].
  { intros [i [fb refs]] (j & Hj)%list_elem_of_lookup. pose proof (Hidx j _ Hj) as Ei. simpl in Ei. subst j.
    destruct (Hone i fb refs Hj) as (b & eqs & E & _). by eexists. }
  exists all. split; [done|]. pose proof (mapM_inv g L all E) as Hall. split; [by rewrite <- (Forall2_length _ _ _ Hall)|].
  intros i b eqs Hi. destruct (Forall2_lookup_r _ _ _ _ _ Hall Hi) as ([j [fb refs]] & Hj & Ej).
  pose proof (Hidx i _ Hj) as Ei. simpl in Ei. subst j. destruct (Hone i fb refs Hj) as (b' & eqs' & E' & Hrest).
  rewrite E' in Ej. injection Ej as -> ->. done.
Qed.
End last_cached.

Section ancestors.
Context {S : Type} `{Store S}.
Context (s : DagState S) (Hs : dag_inv s) (Hlive : live_inv s) (Hgen : genesis_ordered s).
Notation c := (ds_committee s).
Notation R := (tc_round (ds_threshold_clock s)).
Context (HR : R < u32_MAX).

Lemma clock_positive : 0 < R.
Proof using Hlive. eapply N.le_lt_trans; [apply N.le_0_l|apply (lv_gc s Hlive)]. Qed.

(** The node's own last block, or its genesis block. *)
Record own_tip (last : VerifiedBlock) : Prop := {
  ot_last : validator_last_proposed_block s = Ok last;
  ot_valid : is_valid_index c (author last) = true;
  ot_author : author last = own_index (ds_context s);
  ot_block : view s (reference last) = Some last \/ ds_genesis s !! reference last = Some last;
  ot_max : forall x, is_Some (view s x) -> br_author x = own_index (ds_context s) -> br_round x <= round last;
}.

Lemma own_tip_Ok : is_validator (ds_context s) = true -> exists last, own_tip last.
Proof using Hs.
  clear HR. intros Hv. pose proof Hv as Hval. unfold is_validator in Hv. set (own := own_index (ds_context s)) in *.
  destruct (authority_refs s own Hs Hv) as (refs & Hrefs & Hin).
  destruct (get_last_block_Ok s own Hs Hv) as [b Eb].
  assert (validator_last_proposed_block s = Ok b) as E.
  { unfold validator_last_proposed_block, get_last_proposed_block. rewrite Hval. fold own. by rewrite Eb. }
  exists b. unfold get_last_block_for_authority, vec_index in Eb. rewrite Hrefs in Eb. cbn [unwrap mbind outcome_bind] in Eb.
  destruct (btree_last refs) as [r|] eqn:El.
  - destruct (btree_last_spec _ _ El) as [Hr Hmax]. destruct (proj1 (Hin r) Hr) as [Ha [x Hx]].
    pose proof Hx as Hx'. unfold view in Hx'. apply fmap_Some in Hx' as (bi & Ebi & ->). rewrite Ebi in Eb.
    cbn [unwrap mbind outcome_bind] in Eb. injection Eb as <-. destruct (di_wf s Hs _ _ Hx) as [Href _].
    assert (author (bi_block bi) = own) as Hba by (change (br_author (reference (bi_block bi)) = own); by rewrite Href).
    constructor; [done|by rewrite Hba|done|left; by rewrite Href|].
    intros y Hy Hya. change (round (bi_block bi)) with (br_round (reference (bi_block bi))). rewrite Href.
    apply block_ref_leb_round, Hmax, Hin. done.
  - apply bind_Ok in Eb as ([k g] & Eg & [= <-]). apply unwrap_Ok, head_Some_elem_of, list_elem_of_filter in Eg as [Ha Hg].
    apply elem_of_btree_map_iter in Hg. simpl in *. destruct (di_genesis_ref s Hs k g Hg) as [<- Hr].
    constructor; [done|by change (author g) with (br_author (reference g)); rewrite Ha|done|by right|]. apply btree_last_None in El. intros x Hx Hxa. exfalso.
    assert (x ∈ refs) as Hxin by (by apply Hin). rewrite El in Hxin. by apply elem_of_empty in Hxin.
Qed.

(* ------------------------------------------------------------------ *)
(** ** The passes *)

Section selection.
Context {CR : Crypto} (p : ValidatorProposer) (own_last : VerifiedBlock).
Context (Hctx : vp_context p = ds_context s) (Hown : own_tip own_last) (Hclock : round own_last < R).

(** A block of another author, newer than what own blocks include. *)
Definition newer (inc : list (option BlockRef)) (b : VerifiedBlock) : bool :=
  match inc !! N.to_nat (author b) with
  | Some (Some x) => br_round x <? round b
  | _ => true
  end.

Definition selectable (inc : list (option BlockRef)) (b : VerifiedBlock) : bool :=
  negb (author b =? own_index (ds_context s)) && newer inc b.

Lemma vec_valid {A} (l : list A) a :
  length l = N.to_nat (committee_size c) -> is_valid_index c a = true -> exists x, l !! N.to_nat a = Some x.
Proof using. clear. intros Hl Ha%N.ltb_lt. apply lookup_lt_is_Some. lia. Qed.

Lemma select_Ok states l : forall acc,
  length (vp_last_included_ancestors p) = N.to_nat (committee_size c) -> length states = N.to_nat (committee_size c) ->
  (forall b eqs, (b, eqs) ∈ l -> is_valid_index c (author b) = true) ->
  exists A P E, foldM (select_ancestor p states) l acc
      = Ok (mkSelection (sl_ancestors acc ++ A) (sl_pending acc ++ P) (sl_excluded acc ∪ E))
    /\ A ++ P.*2 ≡ₚ List.filter (selectable (vp_last_included_ancestors p)) l.*1
    /\ forall x, x ∈ E -> exists b eqs, (b, eqs) ∈ l /\ x ∈ eqs.
Proof using Hctx.
  clear HR Hclock. intros acc Hinc Hst. revert acc. induction l as [|[b eqs] l IH]; intros acc Hl.
  { exists [], [], ∅. cbn [foldM]. rewrite !app_nil_r, union_empty_r_L. split_and!; [by destruct acc|done|by intros ??%elem_of_empty]. }
  cbn [foldM select_ancestor fmap list_fmap fst List.filter]. rewrite Hctx.
  assert (is_valid_index c (author b) = true) as Hb by (apply (Hl b eqs); left).
  assert (forall acc' A0 P0 E0,
    acc' = mkSelection (sl_ancestors acc ++ A0) (sl_pending acc ++ P0) (sl_excluded acc ∪ E0) ->
    A0 ++ P0.*2 = (if selectable (vp_last_included_ancestors p) b then [b] else []) ->
    (forall x, x ∈ E0 -> x ∈ eqs) ->
    exists A P E, foldM (select_ancestor p states) l acc'
        = Ok (mkSelection (sl_ancestors acc ++ A) (sl_pending acc ++ P) (sl_excluded acc ∪ E))
      /\ A ++ P.*2 ≡ₚ (if selectable (vp_last_included_ancestors p) b
                       then b :: List.filter (selectable (vp_last_included_ancestors p)) l.*1
                       else List.filter (selectable (vp_last_included_ancestors p)) l.*1)
      /\ forall x, x ∈ E -> exists b' eqs', (b', eqs') ∈ (b, eqs) :: l /\ x ∈ eqs') as Hstep.
  { intros acc' A0 P0 E0 -> Hap HE0. destruct (IH (mkSelection (sl_ancestors acc ++ A0) (sl_pending acc ++ P0) (sl_excluded acc ∪ E0)))
      as (A & P & E & -> & Hperm & HE); [intros b' eqs' Hin; apply (Hl b' eqs'); by right|].
    exists (A0 ++ A), (P0 ++ P), (E0 ∪ E). cbn [sl_ancestors sl_pending sl_excluded]. rewrite !(assoc_L (++)), (assoc_L (∪)).
    split_and!; [done| |].
    - rewrite fmap_app, <- !(assoc_L (++)), (Permutation_app_swap_app A), (assoc (++)), Hap, Hperm.
      by destruct (selectable _ b).
    - intros x [Hx|Hx]%elem_of_union; [exists b, eqs; split; [left|by apply HE0]|].
      destruct (HE x Hx) as (b' & eqs' & ? & ?). exists b', eqs'. split; [by right|done]. }
  unfold selectable in Hstep at 1 2. unfold selectable at 1. destruct (author b =? own_index (ds_context s)); cbn [negb andb] in *.
  { apply (Hstep acc [] [] ∅); [rewrite !app_nil_r, union_empty_r_L; by destruct acc|done|by intros ??%elem_of_empty]. }
  destruct (vec_valid _ _ Hinc Hb) as [o Ho], (vec_valid _ _ Hst Hb) as [st Hsti].
  unfold vec_index. rewrite Ho, Hsti. unfold newer in *. rewrite Ho in *. cbn [unwrap mbind outcome_bind].
  assert (match o with Some x => round b <=? br_round x | None => false end
          = negb match o with Some x => br_round x <? round b | None => true end) as ->.
  { destruct o as [x|]; [|done]. by rewrite N.leb_antisym. }
  destruct (match o with Some x => br_round x <? round b | None => true end); cbn [negb].
  2:{ apply (Hstep acc [] [] ∅); [rewrite !app_nil_r, union_empty_r_L; by destruct acc|done|by intros ??%elem_of_empty]. }
  cbn [mbind outcome_bind]. destruct st as [|score].
  - apply (Hstep _ [b] [] (list_to_set eqs)); [by rewrite app_nil_r|done|by intros ??%elem_of_list_to_set].
  - apply (Hstep _ [] [(score, b)] (list_to_set eqs)); [by rewrite app_nil_r|done|by intros ??%elem_of_list_to_set].
Qed.

(** The authors of the blocks of [l] at round [q]. *)
Definition authors_of (q : N) (l : list VerifiedBlock) : gset N :=
  list_to_set (author <$> List.filter (fun b => round b =? q) l).

Lemma elem_of_authors_of q l a : a ∈ authors_of q l <-> exists b, b ∈ l /\ round b = q /\ author b = a.
Proof using.
  clear. unfold authors_of. rewrite elem_of_list_to_set, list_elem_of_fmap. setoid_rewrite list_filter_elem_of.
  setoid_rewrite N.eqb_eq. split; intros (b & ?); exists b; naive_solver.
Qed.

Lemma authors_of_app q l1 l2 : authors_of q (l1 ++ l2) = authors_of q l1 ∪ authors_of q l2.
Proof using. clear. unfold authors_of. by rewrite List.filter_app, fmap_app, list_to_set_app_L. Qed.

Lemma authors_of_perm q l1 l2 : l1 ≡ₚ l2 -> authors_of q l1 = authors_of q l2.
Proof using.
  clear. intros Hp. apply set_eq. intros a. rewrite !elem_of_authors_of. by setoid_rewrite Hp.
Qed.

Lemma count_parents_Ok q l :
  (forall b, b ∈ l -> is_valid_index c (author b) = true) ->
  exists agg, count_parents c q l = Ok agg /\ agg_wf c agg /\ votes agg = authors_of q l.
Proof using Hs.
  clear HR Hclock. intros Hl. unfold count_parents, authors_of.
  assert (forall x, x ∈ List.filter (fun a => round a =? q) l -> is_valid_index c (author x) = true) as Hv.
  { intros x [_ Hx]%list_filter_elem_of. by apply Hl. }
  revert Hv. generalize (List.filter (fun a => round a =? q) l) as k. clear l Hl. intros k Hk.
  enough (forall agg : StakeAggregator QuorumThreshold, agg_wf c agg -> exists agg', foldM (fun agg ancestor => fst <$> stake_aggregator_add agg (author ancestor) c) k agg
    = Ok agg' /\ agg_wf c agg' /\ votes agg' = votes agg ∪ list_to_set (author <$> k)) as Hgen'.
  { destruct (Hgen' stake_aggregator_new) as (agg & E & Hwf & Hvo); [by apply agg_new_wf, (di_committee s Hs)|].
    exists agg. split_and!; [done..|]. rewrite Hvo. simpl. by rewrite union_empty_l_L. }
  induction k as [|b k IH]; intros agg Hagg; cbn [foldM].
  { exists agg. split_and!; [done..|]. simpl. by rewrite union_empty_r_L. }
  destruct (add_Ok c (di_committee s Hs) agg (author b) Hagg) as (agg1 & -> & Hv1 & Hwf1); [apply Hk; left|].
  cbn [fmap outcome_fmap mbind outcome_bind fst]. destruct (IH (fun x Hx => Hk x (list_elem_of_further _ _ _ Hx)) agg1 Hwf1)
    as (agg' & E & Hwf & Hvo). exists agg'. split_and!; [done..|]. rewrite Hvo, Hv1, fmap_cons, list_to_set_cons.
  clear. set_solver.
Qed.

(** The pass stops adding parents once there is a quorum, and otherwise adds
    them all. *)
Lemma include_parents_Ok q l : forall (agg : StakeAggregator QuorumThreshold) anc exc,
  agg_wf c agg -> (forall x, x ∈ l.*2 -> is_valid_index c (author x) = true) ->
  exists agg' A E, foldM (include_parent c q) l (agg, anc, exc) = Ok (agg', anc ++ A, exc ++ E)
    /\ A ++ E.*2 ≡ₚ l.*2 /\ agg_wf c agg' /\ votes agg' = votes agg ∪ authors_of q A
    /\ (reached_threshold agg' c = true \/ forall x, x ∈ E.*2 -> round x <> q).
Proof using Hs.
  clear HR Hclock. induction l as [|[score b] l IH]; intros agg anc exc Hagg Hl; cbn [foldM].
  { exists agg, [], []. rewrite !app_nil_r. split_and!; [done..| |right; by intros ??%elem_of_nil].
    unfold authors_of. simpl. by rewrite union_empty_r_L. }
  assert (is_valid_index c (author b) = true) as Hb by (apply Hl; left).
  assert (forall x, x ∈ l.*2 -> is_valid_index c (author x) = true) as Hl' by (intros x Hx; apply Hl; by right).
  unfold include_parent at 2. destruct (committee_authority_Ok c _ Hb) as [au ->]. cbn [mbind outcome_bind].
  destruct (negb (reached_threshold agg c) && (round b =? q)) eqn:Eadd.
  - apply andb_true_iff in Eadd as [_ Hq].
    destruct (add_Ok c (di_committee s Hs) agg (author b) Hagg Hb) as (agg1 & -> & Hv1 & Hwf1). cbn [mbind outcome_bind fst].
    destruct (IH agg1 (anc ++ [b]) exc Hwf1 Hl') as (agg' & A & E & -> & Hp & Hwf & Hvo & Hend).
    exists agg', (b :: A), E. rewrite <- (assoc_L (++)). split_and!; [done|simpl; by rewrite Hp|done| |done].
    rewrite Hvo, Hv1. unfold authors_of. cbn [List.filter]. rewrite Hq, fmap_cons, list_to_set_cons. clear. set_solver.
  - cbn [mbind outcome_bind]. destruct (IH agg anc (exc ++ [(score, b)]) Hagg Hl') as (agg' & A & E & -> & Hp & Hwf & Hvo & Hend).
    exists agg', A, ((score, b) :: E). rewrite <- (assoc_L (++)). split_and!; [done| |done|done|].
    + simpl. by rewrite <- Permutation_middle, Hp.
    + apply andb_false_iff in Eadd as [Hreach%negb_false_iff|Hq%N.eqb_neq].
      * left. unfold reached_threshold in *. rewrite is_threshold_spec in *. rewrite (agg_exact _ _ Hagg) in Hreach.
        rewrite (agg_exact _ _ Hwf), Hvo. apply N.leb_le in Hreach. apply N.leb_le.
        etrans; [exact Hreach|]. apply stake_of_mono. clear. set_solver.
      * destruct Hend as [?|Hend]; [by left|]. right. intros x [->|Hx]%elem_of_cons; [done|by apply Hend].
Qed.

(** An earlier block of the author, in the range. *)
Lemma last_in_range_Ok a lo hi :
  is_valid_index c a = true ->
  exists o, get_last_cached_block_in_range s a lo hi = Ok o
    /\ forall b, o = Some b -> view s (reference b) = Some b /\ author b = a /\ lo <= round b < hi.
Proof using Hs.
  clear HR Hclock. intros Ha. unfold get_last_cached_block_in_range. destruct (N.leb_spec hi lo) as [Hle|Hlt]; [by exists None|].
  destruct (authority_refs s a Hs Ha) as (refs & Hrefs & Hin). unfold vec_index. rewrite Hrefs. cbn [unwrap mbind outcome_bind].
  eexists. split; [done|]. intros b. destruct (last _) as [r|] eqn:El; [|done]. cbn [mbind option_bind].
  intros Hb. change (view s r = Some b) in Hb. apply last_Some_elem_of, elem_of_btree_range in El as [Hk Hr].
  apply Hin in Hr as [Hra _]. destruct (di_wf s Hs _ _ Hb) as [<- _]. split_and!; [done|done|..];
    unfold key_in in Hk; simpl in Hk; apply andb_true_iff in Hk as [Hk1 Hk2];
    apply negb_true_iff, not_true_iff_false in Hk2; rewrite block_ref_leb_spec in Hk1, Hk2; simpl in *;
    unfold AUTHORITY_INDEX_ZERO, DIGEST_MIN in *; lia.
Qed.

(** What the pass adds: blocks of the excluded authors, newer than what own
    blocks include and below the clock round. *)
Record accepted_pass (l : list (N * VerifiedBlock)) (inc inc' : list (option BlockRef)) (A : list VerifiedBlock)
    (exc : gset BlockRef) : Prop := {
  ap_included : included_below c inc' R;
  ap_authors : (author <$> A) `sublist_of` (author <$> l.*2);
  ap_blocks : forall x, x ∈ A -> usable s R x /\ newer inc x = true;
  ap_excluded : forall x, x ∈ exc -> x ∈ reference <$> l.*2;
  ap_same : forall a, a ∉ author <$> l.*2 -> inc' !! N.to_nat a = inc !! N.to_nat a;
}.

Lemma accepted_skip l inc inc' A exc score b exc1 :
  accepted_pass l inc inc' A exc -> (forall x, x ∈ exc1 -> x = reference b) ->
  accepted_pass ((score, b) :: l) inc inc' A (exc1 ∪ exc).
Proof using.
  clear. intros [Hi Hsub HA He Hsame] He1. constructor; [done|by apply sublist_cons|done| |].
  - intros x [Hx|Hx]%elem_of_union; [rewrite (He1 x Hx); left|right; by apply He].
  - intros a Ha. apply Hsame. cbn in Ha. by apply not_elem_of_cons in Ha as [_ ?].
Qed.

Lemma accepted_take l inc inc' A exc score b exc1 x :
  accepted_pass l (<[N.to_nat (author b) := Some (reference x)]> inc) inc' A exc ->
  (forall y, y ∈ exc1 -> y = reference b) -> author b ∉ author <$> l.*2 ->
  author x = author b -> usable s R x -> newer inc x = true ->
  accepted_pass ((score, b) :: l) inc inc' (x :: A) (exc1 ∪ exc).
Proof using.
  clear. intros [Hi Hsub HA He Hsame] He1 Hnin Hxa Hxu Hxn. constructor; [done| | | |].
  - cbn. rewrite Hxa. by apply sublist_skip.
  - intros y [->|Hy]%elem_of_cons; [done|]. destruct (HA y Hy) as [Hu Hn]. split; [done|].
    unfold newer in *. rewrite list_lookup_insert_ne in Hn; [done|]. intros Heq%N2Nat.inj. apply Hnin. rewrite Heq.
    eapply elem_of_sublist; [|exact Hsub]. by apply list_elem_of_fmap_2.
  - intros y [Hy|Hy]%elem_of_union; [rewrite (He1 y Hy); left|right; by apply He].
  - intros a Ha. cbn in Ha. apply not_elem_of_cons in Ha as [Hne Ha]. rewrite Hsame by done.
    apply list_lookup_insert_ne. by intros Heq%N2Nat.inj.
Qed.

Lemma include_accepted_Ok (rounds : list QuorumRound) l : forall inc anc exc,
  length rounds = N.to_nat (committee_size c) -> included_below c inc R ->
  (forall x, x ∈ l.*2 -> usable s R x) -> NoDup (author <$> l.*2) ->
  exists inc' A exc', foldM (include_accepted s c (R - 1) rounds) l (inc, anc, exc) = Ok (inc', anc ++ A, exc ∪ exc')
    /\ accepted_pass l inc inc' A exc'.
Proof using Hs Hlive HR.
  clear Hclock. pose proof clock_positive as HR0. induction l as [|[score b] l IH]; intros inc anc exc Hrounds Hinc Hl Hnd; cbn [foldM].
  { exists inc, [], ∅. rewrite app_nil_r, union_empty_r_L. split; [done|].
    constructor; try done. by intros x ?%elem_of_nil. }
  cbn [fmap list_fmap snd] in Hnd. apply NoDup_cons in Hnd as [Hnin Hnd].
  destruct (Hl b) as (Hbr & Hba & Hbin); [left|].
  assert (forall x, x ∈ l.*2 -> usable s R x) as Hl' by (intros x Hx; apply Hl; by right).
  destruct (vec_valid _ _ Hrounds Hba) as [acc Hacc], (vec_valid _ _ (proj1 Hinc) Hba) as [o Ho].
  unfold include_accepted at 2. cbn [snd]. destruct (committee_authority_Ok c _ Hba) as [au ->]. unfold vec_index.
  rewrite Hacc, Ho. cbn [unwrap mbind outcome_bind]. set (incr := match o with Some x => br_round x | None => GENESIS_ROUND end).
  set (low := N.min acc.1 (R - 1)).
  assert (incr < R) as Hincr.
  { unfold incr. destruct o as [x|]; [by eapply (proj2 Hinc)|]. unfold GENESIS_ROUND. lia. }
  assert (forall exc1, (forall x, x ∈ exc1 -> x = reference b) ->
    exists inc' A exc', foldM (include_accepted s c (R - 1) rounds) l (inc, anc, exc ∪ exc1) = Ok (inc', anc ++ A, exc ∪ exc')
      /\ accepted_pass ((score, b) :: l) inc inc' A exc') as Hskip.
  { intros exc1 He1. destruct (IH inc anc (exc ∪ exc1) Hrounds Hinc Hl' Hnd) as (inc' & A & exc' & -> & Hp).
    exists inc', A, (exc1 ∪ exc'). rewrite (assoc_L (∪)). split; [done|]. by apply accepted_skip. }
  assert (forall x exc1, author x = author b -> usable s R x -> incr < round x -> (forall y, y ∈ exc1 -> y = reference b) ->
    exists inc' A exc', foldM (include_accepted s c (R - 1) rounds) l
        (<[N.to_nat (author b) := Some (reference x)]> inc, anc ++ [x], exc ∪ exc1) = Ok (inc', anc ++ A, exc ∪ exc')
      /\ accepted_pass ((score, b) :: l) inc inc' A exc') as Htake.
  { intros x exc1 Hxa Hxu Hxr He1.
    destruct (IH (<[N.to_nat (author b) := Some (reference x)]> inc) (anc ++ [x]) (exc ∪ exc1) Hrounds)
      as (inc' & A & exc' & -> & Hp); [|done|done|].
    { destruct Hinc as [Hlen Hb]. split; [by rewrite length_insert|]. intros i y.
      intros [(_ & [= <-] & _)|[_ ?]]%list_lookup_insert_Some; [apply Hxu|by eapply Hb]. }
    exists inc', (x :: A), (exc1 ∪ exc'). rewrite (assoc_L (∪)), <- (assoc_L (++)). split; [done|].
    apply accepted_take; try done. unfold newer. rewrite Hxa, Ho. destruct o; [|done]. by apply N.ltb_lt. }
  destruct (N.leb_spec (round b) incr) as [Hold|Hnew].
  { specialize (Hskip ∅). rewrite union_empty_r_L in Hskip. apply Hskip. by intros x ?%elem_of_empty. }
  destruct (N.leb_spec low incr) as [Hlow|Hlow].
  { cbn [mbind outcome_bind]. rewrite (comm_L (∪)). apply Hskip. by intros x ?%elem_of_singleton. }
  unfold vec_store. destruct (N.leb_spec (round b) low) as [Hacc'|Hacc']; cbn [mbind outcome_bind].
  { rewrite Ho. cbn [unwrap mbind outcome_bind]. specialize (Htake b ∅). rewrite union_empty_r_L in Htake.
    apply Htake; [done|by apply Hl; left|done|by intros x ?%elem_of_empty]. }
  rewrite !u32_add_small by lia. destruct (last_in_range_Ok (author b) (incr + 1) (low + 1) Hba) as (e & -> & He).
  cbn [mbind outcome_bind]. rewrite (comm_L (∪) {[reference b]}). destruct e as [x|].
  - destruct (He x eq_refl) as (Hx & Hxa & Hxr). rewrite Ho. cbn [unwrap mbind outcome_bind].
    apply Htake; [done| |lia|by intros y ?%elem_of_singleton]. split_and!; [lia|by rewrite Hxa|by left].
  - cbn [mbind outcome_bind]. apply Hskip. by intros x ?%elem_of_singleton.
Qed.

(* ------------------------------------------------------------------ *)
(** ** The choice *)

Lemma accepted_rounds_Ok rt :
  tracker_ok (ds_context s) rt ->
  exists rounds, compute_accepted_quorum_rounds rt = Ok rounds /\ length rounds = length (c_authorities c).
Proof using Hs.
  clear HR Hclock. intros [(seen & [Hc Hacc _]) Hsq]. unfold compute_accepted_quorum_rounds. rewrite Hc.
  destruct (quorum_rounds_Ok c _ _ (di_committee s Hs) (tracks_max c _ _ _ _ (square_tracks c _ Hsq) Hacc))
    as (rounds & E & Hl & _). by exists rounds.
Qed.

Lemma update_manager_Ok m clock rounds :
  manager_ok (ds_context s) m -> length rounds = length (c_authorities c) ->
  exists m', update_all_ancestors_state m clock rounds = Ok m' /\ manager_ok (ds_context s) m'.
Proof using.
  clear. intros (Hm & Hc & Hsc) Hr. destruct (update_Ok m clock rounds Hm) as (m' & E & Hm' & (C & _ & P) & _).
  { by rewrite Hc. }
  { by rewrite Hc. }
  exists m'. split; [done|]. split_and!; [done|congruence|by rewrite P].
Qed.

(** What an own block is built on. *)
Record ancestors_ok (inc : list (option BlockRef)) (anc : list VerifiedBlock) : Prop := {
  ao_head : exists rest, anc = own_last :: rest /\ forall x, x ∈ rest -> newer inc x = true;
  ao_authors : NoDup (author <$> anc);
  ao_usable : forall x, x ∈ anc -> usable s R x;
  ao_quorum : reached_quorum c (stake_of c (authors_of (R - 1) anc)) = true;
}.

(** The round before the clock has a quorum of blocks among the last ones. *)
Lemma candidates_quorum (all : list (VerifiedBlock * list BlockRef)) :
  included_below c (vp_last_included_ancestors p) (round own_last) ->
  length all = N.to_nat (committee_size c) ->
  (forall i b eqs, all !! i = Some (b, eqs) -> author b = N.of_nat i /\ usable s R b /\ latest_below s R (author b) (round b)) ->
  reached_quorum c (stake_of c (authors_of (R - 1)
    (own_last :: List.filter (selectable (vp_last_included_ancestors p)) all.*1))) = true.
Proof using Hs Hlive Hown Hclock.
  clear HR. intros [_ Hinc] Hlen Hall. pose proof clock_positive as HR0.
  assert (forall a b eqs, all !! N.to_nat a = Some (b, eqs) -> round b = R - 1 -> (a = own_index (ds_context s) -> round own_last = R - 1) ->
    a ∈ authors_of (R - 1) (own_last :: List.filter (selectable (vp_last_included_ancestors p)) all.*1)) as Hin.
  { intros a b eqs Hi Hr Hsame. destruct (Hall _ _ _ Hi) as (Ha & _). rewrite N2Nat.id in Ha. apply elem_of_authors_of.
    destruct (decide (a = own_index (ds_context s))) as [->|Hne].
    { exists own_last. split_and!; [left|by apply Hsame|apply (ot_author _ Hown)]. }
    exists b. split_and!; [|done|done]. right. apply list_filter_elem_of. split.
    - unfold selectable, newer. rewrite Ha, (proj2 (N.eqb_neq _ _)) by done. cbn [negb andb].
      destruct (vp_last_included_ancestors p !! N.to_nat a) as [[x|]|] eqn:Ex; [|done..].
      apply N.ltb_lt. specialize (Hinc _ _ Ex). lia.
    - apply (list_elem_of_fmap_2 fst _ (b, eqs)). by eapply list_elem_of_lookup_2. }
  assert (forall a, is_valid_index c a = true -> exists b eqs, all !! N.to_nat a = Some (b, eqs)) as Hget.
  { intros a Ha%N.ltb_lt. destruct (lookup_lt_is_Some_2 all (N.to_nat a)) as [[b eqs] E]; [lia|]. by exists b, eqs. }
  destruct (N.eq_dec R 1) as [HR1|HR1].
  - apply N.leb_le. pose proof (wf_quorum_le _ (di_committee s Hs)) as Hq. rewrite (wf_total _ (di_committee s Hs)) in Hq.
    etrans; [exact Hq|]. rewrite <- (weigh_all 0). apply N.eq_le_incl. unfold stake_of. apply weigh_ext. intros a _ Ha.
    symmetry. apply bool_decide_eq_true_2. unfold stakes in Ha. rewrite length_fmap in Ha.
    destruct (Hget a) as (b & eqs & E); [apply N.ltb_lt; unfold committee_size; lia|].
    destruct (Hall _ _ _ E) as (_ & (Hb & _) & _). apply (Hin a b eqs); [done|lia|]. intros _. lia.
  - assert (1 < R) as HR2 by lia. pose proof (lv_gc_below s Hlive HR2) as Hgc.
    eapply quorum_mono; [|by apply (lv_quorum s Hlive)]. intros a (x & [bx Hx] & Hxr & Hxa)%elem_of_cached_authors.
    destruct (di_wf s Hs _ _ Hx) as [Href Hwf].
    destruct (Hget a) as (b & eqs & E); [rewrite <- Hxa, <- Href; apply (wb_author _ _ Hwf)|].
    destruct (Hall _ _ _ E) as (Ha & (Hb & _) & Hlat). rewrite N2Nat.id in Ha.
    assert (br_round x <= round b) as Hle by (apply Hlat; [by eexists|congruence|lia]).
    apply (Hin a b eqs); [done|lia|]. intros Hao.
    assert (br_round x <= round own_last) as Ho by (apply (ot_max _ Hown); [by eexists|congruence]). lia.
Qed.

(** The candidates are blocks of distinct authors. *)
Lemma candidates_NoDup (all : list (VerifiedBlock * list BlockRef)) :
  (forall i b eqs, all !! i = Some (b, eqs) -> author b = N.of_nat i) ->
  NoDup (author <$> own_last :: List.filter (selectable (vp_last_included_ancestors p)) all.*1).
Proof using Hown.
  clear HR Hclock. intros Hall. cbn [fmap list_fmap]. apply NoDup_cons. split.
  - rewrite (ot_author _ Hown). intros (b & Ha & [Hb _]%list_filter_elem_of)%list_elem_of_fmap.
    unfold selectable in Hb. by rewrite <- Ha, N.eqb_refl in Hb.
  - assert (NoDup (author <$> all.*1)) as Hnd.
    { apply NoDup_alt. intros i j a. rewrite <- !list_fmap_compose, !list_lookup_fmap.
      intros ([b1 e1] & H1 & ->)%fmap_Some ([b2 e2] & H2 & E)%fmap_Some. simpl in E.
      rewrite (Hall _ _ _ H1), (Hall _ _ _ H2) in E. lia. }
    eapply sublist_NoDup; [exact Hnd|]. apply fmap_sublist. clear. induction all.*1 as [|x l IH]; [done|].
    cbn [List.filter]. destruct (selectable _ x); [by apply sublist_skip|by apply sublist_cons].
Qed.

(** The passes over the candidates [A] to include and [P] to keep out. *)
Lemma passes_Ok (rounds : list QuorumRound) A P exc :
  let inc := vp_last_included_ancestors p in
  length rounds = N.to_nat (committee_size c) -> included_below c inc R ->
  NoDup (author <$> own_last :: A ++ P.*2) -> (forall x, x ∈ own_last :: A ++ P.*2 -> usable s R x) ->
  (forall x, x ∈ A ++ P.*2 -> newer inc x = true) ->
  reached_quorum c (stake_of c (authors_of (R - 1) (own_last :: A ++ P.*2))) = true ->
  exists agg agg' B E inc' C exc',
    count_parents c (R - 1) (own_last :: A) = Ok agg
    /\ foldM (include_parent c (R - 1)) (stable_sort (fun a b => b.1 <=? a.1) P) (agg, own_last :: A, [])
       = Ok (agg', own_last :: A ++ B, E)
    /\ foldM (include_accepted s c (R - 1) rounds) E (inc, own_last :: A ++ B, exc)
       = Ok (inc', own_last :: A ++ B ++ C, exc ∪ exc')
    /\ reached_threshold agg' c = true /\ ancestors_ok inc (own_last :: A ++ B ++ C) /\ included_below c inc' R
    /\ forall x, x ∈ exc' -> is_valid_index c (br_author x) = true.
Proof using Hs Hlive HR.
  clear Hclock. intros inc Hrl Hinc Hnd Hus Hnew Hq.
  destruct (count_parents_Ok (R - 1) (own_last :: A)) as (agg & E1 & Hagg & Hvo).
  { intros x Hx. apply Hus. clear -Hx. set_solver. }
  assert ((stable_sort (fun a b => b.1 <=? a.1) P).*2 ≡ₚ P.*2) as Hsort by (by rewrite stable_sort_perm).
  destruct (include_parents_Ok (R - 1) (stable_sort (fun a b => b.1 <=? a.1) P) agg (own_last :: A) [] Hagg)
    as (agg' & B & E & E2 & Hp & Hagg' & Hvo' & Hend).
  { intros x. rewrite Hsort. intros Hx. apply Hus. clear -Hx. set_solver. }
  rewrite Hsort in Hp. rewrite <- Hp in Hnd. setoid_rewrite <- Hp in Hus. setoid_rewrite <- Hp in Hnew.
  rewrite (authors_of_perm _ _ (own_last :: A ++ B ++ E.*2)) in Hq by (by rewrite Hp).
  destruct (include_accepted_Ok rounds E inc (own_last :: A ++ B) exc Hrl Hinc) as (inc' & C & exc' & E3 & [Hi' Hsub HC Hexc _]).
  { intros x Hx. apply Hus. clear -Hx. set_solver. }
  { rewrite (assoc_L (++)), fmap_cons, fmap_app in Hnd. apply NoDup_cons in Hnd as [_ Hnd]. by apply NoDup_app in Hnd as (_ & _ & ?). }
  exists agg, agg', B, E, inc', C, exc'.
  assert (authors_of (R - 1) (own_last :: A ++ B) = votes agg') as Hauth.
  { rewrite Hvo', Hvo, <- authors_of_app. done. }
  assert (reached_threshold agg' c = true) as Hreach.
  { destruct Hend as [?|Hend]; [done|]. unfold reached_threshold. rewrite is_threshold_spec, (agg_exact _ _ Hagg').
    eapply (quorum_mono c); [|exact Hq]. rewrite <- Hauth. intros a (x & Hx & Hr & Ha)%elem_of_authors_of.
    apply elem_of_authors_of. exists x. split_and!; [|done|done]. rewrite (assoc_L (++)), app_comm_cons in Hx.
    apply elem_of_app in Hx as [?|Hx]; [done|]. by destruct (Hend x Hx). }
  split_and!; [done|done|by rewrite <- app_comm_cons, <- (assoc_L (++)) in E3|done| |done|].
  - constructor.
    + exists (A ++ B ++ C). split; [done|]. intros x Hx.
      assert (x ∈ C \/ x ∈ A ++ B ++ E.*2) as [?|?] by (clear -Hx; set_solver); [by apply HC|by apply Hnew].
    + eapply sublist_NoDup; [exact Hnd|]. rewrite !fmap_cons, !fmap_app. by repeat (apply sublist_skip || apply sublist_app).
    + intros x Hx.
      assert (x ∈ C \/ x ∈ own_last :: A ++ B ++ E.*2) as [?|?] by (clear -Hx; set_solver); [by apply HC|by apply Hus].
    + eapply quorum_mono; [|unfold reached_threshold in Hreach; rewrite is_threshold_spec, (agg_exact _ _ Hagg') in Hreach; exact Hreach].
      rewrite <- Hauth. intros a. rewrite !elem_of_authors_of. intros (x & Hx & ?). exists x. split; [|done].
      clear -Hx. set_solver.
  - intros x Hx. apply Hexc, list_elem_of_fmap in Hx as (b & -> & Hb). apply (Hus b). clear -Hb. set_solver.
Qed.

(** The choice never panics; without a quorum of parents it may choose none,
    unless the block is forced. *)
Lemma smart_ancestors_Ok smart :
  manager_ok (ds_context s) (vp_ancestor_state_manager p) -> tracker_ok (ds_context s) (vp_round_tracker p) ->
  included_below c (vp_last_included_ancestors p) (round own_last) ->
  exists m inc anc exc, smart_ancestors_to_propose p s R smart = Ok (set_last_included (set_manager p m) inc, anc, exc)
    /\ manager_ok (ds_context s) m /\ (forall x, x ∈ exc -> is_valid_index c (br_author x) = true)
    /\ ((anc = [] /\ smart = true /\ inc = vp_last_included_ancestors p)
        \/ included_below c inc R /\ ancestors_ok (vp_last_included_ancestors p) anc).
Proof using Hs Hlive Hgen HR Hctx Hown Hclock.
  intros Hm Hrt Hinc. unfold smart_ancestors_to_propose, saturating_sub. rewrite Hctx. change (committee (ds_context s)) with c.
  destruct (last_cached_per_authority_Ok s Hs Hlive Hgen R clock_positive (lv_gc_below s Hlive) ltac:(lia))
    as (all & -> & Hlen & Hall). cbn [mbind outcome_bind].
  rewrite (proj2 (N.eqb_eq _ _)) by (rewrite Hlen, N2Nat.id; done). cbn [assert_that mbind outcome_bind].
  destruct (accepted_rounds_Ok _ Hrt) as (rounds & -> & Hrl). cbn [mbind outcome_bind].
  destruct (update_manager_Ok _ R rounds Hm Hrl) as (m & -> & Hm'). cbn [mbind outcome_bind].
  rewrite (ot_last _ Hown). cbn [mbind outcome_bind].
  assert (forall x, x ∈ own_last :: List.filter (selectable (vp_last_included_ancestors p)) all.*1 -> usable s R x) as Hus.
  { intros x [->|[_ Hx]%list_filter_elem_of]%elem_of_cons.
    - split_and!; [done|apply (ot_valid _ Hown)|apply (ot_block _ Hown)].
    - apply list_elem_of_fmap in Hx as ([b eqs] & -> & (i & Hi)%list_elem_of_lookup). by apply (Hall i b eqs). }
  change (select_ancestor (set_manager p m)) with (select_ancestor p).
  destruct (select_Ok (get_ancestor_states m) all (mkSelection [own_last] [] ∅)) as (A & P & E & -> & Hperm & HE).
  { apply Hinc. }
  { unfold get_ancestor_states. rewrite length_fmap. destruct Hm' as (Hm' & Hmc & _).
    rewrite (an_length _ Hm'), Hmc. unfold committee_size. by rewrite Nat2N.id. }
  { intros b eqs (i & Hi)%list_elem_of_lookup. by apply (Hall i b eqs). }
  cbn [mbind outcome_bind sl_ancestors sl_pending sl_excluded app]. rewrite union_empty_l_L.
  assert (forall x, x ∈ E -> is_valid_index c (br_author x) = true) as HEv.
  { intros x Hx. destruct (HE x Hx) as (b & eqs & (i & Hi)%list_elem_of_lookup & Hxe).
    destruct (Hall i b eqs Hi) as (_ & (_ & Hv & _) & _ & Heq). by rewrite (Heq x Hxe). }
  pose proof (candidates_NoDup all ltac:(intros i b eqs Hi; by apply (Hall i b eqs Hi))) as Hnd.
  pose proof (candidates_quorum all Hinc Hlen ltac:(intros i b eqs Hi; by destruct (Hall i b eqs Hi) as (? & ? & ? & _))) as Hq.
  destruct (passes_Ok rounds A P E) as (agg & agg' & B & E' & inc' & C & exc' & -> & E2 & E3 & Hreach & Hok & Hi' & Hexc).
  { rewrite Hrl. unfold committee_size. by rewrite Nat2N.id. }
  { destruct Hinc as [? Hb]. split; [done|]. intros i x Hx. specialize (Hb i x Hx). lia. }
  { by rewrite Hperm. }
  { intros x. rewrite Hperm. apply Hus. }
  { intros x. rewrite Hperm. intros [Hx _]%list_filter_elem_of. by apply andb_true_iff in Hx as [_ ?]. }
  { erewrite authors_of_perm; [exact Hq|]. by rewrite Hperm. }
  cbn [mbind outcome_bind]. destruct (smart && negb (reached_threshold agg c)) eqn:Esm.
  { apply andb_true_iff in Esm as [-> _]. exists m, (vp_last_included_ancestors p), [], ∅.
    split_and!; [done|done|by intros x ?%elem_of_empty|by left]. }
  rewrite E2. cbn [mbind outcome_bind]. change (vp_last_included_ancestors (set_manager p m)) with (vp_last_included_ancestors p).
  rewrite E3. cbn [mbind outcome_bind]. rewrite Hreach. cbn [assert_that mbind outcome_bind].
  exists m, inc', (own_last :: A ++ B ++ C), (E ∪ exc'). split_and!; [done|done| |by right].
  intros x [?|?]%elem_of_union; [by apply HEv|by apply Hexc].
Qed.
End selection.
End ancestors.

(* ------------------------------------------------------------------ *)
(** ** The genesis blocks of a network *)

Section genesis.
Context (bcs_to_bytes : SignedBlock -> list byte) (default_hash : list byte -> N) (context : Context).
Notation gen := (genesis_map bcs_to_bytes default_hash context).
Notation c := (committee context).

Lemma genesis_map_block r b :
  gen !! r = Some b -> b ∈ genesis_blocks bcs_to_bytes default_hash context /\ reference b = r.
Proof.
  rewrite genesis_map_lookup. intros [Hr Hb]%last_Some_elem_of%list_filter_elem_of. by apply bool_decide_eq_true in Hr.
Qed.

Lemma genesis_block_author x y :
  x ∈ genesis_blocks bcs_to_bytes default_hash context -> y ∈ genesis_blocks bcs_to_bytes default_hash context ->
  author x = author y -> x = y.
Proof.
  unfold genesis_blocks. intros ([i au] & -> & _)%list_elem_of_fmap ([j av] & -> & _)%list_elem_of_fmap E.
  assert (i = j) as ->; [|done]. cbn in E. by destruct (transaction_voting_enabled _).
Qed.

Lemma genesis_map_digest r b :
  (forall bytes, default_hash bytes <= DIGEST_MAX) -> gen !! r = Some b -> br_digest r <= DIGEST_MAX.
Proof.
  intros Hh [Hb <-]%genesis_map_block. unfold genesis_blocks in Hb.
  apply list_elem_of_fmap in Hb as ([i au] & -> & _). apply Hh.
Qed.

Lemma genesis_map_sorted : author <$> (btree_map_iter gen).*2 = N.of_nat <$> seq 0 (N.to_nat (committee_size c)).
Proof.
  assert (author <$> (btree_map_iter gen).*2 = br_author <$> (btree_map_iter gen).*1) as ->.
  { rewrite <- !list_fmap_compose. apply list_fmap_ext. intros i [k v] Hi. simpl.
    apply list_elem_of_lookup_2, elem_of_btree_map_iter, genesis_map_block in Hi as [_ <-]. done. }
  assert (forall k, k ∈ (btree_map_iter gen).*1 -> exists b, gen !! k = Some b) as Hin.
  { intros k ([k' b] & -> & Hk)%list_elem_of_fmap. exists b. by apply elem_of_btree_map_iter. }
  apply (StronglySorted_unique N.le).
  - pose proof (btree_map_iter_sorted gen) as Hsort. revert Hin Hsort.
    induction (btree_map_iter gen).*1 as [|k l IH]; intros Hin Hsort; [constructor|].
    apply StronglySorted_inv in Hsort as [Hsort Hall]. constructor; [apply IH; [|done]; intros x Hx; apply Hin; by right|].
    rewrite Forall_forall in Hall. apply Forall_forall. intros a (k' & -> & Hk')%list_elem_of_fmap.
    destruct (Hin k ltac:(left)) as [b Hb], (Hin k' ltac:(by right)) as [b' Hb'].
    apply genesis_map_ref in Hb as [_ Hr]. apply genesis_map_ref in Hb' as [_ Hr'].
    specialize (Hall k' Hk'). apply block_ref_leb_spec in Hall. lia.
  - generalize 0%nat as i. induction (N.to_nat (committee_size c)) as [|n IH]; intros i; [constructor|]. constructor; [apply IH|].
    apply Forall_forall. intros x (j & -> & Hj%elem_of_seq)%list_elem_of_fmap. lia.
  - apply NoDup_Permutation.
    + apply NoDup_fmap_2_strong; [|apply btree_map_iter_NoDup]. intros x y Hx Hy E.
      destruct (Hin x Hx) as [bx Hbx], (Hin y Hy) as [by_ Hby].
      apply genesis_map_block in Hbx as [Hbx <-]. apply genesis_map_block in Hby as [Hby <-].
      by rewrite (genesis_block_author bx by_ Hbx Hby E).
    + apply NoDup_fmap; [by intros ?? ?%Nat2N.inj|apply NoDup_seq].
    + intros a. rewrite !list_elem_of_fmap. split.
      * intros (k & -> & Hk). destruct (Hin k Hk) as [b Hb]. apply genesis_map_block in Hb as [Hb <-].
        apply genesis_block_ref in Hb as [_ Hv%N.ltb_lt]. exists (N.to_nat (author b)).
        rewrite N2Nat.id, elem_of_seq. split; [done|]. lia.
      * intros (i & -> & Hi%elem_of_seq). destruct (genesis_map_author bcs_to_bytes default_hash context (N.of_nat i)) as (r & b & Hb & Ha).
        { apply N.ltb_lt. lia. }
        exists r. split; [done|]. apply (list_elem_of_fmap_2 fst _ (r, b)). by apply elem_of_btree_map_iter.
Qed.
End genesis.
