(* ===== verification/CommitRule.v ===== *)
(** * The commit rule on one view of the DAG

    What the base committer computes, in terms of votes and certificates: a
    block of round [r + 1] votes for a leader block of round [r] when it links
    to it, a block of round [r + 2] certifies it when its ancestors hold votes
    of a quorum.  Every operation of the committer returns (no panic, enough
    fuel), and returns what these definitions say. *)

From S2P Require Import Prelude Committee Context Block StakeAggregator ThresholdClock Commit Store LeaderScoring DagState DagInv LeaderSchedule BaseCommitter.

Definition vote (x l : VerifiedBlock) : bool :=
  (round x =? round l + 1) && bool_decide (reference l ∈ ancestors x).

Section rule.
Context {S : Type} `{StoreLaws S}.
Implicit Types s : DagState S.

(** Whether the block at a reference, if it is cached, votes for [l]. *)
Definition vote_ref s (l : VerifiedBlock) (r : BlockRef) : bool :=
  match view s r with Some x => vote x l | None => false end.

Definition cert_voters s (y l : VerifiedBlock) : gset N :=
  list_to_set (br_author <$> List.filter (vote_ref s l) (ancestors y)).

Definition is_cert (c : Committee) s (y l : VerifiedBlock) : bool :=
  reached_quorum c (stake_of c (cert_voters s y l)).

(** The cached blocks of a round. *)
Definition blocks_at s (r : N) : list VerifiedBlock :=
  List.filter (fun x => round x =? r) ((fun kv => bi_block kv.2) <$> map_to_list (ds_recent_blocks s)).

Definition authors_where s (r : N) (P : VerifiedBlock -> bool) : gset N :=
  list_to_set (author <$> List.filter P (blocks_at s r)).

Definition blames (a : N) (x : VerifiedBlock) : bool :=
  forallb (fun r => negb (br_author r =? a)) (ancestors x).

Definition blamers s (slot : Slot) : gset N :=
  authors_where s (s_round slot + 1) (blames (s_authority slot)).

Definition supporters (c : Committee) s (l : VerifiedBlock) : gset N :=
  authors_where s (round l + 2) (fun y => is_cert c s y l).

(** The stake of the blocks of a round, each block counted. *)
Definition round_stake (c : Committee) s (r : N) : N :=
  sum_N ((fun x => stake_at c (author x)) <$> blocks_at s r).

Lemma elem_of_blocks_at s r x :
  dag_inv s -> x ∈ blocks_at s r <-> view s (reference x) = Some x /\ round x = r.
Proof.
  intros Hs. unfold blocks_at. rewrite list_filter_elem_of, N.eqb_eq, list_elem_of_fmap. split.
  - intros [Hr ([k bi] & -> & Hk%elem_of_map_to_list)]. split; [|done]. simpl.
    assert (view s k = Some (bi_block bi)) as Hv by (unfold view; by rewrite Hk).
    by rewrite (proj1 (di_wf s Hs _ _ Hv)).
  - intros [Hv Hr]. split; [done|]. unfold view in Hv. apply fmap_Some in Hv as (bi & Hbi & ->).
    exists (reference (bi_block bi), bi). split; [done|]. by apply elem_of_map_to_list.
Qed.

Lemma elem_of_authors_where s r P a :
  dag_inv s ->
  a ∈ authors_where s r P
  <-> exists x, view s (reference x) = Some x /\ round x = r /\ P x = true /\ author x = a.
Proof.
  intros Hs. unfold authors_where. rewrite elem_of_list_to_set, list_elem_of_fmap.
  setoid_rewrite list_filter_elem_of. setoid_rewrite (elem_of_blocks_at s r _ Hs). naive_solver.
Qed.

Lemma elem_of_cert_voters s y l a :
  a ∈ cert_voters s y l
  <-> exists r x, r ∈ ancestors y /\ br_author r = a /\ view s r = Some x /\ vote x l = true.
Proof.
  unfold cert_voters. rewrite elem_of_list_to_set, list_elem_of_fmap.
  setoid_rewrite list_filter_elem_of. unfold vote_ref. split.
  - intros (r & -> & Hv & Hr). destruct (view s r) as [x|] eqn:E; [|done]. by exists r, x.
  - intros (r & x & Hr & <- & E & Hv). exists r. rewrite E. done.
Qed.

Lemma vote_spec x l : vote x l = true <-> round x = round l + 1 /\ reference l ∈ ancestors x.
Proof. unfold vote. by rewrite andb_true_iff, N.eqb_eq, bool_decide_eq_true. Qed.

(** ** Votes *)

Lemma find_in_ancestors_low rec s slot refs :
  (forall r, r ∈ refs -> br_round r <= s_round slot) ->
  find_in_ancestors rec s slot refs
  = Ok (head (filter (fun r => slot_of_ref r = slot) refs)).
Proof.
  induction refs as [|r refs IH]; intros Hr; [done|]. simpl. rewrite filter_cons.
  case_bool_decide as E; case_decide; try done.
  rewrite (proj2 (N.leb_le _ _)) by (apply Hr; set_solver). apply IH. set_solver.
Qed.

Lemma is_vote_low s x l : round x < round l -> is_vote s x l = Ok false.
Proof.
  intros Hlt. unfold is_vote. cbn [find_supported_block].
  change (s_round (slot_of_ref (reference l))) with (round l).
  by rewrite (proj2 (N.ltb_lt _ _)).
Qed.

Lemma distinct_author (b : VerifiedBlock) r1 r2 :
  NoDup (br_author <$> ancestors b) -> r1 ∈ ancestors b -> r2 ∈ ancestors b ->
  br_author r1 = br_author r2 -> r1 = r2.
Proof. intros Hnd H1 H2. by apply (NoDup_fmap_elem_inj br_author (ancestors b)). Qed.

Lemma is_vote_spec c s x l :
  wf_block c x -> round x <= round l + 1 -> is_vote s x l = Ok (vote x l).
Proof.
  intros Hwf Hle. destruct (N.lt_ge_cases (round x) (round l)) as [Hlt|Hge].
  { rewrite is_vote_low by done. unfold vote. by rewrite (proj2 (N.eqb_neq _ _)) by lia. }
  unfold is_vote. cbn [find_supported_block].
  change (s_round (slot_of_ref (reference l))) with (round l).
  rewrite (proj2 (N.ltb_ge _ _)) by done.
  rewrite find_in_ancestors_low.
  2:{ intros r Hr. change (s_round (slot_of_ref (reference l))) with (round l).
      destruct (wb_anc _ _ Hwf r Hr) as [? _]. lia. }
  simpl. f_equal. apply eq_bool_prop_intro. rewrite bool_decide_spec, Is_true_true, vote_spec.
  destruct (filter _ _) as [|r rest] eqn:Ef; simpl.
  - split; [done|]. intros [_ Hl].
    assert (reference l ∈ filter (fun r => slot_of_ref r = slot_of_ref (reference l)) (ancestors x))
      as Hin by (by apply list_elem_of_filter).
    rewrite Ef in Hin. inversion Hin.
  - assert (r ∈ filter (fun r => slot_of_ref r = slot_of_ref (reference l)) (ancestors x)) as Hin
      by (rewrite Ef; left).
    apply list_elem_of_filter in Hin as [Hslot Hin].
    unfold slot_of_ref in Hslot. injection Hslot as Hround Hauth. simpl in Hround, Hauth. split.
    + intros [= ->]. split; [|done]. destruct (wb_anc _ _ Hwf _ Hin) as [? _]. simpl in *. lia.
    + intros [_ Hl]. f_equal. eapply distinct_author; [apply (wb_distinct _ _ Hwf)|done..].
Qed.

(** ** Certificates *)

Lemma reached_quorum_mono (c : Committee) (A B : gset N) :
  A ⊆ B -> reached_quorum c (stake_of c A) = true -> reached_quorum c (stake_of c B) = true.
Proof.
  unfold reached_quorum. rewrite !N.leb_le. intros Hs. pose proof (stake_of_mono c _ _ Hs). lia.
Qed.

Lemma reached_quorum_empty (c : Committee) :
  committee_wf c -> reached_quorum c (stake_of c ∅) = false.
Proof.
  intros Hwf. unfold reached_quorum. rewrite stake_of_empty, N.leb_gt.
  pose proof (wf_intersect _ Hwf). pose proof (wf_validity_pos _ Hwf). lia.
Qed.

(** The cache of votes holds what it should. *)
Definition cache_ok s (l : VerifiedBlock) (m : gmap BlockRef bool) : Prop :=
  forall r b, m !! r = Some b -> b = vote_ref s l r.

(** A reference a certificate of [l] may have among its ancestors. *)
Definition below_decision (c : Committee) s (l : VerifiedBlock) (r : BlockRef) : Prop :=
  is_valid_index c (br_author r) = true /\ br_round r <= round l + 1
  /\ (gc_round s < br_round r -> is_Some (view s r)).

Section committer.
Context (c : Committee) s (Hs : dag_inv s) (Hst : store_ok s) (Hc : ds_committee s = c).

Lemma vote_ref_low l r : br_round r < round l -> vote_ref s l r = false.
Proof.
  intros Hlt. unfold vote_ref. destruct (view s r) as [x|] eqn:E; [|done].
  destruct (di_wf s Hs _ _ E) as [<- _]. unfold vote. simpl in Hlt.
  by rewrite (proj2 (N.eqb_neq _ _)) by lia.
Qed.

Lemma check_vote_spec l m r :
  gc_round s < round l -> below_decision c s l r -> cache_ok s l m ->
  exists m', check_vote s l m r = Ok (vote_ref s l r, m') /\ cache_ok s l m'.
Proof.
  intros Hgc (_ & Hle & Hv) Hm. unfold check_vote. destruct (m !! r) as [b|] eqn:Em.
  { exists m. by rewrite <- (Hm _ _ Em). }
  assert (forall b, b = vote_ref s l r -> cache_ok s l (<[r := b]> m)) as Hins.
  { intros b -> r' b'. rewrite lookup_insert_Some. intros [[<- <-]|[_ ?]]; auto. }
  destruct (N.lt_ge_cases (gc_round s) (br_round r)) as [Hhi|Hlo].
  - destruct (Hv Hhi) as [x Ex]. rewrite (get_block_view s r x Hs Ex). simpl.
    destruct (di_wf s Hs _ _ Ex) as [Href Hwf].
    rewrite (is_vote_spec _ s x l Hwf) by (rewrite <- Href in Hle; done). simpl.
    assert (vote x l = vote_ref s l r) as E by (unfold vote_ref; by rewrite Ex).
    rewrite E. eauto.
  - rewrite get_block_spec. simpl. rewrite (vote_ref_low l r) in * by lia.
    destruct (dag_block s r) as [x|] eqn:Ex.
    + pose proof (dag_block_reference s r x Hs Hst Ex) as Href. rewrite is_vote_low; [simpl; eauto|].
      rewrite <- Href in Hlo. simpl in Hlo. lia.
    + rewrite (proj2 (N.leb_le _ _) Hlo). simpl. eauto.
Qed.

Lemma certificate_loop_spec l refs agg m :
  gc_round s < round l -> (forall r, r ∈ refs -> below_decision c s l r) ->
  cache_ok s l m -> agg_wf c agg -> reached_quorum c (stake_of c (votes agg)) = false ->
  exists m', certificate_loop c s l refs agg m
    = Ok (reached_quorum c (stake_of c
            (list_to_set (br_author <$> List.filter (vote_ref s l) refs) ∪ votes agg)), m')
    /\ cache_ok s l m'.
Proof.
  intros Hgc. assert (committee_wf c) as Hwf by (rewrite <- Hc; apply (di_committee s Hs)).
  revert agg m. induction refs as [|r refs IH]; intros agg m Hrefs Hm Hagg Hnq; simpl.
  - exists m. rewrite (left_id_L ∅ (∪)), Hnq. done.
  - destruct (check_vote_spec l m r Hgc) as (m1 & E1 & Hm1); [apply Hrefs; set_solver|done|].
    rewrite E1. simpl. destruct (vote_ref s l r) eqn:Ev.
    2:{ apply IH; [set_solver|done..]. }
    destruct (Hrefs r) as [Hvalid _]; [set_solver|].
    destruct (add_Ok c Hwf agg (br_author r) Hagg Hvalid) as (agg' & E2 & Hv' & Hagg').
    rewrite E2. simpl. change (c_quorum_threshold c <=? ?x) with (reached_quorum c x).
    rewrite <- Hv'. destruct (reached_quorum c (stake_of c (votes agg'))) eqn:Eq.
    + exists m1. split; [|done]. do 2 f_equal. symmetry. eapply reached_quorum_mono; [|exact Eq].
      set_solver.
    + destruct (IH agg' m1) as (m' & E & Hm'); [set_solver|done..|]. exists m'. split; [|done].
      rewrite E. do 4 f_equal. rewrite Hv'. set_solver.
Qed.

Lemma rooted_below_decision y l :
  rooted s y -> round y = round l + 2 ->
  forall r, r ∈ ancestors y -> below_decision c s l r.
Proof.
  intros [Hwf Hcl] Hr r Hin. rewrite Hc in Hwf. destruct (wb_anc _ _ Hwf r Hin) as (? & ? & _).
  split_and!; [done|lia|by apply Hcl].
Qed.
End committer.

Section with_committer.
Context (self : BaseCommitter) s (Hs : dag_inv s) (Hst : store_ok s).
Context (Hc : ds_committee s = committee (bc_context self)).
Notation c := (committee (bc_context self)).

Lemma committer_wf : committee_wf c.
Proof. rewrite <- Hc. apply (di_committee s Hs). Qed.

Lemma is_certificate_spec y l m :
  gc_round s < round l -> rooted s y -> round y = round l + 2 -> cache_ok s l m ->
  exists m', is_certificate self s y l m = Ok (is_cert c s y l, m') /\ cache_ok s l m'.
Proof.
  intros Hgc Hy Hr Hm. unfold is_certificate.
  destruct (certificate_loop_spec c s Hs Hst Hc l (ancestors y) stake_aggregator_new m Hgc)
    as (m' & E & Hm'); [by eapply rooted_below_decision|done| | |].
  - apply agg_new_wf, committer_wf.
  - apply reached_quorum_empty, committer_wf.
  - exists m'. split; [|done]. rewrite E. unfold is_cert, cert_voters. simpl.
    by rewrite (right_id_L ∅ (∪)).
Qed.

Lemma any_certificate_spec l certs m :
  gc_round s < round l -> (forall y, y ∈ certs -> rooted s y /\ round y = round l + 2) ->
  cache_ok s l m ->
  any_certificate self s l certs m = Ok (existsb (fun y => is_cert c s y l) certs).
Proof.
  intros Hgc. revert m. induction certs as [|y certs IH]; intros m Hy Hm; simpl; [done|].
  destruct (Hy y) as [Hroot Hr]; [set_solver|].
  destruct (is_certificate_spec y l m Hgc Hroot Hr Hm) as (m' & -> & Hm'). simpl.
  destruct (is_cert c s y l); [done|]. apply IH; [intros y' Hy'; apply Hy; by right|done].
Qed.

(** ** The direct rule *)

Lemma authors_filter (P : VerifiedBlock -> bool) l r :
  (forall x, x ∈ l <-> view s (reference x) = Some x /\ round x = r) ->
  list_to_set (C := gset N) (author <$> List.filter P l) = authors_where s r P.
Proof.
  intros Hl. apply set_eq. intros x. rewrite elem_of_authors_where by done.
  rewrite elem_of_list_to_set, list_elem_of_fmap. setoid_rewrite list_filter_elem_of.
  setoid_rewrite Hl. naive_solver.
Qed.

Lemma blame_loop_spec a bs agg :
  (forall x, x ∈ bs -> is_valid_index c (author x) = true) ->
  agg_wf c agg -> reached_quorum c (stake_of c (votes agg)) = false ->
  blame_loop c a bs agg
  = Ok (reached_quorum c (stake_of c
          (list_to_set (author <$> List.filter (blames a) bs) ∪ votes agg))).
Proof.
  revert agg. induction bs as [|x bs IH]; intros agg Hv Hagg Hnq; simpl.
  - by rewrite (left_id_L ∅ (∪)), Hnq.
  - fold (blames a x). destruct (blames a x); [|apply IH; [set_solver|done..]].
    destruct (add_Ok c committer_wf agg (author x) Hagg) as (agg' & -> & Hv' & Hagg');
      [apply Hv; by left|].
    simpl. change (c_quorum_threshold c <=? ?x) with (reached_quorum c x). rewrite <- Hv'.
    destruct (reached_quorum c (stake_of c (votes agg'))) eqn:Eq.
    + do 2 f_equal. symmetry. eapply reached_quorum_mono; [|exact Eq]. set_solver.
    + rewrite IH; [|set_solver|done..]. do 3 f_equal. rewrite Hv'. set_solver.
Qed.

Lemma at_round_valid (l : list VerifiedBlock) r :
  (forall x, x ∈ l <-> view s (reference x) = Some x /\ round x = r) ->
  forall x, x ∈ l -> rooted s x /\ is_valid_index c (author x) = true.
Proof.
  intros Hl x [Hx _]%Hl. split; [by eapply rooted_view|]. rewrite <- Hc.
  apply (wb_author _ _ (proj2 (di_wf s Hs _ _ Hx))).
Qed.

Lemma enough_leader_blame_spec slot :
  last_commit_round s <= s_round slot -> s_round slot + 1 < u32_MAX ->
  enough_leader_blame self s (s_round slot + 1) (s_authority slot)
  = Ok (reached_quorum c (stake_of c (blamers s slot))).
Proof.
  intros Hr Hmax. unfold enough_leader_blame.
  destruct (uncommitted_at_round_spec s (s_round slot + 1) Hs) as (l & -> & Hl & _); [lia|done|].
  simpl. rewrite blame_loop_spec.
  - simpl. rewrite (right_id_L ∅ (∪)). unfold blamers. by rewrite (authors_filter _ l _ Hl).
  - intros x Hx. by apply (at_round_valid l _ Hl).
  - apply agg_new_wf, committer_wf.
  - apply reached_quorum_empty, committer_wf.
Qed.

Lemma support_loop_spec l bs agg m :
  gc_round s < round l -> cache_ok s l m ->
  (forall y, y ∈ bs -> rooted s y /\ is_valid_index c (author y) = true /\ round y = round l + 2) ->
  agg_wf c agg -> reached_quorum c (stake_of c (votes agg)) = false ->
  support_loop self s l bs agg m
  = Ok (reached_quorum c (stake_of c
          (list_to_set (author <$> List.filter (fun y => is_cert c s y l) bs) ∪ votes agg))).
Proof.
  intros Hgc. revert agg m. induction bs as [|y bs IH]; intros agg m Hm Hy Hagg Hnq; simpl.
  - by rewrite (left_id_L ∅ (∪)), Hnq.
  - destruct (Hy y) as (Hroot & Hv & Hr); [by left|].
    destruct (is_certificate_spec y l m Hgc Hroot Hr Hm) as (m' & -> & Hm'). simpl.
    assert (forall z, z ∈ bs -> rooted s z /\ is_valid_index c (author z) = true
              /\ round z = round l + 2) as Hy' by (intros z Hz; apply Hy; by right).
    destruct (is_cert c s y l); [|by apply IH].
    destruct (add_Ok c committer_wf agg (author y) Hagg Hv) as (agg' & -> & Hv' & Hagg').
    simpl. change (c_quorum_threshold c <=? ?x) with (reached_quorum c x). rewrite <- Hv'.
    destruct (reached_quorum c (stake_of c (votes agg'))) eqn:Eq.
    + do 2 f_equal. symmetry. eapply reached_quorum_mono; [|exact Eq]. set_solver.
    + rewrite IH by done. do 3 f_equal. rewrite Hv'. set_solver.
Qed.

Lemma blocks_at_NoDup r : NoDup (blocks_at s r).
Proof.
  unfold blocks_at. apply list_filter_NoDup, (NoDup_fmap_1 reference).
  rewrite <- list_fmap_compose.
  rewrite (list_fmap_ext _ fst); [apply NoDup_fst_map_to_list|].
  intros i [k bi] Hi. simpl. apply list_elem_of_lookup_2, elem_of_map_to_list in Hi.
  apply (di_wf s Hs k). unfold view. by rewrite Hi.
Qed.

Lemma stake_of_list_le (k : list N) :
  (forall i, i ∈ k -> is_valid_index c i = true) ->
  stake_of c (list_to_set k) <= sum_N (stake_at c <$> k).
Proof.
  induction k as [|i k IH]; intros Hv; [by rewrite stake_of_empty|].
  specialize (IH ltac:(set_solver)). rewrite list_to_set_cons.
  change (sum_N (stake_at c <$> i :: k)) with (stake_at c i + sum_N (stake_at c <$> k)).
  destruct (decide (i ∈ list_to_set (C := gset N) k)) as [Hin|Hin].
  - replace ({[i]} ∪ list_to_set k) with (list_to_set (C := gset N) k) by set_solver. lia.
  - rewrite stake_of_insert; [|apply Hv; by left|done]. lia.
Qed.

Lemma mapM_stake (l : list VerifiedBlock) :
  (forall x, x ∈ l -> is_valid_index c (author x) = true) ->
  mapM (fun b : VerifiedBlock => committee_stake c (author b)) l
  = Ok ((fun x => stake_at c (author x)) <$> l).
Proof.
  induction l as [|x l IH]; intros Hv; [done|]. cbn.
  rewrite committee_stake_Ok by (apply Hv; by left). cbn. cbn in IH.
  rewrite IH by (intros y Hy; apply Hv; by right). done.
Qed.

(** The support check never accepts without a quorum of certificates, and is
    complete when the stake of the round's blocks fits in 64 bits. *)
Lemma enough_leader_support_spec l :
  gc_round s < round l -> last_commit_round s <= round l -> round l + 2 < u32_MAX ->
  exists b, enough_leader_support self s (round l + 2) l = Ok b
    /\ (b = true -> reached_quorum c (stake_of c (supporters c s l)) = true)
    /\ (round_stake c s (round l + 2) <= u64_MAX ->
        reached_quorum c (stake_of c (supporters c s l)) = true -> b = true).
Proof.
  intros Hgc Hlc Hmax. unfold enough_leader_support.
  destruct (uncommitted_at_round_spec s (round l + 2) Hs) as (bs & -> & Hbs & Hnd); [lia|done|].
  simpl. pose proof (at_round_valid bs _ Hbs) as Hv.
  rewrite mapM_stake by (intros x Hx; by apply Hv). simpl.
  assert (support_loop self s l bs stake_aggregator_new ∅
          = Ok (reached_quorum c (stake_of c (supporters c s l)))) as E.
  { rewrite support_loop_spec; [| |done|..].
    - simpl. rewrite (right_id_L ∅ (∪)). unfold supporters.
      by rewrite (authors_filter _ bs _ Hbs).
    - done.
    - intros y Hy. destruct (Hv y Hy). split_and!; [done|done|]. by apply Hbs.
    - apply agg_new_wf, committer_wf.
    - apply reached_quorum_empty, committer_wf. }
  destruct (reached_quorum c (u64_sum ((fun x => stake_at c (author x)) <$> bs))) eqn:Eq; simpl.
  - rewrite E. eexists. split; [done|]. tauto.
  - eexists. split; [done|]. split; [done|]. intros Hsum Hq. exfalso.
    assert (bs ≡ₚ blocks_at s (round l + 2)) as Hp.
    { apply NoDup_Permutation; [by apply NoDup_fmap_1 in Hnd|apply blocks_at_NoDup|].
      intros x. by rewrite Hbs, elem_of_blocks_at. }
    unfold round_stake in Hsum. rewrite <- Hp in Hsum. rewrite u64_sum_exact in Eq by done.
    unfold reached_quorum in Eq, Hq. apply N.leb_gt in Eq. apply N.leb_le in Hq.
    assert (stake_of c (supporters c s l) <= stake_of c (list_to_set (author <$> bs))) as H1.
    { apply stake_of_mono. unfold supporters. rewrite <- (authors_filter _ bs _ Hbs).
      intros a. rewrite !elem_of_list_to_set, !list_elem_of_fmap.
      setoid_rewrite list_filter_elem_of. naive_solver. }
    pose proof (stake_of_list_le (author <$> bs)) as H2. rewrite <- list_fmap_compose in H2.
    enough (stake_of c (list_to_set (author <$> bs)) <= sum_N ((fun x => stake_at c (author x)) <$> bs))
      by lia. apply H2. intros i (x & -> & Hx)%list_elem_of_fmap. by apply Hv.
Qed.
End with_committer.
End rule.
