(* ===== verification/Agreement.v ===== *)
(** * Agreement on the decided leaders

    Two validators that run the commit rule on their own views of the DAG
    decide the same leaders.  The views hold blocks of one universe in which
    references identify blocks and authorities outside a set [byz], below the
    validity threshold, do not equivocate. *)

From S2P Require Import Prelude Committee Context Block StakeAggregator ThresholdClock Commit Store LeaderScoring DagState DagInv LeaderSchedule BaseCommitter UniversalCommitter CommitRule.

Record honest_universe (c : Committee) (byz : gset N) (univ : VerifiedBlock -> Prop) : Prop := {
  hu_committee : committee_wf c;
  hu_byz : reached_validity c (stake_of c byz) = false;
  hu_ref : forall x y, univ x -> univ y -> reference x = reference y -> x = y;
  hu_honest : forall x y, univ x -> univ y -> author x = author y -> round x = round y ->
    author x ∉ byz -> x = y;
}.

Section agreement.
Context {S : Type} `{StoreLaws S}.
Context (c : Committee) (byz : gset N) (univ : VerifiedBlock -> Prop).
Context (Hu : honest_universe c byz univ).
Implicit Types s : DagState S.

Record good_view s : Prop := {
  gv_inv : dag_inv s;
  gv_store : store_ok s;
  gv_committee : ds_committee s = c;
  gv_univ : forall r b, view s r = Some b -> univ b;
}.

Lemma view_same s1 s2 r b1 b2 :
  good_view s1 -> good_view s2 -> view s1 r = Some b1 -> view s2 r = Some b2 -> b1 = b2.
Proof.
  intros H1 H2 E1 E2. apply (hu_ref _ _ _ Hu).
  - by eapply (gv_univ s1).
  - by eapply (gv_univ s2).
  - by rewrite (proj1 (di_wf s1 (gv_inv _ H1) _ _ E1)), (proj1 (di_wf s2 (gv_inv _ H2) _ _ E2)).
Qed.

(** ** Quorums meet in a correct authority *)

Lemma quorums_meet (Q1 Q2 : gset N) :
  reached_quorum c (stake_of c Q1) = true -> reached_quorum c (stake_of c Q2) = true ->
  exists a, a ∈ Q1 /\ a ∈ Q2 /\ a ∉ byz.
Proof.
  intros H1 H2.
  destruct (quorum_intersection c Q1 Q2 byz (hu_committee _ _ _ Hu) H1 H2 (hu_byz _ _ _ Hu)) as (a & ?).
  exists a. tauto.
Qed.

Lemma view_wf s r b : good_view s -> view s r = Some b -> reference b = r /\ wf_block c b.
Proof. intros Hv Hb. rewrite <- (gv_committee _ Hv). by apply (di_wf s (gv_inv _ Hv)). Qed.

Lemma cert_voter s y l a :
  good_view s -> a ∈ cert_voters s y l ->
  exists x, univ x /\ wf_block c x /\ author x = a /\ vote x l = true.
Proof.
  intros Hv (r & x & _ & <- & Hx & Hvote)%elem_of_cert_voters. exists x.
  destruct (view_wf s r x Hv Hx) as [<- Hwf]. split_and!; [by eapply gv_univ|done..].
Qed.

(** Two certified leader blocks of a slot are the same block. *)
Lemma cert_unique s1 s2 y1 y2 l1 l2 :
  good_view s1 -> good_view s2 -> univ l1 -> univ l2 ->
  is_cert c s1 y1 l1 = true -> is_cert c s2 y2 l2 = true ->
  slot_of_ref (reference l1) = slot_of_ref (reference l2) -> l1 = l2.
Proof.
  intros H1 H2 U1 U2 C1 C2 Hslot. destruct (quorums_meet _ _ C1 C2) as (a & A1 & A2 & Ha).
  destruct (cert_voter s1 y1 l1 a H1 A1) as (x1 & X1 & W1 & <- & V1).
  destruct (cert_voter s2 y2 l2 _ H2 A2) as (x2 & X2 & _ & Hauth & V2).
  apply vote_spec in V1 as [R1 L1]. apply vote_spec in V2 as [R2 L2].
  injection Hslot as Hr Hl. assert (x1 = x2) as <-.
  { apply (hu_honest _ _ _ Hu); [done..| |done]. congruence. }
  apply (hu_ref _ _ _ Hu); [done..|].
  by eapply distinct_author; [apply (wb_distinct _ _ W1)|..].
Qed.

(** A quorum of blames excludes certificates. *)
Lemma blame_no_cert s1 s2 slot y l :
  good_view s1 -> good_view s2 ->
  reached_quorum c (stake_of c (blamers s1 slot)) = true ->
  slot_of_ref (reference l) = slot -> is_cert c s2 y l = true -> False.
Proof.
  intros H1 H2 Hb Hslot C2. destruct (quorums_meet _ _ Hb C2) as (a & A1 & A2 & Ha).
  apply elem_of_authors_where in A1 as (x1 & Hx1 & R1 & B1 & <-); [|by apply gv_inv].
  destruct (cert_voter s2 y l _ H2 A2) as (x2 & X2 & _ & Hauth & V2).
  apply vote_spec in V2 as [R2 L2]. subst slot. simpl in R1, B1.
  assert (x1 = x2) as <-.
  { apply (hu_honest _ _ _ Hu); [by eapply (gv_univ s1)|done|done| |done]. congruence. }
  unfold blames in B1. rewrite forallb_forall in B1.
  apply list_elem_of_In in L2. specialize (B1 _ L2). simpl in B1.
  by rewrite N.eqb_refl in B1.
Qed.

(** ** Histories above the garbage collection rounds are shared *)

Lemma reach_shared s1 s2 b r :
  good_view s1 -> good_view s2 -> rooted s1 b -> rooted s2 b -> reach s1 b r ->
  gc_round s1 < br_round r -> gc_round s2 < br_round r -> reach s2 b r.
Proof.
  intros H1 H2 B1 B2. induction 1 as [r Hr|r' b' r Hreach IH Hv Hr]; intros G1 G2;
    [by apply reach_anc|].
  destruct (view_wf s1 _ _ H1 Hv) as [Href Hwf]. destruct (wb_anc _ _ Hwf _ Hr) as [Hlt _].
  rewrite <- Href in IH. simpl in IH. specialize (IH ltac:(lia) ltac:(lia)).
  destruct (reach_cached s2 b _ (gv_inv _ H2) B2 IH) as [b2 Hb2]; [simpl; lia|].
  rewrite Href in IH, Hb2. eapply reach_step; [exact IH|exact Hb2|].
  by rewrite <- (view_same s1 s2 r' b' b2 H1 H2 Hv Hb2).
Qed.

Lemma is_cert_shared s1 s2 y l :
  good_view s1 -> good_view s2 -> rooted s1 y -> rooted s2 y ->
  gc_round s1 <= round l -> gc_round s2 <= round l -> is_cert c s1 y l = is_cert c s2 y l.
Proof.
  intros H1 H2 Y1 Y2 G1 G2. unfold is_cert. do 2 f_equal. apply set_eq. intros a.
  rewrite !elem_of_cert_voters. split.
  - intros (r & x & Hr & Ha & Hx & V). exists r, x. split_and!; [done..| |done].
    destruct (view_wf s1 r x H1 Hx) as [<- _]. apply vote_spec in V as [Hround _].
    destruct (proj2 Y2 _ Hr) as [x2 Hx2]; [simpl; lia|].
    rewrite Hx2. f_equal. symmetry. exact (view_same s1 s2 _ _ _ H1 H2 Hx Hx2).
  - intros (r & x & Hr & Ha & Hx & V). exists r, x. split_and!; [done..| |done].
    destruct (view_wf s2 r x H2 Hx) as [<- _]. apply vote_spec in V as [Hround _].
    destruct (proj2 Y1 _ Hr) as [x1 Hx1]; [simpl; lia|].
    rewrite Hx1. f_equal. symmetry. exact (view_same s2 s1 _ _ _ H2 H1 Hx Hx1).
Qed.

(** [certified s b l]: the history of [b] holds a certificate of [l]. *)
Definition certified s (b l : VerifiedBlock) : Prop :=
  exists y, reach s b (reference y) /\ round y = round l + 2
    /\ view s (reference y) = Some y /\ is_cert c s y l = true.

(** A leader with a quorum of certificates in one view is certified in the
    history of every later block of any view. *)
Lemma supported_certified s1 s2 l z :
  good_view s1 -> good_view s2 -> gc_round s1 <= round l -> gc_round s2 <= round l ->
  reached_quorum c (stake_of c (supporters c s1 l)) = true ->
  view s2 (reference z) = Some z -> round l + 3 <= round z -> certified s2 z l.
Proof.
  intros H1 H2 G1 G2 Hsup. remember (N.to_nat (round z - (round l + 3))) as n eqn:En.
  revert z En. induction n as [|n IH]; intros z En Hz Hle.
  - assert (round z = round l + 3) as Rz by lia.
    destruct (view_wf s2 _ _ H2 Hz) as [_ Wz].
    destruct (quorums_meet _ (parent_authors z) Hsup) as (a & A1 & A2 & Ha).
    { unfold reached_quorum. apply N.leb_le, (wb_quorum _ _ Wz). }
    apply elem_of_authors_where in A1 as (y & Hy & Ry & Cy & <-); [|by apply gv_inv].
    unfold parent_authors, parents in A2. apply elem_of_list_to_set, list_elem_of_fmap in A2 as (p & Hp & Hin).
    apply list_elem_of_filter in Hin as [Rp Hin].
    destruct (proj2 (rooted_view s2 _ _ (gv_inv _ H2) Hz) p Hin) as [y2 Hy2]; [lia|].
    destruct (view_wf s2 _ _ H2 Hy2) as [Href _].
    assert (y = y2) as <-.
    { apply (hu_honest _ _ _ Hu); [by eapply (gv_univ s1)|by eapply (gv_univ s2)| | |done].
      - by rewrite <- Href in Hp.
      - rewrite <- Href in Rp. simpl in Rp. lia. }
    exists y. rewrite Href. split_and!; [by apply reach_anc|lia|done|].
    rewrite <- (is_cert_shared s1 s2); [done..| | |done|done].
    + by eapply rooted_view; [apply gv_inv|].
    + by eapply rooted_view; [apply gv_inv|].
  - destruct (view_wf s2 _ _ H2 Hz) as [_ Wz].
    destruct (quorums_meet _ _ (proj2 (N.leb_le _ _) (wb_quorum _ _ Wz))
                (proj2 (N.leb_le _ _) (wb_quorum _ _ Wz))) as (a & A & _).
    unfold parent_authors, parents in A. apply elem_of_list_to_set, list_elem_of_fmap in A as (p & _ & Hin).
    apply list_elem_of_filter in Hin as [Rp Hin].
    destruct (proj2 (rooted_view s2 _ _ (gv_inv _ H2) Hz) p Hin) as [z2 Hz2]; [lia|].
    destruct (view_wf s2 _ _ H2 Hz2) as [Href _].
    assert (round z2 + 1 = round z) as R2 by (rewrite <- Href in Rp; done).
    rewrite <- Href in Hz2. destruct (IH z2) as (y & Y1 & Y2 & Y3 & Y4); [lia|done|lia|].
    exists y. split_and!; [|done..]. eapply reach_trans; [|exact Hz2|done].
    rewrite Href. by apply reach_anc.
Qed.

Lemma certified_shared s1 s2 b l :
  good_view s1 -> good_view s2 -> gc_round s1 <= round l -> gc_round s2 <= round l ->
  view s1 (reference b) = Some b -> view s2 (reference b) = Some b ->
  certified s1 b l -> certified s2 b l.
Proof.
  intros H1 H2 G1 G2 B1 B2 (y & Y1 & Y2 & Y3 & Y4).
  pose proof (rooted_view s1 _ _ (gv_inv _ H1) B1) as R1.
  pose proof (rooted_view s2 _ _ (gv_inv _ H2) B2) as R2.
  assert (reach s2 b (reference y)) as Hy by (eapply (reach_shared s1); try done; simpl; lia).
  destruct (reach_cached s2 b _ (gv_inv _ H2) R2 Hy) as [y2 Hy2]; [simpl; lia|].
  pose proof (view_same s1 s2 _ _ _ H1 H2 Y3 Hy2) as <-.
  exists y. split_and!; [done..|]. rewrite <- (is_cert_shared s1 s2); [done..| | |done|done].
  - by eapply rooted_view; [apply gv_inv|].
  - by eapply rooted_view; [apply gv_inv|].
Qed.

(** The certified block of a cached history is itself cached. *)
Lemma certified_cached s b l :
  good_view s -> gc_round s < round l -> univ l -> certified s b l ->
  view s (reference l) = Some l.
Proof.
  intros Hv Hgc Ul (y & _ & _ & _ & Hy).
  destruct (quorums_meet _ _ Hy Hy) as (a & A & _).
  apply elem_of_cert_voters in A as (r & x & _ & _ & Hx & Hvote).
  apply vote_spec in Hvote as [_ Hl].
  destruct (di_closed s (gv_inv _ Hv) r x _ Hx Hl) as [l' Hl']; [done|].
  rewrite Hl'. f_equal. apply (hu_ref _ _ _ Hu); [by eapply gv_univ|done|].
  by apply (view_wf s _ _ Hv).
Qed.

(** ** What the two rules decide *)

(** The outcome of the direct rule. *)
Definition direct_ok s (slot : Slot) (st : LeaderStatus) : Prop :=
  match st with
  | StatusSkip sl => sl = slot /\ reached_quorum c (stake_of c (blamers s slot)) = true
  | StatusCommit l =>
      slot_of_ref (reference l) = slot /\ view s (reference l) = Some l
      /\ reached_quorum c (stake_of c (supporters c s l)) = true
  | StatusUndecided sl => sl = slot
  end.

(** The outcome of the indirect rule from an anchor. *)
Definition anchor_ok s (anchor : VerifiedBlock) (slot : Slot) (st : LeaderStatus) : Prop :=
  match st with
  | StatusSkip sl =>
      sl = slot /\ forall l, view s (reference l) = Some l -> slot_of_ref (reference l) = slot -> ~ certified s anchor l
  | StatusCommit l =>
      slot_of_ref (reference l) = slot /\ view s (reference l) = Some l /\ certified s anchor l
  | StatusUndecided _ => False
  end.

Inductive indirect s (slot : Slot) : list LeaderStatus -> LeaderStatus -> Prop :=
  | indirect_nil : indirect s slot [] (StatusUndecided slot)
  | indirect_skip sl As st :
      indirect s slot As st -> indirect s slot (StatusSkip sl :: As) st
  | indirect_undecided sl As : indirect s slot (StatusUndecided sl :: As) (StatusUndecided slot)
  | indirect_anchor anchor As st :
      anchor_ok s anchor slot st -> indirect s slot (StatusCommit anchor :: As) st.

(** The statuses of the slots [slot_at r], [slot_at (r + 1)], ... as one
    validator decides them, from the last to the first. *)
Inductive decided_from s (slot_at : N -> Slot) : N -> list LeaderStatus -> Prop :=
  | decided_nil r : decided_from s slot_at r []
  | decided_direct r st L :
      decided_from s slot_at (r + 1) L ->
      is_decided st = true -> direct_ok s (slot_at r) st ->
      decided_from s slot_at r (st :: L)
  | decided_indirect r st L :
      decided_from s slot_at (r + 1) L ->
      indirect s (slot_at r) (drop 2 L) st ->
      decided_from s slot_at r (st :: L).

Lemma decided_from_drop s slot_at r L i :
  decided_from s slot_at r L -> decided_from s slot_at (r + N.of_nat i) (drop i L).
Proof.
  revert r L. induction i as [|i IH]; intros r L Hd; [rewrite N.add_0_r; by rewrite drop_0|].
  destruct L as [|st L]; [constructor|]. simpl. replace (r + N.of_nat (Datatypes.S i)) with (r + 1 + N.of_nat i) by lia.
  apply IH. by inversion Hd.
Qed.

(** Statuses that are both decided agree. *)
Definition agree (st1 st2 : LeaderStatus) : Prop :=
  is_decided st1 = true -> is_decided st2 = true -> st1 = st2.

Definition agree_lists (L1 L2 : list LeaderStatus) : Prop :=
  forall i st1 st2, L1 !! i = Some st1 -> L2 !! i = Some st2 -> agree st1 st2.

(** The committed blocks of a list of statuses are cached, at rounds [>= r]. *)
Definition anchors_in s (r : N) (L : list LeaderStatus) : Prop :=
  forall b, StatusCommit b ∈ L -> view s (reference b) = Some b /\ r <= round b.

Lemma certified_unique s1 s2 b1 b2 l1 l2 :
  good_view s1 -> good_view s2 -> univ l1 -> univ l2 ->
  certified s1 b1 l1 -> certified s2 b2 l2 ->
  slot_of_ref (reference l1) = slot_of_ref (reference l2) -> l1 = l2.
Proof.
  intros H1 H2 U1 U2 (y1 & _ & _ & _ & C1) (y2 & _ & _ & _ & C2).
  exact (cert_unique s1 s2 y1 y2 l1 l2 H1 H2 U1 U2 C1 C2).
Qed.

Lemma slot_round (b : VerifiedBlock) slot : slot_of_ref (reference b) = slot -> round b = s_round slot.
Proof. by intros <-. Qed.

(** Two views decide a slot the same way from the same anchor. *)
Lemma anchor_agree s1 s2 a slot st1 st2 :
  good_view s1 -> good_view s2 -> gc_round s1 < s_round slot -> gc_round s2 < s_round slot ->
  view s1 (reference a) = Some a -> view s2 (reference a) = Some a ->
  anchor_ok s1 a slot st1 -> anchor_ok s2 a slot st2 -> st1 = st2.
Proof.
  intros H1 H2 G1 G2 V1 V2.
  destruct st1 as [l1|sl1|], st2 as [l2|sl2|]; simpl; try done.
  - intros (S1 & L1 & C1) (S2 & L2 & C2). f_equal.
    apply (certified_unique s1 s2 a a); try done;
      [by eapply (gv_univ s1)|by eapply (gv_univ s2)|congruence].
  - intros (S1 & L1 & C1) (_ & N2). exfalso. pose proof (slot_round _ _ S1) as R.
    assert (certified s2 a l1) as C2 by (apply (certified_shared s1); try done; lia).
    apply (N2 l1); [|done|done]. apply (certified_cached s2 a); [done|lia|by eapply (gv_univ s1)|done].
  - intros (_ & N1) (S2 & L2 & C2). exfalso. pose proof (slot_round _ _ S2) as R.
    assert (certified s1 a l2) as C1 by (apply (certified_shared s2); try done; lia).
    apply (N1 l2); [|done|done]. apply (certified_cached s1 a); [done|lia|by eapply (gv_univ s2)|done].
  - by intros [-> _] [-> _].
Qed.

Lemma anchors_in_cons s r st L : anchors_in s r (st :: L) -> anchors_in s r L.
Proof. intros HL b Hb. apply HL. by right. Qed.

Lemma agree_lists_cons st1 st2 L1 L2 :
  agree_lists (st1 :: L1) (st2 :: L2) <-> agree st1 st2 /\ agree_lists L1 L2.
Proof.
  split.
  - intros HL. split; [by apply (HL 0%nat)|]. intros i. by apply (HL (Datatypes.S i)).
  - intros [Hst HL] [|i] x1 x2; simpl; [by intros [= <-] [= <-]|]. apply HL.
Qed.

Lemma indirect_agree s1 s2 slot As1 As2 st1 st2 :
  good_view s1 -> good_view s2 -> gc_round s1 < s_round slot -> gc_round s2 < s_round slot ->
  anchors_in s1 (s_round slot + 3) As1 -> anchors_in s2 (s_round slot + 3) As2 ->
  agree_lists As1 As2 -> indirect s1 slot As1 st1 -> indirect s2 slot As2 st2 -> agree st1 st2.
Proof.
  intros H1 H2 G1 G2 A1 A2 Hag I1. revert As2 A1 A2 Hag.
  induction I1 as [|sl As1 st1 I1 IH|sl As1|a1 As1 st1 Ha1]; intros As2 A1 A2 Hag I2 D1 D2;
    try done; destruct I2 as [|sl2 As2 st2 I2|sl2 As2|a2 As2 st2 Ha2]; try done;
    apply agree_lists_cons in Hag as [Hst Hag].
  - apply (IH As2); try done; by eapply anchors_in_cons.
  - by specialize (Hst eq_refl eq_refl).
  - by specialize (Hst eq_refl eq_refl).
  - specialize (Hst eq_refl eq_refl). injection Hst as <-.
    destruct (A1 a1) as [V1 _]; [by left|]. destruct (A2 a1) as [V2 _]; [by left|].
    by apply (anchor_agree s1 s2 a1 slot).
Qed.

(** A directly committed leader is what every view decides indirectly. *)
Lemma indirect_supported s1 s2 slot l As st :
  good_view s1 -> good_view s2 -> gc_round s1 < s_round slot -> gc_round s2 < s_round slot ->
  direct_ok s1 slot (StatusCommit l) -> anchors_in s2 (s_round slot + 3) As ->
  indirect s2 slot As st -> is_decided st = true -> st = StatusCommit l.
Proof.
  intros H1 H2 G1 G2 (Sl & Vl & Hsup) HA I. pose proof (slot_round _ _ Sl) as R.
  induction I as [|sl As st I IH|sl As|a As st Ha]; intros D; try done.
  - apply IH; [by eapply anchors_in_cons|done].
  - destruct (HA a) as [Va Ra]; [by left|].
    assert (certified s2 a l) as Hcert by (apply (supported_certified s1 s2); try done; lia).
    destruct st as [l2|sl2|]; simpl in Ha; [|exfalso|done].
    + destruct Ha as (S2 & V2 & C2). f_equal. symmetry.
      apply (certified_unique s2 s2 a a); try done;
        [by eapply (gv_univ s1)|by eapply (gv_univ s2)|congruence].
    + destruct Ha as [_ Hno]. apply (Hno l); try done.
      apply (certified_cached s2 a); [done|lia|by eapply (gv_univ s1)|done].
Qed.

(** A directly skipped slot is not committed in any view. *)
Lemma indirect_blamed s1 s2 slot As st :
  good_view s1 -> good_view s2 ->
  reached_quorum c (stake_of c (blamers s1 slot)) = true ->
  indirect s2 slot As st -> is_decided st = true -> st = StatusSkip slot.
Proof.
  intros H1 H2 Hb I. induction I as [|sl As st I IH|sl As|a As st Ha]; intros D; try done; auto.
  destruct st as [l2|sl2|]; simpl in Ha; [|by destruct Ha as [-> _]|done].
  destruct Ha as (S2 & _ & (y & _ & _ & _ & C2)). exfalso.
  by apply (blame_no_cert s1 s2 slot y l2).
Qed.

(** A supported leader has a certificate. *)
Lemma supported_cert s l :
  good_view s -> reached_quorum c (stake_of c (supporters c s l)) = true ->
  exists y, is_cert c s y l = true.
Proof.
  intros Hv Hsup. destruct (quorums_meet _ _ Hsup Hsup) as (a & A & _).
  apply elem_of_authors_where in A as (y & _ & _ & C & _); [|by apply gv_inv]. by exists y.
Qed.

Lemma direct_agree s1 s2 slot st1 st2 :
  good_view s1 -> good_view s2 -> direct_ok s1 slot st1 -> direct_ok s2 slot st2 -> agree st1 st2.
Proof.
  intros H1 H2 D1 D2 E1 E2. destruct st1 as [l1|sl1|], st2 as [l2|sl2|]; simpl in *; try done.
  - destruct D1 as (S1 & V1 & Q1), D2 as (S2 & V2 & Q2). f_equal.
    destruct (supported_cert s1 l1 H1 Q1) as [y1 C1], (supported_cert s2 l2 H2 Q2) as [y2 C2].
    apply (cert_unique s1 s2 y1 y2); try done; [by eapply (gv_univ s1)|by eapply (gv_univ s2)|congruence].
  - destruct D1 as (S1 & V1 & Q1), D2 as (-> & Q2). exfalso.
    destruct (supported_cert s1 l1 H1 Q1) as [y1 C1]. by apply (blame_no_cert s2 s1 slot y1 l1).
  - destruct D1 as (-> & Q1), D2 as (S2 & V2 & Q2). exfalso.
    destruct (supported_cert s2 l2 H2 Q2) as [y2 C2]. by apply (blame_no_cert s1 s2 slot y2 l2).
  - by destruct D1 as [-> _], D2 as [-> _].
Qed.

Lemma direct_indirect_agree s1 s2 slot As st1 st2 :
  good_view s1 -> good_view s2 -> gc_round s1 < s_round slot -> gc_round s2 < s_round slot ->
  direct_ok s1 slot st1 -> anchors_in s2 (s_round slot + 3) As -> indirect s2 slot As st2 ->
  agree st1 st2.
Proof.
  intros H1 H2 G1 G2 D1 HA I2 E1 E2. destruct st1 as [l1|sl1|]; [| |done].
  - symmetry. by apply (indirect_supported s1 s2 slot l1 As).
  - destruct D1 as [-> Hb]. symmetry. by apply (indirect_blamed s1 s2 slot As).
Qed.

(** ** Agreement on lists of statuses *)

Definition status_slot (st : LeaderStatus) : Slot :=
  match st with
  | StatusCommit b => slot_of_ref (reference b)
  | StatusSkip sl => sl
  | StatusUndecided sl => sl
  end.

Lemma direct_slot s slot st : direct_ok s slot st -> status_slot st = slot.
Proof. destruct st; simpl; tauto. Qed.

Lemma indirect_slot s slot As st : indirect s slot As st -> status_slot st = slot.
Proof. induction 1 as [| | |a As st Ha]; try done. destruct st; simpl in *; tauto. Qed.

Lemma direct_view s slot b : direct_ok s slot (StatusCommit b) -> view s (reference b) = Some b.
Proof. simpl. tauto. Qed.

Lemma indirect_view s slot As b :
  indirect s slot As (StatusCommit b) -> view s (reference b) = Some b.
Proof.
  remember (StatusCommit b) as st eqn:E. induction 1 as [| | |a As st Ha]; try done; auto.
  subst st. simpl in Ha. tauto.
Qed.

Section slots.
Context (slot_at : N -> Slot) (Hslot : forall r, s_round (slot_at r) = r).

Lemma decided_from_slot s r L i st :
  decided_from s slot_at r L -> L !! i = Some st -> status_slot st = slot_at (r + N.of_nat i).
Proof.
  intros HL. revert i. induction HL as [|r st0 L HL IH Hd Hok|r st0 L HL IH Hi]; intros [|i] E; try done.
  - injection E as ->. rewrite N.add_0_r. by eapply direct_slot.
  - rewrite (IH i E). f_equal. lia.
  - injection E as ->. rewrite N.add_0_r. by eapply indirect_slot.
  - rewrite (IH i E). f_equal. lia.
Qed.

Lemma decided_from_view s r L b :
  decided_from s slot_at r L -> StatusCommit b ∈ L -> view s (reference b) = Some b.
Proof.
  induction 1 as [|r st0 L HL IH Hd Hok|r st0 L HL IH Hi]; intros E; [inversion E|..];
    apply elem_of_cons in E as [<-|E]; auto; [by eapply direct_view|by eapply indirect_view].
Qed.

Lemma decided_from_cert s r L b :
  good_view s -> decided_from s slot_at r L -> StatusCommit b ∈ L ->
  exists y, view s (reference y) = Some y /\ round y = round b + 2 /\ is_cert c s y b = true.
Proof.
  intros Hv. induction 1 as [|r st0 L HL IH Hd Hok|r st0 L HL IH Hi]; intros E; [inversion E|..];
    apply elem_of_cons in E as [<-|E]; auto.
  - destruct Hok as (_ & _ & Q). destruct (quorums_meet _ _ Q Q) as (a & A & _).
    apply elem_of_authors_where in A as (y & ? & ? & C & _); [|by apply gv_inv]. by exists y.
  - remember (StatusCommit b) as st eqn:E. induction Hi as [| | |a As st Ha]; try done; auto.
    subst st. destruct Ha as (_ & _ & (y & ? & ? & ? & ?)). by exists y.
Qed.

Lemma status_slot_round st r : status_slot st = slot_at r -> leader_status_round st = r.
Proof. intros E. rewrite <- (Hslot r), <- E. by destruct st. Qed.

(** The statuses past the decision round of a slot are its anchors. *)
Lemma decided_from_filter s r L :
  decided_from s slot_at (r + 1) L ->
  List.filter (fun x => r + 3 <=? leader_status_round x) L = drop 2 L.
Proof.
  intros HL. assert (forall i st, L !! i = Some st -> leader_status_round st = r + 1 + N.of_nat i) as HR.
  { intros i st Hi. by apply status_slot_round, (decided_from_slot s _ L). }
  assert (forall k L', (forall i st, L' !! i = Some st -> leader_status_round st = k + N.of_nat i) ->
            r + 3 <= k -> List.filter (fun x => r + 3 <=? leader_status_round x) L' = L') as Hall.
  { intros k L'. revert k. induction L' as [|st L' IH]; intros k Hk Hle; [done|]. simpl.
    rewrite (proj2 (N.leb_le _ _)) by (rewrite (Hk 0%nat st eq_refl); lia). f_equal.
    apply (IH (k + 1)); [|lia]. intros i st' Hi. rewrite (Hk (Datatypes.S i) st' Hi). lia. }
  destruct L as [|x [|y L]]; simpl; [done|..];
    rewrite (proj2 (N.leb_gt _ _)) by (rewrite (HR 0%nat x eq_refl); lia); [done|].
  rewrite (proj2 (N.leb_gt _ _)) by (rewrite (HR 1%nat y eq_refl); lia).
  apply (Hall (r + 3)); [|lia]. intros i st Hi.
  rewrite (HR (Datatypes.S (Datatypes.S i)) st Hi). lia.
Qed.

Lemma decided_from_anchors s r L :
  decided_from s slot_at (r + 1) L -> anchors_in s (r + 3) (drop 2 L).
Proof.
  intros HL b Hb. split; [eapply decided_from_view; [done|by apply (subseteq_drop 2)]|].
  apply list_elem_of_lookup in Hb as [i Hi]. rewrite lookup_drop in Hi.
  pose proof (decided_from_slot s _ L _ _ HL Hi) as E. apply status_slot_round in E. simpl in E. lia.
Qed.

Lemma decided_agree s1 s2 r L1 L2 :
  good_view s1 -> good_view s2 -> gc_round s1 < r -> gc_round s2 < r ->
  decided_from s1 slot_at r L1 -> decided_from s2 slot_at r L2 -> agree_lists L1 L2.
Proof.
  intros H1 H2 G1 G2 D1. revert L2.
  assert (forall r L L' , agree_lists L L' -> agree_lists (drop r L) (drop r L')) as Hdrop.
  { intros k L L' HL i x1 x2. rewrite !lookup_drop. apply HL. }
  induction D1 as [r|r st1 L1 D1 IH E1 O1|r st1 L1 D1 IH I1]; intros L2 D2; [by intros ? ?|..];
    (destruct D2 as [r|r st2 L2 D2 E2 O2|r st2 L2 D2 I2]; [by intros ? ? ? ?|..]);
    apply agree_lists_cons; (split; [|apply IH; [lia..|done]]).
  - by apply (direct_agree s1 s2 (slot_at r)).
  - apply (direct_indirect_agree s1 s2 (slot_at r) (drop 2 L2)); rewrite ?Hslot; try done.
    by apply decided_from_anchors.
  - intros A1 A2. symmetry.
    apply (direct_indirect_agree s2 s1 (slot_at r) (drop 2 L1)); rewrite ?Hslot; try done.
    by apply decided_from_anchors.
  - apply (indirect_agree s1 s2 (slot_at r) (drop 2 L1) (drop 2 L2)); rewrite ?Hslot; try done.
    + by apply decided_from_anchors.
    + by apply decided_from_anchors.
    + apply Hdrop, IH; [lia..|done].
Qed.
End slots.
End agreement.
