(* ===== verification/FinalizerAgreement.v ===== *)
(** * Commit finalizers agree

    Two nodes that finalize the same commits, with the votes they happen to
    know, never give opposite verdicts on a transaction.  The argument is the
    one of the vote compression rule: an authority that does not equivocate
    votes on a block once, in the first of its blocks above it, so the quorums
    behind two verdicts meet in one block. *)

From S2P Require Import Prelude Committee Context Block StakeAggregator ThresholdClock Commit Error Store LeaderScoring LeaderSchedule ScheduleRun DagState VoteTracker DagInv Evolve DagOps CommitObserver CommitFinalizer FinalizerVotes FinalizerLinks FinalizerAccept FinalizerInv FinalizerRun FinalizerTheorems BaseCommitter UniversalCommitter CommitRule Agreement.

(* ------------------------------------------------------------------ *)
(** ** The network *)

Section network.
Context (c : Committee) (byz : gset N) (univ : VerifiedBlock -> Prop).

(** [r] is in the history of [x]. *)
Inductive hist : VerifiedBlock -> BlockRef -> Prop :=
| hi_one x r : r ∈ ancestors x -> hist x r
| hi_step x y r : univ y -> reference y ∈ ancestors x -> hist y r -> hist x r.

(** [y] is the block that [x] names as its own last one. *)
Definition origin (x y : VerifiedBlock) : Prop := univ y /\ head (ancestors x) = Some (reference y).

(** [x] is the first block of its authority above [r]. *)
Definition first_above (x : VerifiedBlock) (r : BlockRef) : Prop :=
  hist x r /\ forall p, origin x p -> ~ hist p r.

(** Blocks are well-formed and name their own last block first.  An authority
    outside [byz] makes one block per round, each on top of all its earlier
    ones, and votes on a block only when it first has it in its history, with
    one entry. *)
Record vote_network : Prop := {
  vn_honest : honest_universe c byz univ;
  vn_wf : forall x, univ x -> wf_block c x;
  vn_closed : forall x a, univ x -> a ∈ ancestors x -> 0 < br_round a -> exists y, univ y /\ reference y = a;
  vn_own : forall x, univ x -> exists p, head (ancestors x) = Some p /\ br_author p = author x;
  vn_latest : forall x y, univ x -> univ y -> author x = author y -> author x ∉ byz -> round x < round y ->
    exists p, head (ancestors y) = Some p /\ round x <= br_round p;
  vn_votes : forall x r, univ x -> author x ∉ byz -> votes_on x r = true -> first_above x r;
  vn_once : forall x, univ x -> author x ∉ byz -> NoDup (btv_block_ref <$> transaction_votes x);
}.

(** Certificates of a leader: votes of a quorum among the ancestors. *)
Definition leader_cert (y l : VerifiedBlock) : Prop :=
  univ y /\ round y = round l + 2
  /\ exists Q, reached_quorum c (stake_of c Q) = true
       /\ forall a, a ∈ Q -> exists v, univ v /\ reference v ∈ ancestors y /\ author v = a /\ vote v l = true.

Section rounds.
Hypothesis Hwf : forall x, univ x -> wf_block c x.

Lemma wf_anc_round x y : univ x -> reference y ∈ ancestors x -> round y < round x.
Proof. intros Hx Hin. by destruct (wb_anc _ _ (Hwf x Hx) (reference y) Hin). Qed.

Lemma wf_hist_round x r : univ x -> hist x r -> br_round r < round x.
Proof.
  intros Hx Hh. induction Hh as [x r Hin|x y r Hy Hin _ IH].
  - by destruct (wb_anc _ _ (Hwf x Hx) r Hin).
  - pose proof (wf_anc_round x y Hx Hin). specialize (IH Hy). lia.
Qed.
End rounds.

Hypothesis Hn : vote_network.
Definition anc_round := wf_anc_round (vn_wf Hn).
Definition hist_round := wf_hist_round (vn_wf Hn).

Lemma hist_trans x y r : univ y -> hist x (reference y) -> hist y r -> hist x r.
Proof.
  intros Hy Hxy Hyr. remember (reference y) as ry eqn:E. induction Hxy as [x r' Hin|x z r' Hz Hin _ IH]; subst r'.
  - by eapply hi_step.
  - eapply hi_step; [exact Hz|exact Hin|]. by apply IH.
Qed.

Lemma origin_hist x p r : origin x p -> hist p r -> hist x r.
Proof. intros [Hp Hh] Hr. eapply hi_step; [exact Hp| |exact Hr]. by apply head_Some_elem_of. Qed.

Lemma origin_author x p : univ x -> origin x p -> author p = author x.
Proof.
  intros Hx [Hp Hh]. destruct (vn_own Hn x Hx) as (q & Hq & Ha). rewrite Hh in Hq. by injection Hq as <-.
Qed.

Lemma origin_round x p : univ x -> origin x p -> round p < round x.
Proof. intros Hx [Hp Hh]. apply (anc_round x p Hx). by apply head_Some_elem_of. Qed.

(** Whether a block is in a history is decided, as the histories are finite. *)
Lemma hist_em x r : univ x -> hist x r \/ ~ hist x r.
Proof.
  remember (N.to_nat (round x)) as n eqn:En. revert x En. induction n as [n IH] using lt_wf_ind. intros x -> Hx.
  destruct (decide (r ∈ ancestors x)) as [Hin|Hout]; [left; by apply hi_one|].
  assert (forall l, l ⊆ ancestors x ->
    (exists y, univ y /\ reference y ∈ l /\ hist y r) \/ ~ (exists y, univ y /\ reference y ∈ l /\ hist y r)) as Hl.
  { induction l as [|a l IHl]; intros Hsub; [right; intros (y & _ & Hy & _); inversion Hy|].
    destruct IHl as [(y & ? & ? & ?)|Hno]; [set_solver|left; exists y; set_solver|].
    destruct (decide (0 < br_round a)) as [Hpos|Hz].
    - destruct (vn_closed Hn x a Hx) as (y & Hy & <-); [set_solver|done|].
      pose proof (anc_round x y Hx (Hsub _ ltac:(by left))) as Hlt.
      destruct (IH (N.to_nat (round y)) ltac:(lia) y eq_refl Hy) as [Hh|Hh].
      + left. exists y. split_and!; [done|by left|done].
      + right. intros (y' & Hy' & [E|Hin']%elem_of_cons & Hh'); [|by eauto].
        apply (hu_ref _ _ _ (vn_honest Hn)) in E; [by subst|done|done].
    - right. intros (y' & Hy' & [E|Hin']%elem_of_cons & Hh'); [|by eauto].
      apply Hz. rewrite <- E. apply (wb_round _ _ (vn_wf Hn y' Hy')). }
  destruct (Hl (ancestors x) ltac:(done)) as [(y & Hy & Hin & Hh)|Hno].
  - left. by eapply hi_step.
  - right. intros Hh. destruct Hh as [x r Hin|x y r Hy Hin Hh]; [done|]. apply Hno. by exists y.
Qed.

(** Going down along the own blocks, one is the first above [r]. *)
Lemma first_exists x r :
  univ x -> hist x r -> exists z, univ z /\ author z = author x /\ (z = x \/ hist x (reference z)) /\ first_above z r.
Proof.
  remember (N.to_nat (round x)) as n eqn:En. revert x En. induction n as [n IH] using lt_wf_ind. intros x -> Hx Hh.
  destruct (vn_own Hn x Hx) as (p & Hp & Hpa).
  assert (first_above x r \/ exists q, origin x q /\ hist q r) as [Hf|(q & Hq & Hqr)].
  { destruct (decide (0 < br_round p)) as [Hpos|Hz].
    - destruct (vn_closed Hn x p Hx (head_Some_elem_of _ _ Hp) Hpos) as (q & Hq & <-).
      destruct (hist_em q r Hq) as [Hqr|Hqr]; [right; by exists q|]. left. split; [done|].
      intros q' [Hq' Hh'] Hr. assert (q = q') as <-; [|done]. apply (hu_ref _ _ _ (vn_honest Hn)); [done..|]. congruence.
    - left. split; [done|]. intros q' [Hq' Hh'] _. assert (p = reference q') as -> by congruence. apply Hz.
      apply (wb_round _ _ (vn_wf Hn q' Hq')). }
  { exists x. split_and!; [done|done|by left|done]. }
  pose proof (origin_round x q Hx Hq). destruct Hq as [Uq Hhq].
  destruct (IH (N.to_nat (round q)) ltac:(lia) q eq_refl Uq Hqr) as (z & Uz & Ha & Hz & Hf).
  exists z. split_and!; [done|by rewrite Ha; apply origin_author|right|done].
  destruct Hz as [->|Hz]; [apply hi_one; by apply head_Some_elem_of|by apply (origin_hist x q)].
Qed.

(** Blocks of an honest authority are on top of one another. *)
Lemma own_chain x y r :
  univ x -> univ y -> author x = author y -> author x ∉ byz -> round x < round y -> hist x r ->
  exists p, origin y p /\ hist p r.
Proof.
  intros Hx. remember (N.to_nat (round y)) as n eqn:En. revert y En. induction n as [n IH] using lt_wf_ind.
  intros y -> Hy Ha Hb Hlt Hr. destruct (vn_latest Hn x y Hx Hy Ha Hb Hlt) as (p & Hp & Hle).
  pose proof (wb_round _ _ (vn_wf Hn x Hx)).
  destruct (vn_closed Hn y p Hy (head_Some_elem_of _ _ Hp) ltac:(lia)) as (q & Hq & <-).
  assert (origin y q) as Ho by done. pose proof (origin_author y q Hy Ho) as Hqa. pose proof (origin_round y q Hy Ho).
  change (br_round (reference q)) with (round q) in Hle. exists q. split; [done|].
  destruct (decide (round x = round q)) as [E|E].
  - assert (x = q) as <-; [|done]. apply (hu_honest _ _ _ (vn_honest Hn)); try done. congruence.
  - destruct (IH (N.to_nat (round q)) ltac:(lia) q eq_refl Hq) as (p & Hop & Hpr); [congruence|done|lia|done|].
    by eapply origin_hist.
Qed.

(** An honest authority votes on a block with one block only. *)
Lemma one_voter x y r :
  univ x -> univ y -> author x = author y -> author x ∉ byz -> first_above x r -> first_above y r -> x = y.
Proof.
  intros Hx Hy Ha Hb [Hxr Hx1] [Hyr Hy1]. destruct (N.lt_trichotomy (round x) (round y)) as [Hlt|[E|Hlt]].
  - destruct (own_chain x y r Hx Hy Ha Hb Hlt Hxr) as (p & Hp & Hr). by destruct (Hy1 p Hp).
  - by apply (hu_honest _ _ _ (vn_honest Hn)).
  - destruct (own_chain y x r Hy Hx (eq_sym Ha)) as (p & Hp & Hr); [congruence|done|done|]. by destruct (Hx1 p Hp).
Qed.

End network.

(* ------------------------------------------------------------------ *)
(** ** The commits of the network *)

Section stream.
Context (ctx : Context) (byz : gset N) (univ : VerifiedBlock -> Prop).
Notation c := (committee ctx).
Notation hist := (hist univ).
Context (Hn : vote_network c byz univ).

Definition sub_dag_leader (sd : CommittedSubDag) (l : VerifiedBlock) : Prop := l ∈ sd_blocks sd /\ reference l = sd_leader sd.

(** [m] is the first commit with a leader three or more rounds above [i]. *)
Definition settles (all : list CommittedSubDag) (i m : nat) : Prop :=
  exists sdi sdm, all !! i = Some sdi /\ all !! m = Some sdm /\ sub_round sdi + 3 <= sub_round sdm
    /\ forall j sdj, (j < m)%nat -> all !! j = Some sdj -> sub_round sdj < sub_round sdi + 3.

(** Each commit has its leader and blocks of its history; with a block it, or
    an earlier one, has the ancestors above the GC round of the commit before. *)
Record committed_stream (all : list CommittedSubDag) : Prop := {
  ct_fresh : fresh_stream ctx all;
  ct_univ : forall b, b ∈ pool all -> univ b;
  ct_leader : forall sd, sd ∈ all -> exists l, sub_dag_leader sd l /\ forall b, b ∈ sd_blocks sd -> b = l \/ hist l (reference b);
  ct_closed : forall j sd x y, all !! j = Some sd -> y ∈ sd_blocks sd -> univ x -> reference x ∈ ancestors y ->
    tracker_gc ctx all j < round x -> exists j' sd', (j' <= j)%nat /\ all !! j' = Some sd' /\ x ∈ sd_blocks sd';
}.

(** The leader that settles a commit has a certificate of its leader in its
    history.  A leader committed by the direct rule is certified in all
    histories three rounds above; for the indirect rule, the anchor that
    decides the leader is the one that settles the commit, as long as the
    leader schedule does not change between the two. *)
Definition anchored_at (all : list CommittedSubDag) (i : nat) : Prop :=
  forall m sdi sdm l lm, settles all i m -> all !! i = Some sdi -> all !! m = Some sdm ->
    sub_dag_leader sdi l -> sub_dag_leader sdm lm -> exists y, leader_cert c univ y l /\ hist lm (reference y).

Definition anchored (all : list CommittedSubDag) : Prop := forall i, anchored_at all i.

Record decided_stream (all : list CommittedSubDag) : Prop := {
  dt_stream : committed_stream all;
  dt_anchor : anchored all;
}.

Context (all : list CommittedSubDag) (D : committed_stream all).

(** [x] is committed, at position [j]. *)
Definition at_pos (j : nat) (x : VerifiedBlock) : Prop := exists sd, all !! j = Some sd /\ x ∈ sd_blocks sd.

Lemma at_pos_pool j x : at_pos j x -> x ∈ pool all.
Proof. intros (sd & Hj & Hx). apply pool_position. by exists j, sd. Qed.

Lemma at_pos_unique i j x : at_pos i x -> at_pos j x -> i = j.
Proof.
  intros (sd & Hi & Hx) (sd' & Hj & Hx'). by apply (position_unique ctx all i j sd sd' x (fs_stream _ _ (ct_fresh _ D))).
Qed.

Lemma at_pos_lt j x : at_pos j x -> (j < length all)%nat.
Proof. intros (sd & Hj & _). by apply lookup_lt_Some in Hj. Qed.

Lemma at_pos_gc j x : at_pos j x -> tracker_gc ctx all j < round x.
Proof. intros (sd & Hj & Hx). by apply (above_tracker_gc ctx all j sd x j (ct_fresh _ D)). Qed.

Lemma gc_mono i j : (i <= j)%nat -> (j <= length all)%nat -> tracker_gc ctx all i <= tracker_gc ctx all j.
Proof. intros ? ?. by apply (tracker_gc_mono ctx all i j (ct_fresh _ D)). Qed.

(** What a committed block has in its history, above the GC round, is
    committed with it or before. *)
Lemma hist_committed j x y :
  at_pos j y -> univ x -> hist y (reference x) -> tracker_gc ctx all j < round x -> exists j', (j' <= j)%nat /\ at_pos j' x.
Proof.
  intros Hy Hx Hh. remember (reference x) as r eqn:E. revert j Hy. induction Hh as [y r Hin|y z r Hz Hin Hzx IH]; intros j Hy Hg; subst r.
  - destruct Hy as (sd & Hj & Hy). destruct (ct_closed _ D j sd x y Hj Hy Hx Hin Hg) as (j' & sd' & ? & ? & ?).
    exists j'. split; [done|]. by exists sd'.
  - pose proof (hist_round c byz univ Hn z _ Hz Hzx) as Hlt. change (br_round (reference x)) with (round x) in Hlt.
    pose proof (at_pos_lt _ _ Hy) as Hjl.
    destruct Hy as (sd & Hj & Hy). destruct (ct_closed _ D j sd z y Hj Hy Hz Hin ltac:(lia)) as (j' & sd' & Hle & Hj' & Hz').
    pose proof (gc_mono j' j Hle ltac:(lia)). destruct (IH eq_refl j') as (j2 & ? & ?); [by exists sd'|lia|].
    exists j2. split; [lia|done].
Qed.

(** A block of the history is not committed later. *)
Lemma above_position i j b y : at_pos i b -> at_pos j y -> hist y (reference b) -> (i <= j)%nat.
Proof.
  intros Hb Hy Hh. destruct (le_lt_dec i j) as [?|Hlt]; [done|]. exfalso.
  pose proof (at_pos_gc _ _ Hb). pose proof (at_pos_lt _ _ Hb). pose proof (gc_mono j i ltac:(lia) ltac:(lia)).
  destruct (hist_committed j b y Hy (ct_univ _ D _ (at_pos_pool _ _ Hb)) Hh ltac:(lia)) as (j' & Hle & Hj').
  pose proof (at_pos_unique _ _ _ Hb Hj'). lia.
Qed.

Definition part (i k : nat) : list CommittedSubDag := take (S k - i) (drop i all).

Lemma part_lookup i k n : (i + n <= k)%nat -> part i k !! n = all !! (i + n)%nat.
Proof. intros Hn'. unfold part. rewrite lookup_take_lt by lia. apply lookup_drop. Qed.

Lemma part_pool i k x : x ∈ pool (part i k) <-> exists j, (i <= j <= k)%nat /\ at_pos j x.
Proof.
  rewrite pool_position. split.
  - intros (n & sd & En & Hx). unfold part in En. apply lookup_take_Some in En as [En Hlt]. rewrite lookup_drop in En.
    exists (i + n)%nat. split; [lia|]. by exists sd.
  - intros (j & Hj & sd & Ej & Hx). exists (j - i)%nat, sd. split; [|done]. rewrite part_lookup by lia.
    by replace (i + (j - i))%nat with j by lia.
Qed.

Lemma part_lost i k n b : (i + n <= k)%nat -> at_pos i b -> (i + n < length all)%nat ->
  lost_at ctx (part i k) (reference b) n = false <-> tracker_gc ctx all (i + n) < round b.
Proof.
  intros Hnk Hb Hlen. destruct n as [|n]; cbn [lost_at].
  - rewrite Nat.add_0_r. split; [intros _; by apply at_pos_gc|done].
  - rewrite part_lookup by lia. rewrite Nat.add_succ_r. cbn [tracker_gc].
    destruct (lookup_lt_is_Some_2 all (i + n)) as [sd ->]; [lia|]. by rewrite N.leb_gt.
Qed.
(** Between the commit of [b] and a block above it that cannot have lost its
    votes on [b], the commits have all of the history. *)
Section window.
Context (i k : nat) (b : VerifiedBlock) (Hb : at_pos i b).

Lemma window_pool j y :
  at_pos j y -> (j <= k)%nat -> hist y (reference b) -> y ∈ pool (part i k).
Proof. intros Hy Hk Hh. apply part_pool. exists j. split; [|done]. split; [by apply (above_position i j b y)|done]. Qed.

Lemma window_descends j y :
  at_pos j y -> (j <= k)%nat -> tracker_gc ctx all j < round b -> hist y (reference b) -> descends (pool (part i k)) (reference b) y.
Proof.
  intros Hy Hk Hg Hh. pose proof (window_pool j y Hy Hk Hh) as Hin. remember (reference b) as r eqn:E.
  revert j Hy Hk Hg Hin. induction Hh as [y r Ha|y z r Hz Ha Hzr IH]; intros j Hy Hk Hg Hin; [by apply de_child|].
  subst r. pose proof (hist_round c byz univ Hn z _ Hz Hzr) as Hlt. change (br_round (reference b)) with (round b) in Hlt.
  destruct (hist_committed j z y Hy Hz (hi_one univ y _ Ha) ltac:(lia)) as (j' & Hle & Hj').
  pose proof (gc_mono j' j Hle ltac:(apply at_pos_lt in Hy; lia)).
  apply (de_step _ _ z); [|done|done]. apply (IH eq_refl j' Hj'); [lia|lia|]. by apply (window_pool j'); [|lia|].
Qed.

Lemma descends_hist y : descends (pool (part i k)) (reference b) y -> univ y /\ hist y (reference b).
Proof.
  induction 1 as [y Hy Ha|x y _ [Hx IH] Hy Ha].
  - split; [|by apply hi_one]. apply part_pool in Hy as (j & _ & Hj). by apply (ct_univ _ D), (at_pos_pool j).
  - split; [|by eapply hi_step]. apply part_pool in Hy as (j & _ & Hj). by apply (ct_univ _ D), (at_pos_pool j).
Qed.

(** Acceptance, in terms of the histories alone. *)
Lemma accept_in_iff t a :
  (k < length all)%nat ->
  accept_in ctx (part i k) (reference b) t a
  <-> exists j y, (i <= j <= k)%nat /\ at_pos j y /\ author y = a /\ first_above univ y (reference b)
      /\ tracker_gc ctx all j < round b /\ t ∉ default ∅ (reject_map y !! reference b).
Proof.
  intros Hlen. split.
  - intros (n & sd & y & En & Hy & Hd & Ha & Hl & Hr & Hf). unfold part in En. apply lookup_take_Some in En as [En Hlt].
    rewrite lookup_drop in En. assert (at_pos (i + n) y) as Hp by by exists sd.
    rewrite part_lost in Hl by (try done; lia). destruct (descends_hist y Hd) as [Uy Hh].
    exists (i + n)%nat, y. enough (forall p, origin univ y p -> ~ hist p (reference b)) by (split_and!; (done || lia)).
    intros p Hp0 Hpr. apply Hf. pose proof Hp0 as [Up Hhd].
    pose proof (hist_round c byz univ Hn p _ Up Hpr) as Hlt2. change (br_round (reference b)) with (round b) in Hlt2.
    destruct (hist_committed (i + n) p y Hp Up (hi_one univ y _ (head_Some_elem_of _ _ Hhd)) ltac:(lia)) as (j' & Hle & Hj').
    pose proof (gc_mono j' (i + n) Hle ltac:(lia)). exists p.
    split; [by apply (window_descends j'); [|lia|lia|]|]. apply od_one; [by apply (window_pool j'); [|lia|]|done|].
    by apply (origin_author c byz univ Hn).
  - intros (j & y & Hj & Hp & Ha & [Hh Hf] & Hg & Hr). pose proof Hp as (sd & Ej & Hy).
    exists (j - i)%nat, sd, y. rewrite part_lookup by lia. replace (i + (j - i))%nat with j by lia.
    split_and!; [done|done|apply (window_descends j); [done|lia|done|done]|done| |done|].
    + rewrite part_lost by (try done; lia). by replace (i + (j - i))%nat with j by lia.
    + intros (z & Hz & Ho). destruct (descends_hist z Hz) as [Uz Hzh]. revert Hf. clear -Ho Uz Hzh D.
      assert (forall x y, origin_desc (pool (part i k)) y x -> hist x (reference b) -> hist y (reference b)
                /\ exists p, origin univ y p /\ hist p (reference b)) as Hgen.
      { clear -D. induction 1 as [y x Hx Hhd _|y w x Hw Hhd _ _ IH]; intros Hxr.
        - apply part_pool in Hx as (j & _ & Hj). pose proof (ct_univ _ D _ (at_pos_pool j x Hj)) as Ux.
          split; [by apply (origin_hist univ y x)|]. by exists x.
        - apply part_pool in Hw as (j & _ & Hj). pose proof (ct_univ _ D _ (at_pos_pool j w Hj)) as Uw.
          destruct (IH Hxr) as [Hwr _]. split; [by apply (origin_hist univ y w)|]. by exists w. }
      intros Hf. destruct (Hgen z y Ho Hzh) as [_ (p & Hp & Hpr)]. by apply (Hf p Hp).
Qed.

End window.

Lemma accepted_in_mono i k k' b t :
  at_pos i b -> (k <= k' < length all)%nat -> accepted_in ctx (part i k) (reference b) t ->
  accepted_in ctx (part i k') (reference b) t.
Proof.
  intros Hb Hk (A & HA & Hacc). exists A. split; [done|]. intros a Ha. specialize (Hacc a Ha).
  rewrite accept_in_iff in Hacc by (done || lia). rewrite accept_in_iff by (done || lia).
  destruct Hacc as (j & y & ? & ?). exists j, y. split; [lia|done].
Qed.
End stream.

(** The finalizer reads the last entry on a block, the tracker all of them; with
    one entry per block they read the same. *)
Lemma reject_map_sub x r t : t ∈ default ∅ (reject_map x !! r) -> rejects_tx x r t = true.
Proof.
  unfold reject_map, block_state_new, rejects_tx. cbn [bs_reject_votes].
  assert (forall l (m : gmap BlockRef (gset N)),
    t ∈ default ∅ (foldl (fun m v => <[btv_block_ref v := list_to_set (btv_rejects v)]> m) m l !! r) ->
    existsb (fun v => bool_decide (btv_block_ref v = r) && bool_decide (t ∈ btv_rejects v)) l = true \/ t ∈ default ∅ (m !! r)) as Hgen.
  { induction l as [|v l IH]; intros m Ht; [by right|]. cbn [foldl existsb] in *. rewrite orb_true_iff, andb_true_iff, !bool_decide_eq_true.
    destruct (IH _ Ht) as [?|Hv]; [by left; right|]. destruct (decide (btv_block_ref v = r)) as [E|Hne].
    - rewrite E, lookup_insert_eq in Hv. apply elem_of_list_to_set in Hv. left. by left.
    - rewrite lookup_insert_ne in Hv by done. by right. }
  intros Ht. destruct (Hgen _ _ Ht) as [?|Hm]; [done|]. rewrite lookup_empty in Hm. by apply not_elem_of_empty in Hm.
Qed.

Lemma reject_map_once x r t :
  NoDup (btv_block_ref <$> transaction_votes x) -> rejects_tx x r t = true -> t ∈ default ∅ (reject_map x !! r).
Proof.
  unfold reject_map, block_state_new, rejects_tx. cbn [bs_reject_votes]. intros Hnd (v & Hv & [<-%bool_decide_eq_true Ht%bool_decide_eq_true]%andb_true_iff)%existsb_exists.
  apply list_elem_of_In in Hv. generalize (∅ : gmap BlockRef (gset N)) as m. revert Hnd Hv.
  generalize (transaction_votes x) as l. induction l as [|w l IH]; intros Hnd Hv m; [inversion Hv|]. cbn [foldl fmap list_fmap] in *.
  apply NoDup_cons in Hnd as [Hw Hnd]. apply elem_of_cons in Hv as [<-|Hv]; [|by apply IH].
  assert (forall l (m : gmap BlockRef (gset N)), btv_block_ref v ∉ btv_block_ref <$> l ->
    foldl (fun m v => <[btv_block_ref v := list_to_set (btv_rejects v)]> m) m l !! btv_block_ref v = m !! btv_block_ref v) as Hkeep.
  { clear. induction l as [|w l IH]; intros m Hl; [done|]. cbn [foldl fmap list_fmap] in *. apply not_elem_of_cons in Hl as [? ?].
    rewrite IH by done. by rewrite lookup_insert_ne. }
  rewrite Hkeep, lookup_insert_eq by done. cbn. by apply elem_of_list_to_set.
Qed.

(** What a verdict depends on of a commit. *)
Definition shape (sd : CommittedSubDag) : BlockRef * list VerifiedBlock := (sd_leader sd, sd_blocks sd).

Lemma pool_shape s : pool s = (shape <$> s) ≫= snd.
Proof. unfold pool. by rewrite list_fmap_bind. Qed.

Lemma shape_lookup (s1 s2 : list CommittedSubDag) i sd :
  shape <$> s1 = shape <$> s2 -> s1 !! i = Some sd -> exists sd', s2 !! i = Some sd' /\ shape sd = shape sd'.
Proof.
  intros E Hi. assert ((shape <$> s2) !! i = Some (shape sd)) as Hs by by rewrite <- E, list_lookup_fmap, Hi.
  rewrite list_lookup_fmap in Hs. apply fmap_Some in Hs as (sd' & ? & ?). by exists sd'.
Qed.

Lemma accepted_shape ctx s1 s2 r t :
  shape <$> s1 = shape <$> s2 -> accepted_in ctx s1 r t -> accepted_in ctx s2 r t.
Proof.
  intros E (A & HA & Hacc). exists A. split; [done|]. intros a Ha. destruct (Hacc a Ha) as (i & sd & y & Hi & Hy & Hd & Hau & Hl & Hr & Hf).
  destruct (shape_lookup s1 s2 i sd E Hi) as (sd' & Hi' & [= _ Hsh]). assert (pool s1 = pool s2) as Hp by by rewrite !pool_shape, E.
  exists i, sd', y. rewrite <- Hp. split_and!; try done; [by rewrite <- Hsh|]. rewrite <- Hl. destruct i as [|i]; [done|]. cbn [lost_at].
  destruct (s1 !! i) as [x|] eqn:Ex.
  - destruct (shape_lookup s1 s2 i x E Ex) as (x' & -> & [= Hl' _]). unfold sub_round. by rewrite Hl'.
  - apply lookup_ge_None in Ex. apply lookup_lt_Some in Hi. lia.
Qed.

Section nodes.
Context {S : Type} {ST : Store S} {SL : StoreLaws S}.
Context (ctx : Context) (byz : gset N) (univ : VerifiedBlock -> Prop).
Notation c := (committee ctx).
Notation hist := (hist univ).
Context (Hn : vote_network c byz univ).
Context (all : list CommittedSubDag) (D : committed_stream ctx univ all).

(** A set of blocks that has their ancestors above a round. *)
Definition closed_above (g : N) (P : VerifiedBlock -> Prop) : Prop :=
  forall x y, P y -> univ x -> reference x ∈ ancestors y -> g < round x -> P x.

(** The leader of commit [i] is certified in a set of blocks: by a quorum, or
    through the leader that settles the commit. *)
Definition certified_in (P : VerifiedBlock -> Prop) (i : nat) (l : VerifiedBlock) : Prop :=
  (exists Q, reached_quorum c (stake_of c Q) = true /\ forall a, a ∈ Q -> exists y, P y /\ author y = a /\ leader_cert c univ y l)
  \/ exists m sdm lm, settles all i m /\ all !! m = Some sdm /\ sub_dag_leader sdm lm /\ P lm.

(** A node of the network, with its own context.  It receives the commits of the network and tracks
    blocks of it.  When it decided a commit with its own blocks, it had
    accepted blocks that certify the leader, with their ancestors above its GC
    round, and it tracked them. *)
Record finalizing_node (context : Context) (events : list (finalizer_event S)) : Prop := {
  fn_config : same_config ctx context;
  fn_events : node_events context events;
  fn_stream : shape <$> commits_of events `prefix_of` shape <$> all;
  fn_univ : forall b v, (b, v) ∈ tracked_blocks events -> univ b;
  fn_local : forall l1 dag sd l2 l, events = l1 ++ Committed dag sd :: l2 -> decided_with_local_blocks sd = true -> sub_dag_leader sd l ->
    exists P, (forall x, P x -> univ x /\ x ∈ (tracked_blocks l1).*1)
      /\ closed_above (tracker_gc ctx all (length (commits_of l1))) P /\ certified_in P (length (commits_of l1)) l;
}.

Lemma closed_hist g P x y : closed_above g P -> P y -> univ x -> hist y (reference x) -> g < round x -> P x.
Proof.
  intros Hcl Hy Hx Hh Hg. remember (reference x) as r eqn:E. revert Hy. induction Hh as [y r Ha|y z r Hz Ha Hzx IH]; intros Hy; subst r.
  - by apply (Hcl x y).
  - pose proof (hist_round c byz univ Hn z _ Hz Hzx) as Hlt. change (br_round (reference x)) with (round x) in Hlt.
    apply IH; [done|]. apply (Hcl z y); try done. lia.
Qed.

(** With certificates of a quorum, any block three rounds above has one in its
    history. *)
Lemma quorum_cert_hist (P : VerifiedBlock -> Prop) Q l z :
  reached_quorum c (stake_of c Q) = true -> (forall a, a ∈ Q -> exists y, P y /\ author y = a /\ leader_cert c univ y l) ->
  univ z -> round l + 3 <= round z -> exists y, P y /\ leader_cert c univ y l /\ hist z (reference y).
Proof.
  intros HQ Hcert. remember (N.to_nat (round z)) as n eqn:En. revert z En. induction n as [n IH] using lt_wf_ind. intros z -> Hz Hr.
  pose proof (vn_wf c byz univ Hn z Hz) as W.
  destruct (quorums_meet c byz univ (vn_honest _ _ _ Hn) _ _ HQ (proj2 (N.leb_le _ _) (wb_quorum _ _ W))) as (a & A1 & A2 & Ha).
  unfold parent_authors, parents in A2. apply elem_of_list_to_set, list_elem_of_fmap in A2 as (p & Hpa & Hin).
  apply list_elem_of_filter in Hin as [Rp Hin].
  destruct (vn_closed c byz univ Hn z p Hz Hin) as (w & Hw & <-); [lia|]. change (br_round (reference w)) with (round w) in Rp.
  destruct (decide (round z = round l + 3)) as [E|E].
  - destruct (Hcert a A1) as (y & Hy & Hya & Hyc). assert (w = y) as <-.
    { destruct Hyc as (Uy & Ry & _). apply (hu_honest _ _ _ (vn_honest _ _ _ Hn)); try done; [|lia|].
      - change (br_author (reference w)) with (author w) in Hpa. congruence.
      - change (br_author (reference w)) with (author w) in Hpa. congruence. }
    exists w. split_and!; [done|done|by apply hi_one].
  - destruct (IH (N.to_nat (round w)) ltac:(lia) w eq_refl Hw ltac:(lia)) as (y & ? & ? & ?).
    exists y. split_and!; [done|done|by eapply hi_step].
Qed.
(** The first own blocks above [b] in the history of a certificate. *)
Lemma cert_voters_first y l b :
  leader_cert c univ y l -> univ l -> b = l \/ hist l (reference b) ->
  exists Q, reached_quorum c (stake_of c Q) = true
    /\ forall a, a ∈ Q -> exists x, univ x /\ author x = a /\ first_above univ x (reference b) /\ hist y (reference x).
Proof.
  intros (Uy & _ & Q & HQ & Hv) Ul Hb. exists Q. split; [done|]. intros a Ha. destruct (Hv a Ha) as (v & Uv & Hvy & <- & Hvote).
  apply vote_spec in Hvote as [_ Hl]. assert (hist v (reference b)) as Hh.
  { destruct Hb as [->|Hb]; [by apply hi_one|exact (hi_step univ v l _ Ul Hl Hb)]. }
  destruct (first_exists c byz univ Hn v _ Uv Hh) as (x & Ux & Hxa & Hx & Hf). exists x. split_and!; try done.
  destruct Hx as [->|Hx]; [by apply hi_one|exact (hi_step univ y v _ Uv Hvy Hx)].
Qed.

Lemma settles_unique i m m' : settles all i m -> settles all i m' -> m = m'.
Proof.
  intros (sdi & sdm & Hi & Hm & Hr & Hb) (sdi' & sdm' & Hi' & Hm' & Hr' & Hb'). simplify_eq.
  destruct (lt_eq_lt_dec m m') as [[Hlt|?]|Hlt]; [|done|].
  - specialize (Hb' m sdm Hlt Hm). lia.
  - specialize (Hb m' sdm' Hlt Hm'). lia.
Qed.

Lemma sub_dag_leader_unique sd j l l' : all !! j = Some sd -> sub_dag_leader sd l -> sub_dag_leader sd l' -> l = l'.
Proof.
  intros Hj [Hl E] [Hl' E']. apply (hu_ref _ _ _ (vn_honest _ _ _ Hn)); [| |congruence]; apply (ct_univ _ _ _ D), pool_position; eauto.
Qed.

Section evidence.
Context (i : nat) (b l : VerifiedBlock) (sdi : CommittedSubDag).
Context (Hi : all !! i = Some sdi) (Hl : sub_dag_leader sdi l) (Hlb : b = l \/ hist l (reference b)).

Lemma evidence_univ : univ l /\ round b <= round l.
Proof.
  assert (univ l) as Ul by (apply (ct_univ _ _ _ D), pool_position; exists i, sdi; split; [done|apply Hl]). split; [done|].
  destruct Hlb as [->|Hh]; [done|]. pose proof (hist_round c byz univ Hn l _ Ul Hh) as Hlt.
  change (br_round (reference b)) with (round b) in Hlt. lia.
Qed.

Context (Hanc : anchored_at ctx univ all i).
Context (P : VerifiedBlock -> Prop) (Hcl : closed_above (round b) P) (Hcert : certified_in P i l).

(** The certificate that is known is in the history of the leader that settles
    the commit. *)
Lemma evidence_common m sdm lm :
  settles all i m -> all !! m = Some sdm -> sub_dag_leader sdm lm -> exists y, P y /\ leader_cert c univ y l /\ hist lm (reference y).
Proof.
  intros Hm Hsdm Hlm. destruct evidence_univ as [Ul Hr]. destruct Hcert as [(Q & HQ & HP)|(m' & sdm' & lm' & Hm' & Hsdm' & Hlm' & HP)].
  - apply (quorum_cert_hist P Q l lm HQ HP).
    + apply (ct_univ _ _ _ D), pool_position. exists m, sdm. split; [done|apply Hlm].
    + destruct Hm as (x & y & Ex & Ey & Hle & _). simplify_eq. destruct Hl as [_ E]. destruct Hlm as [_ E'].
      change (round l) with (br_round (reference l)). change (round lm) with (br_round (reference lm)). by rewrite E, E'.
  - pose proof (settles_unique i m m' Hm Hm') as <-. simplify_eq. pose proof (sub_dag_leader_unique sdm m lm lm' Hsdm Hlm Hlm') as <-.
    destruct (Hanc m sdi sdm l lm Hm Hi Hsdm Hl Hlm) as (y & Hy & Hh). exists y. split_and!; try done.
    destruct Hy as (Uy & Ry & _). apply (closed_hist (round b) P y lm); try done. lia.
Qed.

Lemma evidence_known : exists y, P y /\ leader_cert c univ y l.
Proof.
  destruct Hcert as [(Q & HQ & HP)|(m & sdm & lm & Hm & Hsdm & Hlm & HP)].
  - destruct (quorums_meet c byz univ (vn_honest _ _ _ Hn) _ _ HQ HQ) as (a & Ha & _). destruct (HP a Ha) as (y & ? & ? & ?). by exists y.
  - destruct (evidence_common m sdm lm Hm Hsdm Hlm) as (y & ? & ? & _). by exists y.
Qed.
End evidence.
(* ------------------------------------------------------------------ *)
(** ** What a node knows *)

Section node.
Context (context : Context) (events : list (finalizer_event S)) (F : finalizing_node context events) (H : history) (HH : history_of ctx events H).

Lemma node_commit j sd : H.*2 !! j = Some sd -> exists sd', all !! j = Some sd' /\ shape sd = shape sd'.
Proof.
  destruct HH as [-> _]. destruct (fn_stream _ _ F) as [rest Hp]. intros Hj.
  assert ((shape <$> all) !! j = Some (shape sd)) as E by (rewrite Hp; apply lookup_app_l_Some; by rewrite list_lookup_fmap, Hj).
  rewrite list_lookup_fmap in E. apply fmap_Some in E as (sd' & ? & ?). by exists sd'.
Qed.

Lemma node_length : (length H <= length all)%nat.
Proof.
  destruct HH as [E _]. destruct (fn_stream _ _ F) as [rest Hp]. apply (f_equal length) in Hp. rewrite length_app, !length_fmap in Hp.
  apply (f_equal length) in E. rewrite length_fmap in E. lia.
Qed.

Lemma node_segment i k : (k < length H)%nat -> (i <= k)%nat -> shape <$> segment H i k = shape <$> part all i k.
Proof.
  intros Hk Hik. unfold segment, part. rewrite !fmap_take, !fmap_drop. destruct HH as [E _]. destruct (fn_stream _ _ F) as [rest Hp].
  rewrite Hp, E. assert (length (shape <$> commits_of events) = length H) as El by (rewrite <- E, !length_fmap; done).
  rewrite drop_app_le by lia. rewrite take_app_le; [done|]. rewrite length_drop. lia.
Qed.

(** The blocks that were tracked before commit [k]. *)
Definition known_at (k : nat) (x : VerifiedBlock) : Prop :=
  forall l1 dag sd l2, events = l1 ++ Committed dag sd :: l2 -> length (commits_of l1) = k -> x ∈ (tracked_blocks l1).*1.

Lemma known_before l1 dag sd l2 k x :
  events = l1 ++ Committed dag sd :: l2 -> (length (commits_of l1) <= k)%nat -> x ∈ (tracked_blocks l1).*1 -> known_at k x.
Proof.
  intros E Hk Hx l1' dag' sd' l2' E' Hk'. rewrite E in E'. apply app_eq_inv in E' as [(l & -> & El)|(l & -> & _)].
  - destruct l as [|e l]; [by rewrite app_nil_r in Hx|]. injection El as <- _.
    rewrite commits_app, length_app in Hk. simpl in Hk. lia.
  - rewrite tracked_app, fmap_app. apply elem_of_app. by left.
Qed.

Lemma known_univ votes sd k x : H !! k = Some (votes, sd) -> known_at k x -> univ x.
Proof.
  intros Hk Hx. destruct HH as [_ Hh]. destruct (Hh k votes sd Hk) as (_ & l1 & dag & l2 & E & Hl & _).
  specialize (Hx l1 dag sd l2 E Hl). apply list_elem_of_fmap in Hx as ([y v] & -> & Hin). apply (fn_univ _ _ F y v).
  rewrite E, tracked_app. apply elem_of_app. by left.
Qed.

(** Commits come after their blocks. *)
Lemma committed_known votes sd k j x : H !! k = Some (votes, sd) -> (j <= k)%nat -> at_pos all j x -> known_at k x.
Proof.
  intros Hk Hjk (sdj' & Hj' & Hx). destruct (lookup_lt_is_Some_2 H j) as [[vj sdj] Hj]; [apply lookup_lt_Some in Hk; lia|].
  destruct (node_commit j sdj) as (sd' & Hsd' & [= _ Esh]); [by rewrite list_lookup_fmap, Hj|].
  assert (sd' = sdj') as -> by congruence. rewrite <- Esh in Hx.
  destruct HH as [_ Hh]. destruct (Hh j vj sdj Hj) as (_ & l1 & dag & l2 & E & Hl & _).
  destruct (ne_dag _ _ (fn_events _ _ F) l1 dag sdj l2 E) as (_ & _ & _ & _ & Ht). specialize (Ht x Hx).
  apply list_elem_of_fmap in Ht as (y & Ey & Hy). assert (x = y) as <-.
  { apply (hu_ref _ _ _ (vn_honest _ _ _ Hn)); [| |done].
    - apply (ct_univ _ _ _ D), pool_position. exists j, sdj'. by rewrite <- Esh.
    - apply list_elem_of_fmap in Hy as ([y' v] & -> & Hy). apply (fn_univ _ _ F y' v). rewrite E, tracked_app. apply elem_of_app. by left. }
  apply (known_before l1 dag sdj l2); [done|lia|done].
Qed.

Lemma quorum_rejects_blocks votes sd k r t :
  H !! k = Some (votes, sd) -> quorum_rejects c votes r t ->
  exists Q, reached_quorum c (stake_of c Q) = true /\ forall a, a ∈ Q -> exists x, univ x /\ author x = a /\ rejects_tx x r t = true.
Proof.
  intros Hk (info & agg & Ei & Ea & Hq). destruct HH as [_ Hh]. destruct (Hh k votes sd Hk) as (Ec & l1 & dag & l2 & E & Hl & log & Ht & Hsub & _).
  pose proof (tv_rejects _ _ Ht r info Ei t) as Hr. rewrite Ea, Ec in Hr. destruct Hr as (Hwf & Hv & _).
  exists (rejecters log r t). split.
  - unfold reached_quorum. apply N.leb_le. rewrite <- Hv. destruct Hwf as [_ Hst]. unfold agg_stake in *. lia.
  - intros a (x & Hx & <- & Hrej)%elem_of_rejecters. exists x. split_and!; try done.
    apply list_elem_of_fmap in Hx as ([x' v] & -> & Hx). apply (fn_univ _ _ F x' v). rewrite E, tracked_app. apply elem_of_app. left. by apply Hsub.
Qed.

Lemma no_rejects_known votes sd k b t x :
  H !! k = Some (votes, sd) -> no_rejects votes (reference b) t -> known_at k x -> round b < round x -> rejects_tx x (reference b) t = false.
Proof.
  intros Hk (info & Ei & En) Hx Hr. pose proof (known_univ votes sd k x Hk Hx) as Ux.
  destruct HH as [_ Hh]. destruct (Hh k votes sd Hk) as (Ec & l1 & dag & l2 & E & Hl & log & Ht & Hsub & Hlog).
  specialize (Hx l1 dag sd l2 E Hl). apply list_elem_of_fmap in Hx as ([x0 v] & -> & Hx). simpl in *.
  pose proof (tv_above _ _ Ht _ _ Ei) as Hg. change (br_round (reference b)) with (round b) in Hg.
  specialize (Hlog x0 v Hx ltac:(lia)). apply list_elem_of_fmap in Hlog as (y & Ey & Hy). assert (x0 = y) as <-.
  { apply (hu_ref _ _ _ (vn_honest _ _ _ Hn)); [done| |done]. apply list_elem_of_fmap in Hy as ([y' v'] & -> & Hy). apply (fn_univ _ _ F y' v').
    rewrite E, tracked_app. apply elem_of_app. left. by apply Hsub. }
  destruct (rejects_tx x0 (reference b) t) eqn:Erej; [|done]. exfalso.
  pose proof (tv_rejects _ _ Ht _ info Ei t) as Hrej. rewrite En in Hrej.
  assert (author x0 ∈ rejecters log (reference b) t) as Hin by (apply elem_of_rejecters; by exists x0). rewrite Hrej in Hin. by apply not_elem_of_empty in Hin.
Qed.
Lemma timely_settles i k sdi sdk votes :
  H.*2 !! i = Some sdi -> H !! k = Some (votes, sdk) -> (i <= k)%nat ->
  (forall j sdj, (i <= j < k)%nat -> H.*2 !! j = Some sdj -> sub_round sdj < sub_round sdi + 3) ->
  sub_round sdi + 3 <= sub_round sdk -> settles all i k.
Proof.
  intros Hi Hk Hik Hw Hr. destruct (node_commit i sdi Hi) as (si & Ei & [= Li _]).
  destruct (node_commit k sdk) as (sk & Ek & [= Lk _]); [by rewrite list_lookup_fmap, Hk|].
  exists si, sk. unfold sub_round in *. rewrite <- Li, <- Lk. split_and!; try done. intros j sj Hj Ej.
  destruct (le_lt_dec i j) as [Hij|Hji].
  - destruct (lookup_lt_is_Some_2 H j) as [[vj hj] Hjj]; [apply lookup_lt_Some in Hk; lia|].
    assert (H.*2 !! j = Some hj) as Ehj by by rewrite list_lookup_fmap, Hjj.
    destruct (node_commit j hj Ehj) as (sj' & Ej' & [= Lj _]). assert (sj' = sj) as -> by congruence.
    specialize (Hw j hj ltac:(lia) Ehj). rewrite <- Lj. done.
  - pose proof (rounds_increase ctx all j i sj si (fs_stream _ _ (ct_fresh _ _ _ D)) Ej Ei Hji) as Hlt. unfold sub_round in Hlt. rewrite <- Li in Hlt. lia.
Qed.

(** Until a commit is settled, no GC round passes that of its own certificates. *)
Lemma timely_gc i k sdi sdk votes :
  H.*2 !! i = Some sdi -> H !! k = Some (votes, sdk) -> (i <= k)%nat ->
  (forall j sdj, (i <= j < k)%nat -> H.*2 !! j = Some sdj -> sub_round sdj < sub_round sdi + 3) ->
  tracker_gc ctx all k <= context_gc_round ctx (sub_round sdi + 3).
Proof.
  intros Hi Hk Hik Hw. destruct k as [|k]; [simpl; lia|]. simpl. pose proof (lookup_lt_Some _ _ _ Hk) as Hlt.
  destruct (lookup_lt_is_Some_2 H k) as [[vj hj] Hj]; [lia|]. assert (H.*2 !! k = Some hj) as Ehj by by rewrite list_lookup_fmap, Hj.
  destruct (node_commit k hj Ehj) as (sj & -> & [= Lj _]). apply gc_round_mono. unfold sub_round at 1. rewrite <- Lj. fold (sub_round hj).
  destruct (decide (i = Datatypes.S k)) as [->|Hne]; [|specialize (Hw k hj ltac:(lia) Ehj); lia].
  destruct (node_commit (Datatypes.S k) sdi Hi) as (si & Ei & [= Li _]). destruct (node_commit k hj Ehj) as (sj' & Ej' & [= Lj' _]).
  pose proof (rounds_increase ctx all k (Datatypes.S k) sj' si (fs_stream _ _ (ct_fresh _ _ _ D)) Ej' Ei ltac:(lia)) as Hr.
  unfold sub_round in *. rewrite <- Li, <- Lj' in Hr. lia.
Qed.

Lemma node_evidence i k sdi sdk votes b l :
  H.*2 !! i = Some sdi -> H !! k = Some (votes, sdk) -> (i <= k)%nat ->
  (forall j sdj, (i <= j < k)%nat -> H.*2 !! j = Some sdj -> sub_round sdj < sub_round sdi + 3) ->
  decided_with_local_blocks sdi = true \/ sub_round sdi + 3 <= sub_round sdk ->
  at_pos all i b -> context_gc_round ctx (sub_round sdi + 3) < round b -> sub_dag_leader sdi l ->
  exists P, (forall x, P x -> known_at k x) /\ closed_above (round b) P /\ certified_in P i l.
Proof.
  intros Hi Hk Hik Hw Hor Hb Hg Hl. destruct HH as [_ Hh]. destruct Hor as [Hloc|Hold].
  - rewrite list_lookup_fmap in Hi. apply fmap_Some in Hi as ([vi sdi'] & Hi & ->). simpl in *.
    destruct (Hh i vi sdi' Hi) as (_ & l1 & dag & l2 & E & Hlen & _).
    destruct (fn_local _ _ F l1 dag sdi' l2 l E Hloc Hl) as (P & HP & Hcl & Hc). rewrite Hlen in *. exists P. split_and!; [| |done].
    + intros x Hx. apply (known_before l1 dag sdi' l2); [done|lia|by apply HP].
    + pose proof (at_pos_gc ctx univ all D i b Hb). intros x y Hy Ux Ha Hr. apply (Hcl x y); try done. lia.
  - pose proof (timely_gc i k sdi sdk votes Hi Hk Hik Hw) as Hgc. exists (fun x => exists j, (j <= k)%nat /\ at_pos all j x). split_and!.
    + intros x (j & Hj & Hx). by apply (committed_known votes sdk k j).
    + intros x y (j & Hj & Hy) Ux Ha Hr. pose proof (lookup_lt_Some _ _ _ Hk). pose proof node_length.
      pose proof (gc_mono ctx univ all D j k Hj ltac:(lia)).
      destruct (hist_committed ctx byz univ Hn all D j x y Hy Ux (hi_one univ y _ Ha) ltac:(lia)) as (j' & ? & ?). exists j'. split; [lia|done].
    + right. destruct (node_commit k sdk) as (sk & Ek & [= Lk Bk]); [by rewrite list_lookup_fmap, Hk|].
      destruct (ct_leader _ _ _ D sk) as (lk & Hlk & _); [by eapply list_elem_of_lookup_2|].
      exists k, sk, lk. split_and!; [by eapply timely_settles|done|done|]. exists k. split; [done|]. exists sk. split; [done|apply Hlk].
Qed.
End node.
(* ------------------------------------------------------------------ *)
(** ** Opposite verdicts are impossible *)

Section conflict.
Context (i : nat) (b : VerifiedBlock) (t : N) (Hb : at_pos all i b).

Lemma accepted_voters k :
  (k < length all)%nat -> accepted_in ctx (part all i k) (reference b) t ->
  exists Q, reached_quorum c (stake_of c Q) = true
    /\ forall a, a ∈ Q -> exists y, univ y /\ author y = a /\ first_above univ y (reference b) /\ t ∉ default ∅ (reject_map y !! reference b).
Proof.
  intros Hk (A & HA & Hacc). exists A. split; [by apply N.leb_le|]. intros a Ha. specialize (Hacc a Ha).
  apply (accept_in_iff ctx byz univ Hn all D i k b Hb) in Hacc; [|done]. destruct Hacc as (j & y & _ & Hy & Ha' & Hf & _ & Hr).
  exists y. split_and!; try done. by apply (ct_univ _ _ _ D), (at_pos_pool all j).
Qed.

(** A quorum rejects and a quorum accepts: they share an honest authority,
    whose one voting block would do both. *)
Lemma rejected_not_accepted Q1 k :
  reached_quorum c (stake_of c Q1) = true ->
  (forall a, a ∈ Q1 -> exists x, univ x /\ author x = a /\ rejects_tx x (reference b) t = true) ->
  (k < length all)%nat -> ~ accepted_in ctx (part all i k) (reference b) t.
Proof.
  intros HQ1 H1 Hk (Q2 & HQ2 & H2)%accepted_voters; [|done].
  destruct (quorums_meet c byz univ (vn_honest _ _ _ Hn) _ _ HQ1 HQ2) as (a & A1 & A2 & Ha).
  destruct (H1 a A1) as (x & Ux & <- & Hrej). destruct (H2 _ A2) as (y & Uy & Hya & Hf & Hacc).
  assert (x = y) as <-.
  { apply (one_voter c byz univ Hn x y (reference b)); try done. apply (vn_votes _ _ _ Hn); try done. by eapply rejects_votes_on. }
  apply Hacc, reject_map_once; [|done]. by apply (vn_once _ _ _ Hn).
Qed.

(** Evidence without a reject vote, against a quorum of them. *)
Lemma rejected_not_clean Q1 sdi l (P : VerifiedBlock -> Prop) :
  reached_quorum c (stake_of c Q1) = true ->
  (forall a, a ∈ Q1 -> exists x, univ x /\ author x = a /\ rejects_tx x (reference b) t = true) ->
  all !! i = Some sdi -> sub_dag_leader sdi l -> b = l \/ hist l (reference b) ->
  anchored_at ctx univ all i -> closed_above (round b) P -> certified_in P i l ->
  (forall x, P x -> round b < round x -> rejects_tx x (reference b) t = false) -> False.
Proof.
  intros HQ1 H1 Hi Hl Hlb Hanc Hcl Hcert Hclean.
  destruct (evidence_univ i b l sdi Hi Hl Hlb) as [Ul _].
  destruct (evidence_known i b l sdi Hi Hl Hlb Hanc P Hcl Hcert) as (y & HPy & Hy).
  destruct (cert_voters_first y l b Hy Ul Hlb) as (Q2 & HQ2 & H2).
  destruct (quorums_meet c byz univ (vn_honest _ _ _ Hn) _ _ HQ1 HQ2) as (a & A1 & A2 & Ha).
  destruct (H1 a A1) as (x & Ux & <- & Hrej). destruct (H2 _ A2) as (z & Uz & Hza & Hf & Hyz).
  assert (x = z) as <-.
  { apply (one_voter c byz univ Hn x z (reference b)); try done. apply (vn_votes _ _ _ Hn); try done. by eapply rejects_votes_on. }
  pose proof (hist_round c byz univ Hn x _ Ux (proj1 Hf)) as Hlt. change (br_round (reference b)) with (round b) in Hlt.
  rewrite (Hclean x) in Hrej; [done| |done]. by apply (closed_hist (round b) P x y).
Qed.

(** Evidence without a reject vote makes the commits accept in time. *)
Lemma clean_accepted sdi l (P : VerifiedBlock -> Prop) m :
  all !! i = Some sdi -> sub_dag_leader sdi l -> b = l \/ hist l (reference b) ->
  anchored_at ctx univ all i -> closed_above (round b) P -> certified_in P i l ->
  (forall x, P x -> round b < round x -> rejects_tx x (reference b) t = false) ->
  settles all i m -> (i <= m)%nat -> tracker_gc ctx all m < round b ->
  accepted_in ctx (part all i m) (reference b) t.
Proof.
  intros Hi Hl Hlb Hanc Hcl Hcert Hclean Hm Him Hg. destruct Hm as (si & sdm & Ei & Esm & Hr & Hw).
  assert (settles all i m) as Hm by by exists si, sdm. destruct (ct_leader _ _ _ D sdm) as (lm & Hlm & _); [by eapply list_elem_of_lookup_2|].
  destruct (evidence_univ i b l sdi Hi Hl Hlb) as [Ul _].
  destruct (evidence_common i b l sdi Hi Hl Hlb Hanc P Hcl Hcert m sdm lm Hm Esm Hlm) as (y & HPy & Hy & Hmy).
  destruct (cert_voters_first y l b Hy Ul Hlb) as (Q & HQ & HQv). exists Q. split; [by apply N.leb_le|].
  intros a Ha. destruct (HQv a Ha) as (x & Ux & Hxa & Hf & Hyx). destruct Hy as (Uy & _).
  pose proof (hist_round c byz univ Hn x _ Ux (proj1 Hf)) as Hlt. change (br_round (reference b)) with (round b) in Hlt.
  assert (at_pos all m lm) as Hpm by (exists sdm; split; [done|apply Hlm]). pose proof (at_pos_lt all m lm Hpm) as Hml.
  destruct (hist_committed ctx byz univ Hn all D m x lm Hpm Ux (hist_trans univ lm y _ Uy Hmy Hyx) ltac:(lia)) as (j & Hj & Hx).
  apply (accept_in_iff ctx byz univ Hn all D i m b Hb); [done|]. pose proof (gc_mono ctx univ all D j m Hj ltac:(lia)).
  exists j, x. split_and!; try done; [by apply (above_position ctx byz univ Hn all D i j b x); [..|apply Hf]|lia|].
  intros Hin%reject_map_sub. rewrite (Hclean x) in Hin; [done| |done]. by apply (closed_hist (round b) P x y).
Qed.
End conflict.
(** One node rejects, the other finalizes. *)
Lemma verdicts_consistent context1 events1 context2 events2 H1 H2 i b t :
  finalizing_node context1 events1 -> history_of ctx events1 H1 -> finalizing_node context2 events2 -> history_of ctx events2 H2 ->
  anchored_at ctx univ all i -> at_pos all i b -> reject_justified ctx H1 i (reference b) t -> final_justified ctx H2 i b t -> False.
Proof.
  intros F1 HH1 F2 HH2 Hanc Hb (k1 & v1 & sd1 & e1 & I1 & K1 & Hik1 & W1 & J1) (k2 & v2 & sd2 & e2 & I2 & K2 & Hik2 & W2 & J2).
  pose proof (lookup_lt_Some _ _ _ K1) as L1. pose proof (lookup_lt_Some _ _ _ K2) as L2.
  pose proof (node_length context1 events1 F1 H1 HH1) as N1. pose proof (node_length context2 events2 F2 H2 HH2) as N2.
  destruct (node_commit context2 events2 F2 H2 HH2 i sd2 I2) as (sdi & Hi & Hsh). pose proof Hsh as [= Hlead Hblk].
  destruct (ct_leader _ _ _ D sdi) as (l & Hl & Hlall); [by eapply list_elem_of_lookup_2|].
  assert (b = l \/ hist l (reference b)) as Hlb.
  { destruct Hb as (s & Es & Hbs). assert (s = sdi) as -> by congruence. by apply Hlall. }
  assert (sub_dag_leader sd2 l) as Hl2 by (unfold sub_dag_leader; by rewrite Hlead, Hblk).
  assert (context_gc_round ctx (sub_round sd2 + 3) < round b -> no_rejects v2 (reference b) t ->
    decided_with_local_blocks sd2 = true \/ sub_round sd2 + 3 <= sub_round e2 ->
    exists P, closed_above (round b) P /\ certified_in P i l
      /\ forall x, P x -> round b < round x -> rejects_tx x (reference b) t = false) as Hev.
  { intros Hg Hno Hor. destruct (node_evidence context2 events2 F2 H2 HH2 i k2 sd2 e2 v2 b l I2 K2 Hik2 W2 Hor Hb Hg Hl2) as (P & HP & ? & ?).
    exists P. split_and!; try done. intros x Hx Hr. apply (no_rejects_known context2 events2 F2 H2 HH2 v2 e2 k2); auto. }
  assert (accepted_in ctx (segment H2 i k2) (reference b) t -> accepted_in ctx (part all i k2) (reference b) t) as Hacc2.
  { apply accepted_shape. by apply (node_segment context2 events2 F2 H2 HH2). }
  destruct J1 as [HR1|[Hold Hnot]].
  - destruct (quorum_rejects_blocks context1 events1 F1 H1 HH1 v1 e1 k1 _ t K1 HR1) as (Q1 & HQ1 & Hx1). destruct J2 as [(Hno & Hg & Hor)|Hacc].
    + destruct (Hev Hg Hno Hor) as (P & Hcl & Hcert & Hclean). by apply (rejected_not_clean i b t Q1 sdi l P).
    + apply (rejected_not_accepted i b t Hb Q1 k2); try done; [lia|]. by apply Hacc2.
  - pose proof (timely_settles context1 events1 F1 H1 HH1 i k1 sd1 e1 v1 I1 K1 Hik1 W1 Hold) as Hset. apply Hnot.
    apply (accepted_shape ctx (part all i k1)); [symmetry; by apply (node_segment context1 events1 F1 H1 HH1)|].
    destruct J2 as [(Hno & Hg & Hor)|Hacc].
    + destruct (Hev Hg Hno Hor) as (P & Hcl & Hcert & Hclean). apply (clean_accepted i b t Hb sdi l P k1); try done.
      destruct (node_commit context1 events1 F1 H1 HH1 i sd1 I1) as (s1 & E1 & [= Hlead1 _]). assert (s1 = sdi) as -> by congruence.
      pose proof (timely_gc context1 events1 F1 H1 HH1 i k1 sd1 e1 v1 I1 K1 Hik1 W1) as Hgc. unfold sub_round in *. rewrite Hlead in Hg. rewrite Hlead1 in Hgc. lia.
    + apply (accepted_in_mono ctx byz univ Hn all D i k2 k1 b t Hb); [|by apply Hacc2]. split; [|lia].
      destruct (le_lt_dec k2 k1) as [?|Hlt]; [done|]. exfalso.
      destruct Hset as (x & y & Ex & Ey & Hle & _). destruct (lookup_lt_is_Some_2 H2 k1) as [[vj hj] Hj]; [lia|].
      assert (H2.*2 !! k1 = Some hj) as Ehj by by rewrite list_lookup_fmap, Hj.
      destruct (node_commit context2 events2 F2 H2 HH2 k1 hj Ehj) as (y' & Ey' & [= Ly _]). assert (y' = y) as -> by congruence.
      assert (x = sdi) as -> by congruence. specialize (W2 k1 hj ltac:(lia) Ehj). unfold sub_round in *. rewrite Hlead, Ly in W2. lia.
Qed.
End nodes.

(* ------------------------------------------------------------------ *)
(** ** Contexts *)

(** The justifications depend on the committee and the protocol only. *)
Lemma same_justified ctx context H i b r t :
  same_config ctx context ->
  (reject_justified context H i r t -> reject_justified ctx H i r t)
  /\ (final_justified context H i b t -> final_justified ctx H i b t).
Proof. destruct ctx, context. intros [E1 E2]. simpl in E1, E2. subst. by split. Qed.

Lemma same_history {S} ctx context (events : list (finalizer_event S)) H :
  same_config ctx context -> history_of context events H -> history_of ctx events H.
Proof. intros [E _]. unfold history_of. by rewrite E. Qed.

(** The run of a node of the network, with its verdicts. *)
Lemma node_verdicts {S} `{StoreLaws S} ctx byz univ all context (events : list (finalizer_event S)) :
  vote_network (committee ctx) byz univ -> transaction_voting_enabled (protocol_config ctx) = true ->
  finalizing_node ctx univ all context events ->
  exists self votes sender Hi,
    foldM finalizer_step events (finalizer_start context) = Ok (self, votes, sender) /\ history_of ctx events Hi
    /\ forall i o, fh_sent sender !! i = Some o -> exists sdi, all !! i = Some sdi /\ shape o = shape sdi
       /\ forall b t, b ∈ sd_blocks o -> t < num_transactions b ->
         (rejected_in o (reference b) t /\ reject_justified ctx Hi i (reference b) t)
         \/ (~ rejected_in o (reference b) t /\ final_justified ctx Hi i b t).
Proof.
  intros Hn Hv F. pose proof (hu_committee _ _ _ (vn_honest _ _ _ Hn)) as Hc. destruct (fn_config _ _ _ _ _ F) as [Ec Ep].
  destruct (finalizer_run_Ok context (eq_ind_r committee_wf Hc Ec) ltac:(by rewrite Ep) events events [] (fn_events _ _ _ _ _ F))
    as ([[self votes] sender] & Hi & E & I); [by rewrite app_nil_r|].
  pose proof (same_history ctx context events Hi (conj Ec Ep) (ni_history _ _ _ _ _ I)) as HH.
  exists self, votes, sender, Hi. split_and!; [done|done|]. intros i o Ho.
  destruct (ni_outputs _ _ _ _ _ I i o Ho) as (cs & -> & St & Hf). pose proof (st_commit _ _ _ _ St) as Hi'.
  destruct (node_commit ctx univ all context events F Hi HH i _ Hi') as (sdi & Esdi & Hsh). exists sdi. split_and!; [done|done|].
  intros b t Hb Ht. destruct (same_justified ctx context Hi i b (reference b) t (conj Ec Ep)) as [Jr Jf].
  destruct (output_verdict context Hi i cs b t St Hf) as [[? ?]|[? ?]]; [|done|done|left; auto|right; auto].
  rewrite (proj1 HH) in Hi'. apply (fs_fresh _ _ (ne_stream _ _ (fn_events _ _ _ _ _ F))). by eapply list_elem_of_lookup_2.
Qed.

(* ------------------------------------------------------------------ *)
(** ** Properties *)

