(* ===== verification/FinalizerNetwork.v ===== *)
(** * Two finalizers of one network

    The sample of the commit finalizer as a network: one node decides the
    commits with its own blocks, another one fetches them, and they agree.
    The conditions on a finite network are decided by evaluation. *)

From S2P Require Import Prelude Committee Context Block StakeAggregator ThresholdClock Commit Error Store LeaderScoring LeaderSchedule ScheduleRun DagState VoteTracker DagInv Evolve DagOps DagLink DagAccept SampleDag CommitObserver CommitFinalizer FinalizerVotes FinalizerLinks FinalizerAccept FinalizerInv FinalizerRun FinalizerTheorems FinalizerSample BaseCommitter UniversalCommitter CommitRule Agreement FinalizerAgreement.

Section checks.
Context (ctx : Context) (byz : gset N) (L : list VerifiedBlock).
Notation c := (committee ctx).
Notation univ := (fun x => x ∈ L).

Definition own_last (x : VerifiedBlock) (P : BlockRef -> bool) : bool :=
  match head (ancestors x) with Some p => P p | None => false end.

Definition network_check : Prop :=
  NoDup (reference <$> L)
  /\ NoDup ((fun x => (round x, author x)) <$> filter (fun x => author x ∉ byz) L)
  /\ Forall (fun x => wf_block c x /\ Forall (fun a => 0 < br_round a -> a ∈ reference <$> L) (ancestors x)
       /\ own_last x (fun p => br_author p =? author x) = true
       /\ (author x ∉ byz ->
            Forall (fun y => author y = author x -> round y < round x -> own_last x (fun p => round y <=? br_round p) = true) L
            /\ NoDup (btv_block_ref <$> transaction_votes x)
            /\ Forall (fun v => btv_block_ref v ∈ ancestors x /\ own_last x (fun p => br_round p <=? br_round (btv_block_ref v)) = true)
                 (transaction_votes x))) L.

#[global] Instance network_check_dec : base.Decision network_check.
Proof. unfold network_check. apply _. Defined.

Lemma ref_inj x y : NoDup (reference <$> L) -> x ∈ L -> y ∈ L -> reference x = reference y -> x = y.
Proof. apply (NoDup_fmap_elem_inj reference). Qed.

Lemma network_check_ok :
  committee_wf c -> reached_validity c (stake_of c byz) = false -> network_check -> vote_network c byz univ.
Proof.
  intros Hc Hbyz (Hnd & Hone & Hall). rewrite Forall_forall in Hall.
  assert (forall x, x ∈ L -> wf_block c x) as Hwf by (intros x Hx; apply (Hall x Hx)).
  constructor.
  - constructor; [done|done| |].
    + intros x y Hx Hy. by apply ref_inj.
    + intros x y Hx Hy Ha Hr Hb.
      apply (NoDup_fmap_elem_inj (fun x => (round x, author x)) _ x y Hone); [by apply list_elem_of_filter..| |congruence].
      apply list_elem_of_filter. split; [congruence|done].
  - done.
  - intros x a Hx Ha Hr. destruct (Hall x Hx) as (_ & Hcl & _). rewrite Forall_forall in Hcl.
    specialize (Hcl a Ha Hr). apply list_elem_of_fmap in Hcl as (y & -> & Hy). by exists y.
  - intros x Hx. destruct (Hall x Hx) as (_ & _ & Ho & _). unfold own_last in Ho. destruct (head (ancestors x)) as [p|]; [|done].
    exists p. split; [done|]. by apply N.eqb_eq.
  - intros x y Hx Hy Ha Hb Hr. destruct (Hall y Hy) as (_ & _ & _ & Hh). destruct Hh as (Hlast & _); [congruence|].
    rewrite Forall_forall in Hlast. specialize (Hlast x Hx Ha Hr). unfold own_last in Hlast.
    destruct (head (ancestors y)) as [p|]; [|done]. exists p. split; [done|]. by apply N.leb_le.
  - intros x r Hx Hb Hv. destruct (Hall x Hx) as (_ & _ & _ & Hh). destruct (Hh Hb) as (_ & _ & Hvotes).
    unfold votes_on in Hv. apply existsb_exists in Hv as (v & Hv%list_elem_of_In & <-%bool_decide_eq_true).
    rewrite Forall_forall in Hvotes. destruct (Hvotes v Hv) as [Hin Ho]. split; [by apply hi_one|].
    intros p [Hp Hhd] Hpr%(wf_hist_round c _ Hwf); [|done]. unfold own_last in Ho. rewrite Hhd in Ho. apply N.leb_le in Ho.
    change (br_round (reference p)) with (round p) in Ho. lia.
  - intros x Hx Hb. destruct (Hall x Hx) as (_ & _ & _ & Hh). by apply Hh.
Qed.

(** Histories and certificates, by evaluation. *)
Fixpoint hist_b (fuel : nat) (x : VerifiedBlock) (r : BlockRef) : bool :=
  if bool_decide (r ∈ ancestors x) then true
  else match fuel with
       | O => false
       | Datatypes.S fuel => existsb (fun y => if bool_decide (reference y ∈ ancestors x) then hist_b fuel y r else false) L
       end.

Lemma hist_b_ok fuel x r : hist_b fuel x r = true -> hist univ x r.
Proof.
  revert x. induction fuel as [|fuel IH]; intros x; cbn [hist_b]; case_bool_decide as Hin; intros H; try (by apply hi_one).
  apply existsb_exists in H as (y & Hy%list_elem_of_In & Hr). case_bool_decide as Ha; [|done].
  by apply (hi_step _ x y); [..|apply IH].
Qed.

Definition cert_b (y l : VerifiedBlock) : bool :=
  (round y =? round l + 2)
  && reached_quorum c (stake_of c (list_to_set (author <$> filter (fun v => reference v ∈ ancestors y /\ vote v l = true) L))).

Lemma cert_b_ok y l : y ∈ L -> cert_b y l = true -> leader_cert c univ y l.
Proof.
  intros Hy [Hr%N.eqb_eq Hq]%andb_true_iff. split_and!; [done|done|]. eexists. split; [exact Hq|].
  intros a (v & -> & [[Ha Hv] Hin]%list_elem_of_filter)%elem_of_list_to_set%list_elem_of_fmap. by exists v.
Qed.

Context (all : list CommittedSubDag).

Definition leaders (sd : CommittedSubDag) : list VerifiedBlock :=
  filter (fun l => reference l = sd_leader sd) (sd_blocks sd).

Lemma elem_of_leaders sd l : l ∈ leaders sd <-> sub_dag_leader sd l.
Proof. unfold leaders, sub_dag_leader. rewrite list_elem_of_filter. tauto. Qed.

Definition anchor_check (sdi sdm : CommittedSubDag) : bool :=
  if sub_round sdi + 3 <=? sub_round sdm then
    forallb (fun l => forallb (fun lm => existsb (fun y => if cert_b y l then hist_b 2 lm (reference y) else false) L) (leaders sdm)) (leaders sdi)
  else true.

Lemma anchor_check_ok sdi sdm l lm :
  anchor_check sdi sdm = true -> sub_round sdi + 3 <= sub_round sdm -> sub_dag_leader sdi l -> sub_dag_leader sdm lm ->
  exists y, leader_cert c univ y l /\ hist univ lm (reference y).
Proof.
  unfold anchor_check. intros Hch Hr%N.leb_le Hl Hm. rewrite Hr, forallb_forall in Hch.
  specialize (Hch l). rewrite <- list_elem_of_In, elem_of_leaders, forallb_forall in Hch. specialize (Hch Hl lm).
  rewrite <- list_elem_of_In, elem_of_leaders, existsb_exists in Hch. destruct (Hch Hm) as (y & Hy%list_elem_of_In & Hyy).
  destruct (cert_b y l) eqn:Ec; [|done]. exists y. split; [by apply cert_b_ok|by eapply hist_b_ok].
Qed.

Definition committed_check : Prop :=
  Forall (fun sd => Exists (fun l => reference l = sd_leader sd
    /\ Forall (fun b => reference b = reference l \/ hist_b 2 l (reference b) = true) (sd_blocks sd)) (sd_blocks sd)) all
  /\ Forall (fun j => Forall (fun y => Forall (fun a => tracker_gc ctx all j < br_round a ->
       a ∈ reference <$> pool (take (Datatypes.S j) all)) (ancestors y)) (default [] (sd_blocks <$> all !! j))) (seq 0 (length all))
  /\ Forall (fun sdi => Forall (fun sdm => anchor_check sdi sdm = true) all) all.

#[global] Instance committed_check_dec : base.Decision committed_check.
Proof. unfold committed_check. apply _. Defined.

Lemma committed_check_ok :
  NoDup (reference <$> L) -> (forall b, b ∈ pool all -> b ∈ L) -> fresh_stream ctx all -> committed_check -> decided_stream ctx univ all.
Proof.
  intros Hnd HL Hf (Hl & Hcl & Ha). rewrite !Forall_forall in *. constructor; [constructor|]; try done.
  - intros sd Hsd. specialize (Hl sd Hsd). apply Exists_exists in Hl as (l & Hin & Hlead & Hb). rewrite Forall_forall in Hb.
    exists l. split; [by split|]. intros b Hbin. destruct (Hb b Hbin) as [E|Hh]; [left|right; by eapply hist_b_ok].
    apply ref_inj; try done; apply HL, elem_of_pool; eauto.
  - intros j sd x y Hj Hy Hx Hanc Hg. specialize (Hcl j). rewrite Hj in Hcl. cbn [fmap option_fmap option_map default from_option id] in Hcl.
    rewrite Forall_forall in Hcl. specialize (Hcl ltac:(apply elem_of_seq; apply lookup_lt_Some in Hj; lia) y Hy).
    rewrite Forall_forall in Hcl. specialize (Hcl _ Hanc Hg). apply list_elem_of_fmap in Hcl as (z & Ez & Hz).
    assert (z ∈ L) as HzL. { apply HL. rewrite <- (take_drop (Datatypes.S j) all), pool_app. apply elem_of_app. by left. }
    apply ref_inj in Ez as <-; try done. apply pool_position in Hz as (j' & sd' & Hj' & Hx').
    apply lookup_take_Some in Hj' as [Hj' ?]. exists j', sd'. split_and!; [lia|done|done].
  - intros i m sdi sdm l lm (si & sm & Ei & Em & Hr & _) Hi Hm Hl1 Hm1.
    assert (si = sdi) as -> by congruence. assert (sm = sdm) as -> by congruence.
    specialize (Ha sdi (list_elem_of_lookup_2 _ _ _ Ei)). rewrite Forall_forall in Ha.
    by apply (anchor_check_ok sdi sdm l lm (Ha sdm (list_elem_of_lookup_2 _ _ _ Em)) Hr).
Qed.

(** Own decisions are made on certified leaders. *)
Fixpoint local_check {S} (seen : list VerifiedBlock) (i : nat) (events : list (finalizer_event S)) : Prop :=
  match events with
  | [] => True
  | Tracked (b, _) :: events => local_check (b :: seen) i events
  | Committed _ sd :: events =>
      (decided_with_local_blocks sd = true ->
         Forall (fun y => Forall (fun a => tracker_gc ctx all i < br_round a -> a ∈ reference <$> L -> a ∈ reference <$> seen) (ancestors y)) seen
         /\ Forall (fun l =>
              reached_quorum c (stake_of c (list_to_set (author <$> filter (fun y => cert_b y l = true) seen))) = true) (leaders sd))
      /\ local_check seen (Datatypes.S i) events
  end.

#[global] Instance local_check_dec {S} seen i (events : list (finalizer_event S)) : base.Decision (local_check seen i events).
Proof. revert seen i. induction events as [|[[b v]|dag sd] events IH]; intros seen i; simpl; apply _. Defined.

Lemma local_check_ok {S} (events : list (finalizer_event S)) : forall seen i l1 dag sd l2 l,
  NoDup (reference <$> L) -> (forall x, x ∈ seen -> x ∈ L) -> (forall x, x ∈ (tracked_blocks events).*1 -> x ∈ L) ->
  local_check seen i events -> events = l1 ++ Committed dag sd :: l2 -> decided_with_local_blocks sd = true -> sub_dag_leader sd l ->
  exists P, (forall x, P x -> x ∈ L /\ (x ∈ seen \/ x ∈ (tracked_blocks l1).*1))
    /\ closed_above univ (tracker_gc ctx all (i + length (commits_of l1))) P
    /\ certified_in ctx univ all P (i + length (commits_of l1)) l.
Proof.
  induction events as [|e events IH]; intros seen i l1 dag sd l2 l Hnd Hseen Htr Hch E Hloc Hl; [by destruct l1|].
  destruct l1 as [|e' l1]; injection E as -> ->.
  - destruct Hch as [Hch _]. destruct (Hch Hloc) as [Hcl Hq]. rewrite !Forall_forall in *. cbn [commits_of omap list_omap length].
    rewrite Nat.add_0_r. exists (fun x => x ∈ seen). split_and!.
    + intros x Hx. auto.
    + intros x y Hy Hx Ha Hg. specialize (Hcl y Hy). rewrite Forall_forall in Hcl.
      specialize (Hcl _ Ha Hg (list_elem_of_fmap_2 _ _ _ Hx)). apply list_elem_of_fmap in Hcl as (z & Ez & Hz).
      apply ref_inj in Ez as <-; auto.
    + left. eexists. split; [apply (Hq l); by apply elem_of_leaders|].
      intros a (y & -> & [Hcy Hy]%list_elem_of_filter)%elem_of_list_to_set%list_elem_of_fmap. exists y. split_and!; [done|done|].
      apply cert_b_ok; auto.
  - destruct e' as [[x v]|dag' sd']; cbn [local_check] in Hch.
    + destruct (IH (x :: seen) i l1 dag sd l2 l Hnd) as (P & HP & ? & ?); try done.
      * intros y [->|Hy]%elem_of_cons; [|by apply Hseen]. apply Htr. by left.
      * intros y Hy. apply Htr. by right.
      * exists P. split_and!; try done. intros y Hy. destruct (HP y Hy) as [? [[->|?]%elem_of_cons|?]]; (split; [done|]).
        -- right. by left.
        -- by left.
        -- right. by right.
    + destruct (IH seen (Datatypes.S i) l1 dag sd l2 l Hnd Hseen) as (P & HP & Hcl & Hce); try done; [apply Hch|].
      exists P. cbn [commits_of omap list_omap length]. rewrite Nat.add_succ_r. by split_and!.
Qed.
End checks.

(* ------------------------------------------------------------------ *)
(** ** The sample *)

Definition poll_network : list VerifiedBlock := r ← [1; 2; 3; 4; 5; 6; 7; 8]; poll_round r.
Definition poll_stream : list CommittedSubDag := poll_commit true <$> [3; 4; 5; 6].

Lemma poll_round_network r x : r ∈ ([1; 2; 3; 4; 5; 6; 7; 8] : list N) -> x ∈ poll_round r -> x ∈ poll_network.
Proof. intros Hr Hx. apply list_elem_of_bind. by exists r. Qed.

Lemma poll_commit_network local r x : r ∈ ([3; 4; 5; 6] : list N) -> x ∈ sd_blocks (poll_commit local r) -> x ∈ poll_network.
Proof.
  intros Hr Hx. cbn [poll_commit sd_blocks] in Hx. apply elem_of_app in Hx as [Hx| ->%list_elem_of_singleton].
  - repeat (apply elem_of_cons in Hr as [->|Hr]; [|]); [..|inversion Hr]; cbn [N.eqb Pos.eqb] in Hx.
    1: apply elem_of_app in Hx as [Hx|Hx]; eapply poll_round_network, Hx; set_solver.
    all: apply list_filter_elem_of in Hx as [_ Hx]; eapply poll_round_network, Hx; set_solver.
  - apply (poll_round_network r); [set_solver|]. apply list_elem_of_fmap. exists (poll_leader r). split; [done|].
    repeat (apply elem_of_cons in Hr as [->|Hr]; [apply (bool_decide_eq_true_1 _); vm_compute; reflexivity|]). inversion Hr.
Qed.

Lemma poll_vote_network : vote_network (test_committee 4) {[3]} (fun x => x ∈ poll_network).
Proof.
  apply (network_check_ok (sample_context 0)); [apply test_committee_4_wf|vm_compute; reflexivity|].
  apply (bool_decide_eq_true_1 _). vm_compute. reflexivity.
Qed.

Lemma poll_fresh local : fresh_stream (sample_context 0) (poll_commit local <$> [3; 4; 5; 6]).
Proof. rewrite <- poll_commits. apply (ne_stream _ _ (poll_node_events 0 local)). Qed.

Lemma poll_decided : decided_stream (sample_context 0) (fun x => x ∈ poll_network) poll_stream.
Proof.
  apply committed_check_ok.
  - apply (bool_decide_eq_true_1 _). vm_compute. reflexivity.
  - intros b Hb. apply elem_of_pool in Hb as (sd & Hsd & Hb). unfold poll_stream in Hsd. apply list_elem_of_fmap in Hsd as (r & -> & Hr).
    by apply (poll_commit_network true r).
  - apply (poll_fresh true).
  - apply (bool_decide_eq_true_1 _). vm_compute. reflexivity.
Qed.

Lemma poll_tracked_rounds local :
  (tracked_blocks (poll_events local)).*1 = (if local then [1; 2; 3; 4; 5; 6; 7; 8] else [1; 2; 3; 4; 5; 6]) ≫= poll_round.
Proof. destruct local; reflexivity. Qed.

Lemma poll_tracked_network local x : x ∈ (tracked_blocks (poll_events local)).*1 -> x ∈ poll_network.
Proof.
  rewrite poll_tracked_rounds. intros (r & Hx & Hr)%list_elem_of_bind. apply (poll_round_network r); [|done].
  destruct local; [done|]. revert Hr. clear. set_solver.
Qed.

Lemma poll_finalizing_node own local :
  finalizing_node (sample_context 0) (fun x => x ∈ poll_network) poll_stream (sample_context own) (poll_events local).
Proof.
  constructor.
  - done.
  - apply poll_node_events.
  - rewrite poll_commits. destruct local; exists []; reflexivity.
  - intros b v Hb. apply (poll_tracked_network local). by apply (list_elem_of_fmap_2 fst) in Hb.
  - intros l1 dag sd l2 l E Hloc Hl.
    destruct (local_check_ok (sample_context 0) poll_network poll_stream (poll_events local) [] 0 l1 dag sd l2 l) as (P & HP & ? & ?);
      try done; [apply (bool_decide_eq_true_1 _); vm_compute; reflexivity|set_solver|apply poll_tracked_network| |].
    + apply (bool_decide_eq_true_1 _). destruct local; vm_compute; reflexivity.
    + exists P. split_and!; try done. intros x Hx. destruct (HP x Hx) as [? [?%not_elem_of_nil|?]]; done.
Qed.

