(* ===== verification/TryDecide.v ===== *)
(** * The committer decides, and decides alike

    Links the commit rule of [BaseCommitter] and [UniversalCommitter] to the
    declarative rule of [Agreement]: on a good view of the DAG every decision
    is made without a panic and with enough fuel, and two validators that
    start from the same decided slot agree on every leader both decide. *)

From S2P Require Import Prelude Committee Context Block StakeAggregator ThresholdClock Commit Store LeaderScoring DagState DagInv LeaderSchedule BaseCommitter UniversalCommitter CommitRule Agreement Evolve DagOps DagLink DagAccept SampleDag.

Lemma gc_round_le {S} (s : DagState S) : gc_round s <= last_commit_round s.
Proof. unfold gc_round, calculate_gc_round, saturating_sub. lia. Qed.

(** At most one element, when all are equal and none repeats. *)
Lemma short_list {A} (l : list A) :
  NoDup l -> (forall x y, x ∈ l -> y ∈ l -> x = y) -> (1 <? length l)%nat = false.
Proof.
  intros Hnd Heq. destruct l as [|x [|y l]]; [done|done|]. exfalso.
  assert (x = y) as -> by (apply Heq; set_solver). inversion Hnd; subst. set_solver.
Qed.

Section rules.
Context {S : Type} `{StoreLaws S}.
Context (c : Committee) (byz : gset N) (univ : VerifiedBlock -> Prop).
Context (Hu : honest_universe c byz univ).
Context (self : BaseCommitter) (Hself : committee (bc_context self) = c).
Context (Hwave : wave_length (bc_options self) = 3).
Context (s : DagState S) (Hv : good_view c univ s).

Lemma decision_round_Ok r :
  r + 3 < u32_MAX -> leader_round self (wave_number self r) = r ->
  decision_round self (wave_number self r) = r + 2.
Proof.
  intros Hmax. unfold leader_round, decision_round, wave_number, saturating_sub. rewrite Hwave.
  set (o := round_offset (bc_options self)). set (w := (r - o) / 3).
  assert (w * 3 <= r - o) as Hw by (unfold w; pose proof (N.Div0.mul_div_le (r - o) 3); lia).
  rewrite u32_mul_small by lia. intros E.
  destruct (N.le_gt_cases (w * 3 + o) u32_MAX) as [Hsm|Hbig].
  - rewrite u32_add_small in E by done. rewrite (u32_add_small (w * 3) 3) by lia.
    rewrite u32_sub_small by lia. rewrite u32_add_small by lia. lia.
  - rewrite (u32_add_small (w * 3) 3) by lia. rewrite u32_sub_small by lia.
    unfold u32_add, u32_wrap in *. replace (w * 3 + 3 - 1 + o) with (w * 3 + o + 2) by lia.
    rewrite <- N.Div0.add_mod_idemp_l, E. apply N.mod_small. unfold u32_MAX in *. lia.
Qed.

Lemma view_committee : ds_committee s = committee (bc_context self).
Proof. rewrite Hself. apply (gv_committee _ _ _ Hv). Qed.

Section slot.
Context (slot : Slot) (Hlast : last_commit_round s < s_round slot).
Context (Hmax : s_round slot + 3 < u32_MAX).
Context (Hlead : leader_round self (wave_number self (s_round slot)) = s_round slot).

Lemma slot_gc : gc_round s < s_round slot.
Proof. pose proof (gc_round_le s). lia. Qed.

Lemma leader_block l :
  l ∈ get_uncommitted_blocks_at_slot s slot ->
  slot_of_ref (reference l) = slot /\ view s (reference l) = Some l /\ univ l.
Proof.
  intros [Hl Hsl]%(uncommitted_at_slot_spec s slot l (gv_inv _ _ _ Hv)).
  split_and!; [done|done|by eapply (gv_univ _ _ s Hv)].
Qed.

Lemma leader_blocks_NoDup : NoDup (get_uncommitted_blocks_at_slot s slot).
Proof. eapply NoDup_fmap_1, range_blocks_NoDup, (gv_inv _ _ _ Hv). Qed.

Lemma try_direct_decide_Ok :
  exists st, try_direct_decide self s slot = Ok st /\ direct_ok c s slot st.
Proof.
  pose proof slot_gc as Hgc. unfold try_direct_decide. rewrite u32_add_small by lia.
  rewrite (enough_leader_blame_spec self s (gv_inv _ _ _ Hv) (gv_store _ _ _ Hv) view_committee) by lia.
  simpl. rewrite Hself.
  destruct (reached_quorum c (stake_of c (blamers s slot))) eqn:Eb; [by eexists|].
  rewrite decision_round_Ok by done.
  destruct (filterM_total (fun l => enough_leader_support self s (s_round slot + 2) l)
    (fun l b => b = true -> reached_quorum c (stake_of c (supporters c s l)) = true)
    (get_uncommitted_blocks_at_slot s slot)) as (k & Ek & Hsub & Hk & _).
  { intros l (Hsl & _)%leader_block. pose proof (slot_round l slot Hsl) as R.
    destruct (enough_leader_support_spec self s (gv_inv _ _ _ Hv) (gv_store _ _ _ Hv)
      view_committee l) as (b & Eb' & Hb & _); [lia..|].
    rewrite Hself in Hb. rewrite <- R. by exists b. }
  rewrite Ek. simpl.
  assert (forall l, l ∈ k -> slot_of_ref (reference l) = slot /\ view s (reference l) = Some l
            /\ univ l /\ reached_quorum c (stake_of c (supporters c s l)) = true) as Hall.
  { intros l Hl. destruct (leader_block l) as (? & ? & ?); [by eapply sublist_subseteq|].
    split_and!; try done. by apply Hk. }
  rewrite short_list; [|by eapply sublist_NoDup; [apply leader_blocks_NoDup|]|].
  2:{ intros x y Hx Hy. destruct (Hall x Hx) as (? & ? & ? & Qx), (Hall y Hy) as (? & ? & ? & Qy).
      destruct (supported_cert c byz univ Hu s x Hv Qx) as [cx Cx].
      destruct (supported_cert c byz univ Hu s y Hv Qy) as [cy Cy].
      apply (cert_unique c byz univ Hu s s cx cy); try done. congruence. }
  eexists. split; [done|]. destruct (last k) as [l|] eqn:El; [|done].
  destruct (Hall l) as (? & ? & ? & ?); [by apply last_Some_elem_of|]. done.
Qed.

(** The direct rule decides every slot that it may decide. *)
Lemma try_direct_decide_complete st st0 :
  round_stake c s (s_round slot + 2) <= u64_MAX ->
  try_direct_decide self s slot = Ok st -> direct_ok c s slot st0 -> is_decided st0 = true ->
  is_decided st = true.
Proof.
  intros Hfit. pose proof slot_gc as Hgc. unfold try_direct_decide. rewrite u32_add_small by lia.
  rewrite (enough_leader_blame_spec self s (gv_inv _ _ _ Hv) (gv_store _ _ _ Hv) view_committee) by lia.
  simpl. rewrite Hself.
  destruct (reached_quorum c (stake_of c (blamers s slot))) eqn:Eb; [by intros [= <-]|].
  rewrite decision_round_Ok by done.
  destruct (filterM_total (fun l => enough_leader_support self s (s_round slot + 2) l)
    (fun l b => reached_quorum c (stake_of c (supporters c s l)) = true -> b = true)
    (get_uncommitted_blocks_at_slot s slot)) as (k & -> & _ & _ & Hk).
  { intros l (Hsl & _)%leader_block. pose proof (slot_round l slot Hsl) as R.
    destruct (enough_leader_support_spec self s (gv_inv _ _ _ Hv) (gv_store _ _ _ Hv)
      view_committee l) as (b & Eb' & _ & Hb); [lia..|].
    rewrite Hself, R in Hb. rewrite <- R. exists b. split; [done|]. by apply Hb. }
  simpl. destruct (1 <? length k)%nat; [done|]. intros [= <-] D0 E0.
  destruct st0 as [l|sl|sl]; simpl in D0; [|by destruct D0 as [_ ?]; congruence|done].
  destruct D0 as (Sl & Vl & Ql).
  destruct (Hk l) as [Hl|Hl]; [|by destruct (last k) as [?|] eqn:El; [|apply last_None in El; subst; inversion Hl]
    |by specialize (Hl Ql)].
  by apply (uncommitted_at_slot_spec s slot l (gv_inv _ _ _ Hv)).
Qed.

Lemma decide_from_anchor_Ok anchor :
  view s (reference anchor) = Some anchor -> s_round slot + 3 <= round anchor ->
  exists st, decide_leader_from_anchor self s anchor slot = Ok st
    /\ anchor_ok c s anchor slot st.
Proof.
  intros Ha Hr. pose proof slot_gc as Hgc. unfold decide_leader_from_anchor.
  rewrite decision_round_Ok by done.
  pose proof (rooted_view s _ _ (gv_inv _ _ _ Hv) Ha) as Hroot.
  destruct (ancestors_at_round_spec s anchor (s_round slot + 2) (gv_inv _ _ _ Hv) Hroot)
    as (certs & -> & Hcerts & _); [lia|]. simpl.
  rewrite (filterM_Ok _ (fun l => existsb (fun y => is_cert c s y l) certs)).
  2:{ intros l (Hsl & _)%leader_block. pose proof (slot_round l slot Hsl) as R.
      rewrite <- Hself. apply (any_certificate_spec self s (gv_inv _ _ _ Hv) (gv_store _ _ _ Hv)
        view_committee); [lia| |done].
      intros y (_ & Ry & Vy)%Hcerts. split; [by eapply rooted_view, Vy; apply (gv_inv _ _ _ Hv)|lia]. }
  simpl. set (k := List.filter _ _).
  assert (forall l, l ∈ k <-> slot_of_ref (reference l) = slot /\ view s (reference l) = Some l
            /\ certified c s anchor l) as Hk.
  { intros l. unfold k. rewrite list_filter_elem_of, existsb_exists,
      (uncommitted_at_slot_spec s slot l (gv_inv _ _ _ Hv)). split.
    - intros [(y & Hy & Cy) [Vl Sl]]. split_and!; [done..|]. apply list_elem_of_In, Hcerts in Hy.
      destruct Hy as (Y1 & Y2 & Y3). rewrite <- (slot_round l slot Sl) in Y2. by exists y.
    - intros (Sl & Vl & (y & Y1 & Y2 & Y3 & Y4)). split; [|done]. exists y. split; [|done].
      apply list_elem_of_In, Hcerts. rewrite <- (slot_round l slot Sl). done. }
  rewrite short_list; [|apply list_filter_NoDup, leader_blocks_NoDup|].
  2:{ intros x y (Sx & Vx & Cx)%Hk (Sy & Vy & Cy)%Hk.
      apply (certified_unique c byz univ Hu s s anchor anchor); try done; [..|congruence];
        by eapply (gv_univ _ _ s Hv). }
  eexists. split; [done|]. destruct (last k) as [l|] eqn:El.
  - by apply Hk, last_Some_elem_of.
  - split; [done|]. intros l Vl Sl Cl. apply last_None in El.
    assert (l ∈ k) as Hl; [by apply Hk|]. rewrite El in Hl. inversion Hl.
Qed.

Lemma indirect_loop_Ok As :
  anchors_in s (s_round slot + 3) As ->
  exists st, indirect_loop self s slot As = Ok st /\ indirect c s slot As st.
Proof.
  induction As as [|[b|sl|sl] As IH]; intros HA; simpl.
  - eexists. split; [done|constructor].
  - destruct (HA b) as [Vb Rb]; [by left|].
    destruct (decide_from_anchor_Ok b Vb Rb) as (st & -> & Hst). exists st. split; [done|by constructor].
  - destruct IH as (st & -> & Hst); [by eapply anchors_in_cons|]. exists st. split; [done|by constructor].
  - eexists. split; [done|constructor].
Qed.
End slot.
End rules.

(* ------------------------------------------------------------------ *)
(** ** The universal committer, pipelined, with one leader per round *)

Record validator `{Rng} {S} `{StoreLaws S} (c : Committee) (univ : VerifiedBlock -> Prop)
    (leader : N -> N) (last_decided : Slot) (context : Context) (sched : LeaderSchedule)
    (s : DagState S) : Prop := {
  va_committee : committee context = c;
  va_leaders : num_leaders_per_round (protocol_config context) = Some 1;
  va_view : good_view c univ s;
  va_last : last_commit_round s <= s_round last_decided;
  va_last_max : s_round last_decided < u32_MAX;
  va_high : ds_highest_accepted_round s + 1 < u32_MAX;
  va_elect : forall r, schedule_elect_leader sched r 0 = Ok (leader r);
  va_leader : forall r, is_valid_index c (leader r) = true;
}.

(** The committer as [core.rs] builds it. *)
Definition pipelined_committer (context : Context) (sched : LeaderSchedule) : UniversalCommitter :=
  universal_committer_build context sched DEFAULT_WAVE_LENGTH 1 true.

Definition stage (context : Context) (sched : LeaderSchedule) (o : N) : BaseCommitter :=
  mkBaseCommitter context sched (mkBaseCommitterOptions 3 0 o).

Lemma pipelined_committers context sched :
  uc_committers (pipelined_committer context sched)
  = [stage context sched 0; stage context sched 1; stage context sched 2].
Proof. reflexivity. Qed.

Lemma stage_leader_round context sched o r :
  o < 3 -> r + 3 < u32_MAX ->
  leader_round (stage context sched o) (wave_number (stage context sched o) r) = r
  <-> r `mod` 3 = o.
Proof.
  intros Ho Hr. unfold leader_round, wave_number, saturating_sub. simpl.
  pose proof (N.Div0.mul_div_le (r - o) 3). rewrite u32_mul_small by lia.
  rewrite u32_add_small by lia. pose proof (N.div_mod' r 3). pose proof (N.mod_lt r 3 ltac:(lia)).
  split.
  - intros E. symmetry. apply (N.mod_unique r 3 ((r - o) / 3)); lia.
  - intros E. assert (r - o = 3 * (r / 3)) as -> by lia.
    rewrite (N.mul_comm 3), N.div_mul by lia. lia.
Qed.

Section decide.
Context `{Rng} {S : Type} `{StoreLaws S}.
Context (c : Committee) (byz : gset N) (univ : VerifiedBlock -> Prop).
Context (Hu : honest_universe c byz univ).
Context (leader : N -> N) (last_decided : Slot).
Context (context : Context) (sched : LeaderSchedule) (s : DagState S).
Context (Hval : validator c univ leader last_decided context sched s).

Definition slot_at (r : N) : Slot := mkSlot r (leader r).

Lemma elect_stage o r :
  o < 3 -> r + 3 < u32_MAX ->
  elect_leader (stage context sched o) r
  = Ok (if r `mod` 3 =? o then Some (slot_at r) else None).
Proof.
  intros Ho Hr. unfold elect_leader.
  destruct (N.eqb_spec (r `mod` 3) o) as [E|E];
    rewrite <- (stage_leader_round context sched o r Ho Hr) in E.
  - rewrite (proj2 (N.eqb_eq _ _) E). simpl. rewrite (va_elect _ _ _ _ _ _ _ Hval). done.
  - by rewrite (proj2 (N.eqb_neq _ _) E).
Qed.

Lemma decide_skip o r rest leaders :
  o < 3 -> r + 3 < u32_MAX -> r `mod` 3 <> o ->
  decide_loop s last_decided ((r, stage context sched o) :: rest) leaders
  = decide_loop s last_decided rest leaders.
Proof.
  intros Ho Hr Hne. cbn [decide_loop]. rewrite elect_stage by done.
  by rewrite (proj2 (N.eqb_neq _ _) Hne).
Qed.

(** The slots that the direct rule can decide on this view. *)
Definition directly_decidable (slot : Slot) : Prop :=
  round_stake c s (s_round slot + 2) <= u64_MAX
  /\ exists st, direct_ok c s slot st /\ is_decided st = true.

(** The statuses from round [r] on, and what the flag [Direct] says of them. *)
Definition deciding (r : N) (L : list (LeaderStatus * Decision)) : Prop :=
  decided_from c s slot_at r L.*1
  /\ (forall i st, L !! i = Some (st, Direct) -> direct_ok c s (slot_at (r + N.of_nat i)) st)
  /\ (forall i st dec, L !! i = Some (st, dec) -> directly_decidable (slot_at (r + N.of_nat i)) ->
       is_decided st = true).

Lemma deciding_cons r st d L :
  deciding (r + 1) L -> decided_from c s slot_at r (st :: L.*1) ->
  (d = Direct -> direct_ok c s (slot_at r) st) ->
  (directly_decidable (slot_at r) -> is_decided st = true) -> deciding r ((st, d) :: L).
Proof.
  intros (_ & HL & HL') Hst Hd Hd'. split_and!; [done| |].
  - intros [|i] st' Hi.
    + injection Hi as -> ->. rewrite N.add_0_r. by apply Hd.
    + replace (r + N.of_nat (Datatypes.S i)) with (r + 1 + N.of_nat i) by lia. by apply HL.
  - intros [|i] st' dec Hi.
    + injection Hi as -> ->. rewrite N.add_0_r. by apply Hd'.
    + replace (r + N.of_nat (Datatypes.S i)) with (r + 1 + N.of_nat i) by lia. by eapply HL'.
Qed.

Lemma decide_push o r rest leaders :
  o < 3 -> r + 3 < u32_MAX -> r `mod` 3 = o -> s_round last_decided < r ->
  deciding (r + 1) leaders ->
  exists entry, decide_loop s last_decided ((r, stage context sched o) :: rest) leaders
                = decide_loop s last_decided rest (entry :: leaders)
    /\ deciding r (entry :: leaders).
Proof.
  intros Ho Hr E Hlast HL. cbn [decide_loop]. rewrite elect_stage by done.
  rewrite (proj2 (N.eqb_eq _ _) E). simpl.
  rewrite bool_decide_false by (intros <-; simpl in Hlast; lia).
  assert (leader_round (stage context sched o) (wave_number (stage context sched o) r) = r) as Hlead
    by (by apply stage_leader_round).
  assert (last_commit_round s < s_round (slot_at r)) as Hlc
    by (pose proof (va_last _ _ _ _ _ _ _ Hval); simpl; lia).
  destruct (try_direct_decide_Ok c byz univ Hu (stage context sched o)
    (va_committee _ _ _ _ _ _ _ Hval) eq_refl s (va_view _ _ _ _ _ _ _ Hval) (slot_at r))
    as (st & Est & Hst); [done..|].
  assert (directly_decidable (slot_at r) -> is_decided st = true) as Hdir.
  { intros (Hfit & st0 & D0 & E0).
    by eapply (try_direct_decide_complete c byz univ Hu (stage context sched o)
      (va_committee _ _ _ _ _ _ _ Hval) eq_refl s (va_view _ _ _ _ _ _ _ Hval) (slot_at r)). }
  rewrite Est. simpl. destruct (is_decided st) eqn:Ed.
  { exists (st, Direct). split; [done|]. apply deciding_cons; [done| |done|done].
    apply decided_direct; [by apply HL|done..]. }
  unfold try_indirect_decide. cbn [s_round slot_at bc_options stage wave_length].
  rewrite u32_add_small by lia.
  rewrite (decided_from_filter c slot_at (fun _ => eq_refl) s r) by apply HL.
  destruct (indirect_loop_Ok c byz univ Hu (stage context sched o)
    (va_committee _ _ _ _ _ _ _ Hval) eq_refl s (va_view _ _ _ _ _ _ _ Hval) (slot_at r)
    Hlc Hr Hlead (drop 2 leaders.*1)) as (st2 & -> & Hst2).
  { apply (decided_from_anchors c slot_at (fun _ => eq_refl)), HL. }
  simpl. exists (st2, Indirect). split; [done|].
  apply deciding_cons; [done| |done|by intros ?%Hdir].
  apply decided_indirect; [by apply HL|done].
Qed.

Lemma decide_round r rest leaders :
  r + 3 < u32_MAX -> s_round last_decided < r ->
  deciding (r + 1) leaders ->
  exists entry,
    decide_loop s last_decided
      (((fun o => (r, o)) <$> reverse (uc_committers (pipelined_committer context sched))) ++ rest)
      leaders
    = decide_loop s last_decided rest (entry :: leaders)
    /\ deciding r (entry :: leaders).
Proof.
  intros Hr Hlast HL. rewrite pipelined_committers.
  change (((fun o => (r, o)) <$> reverse [stage context sched 0; stage context sched 1;
            stage context sched 2]) ++ rest)
    with ((r, stage context sched 2) :: (r, stage context sched 1)
            :: (r, stage context sched 0) :: rest).
  assert (r `mod` 3 = 0 \/ r `mod` 3 = 1 \/ r `mod` 3 = 2) as [E|[E|E]].
  { pose proof (N.mod_lt r 3 ltac:(done)) as Hm. revert Hm. generalize (r `mod` 3). lia. }
  - rewrite (decide_skip 2), (decide_skip 1) by lia. by apply decide_push.
  - rewrite (decide_skip 2) by lia.
    destruct (decide_push 1 r ((r, stage context sched 0) :: rest) leaders) as (e & -> & He);
      try done. exists e. by rewrite (decide_skip 0) by lia.
  - destruct (decide_push 2 r ((r, stage context sched 1) :: (r, stage context sched 0) :: rest)
      leaders) as (e & -> & He); try done.
    exists e. by rewrite (decide_skip 1), (decide_skip 0) by lia.
Qed.

Lemma decide_rounds n lo leaders :
  lo + N.of_nat n + 2 < u32_MAX -> s_round last_decided < lo ->
  deciding (lo + N.of_nat n) leaders ->
  exists out,
    decide_loop s last_decided
      (r ← reverse ((fun i => lo + N.of_nat i) <$> seq 0 n);
       (fun o => (r, o)) <$> reverse (uc_committers (pipelined_committer context sched)))
      leaders = Ok out
    /\ deciding lo out /\ length out = (n + length leaders)%nat.
Proof.
  revert leaders. induction n as [|n IH]; intros leaders Hmax Hlast HL.
  - exists leaders. simpl. rewrite N.add_0_r in HL. done.
  - rewrite seq_S, fmap_app, reverse_app. cbn [Nat.add fmap list_fmap].
    change (reverse [?x] ++ ?l) with (x :: l). rewrite bind_cons.
    destruct (decide_round (lo + N.of_nat n)
      (r ← reverse ((fun i => lo + N.of_nat i) <$> seq 0 n);
       (fun o => (r, o)) <$> reverse (uc_committers (pipelined_committer context sched))) leaders)
      as (e & -> & He); [lia|lia| |].
    { replace (lo + N.of_nat n + 1) with (lo + N.of_nat (Datatypes.S n)) by lia. done. }
    destruct (IH (e :: leaders)) as (out & -> & Hout & Hlen); [lia|done|done|].
    exists out. split_and!; [done..|]. simpl in Hlen. lia.
Qed.

(** What is returned for the statuses: the decided ones, up to the first
    undecided. *)
Lemma decided_prefix_Ok lo L :
  0 < lo -> decided_from c s slot_at lo L.*1 ->
  exists out, decided_prefix c L = Ok out
    /\ (forall i d, out !! i = Some d -> exists st dec, L !! i = Some (st, dec)
         /\ into_decided_leader st (is_direct dec) = Some d)
    /\ (forall st dec, L !! length out = Some (st, dec) -> is_decided st = false).
Proof.
  revert lo. induction L as [|[st dec] L IH]; intros lo Hlo HL.
  - by exists [].
  - assert (status_slot st = slot_at lo) as Hslot.
    { replace lo with (lo + N.of_nat 0) by lia. by eapply decided_from_slot. }
    simpl. rewrite (status_slot_round slot_at (fun _ => eq_refl) st lo Hslot).
    rewrite (proj2 (N.eqb_neq _ _)) by (unfold GENESIS_ROUND; lia).
    destruct (into_decided_leader st (is_direct dec)) as [d|] eqn:Ed.
    + destruct (IH (lo + 1)) as (out & E & Hout & Hend); [lia|by inversion HL|].
      assert (decided_slot d = slot_at lo) as ->.
      { rewrite <- Hslot. destruct st; simpl in Ed; try done; by injection Ed as <-. }
      cbn [s_authority slot_at].
      destruct (committee_authority_Ok c (leader lo)) as [au ->];
        [by apply (va_leader _ _ _ _ _ _ _ Hval)|].
      simpl. rewrite E. simpl. exists (d :: out). split_and!; [done| |done].
      intros [|i] d'; simpl; [intros [= <-]; eauto|apply Hout].
    + exists []. split_and!; [done|done|]. intros st' dec' [= <- <-]. by destruct st.
Qed.

Lemma try_decide_Ok :
  let lo := s_round last_decided + 1 in
  exists L out, try_decide (pipelined_committer context sched) s last_decided = Ok out
    /\ deciding lo L
    /\ length L = N.to_nat (saturating_sub (ds_highest_accepted_round s) 2 + 1 - lo)
    /\ (forall i d, out !! i = Some d -> exists st dec, L !! i = Some (st, dec)
         /\ into_decided_leader st (is_direct dec) = Some d)
    /\ (forall st dec, L !! length out = Some (st, dec) -> is_decided st = false).
Proof.
  intros lo. unfold try_decide. cbn [uc_context pipelined_committer universal_committer_build].
  rewrite (va_leaders _ _ _ _ _ _ _ Hval).
  pose proof (va_last_max _ _ _ _ _ _ _ Hval). pose proof (va_high _ _ _ _ _ _ _ Hval).
  rewrite u32_add_small by lia. fold lo. unfold decide_order, range_inclusive.
  set (n := N.to_nat (saturating_sub (ds_highest_accepted_round s) 2 + 1 - lo)).
  destruct (decide (n = 0%nat)) as [En|En].
  { rewrite En. simpl. exists [], []. split_and!; [done| |done|done|done].
    split_and!; [constructor|done|done]. }
  destruct (decide_rounds n lo []) as (L & E & HL & Hlen).
  - unfold n, saturating_sub in *. lia.
  - lia.
  - split_and!; [constructor|done|done].
  - destruct (decided_prefix_Ok lo L) as (out & Eout & Hout); [lia|apply HL|].
    exists L, out. split; [|split_and!; [done| |apply Hout..]].
    + simpl in E |- *. rewrite E. simpl. by rewrite (va_committee _ _ _ _ _ _ _ Hval).
    + rewrite Hlen. simpl. lia.
Qed.
End decide.

(** What a decision must rest on: the leader of the slot, in the view, with a
    certificate in the view; a quorum of certificates, or of blames, for the
    direct rule. *)
Definition decision_ok {S} (c : Committee) (s : DagState S) (slot : Slot) (d : DecidedLeader) : Prop :=
  match d with
  | DecidedCommit b direct =>
      slot_of_ref (reference b) = slot /\ view s (reference b) = Some b
      /\ (exists y, view s (reference y) = Some y /\ round y = round b + 2 /\ is_cert c s y b = true)
      /\ (direct = true -> reached_quorum c (stake_of c (supporters c s b)) = true)
  | DecidedSkip sl => sl = slot
  end.

(** C13: The decided sequence.  On a good view of the DAG [try_decide]
    returns, and the i-th decision is for the leader of the i-th round after
    the last decided slot; a committed block is the cached block of that slot
    and has a certificate in the view, and is flagged as a direct commit only
    if certificates of a quorum are in the view. *)
Theorem try_decide_sequence `{Rng} {S} `{StoreLaws S} (c : Committee) (byz : gset N)
    (univ : VerifiedBlock -> Prop) (leader : N -> N) (last_decided : Slot)
    (context : Context) (sched : LeaderSchedule) (s : DagState S) :
  honest_universe c byz univ ->
  validator c univ leader last_decided context sched s ->
  exists out, try_decide (pipelined_committer context sched) s last_decided = Ok out
    /\ forall i d, out !! i = Some d ->
         decision_ok c s (slot_at leader (s_round last_decided + 1 + N.of_nat i)) d.
Proof.
  intros Hu V.
  destruct (try_decide_Ok c byz univ Hu leader last_decided context sched s V)
    as (L & out & E & (D & Hdir & _) & _ & O & _).
  exists out. split; [done|]. intros i d Hi.
  destruct (O i d Hi) as (st & dec & J & K).
  assert (L.*1 !! i = Some st) as J1 by (by rewrite list_lookup_fmap, J).
  pose proof (decided_from_slot c (slot_at leader) s _ _ i st D J1) as Hslot.
  destruct st as [b|sl|sl]; simpl in K; [| |done]; injection K as <-; simpl in *; [|done].
  pose proof (list_elem_of_lookup_2 _ _ _ J1) as Hb. split_and!.
  - done.
  - by eapply decided_from_view.
  - by apply (decided_from_cert c byz univ Hu (slot_at leader) s _ L.*1 b (va_view _ _ _ _ _ _ _ V) D).
  - intros Hd. destruct dec; try done. by apply (Hdir i _ J).
Qed.

(** C27: Progress.  If each of the first [k] rounds after the last decided
    slot has a leader slot that a quorum of the next round's blocks blames, or
    a leader block with certificates of a quorum two rounds later (and the
    stakes of the blocks of that round do not overflow), and these rounds are
    two below the highest accepted round, then [try_decide] decides at least
    the [k] slots. *)
Theorem try_decide_progress `{Rng} {S} `{StoreLaws S} (c : Committee) (byz : gset N)
    (univ : VerifiedBlock -> Prop) (leader : N -> N) (last_decided : Slot)
    (context : Context) (sched : LeaderSchedule) (s : DagState S) (k : nat) :
  honest_universe c byz univ ->
  validator c univ leader last_decided context sched s ->
  (forall i, (i < k)%nat ->
     directly_decidable c s (slot_at leader (s_round last_decided + 1 + N.of_nat i))) ->
  s_round last_decided + N.of_nat k + 2 <= ds_highest_accepted_round s ->
  exists out, try_decide (pipelined_committer context sched) s last_decided = Ok out
    /\ (k <= length out)%nat.
Proof.
  intros Hu V Hdec Hhigh.
  destruct (try_decide_Ok c byz univ Hu leader last_decided context sched s V)
    as (L & out & E & (_ & _ & Hdir) & Hlen & _ & Hend).
  exists out. split; [done|]. apply Nat.nlt_ge. intros Hlt.
  destruct (lookup_lt_is_Some_2 L (length out)) as [[st dec] Hst].
  { rewrite Hlen. unfold saturating_sub. lia. }
  specialize (Hend _ _ Hst). rewrite (Hdir _ _ _ Hst) in Hend; [done|]. by apply Hdec.
Qed.

(** The same decision, up to the flag that tells how it was reached. *)
Definition same_decision (d1 d2 : DecidedLeader) : Prop :=
  match d1, d2 with
  | DecidedCommit b1 _, DecidedCommit b2 _ => b1 = b2
  | DecidedSkip s1, DecidedSkip s2 => s1 = s2
  | _, _ => False
  end.

(** C7: Agreement.  Take two validators with a common committee, leader
    election and last decided slot, whose views of the DAG satisfy the
    invariant of the DAG state and hold blocks of a universe where
    authorities outside a set below the validity threshold do not equivocate.
    Both runs of [try_decide] succeed, and wherever both decide the i-th slot
    they commit the same block or both skip it: one decided sequence is a
    prefix of the other. *)
Theorem try_decide_agreement `{Rng} {S} `{StoreLaws S} (c : Committee) (byz : gset N)
    (univ : VerifiedBlock -> Prop) (leader : N -> N) (last_decided : Slot)
    (context1 context2 : Context) (sched1 sched2 : LeaderSchedule) (s1 s2 : DagState S) :
  honest_universe c byz univ ->
  validator c univ leader last_decided context1 sched1 s1 ->
  validator c univ leader last_decided context2 sched2 s2 ->
  exists out1 out2,
    try_decide (pipelined_committer context1 sched1) s1 last_decided = Ok out1
    /\ try_decide (pipelined_committer context2 sched2) s2 last_decided = Ok out2
    /\ forall i d1 d2, out1 !! i = Some d1 -> out2 !! i = Some d2 -> same_decision d1 d2.
Proof.
  intros Hu V1 V2.
  destruct (try_decide_Ok c byz univ Hu leader last_decided context1 sched1 s1 V1)
    as (L1 & out1 & E1 & [D1 _] & _ & O1 & _).
  destruct (try_decide_Ok c byz univ Hu leader last_decided context2 sched2 s2 V2)
    as (L2 & out2 & E2 & [D2 _] & _ & O2 & _).
  exists out1, out2. split_and!; [done..|]. intros i d1 d2 I1 I2.
  destruct (O1 i d1 I1) as (st1 & dec1 & J1 & K1), (O2 i d2 I2) as (st2 & dec2 & J2 & K2).
  assert (st1 = st2) as <-.
  { pose proof (gc_round_le s1). pose proof (gc_round_le s2).
    pose proof (va_last _ _ _ _ _ _ _ V1). pose proof (va_last _ _ _ _ _ _ _ V2).
    apply (decided_agree c byz univ Hu (slot_at leader) (fun _ => eq_refl) s1 s2
      (s_round last_decided + 1) L1.*1 L2.*1 (va_view _ _ _ _ _ _ _ V1) (va_view _ _ _ _ _ _ _ V2)
      ltac:(lia) ltac:(lia) D1 D2 i).
    - by rewrite list_lookup_fmap, J1.
    - by rewrite list_lookup_fmap, J2.
    - by destruct st1.
    - by destruct st2. }
  destruct st1; simpl in *; try done; injection K1 as <-; injection K2 as <-; done.
Qed.

(* ------------------------------------------------------------------ *)
(** ** Witnesses *)

#[local] Existing Instance first_rng.

Definition sample_schedule (own : N) : LeaderSchedule :=
  leader_schedule_new (sample_context own)
    (mkLeaderSwapTable [] ∅ (mkReputationScores [] (commit_range_new 0 0))).

Definition sample_universe (b : VerifiedBlock) : Prop := b ∈ sample_blocks 8.

Lemma sample_universe_honest : honest_universe (test_committee 4) ∅ sample_universe.
Proof.
  constructor.
  - exact test_committee_4_wf.
  - vm_compute. reflexivity.
  - intros x y Hx Hy. apply (NoDup_fmap_elem_inj reference (sample_blocks 8)); [|done..].
    apply (bool_decide_eq_true_1 _). vm_compute. reflexivity.
  - intros x y Hx Hy Ha Hr _.
    apply (NoDup_fmap_elem_inj (fun b => slot_of_ref (reference b)) (sample_blocks 8)); [|done..|].
    + apply (bool_decide_eq_true_1 _). vm_compute. reflexivity.
    + unfold slot_of_ref. simpl. congruence.
Qed.

Lemma sample_elect own r : schedule_elect_leader (sample_schedule own) r 0 = Ok 0.
Proof. vm_compute. reflexivity. Qed.

Lemma sample_view_ok own n :
  causal (test_committee 4) own 0 ∅ (sample_blocks n) -> sample_blocks n ⊆ sample_blocks 8 ->
  ds_store (sample own n) = mem_store_new ->
  good_view (test_committee 4) sample_universe (sample own n).
Proof.
  intros Hc Hsub Hst. destruct (sample_ok own n Hc) as (_ & Hinv & _ & Hctx & _ & Hin).
  constructor.
  - done.
  - intros r b. by rewrite Hst.
  - unfold ds_committee. by rewrite Hctx.
  - intros r b Hb. by apply Hsub, (Hin r).
Qed.

Lemma sample_validator own n :
  causal (test_committee 4) own 0 ∅ (sample_blocks n) -> (n <= 8)%nat ->
  ds_store (sample own n) = mem_store_new ->
  ds_highest_accepted_round (sample own n) = N.of_nat n ->
  validator (test_committee 4) sample_universe (fun _ => 0) (mkSlot 0 0) (sample_context own)
    (sample_schedule own) (sample own n).
Proof.
  intros Hc Hn Hst Hhi. destruct (sample_ok own n Hc) as (_ & _ & _ & _ & Hlast & _).
  constructor; try done.
  - apply sample_view_ok; [done|by apply sample_blocks_mono|done].
  - unfold last_commit_round. rewrite Hlast. done.
  - rewrite Hhi. unfold u32_MAX. lia.
Qed.

Lemma sample_validator_0 :
  validator (test_committee 4) sample_universe (fun _ => 0) (mkSlot 0 0) (sample_context 0)
    (sample_schedule 0) (sample 0 6).
Proof. apply (sample_validator 0 6 sample_causal); [lia|vm_compute; reflexivity..]. Qed.

Lemma sample_validator_1 :
  validator (test_committee 4) sample_universe (fun _ => 0) (mkSlot 0 0) (sample_context 1)
    (sample_schedule 1) (sample 1 8).
Proof. apply (sample_validator 1 8 sample_causal_1); [lia|vm_compute; reflexivity..]. Qed.

Lemma try_decide_agreement_witness :
  exists out1 out2,
    try_decide (pipelined_committer (sample_context 0) (sample_schedule 0)) (sample 0 6) (mkSlot 0 0)
      = Ok out1
    /\ try_decide (pipelined_committer (sample_context 1) (sample_schedule 1)) (sample 1 8) (mkSlot 0 0)
      = Ok out2
    /\ forall i d1 d2, out1 !! i = Some d1 -> out2 !! i = Some d2 -> same_decision d1 d2.
Proof.
  exact (try_decide_agreement (test_committee 4) ∅ sample_universe (fun _ => 0) (mkSlot 0 0)
    (sample_context 0) (sample_context 1) (sample_schedule 0) (sample_schedule 1)
    (sample 0 6) (sample 1 8) sample_universe_honest sample_validator_0 sample_validator_1).
Defined.

Lemma try_decide_sequence_witness :
  exists out,
    try_decide (pipelined_committer (sample_context 0) (sample_schedule 0)) (sample 0 6) (mkSlot 0 0)
      = Ok out
    /\ forall i d, out !! i = Some d ->
         decision_ok (test_committee 4) (sample 0 6) (slot_at (fun _ => 0) (0 + 1 + N.of_nat i)) d.
Proof.
  exact (try_decide_sequence (test_committee 4) ∅ sample_universe (fun _ => 0) (mkSlot 0 0)
    (sample_context 0) (sample_schedule 0) (sample 0 6) sample_universe_honest sample_validator_0).
Defined.

(** The leader of round 1 has certificates of a quorum, the one of round 2,
    which is missing, is blamed by a quorum. *)
Lemma try_decide_progress_witness :
  exists out,
    try_decide (pipelined_committer (sample_context 0) (sample_schedule 0)) (sample 0 6) (mkSlot 0 0)
      = Ok out /\ (2 <= length out)%nat.
Proof.
  apply (try_decide_progress (test_committee 4) ∅ sample_universe (fun _ => 0) (mkSlot 0 0)
    (sample_context 0) (sample_schedule 0) (sample 0 6) 2 sample_universe_honest sample_validator_0).
  - intros [|[|i]] Hi; [| |lia]; (split; [vm_compute; discriminate|]).
    + exists (StatusCommit (sample_block 1 0)). vm_compute. done.
    + exists (StatusSkip (mkSlot 2 0)). vm_compute. done.
  - vm_compute. discriminate.
Defined.
