(* ===== verification/ProposerBlock.v ===== *)
(** * Making own blocks

    [try_new_block] of a validator returns; without a block it leaves the DAG
    and the votes alone, and a block that it returns is well-formed, at the
    clock round, built on its own last block and on a quorum of the round
    before, accepted into the DAG, linked and persisted. *)

From S2P Require Import Prelude Committee Context Block StakeAggregator ThresholdClock Commit Error RoundTracker Store LeaderScoring Ancestor TransactionConsumer DagState VoteTracker DagInv Evolve DagOps DagLink DagAccept DagInclude LeaderSchedule ScheduleRun BlockVerifier BaseCommitter UniversalCommitter Core ValidatorProposer TryDecide ProposerAncestors.

(* ------------------------------------------------------------------ *)
(** ** The leaders to wait for *)

(** The waiter that the core builds from its committer. *)
Definition committer_waiter (context : Context) : ProposalLeaderWaiter :=
  WaiterV2 (fun schedule => universal_committer_build context schedule DEFAULT_WAVE_LENGTH
    (default 1 (num_leaders_per_round (protocol_config context))) true).

Lemma waiter_Ok `{RngLaws} (context : Context) schedule r :
  config_ok context -> ls_context schedule = context ->
  table_usable (committee context) (leader_swap_table schedule) -> r + 3 < u32_MAX ->
  exists a, leader_slots_to_wait_for (committer_waiter context) schedule r = Ok [mkSlot r a]
    /\ is_valid_index (committee context) a = true.
Proof.
  intros Hc Hls Ht Hr.
  destruct (schedule_elect_Ok schedule r) as (a & E & Hv & _); rewrite ?Hls; [apply Hc|apply Hc|done|].
  exists a. rewrite Hls in Hv. split; [|done]. unfold committer_waiter, leader_slots_to_wait_for, get_leaders.
  rewrite (cf_leaders _ Hc). cbn [default from_option id].
  change (uc_committers _) with [stage context schedule 0; stage context schedule 1; stage context schedule 2].
  assert (forall o, o < 3 -> elect_leader (stage context schedule o) r
    = Ok (if r `mod` 3 =? o then Some (mkSlot r a) else None)) as Hstage.
  { intros o Ho. unfold elect_leader. destruct (N.eqb_spec (r `mod` 3) o) as [Eo|Eo];
      rewrite <- (stage_leader_round context schedule o r Ho Hr) in Eo.
    - rewrite (proj2 (N.eqb_eq _ _) Eo). simpl. by rewrite E.
    - by rewrite (proj2 (N.eqb_neq _ _) Eo). }
  pose proof (N.mod_lt r 3 ltac:(lia)) as Hm.
  assert (mapM (fun committer => elect_leader committer r)
    [stage context schedule 0; stage context schedule 1; stage context schedule 2]
    = Ok ((fun o => if r `mod` 3 =? o then Some (mkSlot r a) else None) <$> [0; 1; 2])) as ->.
  { cbn. rewrite Hstage by lia. cbn. rewrite Hstage by lia. cbn. rewrite Hstage by lia. done. }
  cbn [mbind outcome_bind fmap list_fmap]. revert Hm. generalize (r `mod` 3) as o. clear. intros o Ho.
  assert (o = 0 \/ o = 1 \/ o = 2) as [->|[->| ->]] by lia; done.
Qed.

(* ------------------------------------------------------------------ *)
(** ** The state of a proposer *)

Section block.
Context {RN : Rng} {RL : RngLaws} {CR : Crypto} {S : Type} {ST : Store S} {SL : StoreLaws S}.
Context (bcs_to_bytes : SignedBlock -> list byte) (default_hash : list byte -> N).

(** Serialisation does not fail, and digests have 256 bits. *)
Record signing_ok : Prop := {
  so_block : forall b, is_Some (bcs_block b);
  so_intent : forall d, is_Some (bcs_intent d);
  so_hash : forall bytes, default_hash bytes <= DIGEST_MAX;
}.

(** The proposer of a node whose last own block is at round [last]. *)
Record proposer_ok (context : Context) (p : ValidatorProposer) (last : N) : Prop := {
  po_context : vp_context p = context;
  po_clock : clock_ok (vp_clock p);
  po_limits : limits_ok context;
  po_pool : pool_inv context (vp_transaction_consumer p);
  po_included : included_below (committee context) (vp_last_included_ancestors p) last;
  po_manager : manager_ok context (vp_ancestor_state_manager p);
  po_tracker : tracker_ok context (vp_round_tracker p);
  po_waiter : vp_leader_waiter p = committer_waiter context;
}.

(** The votes of the node on the blocks of [K], as long as voting is on. *)
Definition votes_known (context : Context) (K : BlockRef -> Prop) (votes : VoteTrackerState)
    (log : list (VerifiedBlock * list N)) : Prop :=
  vt_context votes = context /\ tracks_votes log votes
  /\ forall r, K r -> vt_gc_round votes < br_round r -> r ∈ reference <$> log.*1.

Lemma sign_Ok block kp :
  signing_ok -> exists sb, signed_block_new block kp = Ok (Success sb) /\ inner sb = block.
Proof.
  intros [Hb Hi _]. destruct (Hb block) as [bytes Eb], (Hi (inner_hash bytes)) as [msg Em].
  eexists. unfold signed_block_new, compute_block_signature, compute_inner_block_digest, ok_or, try_.
  rewrite Eb. cbn. rewrite Em. cbn. done.
Qed.

Lemma store_included_Ok c anc R : forall inc,
  included_below c inc R -> (forall x, x ∈ anc -> round x < R /\ is_valid_index c (author x) = true) ->
  exists inc', foldM (fun refs ancestor => vec_store refs (author ancestor) (Some (reference ancestor))) anc inc = Ok inc'
    /\ included_below c inc' R.
Proof.
  intros inc Hinc Hanc. apply (foldM_total (fun inc => included_below c inc R)); [done|].
  intros x inc1 Hx [Hlen Hb]. destruct (Hanc x Hx) as [Hr Ha]. unfold vec_store.
  destruct (lookup_lt_is_Some_2 inc1 (N.to_nat (author x))) as [o ->]; [apply N.ltb_lt in Ha; lia|].
  eexists. split; [done|]. split; [by rewrite length_insert|].
  intros i y [(_ & [= <-] & _)|[_ ?]]%list_lookup_insert_Some; [done|by eapply Hb].
Qed.

(* ------------------------------------------------------------------ *)
(** ** The steps of making a block *)

Section steps.
Implicit Types s : DagState S.

(** Taking commit votes changes nothing else. *)
Lemma take_votes_Ok s n s' votes P :
  dag_inv s -> persist_inv s -> included_closed s -> take_commit_votes s n = (s', votes) ->
  dag_inv s' /\ persist_inv s' /\ included_closed s' /\ grown s P s' /\ (forall r, view s' r = view s r)
  /\ (forall r, included s' r = included s r) /\ votes = take (N.to_nat n) (ds_pending_commit_votes s).
Proof.
  intros Hs Hp Hcl [= <- <-]. split_and!; try done.
  - apply (dag_inv_ext s); try done. apply (di_clock s Hs).
  - by apply (persist_inv_ext s).
  - constructor; try done; [by apply evolves_same|]. intros r x. by left.
Qed.

(** What the node votes on with a block on [anc]: the blocks that come into its
    history and that it has reasons to reject. *)
Definition own_votes_on s (anc : list VerifiedBlock) (votes : VoteTrackerState) (log : list (VerifiedBlock * list N))
    (v : BlockTransactionVotes) : Prop :=
  gc_round s < br_round (btv_block_ref v) /\ included s (btv_block_ref v) = false
  /\ below s (list_to_set (reference <$> anc)) (btv_block_ref v)
  /\ vt_gc_round votes < br_round (btv_block_ref v)
  /\ btv_rejects v <> [] /\ exists x, (x, btv_rejects v) ∈ log /\ reference x = btv_block_ref v.

Lemma cast_votes_Ok s votes log anc P :
  dag_inv s -> persist_inv s -> included_closed s ->
  (forall x, x ∈ anc -> gc_round s < round x -> is_Some (view s (reference x))) ->
  votes_known (ds_context s) (fun r => is_Some (view s r)) votes log ->
  exists s' tv, (linked ← link_ancestors s anc; own_votes ← get_own_votes votes linked.2; Ok (linked.1, own_votes)) = Ok (s', tv)
    /\ dag_inv s' /\ persist_inv s' /\ included_closed s' /\ grown s P s' /\ (forall r, view s' r = view s r)
    /\ forall v, v ∈ tv <-> own_votes_on s anc votes log v.
Proof.
  intros Hs Hp Hcl Hanc (_ & Htr & Hknown). unfold link_ancestors.
  rewrite <- (foldM_fmap (fun acc root => linked ← link_causal_history acc.1 root; Ok (linked.1, acc.2 ++ linked.2)) reference anc).
  destruct (link_all_Ok (reference <$> anc) s [] Hs Hcl) as (s' & l & -> & Hr & Hi & Hcl' & _ & Hl & _ & _).
  { intros r (x & -> & Hx)%list_elem_of_fmap. by apply Hanc. }
  cbn [mbind outcome_bind fst snd app]. unfold get_own_votes.
  destruct (get_own_votes_Ok log votes l []) as (tv & -> & Htv); [done| |].
  { intros r (Hgc & _ & Hb)%Hl Hvt. apply Hknown; [|done].
    destruct Hb as [(x & -> & Hx)%elem_of_list_to_set%list_elem_of_fmap|(x & b & _ & Hv & Hreach)]; [by apply Hanc|].
    by apply (reach_cached s b r Hs (rooted_view s x b Hs Hv)). }
  cbn [mbind outcome_bind app]. exists s', tv. pose proof (remarked_view s s') as Hview.
  split_and!; [done|done|by apply (remarked_persist s)|done|by apply remarked_grown|intros r; by apply Hview|].
  intros v. rewrite Htv, Hl. unfold own_votes_on. tauto.
Qed.

(** Accepting an own block at a free slot. *)
Lemma accept_own_Ok s b :
  dag_inv s -> persist_inv s -> enable_v3 (protocol_config (ds_context s)) = false -> rooted s b ->
  dag_block s (reference b) = None ->
  (forall x, is_Some (view s x) -> br_author x = own_index (ds_context s) -> br_round x < round b) ->
  exists s', accept_block s b = Ok s' /\ dag_inv s' /\ persist_inv s' /\ grown s (eq b) s'
    /\ (forall r, view s' r = if decide (r = reference b) then Some b else view s r).
Proof.
  intros Hs Hp Hv3 Hb Hnone Hmax.
  destruct (accept_block_Ok s b Hs Hp Hv3 Hb) as (s' & E & Hi & Hp' & _ & _ & Ev & Hd).
  { intros Ha x Hx Hslot. exfalso. injection Hslot as Hr Hxa.
    assert (br_round (reference x) < round b) as Hlt by (apply Hmax; [by eexists|simpl; congruence]). simpl in *. lia. }
  rewrite Hnone in Hd. destruct Hd as (Hview & Hdag & Hhigh). exists s'. split_and!; [done..| |done].
  constructor; [done| | |].
  - intros r x. rewrite Hdag. case_decide; [|by left]. intros [= <-]. by right.
  - intros R HR Hx. rewrite Hhigh. specialize (Hx b eq_refl). lia.
  - rewrite Hhigh. lia.
Qed.

(** The votes and the marks for the block itself. *)
Lemma record_own_Ok s votes log b P :
  dag_inv s -> persist_inv s -> included_closed s -> is_valid_index (ds_committee s) (author b) = true ->
  view s (reference b) = Some b -> vt_context votes = ds_context s -> tracks_votes log votes ->
  exists s' votes' l, add_voted_blocks votes [(b, [])] = Ok votes' /\ link_causal_history s (reference b) = Ok (s', l)
    /\ dag_inv s' /\ persist_inv s' /\ included_closed s' /\ grown s P s' /\ (forall r, view s' r = view s r)
    /\ vt_context votes' = vt_context votes /\ vt_gc_round votes' = vt_gc_round votes
    /\ tracks_votes (log_voted (vt_gc_round votes) log (b, [])) votes'
    /\ (gc_round s < round b -> included s' (reference b) = true).
Proof.
  intros Hs Hp Hcl Ha Hv Hctx Htr.
  destruct (add_voted_block_Ok log votes b []) as (votes' & E & Hc' & Hg' & Htr'); [rewrite Hctx; apply (di_committee s Hs)|by rewrite Hctx|done|].
  destruct (link_history_Ok s (reference b) Hs Hcl) as (s' & l & El & Hl & Hcl' & _); [by eexists|].
  pose proof (link_remarked _ _ _ _ El) as Hr. exists s', votes', l.
  split_and!; [unfold add_voted_blocks; cbn [foldM]; by rewrite E|done|apply Hl|by apply (remarked_persist s)|done|
    by apply remarked_grown|intros r; by apply remarked_view|done..|].
  intros Hgc. apply (lk_targets _ _ _ _ Hl); [left|done].
Qed.
End steps.

Section make.
Context (s : DagState S) (Hs : dag_inv s) (Hp : persist_inv s) (Hlive : live_inv s) (Hcl : included_closed s).
Context (Hv3 : enable_v3 (protocol_config (ds_context s)) = false).
Notation c := (ds_committee s).
Notation R := (tc_round (ds_threshold_clock s)).
Notation own := (own_index (ds_context s)).
Context (HR : R < u32_MAX) (Hsign : signing_ok).
Context (Hgen : forall r b, ds_genesis s !! r = Some b -> br_digest r <= DIGEST_MAX).
Context (own_last : VerifiedBlock) (Hown : own_tip s own_last) (Hclock : round own_last < R).

(** A block at the clock round on chosen ancestors. *)
Lemma proposal_wf anc inc b :
  ancestors_ok s own_last inc anc -> round b = R -> author b = own -> ancestors b = reference <$> anc ->
  vb_digest b <= DIGEST_MAX -> wf_block c b /\ rooted s b.
Proof using Hs Hlive HR Hgen Hown.
  clear Hclock. intros [(rest & -> & _) Hnd Hus Hq] Hr Ha Hanc Hd. pose proof (clock_positive s Hlive) as HR0.
  assert (forall x, x ∈ own_last :: rest -> vb_digest x <= DIGEST_MAX) as Hdig.
  { intros x Hx. destruct (Hus x Hx) as (_ & _ & [Hv|Hg]).
    - apply (wb_digest _ _ (proj2 (di_wf s Hs _ _ Hv))).
    - by apply (Hgen (reference x) x). }
  assert (wf_block c b) as Hwf.
  { constructor; [lia| |done| | |].
    - rewrite Ha, <- (ot_author _ _ Hown). apply (ot_valid _ _ Hown).
    - intros r. rewrite Hanc, Hr. intros (x & -> & Hx)%list_elem_of_fmap. destruct (Hus x Hx) as (? & ? & _).
      split_and!; [done|done|by apply Hdig].
    - rewrite Hanc, <- list_fmap_compose. exact Hnd.
    - apply N.leb_le in Hq. etrans; [exact Hq|]. apply stake_of_mono. intros a (x & Hx & Hxr & Hxa)%elem_of_authors_of.
      unfold parent_authors, parents. apply elem_of_list_to_set, list_elem_of_fmap. exists (reference x). split; [done|].
      apply list_elem_of_filter. rewrite Hanc, Hr. split; [simpl; lia|by apply list_elem_of_fmap_2]. }
  split; [done|]. split; [done|]. intros r. rewrite Hanc. intros (x & -> & Hx)%list_elem_of_fmap Hgc.
  destruct (Hus x Hx) as (_ & _ & [Hv|Hg]); [by eexists|].
  destruct (di_genesis_ref s Hs _ _ Hg) as [_ Hz]. lia.
Qed.

(** No block is known at the slot of the next own block. *)
Lemma own_slot_unknown b : round b = R -> author b = own -> dag_block s (reference b) = None.
Proof using Hs Hp Hlive Hown Hclock.
  clear HR. intros Hr Ha. pose proof (clock_positive s Hlive) as HR0.
  assert (forall x, is_Some (view s x) -> br_author x = own -> br_round x < R) as Hmax.
  { intros x Hx Hxa. pose proof (ot_max _ _ Hown x Hx Hxa). lia. }
  destruct (view s (reference b)) as [x|] eqn:Ev.
  { specialize (Hmax (reference b) (mk_is_Some _ _ Ev) Ha). simpl in Hmax. lia. }
  unfold dag_block, cached_block. rewrite (proj2 (N.eqb_neq _ _)) by (unfold GENESIS_ROUND; simpl; lia).
  unfold view in Ev. apply fmap_None in Ev. rewrite Ev.
  destruct (store_block (ds_store s) (reference b)) as [x|] eqn:Est; [|done]. exfalso.
  destruct (pi_store s Hp _ _ Est) as (_ & _ & [Hv|(r' & Ha' & Hv' & Hle)]).
  - unfold view in Hv. by rewrite Ev in Hv.
  - assert (br_round r' < R) as Hlt by (apply Hmax; [done|by rewrite Ha']). simpl in Hle. lia.
Qed.

Notation voting := (transaction_voting_enabled (protocol_config (ds_context s))).

(** The block [b] that was made on [anc], and the DAG state after it. *)
Record made (p : ValidatorProposer) (anc : list VerifiedBlock) (votes : VoteTrackerState)
    (log : list (VerifiedBlock * list N)) (b : VerifiedBlock) (s' : DagState S) : Prop := {
  md_wf : wf_block c b;
  md_author : author b = own;
  md_round : round b = R;
  md_epoch : epoch b = c_epoch c;
  md_ancestors : ancestors b = reference <$> anc;
  md_transactions : transactions b = (consumer_next (vp_transaction_consumer p)).1.1.2;
  md_votes : if voting then forall v, v ∈ transaction_votes b <-> own_votes_on s anc votes log v
             else transaction_votes b = [];
  md_commits : commit_votes b = take (N.to_nat MAX_COMMIT_VOTES_PER_BLOCK) (ds_pending_commit_votes s);
  md_signed : signed_block_new (inner (vb_block b)) (vp_block_signer p) = Ok (Success (vb_block b));
  md_digest : b = verified_block_new_verified default_hash (vb_block b) (bcs_to_bytes (vb_block b));
  md_new : dag_block s (reference b) = None;
  md_grown : grown s (eq b) s';
  md_inv : dag_inv s';
  md_persist : persist_inv s';
  md_closed : included_closed s';
  md_view : forall r, gc_round s < br_round r -> view s' r = if decide (r = reference b) then Some b else view s r;
  md_flushed : ds_blocks_to_write s' = [];
  md_included : voting = true -> included s' (reference b) = true;
}.

(** The votes of the node after its block [b]. *)
Definition own_voted (votes votes' : VoteTrackerState) (log : list (VerifiedBlock * list N)) (b : VerifiedBlock) : Prop :=
  if voting then
    vt_context votes' = vt_context votes /\ vt_gc_round votes' = vt_gc_round votes
    /\ tracks_votes (log_voted (vt_gc_round votes) log (b, [])) votes'
  else votes' = votes.

(** From signing to flushing. *)
Lemma finish_block_Ok s1 votes log b :
  dag_inv s1 -> persist_inv s1 -> included_closed s1 -> grown s (fun _ => False) s1 -> (forall r, view s1 r = view s r) ->
  rooted s b -> round b = R -> author b = own ->
  (voting = true -> vt_context votes = ds_context s /\ tracks_votes log votes) ->
  exists last s2 votes' s3 s',
    validator_last_proposed_block s1 = Ok last /\ accept_block s1 b = Ok s2
    /\ (if voting then votes ← add_voted_blocks votes [(b, [])]; linked ← link_causal_history s2 (reference b); Ok (votes, linked.1)
         else Ok (votes, s2)) = Ok (votes', s3)
    /\ flush s3 = Ok s' /\ own_voted votes votes' log b
    /\ dag_inv s' /\ persist_inv s' /\ included_closed s' /\ grown s (eq b) s' /\ ds_blocks_to_write s' = []
    /\ (forall r, gc_round s < br_round r -> view s' r = if decide (r = reference b) then Some b else view s r)
    /\ (voting = true -> included s' (reference b) = true).
Proof using Hs Hp Hlive Hv3 Hown Hclock.
  clear HR. intros Hi1 Hp1 Hcl1 Hg1 Hview1 Hb Hr Ha Hvotes.
  pose proof (gw_evolves _ _ _ Hg1) as Ev1. pose proof (el_context _ _ Ev1) as Hc1. pose proof (evolves_gc _ _ Ev1) as Hgc1.
  pose proof (own_slot_unknown b Hr Ha) as Hnone.
  destruct (own_tip_Ok s1 Hi1) as [last Hlast].
  { rewrite Hc1. unfold is_validator. rewrite <- (ot_author _ _ Hown). apply (ot_valid _ _ Hown). }
  destruct (accept_own_Ok s1 b Hi1 Hp1) as (s2 & E2 & Hi2 & Hp2 & Hg2 & Hview2); [by rewrite Hc1| | | |].
  { destruct Hb as [Hwf Hcl']. split; [unfold ds_committee in *; by rewrite Hc1|]. intros a. rewrite Hgc1, Hview1. apply Hcl'. }
  { destruct (dag_block s1 (reference b)) as [x|] eqn:E; [|done]. destruct (gw_blocks _ _ _ Hg1 _ _ E) as [?|[]]. congruence. }
  { intros x. rewrite Hview1, Hc1, Hr. intros Hx Hxa. pose proof (ot_max _ _ Hown x Hx Hxa). lia. }
  pose proof (gw_evolves _ _ _ Hg2) as Ev2. pose proof (el_context _ _ Ev2) as Hc2. pose proof (evolves_gc _ _ Ev2) as Hgc2.
  pose proof (el_closed _ _ Ev2 Hcl1) as Hcl2.
  assert (view s2 (reference b) = Some b) as Hb2 by (by rewrite Hview2, decide_True).
  assert (exists votes' s3, (if voting then votes ← add_voted_blocks votes [(b, [])];
      linked ← link_causal_history s2 (reference b); Ok (votes, linked.1) else Ok (votes, s2)) = Ok (votes', s3)
    /\ own_voted votes votes' log b /\ dag_inv s3 /\ persist_inv s3 /\ included_closed s3 /\ grown s2 (eq b) s3
    /\ (forall r, view s3 r = view s2 r) /\ (voting = true -> included s3 (reference b) = true))
    as (votes' & s3 & E3 & Hov & Hi3 & Hp3 & Hcl3 & Hg3 & Hview3 & Hinc3).
  { unfold own_voted. destruct voting.
    - destruct (Hvotes eq_refl) as [Hvc Htr].
      destruct (record_own_Ok s2 votes log b (eq b) Hi2 Hp2 Hcl2) as (s3 & votes' & l & -> & -> & H3); [|done|congruence|done|].
      { unfold ds_committee. rewrite Hc2, Hc1. apply (wb_author _ _ (proj1 Hb)). }
      exists votes', s3. split; [done|]. destruct H3 as (? & ? & ? & ? & ? & ? & ? & ? & Hinc). split_and!; try done.
      intros _. apply Hinc. rewrite Hgc2, Hgc1, Hr. apply (lv_gc s Hlive).
    - exists votes, s2. split_and!; try done. apply grown_refl. }
  destruct (flush_Ok s3 Hi3 Hp3) as (s' & E' & Hi' & Hp' & Hbuf & _ & _ & Hd' & Hv' & Ev' & Hh').
  pose proof (evolves_gc _ _ (gw_evolves _ _ _ Hg3)) as Hgc3.
  exists last, s2, votes', s3, s'. split_and!; [apply Hlast|done|done|done|done|done|done|by apply (el_closed _ _ Ev')| |done| |].
  - eapply (grown_trans s _ s1 (eq b)); [exact Hg1| |done|done]. eapply (grown_trans s1 _ s2 (eq b)); [exact Hg2| |done|done].
    eapply (grown_trans s2 _ s3 (fun _ => False)); [exact Hg3| |done|done].
    constructor; [done|intros r x; rewrite Hd'; by left|by rewrite Hh'|by rewrite Hh'].
  - intros r Hgc. rewrite Hv' by lia. rewrite Hview3, Hview2. case_decide; [done|]. apply Hview1.
  - intros Hvo. apply (el_included _ _ Ev'); [|by apply Hinc3]. rewrite Hgc3, Hgc2, Hgc1.
    change (br_round (reference b)) with (round b). rewrite Hr. apply (lv_gc s Hlive).
Qed.

(** Fields of the proposal. *)
Lemma proposal_fields block now anc txs tv cv :
  proposal_block (ds_context s) R now anc txs (if voting then tv else []) cv = block ->
  epoch block = c_epoch c /\ round block = R /\ author block = own /\ ancestors block = reference <$> anc
  /\ transactions block = txs /\ transaction_votes block = (if voting then tv else []) /\ commit_votes block = cv.
Proof using. clear. intros <-. unfold proposal_block. by destruct voting. Qed.

(** What does not depend on the block. *)
Lemma make_setup p anc inc0 slots l :
  proposer_ok (ds_context s) p R -> ancestors_ok s own_last inc0 anc ->
  slots = [mkSlot (R - 1) l] -> is_valid_index c l = true ->
  exists inc now clock aus,
    foldM (fun refs ancestor => vec_store refs (author ancestor) (Some (reference ancestor))) anc
      (vp_last_included_ancestors p) = Ok inc
    /\ included_below c inc R
    /\ (leader_slot ← unwrap (head slots); _ ← committee_authority c (s_authority leader_slot); Ok tt) = Ok tt
    /\ mapM (fun ancestor => committee_authority c (author ancestor)) anc = Ok aus
    /\ timestamp_utc_ms (vp_clock p) = Ok (now, clock) /\ clock_ok clock.
Proof using.
  clear HR Hclock. intros Hpo [_ _ Hus _] -> Hl.
  destruct (store_included_Ok c anc R _ (po_included _ _ _ Hpo)) as (inc & E & Hinc).
  { intros x Hx. destruct (Hus x Hx) as (? & ? & _). done. }
  destruct (timestamp_utc_ms_Ok _ (po_clock _ _ _ Hpo)) as (clock & Et & Hck & _).
  destruct (committee_authority_Ok c l Hl) as [au Eau].
  destruct (mapM_total (fun ancestor => committee_authority c (author ancestor)) anc) as [aus Eaus].
  { intros x Hx. destruct (Hus x Hx) as (_ & Hv & _). by apply committee_authority_Ok. }
  eexists inc, _, clock, aus. split_and!; [done|done|simpl; by rewrite Eau|done|done|done].
Qed.

(** The votes of commits and on transactions. *)
Lemma voting_step_Ok votes log anc inc0 s0 cv :
  ancestors_ok s own_last inc0 anc -> take_commit_votes s MAX_COMMIT_VOTES_PER_BLOCK = (s0, cv) ->
  (voting = true -> votes_known (ds_context s) (fun r => is_Some (view s r)) votes log) ->
  cv = take (N.to_nat MAX_COMMIT_VOTES_PER_BLOCK) (ds_pending_commit_votes s)
  /\ exists s1 tv, (if voting then linked ← link_ancestors s0 anc; own_votes ← get_own_votes votes linked.2;
        Ok (linked.1, own_votes) else Ok (s0, [])) = Ok (s1, if voting then tv else [])
      /\ dag_inv s1 /\ persist_inv s1 /\ included_closed s1 /\ grown s (fun _ => False) s1 /\ (forall r, view s1 r = view s r)
      /\ (voting = true -> forall v, v ∈ tv <-> own_votes_on s anc votes log v).
Proof using Hs Hp Hcl.
  clear HR Hclock. intros Hanc Etv Hvotes.
  destruct (take_votes_Ok s _ s0 cv (fun _ => False) Hs Hp Hcl Etv) as (Hi0 & Hp0 & Hcl0 & Hg0 & Hview0 & Hinc0 & ->).
  split; [done|].
  pose proof (gw_evolves _ _ _ Hg0) as Ev0. pose proof (el_context _ _ Ev0) as Hc0. pose proof (evolves_gc _ _ Ev0) as Hgc0.
  destruct voting; [|exists s0, []; by split_and!].
  destruct (cast_votes_Ok s0 votes log anc (fun _ => False) Hi0 Hp0 Hcl0) as (s1 & tv & -> & Hi1 & Hp1 & Hcl1 & Hg1 & Hview1 & Htv).
  { intros x Hx. rewrite Hgc0, Hview0. intros Hgc. destruct (ao_usable _ _ _ _ Hanc x Hx) as (_ & _ & [?|Hg]); [by eexists|].
    destruct (di_genesis_ref s Hs _ _ Hg) as [_ Hz]. simpl in Hz. lia. }
  { destruct (Hvotes eq_refl) as (Hvc & Htr & Hk). split_and!; [by rewrite Hc0|done|]. intros r. rewrite Hview0. apply Hk. }
  exists s1, tv. split_and!; try done; [by eapply (grown_trans s _ s0); [exact Hg0|exact Hg1|..]|intros r; by rewrite Hview1|].
  intros _ v. rewrite Htv. unfold own_votes_on. rewrite Hgc0, Hinc0.
  split; intros (? & ? & Hbe & ?); split_and!; try tauto; [by apply (below_ext s0)|by apply (below_ext s)].
Qed.

Lemma make_block_Ok p votes log slots anc exc inc0 l :
  proposer_ok (ds_context s) p R -> ancestors_ok s own_last inc0 anc ->
  (forall x, x ∈ exc -> is_valid_index c (br_author x) = true) ->
  slots = [mkSlot (R - 1) l] -> is_valid_index c l = true ->
  (voting = true -> votes_known (ds_context s) (fun r => is_Some (view s r)) votes log) ->
  exists p' s' votes' eb,
    make_block bcs_to_bytes default_hash p s votes R slots anc exc = Ok (p', s', votes', Some eb)
    /\ made p anc votes log (eb_block eb) s' /\ own_voted votes votes' log (eb_block eb)
    /\ proposer_ok (ds_context s) p' R
    /\ vp_last_known_proposed_round p' = vp_last_known_proposed_round p /\ vp_block_signer p' = vp_block_signer p
    /\ vp_propagation_delay p' = vp_propagation_delay p.
Proof using Hs Hp Hlive Hcl Hv3 HR Hsign Hgen Hown Hclock.
  intros Hpo Hanc Hexc Hslots Hl Hvotes. unfold make_block. rewrite (po_context _ _ _ Hpo).
  destruct (make_setup p anc inc0 slots l Hpo Hanc Hslots Hl) as (inc & now & clock & aus & -> & Hinc & Esl & Eaus & -> & Hck).
  cbn [mbind outcome_bind]. rewrite Hv3. change (committee (ds_context s)) with c. rewrite Esl. cbn [mbind outcome_bind].
  rewrite Eaus. cbn [mbind outcome_bind fst snd].
  destruct (consumer_next (vp_transaction_consumer p)) as [[[cn txs] acks] limit] eqn:Ecn.
  destruct (take_commit_votes s MAX_COMMIT_VOTES_PER_BLOCK) as [s0 cv] eqn:Etv.
  destruct (voting_step_Ok votes log anc inc0 s0 cv Hanc Etv Hvotes)
    as (Hcv & s1 & tv & -> & Hi1 & Hp1 & Hcl1 & Hg1 & Hview1 & Htv). cbn [mbind outcome_bind].
  set (block := proposal_block _ _ _ _ _ _ _).
  destruct (proposal_fields block now anc txs tv cv eq_refl) as (Fe & Fr & Fa & Fanc & Ftx & Ftv & Fcv).
  destruct (sign_Ok block (vp_block_signer p) Hsign) as (sb & Esb & Hsb). rewrite Esb. cbn [mbind outcome_bind].
  set (b := verified_block_new_verified default_hash sb (bcs_to_bytes sb)).
  assert (round b = R /\ author b = own) as [Hbr Hba] by (split; [rewrite <- Fr|rewrite <- Fa]; rewrite <- Hsb; done).
  destruct (proposal_wf anc inc0 b Hanc Hbr Hba) as [Hwf Hrt]; [rewrite <- Fanc, <- Hsb; done|apply (so_hash Hsign)|].
  destruct (finish_block_Ok s1 votes log b Hi1 Hp1 Hcl1 Hg1 Hview1 Hrt Hbr Hba)
    as (last & s2 & votes' & s3 & s' & -> & E2 & E3 & E4 & Hov & Hi' & Hp' & Hcl' & Hg' & Hbuf & Hview' & Hinc').
  { intros Hvo. destruct (Hvotes Hvo) as (? & ? & _). done. }
  cbn [mbind outcome_bind]. rewrite E2. cbn [mbind outcome_bind]. rewrite E3. cbn [mbind outcome_bind]. rewrite E4.
  cbn [mbind outcome_bind].
  set (exc' := take _ (btree_iter exc)).
  destruct (tracker_step_Ok (ds_context s) (vp_round_tracker p) b exc' (po_tracker _ _ _ Hpo) Hwf) as (rt & -> & Hrt').
  { intros x Hx%elem_of_take. destruct Hx as (i & Hx & _). apply Hexc, elem_of_btree_iter. by eapply list_elem_of_lookup_2. }
  cbn [mbind outcome_bind]. eexists _, s', votes', (mkExtendedBlock b exc'). split; [done|]. cbn [eb_block].
  assert (forall A (f : Block -> A), f (inner (vb_block b)) = f block) as Hin by (intros A f; cbn; by rewrite Hsb).
  split_and!; [|done| |done|done|done].
  - constructor; try done.
    + exact (eq_trans (Hin _ epoch) Fe).
    + exact (eq_trans (Hin _ ancestors) Fanc).
    + rewrite Ecn. exact (eq_trans (Hin _ transactions) Ftx).
    + pose proof (eq_trans (Hin _ transaction_votes) Ftv) as Etvs. change (transaction_votes b = if voting then tv else []) in Etvs.
      rewrite Etvs. destruct voting; [by apply Htv|done].
    + rewrite <- Hcv. exact (eq_trans (Hin _ commit_votes) Fcv).
    + cbn. by rewrite Hsb.
    + by apply own_slot_unknown.
  - destruct Hpo. constructor; cbn; try done. by apply (next_ack_inv (ds_context s) (vp_transaction_consumer p) cn txs acks limit).
Qed.
End make.

(* ------------------------------------------------------------------ *)
(** ** Proposing *)

Section propose.
Context (s : DagState S) (Hs : dag_inv s) (Hp : persist_inv s) (Hlive : live_inv s) (Hcl : included_closed s).
Notation c := (ds_committee s).
Notation R := (tc_round (ds_threshold_clock s)).
Notation own := (own_index (ds_context s)).
Notation voting := (transaction_voting_enabled (protocol_config (ds_context s))).
Context (HR : R + 3 < u32_MAX) (Hsign : signing_ok) (Hconf : config_ok (ds_context s)) (Hord : genesis_ordered s).
Context (Hgen : forall r b, ds_genesis s !! r = Some b -> br_digest r <= DIGEST_MAX).
Context (own_last : VerifiedBlock) (Hown : own_tip s own_last).

(** Looking for the leader's block does not meet the eviction panic. *)
Lemma leader_cached_Ok a :
  is_valid_index c a = true -> exists found, contains_cached_block_at_slot s (mkSlot (R - 1) a) = Ok found.
Proof using Hs Hlive.
  clear HR. intros Ha. unfold contains_cached_block_at_slot. cbn [s_round s_authority].
  destruct (N.eqb_spec (R - 1) GENESIS_ROUND) as [|Hne]; [by eexists|]. unfold GENESIS_ROUND in Hne.
  assert (N.to_nat a < length (ds_evicted_rounds s))%nat as Hlt.
  { rewrite (di_evicted_len s Hs). apply N.ltb_lt in Ha. lia. }
  apply lookup_lt_is_Some in Hlt as [e He]. unfold vec_index. rewrite He. cbn [unwrap mbind outcome_bind].
  pose proof (lv_evicted s Hlive _ _ He). pose proof (lv_gc_below s Hlive ltac:(lia)).
  rewrite (proj2 (N.leb_gt _ _)) by lia. destruct (authority_refs s a Hs Ha) as (refs & Hrefs & _).
  rewrite Hrefs. cbn [unwrap mbind outcome_bind]. by eexists.
Qed.

Lemma ready_Ok p last a :
  proposer_ok (ds_context s) p last -> is_valid_index c a = true ->
  exists p' ready, ready_to_propose p s [mkSlot (R - 1) a] = Ok (p', ready)
    /\ (p' = p \/ exists clock, p' = set_clock p clock /\ clock_ok clock).
Proof using Hs Hlive Hown.
  clear HR. intros Hpo Ha. unfold ready_to_propose. cbn [allM].
  destruct (leader_cached_Ok a Ha) as [found ->]. cbn [mbind outcome_bind].
  destruct found; cbn [negb]; [|exists p, false; split; [done|by left]].
  destruct (timestamp_utc_ms_Ok _ (po_clock _ _ _ Hpo)) as (clock & -> & Hck & _). cbn [mbind outcome_bind].
  unfold last_proposed_timestamp_ms. rewrite (ot_last _ _ Hown). cbn [fmap outcome_fmap mbind outcome_bind].
  eexists _, _. split; [done|]. right. by exists clock.
Qed.

(** What a call of [try_new_block] did. *)
Definition proposed (p p' : ValidatorProposer) (votes votes' : VoteTrackerState) (log : list (VerifiedBlock * list N))
    (s' : DagState S) (force : bool) (o : option ExtendedBlock) : Prop :=
  match o with
  | None =>
      s' = s /\ votes' = votes /\ proposer_ok (ds_context s) p' (round own_last)
      /\ (force = true -> validator_should_propose p s = true -> R <= round own_last)
  | Some eb =>
      round own_last < R /\ validator_should_propose p s = true
      /\ (exists anc, ancestors_ok s own_last (vp_last_included_ancestors p) anc
            /\ made s p anc votes log (eb_block eb) s')
      /\ own_voted s votes votes' log (eb_block eb) /\ proposer_ok (ds_context s) p' R
  end
  /\ vp_last_known_proposed_round p' = vp_last_known_proposed_round p /\ vp_block_signer p' = vp_block_signer p
  /\ vp_propagation_delay p' = vp_propagation_delay p.

(** The proposer after the choice of ancestors. *)
Lemma proposer_chosen p m inc last r :
  proposer_ok (ds_context s) p last -> manager_ok (ds_context s) m -> included_below c inc r ->
  proposer_ok (ds_context s) (set_last_included (set_manager p m) inc) r.
Proof using. clear. intros [] Hm Hinc. by constructor. Qed.

(** Reading the clock changes nothing else. *)
Record same_but_clock (p p1 : ValidatorProposer) : Prop := {
  sm_included : vp_last_included_ancestors p1 = vp_last_included_ancestors p;
  sm_consumer : vp_transaction_consumer p1 = vp_transaction_consumer p;
  sm_known : vp_last_known_proposed_round p1 = vp_last_known_proposed_round p;
  sm_signer : vp_block_signer p1 = vp_block_signer p;
  sm_delay : vp_propagation_delay p1 = vp_propagation_delay p;
}.

Lemma made_same p p1 anc votes log b s' :
  vp_transaction_consumer p1 = vp_transaction_consumer p -> vp_block_signer p1 = vp_block_signer p ->
  made s p1 anc votes log b s' -> made s p anc votes log b s'.
Proof using. clear. intros Hc Hb []. rewrite Hc in *. rewrite Hb in *. by constructor. Qed.

Lemma ready_step_Ok p l (force : bool) :
  proposer_ok (ds_context s) p (round own_last) -> is_valid_index c l = true ->
  exists p1 ready, (if force then Ok (p, true) else ready_to_propose p s [mkSlot (R - 1) l]) = Ok (p1, ready)
    /\ proposer_ok (ds_context s) p1 (round own_last) /\ same_but_clock p p1 /\ (force = true -> ready = true).
Proof using Hs Hlive Hown.
  clear HR. intros Hpo Hl. destruct force; [by exists p, true|].
  destruct (ready_Ok p _ l Hpo Hl) as (p1 & ready & -> & Hp1). exists p1, ready. split; [done|].
  destruct Hp1 as [->|(clock & -> & Hck)]; [by split_and!|]. split_and!; try done. destruct Hpo. by constructor.
Qed.

Lemma try_new_block_Ok p votes log schedule force :
  proposer_ok (ds_context s) p (round own_last) ->
  ls_context schedule = ds_context s -> table_usable c (leader_swap_table schedule) ->
  (voting = true -> votes_known (ds_context s) (fun r => is_Some (view s r)) votes log) ->
  exists p' s' votes' o,
    validator_try_new_block bcs_to_bytes default_hash p s votes schedule force = Ok (p', s', votes', o)
    /\ proposed p p' votes votes' log s' force o.
Proof using Hs Hp Hlive Hcl HR Hsign Hconf Hord Hgen Hown RL.
  intros Hpo Hls Htab Hvotes. unfold validator_try_new_block.
  destruct (validator_should_propose p s) eqn:Eshould; cbn [negb].
  2:{ exists p, s, votes, None. split; [done|]. unfold proposed. rewrite Eshould. by split_and!. }
  rewrite (ot_last _ _ Hown). cbn [mbind outcome_bind].
  destruct (N.leb_spec R (round own_last)) as [Hle|Hclock].
  { exists p, s, votes, None. split; [done|]. by split_and!. }
  rewrite (po_waiter _ _ _ Hpo).
  destruct (waiter_Ok (ds_context s) schedule (saturating_sub R 1) Hconf Hls Htab) as (l & -> & Hl);
    [unfold saturating_sub; lia|]. cbn [mbind outcome_bind]. unfold saturating_sub.
  destruct (ready_step_Ok p l force Hpo Hl) as (p1 & ready & -> & Hpo1 & Hsame & Hready). cbn [mbind outcome_bind].
  destruct ready; cbn [negb].
  2:{ exists p1, s, votes, None. split; [done|]. split_and!; try done; [|apply Hsame..]. intros Hf. by specialize (Hready Hf). }
  destruct (smart_ancestors_Ok s Hs Hlive Hord ltac:(lia) p1 own_last (po_context _ _ _ Hpo1) Hown Hclock (negb force)
    (po_manager _ _ _ Hpo1) (po_tracker _ _ _ Hpo1) (po_included _ _ _ Hpo1)) as (m & inc & anc & exc & -> & Hm & Hexc & Hanc).
  cbn [mbind outcome_bind].
  destruct Hanc as [(-> & Hf & ->)|[Hinc Hanc]].
  { cbn [is_empty]. rewrite Hf. cbn [assert_that mbind outcome_bind]. eexists _, s, votes, None. split; [done|].
    split_and!; try done; [|by destruct force|apply Hsame..].
    apply (proposer_chosen p1 m _ (round own_last)); [done|done|apply (po_included _ _ _ Hpo1)]. }
  assert (is_empty anc = false) as -> by (destruct Hanc as [(rest & -> & _) _ _ _]; done).
  destruct (make_block_Ok s Hs Hp Hlive Hcl (cf_v3 _ Hconf) ltac:(lia) Hsign Hgen own_last Hown Hclock
    (set_last_included (set_manager p1 m) inc) votes log [mkSlot (R - 1) l] anc exc (vp_last_included_ancestors p1) l)
    as (p' & s' & votes' & eb & E & Hmade & Hov & Hpo' & Hk' & Hb' & Hd'); try done; [by eapply proposer_chosen|].
  exists p', s', votes', (Some eb). split; [exact E|]. split_and!; try done.
  - exists anc. rewrite <- (sm_included _ _ Hsame). split; [done|]. revert Hmade. apply made_same; apply Hsame.
  - rewrite Hk'. apply Hsame.
  - rewrite Hb'. apply Hsame.
  - rewrite Hd'. apply Hsame.
Qed.
End propose.
End block.
