(* ===== verification/CommitSequence.v ===== *)
(** * The sequence of commits

    What the network commits, as one sequence: slot after slot, the leader that
    the schedule in force elects is skipped or committed, as the commit rule
    decides it on some view of the DAG, and a committed leader brings the
    sub-DAG that the linearizer makes of it.  There is only one such sequence,
    whatever views the decisions were made on: any two of its runs are prefixes
    of one another. *)

From S2P Require Import Prelude Committee Context Block StakeAggregator ThresholdClock Commit Store LeaderScoring DagState DagInv Evolve DagOps DagLink DagAccept Linearizer CommitObserver LinearizerSpec LinearizerOps LeaderSchedule ScheduleRun BaseCommitter UniversalCommitter CommitRule Agreement TryDecide.

(** The blocks of the universe: well-formed, of rounds that leave room for the
    arithmetic of the committer, with genesis blocks at round 0. *)
Record sound_universe (c : Committee) (gen : gmap BlockRef VerifiedBlock) (univ : VerifiedBlock -> Prop) : Prop := {
  su_wf : forall b, univ b -> wf_block c b;
  su_round : forall b, univ b -> round b + 3 < u32_MAX;
  su_genesis : forall b a, univ b -> a ∈ ancestors b -> br_round a = 0 -> is_Some (gen !! a);
  su_gen_ref : forall r b, gen !! r = Some b -> reference b = r;
}.

Section sequence.
Context {RN : Rng} {RL : RngLaws} {S : Type} {ST : Store S} {SL : StoreLaws S}.
Context (bcs_commit : Commit -> list byte) (default_hash : list byte -> N).
Context (ctx : Context) (Hctx : config_ok ctx).
Context (byz : gset N) (univ : VerifiedBlock -> Prop) (gen : gmap BlockRef VerifiedBlock).
Notation c := (committee ctx).
Context (Hu : honest_universe c byz univ) (Hsu : sound_universe c gen univ).
Implicit Types s : DagState S.

(* ------------------------------------------------------------------ *)
(** ** A state of the DAG that has made some commits *)

Record dag_ok s : Prop := {
  do_inv : dag_inv s;
  do_persist : persist_inv s;
  do_config : same_config ctx (ds_context s);
  do_genesis : ds_genesis s = gen;
  do_univ : forall r b, dag_block s r = Some b -> gen !! r = Some b \/ univ b;
  do_high : ds_highest_accepted_round s + 3 < u32_MAX;
}.

(** The commits [log] were made, with [last] the last one. *)
Record logged s (log : list CommittedSubDag) (last : option TrustedCommit) : Prop := {
  lg_inv : commit_inv (ds_context s) s;
  lg_last : ds_last_commit s = last;
  lg_index : last_commit_index s = N.of_nat (length log);
  lg_marks : forall r, gc_round s < br_round r -> committed s r = true <-> r ∈ log_refs log;
  lg_rounds : forall r, r ∈ log_refs log -> br_round r <= last_commit_round s;
  lg_wf : log_wf c log;
  lg_leaders : forall sd, sd ∈ log -> br_round (sd_leader sd) <= last_commit_round s;
}.

Lemma dag_ok_committee s : dag_ok s -> ds_committee s = c.
Proof. intros Hs. apply (do_config _ Hs). Qed.

Lemma dag_ok_view s : dag_ok s -> good_view c univ s.
Proof.
  intros Hs. constructor.
  - apply (do_inv _ Hs).
  - intros r b Hb. by apply (pi_store _ (do_persist _ Hs)).
  - by apply dag_ok_committee.
  - intros r b Hb. destruct (do_univ _ Hs r b) as [Hg|?]; [by apply dag_block_view, Hb; apply (do_inv _ Hs)| |done].
    rewrite <- (do_genesis _ Hs) in Hg. apply (di_genesis_ref _ (do_inv _ Hs)) in Hg as [_ Hr].
    pose proof (view_round s r b (do_inv _ Hs) Hb). lia.
Qed.

Lemma dag_ok_block s1 s2 r b1 b2 :
  dag_ok s1 -> dag_ok s2 -> dag_block s1 r = Some b1 -> dag_block s2 r = Some b2 -> b1 = b2.
Proof.
  intros H1 H2 B1 B2.
  assert (forall s b, dag_ok s -> dag_block s r = Some b -> reference b = r) as Href.
  { intros s b Hs Hb. apply (dag_block_reference s r b (do_inv _ Hs)); [|done]. apply (dag_ok_view s Hs). }
  destruct (N.eq_dec (br_round r) 0) as [Er|Er].
  - revert B1 B2. unfold dag_block, cached_block, GENESIS_ROUND. rewrite Er, !do_genesis by done. simpl. congruence.
  - pose proof (Href s1 b1 H1 B1) as R1. pose proof (Href s2 b2 H2 B2) as R2.
    assert (forall s b, dag_ok s -> dag_block s r = Some b -> univ b) as Huniv.
    { intros s b Hs Hb. destruct (do_univ _ Hs r b Hb) as [Hg|?]; [|done].
      rewrite <- (do_genesis _ Hs) in Hg. by apply (di_genesis_ref _ (do_inv _ Hs)) in Hg as [_ ?]. }
    apply (hu_ref _ _ _ Hu); [by apply (Huniv s1)|by apply (Huniv s2)|congruence].
Qed.

(** Two nodes that made the same commits are in step. *)
Lemma logged_in_step s1 s2 log last :
  dag_ok s1 -> dag_ok s2 -> logged s1 log last -> logged s2 log last -> in_step s1 s2.
Proof.
  intros H1 H2 L1 L2.
  assert (ds_last_commit s1 = ds_last_commit s2) as El by (rewrite (lg_last _ _ _ L1); by rewrite (lg_last _ _ _ L2)).
  assert (gc_depth (protocol_config (ds_context s1)) = gc_depth (protocol_config (ds_context s2))) as Ed.
  { destruct (do_config _ H1) as [_ ->], (do_config _ H2) as [_ ->]. done. }
  assert (gc_round s1 = gc_round s2) as Eg.
  { unfold gc_round, calculate_gc_round, last_commit_round. by rewrite El, Ed. }
  constructor; [|done|done]. constructor; [done| |].
  - intros r b1 b2. by apply dag_ok_block.
  - intros r b1 b2 Hr _ _. apply Bool.eq_iff_eq_true. rewrite (lg_marks _ _ _ L1) by done.
    rewrite (lg_marks _ _ _ L2); [done|]. by rewrite <- Eg.
Qed.

(* ------------------------------------------------------------------ *)
(** ** One commit *)

(** After [log] the leader [b] is committed as [sd]. *)
Definition commits_to (log : list CommittedSubDag) (last : option TrustedCommit) (b : VerifiedBlock)
    (sd : CommittedSubDag) (last' : option TrustedCommit) : Prop :=
  exists s s' sd0, dag_ok s /\ logged s log last /\ ready s b /\ last_commit_index s < u32_MAX
    /\ commit_one bcs_commit default_hash (ds_context s) (s, []) b = Ok (s', [sd0])
    /\ sd = set_decided_locally true sd0 /\ ds_last_commit s' = last'.

Lemma commits_to_unique log last b sd1 last1 sd2 last2 :
  commits_to log last b sd1 last1 -> commits_to log last b sd2 last2 -> sd1 = sd2 /\ last1 = last2.
Proof.
  intros (s1 & t1 & x1 & D1 & L1 & R1 & I1 & E1 & -> & <-) (s2 & t2 & x2 & D2 & L2 & R2 & I2 & E2 & -> & <-).
  destruct (commit_one_alike bcs_commit default_hash (ds_context s1) (ds_context s2) s1 s2 b [])
    as (u1 & u2 & sd & F1 & F2 & St).
  - destruct (do_config _ D1) as [-> _], (do_config _ D2) as [-> _]. done.
  - apply (lg_inv _ _ _ L1).
  - apply (lg_inv _ _ _ L2).
  - done.
  - done.
  - done.
  - by apply (logged_in_step s1 s2 log last).
  - rewrite E1 in F1. rewrite E2 in F2. injection F1 as -> ->. injection F2 as -> ->.
    split; [done|]. apply (is_last _ _ St).
Qed.

Lemma log_refs_one sd : log_refs [sd] = reference <$> sd_blocks sd.
Proof. unfold log_refs. cbn. by rewrite app_nil_r. Qed.

Lemma commits_gc s s' b sd : ready s b -> commits (ds_context s) s s' b sd -> gc_round s <= gc_round s'.
Proof.
  intros R C. pose proof (rd_round _ _ R). unfold gc_round, calculate_gc_round, saturating_sub.
  rewrite (cm_context _ _ _ _ _ C), (cm_last_round _ _ _ _ _ C). lia.
Qed.

(** The sequence stays well-formed. *)
Lemma log_wf_commit s s' log last b sd :
  dag_ok s -> logged s log last -> ready s b -> commits (ds_context s) s s' b sd ->
  log_wf c (log ++ [set_decided_locally true sd]).
Proof.
  intros D L R C. pose proof (lg_wf _ _ _ L) as [Wi Wo Wl Wb]. constructor.
  - intros i x [?|[Hi Hx]]%lookup_app_Some; [by apply Wi|].
    destruct (i - length log)%nat as [|k] eqn:Ei; [|done]. injection Hx as <-. simpl.
    rewrite (cm_index _ _ _ _ _ C), (lg_index _ _ _ L). f_equal. f_equal. lia.
  - rewrite log_refs_app, log_refs_one. simpl. apply NoDup_app. split_and!; [done| |apply (cm_NoDup _ _ _ _ _ C)].
    intros r Hr (x & -> & Hx)%list_elem_of_fmap. apply (cm_elem _ _ _ _ _ C) in Hx as (_ & Hg & Hn & _).
    by rewrite (proj2 (lg_marks _ _ _ L (reference x) Hg)) in Hn.
  - apply StronglySorted_app_2; [|done|repeat constructor].
    intros x y Hx ->%list_elem_of_singleton. simpl. rewrite (cm_leader _ _ _ _ _ C).
    pose proof (lg_leaders _ _ _ L x Hx). pose proof (rd_round _ _ R). simpl. lia.
  - intros x y [?|Hx%list_elem_of_singleton]%elem_of_app Hy; [by eapply Wb|]. subst x. simpl in Hy.
    apply (cm_elem _ _ _ _ _ C) in Hy as (Hv & _). rewrite <- (dag_ok_committee s D).
    by apply (di_wf s (do_inv _ D) _ _ Hv).
Qed.

Lemma commit_one_acc context s acc b s' sd :
  commit_one bcs_commit default_hash context (s, acc) b = Ok (s', acc ++ [sd]) ->
  commit_one bcs_commit default_hash context (s, []) b = Ok (s', [sd]).
Proof.
  unfold commit_one. destruct (collect_sub_dag_and_commit _ _ _ _ _) as [[s1 [sd1 commit]]| |]; try done. simpl.
  destruct (update_blocks_pruned_metric _ _ _); try done. simpl. destruct (add_commit _ _); try done. simpl.
  intros [= -> E]. apply app_inj_tail in E as [_ ->]. done.
Qed.

(** Handling a ready leader is the next commit. *)
Lemma logged_commit s log last b acc :
  dag_ok s -> logged s log last -> ready s b -> N.of_nat (length log) < u32_MAX ->
  exists s' sd, commit_one bcs_commit default_hash (ds_context s) (s, acc) b = Ok (s', acc ++ [sd])
    /\ commits (ds_context s) s s' b sd /\ dag_ok s'
    /\ logged s' (log ++ [set_decided_locally true sd]) (ds_last_commit s')
    /\ commits_to log last b (set_decided_locally true sd) (ds_last_commit s').
Proof.
  intros D L R Hmax. rewrite <- (lg_index _ _ _ L) in Hmax.
  destruct (commit_one_Ok bcs_commit default_hash (ds_context s) s b acc (lg_inv _ _ _ L) R Hmax) as (s' & sd & E & C).
  pose proof (commits_gc s s' b sd R C) as Hgc. pose proof (cm_rest _ _ _ _ _ C) as Hrest. injection Hrest as Eg Es Eb Ec Eh _ _ _.
  exists s', sd. split_and!; [done|done| | |].
  - constructor.
    + apply (hc_inv _ _ (cm_inv _ _ _ _ _ C)).
    + apply (persist_inv_ext s); try done; [apply (do_persist _ D)|apply (cm_view _ _ _ _ _ C)].
    + rewrite (cm_context _ _ _ _ _ C). apply (do_config _ D).
    + rewrite Eg. apply (do_genesis _ D).
    + intros r x. rewrite (cm_block _ _ _ _ _ C). apply (do_univ _ D).
    + rewrite Eh. apply (do_high _ D).
  - pose proof (rd_round _ _ R) as Hr. constructor; try done.
    + rewrite (cm_context _ _ _ _ _ C). apply (cm_inv _ _ _ _ _ C).
    + rewrite (cm_last_index _ _ _ _ _ C), (lg_index _ _ _ L), length_app. simpl. lia.
    + intros r Hlt. rewrite (cm_committed _ _ _ _ _ C), (lg_marks _ _ _ L) by lia.
      by rewrite log_refs_app, log_refs_one, elem_of_app.
    + intros r. rewrite log_refs_app, log_refs_one, elem_of_app, (cm_last_round _ _ _ _ _ C).
      intros [Hin%(lg_rounds _ _ _ L)|(x & -> & Hx)%list_elem_of_fmap]; [lia|].
      apply (cm_elem _ _ _ _ _ C) in Hx as (_ & _ & _ & [->|Hx]); [simpl; lia|].
      apply reach_round in Hx; [lia|apply (do_inv _ D)|].
      apply (rooted_view s (reference b)); [apply (do_inv _ D)|apply (rd_view _ _ R)].
    + by apply (log_wf_commit s s' log last b sd).
    + intros x [Hx%(lg_leaders _ _ _ L)|Hx%list_elem_of_singleton]%elem_of_app; rewrite (cm_last_round _ _ _ _ _ C); [lia|].
      subst x. simpl. rewrite (cm_leader _ _ _ _ _ C). simpl. lia.
  - exists s, s', sd. split_and!; try done. by eapply commit_one_acc.
Qed.

(* ------------------------------------------------------------------ *)
(** ** Between commits *)

Lemma dag_ok_grown s P s' :
  dag_ok s -> grown s P s' -> (forall x, P x -> univ x) -> dag_inv s' -> persist_inv s' -> dag_ok s'.
Proof.
  intros D [E B Hh _] HP Hi Hp. constructor; try done.
  - rewrite (el_context _ _ E). apply (do_config _ D).
  - rewrite (el_genesis _ _ E). apply (do_genesis _ D).
  - intros r b [Hb|Hb]%B; [by apply (do_univ _ D)|right; by apply HP].
  - pose proof (do_high _ D) as Hd. assert (ds_highest_accepted_round s' <= u32_MAX - 4) as Hle.
    { apply Hh; [lia|]. intros x Hx%HP%(su_round _ _ _ Hsu). lia. }
    unfold u32_MAX in *. lia.
Qed.

Lemma logged_evolves s s' log last :
  dag_ok s -> evolves s s' -> dag_inv s' -> logged s log last -> logged s' log last.
Proof.
  intros D E Hi L. pose proof (evolves_gc _ _ E) as Hgc. destruct E as [C G Ll R Sc M V _ _ _ _].
  destruct (lg_inv _ _ _ L) as [_ Hcl Hcom Hlen].
  constructor; try (unfold last_commit_index, last_commit_round; rewrite Ll); try apply L.
  - constructor; unfold ds_committee; rewrite ?C, ?R; try done. intros r b a Hr Hb Ha Hlt.
    rewrite Hgc in Hlt. destruct (di_wf s' Hi _ _ Hb) as [<- Hwf]. destruct (wb_anc _ _ Hwf a Ha) as [Hlt2 _].
    rewrite M in Hr by (simpl; lia). rewrite M by done.
    assert (is_Some (view s (reference b))) as [b' Hb'].
    { unfold view. unfold committed in Hr. by destruct (ds_recent_blocks s !! reference b). }
    assert (b' = b) as ->. { rewrite (V _ b') in Hb; [congruence|simpl; lia|done]. }
    by apply (Hcl (reference b) b).
  - intros r Hlt. rewrite Hgc in Hlt. rewrite M by done. by apply (lg_marks _ _ _ L).
Qed.

(* ------------------------------------------------------------------ *)
(** ** The sequence *)

(** Some view of the DAG decides the slot of round [r]. *)
Definition decides (leader : N -> N) (r : N) (st : LeaderStatus) : Prop :=
  exists s L, good_view c univ s /\ gc_round s < r
    /\ decided_from c s (slot_at leader) r (st :: L) /\ is_decided st = true.

Lemma decides_unique leader r st1 st2 : decides leader r st1 -> decides leader r st2 -> st1 = st2.
Proof.
  intros (s1 & L1 & V1 & G1 & D1 & E1) (s2 & L2 & V2 & G2 & D2 & E2).
  by apply (decided_agree c byz univ Hu (slot_at leader) (fun _ => eq_refl) s1 s2 r
    (st1 :: L1) (st2 :: L2) V1 V2 G1 G2 D1 D2 0%nat).
Qed.

Inductive sequence : list LeaderStatus -> list CommittedSubDag -> option TrustedCommit -> Prop :=
  | sequence_nil : sequence [] [] None
  | sequence_skip ds log last sc table sl :
      sequence ds log last -> in_force ctx log = Ok (sc, table) ->
      decides (leader_of ctx table) (N.of_nat (length ds) + 1) (StatusSkip sl) ->
      sequence (ds ++ [StatusSkip sl]) log last
  | sequence_commit ds log last sc table b sd last' :
      sequence ds log last -> in_force ctx log = Ok (sc, table) ->
      decides (leader_of ctx table) (N.of_nat (length ds) + 1) (StatusCommit b) ->
      commits_to log last b sd last' ->
      sequence (ds ++ [StatusCommit b]) (log ++ [sd]) last'.

Lemma sequence_unique ds1 log1 last1 ds2 log2 last2 :
  sequence ds1 log1 last1 -> sequence ds2 log2 last2 -> length ds1 = length ds2 ->
  ds1 = ds2 /\ log1 = log2 /\ last1 = last2.
Proof.
  intros S1. revert ds2 log2 last2.
  induction S1 as [|ds1 log1 last1 sc1 t1 sl1 S1 IH F1 D1|ds1 log1 last1 sc1 t1 b1 sd1 last1' S1 IH F1 D1 C1];
    intros ds2 log2 last2 S2 Hlen.
  { destruct S2; [done|rewrite length_app in Hlen; simpl in Hlen; lia..]. }
  all: rewrite length_app in Hlen; simpl in Hlen;
    destruct S2 as [|ds2 log2 last2 sc2 t2 sl2 S2 F2 D2|ds2 log2 last2 sc2 t2 b2 sd2 last2' S2 F2 D2 C2];
    [simpl in Hlen; lia|rewrite length_app in Hlen; simpl in Hlen..];
    destruct (IH _ _ _ S2 ltac:(lia)) as (<- & <- & <-); rewrite F1 in F2; injection F2 as <- <-;
    pose proof (decides_unique _ _ _ _ D1 D2) as E; try discriminate E.
  - by injection E as <-.
  - injection E as <-. by destruct (commits_to_unique _ _ _ _ _ _ _ C1 C2) as [<- <-].
Qed.

Lemma sequence_take ds log last n :
  sequence ds log last -> (n <= length ds)%nat ->
  exists log' last', sequence (take n ds) log' last' /\ log' `prefix_of` log.
Proof.
  intros Hs Hn. induction Hs as [|ds log last sc t sl Hs IH F D|ds log last sc t b sd last' Hs IH F D C].
  - exists [], None. rewrite take_nil. split; [constructor|done].
  - rewrite length_app in Hn. simpl in Hn. destruct (decide (n = length ds + 1)%nat) as [->|Hne].
    + exists log, last. rewrite take_ge by (rewrite length_app; simpl; lia). split; [by econstructor|done].
    + rewrite take_app_le by lia. apply IH. lia.
  - rewrite length_app in Hn. simpl in Hn. destruct (decide (n = length ds + 1)%nat) as [->|Hne].
    + exists (log ++ [sd]), last'. rewrite take_ge by (rewrite length_app; simpl; lia).
      split; [by econstructor|done].
    + rewrite take_app_le by lia. destruct IH as (log' & l' & ? & ?); [lia|]. exists log', l'.
      split; [done|]. by apply prefix_app_r.
Qed.

(** Of two runs of the sequence the shorter is a prefix of the longer. *)
Lemma sequence_prefix ds1 log1 last1 ds2 log2 last2 :
  sequence ds1 log1 last1 -> sequence ds2 log2 last2 -> (length ds1 <= length ds2)%nat ->
  ds1 `prefix_of` ds2 /\ log1 `prefix_of` log2.
Proof.
  intros S1 S2 Hle. destruct (sequence_take _ _ _ _ S2 Hle) as (log' & last' & S2' & Hp).
  destruct (sequence_unique _ _ _ _ _ _ S1 S2') as (-> & -> & _).
  { rewrite length_take. lia. }
  split; [apply prefix_take|done].
Qed.
End sequence.
