(* ===== verification/CommitBatch.v ===== *)
(** * A batch of decisions extends the sequence

    One call of the linearizer commits the leaders of a batch of decisions.
    When the decisions are the next of the sequence of commits, so are the
    sub-DAGs that the call returns. *)

From S2P Require Import Prelude Committee Context Block StakeAggregator ThresholdClock Commit Store LeaderScoring DagState DagInv Evolve DagOps DagLink DagAccept Linearizer CommitObserver LinearizerSpec LinearizerOps LeaderSchedule ScheduleRun BaseCommitter UniversalCommitter CommitRule Agreement TryDecide CommitSequence.

Section batch.
Context {RN : Rng} {RL : RngLaws} {S : Type} {ST : Store S} {SL : StoreLaws S}.
Context (bcs_commit : Commit -> list byte) (default_hash : list byte -> N).
Context (ctx : Context) (Hctx : config_ok ctx).
Context (byz : gset N) (univ : VerifiedBlock -> Prop) (gen : gmap BlockRef VerifiedBlock).
Notation c := (committee ctx).
Context (Hu : honest_universe c byz univ) (Hsu : sound_universe c gen univ).
Implicit Types s : DagState S.
Notation dag_ok := (dag_ok ctx univ gen).
Notation logged := (logged ctx).
Notation sequence := (sequence bcs_commit default_hash ctx univ gen (S := S)).

(** The committed block of a status. *)
Definition committed_of (st : LeaderStatus) : option VerifiedBlock :=
  match st with StatusCommit b => Some b | _ => None end.

(** The parents of the next leader can be read. *)
Lemma leader_parents s b :
  dag_ok s -> view s (reference b) = Some b -> last_commit_round s < round b -> parents_known s b.
Proof.
  intros D Hv Hlt a Ha. apply list_elem_of_filter in Ha as [Hround Ha].
  destruct (N.lt_ge_cases (gc_round s) (br_round a)) as [Hgc|Hgc].
  - destruct (di_closed s (do_inv _ _ _ _ D) _ _ _ Hv Ha Hgc) as [x Hx]. exists x.
    split; [by apply dag_block_view; [apply (do_inv _ _ _ _ D)|]|].
    by apply (di_wf s (do_inv _ _ _ _ D)).
  - assert (br_round a = 0) as Ea.
    { pose proof (cf_gc _ Hctx) as Hd. unfold gc_round, calculate_gc_round, saturating_sub in Hgc.
      rewrite (proj2 (do_config _ _ _ _ D)) in Hgc. lia. }
    assert (univ b) as Ub by (by eapply gv_univ; [apply (dag_ok_view _ _ _ s D)|]).
    destruct (su_genesis _ _ _ Hsu b a Ub Ha Ea) as [x Hx]. exists x.
    split; [|by apply (su_gen_ref _ _ _ Hsu)].
    unfold dag_block, cached_block, GENESIS_ROUND. rewrite Ea, (do_genesis _ _ _ _ D). done.
Qed.

Lemma next_leader_ready s log last b :
  dag_ok s -> logged s log last -> view s (reference b) = Some b -> last_commit_round s < round b -> ready s b.
Proof.
  intros D L Hv Hlt. constructor; [done| |done|by apply leader_parents].
  apply not_true_is_false. pose proof (last_round_gc s). rewrite (lg_marks _ _ _ _ L) by (simpl; lia).
  intros Hin%(lg_rounds _ _ _ _ L). simpl in Hin. lia.
Qed.

(** What a batch changes. *)
Record batch_done s s' : Prop := {
  bd_context : ds_context s' = ds_context s;
  bd_rest : rest_fields s' = rest_fields s;
  bd_view : forall r, view s' r = view s r;
  bd_included : forall r, included s' r = included s r;
  bd_block : forall r, dag_block s' r = dag_block s r;
  bd_gc : gc_round s <= gc_round s';
}.

Lemma commit_batch sts s ds log t acc :
  dag_ok s -> logged s log (ds_last_commit s) -> sequence ds log (ds_last_commit s) ->
  last_commit_round s <= N.of_nat (length ds) ->
  (length log <= length ds)%nat -> N.of_nat (length ds + length sts) + 1 < u32_MAX ->
  room ctx t (length sts) log ->
  (forall i st, sts !! i = Some st ->
     decides ctx univ (S := S) (leader_of ctx t) (N.of_nat (length ds + i) + 1) st
     /\ match st with
        | StatusCommit b => view s (reference b) = Some b /\ round b = N.of_nat (length ds + i) + 1
        | _ => True
        end) ->
  exists s' sds, foldM (commit_one bcs_commit default_hash (ds_context s)) (omap committed_of sts) (s, acc)
                 = Ok (s', acc ++ sds)
    /\ (let new := log ++ (set_decided_locally true <$> sds) in
        dag_ok s' /\ logged s' new (ds_last_commit s') /\ sequence (ds ++ sts) new (ds_last_commit s'))
    /\ last_commit_round s' <= N.of_nat (length ds + length sts) /\ batch_done s s'
    /\ length sds = length (omap committed_of sts).
Proof.
  revert s ds log acc. induction sts as [|st sts IH]; intros s ds log acc D L Q Hr Hlen Hmax Hroom Hst.
  { exists s, []. rewrite !app_nil_r, Nat.add_0_r. by split_and!. }
  destruct (Hst 0%nat st eq_refl) as [Hdec Hb]. rewrite Nat.add_0_r in Hdec, Hb. simpl in Hmax, Hroom.
  destruct (room_in_force ctx t _ log Hroom) as [sc Hin].
  assert (forall i x, sts !! i = Some x ->
    decides ctx univ (S := S) (leader_of ctx t) (N.of_nat (length (ds ++ [st]) + i) + 1) x
     /\ match x with
        | StatusCommit b => view s (reference b) = Some b /\ round b = N.of_nat (length (ds ++ [st]) + i) + 1
        | _ => True
        end) as Hst'.
  { intros i x Hx. rewrite length_app. simpl. specialize (Hst (Datatypes.S i) x Hx).
    by replace (length ds + 1 + i)%nat with (length ds + Datatypes.S i)%nat by lia. }
  destruct st as [b|sl|sl].
  - destruct Hb as [Hv Hround].
    assert (ready s b) as R by (apply (next_leader_ready s log (ds_last_commit s)); try done; lia).
    destruct (logged_commit bcs_commit default_hash ctx univ gen s log (ds_last_commit s) b acc D L R)
      as (s1 & sd & E1 & C & D1 & L1 & T1); [lia|].
    destruct (IH s1 (ds ++ [StatusCommit b]) (log ++ [set_decided_locally true sd]) (acc ++ [sd]))
      as (s' & sds & E & (D' & L' & Q') & Hr' & B & Hl').
    + done.
    + done.
    + by apply (sequence_commit _ _ _ _ _ ds log (ds_last_commit s) sc t).
    + rewrite (cm_last_round _ _ _ _ _ C), length_app. simpl. lia.
    + rewrite !length_app. simpl. lia.
    + rewrite length_app. simpl. lia.
    + apply (room_commit ctx Hctx); [done| |lia]. apply (lg_wf _ _ _ _ L1).
    + intros i x Hx. destruct (Hst' i x Hx) as [? Hx']. split; [done|].
      destruct x; try done. by rewrite (cm_view _ _ _ _ _ C).
    + exists s', (sd :: sds). cbn [omap list_omap committed_of foldM]. rewrite E1. cbn [mbind outcome_bind].
      rewrite (cm_context _ _ _ _ _ C) in E. rewrite E, <- app_assoc. split; [done|].
      rewrite <- (app_assoc log) in L', Q'; rewrite <- (app_assoc ds) in Q'. simpl in L', Q'. split; [cbv zeta; by split_and!|]. split_and!.
      * rewrite length_app in Hr'. simpl in *. lia.
      * destruct B as [B1 B2 B3 BI B4 B5]. constructor.
        -- by rewrite B1, (cm_context _ _ _ _ _ C).
        -- by rewrite B2, (cm_rest _ _ _ _ _ C).
        -- intros r. by rewrite B3, (cm_view _ _ _ _ _ C).
        -- intros r. by rewrite BI, (cm_included _ _ _ _ _ C).
        -- intros r. by rewrite B4, (cm_block _ _ _ _ _ C).
        -- etrans; [by apply (commits_gc s s1 b sd)|done].
      * simpl. by rewrite Hl'.
  - destruct (IH s (ds ++ [StatusSkip sl]) log acc) as (s' & sds & E & (D' & L' & Q') & Hr' & B & Hl'); try done.
    + by apply (sequence_skip _ _ _ _ _ ds log (ds_last_commit s) sc t).
    + rewrite length_app. simpl. lia.
    + rewrite length_app. simpl. lia.
    + rewrite length_app. simpl. lia.
    + by apply (room_skip ctx).
    + exists s', sds. rewrite <- app_assoc in Q'. split; [done|]. split; [cbv zeta; by split_and!|].
      split_and!; try done. rewrite length_app in Hr'. simpl in *. lia.
  - by destruct Hdec as (? & ? & _ & _ & _ & ?).
Qed.
End batch.
