(* ===== verification/CoreInv.v ===== *)
(** * The invariant of a node

    A node that follows the sequence of commits: its DAG state, block manager,
    leader schedule and the commits it has sent fit together.  Here are the
    invariant and the first half of a turn of the commit loop: the update of
    the leader schedule and the next decisions. *)

From S2P Require Import Prelude Committee Context Block StakeAggregator ThresholdClock Commit Error Store LeaderScoring DagState VoteTracker DagInv Evolve DagOps DagLink DagAccept Linearizer CommitObserver LinearizerSpec LinearizerOps BlockManager BlockManagerInv BlockManagerDag LeaderSchedule ScheduleRun BaseCommitter UniversalCommitter CommitRule Agreement TryDecide Core CommitSequence CommitBatch.

(** All fields but the scores and the buffers of commits. *)
Definition dag_fields {S} (s : DagState S) :=
  (commit_fields (with_commit s (ds_last_commit s) (ds_last_committed_rounds s) scoring_subdag_new []),
   (ds_recent_blocks s, ds_recent_refs_by_authority s, ds_evicted_rounds s, ds_threshold_clock s),
   (ds_store s, ds_blocks_to_write s, ds_cached_rounds s, ds_highest_accepted_round s)).

Section same.
Context {S : Type} {ST : Store S} {SL : StoreLaws S}.
Context (ctx : Context) (univ : VerifiedBlock -> Prop) (gen : gmap BlockRef VerifiedBlock).
Implicit Types s : DagState S.

Lemma fields_inv s s' : dag_fields s' = dag_fields s -> dag_inv s -> dag_inv s'.
Proof.
  intros [=] Hi. apply (dag_inv_ext s); try done.
  - intros r. unfold view. by f_equal; f_equal.
  - congruence.
  - apply N.eq_le_incl. symmetry. by apply gc_round_ext.
  - replace (ds_threshold_clock s') with (ds_threshold_clock s). apply (di_clock s Hi).
Qed.

Lemma fields_block s s' r : dag_fields s' = dag_fields s -> dag_block s' r = dag_block s r.
Proof.
  intros [= _ Hg _ _ Hr _ _ _ Hst _ _ _]. unfold dag_block, cached_block. by rewrite Hg, Hr, Hst.
Qed.

Lemma fields_evolves s s' :
  dag_fields s' = dag_fields s -> forall r, view s' r = view s r /\ committed s' r = committed s r.
Proof. intros [= _ _ _ _ Hr _ _ _ _ _ _ _] r. unfold view, committed. by rewrite Hr. Qed.

Lemma fields_same s s' : dag_fields s' = dag_fields s ->
  ds_context s' = ds_context s /\ ds_recent_blocks s' = ds_recent_blocks s /\ clock_fields s' = clock_fields s
  /\ gc_round s' = gc_round s.
Proof.
  intros [= Hc _ Hl _ Hr _ He Ht _ _ _ Hh]. split_and!; [done|done| |by apply gc_round_ext].
  unfold clock_fields. by rewrite Ht, He, Hh.
Qed.

Lemma fields_live s s' : dag_fields s' = dag_fields s -> live_inv s -> live_inv s'.
Proof.
  intros (Hc & Hr & [= Ht He Hh] & Hg)%fields_same L.
  apply (live_ext s s'); unfold view; rewrite ?Hr, ?Hg, ?He; try done; apply L.
Qed.

Lemma fields_closed s s' : dag_fields s' = dag_fields s -> included_closed s -> included_closed s'.
Proof.
  intros (_ & Hr & _ & Hg)%fields_same. unfold included_closed, included, view. by rewrite Hr, Hg.
Qed.

Lemma fields_keeps s s' : dag_fields s' = dag_fields s -> keeps s s'.
Proof.
  intros (Hc & Hr & _ & Hg)%fields_same. constructor; unfold view, included; rewrite ?Hr, ?Hg; try done. by left.
Qed.

Lemma fields_gc s s' : dag_fields s' = dag_fields s -> gc_round s' = gc_round s.
Proof. intros [= Hc _ Hl _ _ _ _ _ _ _ _ _]. by apply gc_round_ext. Qed.

Lemma fields_dag_ok s s' : dag_fields s' = dag_fields s -> dag_ok ctx univ gen s -> dag_ok ctx univ gen s'.
Proof.
  intros E D. pose proof E as [= Hc Hg Hl _ _ _ _ _ Hst Hb Hn Hh]. constructor.
  - by apply (fields_inv s s' E), (do_inv _ _ _ _ D).
  - apply (persist_inv_ext s); try done; [apply (do_persist _ _ _ _ D)| |].
    + intros r. by apply (fields_evolves s s' E).
    + by rewrite (fields_gc s s' E).
  - rewrite Hc. apply (do_config _ _ _ _ D).
  - rewrite Hg. apply (do_genesis _ _ _ _ D).
  - intros r b. rewrite (fields_block s s' r E). apply (do_univ _ _ _ _ D).
  - rewrite Hh. apply (do_high _ _ _ _ D).
Qed.

Lemma fields_logged s s' log last :
  dag_fields s' = dag_fields s -> logged ctx s log last -> logged ctx s' log last.
Proof.
  intros E L. pose proof E as [= Hc Hg Hl Hr _ _ _ _ _ _ _ _]. pose proof (fields_evolves s s' E) as Hm.
  destruct (lg_inv _ _ _ _ L) as [Hi Hcl Hcom Hlen].
  constructor; try (unfold last_commit_index, last_commit_round; rewrite Hl); try apply L.
  - constructor; unfold ds_committee; rewrite ?Hc, ?Hr; try done; [by apply (fields_inv s s' E)|].
    intros r b a. rewrite (fields_gc s s' E), !(proj2 (Hm _)), (proj1 (Hm _)). apply Hcl.
  - intros r. rewrite (fields_gc s s' E), (proj2 (Hm _)). apply (lg_marks _ _ _ _ L).
Qed.

Lemma bm_inv_same s s' bm :
  ds_context s' = ds_context s -> (forall r, dag_block s' r = dag_block s r) ->
  (forall r, gc_round s < br_round r -> view s' r = view s r) ->
  gc_round s <= gc_round s' -> bm_inv s bm -> bm_inv s' bm.
Proof.
  intros Hc Hb Hv Hg [W B A M X R]. constructor; unfold ds_committee in *; rewrite ?Hc; try done.
  - intros r sb Hr. rewrite Hb. by apply B.
  - intros r sb a Hr Ha Hlt. rewrite Hv by lia. apply (A r sb a); [done..|lia].
  - intros a Ha. rewrite Hb. by apply M.
Qed.
End same.

Section node.
Context {RN : Rng} {RL : RngLaws} {P S : Type} {ST : Store S} {SL : StoreLaws S} {PR : Proposer P S}.
Context (bcs_commit : Commit -> list byte) (default_hash : list byte -> N).
Context (ctx : Context) (Hctx : config_ok ctx).
Context (byz : gset N) (univ : VerifiedBlock -> Prop) (gen : gmap BlockRef VerifiedBlock) (own : N).
Notation c := (committee ctx).
Context (Hu : honest_universe c byz univ) (Hsu : sound_universe c gen univ).
Implicit Types self : Core P S.
Notation sequence := (sequence bcs_commit default_hash ctx univ gen (S := S)).

(** No authority is a quorum by itself. *)
Definition single_free : Prop := forall a, reached_quorum c (stake_of c {[a]}) = false.

(** The node has decided the slots of [ds] and sent the commits [log], which
    are a run of the sequence. *)
Record core_ok self (ds : list LeaderStatus) (log : list CommittedSubDag) : Prop := {
  ck_context : co_context self = ds_context (co_dag self);
  ck_own : own_index (co_context self) = own;
  ck_dag : dag_ok ctx univ gen (co_dag self);
  ck_log : logged ctx (co_dag self) log (ds_last_commit (co_dag self));
  ck_seq : sequence ds log (ds_last_commit (co_dag self));
  ck_decided : s_round (co_last_decided_leader self) = N.of_nat (length ds);
  ck_below : last_commit_round (co_dag self) <= N.of_nat (length ds);
  ck_high : N.of_nat (length ds) <= ds_highest_accepted_round (co_dag self);
  ck_schedule : on_schedule ctx log (ds_scoring_subdag (co_dag self), leader_swap_table (co_leader_schedule self));
  ck_leaders : ls_context (co_leader_schedule self) = co_context self
    /\ num_commits_per_schedule (co_leader_schedule self) = CONSENSUS_COMMITS_PER_SCHEDULE;
  ck_manager : bm_inv (co_dag self) (co_block_manager self);
  ck_waiting : forall x, is_waiting (co_block_manager self) x -> univ x;
  ck_sent : co_handle self = mkCommitFinalizerHandle true log;
  ck_live : single_free -> live_inv (co_dag self);
  ck_closed : included_closed (co_dag self);
}.

(** What the core does to its proposer besides asking for blocks. *)
Inductive tuned : P -> P -> Prop :=
  | tuned_refl p : tuned p p
  | tuned_scores p p' scores :
      tuned p p' -> (length (scores_per_authority scores) <= length (c_authorities c))%nat ->
      tuned p (proposer_set_scores p' scores)
  | tuned_notify p p' refs gc : tuned p p' -> tuned p (notify_own_blocks_committed p' refs gc).

Lemma tuned_trans p1 p2 p3 : tuned p1 p2 -> tuned p2 p3 -> tuned p1 p3.
Proof. intros H12 H23. induction H23; [done|by apply tuned_scores; auto|by apply tuned_notify; auto]. Qed.

(** The own blocks that were broadcast. *)
Definition own_signals (signals : CoreSignals) : bool * list ExtendedBlock := (sg_subscribed signals, sg_blocks signals).

(** What committing leaves of the state that proposals depend on. *)
Record moved self self' : Prop := {
  mv_signals : own_signals (co_signals self') = own_signals (co_signals self);
  mv_votes : co_votes self' = co_votes self;
  mv_proposer : option_Forall2 tuned (co_proposer self) (co_proposer self');
  mv_keeps : keeps (co_dag self) (co_dag self');
  mv_missing : forall a, is_Some (bm_missing_ancestors (co_block_manager self') !! a) ->
    is_Some (bm_missing_ancestors (co_block_manager self) !! a) \/ exists x, univ x /\ a ∈ ancestors x;
}.

Lemma tuned_opt_refl (o : option P) : option_Forall2 tuned o o.
Proof. destruct o; constructor. constructor. Qed.

Lemma moved_same self self' :
  own_signals (co_signals self') = own_signals (co_signals self) -> co_votes self' = co_votes self -> co_proposer self' = co_proposer self ->
  co_block_manager self' = co_block_manager self -> keeps (co_dag self) (co_dag self') -> moved self self'.
Proof.
  intros Hs Hv Hp Hb Hk. constructor; [done|done| |done|rewrite Hb; by left]. rewrite Hp. apply tuned_opt_refl.
Qed.

Lemma moved_trans self1 self2 self3 : moved self1 self2 -> moved self2 self3 -> moved self1 self3.
Proof.
  intros [G1 V1 P1 K1 M1] [G2 V2 P2 K2 M2].
  constructor; [congruence|congruence| |by eapply keeps_trans|intros a [?%M1|?]%M2; [done|by right]].
  destruct P1 as [p1 p2 T1|]; inversion P2; subst; constructor. by eapply tuned_trans.
Qed.

Lemma sequence_length ds log last : sequence ds log last -> (length log <= length ds)%nat.
Proof. induction 1; rewrite ?length_app; simpl; lia. Qed.

Lemma core_log_max self ds log : core_ok self ds log -> N.of_nat (length log) + 3 < u32_MAX.
Proof.
  intros K. pose proof (sequence_length _ _ _ (ck_seq _ _ _ K)). pose proof (ck_high _ _ _ K).
  pose proof (do_high _ _ _ _ (ck_dag _ _ _ K)). lia.
Qed.

Lemma on_schedule_wf self ds log st :
  core_ok self ds log -> on_schedule ctx log st -> exists k, sched_wf c k log st.
Proof.
  intros K Hon. pose proof (core_log_max _ _ _ K).
  destruct (schedule_after_Ok ctx Hctx log) as (k & st0 & E & W); [apply (lg_wf _ _ _ _ (ck_log _ _ _ K))|lia|].
  destruct Hon as [E'|E']; [exists k; congruence|]. unfold in_force in E'. rewrite E in E'. simpl in E'.
  destruct (refresh_Ok ctx Hctx k log st0 W) as (k' & st' & Er & W' & _). exists k'. congruence.
Qed.

(** What the first half of a turn leaves as it was. *)
Definition same_blocks_as self self' : Prop :=
  dag_fields (co_dag self') = dag_fields (co_dag self)
  /\ co_block_manager self' = co_block_manager self /\ co_last_decided_leader self' = co_last_decided_leader self.

(** Contexts of one configuration give the same tables. *)
Lemma swap_table_config context commit_index scores :
  same_config ctx context ->
  leader_swap_table_new context commit_index scores = leader_swap_table_new ctx commit_index scores.
Proof.
  intros [Hc Hp]. unfold leader_swap_table_new, leader_swap_table_new_inner, authorities_by_score, retrieve_first_nodes.
  by rewrite Hc, Hp.
Qed.

Lemma elect_config context t n r :
  same_config ctx context ->
  schedule_elect_leader (mkLeaderSchedule t context n) r 0 = schedule_elect_leader (leader_schedule_new ctx t) r 0.
Proof.
  intros [Hc _]. unfold schedule_elect_leader, elect_leader_stake_based. simpl. by rewrite Hc.
Qed.

Lemma core_config self ds log : core_ok self ds log -> same_config ctx (co_context self).
Proof. intros K. rewrite (ck_context _ _ _ K). apply (do_config _ _ _ _ (ck_dag _ _ _ K)). Qed.

(** The new table has the range that follows the old one. *)
Lemma next_table_Ok self ds log k table :
  core_ok self ds log ->
  sched_wf c k log (ds_scoring_subdag (co_dag self), leader_swap_table (co_leader_schedule self)) ->
  N.of_nat (length log - k) = CONSENSUS_COMMITS_PER_SCHEDULE ->
  rs_commit_range (reputation_scores table) = mkCommitRange (N.of_nat k + 1) (N.of_nat (length log) + 1) ->
  update_leader_swap_table (co_leader_schedule self) table
  = Ok (mkLeaderSchedule table (co_context self) CONSENSUS_COMMITS_PER_SCHEDULE).
Proof.
  intros K W Hfull Hr. destruct (ck_leaders _ _ _ K) as [Els Enum].
  unfold update_leader_swap_table. rewrite Hr, Els, Enum. pose proof (sw_start _ _ _ _ W) as Hk.
  destruct (sw_last _ _ _ _ W) as [[_ E]|[H300 E]]; simpl in E; rewrite E.
  - by rewrite bool_decide_true by done.
  - rewrite bool_decide_false by (unfold commit_range_default; intros [= ?]; lia).
    unfold is_next_range, is_equal_size, commit_range_size. simpl. rewrite N.eqb_refl.
    unfold CONSENSUS_COMMITS_PER_SCHEDULE in *.
    rewrite !(proj2 (N.leb_le _ _)) by lia. simpl.
    by rewrite (proj2 (N.eqb_eq _ _)) by lia.
Qed.

Lemma full_update self ds log k :
  core_ok self ds log ->
  sched_wf c k log (ds_scoring_subdag (co_dag self), leader_swap_table (co_leader_schedule self)) ->
  N.of_nat (length log - k) = CONSENSUS_COMMITS_PER_SCHEDULE ->
  exists table dag,
    update_leader_schedule_v2 (co_leader_schedule self) (co_dag self)
    = Ok (mkLeaderSchedule table (co_context self) CONSENSUS_COMMITS_PER_SCHEDULE, dag)
    /\ dag_fields dag = dag_fields (co_dag self) /\ ds_scoring_subdag dag = scoring_subdag_new
    /\ sched_wf c (length log) log (scoring_subdag_new, table)
    /\ in_force ctx log = Ok (scoring_subdag_new, table).
Proof.
  intros K W Hfull.
  destruct (refresh_full ctx Hctx k log _ W Hfull) as (scores & table & Es & Er & Et & Ef & Hrep & Hrange & W').
  unfold update_leader_schedule_v2, calculate_scoring_subdag_scores, scoring_subdag_commit_range.
  rewrite (dag_ok_committee _ _ _ _ (ck_dag _ _ _ K)). simpl in Es, Er. rewrite Es. cbn [mbind outcome_bind].
  rewrite Er. cbn [unwrap fmap outcome_fmap mbind outcome_bind].
  assert (commit_range_end (mkCommitRange (N.of_nat k + 1) (N.of_nat (length log) + 1)) = N.of_nat (length log)) as Ee
    by (unfold commit_range_end, saturating_sub; simpl; lia).
  destruct (ds_last_commit (co_dag self)) as [lc|] eqn:El.
  2:{ pose proof (lg_index _ _ _ _ (ck_log _ _ _ K)) as Hi. unfold last_commit_index in Hi. rewrite El in Hi.
      unfold CONSENSUS_COMMITS_PER_SCHEDULE in Hfull. simpl in Hi. lia. }
  unfold add_commit_info. simpl. rewrite El. simpl. rewrite Ee.
  destruct (ck_leaders _ _ _ K) as [Els _].
  rewrite Els, (swap_table_config _ _ _ (core_config _ _ _ K)), Et. cbn [mbind outcome_bind].
  rewrite (next_table_Ok self ds log k table K W Hfull); [|by rewrite Hrep].
  cbn [mbind outcome_bind]. eexists table, _. split; [done|]. split_and!; [|done|done|].
  - unfold dag_fields. simpl. by rewrite El.
  - destruct (ck_schedule _ _ _ K) as [E|E].
    + unfold in_force. rewrite E. simpl. done.
    + rewrite E. unfold in_force in E. apply bind_Ok in E as (st0 & E0 & E1).
      pose proof (refresh_idem ctx _ _ E1) as Ei. rewrite Ef, E1 in Ei. by injection Ei as -> ->.
Qed.

(** The leader schedule is updated when it is full. *)
Lemma maybe_update_Ok self ds log :
  core_ok self ds log ->
  exists self' k, let t := leader_swap_table (co_leader_schedule self') in
    let sc := ds_scoring_subdag (co_dag self') in
    maybe_update_schedule self = Ok (self', CONSENSUS_COMMITS_PER_SCHEDULE - N.of_nat (length log - k))
    /\ core_ok self' ds log /\ same_blocks_as self self' /\ moved self self' /\ sched_wf c k log (sc, t)
    /\ N.of_nat (length log - k) < CONSENSUS_COMMITS_PER_SCHEDULE.
Proof.
  intros K. destruct (on_schedule_wf self ds log _ K (ck_schedule _ _ _ K)) as [k W].
  set (sc := ds_scoring_subdag (co_dag self)) in *. set (t := leader_swap_table _) in *.
  pose proof (sw_count _ _ _ _ W) as Hle. destruct (ck_leaders _ _ _ K) as [Els Enum].
  assert (commits_until_leader_schedule_update (co_leader_schedule self) (co_dag self)
          = Ok (CONSENSUS_COMMITS_PER_SCHEDULE - N.of_nat (length log - k))) as Eu.
  { unfold commits_until_leader_schedule_update, scoring_subdags_count. fold sc.
    pose proof (sched_count _ _ _ _ W) as Ec. simpl in Ec. rewrite Ec. simpl. rewrite Enum.
    by rewrite (proj2 (N.leb_le _ _)) by done. }
  unfold maybe_update_schedule. rewrite Eu. cbn [mbind outcome_bind].
  destruct (N.eqb_spec (CONSENSUS_COMMITS_PER_SCHEDULE - N.of_nat (length log - k)) 0) as [Ez|Ez].
  2:{ exists self, k. split_and!; [done|done|done| |done|lia]. apply moved_same; [done..|apply keeps_refl]. }
  assert (N.of_nat (length log - k) = CONSENSUS_COMMITS_PER_SCHEDULE) as Hfull by lia.
  destruct (full_update self ds log k K W Hfull) as (table & dag & E & Ef & Esc & W' & Hin).
  rewrite E. cbn [mbind outcome_bind].
  set (self' := set_proposer _ _).
  assert (core_ok self' ds log) as K'.
  { constructor; simpl; try apply K; try done.
    - pose proof Ef as [= Hc _ _ _ _ _ _ _ _ _ _ _]. rewrite Hc. apply (ck_context _ _ _ K).
    - by apply (fields_dag_ok ctx univ gen (co_dag self)), (ck_dag _ _ _ K).
    - pose proof Ef as [= _ _ Hl _ _ _ _ _ _ _ _ _]. rewrite Hl.
      by apply (fields_logged ctx (co_dag self)), (ck_log _ _ _ K).
    - pose proof Ef as [= _ _ Hl _ _ _ _ _ _ _ _ _]. rewrite Hl. apply (ck_seq _ _ _ K).
    - pose proof Ef as [= _ _ Hl _ _ _ _ _ _ _ _ _]. unfold last_commit_round. rewrite Hl. apply (ck_below _ _ _ K).
    - pose proof Ef as [= _ _ _ _ _ _ _ _ _ _ _ Hh]. rewrite Hh. apply (ck_high _ _ _ K).
    - rewrite Esc. by right.
    - pose proof Ef as [= Hc _ _ _ _ _ _ _ _ _ _ _]. apply (bm_inv_same (co_dag self)); [done| | | |apply (ck_manager _ _ _ K)].
      + intros r. by apply fields_block.
      + intros r _. by apply (fields_evolves (co_dag self)).
      + by rewrite (fields_gc _ _ Ef).
    - intros Hs. by apply (fields_live (co_dag self)), (ck_live _ _ _ K).
    - by apply (fields_closed (co_dag self)), (ck_closed _ _ _ K). }
  assert (moved self self') as Hmv.
  { constructor; [done|done| |by apply fields_keeps|by left]. unfold self'. simpl.
    destruct (co_proposer self) as [p|]; constructor. apply tuned_scores; [apply tuned_refl|].
    apply (sw_scores _ _ _ _ W'). }
  assert (commits_until_leader_schedule_update (co_leader_schedule self') (co_dag self')
          = Ok CONSENSUS_COMMITS_PER_SCHEDULE) as Eu'.
  { unfold commits_until_leader_schedule_update, scoring_subdags_count. unfold self'. simpl. rewrite Esc.
    done. }
  rewrite Eu'. cbn [mbind outcome_bind]. exists self', (length log). rewrite Nat.sub_diag, N.sub_0_r.
  split_and!; [done|done|by split_and!|done| |done]. unfold self'. simpl. by rewrite Esc.
Qed.
End node.
