(* ===== verification/CoreTurn.v ===== *)
(** * A turn of the commit loop

    The decisions of a turn are the next of the sequence, and committing them
    brings the node to a state that satisfies the invariant again. *)

From S2P Require Import Prelude Committee Context Block StakeAggregator ThresholdClock Commit Error Store LeaderScoring DagState VoteTracker DagInv Evolve DagOps DagLink DagAccept Linearizer CommitObserver LinearizerSpec LinearizerOps BlockManager BlockManagerInv BlockManagerDag BlockManagerOps BlockManagerGc LeaderSchedule ScheduleRun BaseCommitter UniversalCommitter CommitRule Agreement TryDecide Core CommitSequence CommitBatch CoreInv.

Section turn.
Context {RN : Rng} {RL : RngLaws} {P S : Type} {ST : Store S} {SL : StoreLaws S} {PR : Proposer P S}.
Context (bcs_commit : Commit -> list byte) (default_hash : list byte -> N).
Context (ctx : Context) (Hctx : config_ok ctx).
Context (byz : gset N) (univ : VerifiedBlock -> Prop) (gen : gmap BlockRef VerifiedBlock) (own : N).
Notation c := (committee ctx).
Context (Hu : honest_universe c byz univ) (Hsu : sound_universe c gen univ).
Implicit Types self : Core P S.
Notation core_ok := (core_ok bcs_commit default_hash ctx univ gen own).

(** A decision and the status it was made of. *)
Definition made_of (d : DecidedLeader) (st : LeaderStatus) : Prop :=
  exists direct, into_decided_leader st direct = Some d.

Lemma made_of_committed out sts :
  Forall2 made_of out sts -> omap into_committed_block out = omap committed_of sts.
Proof.
  induction 1 as [|d st out sts [dir Hd] _ IH]; [done|].
  destruct st; simpl in Hd; try done; injection Hd as <-; cbn; by rewrite <- IH.
Qed.

Lemma made_of_slot d st : made_of d st -> decided_slot d = status_slot st /\ is_decided st = true.
Proof. intros [dir Hd]. destruct st; simpl in Hd; try done; by injection Hd as <-. Qed.

(** The validator that the committer of a node stands for. *)
Lemma core_validator self ds log k :
  let t := leader_swap_table (co_leader_schedule self) in
  core_ok self ds log -> sched_wf c k log (ds_scoring_subdag (co_dag self), t) ->
  validator c univ (leader_of ctx t) (co_last_decided_leader self) (co_context self) (co_leader_schedule self)
    (co_dag self).
Proof.
  intros t K W. pose proof (do_high _ _ _ _ (ck_dag _ _ _ _ _ _ _ _ _ K)) as Hd.
  pose proof (ck_high _ _ _ _ _ _ _ _ _ K) as Hh. destruct (core_config _ _ _ _ _ _ _ _ _ K) as [Hc Hp].
  pose proof (sw_usable _ _ _ _ W) as Huse. simpl in Huse.
  constructor.
  - done.
  - rewrite Hp. apply (cf_leaders _ Hctx).
  - by apply (dag_ok_view ctx univ gen), (ck_dag _ _ _ _ _ _ _ _ _ K).
  - rewrite (ck_decided _ _ _ _ _ _ _ _ _ K). apply (ck_below _ _ _ _ _ _ _ _ _ K).
  - rewrite (ck_decided _ _ _ _ _ _ _ _ _ K). lia.
  - lia.
  - intros r. rewrite <- (proj1 (leader_of_Ok ctx Hctx t r Huse)).
    destruct (ck_leaders _ _ _ _ _ _ _ _ _ K) as [Els Enum]. unfold t.
    destruct (co_leader_schedule self) as [t' cx n]. simpl in *. subst cx. by apply elect_config.
  - intros r. by apply leader_of_Ok.
Qed.

(** What the decisions of a turn are: the statuses of the next slots, as many
    as the schedule in force leaves room for. *)
Record next_decisions self (ds : list LeaderStatus) (log : list CommittedSubDag)
    (out : list DecidedLeader) (sts : list LeaderStatus) : Prop := {
  nd_made : Forall2 made_of out sts;
  nd_high : sts <> [] -> N.of_nat (length ds + length sts) + 2 <= ds_highest_accepted_round (co_dag self);
  nd_room : exists k, sched_wf c k log (ds_scoring_subdag (co_dag self), leader_swap_table (co_leader_schedule self))
    /\ N.of_nat (length log - k + length sts) <= CONSENSUS_COMMITS_PER_SCHEDULE;
  nd_decides : forall i st, sts !! i = Some st ->
    decides ctx univ (S := S) (leader_of ctx (leader_swap_table (co_leader_schedule self)))
      (N.of_nat (length ds + i) + 1) st
    /\ match st with
       | StatusCommit b => view (co_dag self) (reference b) = Some b /\ round b = N.of_nat (length ds + i) + 1
       | _ => True
       end;
  nd_slot : forall i st, sts !! i = Some st -> s_round (status_slot st) = N.of_nat (length ds + i) + 1;
}.

Lemma truncate {A} (n : N) (l : list A) :
  (if n <=? N.of_nat (length l) then take (N.to_nat n) l else l) = take (N.to_nat n) l.
Proof. destruct (N.leb_spec n (N.of_nat (length l))); [done|]. by rewrite take_ge by lia. Qed.

(** The decisions that [try_decide] returns, truncated. *)
Lemma try_decide_next self ds log k :
  let t := leader_swap_table (co_leader_schedule self) in
  let until := CONSENSUS_COMMITS_PER_SCHEDULE - N.of_nat (length log - k) in
  core_ok self ds log -> sched_wf c k log (ds_scoring_subdag (co_dag self), t) ->
  N.of_nat (length log - k) < CONSENSUS_COMMITS_PER_SCHEDULE ->
  exists out sts, try_decide (core_committer self) (co_dag self) (co_last_decided_leader self) = Ok out
    /\ next_decisions self ds log (take (N.to_nat until) out) sts.
Proof.
  intros t until K W Hroom. pose proof (core_validator self ds log k K W) as V. fold t in V.
  assert (core_committer self = pipelined_committer (co_context self) (co_leader_schedule self)) as ->.
  { unfold core_committer, pipelined_committer. by rewrite (va_leaders _ _ _ _ _ _ _ V). }
  destruct (try_decide_Ok c byz univ Hu _ _ _ _ _ V) as (L & out & E & (HL & _) & Hlen & Hout & _).
  rewrite (ck_decided _ _ _ _ _ _ _ _ _ K) in HL, Hlen.
  set (n := (Nat.min (N.to_nat until) (length out))%nat).
  assert (length out <= length L)%nat as Hle.
  { destruct (length out) as [|m] eqn:Em; [lia|]. destruct (lookup_lt_is_Some_2 out m) as [d Hd]; [lia|].
    destruct (Hout m d Hd) as (st & dec & Hst & _). apply lookup_lt_Some in Hst. lia. }
  exists out, (take n L.*1). split; [done|].
  assert (forall i st, take n L.*1 !! i = Some st -> L.*1 !! i = Some st /\ (i < n)%nat /\ is_decided st = true) as Hst.
  { intros i st [Hi Hlt]%lookup_take_Some. split_and!; [done|done|].
    destruct (lookup_lt_is_Some_2 out i) as [d Hd]; [lia|]. destruct (Hout i d Hd) as (st' & dec & HL' & Hd').
    rewrite list_lookup_fmap, HL' in Hi. injection Hi as <-. by destruct st'. }
  assert (length (take n L.*1) = n) as Hn by (rewrite length_take, length_fmap; lia).
  pose proof (last_round_gc (co_dag self)) as Hgc. pose proof (ck_below _ _ _ _ _ _ _ _ _ K) as Hb.
  constructor.
  - apply Forall2_same_length_lookup_2.
    + rewrite Hn, length_take. lia.
    + intros i d st [Hd Hlt]%lookup_take_Some [Hi _]%Hst. destruct (Hout i d Hd) as (st' & dec & HL' & Hd').
      rewrite list_lookup_fmap, HL' in Hi. injection Hi as <-. by eexists.
  - rewrite Hn. intros Hne. assert (n <> 0)%nat by (intros En; rewrite En in Hne; done).
    unfold saturating_sub in Hlen. lia.
  - exists k. split; [done|]. rewrite Hn. unfold until in n. lia.
  - intros i st (Hi & Hlt & Hd)%Hst. split.
    + exists (co_dag self), (drop (Datatypes.S i) L.*1). split_and!; [apply (va_view _ _ _ _ _ _ _ V)|lia| |done].
      rewrite <- (drop_S _ _ _ Hi). replace (N.of_nat (length ds + i) + 1) with (N.of_nat (length ds) + 1 + N.of_nat i) by lia.
      by apply decided_from_drop.
    + destruct st as [b|sl|sl]; [|done|done]. split.
      * eapply decided_from_view; [exact HL|]. by eapply list_elem_of_lookup_2.
      * pose proof (decided_from_slot _ _ _ _ _ _ _ HL Hi) as Hs. apply slot_round in Hs. rewrite Hs. simpl. lia.
  - intros i st (Hi & _)%Hst. rewrite (decided_from_slot _ _ _ _ _ _ _ HL Hi). simpl. lia.
Qed.

(** The first half of a turn, without certified commits. *)
Lemma decide_turn_Ok self ds log :
  core_ok self ds log ->
  exists self' out sts, decide_turn self [] = Ok (self', [], out, true)
    /\ core_ok self' ds log /\ same_blocks_as self self' /\ moved ctx univ self self' /\ next_decisions self' ds log out sts.
Proof.
  intros K. destruct (maybe_update_Ok bcs_commit default_hash ctx Hctx univ gen own self ds log K)
    as (self' & k & E & K' & Hsame & Hmv & W & Hroom).
  unfold decide_turn. rewrite E. cbn [mbind outcome_bind].
  set (until := CONSENSUS_COMMITS_PER_SCHEDULE - _).
  assert ((0 <? until) = true) as Hpos by (apply N.ltb_lt; unfold until; lia).
  rewrite Hpos. cbn [assert_that mbind outcome_bind]. unfold try_select_certified_leaders. rewrite Hpos.
  cbn [assert_that mbind outcome_bind is_empty].
  assert (core_accept_committed_blocks self' (mbind cc_blocks ([] : list (DecidedLeader * CertifiedCommit)).*2)
          = Ok (self', [])) as ->.
  { unfold core_accept_committed_blocks, try_accept_committed_blocks, try_accept_blocks_internal.
    simpl. rewrite bool_decide_true by done. simpl. by destruct self'. }
  cbn [mbind outcome_bind fst is_empty fmap list_fmap].
  destruct (try_decide_next self' ds log k K' W Hroom) as (out & sts & -> & N).
  cbn [mbind outcome_bind]. rewrite truncate. by exists self', (take (N.to_nat until) out), sts.
Qed.

(** The clock stays justified by a batch of commits: the leaders are two rounds
    below the highest block. *)
Lemma live_batch s s' :
  batch_done s s' -> last_commit_round s' + 2 <= ds_highest_accepted_round s -> live_inv s -> live_inv s'.
Proof.
  intros [B1 B2 B3 _ _ B5] Hr L. injection B2 as _ _ _ _ Bh _ Bt Be. pose proof (lv_high s L).
  pose proof (last_round_gc s'). apply (live_ext s s'); try done; try lia.
  - intros i e. rewrite Be. intros He%(lv_evicted s L). lia.
  - intros r. by rewrite B3.
  - intros r _. by rewrite B3.
Qed.

Lemma batch_keeps s s' : batch_done s s' -> keeps s s'.
Proof.
  intros [B1 _ B3 BI _ B5]. constructor; try done.
  - intros r b _. by rewrite B3.
  - intros r. rewrite B3. by left.
  - intros r _. by rewrite BI.
Qed.

Lemma batch_closed s s' : batch_done s s' -> included_closed s -> included_closed s'.
Proof. intros [_ _ B3 BI _ B5] Hc r b a. rewrite !BI, B3. intros Hi Hv Ha Hg. apply (Hc r b a); try done. lia. Qed.

Lemma omap_length {A B} (f : A -> option B) l : (length (omap f l) <= length l)%nat.
Proof. induction l as [|x l IH]; [done|]. cbn in *. destruct (f x); simpl; lia. Qed.

(** The state after a batch of commits, before the block manager is told. *)
Lemma observer_handle_Ok self ds log out sts :
  core_ok self ds log -> next_decisions self ds log out sts ->
  exists dag new sc,
    observer_handle_commit bcs_commit default_hash (co_context self) (co_dag self) (co_handle self)
      (omap into_committed_block out) true
    = Ok (dag, mkCommitFinalizerHandle true (log ++ new), Success new)
    /\ dag_ok ctx univ gen dag /\ logged ctx dag (log ++ new) (ds_last_commit dag)
    /\ sequence bcs_commit default_hash ctx univ gen (S := S) (ds ++ sts) (log ++ new) (ds_last_commit dag)
    /\ last_commit_round dag <= N.of_nat (length ds + length sts)
    /\ ds_scoring_subdag dag = sc /\ on_schedule ctx (log ++ new) (sc, leader_swap_table (co_leader_schedule self))
    /\ ds_context dag = ds_context (co_dag self)
    /\ ds_highest_accepted_round dag = ds_highest_accepted_round (co_dag self)
    /\ bm_inv dag (co_block_manager self)
    /\ ((single_free ctx -> live_inv dag) /\ included_closed dag /\ keeps (co_dag self) dag)
    /\ length new = length (omap into_committed_block out).
Proof.
  intros K N. destruct (nd_room _ _ _ _ _ N) as (k & W & Hk).
  set (t := leader_swap_table (co_leader_schedule self)) in *.
  pose proof (ck_seq _ _ _ _ _ _ _ _ _ K) as Hseq. pose proof (sequence_length _ _ _ _ _ _ _ _ Hseq) as Hlen.
  pose proof (ck_high _ _ _ _ _ _ _ _ _ K) as Hh. pose proof (do_high _ _ _ _ (ck_dag _ _ _ _ _ _ _ _ _ K)) as Hd.
  assert (N.of_nat (length ds + length sts) + 2 < u32_MAX) as Hmax.
  { destruct sts as [|st0 sts0]; [simpl; lia|]. pose proof (nd_high _ _ _ _ _ N ltac:(done)). lia. }
  destruct (commit_batch bcs_commit default_hash ctx Hctx univ gen Hsu sts (co_dag self) ds log t [])
    as (s' & sds & E & (D & L & Q) & Hr & B & Hl).
  - apply (ck_dag _ _ _ _ _ _ _ _ _ K).
  - apply (ck_log _ _ _ _ _ _ _ _ _ K).
  - done.
  - apply (ck_below _ _ _ _ _ _ _ _ _ K).
  - done.
  - lia.
  - exists k, (ds_scoring_subdag (co_dag self)). split_and!; [apply (ck_schedule _ _ _ _ _ _ _ _ _ K)|done|done].
  - apply (nd_decides _ _ _ _ _ N).
  - pose proof B as [B1 B2 B3 _ B4 B5]. injection B2 as Bg Bst Bb Bc Bh Bsc _ _. set (new := set_decided_locally true <$> sds) in *.
    assert (length new <= length sts)%nat as Hnew.
    { unfold new. rewrite length_fmap, Hl. apply omap_length. }
    assert (exists sc, add_subdags c (ds_scoring_subdag (co_dag self)) new = Ok sc
              /\ on_schedule ctx (log ++ new) (sc, t)) as (sc & Esc & Hon).
    { destruct (decide (new = [])) as [->|Hne].
      { exists (ds_scoring_subdag (co_dag self)). rewrite app_nil_r. split; [done|apply (ck_schedule _ _ _ _ _ _ _ _ _ K)]. }
      assert (length new <> 0)%nat by (by destruct new).
      destruct (schedule_extend ctx Hctx k log (ds_scoring_subdag (co_dag self), t) new) as (sc & Ea & Ef & _).
      - apply (refresh_not_full ctx k log); [done|lia].
      - done.
      - lia.
      - apply (lg_wf _ _ _ _ L).
      - lia.
      - exists sc. split; [done|]. left. rewrite (schedule_after_app ctx log new (ds_scoring_subdag (co_dag self), t)); [done| |done].
        apply (on_schedule_room ctx k); [apply (ck_schedule _ _ _ _ _ _ _ _ _ K)|done|lia]. }
    set (dag := with_commit s' (ds_last_commit s') (ds_last_committed_rounds s') sc (ds_pending_commit_votes s')).
    exists dag, new, sc. split_and!.
    + unfold observer_handle_commit, handle_commit.
      rewrite (made_of_committed _ _ (nd_made _ _ _ _ _ N)), (ck_context _ _ _ _ _ _ _ _ _ K), E.
      cbn [mbind outcome_bind app]. fold new. rewrite (ck_sent _ _ _ _ _ _ _ _ _ K), send_all_Ok.
      unfold add_scoring_subdags. rewrite (dag_ok_committee _ _ _ _ D), Bsc, Esc. done.
    + by apply (fields_dag_ok ctx univ gen s').
    + by apply (fields_logged ctx s').
    + done.
    + done.
    + done.
    + done.
    + done.
    + done.
    + apply (bm_inv_same (co_dag self)); [done| |intros r _; apply B3|done|apply (ck_manager _ _ _ _ _ _ _ _ _ K)].
      intros r. by rewrite <- B4.
    + intros Hs. apply (fields_live s'); [done|].
      destruct sts as [|st0 sts0].
      { cbn in E. injection E as <- _. by apply (ck_live _ _ _ _ _ _ _ _ _ K). }
      apply (live_batch (co_dag self) s' B); [|by apply (ck_live _ _ _ _ _ _ _ _ _ K)].
      pose proof (nd_high _ _ _ _ _ N ltac:(done)). lia.
    + apply (fields_closed s'); [done|]. by apply (batch_closed (co_dag self) s' B), (ck_closed _ _ _ _ _ _ _ _ _ K).
    + apply (keeps_trans _ s'); [by apply batch_keeps|by apply fields_keeps].
    + unfold new. by rewrite length_fmap, Hl, (made_of_committed _ _ (nd_made _ _ _ _ _ N)).
Qed.

(** The rounds of the blocks that are accepted or suspended. *)
Definition bounded self (R : N) : Prop :=
  ds_highest_accepted_round (co_dag self) <= R
  /\ forall x, is_waiting (co_block_manager self) x -> round x <= R.

Lemma last_made_of out sts d :
  Forall2 made_of out sts -> last out = Some d ->
  exists st, sts !! (length sts - 1)%nat = Some st /\ made_of d st /\ sts <> [].
Proof.
  intros HF Hd. pose proof (Forall2_length _ _ _ HF) as Hl. rewrite last_lookup in Hd.
  destruct (Forall2_lookup_l _ _ _ _ _ HF Hd) as (st & Hst & Hm). exists st.
  replace (length sts - 1)%nat with (pred (length out)) by lia. split_and!; [done|done|]. by intros ->.
Qed.

(** The node after its last decisions were skips. *)
Lemma skip_turn_Ok self ds log out sts d :
  core_ok self ds log -> next_decisions self ds log out sts -> last out = Some d ->
  omap into_committed_block out = [] -> core_ok (set_last_decided self (decided_slot d)) (ds ++ sts) log.
Proof.
  intros K N Hd Hno. destruct (last_made_of _ _ _ (nd_made _ _ _ _ _ N) Hd) as (st & Hst & Hm & Hne).
  destruct (observer_handle_Ok self ds log out sts K N)
    as (dag & new & sc & E & _ & _ & Q & _ & _ & _ & _ & _ & _ & _ & Hlen).
  rewrite Hno in E, Hlen. destruct new; [|done]. rewrite app_nil_r in Q.
  assert (ds_last_commit dag = ds_last_commit (co_dag self)) as El.
  { unfold observer_handle_commit in E. cbn in E. by injection E as <- _. }
  pose proof (nd_high _ _ _ _ _ N Hne) as Hh. pose proof (ck_below _ _ _ _ _ _ _ _ _ K) as Hb.
  constructor; simpl; try apply K; rewrite ?length_app.
  - by rewrite <- El.
  - rewrite (proj1 (made_of_slot _ _ Hm)), (nd_slot _ _ _ _ _ N _ _ Hst).
    assert (length sts <> 0)%nat by (by destruct sts). lia.
  - lia.
  - lia.
Qed.

(** A step of the block manager keeps the invariant of the node. *)
Lemma manager_step_Ok self ds log from got s' bm' signals :
  core_ok self ds log -> bm_step (co_dag self) (co_block_manager self) from got s' bm' ->
  (forall x, x ∈ got -> univ x) -> own_signals signals = own_signals (co_signals self) ->
  core_ok (set_signals (set_blocks self bm' s') signals) ds log
  /\ moved ctx univ self (set_signals (set_blocks self bm' s') signals)
  /\ forall R, bounded self R -> (forall x, x ∈ got -> round x <= R) -> bounded (set_blocks self bm' s') R.
Proof.
  intros K [Hm [Hi Hp _ _ _ _] _ Hsus _ Hg Hmis] Hgot Hsg. pose proof (gw_evolves _ _ _ Hg) as Ev.
  pose proof (ck_dag _ _ _ _ _ _ _ _ _ K) as D.
  assert (forall x, is_waiting bm' x -> x ∈ got \/ is_waiting (co_block_manager self) x) as Hw.
  { intros x (r & sb' & Hr & <-). destruct (Hsus r sb' Hr) as [(sb & ? & ?)|[_ ?]]; [right; by exists r, sb|by left]. }
  split_and!.
  - constructor; simpl; try apply K; try done; rewrite ?(el_last _ _ Ev), ?(el_scoring _ _ Ev).
    + rewrite (el_context _ _ Ev). apply (ck_context _ _ _ _ _ _ _ _ _ K).
    + apply (dag_ok_grown ctx univ gen Hsu (co_dag self) _ s' D Hg); [|done|done].
      intros x [?|?]; [by apply Hgot|by apply (ck_waiting _ _ _ _ _ _ _ _ _ K)].
    + apply (logged_evolves ctx univ gen (co_dag self)); try done. apply (ck_log _ _ _ _ _ _ _ _ _ K).
    + apply (ck_seq _ _ _ _ _ _ _ _ _ K).
    + unfold last_commit_round. rewrite (el_last _ _ Ev). apply (ck_below _ _ _ _ _ _ _ _ _ K).
    + etrans; [apply (ck_high _ _ _ _ _ _ _ _ _ K)|apply (gw_low _ _ _ Hg)].
    + apply (ck_schedule _ _ _ _ _ _ _ _ _ K).
    + intros x [?|?]%Hw; [by apply Hgot|by apply (ck_waiting _ _ _ _ _ _ _ _ _ K)].
    + intros Hs. by apply (el_live _ _ Ev), (ck_live _ _ _ _ _ _ _ _ _ K).
    + apply (el_closed _ _ Ev), (ck_closed _ _ _ _ _ _ _ _ _ K).
  - constructor; [done|done|apply tuned_opt_refl|by apply evolves_keeps|].
    intros a [?|(x & ? & ?)]%Hmis; [by left|right]. exists x. by auto.
  - intros R [Rh Rw] HR. split; simpl.
    + apply (gw_high _ _ _ Hg); [done|]. intros x [?|?]; [by apply HR|by apply Rw].
    + intros x [?|?]%Hw; [by apply HR|by apply Rw].
Qed.

Lemma core_v3 self ds log :
  core_ok self ds log -> enable_v3 (protocol_config (ds_context (co_dag self))) = false.
Proof.
  intros K. rewrite (proj2 (do_config _ _ _ _ (ck_dag _ _ _ _ _ _ _ _ _ K))). apply (cf_v3 _ Hctx).
Qed.

Lemma unsuspend_Ok self ds log :
  core_ok self ds log ->
  exists bm' s', try_unsuspend_blocks_for_latest_gc_round (co_context self) (co_block_manager self) (co_dag self)
                 = Ok (bm', s')
    /\ core_ok (set_blocks self bm' s') ds log /\ moved ctx univ self (set_blocks self bm' s')
    /\ forall R, bounded self R -> bounded (set_blocks self bm' s') R.
Proof.
  intros K. unfold try_unsuspend_blocks_for_latest_gc_round. rewrite (ck_context _ _ _ _ _ _ _ _ _ K).
  destruct (gc_loop_Ok (Datatypes.S (size (bm_missing_ancestors (co_block_manager self)))) (co_dag self)
    (co_block_manager self)) as (bm' & s' & -> & St & _).
  - apply (do_inv _ _ _ _ (ck_dag _ _ _ _ _ _ _ _ _ K)).
  - apply (do_persist _ _ _ _ (ck_dag _ _ _ _ _ _ _ _ _ K)).
  - by apply (core_v3 self ds log).
  - apply (ck_manager _ _ _ _ _ _ _ _ _ K).
  - lia.
  - exists bm', s'. destruct (manager_step_Ok self ds log _ _ s' bm' (co_signals self) K St) as (K' & Hmv & HR).
    { intros x Hx. inversion Hx. }
    { done. }
    split_and!; [done|by destruct self|by destruct self|]. intros R HR'. apply HR; [done|]. intros x Hx. inversion Hx.
Qed.

(** The second half of a turn. *)
Lemma commit_decided_Ok self ds log out sts :
  core_ok self ds log -> next_decisions self ds log out sts ->
  exists self' new res, commit_decided bcs_commit default_hash self out true = Ok (self', Success res)
    /\ core_ok self' (ds ++ sts) (log ++ new) /\ moved ctx univ self self'
    /\ (forall R, bounded self R -> bounded self' R)
    /\ match res with None => new = [] | Some sds => new = sds /\ sts <> [] end.
Proof.
  intros K N. unfold commit_decided. destruct (last out) as [d|] eqn:Hd.
  2:{ apply last_None in Hd. subst out. pose proof (nd_made _ _ _ _ _ N) as HF. apply Forall2_nil_inv_l in HF as ->.
      exists self, [], None. rewrite !app_nil_r. split_and!; try done. apply moved_same; [done..|apply keeps_refl]. }
  destruct (last_made_of _ _ _ (nd_made _ _ _ _ _ N) Hd) as (st & Hst & Hm & Hne).
  destruct (omap into_committed_block out) as [|b0 leaders] eqn:El; cbn [is_empty].
  { exists (set_last_decided self (decided_slot d)), [], None. rewrite app_nil_r.
    split_and!; [done|by apply (skip_turn_Ok self ds log out sts d)| |done|done].
    apply moved_same; [done..|apply keeps_refl]. }
  destruct (observer_handle_Ok self ds log out sts K N)
    as (dag & new & sc & E & D & L & Q & Hr & Hsc & Hon & Hcx & Hh & Hbm & (Hlive & Hcl & Hk) & _).
  rewrite El in E. cbn [co_context co_dag co_handle set_last_decided]. rewrite E. cbn [mbind outcome_bind].
  set (self1 := set_committed _ dag _).
  assert (core_ok self1 (ds ++ sts) (log ++ new)) as K1.
  { pose proof (nd_high _ _ _ _ _ N Hne) as Hh'. constructor; simpl; try apply K; try done; rewrite ?length_app.
    - rewrite Hcx. apply (ck_context _ _ _ _ _ _ _ _ _ K).
    - rewrite (proj1 (made_of_slot _ _ Hm)), (nd_slot _ _ _ _ _ N _ _ Hst).
      assert (length sts <> 0)%nat by (by destruct sts). lia.
    - lia.
    - lia.
    - by rewrite Hsc. }
  destruct (unsuspend_Ok self1 _ _ K1) as (bm' & s' & Eu & K' & Hmv & HR).
  rewrite Eu. cbn [mbind outcome_bind fst snd].
  exists (set_blocks self1 bm' s'), new, (Some new). split_and!; [done|done| | |done|done].
  { by apply (moved_trans ctx univ self self1); [apply moved_same|]. }
  intros R [R1 R2]. apply HR. split; simpl; [by rewrite Hh|done].
Qed.
End turn.
