(* ===== verification/CoreTheorems.v ===== *)
(** * A node follows the sequence of commits

    The operations of the core of an observer return, keep its invariant and
    only ever extend the commits it has sent along the one sequence of commits,
    so that any two nodes agree. *)

From S2P Require Import Prelude Committee Context Block StakeAggregator ThresholdClock Commit Error Store LeaderScoring DagState VoteTracker DagInv Evolve DagOps DagLink DagAccept SampleDag Linearizer CommitObserver LinearizerSpec LinearizerOps BlockManager BlockManagerInv BlockManagerDag BlockManagerOps BlockManagerGc BlockManagerTheorems LeaderSchedule ScheduleRun BaseCommitter UniversalCommitter CommitRule Agreement TryDecide Core CommitSequence CommitBatch CoreInv CoreTurn.

Section ops.
Context {RN : Rng} {RL : RngLaws} {P S : Type} {ST : Store S} {SL : StoreLaws S} {PR : Proposer P S}.
Context (bcs_commit : Commit -> list byte) (default_hash : list byte -> N).
Context (ctx : Context) (Hctx : config_ok ctx).
Context (byz : gset N) (univ : VerifiedBlock -> Prop) (gen : gmap BlockRef VerifiedBlock) (own : N).
Notation c := (committee ctx).
Context (Hu : honest_universe c byz univ) (Hsu : sound_universe c gen univ).
Implicit Types self : Core P S.
Notation core_ok := (core_ok bcs_commit default_hash ctx univ gen own).

Lemma same_blocks_bounded self self' R : same_blocks_as self self' -> bounded self R -> bounded self' R.
Proof.
  intros (Ef & Eb & _) [R1 R2]. pose proof Ef as [= _ _ _ _ _ _ _ _ _ _ _ Hh].
  split; [by rewrite Hh|by rewrite Eb].
Qed.

Lemma commit_loop_Ok fuel self ds log R acc :
  core_ok self ds log -> bounded self R -> (N.to_nat R < fuel + length ds)%nat ->
  exists self' ds' new, commit_loop bcs_commit default_hash fuel self [] acc = Ok (self', Success (acc ++ new))
    /\ core_ok self' (ds ++ ds') (log ++ new) /\ moved ctx univ self self'.
Proof.
  revert self ds log acc. induction fuel as [|fuel IH]; intros self ds log acc K HR Hf.
  { pose proof (ck_high _ _ _ _ _ _ _ _ _ K). destruct HR as [HR _]. lia. }
  destruct (decide_turn_Ok bcs_commit default_hash ctx Hctx byz univ gen own Hu self ds log K)
    as (self1 & out & sts & E1 & K1 & Hsame & M1 & N1).
  cbn [commit_loop]. rewrite E1. cbn [mbind outcome_bind].
  destruct (commit_decided_Ok bcs_commit default_hash ctx Hctx univ gen own Hsu self1 ds log out sts K1 N1)
    as (self2 & new & res & E2 & K2 & M2 & HR2 & Hres).
  unfold core_try. rewrite E2. cbn [mbind outcome_bind].
  apply (same_blocks_bounded self self1 R Hsame) in HR. apply HR2 in HR.
  pose proof (moved_trans ctx univ _ _ _ M1 M2) as M.
  destruct res as [sds|].
  - destruct Hres as [-> Hne]. destruct (IH self2 (ds ++ sts) (log ++ sds) (acc ++ sds) K2 HR) as (self' & ds' & new' & E' & K' & M').
    { rewrite length_app. assert (length sts <> 0)%nat by (by destruct sts). lia. }
    exists self', (sts ++ ds'), (sds ++ new'). rewrite <- !app_assoc in *. split_and!; [done|done|by eapply moved_trans].
  - subst new. exists self2, sts, []. rewrite (app_nil_r acc). done.
Qed.

(** The fuel of the loop covers the rounds that can be decided. *)
Lemma commit_fuel_bounded self : exists R, bounded self R /\ commit_fuel self [] = Datatypes.S (N.to_nat R).
Proof.
  eexists. split; [|done]. split.
  - induction (round <$> _) as [|x l IH]; simpl; lia.
  - intros x (r & sb & Hr & <-). cbn [mbind list_bind app].
    assert (round (sb_block sb) ∈ round <$> ((fun kv : BlockRef * SuspendedBlock => sb_block kv.2)
      <$> map_to_list (bm_suspended_blocks (co_block_manager self)))) as Hin.
    { apply list_elem_of_fmap_2, (list_elem_of_fmap_2 (fun kv : BlockRef * SuspendedBlock => sb_block kv.2) _ (r, sb)).
      by apply elem_of_map_to_list. }
    revert Hin. induction (round <$> _) as [|y l IH]; simpl; [by intros Hin%elem_of_nil|].
    intros [->|Hin]%elem_of_cons; [lia|]. specialize (IH Hin). lia.
Qed.

Lemma check_nothing sds : check_certified ∅ sds = Ok ∅.
Proof. induction sds as [|sd sds IH]; [done|]. unfold check_certified in *. simpl. by rewrite lookup_empty. Qed.

Lemma try_commit_Ok self ds log :
  core_ok self ds log ->
  exists self' ds' new, try_commit bcs_commit default_hash self [] = Ok (self', Success new)
    /\ core_ok self' (ds ++ ds') (log ++ new) /\ moved ctx univ self self'.
Proof.
  intros K. destruct (commit_fuel_bounded self) as (R & HR & Ef).
  destruct (commit_loop_Ok (commit_fuel self []) self ds log R [] K HR) as (self' & ds' & new & E & K' & M); [lia|].
  eexists _, ds', new. unfold try_commit, core_try. rewrite E. cbn [mbind outcome_bind app foldl].
  rewrite check_nothing. cbn [mbind outcome_bind]. split; [done|]. split; [destruct K'; by constructor|].
  apply (moved_trans ctx univ self self' _ M). constructor; [done|done| |apply keeps_refl|by left]. simpl.
  destruct (co_proposer self'); constructor. apply tuned_notify, tuned_refl.
Qed.

Lemma signal_round_Ok self ds log : core_ok self ds log -> core_ok (try_signal_new_round self) ds log.
Proof. intros K. unfold try_signal_new_round. destruct (_ <=? _); [done|]. destruct K. by constructor. Qed.

Lemma moved_observer self self' : co_proposer self = None -> moved ctx univ self self' -> co_proposer self' = None.
Proof. intros Ho M. pose proof (mv_proposer _ _ _ _ M) as Hp. rewrite Ho in Hp. by inversion Hp. Qed.

Lemma signal_round_proposer self : co_proposer (try_signal_new_round self) = co_proposer self.
Proof. unfold try_signal_new_round. by destruct (_ <=? _). Qed.

Lemma after_blocks_Ok {A} self ds log (a : A) :
  core_ok self ds log -> co_proposer self = None ->
  exists self' ds' new, after_blocks bcs_commit default_hash self [] a = Ok (self', Success a)
    /\ core_ok self' (ds ++ ds') (log ++ new) /\ co_proposer self' = None.
Proof.
  intros K Ho. destruct (try_commit_Ok self ds log K) as (self1 & ds1 & new1 & E1 & K1 & M1).
  pose proof (moved_observer _ _ Ho M1) as Ho1.
  exists (try_signal_new_round self1), ds1, new1. unfold after_blocks, core_try. rewrite E1. cbn [mbind outcome_bind].
  unfold try_propose. rewrite Ho1. cbn [mbind outcome_bind].
  split_and!; [done|by apply signal_round_Ok|by rewrite signal_round_proposer].
Qed.

Lemma accepted_own_signals blocks : forall signals,
  own_signals (foldl signal_new_accepted_block signals blocks) = own_signals signals.
Proof. induction blocks as [|b blocks IH]; intros signals; [done|]. cbn [foldl]. by rewrite IH. Qed.

(** A batch of verified blocks of the universe. *)
Lemma core_accept_Ok self ds log blocks :
  core_ok self ds log ->
  (forall b, b ∈ blocks -> univ b /\ known_if_own (co_dag self) b) ->
  exists self' accepted missing, core_accept_blocks self blocks = Ok (self', accepted, missing)
    /\ core_ok self' ds log /\ moved ctx univ self self' /\ (forall b, b ∈ blocks -> handled (co_dag self') (co_block_manager self') b).
Proof.
  intros K Hb. pose proof (ck_dag _ _ _ _ _ _ _ _ _ K) as D. unfold core_accept_blocks.
  rewrite (ck_context _ _ _ _ _ _ _ _ _ K) in *.
  destruct (try_accept_blocks_Ok (co_dag self) (co_block_manager self) blocks) as (bm' & s' & acc & miss & -> & St & Hh & _).
  - apply (do_inv _ _ _ _ D).
  - apply (do_persist _ _ _ _ D).
  - by apply (core_v3 bcs_commit default_hash ctx Hctx univ gen own self ds log).
  - apply (ck_manager _ _ _ _ _ _ _ _ _ K).
  - intros b [Hub Ho]%Hb. split; [|done]. rewrite (dag_ok_committee _ _ _ _ D). by apply (su_wf _ _ _ Hsu).
  - cbn [mbind outcome_bind]. eexists _, acc, miss. split; [done|].
    match goal with |- core_ok (set_signals _ ?sg) _ _ /\ _ => set (signals := sg) end.
    destruct (manager_step_Ok bcs_commit default_hash ctx univ gen own Hsu self ds log _ _ s' bm' signals K St)
      as (K' & M' & _); [|unfold signals|done]; [intros b Hin; by apply Hb|apply accepted_own_signals].
Qed.

Lemma add_blocks_Ok self ds log blocks :
  core_ok self ds log -> co_proposer self = None ->
  (forall b, b ∈ blocks -> univ b /\ author b <> own_index (co_context self)) ->
  exists self' missing ds' new, add_blocks bcs_commit default_hash self blocks = Ok (self', Success missing)
    /\ core_ok self' (ds ++ ds') (log ++ new) /\ co_proposer self' = None.
Proof.
  intros K Ho Hb. destruct (core_accept_Ok self ds log blocks K) as (self1 & acc & miss & E1 & K1 & M1 & _).
  { intros b Hin. destruct (Hb b Hin) as [Hub Hne]. split; [done|left]. by rewrite <-(ck_context _ _ _ _ _ _ _ _ _ K). }
  pose proof (moved_observer _ _ Ho M1) as Ho1.
  unfold add_blocks. rewrite E1. cbn [mbind outcome_bind]. destruct (is_empty acc).
  - exists self1, miss, [], []. by rewrite !app_nil_r.
  - destruct (after_blocks_Ok self1 ds log miss K1 Ho1) as (self' & ds' & new & E & K' & Ho'). by exists self', miss, ds', new.
Qed.

Lemma flush_core_Ok self ds log :
  core_ok self ds log ->
  exists s', flush (co_dag self) = Ok s' /\ core_ok (set_blocks self (co_block_manager self) s') ds log
    /\ moved ctx univ self (set_blocks self (co_block_manager self) s').
Proof.
  intros K. pose proof (ck_dag _ _ _ _ _ _ _ _ _ K) as D.
  destruct (flush_Ok (co_dag self) (do_inv _ _ _ _ D) (do_persist _ _ _ _ D))
    as (s' & E & Hi & Hp & _ & Hc & Hl & Hd & Hv & Ev & Hh).
  exists s'. split; [done|]. pose proof (evolves_gc _ _ Ev) as Hgc.
  assert (grown (co_dag self) (fun _ => False) s') as Hg.
  { constructor; [done| |by rewrite Hh|by rewrite Hh]. intros r x. rewrite Hd. by left. }
  split; [|by apply moved_same; [..|by apply evolves_keeps]].
  constructor; simpl; try apply K; rewrite ?(el_last _ _ Ev), ?(el_scoring _ _ Ev).
  - rewrite Hc. apply (ck_context _ _ _ _ _ _ _ _ _ K).
  - by apply (dag_ok_grown ctx univ gen Hsu (co_dag self) _ s' D Hg).
  - apply (logged_evolves ctx univ gen (co_dag self)); try done. apply (ck_log _ _ _ _ _ _ _ _ _ K).
  - apply (ck_seq _ _ _ _ _ _ _ _ _ K).
  - unfold last_commit_round. rewrite Hl. apply (ck_below _ _ _ _ _ _ _ _ _ K).
  - rewrite Hh. apply (ck_high _ _ _ _ _ _ _ _ _ K).
  - apply (ck_schedule _ _ _ _ _ _ _ _ _ K).
  - apply (bm_inv_same (co_dag self)); try done; [by rewrite Hgc|apply (ck_manager _ _ _ _ _ _ _ _ _ K)].
  - intros Hs. by apply (el_live _ _ Ev), (ck_live _ _ _ _ _ _ _ _ _ K).
  - apply (el_closed _ _ Ev), (ck_closed _ _ _ _ _ _ _ _ _ K).
Qed.
End ops.

(* ------------------------------------------------------------------ *)
(** ** Runs of observers *)

(** What happens to an observer: blocks that passed verification are added, the
    DAG state is flushed by the commit finalizer. *)
Inductive node_event :=
  | AddBlocks (blocks : list VerifiedBlock)
  | Flush.

Section runs.
Context {RN : Rng} {RL : RngLaws} {P : Type} {PR : Proposer P MemStore}.
Context (bcs_to_bytes : SignedBlock -> list byte) (bcs_commit : Commit -> list byte)
  (default_hash : list byte -> N).

Definition node_step (self : Core P MemStore) (e : node_event) : outcome (Core P MemStore) :=
  match e with
  | AddBlocks blocks => fst <$> unwrap_result (add_blocks bcs_commit default_hash self blocks)
  | Flush => dag ← flush (co_dag self); Ok (set_blocks self (co_block_manager self) dag)
  end.

(** An observer that starts with an empty store. *)
Definition observer_start (context : Context) : outcome (Core P MemStore) :=
  dag ← dag_state_new bcs_to_bytes default_hash context mem_store_new;
  schedule ← leader_schedule_from_store context dag;
  new_observer bcs_commit default_hash context schedule (block_manager_new context)
    (mkCommitFinalizerHandle true []) (core_signals_new false) dag (vote_tracker_state_new context).

Definition observer_run (context : Context) (events : list node_event) : outcome (Core P MemStore) :=
  self ← observer_start context; foldM node_step events self.

(** The blocks of the events are of the universe, and not the node's own. *)
Definition node_events_ok (univ : VerifiedBlock -> Prop) (context : Context) (events : list node_event) : Prop :=
  forall blocks b, AddBlocks blocks ∈ events -> b ∈ blocks -> univ b /\ author b <> own_index context.

(** Nodes of one network: committee, configuration and start of the epoch. *)
Definition same_network (ctx context : Context) : Prop :=
  same_config ctx context /\ epoch_start_timestamp_ms context = epoch_start_timestamp_ms ctx
  /\ 0 < u32_wrap (dag_state_cached_rounds (parameters context)).

Section network.
Context (ctx : Context) (Hctx : config_ok ctx) (byz : gset N) (univ : VerifiedBlock -> Prop).
Notation gen := (genesis_map bcs_to_bytes default_hash ctx).
Context (Hu : honest_universe (committee ctx) byz univ) (Hsu : sound_universe (committee ctx) gen univ).
Notation core_ok := (fun own => core_ok (P := P) bcs_commit default_hash ctx univ gen own).

Lemma genesis_map_network context :
  same_network ctx context -> genesis_map bcs_to_bytes default_hash context = gen.
Proof.
  intros ([Hc Hp] & He & _). unfold genesis_map, genesis_blocks, blockv1_genesis_block, blockv2_genesis_block.
  by rewrite Hc, Hp, He.
Qed.

Lemma fresh_dag_ok context :
  same_network ctx context -> dag_ok ctx univ gen (fresh_state bcs_to_bytes default_hash context).
Proof.
  intros Hn. pose proof (genesis_map_network context Hn) as Hg. destruct Hn as ([Hc Hp] & He & Hr).
  constructor; try done.
  - apply fresh_state_inv. rewrite Hc. apply (cf_committee _ Hctx).
  - by apply fresh_state_persist.
  - intros r b. unfold dag_block, cached_block. cbn [ds_genesis ds_recent_blocks ds_store fresh_state].
    rewrite Hg. destruct (br_round r =? GENESIS_ROUND); [by left|]. by rewrite lookup_empty.
Qed.

Lemma fresh_logged context :
  same_network ctx context -> logged ctx (fresh_state bcs_to_bytes default_hash context) [] None.
Proof.
  intros Hn. pose proof (fresh_dag_ok context Hn) as D.
  assert (forall r, committed (fresh_state bcs_to_bytes default_hash context) r = false) as Hm
    by (intros r; unfold committed; simpl; by rewrite lookup_empty).
  constructor; try done.
  - constructor; [apply (do_inv _ _ _ _ D)| |done|].
    + intros r b a. by rewrite Hm.
    + simpl. by rewrite length_replicate.
  - intros r _. rewrite Hm. split; [done|]. intros Hr. inversion Hr.
  - intros r Hr. inversion Hr.
  - constructor; [done|constructor|constructor|]. intros sd b Hsd. inversion Hsd.
  - intros sd Hsd. inversion Hsd.
Qed.

Lemma fresh_last_leader context :
  same_network ctx context ->
  exists a, last_commit_leader (fresh_state bcs_to_bytes default_hash context) = Ok (mkSlot 0 a).
Proof.
  intros Hn. pose proof (genesis_map_network context Hn) as Hg. unfold last_commit_leader. simpl. rewrite Hg.
  destruct (btree_map_first gen) as [[r b]|] eqn:E.
  - apply btree_map_first_spec in E as [E _]. apply genesis_map_ref in E as [_ Hr].
    exists (br_author r). simpl. unfold slot_of_ref. by rewrite Hr.
  - apply btree_map_first_None in E. exfalso. pose proof (nonempty_committee _ (cf_committee _ Hctx)) as Hne.
    destruct (genesis_map_author bcs_to_bytes default_hash ctx 0) as (r & b & Hb & _).
    { unfold is_valid_index, committee_size. apply N.ltb_lt. lia. }
    by rewrite E, lookup_empty in Hb.
Qed.

(** A core on an empty store. *)
Lemma fresh_core_ok context a signaled signals proposer votes :
  same_network ctx context ->
  core_ok (own_index context)
    (mkCore context (block_manager_new context) signaled (mkSlot 0 a) (leader_schedule_new context leader_swap_table_default)
       (mkCommitFinalizerHandle true []) signals (fresh_state bcs_to_bytes default_hash context) proposer votes) [] [].
Proof.
  intros Hn. constructor; try done.
  - by apply fresh_dag_ok.
  - by apply fresh_logged.
  - constructor.
  - by left.
  - apply (block_manager_new_inv (fresh_state bcs_to_bytes default_hash context)).
  - intros x (r & sb & Hr & _). simpl in Hr. by rewrite lookup_empty in Hr.
  - intros Hs. apply fresh_state_live. by rewrite (proj1 (proj1 Hn)).
Qed.

Lemma observer_start_Ok context :
  same_network ctx context ->
  exists self ds log, observer_start context = Ok self /\ core_ok (own_index context) self ds log
    /\ co_proposer self = None.
Proof.
  intros Hn. unfold observer_start. rewrite dag_state_new_fresh. cbn [mbind outcome_bind].
  set (dag := fresh_state bcs_to_bytes default_hash context).
  change (leader_schedule_from_store context dag)
    with (Ok (leader_schedule_new context leader_swap_table_default)).
  cbn [mbind outcome_bind]. unfold new_observer.
  destruct (fresh_last_leader context Hn) as [a Ha]. fold dag in Ha. rewrite Ha. cbn [mbind outcome_bind].
  set (self0 := mkCore _ _ _ _ _ _ _ _ _ _).
  assert (core_ok (own_index context) self0 [] []) as K0 by (by apply fresh_core_ok).
  destruct (try_commit_Ok bcs_commit default_hash ctx Hctx byz univ gen (own_index context) Hu Hsu self0 [] [] K0)
    as (self1 & ds & log & E & K & M).
  exists (try_signal_new_round self1), ds, log. unfold recover_observer, unwrap_result. rewrite E.
  split_and!; [done|by apply signal_round_Ok|]. rewrite signal_round_proposer. by apply (moved_observer ctx univ self0).
Qed.

Lemma node_step_Ok own self ds log e :
  core_ok own self ds log -> co_proposer self = None ->
  (forall blocks b, e = AddBlocks blocks -> b ∈ blocks -> univ b /\ author b <> own) ->
  exists self' ds' new, node_step self e = Ok self' /\ core_ok own self' (ds ++ ds') (log ++ new)
    /\ co_proposer self' = None.
Proof.
  intros K Ho He. destruct e as [blocks|].
  - destruct (add_blocks_Ok bcs_commit default_hash ctx Hctx byz univ gen own Hu Hsu self ds log blocks K Ho)
      as (self' & missing & ds' & new & E & K' & Ho').
    { intros b Hb. rewrite (ck_own _ _ _ _ _ _ _ _ _ K). by apply (He blocks). }
    exists self', ds', new. split_and!; [|done|done]. unfold node_step, unwrap_result. by rewrite E.
  - destruct (flush_core_Ok bcs_commit default_hash ctx univ gen own Hsu self ds log K) as (s' & E & K' & _).
    exists (set_blocks self (co_block_manager self) s'), [], []. rewrite !app_nil_r. unfold node_step. by rewrite E.
Qed.

Lemma observer_run_Ok context events :
  same_network ctx context -> node_events_ok univ context events ->
  exists self ds log, observer_run context events = Ok self /\ core_ok (own_index context) self ds log.
Proof.
  intros Hn He. destruct (observer_start_Ok context Hn) as (self0 & ds0 & log0 & E0 & K0 & Ho0).
  unfold observer_run. rewrite E0. cbn [mbind outcome_bind].
  destruct (foldM_total (fun self => exists ds log, core_ok (own_index context) self ds log /\ co_proposer self = None) node_step events self0)
    as (self & E & ds & log & K & _); [by exists ds0, log0| |by exists self, ds, log].
  intros e self Hin (ds & log & K & Ho).
  destruct (node_step_Ok (own_index context) self ds log e K Ho) as (self' & ds' & new & E & K' & Ho'); [|by exists self'; split; [|eexists _, _]].
  intros blocks b -> Hb. by apply (He blocks).
Qed.
End network.
End runs.

(* ------------------------------------------------------------------ *)
(** ** Properties *)

(** C5: A node follows the sequence of commits.  Take a network whose
    configuration passes [config_ok] and a universe of well-formed blocks, in
    which authorities outside a set below the validity threshold do not
    equivocate.  An observer that starts with an empty store and is given any
    batches of blocks of the universe, in any order, with flushes in between,
    never panics, and its commit loop always ends; what it has sent to the
    commit finalizer is a run of the sequence of commits, with a decision for
    every slot up to the last decided one; and the invariants of its DAG state
    and of its block manager hold. *)
Theorem observer_follows_sequence `{RngLaws} {P} `{!Proposer P MemStore}
    (bcs_to_bytes : SignedBlock -> list byte) (bcs_commit : Commit -> list byte) (default_hash : list byte -> N)
    (ctx context : Context) (byz : gset N) (univ : VerifiedBlock -> Prop) (events : list node_event) :
  let gen := genesis_map bcs_to_bytes default_hash ctx in
  config_ok ctx -> honest_universe (committee ctx) byz univ -> sound_universe (committee ctx) gen univ ->
  same_network ctx context -> node_events_ok univ context events ->
  exists (self : Core P MemStore) ds,
    observer_run bcs_to_bytes bcs_commit default_hash context events = Ok self
    /\ sequence bcs_commit default_hash ctx univ gen (S := MemStore) ds (fh_sent (co_handle self))
         (ds_last_commit (co_dag self))
    /\ s_round (co_last_decided_leader self) = N.of_nat (length ds)
    /\ dag_inv (co_dag self) /\ persist_inv (co_dag self) /\ bm_inv (co_dag self) (co_block_manager self).
Proof.
  intros gen Hctx Hu Hsu Hn He.
  destruct (observer_run_Ok (P := P) bcs_to_bytes bcs_commit default_hash ctx Hctx byz univ Hu Hsu context events Hn He)
    as (self & ds & log & E & K).
  exists self, ds. pose proof (ck_dag _ _ _ _ _ _ _ _ _ K) as D. rewrite (ck_sent _ _ _ _ _ _ _ _ _ K).
  split_and!; [done|apply K|apply K|apply D|apply D|apply K].
Qed.

(** C4: Nodes agree.  Two observers of one network, each given batches of
    blocks of the universe of its own, in its own order and with its own
    flushes, send the same commits: same leaders, blocks, order, timestamps
    and commit references; one of them may only be behind.  This holds across
    changes of the leader schedule. *)
Theorem observers_agree `{RngLaws} {P} `{!Proposer P MemStore}
    (bcs_to_bytes : SignedBlock -> list byte) (bcs_commit : Commit -> list byte) (default_hash : list byte -> N)
    (ctx context1 context2 : Context) (byz : gset N) (univ : VerifiedBlock -> Prop)
    (events1 events2 : list node_event) :
  config_ok ctx -> honest_universe (committee ctx) byz univ ->
  sound_universe (committee ctx) (genesis_map bcs_to_bytes default_hash ctx) univ ->
  same_network ctx context1 -> node_events_ok univ context1 events1 ->
  same_network ctx context2 -> node_events_ok univ context2 events2 ->
  exists self1 self2 : Core P MemStore,
    observer_run bcs_to_bytes bcs_commit default_hash context1 events1 = Ok self1
    /\ observer_run bcs_to_bytes bcs_commit default_hash context2 events2 = Ok self2
    /\ (fh_sent (co_handle self1) `prefix_of` fh_sent (co_handle self2)
        \/ fh_sent (co_handle self2) `prefix_of` fh_sent (co_handle self1)).
Proof.
  intros Hctx Hu Hsu Hn1 He1 Hn2 He2.
  destruct (observer_run_Ok (P := P) bcs_to_bytes bcs_commit default_hash ctx Hctx byz univ Hu Hsu context1 events1 Hn1 He1)
    as (self1 & ds1 & log1 & E1 & K1).
  destruct (observer_run_Ok (P := P) bcs_to_bytes bcs_commit default_hash ctx Hctx byz univ Hu Hsu context2 events2 Hn2 He2)
    as (self2 & ds2 & log2 & E2 & K2).
  exists self1, self2. split_and!; [done|done|].
  rewrite (ck_sent _ _ _ _ _ _ _ _ _ K1), (ck_sent _ _ _ _ _ _ _ _ _ K2). simpl.
  pose proof (ck_seq _ _ _ _ _ _ _ _ _ K1) as Q1. pose proof (ck_seq _ _ _ _ _ _ _ _ _ K2) as Q2.
  destruct (le_ge_dec (length ds1) (length ds2)) as [Hle|Hge]; [left|right].
  - by apply (sequence_prefix _ _ _ _ _ _ Hu _ _ _ _ _ _ Q1 Q2).
  - by apply (sequence_prefix _ _ _ _ _ _ Hu _ _ _ _ _ _ Q2 Q1).
Qed.

(* ------------------------------------------------------------------ *)
(** ** Witnesses *)

#[local] Existing Instances first_rng first_rng_laws.

(** An observer has no proposer. *)
#[local] Instance no_proposer S : Proposer Empty_set S := {
  try_new_block p _ _ _ _ := match p with end;
  should_propose p _ := match p with end;
  set_propagation_delay p _ := p;
  set_last_known_proposed_round p _ := p;
  get_last_known_proposed_round p := match p with end;
  last_proposed_round p _ := match p with end;
  last_proposed_block p _ := match p with end;
  proposer_set_scores p _ := p;
  notify_own_blocks_committed p _ _ := p;
}.

Definition no_commit_bytes (_ : Commit) : list byte := [].

Definition observer_context : Context := sample_context 4.

(** One observer gets the rounds up to 6 in order, the other one all blocks
    at once, in the opposite order. *)
Definition events_in_order : list node_event := [AddBlocks (sample_blocks 3); Flush; AddBlocks (sample_blocks 6)].
Definition events_reversed : list node_event := [AddBlocks (reverse (sample_blocks 8)); Flush].

Lemma four_authorities i : is_valid_index (test_committee 4) i = true -> i = 0 \/ i = 1 \/ i = 2 \/ i = 3.
Proof. unfold is_valid_index. rewrite N.ltb_lt. change (committee_size (test_committee 4)) with 4. lia. Qed.

Lemma observer_config_ok : config_ok observer_context.
Proof.
  constructor; [exact test_committee_4_wf| |done|done| |done..];
    intros i Hi; apply four_authorities in Hi; by destruct Hi as [->|[->|[->| ->]]].
Qed.

Lemma sample_universe_sound :
  sound_universe (test_committee 4) (genesis_map no_bytes hash_7 observer_context) sample_universe.
Proof.
  assert (Forall (fun b => wf_block (test_committee 4) b /\ round b + 3 < u32_MAX
    /\ Forall (fun a => br_round a = 0 -> is_Some (genesis_map no_bytes hash_7 observer_context !! a)) (ancestors b))
    (sample_blocks 8)) as Hall by (apply (bool_decide_eq_true_1 _); vm_compute; reflexivity).
  rewrite Forall_forall in Hall. constructor.
  - intros b Hb. by apply Hall.
  - intros b Hb. by apply Hall.
  - intros b a Hb Ha. destruct (Hall b Hb) as (_ & _ & Hg). rewrite Forall_forall in Hg. by apply Hg.
  - intros r b Hb. by apply genesis_map_ref in Hb as [? _].
Qed.

Lemma observer_network : same_network observer_context observer_context.
Proof. by vm_compute. Qed.

Lemma sample_events_ok blocks events :
  blocks ⊆ sample_blocks 8 -> node_events_ok sample_universe observer_context events ->
  node_events_ok sample_universe observer_context (AddBlocks blocks :: events).
Proof.
  intros Hsub He bs b [[= <-]|Hin]%elem_of_cons Hb; [|by apply (He bs)].
  split; [by apply Hsub|]. apply Hsub in Hb. revert b Hb. rewrite <- Forall_forall.
  apply (bool_decide_eq_true_1 _). vm_compute. reflexivity.
Qed.

Lemma sample_events_flush events :
  node_events_ok sample_universe observer_context events ->
  node_events_ok sample_universe observer_context (Flush :: events).
Proof. intros He bs b [[=]|Hin]%elem_of_cons Hb. by apply (He bs). Qed.

Lemma sample_events_nil : node_events_ok sample_universe observer_context [].
Proof. intros bs b Hin. inversion Hin. Qed.

Lemma events_in_order_ok : node_events_ok sample_universe observer_context events_in_order.
Proof.
  apply sample_events_ok; [apply sample_blocks_mono; lia|].
  apply sample_events_flush, sample_events_ok, sample_events_nil. apply sample_blocks_mono. lia.
Qed.

Lemma events_reversed_ok : node_events_ok sample_universe observer_context events_reversed.
Proof.
  apply sample_events_ok; [intros x; by rewrite elem_of_reverse|]. apply sample_events_flush, sample_events_nil.
Qed.

Definition sample_run (events : list node_event) : outcome (Core Empty_set MemStore) :=
  observer_run no_bytes no_commit_bytes hash_7 observer_context events.

(** The leaders of the commits of the two runs: the first authority is the
    leader of every round, and missed the second. *)
Example sample_run_leaders :
  let leaders events := (fun self => sd_leader <$> fh_sent (co_handle self)) <$> sample_run events in
  leaders events_in_order = Ok [sample_ref 1 0; sample_ref 3 0; sample_ref 4 0]
  /\ leaders events_reversed
     = Ok [sample_ref 1 0; sample_ref 3 0; sample_ref 4 0; sample_ref 5 0; sample_ref 6 0].
Proof. vm_compute. done. Qed.

Lemma observer_follows_sequence_witness :
  exists self ds,
    sample_run events_in_order = Ok self
    /\ sequence no_commit_bytes hash_7 observer_context sample_universe
         (genesis_map no_bytes hash_7 observer_context) (S := MemStore) ds (fh_sent (co_handle self))
         (ds_last_commit (co_dag self))
    /\ s_round (co_last_decided_leader self) = N.of_nat (length ds)
    /\ dag_inv (co_dag self) /\ persist_inv (co_dag self) /\ bm_inv (co_dag self) (co_block_manager self).
Proof.
  exact (observer_follows_sequence no_bytes no_commit_bytes hash_7 observer_context observer_context ∅
    sample_universe events_in_order observer_config_ok sample_universe_honest sample_universe_sound
    observer_network events_in_order_ok).
Defined.

Lemma observers_agree_witness :
  exists self1 self2,
    sample_run events_in_order = Ok self1 /\ sample_run events_reversed = Ok self2
    /\ (fh_sent (co_handle self1) `prefix_of` fh_sent (co_handle self2)
        \/ fh_sent (co_handle self2) `prefix_of` fh_sent (co_handle self1)).
Proof.
  exact (observers_agree no_bytes no_commit_bytes hash_7 observer_context observer_context observer_context ∅
    sample_universe events_in_order events_reversed observer_config_ok sample_universe_honest
    sample_universe_sound observer_network events_in_order_ok observer_network events_reversed_ok).
Defined.
