(* ===== verification/ValidatorInv.v ===== *)
(** * The invariant of a validator

    A validator knows the blocks that it received and the blocks that it made.
    Its invariant is that of a node for this set of blocks, together with what
    its next proposal relies on: the state of its proposer, its last own block
    and its votes on the blocks it knows. *)

From S2P Require Import Prelude Committee Context Block StakeAggregator ThresholdClock Commit Error RoundTracker Store LeaderScoring Ancestor TransactionConsumer DagState VoteTracker DagInv Evolve DagOps DagLink DagAccept DagInclude Linearizer CommitObserver LinearizerSpec LinearizerOps BlockManager BlockManagerInv BlockManagerDag BlockManagerOps BlockManagerTheorems LeaderSchedule ScheduleRun BlockVerifier BaseCommitter UniversalCommitter CommitRule Agreement TryDecide Core CommitSequence CommitBatch ValidatorProposer ProposerAncestors ProposerBlock CoreInv CoreTurn CoreTheorems.

(* ------------------------------------------------------------------ *)
(** ** Larger universes *)

Section growth.
Context {RN : Rng} {RL : RngLaws} {P S : Type} {ST : Store S} {SL : StoreLaws S} {PR : Proposer P S}.
Context (bcs_commit : Commit -> list byte) (default_hash : list byte -> N).
Context (ctx : Context) (gen : gmap BlockRef VerifiedBlock) (own : N).
Context (univ univ' : VerifiedBlock -> Prop) (Hsub : forall b, univ b -> univ' b).
Implicit Types s : DagState S.

Lemma dag_ok_mono s : dag_ok ctx univ gen s -> dag_ok ctx univ' gen s.
Proof. intros []. constructor; try done. intros r b Hb. destruct (do_univ r b Hb); [by left|right; auto]. Qed.

Lemma decides_mono leader r st :
  decides ctx univ (S := S) leader r st -> decides ctx univ' (S := S) leader r st.
Proof.
  intros (s & L & [] & Hg & D & E). exists s, L. split_and!; try done. constructor; try done. intros x b Hx. apply Hsub. by eapply gv_univ.
Qed.

Lemma sequence_mono ds log last :
  sequence bcs_commit default_hash ctx univ gen (S := S) ds log last ->
  sequence bcs_commit default_hash ctx univ' gen (S := S) ds log last.
Proof.
  induction 1 as [|ds log last sc table sl _ IH F D|ds log last sc table b sd last' _ IH F D C].
  - constructor.
  - econstructor; [done|done|]. by apply decides_mono.
  - econstructor; [done|done|by apply decides_mono|]. destruct C as (s & s' & sd0 & H1 & ?).
    exists s, s', sd0. split; [by apply dag_ok_mono|done].
Qed.

Lemma core_ok_mono (self : Core P S) ds log :
  core_ok bcs_commit default_hash ctx univ gen own self ds log ->
  core_ok bcs_commit default_hash ctx univ' gen own self ds log.
Proof.
  intros []. constructor; try done; [by apply dag_ok_mono|by apply sequence_mono|by auto].
Qed.
End growth.

(* ------------------------------------------------------------------ *)
(** ** Own blocks pass verification *)

Lemma transactions_data_spec (b : Block) : transactions_data b = data <$> transactions b.
Proof. by destruct b. Qed.

Lemma taken_bytes (taken : list TransactionsGuard) :
  sum_N (byte_len <$> (data <$> (taken ≫= tg_transactions))) = sum_N (bundle_bytes <$> taken).
Proof.
  induction taken as [|t taken IH]; [done|].
  cbn [mbind list_bind]. rewrite !fmap_app, sum_N_app. cbn [fmap list_fmap sum_N foldr]. f_equal; [|exact IH].
  unfold bundle_bytes, byte_len. by rewrite <- list_fmap_compose.
Qed.

(** What the consumer hands out respects the limits that verifiers check. *)
Lemma next_within context cn (v : SignedBlockVerifier) :
  limits_ok context -> pool_inv context cn -> protocol_config (sv_context v) = protocol_config context ->
  transactions_ok v (data <$> (consumer_next cn).1.1.2).
Proof.
  intros Hlim Hpool Hpc. destruct (consumer_next_Ok context Hlim cn (pv_bytes _ _ Hpool) (pv_num _ _ Hpool) (pv_fits _ _ Hpool))
    as (cn' & txs & acks & limit & taken & -> & Hw & _ & -> & _ & Hn & Hb & _). cbn [fst snd].
  pose proof (pv_sizes _ _ Hpool) as Hsz. rewrite Hw in Hsz. apply Forall_app in Hsz as [Hsz _].
  unfold transactions_ok. rewrite Hpc. split_and!.
  - apply Forall_fmap, Forall_forall. intros x (t & Hx & Ht)%list_elem_of_bind. rewrite Forall_forall in Hsz.
    specialize (Hsz t Ht). unfold sized in Hsz. rewrite Forall_forall in Hsz. right. by apply Hsz.
  - right. by rewrite length_fmap.
  - right. by rewrite taken_bytes.
Qed.

(** The bytes handed out are counted in 64 bits. *)
Lemma next_bytes context cn :
  limits_ok context -> pool_inv context cn -> sum_N (byte_len <$> (data <$> (consumer_next cn).1.1.2)) <= u64_MAX.
Proof.
  intros Hlim Hpool. destruct (consumer_next_Ok context Hlim cn (pv_bytes _ _ Hpool) (pv_num _ _ Hpool) (pv_fits _ _ Hpool))
    as (cn' & txs & acks & limit & taken & -> & _ & _ & -> & _ & _ & Hb & _). cbn [fst snd].
  pose proof (lo_bytes _ Hlim). rewrite taken_bytes. lia.
Qed.

Section peers.
Context {CR : Crypto} {CL : CryptoLaws} {S : Type} {ST : Store S} {SL : StoreLaws S}.
Context (bcs_to_bytes : SignedBlock -> list byte) (default_hash : list byte -> N).

(** A block that was made on chosen ancestors is valid for every verifier of the
    network. *)
Lemma made_valid (s : DagState S) own_last inc p anc votes log b s' (v : SignedBlockVerifier) au :
  dag_inv s -> own_tip s own_last -> ancestors_ok s own_last inc anc ->
  made bcs_to_bytes default_hash s p anc votes log b s' ->
  pool_inv (ds_context s) (vp_transaction_consumer p) -> limits_ok (ds_context s) ->
  committee_authority (ds_committee s) (own_index (ds_context s)) = Ok au ->
  a_protocol_key au = public_key (vp_block_signer p) ->
  committee (sv_context v) = ds_committee s -> protocol_config (sv_context v) = protocol_config (ds_context s) ->
  (forall r x, ds_genesis s !! r = Some x -> r ∈ sv_genesis v) ->
  valid_block v (vb_block b).
Proof.
  intros Hs Hown [(rest & -> & _) Hnd Hus _] Hm Hpool Hlim Hau Hkey Hc Hpc Hgen.
  pose proof (md_wf _ _ _ _ _ _ _ _ _ Hm) as Hwf. pose proof (md_author _ _ _ _ _ _ _ _ _ Hm) as Ha.
  pose proof (md_round _ _ _ _ _ _ _ _ _ Hm) as Hr. pose proof (md_ancestors _ _ _ _ _ _ _ _ _ Hm) as Hanc.
  assert (forall i x, (own_last :: rest) !! i = Some x -> i = 0%nat <-> author x = author b) as Hfirst.
  { intros i x Hi. rewrite Ha, <- (ot_author _ _ Hown). split; [intros ->; by injection Hi as <-|].
    intros E. rewrite NoDup_alt in Hnd. apply (Hnd i 0%nat (author own_last)); [|done].
    by rewrite list_lookup_fmap, Hi, <- E. }
  constructor; rewrite ?Hc.
  - apply (md_epoch _ _ _ _ _ _ _ _ _ Hm).
  - apply (wb_round _ _ Hwf).
  - apply (wb_author _ _ Hwf).
  - eapply (signed_block_verifies (inner (vb_block b)) (vp_block_signer p) (sv_context v) au); rewrite ?Hc; try done.
    + apply (wb_author _ _ Hwf).
    + change (author (inner (vb_block b))) with (author b). by rewrite Ha.
    + apply (md_signed _ _ _ _ _ _ _ _ _ Hm).
  - intros i a Hi. change (ancestors (inner (vb_block b))) with (ancestors b) in Hi. rewrite Hanc, list_lookup_fmap in Hi.
    apply fmap_Some in Hi as (x & Hx & ->). destruct (Hus x (list_elem_of_lookup_2 _ _ _ Hx)) as (Hlt & Hv & Hin).
    split_and!; [by rewrite Hc|by apply Hfirst|by change (round (inner (vb_block b))) with (round b); rewrite Hr|].
    intros Hz. destruct Hin as [Hview|Hg]; [|by eapply Hgen]. pose proof (view_round s _ _ Hs Hview). unfold GENESIS_ROUND in Hz. lia.
  - apply (wb_distinct _ _ Hwf).
  - apply N.leb_le, (wb_quorum _ _ Hwf).
  - rewrite transactions_data_spec. change (transactions (inner (vb_block b))) with (transactions b).
    rewrite (md_transactions _ _ _ _ _ _ _ _ _ Hm). by apply (next_within (ds_context s)).
Qed.
End peers.

(* ------------------------------------------------------------------ *)
(** ** The invariant *)

Section validator.
Context {RN : Rng} {RL : RngLaws} {CR : Crypto} {CL : CryptoLaws} {S : Type} {ST : Store S} {SL : StoreLaws S}.
Context (bcs_to_bytes : SignedBlock -> list byte) (bcs_commit : Commit -> list byte) (default_hash : list byte -> N).
#[local] Instance validator_impl : Proposer ValidatorProposer S := validator_proposer_impl bcs_to_bytes default_hash.

Context (ctx : Context) (Hctx : config_ok ctx) (byz : gset N) (univ : VerifiedBlock -> Prop).
Notation c := (committee ctx).
Notation gen := (genesis_map bcs_to_bytes default_hash ctx).
Context (Hu : honest_universe c byz univ) (Hsu : sound_universe c gen univ).
Context (Hrounds : forall b, univ b -> round b + 4 < u32_MAX).
Context (Hsingle : single_free ctx) (Hsign : signing_ok default_hash).
Context (context : Context) (Hnet : same_network ctx context) (Hlim : limits_ok context).
Notation own := (own_index context).
Context (key : key_pair) (au : Authority) (Hau : committee_authority c own = Ok au) (Hkey : a_protocol_key au = public_key key).
Context (Hval : is_valid_index c own = true).
Notation voting := (transaction_voting_enabled (protocol_config context)).
Implicit Types (self : Core ValidatorProposer S) (K : list VerifiedBlock).

(** The blocks that the node has broadcast. *)
Definition own_blocks self : list VerifiedBlock := eb_block <$> sg_blocks (co_signals self).

(** The verifier of any node of the network. *)
Definition peer_verifier (peer : Context) : SignedBlockVerifier := signed_block_verifier_new bcs_to_bytes default_hash peer.

Record own_block_ok (b : VerifiedBlock) : Prop := {
  ob_author : author b = own;
  ob_wf : wf_block c b;
  ob_round : round b + 3 < u32_MAX;
  ob_genesis : forall a, a ∈ ancestors b -> br_round a = 0 -> is_Some (gen !! a);
  ob_valid : forall peer, same_network ctx peer -> valid_block (peer_verifier peer) (vb_block b);
  ob_bytes : sum_N (byte_len <$> transactions_data (inner (vb_block b))) <= u64_MAX;
  ob_encoded : b = verified_block_new_verified default_hash (vb_block b) (bcs_to_bytes (vb_block b));
}.

(** Each own block builds on the one before, the first on the genesis block. *)
Definition own_chain (blocks : list VerifiedBlock) : Prop :=
  forall i b, blocks !! i = Some b ->
    exists prev, head (ancestors b) = Some (reference prev) /\ round prev < round b
      /\ match i with O => gen !! reference prev = Some prev | Datatypes.S i => blocks !! i = Some prev end.

(** A reference that is made up: no valid block has it. *)
Definition made_up (a : BlockRef) : Prop :=
  forall sb, valid_block (peer_verifier context) sb -> reference (verified_block_new_verified default_hash sb (bcs_to_bytes sb)) <> a.

(** A reference in the name of the node: up to its last block, or made up. *)
Definition own_ref_ok (last : VerifiedBlock) (a : BlockRef) : Prop := br_round a <= round last \/ made_up a.

(** The node knows the blocks [K], and voted on those of [voted]. *)
Record node_ok self (K : list VerifiedBlock) (voted : list (VerifiedBlock * list N)) (last : VerifiedBlock)
    (p : ValidatorProposer) ds log : Prop := {
  nk_core : core_ok bcs_commit default_hash ctx (fun b => b ∈ K) gen own self ds log;
  nk_context : co_context self = context;
  nk_known : forall b, b ∈ K -> (univ b /\ author b <> own) \/ b ∈ own_blocks self;
  nk_own : forall b, b ∈ own_blocks self -> b ∈ K /\ own_block_ok b /\ round b <= round last;
  nk_sorted : StronglySorted (fun x y => round x < round y) (own_blocks self);
  nk_chain : own_chain (own_blocks self);
  nk_subscribed : sg_subscribed (co_signals self) = true;
  nk_tip : own_tip (co_dag self) last;
  nk_last : match list.last (own_blocks self) with Some b => b = last | None => gen !! reference last = Some last end;
  nk_proposer : co_proposer self = Some p;
  nk_proposer_ok : proposer_ok context p (round last);
  nk_key : vp_block_signer p = key;
  nk_cached : forall b, b ∈ own_blocks self -> gc_round (co_dag self) < round b -> view (co_dag self) (reference b) = Some b;
  nk_causal : forall x a, x ∈ K -> a ∈ ancestors x -> br_author a = own -> own_ref_ok last a;
  nk_missing : forall a, is_Some (bm_missing_ancestors (co_block_manager self) !! a) -> br_author a = own -> own_ref_ok last a;
  nk_votes : voting = true -> votes_known context (fun r => exists b, b ∈ K /\ reference b = r) (co_votes self) voted;
}.

Lemma sorted_rounds (l : list VerifiedBlock) x y :
  StronglySorted (fun x y => round x < round y) l -> x ∈ l -> y ∈ l -> round x = round y -> x = y.
Proof using.
  clear. induction l as [|b l IH]; intros Hs Hx Hy E; [by apply elem_of_nil in Hx|].
  apply StronglySorted_inv in Hs as [Hs Hall]. rewrite Forall_forall in Hall.
  apply elem_of_cons in Hx as [->|Hx], Hy as [->|Hy]; [done| | |by apply IH].
  - specialize (Hall y Hy). lia.
  - specialize (Hall x Hx). lia.
Qed.

(** The blocks that a node knows form a universe as good as that of the others. *)
Lemma known_universe (K owns : list VerifiedBlock) :
  (forall b, b ∈ K -> (univ b /\ author b <> own) \/ b ∈ owns) ->
  (forall b, b ∈ owns -> own_block_ok b) -> StronglySorted (fun x y => round x < round y) owns ->
  honest_universe c byz (fun b => b ∈ K) /\ sound_universe c gen (fun b => b ∈ K).
Proof using Hu Hsu.
  clear Hrounds. intros HK Hown Hsort.
  assert (forall x y, x ∈ K -> y ∈ K -> author x = author y -> round x = round y ->
    (univ x -> univ y -> x = y) -> x = y) as Hmix.
  { intros x y Hx Hy Ea Er Hxy.
    destruct (HK x Hx) as [[Ux Nx]|Ox], (HK y Hy) as [[Uy Ny]|Oy]; [by apply Hxy| | |by apply (sorted_rounds owns)].
    - exfalso. apply Nx. rewrite Ea. apply (ob_author _ (Hown y Oy)).
    - exfalso. apply Ny. rewrite <- Ea. apply (ob_author _ (Hown x Ox)). }
  split; constructor.
  - apply Hu.
  - apply Hu.
  - intros x y Hx Hy E. pose proof E as [= Er Ea _]. apply Hmix; try done. intros Ux Uy. by apply (hu_ref _ _ _ Hu).
  - intros x y Hx Hy Ea Er Hb. apply Hmix; try done. intros Ux Uy. by apply (hu_honest _ _ _ Hu).
  - intros b Hb. destruct (HK b Hb) as [[Ub _]|Ob]; [by apply (su_wf _ _ _ Hsu)|by apply Hown].
  - intros b Hb. destruct (HK b Hb) as [[Ub _]|Ob]; [by apply (su_round _ _ _ Hsu)|by apply Hown].
  - intros b a Hb. destruct (HK b Hb) as [[Ub _]|Ob]; [by apply (su_genesis _ _ _ Hsu)|by apply Hown].
  - apply Hsu.
Qed.

Lemma node_universe self K voted last p ds log :
  node_ok self K voted last p ds log ->
  honest_universe c byz (fun b => b ∈ K) /\ sound_universe c gen (fun b => b ∈ K).
Proof using Hu Hsu.
  intros N. apply (known_universe K (own_blocks self)); [apply N| |apply N]. intros b Hb. by apply (nk_own _ _ _ _ _ _ _ N).
Qed.

(* ------------------------------------------------------------------ *)
(** ** Steps that do not make a block *)

Lemma node_genesis s : dag_ok ctx univ gen s -> genesis_ordered s.
Proof using.
  clear. intros D. unfold genesis_ordered. rewrite (dag_ok_committee _ _ _ _ D), (do_genesis _ _ _ _ D). apply genesis_map_sorted.
Qed.

Lemma genesis_unique x y : gen !! reference x = Some x -> gen !! reference y = Some y -> author x = author y -> x = y.
Proof using. clear. intros [Hx _]%genesis_map_block [Hy _]%genesis_map_block. by apply genesis_block_author with (1 := Hx). Qed.

(** The last own block stays cached. *)
Lemma tip_kept (K owns : list VerifiedBlock) s s' last :
  dag_ok ctx (fun b => b ∈ K) gen s' -> keeps s s' -> own_tip s last -> own_index (ds_context s) = own ->
  ds_genesis s = gen ->
  (forall b, b ∈ K -> author b = own -> b ∈ owns) -> (forall b, b ∈ owns -> round b <= round last) ->
  StronglySorted (fun x y => round x < round y) owns -> (view s (reference last) = Some last -> last ∈ owns) ->
  own_tip s' last.
Proof using Hval.
  clear Hrounds. intros D Hk Hown Ho Hg HK Hle Hsort Hin. pose proof (do_inv _ _ _ _ D) as I.
  pose proof (kp_context _ _ Hk) as Hc. rewrite <- Hc in Ho.
  assert (forall r b, view s' r = Some b -> b ∈ K) as Hview by (intros r b; apply (dag_ok_view _ _ _ s' D)).
  destruct (own_tip_Ok s' I) as [last' T'].
  { unfold is_validator. rewrite Ho. change (is_valid_index (ds_committee s') own = true).
    by rewrite (dag_ok_committee _ _ _ _ D). }
  enough (last' = last) as <- by done. pose proof (ot_author _ _ T') as Ha'. pose proof (ot_author _ _ Hown) as Ha.
  rewrite Ho in Ha'. rewrite <- Hc, Ho in Ha.
  assert (view s' (reference last') = Some last' -> last' ∈ owns) as Hin'.
  { intros Hv. apply HK; [by apply (Hview (reference last'))|done]. }
  destruct (ot_block _ _ Hown) as [Hv|Hg'].
  - assert (is_Some (view s' (reference last))) as Hl.
    { destruct (kp_tip _ _ Hk (reference last)) as [?|(r & [b Hb] & Hra & Hlt)]; [by eexists|done|]. exfalso.
      destruct (di_wf s' I _ _ Hb) as [<- _]. assert (b ∈ owns) as Hbo by (apply HK; [by apply (Hview (reference b))|by rewrite <- Ha]).
      specialize (Hle b Hbo). simpl in Hlt. lia. }
    assert (round last <= round last') as Hle1 by (apply (ot_max _ _ T' (reference last)); [done|by rewrite Ho]).
    destruct (ot_block _ _ T') as [Hv'|Hg''].
    + apply (sorted_rounds owns); [done|by apply Hin'|by apply Hin|]. specialize (Hle last' (Hin' Hv')). lia.
    + destruct (di_genesis_ref s' I _ _ Hg'') as [_ Hz]. destruct Hl as [b Hb].
      pose proof (view_round s' _ _ I Hb) as Hpos. simpl in Hz, Hpos. lia.
  - destruct (ot_block _ _ T') as [Hv'|Hg''].
    + exfalso. specialize (Hle last' (Hin' Hv')). rewrite Hg in Hg'. apply genesis_map_ref in Hg' as [_ Hz].
      pose proof (view_round s' _ _ I Hv') as Hpos. simpl in Hz, Hpos. lia.
    + rewrite Hg in Hg'. rewrite (do_genesis _ _ _ _ D) in Hg''. apply genesis_unique; [done|done|congruence].
Qed.

Lemma tuned_ok p p' last :
  proposer_ok context p last -> tuned ctx p p' ->
  proposer_ok context p' last /\ vp_block_signer p' = vp_block_signer p.
Proof using Hnet.
  clear Hrounds. intros Hp. induction 1 as [p|p p' scores _ IH Hlen|p p' refs gc _ IH]; [done| |].
  - destruct (IH Hp) as [[] ?]. split; [|done]. constructor; try done. destruct po_manager as (Hm & ? & ?).
    split_and!; [by destruct Hm; constructor|done|]. cbn. by rewrite (proj1 (proj1 Hnet)).
  - destruct (IH Hp) as [[] ?]. split; [|done]. constructor; try done. by apply notify_status_Ok.
Qed.

Lemma own_blocks_same self self' :
  own_signals (co_signals self') = own_signals (co_signals self) ->
  own_blocks self' = own_blocks self /\ sg_subscribed (co_signals self') = sg_subscribed (co_signals self).
Proof using. clear. unfold own_signals, own_blocks. by intros [= -> ->]. Qed.

(** Committing and accepting blocks. *)
Lemma moved_node self self' K voted last p ds log ds' log' :
  node_ok self K voted last p ds log ->
  core_ok bcs_commit default_hash ctx (fun b => b ∈ K) gen own self' ds' log' -> moved ctx (fun b => b ∈ K) self self' ->
  exists p', node_ok self' K voted last p' ds' log'.
Proof using Hnet Hval.
  clear Hrounds. intros N K' [Hsig Hv Hp Hk Hmis]. destruct (own_blocks_same _ _ Hsig) as [Eown Esub].
  pose proof (ck_dag _ _ _ _ _ _ _ _ _ K') as D'. pose proof (ck_dag _ _ _ _ _ _ _ _ _ (nk_core _ _ _ _ _ _ _ N)) as D.
  assert (co_context self' = context) as Hc'.
  { rewrite (ck_context _ _ _ _ _ _ _ _ _ K'), (kp_context _ _ Hk), <- (ck_context _ _ _ _ _ _ _ _ _ (nk_core _ _ _ _ _ _ _ N)).
    apply (nk_context _ _ _ _ _ _ _ N). }
  assert (exists p', co_proposer self' = Some p' /\ tuned ctx p p') as (p' & Ep' & Ht).
  { rewrite (nk_proposer _ _ _ _ _ _ _ N) in Hp. inversion Hp as [? p' Ht|]. by exists p'. }
  destruct (tuned_ok p p' _ (nk_proposer_ok _ _ _ _ _ _ _ N) Ht) as [Hpo Hsg].
  exists p'. constructor; rewrite ?Eown, ?Esub; try apply N; try done.
  - apply (tip_kept K (own_blocks self) (co_dag self)); [done|done|apply N| | | | |apply N|].
    + rewrite <- (ck_context _ _ _ _ _ _ _ _ _ (nk_core _ _ _ _ _ _ _ N)). by rewrite (nk_context _ _ _ _ _ _ _ N).
    + apply (do_genesis _ _ _ _ D).
    + intros b Hb Ha. destruct (nk_known _ _ _ _ _ _ _ N b Hb) as [[_ ?]|?]; done.
    + intros b Hb. by apply (nk_own _ _ _ _ _ _ _ N).
    + intros Hview. destruct (nk_known _ _ _ _ _ _ _ N last) as [[_ Hne]|?]; [by apply (gv_univ _ _ _ (dag_ok_view _ _ _ _ D) (reference last))| |done].
      exfalso. apply Hne. rewrite (ot_author _ _ (nk_tip _ _ _ _ _ _ _ N)), <- (ck_context _ _ _ _ _ _ _ _ _ (nk_core _ _ _ _ _ _ _ N)).
      by rewrite (nk_context _ _ _ _ _ _ _ N).
  - rewrite Hsg. apply (nk_key _ _ _ _ _ _ _ N).
  - intros b Hb Hgc. apply (kp_view _ _ Hk); [done|]. apply (nk_cached _ _ _ _ _ _ _ N); [done|]. pose proof (kp_gc _ _ Hk). lia.
  - intros a [?|(x & ? & ?)]%Hmis Ha; [by apply (nk_missing _ _ _ _ _ _ _ N)|by apply (nk_causal _ _ _ _ _ _ _ N x)].
  - rewrite Hv. apply (nk_votes _ _ _ _ _ _ _ N).
Qed.

(* ------------------------------------------------------------------ *)
(** ** Proposing *)

Lemma node_config : config_ok context.
Proof using Hctx Hnet.
  clear Hrounds. destruct Hnet as ([Hc Hp] & _). destruct Hctx. constructor; unfold committee_size in *; by rewrite ?Hc, ?Hp.
Qed.

(** The clock is at most one past a block of another authority. *)
Lemma clock_bound self K voted last p ds log :
  node_ok self K voted last p ds log -> tc_round (ds_threshold_clock (co_dag self)) + 3 < u32_MAX.
Proof using Hrounds Hsingle Hctx.
  intros N. pose proof (nk_core _ _ _ _ _ _ _ N) as C. pose proof (ck_dag _ _ _ _ _ _ _ _ _ C) as D.
  pose proof (ck_live _ _ _ _ _ _ _ _ _ C Hsingle) as L. set (R := tc_round _) in *.
  destruct (N.le_gt_cases R 1) as [Hle|Hgt]; [unfold u32_MAX; lia|].
  pose proof (lv_quorum _ L Hgt) as Hq. rewrite (dag_ok_committee _ _ _ _ D) in Hq. fold R in Hq.
  assert (exists a, a ∈ cached_authors (co_dag self) (R - 1) /\ a <> own) as (a & Ha & Hne).
  { destruct (set_choose_or_empty (cached_authors (co_dag self) (R - 1) ∖ {[own]})) as [[a Ha]|He].
    - exists a. apply elem_of_difference in Ha as [Ha Hn]. split; [done|]. intros ->. by apply Hn, elem_of_singleton.
    - assert (cached_authors (co_dag self) (R - 1) ⊆ {[own]}) as Hsub.
      { clear - He. intros a Ha. apply elem_of_singleton. destruct (decide (a = own)) as [|Hne]; [done|]. exfalso.
        apply (not_elem_of_empty (C := gset N) a), (He a), elem_of_difference. by rewrite elem_of_singleton. }
      pose proof (quorum_mono _ _ _ Hsub Hq) as Hown. by rewrite (Hsingle own) in Hown. }
  apply elem_of_cached_authors in Ha as (x & [b Hb] & Hr & Hxa).
  pose proof (gv_univ _ _ _ (dag_ok_view _ _ _ _ D) x b Hb) as HbK. destruct (di_wf _ (do_inv _ _ _ _ D) _ _ Hb) as [<- _].
  destruct (nk_known _ _ _ _ _ _ _ N b HbK) as [[Hub _]|Hob].
  - specialize (Hrounds b Hub). simpl in Hr. lia.
  - exfalso. apply Hne. rewrite <- Hxa. apply (nk_own _ _ _ _ _ _ _ N b Hob).
Qed.

Lemma several_authorities : 1 <? committee_size c = true.
Proof using Hctx Hsingle.
  clear Hrounds. apply N.ltb_lt. pose proof (cf_committee _ Hctx) as W. destruct (N.lt_ge_cases 1 (committee_size c)) as [|Hle]; [done|].
  exfalso. specialize (Hsingle 0). unfold reached_quorum in Hsingle. apply N.leb_gt in Hsingle.
  pose proof (wf_quorum_le _ W) as Hq. rewrite (wf_total _ W) in Hq. rewrite stake_of_single in Hsingle.
  unfold stake_at, stakes, committee_size in *. destruct (c_authorities c) as [|a [|]]; simpl in *; lia.
Qed.

(** An own block does not disturb the block manager. *)
Lemma own_block_manager s bm b s' :
  dag_inv s' -> persist_inv s' -> bm_inv s bm -> grown s (eq b) s' -> author b = own_index (ds_context s) ->
  bm_missing_ancestors bm !! reference b = None -> bm_inv s' bm.
Proof using SL.
  clear. intros Hi Hp [W B A M X R] Hg Ha Hmiss. pose proof (gw_evolves _ _ _ Hg) as Ev. pose proof (el_context _ _ Ev) as Hc.
  pose proof (evolves_gc _ _ Ev) as Hgc.
  assert (forall r, dag_block s r = None -> r <> reference b -> dag_block s' r = None) as Hnone.
  { intros r Hr Hne. destruct (dag_block s' r) as [x|] eqn:E; [|done]. exfalso.
    pose proof (dag_block_reference s' r x Hi (fun y z H => proj1 (pi_store _ Hp y z H)) E) as Href.
    destruct (gw_blocks _ _ _ Hg r x E) as [?|<-]; congruence. }
  constructor; unfold ds_committee in *; rewrite ?Hc; try done.
  - intros r sb Hr. destruct (B r sb Hr) as (? & Hne & ?). split_and!; [done|done|]. apply Hnone; [done|].
    intros ->. destruct (bw_block _ W _ _ Hr) as (Href & _). apply Hne. injection Href as _ Hau _. by rewrite <- Ha.
  - intros r sb a Hr Hin Hlt. rewrite Hgc in Hlt. destruct (A r sb a Hr Hin Hlt) as [?|[x Hx]]; [by left|right].
    exists x. by apply (el_view _ _ Ev).
  - intros a Hin. destruct (M a Hin) as [? ?]. split; [done|]. apply Hnone; [done|]. intros ->. rewrite Hmiss in Hin. by destruct Hin.
Qed.

(** A block that the node has just made on its DAG. *)
Section own_block.
Context (self : Core ValidatorProposer S) (K : list VerifiedBlock) (voted : list (VerifiedBlock * list N)).
Context (last : VerifiedBlock) (p : ValidatorProposer) (ds : list LeaderStatus) (log : list CommittedSubDag).
Context (N : node_ok self K voted last p ds log).
Notation s := (co_dag self).
Notation R := (tc_round (ds_threshold_clock s)).
Context (anc : list VerifiedBlock) (b : VerifiedBlock) (s' : DagState S).
Context (Hanc : ancestors_ok s last (vp_last_included_ancestors p) anc).
Context (Hmade : made bcs_to_bytes default_hash s p anc (co_votes self) voted b s') (Hlt : round last < R).

Lemma node_context : ds_context s = context.
Proof using N. clear - N. rewrite <- (ck_context _ _ _ _ _ _ _ _ _ (nk_core _ _ _ _ _ _ _ N)). apply (nk_context _ _ _ _ _ _ _ N). Qed.

Lemma node_committee : ds_committee s = c.
Proof using N. clear - N. apply (dag_ok_committee _ _ _ _ (ck_dag _ _ _ _ _ _ _ _ _ (nk_core _ _ _ _ _ _ _ N))). Qed.

Lemma node_dag : dag_ok ctx (fun b => b ∈ K) gen s.
Proof using N. clear - N. apply (ck_dag _ _ _ _ _ _ _ _ _ (nk_core _ _ _ _ _ _ _ N)). Qed.

Lemma own_author : author b = own.
Proof using N Hmade. rewrite (md_author _ _ _ _ _ _ _ _ _ Hmade). by rewrite node_context. Qed.

Lemma own_ancestors a : a ∈ ancestors b -> exists x, a = reference x /\ x ∈ anc /\ usable s R x.
Proof using Hmade Hanc.
  rewrite (md_ancestors _ _ _ _ _ _ _ _ _ Hmade). intros (x & -> & Hx)%list_elem_of_fmap. exists x. split_and!; try done.
  by apply (ao_usable _ _ _ _ Hanc).
Qed.

Lemma made_own_ok : own_block_ok b.
Proof using All.
  pose proof (do_inv _ _ _ _ node_dag) as Hi. constructor.
  - apply own_author.
  - rewrite <- node_committee. apply (md_wf _ _ _ _ _ _ _ _ _ Hmade).
  - rewrite (md_round _ _ _ _ _ _ _ _ _ Hmade). apply (clock_bound _ _ _ _ _ _ _ N).
  - intros a (x & -> & _ & _ & _ & [Hx|Hx])%own_ancestors Hz.
    + pose proof (view_round _ _ _ Hi Hx). lia.
    + rewrite (do_genesis _ _ _ _ node_dag) in Hx. by eexists.
  - intros peer Hpeer. pose proof Hpeer as ([Hc Hp] & _). destruct Hnet as ([Hc' Hp'] & _).
    eapply (made_valid bcs_to_bytes default_hash s last _ p anc (co_votes self) voted b s' _ au); try done.
    + apply (nk_tip _ _ _ _ _ _ _ N).
    + rewrite node_context. apply (po_pool _ _ _ (nk_proposer_ok _ _ _ _ _ _ _ N)).
    + by rewrite node_context.
    + by rewrite node_committee, node_context.
    + by rewrite (nk_key _ _ _ _ _ _ _ N).
    + by rewrite node_committee.
    + simpl. by rewrite node_context, Hp, Hp'.
    + intros r x. rewrite (do_genesis _ _ _ _ node_dag), <- (genesis_map_network bcs_to_bytes default_hash ctx peer Hpeer).
      intros [Hx <-]%genesis_map_block. simpl. apply elem_of_list_to_set, list_elem_of_fmap. by exists x.
  - rewrite transactions_data_spec. change (transactions (inner (vb_block b))) with (transactions b).
    rewrite (md_transactions _ _ _ _ _ _ _ _ _ Hmade). apply (next_bytes context); [done|].
    apply (po_pool _ _ _ (nk_proposer_ok _ _ _ _ _ _ _ N)).
  - apply (md_digest _ _ _ _ _ _ _ _ _ Hmade).
Qed.

Notation K' := (K ++ [b]).

Lemma own_ref_new : bm_missing_ancestors (co_block_manager self) !! reference b = None.
Proof using All.
  pose proof own_author as Ha. pose proof (md_round _ _ _ _ _ _ _ _ _ Hmade) as Hr.
  destruct (bm_missing_ancestors (co_block_manager self) !! reference b) as [X|] eqn:E; [|done]. exfalso.
  destruct (nk_missing _ _ _ _ _ _ _ N (reference b)) as [Hle|Hup]; [by eexists|done|simpl in *; lia|].
  pose proof made_own_ok as Hok. apply (Hup (vb_block b)); [by apply (ob_valid _ Hok)|]. by rewrite <-(ob_encoded _ Hok).
Qed.

Lemma own_universe : sound_universe c gen (fun x => x ∈ K').
Proof using All.
  destruct (node_universe _ _ _ _ _ _ _ N) as [_ U]. constructor.
  - intros x [?| ->%list_elem_of_singleton]%elem_of_app; [by apply (su_wf _ _ _ U)|apply made_own_ok].
  - intros x [?| ->%list_elem_of_singleton]%elem_of_app; [by apply (su_round _ _ _ U)|apply made_own_ok].
  - intros x a [?| ->%list_elem_of_singleton]%elem_of_app; [by apply (su_genesis _ _ _ U)|apply made_own_ok].
  - apply U.
Qed.

Lemma own_core p' votes' signals :
  core_ok bcs_commit default_hash ctx (fun x => x ∈ K') gen own (set_signals (set_proposed self p' s' votes') signals) ds log.
Proof using All.
  assert (forall x, x ∈ K -> x ∈ K') as Hsub by (intros x Hx; apply elem_of_app; by left).
  pose proof (core_ok_mono bcs_commit default_hash ctx gen own _ _ Hsub self ds log (nk_core _ _ _ _ _ _ _ N)) as C.
  pose proof (md_grown _ _ _ _ _ _ _ _ _ Hmade) as Hg. pose proof (gw_evolves _ _ _ Hg) as Ev.
  pose proof (ck_dag _ _ _ _ _ _ _ _ _ C) as D. pose proof (md_inv _ _ _ _ _ _ _ _ _ Hmade) as Hi.
  pose proof (md_persist _ _ _ _ _ _ _ _ _ Hmade) as Hp.
  constructor; simpl; try apply C; try done; rewrite ?(el_last _ _ Ev), ?(el_scoring _ _ Ev).
  - rewrite (el_context _ _ Ev). apply (ck_context _ _ _ _ _ _ _ _ _ C).
  - apply (dag_ok_grown ctx _ gen own_universe s _ s' D Hg); [|done|done]. intros x <-. apply elem_of_app. right. by apply list_elem_of_singleton.
  - apply (logged_evolves ctx _ gen s _ _ _ D); try done. apply (ck_log _ _ _ _ _ _ _ _ _ C).
  - apply (ck_seq _ _ _ _ _ _ _ _ _ C).
  - unfold last_commit_round. rewrite (el_last _ _ Ev). apply (ck_below _ _ _ _ _ _ _ _ _ C).
  - etrans; [apply (ck_high _ _ _ _ _ _ _ _ _ C)|apply (gw_low _ _ _ Hg)].
  - apply (ck_schedule _ _ _ _ _ _ _ _ _ C).
  - apply (own_block_manager s _ b); try done; [apply (ck_manager _ _ _ _ _ _ _ _ _ C)| |apply own_ref_new].
    apply (md_author _ _ _ _ _ _ _ _ _ Hmade).
  - intros Hs. by apply (el_live _ _ Ev), (ck_live _ _ _ _ _ _ _ _ _ C).
  - apply (el_closed _ _ Ev), (ck_closed _ _ _ _ _ _ _ _ _ C).
Qed.

(** The new block is the last own one. *)
Lemma own_tip_new : own_tip s' b.
Proof using All.
  pose proof (md_inv _ _ _ _ _ _ _ _ _ Hmade) as Hi. pose proof (md_round _ _ _ _ _ _ _ _ _ Hmade) as Hr.
  pose proof (gw_evolves _ _ _ (md_grown _ _ _ _ _ _ _ _ _ Hmade)) as Ev. pose proof (el_context _ _ Ev) as Hc.
  rewrite node_context in Hc. pose proof own_author as Hb.
  pose proof (ck_dag _ _ _ _ _ _ _ _ _ (own_core p (co_votes self) (co_signals self))) as D'. simpl in D'.
  destruct (own_tip_Ok s' Hi) as [last' T'].
  { unfold is_validator. rewrite (f_equal own_index Hc). change (is_valid_index (ds_committee s') own = true).
    by rewrite (dag_ok_committee _ _ _ _ D'). }
  enough (last' = b) as <- by done.
  pose proof (ot_author _ _ T') as Ha'. rewrite Hc in Ha'.
  assert (is_Some (view s' (reference b))) as Hvb.
  { exists b. rewrite (md_view _ _ _ _ _ _ _ _ _ Hmade); [by rewrite decide_True|].
    simpl. rewrite Hr. apply (lv_gc _ (ck_live _ _ _ _ _ _ _ _ _ (nk_core _ _ _ _ _ _ _ N) Hsingle)). }
  assert (R <= round last') as Hle by (rewrite <- Hr; apply (ot_max _ _ T' (reference b)); [done|by rewrite Hc]).
  destruct (ot_block _ _ T') as [Hv|Hg].
  - pose proof (gv_univ _ _ _ (dag_ok_view _ _ _ _ D') (reference last') last' Hv) as Hin.
    apply elem_of_app in Hin as [Hin|?%list_elem_of_singleton]; [|done]. exfalso.
    destruct (nk_known _ _ _ _ _ _ _ N last' Hin) as [[_ ?]|Hown]; [done|].
    destruct (nk_own _ _ _ _ _ _ _ N last' Hown) as (_ & _ & ?). lia.
  - destruct (di_genesis_ref s' Hi _ _ Hg) as [_ Hz]. simpl in Hz. lia.
Qed.

Lemma own_votes_new votes' :
  own_voted s (co_votes self) votes' voted b ->
  exists voted', voting = true -> votes_known context (fun r => exists x, x ∈ K' /\ reference x = r) votes' voted'.
Proof using N.
  clear Hlt. intros Hov. destruct voting eqn:Ev; [|by exists []].
  unfold own_voted in Hov. rewrite node_context, Ev in Hov. destruct Hov as (Hc & Hgc & Htr).
  destruct (nk_votes _ _ _ _ _ _ _ N Ev) as (Hctx' & _ & Hk). eexists. intros _. split_and!; [by rewrite Hc|exact Htr|].
  rewrite Hgc. unfold log_voted. cbn [fst]. intros r (x & Hx & <-) Hlt'.
  assert (x ∈ K -> reference x ∈ reference <$> voted.*1) as Hold by (intros Hin; apply Hk; [by exists x|done]).
  apply elem_of_app in Hx as [Hx| ->%list_elem_of_singleton].
  - specialize (Hold Hx). destruct (_ || _); [done|]. rewrite refs_snoc. apply elem_of_app. by left.
  - simpl in Hlt'. rewrite (proj2 (N.leb_gt _ _)) by lia. cbn [orb]. clear Htr. case_bool_decide; [done|].
    rewrite refs_snoc. apply elem_of_app. right. by apply list_elem_of_singleton.
Qed.

Lemma own_chain_snoc : own_chain (own_blocks self ++ [b]).
Proof using All.
  intros i x Hi. apply lookup_app_Some in Hi as [Hi|[Hge Hi]].
  - destruct (nk_chain _ _ _ _ _ _ _ N i x Hi) as (prev & Hh & Hr & Hprev). exists prev. split_and!; try done.
    destruct i as [|i]; [done|]. by apply lookup_app_l_Some.
  - destruct (i - length (own_blocks self))%nat as [|k] eqn:Ei; [|done]. injection Hi as <-.
    assert (i = length (own_blocks self)) as -> by lia. exists last. split_and!.
    + rewrite (md_ancestors _ _ _ _ _ _ _ _ _ Hmade). by destruct (ao_head _ _ _ _ Hanc) as (rest & -> & _).
    + by rewrite (md_round _ _ _ _ _ _ _ _ _ Hmade).
    + pose proof (nk_last _ _ _ _ _ _ _ N) as Hl. destruct (own_blocks self) as [|y l] eqn:El using rev_ind; [done|].
      rewrite last_snoc in Hl. subst y. rewrite length_app, Nat.add_1_r. apply lookup_app_l_Some.
      by apply list_lookup_middle.
Qed.

Lemma own_ancestor x : x ∈ anc -> author x = own -> x = last.
Proof using N Hanc.
  clear Hlt Hmade. intros Hx Ha. pose proof (ao_authors _ _ _ _ Hanc) as Hnd. destruct (ao_head _ _ _ _ Hanc) as (rest & -> & _).
  apply elem_of_cons in Hx as [|Hx]; [done|]. exfalso. apply NoDup_cons in Hnd as [Hnot _]. apply Hnot.
  rewrite (ot_author _ _ (nk_tip _ _ _ _ _ _ _ N)), node_context, <- Ha. by apply list_elem_of_fmap_2.
Qed.

(** The state of the node after it sent the block out. *)
Lemma made_node eb p' votes' :
  eb_block eb = b -> own_voted s (co_votes self) votes' voted b -> proposer_ok context p' R ->
  vp_block_signer p' = key ->
  exists signals voted',
    signal_new_block (co_context self) (co_signals self) eb = Success signals
    /\ node_ok (set_signals (set_proposed self p' s' votes') (signal_new_accepted_block signals b)) K' voted' b p' ds log.
Proof using All.
  intros Eeb Hov Hpo Hk. pose proof (md_round _ _ _ _ _ _ _ _ _ Hmade) as Hr.
  destruct (own_votes_new votes' Hov) as [voted' Hv]. eexists _, voted'. split.
  { unfold signal_new_block. rewrite (nk_context _ _ _ _ _ _ _ N), (proj1 (proj1 Hnet)), several_authorities, Eeb, Hr.
    unfold GENESIS_ROUND. rewrite (proj2 (N.eqb_neq _ _)) by lia. by rewrite (nk_subscribed _ _ _ _ _ _ _ N). }
  set (self' := set_signals _ _).
  assert (own_blocks self' = own_blocks self ++ [b]) as Eo by (unfold own_blocks; simpl; by rewrite fmap_app, <- Eeb).
  assert (b ∈ own_blocks self ++ [b]) as Hb by (apply elem_of_app; right; by apply list_elem_of_singleton).
  constructor; rewrite ?Eo; try done.
  - apply own_core.
  - apply (nk_context _ _ _ _ _ _ _ N).
  - intros x [Hx| ->%list_elem_of_singleton]%elem_of_app; [|by right].
    destruct (nk_known _ _ _ _ _ _ _ N x Hx) as [?|?]; [by left|right]. apply elem_of_app. by left.
  - intros x [Hx| ->%list_elem_of_singleton]%elem_of_app.
    + destruct (nk_own _ _ _ _ _ _ _ N x Hx) as (? & ? & ?). split_and!; [apply elem_of_app; by left|done|lia].
    + split_and!; [|apply made_own_ok|lia]. apply elem_of_app. right. by apply list_elem_of_singleton.
  - apply StronglySorted_app_2; [|apply (nk_sorted _ _ _ _ _ _ _ N)|repeat constructor].
    intros x y Hx ->%list_elem_of_singleton. destruct (nk_own _ _ _ _ _ _ _ N x Hx) as (_ & _ & ?). lia.
  - apply own_chain_snoc.
  - apply own_tip_new.
  - by rewrite last_snoc.
  - by rewrite Hr.
  - intros x Hx Hgc. pose proof (md_grown _ _ _ _ _ _ _ _ _ Hmade) as Hg. change (co_dag self') with s' in *.
    rewrite (evolves_gc _ _ (gw_evolves _ _ _ Hg)) in Hgc. rewrite (md_view _ _ _ _ _ _ _ _ _ Hmade) by done.
    case_decide as Ex; [|apply (nk_cached _ _ _ _ _ _ _ N); [|done]].
    + apply elem_of_app in Hx as [Hx| ->%list_elem_of_singleton]; [|done]. destruct (nk_own _ _ _ _ _ _ _ N x Hx) as (_ & _ & ?).
      injection Ex as Ex _ _. simpl in Ex. lia.
    + by apply elem_of_app in Hx as [Hx| ->%list_elem_of_singleton].
  - intros x a [Hx| ->%list_elem_of_singleton]%elem_of_app Hin Ha.
    + destruct (nk_causal _ _ _ _ _ _ _ N x a Hx Hin Ha); [left; lia|by right].
    + destruct (own_ancestors a Hin) as (x & -> & Hx & _). rewrite (own_ancestor x Hx Ha). left. simpl. lia.
  - intros a Hin Ha. destruct (nk_missing _ _ _ _ _ _ _ N a Hin Ha); [left; lia|by right].
Qed.
End own_block.

(** The node knows the blocks of [K] at least. *)
Definition node self (K : list VerifiedBlock) : Prop := exists voted last p ds log, node_ok self K voted last p ds log.

(** A later state: more blocks known, more own blocks, more commits. *)
Record later self (K : list VerifiedBlock) self' (K' : list VerifiedBlock) : Prop := {
  lt_known : K `prefix_of` K';
  lt_own : own_blocks self `prefix_of` own_blocks self';
  lt_sent : fh_sent (co_handle self) `prefix_of` fh_sent (co_handle self');
}.

Lemma later_refl self K : later self K self K.
Proof using. by constructor. Qed.

Lemma later_trans self1 K1 self2 K2 self3 K3 :
  later self1 K1 self2 K2 -> later self2 K2 self3 K3 -> later self1 K1 self3 K3.
Proof using. intros [] []. constructor; by etrans. Qed.

Lemma node_sent self K voted last p ds log :
  node_ok self K voted last p ds log -> co_handle self = mkCommitFinalizerHandle true log.
Proof using. intros N. apply (ck_sent _ _ _ _ _ _ _ _ _ (nk_core _ _ _ _ _ _ _ N)). Qed.

Lemma moved_later self self' K voted last p ds log ds' new :
  node_ok self K voted last p ds log ->
  core_ok bcs_commit default_hash ctx (fun b => b ∈ K) gen own self' (ds ++ ds') (log ++ new) -> moved ctx (fun b => b ∈ K) self self' ->
  (exists p', node_ok self' K voted last p' (ds ++ ds') (log ++ new)) /\ later self K self' K.
Proof using Hnet Hval.
  intros N C M. split; [by apply (moved_node self _ _ _ _ p ds log)|]. destruct (own_blocks_same _ _ (mv_signals _ _ _ _ M)) as [Eo _].
  constructor; [done|by rewrite Eo|]. rewrite (node_sent _ _ _ _ _ _ _ N), (ck_sent _ _ _ _ _ _ _ _ _ C). simpl. by apply prefix_app_r.
Qed.

Lemma commit_node self K voted last p ds log :
  node_ok self K voted last p ds log ->
  exists self' new p' ds', try_commit bcs_commit default_hash self [] = Ok (self', Success new)
    /\ node_ok self' K voted last p' (ds ++ ds') (log ++ new) /\ later self K self' K.
Proof using Hctx Hu Hsu Hnet Hval RL.
  intros N. destruct (node_universe _ _ _ _ _ _ _ N) as [HK1 HK2].
  destruct (try_commit_Ok bcs_commit default_hash ctx Hctx byz _ gen own HK1 HK2 self ds log (nk_core _ _ _ _ _ _ _ N))
    as (self' & ds' & new & E & C & M).
  destruct (moved_later _ _ _ _ _ _ _ _ _ _ N C M) as [[p' N'] L]. by exists self', new, p', ds'.
Qed.

Lemma propose_block self K voted last p ds log force :
  node_ok self K voted last p ds log ->
  exists p' s' votes' o,
    validator_try_new_block bcs_to_bytes default_hash p (co_dag self) (co_votes self) (co_leader_schedule self) force = Ok (p', s', votes', o)
    /\ proposed bcs_to_bytes default_hash (co_dag self) last p p' (co_votes self) votes' voted s' force o.
Proof using Hctx Hrounds Hsingle Hsign Hnet RL.
  intros N. pose proof (clock_bound _ _ _ _ _ _ _ N) as HR. clear Hrounds.
  pose proof (nk_core _ _ _ _ _ _ _ N) as C. pose proof (node_dag _ _ _ _ _ _ _ N) as D. pose proof (node_context _ _ _ _ _ _ _ N) as Hc.
  destruct (on_schedule_wf bcs_commit default_hash ctx Hctx _ gen own self ds log _ C (ck_schedule _ _ _ _ _ _ _ _ _ C)) as [k W].
  apply try_new_block_Ok; try done.
  - apply (do_inv _ _ _ _ D).
  - apply (do_persist _ _ _ _ D).
  - apply (ck_live _ _ _ _ _ _ _ _ _ C Hsingle).
  - apply (ck_closed _ _ _ _ _ _ _ _ _ C).
  - rewrite Hc. apply node_config.
  - unfold genesis_ordered. rewrite (node_committee _ _ _ _ _ _ _ N), (do_genesis _ _ _ _ D). apply genesis_map_sorted.
  - intros r x. rewrite (do_genesis _ _ _ _ D). apply genesis_map_digest, Hsign.
  - apply (nk_tip _ _ _ _ _ _ _ N).
  - rewrite Hc. apply (nk_proposer_ok _ _ _ _ _ _ _ N).
  - rewrite (proj1 (ck_leaders _ _ _ _ _ _ _ _ _ C)). apply (ck_context _ _ _ _ _ _ _ _ _ C).
  - rewrite (node_committee _ _ _ _ _ _ _ N). apply (sw_usable _ _ _ _ W).
  - rewrite Hc. intros Hv. destruct (nk_votes _ _ _ _ _ _ _ N Hv) as (? & ? & Hk). split_and!; [done|done|].
    intros r [x Hx]. apply Hk. exists x. split; [by apply (gv_univ _ _ _ (dag_ok_view _ _ _ _ D) r)|].
    by apply (di_wf _ (do_inv _ _ _ _ D)).
Qed.

(** Nothing but the proposer and the signals for rounds change. *)
Lemma same_core self self' K ds log :
  co_context self' = co_context self -> co_block_manager self' = co_block_manager self ->
  co_last_decided_leader self' = co_last_decided_leader self -> co_leader_schedule self' = co_leader_schedule self ->
  co_handle self' = co_handle self -> co_dag self' = co_dag self ->
  core_ok bcs_commit default_hash ctx (fun b => b ∈ K) gen own self ds log ->
  core_ok bcs_commit default_hash ctx (fun b => b ∈ K) gen own self' ds log.
Proof using.
  clear. intros E1 E2 E3 E4 E5 E6 []. constructor; rewrite ?E1, ?E2, ?E3, ?E4, ?E5, ?E6; done.
Qed.

(** A new state of the proposer. *)
Lemma tune_node self K voted last p p' ds log :
  node_ok self K voted last p ds log -> proposer_ok context p' (round last) -> vp_block_signer p' = key ->
  node_ok (set_proposer self (Some p')) K voted last p' ds log.
Proof using.
  clear. intros N Hp Hk. constructor; try done; try apply N. by apply (same_core self), N.
Qed.

Lemma propose_node self K voted last p ds log force :
  node_ok self K voted last p ds log ->
  exists self' o K', try_propose bcs_commit default_hash self force = Ok (self', Success o)
    /\ node self' K' /\ later self K self' K'
    /\ match o with
       | Some _ => True
       | None => exists p', node_ok self' K voted last p' ds log /\ co_signals self' = co_signals self
           /\ (force = true -> validator_should_propose p' (co_dag self') = true -> 0 < round last)
       end.
Proof using All.
  intros N. destruct (propose_block _ _ _ _ _ _ _ force N) as (p' & s' & votes' & o & E & Hpr & Hkn & Hkey' & Hdel).
  pose proof (clock_positive _ (ck_live _ _ _ _ _ _ _ _ _ (nk_core _ _ _ _ _ _ _ N) Hsingle)) as Hpos.
  rewrite (node_context _ _ _ _ _ _ _ N) in Hpr. rewrite (nk_key _ _ _ _ _ _ _ N) in Hkey'. unfold try_propose.
  rewrite (nk_proposer _ _ _ _ _ _ _ N). cbn [try_new_block validator_impl validator_proposer_impl]. rewrite E.
  cbn [mbind outcome_bind]. destruct o as [eb|].
  - destruct Hpr as (Hlt & _ & (anc & Hanc & Hmade) & Hov & Hpo).
    destruct (made_node self K voted last p ds log N anc (eb_block eb) s' Hanc Hmade Hlt eb p' votes' eq_refl Hov Hpo Hkey')
      as (signals & voted' & Es & N1).
    cbn [co_context co_signals set_proposed]. rewrite Es.
    destruct (commit_node _ _ _ _ _ _ _ N1) as (self' & new & p2 & ds' & E2 & N2 & L2).
    unfold core_try. rewrite E2. cbn [mbind outcome_bind]. eexists self', (Some (eb_block eb)), _. split_and!; [done| | |done].
    + by eexists _, _, _, _, _.
    + eapply later_trans; [|exact L2]. constructor; [by eexists| |done]. unfold own_blocks. cbn.
      unfold signal_new_block in Es. destruct (1 <? _); [|by injection Es as <-]. destruct (_ =? _); [by injection Es as <-|].
      destruct (sg_subscribed _); [|done]. injection Es as <-. cbn. rewrite fmap_app. by eexists.
  - destruct Hpr as (-> & -> & Hpo & Hforce).
    assert (node_ok (set_proposed self p' (co_dag self) (co_votes self)) K voted last p' ds log) as N'.
    { change (set_proposed _ _ _ _) with (set_proposer self (Some p')). by apply (tune_node _ _ _ _ p). }
    eexists _, None, K. split_and!; [done|by eexists _, _, _, _, _|by constructor|]. exists p'. split_and!; [done|done|].
    cbn [co_dag set_proposed]. intros Hf Hs. enough (tc_round (ds_threshold_clock (co_dag self)) <= round last) by lia.
    apply (Hforce Hf). unfold validator_should_propose in *. rewrite Hkn, Hdel in Hs.
    by rewrite (po_context _ _ _ (nk_proposer_ok _ _ _ _ _ _ _ N)), <- (po_context _ _ _ Hpo).
Qed.

Lemma signal_node self K voted last p ds log :
  node_ok self K voted last p ds log ->
  node_ok (try_signal_new_round self) K voted last p ds log /\ later self K (try_signal_new_round self) K.
Proof using.
  clear. intros N. unfold try_signal_new_round. destruct (_ <=? _); [done|]. split; [|done].
  constructor; try apply N. by apply (same_core self), N.
Qed.

(* ------------------------------------------------------------------ *)
(** ** The operations of a node *)

(** The node has voted on a block, or no longer has to. *)
Definition voted_on (votes : VoteTrackerState) (b : VerifiedBlock) : Prop :=
  round b <= vt_gc_round votes \/ exists info, vt_votes votes !! reference b = Some info /\ is_Some (vi_block info).

(** References in the name of the node do not foretell its blocks. *)
Definition own_refs_ok self (refs : list BlockRef) : Prop :=
  forall last a, validator_last_proposed_block (co_dag self) = Ok last -> a ∈ refs -> br_author a = own -> own_ref_ok last a.

(** A block that the node may be given: of another authority, or one of its
    own that it sent out before. *)
Record receivable self (b : VerifiedBlock) : Prop := {
  rc_known : (univ b /\ author b <> own) \/ b ∈ own_blocks self;
  rc_voted : voting = true -> voted_on (co_votes self) b;
  rc_causal : own_refs_ok self (ancestors b);
}.

Lemma voted_on_log voted votes b :
  tracks_votes voted votes -> voted_on votes b -> vt_gc_round votes < round b -> reference b ∈ reference <$> voted.*1.
Proof using.
  clear. intros T [?|(info & Hi & x & Hx)] Hlt; [lia|]. pose proof (tv_block _ _ T _ _ Hi) as Hb. rewrite Hx in Hb.
  destruct Hb as [Hin <-]. apply list_elem_of_fmap_2. exact (list_elem_of_fmap_2 fst _ _ Hin).
Qed.

Lemma receive_node self K voted last p ds log blocks :
  node_ok self K voted last p ds log -> (forall b, b ∈ blocks -> receivable self b) ->
  node_ok self (K ++ blocks) voted last p ds log.
Proof using.
  clear. intros N Hb. assert (forall b, b ∈ K -> b ∈ K ++ blocks) as Hsub by (intros b Hin; apply elem_of_app; by left).
  constructor; try apply N.
  - apply (core_ok_mono bcs_commit default_hash ctx gen own _ _ Hsub), N.
  - intros b [Hin|Hin]%elem_of_app; [by apply (nk_known _ _ _ _ _ _ _ N)|]. apply (rc_known _ _ (Hb b Hin)).
  - intros b Hin. destruct (nk_own _ _ _ _ _ _ _ N b Hin) as (? & ? & ?). split_and!; auto.
  - intros x a [Hin|Hin]%elem_of_app Ha Ho; [by apply (nk_causal _ _ _ _ _ _ _ N x)|].
    apply (rc_causal _ _ (Hb x Hin)); [|done|done]. apply (ot_last _ _ (nk_tip _ _ _ _ _ _ _ N)).
  - intros Hv. destruct (nk_votes _ _ _ _ _ _ _ N Hv) as (Hc & T & Hk). split_and!; [done|done|].
    intros r (x & [Hin|Hin]%elem_of_app & <-) Hlt; [apply Hk; [by exists x|done]|].
    apply (voted_on_log voted (co_votes self)); [done|by apply (rc_voted _ _ (Hb x Hin))|done].
Qed.

Lemma accept_node self K voted last p ds log blocks :
  node_ok self K voted last p ds log -> (forall b, b ∈ blocks -> receivable self b) ->
  exists self' accepted missing p', core_accept_blocks self blocks = Ok (self', accepted, missing)
    /\ node_ok self' (K ++ blocks) voted last p' ds log /\ later self K self' (K ++ blocks).
Proof using Hctx Hu Hsu Hnet Hval RL.
  intros N0 Hb. pose proof (receive_node _ _ _ _ _ _ _ blocks N0 Hb) as N. destruct (node_universe _ _ _ _ _ _ _ N) as [HK1 HK2].
  destruct (core_accept_Ok bcs_commit default_hash ctx Hctx _ gen own HK2 self ds log blocks (nk_core _ _ _ _ _ _ _ N))
    as (self' & acc & miss & E & C & M & _).
  { intros b Hin. split; [apply elem_of_app; by right|]. unfold known_if_own. rewrite (node_context _ _ _ _ _ _ _ N).
    destruct (rc_known _ _ (Hb b Hin)) as [[_ ?]|Hown]; [by left|right].
    destruct (N.le_gt_cases (round b) (gc_round (co_dag self))) as [?|Hgc]; [by right|left]. exists b.
    apply dag_block_view; [apply (do_inv _ _ _ _ (node_dag _ _ _ _ _ _ _ N))|by apply (nk_cached _ _ _ _ _ _ _ N)]. }
  rewrite <- (app_nil_r ds), <- (app_nil_r log) in C. destruct (moved_later _ _ _ _ _ _ _ _ _ _ N C M) as [[p' N'] L].
  rewrite !app_nil_r in N'. exists self', acc, miss, p'. split_and!; [done|done|]. destruct L. constructor; [by eexists|done|done].
Qed.

Lemma after_blocks_node {A} self K voted last p ds log (a : A) :
  node_ok self K voted last p ds log ->
  exists self' K', after_blocks bcs_commit default_hash self [] a = Ok (self', Success a)
    /\ node self' K' /\ later self K self' K'.
Proof using All.
  intros N. destruct (commit_node _ _ _ _ _ _ _ N) as (self1 & new & p1 & ds1 & E1 & N1 & L1).
  destruct (propose_node _ _ _ _ _ _ _ false N1) as (self2 & o & K2 & E2 & (v2 & l2 & p2 & d2 & g2 & N2) & L2 & _).
  destruct (signal_node _ _ _ _ _ _ _ N2) as [N3 L3].
  exists (try_signal_new_round self2), K2. unfold after_blocks, core_try. rewrite E1. cbn [mbind outcome_bind].
  rewrite E2. cbn [mbind outcome_bind]. split_and!; [done|by eexists _, _, _, _, _|].
  eapply later_trans; [exact L1|]. by eapply later_trans.
Qed.

Lemma add_blocks_node self K blocks :
  node self K -> (forall b, b ∈ blocks -> receivable self b) ->
  exists self' missing K', add_blocks bcs_commit default_hash self blocks = Ok (self', Success missing)
    /\ node self' K' /\ later self K self' K' /\ (forall b, b ∈ blocks -> b ∈ K').
Proof using All.
  intros (v & l & p & d & g & N) Hb. destruct (accept_node _ _ _ _ _ _ _ blocks N Hb) as (self1 & acc & miss & p1 & E1 & N1 & L1).
  assert (forall b, b ∈ blocks -> b ∈ K ++ blocks) as Hin by (intros b ?; apply elem_of_app; by right).
  unfold add_blocks. rewrite E1. cbn [mbind outcome_bind]. destruct (is_empty acc).
  - exists self1, miss, (K ++ blocks). split_and!; [done|by eexists _, _, _, _, _|done|done].
  - destruct (after_blocks_node self1 _ _ _ _ _ _ miss N1) as (self2 & K2 & E2 & N2 & L2). exists self2, miss, K2.
    split_and!; [done|done|by eapply later_trans|]. intros b Hb'%Hin. destruct (lt_known _ _ _ _ L2) as [k ->]. apply elem_of_app. by left.
Qed.

Lemma new_block_node self K r force :
  node self K ->
  exists self' o K', new_block bcs_commit default_hash self r force = Ok (self', Success o) /\ node self' K' /\ later self K self' K'.
Proof using All.
  intros (v & l & p & d & g & N). unfold new_block. rewrite (nk_proposer _ _ _ _ _ _ _ N).
  cbn [last_proposed_round validator_impl validator_proposer_impl]. rewrite (ot_last _ _ (nk_tip _ _ _ _ _ _ _ N)).
  cbn [fmap outcome_fmap mbind outcome_bind].
  destruct (round l <? r); [|exists self, None, K; split_and!; [done|by eexists _, _, _, _, _|done]].
  destruct (propose_node _ _ _ _ _ _ _ force N) as (self2 & o & K2 & E2 & (v2 & l2 & p2 & d2 & g2 & N2) & L2 & _).
  destruct (signal_node _ _ _ _ _ _ _ N2) as [N3 L3]. rewrite E2. cbn [mbind outcome_bind fst snd].
  exists (try_signal_new_round self2), o, K2. split_and!; [done|by eexists _, _, _, _, _|by eapply later_trans].
Qed.

Lemma flush_node self K :
  node self K ->
  exists s', flush (co_dag self) = Ok s' /\ node (set_blocks self (co_block_manager self) s') K
    /\ later self K (set_blocks self (co_block_manager self) s') K.
Proof using Hu Hsu Hnet Hval.
  intros (v & l & p & d & g & N). destruct (node_universe _ _ _ _ _ _ _ N) as [_ HK].
  destruct (flush_core_Ok bcs_commit default_hash ctx _ gen own HK self d g (nk_core _ _ _ _ _ _ _ N)) as (s' & E & C & M).
  rewrite <- (app_nil_r d), <- (app_nil_r g) in C. destruct (moved_later _ _ _ _ _ _ _ _ _ _ N C M) as [[p' N'] L].
  exists s'. split_and!; [done|by eexists _, _, _, _, _|done].
Qed.

Lemma check_refs_node self K refs :
  node self K -> (forall r, r ∈ refs -> is_valid_index c (br_author r) = true) -> own_refs_ok self refs ->
  exists self' missing, check_block_refs self refs = Ok (self', missing) /\ node self' K /\ later self K self' K
    /\ co_votes self' = co_votes self.
Proof using.
  clear. intros (v & l & p & d & g & N) Hv Hold. pose proof (node_dag _ _ _ _ _ _ _ N) as D. pose proof (nk_core _ _ _ _ _ _ _ N) as C.
  unfold check_block_refs. rewrite (ck_context _ _ _ _ _ _ _ _ _ C).
  destruct (try_find_blocks_correct (co_dag self) (co_block_manager self) refs) as (bm' & missing & E & Hm & Hs & _ & Hb).
  { apply (do_inv _ _ _ _ D). }
  { apply (do_persist _ _ _ _ D). }
  { apply (ck_manager _ _ _ _ _ _ _ _ _ C). }
  { by rewrite (node_committee _ _ _ _ _ _ _ N). }
  rewrite E. cbn [mbind outcome_bind]. exists (set_blocks self bm' (co_dag self)), missing. split_and!; [done| |by constructor|done].
  exists v, l, p, d, g. constructor; try apply N.
  - destruct C. constructor; try done. intros x (r & sb & Hr & Hx). apply ck_waiting. exists r, sb. simpl in Hr. by rewrite <- Hs.
  - intros a Ha Ho. destruct (bm_suspended_blocks bm' !! a) as [sb|] eqn:Esb.
    + exfalso. destruct (mi_block _ _ Hm a sb Esb) as (_ & Hne & _). destruct (bw_block _ (mi_wf _ _ Hm) a sb Esb) as (Href & _).
      apply Hne. rewrite (node_context _ _ _ _ _ _ _ N), <- Ho, <- Href. done.
    + assert (a ∈ bm_missing_blocks bm') as Hin by (by apply (mi_blocks _ _ Hm)).
      apply Hb in Hin as [Hin|[Hin _]].
      * apply (nk_missing _ _ _ _ _ _ _ N); [|done]. by apply (mi_blocks _ _ (ck_manager _ _ _ _ _ _ _ _ _ C)).
      * apply (Hold l a); [apply (nk_tip _ _ _ _ _ _ _ N)|done|done].
Qed.

Lemma votes_node self K votes' :
  node self K ->
  (voting = true -> forall voted, votes_known context (fun r => exists b, b ∈ K /\ reference b = r) (co_votes self) voted ->
    exists voted', votes_known context (fun r => exists b, b ∈ K /\ reference b = r) votes' voted') ->
  node (set_votes self votes') K /\ later self K (set_votes self votes') K.
Proof using.
  clear. intros (v & l & p & d & g & N) Hv. split; [|by constructor].
  assert (exists v', voting = true -> votes_known context (fun r => exists b, b ∈ K /\ reference b = r) votes' v') as [v' Hv'].
  { destruct voting eqn:E; [|by exists []]. destruct (Hv eq_refl v (nk_votes _ _ _ _ _ _ _ N E)) as [v' ?]. by exists v'. }
  exists v', l, p, d, g. constructor; try apply N; [|done]. by apply (same_core self), N.
Qed.

Lemma add_votes_Ok (K : BlockRef -> Prop) blocks : forall votes voted,
  committee_wf c -> (forall b v, (b, v) ∈ blocks -> is_valid_index c (author b) = true) ->
  committee context = c -> votes_known context K votes voted ->
  exists votes' voted', add_voted_blocks votes blocks = Ok votes' /\ votes_known context K votes' voted'
    /\ vt_gc_round votes' = vt_gc_round votes /\ (forall r, r ∈ reference <$> voted.*1 -> r ∈ reference <$> voted'.*1)
    /\ forall b v, (b, v) ∈ blocks -> vt_gc_round votes < round b -> reference b ∈ reference <$> voted'.*1.
Proof using.
  clear. induction blocks as [|[b v] blocks IH]; intros votes voted Hc Hb Ec (Hctx & T & Hk).
  { exists votes, voted. split_and!; try done. intros b v Hin. inversion Hin. }
  destruct (add_voted_block_Ok voted votes b v) as (votes1 & E1 & C1 & G1 & T1); [by rewrite Hctx, Ec| |done|].
  { rewrite Hctx, Ec. apply (Hb b v). left. }
  assert (forall r, r ∈ reference <$> voted.*1 -> r ∈ reference <$> (log_voted (vt_gc_round votes) voted (b, v)).*1) as Hmono.
  { intros r Hr. unfold log_voted. destruct (_ || _); [done|]. rewrite refs_snoc. apply elem_of_app. by left. }
  destruct (IH votes1 (log_voted (vt_gc_round votes) voted (b, v)) Hc) as (votes' & voted' & E' & Hv' & G' & M' & N'); [|done| |].
  { intros x w Hx. apply (Hb x w). by right. }
  { split_and!; [by rewrite C1|done|]. intros r Hr. rewrite G1. intros Hlt. by apply Hmono, Hk. }
  exists votes', voted'. unfold add_voted_blocks in *. cbn [foldM]. rewrite E1. cbn [mbind outcome_bind].
  split_and!; [done|done|congruence|auto|]. intros x w [[= -> ->]|Hin]%elem_of_cons Hlt; [|apply (N' x w); [done|by rewrite G1]].
  apply M'. unfold log_voted. cbn [fst]. rewrite (proj2 (N.leb_gt _ _)) by done. cbn [orb]. case_bool_decide; [done|].
  rewrite refs_snoc. apply elem_of_app. right. by apply list_elem_of_singleton.
Qed.

Lemma tune_later self K p' :
  node self K -> (forall p last, co_proposer self = Some p -> proposer_ok context p last -> vp_block_signer p = key ->
    proposer_ok context p' last /\ vp_block_signer p' = key) ->
  node (set_proposer self (Some p')) K /\ later self K (set_proposer self (Some p')) K.
Proof using.
  clear. intros (v & l & p & d & g & N) Hp. split; [|by constructor].
  destruct (Hp p (round l) (nk_proposer _ _ _ _ _ _ _ N) (nk_proposer_ok _ _ _ _ _ _ _ N) (nk_key _ _ _ _ _ _ _ N)) as [H1 H2].
  exists v, l, p', d, g. by apply (tune_node _ _ _ _ p).
Qed.

(** Recovery on a node that has not proposed yet. *)
Lemma recover_node self K voted last p ds log :
  node_ok self K voted last p ds log -> own_blocks self = [] ->
  exists self' K', recover_validator bcs_commit default_hash self = Ok self' /\ node self' K' /\ later self K self' K'.
Proof using All.
  intros N Hown. destruct (commit_node _ _ _ _ _ _ _ N) as (self1 & new & p1 & ds1 & E1 & N1 & L1).
  unfold recover_validator, unwrap_result. rewrite E1. cbn [mbind outcome_bind fst snd].
  destruct (propose_node _ _ _ _ _ _ _ true N1) as (self2 & o & K2 & E2 & (v2 & l2 & p2 & d2 & g2 & N2) & L2 & Ho).
  rewrite E2. cbn [mbind outcome_bind fst snd]. destruct o as [b|].
  - destruct (signal_node _ _ _ _ _ _ _ N2) as [N3 L3]. exists (try_signal_new_round self2), K2. cbn [mbind outcome_bind].
    split_and!; [done|by eexists _, _, _, _, _|]. eapply later_trans; [exact L1|]. by eapply later_trans.
  - destruct Ho as (p' & N2' & Hsig & Hpos). clear N2. rewrite (nk_proposer _ _ _ _ _ _ _ N2'). cbn [unwrap mbind outcome_bind].
    cbn [last_proposed_block should_propose validator_impl validator_proposer_impl].
    rewrite (ot_last _ _ (nk_tip _ _ _ _ _ _ _ N2')). cbn [mbind outcome_bind].
    assert (round last = 0) as Hz.
    { pose proof (nk_last _ _ _ _ _ _ _ N) as Hl. rewrite Hown in Hl. by apply genesis_map_ref in Hl as [_ ?]. }
    assert (validator_should_propose p' (co_dag self2) = false) as ->.
    { destruct (validator_should_propose p' _); [|done]. specialize (Hpos eq_refl eq_refl). lia. }
    cbn [mbind outcome_bind]. unfold signal_new_block. cbn [eb_block]. rewrite Hz.
    assert (forall (x : CoreSignals), (if 1 <? committee_size (committee (co_context self2)) then
        if 0 =? GENESIS_ROUND then Success x else
        if sg_subscribed x then Success (mkCoreSignals true (sg_blocks x ++ [mkExtendedBlock last []]) (sg_accepted_blocks x) (sg_round x))
        else Err Shutdown else Success x) = Success x) as -> by (intros x; by destruct (1 <? _)).
    cbn [mbind outcome_bind]. replace (set_signals self2 (co_signals self2)) with self2 by (by destruct self2).
    destruct (signal_node _ _ _ _ _ _ _ N2') as [N3 L3]. exists (try_signal_new_round self2), K.
    split_and!; [done|by eexists _, _, _, _, _|]. eapply later_trans; [exact L1|]. eapply later_trans; [|exact L3].
    destruct L2 as [_ H2 H3]. by constructor.
Qed.

(* ------------------------------------------------------------------ *)
(** ** Votes *)

Lemma log_voted_on voted votes b :
  tracks_votes voted votes -> (vt_gc_round votes < round b -> reference b ∈ reference <$> voted.*1) -> voted_on votes b.
Proof using.
  clear. intros T Hin. unfold voted_on. destruct (N.le_gt_cases (round b) (vt_gc_round votes)) as [?|Hlt]; [by left|right].
  specialize (Hin Hlt). destruct (proj2 (tv_entry _ _ T (reference b) Hlt)) as [info Hi]; [by left|]. exists info. split; [done|].
  pose proof (tv_block _ _ T _ _ Hi) as Hb. by destruct (vi_block info).
Qed.

Lemma vote_node self K blocks :
  node self K -> voting = true -> (forall b v, (b, v) ∈ blocks -> is_valid_index c (author b) = true) ->
  exists votes', add_voted_blocks (co_votes self) blocks = Ok votes' /\ node (set_votes self votes') K
    /\ later self K (set_votes self votes') K /\ forall b v, (b, v) ∈ blocks -> voted_on votes' b.
Proof using Hctx Hnet.
  clear Hrounds. intros N Hv Hb. pose proof N as (v & l & p & d & g & N0).
  destruct (add_votes_Ok (fun r => exists b, b ∈ K /\ reference b = r) blocks (co_votes self) v) as (votes' & v' & E & Hv' & G & _ & Hnew).
  { apply (cf_committee _ Hctx). }
  { done. }
  { apply (proj1 (proj1 Hnet)). }
  { by apply (nk_votes _ _ _ _ _ _ _ N0). }
  destruct (votes_node self K votes' N) as [N' L]; [intros _ w _; by exists v'|].
  exists votes'. split_and!; [done|done|done|]. intros b w Hin. destruct Hv' as (_ & T & _).
  apply (log_voted_on v'); [done|]. rewrite G. by apply (Hnew b w).
Qed.

Lemma gc_votes_node self K gc :
  node self K -> vt_gc_round (co_votes self) <= gc ->
  node (set_votes self (update_gc_round (co_votes self) gc)) K /\ later self K (set_votes self (update_gc_round (co_votes self) gc)) K.
Proof using.
  clear. intros N Hle. apply votes_node; [done|]. intros _ voted (Hc & T & Hk). exists voted. split_and!; [done|by apply update_gc_round_tracks|].
  intros r Hr Hlt. simpl in Hlt. apply Hk; [done|lia].
Qed.

(* ------------------------------------------------------------------ *)
(** ** Own references *)

(** Own blocks only get newer. *)
Lemma own_refs_later self K self' K' refs :
  node self K -> node self' K' -> later self K self' K' -> own_refs_ok self refs -> own_refs_ok self' refs.
Proof using.
  clear. intros (v & l & p & d & g & N) (v' & l' & p' & d' & g' & N') L Hold last a Hl Ha Ho.
  rewrite (ot_last _ _ (nk_tip _ _ _ _ _ _ _ N')) in Hl. injection Hl as <-.
  destruct (Hold l a (ot_last _ _ (nk_tip _ _ _ _ _ _ _ N)) Ha Ho) as [Hle|?]; [left|by right]. etrans; [exact Hle|].
  pose proof (nk_last _ _ _ _ _ _ _ N) as Hlast. destruct (list.last (own_blocks self)) as [x|] eqn:E.
  - subst x. apply (nk_own _ _ _ _ _ _ _ N' l). destruct (lt_own _ _ _ _ L) as [k ->]. apply elem_of_app. left.
    by apply last_Some_elem_of.
  - apply genesis_map_ref in Hlast as [_ Hz]. simpl in Hz. lia.
Qed.

(** Steps that leave the DAG alone. *)
Lemma own_refs_same self self' refs : co_dag self' = co_dag self -> own_refs_ok self refs -> own_refs_ok self' refs.
Proof using. clear. intros E Hold last a. rewrite E. apply Hold. Qed.
End validator.
