(* ===== verification/ValidatorRun.v ===== *)
(** * Runs of a validator

    A validator from its start on an empty store (authority_node.rs), through
    what its services do to the state they share: blocks that peers send or
    that were fetched, the timers of the core thread, transactions of clients,
    probes of rounds, flushes and garbage collection of votes. *)

From S2P Require Import Prelude Committee Context Block StakeAggregator ThresholdClock Commit CommitVoteMonitor Error RoundTracker Store LeaderScoring Ancestor TransactionConsumer DagState VoteTracker DagInv Evolve DagOps DagLink DagAccept DagInclude Linearizer CommitObserver LinearizerSpec LinearizerOps BlockManager BlockManagerInv BlockManagerDag LeaderSchedule ScheduleRun BlockVerifier BaseCommitter UniversalCommitter CommitRule Agreement TryDecide Core CommitSequence CommitBatch CoreThread ValidatorProposer AuthorityService Synchronizer ProposerAncestors ProposerBlock CoreInv CoreTurn CoreTheorems ValidatorInv.

(** What happens to a validator. *)
Inductive validator_event :=
  | SentBlock (peer : N) (block : ExtendedSerializedBlock)
  | FetchedBlocks (serialized_blocks : list (list byte))
  | CoreInput (input : CoreThreadInput)
  | SubmitTransactions (transactions : list (list byte))
  | ProbedRounds (accepted_rounds received_rounds : list (list N))
  | FlushDag
  | CollectVotes (gc_round : N).

Section run.
Context `{Rng} `{Crypto} `{TransactionVerifier}.
Context (bcs_to_bytes : SignedBlock -> list byte) (bcs_commit : Commit -> list byte) (default_hash : list byte -> N).
Context (block_from_bytes : list byte -> option SignedBlock) (ref_from_bytes : list byte -> option BlockRef).
#[local] Instance run_proposer : Proposer ValidatorProposer MemStore := validator_proposer_impl bcs_to_bytes default_hash.
Implicit Types self : ValidatorNode MemStore.

(** The proposer that [Core::new_validator] builds. *)
Definition new_proposer (context : Context) (clock : Clock) (block_signer : key_pair) (sync_last_known_own_block : bool)
    (consumer : TransactionConsumer) (tracker : RoundTracker) : ValidatorProposer :=
  validator_proposer_new context clock consumer block_signer
    (if sync_last_known_own_block then None else Some 0) (ancestor_state_manager_new context) tracker
    (committer_waiter context).

(** The start of a validator on an empty store: the in-memory store stands for
    the database, and the commit observer, whose recovery has nothing to replay
    on an empty store, is the open handle of the finalizer. *)
Definition validator_start (context : Context) (clock : Clock) (protocol_keypair : key_pair)
    (sync_last_known_own_block : bool) : outcome (ValidatorNode MemStore) :=
  consumer ← transaction_consumer_new (transaction_client_new context).2 (mkOneshotChannels 0 [] []) context;
  dag ← dag_state_new bcs_to_bytes default_hash context mem_store_new;
  leader_schedule ← leader_schedule_from_store context dag;
  blocks ← get_last_cached_block_per_authority dag u32_MAX;
  round_tracker ← round_tracker_new context ((fun block : VerifiedBlock * list BlockRef => round block.1) <$> (blocks : list _));
  core ← new_validator bcs_commit default_hash context leader_schedule (block_manager_new context)
           (mkCommitFinalizerHandle true []) (core_signals_new true) dag (vote_tracker_state_new context)
           (new_proposer context clock protocol_keypair sync_last_known_own_block consumer round_tracker);
  Ok (mkValidatorNode (mkCoreThread core true) (commit_vote_monitor_new context)
        (signed_block_verifier_new bcs_to_bytes default_hash context) []).

(** A client's [submit_no_wait], on the channel that the consumer reads. *)
Definition node_submit self (transactions : list (list byte)) : outcome (ValidatorNode MemStore) :=
  update_proposer self (fun p =>
    let cn := vp_transaction_consumer p in
    let '(channel, channels, _) :=
      submit_no_wait "channel closed" (transaction_client_new (vp_context p)).1 (tx_receiver cn) (cn_channels cn) transactions in
    Ok (set_consumer p (with_input cn channel channels))).

Definition validator_step self (e : validator_event) : outcome (ValidatorNode MemStore) :=
  match e with
  | SentBlock peer block =>
      fst <$> handle_send_block bcs_to_bytes bcs_commit default_hash block_from_bytes ref_from_bytes self peer block
  | FetchedBlocks serialized_blocks =>
      fst <$> process_serialized_blocks bcs_to_bytes bcs_commit default_hash block_from_bytes self serialized_blocks
  | CoreInput input =>
      turn ← core_thread_step bcs_commit default_hash (vn_thread self) input; Ok (set_thread self turn.1)
  | SubmitTransactions transactions => node_submit self transactions
  | ProbedRounds accepted_rounds received_rounds =>
      update_proposer self (fun p =>
        Ok (set_round_tracker p (update_from_probe (vp_round_tracker p) accepted_rounds received_rounds)))
  | FlushDag =>
      dag ← flush (co_dag (vn_core self));
      Ok (set_core self (set_blocks (vn_core self) (co_block_manager (vn_core self)) dag))
  | CollectVotes gc_round =>
      votes ← run_gc (co_dag (vn_core self)) (co_votes (vn_core self)) gc_round;
      Ok (set_core self (set_votes (vn_core self) votes))
  end.
End run.
