(* ===== verification/ValidatorSample.v ===== *)
(** * A small network of validators

    Four validators start, and send their blocks to each other for some
    rounds.  It shows that the hypotheses of the theorems about validators can
    be met, and lets them be evaluated. *)

From S2P Require Import Prelude Committee Context Block StakeAggregator ThresholdClock Commit CommitVoteMonitor Error RoundTracker Store LeaderScoring Ancestor TransactionConsumer DagState VoteTracker SampleDag Linearizer CommitObserver BlockManager LeaderSchedule ScheduleRun BlockVerifier BaseCommitter UniversalCommitter Core CoreThread ValidatorProposer AuthorityService Synchronizer ProposerBlock ValidatorRun.

#[local] Existing Instances first_rng toy_crypto accept_all.

(** A second passes between two readings. *)
Definition sample_clock : Clock := mkClock 0 0 0 (fun n => N.min (N.of_nat n * 1000000000) 1000000000000000000) 0.

(** Blocks are encoded by their round and author. *)
Definition slot_bytes (sb : SignedBlock) : list byte :=
  [default x00 (Byte.of_N (round (inner sb))); default x00 (Byte.of_N (author (inner sb)))].

(** Bytes and commits are known by what identifies them in a small network. *)
Definition sample_hash (bytes : list byte) : N :=
  N.min (foldl (fun n b => 256 * n + Byte.to_N b) 1 bytes) DIGEST_MAX.

Definition commit_bytes (commit : Commit) : list byte :=
  [default x00 (Byte.of_N (commit_index commit)); default x00 (Byte.of_N (br_round (commit_leader commit)));
   default x00 (Byte.of_N (br_author (commit_leader commit)))].

Definition sample_start (own : N) : outcome (ValidatorNode MemStore) :=
  validator_start slot_bytes commit_bytes sample_hash (sample_context own) sample_clock [] false.

Definition blocks_of (o : outcome (ValidatorNode MemStore)) : list VerifiedBlock :=
  match o with Ok self => eb_block <$> sg_blocks (co_signals (vn_core self)) | _ => [] end.

(** Bytes are decoded by looking them up among the blocks of the network. *)
Definition lookup_block (table : list VerifiedBlock) (bytes : list byte) : option SignedBlock :=
  (fun b => vb_block b) <$> head (List.filter (fun b => bool_decide (vb_serialized b = bytes)) table).

Definition no_ref (_ : list byte) : option BlockRef := None.

Definition sample_step (table : list VerifiedBlock) (self : ValidatorNode MemStore) (e : validator_event) : outcome (ValidatorNode MemStore) :=
  validator_step slot_bytes commit_bytes sample_hash (lookup_block table) no_ref self e.

(** The last blocks of the others reach validator [own]. *)
Definition sent_to (own : N) (blocks : list VerifiedBlock) : list validator_event :=
  (fun b => SentBlock (author b) (mkExtendedSerializedBlock (vb_serialized b) [])) <$> List.filter (fun b => negb (author b =? own)) blocks.

Fixpoint exchange (rounds : nat) (table : list VerifiedBlock) (selves : list (outcome (ValidatorNode MemStore)))
    : list VerifiedBlock * list (outcome (ValidatorNode MemStore)) :=
  match rounds with
  | O => (table, selves)
  | Datatypes.S rounds =>
      let last_blocks := omap (fun self => list.last (blocks_of self)) selves in
      let table := table ++ last_blocks in
      exchange rounds table
        (imap (fun own self => self ← self; foldM (sample_step table) (sent_to (N.of_nat own) last_blocks) self) selves)
  end.

Definition sample_exchange : list VerifiedBlock * list (outcome (ValidatorNode MemStore)) :=
  exchange 6 [] (sample_start <$> [0; 1; 2; 3]).

(** The blocks of the network, with those of the last round that only their
    authors have. *)
Definition sample_network : list VerifiedBlock := Eval vm_compute in sample_exchange.2 ≫= blocks_of.

(** What validator [own] gets: the blocks of the others, round by round. *)
Definition network_events (own : N) : list validator_event :=
  sent_to own (List.filter (fun b => round b <=? 6) sample_exchange.1).

Definition network_run (own : N) : outcome (ValidatorNode MemStore) :=
  self ← sample_start own; foldM (sample_step sample_network) (network_events own) self.

(** The leaders and the sizes of the commits, and the rounds of the own blocks. *)
Definition sample_summary (own : N) : outcome (list (BlockRef * nat) * list N) :=
  (fun self => ((fun sd => (sd_leader sd, length (sd_blocks sd))) <$> fh_sent (co_handle (vn_core self)),
                round <$> blocks_of (Ok self))) <$> network_run own.

(** All four validators commit the leaders of the first four rounds, and have
    proposed a block in each of the first seven. *)
Example four_validators_commit :
  sample_summary <$> [0; 1; 2; 3]
  = replicate 4 (Ok ([(mkBlockRef 1 0 65792, 1%nat); (mkBlockRef 2 0 66048, 3%nat); (mkBlockRef 3 0 66304, 4%nat);
                      (mkBlockRef 4 0 66560, 4%nat)], [1; 2; 3; 4; 5; 6; 7])).
Proof. vm_compute. reflexivity. Qed.

(** With the blocks of the network decoded from the start, the same blocks
    are made. *)
Lemma sample_network_made : [0; 1; 2; 3] ≫= (fun own => blocks_of (network_run own)) = sample_network.
Proof. vm_compute. reflexivity. Qed.

(** The first block of a message, if any, is of another validator, and names
    no own block that does not exist yet. *)
Definition sent_ok (own : N) (self : ValidatorNode MemStore) (e : validator_event) : bool :=
  match e with
  | SentBlock peer block =>
      is_valid_index (test_committee 4) peer && is_empty (es_excluded_ancestors block)
      && match lookup_block sample_network (es_block block), validator_last_proposed_block (co_dag (vn_core self)) with
         | Some sb, Ok last =>
             negb (author (inner sb) =? own)
             && forallb (fun a => negb (br_author a =? own) || (br_round a <=? round last)) (ancestors (inner sb))
         | _, _ => false
         end
  | _ => false
  end.

Fixpoint run_ok (own : N) (self : ValidatorNode MemStore) (events : list validator_event) : bool :=
  match events with
  | [] => true
  | e :: events =>
      sent_ok own self e && match sample_step sample_network self e with Ok self => run_ok own self events | _ => false end
  end.

Lemma network_runs_ok :
  forallb (fun own => match sample_start own with Ok self => run_ok own self (network_events own) | _ => false end) [0; 1; 2; 3] = true.
Proof. vm_compute. reflexivity. Qed.
