(* ===== verification/ValidatorTheorems.v ===== *)
(** * Validators agree and propose valid blocks

    From its start on, whatever peers send it, a validator does not panic; the
    blocks that it broadcasts form a chain of valid blocks; and the commits
    that it sends are those of every other validator. *)

From S2P Require Import Prelude Committee Context Block StakeAggregator ThresholdClock Commit CommitVoteMonitor Error RoundTracker Store LeaderScoring Ancestor TransactionConsumer DagState VoteTracker DagInv Evolve DagOps DagLink DagAccept DagInclude SampleDag Linearizer CommitObserver LinearizerSpec LinearizerOps BlockManager BlockManagerInv BlockManagerDag LeaderSchedule ScheduleRun BlockVerifier BaseCommitter UniversalCommitter CommitRule Agreement TryDecide Core CommitSequence CommitBatch CoreThread ValidatorProposer AuthorityService Synchronizer ProposerAncestors ProposerBlock CoreInv CoreTurn CoreTheorems ValidatorInv ValidatorRun ValidatorSample.

Section theorems.
Context {RN : Rng} {RL : RngLaws} {CR : Crypto} {CL : CryptoLaws} {TV : TransactionVerifier}.
Context (bcs_to_bytes : SignedBlock -> list byte) (bcs_commit : Commit -> list byte) (default_hash : list byte -> N).
Context (block_from_bytes : list byte -> option SignedBlock) (ref_from_bytes : list byte -> option BlockRef).
#[local] Instance theorem_proposer : Proposer ValidatorProposer MemStore := validator_proposer_impl bcs_to_bytes default_hash.
Implicit Types (self : ValidatorNode MemStore) (K : list VerifiedBlock).

(** A network: its configuration, and the blocks that its members make.  No
    authority is a quorum by itself, and the epoch ends before rounds run out. *)
Record network_ok (ctx : Context) (byz : gset N) (univ : VerifiedBlock -> Prop) : Prop := {
  nw_config : config_ok ctx;
  nw_single : single_free ctx;
  nw_honest : honest_universe (committee ctx) byz univ;
  nw_sound : sound_universe (committee ctx) (genesis_map bcs_to_bytes default_hash ctx) univ;
  nw_rounds : forall b, univ b -> round b + 4 < u32_MAX;
  nw_signing : signing_ok default_hash;
}.

(** A seat in the committee, with the key that the committee lists for it. *)
Record seat_ok (ctx context : Context) (key : key_pair) (clock : Clock) : Prop := {
  st_network : same_network ctx context;
  st_limits : limits_ok context;
  st_own : is_valid_index (committee ctx) (own_index context) = true;
  st_key : exists au, committee_authority (committee ctx) (own_index context) = Ok au /\ a_protocol_key au = public_key key;
  st_clock : clock_ok clock;
}.

(** The transactions of a decoded block are in memory. *)
Definition decoding_ok : Prop :=
  forall bytes sb, block_from_bytes bytes = Some sb -> sum_N (byte_len <$> transactions_data (inner sb)) <= u64_MAX.

(** A valid block among the bytes from a peer is a block of the universe that
    another authority made, or one that this validator has sent out itself: no
    one else signs in its name.  References in its name are to blocks it has
    made, or made up; no one names a valid block of it ahead of time. *)
Definition honest_bytes (context : Context) (univ : VerifiedBlock -> Prop) self (bytes : list byte) : Prop :=
  forall sb, block_from_bytes bytes = Some sb -> valid_block (vn_verifier self) sb ->
    let b := verified_block_new_verified default_hash sb bytes in
    (univ b /\ author b <> own_index context /\ own_refs_ok bcs_to_bytes default_hash context (vn_core self) (ancestors b))
    \/ b ∈ own_blocks (vn_core self).

(** What may happen next. *)
Definition admissible (context : Context) (univ : VerifiedBlock -> Prop) self (e : validator_event) : Prop :=
  match e with
  | SentBlock peer block =>
      is_valid_index (committee context) peer = true /\ honest_bytes context univ self (es_block block)
      /\ forall bytes r, bytes ∈ es_excluded_ancestors block -> ref_from_bytes bytes = Some r ->
           own_refs_ok bcs_to_bytes default_hash context (vn_core self) [r]
  | FetchedBlocks serialized_blocks => forall bytes, bytes ∈ serialized_blocks -> honest_bytes context univ self bytes
  | CoreInput (Command (CommandAddBlocks _ | CommandCheckBlockRefs _ | CommandAddCertifiedCommits _)) => False
  | CoreInput (Command (CommandNewBlock _ _ | CommandGetMissing)) => True
  | CoreInput (LastKnownProposedRoundChanged _) =>
      (co_proposer (vn_core self) ≫= vp_last_known_proposed_round) = None
  | CoreInput (PropagationDelayChanged _) => True
  | SubmitTransactions _ => True
  | ProbedRounds accepted_rounds _ => square (committee context) accepted_rounds
  | FlushDag => True
  | CollectVotes gc => vt_gc_round (co_votes (vn_core self)) <= gc <= gc_round (co_dag (vn_core self))
  end.

(** The states of a validator. *)
Inductive validator_reachable (context : Context) (univ : VerifiedBlock -> Prop) (clock : Clock) (key : key_pair)
    (sync : bool) : ValidatorNode MemStore -> Prop :=
  | validator_started self :
      validator_start bcs_to_bytes bcs_commit default_hash context clock key sync = Ok self ->
      validator_reachable context univ clock key sync self
  | validator_stepped self e self' :
      validator_reachable context univ clock key sync self -> admissible context univ self e ->
      validator_step bcs_to_bytes bcs_commit default_hash block_from_bytes ref_from_bytes self e = Ok self' ->
      validator_reachable context univ clock key sync self'.

(* ------------------------------------------------------------------ *)
(** ** The steps of a validator *)

Section steps.
Context (ctx : Context) (byz : gset N) (univ : VerifiedBlock -> Prop) (Hnw : network_ok ctx byz univ).
Context (context : Context) (key : key_pair) (clock : Clock) (Hst : seat_ok ctx context key clock).
Context (Hdec : decoding_ok).
Notation c := (committee ctx).
Notation own := (own_index context).
Notation node := (ValidatorInv.node (S := MemStore) bcs_to_bytes bcs_commit default_hash ctx univ context key).
Notation voting := (transaction_voting_enabled (protocol_config context)).
Notation refs_ok := (own_refs_ok bcs_to_bytes default_hash context).

Record vnode self K : Prop := {
  vn_run : ct_running (vn_thread self) = true;
  vn_node : node (vn_core self) K;
  vn_monitors : exists seen, monitors c seen (vn_monitor self);
  vn_verifies : vn_verifier self = signed_block_verifier_new bcs_to_bytes default_hash context;
}.

Lemma vnode_context self K : vnode self K -> co_context (vn_core self) = context.
Proof. intros [_ (v & l & p & d & g & N) _ _]. apply (nk_context _ _ _ _ _ _ _ _ _ _ _ _ _ _ N). Qed.

Lemma seat_committee : committee context = c.
Proof using Hst. apply (proj1 (proj1 (st_network _ _ _ _ Hst))). Qed.

Lemma add_step core K blocks :
  node core K -> (forall b, b ∈ blocks -> receivable bcs_to_bytes default_hash univ context core b) ->
  exists core' missing K', add_blocks bcs_commit default_hash core blocks = Ok (core', Success missing)
    /\ node core' K' /\ later core K core' K'.
Proof using Hnw Hst RL CL.
  destruct Hnw as [Hc Hs Hu Hsu Hr Hg], Hst as [Hn Hl Ho (au & Hau & Hk) _]. intros N Hb.
  destruct (add_blocks_node bcs_to_bytes bcs_commit default_hash ctx Hc byz univ Hu Hsu Hr Hs Hg context Hn Hl key au Hau Hk Ho
    core K blocks N Hb) as (core' & missing & K' & ? & ? & ? & _). by exists core', missing, K'.
Qed.

Lemma new_block_step core K r force :
  node core K ->
  exists core' o K', new_block bcs_commit default_hash core r force = Ok (core', Success o) /\ node core' K' /\ later core K core' K'.
Proof using Hnw Hst RL CL.
  destruct Hnw as [Hc Hs Hu Hsu Hr Hg], Hst as [Hn Hl Ho (au & Hau & Hk) _].
  apply (new_block_node bcs_to_bytes bcs_commit default_hash ctx Hc byz univ Hu Hsu Hr Hs Hg context Hn Hl key au Hau Hk Ho).
Qed.

(** Changes of the state that the proposer shares. *)
Lemma set_proposer_vnode self K p p' :
  vnode self K -> co_proposer (vn_core self) = Some p ->
  (forall last, proposer_ok context p last -> vp_block_signer p = key -> proposer_ok context p' last /\ vp_block_signer p' = key) ->
  let self' := set_core self (set_proposer (vn_core self) (Some p')) in
  vnode self' K /\ later (vn_core self) K (vn_core self') K.
Proof.
  intros [Hr N Hm Hv] Hp Hok self'.
  destruct (tune_later bcs_to_bytes bcs_commit default_hash ctx univ context key (vn_core self) K p' N) as [N' L].
  { intros q last Hq. rewrite Hp in Hq. injection Hq as <-. apply Hok. }
  split; [by constructor|done].
Qed.

Lemma vnode_proposer self K :
  vnode self K -> exists p last, co_proposer (vn_core self) = Some p /\ proposer_ok context p last.
Proof.
  intros [_ (v & l & p & d & g & N) _ _]. exists p, (round l).
  split; [apply (nk_proposer _ _ _ _ _ _ _ _ _ _ _ _ _ _ N)|apply (nk_proposer_ok _ _ _ _ _ _ _ _ _ _ _ _ _ _ N)].
Qed.

Lemma timestamp_vnode self K :
  vnode self K ->
  exists self' now, node_timestamp_utc_ms self = Ok (self', now) /\ vnode self' K /\ later (vn_core self) K (vn_core self') K
    /\ co_dag (vn_core self') = co_dag (vn_core self) /\ vn_monitor self' = vn_monitor self.
Proof.
  intros N. destruct (vnode_proposer self K N) as (p & last & Hp & Hok). unfold node_timestamp_utc_ms. rewrite Hp.
  cbn [unwrap mbind outcome_bind]. destruct (timestamp_utc_ms_Ok _ (po_clock _ _ _ Hok)) as (clock' & -> & Hck & _).
  cbn [mbind outcome_bind fst snd]. eexists _, _. split; [done|].
  destruct (set_proposer_vnode self K p (set_clock p clock') N Hp) as [N' L]; [|by split_and!].
  intros l [] Hk. split; [by constructor|done].
Qed.

Lemma update_vnode self K f :
  vnode self K ->
  (forall p last, proposer_ok context p last -> exists p', f p = Ok p' /\ vp_block_signer p' = vp_block_signer p
     /\ forall last, proposer_ok context p last -> proposer_ok context p' last) ->
  exists self', update_proposer self f = Ok self' /\ vnode self' K /\ later (vn_core self) K (vn_core self') K
    /\ co_dag (vn_core self') = co_dag (vn_core self) /\ vn_monitor self' = vn_monitor self.
Proof.
  intros N Hf. destruct (vnode_proposer self K N) as (p & last & Hp & Hok). destruct (Hf p last Hok) as (p' & E & Hk & Hok').
  unfold update_proposer. rewrite Hp. cbn [unwrap mbind outcome_bind]. rewrite E. cbn [mbind outcome_bind].
  eexists. split; [done|]. destruct (set_proposer_vnode self K p p' N Hp) as [N' L]; [|by split_and!].
  intros l Hl Hkey. split; [by apply Hok'|congruence].
Qed.

Lemma track_vnode self K b exc :
  vnode self K -> wf_block c b -> (forall r, r ∈ exc -> is_valid_index c (br_author r) = true) ->
  exists self', node_track_block self (mkExtendedBlock b exc) = Ok self' /\ vnode self' K
    /\ later (vn_core self) K (vn_core self') K /\ co_dag (vn_core self') = co_dag (vn_core self)
    /\ vn_monitor self' = vn_monitor self.
Proof using Hst.
  intros N Hwf Hexc. apply (update_vnode self K); [done|]. intros p last Hok.
  destruct (tracker_step_Ok context (vp_round_tracker p) b exc (po_tracker _ _ _ Hok)) as (rt & E & Hrt);
    [by rewrite seat_committee|by rewrite seat_committee|].
  rewrite E. cbn [mbind outcome_bind]. eexists. split_and!; [done|done|]. intros l []. by constructor.
Qed.

Lemma observe_vnode self K b :
  vnode self K -> is_valid_index c (author b) = true ->
  exists m, observe_block (vn_monitor self) b = Ok m /\ vnode (set_monitor self m) K.
Proof.
  intros [Hr N (seen & Hm) Hv] Hb. destruct (observe_block_Ok c seen _ b Hm Hb) as (m & E & Hm').
  exists m. split; [done|]. constructor; try done. by eexists.
Qed.

Lemma vote_vnode self K blocks :
  vnode self K -> (forall b v, (b, v) ∈ blocks -> is_valid_index c (author b) = true) ->
  exists self', (if voting then node_add_voted_blocks self blocks else Ok self) = Ok self' /\ vnode self' K
    /\ later (vn_core self) K (vn_core self') K /\ co_dag (vn_core self') = co_dag (vn_core self)
    /\ forall b v, voting = true -> (b, v) ∈ blocks -> voted_on (co_votes (vn_core self')) b.
Proof using Hnw Hst.
  intros [Hr N Hm Hv] Hb. destruct voting eqn:Ev; [|by exists self].
  destruct (vote_node bcs_to_bytes bcs_commit default_hash ctx (nw_config _ _ _ Hnw) univ context (st_network _ _ _ _ Hst) key
    (vn_core self) K blocks N Ev Hb) as (votes' & E & N' & L & Hvoted).
  unfold node_add_voted_blocks. rewrite E. cbn [mbind outcome_bind]. eexists. split_and!; [done| |done|done|].
  - by constructor.
  - intros b v _. apply Hvoted.
Qed.

Lemma dispatch_add self K blocks :
  vnode self K -> (forall b, b ∈ blocks -> receivable bcs_to_bytes default_hash univ context (vn_core self) b) ->
  exists self' missing K', node_dispatch bcs_to_bytes bcs_commit default_hash self (CommandAddBlocks blocks) = Ok (self', Success missing)
    /\ vnode self' K' /\ later (vn_core self) K (vn_core self') K'.
Proof using Hnw Hst RL CL.
  intros [Hr N Hm Hv] Hb. destruct (add_step (vn_core self) K blocks N Hb) as (core' & missing & K' & E & N' & L).
  unfold node_dispatch, dispatch, core_thread_step. rewrite Hr. cbn [core_thread_turn]. fold (vn_core self).
  change (service_proposer bcs_to_bytes default_hash) with theorem_proposer. rewrite E. cbn [mbind outcome_bind fst snd].
  eexists _, missing, K'. split_and!; [done| |done]. by constructor.
Qed.

Lemma dispatch_refs self K refs :
  vnode self K -> (forall r, r ∈ refs -> is_valid_index c (br_author r) = true) -> refs_ok (vn_core self) refs ->
  exists self' missing, node_dispatch bcs_to_bytes bcs_commit default_hash self (CommandCheckBlockRefs refs) = Ok (self', Success missing)
    /\ vnode self' K /\ later (vn_core self) K (vn_core self') K.
Proof.
  intros [Hr N Hm Hv] Hvalid Hold.
  destruct (check_refs_node bcs_to_bytes bcs_commit default_hash ctx univ context key (vn_core self) K refs N Hvalid Hold)
    as (core' & missing & E & N' & L & _).
  unfold node_dispatch, dispatch, core_thread_step. rewrite Hr. cbn [core_thread_turn]. fold (vn_core self). rewrite E.
  cbn [mbind outcome_bind fst snd]. eexists _, missing. split_and!; [done| |done]. by constructor.
Qed.

Lemma spawn_vnode self K missing peer :
  vnode self K -> vnode (spawn_fetch self missing peer) K /\ vn_core (spawn_fetch self missing peer) = vn_core self.
Proof. intros []. unfold spawn_fetch. case_bool_decide; [done|]. split; [by constructor|done]. Qed.

Lemma parse_excluded_Ok peer b excluded :
  is_valid_index c peer = true ->
  exists r, parse_excluded_ancestors ref_from_bytes context peer b excluded = Ok r
    /\ forall refs, r = Success refs -> forall x, x ∈ refs ->
         is_valid_index c (br_author x) = true /\ exists bytes, bytes ∈ excluded /\ ref_from_bytes bytes = Some x.
Proof using Hst.
  intros Hp. unfold parse_excluded_ancestors. rewrite seat_committee.
  destruct (committee_authority_Ok c peer Hp) as [au ->]. cbn [mbind outcome_bind]. set (l := take _ excluded).
  assert (forall refs, collect_results (parse_excluded_ancestor ref_from_bytes context b) l = Success refs -> forall x, x ∈ refs ->
    is_valid_index c (br_author x) = true /\ exists bytes, bytes ∈ l /\ ref_from_bytes bytes = Some x) as Hall.
  { induction l as [|bytes l IH]; cbn [collect_results]; intros refs; [intros [= <-] x Hx; by apply elem_of_nil in Hx|].
    unfold parse_excluded_ancestor at 1. rewrite seat_committee. destruct (ref_from_bytes bytes) as [r|] eqn:Er; [|done].
    destruct (is_valid_index c (br_author r)) eqn:Ev; cbn [negb]; [|done]. destruct (_ <=? _); [done|].
    destruct (collect_results _ l) as [rs|]; [|done]. intros [= <-] x [->|Hx]%elem_of_cons.
    - split; [done|]. exists bytes. split; [left|done].
    - destruct (IH rs eq_refl x Hx) as (? & y & ? & ?). split; [done|]. exists y. split; [by right|done]. }
  destruct (collect_results _ l) as [refs|e]; [|by eexists].
  destruct (mapM_total (fun r => committee_authority c (br_author r)) refs) as [aus ->].
  { intros r Hr. apply committee_authority_Ok. by apply (Hall refs). }
  cbn [mbind outcome_bind]. eexists. split; [done|]. intros refs' [= <-] x Hx.
  destruct (Hall refs eq_refl x Hx) as (? & bytes & Hb & ?). split; [done|]. exists bytes. split; [|done].
  unfold l in Hb. by apply elem_of_take in Hb as (i & ?%list_elem_of_lookup_2 & ?).
Qed.

(** A block that the node may be given once it has voted. *)
Definition deliverable self (b : VerifiedBlock) : Prop :=
  ((univ b /\ author b <> own) \/ b ∈ own_blocks (vn_core self)) /\ refs_ok (vn_core self) (ancestors b).

Lemma deliverable_same self self' K b :
  co_dag (vn_core self') = co_dag (vn_core self) -> later (vn_core self) K (vn_core self') K -> deliverable self b -> deliverable self' b.
Proof.
  intros E L [Hk Hold]. split; [|by apply (own_refs_same bcs_to_bytes default_hash context (vn_core self))].
  destruct Hk as [?|Hk]; [by left|right]. destruct (lt_own _ _ _ _ L) as [k ->]. apply elem_of_app. by left.
Qed.

Lemma deliverable_wf self K b : vnode self K -> deliverable self b -> wf_block c b.
Proof using Hnw.
  intros [_ (v & l & p & d & g & N) _ _] [[[Hu _]|Ho] _]; [by apply (su_wf _ _ _ (nw_sound _ _ _ Hnw))|].
  destruct (nk_own _ _ _ _ _ _ _ _ _ _ _ _ _ _ N b Ho) as (_ & Hok & _). apply (ob_wf _ _ _ _ _ Hok).
Qed.

(** The own blocks refer to each other. *)
Lemma own_deliverable self K b : vnode self K -> b ∈ own_blocks (vn_core self) -> deliverable self b.
Proof.
  intros [_ (v & l & p & d & g & N) _ _] Hb. split; [by right|]. intros last a Hl Ha Ho.
  rewrite (ot_last _ _ (nk_tip _ _ _ _ _ _ _ _ _ _ _ _ _ _ N)) in Hl. injection Hl as <-.
  apply (nk_causal _ _ _ _ _ _ _ _ _ _ _ _ _ _ N b); [|done|done]. by apply (nk_own _ _ _ _ _ _ _ _ _ _ _ _ _ _ N).
Qed.

Lemma honest_bytes_same self self' K bytes :
  vnode self K -> vnode self' K -> co_dag (vn_core self') = co_dag (vn_core self) -> later (vn_core self) K (vn_core self') K ->
  honest_bytes context univ self bytes -> honest_bytes context univ self' bytes.
Proof.
  intros N N' E L Hh sb Hb V. rewrite (vn_verifies _ _ N'), <- (vn_verifies _ _ N) in V.
  destruct (Hh sb Hb V) as [(? & ? & Hold)|Ho]; [left|right].
  - split_and!; [done|done|]. by apply (own_refs_same bcs_to_bytes default_hash context (vn_core self)).
  - destruct (lt_own _ _ _ _ L) as [k ->]. apply elem_of_app. by left.
Qed.

(** A block that was verified, and the references that came with it. *)
Lemma process_sent_Ok self K peer b rejects exc :
  vnode self K -> deliverable self b ->
  (forall r, r ∈ exc -> is_valid_index c (br_author r) = true) -> refs_ok (vn_core self) exc ->
  exists self' res K', process_sent_block bcs_to_bytes bcs_commit default_hash self peer b rejects exc = Ok (self', res)
    /\ vnode self' K' /\ later (vn_core self) K (vn_core self') K'.
Proof using Hnw Hst RL CL.
  intros N0 Hd Hv Hexc. pose proof (deliverable_wf self K b N0 Hd) as Hwf.
  unfold process_sent_block. rewrite (vnode_context self K N0).
  destruct (timestamp_vnode self K N0) as (s1 & now & -> & N1 & L1 & D1 & _). cbn [mbind outcome_bind fst].
  destruct (observe_vnode s1 K b N1 (wb_author _ _ Hwf)) as (m & -> & N2). cbn [mbind outcome_bind].
  destruct (track_vnode (set_monitor s1 m) K b exc N2 Hwf Hv) as (s3 & -> & N3 & L3 & D3 & _). cbn [mbind outcome_bind].
  assert (later (vn_core self) K (vn_core s3) K) as L by (by eapply later_trans).
  destruct (is_commit_lagging _ _ _); [by eexists s3, _, K|].
  destruct (vote_vnode s3 K [(b, rejects)] N3) as (s4 & -> & N4 & L4 & D4 & Hvoted).
  { intros x v [= -> ->]%list_elem_of_singleton. apply (wb_author _ _ Hwf). }
  cbn [mbind outcome_bind].
  assert (forall refs, refs_ok (vn_core self) refs -> refs_ok (vn_core s4) refs) as Hrefs.
  { intros refs. apply (own_refs_same bcs_to_bytes default_hash context). rewrite D4, D3. exact D1. }
  destruct (dispatch_add s4 K [b] N4) as (s5 & miss & K5 & E5 & N5 & L5).
  { assert (later (vn_core self) K (vn_core s4) K) as Ls by (by eapply later_trans).
    destruct (deliverable_same self s4 K b) as [Hk Hanc]; [rewrite D4, D3; exact D1|done|done|].
    intros x ->%list_elem_of_singleton. constructor; [done| |done]. intros Hvt. apply (Hvoted b rejects); [done|left]. }
  unfold node_try at 1. rewrite E5. cbn [mbind outcome_bind].
  destruct (spawn_vnode s5 K5 miss (Validator peer) N5) as [N6 E6].
  destruct (dispatch_refs (spawn_fetch s5 miss (Validator peer)) K5 exc N6 Hv) as (s7 & miss' & E7 & N7 & L7).
  { rewrite E6. eapply own_refs_later; [apply (vn_node _ _ N4)|apply (vn_node _ _ N5)|exact L5|by apply Hrefs]. }
  unfold node_try. rewrite E7. cbn [mbind outcome_bind].
  destruct (spawn_vnode s7 K5 miss' (Validator peer) N7) as [N8 E8]. eexists _, _, K5. split_and!; [done|exact N8|].
  rewrite E8. rewrite E6 in L7. eapply later_trans; [exact L|]. eapply later_trans; [exact L4|]. by eapply later_trans.
Qed.

Lemma valid_bytes self K bytes sb :
  vnode self K -> honest_bytes context univ self bytes -> block_from_bytes bytes = Some sb ->
  exists r, verify_and_vote default_hash (vn_verifier self) sb bytes = Ok r
    /\ forall b rejects, r = Success (b, rejects) ->
         deliverable self b.
Proof using Hnw Hst Hdec.
  intros N Hh E. destruct (verify_and_vote_Ok default_hash (vn_verifier self) sb bytes) as (r & Er & Hr).
  { rewrite (vn_verifies _ _ N). simpl. rewrite seat_committee. apply (cf_committee _ (nw_config _ _ _ Hnw)). }
  { by apply (Hdec bytes). }
  exists r. split; [done|]. intros b rejects Hs. destruct (Hr b rejects Hs) as [-> V].
  destruct (Hh sb E V) as [(? & ? & ?)|Ho]; [split; [by left|done]|by apply (own_deliverable self K)].
Qed.

Lemma handle_send_Ok self K peer block :
  vnode self K -> is_valid_index c peer = true -> honest_bytes context univ self (es_block block) ->
  (forall bytes r, bytes ∈ es_excluded_ancestors block -> ref_from_bytes bytes = Some r -> refs_ok (vn_core self) [r]) ->
  exists self' res K', handle_send_block bcs_to_bytes bcs_commit default_hash block_from_bytes ref_from_bytes self peer block = Ok (self', res)
    /\ vnode self' K' /\ later (vn_core self) K (vn_core self') K'.
Proof using Hnw Hst RL CL Hdec.
  intros N Hp Hh Hexc. unfold handle_send_block. rewrite (vnode_context self K N), seat_committee.
  destruct (committee_authority_Ok c peer Hp) as [au ->]. cbn [mbind outcome_bind].
  destruct (block_from_bytes (es_block block)) as [sb|] eqn:Eb; [|by eexists self, _, K].
  destruct (negb _); [by eexists self, _, K|].
  destruct (valid_bytes self K (es_block block) sb N Hh Eb) as (r & -> & Hr). cbn [mbind outcome_bind].
  destruct r as [[b rejects]|e]; [|by eexists self, _, K]. pose proof (Hr b rejects eq_refl) as Hd.
  destruct (parse_excluded_Ok peer b (es_excluded_ancestors block) Hp) as (r & -> & Hrefs). cbn [mbind outcome_bind].
  destruct r as [exc|e]; [|by eexists self, _, K]. specialize (Hrefs exc eq_refl).
  apply (process_sent_Ok self K peer b rejects exc N Hd).
  - intros x Hx. by apply Hrefs.
  - intros last a Hl Ha Ho. destruct (Hrefs a Ha) as (_ & bytes & Hb & E). apply (Hexc bytes a Hb E last); [done|left|done].
Qed.

Lemma verify_serialized_Ok serialized : forall self K voted,
  vnode self K -> (forall bytes, bytes ∈ serialized -> honest_bytes context univ self bytes) ->
  (forall b v, (b, v) ∈ voted -> deliverable self b) ->
  exists self' res, verify_serialized default_hash block_from_bytes self serialized voted = Ok (self', res)
    /\ vnode self' K /\ later (vn_core self) K (vn_core self') K
    /\ forall voted', res = Success voted' -> forall b v, (b, v) ∈ voted' -> deliverable self' b.
Proof using Hnw Hst Hdec.
  induction serialized as [|bytes serialized IH]; intros self K voted N Hh Hd; cbn [verify_serialized].
  { exists self, (Success voted). split_and!; [done|done|apply later_refl|]. by intros voted' [= <-]. }
  destruct (block_from_bytes bytes) as [sb|] eqn:Eb; [|by exists self, (Err MalformedBlock)].
  destruct (valid_bytes self K bytes sb N (Hh bytes ltac:(left)) Eb) as (r & -> & Hr). cbn [mbind outcome_bind].
  destruct r as [[b rejects]|e]; [|by exists self, (Err e)]. pose proof (Hr b rejects eq_refl) as Hdb.
  destruct (timestamp_vnode self K N) as (s1 & now & -> & N1 & L1 & D1 & _). cbn [mbind outcome_bind fst].
  rewrite (vnode_context s1 K N1), seat_committee.
  destruct (committee_authority_Ok c (author b)) as [au ->]; [apply (wb_author _ _ (deliverable_wf self K b N Hdb))|].
  assert ((if 0 <? saturating_sub (timestamp_ms b) now then _ ← Ok au; Ok tt else Ok tt) = Ok tt) as -> by (by destruct (0 <? _)).
  cbn [mbind outcome_bind].
  destruct (IH s1 K (voted ++ [(b, rejects)]) N1) as (s2 & res & E2 & N2 & L2 & Hres).
  - intros x Hx. apply (honest_bytes_same self s1 K); [done..|]. apply Hh. by right.
  - intros x v [Hx|[= -> ->]%list_elem_of_singleton]%elem_of_app; apply (deliverable_same self s1 K _ D1 L1); [by apply (Hd x v)|done].
  - exists s2, res. split_and!; [done|done|by eapply later_trans|done].
Qed.

Lemma track_blocks_Ok blocks : forall self K,
  vnode self K -> (forall b, b ∈ blocks -> wf_block c b) ->
  exists self', foldM (fun self b => node_track_block self (mkExtendedBlock b [])) blocks self = Ok self' /\ vnode self' K
    /\ later (vn_core self) K (vn_core self') K /\ co_dag (vn_core self') = co_dag (vn_core self)
    /\ co_votes (vn_core self') = co_votes (vn_core self).
Proof using Hst.
  induction blocks as [|b blocks IH]; intros self K N Hwf; cbn [foldM].
  { exists self. split_and!; [done|done|apply later_refl|done|done]. }
  destruct (track_vnode self K b [] N) as (s1 & E1 & N1 & L1 & D1 & _); [apply Hwf; left|by intros r ?%elem_of_nil|].
  assert (co_votes (vn_core s1) = co_votes (vn_core self)) as V1.
  { unfold node_track_block, update_proposer in E1. repeat outcome_step E1. by subst s1. }
  rewrite E1. cbn [mbind outcome_bind]. destruct (IH s1 K N1) as (s2 & E2 & N2 & L2 & D2 & V2); [intros x Hx; apply Hwf; by right|].
  exists s2. split_and!; [done|done|by eapply later_trans|congruence|congruence].
Qed.

Lemma process_serialized_Ok self K serialized :
  vnode self K -> (forall bytes, bytes ∈ serialized -> honest_bytes context univ self bytes) ->
  exists self' res K', process_serialized_blocks bcs_to_bytes bcs_commit default_hash block_from_bytes self serialized = Ok (self', res)
    /\ vnode self' K' /\ later (vn_core self) K (vn_core self') K'.
Proof using Hnw Hst RL CL Hdec.
  intros N Hh. unfold process_serialized_blocks. destruct (is_empty serialized); [by eexists self, _, K|].
  set (l := take _ serialized). unfold verify_blocks, node_try at 2.
  destruct (verify_serialized_Ok l self K [] N) as (s1 & res & -> & N1 & L1 & Hres).
  { intros x (i & ?%list_elem_of_lookup_2 & _)%elem_of_take. by apply Hh. }
  { by intros b v ?%elem_of_nil. }
  cbn [mbind outcome_bind]. destruct res as [voted|e]; [|by eexists s1, _, K]. specialize (Hres voted eq_refl).
  rewrite (vnode_context s1 K N1).
  destruct (vote_vnode s1 K voted N1) as (s2 & -> & N2 & L2 & D2 & Hvoted).
  { intros b v Hb. by apply (wb_author _ _ (deliverable_wf s1 K b N1 (Hres b v Hb))). }
  cbn [mbind outcome_bind]. unfold node_try. cbn [mbind outcome_bind]. unfold process_verified_blocks.
  assert (forall b, b ∈ voted.*1 -> exists v, (b, v) ∈ voted) as Hfst by (intros b ([x v] & -> & Hx)%list_elem_of_fmap; by exists v).
  assert (forall b, b ∈ voted.*1 -> wf_block c b) as Hwf by (intros b (v & Hb)%Hfst; by apply (deliverable_wf s1 K b N1), (Hres b v)).
  destruct (vn_monitors _ _ N2) as (seen & Hm).
  destruct (observe_all_Ok c voted.*1 seen _ Hm) as (m & -> & Hm'); [intros b Hb; by apply Hwf|]. cbn [mbind outcome_bind].
  assert (vnode (set_monitor s2 m) K) as N3 by (destruct N2; constructor; try done; by eexists).
  destruct (track_blocks_Ok voted.*1 (set_monitor s2 m) K N3 Hwf) as (s4 & -> & N4 & L4 & D4 & V4). cbn [mbind outcome_bind].
  rewrite (vnode_context s4 K N4), seat_committee.
  destruct (mapM_total (fun b => committee_authority c (author b)) voted.*1) as [aus ->].
  { intros b Hb. apply committee_authority_Ok. by apply Hwf. }
  cbn [mbind outcome_bind].
  destruct (dispatch_add s4 K voted.*1 N4) as (s5 & miss & K5 & E5 & N5 & L5).
  { intros b (v & Hb)%Hfst. destruct (deliverable_same s1 s4 K b ltac:(rewrite D4; exact D2) ltac:(by eapply later_trans) (Hres b v Hb)) as [? ?].
    constructor; [done| |done]. intros Hvt. rewrite V4. by apply (Hvoted b v). }
  eexists s5, _, K5. split_and!; [exact E5|done|]. eapply later_trans; [exact L1|]. eapply later_trans; [exact L2|]. by eapply later_trans.
Qed.

(* ------------------------------------------------------------------ *)
(** ** The core thread *)

Lemma turn_vnode self K input core' K' reply :
  vnode self K -> core_thread_turn bcs_commit default_hash (vn_core self) input = Ok (core', Success reply) ->
  node core' K' -> later (vn_core self) K core' K' ->
  exists self', (turn ← core_thread_step bcs_commit default_hash (vn_thread self) input; Ok (set_thread self turn.1)) = Ok self'
    /\ vnode self' K' /\ later (vn_core self) K (vn_core self') K'.
Proof.
  intros [Hr N Hm Hv] E N' L. unfold core_thread_step. rewrite Hr. fold (vn_core self). rewrite E. cbn [mbind outcome_bind fst snd].
  eexists. split; [done|]. split; [by constructor|done].
Qed.

(** A new state of the proposer, then a new block. *)
Lemma tuned_new_block core K p p' :
  node core K -> co_proposer core = Some p ->
  (forall last, proposer_ok context p last -> vp_block_signer p = key -> proposer_ok context p' last /\ vp_block_signer p' = key) ->
  exists core' K', core_try (new_block bcs_commit default_hash (set_proposer core (Some p')) u32_MAX true)
      (fun core _ => Ok (core, Success (∅ : gset BlockRef))) = Ok (core', Success ∅)
    /\ node core' K' /\ later core K core' K'.
Proof using Hnw Hst RL CL.
  intros N Hp Hok.
  destruct (tune_later bcs_to_bytes bcs_commit default_hash ctx univ context key core K p' N) as [N1 L1].
  { intros q last Hq. rewrite Hp in Hq. injection Hq as <-. apply Hok. }
  destruct (new_block_step _ K u32_MAX true N1) as (core' & o & K' & E & N' & L'). unfold core_try. rewrite E. cbn [mbind outcome_bind].
  exists core', K'. split_and!; [done|done|by eapply later_trans].
Qed.

Lemma core_input_Ok self K input :
  vnode self K -> admissible context univ self (CoreInput input) ->
  exists self' K', (turn ← core_thread_step bcs_commit default_hash (vn_thread self) input; Ok (set_thread self turn.1)) = Ok self'
    /\ vnode self' K' /\ later (vn_core self) K (vn_core self') K'.
Proof using Hnw Hst RL CL.
  intros N Ha. pose proof (vn_node _ _ N) as N0. destruct (vnode_proposer self K N) as (p & _ & Hp & _).
  enough (exists core' K' reply, core_thread_turn bcs_commit default_hash (vn_core self) input = Ok (core', Success reply)
    /\ node core' K' /\ later (vn_core self) K core' K') as (core' & K' & reply & E & N' & L').
  { destruct (turn_vnode self K input core' K' reply N E N' L') as (self' & ? & ? & ?). by exists self', K'. }
  destruct input as [[blocks|refs|commits|r force|]|r|delay]; cbn [admissible core_thread_turn] in *; [done|done|done|..].
  - destruct (new_block_step _ K r force N0) as (core' & o & K' & E & N' & L'). exists core', K', ∅. unfold core_try. by rewrite E.
  - eexists _, K, _. split_and!; [done|done|apply later_refl].
  - unfold core_set_last_known_proposed_round. rewrite Hp in *. cbn [get_last_known_proposed_round theorem_proposer validator_proposer_impl].
    cbn [mbind option_bind] in Ha. rewrite Ha. cbn [mbind outcome_bind set_last_known_proposed_round theorem_proposer validator_proposer_impl].
    destruct (tuned_new_block (vn_core self) K p (set_last_known p (Some r)) N0 Hp) as (core' & K' & E & N' & L').
    { intros last [] Hk. split; [by constructor|done]. }
    by exists core', K', ∅.
  - unfold core_set_propagation_delay. rewrite Hp. cbn [fmap option_fmap option_map set_propagation_delay theorem_proposer validator_proposer_impl].
    assert (forall last, proposer_ok context p last -> vp_block_signer p = key ->
      proposer_ok context (set_delay p delay) last /\ vp_block_signer (set_delay p delay) = key) as Hok.
    { intros last [] Hk. split; [by constructor|done]. }
    destruct (_ && _).
    + destruct (tuned_new_block (vn_core self) K p (set_delay p delay) N0 Hp Hok) as (core' & K' & E & N' & L'). by exists core', K', ∅.
    + destruct (tune_later bcs_to_bytes bcs_commit default_hash ctx univ context key (vn_core self) K (set_delay p delay) N0) as [N1 L1].
      { intros q last Hq. rewrite Hp in Hq. injection Hq as <-. apply Hok. }
      by eexists _, K, ∅.
Qed.

(** Whatever may happen next, the validator returns. *)
Lemma validator_step_Ok self K e :
  vnode self K -> admissible context univ self e ->
  exists self' K', validator_step bcs_to_bytes bcs_commit default_hash block_from_bytes ref_from_bytes self e = Ok self'
    /\ vnode self' K' /\ later (vn_core self) K (vn_core self') K'.
Proof using Hnw Hst RL CL Hdec.
  intros N Ha. destruct e as [peer block|serialized|input|txs|acc rec| |gc]; cbn [validator_step].
  - destruct Ha as (Hp & Hh & Hexc). rewrite seat_committee in Hp.
    destruct (handle_send_Ok self K peer block N Hp Hh Hexc) as (self' & res & K' & -> & ? & ?). by exists self', K'.
  - destruct (process_serialized_Ok self K serialized N Ha) as (self' & res & K' & -> & ? & ?). by exists self', K'.
  - by apply core_input_Ok.
  - unfold node_submit. match goal with |- context [update_proposer self ?f] => set (g := f) end.
    destruct (update_vnode self K g N) as (self' & E & N' & L & _); [|by exists self', K].
    intros p last Hok. unfold g. rewrite (po_context _ _ _ Hok). fold (client_of context).
    destruct (submit_no_wait _ _ _ _ txs) as [[ch chs] res] eqn:E.
    eexists. split_and!; [done|done|]. intros l []. constructor; try done. by eapply submit_inv.
  - destruct (update_vnode self K (fun p => Ok (set_round_tracker p (update_from_probe (vp_round_tracker p) acc rec))) N)
      as (self' & E & N' & L & _); [|by exists self', K].
    intros p last _. eexists. split_and!; [done|done|]. intros l []. constructor; try done.
    destruct po_tracker as [(seen & [? ? ?]) _]. split; [|done]. exists seen. by constructor.
  - destruct N as [Hr N Hm Hv], Hnw as [_ _ Hu Hsu _ _].
    destruct (flush_node bcs_to_bytes bcs_commit default_hash ctx byz univ Hu Hsu context (st_network _ _ _ _ Hst) key (st_own _ _ _ _ Hst)
      (vn_core self) K N) as (s' & E & N' & L).
    rewrite E. cbn [mbind outcome_bind]. eexists _, K. split_and!; [done|by constructor|done].
  - destruct N as [Hr N Hm Hv], Ha as [Hle Hgc]. unfold run_gc. rewrite (proj2 (N.leb_le _ _)) by done. cbn [assert_that mbind outcome_bind].
    destruct (gc_votes_node bcs_to_bytes bcs_commit default_hash ctx univ context key (vn_core self) K gc N Hle) as [N' L].
    eexists _, K. split_and!; [done|by constructor|done].
Qed.

(* ------------------------------------------------------------------ *)
(** ** The start *)

Notation gen := (genesis_map bcs_to_bytes default_hash ctx).
Notation fresh := (fresh_state bcs_to_bytes default_hash context).

Lemma fresh_ok : dag_ok ctx (fun b => b ∈ []) gen fresh.
Proof using Hnw Hst. by apply fresh_dag_ok; [apply (nw_config _ _ _ Hnw)|apply (st_network _ _ _ _ Hst)]. Qed.

Lemma fresh_live : live_inv fresh.
Proof using Hnw Hst. apply fresh_state_live. rewrite seat_committee. apply (nw_single _ _ _ Hnw). Qed.

(** The last own block is the genesis block. *)
Lemma fresh_tip :
  exists last, own_tip fresh last /\ gen !! reference last = Some last /\ round last = 0 /\ ancestors last = [].
Proof using Hnw Hst.
  destruct (own_tip_Ok fresh (do_inv _ _ _ _ fresh_ok)) as [last T].
  { unfold is_validator. simpl. rewrite seat_committee. apply (st_own _ _ _ _ Hst). }
  exists last. destruct (ot_block _ _ T) as [Hv|Hg].
  - unfold view in Hv. cbn [ds_recent_blocks fresh_state] in Hv. by rewrite lookup_empty in Hv.
  - rewrite (do_genesis _ _ _ _ fresh_ok) in Hg. split_and!; [done|done|by apply genesis_map_ref in Hg as [_ ?]|].
    apply genesis_map_block in Hg as [Hb _]. unfold genesis_blocks in Hb. apply list_elem_of_fmap in Hb as ([i a] & -> & _).
    cbn. by destruct (transaction_voting_enabled _).
Qed.

Lemma fresh_last_cached :
  exists all, get_last_cached_block_per_authority fresh u32_MAX = Ok all /\ length all = N.to_nat (committee_size (committee context)).
Proof using Hnw Hst.
  pose proof fresh_ok as D.
  destruct (last_cached_per_authority_Ok fresh (do_inv _ _ _ _ D) fresh_live) with (R := u32_MAX) as (all & E & Hl & _); try done.
  - unfold genesis_ordered. rewrite (dag_ok_committee _ _ _ _ D), (do_genesis _ _ _ _ D). apply genesis_map_sorted.
  - by exists all.
Qed.

Lemma new_proposer_ok sync consumer tracker scores :
  pool_inv context consumer -> tracker_ok context tracker ->
  (length (scores_per_authority scores) <= length (c_authorities c))%nat ->
  proposer_ok context (validator_set_scores (new_proposer context clock key sync consumer tracker) scores) 0.
Proof using Hnw Hst.
  intros Hpool Htr Hs. pose proof (cf_committee _ (nw_config _ _ _ Hnw)) as Hc. rewrite <- seat_committee in Hc, Hs.
  constructor; cbn; try done; try apply Hst.
  - split; [by rewrite length_replicate|]. intros i x Hi. by apply lookup_replicate in Hi as [? _].
  - pose proof (new_inv context Hc) as []. split_and!; [by constructor|done|done].
Qed.

Lemma fresh_node sync consumer tracker signaled a last :
  pool_inv context consumer -> tracker_ok context tracker ->
  own_tip fresh last -> gen !! reference last = Some last -> round last = 0 ->
  let p := validator_set_scores (new_proposer context clock key sync consumer tracker) (mkReputationScores [] commit_range_default) in
  node_ok (S := MemStore) bcs_to_bytes bcs_commit default_hash ctx univ context key
    (mkCore context (block_manager_new context) signaled (mkSlot 0 a) (leader_schedule_new context leader_swap_table_default)
       (mkCommitFinalizerHandle true []) (core_signals_new true) fresh (Some p) (vote_tracker_state_new context))
    [] [] last p [] [].
Proof using Hnw Hst.
  intros Hpool Htr T Hg Hz p. constructor; try done.
  - apply fresh_core_ok; [apply (nw_config _ _ _ Hnw)|apply (st_network _ _ _ _ Hst)].
  - by intros b ?%elem_of_nil.
  - by intros b ?%elem_of_nil.
  - constructor.
  - rewrite Hz. apply new_proposer_ok; [done|done|]. simpl. lia.
  - by intros x ?%elem_of_nil.
  - by intros x r ?%elem_of_nil.
  - intros r [X Hr]. simpl in Hr. by rewrite lookup_empty in Hr.
  - intros _. split_and!; [done|apply tracks_votes_new|]. by intros r (b & ?%elem_of_nil & _).
Qed.

Lemma validator_start_Ok sync :
  exists self K, validator_start bcs_to_bytes bcs_commit default_hash context clock key sync = Ok self /\ vnode self K.
Proof using Hnw Hst RL CL.
  unfold validator_start. destruct fresh_tip as (last & T & Hg & Hz & Hanc). destruct fresh_last_cached as (all & Eall & Hlen).
  assert (exists cn, transaction_consumer_new (transaction_client_new context).2 (mkOneshotChannels 0 [] []) context = Ok cn) as [cn Ecn].
  { pose proof (lo_num _ (st_limits _ _ _ _ Hst)) as Hn. unfold transaction_consumer_new, saturating_sub.
    rewrite (proj2 (N.ltb_lt _ _)) by (unfold u16_MAX, NUM_RESERVED_TRANSACTION_INDICES in *; lia). by eexists. }
  pose proof (pool_reachable_inv context cn (st_limits _ _ _ _ Hst) (pool_start _ _ Ecn)) as Hpool.
  rewrite Ecn, dag_state_new_fresh. cbn [mbind outcome_bind].
  change (leader_schedule_from_store context fresh) with (Ok (leader_schedule_new context leader_swap_table_default)).
  cbn [mbind outcome_bind]. rewrite Eall. cbn [mbind outcome_bind].
  destruct (round_tracker_new_Ok context ((fun block : VerifiedBlock * list BlockRef => round block.1) <$> all))
    as (rt & Ert & Hrt & Hsq); [right; by rewrite length_fmap|]. rewrite Ert. cbn [mbind outcome_bind].
  unfold new_validator. destruct (fresh_last_leader bcs_to_bytes default_hash ctx (nw_config _ _ _ Hnw) context (st_network _ _ _ _ Hst)) as [a Ha].
  rewrite Ha. cbn [mbind outcome_bind].
  pose proof (ot_last _ _ T) as El. unfold validator_last_proposed_block in El. apply bind_Ok in El as (o & Eo & El).
  rewrite Eo. cbn [mbind outcome_bind]. rewrite El. cbn [mbind outcome_bind]. rewrite Hanc. cbn [foldM mbind outcome_bind].
  pose proof (fresh_node sync cn rt (round last) a last Hpool (conj (ex_intro _ _ Hrt) Hsq) T Hg Hz) as N.
  destruct Hnw as [Hc Hs Hu Hsu Hr Hsig], Hst as [Hn Hl Ho (au & Hau & Hk) _].
  destruct (recover_node bcs_to_bytes bcs_commit default_hash ctx Hc byz univ Hu Hsu Hr Hs Hsig context Hn Hl key au Hau Hk Ho
    _ _ _ _ _ _ _ N eq_refl) as (core & K & E & N' & _).
  match type of E with ?l = _ => match goal with |- context [recover_validator _ _ ?x] => change (recover_validator bcs_commit default_hash x) with l end end.
  rewrite E. cbn [mbind outcome_bind]. eexists _, K. split; [done|]. constructor; try done.
  exists []. rewrite <- seat_committee. apply monitors_new.
Qed.

(* ------------------------------------------------------------------ *)
(** ** Reachable states *)

Lemma reachable_vnode sync self :
  validator_reachable context univ clock key sync self -> exists K, vnode self K.
Proof using Hnw Hst RL CL Hdec.
  induction 1 as [self E|self e self' _ (K & N) Ha E].
  - destruct (validator_start_Ok sync) as (self0 & K & E0 & N). rewrite E in E0. injection E0 as <-. by exists K.
  - destruct (validator_step_Ok self K e N Ha) as (self0 & K' & E0 & N' & _). rewrite E in E0. injection E0 as <-. by exists K'.
Qed.

(** The commits of a validator whose blocks belong to the universe. *)
Lemma reachable_sequence sync self :
  validator_reachable context univ clock key sync self ->
  (forall b, b ∈ own_blocks (vn_core self) -> univ b) ->
  exists ds, sequence bcs_commit default_hash ctx univ gen (S := MemStore) ds (fh_sent (co_handle (vn_core self)))
      (ds_last_commit (co_dag (vn_core self)))
    /\ s_round (co_last_decided_leader (vn_core self)) = N.of_nat (length ds).
Proof using Hnw Hst RL CL Hdec.
  intros Hr Hown. destruct (reachable_vnode sync self Hr) as (K & [_ (v & l & p & d & g & N) _ _]).
  pose proof (nk_core _ _ _ _ _ _ _ _ _ _ _ _ _ _ N) as C. exists d. rewrite (ck_sent _ _ _ _ _ _ _ _ _ C).
  split; [|apply (ck_decided _ _ _ _ _ _ _ _ _ C)]. eapply (sequence_mono bcs_commit default_hash ctx gen); [|apply (ck_seq _ _ _ _ _ _ _ _ _ C)].
  intros b Hb. destruct (nk_known _ _ _ _ _ _ _ _ _ _ _ _ _ _ N b Hb) as [[? _]|?]; [done|by apply Hown].
Qed.
End steps.
End theorems.

(* ------------------------------------------------------------------ *)
(** ** Properties *)

(** C2: A validator does not panic on the blocks of its network.  Take a network
    whose configuration passes [config_ok] and in which authorities outside a
    set below the validity threshold do not equivocate.  A validator with a seat
    in it starts, and from then on, whatever bytes its peers send as blocks or
    in answer to fetches, and with timeouts, transactions, probes, flushes and
    garbage collection at any time, every step returns: no assertion fails, no
    index is out of bounds and no loop runs on; the core thread keeps running,
    and the blocks broadcast and the commits sent are only ever extended.  Two
    things are assumed of the bytes, by [admissible]: a block among them that
    passes the verifier is one of the network by another authority, or one that
    this validator sent out itself, as no one else has its key; and they name no
    valid block of this validator before it has made it, which takes foreseeing
    a hash, while references in its name to blocks that do not exist are
    allowed.  The last known round of the validator is set once, and probes have
    one row for each authority.  Certified commits from commit sync are not
    among the steps. *)
Theorem validator_never_panics `{RngLaws} `{CryptoLaws} `{TransactionVerifier}
    (bcs_to_bytes : SignedBlock -> list byte) (bcs_commit : Commit -> list byte) (default_hash : list byte -> N)
    (block_from_bytes : list byte -> option SignedBlock) (ref_from_bytes : list byte -> option BlockRef)
    (ctx context : Context) (byz : gset N) (univ : VerifiedBlock -> Prop) (clock : Clock) (key : key_pair) (sync : bool) :
  network_ok bcs_to_bytes default_hash ctx byz univ -> seat_ok ctx context key clock -> decoding_ok block_from_bytes ->
  (exists self, validator_start bcs_to_bytes bcs_commit default_hash context clock key sync = Ok self)
  /\ forall self,
       validator_reachable bcs_to_bytes bcs_commit default_hash block_from_bytes ref_from_bytes context univ clock key sync self ->
       ct_running (vn_thread self) = true
       /\ forall e, admissible bcs_to_bytes default_hash block_from_bytes ref_from_bytes context univ self e ->
            exists self', validator_step bcs_to_bytes bcs_commit default_hash block_from_bytes ref_from_bytes self e = Ok self'
              /\ own_blocks (vn_core self) `prefix_of` own_blocks (vn_core self')
              /\ fh_sent (co_handle (vn_core self)) `prefix_of` fh_sent (co_handle (vn_core self')).
Proof.
  intros Hnw Hst Hdec. split.
  - destruct (validator_start_Ok bcs_to_bytes bcs_commit default_hash ctx byz univ Hnw context key clock Hst sync) as (self & K & E & _).
    by exists self.
  - intros self Hr. destruct (reachable_vnode bcs_to_bytes bcs_commit default_hash block_from_bytes ref_from_bytes ctx byz univ Hnw
      context key clock Hst Hdec sync self Hr) as (K & N).
    split; [apply (vn_run _ _ _ _ _ _ _ _ _ N)|]. intros e Ha.
    destruct (validator_step_Ok bcs_to_bytes bcs_commit default_hash block_from_bytes ref_from_bytes ctx byz univ Hnw
      context key clock Hst Hdec self K e N Ha) as (self' & K' & E & _ & [_ Ho Hs]). by exists self'.
Qed.

(** C3: A validator broadcasts a chain of valid blocks.  The blocks that it has
    broadcast since its start, whatever happened, have strictly increasing
    rounds, at most one in each; the first builds on its genesis block and every
    other one on the block before; each of them is its author's, is known by the
    hash of its encoding, and passes the verifier of every node of the
    network: right epoch, signature, one ancestor per authority, a quorum of
    parents, and transactions within the limits. *)
Theorem validator_broadcasts_valid_chain `{RngLaws} `{CryptoLaws} `{TransactionVerifier}
    (bcs_to_bytes : SignedBlock -> list byte) (bcs_commit : Commit -> list byte) (default_hash : list byte -> N)
    (block_from_bytes : list byte -> option SignedBlock) (ref_from_bytes : list byte -> option BlockRef)
    (ctx context : Context) (byz : gset N) (univ : VerifiedBlock -> Prop) (clock : Clock) (key : key_pair) (sync : bool)
    (self : ValidatorNode MemStore) :
  network_ok bcs_to_bytes default_hash ctx byz univ -> seat_ok ctx context key clock -> decoding_ok block_from_bytes ->
  validator_reachable bcs_to_bytes bcs_commit default_hash block_from_bytes ref_from_bytes context univ clock key sync self ->
  let blocks := own_blocks (vn_core self) in
  StronglySorted (fun x y => round x < round y) blocks
  /\ own_chain bcs_to_bytes default_hash ctx blocks
  /\ forall b, b ∈ blocks ->
       author b = own_index context
       /\ b = verified_block_new_verified default_hash (vb_block b) (bcs_to_bytes (vb_block b))
       /\ forall peer, same_network ctx peer ->
            verify_block (signed_block_verifier_new bcs_to_bytes default_hash peer) (vb_block b) = Ok (Success tt).
Proof.
  intros Hnw Hst Hdec Hr blocks. destruct (reachable_vnode bcs_to_bytes bcs_commit default_hash block_from_bytes ref_from_bytes ctx byz univ Hnw
    context key clock Hst Hdec sync self Hr) as (K & [_ (v & l & p & d & g & N) _ _]).
  split; [apply (nk_sorted _ _ _ _ _ _ _ _ _ _ _ _ _ _ N)|]. split; [apply (nk_chain _ _ _ _ _ _ _ _ _ _ _ _ _ _ N)|].
  intros b Hb. destruct (nk_own _ _ _ _ _ _ _ _ _ _ _ _ _ _ N b Hb) as (_ & [Ha _ _ _ Hv Hbytes Henc] & _).
  split_and!; [done|done|]. intros peer Hpeer. set (verifier := signed_block_verifier_new bcs_to_bytes default_hash peer).
  destruct (verify_block_Ok verifier (vb_block b)) as (r & -> & Hr'); [|done|f_equal; by apply Hr', Hv].
  simpl. rewrite (proj1 (proj1 Hpeer)). apply (cf_committee _ (nw_config _ _ _ _ _ Hnw)).
Qed.

(** C1: Validators agree.  Two validators of one network, each with its own seat,
    clock and key, each reached by its own sequence of blocks, timeouts and
    transactions, that broadcast their blocks to the network, send the same
    commits: same leaders, blocks, order, timestamps and commit references; one
    of them may only be behind. *)
Theorem validators_agree `{RngLaws} `{CryptoLaws} `{TransactionVerifier}
    (bcs_to_bytes : SignedBlock -> list byte) (bcs_commit : Commit -> list byte) (default_hash : list byte -> N)
    (block_from_bytes : list byte -> option SignedBlock) (ref_from_bytes : list byte -> option BlockRef)
    (ctx context1 context2 : Context) (byz : gset N) (univ : VerifiedBlock -> Prop) (clock1 clock2 : Clock)
    (key1 key2 : key_pair) (sync1 sync2 : bool) (self1 self2 : ValidatorNode MemStore) :
  network_ok bcs_to_bytes default_hash ctx byz univ -> decoding_ok block_from_bytes ->
  seat_ok ctx context1 key1 clock1 -> seat_ok ctx context2 key2 clock2 ->
  validator_reachable bcs_to_bytes bcs_commit default_hash block_from_bytes ref_from_bytes context1 univ clock1 key1 sync1 self1 ->
  validator_reachable bcs_to_bytes bcs_commit default_hash block_from_bytes ref_from_bytes context2 univ clock2 key2 sync2 self2 ->
  (forall b, b ∈ own_blocks (vn_core self1) ++ own_blocks (vn_core self2) -> univ b) ->
  fh_sent (co_handle (vn_core self1)) `prefix_of` fh_sent (co_handle (vn_core self2))
  \/ fh_sent (co_handle (vn_core self2)) `prefix_of` fh_sent (co_handle (vn_core self1)).
Proof.
  intros Hnw Hdec Hst1 Hst2 Hr1 Hr2 Hown.
  destruct (reachable_sequence bcs_to_bytes bcs_commit default_hash block_from_bytes ref_from_bytes ctx byz univ Hnw
    context1 key1 clock1 Hst1 Hdec sync1 self1 Hr1) as (ds1 & Q1 & _); [intros b Hb; apply Hown, elem_of_app; by left|].
  destruct (reachable_sequence bcs_to_bytes bcs_commit default_hash block_from_bytes ref_from_bytes ctx byz univ Hnw
    context2 key2 clock2 Hst2 Hdec sync2 self2 Hr2) as (ds2 & Q2 & _); [intros b Hb; apply Hown, elem_of_app; by right|].
  pose proof (nw_honest _ _ _ _ _ Hnw) as Hu.
  destruct (le_ge_dec (length ds1) (length ds2)) as [Hle|Hge]; [left|right].
  - by apply (sequence_prefix _ _ _ _ _ _ Hu _ _ _ _ _ _ Q1 Q2).
  - by apply (sequence_prefix _ _ _ _ _ _ Hu _ _ _ _ _ _ Q2 Q1).
Qed.

(* ------------------------------------------------------------------ *)
(** ** Witnesses *)

#[local] Existing Instances first_rng first_rng_laws toy_crypto toy_crypto_laws accept_all.

Definition sample_key : key_pair := [].

Definition network_block (b : VerifiedBlock) : Prop := b ∈ sample_network.

Definition network_reachable (own : N) (self : ValidatorNode MemStore) : Prop :=
  validator_reachable slot_bytes commit_bytes sample_hash (lookup_block sample_network) no_ref (sample_context own)
    network_block sample_clock sample_key false self.

Lemma sample_config own : config_ok (sample_context own).
Proof.
  constructor; [exact test_committee_4_wf| |done|done| |done..];
    intros i Hi; apply four_authorities in Hi; by destruct Hi as [->|[->|[->| ->]]].
Qed.

Lemma network_blocks_ok :
  Forall (fun b => wf_block (test_committee 4) b /\ round b + 4 < u32_MAX /\ vb_digest b = sample_hash (vb_serialized b)
    /\ sum_N (byte_len <$> transactions_data (inner (vb_block b))) <= u64_MAX
    /\ Forall (fun a => br_round a = 0 -> is_Some (genesis_map slot_bytes sample_hash (sample_context 0) !! a)) (ancestors b))
    sample_network /\ NoDup ((fun b => (author b, round b)) <$> sample_network).
Proof. split; apply (bool_decide_eq_true_1 _); vm_compute; reflexivity. Qed.

Lemma network_blocks_unique x y : network_block x -> network_block y -> author x = author y -> round x = round y -> x = y.
Proof.
  intros Hx Hy Ea Er. apply (NoDup_fmap_elem_inj (fun b => (author b, round b)) sample_network); [apply network_blocks_ok|done..|].
  by rewrite Ea, Er.
Qed.

Lemma sample_single_free own : single_free (sample_context own).
Proof.
  intros a. unfold reached_quorum. apply N.leb_gt. rewrite stake_of_single.
  apply (stake_at_forall (test_committee 4) (fun s => s < c_quorum_threshold (test_committee 4))); [done|].
  apply (bool_decide_eq_true_1 _). vm_compute. reflexivity.
Qed.

Lemma sample_network_ok own : network_ok slot_bytes sample_hash (sample_context own) ∅ network_block.
Proof.
  destruct network_blocks_ok as [Hall _]. rewrite Forall_forall in Hall. constructor.
  - apply sample_config.
  - apply sample_single_free.
  - constructor; [exact test_committee_4_wf|by vm_compute| |].
    + intros x y Hx Hy E. injection E as Er Ea _. by apply network_blocks_unique.
    + intros x y Hx Hy Ea Er _. by apply network_blocks_unique.
  - constructor.
    + intros b Hb. by apply Hall.
    + intros b Hb. destruct (Hall b Hb) as (_ & ? & _). lia.
    + intros b a Hb Ha. destruct (Hall b Hb) as (_ & _ & _ & _ & Hg). rewrite Forall_forall in Hg. by apply Hg.
    + intros r b Hb. by apply genesis_map_ref in Hb as [? _].
  - intros b Hb. by apply Hall.
  - constructor; [by eexists|by eexists|]. intros bytes. apply N.le_min_r.
Qed.

Lemma sample_seat_ok own : is_valid_index (test_committee 4) own = true -> seat_ok (sample_context 0) (sample_context own) sample_key sample_clock.
Proof.
  intros Hown. constructor; [done|by vm_compute|done| |].
  - apply four_authorities in Hown. by destruct Hown as [->|[->|[->| ->]]]; eexists.
  - constructor; simpl; intros; lia || done.
Qed.

Lemma lookup_block_elem bytes sb :
  lookup_block sample_network bytes = Some sb ->
  exists b, network_block b /\ vb_block b = sb /\ vb_serialized b = bytes.
Proof.
  unfold lookup_block. destruct (List.filter _ _) as [|b rest] eqn:E; [done|]. intros [= <-]. exists b.
  assert (Hb : In b (List.filter (fun b => bool_decide (vb_serialized b = bytes)) sample_network)) by (rewrite E; by left).
  apply filter_In in Hb as [Hb Hbytes%bool_decide_eq_true]. apply list_elem_of_In in Hb. done.
Qed.

Lemma sample_decoding_ok : decoding_ok (lookup_block sample_network).
Proof.
  intros bytes sb (b & Hb & <- & _)%lookup_block_elem. destruct network_blocks_ok as [Hall _].
  rewrite Forall_forall in Hall. by apply Hall.
Qed.

Lemma sent_ok_admissible own self e :
  sent_ok own self e = true ->
  admissible slot_bytes sample_hash (lookup_block sample_network) no_ref (sample_context own) network_block self e.
Proof.
  destruct e as [peer [bytes excluded]|? |? |? |? ?| |?]; try done. simpl.
  intros [[Hpeer Hex]%andb_true_iff Hb]%andb_true_iff. split; [done|]. split; [|by destruct excluded].
  intros sb E _. rewrite E in Hb. destruct (validator_last_proposed_block _) as [last| |] eqn:El; [|done..].
  apply andb_true_iff in Hb as [Ha Hanc]. destruct (lookup_block_elem _ _ E) as (b & Hnb & <- & <-).
  assert (Eb : verified_block_new_verified sample_hash (vb_block b) (vb_serialized b) = b).
  { destruct network_blocks_ok as [Hall _]. rewrite Forall_forall in Hall. destruct (Hall b Hnb) as (_ & _ & Hd & _).
    destruct b as [sb d bytes]. by simpl in *; subst. }
  rewrite Eb. left. split_and!; [done|by apply negb_true_iff, N.eqb_neq in Ha|].
  intros last' a El' Hin Hown. left. rewrite El in El'. injection El' as <-.
  rewrite forallb_forall in Hanc. specialize (Hanc a (proj1 (list_elem_of_In _ _) Hin)).
  rewrite Hown, N.eqb_refl in Hanc. by apply N.leb_le in Hanc.
Qed.

Lemma run_ok_reachable own events self self' :
  network_reachable own self -> run_ok own self events = true ->
  foldM (sample_step sample_network) events self = Ok self' -> network_reachable own self'.
Proof.
  revert self. induction events as [|e events IH]; intros self Hr; simpl; [by intros _ [= <-]|].
  intros [Hok Hrun]%andb_true_iff. destruct (sample_step sample_network self e) as [mid| |] eqn:E; simpl; [|done..].
  apply IH; [|done]. eapply validator_stepped; [exact Hr|by apply sent_ok_admissible|exact E].
Qed.

Lemma network_run_reachable own self :
  own ∈ [0; 1; 2; 3] -> network_run own = Ok self -> network_reachable own self.
Proof.
  intros Hin E. pose proof network_runs_ok as Hall. rewrite forallb_forall in Hall.
  specialize (Hall own (proj1 (list_elem_of_In _ _) Hin)). unfold network_run in E.
  destruct (sample_start own) as [start| |] eqn:Es; [|done..].
  by eapply run_ok_reachable; [apply validator_started, Es|exact Hall|exact E].
Qed.

Lemma network_run_own own self b :
  own ∈ [0; 1; 2; 3] -> network_run own = Ok self -> b ∈ own_blocks (vn_core self) -> network_block b.
Proof.
  intros Hin E Hb. unfold network_block. rewrite <-sample_network_made. apply list_elem_of_bind. exists own.
  split; [|done]. rewrite E. exact Hb.
Qed.

Lemma ran_Ok (o : outcome (ValidatorNode MemStore)) : match o with Ok _ => true | _ => false end = true -> exists self, o = Ok self.
Proof. destruct o as [self| |]; [by exists self|done..]. Qed.

Lemma network_runs : exists self0 self1, network_run 0 = Ok self0 /\ network_run 1 = Ok self1.
Proof.
  destruct (ran_Ok (network_run 0)) as [self0 E0]; [vm_compute; reflexivity|].
  destruct (ran_Ok (network_run 1)) as [self1 E1]; [vm_compute; reflexivity|].
  exists self0, self1. split; [exact E0|exact E1].
Qed.

Lemma validator_never_panics_witness :
  (exists self, sample_start 0 = Ok self)
  /\ exists self, network_run 0 = Ok self /\ ct_running (vn_thread self) = true.
Proof.
  destruct (validator_never_panics slot_bytes commit_bytes sample_hash (lookup_block sample_network) no_ref (sample_context 0)
    (sample_context 0) ∅ network_block sample_clock sample_key false (sample_network_ok 0) (sample_seat_ok 0 eq_refl)
    sample_decoding_ok) as [Hstart Hrun].
  split; [exact Hstart|]. destruct network_runs as (self & _ & E & _). exists self. split; [exact E|].
  apply Hrun, network_run_reachable; [apply list_elem_of_here|exact E].
Defined.

Lemma validator_broadcasts_valid_chain_witness :
  exists self, network_run 0 = Ok self /\ length (own_blocks (vn_core self)) = 7%nat
    /\ StronglySorted (fun x y => round x < round y) (own_blocks (vn_core self)).
Proof.
  destruct network_runs as (self & _ & E & _). exists self. split; [exact E|]. split.
  - assert (Hlen : length (blocks_of (network_run 0)) = 7%nat) by (vm_compute; reflexivity). rewrite E in Hlen. exact Hlen.
  - apply (validator_broadcasts_valid_chain slot_bytes commit_bytes sample_hash (lookup_block sample_network) no_ref (sample_context 0)
      (sample_context 0) ∅ network_block sample_clock sample_key false self (sample_network_ok 0) (sample_seat_ok 0 eq_refl)
      sample_decoding_ok), network_run_reachable; [apply list_elem_of_here|exact E].
Defined.

Lemma validators_agree_witness :
  exists self0 self1, network_run 0 = Ok self0 /\ network_run 1 = Ok self1
    /\ (fh_sent (co_handle (vn_core self0)) `prefix_of` fh_sent (co_handle (vn_core self1))
        \/ fh_sent (co_handle (vn_core self1)) `prefix_of` fh_sent (co_handle (vn_core self0))).
Proof.
  destruct network_runs as (self0 & self1 & E0 & E1). exists self0, self1. split; [exact E0|]. split; [exact E1|].
  assert (Hin0 : 0 ∈ [0; 1; 2; 3]) by apply list_elem_of_here.
  assert (Hin1 : 1 ∈ [0; 1; 2; 3]) by apply list_elem_of_further, list_elem_of_here.
  apply (validators_agree slot_bytes commit_bytes sample_hash (lookup_block sample_network) no_ref (sample_context 0)
    (sample_context 0) (sample_context 1) ∅ network_block sample_clock sample_clock sample_key sample_key false false self0 self1
    (sample_network_ok 0) sample_decoding_ok (sample_seat_ok 0 eq_refl) (sample_seat_ok 1 eq_refl)).
  - exact (network_run_reachable 0 self0 Hin0 E0).
  - exact (network_run_reachable 1 self1 Hin1 E1).
  - intros b [Hb|Hb]%elem_of_app; [exact (network_run_own 0 self0 b Hin0 E0 Hb)|exact (network_run_own 1 self1 b Hin1 E1 Hb)].
Defined.
