(* ===== verification/CommitSyncerTheorems.v ===== *)
(** * Commits from peers

    What a validator accepts from the peers that it syncs commits from: chains
    of commits that a quorum voted for, with the blocks that they name.  And
    how its schedule covers the commits that it misses. *)

From S2P Require Import Prelude Committee Context Block StakeAggregator ThresholdClock Commit CommitVoteMonitor Error RoundTracker Store LeaderScoring Ancestor TransactionConsumer DagState VoteTracker DagInv Evolve DagOps DagLink DagAccept DagInclude SampleDag Linearizer CommitObserver LinearizerSpec LinearizerOps BlockManager BlockManagerInv BlockManagerDag LeaderSchedule ScheduleRun BlockVerifier BaseCommitter UniversalCommitter CommitRule Agreement TryDecide Core CommitSequence CommitBatch CoreThread ValidatorProposer AuthorityService Synchronizer ProposerAncestors ProposerBlock CoreInv CoreTurn CoreTheorems ValidatorInv ValidatorRun ValidatorSample ValidatorTheorems CommitSyncer CommitSyncerSpec CommitSyncerSchedule.

(* ------------------------------------------------------------------ *)
(** ** Certified chains *)

Section certified.
Context {CR : Crypto} {TV : TransactionVerifier} (default_hash : list byte -> N).
Context (block_from_bytes : list byte -> option SignedBlock) (commit_from_bytes : list byte -> option Commit).

(** The bytes of a block that the verifier accepts. *)
Definition accepted_block (v : SignedBlockVerifier) (bytes : list byte) (b : VerifiedBlock) : Prop :=
  exists sb rejects, block_from_bytes bytes = Some sb /\ verify_and_vote default_hash v sb bytes = Ok (Success (b, rejects)).

(** The authors of the blocks that vote for a commit. *)
Definition end_voters (end_commit : CommitRef) (blocks : list VerifiedBlock) : gset N :=
  list_to_set (author <$> List.filter (fun b => bool_decide (end_commit ∈ commit_votes b)) blocks).

(** The commits of a response, and a quorum of votes for the last of them. *)
Record certified (v : SignedBlockVerifier) (range : CommitRange) (sers vsers : list (list byte))
    (commits : list TrustedCommit) (votes : list VerifiedBlock) : Prop := {
  ct_chain : exists k chain, parsed default_hash commit_from_bytes range (take k sers) chain
    /\ overruns commit_from_bytes range chain (drop k sers)
    /\ commits = zip_with (fun dc s => trusted_commit_new_trusted default_hash dc.2 s) chain sers;
  ct_votes : Forall2 (accepted_block v) vsers votes;
  ct_quorum : exists final, last commits = Some final
    /\ reached_quorum (committee (sv_context v))
         (stake_of (committee (sv_context v)) (end_voters (mkCommitRef (commit_index final) (tcm_digest final)) votes)) = true;
}.

(** A vote counts once for its author. *)
Lemma count_end_votes_Ok c end_commit (agg : StakeAggregator QuorumThreshold) b :
  committee_wf c -> agg_wf c agg -> is_valid_index c (author b) = true ->
  exists agg', count_end_votes c end_commit agg b = Ok agg' /\ agg_wf c agg'
    /\ StakeAggregator.votes agg' = end_voters end_commit [b] ∪ StakeAggregator.votes agg.
Proof.
  intros Hwf Hagg Hb. unfold count_end_votes.
  enough (Hl : forall l (agg : StakeAggregator QuorumThreshold), agg_wf c agg ->
    exists agg', foldM (fun agg vote => if bool_decide (vote = end_commit) then fst <$> stake_aggregator_add agg (author b) c else Ok agg)
        l agg = Ok agg' /\ agg_wf c agg'
      /\ StakeAggregator.votes agg'
         = (if bool_decide (end_commit ∈ l) then {[author b]} else ∅) ∪ StakeAggregator.votes agg).
  { destruct (Hl (commit_votes b) agg Hagg) as (agg' & E & W & Hv). exists agg'. split_and!; [done|done|]. rewrite Hv. f_equal.
    unfold end_voters. cbn [List.filter]. destruct (bool_decide _); [|done]. symmetry. apply (right_id_L ∅ (∪)). }
  clear agg Hagg. intros l. induction l as [|vote l IH]; intros agg Hagg; cbn [foldM].
  { exists agg. rewrite bool_decide_eq_false_2 by apply not_elem_of_nil. split_and!; [done|done|]. symmetry. apply (left_id_L ∅ (∪)). }
  destruct (decide (vote = end_commit)) as [->|Hne].
  - rewrite bool_decide_eq_true_2 by done. destruct (add_Ok c Hwf agg (author b) Hagg Hb) as (agg1 & -> & Hv1 & W1).
    cbn [fmap outcome_fmap mbind outcome_bind fst]. destruct (IH agg1 W1) as (agg' & -> & W' & Hv'). exists agg'. split_and!; [done|done|].
    rewrite Hv', Hv1, (bool_decide_eq_true_2 (end_commit ∈ end_commit :: l)) by apply list_elem_of_here. case_bool_decide; set_solver.
  - rewrite bool_decide_eq_false_2 by done. cbn [mbind outcome_bind]. destruct (IH agg Hagg) as (agg' & -> & W' & Hv').
    exists agg'. split_and!; [done|done|]. rewrite Hv'. f_equal.
    erewrite bool_decide_ext; [reflexivity|]. rewrite elem_of_cons. naive_solver.
Qed.

Notation trust := (zip_with (fun dc s => trusted_commit_new_trusted default_hash dc.2 s)).

Lemma trust_last range k sers chain d cm :
  parsed default_hash commit_from_bytes range (take k sers) chain -> last chain = Some (d, cm) ->
  exists final, last (trust chain sers) = Some final /\ commit_index final = commit_index cm /\ tcm_digest final = d.
Proof.
  intros P El. apply last_Some in El as [l ->]. pose proof (ps_bytes _ _ _ _ _ P) as Hb.
  apply Forall2_app_inv_r in Hb as (s1 & s2 & Hb1 & Hb2 & Es). apply Forall2_cons_inv_r in Hb2 as (s & s3 & [_ Hd] & Hb3 & ->).
  apply Forall2_nil_inv_r in Hb3 as ->. cbn [fst] in Hd.
  assert (Esers : sers = s1 ++ s :: drop k sers) by (rewrite <-(take_drop k sers) at 1; by rewrite Es, <-(assoc (++))).
  exists (trusted_commit_new_trusted default_hash cm s). split_and!; [|done|by rewrite Hd].
  rewrite Esers, zip_with_app by (symmetry; by apply Forall2_length in Hb1). cbn [zip_with snd]. by rewrite last_snoc.
Qed.

Lemma trust_elem range k sers chain x :
  parsed default_hash commit_from_bytes range (take k sers) chain -> x ∈ trust chain sers ->
  exists i dc s, chain !! i = Some dc /\ take k sers !! i = Some s /\ x = trusted_commit_new_trusted default_hash dc.2 s
    /\ commit_index x = commit_range_start range + N.of_nat i.
Proof.
  intros P [i Hi]%list_elem_of_lookup. rewrite lookup_zip_with in Hi.
  destruct (chain !! i) as [dc|] eqn:Ec; [|done]. destruct (sers !! i) as [s|] eqn:Es; [|done]. injection Hi as <-.
  destruct (Forall2_lookup_r _ _ _ _ _ (ps_bytes _ _ _ _ _ P) Ec) as (s' & Es' & _).
  assert (s' = s) as -> by (apply lookup_take_Some in Es'; destruct Es'; congruence).
  exists i, dc, s. split_and!; [done|done|done|]. apply (ps_index _ _ _ _ _ P i dc Ec).
Qed.

(** Two certified chains that end with one commit are the same where both
    have commits; if they end with two, those who voted for both hold more
    stake than may be faulty. *)
Lemma certified_agree c v1 v2 range1 range2 sers1 sers2 vsers1 vsers2 commits1 commits2 votes1 votes2 final1 final2 :
  committee_wf c -> committee (sv_context v1) = c -> committee (sv_context v2) = c ->
  certified v1 range1 sers1 vsers1 commits1 votes1 -> certified v2 range2 sers2 vsers2 commits2 votes2 ->
  (forall s1 s2, s1 ∈ sers1 -> s2 ∈ sers2 -> default_hash s1 = default_hash s2 -> s1 = s2) ->
  last commits1 = Some final1 -> last commits2 = Some final2 -> commit_index final1 = commit_index final2 ->
  (forall x1 x2, x1 ∈ commits1 -> x2 ∈ commits2 -> commit_index x1 = commit_index x2 -> x1 = x2)
  \/ (tcm_digest final1 <> tcm_digest final2
      /\ reached_validity c (stake_of c (end_voters (mkCommitRef (commit_index final1) (tcm_digest final1)) votes1
                                         ∩ end_voters (mkCommitRef (commit_index final2) (tcm_digest final2)) votes2)) = true).
Proof.
  intros Hwf Hc1 Hc2 [(k1 & chain1 & P1 & _ & ->) _ (f1 & F1 & Q1)] [(k2 & chain2 & P2 & _ & ->) _ (f2 & F2 & Q2)] Hinj L1 L2 Hi.
  rewrite L1 in F1. injection F1 as <-. rewrite L2 in F2. injection F2 as <-. rewrite Hc1 in Q1. rewrite Hc2 in Q2.
  destruct (decide (tcm_digest final1 = tcm_digest final2)) as [Hd|Hd]; [left|right; split; [done|]].
  2: { destruct (reached_validity c _) eqn:Ev; [done|]. destruct (quorum_intersection c _ _ _ Hwf Q1 Q2 Ev) as (a & A1 & A2 & A3 & _).
       destruct A3. by apply elem_of_intersection. }
  assert (Hlast : forall range k sers chain final, parsed default_hash commit_from_bytes range (take k sers) chain ->
    last (trust chain sers) = Some final ->
    exists cm, last chain = Some (tcm_digest final, cm) /\ commit_index final + 1 = commit_range_start range + N.of_nat (length chain)).
  { intros range k sers chain final P L. destruct (last chain) as [[d cm]|] eqn:El; [|apply last_None in El as ->; done].
    destruct (trust_last range k sers chain d cm P El) as (final' & L' & Hi' & <-). rewrite L in L'. injection L' as <-.
    exists cm. split; [done|]. apply last_Some in El as [l ->]. rewrite Hi', length_app. cbn [length].
    destruct (ps_index _ _ _ _ _ P (length l) (tcm_digest final, cm)) as [E _]; [by apply list_lookup_middle|]. cbn [snd] in E. lia. }
  destruct (Hlast range1 k1 sers1 chain1 final1 P1 L1) as (cm1 & E1 & I1). destruct (Hlast range2 k2 sers2 chain2 final2 P2 L2) as (cm2 & E2 & I2).
  intros x1 x2 Hx1 Hx2 Hx. destruct (trust_elem range1 k1 sers1 chain1 x1 P1 Hx1) as (i & dc1 & s1 & Ei & Es1 & -> & Ix1).
  destruct (trust_elem range2 k2 sers2 chain2 x2 P2 Hx2) as (j & dc2 & s2 & Ej & Es2 & -> & Ix2).
  pose proof (lookup_lt_Some _ _ _ Ei). pose proof (lookup_lt_Some _ _ _ Ej). rewrite <-Hd in E2.
  rewrite Ix1, Ix2 in Hx. rewrite Hi in I1.
  assert (Hinj' : forall s s', s ∈ take k1 sers1 -> s' ∈ take k2 sers2 -> default_hash s = default_hash s' -> s = s').
  { intros s s' Hs Hs'. apply Hinj; [by eapply subseteq_take|by eapply subseteq_take]. }
  destruct (parsed_agree default_hash commit_from_bytes range1 range2 _ _ chain1 chain2 _ cm1 cm2 P1 P2 Hinj' E1 E2
    (length chain1 - i - 1) i j) as [Es Ec]; [lia|lia|congruence].
Qed.
End certified.

(* ------------------------------------------------------------------ *)
(** ** Verifying a response *)

Section nodes.
Context {RN : Rng} {RL : RngLaws} {CR : Crypto} {CL : CryptoLaws} {TV : TransactionVerifier}.
Context (bcs_to_bytes : SignedBlock -> list byte) (bcs_commit : Commit -> list byte) (default_hash : list byte -> N).
Context (block_from_bytes : list byte -> option SignedBlock) (commit_from_bytes : list byte -> option Commit).
Context (ctx : Context) (byz : gset N) (univ : VerifiedBlock -> Prop) (Hnw : network_ok bcs_to_bytes default_hash ctx byz univ).
Context (context : Context) (key : key_pair) (clock : Clock) (Hst : seat_ok ctx context key clock).
Context (Hdec : decoding_ok block_from_bytes).
Notation c := (committee ctx).
Notation vnode := (vnode bcs_to_bytes bcs_commit default_hash ctx univ context key).
Notation verifier := (signed_block_verifier_new bcs_to_bytes default_hash context).
Notation accepted := (accepted_block default_hash block_from_bytes verifier).
Notation certified_by := (certified default_hash block_from_bytes commit_from_bytes verifier).
Implicit Types (self : ValidatorNode MemStore) (K : list VerifiedBlock).

Lemma verifier_committee : committee (sv_context verifier) = c.
Proof using Hst. simpl. apply (seat_committee ctx context key clock Hst). Qed.

Lemma network_committee_wf : committee_wf c.
Proof using Hnw. apply (cf_committee _ (nw_config _ _ _ _ _ Hnw)). Qed.

(** Every block gets an answer; those accepted are valid. *)
Lemma verify_bytes_Ok bytes sb :
  block_from_bytes bytes = Some sb ->
  exists r, verify_and_vote default_hash verifier sb bytes = Ok r
    /\ forall b rejects, r = Success (b, rejects) ->
         b = verified_block_new_verified default_hash sb bytes /\ valid_block verifier sb.
Proof using Hnw Hst Hdec.
  intros E. apply verify_and_vote_Ok; [rewrite verifier_committee; apply network_committee_wf|by apply (Hdec bytes)].
Qed.

Lemma accepted_valid bytes b :
  accepted bytes b -> exists sb, block_from_bytes bytes = Some sb /\ b = verified_block_new_verified default_hash sb bytes
    /\ valid_block verifier sb /\ is_valid_index c (author b) = true.
Proof using Hnw Hst Hdec.
  intros (sb & rejects & Es & Ev). destruct (verify_bytes_Ok bytes sb Es) as (r & Er & Hr). rewrite Ev in Er. injection Er as <-.
  destruct (Hr b rejects eq_refl) as [-> V]. exists sb. split_and!; [done|done|done|].
  rewrite <-verifier_committee. apply (vv_author _ _ V).
Qed.

Lemma accepted_unique vsers bs bs' : Forall2 accepted vsers bs -> Forall2 accepted vsers bs' -> bs = bs'.
Proof.
  intros Hbs. revert bs'. induction Hbs as [|bytes b vsers bs (sb & rejects & Es & Ev) _ IH]; intros bs' Hbs'.
  - by apply Forall2_nil_inv_l in Hbs' as ->.
  - apply Forall2_cons_inv_l in Hbs' as (b' & bs1 & (sb' & rejects' & Es' & Ev') & Hbs1 & ->). rewrite (IH bs1 Hbs1). congruence.
Qed.

Lemma end_voters_cons e b bs : end_voters e (b :: bs) = end_voters e [b] ∪ end_voters e bs.
Proof.
  unfold end_voters. cbn [List.filter]. destruct (bool_decide _); [|symmetry; apply (left_id_L ∅ (∪))].
  rewrite !fmap_cons, !list_to_set_cons. cbn [fmap list_fmap list_to_set]. set_solver.
Qed.

Lemma verify_vote_blocks_Ok e vsers : forall self K agg acc,
  vnode self K -> agg_wf c agg ->
  exists self' res, verify_vote_blocks default_hash block_from_bytes self e vsers agg acc = Ok (self', res) /\ vnode self' K
    /\ later (vn_core self) K (vn_core self') K
    /\ match res with
       | Success (agg', blocks) => agg_wf c agg' /\ exists bs, blocks = acc ++ bs /\ Forall2 accepted vsers bs
           /\ StakeAggregator.votes agg' = end_voters e bs ∪ StakeAggregator.votes agg
       | Err _ => forall bs, ~ Forall2 accepted vsers bs
       end.
Proof using Hnw Hst Hdec RL CL.
  induction vsers as [|bytes vsers IH]; intros self K agg acc Hv Hagg; cbn [verify_vote_blocks].
  { exists self, (Success (agg, acc)). split_and!; [done|done|apply later_refl|done|]. exists [].
    rewrite app_nil_r. split_and!; [done|constructor|]. symmetry. apply (left_id_L ∅ (∪)). }
  destruct (block_from_bytes bytes) as [sb|] eqn:Es.
  2: { exists self, (Err MalformedBlock). split_and!; [done|done|apply later_refl|]. intros bs Hbs.
       apply Forall2_cons_inv_l in Hbs as (b & bs' & (sb & rejects & Es' & _) & _). congruence. }
  rewrite (vn_verifies _ _ _ _ _ _ _ _ _ Hv).
  destruct (verify_bytes_Ok bytes sb Es) as (r & Er & Hr). rewrite Er. cbn [mbind outcome_bind].
  destruct r as [[b rejects]|err].
  2: { exists self, (Err err). split_and!; [done|done|apply later_refl|]. intros bs Hbs.
       apply Forall2_cons_inv_l in Hbs as (b & bs' & (sb' & rejects & Es' & Ev') & _). congruence. }
  assert (Hb : accepted bytes b) by (by exists sb, rejects).
  destruct (accepted_valid bytes b Hb) as (_ & _ & _ & _ & Ha).
  rewrite (vnode_context _ _ _ _ _ _ _ _ _ Hv).
  destruct (vote_vnode bcs_to_bytes bcs_commit default_hash ctx byz univ Hnw context key clock Hst self K [(b, rejects)] Hv)
    as (s1 & -> & N1 & L1 & _ & _); [by intros b' v' [= -> ->]%list_elem_of_singleton|].
  cbn [mbind outcome_bind]. rewrite (seat_committee ctx context key clock Hst).
  destruct (count_end_votes_Ok c e agg b network_committee_wf Hagg Ha) as (agg1 & -> & W1 & Hv1). cbn [mbind outcome_bind].
  destruct (IH s1 K agg1 (acc ++ [b]) N1 W1) as (s2 & res & E2 & N2 & L2 & Hres).
  exists s2, res. split_and!; [done|done|by eapply later_trans|]. destruct res as [[agg2 blocks]|err].
  - destruct Hres as (W2 & bs & -> & Hbs & Hv2). split; [done|]. exists (b :: bs). split_and!; [by rewrite <-(assoc (++))|by constructor|].
    rewrite Hv2, Hv1, (end_voters_cons e b bs), (assoc_L (∪)). by rewrite (comm_L (∪) (end_voters e bs)).
  - intros bs Hbs. apply Forall2_cons_inv_l in Hbs as (b' & bs' & _ & Hbs' & ->). by apply (Hres bs').
Qed.

Notation trust := (zip_with (fun dc s => trusted_commit_new_trusted default_hash dc.2 s)).

(** A validator accepts exactly the certified chains. *)
Lemma verify_commits_Ok self K peer range sers vsers :
  vnode self K -> commit_range_end range < u32_MAX ->
  exists self' res, verify_commits default_hash block_from_bytes commit_from_bytes self peer range sers vsers = Ok (self', res)
    /\ vnode self' K /\ later (vn_core self) K (vn_core self') K
    /\ forall commits votes, res = Success (commits, votes) <-> certified_by range sers vsers commits votes.
Proof using Hnw Hst Hdec RL CL.
  intros Hv Hend. unfold verify_commits.
  pose proof (fun chain => parse_commits_iff default_hash commit_from_bytes peer range sers chain Hend) as Hparse.
  destruct (parse_commits _ _ _ _ _ _) as [chain|err].
  2: { exists self, (Err err). split_and!; [done|done|apply later_refl|]. intros commits votes. split; [done|].
       intros [(k & chain & P & Ho & _) _ _]. pose proof (proj2 (Hparse chain) (ex_intro _ k (conj P Ho))). done. }
  destruct (proj1 (Hparse chain) eq_refl) as (k & P & Ho).
  assert (Huniq : forall commits votes, certified_by range sers vsers commits votes -> commits = trust chain sers).
  { intros commits votes [(k' & chain' & P' & Ho' & ->) _ _].
    by injection (proj2 (Hparse chain') (ex_intro _ k' (conj P' Ho'))) as ->. }
  destruct (last chain) as [[d cm]|] eqn:El.
  2: { apply last_None in El as ->. exists self, (Err (NoCommitReceived peer)). split_and!; [done|done|apply later_refl|].
       intros commits votes. split; [done|]. intros C. pose proof (Huniq _ _ C) as ->. by destruct (ct_quorum _ _ _ _ _ _ _ _ _ C) as (? & ? & _). }
  destruct (trust_last default_hash commit_from_bytes range k sers chain d cm P El) as (final & Hf & Hi & Hd).
  destruct (verify_vote_blocks_Ok (mkCommitRef (commit_index cm) d) vsers self K stake_aggregator_new [] Hv
    (agg_new_wf c network_committee_wf))
    as (s1 & res & -> & N1 & L1 & Hres). unfold node_try. cbn [mbind outcome_bind].
  destruct res as [[agg blocks]|err].
  2: { exists s1, (Err err). split_and!; [done..|]. intros commits votes. split; [done|]. intros C.
       by destruct (Hres votes (ct_votes _ _ _ _ _ _ _ _ _ C)). }
  destruct Hres as (W & bs & -> & Hbs & Hvotes). cbn [app]. rewrite (vnode_context _ _ _ _ _ _ _ _ _ N1), (seat_committee ctx context key clock Hst).
  assert (Hq : reached_threshold agg c = reached_quorum c (stake_of c (end_voters (mkCommitRef (commit_index final) (tcm_digest final)) bs))).
  { unfold reached_threshold. cbn [is_threshold QuorumThreshold_impl]. f_equal. rewrite (agg_exact _ _ W), Hvotes, Hi, Hd. f_equal. set_solver. }
  rewrite Hq. destruct (reached_quorum _ _) eqn:Er; cbn [negb]; eexists s1, _; (split_and!; [done..|]); intros commits votes; split.
  - intros [= <- <-]. constructor; [by exists k, chain|done|]. exists final. by rewrite verifier_committee.
  - intros C. pose proof (Huniq _ _ C) as ->. by rewrite (accepted_unique _ _ _ Hbs (ct_votes _ _ _ _ _ _ _ _ _ C)).
  - done.
  - intros C. pose proof (Huniq _ _ C) as ->. destruct (ct_quorum _ _ _ _ _ _ _ _ _ C) as (final' & Hf' & Hq').
    rewrite Hf in Hf'. injection Hf' as <-. rewrite <-(accepted_unique _ _ _ Hbs (ct_votes _ _ _ _ _ _ _ _ _ C)), verifier_committee in Hq'.
    congruence.
Qed.

(* ------------------------------------------------------------------ *)
(** ** An attempt to fetch *)

Definition peer_known (peer : PeerId) : Prop :=
  match peer with Validator index => is_valid_index c index = true | Observer _ => True end.

Lemma check_drift_Ok self K peer b :
  vnode self K -> peer_known peer ->
  exists self', check_drift self peer b = Ok self' /\ vnode self' K /\ later (vn_core self) K (vn_core self') K.
Proof using Hst.
  intros Hv Hp. unfold check_drift.
  destruct (timestamp_vnode bcs_to_bytes bcs_commit default_hash ctx univ context key self K Hv) as (s1 & now & -> & N1 & L1 & _ & _).
  cbn [mbind outcome_bind]. destruct (_ =? 0); [by exists s1|]. destruct peer as [index|]; [|by exists s1].
  rewrite (vnode_context _ _ _ _ _ _ _ _ _ N1), (seat_committee ctx context key clock Hst).
  destruct (committee_authority_Ok c index Hp) as [au ->]. by exists s1.
Qed.

(** Steps that keep a node, in a row. *)
Lemma foldM_vnode {A} (f : ValidatorNode MemStore -> A -> outcome (ValidatorNode MemStore)) l self K :
  vnode self K ->
  (forall s x, vnode s K -> x ∈ l -> exists s', f s x = Ok s' /\ vnode s' K /\ later (vn_core s) K (vn_core s') K) ->
  exists self', foldM f l self = Ok self' /\ vnode self' K /\ later (vn_core self) K (vn_core self') K.
Proof.
  intros Hv Hf. apply (foldM_total (fun s => vnode s K /\ later (vn_core self) K (vn_core s) K)); [split; [done|apply later_refl]|].
  intros x s Hx [Hs Hl]. destruct (Hf s x Hs Hx) as (s' & E & N' & L'). exists s'. split_and!; [done|done|by eapply later_trans].
Qed.

Lemma record_fetched_Ok self K commits votes :
  vnode self K -> (forall b, b ∈ (commits ≫= cc_blocks) ++ votes -> wf_block c b) ->
  exists self', record_fetched self commits votes = Ok self' /\ vnode self' K /\ later (vn_core self) K (vn_core self') K.
Proof using Hnw Hst RL CL.
  intros Hv Hwf. unfold record_fetched. rewrite (vnode_context _ _ _ _ _ _ _ _ _ Hv).
  assert (Hvote : exists s1, (if transaction_voting_enabled (protocol_config context)
      then foldM (fun self block => node_add_voted_blocks self [(block, [])]) (commits ≫= cc_blocks) self else Ok self) = Ok s1
    /\ vnode s1 K /\ later (vn_core self) K (vn_core s1) K).
  { destruct (transaction_voting_enabled _) eqn:Ev; [|exists self; split_and!; [done|done|apply later_refl]].
    apply foldM_vnode; [done|]. intros s b Hs Hb.
    destruct (vote_vnode bcs_to_bytes bcs_commit default_hash ctx byz univ Hnw context key clock Hst s K [(b, [])] Hs)
      as (s' & E & N' & L' & _); [|rewrite Ev in E; by exists s'].
    intros b' v' [= -> ->]%list_elem_of_singleton. apply (wb_author c), Hwf, elem_of_app. by left. }
  destruct Hvote as (s1 & -> & N1 & L1). cbn [mbind outcome_bind].
  destruct (foldM_total (fun m => vnode (set_monitor s1 m) K) observe_block ((commits ≫= cc_blocks) ++ votes) (vn_monitor s1))
    as (m & -> & Nm).
  { destruct N1. by constructor. }
  { intros b m Hb Hm. apply (observe_vnode bcs_to_bytes bcs_commit default_hash ctx univ context key (set_monitor s1 m) K b Hm).
    by apply (wb_author c), Hwf. }
  cbn [mbind outcome_bind].
  destruct (foldM_vnode (fun self block => node_track_block self (mkExtendedBlock block [])) ((commits ≫= cc_blocks) ++ votes)
    (set_monitor s1 m) K Nm) as (s2 & E2 & N2 & L2); [|exists s2; split_and!; [done|done|by eapply later_trans]].
  intros s b Hs Hb. destruct (track_vnode bcs_to_bytes bcs_commit default_hash ctx univ context key clock Hst s K b [] Hs (Hwf b Hb))
    as (s' & E' & N' & L' & _); [by intros r Hr%not_elem_of_nil|by exists s'].
Qed.

Notation names commits := (commits ≫= (fun commit : TrustedCommit => commit_blocks commit)).

(** The certified commits among bytes are commits of the network: they name
    no block twice, and what they name is well-formed, as are the blocks that
    vote for them. *)
Definition network_commits (range : CommitRange) (sers vsers : list (list byte)) : Prop :=
  forall commits votes, certified_by range sers vsers commits votes ->
    NoDup (names commits) /\ (forall b, b ∈ votes -> wf_block c b)
    /\ forall b, decoded default_hash block_from_bytes b -> reference b ∈ names commits -> wf_block c b.

(** A peer that has the blocks. *)
Definition serves (answers : PeerAnswers) (refs : list BlockRef) : Prop :=
  forall request, request ⊆ refs -> exists blocks,
    pa_fetch_blocks answers request = Success ((fun b => vb_serialized b) <$> blocks) /\ reference <$> blocks = request
    /\ Forall (fun b => b = verified_block_new_verified default_hash (vb_block b) (vb_serialized b)
                        /\ block_from_bytes (vb_serialized b) = Some (vb_block b)) blocks.

Lemma chunks_fetched peer answers requests fetched :
  Forall2 (fun refs blocks => fetch_chunk default_hash block_from_bytes peer answers refs = Success blocks) requests fetched ->
  reference <$> mjoin fetched = mjoin requests /\ Forall (decoded default_hash block_from_bytes) (mjoin fetched).
Proof.
  induction 1 as [|refs blocks requests fetched E _ [IH1 IH2]]; [done|]. apply fetch_chunk_sound in E as [E1 E2].
  change (mjoin (blocks :: fetched)) with (blocks ++ mjoin fetched). change (mjoin (refs :: requests)) with (refs ++ mjoin requests).
  rewrite fmap_app, E1, IH1. split; [done|by apply Forall_app].
Qed.

Lemma chunks_served peer answers refs requests :
  serves answers refs -> mjoin requests ⊆ refs ->
  exists fetched, collect_results (fetch_chunk default_hash block_from_bytes peer answers) requests = Success fetched.
Proof.
  intros Hs. induction requests as [|request requests IH]; intros Hin; [by exists []|].
  change (request ++ mjoin requests ⊆ refs) in Hin.
  destruct IH as [fetched E]; [intros r Hr; apply Hin, elem_of_app; by right|].
  destruct (Hs request) as (blocks & Ea & <- & Hb); [intros r Hr; apply Hin, elem_of_app; by left|].
  exists (blocks :: fetched). cbn [collect_results]. by rewrite (fetch_chunk_complete _ _ peer answers blocks Ea Hb), E.
Qed.

(** Once the commits are verified. *)
Lemma fetched_Ok self K peer answers commits votes :
  vnode self K -> peer_known peer -> NoDup (names commits) -> (forall b, b ∈ votes -> wf_block c b) ->
  (forall b, decoded default_hash block_from_bytes b -> reference b ∈ names commits -> wf_block c b) ->
  forall requests fetched, mjoin requests ≡ₚ names commits ->
  Forall2 (fun refs blocks => fetch_chunk default_hash block_from_bytes peer answers refs = Success blocks) requests fetched ->
  exists self1 ccs m self', foldM (fun self block => check_drift self peer block)
        ((btree_map_iter (by_reference (mjoin fetched))).*2 ++ votes) self = Ok self1
    /\ foldM assign_blocks commits (by_reference (mjoin fetched), []) = Ok (m, ccs)
    /\ record_fetched self1 ccs votes = Ok self' /\ vnode self' K /\ later (vn_core self) K (vn_core self') K
    /\ Forall2 (fun commit cc => cc_commit cc = commit /\ reference <$> cc_blocks cc = commit_blocks commit) commits ccs.
Proof using Hnw Hst RL CL.
  intros Hv Hp Hnd Hvotes Hwf requests fetched Hperm Hf.
  destruct (chunks_fetched peer answers requests fetched Hf) as [Hrefs Hdecoded].
  destruct (foldM_vnode (fun self block => check_drift self peer block) ((btree_map_iter (by_reference (mjoin fetched))).*2 ++ votes) self K Hv)
    as (s1 & E1 & N1 & L1); [intros s b Hs _; by apply check_drift_Ok|].
  destruct (assign_blocks_Ok commits (by_reference (mjoin fetched)) [] Hnd) as (m & ccs & E2 & Hccs & Hin).
  { intros r Hr. pose proof (by_reference_lookup (mjoin fetched) r) as Hl. destruct (by_reference (mjoin fetched) !! r) as [b|].
    - exists b. by destruct Hl.
    - destruct Hl. by rewrite Hrefs, Hperm. }
  destruct (record_fetched_Ok s1 K ccs votes N1) as (s2 & E3 & N2 & L2).
  { intros b [Hb|Hb]%elem_of_app; [|by apply Hvotes]. specialize (Hin b Hb).
    pose proof (by_reference_lookup (mjoin fetched) (reference b)) as Hl. rewrite Hin in Hl. destruct Hl as [Hl _]. apply Hwf.
    - rewrite Forall_forall in Hdecoded. by apply Hdecoded.
    - rewrite <-Hperm, <-Hrefs. by apply list_elem_of_fmap_2. }
  exists s1, ccs, m, s2. split_and!; [done|done|done|done|by eapply later_trans|done].
Qed.

(** What an attempt returns, when it succeeds, and when it must. *)
Record attempt_ok (range : CommitRange) (answers : PeerAnswers) (res : ConsensusResult CertifiedCommits) : Prop := {
  at_sound : forall fetched, res = Success fetched -> exists sers vsers commits,
    pa_fetch_commits answers = Success (sers, vsers) /\ certified_by range sers vsers commits (ccs_votes fetched)
    /\ Forall2 (fun commit cc => cc_commit cc = commit /\ reference <$> cc_blocks cc = commit_blocks commit) commits (ccs_commits fetched);
  at_complete : forall sers vsers commits votes,
    pa_probe_connectivity answers = Success tt -> pa_fetch_commits answers = Success (sers, vsers) ->
    certified_by range sers vsers commits votes -> serves answers (names commits) -> exists fetched, res = Success fetched;
}.

Lemma fetch_once_Ok self K peer range answers :
  vnode self K -> commit_range_end range < u32_MAX -> max_blocks_per_fetch (parameters context) <> 0 -> peer_known peer ->
  (forall sers vsers, pa_fetch_commits answers = Success (sers, vsers) -> network_commits range sers vsers) ->
  exists self' res, fetch_once default_hash block_from_bytes commit_from_bytes self peer range answers = Ok (self', res)
    /\ vnode self' K /\ later (vn_core self) K (vn_core self') K /\ attempt_ok range answers res.
Proof using Hnw Hst Hdec RL CL.
  intros Hv Hend Hmax Hp Hnet. unfold fetch_once. destruct (pa_probe_connectivity answers) as [[]|e] eqn:Eprobe.
  2: { exists self, (Err e). split_and!; [done|done|apply later_refl|]. split; [done|]. intros. congruence. }
  destruct (pa_fetch_commits answers) as [[sers vsers]|e] eqn:Ec.
  2: { exists self, (Err e). split_and!; [done|done|apply later_refl|]. split; [done|]. intros. congruence. }
  destruct (verify_commits_Ok self K peer range sers vsers Hv Hend) as (s1 & res & -> & N1 & L1 & Hres).
  unfold node_try. cbn [mbind outcome_bind]. destruct res as [[commits votes]|e].
  2: { exists s1, (Err e). split_and!; [done..|]. split; [done|]. intros sers' vsers' commits votes _ Ec' C _.
       rewrite Ec in Ec'. injection Ec' as <- <-. by apply Hres in C. }
  pose proof (proj1 (Hres commits votes) eq_refl) as C. destruct (Hnet sers vsers eq_refl commits votes C) as (Hnd & Hvotes & Hwf).
  rewrite (vnode_context _ _ _ _ _ _ _ _ _ N1).
  destruct (chunks_join (max_blocks_per_fetch (parameters context)) (stable_sort block_ref_leb (names commits)) Hmax)
    as (requests & -> & Hjoin & _). cbn [mbind outcome_bind].
  assert (Hperm : mjoin requests ≡ₚ names commits) by (rewrite Hjoin; apply stable_sort_perm).
  destruct (collect_results _ requests) as [fetched|e] eqn:Ef.
  2: { exists s1, (Err e). split_and!; [done..|]. split; [done|]. intros sers' vsers' commits' votes' _ Ec' C' Hs.
       rewrite Ec in Ec'. injection Ec' as <- <-. apply Hres in C'. injection C' as <- <-.
       destruct (chunks_served peer answers (names commits) requests Hs) as [fetched E]; [by rewrite Hperm|congruence]. }
  destruct (fetched_Ok s1 K peer answers commits votes N1 Hp Hnd Hvotes Hwf requests fetched Hperm) as (s2 & ccs & m & s3 & E2 & E3 & E4 & N3 & L3 & Hccs).
  { by apply collect_results_Success. }
  fold (by_reference (mjoin fetched)). rewrite E2. cbn [mbind outcome_bind]. rewrite E3. cbn [mbind outcome_bind fst snd]. rewrite E4.
  cbn [mbind outcome_bind]. eexists s3, _. split_and!; [done|done|by eapply later_trans|]. split; [|by eexists].
  intros ? [= <-]. by exists sers, vsers, commits.
Qed.
End nodes.

(* ------------------------------------------------------------------ *)
(** ** Properties *)

(** C11: Commit sync accepts exactly certified commits.  At any validator that
    was reached, for any bytes that a peer returns for a range of commits,
    [verify_commits] returns, the core keeps running, and it succeeds exactly
    when the bytes begin with commits that are consecutive from the start of
    the range, each with the digest of the one before, up to the end of the
    range or of the response, and the blocks that come with them are accepted
    by the block verifier and vote for the last commit with a quorum of the
    stake, every author counted once.  The result is these commits, with the
    hashes of their bytes, and these blocks. *)
Theorem verify_commits_exact `{RngLaws} `{CryptoLaws} `{TransactionVerifier}
    (bcs_to_bytes : SignedBlock -> list byte) (bcs_commit : Commit -> list byte) (default_hash : list byte -> N)
    (block_from_bytes : list byte -> option SignedBlock) (ref_from_bytes : list byte -> option BlockRef)
    (commit_from_bytes : list byte -> option Commit) (ctx context : Context) (byz : gset N) (univ : VerifiedBlock -> Prop)
    (clock : Clock) (key : key_pair) (sync : bool) (self : ValidatorNode MemStore)
    (peer : PeerId) (range : CommitRange) (sers vsers : list (list byte)) :
  network_ok bcs_to_bytes default_hash ctx byz univ -> seat_ok ctx context key clock -> decoding_ok block_from_bytes ->
  validator_reachable bcs_to_bytes bcs_commit default_hash block_from_bytes ref_from_bytes context univ clock key sync self ->
  commit_range_end range < u32_MAX ->
  exists self' res, verify_commits default_hash block_from_bytes commit_from_bytes self peer range sers vsers = Ok (self', res)
    /\ ct_running (vn_thread self') = true
    /\ forall commits votes, res = Success (commits, votes)
         <-> certified default_hash block_from_bytes commit_from_bytes (signed_block_verifier_new bcs_to_bytes default_hash context)
               range sers vsers commits votes.
Proof.
  intros Hnw Hst Hdec Hr Hend.
  destruct (reachable_vnode bcs_to_bytes bcs_commit default_hash block_from_bytes ref_from_bytes ctx byz univ Hnw
    context key clock Hst Hdec sync self Hr) as (K & N).
  destruct (verify_commits_Ok bcs_to_bytes bcs_commit default_hash block_from_bytes commit_from_bytes ctx byz univ Hnw
    context key clock Hst Hdec self K peer range sers vsers N Hend) as (self' & res & E & N' & _ & Hres).
  exists self', res. split_and!; [done|apply (vn_run _ _ _ _ _ _ _ _ _ N')|done].
Qed.

(** C12: A fork of synced commits exposes those who made it.  Let two validators
    accept commits from peers, and let the two last commits have the same
    index.  Unless two of the encoded commits have the same hash, either the
    validators got the same commit at every index that both have, or the last
    commits differ and the authorities that voted for both of them hold at
    least the validity threshold, more stake than may be faulty. *)
Theorem synced_commits_agree `{RngLaws} `{CryptoLaws} `{TransactionVerifier}
    (bcs_to_bytes : SignedBlock -> list byte) (bcs_commit : Commit -> list byte) (default_hash : list byte -> N)
    (block_from_bytes : list byte -> option SignedBlock) (ref_from_bytes : list byte -> option BlockRef)
    (commit_from_bytes : list byte -> option Commit) (ctx context1 context2 : Context) (byz : gset N) (univ : VerifiedBlock -> Prop)
    (clock1 clock2 : Clock) (key1 key2 : key_pair) (sync1 sync2 : bool) (self1 self2 self1' self2' : ValidatorNode MemStore)
    (peer1 peer2 : PeerId) (range1 range2 : CommitRange) (sers1 sers2 vsers1 vsers2 : list (list byte))
    (commits1 commits2 : list TrustedCommit) (votes1 votes2 : list VerifiedBlock) (final1 final2 : TrustedCommit) :
  network_ok bcs_to_bytes default_hash ctx byz univ -> decoding_ok block_from_bytes ->
  seat_ok ctx context1 key1 clock1 -> seat_ok ctx context2 key2 clock2 ->
  validator_reachable bcs_to_bytes bcs_commit default_hash block_from_bytes ref_from_bytes context1 univ clock1 key1 sync1 self1 ->
  validator_reachable bcs_to_bytes bcs_commit default_hash block_from_bytes ref_from_bytes context2 univ clock2 key2 sync2 self2 ->
  commit_range_end range1 < u32_MAX -> commit_range_end range2 < u32_MAX ->
  verify_commits default_hash block_from_bytes commit_from_bytes self1 peer1 range1 sers1 vsers1 = Ok (self1', Success (commits1, votes1)) ->
  verify_commits default_hash block_from_bytes commit_from_bytes self2 peer2 range2 sers2 vsers2 = Ok (self2', Success (commits2, votes2)) ->
  (forall s1 s2, s1 ∈ sers1 -> s2 ∈ sers2 -> default_hash s1 = default_hash s2 -> s1 = s2) ->
  last commits1 = Some final1 -> last commits2 = Some final2 -> commit_index final1 = commit_index final2 ->
  (forall x1 x2, x1 ∈ commits1 -> x2 ∈ commits2 -> commit_index x1 = commit_index x2 -> x1 = x2)
  \/ (tcm_digest final1 <> tcm_digest final2
      /\ reached_validity (committee ctx) (stake_of (committee ctx)
           (end_voters (mkCommitRef (commit_index final1) (tcm_digest final1)) votes1
            ∩ end_voters (mkCommitRef (commit_index final2) (tcm_digest final2)) votes2)) = true).
Proof.
  intros Hnw Hdec Hst1 Hst2 Hr1 Hr2 Hend1 Hend2 E1 E2.
  destruct (reachable_vnode bcs_to_bytes bcs_commit default_hash block_from_bytes ref_from_bytes ctx byz univ Hnw
    context1 key1 clock1 Hst1 Hdec sync1 self1 Hr1) as (K1 & N1).
  destruct (reachable_vnode bcs_to_bytes bcs_commit default_hash block_from_bytes ref_from_bytes ctx byz univ Hnw
    context2 key2 clock2 Hst2 Hdec sync2 self2 Hr2) as (K2 & N2).
  destruct (verify_commits_Ok bcs_to_bytes bcs_commit default_hash block_from_bytes commit_from_bytes ctx byz univ Hnw
    context1 key1 clock1 Hst1 Hdec self1 K1 peer1 range1 sers1 vsers1 N1 Hend1) as (s1 & res1 & F1 & _ & _ & Hres1).
  destruct (verify_commits_Ok bcs_to_bytes bcs_commit default_hash block_from_bytes commit_from_bytes ctx byz univ Hnw
    context2 key2 clock2 Hst2 Hdec self2 K2 peer2 range2 sers2 vsers2 N2 Hend2) as (s2 & res2 & F2 & _ & _ & Hres2).
  rewrite E1 in F1. injection F1 as _ <-. rewrite E2 in F2. injection F2 as _ <-.
  eapply (certified_agree default_hash block_from_bytes commit_from_bytes).
  - exact (network_committee_wf bcs_to_bytes default_hash ctx byz univ Hnw).
  - exact (verifier_committee bcs_to_bytes default_hash ctx context1 key1 clock1 Hst1).
  - exact (verifier_committee bcs_to_bytes default_hash ctx context2 key2 clock2 Hst2).
  - by apply Hres1.
  - by apply Hres2.
Qed.

(** C21: An attempt to fetch commits gets them with their blocks.  Take any
    validator that was reached, a range below the end of the type of indices, a
    known peer, and any answers of it for which [network_commits] holds: if the
    commits among them are certified by a quorum, then they name no block twice
    and only well-formed blocks, and the blocks that vote are well-formed.
    [fetch_once] then returns, however the requests are cut into chunks and
    whatever blocks come back, and the core keeps running.  Success means that
    the commits are certified, and that each comes with the blocks that it
    names, by their hashes and in their order.  And it does succeed with a
    reachable peer that returns certified commits and serves their blocks. *)
Theorem fetch_once_correct `{RngLaws} `{CryptoLaws} `{TransactionVerifier}
    (bcs_to_bytes : SignedBlock -> list byte) (bcs_commit : Commit -> list byte) (default_hash : list byte -> N)
    (block_from_bytes : list byte -> option SignedBlock) (ref_from_bytes : list byte -> option BlockRef)
    (commit_from_bytes : list byte -> option Commit) (ctx context : Context) (byz : gset N) (univ : VerifiedBlock -> Prop)
    (clock : Clock) (key : key_pair) (sync : bool) (self : ValidatorNode MemStore)
    (peer : PeerId) (range : CommitRange) (answers : PeerAnswers) :
  network_ok bcs_to_bytes default_hash ctx byz univ -> seat_ok ctx context key clock -> decoding_ok block_from_bytes ->
  validator_reachable bcs_to_bytes bcs_commit default_hash block_from_bytes ref_from_bytes context univ clock key sync self ->
  commit_range_end range < u32_MAX -> max_blocks_per_fetch (parameters context) <> 0 -> peer_known ctx peer ->
  (forall sers vsers, pa_fetch_commits answers = Success (sers, vsers) ->
     network_commits bcs_to_bytes default_hash block_from_bytes commit_from_bytes ctx context range sers vsers) ->
  exists self' res, fetch_once default_hash block_from_bytes commit_from_bytes self peer range answers = Ok (self', res)
    /\ ct_running (vn_thread self') = true
    /\ attempt_ok bcs_to_bytes default_hash block_from_bytes commit_from_bytes context range answers res.
Proof.
  intros Hnw Hst Hdec Hr Hend Hmax Hp Hnet.
  destruct (reachable_vnode bcs_to_bytes bcs_commit default_hash block_from_bytes ref_from_bytes ctx byz univ Hnw
    context key clock Hst Hdec sync self Hr) as (K & N).
  destruct (fetch_once_Ok bcs_to_bytes bcs_commit default_hash block_from_bytes commit_from_bytes ctx byz univ Hnw
    context key clock Hst Hdec self K peer range answers N Hend Hmax Hp Hnet) as (self' & res & E & N' & _ & Hres).
  exists self', res. split_and!; [done|apply (vn_run _ _ _ _ _ _ _ _ _ N')|done].
Qed.

(** C20: Commit sync misses no commit and fetches none twice.  Whatever peers
    answer and in whatever order fetches end, in full, in part or not at all,
    while the core runs and the indices that a quorum voted for stay a batch
    below the end of their type: every commit that was scheduled and is not
    synced is in exactly one of the pending, in-flight and fetched ranges, and
    no commit is in two; a fetched range holds exactly its commits, in order;
    and no more fetches are in flight than configured.  Scheduling does not
    panic, and afterwards fewer commits than a batch are neither synced nor
    scheduled, of those that a quorum voted for and the consumer has room
    for. *)
Theorem commit_syncer_covers `{Rng} `{Crypto} `{TransactionVerifier} {S} `{Store S}
    (bcs_to_bytes : SignedBlock -> list byte) (bcs_commit : Commit -> list byte) (default_hash : list byte -> N)
    (block_from_bytes : list byte -> option SignedBlock) (commit_from_bytes : list byte -> option Commit)
    (context : Context) (peers limit : N) (self : ValidatorNode S) (syncer : CommitSyncer) :
  let batch := commit_sync_batch_size (parameters context) in
  let step := commit_syncer_step bcs_to_bytes bcs_commit default_hash block_from_bytes commit_from_bytes context peers in
  batch <> 0 -> limit + batch < u32_MAX ->
  syncer_reachable bcs_to_bytes bcs_commit default_hash block_from_bytes commit_from_bytes context peers limit (self, syncer) ->
  (forall i, (cover i (syncer_ranges syncer) <= 1)%nat)
  /\ (forall i, 1 <= i <= scheduled syncer -> cy_synced_commit_index syncer < i -> cover i (syncer_ranges syncer) = 1%nat)
  /\ (forall k commits, cy_fetched_ranges syncer !! k = Some commits -> commit_indices commits = indices_of k)
  /\ N.of_nat (length (cy_inflight_fetches syncer)) <= N.max 1 (commit_sync_parallel_fetches (parameters context))
  /\ forall handled, quorum_commit_index context (vn_monitor self) <= limit ->
       exists syncer', step (self, syncer) (ScheduleTick handled) = Ok (self, syncer')
         /\ N.min (quorum_commit_index context (vn_monitor self)) (u32_add handled (unhandled_commits_threshold context))
            < N.max (cy_synced_commit_index syncer') (scheduled syncer') + batch.
Proof.
  intros batch step Hb Hlim Hr.
  pose proof (syncer_reachable_ok _ _ _ _ _ context peers limit (self, syncer) Hb Hlim Hr) as Hok. cbn [snd] in Hok.
  split_and!; [apply (sc_once _ _ _ Hok)|apply (sc_all _ _ _ Hok)|apply (sc_commits _ _ _ Hok)|apply (sc_parallel _ _ _ Hok)|].
  intros handled Hq.
  destruct (try_schedule_ok context limit syncer _ (last_commit_index (co_dag (vn_core self))) handled Hok Hb Hq Hlim) as (s' & E & Hs & _ & Hall).
  unfold step. cbn [commit_syncer_step]. rewrite E. cbn [mbind outcome_bind]. eexists. split; [done|].
  destruct (try_start_ok context limit s' peers Hs) as (_ & -> & Es). unfold scheduled at 1. rewrite Es. exact Hall.
Qed.

(* ------------------------------------------------------------------ *)
(** ** Witnesses *)

#[local] Existing Instances first_rng first_rng_laws toy_crypto toy_crypto_laws accept_all.

(** The commits of a validator of the sample network, that others may sync. *)
Definition sample_commits : list TrustedCommit := Eval vm_compute in
  match network_run 1 with
  | Ok self => match scan_commits (ds_store (co_dag (vn_core self))) (commit_range_new 1 3) with Ok commits => commits | _ => [] end
  | _ => []
  end.

Definition lookup_commit (bytes : list byte) : option Commit :=
  (fun commit => tcm_inner commit) <$> head (List.filter (fun commit => bool_decide (tcm_serialized commit = bytes)) sample_commits).

Definition served_commits : list (list byte) := (fun commit => tcm_serialized commit) <$> sample_commits.

(** The blocks that vote for the third commit. *)
Definition vote_blocks : list VerifiedBlock := List.filter (fun b => round b =? 6) sample_network.

Definition served_votes : list (list byte) := (fun b => vb_serialized b) <$> vote_blocks.

Definition blocks_named (refs : list BlockRef) : list VerifiedBlock :=
  omap (fun r => head (List.filter (fun b => bool_decide (reference b = r)) sample_network)) refs.

Definition sample_answers : PeerAnswers :=
  mkPeerAnswers (Success tt) (Success (served_commits, served_votes))
    (fun refs => Success ((fun b => vb_serialized b) <$> blocks_named refs)).

Definition sample_sync (own : N) (first : N) : outcome (ConsensusResult (list TrustedCommit * list VerifiedBlock)) :=
  self ← sample_start own;
  snd <$> verify_commits sample_hash (lookup_block sample_network) lookup_commit self (Validator 1) (commit_range_new first 3)
            (drop (N.to_nat first - 1) served_commits) served_votes.

(** A validator that has just started accepts them. *)
Lemma sample_syncs :
  sample_sync 0 1 = Ok (Success (sample_commits, vote_blocks)) /\ sample_sync 2 2 = Ok (Success (drop 1 sample_commits, vote_blocks)).
Proof. split; vm_compute; reflexivity. Qed.

Lemma Ok_Success {A B} (a a' : A) (b : B) r : Ok (a, Success b) = Ok (a', r) -> r = Success b.
Proof. by intros [= _ <-]. Qed.

Lemma Success_pair {A B} (a a' : A) (b b' : B) : Success (a, b) = Success (a', b') -> a' = a /\ b' = b.
Proof. by intros [= <- <-]. Qed.

Lemma sample_verified own first r :
  sample_sync own first = Ok (Success r) ->
  exists self self', network_reachable own self
    /\ verify_commits sample_hash (lookup_block sample_network) lookup_commit self (Validator 1) (commit_range_new first 3)
         (drop (N.to_nat first - 1) served_commits) served_votes = Ok (self', Success r).
Proof.
  intros (self & Es & E)%bind_Ok. exists self. destruct (verify_commits _ _ _ _ _ _ _ _) as [[self' res]| |] eqn:Ev; try done.
  injection E as ->. exists self'. split; [by apply validator_started|done].
Qed.

Lemma verify_commits_exact_witness :
  exists self self', network_reachable 0 self
    /\ verify_commits sample_hash (lookup_block sample_network) lookup_commit self (Validator 1) (commit_range_new 1 3)
         served_commits served_votes = Ok (self', Success (sample_commits, vote_blocks))
    /\ certified sample_hash (lookup_block sample_network) lookup_commit
         (signed_block_verifier_new slot_bytes sample_hash (sample_context 0)) (commit_range_new 1 3) served_commits served_votes
         sample_commits vote_blocks.
Proof.
  destruct (sample_verified 0 1 _ (proj1 sample_syncs)) as (self & self' & Hr & E). exists self, self'. split; [exact Hr|]. split; [exact E|].
  destruct (verify_commits_exact slot_bytes commit_bytes sample_hash (lookup_block sample_network) no_ref lookup_commit (sample_context 0)
    (sample_context 0) ∅ network_block sample_clock sample_key false self (Validator 1) (commit_range_new 1 3) served_commits served_votes
    (sample_network_ok 0) (sample_seat_ok 0 eq_refl) sample_decoding_ok Hr eq_refl) as (self1 & res & E1 & _ & Hres).
  apply Hres, (Ok_Success self' self1). rewrite <-E1. symmetry. exact E.
Defined.

Lemma served_distinct s1 s2 : s1 ∈ served_commits -> s2 ∈ drop 1 served_commits -> sample_hash s1 = sample_hash s2 -> s1 = s2.
Proof.
  assert (Hall : Forall (fun s1 => Forall (fun s2 => sample_hash s1 = sample_hash s2 -> s1 = s2) (drop 1 served_commits)) served_commits)
    by (apply (bool_decide_eq_true_1 _); vm_compute; reflexivity).
  intros H1 H2. rewrite Forall_forall in Hall. specialize (Hall s1 H1). rewrite Forall_forall in Hall. by apply Hall.
Qed.

Lemma synced_commits_agree_witness :
  length sample_commits = 3%nat
  /\ forall x1 x2, x1 ∈ sample_commits -> x2 ∈ drop 1 sample_commits -> commit_index x1 = commit_index x2 -> x1 = x2.
Proof.
  split; [reflexivity|].
  destruct (sample_verified 0 1 _ (proj1 sample_syncs)) as (self1 & self1' & Hr1 & E1).
  destruct (sample_verified 2 2 _ (proj2 sample_syncs)) as (self2 & self2' & Hr2 & E2).
  destruct (last sample_commits) as [final|] eqn:El; [|done].
  destruct (synced_commits_agree slot_bytes commit_bytes sample_hash (lookup_block sample_network) no_ref lookup_commit (sample_context 0)
    (sample_context 0) (sample_context 2) ∅ network_block sample_clock sample_clock sample_key sample_key false false self1 self2 self1' self2'
    (Validator 1) (Validator 1) (commit_range_new 1 3) (commit_range_new 2 3) served_commits (drop 1 served_commits) served_votes served_votes
    sample_commits (drop 1 sample_commits) vote_blocks vote_blocks final final
    (sample_network_ok 0) sample_decoding_ok (sample_seat_ok 0 eq_refl) (sample_seat_ok 2 eq_refl) Hr1 Hr2 eq_refl eq_refl E1 E2) as [Hsame|[]].
  - exact served_distinct.
  - exact El.
  - exact El.
  - reflexivity.
  - exact Hsame.
  - done.
Defined.

Lemma sample_names_distinct : NoDup (sample_commits ≫= (fun commit => commit_blocks commit)).
Proof. apply (bool_decide_eq_true_1 _). vm_compute. reflexivity. Qed.

(** They are all that is certified. *)
Lemma sample_certified commits votes :
  certified sample_hash (lookup_block sample_network) lookup_commit (signed_block_verifier_new slot_bytes sample_hash (sample_context 0))
    (commit_range_new 1 3) served_commits served_votes commits votes ->
  commits = sample_commits /\ votes = vote_blocks.
Proof.
  intros C. destruct (sample_verified 0 1 _ (proj1 sample_syncs)) as (self & self' & Hr & E).
  destruct (reachable_vnode slot_bytes commit_bytes sample_hash (lookup_block sample_network) no_ref (sample_context 0) ∅ network_block
    (sample_network_ok 0) (sample_context 0) sample_key sample_clock (sample_seat_ok 0 eq_refl) sample_decoding_ok false self Hr) as (K & N).
  destruct (verify_commits_Ok slot_bytes commit_bytes sample_hash (lookup_block sample_network) lookup_commit (sample_context 0) ∅ network_block
    (sample_network_ok 0) (sample_context 0) sample_key sample_clock (sample_seat_ok 0 eq_refl) sample_decoding_ok self K (Validator 1)
    (commit_range_new 1 3) served_commits served_votes N eq_refl) as (self1 & res & E1 & _ & _ & Hres).
  apply Hres in C. subst res. pose proof (eq_trans (eq_sym E) E1) as E2. by apply Ok_Success, eq_sym, Success_pair in E2.
Qed.

Lemma network_decoded b : decoded sample_hash (lookup_block sample_network) b -> wf_block (test_committee 4) b.
Proof.
  intros (bytes & sb & Es & ->). destruct (lookup_block_elem bytes sb Es) as (b & Hb & <- & <-).
  destruct network_blocks_ok as [Hall _]. rewrite Forall_forall in Hall. destruct (Hall b Hb) as (Hwf & _ & Hd & _).
  destruct b as [sb d bytes]. simpl in Hd. by subst d.
Qed.

Lemma vote_blocks_wf b : b ∈ vote_blocks -> wf_block (test_committee 4) b.
Proof.
  unfold vote_blocks. rewrite list_elem_of_In, filter_In, <-list_elem_of_In. intros [Hb _]. destruct network_blocks_ok as [Hall _].
  rewrite Forall_forall in Hall. by apply Hall.
Qed.

Lemma sample_network_commits :
  network_commits slot_bytes sample_hash (lookup_block sample_network) lookup_commit (sample_context 0) (sample_context 0)
    (commit_range_new 1 3) served_commits served_votes.
Proof.
  intros commits votes [-> ->]%sample_certified. split_and!.
  - exact sample_names_distinct.
  - exact vote_blocks_wf.
  - intros b Hb _. by apply network_decoded.
Qed.

Lemma sample_answers_network sers vsers :
  pa_fetch_commits sample_answers = Success (sers, vsers) ->
  network_commits slot_bytes sample_hash (lookup_block sample_network) lookup_commit (sample_context 0) (sample_context 0)
    (commit_range_new 1 3) sers vsers.
Proof.
  unfold sample_answers. cbn [pa_fetch_commits]. intros [-> ->]%Success_pair. exact sample_network_commits.
Qed.

Lemma fetch_once_correct_witness :
  exists self self' fetched, network_reachable 0 self
    /\ fetch_once sample_hash (lookup_block sample_network) lookup_commit self (Validator 1) (commit_range_new 1 3) sample_answers
       = Ok (self', Success fetched)
    /\ (fun cc => length (cc_blocks cc)) <$> ccs_commits fetched = [1; 3; 4]%nat.
Proof.
  assert (Hc : (self ← sample_start 0; r ← fetch_once sample_hash (lookup_block sample_network) lookup_commit self (Validator 1)
      (commit_range_new 1 3) sample_answers;
      Ok match r.2 with Success fetched => (fun cc => length (cc_blocks cc)) <$> ccs_commits fetched | Err _ => [] end) = Ok [1; 3; 4]%nat)
    by (vm_compute; reflexivity).
  apply bind_Ok in Hc as (self & Es & Hc). exists self.
  destruct (fetch_once_correct slot_bytes commit_bytes sample_hash (lookup_block sample_network) no_ref lookup_commit (sample_context 0)
    (sample_context 0) ∅ network_block sample_clock sample_key false self (Validator 1) (commit_range_new 1 3) sample_answers
    (sample_network_ok 0) (sample_seat_ok 0 eq_refl) sample_decoding_ok (validator_started _ _ _ _ _ _ _ _ _ _ _ Es) eq_refl ltac:(done) eq_refl)
    as (self' & res & E & _ & _).
  - exact sample_answers_network.
  - rewrite E in Hc. cbn [mbind outcome_bind snd] in Hc. destruct res as [fetched|]; [|done]. injection Hc as Hc.
    exists self', fetched. split; [by apply validator_started|]. split; [exact E|exact Hc].
Defined.

(** The other validators have voted for three hundred commits. *)
Definition sample_monitor : CommitVoteMonitor := mkCommitVoteMonitor [300; 300; 300; 300].

Definition sample_tick (self : ValidatorNode MemStore) : outcome (ValidatorNode MemStore * CommitSyncer) :=
  commit_syncer_step slot_bytes commit_bytes sample_hash (lookup_block sample_network) lookup_commit (sample_context 0) 3
    (set_monitor self sample_monitor, commit_syncer_new (co_dag (vn_core self))) (ScheduleTick 0).

Lemma sample_ticks :
  exists self self' syncer, sample_tick self = Ok (self', syncer) /\ ct_running (vn_thread self') = true
    /\ scheduled syncer = 300 /\ cy_synced_commit_index syncer = 0 /\ length (cy_inflight_fetches syncer) = 2%nat.
Proof.
  assert (Hc : (self ← sample_start 0; r ← sample_tick self;
      Ok (ct_running (vn_thread r.1), scheduled r.2, cy_synced_commit_index r.2, length (cy_inflight_fetches r.2))) = Ok (true, 300, 0, 2%nat))
    by (vm_compute; reflexivity).
  apply bind_Ok in Hc as (self & _ & Hc). apply bind_Ok in Hc as ([self' syncer] & E & Hc).
  exists self, self', syncer. split; [exact E|]. by injection Hc as -> -> -> ->.
Qed.

Lemma commit_syncer_covers_witness :
  exists syncer, length (cy_inflight_fetches syncer) = 2%nat /\ forall i, 1 <= i <= 300 -> cover i (syncer_ranges syncer) = 1%nat.
Proof.
  destruct sample_ticks as (self & self' & syncer & E & Hrun & Hs & Hz & Hl). exists syncer. split; [exact Hl|].
  intros i Hi. apply (commit_syncer_covers slot_bytes commit_bytes sample_hash (lookup_block sample_network) lookup_commit (sample_context 0) 3 300
    self' syncer).
  - vm_compute. discriminate.
  - reflexivity.
  - eapply syncer_stepped; [| |exact E|exact Hrun]; [eapply syncer_waited, syncer_started|vm_compute; discriminate].
  - rewrite Hs. exact Hi.
  - rewrite Hz. lia.
Defined.
