(* ===== verification/FinalizerCommits.v ===== *)
(** * The commits of a node are what the finalizer relies on

    The composition of the core with the commit finalizer.  The sequence of
    commits that a network decides, and that every observer sends to its
    finalizer, has the properties which the theorems about the finalizer
    assume of a stream of commits. *)

From S2P Require Import Prelude Committee Context Block StakeAggregator ThresholdClock Commit Error Store LeaderScoring DagState VoteTracker DagInv Evolve DagOps DagLink DagAccept Linearizer CommitObserver LinearizerSpec LinearizerOps LeaderSchedule ScheduleRun BlockManager BlockManagerInv SampleDag CommitFinalizer FinalizerVotes FinalizerLinks FinalizerAccept FinalizerInv FinalizerTheorems BaseCommitter UniversalCommitter CommitRule Agreement FinalizerAgreement TryDecide CommitSequence Core CoreInv CoreTheorems.

(** The leader schedule stayed the same while these commits were made. *)
Definition schedule_unchanged `{Rng} (ctx : Context) (leader : N -> N) (log : list CommittedSubDag) : Prop :=
  forall log', log' `prefix_of` log -> exists sc table, in_force ctx log' = Ok (sc, table) /\ leader_of ctx table = leader.

Section commits.
Context {RN : Rng} {RL : RngLaws} {S : Type} {ST : Store S} {SL : StoreLaws S}.
Context (bcs_commit : Commit -> list byte) (default_hash : list byte -> N).
Context (ctx : Context) (Hctx : config_ok ctx).
Context (byz : gset N) (univ : VerifiedBlock -> Prop) (gen : gmap BlockRef VerifiedBlock).
Notation c := (committee ctx).
Context (Hu : honest_universe c byz univ) (Hsu : sound_universe c gen univ).
Context (Hfits : forall b, univ b -> N.of_nat (length (transactions b)) <= u16_MAX).
Implicit Types s : DagState S.
Notation commits_to := (commits_to bcs_commit default_hash ctx univ gen (S := S)).
Notation sequence := (sequence bcs_commit default_hash ctx univ gen (S := S)).
Notation dag_ok := (dag_ok ctx univ gen).
Notation logged := (logged ctx).

(** The round of the last commit. *)
Definition last_round (last : option TrustedCommit) : N := default 0 ((fun t => br_round (commit_leader t)) <$> last).

Lemma sub_dag_fresh context s b s' sd :
  commit_one bcs_commit default_hash context (s, []) b = Ok (s', [sd]) ->
  rejected_transactions_by_block sd = ∅ /\ recovered_rejected_transactions sd = false.
Proof.
  unfold commit_one, collect_sub_dag_and_commit. intros E. destruct (linearize_sub_dag b s) as [[s1 to_commit]| |]; try done. simpl in E.
  destruct (calculate_commit_timestamp _ _ _ _); try done. simpl in E. destruct (update_blocks_pruned_metric _ _ _); try done. simpl in E.
  destruct (add_commit _ _); try done. by injection E as _ <-.
Qed.

Lemma reach_hist s b r : good_view c univ s -> reach s b r -> hist univ b r.
Proof.
  intros Hv. induction 1 as [r Hr|r' b' r _ IH Hb Hr]; [by apply hi_one|].
  apply (hist_trans univ b b'); [by eapply gv_univ| |by apply hi_one]. by rewrite (proj1 (view_wf c univ s r' b' Hv Hb)).
Qed.

(** One commit: its leader and blocks, in a state of the DAG. *)
Record commit_facts (log : list CommittedSubDag) (last : option TrustedCommit) (b : VerifiedBlock) (sd : CommittedSubDag)
    (last' : option TrustedCommit) : Prop := {
  cf_leader : sd_leader sd = reference b;
  cf_leader_in : b ∈ sd_blocks sd;
  cf_univ : forall x, x ∈ sd_blocks sd -> univ x /\ (x = b \/ hist univ b (reference x));
  cf_above : forall x, x ∈ sd_blocks sd -> context_gc_round ctx (last_round last) < round x;
  cf_closed : forall x y, y ∈ sd_blocks sd -> univ x -> reference x ∈ ancestors y ->
    context_gc_round ctx (last_round last) < round x -> x ∈ sd_blocks sd \/ reference x ∈ log_refs log;
  cf_fresh : rejected_transactions_by_block sd = ∅ /\ recovered_rejected_transactions sd = false;
  cf_index : sub_index sd = N.of_nat (length log) + 1 /\ N.of_nat (length log) < u32_MAX;
  cf_last : last_round last' = round b;
  cf_log : log_wf c (log ++ [sd]);
  cf_round : last_round last < round b;
}.

Lemma commits_to_facts log last b sd last' : commits_to log last b sd last' -> commit_facts log last b sd last'.
Proof.
  intros (s & s' & sd0 & D & Lg & R & Hidx & E & -> & <-).
  destruct (commit_one_Ok bcs_commit default_hash (ds_context s) s b [] (lg_inv _ _ _ _ Lg) R Hidx) as (s2 & sd2 & E2 & C).
  rewrite E in E2. injection E2 as <- <-. pose proof (dag_ok_view _ _ _ s D) as Hv.
  assert (gc_round s = context_gc_round ctx (last_round last)) as Egc.
  { unfold gc_round, calculate_gc_round, context_gc_round, last_commit_round. rewrite (proj2 (do_config _ _ _ _ D)), (lg_last _ _ _ _ Lg).
    unfold last_round. by destruct last. }
  assert (last_commit_round s = last_round last) as Elr.
  { unfold last_commit_round, last_round. rewrite (lg_last _ _ _ _ Lg). by destruct last. }
  constructor; cbn [set_decided_locally sd_leader sd_blocks rejected_transactions_by_block recovered_rejected_transactions].
  - apply (cm_leader _ _ _ _ _ C).
  - apply (cm_elem _ _ _ _ _ C). split_and!; [apply (rd_view _ _ R)| |apply (rd_committed _ _ R)|by left].
    pose proof (last_round_gc s). pose proof (rd_round _ _ R). lia.
  - intros x (Hx & _ & _ & Hr)%(cm_elem _ _ _ _ _ C). split; [by eapply gv_univ|]. destruct Hr as [->|Hr]; [by left|right; by eapply reach_hist].
  - intros x (_ & Hg & _)%(cm_elem _ _ _ _ _ C). by rewrite <- Egc.
  - intros x y (Hy & _ & _ & Hr)%(cm_elem _ _ _ _ _ C) Ux Ha Hg. rewrite <- Egc in Hg.
    destruct (di_closed s (gv_inv _ _ _ Hv) _ y (reference x) Hy Ha Hg) as [x' Hx'].
    assert (x' = x) as ->. { apply (hu_ref _ _ _ Hu); [by eapply gv_univ|done|]. by apply (view_wf c univ s _ _ Hv). }
    destruct (committed s (reference x)) eqn:Ecm; [right; by apply (lg_marks _ _ _ _ Lg)|left].
    apply (cm_elem _ _ _ _ _ C). split_and!; try done. right. destruct Hr as [->|Hr]; [by apply reach_anc|by eapply reach_step].
  - by eapply sub_dag_fresh.
  - unfold sub_index. cbn [sd_commit_ref set_decided_locally]. rewrite (cm_index _ _ _ _ _ C), (lg_index _ _ _ _ Lg). split; [done|].
    by rewrite <- (lg_index _ _ _ _ Lg).
  - pose proof (cm_last_round _ _ _ _ _ C) as Hl. unfold last_commit_round in Hl. unfold last_round. by destruct (ds_last_commit s').
  - eapply (log_wf_commit _ _ _ s s' log last b sd0); try done.
  - rewrite <- Elr. apply (rd_round _ _ R).
Qed.
Lemma tracker_gc_snoc log sd j : (j <= length log)%nat -> tracker_gc ctx (log ++ [sd]) j = tracker_gc ctx log j.
Proof. intros Hj. destruct j as [|j]; [done|]. simpl. rewrite lookup_app_l by lia. done. Qed.

Lemma snoc_lookup (log : list CommittedSubDag) sd j x :
  (log ++ [sd]) !! j = Some x -> log !! j = Some x \/ (j = length log /\ x = sd).
Proof.
  intros [?|[Hge Hx]]%lookup_app_Some; [by left|right]. apply list_lookup_singleton_Some in Hx as [? <-]. split; [lia|done].
Qed.

(** A later block is not an ancestor of an earlier one. *)
Lemma snoc_causal log last b sd last' :
  committed_stream ctx univ log -> tracker_gc ctx log (length log) = context_gc_round ctx (last_round last) ->
  commit_facts log last b sd last' ->
  forall l1 l2 x y, log ++ [sd] = l1 ++ l2 -> x ∈ pool l2 -> y ∈ pool l1 -> reference x ∉ ancestors y.
Proof.
  intros Cs Hg F l1 l2 x y E Hx Hy Ha. destruct l2 as [|z l2 _] using rev_ind; [inversion Hx|].
  rewrite app_assoc in E. apply app_inj_tail in E as [E ->]. rewrite pool_app in Hx. apply elem_of_app in Hx as [Hx|Hx].
  { revert Ha. apply (so_causal _ _ (fs_stream _ _ (ct_fresh _ _ _ Cs)) l1 l2 x y E Hx Hy). }
  assert (x ∈ sd_blocks z) as Hxz by (unfold pool in Hx; simpl in Hx; by rewrite app_nil_r in Hx). clear Hx.
  assert (y ∈ pool log) as Hyl by (rewrite E, pool_app; apply elem_of_app; by left).
  destruct (cf_univ _ _ _ _ _ F x Hxz) as [Ux _]. pose proof (cf_above _ _ _ _ _ F x Hxz) as Hab. rewrite <- Hg in Hab.
  apply pool_position in Hyl as (j & sdj & Hj & Hyj). pose proof (lookup_lt_Some _ _ _ Hj) as Hlt.
  pose proof (tracker_gc_mono ctx log j (length log) (ct_fresh _ _ _ Cs) ltac:(lia)).
  destruct (ct_closed _ _ _ Cs j sdj x y Hj Hyj Ux Ha ltac:(lia)) as (j' & sd' & _ & Hj' & Hx').
  pose proof (lw_once _ _ (cf_log _ _ _ _ _ F)) as Hnd. rewrite log_refs_app, log_refs_one in Hnd. apply NoDup_app in Hnd as (_ & Hnd & _).
  apply (Hnd (reference x)); [|by apply list_elem_of_fmap_2]. apply list_elem_of_fmap_2. change (x ∈ pool log). apply pool_position. eauto.
Qed.

Lemma stream_snoc log last b sd last' :
  committed_stream ctx univ log -> tracker_gc ctx log (length log) = context_gc_round ctx (last_round last) ->
  commit_facts log last b sd last' -> stream_ok c (log ++ [sd]).
Proof.
  intros Cs Hg F. pose proof (fs_stream _ _ (ct_fresh _ _ _ Cs)) as W. pose proof (cf_log _ _ _ _ _ F) as Lw.
  assert (forall x, x ∈ pool (log ++ [sd]) -> univ x) as Huniv.
  { intros x. rewrite pool_app, elem_of_app. intros [Hx|Hx]; [by apply (ct_univ _ _ _ Cs)|].
    unfold pool in Hx. simpl in Hx. rewrite app_nil_r in Hx. by apply (cf_univ _ _ _ _ _ F). }
  constructor.
  - intros x [Hx| ->%list_elem_of_singleton]%elem_of_app; [by apply (so_blocks _ _ W)|].
    pose proof (cf_leader_in _ _ _ _ _ F) as Hb. by intros E; rewrite E in Hb; inversion Hb.
  - intros x Hx. apply (su_wf _ _ _ Hsu). by apply Huniv.
  - intros x Hx. by apply Hfits, Huniv.
  - apply (lw_once _ _ Lw).
  - intros i j x y Hi Hj. unfold sub_index. rewrite (lw_index _ _ Lw _ _ Hi), (lw_index _ _ Lw _ _ Hj). lia.
  - apply (lw_leaders _ _ Lw).
  - intros x [Hx| ->%list_elem_of_singleton]%elem_of_app; [by apply (so_bounds _ _ W)|].
    destruct (cf_index _ _ _ _ _ F) as [-> ?]. destruct (cf_univ _ _ _ _ _ F b (cf_leader_in _ _ _ _ _ F)) as [Ub _].
    pose proof (su_round _ _ _ Hsu b Ub). unfold sub_round. rewrite (cf_leader _ _ _ _ _ F). simpl. lia.
  - by eapply snoc_causal.
Qed.

Lemma committed_snoc log last b sd last' :
  committed_stream ctx univ log -> tracker_gc ctx log (length log) = context_gc_round ctx (last_round last) ->
  commit_facts log last b sd last' -> committed_stream ctx univ (log ++ [sd]).
Proof.
  intros Cs Hg F. pose proof (stream_snoc log last b sd last' Cs Hg F) as W. constructor; [constructor; [done|..]|..].
  - intros x [Hx| ->%list_elem_of_singleton]%elem_of_app; [by apply (fs_fresh _ _ (ct_fresh _ _ _ Cs))|apply (cf_fresh _ _ _ _ _ F)].
  - intros j x x' y Hj Hj' Hy. apply snoc_lookup in Hj' as [Hj'|[Ej ->]].
    + rewrite lookup_app_l in Hj by (apply lookup_lt_Some in Hj'; lia). by apply (fs_above _ _ (ct_fresh _ _ _ Cs) j x x').
    + rewrite lookup_app_l in Hj by lia. pose proof (cf_above _ _ _ _ _ F y Hy) as Hab. rewrite <- Hg, <- Ej in Hab. simpl in Hab. by rewrite Hj in Hab.
  - intros x. rewrite pool_app, elem_of_app. intros [Hx|Hx]; [by apply (ct_univ _ _ _ Cs)|].
    unfold pool in Hx. simpl in Hx. rewrite app_nil_r in Hx. by apply (cf_univ _ _ _ _ _ F).
  - intros x [Hx| ->%list_elem_of_singleton]%elem_of_app; [by apply (ct_leader _ _ _ Cs)|]. exists b.
    split; [split; [apply (cf_leader_in _ _ _ _ _ F)|symmetry; apply (cf_leader _ _ _ _ _ F)]|]. intros x Hx. by apply (cf_univ _ _ _ _ _ F).
  - intros j x0 x y Hj Hy Ux Ha Hr. apply snoc_lookup in Hj as [Hj|[-> ->]].
    + pose proof (lookup_lt_Some _ _ _ Hj). rewrite tracker_gc_snoc in Hr by lia.
      destruct (ct_closed _ _ _ Cs j x0 x y Hj Hy Ux Ha Hr) as (j' & sd' & ? & ? & ?). exists j', sd'. split_and!; [done|by apply lookup_app_l_Some|done].
    + rewrite tracker_gc_snoc, Hg in Hr by lia. destruct (cf_closed _ _ _ _ _ F x y Hy Ux Ha Hr) as [Hx|Hx].
      * exists (length log), sd. split_and!; [done| |done]. rewrite lookup_app_r, Nat.sub_diag by lia. done.
      * apply list_elem_of_fmap in Hx as (z & Ez & Hz). change (z ∈ pool log) in Hz.
        assert (x = z) as <- by (apply (hu_ref _ _ _ Hu); [done|by apply (ct_univ _ _ _ Cs)|done]).
        apply pool_position in Hz as (j' & sd' & Hj' & Hz). pose proof (lookup_lt_Some _ _ _ Hj').
        exists j', sd'. split_and!; [lia|by apply lookup_app_l_Some|done].
Qed.

Lemma committed_nil : committed_stream ctx univ [].
Proof.
  assert (forall b, b ∉ pool []) as Hp by (intros b Hb; inversion Hb).
  assert (forall sd : CommittedSubDag, sd ∉ []) as Hn by apply not_elem_of_nil.
  constructor; [constructor; [constructor|..]|..]; try done; try (intros x Hx; by destruct (Hp x Hx) || destruct (Hn x Hx)).
  - constructor.
  - constructor.
  - intros l1 l2 x y E Hx. symmetry in E. apply app_nil in E as [-> ->]. inversion Hx.
Qed.

(** The sequence of commits of the network is a stream for finalizers. *)
Lemma sequence_stream ds log last :
  sequence ds log last ->
  committed_stream ctx univ log /\ tracker_gc ctx log (length log) = context_gc_round ctx (last_round last).
Proof.
  induction 1 as [|ds log last sc table sl _ IH _ _|ds log last sc table b sd last' _ [Cs Hg] _ _ Hto].
  - split; [apply committed_nil|]. done.
  - done.
  - pose proof (commits_to_facts _ _ _ _ _ Hto) as F. split; [by eapply committed_snoc|].
    rewrite length_app, Nat.add_1_r. simpl. rewrite lookup_app_r, Nat.sub_diag by lia. simpl.
    unfold sub_round. by rewrite (cf_leader _ _ _ _ _ F), (cf_last _ _ _ _ _ F).
Qed.
(* ------------------------------------------------------------------ *)
(** ** Certificates of the leaders *)

Lemma cert_of_view s y l :
  good_view c univ s -> view s (reference y) = Some y -> round y = round l + 2 -> is_cert c s y l = true -> leader_cert c univ y l.
Proof.
  intros Hv Hy Hr Hq. split_and!; [by eapply gv_univ|done|]. exists (cert_voters s y l). split; [exact Hq|].
  intros a (r & x & Hin & <- & Hx & Hvote)%elem_of_cert_voters. exists x. destruct (view_wf c univ s r x Hv Hx) as [<- _].
  split_and!; [by eapply gv_univ|done|done|done].
Qed.

Lemma certified_anchor s b l :
  good_view c univ s -> certified c s b l -> exists y, leader_cert c univ y l /\ hist univ b (reference y).
Proof.
  intros Hv (y & Hr & Ry & Hy & Hc). exists y. split; [by eapply cert_of_view|by eapply reach_hist].
Qed.

Lemma indirect_found s slot As l :
  indirect c s slot As (StatusCommit l) ->
  exists n A, As !! n = Some (StatusCommit A) /\ (forall j, (j < n)%nat -> exists sl, As !! j = Some (StatusSkip sl))
    /\ certified c s A l /\ slot_of_ref (reference l) = slot /\ view s (reference l) = Some l.
Proof.
  intros I. remember (StatusCommit l) as st eqn:Est. induction I as [|sl As st I IH|sl As|A As st Ha]; try done.
  - destruct (IH Est) as (n & A & Hn & Hj & Hc & ? & ?). exists (Datatypes.S n), A. split_and!; try done.
    intros [|j] Hlt; [by exists sl|]. apply Hj. lia.
  - exists 0%nat, A. subst st. destruct Ha as (? & ? & ?). split_and!; [done|lia|done|done|done].
Qed.

(** The statuses that one schedule decides, round by round. *)
Lemma sequence_decides leader ds log last :
  sequence ds log last ->
  schedule_unchanged ctx leader log ->
  forall k st, ds !! k = Some st -> decides ctx univ (S := S) leader (N.of_nat k + 1) st.
Proof.
  intros Hs. induction Hs as [|ds log last sc t sl Hs IH Fo De|ds log last sc t b sd last' Hs IH Fo De Hto]; intros Hcon k st Hk; [done| |].
  - apply lookup_app_Some in Hk as [Hk|[Hge Hk]]; [by apply IH|]. apply list_lookup_singleton_Some in Hk as [Ek <-].
    destruct (Hcon log ltac:(done)) as (sc' & t' & E & <-). rewrite Fo in E. injection E as <- <-. by replace k with (length ds) by lia.
  - apply lookup_app_Some in Hk as [Hk|[Hge Hk]].
    { apply IH; [|done]. intros log' Hp. apply Hcon. by apply prefix_app_r. }
    apply list_lookup_singleton_Some in Hk as [Ek <-].
    destruct (Hcon log ltac:(by apply prefix_app_r)) as (sc' & t' & E & <-). rewrite Fo in E. injection E as <- <-. by replace k with (length ds) by lia.
Qed.
(** How a committed slot was decided. *)
Lemma decided_commit s slot_at r l L :
  decided_from c s slot_at r (StatusCommit l :: L) ->
  decided_from c s slot_at (r + 1) L /\ slot_of_ref (reference l) = slot_at r /\ view s (reference l) = Some l
  /\ (reached_quorum c (stake_of c (supporters c s l)) = true
      \/ exists n A, L !! (2 + n)%nat = Some (StatusCommit A)
           /\ (forall j, (j < n)%nat -> exists sl, L !! (2 + j)%nat = Some (StatusSkip sl)) /\ certified c s A l).
Proof.
  intros Hd. inversion Hd as [|? ? ? Hd' _ Hq|? ? ? Hd' Hi]; subst.
  - destruct Hq as (E & Hl & Hq). split_and!; [done..|by left].
  - destruct (indirect_found s (slot_at r) (drop 2 L) l Hi) as (n & A & Hn & Hj & Hc & E & Hv).
    split_and!; [done|done|done|]. right. exists n, A. rewrite lookup_drop in Hn. split_and!; [done| |done].
    intros j Hlt. destruct (Hj j Hlt) as [sl Hsl]. rewrite lookup_drop in Hsl. by exists sl.
Qed.

Lemma decides_round leader r b : decides ctx univ (S := S) leader r (StatusCommit b) -> round b = r /\ univ b.
Proof.
  intros (s & L & Hv & _ & Hd & _). destruct (decided_commit s _ r b L Hd) as (_ & E & Hb & _).
  split; [|by eapply gv_univ]. by apply (slot_round b _ E).
Qed.

(** The commits of a run and its committed slots correspond. *)
Record committed_slot (log : list CommittedSubDag) (ds : list LeaderStatus) (i k : nat) (b : VerifiedBlock) : Prop := {
  sl_commit : exists sd, log !! i = Some sd /\ sd_leader sd = reference b;
  sl_status : ds !! k = Some (StatusCommit b);
  sl_univ : univ b;
  sl_round : round b = N.of_nat k + 1;
  sl_view : exists s, good_view c univ s /\ view s (reference b) = Some b /\ gc_round s = tracker_gc ctx log i;
}.

Lemma committed_slot_app log ds log' ds' i k b :
  (i < length log)%nat -> committed_slot log ds i k b -> committed_slot (log ++ log') (ds ++ ds') i k b.
Proof.
  intros Hi [(sd & Hsd & Hl) Hk Ub Hr (s & Hv & Hb & Hg)]. constructor; try done.
  - exists sd. split; [by apply lookup_app_l_Some|done].
  - by apply lookup_app_l_Some.
  - exists s. split_and!; try done. rewrite Hg. destruct i as [|i]; [done|]. simpl. by rewrite lookup_app_l by lia.
Qed.

Lemma commits_to_view log last b sd last' :
  commits_to log last b sd last' ->
  exists s, good_view c univ s /\ view s (reference b) = Some b /\ gc_round s = context_gc_round ctx (last_round last).
Proof.
  intros (s & s' & sd0 & D & Lg & R & _). exists s. split_and!; [by apply (dag_ok_view _ _ gen)|apply (rd_view _ _ R)|].
  unfold gc_round, calculate_gc_round, context_gc_round, last_commit_round. rewrite (proj2 (do_config _ _ _ _ D)), (lg_last _ _ _ _ Lg).
  unfold last_round. by destruct last.
Qed.

Lemma sequence_slots ds log last :
  sequence ds log last ->
  (forall i, (i < length log)%nat -> exists k b, committed_slot log ds i k b)
  /\ (forall k b, ds !! k = Some (StatusCommit b) -> exists i, (i < length log)%nat /\ committed_slot log ds i k b).
Proof.
  intros Hs. induction Hs as [|ds log last sc t sl Hs [IH1 IH2] Fo De|ds log last sc t b sd last' Hs [IH1 IH2] Fo De Hto].
  - split; [simpl; lia|done].
  - rewrite <- (app_nil_r log). split.
    + intros i Hi. rewrite app_nil_r in Hi. destruct (IH1 i Hi) as (k & b & H). exists k, b. by apply committed_slot_app.
    + intros k b [Hk|[Hge Hk]]%lookup_app_Some; [|by apply list_lookup_singleton_Some in Hk as [_ ?]].
      destruct (IH2 k b Hk) as (i & Hi & H). exists i. rewrite app_nil_r at 1. split; [done|by apply committed_slot_app].
  - destruct (decides_round _ _ _ De) as [Rb Ub]. pose proof (commits_to_facts _ _ _ _ _ Hto) as F.
    assert (committed_slot (log ++ [sd]) (ds ++ [StatusCommit b]) (length log) (length ds) b) as Hnew.
    { constructor; try done.
      - exists sd. split; [by rewrite lookup_app_r, Nat.sub_diag by lia|apply (cf_leader _ _ _ _ _ F)].
      - by rewrite lookup_app_r, Nat.sub_diag by lia.
      - destruct (commits_to_view _ _ _ _ _ Hto) as (s & Hv & Hb & Hg). exists s. split_and!; try done.
        rewrite Hg, tracker_gc_snoc by lia. symmetry. by apply (sequence_stream ds log last). }
    split.
    + intros i Hi. rewrite length_app in Hi. simpl in Hi. destruct (decide (i = length log)) as [->|Hne]; [by exists (length ds), b|].
      destruct (IH1 i ltac:(lia)) as (k & x & H). exists k, x. apply committed_slot_app; [lia|done].
    + intros k x [Hk|[Hge Hk]]%lookup_app_Some.
      * destruct (IH2 k x Hk) as (i & Hi & H). exists i. split; [rewrite length_app; lia|by apply committed_slot_app].
      * apply list_lookup_singleton_Some in Hk as [Ek [= <-]]. exists (length log). split; [rewrite length_app; simpl; lia|].
        by replace k with (length ds) by lia.
Qed.
Section anchors.
Context (Hdepth : 2 <= gc_depth (protocol_config ctx)).
Context (leader : N -> N) (ds : list LeaderStatus) (log : list CommittedSubDag) (last : option TrustedCommit) (Hs : sequence ds log last).
Context (Hcon : schedule_unchanged ctx leader log).

Lemma leader_slot i sd l : log !! i = Some sd -> sub_dag_leader sd l -> exists k, committed_slot log ds i k l.
Proof.
  intros Hi [Hl El]. destruct (proj1 (sequence_slots ds log last Hs) i) as (k & b & Hb); [by apply lookup_lt_Some in Hi|].
  exists k. assert (b = l) as ->; [|done]. destruct (sl_commit _ _ _ _ _ Hb) as (sd' & Hi' & El'). assert (sd' = sd) as -> by congruence.
  apply (hu_ref _ _ _ Hu); [apply (sl_univ _ _ _ _ _ Hb)| |congruence].
  apply (ct_univ _ _ _ (proj1 (sequence_stream ds log last Hs))), pool_position. by exists i, sd.
Qed.

(** With the direct rule, every later leader has a certificate below it. *)
Lemma direct_anchored i m sdi sdm l lm s :
  settles log i m -> log !! i = Some sdi -> log !! m = Some sdm -> sub_dag_leader sdi l -> sub_dag_leader sdm lm ->
  good_view c univ s -> gc_round s <= round l -> reached_quorum c (stake_of c (supporters c s l)) = true ->
  exists y, leader_cert c univ y l /\ hist univ lm (reference y).
Proof.
  intros (x & x' & Ex & Ex' & Hr & Hw) Hi Hm [Hl El] Hlm Hv Hg Hq. assert (x = sdi) as -> by congruence. assert (x' = sdm) as -> by congruence.
  destruct (leader_slot m sdm lm Hm Hlm) as (km & Sm). destruct (sl_view _ _ _ _ _ Sm) as (s2 & Hv2 & Hlm2 & Hg2).
  assert (round l = sub_round sdi /\ round lm = sub_round sdm) as [Rl Rm].
  { unfold sub_round. by rewrite <- El, <- (proj2 Hlm). }
  apply (certified_anchor s2); [done|]. apply (supported_certified c byz univ Hu s s2); try done; [|lia]. rewrite Hg2.
  destruct m as [|m]; [simpl; lia|]. simpl. destruct (lookup_lt_is_Some_2 log m) as [prev Hp]; [apply lookup_lt_Some in Hm; lia|].
  rewrite Hp. specialize (Hw m prev ltac:(lia) Hp). unfold context_gc_round, saturating_sub. lia.
Qed.

(** With the indirect rule, the anchor is the leader that settles the commit. *)
Lemma indirect_anchored i m sdi sdm l lm s r L n A :
  settles log i m -> log !! i = Some sdi -> log !! m = Some sdm -> sub_dag_leader sdi l -> sub_dag_leader sdm lm ->
  good_view c univ s -> gc_round s < r -> round l = r -> decided_from c s (slot_at leader) (r + 1) L ->
  L !! (2 + n)%nat = Some (StatusCommit A) -> (forall j, (j < n)%nat -> exists sl, L !! (2 + j)%nat = Some (StatusSkip sl)) ->
  A = lm.
Proof.
  intros (x & x' & Ex & Ex' & Hr & Hw) Hi Hm [Hl El] Hlm Hv Hg Hlr Hd HA Hskip. assert (x = sdi) as -> by congruence. assert (x' = sdm) as -> by congruence.
  destruct (leader_slot m sdm lm Hm Hlm) as (km & Sm). pose proof (sl_round _ _ _ _ _ Sm) as Rm. pose proof (sl_status _ _ _ _ _ Sm) as Hkm.
  assert (round l = sub_round sdi /\ round lm = sub_round sdm) as [Rl Rlm] by (unfold sub_round; by rewrite <- El, <- (proj2 Hlm)).
  assert (forall j st, L !! (2 + j)%nat = Some st -> is_decided st = true -> decides ctx univ (S := S) leader (r + 3 + N.of_nat j) st) as HL.
  { intros j st Hj Hst. exists s, (drop (3 + j) L). split_and!; [done|lia| |done].
    pose proof (decided_from_drop c s (slot_at leader) (r + 1) L (2 + j) Hd) as Hd'. rewrite (drop_S L st (2 + j) Hj) in Hd'.
    by replace (r + 3 + N.of_nat j) with (r + 1 + N.of_nat (2 + j)) by lia. }
  pose proof (sequence_decides leader ds log last Hs Hcon) as Hds.
  pose proof (decides_round leader _ A (HL n _ HA eq_refl)) as [RA UA].
  destruct (N.lt_trichotomy (round lm) (r + 3 + N.of_nat n)) as [Hlt|[E|Hgt]].
  - destruct (Hskip (N.to_nat (round lm - (r + 3)))) as [sl Hsl]; [lia|]. pose proof (HL _ _ Hsl eq_refl) as D1.
    pose proof (Hds km _ Hkm) as D2. replace (r + 3 + N.of_nat (N.to_nat (round lm - (r + 3)))) with (N.of_nat km + 1) in D1 by lia.
    by pose proof (decides_unique ctx byz univ Hu leader _ _ _ D1 D2).
  - pose proof (HL n _ HA eq_refl) as D1. pose proof (Hds km _ Hkm) as D2. rewrite <- E, Rm in D1.
    pose proof (decides_unique ctx byz univ Hu leader _ _ _ D1 D2) as E'. by injection E'.
  - exfalso. destruct (lookup_lt_is_Some_2 ds (N.to_nat (r + 2 + N.of_nat n))) as [st Hst]; [apply lookup_lt_Some in Hkm; lia|].
    pose proof (Hds _ _ Hst) as D2. replace (N.of_nat (N.to_nat (r + 2 + N.of_nat n)) + 1) with (r + 3 + N.of_nat n) in D2 by lia.
    pose proof (decides_unique ctx byz univ Hu leader _ _ _ (HL n _ HA eq_refl) D2) as <-.
    destruct (proj2 (sequence_slots ds log last Hs) _ _ Hst) as (m' & Hm' & Sm'). destruct (sl_commit _ _ _ _ _ Sm') as (sd' & Hsd' & El').
    assert (sub_round sd' = round A) as Rsd by (unfold sub_round; by rewrite El').
    destruct (le_lt_dec m m') as [Hle|Hlt'].
    + pose proof (fs_stream _ _ (ct_fresh _ _ _ (proj1 (sequence_stream ds log last Hs)))) as W.
      destruct (decide (m = m')) as [->|Hne]; [assert (sd' = sdm) as -> by congruence; lia|].
      pose proof (rounds_increase ctx log m m' sdm sd' W Hm Hsd' ltac:(lia)). lia.
    + specialize (Hw m' sd' Hlt' Hsd'). lia.
Qed.

Lemma sequence_anchored : anchored ctx univ log.
Proof.
  intros i m sdi sdm l lm Hset Hi Hm Hl Hlm. destruct (leader_slot i sdi l Hi Hl) as (k & Sl).
  pose proof (sequence_decides leader ds log last Hs Hcon k _ (sl_status _ _ _ _ _ Sl)) as (s & L & Hv & Hg & Hd & _).
  pose proof (sl_round _ _ _ _ _ Sl) as Rl. destruct (decided_commit s _ _ l L Hd) as (Hd' & _ & _ & [Hq|(n & A & HA & Hsk & Hc)]).
  - apply (direct_anchored i m sdi sdm l lm s); try done. lia.
  - assert (A = lm) as -> by (eapply (indirect_anchored i m sdi sdm l lm s); eauto). by apply (certified_anchor s).
Qed.
End anchors.
End commits.

(* ------------------------------------------------------------------ *)
(** ** Properties *)

(** C10: A node feeds its finalizer what it relies on.  In the setting of the
    theorems about the core, with blocks of at most 65535 transactions, an
    observer never panics, and the commits that it sends to the finalizer are
    a stream of the network: consecutive, disjoint, each with the leader and
    blocks of its history, above the GC round of the commit before, and
    closed under ancestors above it, without verdicts.  While the leader
    schedule does not change and the GC depth is at least two, the leader that
    settles a commit has a certificate of its leader in its history. *)
Theorem observer_feeds_finalizer `{RngLaws} {P} `{!Proposer P MemStore}
    (bcs_to_bytes : SignedBlock -> list byte) (bcs_commit : Commit -> list byte) (default_hash : list byte -> N)
    (ctx context : Context) (byz : gset N) (univ : VerifiedBlock -> Prop) (events : list node_event) :
  config_ok ctx -> honest_universe (committee ctx) byz univ ->
  sound_universe (committee ctx) (genesis_map bcs_to_bytes default_hash ctx) univ ->
  (forall b, univ b -> N.of_nat (length (transactions b)) <= u16_MAX) ->
  same_network ctx context -> node_events_ok univ context events ->
  exists self : Core P MemStore,
    observer_run bcs_to_bytes bcs_commit default_hash context events = Ok self
    /\ committed_stream ctx univ (fh_sent (co_handle self))
    /\ forall leader, 2 <= gc_depth (protocol_config ctx) -> schedule_unchanged ctx leader (fh_sent (co_handle self)) ->
       decided_stream ctx univ (fh_sent (co_handle self)).
Proof.
  intros Hctx Hu Hsu Hfits Hn He.
  destruct (observer_run_Ok (P := P) bcs_to_bytes bcs_commit default_hash ctx Hctx byz univ Hu Hsu context events Hn He)
    as (self & ds & log & E & K).
  exists self. rewrite (ck_sent _ _ _ _ _ _ _ _ _ K). simpl. pose proof (ck_seq _ _ _ _ _ _ _ _ _ K) as Q.
  destruct (sequence_stream _ _ _ _ _ _ Hu Hsu Hfits _ _ _ Q) as [Cs _]. split_and!; [done|done|].
  intros leader Hd Hcon. constructor; [done|].
  by apply (sequence_anchored _ _ _ _ _ _ Hu Hsu Hfits Hd leader _ _ _ Q Hcon).
Qed.

#[local] Existing Instances first_rng first_rng_laws no_proposer.

Lemma observer_feeds_finalizer_witness :
  exists self, sample_run events_in_order = Ok self
    /\ committed_stream observer_context sample_universe (fh_sent (co_handle self))
    /\ forall leader, 2 <= gc_depth (protocol_config observer_context) ->
       schedule_unchanged observer_context leader (fh_sent (co_handle self)) ->
       decided_stream observer_context sample_universe (fh_sent (co_handle self)).
Proof.
  refine (observer_feeds_finalizer no_bytes no_commit_bytes hash_7 observer_context observer_context ∅
    sample_universe events_in_order observer_config_ok sample_universe_honest sample_universe_sound _
    observer_network events_in_order_ok).
  unfold sample_universe. rewrite <- Forall_forall. apply (bool_decide_eq_true_1 _). vm_compute. reflexivity.
Defined.
